(* ===== verification/_CoqProject ===== *)
-Q . S2P
Prelude.v
Types.v
Protocol.v
Storage.v
ChunkIndex.v
Pack.v
Crypto.v
Key.v
Format.v
Compress.v
DedupCache.v
Retention.v
Lock.v
LockProtocol.v
Repo.v
Compact.v
ReadPath.v
Snapshots.v
SnapshotCache.v
WriteSession.v
Accounting.v
Recovery.v
Commit.v
ServerPath.v
Server.v
ServerRepack.v
ServerRead.v
Rest.v
CheckServer.v
Check.v
Repair.v
FileCache.v
Backup.v
Pipeline.v
Restore.v
RestoreTree.v
Mount.v
Backends.v
S3.v
Sftp.v
Find.v
Hooks.v
Identity.v
