(* ===== verification/Prelude.v ===== *)
(** * Verification of the vykar backup tool: root file and shared prelude

    vykar stores deduplicated, compressed and encrypted backups in a key-value
    store (a directory, SFTP, S3 or its own server).  Files are cut into
    chunks named by a keyed hash; chunks are gathered into packs
    ([packs/xx/id]); one object ([index]) maps each chunk to its pack, offset,
    size and number of references; a snapshot ([snapshots/id]) names the
    chunks that hold its list of items, and each item the chunks of its file.
    Backups run side by side and record what they add in a delta, which is
    merged into the index at commit under a lock ([locks/]); delete, prune and
    compact run alone, after checking that no backup session ([sessions/]) is
    alive.  The client keeps local tables derived from the index.

    ** What is modelled, and where (crates/ under src/)

    - Prelude: results, machine integers with their wrap-around, little-endian
      bytes, slices, sorting, sums over maps, tactics and the hint database.
    - Types (vykar-types): identifiers, storage keys, errors.
    - Protocol (vykar-protocol): pack constants, validation shared with the
      server, repack messages.
    - Storage (vykar-storage/src/lib.rs): the backend trait as operations of a
      state and error monad [M] over [World], a store with a schedule of
      faults; [triple], [preserves] and [computes] are the program logic all
      later files reason with.
    - ChunkIndex (vykar-core/src/index/mod.rs): index, delta, journal.
    - Pack (repo/pack.rs): the pack writer and the pack format.
    - Crypto, Key (vykar-crypto): engines behind the class [LawfulEngine], the
      wrapped master key.
    - Format (repo/format.rs): typed, encrypted objects bound to a context.
    - Compress (compress/mod.rs): tagged compression with limits.
    - DedupCache (index/dedup_cache.rs): the local tables, their merge and the
      tiered lookup.
    - Retention (repo/manifest.rs, prune.rs): which snapshots a policy keeps.
    - Lock (repo/lock.rs, commands/util.rs): one client's locks and sessions.
    - LockProtocol: many clients interleaving those calls, a step relation
      with its invariants.
    - Repo (repo/mod.rs): the repository handle, loading and saving the index.
    - Compact (commands/compact.rs): the whole compaction command.
    - ReadPath (repo/mod.rs): blob cache, single and coalesced reads.
    - Snapshots (snapshot/, commands/list.rs, snapshot_ops.rs, delete.rs,
      prune.rs): metadata, item streams, delete and prune.
    - SnapshotCache (repo/snapshot_cache.rs): the list of snapshots and its
      local cache.
    - WriteSession, Accounting, Recovery, Commit (repo/write_session.rs,
      repo/mod.rs): the write path of a backup, what a session has taken in,
      how one begins and takes over an interrupted one, and the commit.
    - ServerPath, Server, ServerRepack, ServerRead (vykar-server): paths,
      uploads, deletions, quota, append-only mode, repacks, reads and the
      verification of packs.
    - Rest (vykar-storage/src/rest_backend.rs, retry.rs): the client of that
      server over a network that fails.
    - CheckServer, Check, Repair (commands/check.rs): checking with and
      without the server's help, and repairing.
    - FileCache (repo/file_cache.rs): unchanged files are not read again.
    - Backup, Pipeline (commands/backup/): the backup of a source entry by
      entry, and the same by threads, as a step relation.
    - Restore, RestoreTree (commands/restore.rs): planning, range reads and
      the writing threads; the tree a restore leaves.
    - Mount (commands/mount.rs): the tree of a snapshot and its open files.
    - Backends (vykar-storage/src/lib.rs, local_backend.rs, limits.rs):
      repository URLs, the local directory, bandwidth limits.
    - S3 (vykar-storage/src/s3_backend.rs): a bucket, with tombstones and
      paged listings.
    - Sftp (vykar-storage/src/sftp_backend.rs): the methods over SFTP with
      their retries, host keys, and the pool of connections as a step
      relation.
    - Find (commands/find.rs): the history of paths across snapshots.
    - Hooks (hooks.rs, config/hooks.rs): the user's commands around an
      operation, and the quoting of values in them.
    - Identity (repo/identity.rs, app/check_state.rs): pinned repositories and
      the time of the last full check.

    A function of the source is a definition of the same name where Rocq
    allows it; its early returns are branches, [Result] is [result] with
    [VykarError], and code that talks to the store is in [M].  Integers are
    [Z] with the wrap-around of release builds written out; [HashMap] is
    [gmap], and a loop over one is a fold or visits [map_to_list], so that
    nothing may depend on its order.

    ** What the theorems show

    - No data is lost, at every fault schedule: compaction
      ([compact_loses_nothing]), delete and prune ([delete_keeps_cover],
      [prune_keeps_cover]) leave a store whose index covers all snapshots in
      it and whose chunks can be read, wherever they stop; and what is covered
      can be restored ([covered_snapshot_restores]).
    - Committing a delta conserves references and locations and detects
      chunks deleted meanwhile ([commit_conserves_references],
      [commit_locations], [reconcile_stale_iff]); deleting releases exactly
      the references of a snapshot.
    - Optimised routines equal their references: the merged local cache equals
      the rebuilt one, derived caches equal direct ones, binary search equals
      lookup, the tiered filter is transparent, coalesced reads equal single
      reads, streaming encryption equals buffered encryption.
    - A backup is faithful: a session accounts for all it is given
      ([session_accounts]), an interrupted one can be resumed
      ([resumed_session_sound]), the commit publishes a snapshot that is
      covered or nothing ([commit_publishes]); the items of a source and their
      chunks are those of the walk ([backup_source_faithful]); the threads do
      the same in every interleaving and always come to an end
      ([parallel_backup_faithful], [parallel_equals_in_order],
      [pipeline_always_finishes]); the file cache changes nothing
      ([file_cache_transparent]).
    - A restore into an empty directory leaves the tree of the snapshot, and
      restored and mounted files have the contents that were stored
      ([restore_writes_contents], [mounted_file_is_its_bytes],
      [mounted_tree_exact]); a search finds the history of every path
      ([find_exact]).
    - A check that finds nothing means that all can be restored, also when
      the server does the reading; a repair restores the index
      ([clean_check_restores], [server_verify_sound],
      [repair_restores_index]).
    - Every backend is what Storage.v assumes of one: the server reached over
      REST, a local directory, a bucket ([rest_refines_storage],
      [local_refines_storage], [s3_refines_storage], [s3_list_exact]); limits
      change no answer ([throttled_is_transparent]).  SFTP is, but for a put
      that is cut short ([sftp_refines_storage_but_put],
      [interrupted_put_loses_object]); its pool of connections is bounded and
      leaks no slot ([pool_bounded]).  The server keeps what is append-only, counts its quota exactly and repacks without loss
      ([append_only_safe], [quota_usage_exact], [repack_keeps_blobs]).
    - Hooks run in the order that is documented and only those before an
      operation decide whether it runs ([hooks_lifecycle]); a pinned identity
      stands until the user overrules it ([pin_stands]).
    - Round trips of packs, objects, keys, compression, caches, journals and
      item streams.
    - Objects and key parameters cannot be exchanged without a forgery.
    - Exclusion: at most one client holds the lock, maintenance and sessions
      exclude each other under any interleaving, if lock keys are stored in
      the order of their time stamps; [late_put_breaks_exclusion] shows that
      this condition is needed.  [compact_twice_loses_a_chunk] shows that the
      starting condition of [compact_loses_nothing] is needed and that an
      interrupted compaction violates it.
    - Policies keep exactly the snapshots their rules name and never all of a
      source's snapshots are pruned; caches and decompression are bounded.

    ** Parameters and hypotheses

    Third-party code appears as classes with its documented laws, each with a
    concrete instance that shows the laws can hold: [HexCodec], [Blake2b],
    [Aead], [Argon2], [MsgPack], [IndexCodec], [ItemStream], [Codecs] (LZ4 and
    ZSTD), [Xor8], [Json], [Rfc3339], [Calendar], [ChunkLru], [S3Api] with
    [S3Promises] (a bucket and its network), [SftpApi] with [SftpPromises]
    (an SFTP server and its network).  Random draws, clocks, the
    shutdown flag and the lock fence are arguments; the fence may touch lock
    objects only, which Lock.v's fence does.  Where a theorem is about hashes,
    the absence of the collisions that would matter is a named hypothesis.

    ** Bounds and fuel

    [merge_loop] and [bsearch] run on the number of entries, [scan_loop],
    [scan_frames], [decode_loop], [read_loop], [skip_loop] and [drain_ready]
    on the length of their input, [verify_batches] on the number of packs,
    [retry_loop] and [retry_loop_op] on the configured retries,
    [read_range_loop] on the bytes wanted, [list_pages] on a page for every
    key and one more, [ancestor_selected] on the length of the path; the
    lemmas next to them show that this is always enough.  The schedules of the
    threads of a backup and of a restore are bounded by a measure that every
    step makes smaller.  Links of the destination of a restore are followed
    [FS_FUEL] times, where the system answers that there are too many.  An
    index is assumed to stay within the metadata limit of the decompressor
    ([index_fits]), since a larger one could be written but not read back.
    The arithmetic of the bandwidth limiter, on floats in the source, is exact.

    ** What is not modelled

    The chunker, compression and encryption themselves, which are libraries;
    the walk of directories and the dumps of commands, whose entries and
    output are inputs of the backup; metadata and renames at the end of a
    restore; the markup of pages and the loop of the mount server; the
    listings of the REST backend; the SSH library and what an SFTP listing
    returns; the reading of configuration files; the command-line and desktop interfaces.  Work that
    threads share is a step relation in Pipeline.v and Restore.v and done in
    one order elsewhere. *)

From stdpp Require Export base tactics numbers list gmap sets strings sorting.
From Stdlib Require Export ZArith Lia Ascii.

#[export] Set Default Goal Selector "!".

(** The development's scope: everything here works on Rust integers as [Z]. *)
#[global] Open Scope Z_scope.

Create HintDb vykar discriminated.
Create Rewrite HintDb vykar_len.

(** [naive_solver] and friends clear hypotheses that dependent rewriting may
    already have consumed; the note about it is of no use here. *)
#[export] Set Warnings "-clear-no-such-hyp".

(** ** Results: Rust's [Result<T, E>] *)

Inductive result (E A : Type) : Type :=
  | Ok (a : A)
  | Err (e : E).
Arguments Ok {E A} a.
Arguments Err {E A} e.

#[export] Instance result_ret {E} : MRet (result E) := fun A a => Ok a.
#[export] Instance result_bind {E} : MBind (result E) := fun A B f m =>
  match m with Ok a => f a | Err e => Err e end.
#[export] Instance result_fmap {E} : FMap (result E) := fun A B f m =>
  match m with Ok a => Ok (f a) | Err e => Err e end.

Definition is_ok {E A} (r : result E A) : bool :=
  match r with Ok _ => true | Err _ => false end.

(** [option::ok_or]: [None] becomes the given error. *)
Definition ok_or {E A} (o : option A) (e : E) : result E A :=
  match o with Some a => Ok a | None => Err e end.

(** As an [Inj] instance: injecting by name keeps the contents as they are. *)
#[export] Instance Ok_inj {E A} : Inj (=) (=) (@Ok E A).
Proof. by intros x y [= ->]. Qed.

Lemma bind_Ok {E A B} (m : result E A) (f : A -> result E B) b :
  m ≫= f = Ok b <-> exists a, m = Ok a /\ f a = Ok b.
Proof. destruct m; simpl; naive_solver. Qed.

Lemma bind_Err {E A B} (m : result E A) (f : A -> result E B) e :
  m ≫= f = Err e <-> m = Err e \/ exists a, m = Ok a /\ f a = Err e.
Proof. destruct m; simpl; naive_solver. Qed.

(** Take a chain of binds that succeeded apart. *)
Ltac inv_result :=
  repeat match goal with
  | H : Ok _ = Ok _ |- _ => injection H as H; try subst
  | H : Err _ = Err _ |- _ => injection H as H; try subst
  | H : Ok _ = Err _ |- _ => discriminate H
  | H : Err _ = Ok _ |- _ => discriminate H
  | H : mret _ = Ok _ |- _ => unfold mret, result_ret in H
  | H : (?m ≫= ?f) = Ok _ |- _ =>
      apply bind_Ok in H; destruct H as (? & ? & H)
  | H : ok_or ?o _ = Ok _ |- _ => destruct o eqn:?; simpl in H
  end.

(** Decide a closed proposition by evaluation. *)
Ltac by_eval := apply (bool_decide_unpack _); vm_compute; exact I.

(** ** Machine integers

    [u32] and [u64] are [Z] with the wrap-around of a release build
    (Cargo.toml sets no overflow checks for [profile.release]). *)

Definition u8_max : Z := 255.
Definition u32_modulus : Z := 2 ^ 32.
Definition u64_modulus : Z := 2 ^ 64.
Definition u32_max : Z := u32_modulus - 1.
Definition u64_max : Z := u64_modulus - 1.

Definition u32_wrap (z : Z) : Z := z mod u32_modulus.
Definition u64_wrap (z : Z) : Z := z mod u64_modulus.
Definition u32_add (a b : Z) : Z := u32_wrap (a + b).
Definition u64_add (a b : Z) : Z := u64_wrap (a + b).

(** [saturating_sub] and [saturating_add]. *)
Definition sat_sub (a b : Z) : Z := Z.max 0 (a - b).
Definition u64_sat_add (a b : Z) : Z := Z.min u64_max (a + b).

Definition u32 (z : Z) : Prop := 0 <= z < u32_modulus.
Definition u64 (z : Z) : Prop := 0 <= z < u64_modulus.

#[export] Instance u32_dec z : Decision (u32 z).
Proof. unfold u32. apply _. Defined.
#[export] Instance u64_dec z : Decision (u64 z).
Proof. unfold u64. apply _. Defined.

Lemma u32_wrap_small z : u32 z -> u32_wrap z = z.
Proof. intros. by apply Z.mod_small. Qed.
Lemma u64_wrap_small z : u64 z -> u64_wrap z = z.
Proof. intros. by apply Z.mod_small. Qed.
Lemma u32_wrap_u32 z : u32 (u32_wrap z).
Proof. apply Z.mod_pos_bound. done. Qed.
Lemma u64_wrap_u64 z : u64 (u64_wrap z).
Proof. apply Z.mod_pos_bound. done. Qed.
Lemma u32_add_u32 a b : u32 (u32_add a b).
Proof. apply u32_wrap_u32. Qed.
Lemma u32_add_small a b : u32 (a + b) -> u32_add a b = a + b.
Proof. apply u32_wrap_small. Qed.
Lemma u32_add_assoc a b c : u32_add a (u32_add b c) = u32_add (u32_add a b) c.
Proof.
  unfold u32_add, u32_wrap.
  rewrite Zplus_mod_idemp_r, Zplus_mod_idemp_l. f_equal. lia.
Qed.
Lemma u32_add_comm a b : u32_add a b = u32_add b a.
Proof. unfold u32_add. f_equal. lia. Qed.

#[export] Hint Resolve u32_wrap_u32 u64_wrap_u64 u32_add_u32 : vykar.

Ltac unfold_ints :=
  unfold u32, u64, u32_modulus, u64_modulus, u32_max, u64_max, sat_sub,
    u64_sat_add in *.

(** ** Byte strings: [Vec<u8>] and [&[u8]] as lists of [Z] in 0..255 *)

Abbreviation bytes := (list Z).

Definition is_byte (b : Z) : Prop := 0 <= b < 256.
Definition is_bytes (bs : bytes) : Prop := Forall is_byte bs.

(** A slice [&data[off..off + len]]; out of range it is shorter than [len],
    where Rust panics, so its users state the bound. *)
Definition slice {A} (off len : nat) (l : list A) : list A := take len (drop off l).

Lemma length_slice {A} off len (l : list A) :
  (off + len <= length l)%nat -> length (slice off len l) = len.
Proof. intros. unfold slice. rewrite length_take, length_drop. lia. Qed.

Lemma slice_app_skip {A} off len (l1 l2 : list A) :
  length l1 = off -> slice off len (l1 ++ l2) = take len l2.
Proof. intros <-. unfold slice. by rewrite drop_app_length. Qed.

Lemma slice_app_mid {A} (l1 l2 l3 : list A) :
  slice (length l1) (length l2) (l1 ++ l2 ++ l3) = l2.
Proof. unfold slice. by rewrite drop_app_length, take_app_length. Qed.

Lemma slice_mid {A} off len (a b c : list A) :
  length a = off -> length b = len -> slice off len (a ++ b ++ c) = b.
Proof. intros <- <-. apply slice_app_mid. Qed.

Lemma slice_head {A} len (b c : list A) : length b = len -> slice 0 len (b ++ c) = b.
Proof. apply (slice_mid 0 len []). done. Qed.

(** A slice that stays inside the first part of an append. *)
Lemma slice_app_l {A} off len (a b : list A) :
  (off + len <= length a)%nat -> slice off len (a ++ b) = slice off len a.
Proof.
  intros. unfold slice. rewrite drop_app_le by lia. rewrite take_app_le; [done|].
  rewrite length_drop. lia.
Qed.

Lemma slice_app_r {A} off len (a b : list A) :
  slice (length a + off) len (a ++ b) = slice off len b.
Proof. unfold slice. by rewrite drop_app_add. Qed.

Lemma slice_slice {A} a n b m (l : list A) :
  (a + n <= m)%nat -> slice a n (slice b m l) = slice (b + a) n l.
Proof.
  intros. unfold slice. rewrite skipn_firstn_comm, take_take, drop_drop. f_equal. lia.
Qed.

Lemma slice_drop {A} k off len (l : list A) :
  slice off len (drop k l) = slice (k + off) len l.
Proof. unfold slice. by rewrite drop_drop. Qed.

Lemma drop_split {A} k n (l : list A) : drop k l = slice k n l ++ drop (k + n) l.
Proof. unfold slice. rewrite <- drop_drop. by rewrite take_drop. Qed.

Lemma filter_all {A} (p : A -> bool) l : Forall (fun x => p x = true) l -> List.filter p l = l.
Proof. induction 1 as [|x l Hx Hl IH]; [done|]. cbn. by rewrite Hx, IH. Qed.

Lemma slice_join {A} off n m (l : list A) : slice off n l ++ slice (off + n) m l = slice off (n + m) l.
Proof. unfold slice. rewrite <- drop_drop. rewrite <- (take_drop n (take (n + m) (drop off l))), take_take, skipn_firstn_comm. f_equal; f_equal; lia. Qed.

Lemma Forall_slice {A} (P : A -> Prop) off len l : Forall P l -> Forall P (slice off len l).
Proof. intros. by apply Forall_take, Forall_drop. Qed.

(** [to_le_bytes] and [from_le_bytes] at [n] bytes. *)
Fixpoint le_bytes (n : nat) (z : Z) : bytes :=
  match n with
  | O => []
  | S n' => Z.land z 255 :: le_bytes n' (Z.shiftr z 8)
  end.

Fixpoint le_value (bs : bytes) : Z :=
  match bs with
  | [] => 0
  | b :: bs' => b + 256 * le_value bs'
  end.

Lemma length_le_bytes n z : length (le_bytes n z) = n.
Proof. revert z. induction n as [|n IH]; intros z; simpl; auto. Qed.

Lemma land_255 z : Z.land z 255 = z mod 256.
Proof. apply (Z.land_ones z 8). lia. Qed.

Lemma le_value_bytes n z : le_value (le_bytes n z) = z mod 256 ^ Z.of_nat n.
Proof.
  revert z. induction n as [|n IH]; intros z; simpl le_bytes; simpl le_value.
  { by rewrite Z.mod_1_r. }
  rewrite IH, land_255, Z.shiftr_div_pow2 by lia.
  rewrite Nat2Z.inj_succ, Z.pow_succ_r by lia.
  change (2 ^ 8) with 256.
  rewrite (Z.rem_mul_r z 256) by lia. lia.
Qed.

Lemma le_bytes_is_bytes n z : is_bytes (le_bytes n z).
Proof.
  revert z. induction n as [|n IH]; intros z; simpl; [constructor|].
  constructor; [|apply IH]. rewrite land_255. apply Z.mod_pos_bound. lia.
Qed.

Lemma le_value_bound bs :
  is_bytes bs -> 0 <= le_value bs < 256 ^ Z.of_nat (length bs).
Proof.
  induction 1 as [|b bs Hb _ IH]; simpl length; simpl le_value; [lia|].
  rewrite Nat2Z.inj_succ, Z.pow_succ_r by lia. unfold is_byte in Hb. nia.
Qed.

Lemma le_bytes_value bs : is_bytes bs -> le_bytes (length bs) (le_value bs) = bs.
Proof.
  induction 1 as [|b bs Hb Hbs IH]; simpl; [done|]. unfold is_byte in Hb.
  rewrite land_255, Z.shiftr_div_pow2 by lia. change (2 ^ 8) with 256.
  rewrite (Z.mul_comm 256), Z.div_add, Z.mod_add by lia.
  rewrite Z.mod_small, Z.div_small by lia. by rewrite Z.add_0_l, IH.
Qed.

Lemma le_value_bytes_u32 z : u32 z -> le_value (le_bytes 4 z) = z.
Proof. intros. rewrite le_value_bytes. by apply Z.mod_small. Qed.

Lemma le_value_bytes_u64 z : u64 z -> le_value (le_bytes 8 z) = z.
Proof. intros. rewrite le_value_bytes. by apply Z.mod_small. Qed.

#[export] Hint Resolve le_bytes_is_bytes : vykar.
#[export] Hint Rewrite @length_app @length_le_bytes @length_take @length_drop
  @length_fmap : vykar_len.

(** Lengths of concatenated byte strings. *)
Ltac len := autorewrite with vykar_len in *; simpl length in *; try lia.

(** ** Lexicographic order on byte strings: [<[u8] as Ord>::cmp] *)

Fixpoint bytes_cmp (a b : bytes) : comparison :=
  match a, b with
  | [], [] => Eq
  | [], _ :: _ => Lt
  | _ :: _, [] => Gt
  | x :: a', y :: b' =>
      match Z.compare x y with Eq => bytes_cmp a' b' | c => c end
  end.

Definition bytes_lt (a b : bytes) : Prop := bytes_cmp a b = Lt.
Definition bytes_leb (a b : bytes) : bool :=
  match bytes_cmp a b with Gt => false | _ => true end.

Lemma bytes_cmp_eq a b : bytes_cmp a b = Eq <-> a = b.
Proof.
  revert b. induction a as [|x a IH]; intros [|y b]; simpl; try naive_solver.
  destruct (Z.compare_spec x y) as [->| |]; rewrite ?IH; naive_solver lia.
Qed.

Lemma bytes_cmp_refl a : bytes_cmp a a = Eq.
Proof. by apply bytes_cmp_eq. Qed.

Lemma bytes_cmp_antisym a b : bytes_cmp b a = CompOpp (bytes_cmp a b).
Proof.
  revert b. induction a as [|x a IH]; intros [|y b]; simpl; auto.
  rewrite (Z.compare_antisym x y). destruct (Z.compare x y); simpl; auto.
Qed.

Lemma bytes_lt_trans a b c : bytes_lt a b -> bytes_lt b c -> bytes_lt a c.
Proof.
  unfold bytes_lt. revert b c.
  induction a as [|x a IH]; intros [|y b] [|z c]; simpl; try done.
  destruct (Z.compare_spec x y), (Z.compare_spec y z);
    destruct (Z.compare_spec x z); subst; try done; try lia; eauto.
Qed.

Lemma bytes_lt_irrefl a : ~ bytes_lt a a.
Proof. unfold bytes_lt. by rewrite bytes_cmp_refl. Qed.

Lemma bytes_leb_total a b : bytes_leb a b = true \/ bytes_leb b a = true.
Proof.
  unfold bytes_leb. rewrite (bytes_cmp_antisym a b).
  destruct (bytes_cmp a b); simpl; auto.
Qed.

Lemma bytes_leb_true a b : bytes_leb a b = true <-> a = b \/ bytes_lt a b.
Proof.
  unfold bytes_leb, bytes_lt. rewrite <- bytes_cmp_eq.
  destruct (bytes_cmp a b); naive_solver.
Qed.

Lemma bytes_leb_false a b : bytes_leb a b = false <-> bytes_lt b a.
Proof.
  unfold bytes_leb, bytes_lt. rewrite (bytes_cmp_antisym a b).
  destruct (bytes_cmp a b); simpl; naive_solver.
Qed.

Lemma bytes_leb_trans a b c :
  bytes_leb a b = true -> bytes_leb b c = true -> bytes_leb a c = true.
Proof.
  rewrite !bytes_leb_true. intros [->|?] [->|?]; eauto using bytes_lt_trans.
Qed.

(** ** Sorting: [slice::sort_by] is a stable sort *)

Section SortBy.
Context {A : Type} (leb : A -> A -> bool).

Fixpoint insert_by (x : A) (l : list A) : list A :=
  match l with
  | [] => [x]
  | y :: l' => if leb x y then x :: y :: l' else y :: insert_by x l'
  end.

Fixpoint sort_by (l : list A) : list A :=
  match l with
  | [] => []
  | x :: l' => insert_by x (sort_by l')
  end.

Lemma insert_by_perm x l : insert_by x l ≡ₚ x :: l.
Proof.
  induction l as [|y l IH]; simpl; [done|].
  destruct (leb x y); [done|]. rewrite IH. apply Permutation_swap.
Qed.

Lemma sort_by_perm l : sort_by l ≡ₚ l.
Proof. induction l as [|x l IH]; simpl; [done|]. by rewrite insert_by_perm, IH. Qed.

Lemma length_sort_by l : length (sort_by l) = length l.
Proof. apply Permutation_length, sort_by_perm. Qed.

Hypothesis leb_total : forall x y, leb x y = true \/ leb y x = true.
Hypothesis leb_trans :
  forall x y z, leb x y = true -> leb y z = true -> leb x z = true.

Let le x y := leb x y = true.

Lemma insert_by_sorted x l : StronglySorted le l -> StronglySorted le (insert_by x l).
Proof using leb_total leb_trans.
  induction 1 as [|y l Hs IH Hall]; simpl.
  { repeat constructor. }
  destruct (leb x y) eqn:E.
  - constructor; [by constructor|]. constructor; [done|].
    eapply Forall_impl; [exact Hall|]. intros z Hz. by eapply leb_trans.
  - constructor; [done|]. rewrite insert_by_perm. constructor; [|done].
    unfold le. destruct (leb_total x y); congruence.
Qed.

Lemma sort_by_sorted l : StronglySorted le (sort_by l).
Proof using leb_total leb_trans.
  induction l as [|x l IH]; simpl; [constructor|]. by apply insert_by_sorted.
Qed.
End SortBy.

(** Two sorted permutations of the same list agree when the order is
    antisymmetric on its elements: an unstable sort on distinct keys has one
    possible outcome. *)
Lemma sorted_perm_unique {A} (R : A -> A -> Prop) (l1 l2 : list A) :
  (forall x y, x ∈ l1 -> y ∈ l1 -> R x y -> R y x -> x = y) ->
  StronglySorted R l1 -> StronglySorted R l2 -> l1 ≡ₚ l2 -> l1 = l2.
Proof.
  revert l2. induction l1 as [|x l1 IH]; intros l2 Hanti H1 H2 Hp.
  { by apply Permutation_nil_l in Hp. }
  destruct l2 as [|y l2]; [by apply Permutation_nil_r in Hp|].
  inversion H1 as [|? ? Hs1 Ha1]; inversion H2 as [|? ? Hs2 Ha2]; subst.
  assert (x = y) as ->.
  { assert (x ∈ y :: l2) as [->|Hx]%elem_of_cons
      by (rewrite <- Hp; apply list_elem_of_here); [done|].
    assert (Hy : y ∈ x :: l1) by (rewrite Hp; apply list_elem_of_here).
    apply elem_of_cons in Hy as Hy'. destruct Hy' as [->|Hy']; [done|].
    rewrite Forall_forall in Ha1, Ha2.
    apply Hanti; [apply list_elem_of_here|done|by apply Ha1|by apply Ha2]. }
  f_equal. apply IH; try done.
  - intros a b ? ?. apply Hanti; by constructor.
  - by apply Permutation_cons_inv in Hp.
Qed.

(** ** Lists *)

Lemma StronglySorted_drop {A} (R : A -> A -> Prop) n l :
  StronglySorted R l -> StronglySorted R (drop n l).
Proof.
  intros Hs. revert n. induction Hs as [|x l Hs IH Hall]; intros [|n]; simpl;
    [constructor|constructor|by constructor|done].
Qed.

Lemma StronglySorted_weaken {A} (R S : A -> A -> Prop) l :
  (forall x y, R x y -> S x y) -> StronglySorted R l -> StronglySorted S l.
Proof.
  intros HRS. induction 1 as [|x l Hs IH Hall]; constructor; [done|].
  eapply Forall_impl; [exact Hall|]. auto.
Qed.

(** The head of a sorted list is below all of it. *)
Lemma StronglySorted_head {A} (R : A -> A -> Prop) `{!Reflexive R} x y l :
  StronglySorted R l -> head l = Some x -> y ∈ l -> R x y.
Proof.
  intros Hs Hx Hy. destruct Hs as [|z l Hs Hall]; [done|]. injection Hx as ->.
  apply elem_of_cons in Hy as [->|Hy]; [done|]. rewrite Forall_forall in Hall. by apply Hall.
Qed.

Lemma Forall_filter_keep {A} (P Q : A -> Prop) `{!forall x, Decision (Q x)} l :
  Forall P l -> Forall P (filter Q l).
Proof.
  rewrite !Forall_forall. intros HP x [_ Hx]%list_elem_of_filter. by apply HP.
Qed.

Lemma Forall2_both {A B} (P Q : A -> B -> Prop) l k :
  Forall2 P l k -> Forall2 Q l k -> Forall2 (fun a b => P a b /\ Q a b) l k.
Proof. induction 1; inversion 1; auto. Qed.

Lemma Forall2_impl_in {A B} (P Q : A -> B -> Prop) l k :
  Forall2 P l k -> (forall x y, x ∈ l -> P x y -> Q x y) -> Forall2 Q l k.
Proof.
  induction 1 as [|x y l k Hxy Hlk IH]; intros HPQ; constructor.
  - apply HPQ; [apply list_elem_of_here|done].
  - apply IH. intros. apply HPQ; [by apply list_elem_of_further|done].
Qed.

(** ** Sums over lists *)

Fixpoint sum_Z {A} (f : A -> Z) (l : list A) : Z :=
  match l with [] => 0 | x :: l' => f x + sum_Z f l' end.

Lemma sum_Z_app {A} (f : A -> Z) l1 l2 : sum_Z f (l1 ++ l2) = sum_Z f l1 + sum_Z f l2.
Proof. induction l1; simpl; lia. Qed.

Lemma sum_Z_perm {A} (f : A -> Z) l1 l2 : l1 ≡ₚ l2 -> sum_Z f l1 = sum_Z f l2.
Proof. induction 1; simpl; lia. Qed.

Lemma sum_Z_ext {A} (f g : A -> Z) l : (forall x, x ∈ l -> f x = g x) -> sum_Z f l = sum_Z g l.
Proof. induction l as [|x l IH]; intros Hfg; [done|]. cbn [sum_Z]. rewrite Hfg by apply list_elem_of_here. f_equal. apply IH. intros. apply Hfg. by right. Qed.
Lemma sum_Z_zero {A} (f : A -> Z) l : (forall x, x ∈ l -> f x = 0) -> sum_Z f l = 0.
Proof. intros Hf. rewrite (sum_Z_ext f (fun _ => 0) l Hf). clear Hf. induction l as [|x l IH]; [done|]. cbn [sum_Z]. by rewrite IH. Qed.

Lemma sum_Z_nonneg {A} (f : A -> Z) l : (forall x, x ∈ l -> 0 <= f x) -> 0 <= sum_Z f l.
Proof.
  induction l as [|x l IH]; simpl; intros H; [lia|].
  assert (0 <= f x) by (apply H, list_elem_of_here).
  assert (0 <= sum_Z f l); [|lia]. apply IH. intros. apply H. by constructor.
Qed.

Lemma sum_Z_submseteq {A} (f : A -> Z) l1 l2 : (forall x, 0 <= f x) -> l1 ⊆+ l2 -> sum_Z f l1 <= sum_Z f l2.
Proof.
  intros Hf [k Hk]%submseteq_Permutation. rewrite (sum_Z_perm f _ _ Hk), sum_Z_app. pose proof (sum_Z_nonneg f k (fun x _ => Hf x)). lia.
Qed.

#[export] Instance sum_Z_proper {A} (f : A -> Z) : Proper ((≡ₚ) ==> (=)) (sum_Z f).
Proof. intros ???. by apply sum_Z_perm. Qed.

(** Summing the key's own entry out of a map. *)
Definition sum_map {K V} `{Countable K} (f : V -> Z) (m : gmap K V) : Z :=
  sum_Z (fun kv => f kv.2) (map_to_list m).

Section SumMap.
Context {K V : Type} `{Countable K} (f : V -> Z).

Lemma sum_map_empty : sum_map f (∅ : gmap K V) = 0.
Proof. unfold sum_map. by rewrite map_to_list_empty. Qed.

Lemma sum_map_insert (m : gmap K V) k v :
  m !! k = None -> sum_map f (<[k := v]> m) = f v + sum_map f m.
Proof. intros. unfold sum_map. rewrite map_to_list_insert by done. done. Qed.

Lemma sum_map_delete (m : gmap K V) k v :
  m !! k = Some v -> sum_map f (delete k m) = sum_map f m - f v.
Proof.
  intros Hk. rewrite <- (insert_delete_id m k v Hk) at 2.
  rewrite sum_map_insert by apply lookup_delete_eq. lia.
Qed.

Lemma sum_map_nonneg (m : gmap K V) :
  (forall k v, m !! k = Some v -> 0 <= f v) -> 0 <= sum_map f m.
Proof.
  intros Hf. apply sum_Z_nonneg. intros [k v] Hin%elem_of_map_to_list.
  by apply (Hf k).
Qed.
End SumMap.

(** ** A serialization of any countable type

    Third-party encodings appear as classes with a round-trip law; this one
    shows that the laws can hold, and lets the witnesses compute. *)

Fixpoint pos_bits (p : positive) : bytes :=
  match p with xH => [] | xO p => 0 :: pos_bits p | xI p => 1 :: pos_bits p end.
Fixpoint bits_pos (b : bytes) : positive :=
  match b with [] => xH | x :: b' => if x =? 0 then xO (bits_pos b') else xI (bits_pos b') end.

Lemma bits_pos_bits p : bits_pos (pos_bits p) = p.
Proof. induction p as [p IH|p IH|]; simpl; by rewrite ?IH. Qed.

Definition bits_encode {A} `{Countable A} (a : A) : bytes := pos_bits (encode a).
Definition bits_decode {A} `{Countable A} (b : bytes) : option A := decode (bits_pos b).

Lemma bits_decode_encode {A} `{Countable A} (a : A) : bits_decode (bits_encode a) = Some a.
Proof. unfold bits_decode, bits_encode. rewrite bits_pos_bits. apply decode_encode. Qed.
