(* ===== verification/Types.v ===== *)
(** * Identifiers, storage keys and errors (crates/vykar-types)

    [ChunkId], [PackId] and [SnapshotId] are the three 32-byte newtypes of
    src/chunk_id.rs, src/pack_id.rs and src/snapshot_id.rs, [VykarError] is the
    enum of src/error.rs.  The [hex] crate, which renders identifiers into
    storage keys, is third-party code: it is the class [HexCodec], whose laws
    are its documented behaviour, and [ascii_hex] shows they can hold. *)

From S2P Require Import Prelude.
#[local] Open Scope string_scope.
#[local] Open Scope Z_scope.

(** ** String operations of the standard library used on storage keys *)

(** [str::split(c)]. *)
Fixpoint split_on (c : ascii) (s : string) : list string :=
  match s with
  | EmptyString => [""]
  | String a s' =>
      if Ascii.eqb a c then "" :: split_on c s'
      else match split_on c s' with
           | [] => [String a ""]
           | x :: xs => String a x :: xs
           end
  end.

Definition slash : ascii := "/"%char.

(** [str::chars().all(p)] for a predicate that only ASCII characters pass. *)
Fixpoint str_all (p : ascii -> bool) (s : string) : bool :=
  match s with
  | EmptyString => true
  | String a s' => p a && str_all p s'
  end.

(** [str::starts_with]. *)
Fixpoint starts_with (s pre : string) : bool :=
  match pre, s with
  | EmptyString, _ => true
  | String a pre', String b s' => Ascii.eqb a b && starts_with s' pre'
  | String _ _, EmptyString => false
  end.

(** [str::strip_prefix]. *)
Fixpoint strip_prefix (s pre : string) : option string :=
  match pre, s with
  | EmptyString, _ => Some s
  | String a pre', String b s' => if Ascii.eqb a b then strip_prefix s' pre' else None
  | String _ _, EmptyString => None
  end.

(** [str::rsplit(c).next()]: the part after the last separator. *)
Definition rsplit_next (c : ascii) (s : string) : string :=
  List.last (split_on c s) "".

Definition is_digit (a : ascii) : bool :=
  let n := Ascii.nat_of_ascii a in (48 <=? n)%nat && (n <=? 57)%nat.
Definition digit_value (a : ascii) : option Z :=
  if is_digit a then Some (Z.of_nat (Ascii.nat_of_ascii a) - 48) else None.

Fixpoint parse_digits (acc : Z) (s : string) : option Z :=
  match s with
  | EmptyString => Some acc
  | String a s' => d ← digit_value a; parse_digits (10 * acc + d) s'
  end.
Definition is_lower_af (a : ascii) : bool :=
  let n := Ascii.nat_of_ascii a in (97 <=? n)%nat && (n <=? 102)%nat.
Definition is_upper_af (a : ascii) : bool :=
  let n := Ascii.nat_of_ascii a in (65 <=? n)%nat && (n <=? 70)%nat.

(** [char::is_ascii_hexdigit]. *)
Definition is_ascii_hexdigit (a : ascii) : bool :=
  is_digit a || is_lower_af a || is_upper_af a.

Lemma str_app_assoc (s t u : string) : s +:+ t +:+ u = (s +:+ t) +:+ u.
Proof. induction s as [|a s IH]; [done|]. exact (f_equal (String a) IH). Qed.

Lemma length_str_app (a b : string) : String.length (a +:+ b) = (String.length a + String.length b)%nat.
Proof. induction a as [|x a IH]; [done|]. exact (f_equal S IH). Qed.

Lemma str_all_app p s t : str_all p (s +:+ t) = str_all p s && str_all p t.
Proof. induction s as [|a s IH]; simpl; [done|]. rewrite IH. by rewrite andb_assoc. Qed.

Lemma str_all_impl (p q : ascii -> bool) s :
  (forall a, p a = true -> q a = true) -> str_all p s = true -> str_all q s = true.
Proof.
  intros Hpq. induction s as [|a s IH]; simpl; [done|].
  rewrite !andb_true_iff. naive_solver.
Qed.

Lemma split_on_nonempty c s : split_on c s <> [].
Proof. induction s as [|a s IH]; simpl; [done|]. destruct (Ascii.eqb a c); [done|].
  by destruct (split_on c s). Qed.

Lemma split_on_none c s :
  str_all (fun a => negb (Ascii.eqb a c)) s = true -> split_on c s = [s].
Proof.
  induction s as [|a s IH]; simpl; [done|].
  rewrite andb_true_iff, negb_true_iff. intros [-> Hs]. by rewrite IH.
Qed.

Lemma split_on_cons c s t :
  str_all (fun a => negb (Ascii.eqb a c)) s = true ->
  split_on c (s +:+ String c t) = s :: split_on c t.
Proof.
  induction s as [|a s IH]; simpl.
  { intros _. by rewrite Ascii.eqb_refl. }
  rewrite andb_true_iff, negb_true_iff. intros [-> Hs]. by rewrite IH.
Qed.

Lemma split_on_sep c s : Forall (fun t => str_all (fun a => negb (Ascii.eqb a c)) t = true) (split_on c s).
Proof.
  induction s as [|a s IH]; cbn; [by constructor|]. destruct (Ascii.eqb a c) eqn:Ha; [by constructor|].
  destruct (split_on c s) as [|x xs]; [constructor; [cbn; by rewrite Ha|done]|].
  inversion IH as [|? ? Hx Hxs]; subst. constructor; [cbn; by rewrite Ha|done].
Qed.

Lemma split_concat q : q <> [] -> Forall (fun c => str_all (fun a => negb (Ascii.eqb a slash)) c = true) q -> split_on slash (String.concat "/" q) = q.
Proof.
  intros Hn Hq. induction Hq as [|c q Hc Hq IH]; [done|]. destruct q as [|c' q]; [cbn [String.concat]; by rewrite split_on_none|].
  change (String.concat "/" (c :: c' :: q)) with (c +:+ String slash (String.concat "/" (c' :: q))). rewrite split_on_cons by done. by rewrite IH.
Qed.

Lemma rsplit_next_app c s t :
  str_all (fun a => negb (Ascii.eqb a c)) t = true ->
  rsplit_next c (s +:+ String c t) = t.
Proof.
  intros Ht. unfold rsplit_next.
  induction s as [|a s IH]; simpl.
  { rewrite Ascii.eqb_refl, split_on_none by done. done. }
  assert (Hne := split_on_nonempty c (s +:+ String c t)).
  destruct (Ascii.eqb a c).
  - simpl. destruct (split_on c (s +:+ String c t)); done.
  - destruct (split_on c (s +:+ String c t)) as [|x xs] eqn:E; [done|].
    destruct xs; [|done].
    exfalso. clear -E. revert x E.
    induction s as [|b s IH]; simpl; intros x.
    { rewrite Ascii.eqb_refl. intros [= _ E]. by apply split_on_nonempty in E. }
    destruct (Ascii.eqb b c).
    + intros [= _ E]. by apply split_on_nonempty in E.
    + destruct (split_on c (s +:+ String c t)) as [|y ys] eqn:Es.
      { by apply split_on_nonempty in Es. }
      intros [= _ ->]. by apply (IH y).
Qed.

(** [str::as_bytes]. *)
Fixpoint str_bytes (s : string) : bytes :=
  match s with
  | EmptyString => []
  | String a s' => Z.of_nat (Ascii.nat_of_ascii a) :: str_bytes s'
  end.

Lemma str_bytes_inj s t : str_bytes s = str_bytes t -> s = t.
Proof.
  revert t. induction s as [|a s IH]; intros [|b t]; simpl; try done.
  intros [= Ha Hs]. apply Nat2Z.inj in Ha. f_equal; [|by apply IH].
  by rewrite <- (Ascii.ascii_nat_embedding a), Ha, Ascii.ascii_nat_embedding.
Qed.

(** ** The rmp_serde crate *)

(** MessagePack encoding of a value: [to_vec] and [from_slice]; what was
    written is read back. *)
Class MsgPack (A : Type) := {
  mp_encode : A -> bytes;
  mp_decode : bytes -> option A;
  mp_decode_encode : forall a, mp_decode (mp_encode a) = Some a;
}.

(** ** The hex crate *)

(** [hex::encode] and [hex::decode]: two lower-case digits per byte, and
    decoding inverts encoding. *)
Class HexCodec := {
  hex_encode : bytes -> string;
  hex_decode : string -> option bytes;
  hex_decode_encode : forall bs, is_bytes bs -> hex_decode (hex_encode bs) = Some bs;
  hex_encode_length : forall bs, String.length (hex_encode bs) = (2 * length bs)%nat;
  hex_encode_digits : forall bs,
    is_bytes bs -> str_all (fun a => is_digit a || is_lower_af a) (hex_encode bs) = true;
}.

(** A concrete codec: the witness that the laws are satisfiable. *)
Definition hex_digit (n : Z) : ascii :=
  Ascii.ascii_of_nat (Z.to_nat (if n <? 10 then 48 + n else 87 + n)).

Definition hex_value (a : ascii) : option Z :=
  let n := Z.of_nat (Ascii.nat_of_ascii a) in
  if is_digit a then Some (n - 48)
  else if is_lower_af a then Some (n - 87)
  else if is_upper_af a then Some (n - 55)
  else None.

Fixpoint ascii_hex_encode (bs : bytes) : string :=
  match bs with
  | [] => ""
  | b :: bs' => String (hex_digit (b / 16)) (String (hex_digit (b mod 16)) (ascii_hex_encode bs'))
  end.

Fixpoint ascii_hex_decode (s : string) : option bytes :=
  match s with
  | EmptyString => Some []
  | String a (String b s') =>
      match hex_value a, hex_value b, ascii_hex_decode s' with
      | Some x, Some y, Some bs => Some (16 * x + y :: bs)
      | _, _, _ => None
      end
  | String _ EmptyString => None
  end.

(** A fact about all sixteen digits, by evaluation. *)
Lemma hex_digits_ok (n : nat) :
  (n < 16)%nat ->
  hex_value (hex_digit (Z.of_nat n)) = Some (Z.of_nat n) /\
  is_digit (hex_digit (Z.of_nat n)) || is_lower_af (hex_digit (Z.of_nat n)) = true.
Proof. intros. do 16 (destruct n as [|n]; [by vm_compute|]). lia. Qed.

Lemma hex_digit_ok (z : Z) :
  0 <= z < 16 ->
  hex_value (hex_digit z) = Some z /\
  is_digit (hex_digit z) || is_lower_af (hex_digit z) = true.
Proof.
  intros. destruct (hex_digits_ok (Z.to_nat z)) as [H1 H2]; [lia|].
  by rewrite Z2Nat.id in H1, H2 by lia.
Qed.

#[export] Program Instance ascii_hex : HexCodec := {|
  hex_encode := ascii_hex_encode;
  hex_decode := ascii_hex_decode;
|}.
Next Obligation.
  induction 1 as [|b bs Hb _ IH]; simpl; [done|]. unfold is_byte in Hb.
  assert (0 <= b / 16 < 16) by (split; [apply Z.div_pos|apply Z.div_lt_upper_bound]; lia).
  assert (0 <= b mod 16 < 16) by (apply Z.mod_pos_bound; lia).
  destruct (hex_digit_ok (b / 16)) as [-> _]; [done|].
  destruct (hex_digit_ok (b mod 16)) as [-> _]; [done|].
  rewrite IH. by rewrite <- Z.div_mod.
Qed.
Next Obligation. induction bs as [|b bs IH]; simpl; [done|]. rewrite IH. lia. Qed.
Next Obligation.
  induction 1 as [|b bs Hb _ IH]; simpl; [done|]. unfold is_byte in Hb.
  assert (0 <= b / 16 < 16) by (split; [apply Z.div_pos|apply Z.div_lt_upper_bound]; lia).
  assert (0 <= b mod 16 < 16) by (apply Z.mod_pos_bound; lia).
  destruct (hex_digit_ok (b / 16)) as [_ ->]; [done|].
  destruct (hex_digit_ok (b mod 16)) as [_ ->]; [done|]. done.
Qed.

Lemma hex_digit_not_slash a :
  is_digit a || is_lower_af a = true -> negb (Ascii.eqb a slash) = true.
Proof. destruct (Ascii.eqb_spec a slash) as [->|]; done. Qed.

Lemma hex_digit_is_hexdigit a :
  is_digit a || is_lower_af a = true -> is_ascii_hexdigit a = true.
Proof. unfold is_ascii_hexdigit. intros ->. done. Qed.

(** ** Errors: [VykarError] *)

(** The [std::io::ErrorKind]s the program tells apart. *)
Inductive IoErrorKind :=
  | PermissionDenied | NotFound | ConnectionRefused | ConnectionReset
  | ConnectionAborted | NotConnected | BrokenPipe | TimedOut | InterruptedIo | WouldBlock
  | UnexpectedEof | AlreadyExists | OtherKind.
#[export] Instance IoErrorKind_eq_dec : EqDecision IoErrorKind.
Proof. solve_decision. Defined.

(** [std::io::Error]: its kind and the raw OS error, when it has one. *)
Record IoError := { io_kind : IoErrorKind; raw_os_error : option Z }.

Record ChunkId := mkChunkId { chunk_bytes : bytes }.
Record PackId := mkPackId { pack_bytes : bytes }.
Record SnapshotId := mkSnapshotId { snapshot_bytes : bytes }.

(** The texts of the messages are the constant parts of the source's format
    strings. *)
Inductive VykarError :=
  | StorageError (what : string)
  | RepoNotFound (what : string)
  | RepoAlreadyExists (what : string)
  | DecryptionFailed
  | KeyDerivation (what : string)
  | SnapshotNotFound (name : string)
  | SnapshotAlreadyExists (name : string)
  | InvalidFormat (what : string)
  | UnknownObjectType (tag : Z)
  | UnknownCompressionTag (tag : Z)
  | UnsupportedVersion (v : Z)
  | Serialization
  | Deserialization
  | ConfigError (what : string)
  | UnsupportedBackend (what : string)
  | Io (e : IoError)
  | Locked (key : string)
  | ChunkNotInIndex (id : ChunkId)
  | Decompression (what : string)
  | HookError (what : string)
  | Interrupted
  | ActiveSessions (ids : list string)
  | StaleChunksDuringCommit
  | LockExpired (what : string)
  | RepositoryMismatch (what : string)
  | Other (what : string).

Abbreviation res := (result VykarError).

Definition is_eio (e : IoError) : bool :=
  match raw_os_error e with Some n => n =? 5 | None => false end.

Definition is_soft_file_error (e : VykarError) : bool :=
  match e with
  | Io e =>
      match io_kind e with
      | PermissionDenied | NotFound => true
      | _ => is_eio e
      end
  | _ => false
  end.

(** ** Identifiers *)

#[export] Instance ChunkId_eq_dec : EqDecision ChunkId.
Proof. solve_decision. Defined.
#[export] Instance PackId_eq_dec : EqDecision PackId.
Proof. solve_decision. Defined.
#[export] Instance SnapshotId_eq_dec : EqDecision SnapshotId.
Proof. solve_decision. Defined.
#[export] Program Instance ChunkId_countable : Countable ChunkId :=
  inj_countable' chunk_bytes mkChunkId _.
Next Obligation. by intros []. Qed.
#[export] Program Instance PackId_countable : Countable PackId :=
  inj_countable' pack_bytes mkPackId _.
Next Obligation. by intros []. Qed.
#[export] Program Instance SnapshotId_countable : Countable SnapshotId :=
  inj_countable' snapshot_bytes mkSnapshotId _.
Next Obligation. by intros []. Qed.

(** The array type [[u8; 32]]. *)
Definition is_id (bs : bytes) : Prop := length bs = 32%nat /\ is_bytes bs.

#[export] Instance is_byte_dec b : Decision (is_byte b).
Proof. unfold is_byte. apply _. Defined.
#[export] Instance is_bytes_dec bs : Decision (is_bytes bs).
Proof. unfold is_bytes. apply _. Defined.
#[export] Instance is_id_dec bs : Decision (is_id bs).
Proof. unfold is_id. apply _. Defined.

(** A test identifier: 32 times the same byte, as in the unit tests. *)
Definition id_of_byte (b : Z) : bytes := replicate 32 b.

Section Keys.
Context `{HexCodec}.

Definition to_hex (bs : bytes) : string := hex_encode bs.

(** [PackId::shard_prefix]. *)
Definition shard_prefix (p : PackId) : string := hex_encode (take 1 (pack_bytes p)).

(** [PackId::storage_key]. *)
Definition pack_storage_key (p : PackId) : string :=
  "packs/" +:+ shard_prefix p +:+ "/" +:+ to_hex (pack_bytes p).

(** [PackId::from_hex] (and [SnapshotId::from_hex]). *)
Definition id_from_hex (s : string) : result string bytes :=
  match hex_decode s with
  | None => Err "invalid hex"
  | Some bs => if (length bs =? 32)%nat then Ok bs else Err "expected 32 bytes"
  end.

Definition pack_from_hex (s : string) : result string PackId :=
  mkPackId <$> id_from_hex s.

(** [PackId::from_storage_key]. *)
Definition pack_from_storage_key (key : string) : result string PackId :=
  pack_from_hex (rsplit_next slash key).

(** [SnapshotId::storage_key] and [SnapshotId::from_hex]. *)
Definition snapshot_storage_key (s : SnapshotId) : string :=
  "snapshots/" +:+ to_hex (snapshot_bytes s).
Definition snapshot_from_hex (s : string) : result string SnapshotId :=
  mkSnapshotId <$> id_from_hex s.

Lemma id_from_hex_to_hex bs : is_id bs -> id_from_hex (to_hex bs) = Ok bs.
Proof.
  intros [Hl Hb]. unfold id_from_hex, to_hex. rewrite hex_decode_encode by done.
  by rewrite Hl.
Qed.

Lemma hex_encode_no_slash bs :
  is_bytes bs -> str_all (fun a => negb (Ascii.eqb a slash)) (hex_encode bs) = true.
Proof.
  intros Hb. eapply str_all_impl; [apply hex_digit_not_slash|].
  by apply hex_encode_digits.
Qed.

Lemma hex_encode_inj bs1 bs2 :
  is_bytes bs1 -> is_bytes bs2 -> hex_encode bs1 = hex_encode bs2 -> bs1 = bs2.
Proof.
  intros H1 H2 E. apply (f_equal hex_decode) in E.
  rewrite !hex_decode_encode in E by done. by injection E.
Qed.

Lemma is_bytes_take n bs : is_bytes bs -> is_bytes (take n bs).
Proof. apply Forall_take. Qed.

Lemma pack_from_storage_key_ok (p : PackId) :
  is_id (pack_bytes p) -> pack_from_storage_key (pack_storage_key p) = Ok p.
Proof.
  intros Hp. unfold pack_from_storage_key, pack_storage_key.
  assert (Happ : forall a b c d : string, a +:+ b +:+ c +:+ d = (a +:+ b) +:+ (c +:+ d)).
  { intros. by rewrite !str_app_assoc. }
  rewrite Happ. change ("/" +:+ to_hex (pack_bytes p)) with (String slash (to_hex (pack_bytes p))).
  rewrite rsplit_next_app by (apply hex_encode_no_slash; by destruct Hp).
  unfold pack_from_hex. rewrite id_from_hex_to_hex by done. by destruct p.
Qed.

Lemma pack_storage_key_inj p q :
  is_id (pack_bytes p) -> is_id (pack_bytes q) ->
  pack_storage_key p = pack_storage_key q -> p = q.
Proof.
  intros Hp Hq E. apply (f_equal pack_from_storage_key) in E.
  rewrite !pack_from_storage_key_ok in E by done. by injection E.
Qed.
End Keys.

#[export] Hint Resolve is_bytes_take hex_encode_no_slash : vykar.

Lemma starts_with_inv k pre : starts_with k pre = true -> exists r, k = pre +:+ r.
Proof.
  revert k. induction pre as [|a pre IH]; intros k; [by exists k|].
  destruct k as [|b k]; cbn [starts_with]; [done|]. intros [Ha Hk]%andb_true_iff.
  apply Ascii.eqb_eq in Ha as <-. destruct (IH k Hk) as [r ->]. by exists r.
Qed.

Lemma starts_with_prefix pre r : starts_with (pre +:+ r) pre = true.
Proof.
  induction pre as [|a pre IH]; [by destruct r|]. change (String a pre +:+ r) with (String a (pre +:+ r)). cbn [starts_with].
  by rewrite Ascii.eqb_refl.
Qed.

(** [str::parse::<u64>]: an optional plus sign, at least one digit, in range. *)
Definition parse_u64 (s : string) : option Z :=
  let digits := match s with String "+" s' => s' | _ => s end in
  match digits with
  | EmptyString => None
  | _ => n ← parse_digits 0 digits; if n <=? u64_max then Some n else None
  end.
