(* ===== verification/Protocol.v ===== *)
(** * Shared wire format (crates/vykar-protocol/src/lib.rs)

    Pack format constants, the protocol version check, the names a repository
    root may hold, and the validation of keys and blob ranges that client and
    server share. *)

From S2P Require Import Prelude Types.
#[local] Open Scope string_scope.
#[local] Open Scope Z_scope.

(** ** Pack format constants *)

(** [b"VGERPACK"]. *)
Definition PACK_MAGIC : bytes := [86; 71; 69; 82; 80; 65; 67; 75].
Definition PACK_HEADER_SIZE : nat := 9.
Definition PACK_VERSION_CURRENT : Z := 1.
Definition PACK_VERSION_MIN : Z := 1.
Definition PACK_VERSION_MAX : Z := PACK_VERSION_CURRENT.

Definition PROTOCOL_VERSION : Z := 1.
Definition MIN_PROTOCOL_VERSION : Z := 1.

Definition check_protocol_version (version : Z) : result string unit :=
  if version =? 0 then
    if 1 <? MIN_PROTOCOL_VERSION then Err "legacy client (no protocol version)" else Ok tt
  else if version <? MIN_PROTOCOL_VERSION then Err "protocol version too old"
  else if PROTOCOL_VERSION <? version then Err "protocol version not supported"
  else Ok tt.

(** ** Wire types *)

Record RepackBlobRef := mkRepackBlobRef { rb_offset : Z; rb_length : Z }.
Record RepackOperationRequest := mkRepackOp {
  source_pack : string;
  keep_blobs : list RepackBlobRef;
  delete_after : bool;
}.
Record RepackPlanRequest := mkRepackPlan {
  operations : list RepackOperationRequest;
  plan_protocol_version : Z;
}.
Record RepackOperationResult := mkRepackResult {
  res_source_pack : string;
  new_pack : option string;
  new_offsets : list Z;
  deleted : bool;
}.

(** ** Repository layout *)

Definition KNOWN_ROOT_FILES : list string := ["config"; "index"; "index.gen"; "manifest"].
Definition KNOWN_ROOT_DIRS : list string :=
  ["keys"; "snapshots"; "packs"; "locks"; "sessions"; "pending_index"].

Definition is_temp_file (name : string) : bool :=
  starts_with (rsplit_next slash name) ".tmp.".

Definition str_contains (l : list string) (s : string) : bool :=
  existsb (String.eqb s) l.

Definition is_known_repo_key (key : string) : bool :=
  str_contains KNOWN_ROOT_FILES key
  || existsb (fun d => match strip_prefix key d with
                       | Some (String a _) => Ascii.eqb a slash
                       | _ => false
                       end) KNOWN_ROOT_DIRS
  || is_temp_file key.

(** ** Transport-level validation *)

(** [str::trim_matches('/')]. *)
Fixpoint trim_start (c : ascii) (s : string) : string :=
  match s with
  | EmptyString => EmptyString
  | String a s' => if Ascii.eqb a c then trim_start c s' else s
  end.

Fixpoint trim_end (c : ascii) (s : string) : string :=
  match s with
  | EmptyString => EmptyString
  | String a s' =>
      match trim_end c s' with
      | EmptyString => if Ascii.eqb a c then EmptyString else String a EmptyString
      | t => String a t
      end
  end.

Definition trim_matches (c : ascii) (s : string) : string := trim_end c (trim_start c s).

Definition is_valid_pack_key (key : string) : bool :=
  match split_on slash (trim_matches slash key) with
  | [p0; p1; p2] =>
      String.eqb p0 "packs"
      && ((String.length p1 =? 2)%nat && str_all is_ascii_hexdigit p1
          && (String.length p2 =? 64)%nat && str_all is_ascii_hexdigit p2)
  | _ => false
  end.

(** [validate_blob_ref]; [checked_add] fails when the sum leaves [u64]. *)
Definition validate_blob_ref (offset length : Z) : result string unit :=
  if length =? 0 then Err "blob length must be > 0"
  else if u32_max <? length then Err "blob length exceeds pack format max"
  else if u64_max <? offset + length then Err "blob range overflow"
  else Ok tt.

(** ** Laws *)

Lemma trim_end_no c s :
  str_all (fun a => negb (Ascii.eqb a c)) s = true -> trim_end c s = s.
Proof.
  induction s as [|a s IH]; simpl; [done|].
  rewrite andb_true_iff, negb_true_iff. intros [-> Hs]. rewrite IH by done. by destruct s.
Qed.

Lemma trim_end_app c s t :
  trim_end c t = t -> t <> "" -> trim_end c (s +:+ t) = s +:+ t.
Proof.
  intros Ht Hne. induction s as [|a s IH]; [done|].
  change (String a s +:+ t) with (String a (s +:+ t)). simpl. rewrite IH.
  assert (s +:+ t <> "") by (by destruct s). by destruct (s +:+ t).
Qed.

Section PackKeys.
Context `{HexCodec}.

Lemma hex_encode_hexdigits bs :
  is_bytes bs -> str_all is_ascii_hexdigit (hex_encode bs) = true.
Proof.
  intros Hb. eapply str_all_impl; [apply hex_digit_is_hexdigit|].
  by apply hex_encode_digits.
Qed.

Lemma hex_encode_nonempty bs : bs <> [] -> hex_encode bs <> "".
Proof.
  intros Hne E. apply (f_equal String.length) in E.
  rewrite hex_encode_length in E. destruct bs; [done|]. simpl in E. lia.
Qed.

Lemma split_pack_storage_key p :
  is_id (pack_bytes p) ->
  split_on slash (pack_storage_key p) = ["packs"; shard_prefix p; hex_encode (pack_bytes p)].
Proof.
  intros [Hl Hb]. unfold pack_storage_key, to_hex.
  change ("packs/" +:+ shard_prefix p +:+ "/" +:+ hex_encode (pack_bytes p))
    with ("packs" +:+ String slash (shard_prefix p +:+ String slash (hex_encode (pack_bytes p)))).
  rewrite split_on_cons by done.
  rewrite split_on_cons by (apply hex_encode_no_slash; auto with vykar).
  by rewrite split_on_none by auto with vykar.
Qed.

(** Every key the client derives from a pack identifier passes the
    validation of pack keys. *)
Theorem pack_storage_key_valid p :
  is_id (pack_bytes p) -> is_valid_pack_key (pack_storage_key p) = true.
Proof.
  intros Hid. pose proof Hid as [Hl Hb]. unfold is_valid_pack_key.
  replace (trim_matches slash (pack_storage_key p)) with (pack_storage_key p).
  2:{ unfold trim_matches, pack_storage_key, to_hex.
      change (trim_start slash ?s) with s.
      rewrite !str_app_assoc. rewrite trim_end_app; [done| |].
      - apply trim_end_no; auto with vykar.
      - apply hex_encode_nonempty. by destruct (pack_bytes p). }
  rewrite split_pack_storage_key by done. unfold shard_prefix.
  rewrite !hex_encode_length, length_take, Hl. simpl.
  by rewrite !hex_encode_hexdigits by auto with vykar.
Qed.
End PackKeys.

Lemma pack_storage_key_valid_witness :
  is_valid_pack_key (pack_storage_key (mkPackId (id_of_byte 171))) = true.
Proof. apply (pack_storage_key_valid (mkPackId (id_of_byte 171))). by_eval. Defined.
