(* ===== verification/Storage.v ===== *)
(** * Object storage (crates/vykar-storage/src/lib.rs, trait [StorageBackend])

    A repository lives in a key-value store reached over a file system or a
    network, and any call may fail.  [World] is the store together with a
    schedule of faults, one per call: a call may fail before it has an effect,
    fail after it (the reply is lost), or be the point where the process dies,
    after which no call has any effect.  A theorem that holds for every
    schedule therefore covers a crash between any two storage calls. *)

From S2P Require Import Prelude Types.
#[local] Open Scope string_scope.
#[local] Open Scope Z_scope.

Inductive fault := NoFault | FailBefore | FailAfter | Crash.

Abbreviation Store := (gmap string bytes).

Record World := mkWorld { objects : Store; faults : list fault }.

(** ** The state and error monad of code that talks to the store *)

Definition M (A : Type) : Type := World -> res A * World.

#[export] Instance M_ret : MRet M := fun A a w => (Ok a, w).
#[export] Instance M_bind : MBind M := fun A B f m w =>
  match m w with
  | (Ok a, w') => f a w'
  | (Err e, w') => (Err e, w')
  end.

Definition fail {A} (e : VykarError) : M A := fun w => (Err e, w).
Definition lift {A} (r : res A) : M A := fun w => (r, w).

(** Run [m], keep its error as a value: [if let Err(e) = m]. *)
Definition try_ {A} (m : M A) : M (res A) := fun w => let '(r, w') := m w in (Ok r, w').

Definition exec {A} (m : M A) (w : World) : World := (m w).2.
Definition eval {A} (m : M A) (w : World) : res A := (m w).1.

Definition storage_error : VykarError := StorageError "i/o".

(** The fault of the next call; a crash stays. *)
Definition next_fault (w : World) : fault * World :=
  match faults w with
  | [] => (NoFault, w)
  | Crash :: _ => (Crash, w)
  | f :: fs => (f, mkWorld (objects w) fs)
  end.

(** A call that reads the store, and one that changes it. *)
Definition reading {A} (f : Store -> A) : M A := fun w =>
  match next_fault w with
  | (NoFault, w') => (Ok (f (objects w')), w')
  | (_, w') => (Err storage_error, w')
  end.

Definition writing (f : Store -> Store) : M unit := fun w =>
  match next_fault w with
  | (NoFault, w') => (Ok tt, mkWorld (f (objects w')) (faults w'))
  | (FailAfter, w') => (Err storage_error, mkWorld (f (objects w')) (faults w'))
  | (_, w') => (Err storage_error, w')
  end.

(** ** The trait's methods *)

Definition get (key : string) : M (option bytes) := reading (fun s => s !! key).
Definition put (key : string) (data : bytes) : M unit := writing <[key := data]>.
Definition del (key : string) : M unit := writing (delete key).
Definition exists_ (key : string) : M bool := reading (fun s => bool_decide (is_Some (s !! key))).
Definition list_keys (prefix : string) : M (list string) :=
  reading (fun s => List.filter (fun k => starts_with k prefix) (map_to_list s).*1).

(** A range read answers exactly [length] bytes or fails: a short read is an
    error. *)
Definition get_range (key : string) (offset length : Z) : M (option bytes) :=
  r ← reading (fun s => s !! key);
  match r with
  | None => mret None
  | Some data =>
      let got := slice (Z.to_nat offset) (Z.to_nat length) data in
      if (Z.of_nat (List.length got) =? length) then mret (Some got)
      else fail (Other "short read")
  end.

Definition size_of (key : string) : M (option Z) :=
  r ← get key; mret ((fun d => Z.of_nat (length d)) <$> r).

(** Run [f] on every element, in order, stopping at the first error. *)
Fixpoint for_each {A} (f : A -> M unit) (l : list A) : M unit :=
  match l with
  | [] => mret tt
  | x :: l' => _ ← f x; for_each f l'
  end.

(** [let _ = m]: the error is dropped. *)
Definition ignore {A} (m : M A) : M unit := _ ← try_ m; mret tt.

(** ** Reasoning over every schedule

    [triple P m Q E]: whatever faults occur, from a store satisfying [P], [m]
    either returns a value and leaves a store that satisfy [Q], or fails and
    leaves a store satisfying [E].  With [P] contained in [E], [E] is an
    invariant that survives a crash at any point. *)
Definition triple {A} (P : Store -> Prop) (m : M A) (Q : A -> Store -> Prop) (E : Store -> Prop) : Prop :=
  forall w, P (objects w) ->
  match m w with
  | (Ok a, w') => Q a (objects w')
  | (Err _, w') => E (objects w')
  end.

Lemma triple_ret {A} (P : Store -> Prop) (a : A) Q E :
  (forall s, P s -> Q a s) -> triple P (mret a) Q E.
Proof. intros HQ w HP. by apply HQ. Qed.

Lemma triple_fail {A} (P : Store -> Prop) e (Q : A -> Store -> Prop) E :
  (forall s, P s -> E s) -> triple P (fail e) Q E.
Proof. intros HE w HP. by apply HE. Qed.

Lemma triple_lift {A} (P : Store -> Prop) (r : res A) Q E :
  (forall s, P s -> match r with Ok a => Q a s | Err _ => E s end) -> triple P (lift r) Q E.
Proof. intros HE w HP. unfold lift. specialize (HE _ HP). by destruct r. Qed.

Lemma triple_bind {A B} (P : Store -> Prop) (m : M A) (R : A -> Store -> Prop) (f : A -> M B) Q E :
  triple P m R E -> (forall a, triple (R a) (f a) Q E) -> triple P (m ≫= f) Q E.
Proof.
  intros Hm Hf w HP. unfold mbind, M_bind. specialize (Hm w HP).
  destruct (m w) as [[a|e] w']; [|done]. by apply Hf.
Qed.

Lemma triple_weaken {A} (P P' : Store -> Prop) (m : M A) Q Q' (E E' : Store -> Prop) :
  triple P m Q E -> (forall s, P' s -> P s) -> (forall a s, Q a s -> Q' a s) ->
  (forall s, E s -> E' s) -> triple P' m Q' E'.
Proof.
  intros Hm HP HQ HE w Hw. specialize (Hm w (HP _ Hw)). destruct (m w) as [[a|e] w']; auto.
Qed.

(** A fact about values can be assumed. *)
Lemma triple_pure {A} (P : Store -> Prop) (phi : Prop) (m : M A) Q E :
  (phi -> triple P m Q E) -> triple (fun s => P s /\ phi) m Q E.
Proof. intros Hm w [HP Hphi]. by apply Hm. Qed.

Lemma triple_try {A} (P : Store -> Prop) (m : M A) Q E E' :
  triple P m Q E ->
  triple P (try_ m) (fun r s => match r with Ok a => Q a s | Err _ => E s end) E'.
Proof.
  intros Hm w HP. specialize (Hm w HP). unfold try_. destruct (m w) as [[a|e] w']; done.
Qed.

Lemma triple_reading {A} (P : Store -> Prop) (f : Store -> A) (E : Store -> Prop) :
  (forall s, P s -> E s) -> triple P (reading f) (fun a s => P s /\ a = f s) E.
Proof.
  intros HE w HP. unfold reading, next_fault.
  destruct (faults w) as [|[] fs]; simpl; auto.
Qed.

Lemma triple_writing (P : Store -> Prop) (f : Store -> Store) (Q E : Store -> Prop) :
  (forall s, P s -> E s) -> (forall s, P s -> Q (f s) /\ E (f s)) ->
  triple P (writing f) (fun _ => Q) E.
Proof.
  intros HE HQ w HP. unfold writing, next_fault.
  destruct (faults w) as [|[] fs]; simpl; auto; by apply HQ.
Qed.

(** An operation that keeps [I] whatever happens. *)
Definition preserves {A} (I : Store -> Prop) (m : M A) : Prop := triple I m (fun _ => I) I.

Lemma preserves_exec {A} I (m : M A) w : preserves I m -> I (objects w) -> I (objects (exec m w)).
Proof. intros Hm HI. specialize (Hm w HI). unfold exec. by destruct (m w) as [[a|e] w']. Qed.

Lemma preserves_bind {A B} I (m : M A) (f : A -> M B) :
  preserves I m -> (forall a, preserves I (f a)) -> preserves I (m ≫= f).
Proof. intros. by eapply triple_bind. Qed.
Lemma preserves_ret {A} I (a : A) : preserves I (mret a).
Proof. by apply triple_ret. Qed.
Lemma preserves_fail {A} I e : preserves I (fail (A := A) e).
Proof. by apply triple_fail. Qed.
Lemma preserves_lift {A} I (r : res A) : preserves I (lift r).
Proof. apply triple_lift. intros. by destruct r. Qed.
Lemma preserves_try {A} I (m : M A) : preserves I m -> preserves I (try_ m).
Proof.
  intros Hm. eapply triple_weaken; [by eapply triple_try|done| |done]. by intros [a|e] s.
Qed.
Lemma preserves_reading {A} I (f : Store -> A) : preserves I (reading f).
Proof. eapply triple_weaken; [by apply triple_reading|done| |done]. by intros a s []. Qed.
Lemma preserves_writing I f : (forall s, I s -> I (f s)) -> preserves I (writing f).
Proof. intros Hf. apply triple_writing; [done|]. auto. Qed.

Lemma preserves_ignore {A} (I : Store -> Prop) (m : M A) : preserves I m -> preserves I (ignore m).
Proof. intros Hm. apply preserves_bind; [by apply preserves_try|]. intros ?. apply preserves_ret. Qed.

Lemma preserves_for_each {A} (I : Store -> Prop) (f : A -> M unit) l :
  (forall x, preserves I (f x)) -> preserves I (for_each f l).
Proof.
  intros Hf. induction l as [|x l IH]; simpl; [apply preserves_ret|].
  apply preserves_bind; [done|]. by intros ?.
Qed.

#[export] Hint Resolve preserves_ret preserves_fail preserves_lift preserves_try
  preserves_reading preserves_ignore preserves_for_each : vykar.

(** ** Without faults *)

Definition healthy (w : World) : Prop := faults w = [].

Lemma reading_healthy {A} (f : Store -> A) w :
  healthy w -> reading f w = (Ok (f (objects w)), w).
Proof. unfold reading, next_fault, healthy. by intros ->. Qed.

Lemma writing_healthy f s : writing f (mkWorld s []) = (Ok tt, mkWorld (f s) []).
Proof. done. Qed.

(** ** Reading

    [computes s m a]: on the store [s], [m] changes nothing and answers [a],
    or fails because a storage call did. *)
Definition computes {A} (s : Store) (m : M A) (a : A) : Prop :=
  forall w, objects w = s ->
  (exists w', m w = (Ok a, w') /\ objects w' = s /\ (healthy w -> healthy w')) \/
  (exists er w', m w = (Err er, w') /\ objects w' = s /\ ~ healthy w).

Lemma computes_ret {A} s (a : A) : computes s (mret a) a.
Proof. intros w Hw. left. by exists w. Qed.

Lemma computes_lift {A} s (a : A) r : r = Ok a -> computes s (lift r) a.
Proof. intros -> w Hw. left. by exists w. Qed.

Lemma computes_bind {A B} s (m : M A) (f : A -> M B) a b :
  computes s m a -> computes s (f a) b -> computes s (m ≫= f) b.
Proof.
  intros Hm Hf w Hw. unfold mbind, M_bind.
  destruct (Hm w Hw) as [(w' & -> & Hw' & Hh)|(er & w' & -> & Hw' & Hh)]; [|right; eauto].
  destruct (Hf w' Hw') as [(w2 & -> & Hw2 & Hh2)|(er & w2 & -> & Hw2 & Hh2)]; [left; eauto 10|].
  right. exists er, w2. split; [done|]. split; [done|]. auto.
Qed.

Lemma computes_reading {A} s (f : Store -> A) : computes s (reading f) (f s).
Proof.
  intros w Hw. unfold reading, next_fault, healthy. destruct (faults w) as [|[] fs] eqn:Hf.
  - left. exists w. by rewrite Hw, Hf.
  - left. exists (mkWorld (objects w) fs). simpl. by rewrite Hw.
  - right. eexists _, _. split; [done|]. by split.
  - right. eexists _, _. split; [done|]. by split.
  - right. eexists _, _. split; [done|]. by split.
Qed.

Lemma computes_get_range s key data off len :
  s !! key = Some data -> 0 <= off -> 0 <= len -> off + len <= Z.of_nat (length data) ->
  computes s (get_range key off len) (Some (slice (Z.to_nat off) (Z.to_nat len) data)).
Proof.
  intros Hd Ho Hl Hb. eapply computes_bind; [apply computes_reading|]. rewrite Hd. cbv zeta.
  rewrite length_slice by lia. rewrite Z2Nat.id, Z.eqb_refl by lia. apply computes_ret.
Qed.

(** As a triple: the store and the answer are known. *)
Lemma computes_triple {A} s (m : M A) a E :
  computes s m a -> E s -> triple (fun s' => s' = s) m (fun x s' => s' = s /\ x = a) E.
Proof.
  intros Hm HE w Hw. destruct (Hm w Hw) as [(w' & -> & Hw' & _)|(er & w' & -> & Hw' & _)]; [done|].
  by rewrite Hw'.
Qed.
