(* ===== verification/ChunkIndex.v ===== *)
(** * The chunk index (crates/vykar-core/src/index/mod.rs)

    [ChunkIndex] is the map from chunk to refcount and pack location that every
    other part of the program trusts; [DedupIndex] its projection used while a
    backup runs; [IndexDelta] the mutations a backup records and applies to the
    index it loads at commit time; [PendingIndexJournal] the record of packs
    uploaded by an unfinished backup.  [HashMap]s are [gmap]s.  Loops over a
    [HashMap] visit it in an unspecified order: they are [map_fold]s, and the
    theorems about them hold for each order. *)

From S2P Require Import Prelude Types.

(** ** Data *)

Record ChunkIndexEntry := mkEntry {
  refcount : Z;
  stored_size : Z;
  pack_id : PackId;
  pack_offset : Z;
}.
#[export] Instance ChunkIndexEntry_eq_dec : EqDecision ChunkIndexEntry.
Proof. solve_decision. Defined.

Abbreviation ChunkIndex := (gmap ChunkId ChunkIndexEntry).

Record IndexBlob := mkIndexBlob { blob_generation : Z; blob_chunks : ChunkIndex }.

(** A functional update of the refcount field. *)
Definition set_refcount (n : Z) (e : ChunkIndexEntry) : ChunkIndexEntry :=
  mkEntry n (stored_size e) (pack_id e) (pack_offset e).

(** ** [ChunkIndex] operations *)

Definition contains (ix : ChunkIndex) (id : ChunkId) : bool :=
  bool_decide (is_Some (ix !! id)).

Definition add (id : ChunkId) (size : Z) (pk : PackId) (off : Z) (ix : ChunkIndex) : ChunkIndex :=
  match ix !! id with
  | Some e => <[id := set_refcount (u32_add (refcount e) 1) e]> ix
  | None => <[id := mkEntry 1 size pk off]> ix
  end.

Definition increment_refcount_by (id : ChunkId) (amount : Z) (ix : ChunkIndex) : ChunkIndex :=
  match ix !! id with
  | Some e => <[id := set_refcount (u32_add (refcount e) amount) e]> ix
  | None => ix
  end.

Definition increment_refcount (id : ChunkId) (ix : ChunkIndex) : ChunkIndex :=
  match ix !! id with
  | Some e => <[id := set_refcount (u32_add (refcount e) 1) e]> ix
  | None => ix
  end.

(** Returns the new refcount and the stored size beside the new index. *)
Definition decrement (id : ChunkId) (ix : ChunkIndex) : option (Z * Z) * ChunkIndex :=
  match ix !! id with
  | Some e =>
      let rc := sat_sub (refcount e) 1 in
      (Some (rc, stored_size e),
       if rc =? 0 then delete id ix else <[id := set_refcount rc e]> ix)
  | None => (None, ix)
  end.

Definition update_location (id : ChunkId) (pk : PackId) (off size : Z)
    (ix : ChunkIndex) : bool * ChunkIndex :=
  match ix !! id with
  | Some e => (true, <[id := mkEntry (refcount e) size pk off]> ix)
  | None => (false, ix)
  end.

Definition retain_chunks (needed : gset ChunkId) (ix : ChunkIndex) : ChunkIndex :=
  filter (fun kv => kv.1 ∈ needed) ix.

Definition count_distinct_packs (ix : ChunkIndex) : nat :=
  size (list_to_set ((fun kv => pack_id kv.2) <$> map_to_list ix) : gset PackId).

Definition remove (id : ChunkId) (ix : ChunkIndex) : option ChunkIndexEntry * ChunkIndex :=
  (ix !! id, delete id ix).

Definition remove_by_pack (pk : PackId) (ix : ChunkIndex) : nat * ChunkIndex :=
  let before := size ix in
  let ix' := filter (fun kv => pack_id kv.2 <> pk) ix in
  ((before - size ix')%nat, ix').

Definition rebuild_refcounts (rcs : gmap ChunkId Z) (ix : ChunkIndex) : ChunkIndex :=
  map_imap (fun id e => (fun rc => set_refcount rc e) <$> rcs !! id) ix.

(** ** The delta recorded by a backup session *)

Record NewChunkEntry := mkNew {
  new_chunk_id : ChunkId;
  new_stored_size : Z;
  new_pack_id : PackId;
  new_pack_offset : Z;
  new_refcount : Z;
}.

Record IndexDelta := mkDelta {
  new_entries : list NewChunkEntry;
  refcount_bumps : gmap ChunkId Z;
}.

Record IndexDeltaCheckpoint := mkCheckpoint {
  cp_new_entries_len : nat;
  cp_refcount_bumps : gmap ChunkId Z;
}.

Definition delta_new : IndexDelta := mkDelta [] ∅.

Definition delta_is_empty (d : IndexDelta) : bool :=
  (length (new_entries d) =? 0)%nat && (size (refcount_bumps d) =? 0)%nat.

Definition checkpoint (d : IndexDelta) : IndexDeltaCheckpoint :=
  mkCheckpoint (length (new_entries d)) (refcount_bumps d).

Definition checkpoint_empty : IndexDeltaCheckpoint := mkCheckpoint 0 ∅.

(** [Vec::truncate] keeps a shorter vector as it is, as [take] does. *)
Definition rollback (cp : IndexDeltaCheckpoint) (d : IndexDelta) : IndexDelta :=
  mkDelta (take (cp_new_entries_len cp) (new_entries d)) (cp_refcount_bumps cp).

(** [*map.entry(id).or_insert(0) += n]. *)
Definition bump_by (id : ChunkId) (n : Z) (m : gmap ChunkId Z) : gmap ChunkId Z :=
  <[id := u32_add (default 0 (m !! id)) n]> m.

Definition bump_refcount (id : ChunkId) (d : IndexDelta) : IndexDelta :=
  mkDelta (new_entries d) (bump_by id 1 (refcount_bumps d)).

Definition add_new_entry (id : ChunkId) (size : Z) (pk : PackId) (off rc : Z)
    (d : IndexDelta) : IndexDelta :=
  mkDelta (new_entries d ++ [mkNew id size pk off rc]) (refcount_bumps d).

(** The first loop of [reconcile]: entries the fresh index already has become
    bumps, the others stay, in order. *)
Fixpoint reconcile_partition (fresh : ChunkIndex) (es : list NewChunkEntry)
    (bumps : gmap ChunkId Z) : list NewChunkEntry * gmap ChunkId Z :=
  match es with
  | [] => ([], bumps)
  | e :: es' =>
      if contains fresh (new_chunk_id e) then
        reconcile_partition fresh es' (bump_by (new_chunk_id e) (new_refcount e) bumps)
      else
        let '(still_new, bumps') := reconcile_partition fresh es' bumps in
        (e :: still_new, bumps')
  end.

Definition reconcile (d : IndexDelta) (fresh : ChunkIndex) : res IndexDelta :=
  let '(still_new, bumps) := reconcile_partition fresh (new_entries d) (refcount_bumps d) in
  let new_entry_ids : gset ChunkId := list_to_set (new_chunk_id <$> still_new) in
  if forallb (fun id => contains fresh id || bool_decide (id ∈ new_entry_ids))
       (map_to_list bumps).*1
  then Ok (mkDelta still_new bumps)
  else Err StaleChunksDuringCommit.

(** One iteration of the first loop of [apply_to]; [entry.refcount - 1] is
    guarded by [entry.refcount > 1]. *)
Definition apply_new_entry (ix : ChunkIndex) (e : NewChunkEntry) : ChunkIndex :=
  let ix := add (new_chunk_id e) (new_stored_size e) (new_pack_id e) (new_pack_offset e) ix in
  if 1 <? new_refcount e
  then increment_refcount_by (new_chunk_id e) (new_refcount e - 1) ix
  else ix.

Definition apply_to (d : IndexDelta) (ix : ChunkIndex) : ChunkIndex :=
  map_fold increment_refcount_by (foldl apply_new_entry ix (new_entries d)) (refcount_bumps d).

(** ** The dedup projection *)

Abbreviation DedupIndex := (gmap ChunkId Z).

(** The [entries] of [DedupIndex::from_chunk_index]; the xor filter beside it
    is modelled with the tiered index. *)
Definition dedup_from_chunk_index (ix : ChunkIndex) : DedupIndex := stored_size <$> ix.

(** ** The journal of an unfinished backup *)

Record PendingChunkEntry := mkPendingChunk {
  pend_chunk_id : ChunkId;
  pend_stored_size : Z;
  pend_pack_offset : Z;
}.

Record PendingPackEntry := mkPendingPack {
  pend_pack_id : PackId;
  pend_chunks : list PendingChunkEntry;
}.

Abbreviation PendingIndexJournal := (gmap PackId PendingPackEntry).

Definition record_pack (pk : PackId) (chunks : list PendingChunkEntry)
    (j : PendingIndexJournal) : PendingIndexJournal :=
  <[pk := mkPendingPack pk chunks]> j.

Definition remove_pack (pk : PackId) (j : PendingIndexJournal) : PendingIndexJournal :=
  delete pk j.

Definition to_wire (j : PendingIndexJournal) : list PendingPackEntry := (map_to_list j).*2.

(** [collect] into a [HashMap]: a later entry replaces an earlier one. *)
Definition from_wire (es : list PendingPackEntry) : PendingIndexJournal :=
  foldl (fun j e => <[pend_pack_id e := e]> j) ∅ es.

Record RecoveredChunkEntry := mkRecovered {
  rec_stored_size : Z;
  rec_pack_id : PackId;
  rec_pack_offset : Z;
}.

(** ** Specification

    What the index promises is a count of references per chunk and a location
    per chunk; the theorems below speak of these two observations. *)

Definition rc (ix : ChunkIndex) (id : ChunkId) : Z := default 0 (refcount <$> ix !! id).

Definition location (e : ChunkIndexEntry) : PackId * Z * Z :=
  (pack_id e, pack_offset e, stored_size e).
Definition loc (ix : ChunkIndex) (id : ChunkId) : option (PackId * Z * Z) :=
  location <$> ix !! id.
Definition new_location (e : NewChunkEntry) : PackId * Z * Z :=
  (new_pack_id e, new_pack_offset e, new_stored_size e).

(** The references a list of new entries carries for [id], and those a whole
    delta carries. *)
Definition entry_refs (id : ChunkId) (es : list NewChunkEntry) : Z :=
  sum_Z (fun e => if decide (new_chunk_id e = id) then new_refcount e else 0) es.
Definition delta_refs (d : IndexDelta) (id : ChunkId) : Z :=
  entry_refs id (new_entries d) + default 0 (refcount_bumps d !! id).

(** The first new entry for [id]. *)
Definition first_new (id : ChunkId) (es : list NewChunkEntry) : option NewChunkEntry :=
  List.find (fun e => bool_decide (new_chunk_id e = id)) es.

(** The types of the fields: [u32] counts and sizes, [u64] offsets, 32-byte
    identifiers. *)
Definition wf_entry (id : ChunkId) (e : ChunkIndexEntry) : Prop :=
  is_id (chunk_bytes id) /\ u32 (refcount e) /\ u32 (stored_size e) /\
  is_id (pack_bytes (pack_id e)) /\ u64 (pack_offset e).
Definition wf_index (ix : ChunkIndex) : Prop := map_Forall wf_entry ix.

Definition wf_new (e : NewChunkEntry) : Prop :=
  is_id (chunk_bytes (new_chunk_id e)) /\ u32 (new_stored_size e) /\
  is_id (pack_bytes (new_pack_id e)) /\ u64 (new_pack_offset e) /\
  1 <= new_refcount e < u32_modulus.

(** A recorded delta: every new entry has at least one reference. *)
Definition wf_delta (d : IndexDelta) : Prop :=
  Forall wf_new (new_entries d) /\ map_Forall (fun _ n => u32 n) (refcount_bumps d).

#[export] Instance wf_entry_dec id e : Decision (wf_entry id e).
Proof. unfold wf_entry. apply _. Defined.
#[export] Instance wf_index_dec ix : Decision (wf_index ix).
Proof. unfold wf_index. apply _. Defined.
#[export] Instance wf_new_dec e : Decision (wf_new e).
Proof. unfold wf_new. apply _. Defined.
#[export] Instance wf_delta_dec d : Decision (wf_delta d).
Proof. unfold wf_delta. apply _. Defined.

(** *** Lookup laws *)

Lemma contains_true ix id : contains ix id = true <-> is_Some (ix !! id).
Proof. apply bool_decide_eq_true. Qed.
Lemma contains_false ix id : contains ix id = false <-> ix !! id = None.
Proof. unfold contains. rewrite bool_decide_eq_false, eq_None_not_Some. done. Qed.

Lemma lookup_add id size pk off ix id' :
  add id size pk off ix !! id' =
    if decide (id = id') then
      Some match ix !! id with
           | Some e => set_refcount (u32_add (refcount e) 1) e
           | None => mkEntry 1 size pk off
           end
    else ix !! id'.
Proof. unfold add. destruct (ix !! id); by rewrite lookup_insert. Qed.

Lemma lookup_increment_by id n ix id' :
  increment_refcount_by id n ix !! id' =
    if decide (id = id') then (fun e => set_refcount (u32_add (refcount e) n) e) <$> ix !! id
    else ix !! id'.
Proof.
  unfold increment_refcount_by. destruct (ix !! id) as [e|] eqn:E.
  - rewrite lookup_insert. by case_decide.
  - case_decide; subst; by rewrite ?E.
Qed.

(** Bumping folds pointwise, whatever the order of the map's traversal. *)
Lemma lookup_bumps (ix : ChunkIndex) bumps id :
  map_fold increment_refcount_by ix bumps !! id =
    match bumps !! id with
    | Some n => (fun e => set_refcount (u32_add (refcount e) n) e) <$> ix !! id
    | None => ix !! id
    end.
Proof.
  apply (map_fold_weak_ind (fun r m => r !! id =
    match m !! id with
    | Some n => (fun e => set_refcount (u32_add (refcount e) n) e) <$> ix !! id
    | None => ix !! id
    end)); [done|].
  intros i n m r Hi IH. rewrite lookup_increment_by, lookup_insert.
  case_decide as E; [subst; rewrite IH; by rewrite Hi|]. by rewrite IH.
Qed.

Lemma apply_new_entry_lookup ix e id :
  1 <= new_refcount e < u32_modulus ->
  apply_new_entry ix e !! id =
    if decide (new_chunk_id e = id) then
      Some match ix !! id with
           | Some x => set_refcount (u32_add (refcount x) (new_refcount e)) x
           | None => mkEntry (new_refcount e) (new_stored_size e) (new_pack_id e) (new_pack_offset e)
           end
    else ix !! id.
Proof.
  intros Hr. unfold apply_new_entry. case_decide as E.
  - subst id. destruct (Z.ltb_spec 1 (new_refcount e)).
    + rewrite lookup_increment_by, decide_True, lookup_add, decide_True by done.
      destruct (ix !! new_chunk_id e) as [x|]; unfold set_refcount; simpl.
      * rewrite <- u32_add_assoc. rewrite (u32_add_small 1); unfold_ints; [|lia].
        do 3 f_equal. lia.
      * rewrite u32_add_small by (unfold_ints; lia). do 2 f_equal. lia.
    + assert (new_refcount e = 1) as Hone by lia.
      by rewrite lookup_add, decide_True, Hone.
  - destruct (1 <? new_refcount e).
    + by rewrite lookup_increment_by, decide_False, lookup_add, decide_False.
    + by rewrite lookup_add, decide_False.
Qed.

(** Folding new entries: the count accumulates, the first entry fixes the
    location. *)
Definition pushed (ix : ChunkIndex) (es : list NewChunkEntry) (id : ChunkId) :
    option ChunkIndexEntry :=
  match ix !! id, first_new id es with
  | Some x, Some _ => Some (set_refcount (u32_add (refcount x) (entry_refs id es)) x)
  | Some x, None => Some x
  | None, Some e =>
      Some (mkEntry (u32_wrap (entry_refs id es)) (new_stored_size e) (new_pack_id e) (new_pack_offset e))
  | None, None => None
  end.

Lemma entry_refs_none id es : first_new id es = None -> entry_refs id es = 0.
Proof.
  unfold first_new, entry_refs. induction es as [|e es IH]; simpl; [done|].
  case_bool_decide; [done|]. intros. rewrite decide_False by done. by rewrite IH.
Qed.

Lemma foldl_apply_new_entry es ix id :
  Forall wf_new es -> foldl apply_new_entry ix es !! id = pushed ix es id.
Proof.
  intros Hwf. revert ix. induction Hwf as [|e es He Hes IH]; intros ix; simpl.
  { unfold pushed. simpl. by destruct (ix !! id). }
  rewrite IH. unfold pushed. destruct He as (_ & _ & _ & _ & Hr).
  rewrite apply_new_entry_lookup by done. simpl.
  unfold entry_refs; simpl; fold (entry_refs id es).
  case_decide as E; rewrite ?bool_decide_true, ?bool_decide_false by done.
  - destruct (ix !! id) as [x|], (first_new id es) eqn:F; unfold set_refcount; simpl;
      rewrite ?(entry_refs_none _ _ F); unfold u32_add, u32_wrap;
      rewrite ?Zplus_mod_idemp_l, ?Z.add_0_r, ?Z.add_assoc; try done.
    rewrite Z.mod_small by lia. done.
  - destruct (ix !! id), (first_new id es); done.
Qed.

(** *** The first loop of [reconcile] *)

Lemma lookup_bump_by id n m id' :
  bump_by id n m !! id' =
    if decide (id = id') then Some (u32_add (default 0 (m !! id')) n) else m !! id'.
Proof. unfold bump_by. rewrite lookup_insert. by case_decide; subst. Qed.

(** Entries known to [fresh] leave the list; their references go to the bumps. *)
Lemma reconcile_partition_spec fresh es bumps sn bumps' :
  reconcile_partition fresh es bumps = (sn, bumps') ->
  Forall wf_new es ->
  sn = filter (fun e => fresh !! new_chunk_id e = None) es /\
  forall id, bumps' !! id =
    if decide (is_Some (fresh !! id) /\ is_Some (first_new id es))
    then Some (u32_add (default 0 (bumps !! id)) (entry_refs id es))
    else bumps !! id.
Proof.
  intros Hp Hwf. revert bumps sn bumps' Hp.
  induction Hwf as [|e es He Hes IH]; intros bumps sn bumps' Hp; simpl in Hp.
  { injection Hp as <- <-. split; [done|]. intros id.
    rewrite decide_False; [done|]. intros [_ [? [=]]]. }
  destruct (contains fresh (new_chunk_id e)) eqn:C.
  - apply IH in Hp as [-> Hb]. apply contains_true in C as Hs.
    split; [by rewrite filter_cons_False by (intros Hn; rewrite Hn in Hs; by destruct Hs)|].
    intros id. rewrite Hb. unfold entry_refs; simpl; fold (entry_refs id es).
    rewrite lookup_bump_by. destruct (decide (new_chunk_id e = id)) as [E|E].
    + subst id. rewrite (bool_decide_true (new_chunk_id e = _)) by done.
      rewrite (decide_True (P := is_Some _ /\ is_Some (Some e))) by (split; eauto).
      destruct (first_new (new_chunk_id e) es) eqn:F.
      * rewrite decide_True by (split; eauto). simpl.
        unfold u32_add, u32_wrap. by rewrite Zplus_mod_idemp_l, Z.add_assoc.
      * rewrite decide_False by (by intros [_ [? [=]]]).
        rewrite (entry_refs_none _ _ F), Z.add_0_r. done.
    + rewrite bool_decide_false by done. done.
  - destruct (reconcile_partition fresh es bumps) as [sn0 b0] eqn:P.
    injection Hp as <- <-. apply IH in P as [-> Hb]. apply contains_false in C.
    split; [by rewrite filter_cons_True by done|].
    intros id. rewrite Hb. unfold entry_refs; simpl; fold (entry_refs id es).
    destruct (decide (new_chunk_id e = id)) as [E|E].
    + subst id. rewrite !decide_False; [done| |]; rewrite C; intros [[? [=]] _].
    + rewrite bool_decide_false by done. done.
Qed.

Lemma first_new_Some id es :
  is_Some (first_new id es) <-> id ∈ new_chunk_id <$> es.
Proof.
  unfold first_new. induction es as [|e es IH]; csimpl.
  { split; [by intros [? [=]]|set_solver]. }
  case_bool_decide; [set_solver|]. rewrite IH. set_solver.
Qed.

(** Dropping entries of other chunks changes nothing for [id]. *)
Lemma first_new_filter (fresh : ChunkIndex) id es :
  fresh !! id = None ->
  first_new id (filter (fun e => fresh !! new_chunk_id e = None) es) = first_new id es /\
  entry_refs id (filter (fun e => fresh !! new_chunk_id e = None) es) = entry_refs id es.
Proof.
  intros Hid. unfold first_new, entry_refs.
  induction es as [|e es [IH1 IH2]]; [done|].
  destruct (decide (fresh !! new_chunk_id e = None)) as [Hn|Hn].
  - rewrite filter_cons_True by done. simpl. rewrite IH1, IH2. done.
  - rewrite filter_cons_False by done. simpl.
    assert (new_chunk_id e <> id) by congruence.
    rewrite bool_decide_false, decide_False by done. by rewrite IH1, IH2.
Qed.

Lemma first_new_filter_known (fresh : ChunkIndex) id es :
  is_Some (fresh !! id) ->
  first_new id (filter (fun e => fresh !! new_chunk_id e = None) es) = None.
Proof.
  intros Hid. apply eq_None_not_Some. rewrite first_new_Some.
  intros (e & -> & Hin)%list_elem_of_fmap.
  apply list_elem_of_filter in Hin as [Hn _]. rewrite Hn in Hid. by destruct Hid.
Qed.

(** The check of [reconcile], on the bumps it holds then. *)
Lemma reconcile_check fresh still_new (bumps : gmap ChunkId Z) :
  forallb (fun id => contains fresh id ||
      bool_decide (id ∈ (list_to_set (new_chunk_id <$> still_new) : gset ChunkId)))
    (map_to_list bumps).*1 = true <->
  forall id, is_Some (bumps !! id) -> is_Some (fresh !! id) \/ id ∈ new_chunk_id <$> still_new.
Proof.
  rewrite forallb_forall. split.
  - intros Hall id [n Hn]. specialize (Hall id).
    rewrite orb_true_iff, contains_true, bool_decide_eq_true, elem_of_list_to_set in Hall.
    apply Hall. apply list_elem_of_In, list_elem_of_fmap.
    exists (id, n). split; [done|]. by apply elem_of_map_to_list.
  - intros Hall id Hin. apply list_elem_of_In, list_elem_of_fmap in Hin as ([i n] & -> & Hin).
    apply elem_of_map_to_list in Hin. simpl.
    rewrite orb_true_iff, contains_true, bool_decide_eq_true, elem_of_list_to_set.
    apply Hall. eauto.
Qed.

(** What [reconcile] gives when it succeeds, and when it does. *)
Lemma reconcile_inv d fresh d' :
  wf_delta d -> reconcile d fresh = Ok d' ->
  new_entries d' = filter (fun e => fresh !! new_chunk_id e = None) (new_entries d) /\
  (forall id, refcount_bumps d' !! id =
    if decide (is_Some (fresh !! id) /\ is_Some (first_new id (new_entries d)))
    then Some (u32_add (default 0 (refcount_bumps d !! id)) (entry_refs id (new_entries d)))
    else refcount_bumps d !! id) /\
  (forall id, is_Some (refcount_bumps d !! id) ->
     is_Some (fresh !! id) \/ is_Some (first_new id (new_entries d))).
Proof.
  intros [Hwf _]. unfold reconcile.
  destruct (reconcile_partition _ _ _) as [sn b] eqn:P.
  apply reconcile_partition_spec in P as [-> Hb]; [|done].
  destruct (forallb _ _) eqn:F; intros [= <-]. simpl.
  split; [done|]. split; [done|]. intros id Hid.
  rewrite reconcile_check in F. destruct (F id) as [?|Hin]; [|by left|].
  - rewrite Hb. case_decide; eauto.
  - right. apply first_new_Some. apply list_elem_of_fmap in Hin as (e & -> & Hin).
    apply list_elem_of_filter in Hin as [_ Hin]. apply list_elem_of_fmap. eauto.
Qed.

(** The index a commit writes, chunk by chunk. *)
Lemma commit_lookup d fresh d' id :
  wf_delta d -> reconcile d fresh = Ok d' ->
  apply_to d' fresh !! id =
    match fresh !! id, first_new id (new_entries d) with
    | Some x, _ =>
        match refcount_bumps d' !! id with
        | Some n => Some (set_refcount (u32_add (refcount x) n) x)
        | None => Some x
        end
    | None, Some e =>
        Some (mkEntry (u32_add (entry_refs id (new_entries d)) (default 0 (refcount_bumps d !! id)))
                (new_stored_size e) (new_pack_id e) (new_pack_offset e))
    | None, None => None
    end.
Proof.
  intros Hwf Hr. destruct (reconcile_inv _ _ _ Hwf Hr) as (Hnew & Hb & Hok).
  unfold apply_to. rewrite lookup_bumps, Hnew.
  rewrite foldl_apply_new_entry by (apply Forall_filter_keep, Hwf).
  unfold pushed. destruct (fresh !! id) as [x|] eqn:F.
  - rewrite first_new_filter_known by eauto. by destruct (refcount_bumps d' !! id).
  - destruct (first_new_filter fresh id (new_entries d) F) as [-> ->].
    rewrite Hb, decide_False by (by intros [[? Hs] _]; congruence).
    destruct (first_new id (new_entries d)) as [e|];
      destruct (refcount_bumps d !! id) as [n|]; simpl; try done.
    + unfold set_refcount, u32_add, u32_wrap; simpl. by rewrite Zplus_mod_idemp_l.
    + unfold u32_add. by rewrite Z.add_0_r.
Qed.

(** The references after a commit. *)
Lemma commit_rc d fresh d' id :
  wf_delta d -> wf_index fresh -> reconcile d fresh = Ok d' ->
  rc (apply_to d' fresh) id = u32_add (rc fresh id) (delta_refs d id).
Proof.
  intros Hwf Hix Hr. unfold rc, delta_refs. rewrite (commit_lookup _ _ _ id Hwf Hr).
  destruct (reconcile_inv _ _ _ Hwf Hr) as (_ & Hb & Hok). specialize (Hok id).
  destruct (fresh !! id) as [x|] eqn:F; simpl.
  - rewrite Hb. specialize (Hix _ _ F) as (_ & Hrc & _).
    destruct (first_new id (new_entries d)) as [e|] eqn:Fn.
    + rewrite decide_True by eauto. simpl.
      rewrite (Z.add_comm (entry_refs _ _)). unfold u32_add, u32_wrap.
      by rewrite Zplus_mod_idemp_r.
    + rewrite decide_False by (by intros [_ [? [=]]]).
      rewrite (entry_refs_none _ _ Fn). destruct (refcount_bumps d !! id); simpl; [done|].
      by rewrite u32_add_small; rewrite Z.add_0_r.
  - destruct (first_new id (new_entries d)) as [e|] eqn:Fn; [done|].
    rewrite (entry_refs_none _ _ Fn). destruct (refcount_bumps d !! id); simpl; [|done].
    exfalso. destruct (Hok ltac:(eauto)) as [[? [=]]|[? [=]]].
Qed.

(** The types of the index a commit writes. *)
Lemma commit_wf d fresh d' :
  wf_delta d -> wf_index fresh -> reconcile d fresh = Ok d' -> wf_index (apply_to d' fresh).
Proof.
  intros Hwf Hix Hr id x Hx. rewrite (commit_lookup _ _ _ id Hwf Hr) in Hx.
  destruct (fresh !! id) as [y|] eqn:F.
  - destruct (Hix _ _ F) as (? & ? & ? & ? & ?).
    destruct (refcount_bumps d' !! id); injection Hx as <-; split_and!; try done; apply u32_add_u32.
  - destruct (first_new id (new_entries d)) as [n|] eqn:Fn; [|done]. injection Hx as <-.
    unfold first_new in Fn. apply find_some in Fn as [Hin <-%bool_decide_eq_true].
    destruct Hwf as [Hn _]. rewrite Forall_forall in Hn. destruct (Hn n) as (? & ? & ? & ? & ?); [by apply list_elem_of_In|].
    split_and!; try done; apply u32_add_u32.
Qed.

(** No chunk appears but those of the delta. *)
Lemma commit_dom d fresh d' id :
  wf_delta d -> reconcile d fresh = Ok d' -> is_Some (apply_to d' fresh !! id) ->
  is_Some (fresh !! id) \/ id ∈ new_chunk_id <$> new_entries d.
Proof.
  intros Hwf Hr. rewrite (commit_lookup _ _ _ id Hwf Hr). destruct (fresh !! id); [by left|].
  destruct (first_new id (new_entries d)) eqn:Fn; [|by intros [? [=]]]. right. apply first_new_Some. by eexists.
Qed.

(** A delta that fits the index is left as it is. *)
Lemma reconcile_fitting d fresh :
  (forall n, n ∈ new_entries d -> fresh !! new_chunk_id n = None) ->
  (forall id, is_Some (refcount_bumps d !! id) -> is_Some (fresh !! id) \/ id ∈ new_chunk_id <$> new_entries d) ->
  reconcile d fresh = Ok d.
Proof.
  intros Hn Hb. assert (Hp : forall es bumps, (forall n, n ∈ es -> fresh !! new_chunk_id n = None) ->
    reconcile_partition fresh es bumps = (es, bumps)).
  { induction es as [|x es IH]; intros bumps Hes; [done|]. cbn [reconcile_partition].
    assert (Hc : contains fresh (new_chunk_id x) = false) by (apply contains_false, Hes, list_elem_of_here).
    rewrite Hc, IH; [done|]. intros n Hin. apply Hes. by right. }
  unfold reconcile. rewrite Hp by done. apply reconcile_check in Hb. rewrite Hb. by destruct d.
Qed.

(** A small repository for the witnesses: chunk 1 is in the index twice
    referenced; the session bumped it, uploaded it again (another client was
    faster) and uploaded chunk 2. *)
Definition ex_chunk (b : Z) : ChunkId := mkChunkId (id_of_byte b).
Definition ex_pack (b : Z) : PackId := mkPackId (id_of_byte b).
Definition ex_index : ChunkIndex := {[ex_chunk 1 := mkEntry 2 100 (ex_pack 10) 13]}.
Definition ex_delta : IndexDelta :=
  bump_refcount (ex_chunk 1)
    (add_new_entry (ex_chunk 2) 200 (ex_pack 20) 117 3
       (add_new_entry (ex_chunk 1) 100 (ex_pack 20) 13 1 delta_new)).

(** C15. A commit conserves references: the index written by [reconcile] and
    [apply_to] gives every chunk the count it had in the index loaded at
    commit time plus all the references the session recorded for it, whether
    as new entries or as bumps and whether or not another client committed the
    chunk meanwhile (modulo the wrap-around of [u32]). *)
Theorem commit_conserves_references d fresh d' id :
  wf_delta d -> wf_index fresh -> reconcile d fresh = Ok d' ->
  rc (apply_to d' fresh) id = u32_add (rc fresh id) (delta_refs d id).
Proof. apply commit_rc. Qed.

Lemma commit_conserves_references_witness :
  exists d', reconcile ex_delta ex_index = Ok d' /\
    rc (apply_to d' ex_index) (ex_chunk 1) = 4 /\ rc (apply_to d' ex_index) (ex_chunk 2) = 3.
Proof.
  destruct (reconcile ex_delta ex_index) as [d'|] eqn:R; [|vm_compute in R; discriminate R].
  exists d'. split; [done|].
  assert (Hd : wf_delta ex_delta) by by_eval. assert (Hi : wf_index ex_index) by by_eval.
  rewrite (commit_conserves_references ex_delta ex_index d' (ex_chunk 1) Hd Hi R).
  rewrite (commit_conserves_references ex_delta ex_index d' (ex_chunk 2) Hd Hi R).
  split; vm_compute; reflexivity.
Defined.

(** A commit never moves a chunk: one the loaded index has keeps its
    location, one it lacks gets the location of the first entry the session
    recorded for it, and no other chunk appears. *)
Theorem commit_locations d fresh d' id :
  wf_delta d -> reconcile d fresh = Ok d' ->
  loc (apply_to d' fresh) id =
    match loc fresh id with
    | Some l => Some l
    | None => new_location <$> first_new id (new_entries d)
    end.
Proof.
  intros Hwf Hr. unfold loc. rewrite (commit_lookup _ _ _ id Hwf Hr).
  destruct (fresh !! id) as [x|]; simpl.
  - by destruct (refcount_bumps d' !! id).
  - by destruct (first_new id (new_entries d)).
Qed.

Lemma commit_locations_witness :
  exists d', reconcile ex_delta ex_index = Ok d' /\
    loc (apply_to d' ex_index) (ex_chunk 1) = Some (ex_pack 10, 13, 100) /\
    loc (apply_to d' ex_index) (ex_chunk 2) = Some (ex_pack 20, 117, 200).
Proof.
  destruct (reconcile ex_delta ex_index) as [d'|] eqn:R; [|vm_compute in R; discriminate R].
  exists d'. split; [done|]. assert (Hd : wf_delta ex_delta) by by_eval.
  rewrite (commit_locations ex_delta ex_index d' (ex_chunk 1) Hd R).
  rewrite (commit_locations ex_delta ex_index d' (ex_chunk 2) Hd R).
  split; vm_compute; reflexivity.
Defined.

(** [reconcile] refuses a delta exactly when a chunk it counted on, and
    did not itself upload, has gone from the index; then the error is
    [StaleChunksDuringCommit]. *)
Theorem reconcile_stale_iff d fresh :
  wf_delta d ->
  reconcile d fresh = Err StaleChunksDuringCommit <->
  exists id, is_Some (refcount_bumps d !! id) /\ fresh !! id = None /\
             id ∉ new_chunk_id <$> new_entries d.
Proof.
  intros Hwf. split.
  - unfold reconcile. destruct (reconcile_partition _ _ _) as [sn b] eqn:P.
    apply reconcile_partition_spec in P as [-> Hb]; [|by destruct Hwf].
    destruct (forallb _ _) eqn:F; [done|]. intros _.
    apply not_true_iff_false in F. rewrite reconcile_check in F.
    destruct (decide (map_Forall (fun id _ => is_Some (fresh !! id) \/
        id ∈ new_chunk_id <$> new_entries d) (refcount_bumps d))) as [Hall|Hex].
    + exfalso. apply F. intros id Hid. rewrite Hb in Hid.
      destruct (fresh !! id) eqn:Hf; [by left; eauto|]. right.
      rewrite decide_False in Hid by (by intros [[? [=]] _]).
      destruct Hid as [n Hn]. destruct (Hall _ _ Hn) as [[? ?]|Hin]; [congruence|].
      apply list_elem_of_fmap in Hin as (e & -> & Hin). apply list_elem_of_fmap.
      exists e. split; [done|]. by apply list_elem_of_filter.
    + apply map_not_Forall in Hex as (id & n & Hn & Hno); [|apply _].
      exists id. split; [eauto|]. split.
      * apply eq_None_not_Some. naive_solver.
      * naive_solver.
  - intros (id & Hb & Hf & Hin). destruct (reconcile d fresh) as [d'|e] eqn:R.
    + destruct (reconcile_inv _ _ _ Hwf R) as (_ & _ & Hok).
      destruct (Hok _ Hb) as [[? ?]|Hs]; [congruence|]. by apply first_new_Some in Hs.
    + revert R. unfold reconcile. destruct (reconcile_partition _ _ _).
      destruct (forallb _ _); congruence.
Qed.

(** Against an index that has lost chunk 3, a bump of chunk 3 is refused. *)
Lemma reconcile_stale_iff_witness :
  reconcile (bump_refcount (ex_chunk 3) ex_delta) ex_index = Err StaleChunksDuringCommit.
Proof.
  apply (reconcile_stale_iff (bump_refcount (ex_chunk 3) ex_delta) ex_index); [by_eval|].
  exists (ex_chunk 3). split; [|split]; by_eval.
Defined.

(** ** Checkpoints *)

(** The mutations a delta sees between two checkpoints. *)
Inductive delta_op :=
  | OpBump (id : ChunkId)
  | OpNew (id : ChunkId) (size : Z) (pk : PackId) (off rc : Z).

Definition run_op (d : IndexDelta) (o : delta_op) : IndexDelta :=
  match o with
  | OpBump id => bump_refcount id d
  | OpNew id size pk off rc => add_new_entry id size pk off rc d
  end.

Lemma run_ops_prefix ops d :
  exists es, new_entries (foldl run_op d ops) = new_entries d ++ es.
Proof.
  revert d. induction ops as [|o ops IH]; intros d; simpl.
  { exists []. by rewrite app_nil_r. }
  destruct (IH (run_op d o)) as [es ->]. destruct o; simpl; [eauto|].
  rewrite <- app_assoc. eauto.
Qed.

(** Rolling back to a checkpoint restores the delta exactly, whatever
    bumps and new entries were recorded since. *)
Theorem rollback_checkpoint ops d :
  rollback (checkpoint d) (foldl run_op d ops) = d.
Proof.
  destruct (run_ops_prefix ops d) as [es Hes]. unfold rollback, checkpoint. simpl.
  rewrite Hes, take_app_length. by destruct d.
Qed.

(** ** Deleting a snapshot's references *)

Definition count_id (id : ChunkId) (ids : list ChunkId) : Z :=
  sum_Z (fun i => if decide (i = id) then 1 else 0) ids.

Definition decrement_all (ids : list ChunkId) (ix : ChunkIndex) : ChunkIndex :=
  foldl (fun ix id => (decrement id ix).2) ix ids.

Lemma lookup_decrement id ix id' :
  (decrement id ix).2 !! id' =
    if decide (id = id') then
      e ← ix !! id;
      if decide (refcount e <= 1) then None else Some (set_refcount (refcount e - 1) e)
    else ix !! id'.
Proof.
  unfold decrement. destruct (ix !! id) as [e|] eqn:E; simpl.
  - unfold sat_sub. destruct (Z.eqb_spec (Z.max 0 (refcount e - 1)) 0).
    + rewrite lookup_delete. case_decide; [|done]. by rewrite decide_True by lia.
    + rewrite lookup_insert. case_decide; [|done]. rewrite decide_False by lia.
      by rewrite Z.max_r by lia.
  - case_decide; by subst.
Qed.

Lemma count_id_nonneg id ids : 0 <= count_id id ids.
Proof. apply sum_Z_nonneg. intros. case_decide; lia. Qed.

Lemma lookup_decrement_all ids ix id :
  map_Forall (fun _ e => 1 <= refcount e) ix ->
  decrement_all ids ix !! id =
    e ← ix !! id;
    if decide (refcount e <= count_id id ids) then None
    else Some (set_refcount (refcount e - count_id id ids) e).
Proof.
  revert ix. induction ids as [|i ids IH]; intros ix Hpos; simpl.
  { unfold count_id; simpl. destruct (ix !! id) as [e|] eqn:E; simpl; [|done].
    specialize (Hpos _ _ E). simpl in Hpos. rewrite decide_False by lia.
    rewrite Z.sub_0_r. by destruct e. }
  rewrite IH; clear IH.
  - rewrite lookup_decrement. unfold count_id; simpl; fold (count_id id ids).
    destruct (decide (i = id)) as [->|]; [|by rewrite Z.add_0_l].
    pose proof (count_id_nonneg id ids).
    destruct (ix !! id) as [e|] eqn:E; simpl; [|done].
    destruct (decide (refcount e <= 1)); simpl; [by rewrite decide_True by lia|].
    destruct (decide (refcount e - 1 <= count_id id ids)).
    + by rewrite decide_True by lia.
    + rewrite decide_False by lia. unfold set_refcount; simpl. do 2 f_equal. lia.
  - intros j e. rewrite lookup_decrement. case_decide; [|by apply Hpos].
    destruct (ix !! i) as [x|]; simpl; [|done]. case_decide; intros [= <-]. simpl. lia.
Qed.

(** Deleting a snapshot releases exactly its references: a chunk stays in
    the index iff more references to it are held than the snapshot has, with
    the difference as its count and its location unchanged; other chunks are
    untouched. *)
Theorem decrement_all_releases ids ix id :
  map_Forall (fun _ e => 1 <= refcount e) ix ->
  (is_Some (decrement_all ids ix !! id) <-> count_id id ids < rc ix id) /\
  rc (decrement_all ids ix) id = Z.max 0 (rc ix id - count_id id ids) /\
  (forall l, loc (decrement_all ids ix) id = Some l -> loc ix id = Some l).
Proof.
  intros Hpos. unfold rc, loc. rewrite lookup_decrement_all by done.
  pose proof (count_id_nonneg id ids).
  destruct (ix !! id) as [e|]; simpl.
  - destruct (decide (refcount e <= count_id id ids)); simpl.
    + split; [|split; [lia|done]]. split; [by intros [? [=]]|lia].
    + split; [|split; [lia|done]]. split; [lia|eauto].
  - split; [|split; [lia|done]]. split; [by intros [? [=]]|lia].
Qed.

Lemma decrement_all_releases_witness :
  rc (decrement_all [ex_chunk 1; ex_chunk 1; ex_chunk 1] ex_index) (ex_chunk 1) = 0 /\
  rc (decrement_all [ex_chunk 1] ex_index) (ex_chunk 1) = 1.
Proof.
  assert (Hpos : map_Forall (fun _ e => 1 <= refcount e) ex_index) by by_eval.
  destruct (decrement_all_releases [ex_chunk 1; ex_chunk 1; ex_chunk 1] ex_index
    (ex_chunk 1) Hpos) as (_ & -> & _).
  destruct (decrement_all_releases [ex_chunk 1] ex_index (ex_chunk 1) Hpos) as (_ & -> & _).
  split; vm_compute; reflexivity.
Defined.

(** ** The journal *)

Definition wf_journal (j : PendingIndexJournal) : Prop :=
  map_Forall (fun pk e => pend_pack_id e = pk) j.

Lemma record_pack_wf pk chunks j : wf_journal j -> wf_journal (record_pack pk chunks j).
Proof. intros Hj. by apply map_Forall_insert_2. Qed.

Lemma remove_pack_wf pk j : wf_journal j -> wf_journal (remove_pack pk j).
Proof. apply map_Forall_delete. Qed.

Lemma from_wire_list_to_map es :
  NoDup (pend_pack_id <$> es) ->
  from_wire es = list_to_map ((fun e => (pend_pack_id e, e)) <$> es).
Proof.
  intros Hnd. unfold from_wire.
  assert (Hgen : forall j : PendingIndexJournal, foldl (fun j e => <[pend_pack_id e := e]> j) j es
    = (list_to_map ((fun e => (pend_pack_id e, e)) <$> es) : PendingIndexJournal) ∪ j).
  { induction es as [|e es IH]; intros j; csimpl.
    { by rewrite (left_id ∅ (∪)). }
    apply NoDup_cons in Hnd as [Hni Hnd]. rewrite IH by done.
    rewrite <- insert_union_l, insert_union_r; [done|].
    apply not_elem_of_list_to_map_1. rewrite <- list_fmap_compose. done. }
  rewrite Hgen. by rewrite (right_id ∅ (∪)).
Qed.

(** The journal survives its wire format: reading back the vector written
    from a journal, in whichever order the hash map was traversed, gives the
    same journal. *)
Theorem journal_round_trip j wire :
  wf_journal j -> wire ≡ₚ to_wire j -> from_wire wire = j.
Proof.
  intros Hj Hp.
  assert (Hid : forall l : list (PackId * PendingPackEntry),
    (forall kv, kv ∈ l -> pend_pack_id kv.2 = kv.1) ->
    (fun e => (pend_pack_id e, e)) <$> l.*2 = l).
  { induction l as [|[k e] l IH]; intros Hl; csimpl; [done|]. f_equal.
    - f_equal. by apply (Hl (k, e)), list_elem_of_here.
    - apply IH. intros. apply Hl. by constructor. }
  assert (Hj' : (fun e => (pend_pack_id e, e)) <$> to_wire j = map_to_list j).
  { apply Hid. intros [k e] Hin%elem_of_map_to_list. by apply Hj. }
  assert (Hnd : NoDup (pend_pack_id <$> to_wire j)).
  { replace (pend_pack_id <$> to_wire j) with (map_to_list j).*1
      by (rewrite <- Hj', <- list_fmap_compose; done).
    apply NoDup_fst_map_to_list. }
  rewrite from_wire_list_to_map by (by rewrite Hp).
  rewrite <- (list_to_map_to_list j), <- Hj'. apply list_to_map_proper.
  - rewrite <- list_fmap_compose. by rewrite Hp.
  - by rewrite Hp.
Qed.

Lemma journal_round_trip_witness :
  let j := record_pack (ex_pack 2) [mkPendingChunk (ex_chunk 3) 30 13]
             (record_pack (ex_pack 1) [mkPendingChunk (ex_chunk 1) 10 13] ∅) in
  from_wire (rev (to_wire j)) = j.
Proof.
  intros j. apply (journal_round_trip j (rev (to_wire j))).
  - apply record_pack_wf, record_pack_wf, map_Forall_empty.
  - apply Permutation_sym, Permutation_rev.
Defined.
