(* ===== verification/Pack.v ===== *)
(** * Pack files (crates/vykar-core/src/repo/pack.rs)

    A pack is [magic, version, (u32 length, blob)*].  [PackWriter] buffers
    encrypted blobs and seals them into such a file together with the index
    entries (offset, length, refcount) of its chunks; [scan_pack_blobs_bytes]
    reads the framing back.  BLAKE2b, which names a pack after its contents, is
    third-party code: the class [Blake2b]. *)

From S2P Require Import Prelude Types Protocol Storage.
#[local] Open Scope string_scope.
#[local] Open Scope list_scope.
#[local] Open Scope Z_scope.

(** [Blake2bVar] and [Blake2bMac] with 32 bytes of output. *)
Class Blake2b := {
  blake2b : bytes -> bytes;
  blake2b_mac : bytes -> bytes -> bytes;
  blake2b_id : forall data, is_id (blake2b data);
  blake2b_mac_id : forall key data, is_id (blake2b_mac key data);
}.

(** A stand-in digest that shows the class can be instantiated. *)
Definition toy_digest (data : bytes) : bytes :=
  take 32 (((fun b => b mod 256) <$> rev data) ++ replicate 32 0).

Lemma toy_digest_id data : is_id (toy_digest data).
Proof.
  split.
  - unfold toy_digest. rewrite length_take, length_app, length_replicate. lia.
  - apply Forall_take, Forall_app. split.
    + apply Forall_fmap, Forall_forall. intros b _. apply Z.mod_pos_bound. lia.
    + apply Forall_replicate. done.
Qed.

#[export] Instance toy_blake2b : Blake2b := {|
  blake2b := toy_digest;
  blake2b_mac := fun key data => toy_digest (key ++ data);
  blake2b_id := toy_digest_id;
  blake2b_mac_id := fun key data => toy_digest_id (key ++ data);
|}.

(** [PackId::compute] and [ChunkId::compute]. *)
Definition pack_id_compute `{Blake2b} (data : bytes) : PackId := mkPackId (blake2b data).
Definition chunk_id_compute `{Blake2b} (key data : bytes) : ChunkId :=
  mkChunkId (blake2b_mac key data).

(** ** Data *)

Inductive PackType := Data | Tree.
#[export] Instance PackType_eq_dec : EqDecision PackType.
Proof. solve_decision. Defined.

Record BlobMeta := mkMeta { meta_chunk_id : ChunkId; meta_stored_size : Z }.

Definition MAX_BLOBS_PER_PACK : Z := 10000.
Definition PACK_MAX_AGE_SECS : Z := 300.

(** [PackedChunkEntry]: chunk, stored size, offset, refcount. *)
Record PackedChunkEntry := mkPacked {
  pc_chunk_id : ChunkId;
  pc_stored_size : Z;
  pc_offset : Z;
  pc_refcount : Z;
}.

Record SealedPack := mkSealed {
  sealed_pack_id : PackId;
  sealed_entries : list PackedChunkEntry;
  sealed_data : bytes;
}.

(** [first_blob_time] is the clock in seconds; [usize] quantities are bounded
    by the memory that holds the buffer and stay in [Z]. *)
Record PackWriter := mkWriter {
  pack_type : PackType;
  target_size : Z;
  buffer : option bytes;
  blob_meta : list BlobMeta;
  current_size : Z;
  pending : gmap ChunkId (Z * Z);
  first_blob_time : option Z;
}.

(** ** The writer *)

Definition writer_new (pt : PackType) (target : Z) : PackWriter :=
  mkWriter pt target None [] 0 ∅ None.

Definition pack_header : bytes := PACK_MAGIC ++ [PACK_VERSION_CURRENT].

(** The buffer after [init_buffer]. *)
Definition init_buffer : option bytes := Some pack_header.

(** One frame as appended by [add_blob]: the [u32] length and the blob. *)
Definition blob_len (blob : bytes) : Z := u32_wrap (Z.of_nat (length blob)).
Definition frame (blob : bytes) : bytes := le_bytes 4 (blob_len blob) ++ blob.

(** [add_blob] at time [now]; the offset where the blob's data starts. *)
Definition add_blob (now : Z) (id : ChunkId) (blob : bytes) (w : PackWriter) : Z * PackWriter :=
  let buf := if (length (blob_meta w) =? 0)%nat then init_buffer else buffer w in
  let offset := Z.of_nat PACK_HEADER_SIZE + current_size w + 4 in
  (offset,
   mkWriter (pack_type w) (target_size w)
     ((fun v => v ++ le_bytes 4 (blob_len blob) ++ blob) <$> buf)
     (blob_meta w ++ [mkMeta id (blob_len blob)])
     (current_size w + (4 + Z.of_nat (length blob)))
     (<[id := (blob_len blob, 1)]> (pending w))
     (match first_blob_time w with None => Some now | t => t end)).

Definition contains_pending (id : ChunkId) (w : PackWriter) : bool :=
  bool_decide (is_Some (pending w !! id)).

Definition increment_pending (id : ChunkId) (w : PackWriter) : PackWriter :=
  mkWriter (pack_type w) (target_size w) (buffer w) (blob_meta w) (current_size w)
    (match pending w !! id with
     | Some (size, rc) => <[id := (size, u32_add rc 1)]> (pending w)
     | None => pending w
     end)
    (first_blob_time w).

Definition get_pending_stored_size (id : ChunkId) (w : PackWriter) : option Z :=
  fst <$> pending w !! id.

Definition should_flush (now : Z) (w : PackWriter) : bool :=
  if (length (blob_meta w) =? 0)%nat then false
  else if target_size w <=? current_size w then true
  else if MAX_BLOBS_PER_PACK <=? Z.of_nat (length (blob_meta w)) then true
  else match first_blob_time w with
       | Some t => PACK_MAX_AGE_SECS <=? sat_sub now t
       | None => false
       end.

Definition has_pending (w : PackWriter) : bool := negb (length (blob_meta w) =? 0)%nat.

Definition set_target_size (target : Z) (w : PackWriter) : PackWriter :=
  mkWriter (pack_type w) target (buffer w) (blob_meta w) (current_size w) (pending w)
    (first_blob_time w).

(** The loop of [seal] over [blob_meta]. *)
Fixpoint seal_entries (pend : gmap ChunkId (Z * Z)) (running_offset : Z)
    (metas : list BlobMeta) : list PackedChunkEntry :=
  match metas with
  | [] => []
  | m :: metas' =>
      mkPacked (meta_chunk_id m) (meta_stored_size m) (running_offset + 4)
        (default 1 (snd <$> pend !! meta_chunk_id m))
      :: seal_entries pend (running_offset + (4 + meta_stored_size m)) metas'
  end.

(** [self.buffer.take().expect(..)] panics on [None]; [seal_total] shows it
    cannot. *)
Definition seal `{Blake2b} (w : PackWriter) : res (SealedPack * PackWriter) :=
  if (length (blob_meta w) =? 0)%nat then Err (Other "cannot seal empty pack writer")
  else
    match buffer w with
    | None => Err (Other "panic: buffer was initialized")
    | Some v =>
        Ok (mkSealed (pack_id_compute v)
              (seal_entries (pending w) (Z.of_nat PACK_HEADER_SIZE) (blob_meta w)) v,
            mkWriter (pack_type w) (target_size w) None [] 0 ∅ None)
    end.

(** ** Storage *)

Section PackStorage.
Context `{HexCodec} `{Blake2b}.

Definition flush (w : PackWriter) : M (PackId * list PackedChunkEntry * PackWriter) :=
  '(sp, w') ← lift (seal w);
  _ ← put (pack_storage_key (sealed_pack_id sp)) (sealed_data sp);
  mret (sealed_pack_id sp, sealed_entries sp, w').

Definition read_blob_from_pack (p : PackId) (offset length : Z) : M bytes :=
  r ← get_range (pack_storage_key p) offset length;
  match r with
  | None => fail (Other "pack not found")
  | Some data =>
      if negb (Z.of_nat (List.length data) =? length) then fail (Other "short read from pack")
      else mret data
  end.
End PackStorage.

(** ** Scanning *)

(** The loop: [fuel] bounds the iterations, each of which advances [pos] by at
    least 4 bytes. *)
Fixpoint scan_loop (fuel : nat) (pack : bytes) (pos : nat) (blobs : list (Z * Z)) :
    nat * list (Z * Z) :=
  match fuel with
  | O => (pos, blobs)
  | S fuel' =>
      if (pos + 4 <=? length pack)%nat then
        let blen := le_value (slice pos 4 pack) in
        if (Z.of_nat (length pack) <? Z.of_nat pos + 4 + blen) then (pos, blobs)
        else scan_loop fuel' pack (pos + 4 + Z.to_nat blen)
               (blobs ++ [(Z.of_nat (pos + 4), blen)])
      else (pos, blobs)
  end.

Definition scan_pack_blobs_bytes (pack : bytes) : res (list (Z * Z)) :=
  if (length pack <? PACK_HEADER_SIZE)%nat then Err (InvalidFormat "pack too small")
  else if negb (bool_decide (take 8 pack = PACK_MAGIC)) then
    Err (InvalidFormat "invalid pack magic")
  else
    let version := nth 8 pack 0 in
    if (version <? PACK_VERSION_MIN) || (PACK_VERSION_MAX <? version) then
      Err (InvalidFormat "unsupported pack version")
    else
      let '(pos, blobs) := scan_loop (length pack) pack PACK_HEADER_SIZE [] in
      if negb (pos =? length pack)%nat then
        Err (InvalidFormat "truncated or corrupt pack")
      else Ok blobs.

Definition scan_pack_blobs `{HexCodec} (p : PackId) : M (list (Z * Z)) :=
  r ← get (pack_storage_key p);
  match r with
  | None => fail (Other "pack not found")
  | Some data => lift (scan_pack_blobs_bytes data)
  end.

(** ** Target sizes *)

Definition compute_tree_pack_target (min_pack_size : Z) : Z :=
  Z.min min_pack_size (4 * 1024 * 1024).

(** ** Framing

    [pack_of blobs] is the file format as a specification: the header and one
    frame per blob; [blob_ranges] are the offset and length of each blob. *)

Definition frames (blobs : list bytes) : bytes := concat (frame <$> blobs).
Definition pack_of (blobs : list bytes) : bytes := pack_header ++ frames blobs.

Lemma frames_cons b blobs : frames (b :: blobs) = frame b ++ frames blobs.
Proof. done. Qed.
Lemma frames_app bs1 bs2 : frames (bs1 ++ bs2) = frames bs1 ++ frames bs2.
Proof. unfold frames. by rewrite fmap_app, concat_app. Qed.

Fixpoint blob_ranges (base : Z) (blobs : list bytes) : list (Z * Z) :=
  match blobs with
  | [] => []
  | b :: blobs' =>
      (base + 4, Z.of_nat (length b)) :: blob_ranges (base + 4 + Z.of_nat (length b)) blobs'
  end.

Lemma blob_ranges_mid base bs1 b bs2 :
  blob_ranges base (bs1 ++ b :: bs2) !! length bs1 =
    Some (base + Z.of_nat (length (frames bs1)) + 4, Z.of_nat (length b)).
Proof.
  revert base. induction bs1 as [|x bs1 IH]; intros base.
  { simpl. do 2 f_equal. lia. }
  rewrite frames_cons, length_app. unfold frame. rewrite length_app, length_le_bytes.
  cbn [app blob_ranges length lookup list_lookup]. rewrite IH. do 2 f_equal. lia.
Qed.

(** Blobs whose length a [u32] prefix can hold. *)
Definition fits (b : bytes) : Prop := Z.of_nat (length b) < u32_modulus.

Lemma blob_len_fits b : fits b -> blob_len b = Z.of_nat (length b).
Proof. intros. apply u32_wrap_small. unfold fits, u32 in *. lia. Qed.

Lemma length_frame b : length (frame b) = (4 + length b)%nat.
Proof. unfold frame. len. Qed.

Lemma frame_prefix b rest : fits b -> le_value (take 4 (frame b ++ rest)) = Z.of_nat (length b).
Proof.
  intros Hb. unfold frame. rewrite <- app_assoc.
  rewrite take_app_le by len. rewrite take_ge by len.
  rewrite le_value_bytes_u32 by apply u32_wrap_u32. by apply blob_len_fits.
Qed.

Lemma scan_loop_frames blobs fuel pre acc :
  Forall fits blobs -> (length blobs <= fuel)%nat ->
  scan_loop fuel (pre ++ frames blobs) (length pre) acc =
    (length (pre ++ frames blobs),
     acc ++ blob_ranges (Z.of_nat (length pre)) blobs).
Proof.
  intros Hfit. revert fuel pre acc.
  induction Hfit as [|b blobs Hb Hbs IH]; intros fuel pre acc Hfuel.
  { change (frames []) with (@nil Z). rewrite !app_nil_r. destruct fuel; simpl; [done|].
    destruct (Nat.leb_spec (length pre + 4) (length pre)); [lia|done]. }
  destruct fuel as [|fuel]; [simpl in Hfuel; lia|]. rewrite frames_cons.
  cbn [scan_loop blob_ranges length] in *.
  assert (Hl : length (pre ++ frame b ++ frames blobs) =
    (length pre + 4 + length b + length (frames blobs))%nat).
  { rewrite !length_app, length_frame. lia. }
  destruct (Nat.leb_spec (length pre + 4)
    (length (pre ++ frame b ++ frames blobs))); [|lia].
  rewrite slice_app_skip, frame_prefix by done.
  destruct (Z.ltb_spec (Z.of_nat (length (pre ++ frame b ++ frames blobs)))
    (Z.of_nat (length pre) + 4 + Z.of_nat (length b))); [lia|].
  rewrite Nat2Z.id. rewrite app_assoc.
  replace (length pre + 4 + length b)%nat with (length (pre ++ frame b))
    by (rewrite length_app, length_frame; lia).
  rewrite IH by lia. rewrite <- (app_assoc acc). rewrite (length_app pre (frame b)), length_frame.
  f_equal. cbn [app]. do 2 f_equal; [f_equal; lia|]. f_equal. lia.
Qed.

Lemma scan_loop_sound fuel pack pos acc ranges :
  is_bytes pack ->
  scan_loop fuel pack pos acc = (length pack, ranges) ->
  exists blobs, Forall fits blobs /\ drop pos pack = frames blobs /\
    ranges = acc ++ blob_ranges (Z.of_nat pos) blobs.
Proof.
  intros Hpack. revert pos acc. induction fuel as [|fuel IH]; intros pos acc; simpl.
  { intros [= -> ->]. exists []. split; [done|]. rewrite drop_ge by lia.
    by rewrite app_nil_r. }
  assert (Hstop : (pos, acc) = (length pack, ranges) ->
    exists blobs, Forall fits blobs /\ drop pos pack = frames blobs /\
      ranges = acc ++ blob_ranges (Z.of_nat pos) blobs).
  { intros [= -> ->]. exists []. split; [done|]. rewrite drop_ge by lia.
    by rewrite app_nil_r. }
  destruct (Nat.leb_spec (pos + 4) (length pack)); [|done].
  set (bl := le_value (slice pos 4 pack)).
  destruct (Z.ltb_spec (Z.of_nat (length pack)) (Z.of_nat pos + 4 + bl)); [done|].
  assert (Hs4 : length (slice pos 4 pack) = 4%nat) by (apply length_slice; lia).
  assert (Hbl : 0 <= bl < u32_modulus).
  { unfold bl. pose proof (le_value_bound (slice pos 4 pack)) as Hb.
    rewrite Hs4 in Hb. apply Hb. by apply Forall_slice. }
  intros (blobs & Hfit & Hdrop & ->)%IH.
  set (b := slice (pos + 4) (Z.to_nat bl) pack).
  assert (Hlb : length b = Z.to_nat bl) by (apply length_slice; lia).
  exists (b :: blobs). split; [|split].
  - constructor; [|done]. unfold fits. rewrite Hlb. lia.
  - rewrite frames_cons, <- Hdrop. rewrite (drop_split pos 4), (drop_split (pos + 4) (Z.to_nat bl)).
    unfold frame. fold b. rewrite <- app_assoc. f_equal.
    rewrite blob_len_fits by (unfold fits; lia). rewrite Hlb, Z2Nat.id by lia.
    unfold bl. rewrite <- Hs4 at 2. symmetry. apply le_bytes_value. by apply Forall_slice.
  - simpl. rewrite <- app_assoc. simpl. rewrite Hlb, Z2Nat.id by lia.
    do 2 f_equal; [f_equal; lia|]. f_equal. lia.
Qed.

Lemma length_concat_frames blobs : (4 * length blobs <= length (frames blobs))%nat.
Proof.
  induction blobs as [|b blobs IH]; [done|]. rewrite frames_cons, length_app, length_frame.
  simpl length. lia.
Qed.

(** The scan accepts what the writer makes. *)
Lemma scan_pack_of blobs : Forall fits blobs -> scan_pack_blobs_bytes (pack_of blobs) = Ok (blob_ranges 9 blobs).
Proof.
  intros Hf. unfold scan_pack_blobs_bytes.
  assert (Hl : (9 + 4 * length blobs <= length (pack_of blobs))%nat).
  { unfold pack_of. rewrite length_app. pose proof (length_concat_frames blobs).
    change (length pack_header) with 9%nat. lia. }
  destruct (Nat.ltb_spec (length (pack_of blobs)) PACK_HEADER_SIZE) as [Hlt|_].
  { unfold PACK_HEADER_SIZE in Hlt. lia. }
  change (take 8 (pack_of blobs)) with PACK_MAGIC. rewrite bool_decide_true by done.
  change (nth 8 (pack_of blobs) 0) with 1. simpl negb. cbv iota.
  change ((1 <? PACK_VERSION_MIN) || (PACK_VERSION_MAX <? 1)) with false. cbv iota.
  pose proof (scan_loop_frames blobs (length (pack_of blobs)) pack_header [] Hf) as Hs.
  change PACK_HEADER_SIZE with (length pack_header). fold (pack_of blobs) in Hs.
  rewrite Hs by lia. by rewrite Nat.eqb_refl.
Qed.

(** And nothing else. *)
Lemma scan_pack_inv pack ranges : is_bytes pack -> scan_pack_blobs_bytes pack = Ok ranges ->
  exists blobs, Forall fits blobs /\ pack = pack_of blobs /\ ranges = blob_ranges 9 blobs.
Proof.
  intros Hb. unfold scan_pack_blobs_bytes.
  destruct (Nat.ltb_spec (length pack) PACK_HEADER_SIZE) as [|Hl]; [done|].
  case_bool_decide as Hm; simpl; [|done].
  destruct (_ || _) eqn:Hv; [done|].
  destruct (scan_loop _ _ _ _) as [pos rs] eqn:Hs.
  destruct (Nat.eqb_spec pos (length pack)) as [->|]; simpl; [|done].
  intros [= <-]. apply scan_loop_sound in Hs as (blobs & Hf & Hd & ->); [|done].
  exists blobs. split; [done|]. split; [|done].
  unfold pack_of. rewrite <- Hd. unfold pack_header. rewrite <- Hm.
  assert (Hn : nth 8 pack 0 = 1).
  { apply orb_false_iff in Hv as [Hv1%Z.ltb_ge Hv2%Z.ltb_ge].
    unfold PACK_VERSION_MIN, PACK_VERSION_MAX, PACK_VERSION_CURRENT in *. lia. }
  unfold PACK_VERSION_CURRENT, PACK_HEADER_SIZE in *. rewrite <- Hn.
  do 9 (destruct pack as [|? pack]; [simpl in Hl; lia|]). done.
Qed.

(** Scanning accepts exactly the files of the pack format, and answers the
    offset and length of every blob in them: on any byte string the scan
    succeeds iff it is a header followed by complete frames. *)
Theorem scan_pack_iff pack ranges :
  is_bytes pack ->
  scan_pack_blobs_bytes pack = Ok ranges <->
  exists blobs, Forall fits blobs /\ pack = pack_of blobs /\ ranges = blob_ranges 9 blobs.
Proof.
  intros Hb. split; [by apply scan_pack_inv|]. intros (blobs & Hf & -> & ->). exact (scan_pack_of blobs Hf).
Qed.

(** ** The writer's life between two seals

    A caller adds a chunk that is not pending and increments one that is
    (store_chunk and commit_prepacked_chunk look at [contains_pending] first). *)

Inductive writer_op :=
  | WAdd (now : Z) (id : ChunkId) (blob : bytes)
  | WInc (id : ChunkId).

Definition run_writer (w : PackWriter) (o : writer_op) : PackWriter :=
  match o with
  | WAdd now id blob => (add_blob now id blob w).2
  | WInc id => increment_pending id w
  end.

Fixpoint ops_ok (w : PackWriter) (ops : list writer_op) : bool :=
  match ops with
  | [] => true
  | WAdd now id blob :: ops' =>
      negb (contains_pending id w) && ops_ok (run_writer w (WAdd now id blob)) ops'
  | WInc id :: ops' => contains_pending id w && ops_ok (run_writer w (WInc id)) ops'
  end.

Fixpoint added (ops : list writer_op) : list (ChunkId * bytes) :=
  match ops with
  | [] => []
  | WAdd _ id blob :: ops' => (id, blob) :: added ops'
  | WInc _ :: ops' => added ops'
  end.

(** The number of references to [id] among the operations. *)
Definition op_id (o : writer_op) : ChunkId :=
  match o with WAdd _ id _ => id | WInc id => id end.
Definition uses (id : ChunkId) (ops : list writer_op) : Z :=
  sum_Z (fun o => if decide (op_id o = id) then 1 else 0) ops.

(** What the writer holds after some blobs. *)
Definition writer_inv (bl : list (ChunkId * bytes)) (w : PackWriter) : Prop :=
  (bl <> [] -> buffer w = Some (pack_of bl.*2)) /\
  blob_meta w = (fun b => mkMeta b.1 (blob_len b.2)) <$> bl /\
  current_size w = Z.of_nat (length (frames bl.*2)).

Lemma add_blob_inv now id blob bl w :
  writer_inv bl w -> writer_inv (bl ++ [(id, blob)]) (add_blob now id blob w).2.
Proof.
  intros (Hbuf & Hmeta & Hsize). unfold writer_inv, add_blob. simpl.
  rewrite Hmeta, length_fmap, !fmap_app, frames_app. simpl.
  split; [|split; [done|]].
  - intros _. unfold pack_of. rewrite frames_app, frames_cons. change (frames []) with (@nil Z).
    rewrite app_nil_r. destruct bl as [|b bl]; [done|]. simpl length. cbn [Nat.eqb].
    rewrite Hbuf by done. exact (f_equal Some (eq_sym (app_assoc _ _ (frame blob)))).
  - rewrite Hsize, length_app, frames_cons, length_app, length_frame. simpl. lia.
Qed.

Lemma run_writer_inv ops bl w :
  writer_inv bl w -> writer_inv (bl ++ added ops) (foldl run_writer w ops).
Proof.
  revert bl w. induction ops as [|o ops IH]; intros bl w Hinv; simpl.
  { by rewrite app_nil_r. }
  destruct o as [now id blob|id]; [|by apply IH].
  change ((id, blob) :: added ops) with ([(id, blob)] ++ added ops).
  rewrite app_assoc. apply IH. by apply add_blob_inv.
Qed.

Lemma writer_new_inv pt target : writer_inv [] (writer_new pt target).
Proof. done. Qed.

Lemma run_writer_const ops w :
  pack_type (foldl run_writer w ops) = pack_type w /\
  target_size (foldl run_writer w ops) = target_size w.
Proof.
  revert w. induction ops as [|[now id blob|id] ops IH]; intros w; simpl; [done| |].
  - apply (IH (add_blob now id blob w).2).
  - apply (IH (increment_pending id w)).
Qed.

(** The refcounts kept beside the buffer. *)
Definition pending_inv (ops : list writer_op) (w : PackWriter) : Prop :=
  forall id, match pending w !! id with
             | Some (_, rc) => rc = u32_wrap (uses id ops)
             | None => uses id ops = 0
             end.

Lemma pending_inv_run done ops w :
  pending_inv done w -> ops_ok w ops = true ->
  pending_inv (done ++ ops) (foldl run_writer w ops).
Proof.
  revert done w. induction ops as [|o ops IH]; intros done w Hinv Hok; simpl.
  { by rewrite app_nil_r. }
  change (o :: ops) with ([o] ++ ops). rewrite app_assoc.
  destruct o as [now id blob|id]; simpl in Hok; apply andb_true_iff in Hok as [Hp Hok];
    (apply IH; [|done]); intros i; specialize (Hinv i);
    unfold uses in *; rewrite sum_Z_app; simpl; rewrite Z.add_0_r.
  - apply negb_true_iff, bool_decide_eq_false in Hp. rewrite lookup_insert.
    destruct (decide (id = i)) as [->|]; [|by rewrite Z.add_0_r].
    apply eq_None_not_Some in Hp. rewrite Hp in Hinv. by rewrite Hinv.
  - apply bool_decide_eq_true in Hp as [[size rc] Hp]. rewrite Hp, lookup_insert.
    destruct (decide (id = i)) as [->|]; [|by rewrite Z.add_0_r].
    rewrite Hp in Hinv. rewrite Hinv. unfold u32_add, u32_wrap.
    by rewrite Zplus_mod_idemp_l.
Qed.

(** The entries of a sealed pack, blob by blob. *)
Lemma seal_entries_ranges pend base bl :
  Forall (fun b => fits b.2) bl ->
  (fun e => (pc_offset e, pc_stored_size e)) <$>
    seal_entries pend base ((fun b => mkMeta b.1 (blob_len b.2)) <$> bl) = blob_ranges base bl.*2 /\
  pc_chunk_id <$> seal_entries pend base ((fun b => mkMeta b.1 (blob_len b.2)) <$> bl) = bl.*1.
Proof.
  intros Hf. revert base. induction Hf as [|[id b] bl Hb Hbl IH]; intros base; csimpl; [done|].
  simpl in Hb. rewrite blob_len_fits by done.
  destruct (IH (base + (4 + Z.of_nat (length b)))) as [IH1 IH2]. rewrite IH1, IH2.
  split; [|done]. do 2 f_equal. lia.
Qed.

Lemma seal_entries_data pend pre bl :
  Forall (fun b => fits b.2) bl ->
  Forall2 (fun b e => slice (Z.to_nat (pc_offset e)) (Z.to_nat (pc_stored_size e))
                        (pre ++ frames bl.*2) = b.2 /\
                      pc_chunk_id e = b.1 /\
                      pc_refcount e = default 1 (snd <$> pend !! b.1))
    bl (seal_entries pend (Z.of_nat (length pre)) ((fun b => mkMeta b.1 (blob_len b.2)) <$> bl)).
Proof.
  intros Hf. revert pre. induction Hf as [|[id b] bl Hb Hbl IH]; intros pre; csimpl; constructor.
  - simpl in Hb. cbn [pc_offset pc_stored_size pc_chunk_id pc_refcount fst snd].
    rewrite blob_len_fits by done. split; [|done].
    rewrite frames_cons. unfold frame. rewrite <- app_assoc, app_assoc.
    replace (Z.to_nat (Z.of_nat (length pre) + 4)) with
      (length (pre ++ le_bytes 4 (blob_len b))) by len.
    rewrite Nat2Z.id. apply slice_app_mid.
  - simpl in Hb. cbn [snd]. rewrite blob_len_fits by done. rewrite frames_cons, app_assoc.
    replace (Z.of_nat (length pre) + (4 + Z.of_nat (length b))) with
      (Z.of_nat (length (pre ++ frame b))) by (rewrite length_app, length_frame; lia).
    apply IH.
Qed.

Section Sealing.
Context `{HexCodec} `{Blake2b}.

Lemma pending_inv_new pt target : pending_inv [] (writer_new pt target).
Proof. intros id. unfold writer_new. simpl. by rewrite lookup_empty. Qed.

Lemma seal_run pt target ops :
  added ops <> [] ->
  let w := foldl run_writer (writer_new pt target) ops in
  seal w = Ok
    (mkSealed (pack_id_compute (pack_of (added ops).*2))
       (seal_entries (pending w) 9 ((fun b => mkMeta b.1 (blob_len b.2)) <$> added ops))
       (pack_of (added ops).*2),
     writer_new pt target).
Proof.
  intros Hne w. destruct (run_writer_inv ops [] _ (writer_new_inv pt target)) as (Hb & Hm & _).
  simpl in Hb, Hm. fold w in Hb, Hm. unfold seal. rewrite Hm, length_fmap, Hb by done.
  destruct (Nat.eqb_spec (length (added ops)) 0) as [E|_]; [by apply length_zero_iff_nil in E|].
  unfold w. destruct (run_writer_const ops (writer_new pt target)) as [-> ->]. done.
Qed.

Lemma uses_added id ops : id ∈ (added ops).*1 -> 1 <= uses id ops.
Proof.
  unfold uses. induction ops as [|[now i b|i] ops IH]; csimpl; [set_solver| |].
  - assert (0 <= sum_Z (fun o => if decide (op_id o = id) then 1 else 0) ops).
    { apply sum_Z_nonneg. intros. case_decide; lia. }
    rewrite elem_of_cons. intros [->|Hin].
    + rewrite decide_True by done. lia.
    + apply IH in Hin. case_decide; lia.
  - intros Hin%IH. case_decide; lia.
Qed.

(** A pack survives its format: sealing a writer that received blobs
    [added ops] gives a file that the scanner reads back as exactly the
    entries handed to the index, in which every entry's offset and size cut
    out the blob of its chunk, every entry counts all the references its
    chunk received (modulo [u32]), and the writer is empty again. *)
Theorem seal_round_trip pt target ops :
  ops_ok (writer_new pt target) ops = true -> added ops <> [] ->
  Forall (fun b => fits b.2) (added ops) ->
  exists sp, seal (foldl run_writer (writer_new pt target) ops) = Ok (sp, writer_new pt target) /\
    sealed_pack_id sp = pack_id_compute (sealed_data sp) /\
    scan_pack_blobs_bytes (sealed_data sp) =
      Ok ((fun e => (pc_offset e, pc_stored_size e)) <$> sealed_entries sp) /\
    Forall2 (fun b e =>
        slice (Z.to_nat (pc_offset e)) (Z.to_nat (pc_stored_size e)) (sealed_data sp) = b.2 /\
        pc_chunk_id e = b.1 /\ pc_refcount e = u32_wrap (uses b.1 ops))
      (added ops) (sealed_entries sp).
Proof.
  intros Hok Hne Hfit. eexists. split; [by apply seal_run|]. simpl. split; [done|].
  set (w := foldl run_writer (writer_new pt target) ops). split.
  - destruct (seal_entries_ranges (pending w) 9 (added ops) Hfit) as [-> _].
    apply scan_pack_of. by apply Forall_fmap.
  - eapply Forall2_impl_in.
    { apply (seal_entries_data (pending w) pack_header (added ops) Hfit). }
    intros b e Hin (Hs & Hid & Hrc). split; [done|]. split; [done|]. rewrite Hrc.
    pose proof (pending_inv_run [] ops _ (pending_inv_new pt target) Hok b.1) as Hp.
    simpl in Hp. fold w in Hp. destruct (pending w !! b.1) as [[size rc]|]; simpl; [done|].
    assert (1 <= uses b.1 ops); [|lia]. apply uses_added, list_elem_of_fmap. eauto.
Qed.

(** The offset [add_blob] announces for a blob is the one its index entry
    gets at sealing time, whatever is added in between. *)
Theorem add_blob_offset pt target ops1 now id blob ops2 :
  Forall (fun b => fits b.2) (added (ops1 ++ WAdd now id blob :: ops2)) ->
  let w := foldl run_writer (writer_new pt target) ops1 in
  exists sp e, seal (foldl run_writer w (WAdd now id blob :: ops2)) = Ok (sp, writer_new pt target) /\
    sealed_entries sp !! length (added ops1) = Some e /\
    pc_chunk_id e = id /\ pc_offset e = (add_blob now id blob w).1.
Proof.
  intros Hfit w. unfold w. rewrite <- foldl_app.
  assert (Happ : forall o2, added (ops1 ++ o2) = added ops1 ++ added o2).
  { clear. induction ops1 as [|[] ops1 IH]; intros; simpl; by rewrite ?IH. }
  eexists. destruct (seal_entries_ranges
    (pending (foldl run_writer (writer_new pt target) (ops1 ++ WAdd now id blob :: ops2)))
    9 _ Hfit) as [Hr Hids].
  assert (Hlt : (length (added ops1) < length (added (ops1 ++ WAdd now id blob :: ops2)))%nat)
    by (rewrite Happ, length_app; simpl; lia).
  destruct (lookup_lt_is_Some_2 (seal_entries
    (pending (foldl run_writer (writer_new pt target) (ops1 ++ WAdd now id blob :: ops2))) 9
    ((fun b => mkMeta b.1 (blob_len b.2)) <$> added (ops1 ++ WAdd now id blob :: ops2)))
    (length (added ops1))) as [e He].
  { apply (f_equal length) in Hids. rewrite !length_fmap in Hids. lia. }
  exists e. split.
  { apply seal_run. intros E. rewrite E in Hlt. simpl in Hlt. lia. }
  split; [exact He|]. split.
  - apply (f_equal (.!! length (added ops1))) in Hids. rewrite list_lookup_fmap, He in Hids.
    rewrite Happ, fmap_app in Hids. rewrite lookup_app_r in Hids by (by rewrite length_fmap).
    rewrite length_fmap, Nat.sub_diag in Hids. by injection Hids.
  - apply (f_equal (.!! length (added ops1))) in Hr. rewrite list_lookup_fmap, He in Hr.
    rewrite Happ, fmap_app in Hr.
    change (added (WAdd now id blob :: ops2)).*2 with (blob :: (added ops2).*2) in Hr.
    rewrite <- (length_fmap snd (added ops1)), blob_ranges_mid in Hr.
    destruct (run_writer_inv ops1 [] _ (writer_new_inv pt target)) as (_ & _ & Hsz).
    simpl in Hsz. simpl. rewrite Hsz. injection Hr as Ho _. rewrite Ho.
    unfold PACK_HEADER_SIZE. lia.
Qed.
End Sealing.

(** ** Witnesses *)

#[export] Instance fits_dec b : Decision (fits b).
Proof. unfold fits. apply _. Defined.

(** A pack of two blobs, the first one referenced twice. *)
Definition ex_ops : list writer_op :=
  [WAdd 0 (mkChunkId (id_of_byte 1)) [7; 8; 9]; WInc (mkChunkId (id_of_byte 1));
   WAdd 1 (mkChunkId (id_of_byte 2)) [5]].

Lemma scan_pack_iff_witness :
  scan_pack_blobs_bytes (pack_of [[7; 8; 9]; []; [5]]) = Ok [(13, 3); (20, 0); (24, 1)].
Proof.
  apply (scan_pack_iff (pack_of [[7; 8; 9]; []; [5]])); [by_eval|].
  exists [[7; 8; 9]; []; [5]]. split; [by_eval|]. split; reflexivity.
Defined.

Lemma seal_round_trip_witness :
  exists sp, seal (foldl run_writer (writer_new Data 100) ex_ops) = Ok (sp, writer_new Data 100) /\
    scan_pack_blobs_bytes (sealed_data sp) = Ok [(13, 3); (20, 1)].
Proof.
  destruct (seal_round_trip Data 100 ex_ops) as (sp & Hs & _ & Hscan & _).
  - vm_compute. reflexivity.
  - discriminate.
  - by_eval.
  - exists sp. split; [exact Hs|]. rewrite Hscan. vm_compute in Hs. injection Hs as <-. reflexivity.
Defined.

Lemma add_blob_offset_witness :
  (add_blob 1 (mkChunkId (id_of_byte 2)) [5]
     (foldl run_writer (writer_new Data 100) (take 2 ex_ops))).1 = 20.
Proof.
  destruct (add_blob_offset Data 100 (take 2 ex_ops) 1 (mkChunkId (id_of_byte 2)) [5] [])
    as (sp & e & Hs & He & _ & <-); [by_eval|].
  vm_compute in Hs. injection Hs as <-. vm_compute in He. by injection He as <-.
Defined.
