(* ===== verification/Crypto.v ===== *)
(** * Encryption engines and the repository key (crates/vykar-crypto)

    The trait [CryptoEngine] of src/lib.rs is a record of its methods with the
    class [LawfulEngine] of what the object format relies on; the plaintext
    engine and the AEAD engines of src/aes_gcm.rs and src/chacha20_poly1305.rs
    (the same code over two ciphers) are its implementations.  The ciphers of
    the aes-gcm and chacha20poly1305 crates, Argon2 and MessagePack are
    third-party code: classes with their documented behaviour.  Random bytes
    are arguments. *)

From S2P Require Import Prelude Types.
#[local] Open Scope string_scope.
#[local] Open Scope list_scope.
#[local] Open Scope Z_scope.

(** ** Third-party interfaces *)

(** An AEAD cipher with 12-byte nonces and 16-byte tags: [aead_seal] gives the
    ciphertext and the tag (it refuses messages that are too long),
    [aead_open] verifies the tag first.  Both are deterministic, and a message
    opens exactly when it is the one sealed. *)
Class Aead := {
  aead_seal : bytes -> bytes -> bytes -> bytes -> option (bytes * bytes);
  aead_open : bytes -> bytes -> bytes -> bytes -> bytes -> option bytes;
  aead_tag_length : forall k n aad p c t, aead_seal k n aad p = Some (c, t) -> length t = 16%nat;
  aead_open_iff : forall k n aad p c t,
    aead_open k n aad c t = Some p <-> aead_seal k n aad p = Some (c, t);
}.

(** A toy cipher, the witness that the laws can hold: the identity with a
    16-byte tag over nonce and associated data. *)
Definition toy_tag (n aad : bytes) : bytes := take 16 (rev aad ++ n ++ replicate 16 0).
Definition toy_seal (k n aad p : bytes) : option (bytes * bytes) := Some (p, toy_tag n aad).
Definition toy_open (k n aad c t : bytes) : option bytes :=
  if bool_decide (t = toy_tag n aad) then Some c else None.

#[export] Program Instance toy_aead : Aead := {|
  aead_seal := toy_seal;
  aead_open := toy_open;
|}.
Next Obligation.
  unfold toy_seal. intros k n aad p c t [= <- <-]. unfold toy_tag.
  rewrite length_take, !length_app, length_replicate. lia.
Qed.
Next Obligation.
  unfold toy_seal, toy_open. intros. case_bool_decide; subst; naive_solver.
Qed.

(** ** The engine trait *)

Definition NONCE_LEN : nat := 12.
Definition TAG_LEN : nat := 16.

(** [encrypt] and [encrypt_in_place_detached] draw a nonce: their first
    argument.  The latter returns the buffer it has overwritten beside the
    nonce and the tag; [decrypt_into] the new contents of its output buffer. *)
Record CryptoEngine := mkEngine {
  encrypt : bytes -> bytes -> bytes -> res bytes;
  decrypt : bytes -> bytes -> res bytes;
  encrypt_in_place_detached : bytes -> bytes -> bytes -> res (bytes * bytes * bytes);
  decrypt_into : bytes -> bytes -> res bytes;
  is_encrypting : bool;
  chunk_id_key : bytes;
}.

(** What the object format needs of an engine. *)
Class LawfulEngine (e : CryptoEngine) : Prop := {
  decrypt_encrypt : forall nonce p aad d,
    length nonce = NONCE_LEN -> encrypt e nonce p aad = Ok d -> decrypt e d aad = Ok p;
  decrypt_into_eq : forall d aad, decrypt_into e d aad = decrypt e d aad;
  in_place_plain : is_encrypting e = false -> forall nonce p aad, encrypt e nonce p aad = Ok p;
  in_place_eq : is_encrypting e = true -> forall nonce p aad,
    length nonce = NONCE_LEN ->
    encrypt e nonce p aad =
    (fun '(c, n, t) => n ++ c ++ t) <$> encrypt_in_place_detached e nonce p aad /\
    (forall c n t, encrypt_in_place_detached e nonce p aad = Ok (c, n, t) -> length n = NONCE_LEN);
}.

Definition PlaintextEngine (key : bytes) : CryptoEngine := {|
  encrypt := fun _ p _ => Ok p;
  decrypt := fun d _ => Ok d;
  encrypt_in_place_detached := fun _ b _ => Ok (b, replicate 12 0, replicate 16 0);
  decrypt_into := fun d _ => Ok d;
  is_encrypting := false;
  chunk_id_key := key;
|}.

(** [split_at]. *)
Definition split_at {A} (n : nat) (l : list A) : list A * list A := (take n l, drop n l).

Section AeadEngine.
Context `{Aead}.

(** [Aead::encrypt] and [Aead::decrypt] of the crates: the tag follows the
    ciphertext. *)
Definition aead_encrypt (k n aad p : bytes) : option bytes :=
  (fun '(c, t) => c ++ t) <$> aead_seal k n aad p.
Definition aead_decrypt (k n aad ct : bytes) : option bytes :=
  if (length ct <? TAG_LEN)%nat then None
  else let '(c, t) := split_at (length ct - TAG_LEN) ct in aead_open k n aad c t.

(** [Aes256GcmEngine] and [ChaCha20Poly1305Engine]. *)
Definition aead_engine_encrypt (k nonce p aad : bytes) : res bytes :=
  match aead_encrypt k nonce aad p with
  | None => Err (Other "encrypt")
  | Some ct => Ok (nonce ++ ct)
  end.

Definition aead_engine_decrypt (k d aad : bytes) : res bytes :=
  if (length d <? NONCE_LEN + TAG_LEN)%nat then Err DecryptionFailed
  else
    let '(nonce, ct) := split_at NONCE_LEN d in
    ok_or (aead_decrypt k nonce aad ct) DecryptionFailed.

Definition aead_engine_decrypt_into (k d aad : bytes) : res bytes :=
  if (length d <? NONCE_LEN + TAG_LEN)%nat then Err DecryptionFailed
  else
    let '(nonce, ct_and_tag) := split_at NONCE_LEN d in
    let '(c, t) := split_at (length ct_and_tag - TAG_LEN) ct_and_tag in
    ok_or (aead_open k nonce aad c t) DecryptionFailed.

Definition aead_engine_in_place (k nonce buf aad : bytes) : res (bytes * bytes * bytes) :=
  match aead_seal k nonce aad buf with
  | None => Err (Other "encrypt")
  | Some (c, t) => Ok (c, nonce, t)
  end.

Definition AeadEngine (k id_key : bytes) : CryptoEngine := {|
  encrypt := aead_engine_encrypt k;
  decrypt := aead_engine_decrypt k;
  encrypt_in_place_detached := aead_engine_in_place k;
  decrypt_into := aead_engine_decrypt_into k;
  is_encrypting := true;
  chunk_id_key := id_key;
|}.

Lemma split_at_app {A} (l1 l2 : list A) n :
  n = length l1 -> split_at n (l1 ++ l2) = (l1, l2).
Proof. intros ->. unfold split_at. by rewrite take_app_length, drop_app_length. Qed.

Lemma aead_decrypt_app k n aad c t :
  length t = TAG_LEN -> aead_decrypt k n aad (c ++ t) = aead_open k n aad c t.
Proof.
  intros Ht. unfold aead_decrypt. rewrite length_app, Ht.
  destruct (Nat.ltb_spec (length c + TAG_LEN) TAG_LEN); [lia|].
  rewrite split_at_app by lia. done.
Qed.

(** Decryption succeeds exactly on sealed messages. *)
Lemma aead_decrypt_Some k n aad ct p :
  aead_decrypt k n aad ct = Some p <->
  exists c t, ct = c ++ t /\ length t = TAG_LEN /\ aead_seal k n aad p = Some (c, t).
Proof.
  split.
  - unfold aead_decrypt. destruct (Nat.ltb_spec (length ct) TAG_LEN); [done|].
    simpl. intros Ho%aead_open_iff. eexists _, _. split; [|split; [|exact Ho]].
    + by rewrite take_drop.
    + rewrite length_drop. lia.
  - intros (c & t & -> & Ht & Hs). rewrite aead_decrypt_app by done. by apply aead_open_iff.
Qed.
End AeadEngine.

#[export] Instance PlaintextEngine_lawful key : LawfulEngine (PlaintextEngine key).
Proof. split; simpl; intros; by inv_result. Qed.

#[export] Instance AeadEngine_lawful `{Aead} k id_key : LawfulEngine (AeadEngine k id_key).
Proof.
  split; simpl.
  - intros nonce p aad d Hn. unfold aead_engine_encrypt, aead_encrypt.
    destruct (aead_seal k nonce aad p) as [[c t]|] eqn:E; simpl; [|done]. intros [= <-].
    pose proof (aead_tag_length _ _ _ _ _ _ E) as Ht. unfold aead_engine_decrypt.
    rewrite !length_app, Hn, Ht. destruct (Nat.ltb_spec (NONCE_LEN + (length c + 16)) (NONCE_LEN + TAG_LEN)).
    { unfold NONCE_LEN, TAG_LEN in *. lia. }
    rewrite split_at_app by done. rewrite aead_decrypt_app by done.
    by rewrite (proj2 (aead_open_iff _ _ _ _ _ _) E).
  - intros d aad. unfold aead_engine_decrypt_into, aead_engine_decrypt.
    destruct (Nat.ltb_spec (length d) (NONCE_LEN + TAG_LEN)); [done|].
    simpl. unfold aead_decrypt.
    destruct (Nat.ltb_spec (length (drop NONCE_LEN d)) TAG_LEN) as [Hl|]; [|done].
    rewrite length_drop in Hl. lia.
  - done.
  - intros _ nonce p aad Hn. unfold aead_engine_encrypt, aead_engine_in_place, aead_encrypt.
    destruct (aead_seal k nonce aad p) as [[c t]|]; simpl; (split; [done|]); naive_solver.
Qed.
