(* ===== verification/Key.v ===== *)
(** * The encrypted repository key (crates/vykar-crypto/src/key.rs)

    The master key is wrapped with AES-256-GCM under a key derived from the
    passphrase, and the derivation parameters are bound as associated data. *)

From S2P Require Import Prelude Types Crypto.
#[local] Open Scope string_scope.
#[local] Open Scope list_scope.
#[local] Open Scope Z_scope.

Record MasterKey := mkMasterKey { encryption_key : bytes; mk_chunk_id_key : bytes }.

Record KdfParams := mkKdf {
  algorithm : string;
  time_cost : Z;
  memory_cost : Z;
  parallelism : Z;
  salt : bytes;
}.

Record EncryptedKey := mkEncryptedKey {
  kdf : KdfParams;
  ek_nonce : bytes;
  encrypted_payload : bytes;
}.

Definition MAX_TIME_COST : Z := 10.
Definition MAX_PARALLELISM : Z := 16.
Definition MAX_MEMORY_KIB : Z := 524288.
Definition MIN_SALT_LEN : nat := 16.
Definition MAX_SALT_LEN : nat := 64.

Definition validate_kdf_params (k : KdfParams) : res unit :=
  if negb (String.eqb (algorithm k) "argon2id") then Err DecryptionFailed
  else if (time_cost k =? 0) || (MAX_TIME_COST <? time_cost k) then Err DecryptionFailed
  else if (parallelism k =? 0) || (MAX_PARALLELISM <? parallelism k) then Err DecryptionFailed
  else if (memory_cost k =? 0) || (MAX_MEMORY_KIB <? memory_cost k) then Err DecryptionFailed
  else if (length (salt k) <? MIN_SALT_LEN)%nat || (MAX_SALT_LEN <? length (salt k))%nat
       then Err DecryptionFailed
  else Ok tt.

(** [b"vger:kdf-aad:v1\0"]. *)
Definition KDF_AAD_PREFIX : bytes := str_bytes "vger:kdf-aad:v1" ++ [0].

Definition kdf_params_aad_v1 (k : KdfParams) : bytes :=
  let algo_bytes := str_bytes (algorithm k) in
  KDF_AAD_PREFIX
  ++ le_bytes 4 (u32_wrap (Z.of_nat (length algo_bytes)))
  ++ algo_bytes
  ++ le_bytes 4 (time_cost k)
  ++ le_bytes 4 (memory_cost k)
  ++ le_bytes 4 (parallelism k)
  ++ le_bytes 4 (u32_wrap (Z.of_nat (length (salt k))))
  ++ salt k.

(** Argon2id: memory cost, time cost, parallelism, salt and passphrase give a
    32-byte key, or an error on parameters outside its domain. *)
Class Argon2 := {
  argon2id : Z -> Z -> Z -> bytes -> bytes -> option bytes;
  argon2id_length : forall m t p s pass out,
    argon2id m t p s pass = Some out -> length out = 32%nat;
}.

Definition toy_kdf (s pass : bytes) : bytes := take 32 (pass ++ s ++ replicate 32 0).

Lemma length_toy_kdf s pass : length (toy_kdf s pass) = 32%nat.
Proof. unfold toy_kdf. rewrite length_take, !length_app, length_replicate. lia. Qed.

#[export] Program Instance toy_argon2 : Argon2 := {|
  argon2id := fun _ _ _ s pass => Some (toy_kdf s pass);
|}.
Next Obligation. intros m t p s pass out [= <-]. apply length_toy_kdf. Qed.

Section Key.
(** The cipher is AES-256-GCM; the payload and, for the legacy form, the
    parameters are MessagePack. *)
Context `{Aead} `{Argon2} `{MsgPack (bytes * bytes)} `{MsgPack KdfParams}.

Definition derive_key_from_passphrase (pass : bytes) (k : KdfParams) : res bytes :=
  ok_or (argon2id (memory_cost k) (time_cost k) (parallelism k) (salt k) pass)
    (KeyDerivation "argon2").

Definition kdf_params_aad_legacy (k : KdfParams) : bytes := mp_encode k.

(** [to_encrypted] with the salt and the nonce it draws. *)
Definition to_encrypted (mk : MasterKey) (pass salt nonce : bytes) : res EncryptedKey :=
  let k := mkKdf "argon2id" 3 65536 4 salt in
  wrapping_key ← derive_key_from_passphrase pass k;
  let plaintext := mp_encode (encryption_key mk, mk_chunk_id_key mk) in
  ct ← ok_or (aead_encrypt wrapping_key nonce (kdf_params_aad_v1 k) plaintext)
         (KeyDerivation "encrypt");
  mret (mkEncryptedKey k nonce ct).

Definition try_decrypt_with_v1_aad (wk : bytes) (e : EncryptedKey) : option bytes :=
  aead_decrypt wk (ek_nonce e) (kdf_params_aad_v1 (kdf e)) (encrypted_payload e).
Definition try_decrypt_with_legacy_aad (wk : bytes) (e : EncryptedKey) : option bytes :=
  aead_decrypt wk (ek_nonce e) (kdf_params_aad_legacy (kdf e)) (encrypted_payload e).
Definition try_decrypt_no_aad (wk : bytes) (e : EncryptedKey) : option bytes :=
  aead_decrypt wk (ek_nonce e) [] (encrypted_payload e).

Definition or_else {A} (o o' : option A) : option A :=
  match o with Some _ => o | None => o' end.

Definition from_encrypted (e : EncryptedKey) (pass : bytes) : res MasterKey :=
  if negb (length (ek_nonce e) =? 12)%nat then Err DecryptionFailed
  else
    _ ← validate_kdf_params (kdf e);
    wk ← derive_key_from_passphrase pass (kdf e);
    plaintext ← ok_or (or_else (or_else (try_decrypt_with_v1_aad wk e)
                                        (try_decrypt_with_legacy_aad wk e))
                               (try_decrypt_no_aad wk e)) DecryptionFailed;
    '(ek, ck) ← ok_or (mp_decode plaintext) DecryptionFailed;
    if negb (length ek =? 32)%nat || negb (length ck =? 32)%nat then Err DecryptionFailed
    else mret (mkMasterKey ek ck).

Definition wf_master (mk : MasterKey) : Prop :=
  length (encryption_key mk) = 32%nat /\ length (mk_chunk_id_key mk) = 32%nat.

(** C27. The wrapped key opens: whatever salt and nonce were drawn, the key
    blob [to_encrypted] produces passes the parameter bounds and
    [from_encrypted] recovers the master key under the same passphrase. *)
Theorem key_round_trip mk pass s nonce e :
  wf_master mk -> length s = 32%nat -> length nonce = 12%nat ->
  to_encrypted mk pass s nonce = Ok e -> from_encrypted e pass = Ok mk.
Proof.
  intros [Hek Hck] Hs Hn. unfold to_encrypted. intros He. inv_result.
  unfold from_encrypted. simpl. rewrite Hn. simpl.
  unfold validate_kdf_params. simpl. rewrite Hs. simpl.
  match goal with Hd : derive_key_from_passphrase _ _ = _ |- _ => rewrite Hd end. simpl.
  unfold try_decrypt_with_v1_aad. simpl.
  match goal with He : aead_encrypt _ _ _ _ = _ |- _ =>
    unfold aead_encrypt in He;
    destruct (aead_seal _ _ _ _) as [[c t]|] eqn:Hseal; simpl in He; [|done];
    injection He as <- end.
  rewrite aead_decrypt_app by (by eapply aead_tag_length).
  rewrite (proj2 (aead_open_iff _ _ _ _ _ _) Hseal). simpl.
  rewrite mp_decode_encode. simpl. rewrite Hek, Hck. by destruct mk.
Qed.

(** The parameters as [u32]s and vectors shorter than 4 GiB. *)
Definition wf_kdf (k : KdfParams) : Prop :=
  u32 (time_cost k) /\ u32 (memory_cost k) /\ u32 (parallelism k) /\
  u32 (Z.of_nat (length (str_bytes (algorithm k)))) /\ u32 (Z.of_nat (length (salt k))).

(** Equal fields of equal length peel off. *)
Lemma le_bytes4_app_inj a b (x y : bytes) :
  u32 a -> u32 b -> le_bytes 4 a ++ x = le_bytes 4 b ++ y -> a = b /\ x = y.
Proof.
  intros Ha Hb E. apply app_inj_1 in E as [E1 E2]; [|by rewrite !length_le_bytes].
  split; [|done]. apply (f_equal le_value) in E1.
  by rewrite !le_value_bytes_u32 in E1.
Qed.

Lemma kdf_params_aad_v1_inj k1 k2 :
  wf_kdf k1 -> wf_kdf k2 -> kdf_params_aad_v1 k1 = kdf_params_aad_v1 k2 -> k1 = k2.
Proof.
  intros (Ht1 & Hm1 & Hp1 & Ha1 & Hs1) (Ht2 & Hm2 & Hp2 & Ha2 & Hs2). unfold kdf_params_aad_v1.
  rewrite !u32_wrap_small by done. intros E. apply app_inv_head in E.
  apply le_bytes4_app_inj in E as [Hl E]; [|done..].
  apply app_inj_1 in E as [Halgo E]; [|lia].
  apply le_bytes4_app_inj in E as [Ht E]; [|done..].
  apply le_bytes4_app_inj in E as [Hm E]; [|done..].
  apply le_bytes4_app_inj in E as [Hp E]; [|done..].
  apply le_bytes4_app_inj in E as [_ E]; [|done..].
  apply str_bytes_inj in Halgo. destruct k1, k2; simpl in *. by subst.
Qed.

(** Substituting the derivation parameters of a key blob is caught unless
    the cipher itself is broken: if the payload sealed under parameters [k]
    is accepted with other parameters through the current scheme, two
    messages with different associated data have the same ciphertext and tag
    under the two derived keys. *)
Theorem kdf_substitution_is_forgery wk wk' k k' nonce p p' ct :
  wf_kdf k -> wf_kdf k' -> k <> k' ->
  aead_encrypt wk nonce (kdf_params_aad_v1 k) p = Some ct ->
  try_decrypt_with_v1_aad wk' (mkEncryptedKey k' nonce ct) = Some p' ->
  exists c t aad aad', aad <> aad' /\
    aead_seal wk nonce aad p = Some (c, t) /\ aead_seal wk' nonce aad' p' = Some (c, t).
Proof.
  intros Hk Hk' Hne Hs Ho. unfold aead_encrypt in Hs.
  destruct (aead_seal wk nonce _ p) as [[c t]|] eqn:E; simpl in Hs; [|done].
  injection Hs as <-. unfold try_decrypt_with_v1_aad in Ho. simpl in Ho.
  rewrite aead_decrypt_app in Ho by (by eapply aead_tag_length).
  apply aead_open_iff in Ho.
  exists c, t, (kdf_params_aad_v1 k), (kdf_params_aad_v1 k'). split; [|done].
  intros Heq. by apply Hne, kdf_params_aad_v1_inj.
Qed.
End Key.

(** ** Witnesses *)

(** A length-prefixed encoding of two byte strings, for the witness. *)
Definition toy_pair_encode (p : bytes * bytes) : bytes :=
  Z.of_nat (length p.1) :: p.1 ++ p.2.
Definition toy_pair_decode (b : bytes) : option (bytes * bytes) :=
  match b with
  | [] => None
  | n :: r => Some (take (Z.to_nat n) r, drop (Z.to_nat n) r)
  end.
#[export] Program Instance toy_pair : MsgPack (bytes * bytes) := {|
  mp_encode := toy_pair_encode;
  mp_decode := toy_pair_decode;
|}.
Next Obligation.
  intros [a b]. unfold toy_pair_encode, toy_pair_decode. simpl.
  by rewrite Nat2Z.id, take_app_length, drop_app_length.
Qed.

Definition toy_kdf_encode (k : KdfParams) : bytes :=
  Z.of_nat (length (str_bytes (algorithm k))) :: time_cost k :: memory_cost k :: parallelism k
  :: str_bytes (algorithm k) ++ salt k.
Fixpoint bytes_str (b : bytes) : string :=
  match b with
  | [] => ""
  | x :: r => String (Ascii.ascii_of_nat (Z.to_nat x)) (bytes_str r)
  end.
Definition toy_kdf_decode (b : bytes) : option KdfParams :=
  match b with
  | n :: t :: m :: p :: r =>
      Some (mkKdf (bytes_str (take (Z.to_nat n) r)) t m p (drop (Z.to_nat n) r))
  | _ => None
  end.

Lemma bytes_str_bytes s : bytes_str (str_bytes s) = s.
Proof.
  induction s as [|a s IH]; simpl; [done|].
  by rewrite IH, Nat2Z.id, Ascii.ascii_nat_embedding.
Qed.

#[export] Program Instance toy_kdf_msgpack : MsgPack KdfParams := {|
  mp_encode := toy_kdf_encode;
  mp_decode := toy_kdf_decode;
|}.
Next Obligation.
  intros []. unfold toy_kdf_encode, toy_kdf_decode. simpl.
  by rewrite Nat2Z.id, take_app_length, drop_app_length, bytes_str_bytes.
Qed.

Lemma key_round_trip_witness :
  let mk := mkMasterKey (id_of_byte 1) (id_of_byte 2) in
  exists e, to_encrypted mk [112; 119] (id_of_byte 3) (replicate 12 4) = Ok e /\
    from_encrypted e [112; 119] = Ok mk.
Proof.
  intros mk. eexists. split; [vm_compute; reflexivity|].
  apply (key_round_trip mk [112; 119] (id_of_byte 3) (replicate 12 4)); by vm_compute.
Defined.

#[export] Instance wf_kdf_dec k : Decision (wf_kdf k).
Proof. unfold wf_kdf. apply _. Defined.

(** The toy tag covers the salt only, so parameters that differ elsewhere can
    be exchanged under it: the collision the theorem promises. *)
Lemma kdf_substitution_is_forgery_witness :
  exists c t aad aad', aad <> aad' /\
    aead_seal [1] (replicate 12 4) aad [7] = Some (c, t) /\
    aead_seal [1] (replicate 12 4) aad' [7] = Some (c, t).
Proof.
  apply (kdf_substitution_is_forgery [1] [1] (mkKdf "argon2id" 3 65536 4 (id_of_byte 3))
    (mkKdf "argon2id" 1 8 1 (id_of_byte 3)) (replicate 12 4) [7] [7] (7 :: replicate 16 3)).
  - by_eval.
  - by_eval.
  - discriminate.
  - vm_compute. reflexivity.
  - vm_compute. reflexivity.
Defined.
