(* ===== verification/Format.v ===== *)
(** * Repository objects (crates/vykar-core/src/repo/format.rs)

    Every object but a pack is [type tag, encrypted payload]; the tag, and for
    most objects an identity context, is authenticated with the payload. *)

From S2P Require Import Prelude Types Crypto.
#[local] Open Scope string_scope.
#[local] Open Scope list_scope.
#[local] Open Scope Z_scope.

(** [b"vger:object-context:v1\0"]. *)
Definition OBJECT_CONTEXT_AAD_PREFIX : bytes := str_bytes "vger:object-context:v1" ++ [0].

Inductive ObjectType :=
  | OConfig | OManifest | OSnapshotMeta | OChunkData | OChunkIndex
  | OPackHeader | OFileCache | OPendingIndex | OSnapshotCache.
#[export] Instance ObjectType_eq_dec : EqDecision ObjectType.
Proof. solve_decision. Defined.

(** [obj_type as u8]. *)
Definition object_tag (t : ObjectType) : Z :=
  match t with
  | OConfig => 0 | OManifest => 1 | OSnapshotMeta => 2 | OChunkData => 3
  | OChunkIndex => 4 | OPackHeader => 5 | OFileCache => 6 | OPendingIndex => 7
  | OSnapshotCache => 8
  end.

Definition object_from_u8 (v : Z) : res ObjectType :=
  match v with
  | 0 => Ok OConfig | 1 => Ok OManifest | 2 => Ok OSnapshotMeta | 3 => Ok OChunkData
  | 4 => Ok OChunkIndex | 5 => Ok OPackHeader | 6 => Ok OFileCache | 7 => Ok OPendingIndex
  | 8 => Ok OSnapshotCache
  | _ => Err (UnknownObjectType v)
  end.

Definition legacy_aad (tag : Z) : bytes := [tag].

Definition contextual_aad (tag : Z) (context : bytes) : bytes :=
  [tag] ++ OBJECT_CONTEXT_AAD_PREFIX ++ context.

Definition parse_object_envelope (data : bytes) : res (Z * ObjectType * bytes) :=
  match data with
  | [] => Err (InvalidFormat "empty object")
  | tag :: rest => t ← object_from_u8 tag; mret (tag, t, rest)
  end.

Section Objects.
Context (e : CryptoEngine).

(** ** Packing; [nonce] is what the engine draws. *)

Definition pack_with_aad (t : ObjectType) (aad plaintext nonce : bytes) : res bytes :=
  encrypted ← encrypt e nonce plaintext aad;
  mret ([object_tag t] ++ encrypted).

Definition pack_object (t : ObjectType) (plaintext nonce : bytes) : res bytes :=
  pack_with_aad t (legacy_aad (object_tag t)) plaintext nonce.

Definition pack_object_with_context (t : ObjectType) (context plaintext nonce : bytes) : res bytes :=
  pack_with_aad t (contextual_aad (object_tag t) context) plaintext nonce.

(** The callback [write_plaintext] turns the buffer into a longer one. *)
Definition stream_with_aad (t : ObjectType) (aad nonce : bytes)
    (write_plaintext : bytes -> res bytes) : res bytes :=
  if is_encrypting e then
    buf ← write_plaintext ([object_tag t] ++ replicate 12 0);
    let plaintext_start := (1 + 12)%nat in
    '(ct, n, gcm_tag) ← encrypt_in_place_detached e nonce (drop plaintext_start buf) aad;
    let buf := take plaintext_start buf ++ ct in
    let buf := take 1 buf ++ n ++ drop 13 buf in
    mret (buf ++ gcm_tag)
  else
    write_plaintext [object_tag t].

Definition pack_object_streaming (t : ObjectType) (nonce : bytes)
    (write_plaintext : bytes -> res bytes) : res bytes :=
  stream_with_aad t (legacy_aad (object_tag t)) nonce write_plaintext.

Definition pack_object_streaming_with_context (t : ObjectType) (context nonce : bytes)
    (write_plaintext : bytes -> res bytes) : res bytes :=
  stream_with_aad t (contextual_aad (object_tag t) context) nonce write_plaintext.

(** ** Unpacking *)

Definition unpack_object (data : bytes) : res (ObjectType * bytes) :=
  '(tag, t, encrypted) ← parse_object_envelope data;
  plaintext ← decrypt e encrypted (legacy_aad tag);
  mret (t, plaintext).

Definition unpack_object_with_context (data context : bytes) : res (ObjectType * bytes) :=
  '(tag, t, encrypted) ← parse_object_envelope data;
  plaintext ← decrypt e encrypted (contextual_aad tag context);
  mret (t, plaintext).

Definition expect_type (expected : ObjectType) (r : res (ObjectType * bytes)) : res bytes :=
  '(t, plaintext) ← r;
  if bool_decide (t <> expected) then Err (InvalidFormat "unexpected object type")
  else mret plaintext.

Definition unpack_object_expect (data : bytes) (expected : ObjectType) : res bytes :=
  expect_type expected (unpack_object data).

Definition unpack_object_expect_with_context (data : bytes) (expected : ObjectType)
    (context : bytes) : res bytes :=
  expect_type expected (unpack_object_with_context data context).

(** The contents of [output] on success. *)
Definition unpack_object_expect_with_context_into (data : bytes) (expected : ObjectType)
    (context : bytes) : res bytes :=
  '(tag, t, encrypted) ← parse_object_envelope data;
  output ← decrypt_into e encrypted (contextual_aad tag context);
  if bool_decide (t <> expected) then Err (InvalidFormat "unexpected object type")
  else mret output.
End Objects.

(** ** Laws *)

Lemma object_from_u8_tag t : object_from_u8 (object_tag t) = Ok t.
Proof. by destruct t. Qed.

Lemma object_from_u8_Ok v t : object_from_u8 v = Ok t -> v = object_tag t.
Proof.
  intros Hv. destruct v as [|p|p]; simpl in Hv; [by injection Hv as <-| |done].
  do 4 (destruct p as [p|p|]; simpl in Hv; try done; try by injection Hv as <-).
Qed.

Lemma parse_tagged t body : parse_object_envelope (object_tag t :: body) = Ok (object_tag t, t, body).
Proof. simpl. by rewrite object_from_u8_tag. Qed.

Lemma contextual_aad_inj tag tag' ctx ctx' :
  contextual_aad tag ctx = contextual_aad tag' ctx' -> tag = tag' /\ ctx = ctx'.
Proof. unfold contextual_aad. intros [= <- E]. by simplify_list_eq. Qed.

Section ObjectLaws.
Context (e : CryptoEngine) {Hlaw : LawfulEngine e}.

Lemma pack_with_aad_inv t aad p nonce d :
  length nonce = NONCE_LEN -> pack_with_aad e t aad p nonce = Ok d ->
  exists body, d = object_tag t :: body /\ decrypt e body aad = Ok p.
Proof.
  intros Hn Hp. unfold pack_with_aad in Hp. inv_result.
  eexists. split; [done|]. by eapply decrypt_encrypt.
Qed.

Lemma unpack_packed t ctx p nonce d :
  length nonce = NONCE_LEN -> pack_with_aad e t (contextual_aad (object_tag t) ctx) p nonce = Ok d ->
  unpack_object_with_context e d ctx = Ok (t, p).
Proof.
  intros Hn Hp. destruct (pack_with_aad_inv _ _ _ _ _ Hn Hp) as (body & -> & Hd).
  unfold unpack_object_with_context. rewrite parse_tagged. cbn [mbind result_bind]. by rewrite Hd.
Qed.

Lemma unpack_expected t ctx p nonce d :
  length nonce = NONCE_LEN -> pack_with_aad e t (contextual_aad (object_tag t) ctx) p nonce = Ok d ->
  unpack_object_expect_with_context e d t ctx = Ok p.
Proof.
  intros Hn Hp. unfold unpack_object_expect_with_context. rewrite (unpack_packed _ _ _ _ _ Hn Hp).
  unfold expect_type. cbn [mbind result_bind]. by rewrite bool_decide_false by (by intros []).
Qed.

(** C26. Objects round trip: what [pack_object_with_context] wrote for a type
    and an identity is read back by both unpacking routines when they expect
    that type and identity, and a reader that expects another type gets
    [InvalidFormat]. *)
Theorem object_round_trip t ctx p nonce d expected :
  length nonce = NONCE_LEN ->
  pack_object_with_context e t ctx p nonce = Ok d ->
  let r := if bool_decide (t = expected) then Ok p
           else Err (InvalidFormat "unexpected object type") in
  unpack_object_expect_with_context e d expected ctx = r /\
  unpack_object_expect_with_context_into e d expected ctx = r.
Proof.
  intros Hn Hp. destruct (pack_with_aad_inv _ _ _ _ _ Hn Hp) as (body & -> & Hd).
  unfold unpack_object_expect_with_context, unpack_object_with_context, expect_type,
    unpack_object_expect_with_context_into.
  rewrite parse_tagged. cbn [mbind result_bind]. rewrite decrypt_into_eq, Hd.
  cbn [mbind result_bind mret result_ret]. repeat case_bool_decide; done.
Qed.

Lemma stream_with_aad_eq t aad p nonce write_plaintext :
  length nonce = NONCE_LEN ->
  (forall buf, write_plaintext buf = Ok (buf ++ p)) ->
  stream_with_aad e t aad nonce write_plaintext = pack_with_aad e t aad p nonce.
Proof.
  intros Hn Hw. unfold stream_with_aad, pack_with_aad. rewrite !Hw.
  destruct (is_encrypting e) eqn:He.
  - cbn [mbind result_bind]. rewrite <- app_assoc.
    change (drop (1 + 12) ([object_tag t] ++ replicate 12 0 ++ p)) with p.
    destruct (in_place_eq He nonce p aad Hn) as [-> Hlen].
    destruct (encrypt_in_place_detached e nonce p aad) as [[[ct n] tg]|err]; simpl; [|done].
    unfold mret, result_ret. do 2 f_equal. by rewrite <- app_assoc.
  - by rewrite (in_place_plain He).
Qed.

(** The streaming writers produce, byte for byte, the object of the
    buffering ones for the same nonce, whenever the callback appends the
    plaintext, and fail when they fail. *)
Theorem streaming_equals_buffered t ctx p nonce write_plaintext :
  length nonce = NONCE_LEN ->
  (forall buf, write_plaintext buf = Ok (buf ++ p)) ->
  pack_object_streaming_with_context e t ctx nonce write_plaintext
    = pack_object_with_context e t ctx p nonce /\
  pack_object_streaming e t nonce write_plaintext = pack_object e t p nonce.
Proof. intros. split; by apply stream_with_aad_eq. Qed.
End ObjectLaws.

(** Neither the type nor the identity of an encrypted object can be
    exchanged unless the cipher is broken: if the body of an object sealed for
    one type and context is accepted under a different tag byte or context,
    two messages with different associated data share nonce, ciphertext and
    tag under the repository key. *)
Theorem object_swap_is_forgery `{Aead} k id_key t ctx p nonce d tag' ctx' t' p' :
  length nonce = NONCE_LEN ->
  pack_object_with_context (AeadEngine k id_key) t ctx p nonce = Ok d ->
  (object_tag t, ctx) <> (tag', ctx') ->
  unpack_object_with_context (AeadEngine k id_key) (tag' :: drop 1 d) ctx' = Ok (t', p') ->
  exists c tg aad aad', aad <> aad' /\
    aead_seal k nonce aad p = Some (c, tg) /\ aead_seal k nonce aad' p' = Some (c, tg).
Proof.
  intros Hn Hp Hne Hu. unfold pack_object_with_context, pack_with_aad in Hp.
  simpl encrypt in Hp. unfold aead_engine_encrypt, aead_encrypt in Hp.
  destruct (aead_seal k nonce _ p) as [[c tg]|] eqn:Hs; [|done]. simpl in Hp.
  inv_result. pose proof (aead_tag_length _ _ _ _ _ _ Hs) as Htg.
  unfold unpack_object_with_context, parse_object_envelope in Hu.
  destruct (object_from_u8 tag') as [ty|] eqn:Ht; [|done].
  change (drop 1 (object_tag t :: nonce ++ c ++ tg)) with (nonce ++ c ++ tg) in Hu.
  cbn [mbind result_bind mret result_ret decrypt AeadEngine] in Hu.
  unfold aead_engine_decrypt in Hu.
  destruct (Nat.ltb_spec (length (nonce ++ c ++ tg)) (NONCE_LEN + TAG_LEN)); [done|].
  rewrite split_at_app, aead_decrypt_app in Hu by done.
  destruct (aead_open k nonce _ c tg) as [q|] eqn:Ho; [|done].
  cbn in Hu.
  inv_result. apply aead_open_iff in Ho.
  exists c, tg, (contextual_aad (object_tag t) ctx), (contextual_aad tag' ctx').
  split; [|done]. intros [? ?]%contextual_aad_inj. congruence.
Qed.

(** ** Witnesses *)

Lemma object_round_trip_witness :
  exists d, pack_object_with_context (AeadEngine [1] [2]) OSnapshotMeta [9; 9] [7] (replicate 12 5)
      = Ok d /\
    unpack_object_expect_with_context (AeadEngine [1] [2]) d OSnapshotMeta [9; 9] = Ok [7].
Proof.
  eexists. split; [vm_compute; reflexivity|].
  apply (object_round_trip (AeadEngine [1] [2]) OSnapshotMeta [9; 9] [7] (replicate 12 5) _
    OSnapshotMeta); by vm_compute.
Defined.

Lemma streaming_equals_buffered_witness :
  pack_object_streaming_with_context (AeadEngine [1] [2]) OChunkIndex [9] (replicate 12 5)
    (fun buf => Ok (buf ++ [7; 8])) =
  pack_object_with_context (AeadEngine [1] [2]) OChunkIndex [9] [7; 8] (replicate 12 5).
Proof.
  apply (streaming_equals_buffered (AeadEngine [1] [2]) OChunkIndex [9] [7; 8] (replicate 12 5)
    (fun buf => Ok (buf ++ [7; 8]))); [reflexivity|]. intros buf. reflexivity.
Defined.

(** The toy cipher's 16-byte tag keeps only the last bytes of the context, so
    under it contexts that end alike can be exchanged: the two colliding
    messages the theorem promises. *)
Lemma object_swap_is_forgery_witness :
  exists c tg aad aad', aad <> aad' /\
    aead_seal [1] (replicate 12 5) aad [7] = Some (c, tg) /\
    aead_seal [1] (replicate 12 5) aad' [7] = Some (c, tg).
Proof.
  apply (object_swap_is_forgery [1] [2] OChunkData (1 :: replicate 16 9) [7] (replicate 12 5)
    (3 :: replicate 12 5 ++ [7] ++ replicate 16 9) 3 (2 :: replicate 16 9) OChunkData [7]).
  - reflexivity.
  - vm_compute. reflexivity.
  - discriminate.
  - vm_compute. reflexivity.
Defined.
