(* ===== verification/Compress.v ===== *)
(** * Compression (crates/vykar-core/src/compress/mod.rs)

    A compressed payload is [codec tag, codec data].  The lz4_flex and zstd
    crates are third-party code: the class [Codecs] states what they document.
    Decompression of untrusted data is bounded by two limits. *)

From S2P Require Import Prelude Types.
#[local] Open Scope string_scope.
#[local] Open Scope list_scope.
#[local] Open Scope Z_scope.

Definition blen (b : bytes) : Z := Z.of_nat (length b).

Class Codecs := {
  (** [lz4_flex::block::compress_into] and [block::decompress_into] with an
      output buffer of the given size: the bytes written. *)
  lz4_compress : bytes -> option bytes;
  lz4_decompress : bytes -> Z -> option bytes;
  lz4_round_trip : forall d c, lz4_compress d = Some c -> lz4_decompress c (blen d) = Some d;
  lz4_bound : forall c n o, 0 <= n -> lz4_decompress c n = Some o -> blen o <= n;
  (** [zstd]: the bulk compressor at a level, the bulk decompressor into a
      buffer of a capacity, and the streaming decoder read up to a limit. *)
  zstd_compress : Z -> bytes -> option bytes;
  zstd_bulk : bytes -> Z -> option bytes;
  zstd_stream : bytes -> Z -> option bytes;
  zstd_bulk_round_trip : forall l d c cap,
    zstd_compress l d = Some c -> blen d <= cap -> zstd_bulk c cap = Some d;
  zstd_bulk_bound : forall c cap o, 0 <= cap -> zstd_bulk c cap = Some o -> blen o <= cap;
  zstd_stream_round_trip : forall l d c lim,
    zstd_compress l d = Some c -> blen d <= lim -> zstd_stream c lim = Some d;
  zstd_stream_prefix : forall l d c lim,
    zstd_compress l d = Some c -> 0 <= lim < blen d -> zstd_stream c lim = Some (take (Z.to_nat lim) d);
  zstd_stream_bound : forall c lim o, 0 <= lim -> zstd_stream c lim = Some o -> blen o <= lim;
  (** The streaming encoder: what it has written after [finish]. *)
  zstd_encoder : Z -> bytes -> option bytes;
  zstd_encoder_round_trip : forall l d c lim,
    zstd_encoder l d = Some c -> blen d <= lim -> zstd_stream c lim = Some d;
}.

(** Stored blocks: the codecs that compress nothing, as a witness. *)
Definition store_upto (c : bytes) (n : Z) : option bytes :=
  if blen c <=? n then Some c else None.

Lemma store_upto_bound c n o : store_upto c n = Some o -> blen o <= n.
Proof. unfold store_upto. destruct (Z.leb_spec (blen c) n); [|done]. by intros [= <-]. Qed.

Lemma store_upto_ok c n : blen c <= n -> store_upto c n = Some c.
Proof. intros. unfold store_upto. by rewrite (proj2 (Z.leb_le _ _)). Qed.

(** A decoder read up to [n] bytes. *)
Definition read_upto (c : bytes) (n : Z) : option bytes :=
  Some (if blen c <=? n then c else take (Z.to_nat n) c).

Lemma read_upto_ok c n : blen c <= n -> read_upto c n = Some c.
Proof. intros. unfold read_upto. by rewrite (proj2 (Z.leb_le _ _)). Qed.

Lemma read_upto_prefix c n : 0 <= n < blen c -> read_upto c n = Some (take (Z.to_nat n) c).
Proof. intros. unfold read_upto. destruct (Z.leb_spec (blen c) n); [lia|done]. Qed.

Lemma read_upto_bound c n o : 0 <= n -> read_upto c n = Some o -> blen o <= n.
Proof.
  unfold read_upto. destruct (Z.leb_spec (blen c) n); intros Hn [= <-]; [done|].
  unfold blen. rewrite length_take. lia.
Qed.

#[export] Program Instance stored_codecs : Codecs := {|
  lz4_compress := Some;
  lz4_decompress := store_upto;
  zstd_compress := fun _ d => Some d;
  zstd_bulk := store_upto;
  zstd_stream := read_upto;
  zstd_encoder := fun _ d => Some d;
|}.
Next Obligation. intros d c [= <-]. by apply store_upto_ok. Qed.
Next Obligation. intros c n o _. apply store_upto_bound. Qed.
Next Obligation. intros l d c cap [= <-]. by apply store_upto_ok. Qed.
Next Obligation. intros c n o _. apply store_upto_bound. Qed.
Next Obligation. intros l d c lim [= <-]. apply read_upto_ok. Qed.
Next Obligation. intros l d c lim [= <-]. apply read_upto_prefix. Qed.
Next Obligation. intros c lim o. apply read_upto_bound. Qed.
Next Obligation. intros l d c lim [= <-]. apply read_upto_ok. Qed.

Definition TAG_NONE : Z := 0.
Definition TAG_LZ4 : Z := 1.
Definition TAG_ZSTD : Z := 2.
Definition MAX_DECOMPRESS_SIZE : Z := 32 * 1024 * 1024.
Definition MAX_METADATA_DECOMPRESS_SIZE : Z := 4 * 1024 * 1024 * 1024.

Inductive Compression := CNone | CLz4 | CZstd (level : Z).

Definition compression_from_config (algorithm : string) (zstd_level : Z) : res Compression :=
  if String.eqb algorithm "none" then Ok CNone
  else if String.eqb algorithm "lz4" then Ok CLz4
  else if String.eqb algorithm "zstd" then Ok (CZstd zstd_level)
  else Err (ConfigError "unknown compression algorithm").

Section Compress.
Context `{Codecs}.

(** The buffer after [compress_append]. *)
Definition compress_append (c : Compression) (data buf : bytes) : res bytes :=
  match c with
  | CNone => Ok (buf ++ [TAG_NONE] ++ data)
  | CLz4 =>
      let buf := buf ++ [TAG_LZ4] ++ le_bytes 4 (u32_wrap (blen data)) in
      match lz4_compress data with
      | None => Err (Other "lz4")
      | Some out => Ok (buf ++ out)
      end
  | CZstd level =>
      match zstd_compress level data with
      | None => Err (Other "zstd")
      | Some out => Ok (buf ++ [TAG_ZSTD] ++ out)
      end
  end.

Definition compress (c : Compression) (data : bytes) : res bytes := compress_append c data [].

(** [lz4_flex::decompress_size_prepended]: four size bytes, then the block. *)
Definition lz4_size_prepended (payload : bytes) : option bytes :=
  lz4_decompress (drop 4 payload) (le_value (take 4 payload)).

(** The LZ4 branch shared by the readers, under a limit. *)
Definition lz4_branch (limit : Z) (payload : bytes) : res bytes :=
  if (length payload <? 4)%nat then Err (Decompression "lz4: payload too short")
  else
    let uncompressed_size := le_value (take 4 payload) in
    if limit <? uncompressed_size then Err (Decompression "lz4: decompressed size exceeds limit")
    else ok_or (lz4_size_prepended payload) (Decompression "lz4").

(** The streaming ZSTD branch: read at most [limit + 1] bytes, refuse more
    than [limit]. *)
Definition zstd_stream_branch (limit : Z) (payload : bytes) : res bytes :=
  output ← ok_or (zstd_stream payload (limit + 1)) (Decompression "zstd");
  if limit <? blen output then Err (Decompression "zstd: decompressed size exceeds limit")
  else mret output.

(** The bulk ZSTD branch with a size hint. *)
Definition zstd_bulk_branch (hint : Z) (payload : bytes) : res bytes :=
  let cap := Z.min (Z.max hint 1) MAX_DECOMPRESS_SIZE in
  output ← ok_or (zstd_bulk payload cap) (Decompression "zstd");
  if MAX_DECOMPRESS_SIZE <? blen output then
    Err (Decompression "zstd: decompressed size exceeds limit")
  else mret output.

Definition decompress_with_hint (data : bytes) (expected_size : option Z) : res bytes :=
  match data with
  | [] => Err (Decompression "empty data")
  | tag :: payload =>
      if tag =? TAG_NONE then Ok payload
      else if tag =? TAG_LZ4 then lz4_branch MAX_DECOMPRESS_SIZE payload
      else if tag =? TAG_ZSTD then
        match expected_size with
        | Some hint => zstd_bulk_branch hint payload
        | None => zstd_stream_branch MAX_DECOMPRESS_SIZE payload
        end
      else Err (UnknownCompressionTag tag)
  end.

(** [data] is what the callback writes into the encoder. *)
Definition compress_stream_zstd (buf : bytes) (level : Z) (data : bytes) : res bytes :=
  match zstd_encoder level data with
  | None => Err (Other "zstd")
  | Some out => Ok (buf ++ [TAG_ZSTD] ++ out)
  end.

Definition decompress (data : bytes) : res bytes := decompress_with_hint data None.

Definition decompress_metadata (data : bytes) : res bytes :=
  match data with
  | [] => Err (Decompression "empty data")
  | tag :: payload =>
      if tag =? TAG_NONE then Ok payload
      else if tag =? TAG_LZ4 then lz4_branch MAX_METADATA_DECOMPRESS_SIZE payload
      else if tag =? TAG_ZSTD then zstd_stream_branch MAX_METADATA_DECOMPRESS_SIZE payload
      else Err (UnknownCompressionTag tag)
  end.

(** The contents of [output] on success. *)
Definition decompress_into_with_hint (data : bytes) (expected_size : option Z) : res bytes :=
  match data with
  | [] => Err (Decompression "empty data")
  | tag :: payload =>
      if tag =? TAG_NONE then Ok payload
      else if tag =? TAG_LZ4 then
        if (length payload <? 4)%nat then Err (Decompression "lz4: payload too short")
        else
          let uncompressed_size := le_value (take 4 payload) in
          if MAX_DECOMPRESS_SIZE <? uncompressed_size then
            Err (Decompression "lz4: decompressed size exceeds limit")
          else
            output ← ok_or (lz4_decompress (drop 4 payload) uncompressed_size) (Decompression "lz4");
            if negb (blen output =? uncompressed_size) then
              Err (Decompression "lz4: declared size differs")
            else mret output
      else if tag =? TAG_ZSTD then
        match expected_size with
        | Some hint => zstd_bulk_branch hint payload
        | None => zstd_stream_branch MAX_DECOMPRESS_SIZE payload
        end
      else Err (UnknownCompressionTag tag)
  end.

(** ** Laws *)

Lemma le_value_nonneg b : is_bytes b -> 0 <= le_value b.
Proof. intros Hb. apply le_value_bound in Hb. lia. Qed.

Lemma lz4_branch_bound limit payload o :
  is_bytes payload -> lz4_branch limit payload = Ok o -> blen o <= limit.
Proof.
  intros Hb. unfold lz4_branch, lz4_size_prepended. destruct (_ <? _)%nat; [done|].
  destruct (Z.ltb_spec limit (le_value (take 4 payload))); [done|].
  destruct (lz4_decompress _ _) as [out|] eqn:E; simpl; [|done]. intros [= <-].
  apply lz4_bound in E; [lia|]. by apply le_value_nonneg, Forall_take.
Qed.

Lemma zstd_stream_branch_bound limit payload o :
  zstd_stream_branch limit payload = Ok o -> blen o <= limit.
Proof.
  unfold zstd_stream_branch. destruct (zstd_stream _ _) as [out|]; simpl; [|done].
  destruct (Z.ltb_spec limit (blen out)); [done|]. by intros [= <-].
Qed.

Lemma zstd_bulk_branch_bound hint payload o :
  zstd_bulk_branch hint payload = Ok o -> blen o <= MAX_DECOMPRESS_SIZE.
Proof.
  unfold zstd_bulk_branch. destruct (zstd_bulk _ _) as [out|]; simpl; [|done].
  destruct (Z.ltb_spec MAX_DECOMPRESS_SIZE (blen out)); [done|]. by intros [= <-].
Qed.

(** Decompression cannot blow up: on arbitrary input that claims to be
    compressed, an answer of the chunk readers has at most 32 MiB and one of
    the metadata reader at most 4 GiB, whatever the size hint. *)
Theorem decompress_bounded data hint o :
  is_bytes data -> head data <> Some TAG_NONE ->
  (decompress_with_hint data hint = Ok o -> blen o <= MAX_DECOMPRESS_SIZE) /\
  (decompress_metadata data = Ok o -> blen o <= MAX_METADATA_DECOMPRESS_SIZE).
Proof.
  intros Hb Hne. unfold decompress_with_hint, decompress_metadata.
  destruct data as [|tag payload]; [done|]. apply Forall_cons in Hb as [_ Hb].
  destruct (Z.eqb_spec tag TAG_NONE) as [->|]; [done|].
  destruct (tag =? TAG_LZ4); [by split; apply lz4_branch_bound|].
  destruct (tag =? TAG_ZSTD); [|done]. split; [|apply zstd_stream_branch_bound].
  destruct hint; [apply zstd_bulk_branch_bound|apply zstd_stream_branch_bound].
Qed.

(** The LZ4 frame of a payload that fits a limit. *)
Lemma lz4_branch_frame limit data out :
  blen data <= limit -> u32 (blen data) -> lz4_compress data = Some out ->
  lz4_branch limit (le_bytes 4 (u32_wrap (blen data)) ++ out) = Ok data.
Proof.
  intros Hl Hu Hc. unfold lz4_branch, lz4_size_prepended.
  rewrite length_app, length_le_bytes. simpl (_ <? _)%nat. cbv match.
  rewrite take_app_length' by done.
  rewrite drop_app_length' by done.
  rewrite le_value_bytes_u32 by apply u32_wrap_u32. rewrite u32_wrap_small by done.
  destruct (Z.ltb_spec limit (blen data)); [lia|]. by rewrite (lz4_round_trip _ _ Hc).
Qed.

Lemma zstd_branches_frame level data out limit :
  blen data <= limit -> zstd_compress level data = Some out ->
  zstd_stream_branch limit out = Ok data /\ (blen data <= MAX_DECOMPRESS_SIZE -> zstd_bulk_branch limit out = Ok data).
Proof.
  intros Hl Hc. unfold zstd_stream_branch, zstd_bulk_branch. split; [|intros Hm].
  - rewrite (zstd_stream_round_trip _ _ _ _ Hc) by lia. simpl. by destruct (Z.ltb_spec limit (blen data)); [lia|].
  - rewrite (zstd_bulk_round_trip _ _ _ _ Hc) by lia. simpl.
    by destruct (Z.ltb_spec MAX_DECOMPRESS_SIZE (blen data)); [lia|].
Qed.

Definition hint_ok (data : bytes) (hint : option Z) : Prop :=
  match hint with Some h => blen data <= h | None => True end.

Lemma decompress_compress c data z hint :
  blen data <= MAX_DECOMPRESS_SIZE -> hint_ok data hint -> compress c data = Ok z ->
  decompress_with_hint z hint = Ok data.
Proof.
  intros Hl Hh. assert (Hu : u32 (blen data)) by (unfold u32, u32_modulus, MAX_DECOMPRESS_SIZE, blen in *; lia).
  unfold compress, compress_append. destruct c as [| |level].
  - by intros [= <-].
  - destruct (lz4_compress data) as [out|] eqn:Hc; [|done]. intros <-%(inj Ok).
    change (([] ++ [TAG_LZ4] ++ le_bytes 4 (u32_wrap (blen data))) ++ out)
      with (TAG_LZ4 :: (le_bytes 4 (u32_wrap (blen data)) ++ out)).
    unfold decompress_with_hint. change (TAG_LZ4 =? TAG_NONE) with false. change (TAG_LZ4 =? TAG_LZ4) with true.
    cbv match. by apply lz4_branch_frame.
  - destruct (zstd_compress level data) as [out|] eqn:Hc; [|done]. intros [= <-].
    destruct hint as [h|]; simpl; by apply (zstd_branches_frame level).
Qed.

(** Compression round trips through every reader: what [compress] wrote
    for a payload of at most 32 MiB is restored by the plain reader, by the
    metadata reader, and by both hinted readers for every hint that is not
    below the size. *)
Theorem compress_round_trip c data z hint :
  blen data <= MAX_DECOMPRESS_SIZE -> match hint with Some h => blen data <= h | None => True end ->
  compress c data = Ok z ->
  decompress_with_hint z hint = Ok data /\ decompress_into_with_hint z hint = Ok data /\
  decompress_metadata z = Ok data.
Proof.
  intros Hl Hh Hz. split; [by eapply decompress_compress|].
  assert (Hm : blen data <= MAX_METADATA_DECOMPRESS_SIZE) by (unfold MAX_METADATA_DECOMPRESS_SIZE, MAX_DECOMPRESS_SIZE in *; lia).
  assert (Hu : u32 (blen data)) by (unfold u32, u32_modulus, MAX_DECOMPRESS_SIZE, blen in *; lia).
  revert Hz. unfold compress, compress_append. destruct c as [| |level].
  - by intros [= <-].
  - destruct (lz4_compress data) as [out|] eqn:Hc; [|done]. intros <-%(inj Ok).
    change (([] ++ [TAG_LZ4] ++ le_bytes 4 (u32_wrap (blen data))) ++ out)
      with (TAG_LZ4 :: (le_bytes 4 (u32_wrap (blen data)) ++ out)).
    unfold decompress_metadata, decompress_into_with_hint.
    change (TAG_LZ4 =? TAG_NONE) with false. change (TAG_LZ4 =? TAG_LZ4) with true. cbv match.
    rewrite !lz4_branch_frame by done. split; [|done].
    rewrite length_app, length_le_bytes. simpl (_ <? _)%nat. cbv match.
    rewrite take_app_length' by done.
    rewrite drop_app_length' by done.
    rewrite le_value_bytes_u32 by apply u32_wrap_u32. rewrite u32_wrap_small by done.
    destruct (Z.ltb_spec MAX_DECOMPRESS_SIZE (blen data)); [lia|].
    rewrite (lz4_round_trip _ _ Hc). simpl. by rewrite Z.eqb_refl.
  - destruct (zstd_compress level data) as [out|] eqn:Hc; [|done]. intros [= <-].
    destruct hint as [h|]; simpl; split; by apply (zstd_branches_frame level).
Qed.

(** The metadata reader never returns anything but what was compressed. *)
Lemma decompress_metadata_sound level data z o :
  compress (CZstd level) data = Ok z -> decompress_metadata z = Ok o -> o = data.
Proof.
  unfold compress, compress_append. destruct (zstd_compress level data) as [out|] eqn:Hc; [|done]. intros [= <-].
  unfold decompress_metadata. cbn [app]. change (TAG_ZSTD =? TAG_NONE) with false. change (TAG_ZSTD =? TAG_LZ4) with false.
  change (TAG_ZSTD =? TAG_ZSTD) with true. cbv iota. destruct (decide (blen data <= MAX_METADATA_DECOMPRESS_SIZE)) as [Hl|Hl].
  - destruct (zstd_branches_frame level data out MAX_METADATA_DECOMPRESS_SIZE Hl Hc) as [-> _]. by intros [= <-].
  - unfold zstd_stream_branch. destruct (decide (blen data <= MAX_METADATA_DECOMPRESS_SIZE + 1)) as [Hl'|Hl'].
    + rewrite (zstd_stream_round_trip _ _ _ _ Hc) by lia. cbn [ok_or mbind result_bind].
      destruct (Z.ltb_spec MAX_METADATA_DECOMPRESS_SIZE (blen data)); [done|lia].
    + rewrite (zstd_stream_prefix _ _ _ (MAX_METADATA_DECOMPRESS_SIZE + 1) Hc) by (unfold MAX_METADATA_DECOMPRESS_SIZE in *; lia).
      cbn [ok_or mbind result_bind]. assert (Hlen : blen (take (Z.to_nat (MAX_METADATA_DECOMPRESS_SIZE + 1)) data) = MAX_METADATA_DECOMPRESS_SIZE + 1).
      { unfold blen in *. rewrite length_take. unfold MAX_METADATA_DECOMPRESS_SIZE in *. lia. }
      rewrite Hlen. destruct (Z.ltb_spec MAX_METADATA_DECOMPRESS_SIZE (MAX_METADATA_DECOMPRESS_SIZE + 1)); [done|lia].
Qed.

(** The buffer-reusing reader is at least as strict as the allocating one. *)
Lemma decompress_into_refines data hint o :
  decompress_into_with_hint data hint = Ok o -> decompress_with_hint data hint = Ok o.
Proof.
  unfold decompress_into_with_hint, decompress_with_hint.
  destruct data as [|tag payload]; [done|].
  destruct (tag =? TAG_NONE); [done|]. destruct (tag =? TAG_LZ4); [|done].
  unfold lz4_branch, lz4_size_prepended. destruct (_ <? _)%nat; [done|].
  destruct (_ <? _); [done|]. destruct (lz4_decompress _ _); simpl; [|done].
  destruct (negb _); [done|]. done.
Qed.
End Compress.

(** ** Witnesses *)

Lemma decompress_bounded_witness :
  (decompress_with_hint [2; 7; 7] (Some 5) = Ok [7; 7] -> blen [7; 7] <= MAX_DECOMPRESS_SIZE) /\
  decompress_with_hint [2; 7; 7] (Some 5) = Ok [7; 7].
Proof.
  split; [|reflexivity].
  apply (decompress_bounded [2; 7; 7] (Some 5) [7; 7]); [by_eval|discriminate].
Defined.

Lemma compress_round_trip_witness :
  exists z, compress CLz4 [1; 2; 3] = Ok z /\ decompress_into_with_hint z (Some 3) = Ok [1; 2; 3].
Proof.
  eexists. split; [vm_compute; reflexivity|].
  apply (compress_round_trip CLz4 [1; 2; 3] _ (Some 3)); by vm_compute.
Defined.
