(* ===== verification/DedupCache.v ===== *)
(** * Local index caches (crates/vykar-core/src/index/dedup_cache.rs)

    Three files derived from the chunk index, each a 28-byte header and a table
    of fixed-size entries sorted by chunk: the dedup cache (chunk, size), the
    restore cache (chunk, size, pack, offset) and the full cache (all fields).
    The first two are read through a memory map by binary search; the last one
    is merged with a delta without loading the index.  A builder is the
    function giving the file's bytes (they are written to a temporary file and
    renamed into place), a reader works on the mapped bytes.  The xorf crate is
    third-party code: the class [Xor8]. *)

From S2P Require Import Prelude Types ChunkIndex.
#[local] Open Scope string_scope.
#[local] Open Scope list_scope.
#[local] Open Scope Z_scope.

(** ** Formats *)

Definition MAGIC : bytes := str_bytes "VGDEDUP" ++ [0].
Definition RESTORE_MAGIC : bytes := str_bytes "VGIDX" ++ [0; 0; 0].
Definition FULL_MAGIC : bytes := str_bytes "VGFULL" ++ [0; 0].
Definition INDEX_BLOB_MAGIC : bytes := str_bytes "VGIDXB" ++ [0; 0].
Definition VERSION : Z := 1.
Definition HEADER_SIZE : nat := 28.
Definition ENTRY_SIZE : nat := 36.
Definition RESTORE_ENTRY_SIZE : nat := 76.
Definition FULL_ENTRY_SIZE : nat := 80.
Definition INDEX_BLOB_HEADER_SIZE : nat := 24.

(** The header shared by the three table formats. *)
Definition cache_header (magic : bytes) (generation entry_count : Z) : bytes :=
  magic ++ le_bytes 4 VERSION ++ le_bytes 8 generation ++ le_bytes 4 entry_count
  ++ le_bytes 4 0.

(** [entries.len() as u32]. *)
Definition count_u32 {A} (l : list A) : Z := u32_wrap (Z.of_nat (length l)).

Record FullCacheEntry := mkFull {
  fc_chunk_id : ChunkId;
  fc_refcount : Z;
  fc_stored_size : Z;
  fc_pack_id : PackId;
  fc_pack_offset : Z;
}.

Definition full_of (kv : ChunkId * ChunkIndexEntry) : FullCacheEntry :=
  mkFull kv.1 (refcount kv.2) (stored_size kv.2) (pack_id kv.2) (pack_offset kv.2).
Definition entry_of (e : FullCacheEntry) : ChunkId * ChunkIndexEntry :=
  (fc_chunk_id e, mkEntry (fc_refcount e) (fc_stored_size e) (fc_pack_id e) (fc_pack_offset e)).

Definition write_dedup_entry (e : ChunkId * Z) : bytes := chunk_bytes e.1 ++ le_bytes 4 e.2.
Definition write_restore_entry (e : ChunkId * Z * PackId * Z) : bytes :=
  let '(id, size, pk, off) := e in
  chunk_bytes id ++ le_bytes 4 size ++ pack_bytes pk ++ le_bytes 8 off.
Definition write_full_entry (e : FullCacheEntry) : bytes :=
  chunk_bytes (fc_chunk_id e) ++ le_bytes 4 (fc_refcount e) ++ le_bytes 4 (fc_stored_size e)
  ++ pack_bytes (fc_pack_id e) ++ le_bytes 8 (fc_pack_offset e).
Definition write_full_header (generation entry_count : Z) : bytes :=
  cache_header FULL_MAGIC generation entry_count.

(** ** Builders *)

Definition by_chunk_id {A} (id : A -> ChunkId) (a b : A) : bool :=
  bytes_leb (chunk_bytes (id a)) (chunk_bytes (id b)).

Definition build_dedup_cache_to_path (ix : ChunkIndex) (generation : Z) : bytes :=
  let entries := sort_by (by_chunk_id fst)
    ((fun kv => (kv.1, stored_size kv.2)) <$> map_to_list ix) in
  cache_header MAGIC generation (count_u32 entries) ++ concat (write_dedup_entry <$> entries).

Definition build_restore_cache_to_path (ix : ChunkIndex) (generation : Z) : bytes :=
  let entries := sort_by (by_chunk_id (fun e => e.1.1.1))
    ((fun kv => (kv.1, stored_size kv.2, pack_id kv.2, pack_offset kv.2)) <$> map_to_list ix) in
  cache_header RESTORE_MAGIC generation (count_u32 entries)
  ++ concat (write_restore_entry <$> entries).

Definition build_full_index_cache_to_path (ix : ChunkIndex) (generation : Z) : bytes :=
  let entries := sort_by (by_chunk_id fc_chunk_id) (full_of <$> map_to_list ix) in
  write_full_header generation (count_u32 entries) ++ concat (write_full_entry <$> entries).

(** ** Readers *)

(** A validated memory map. *)
Record MmapCache := mkMmap { mmap : bytes; entry_count : Z; index_generation : Z }.

(** The checks of [open_path], common to the three formats. *)
Definition open_cache (magic : bytes) (esize : nat) (file : bytes) (expected_generation : Z) :
    option MmapCache :=
  if expected_generation =? 0 then None
  else if (length file <? HEADER_SIZE)%nat then None
  else if negb (bool_decide (slice 0 8 file = magic)) then None
  else if negb (le_value (slice 8 4 file) =? VERSION) then None
  else
    let generation := le_value (slice 12 8 file) in
    if negb (generation =? expected_generation) then None
    else
      let count := le_value (slice 20 4 file) in
      if negb (Z.of_nat (length file) =? Z.of_nat HEADER_SIZE + count * Z.of_nat esize) then None
      else Some (mkMmap file count generation).

Definition dedup_open_path := open_cache MAGIC ENTRY_SIZE.
Definition restore_open_path := open_cache RESTORE_MAGIC RESTORE_ENTRY_SIZE.
Definition full_open_path := open_cache FULL_MAGIC FULL_ENTRY_SIZE.

(** The binary search: the offset of the entry of [target] in [data].  [fuel]
    bounds the iterations by the width of the interval. *)
Fixpoint bsearch (fuel esize : nat) (data target : bytes) (lo hi : nat) : option nat :=
  match fuel with
  | O => None
  | S fuel' =>
      if (lo <? hi)%nat then
        let mid := (lo + (hi - lo) / 2)%nat in
        let offset := (mid * esize)%nat in
        match bytes_cmp (slice offset 32 data) target with
        | Eq => Some offset
        | Lt => bsearch fuel' esize data target (mid + 1) hi
        | Gt => bsearch fuel' esize data target lo mid
        end
      else None
  end.

Definition dedup_get_stored_size (c : MmapCache) (id : ChunkId) : option Z :=
  if entry_count c =? 0 then None
  else
    let data := drop HEADER_SIZE (mmap c) in
    let n := Z.to_nat (entry_count c) in
    offset ← bsearch n ENTRY_SIZE data (chunk_bytes id) 0 n;
    Some (le_value (slice (offset + 32) 4 data)).

Definition restore_lookup (c : MmapCache) (id : ChunkId) : option (PackId * Z * Z) :=
  if entry_count c =? 0 then None
  else
    let data := drop HEADER_SIZE (mmap c) in
    let n := Z.to_nat (entry_count c) in
    offset ← bsearch n RESTORE_ENTRY_SIZE data (chunk_bytes id) 0 n;
    let size := le_value (slice (offset + 32) 4 data) in
    let pk := mkPackId (slice (offset + 36) 32 data) in
    let off := le_value (slice (offset + 68) 8 data) in
    Some (pk, off, size).

Definition entry_at (c : MmapCache) (i : nat) : FullCacheEntry :=
  let data := drop HEADER_SIZE (mmap c) in
  let offset := (i * FULL_ENTRY_SIZE)%nat in
  mkFull (mkChunkId (slice offset 32 data))
    (le_value (slice (offset + 32) 4 data))
    (le_value (slice (offset + 36) 4 data))
    (mkPackId (slice (offset + 40) 32 data))
    (le_value (slice (offset + 72) 8 data)).

Definition full_iter (c : MmapCache) : list FullCacheEntry :=
  entry_at c <$> seq 0 (Z.to_nat (entry_count c)).

Definition chunk_id_bytes_at (c : MmapCache) (i : nat) : bytes :=
  slice (HEADER_SIZE + i * FULL_ENTRY_SIZE) 32 (mmap c).

(** One step of the loop of [load_chunk_index_from_full_cache_path]. *)
Definition load_entry (ix : ChunkIndex) (e : FullCacheEntry) : ChunkIndex :=
  let ix := add (fc_chunk_id e) (fc_stored_size e) (fc_pack_id e) (fc_pack_offset e) ix in
  if 1 <? fc_refcount e
  then increment_refcount_by (fc_chunk_id e) (fc_refcount e - 1) ix
  else ix.

Definition load_chunk_index_from_full_cache_path (file : bytes) (generation : Z) : res ChunkIndex :=
  c ← ok_or (full_open_path file generation) (Other "full index cache not found or stale");
  mret (foldl load_entry ∅ (full_iter c)).

(** ** Merging a delta into a full cache *)

Definition bump_of (d : IndexDelta) (id : ChunkId) (rc : Z) : Z :=
  match refcount_bumps d !! id with Some b => u32_add rc b | None => rc end.

Definition bumped_old (d : IndexDelta) (e : FullCacheEntry) : FullCacheEntry :=
  mkFull (fc_chunk_id e) (bump_of d (fc_chunk_id e) (fc_refcount e)) (fc_stored_size e)
    (fc_pack_id e) (fc_pack_offset e).
Definition bumped_new (d : IndexDelta) (e : NewChunkEntry) : FullCacheEntry :=
  mkFull (new_chunk_id e) (bump_of d (new_chunk_id e) (new_refcount e)) (new_stored_size e)
    (new_pack_id e) (new_pack_offset e).

(** The two-pointer loop: the entries written, in order.  It runs once per
    entry, which is the fuel. *)
Fixpoint merge_loop (fuel : nat) (old : MmapCache) (d : IndexDelta) (sorted_new : list NewChunkEntry)
    (old_idx new_idx : nat) : list FullCacheEntry :=
  match fuel with
  | O => []
  | S fuel' =>
      let old_count := Z.to_nat (entry_count old) in
      if (old_idx <? old_count)%nat || (new_idx <? length sorted_new)%nat then
        match (if (old_count <=? old_idx)%nat then None else Some (entry_at old old_idx)),
              sorted_new !! new_idx with
        | Some e, Some ne =>
            if bytes_leb (chunk_id_bytes_at old old_idx) (chunk_bytes (new_chunk_id ne))
            then bumped_old d e :: merge_loop fuel' old d sorted_new (old_idx + 1) new_idx
            else bumped_new d ne :: merge_loop fuel' old d sorted_new old_idx (new_idx + 1)
        | Some e, None => bumped_old d e :: merge_loop fuel' old d sorted_new (old_idx + 1) new_idx
        | None, Some ne => bumped_new d ne :: merge_loop fuel' old d sorted_new old_idx (new_idx + 1)
        | None, None => []
        end
      else []
  end.

Definition merge_full_index_cache (old : MmapCache) (d : IndexDelta) (new_generation : Z) : bytes :=
  let sorted_new := sort_by (by_chunk_id new_chunk_id) (new_entries d) in
  let total_count := u32_add (entry_count old) (count_u32 sorted_new) in
  let fuel := (Z.to_nat (entry_count old) + length sorted_new)%nat in
  write_full_header new_generation total_count
  ++ concat (write_full_entry <$> merge_loop fuel old d sorted_new 0 0).

(** ** Caches derived from the full cache *)

Definition build_dedup_cache_from_full_cache (full_file : bytes) (generation : Z) : res bytes :=
  c ← ok_or (full_open_path full_file generation) (Other "full index cache not found or stale");
  mret (cache_header MAGIC generation (entry_count c)
        ++ concat ((fun e => write_dedup_entry (fc_chunk_id e, fc_stored_size e)) <$> full_iter c)).

Definition build_restore_cache_from_full_cache (full_file : bytes) (generation : Z) : res bytes :=
  c ← ok_or (full_open_path full_file generation) (Other "full index cache not found or stale");
  mret (cache_header RESTORE_MAGIC generation (entry_count c)
        ++ concat ((fun e => write_restore_entry
                     (fc_chunk_id e, fc_stored_size e, fc_pack_id e, fc_pack_offset e)) <$> full_iter c)).

(** The map written by [EntriesMapView]: pairs in table order. *)
Definition entries_map_view (c : MmapCache) : list (ChunkId * ChunkIndexEntry) :=
  entry_of <$> full_iter c.

(** ** The index blob cache *)

Definition write_index_blob_cache (blob : bytes) (generation : Z) : bytes :=
  INDEX_BLOB_MAGIC ++ le_bytes 4 VERSION ++ le_bytes 8 generation ++ le_bytes 4 0 ++ blob.

Definition read_index_blob_cache (data : bytes) (expected_generation : Z) : option bytes :=
  if expected_generation =? 0 then None
  else if (length data <? INDEX_BLOB_HEADER_SIZE)%nat then None
  else if negb (bool_decide (slice 0 8 data = INDEX_BLOB_MAGIC)) then None
  else if negb (le_value (slice 8 4 data) =? VERSION) then None
  else if negb (le_value (slice 12 8 data) =? expected_generation) then None
  else Some (drop INDEX_BLOB_HEADER_SIZE data).

(** ** Tables of fixed-size entries *)

Section Table.
Context {A : Type} (esize : nat) (key : A -> ChunkId) (enc : A -> bytes).

Definition enc_ok (a : A) : Prop :=
  length (enc a) = esize /\ slice 0 32 (enc a) = chunk_bytes (key a) /\ (32 <= esize)%nat.

Lemma length_table es : Forall enc_ok es -> length (concat (enc <$> es)) = (length es * esize)%nat.
Proof.
  induction 1 as [|a es [Ha _] _ IH]; csimpl; [done|]. rewrite length_app, IH, Ha. lia.
Qed.

Lemma slice_table es i a o l :
  Forall enc_ok es -> es !! i = Some a -> (o + l <= esize)%nat ->
  slice (i * esize + o) l (concat (enc <$> es)) = slice o l (enc a).
Proof.
  intros Hok Hi Hol. rewrite <- (take_drop_middle es i a Hi).
  rewrite fmap_app, concat_app, fmap_cons. simpl concat.
  assert (Ht : Forall enc_ok (take i es)) by (by apply Forall_take).
  replace (i * esize)%nat with (length (concat (enc <$> take i es))).
  2:{ rewrite length_table by done. rewrite length_take. apply lookup_lt_Some in Hi. f_equal. lia. }
  rewrite slice_app_r. apply slice_app_l.
  rewrite Forall_lookup in Hok. destruct (Hok i a Hi) as [-> _]. done.
Qed.

(** Strictly ascending keys. *)
Definition keys_sorted (es : list A) : Prop :=
  StronglySorted (fun a b => bytes_lt (chunk_bytes (key a)) (chunk_bytes (key b))) es.

Lemma keys_sorted_lookup es i j a b :
  keys_sorted es -> es !! i = Some a -> es !! j = Some b -> (i < j)%nat ->
  bytes_lt (chunk_bytes (key a)) (chunk_bytes (key b)).
Proof.
  intros Hs. revert i j. induction Hs as [|x es Hs IH Hall]; intros i j; [done|].
  destruct i as [|i], j as [|j]; simpl; intros Ha Hb Hij; try lia.
  - injection Ha as <-. rewrite Forall_lookup in Hall. by apply (Hall j).
  - apply (IH i j); [done|done|lia].
Qed.

Lemma bsearch_spec es target fuel lo hi :
  Forall enc_ok es -> keys_sorted es -> (hi - lo <= fuel)%nat -> (hi <= length es)%nat ->
  (forall i a, es !! i = Some a -> (i < lo)%nat -> bytes_lt (chunk_bytes (key a)) target) ->
  (forall i a, es !! i = Some a -> (hi <= i)%nat -> bytes_lt target (chunk_bytes (key a))) ->
  match bsearch fuel esize (concat (enc <$> es)) target lo hi with
  | Some off => exists i a, es !! i = Some a /\ off = (i * esize)%nat /\ chunk_bytes (key a) = target
  | None => forall i a, es !! i = Some a -> chunk_bytes (key a) <> target
  end.
Proof.
  intros Hok Hs. revert lo hi.
  assert (Hnone : forall lo hi, (hi <= lo)%nat ->
    (forall i a, es !! i = Some a -> (i < lo)%nat -> bytes_lt (chunk_bytes (key a)) target) ->
    (forall i a, es !! i = Some a -> (hi <= i)%nat -> bytes_lt target (chunk_bytes (key a))) ->
    forall i a, es !! i = Some a -> chunk_bytes (key a) <> target).
  { intros lo hi Hle Hlo Hhi i a Hi <-.
    destruct (decide (i < lo)%nat); [by eapply bytes_lt_irrefl, Hlo|].
    eapply bytes_lt_irrefl, (Hhi i); [done|lia]. }
  induction fuel as [|fuel IH]; intros lo hi Hfuel Hlen Hlo Hhi; cbn [bsearch].
  { apply (Hnone lo hi); [lia|done|done]. }
  destruct (Nat.ltb_spec lo hi) as [Hlt|]; [|by apply (Hnone lo hi)].
  set (mid := (lo + (hi - lo) / 2)%nat).
  assert (Hmid : (lo <= mid < hi)%nat).
  { assert ((hi - lo) / 2 < hi - lo)%nat by (apply Nat.div_lt; lia). unfold mid. lia. }
  destruct (lookup_lt_is_Some_2 es mid) as [a Ha]; [lia|].
  assert (Hsl : slice (mid * esize) 32 (concat (enc <$> es)) = chunk_bytes (key a)).
  { rewrite Forall_lookup in Hok. destruct (Hok mid a Ha) as (_ & Hk & H32).
    rewrite <- Hk, <- (slice_table es mid a 0 32), Nat.add_0_r; [done| |done|lia].
    by rewrite Forall_lookup. }
  rewrite Hsl. destruct (bytes_cmp (chunk_bytes (key a)) target) eqn:C.
  - apply bytes_cmp_eq in C. eauto.
  - apply IH; [lia|lia| |done]. intros i b Hb Hi.
    destruct (decide (i = mid)) as [->|]; [by simplify_eq|].
    eapply bytes_lt_trans; [|exact C]. apply (keys_sorted_lookup es i mid); [done..|lia].
  - assert (Ht : bytes_lt target (chunk_bytes (key a))).
    { unfold bytes_lt. by rewrite bytes_cmp_antisym, C. }
    apply IH; [lia|lia|done|]. intros i b Hb Hi.
    destruct (decide (i = mid)) as [->|]; [by simplify_eq|].
    eapply bytes_lt_trans; [exact Ht|]. apply (keys_sorted_lookup es mid i); [done..|lia].
Qed.

(** Opening a file with the header of its own table. *)
Lemma open_cache_table magic generation es expected :
  length magic = 8%nat -> u64 generation -> generation <> 0 -> Forall enc_ok es ->
  u32 (Z.of_nat (length es)) ->
  let file := cache_header magic generation (count_u32 es) ++ concat (enc <$> es) in
  open_cache magic esize file expected =
    if decide (expected = generation) then Some (mkMmap file (Z.of_nat (length es)) generation)
    else None.
Proof.
  intros Hm Hg Hg0 Hok Hlen file.
  assert (Hc : count_u32 es = Z.of_nat (length es)) by (by apply u32_wrap_small).
  assert (Hfl : length file = (28 + length es * esize)%nat).
  { unfold file, cache_header. rewrite !length_app, !length_le_bytes, length_table, Hm by done. lia. }
  assert (H0 : slice 0 8 file = magic).
  { unfold file, cache_header. rewrite <- !app_assoc. by apply (slice_mid 0 8 []). }
  assert (H8 : slice 8 4 file = le_bytes 4 VERSION).
  { unfold file, cache_header. rewrite <- !app_assoc. by apply slice_mid. }
  assert (H12 : slice 12 8 file = le_bytes 8 generation).
  { unfold file, cache_header. rewrite <- !app_assoc, (app_assoc magic).
    apply slice_mid; [|done]. by rewrite length_app, Hm. }
  assert (H20 : slice 20 4 file = le_bytes 4 (Z.of_nat (length es))).
  { unfold file, cache_header. rewrite Hc, <- !app_assoc, (app_assoc magic), (app_assoc (magic ++ _)).
    apply slice_mid; [|done]. by rewrite !length_app, Hm. }
  unfold open_cache. rewrite H0, H8, H12, H20, Hfl.
  rewrite bool_decide_true by done. rewrite !le_value_bytes_u32, le_value_bytes_u64 by done.
  destruct (Z.eqb_spec expected 0) as [->|].
  { rewrite decide_False; [done|congruence]. }
  destruct (Nat.ltb_spec (28 + length es * esize) HEADER_SIZE) as [Hlt|_].
  { unfold HEADER_SIZE in Hlt. lia. }
  assert (Hsz : (Z.of_nat (28 + length es * esize) =?
    Z.of_nat HEADER_SIZE + Z.of_nat (length es) * Z.of_nat esize) = true).
  { apply Z.eqb_eq. unfold HEADER_SIZE. lia. }
  rewrite Hsz, Z.eqb_refl. cbn [negb].
  destruct (Z.eqb_spec generation expected) as [->|]; cbn [negb].
  - by rewrite decide_True.
  - by rewrite decide_False.
Qed.

Lemma drop_header magic generation count (rest : bytes) :
  length magic = 8%nat -> drop HEADER_SIZE (cache_header magic generation count ++ rest) = rest.
Proof.
  intros Hm. apply drop_app_length'. unfold cache_header.
  by rewrite !length_app, !length_le_bytes, Hm.
Qed.

(** Sorting a duplicate-free list of keys gives strictly ascending keys. *)
Lemma sort_keys_sorted es :
  NoDup (chunk_bytes ∘ key <$> es) -> keys_sorted (sort_by (by_chunk_id key) es).
Proof.
  intros Hnd. assert (Hs := sort_by_sorted (by_chunk_id key)
    (fun x y => bytes_leb_total _ _) (fun x y z => bytes_leb_trans _ _ _) es).
  rewrite <- (sort_by_perm (by_chunk_id key) es) in Hnd.
  revert Hs Hnd. generalize (sort_by (by_chunk_id key) es). intros l Hs.
  induction Hs as [|x l Hs IH Hall]; csimpl; intros Hnd; [constructor|].
  apply NoDup_cons in Hnd as [Hni Hnd]. constructor; [by apply IH|].
  rewrite Forall_forall in Hall. apply Forall_forall. intros y Hy.
  specialize (Hall y Hy). apply bytes_leb_true in Hall as [Heq|]; [|done].
  exfalso. apply Hni. apply list_elem_of_fmap. exists y. split; [done|done].
Qed.
End Table.

(** ** Tables made from an index *)

Section IndexTable.
Context {A : Type} (esize : nat) (key : A -> ChunkId) (enc : A -> bytes)
  (proj : ChunkId * ChunkIndexEntry -> A).
Hypothesis proj_key : forall kv, key (proj kv) = kv.1.
Hypothesis proj_enc : forall id e, wf_entry id e -> enc_ok esize key enc (proj (id, e)).

Definition table_of (ix : ChunkIndex) : list A :=
  sort_by (by_chunk_id key) (proj <$> map_to_list ix).

Lemma elem_of_table_of ix a :
  a ∈ table_of ix <-> exists id e, a = proj (id, e) /\ ix !! id = Some e.
Proof using.
  unfold table_of. rewrite sort_by_perm, list_elem_of_fmap. split.
  - intros ([id e] & -> & Hin%elem_of_map_to_list). eauto.
  - intros (id & e & -> & Hin). exists (id, e). split; [done|]. by apply elem_of_map_to_list.
Qed.

Lemma length_table_of ix : length (table_of ix) = size ix.
Proof using.
  unfold table_of. rewrite length_sort_by, length_fmap. apply length_map_to_list.
Qed.

Lemma table_of_ok ix : wf_index ix -> Forall (enc_ok esize key enc) (table_of ix).
Proof using proj_enc.
  intros Hwf. apply Forall_forall. intros a (id & e & -> & Hin)%elem_of_table_of.
  apply proj_enc. by apply Hwf.
Qed.

Lemma NoDup_keys ix : NoDup (chunk_bytes ∘ key <$> (proj <$> map_to_list ix)).
Proof using proj_key.
  rewrite <- list_fmap_compose.
  rewrite (list_fmap_ext _ (chunk_bytes ∘ fst)).
  2:{ intros i kv _. simpl. by rewrite proj_key. }
  rewrite list_fmap_compose. apply NoDup_fmap_2; [|apply NoDup_fst_map_to_list].
  intros [x] [y]. simpl. by intros ->.
Qed.

Lemma table_of_sorted ix : keys_sorted key (table_of ix).
Proof using proj_key. apply sort_keys_sorted, NoDup_keys. Qed.

(** Looking a chunk up in the table finds its entry, or its absence. *)
Lemma bsearch_index ix id :
  wf_index ix ->
  match bsearch (size ix) esize (concat (enc <$> table_of ix)) (chunk_bytes id) 0 (size ix) with
  | Some off => exists i e, ix !! id = Some e /\ table_of ix !! i = Some (proj (id, e)) /\
                            off = (i * esize)%nat
  | None => ix !! id = None
  end.
Proof using proj_key proj_enc.
  intros Hwf.
  pose proof (bsearch_spec esize key enc (table_of ix) (chunk_bytes id) (size ix) 0 (size ix)
    (table_of_ok ix Hwf) (table_of_sorted ix)) as Hb.
  destruct (bsearch _ _ _ _ _ _) as [off|].
  - destruct Hb as (i & a & Hi & -> & Hk); [lia|by rewrite length_table_of|lia| |].
    { intros i a Ha%lookup_lt_Some ?. rewrite length_table_of in Ha. lia. }
    apply list_elem_of_lookup_2 in Hi as Hin. apply elem_of_table_of in Hin as (id' & e & -> & He).
    rewrite proj_key in Hk. simpl in Hk.
    assert (id' = id) as -> by (destruct id', id; simpl in Hk; by subst). eauto.
  - destruct (ix !! id) as [e|] eqn:He; [|done]. exfalso.
    assert (Hin : proj (id, e) ∈ table_of ix) by (apply elem_of_table_of; eauto).
    apply list_elem_of_lookup_1 in Hin as [i Hi].
    eapply Hb; [lia|by rewrite length_table_of|lia| |exact Hi|by rewrite proj_key].
    intros j a Ha%lookup_lt_Some ?. rewrite length_table_of in Ha. lia.
Qed.

Lemma open_index_table magic generation ix expected :
  length magic = 8%nat -> u64 generation -> generation <> 0 -> wf_index ix ->
  u32 (Z.of_nat (size ix)) ->
  let file := cache_header magic generation (count_u32 (table_of ix))
              ++ concat (enc <$> table_of ix) in
  open_cache magic esize file expected =
    if decide (expected = generation) then Some (mkMmap file (Z.of_nat (size ix)) generation)
    else None.
Proof using proj_enc.
  intros Hm Hg Hg0 Hwf Hsz. rewrite <- length_table_of in Hsz.
  pose proof (open_cache_table esize key enc magic generation (table_of ix) expected
    Hm Hg Hg0 (table_of_ok ix Hwf) Hsz) as Ho.
  simpl in *. rewrite Ho. by rewrite length_table_of.
Qed.
End IndexTable.

(** The three formats. *)
Definition dedup_proj (kv : ChunkId * ChunkIndexEntry) : ChunkId * Z := (kv.1, stored_size kv.2).
Definition restore_proj (kv : ChunkId * ChunkIndexEntry) : ChunkId * Z * PackId * Z :=
  (kv.1, stored_size kv.2, pack_id kv.2, pack_offset kv.2).

Lemma dedup_enc_ok id e : wf_entry id e -> enc_ok ENTRY_SIZE fst write_dedup_entry (dedup_proj (id, e)).
Proof.
  intros ((Hl & _) & _). split; [|split; [|unfold ENTRY_SIZE; lia]].
  - unfold write_dedup_entry. simpl. rewrite length_app. simpl. by rewrite Hl.
  - unfold write_dedup_entry. by apply (slice_mid 0 32 [] _ _).
Qed.

Lemma restore_enc_ok id e :
  wf_entry id e ->
  enc_ok RESTORE_ENTRY_SIZE (fun e => e.1.1.1) write_restore_entry (restore_proj (id, e)).
Proof.
  intros ((Hl & _) & _ & _ & (Hp & _) & _). split; [|split; [|unfold RESTORE_ENTRY_SIZE; lia]].
  - unfold write_restore_entry, restore_proj. rewrite !length_app, !length_le_bytes. simpl.
    by rewrite Hl, Hp.
  - unfold write_restore_entry, restore_proj. by apply (slice_mid 0 32 [] _ _).
Qed.

Lemma full_enc_ok id e :
  wf_entry id e -> enc_ok FULL_ENTRY_SIZE fc_chunk_id write_full_entry (full_of (id, e)).
Proof.
  intros ((Hl & _) & _ & _ & (Hp & _) & _). split; [|split; [|unfold FULL_ENTRY_SIZE; lia]].
  - unfold write_full_entry, full_of. rewrite !length_app, !length_le_bytes. simpl.
    by rewrite Hl, Hp.
  - unfold write_full_entry, full_of. by apply (slice_mid 0 32 [] _ _).
Qed.

(** What a cache file must be built from: an index within the format's
    widths and a generation other than the reserved 0. *)
Definition cacheable (ix : ChunkIndex) (generation : Z) : Prop :=
  wf_index ix /\ u32 (Z.of_nat (size ix)) /\ u64 generation /\ generation <> 0.

#[export] Instance cacheable_dec ix g : Decision (cacheable ix g).
Proof. unfold cacheable. apply _. Defined.

Lemma build_dedup_table ix generation :
  build_dedup_cache_to_path ix generation =
    cache_header MAGIC generation (count_u32 (table_of fst dedup_proj ix))
    ++ concat (write_dedup_entry <$> table_of fst dedup_proj ix).
Proof. done. Qed.

Lemma build_restore_table ix generation :
  build_restore_cache_to_path ix generation =
    cache_header RESTORE_MAGIC generation (count_u32 (table_of (fun e => e.1.1.1) restore_proj ix))
    ++ concat (write_restore_entry <$> table_of (fun e => e.1.1.1) restore_proj ix).
Proof. done. Qed.

Lemma build_full_table ix generation :
  build_full_index_cache_to_path ix generation =
    cache_header FULL_MAGIC generation (count_u32 (table_of fc_chunk_id full_of ix))
    ++ concat (write_full_entry <$> table_of fc_chunk_id full_of ix).
Proof. done. Qed.

Lemma dedup_lookup_ok ix generation id :
  wf_index ix ->
  dedup_get_stored_size
    (mkMmap (build_dedup_cache_to_path ix generation) (Z.of_nat (size ix)) generation) id
  = stored_size <$> ix !! id.
Proof.
  intros Hwf. unfold dedup_get_stored_size. cbn [entry_count mmap].
  destruct (Z.eqb_spec (Z.of_nat (size ix)) 0) as [E0|_].
  { rewrite (map_size_empty_inv ix) by lia. by rewrite lookup_empty. }
  rewrite build_dedup_table, drop_header, Nat2Z.id by done.
  pose proof (bsearch_index ENTRY_SIZE fst write_dedup_entry dedup_proj (fun _ => eq_refl)
    dedup_enc_ok ix id Hwf) as Hb.
  destruct (bsearch _ _ _ _ _ _) as [off|]; [|by rewrite Hb].
  destruct Hb as (i & e & He & Hi & ->). rewrite He. simpl.
  destruct (Hwf _ _ He) as ((Hl & _) & _ & Hs & _).
  rewrite (slice_table ENTRY_SIZE fst write_dedup_entry _ i (dedup_proj (id, e)) 32 4);
    [|by eapply table_of_ok, Hwf; apply dedup_enc_ok|done|unfold ENTRY_SIZE; lia].
  unfold write_dedup_entry, dedup_proj. simpl fst. simpl snd.
  rewrite <- (app_nil_r (le_bytes 4 _)), slice_mid by done.
  by rewrite le_value_bytes_u32.
Qed.

Lemma restore_lookup_ok ix generation id :
  wf_index ix ->
  restore_lookup
    (mkMmap (build_restore_cache_to_path ix generation) (Z.of_nat (size ix)) generation) id
  = location <$> ix !! id.
Proof.
  intros Hwf. unfold restore_lookup. cbn [entry_count mmap].
  destruct (Z.eqb_spec (Z.of_nat (size ix)) 0) as [E0|_].
  { rewrite (map_size_empty_inv ix) by lia. by rewrite lookup_empty. }
  rewrite build_restore_table, drop_header, Nat2Z.id by done.
  pose proof (bsearch_index RESTORE_ENTRY_SIZE _ write_restore_entry restore_proj (fun _ => eq_refl)
    restore_enc_ok ix id Hwf) as Hb.
  destruct (bsearch _ _ _ _ _ _) as [off|]; [|by rewrite Hb].
  destruct Hb as (i & e & He & Hi & ->). rewrite He. cbn [mbind option_bind fmap option_fmap option_map].
  destruct (Hwf _ _ He) as ((Hl & _) & _ & Hs & (Hp & _) & Ho).
  assert (Hok := table_of_ok RESTORE_ENTRY_SIZE (fun e => e.1.1.1) write_restore_entry
    restore_proj restore_enc_ok ix Hwf).
  rewrite !(slice_table RESTORE_ENTRY_SIZE _ write_restore_entry _ i (restore_proj (id, e)) _ _ Hok Hi)
    by (unfold RESTORE_ENTRY_SIZE; lia).
  unfold write_restore_entry, restore_proj, location. cbn [fst snd].
  rewrite (slice_mid 32 4) by done.
  rewrite (app_assoc (chunk_bytes id)).
  rewrite (slice_mid 36 32) by (rewrite ?length_app, ?Hl; done).
  rewrite (app_assoc (chunk_bytes id ++ _)), <- (app_nil_r (le_bytes 8 _)).
  rewrite (slice_mid 68 8) by (rewrite ?length_app, ?Hl, ?Hp; done).
  rewrite le_value_bytes_u32, le_value_bytes_u64 by done. by destruct (pack_id e).
Qed.

(** The binary searches answer what the index says: a dedup or restore
    cache built for some generation opens under that generation and no other,
    and a lookup of any chunk in it returns exactly the size, respectively the
    location, the index has for the chunk, and nothing for a chunk the index
    does not have. *)
Theorem mmap_lookup_correct ix generation expected :
  cacheable ix generation ->
  match dedup_open_path (build_dedup_cache_to_path ix generation) expected,
        restore_open_path (build_restore_cache_to_path ix generation) expected with
  | Some dc, Some rc =>
      expected = generation /\
      forall id, dedup_get_stored_size dc id = stored_size <$> ix !! id /\
                 restore_lookup rc id = location <$> ix !! id
  | None, None => expected <> generation
  | _, _ => False
  end.
Proof.
  intros (Hwf & Hsz & Hg & Hg0). unfold dedup_open_path, restore_open_path.
  rewrite build_dedup_table, build_restore_table.
  rewrite (open_index_table ENTRY_SIZE fst write_dedup_entry dedup_proj dedup_enc_ok) by done.
  rewrite (open_index_table RESTORE_ENTRY_SIZE _ write_restore_entry restore_proj restore_enc_ok) by done.
  rewrite <- build_dedup_table, <- build_restore_table.
  case_decide; [|done]. split; [done|]. intros id.
  by rewrite dedup_lookup_ok, restore_lookup_ok.
Qed.

(** ** The full cache *)

Definition wf_full (e : FullCacheEntry) : Prop := wf_entry (entry_of e).1 (entry_of e).2.

Lemma full_of_entry_of e : full_of (entry_of e) = e.
Proof. by destruct e. Qed.
Lemma entry_of_full_of kv : entry_of (full_of kv) = kv.
Proof. by destruct kv as [id []]. Qed.

Lemma wf_full_enc_ok es : Forall wf_full es -> Forall (enc_ok FULL_ENTRY_SIZE fc_chunk_id write_full_entry) es.
Proof.
  intros Hwf. eapply Forall_impl; [exact Hwf|]. intros e He.
  rewrite <- (full_of_entry_of e). destruct (entry_of e) as [id x] eqn:E.
  apply full_enc_ok. unfold wf_full in He. by rewrite E in He.
Qed.

(** A mapped full cache over the entries [es]. *)
Definition full_mmap (es : list FullCacheEntry) (generation : Z) : MmapCache :=
  mkMmap (cache_header FULL_MAGIC generation (count_u32 es) ++ concat (write_full_entry <$> es))
    (Z.of_nat (length es)) generation.

Lemma entry_at_full es generation i e :
  Forall wf_full es -> es !! i = Some e -> entry_at (full_mmap es generation) i = e.
Proof.
  intros Hwf Hi. unfold entry_at, full_mmap. cbn [mmap]. rewrite drop_header by done.
  assert (Hok := wf_full_enc_ok es Hwf). rewrite Forall_lookup in Hwf.
  destruct (Hwf i e Hi) as ((Hl & _) & Hr & Hs & (Hp & _) & Ho). simpl in Hl, Hr, Hs, Hp, Ho.
  rewrite <- (Nat.add_0_r (i * FULL_ENTRY_SIZE)) at 1.
  rewrite !(slice_table FULL_ENTRY_SIZE fc_chunk_id write_full_entry es i e _ _ Hok Hi)
    by (unfold FULL_ENTRY_SIZE; lia).
  unfold write_full_entry. rewrite (slice_head 32) by done.
  rewrite (slice_mid 32 4) by done.
  rewrite (app_assoc (chunk_bytes _)).
  rewrite (slice_mid 36 4) by (rewrite ?length_app, ?Hl; done).
  rewrite (app_assoc (chunk_bytes _ ++ _)).
  rewrite (slice_mid 40 32) by (rewrite ?length_app, ?Hl; done).
  rewrite (app_assoc ((chunk_bytes _ ++ _) ++ _)), <- (app_nil_r (le_bytes 8 _)).
  rewrite (slice_mid 72 8) by (rewrite ?length_app, ?Hl, ?Hp; done).
  rewrite !le_value_bytes_u32, le_value_bytes_u64 by done.
  by destruct e as [[] ? ? [] ?].
Qed.

Lemma chunk_id_bytes_at_full es generation i e :
  Forall wf_full es -> es !! i = Some e ->
  chunk_id_bytes_at (full_mmap es generation) i = chunk_bytes (fc_chunk_id e).
Proof.
  intros Hwf Hi. pose proof (entry_at_full es generation i e Hwf Hi) as He.
  apply (f_equal (fun x => chunk_bytes (fc_chunk_id x))) in He. rewrite <- He.
  unfold chunk_id_bytes_at, entry_at. simpl. by rewrite slice_drop.
Qed.

Lemma full_iter_full es generation :
  Forall wf_full es -> full_iter (full_mmap es generation) = es.
Proof.
  intros Hwf. unfold full_iter. simpl entry_count. rewrite Nat2Z.id.
  apply list_eq. intros i. rewrite list_lookup_fmap.
  destruct (decide (i < length es)%nat) as [Hi|Hi].
  - rewrite lookup_seq_lt by done. simpl.
    destruct (lookup_lt_is_Some_2 es i Hi) as [e He]. by rewrite He, (entry_at_full es _ i e).
  - rewrite lookup_seq_ge by lia. simpl. symmetry. apply lookup_ge_None. lia.
Qed.

Lemma full_table_wf ix : wf_index ix -> Forall wf_full (table_of fc_chunk_id full_of ix).
Proof.
  intros Hwf. apply Forall_forall. intros a (id & e & -> & He)%elem_of_table_of.
  unfold wf_full. rewrite entry_of_full_of. by apply Hwf.
Qed.

Lemma full_open_ok ix generation :
  cacheable ix generation ->
  full_open_path (build_full_index_cache_to_path ix generation) generation =
    Some (full_mmap (table_of fc_chunk_id full_of ix) generation).
Proof.
  intros (Hwf & Hsz & Hg & Hg0). unfold full_open_path. rewrite build_full_table.
  rewrite (open_index_table FULL_ENTRY_SIZE fc_chunk_id write_full_entry full_of full_enc_ok) by done.
  rewrite decide_True by done. unfold full_mmap. by rewrite length_table_of.
Qed.

Lemma table_list_to_map ix : list_to_map (entry_of <$> table_of fc_chunk_id full_of ix) = ix.
Proof.
  rewrite <- (list_to_map_to_list ix) at 2.
  assert (Hp : entry_of <$> table_of fc_chunk_id full_of ix ≡ₚ map_to_list ix).
  { unfold table_of. rewrite sort_by_perm, <- list_fmap_compose.
    rewrite (list_fmap_ext _ id); [by rewrite list_fmap_id|].
    intros i kv _. apply entry_of_full_of. }
  apply list_to_map_proper; [|done]. rewrite Hp. apply NoDup_fst_map_to_list.
Qed.

Lemma load_entry_fresh ix e :
  1 <= fc_refcount e < u32_modulus -> ix !! fc_chunk_id e = None ->
  load_entry ix e = <[fc_chunk_id e := (entry_of e).2]> ix.
Proof.
  intros Hr Hn.
  change (load_entry ix e) with (apply_new_entry ix (mkNew (fc_chunk_id e) (fc_stored_size e)
    (fc_pack_id e) (fc_pack_offset e) (fc_refcount e))).
  apply map_eq. intros id. rewrite apply_new_entry_lookup by done. simpl.
  rewrite lookup_insert. case_decide; [|done]. subst id. by rewrite Hn.
Qed.

Lemma foldl_load_entry es ix :
  Forall (fun e => 1 <= fc_refcount e < u32_modulus) es -> NoDup (fc_chunk_id <$> es) ->
  (forall e, e ∈ es -> ix !! fc_chunk_id e = None) ->
  foldl load_entry ix es = list_to_map (entry_of <$> es) ∪ ix.
Proof.
  intros Hr. revert ix. induction Hr as [|e es He _ IH]; intros ix Hnd Hfr; csimpl.
  { by rewrite (left_id ∅ (∪)). }
  apply NoDup_cons in Hnd as [Hni Hnd].
  rewrite load_entry_fresh by (done || by apply Hfr, list_elem_of_here).
  rewrite IH; [|done|].
  - rewrite <- insert_union_l, insert_union_r; [done|].
    apply not_elem_of_list_to_map_1. rewrite <- list_fmap_compose. exact Hni.
  - intros x Hx. rewrite lookup_insert_ne.
    + apply Hfr. by constructor.
    + intros E. apply Hni. rewrite E. by apply list_elem_of_fmap_2.
Qed.

Lemma load_full_cache ix generation :
  cacheable ix generation -> map_Forall (fun _ e => 1 <= refcount e) ix ->
  load_chunk_index_from_full_cache_path (build_full_index_cache_to_path ix generation) generation
  = Ok ix.
Proof.
  intros Hc Hpos. unfold load_chunk_index_from_full_cache_path. rewrite full_open_ok by done.
  destruct Hc as (Hwf & _). simpl. rewrite full_iter_full by (by apply full_table_wf).
  unfold mret, result_ret. f_equal. rewrite foldl_load_entry.
  - rewrite table_list_to_map. apply (right_id ∅ (∪)).
  - apply Forall_forall. intros a (id & e & -> & He)%elem_of_table_of. simpl.
    destruct (Hwf _ _ He) as (_ & Hu & _). specialize (Hpos _ _ He). simpl in Hpos.
    unfold u32 in Hu. lia.
  - eapply (NoDup_fmap_1 chunk_bytes). rewrite <- list_fmap_compose.
    unfold table_of. rewrite sort_by_perm. by apply NoDup_keys.
  - intros. apply lookup_empty.
Qed.

(** The full cache is a faithful copy: loading the file built from an index
    gives back the index, entry for entry. *)
Theorem full_cache_round_trip ix generation :
  cacheable ix generation -> map_Forall (fun _ e => 1 <= refcount e) ix ->
  load_chunk_index_from_full_cache_path (build_full_index_cache_to_path ix generation) generation
  = Ok ix.
Proof. apply load_full_cache. Qed.

(** ** Merging *)

(** A delta as [reconcile] leaves it: its new entries are new to the index and
    distinct (the session's dedup index admits a chunk once). *)
Definition mergeable (d : IndexDelta) (ix : ChunkIndex) : Prop :=
  wf_delta d /\ NoDup (new_chunk_id <$> new_entries d) /\
  Forall (fun e => ix !! new_chunk_id e = None) (new_entries d).

#[export] Instance mergeable_dec d ix : Decision (mergeable d ix).
Proof. unfold mergeable. apply _. Defined.

Definition full_le (a b : FullCacheEntry) : Prop :=
  by_chunk_id fc_chunk_id a b = true.

Definition new_le (a b : NewChunkEntry) : Prop := by_chunk_id new_chunk_id a b = true.

#[export] Instance full_le_refl : Reflexive full_le.
Proof. intros x. apply bytes_leb_true. by left. Qed.
#[export] Instance new_le_refl : Reflexive new_le.
Proof. intros x. apply bytes_leb_true. by left. Qed.

(** What the loop has to write for the remaining entries. *)
Definition merged (d : IndexDelta) (olds : list FullCacheEntry) (news : list NewChunkEntry)
    (out : list FullCacheEntry) : Prop :=
  out ≡ₚ (bumped_old d <$> olds) ++ (bumped_new d <$> news) /\ StronglySorted full_le out.

Lemma merged_old d e olds news rest :
  StronglySorted full_le (e :: olds) -> StronglySorted new_le news ->
  (forall ne, head news = Some ne ->
     bytes_leb (chunk_bytes (fc_chunk_id e)) (chunk_bytes (new_chunk_id ne)) = true) ->
  merged d olds news rest -> merged d (e :: olds) news (bumped_old d e :: rest).
Proof.
  intros So Sn Hle [Hp Hs]. split; [csimpl; by rewrite Hp|].
  constructor; [done|]. apply Forall_forall. intros x. rewrite Hp, elem_of_app, !list_elem_of_fmap.
  intros [(y & -> & Hy)|(y & -> & Hy)].
  - apply (StronglySorted_head full_le e y (e :: olds)); [done|done|by constructor].
  - destruct news as [|ne news]; [set_solver|].
    apply (bytes_leb_trans _ (chunk_bytes (new_chunk_id ne))); [by apply Hle|].
    by apply (StronglySorted_head new_le ne y (ne :: news)).
Qed.

Lemma merged_new d ne olds news rest :
  StronglySorted full_le olds -> StronglySorted new_le (ne :: news) ->
  (forall e, head olds = Some e ->
     bytes_leb (chunk_bytes (new_chunk_id ne)) (chunk_bytes (fc_chunk_id e)) = true) ->
  merged d olds news rest -> merged d olds (ne :: news) (bumped_new d ne :: rest).
Proof.
  intros So Sn Hle [Hp Hs]. split; [csimpl; rewrite Hp; apply Permutation_middle|].
  constructor; [done|]. apply Forall_forall. intros x. rewrite Hp, elem_of_app, !list_elem_of_fmap.
  intros [(y & -> & Hy)|(y & -> & Hy)].
  - destruct olds as [|e olds]; [set_solver|].
    apply (bytes_leb_trans _ (chunk_bytes (fc_chunk_id e))); [by apply Hle|].
    by apply (StronglySorted_head full_le e y (e :: olds)).
  - apply (StronglySorted_head new_le ne y (ne :: news)); [done|done|by constructor].
Qed.

(** The loop writes all remaining entries, in ascending order. *)
Lemma merge_loop_spec olds generation d news fuel oi ni :
  Forall wf_full olds -> StronglySorted full_le olds -> StronglySorted new_le news ->
  (oi <= length olds)%nat -> (ni <= length news)%nat ->
  (fuel = (length olds - oi) + (length news - ni))%nat ->
  merged d (drop oi olds) (drop ni news)
    (merge_loop fuel (full_mmap olds generation) d news oi ni).
Proof.
  intros Hwf So Sn. revert oi ni.
  induction fuel as [|fuel IH]; intros oi ni Ho Hn Hf; cbn [merge_loop].
  { rewrite !drop_ge by lia. split; [done|constructor]. }
  unfold full_mmap at 1 2. cbn [entry_count]. rewrite Nat2Z.id.
  pose proof (StronglySorted_drop _ oi _ So) as So'. pose proof (StronglySorted_drop _ ni _ Sn) as Sn'.
  destruct (Nat.leb_spec (length olds) oi) as [Hoi|Hoi].
  - destruct (Nat.ltb_spec oi (length olds)); [lia|]. simpl orb. cbv match.
    destruct (Nat.ltb_spec ni (length news)) as [Hni|]; [|lia].
    destruct (lookup_lt_is_Some_2 news ni Hni) as [ne Hne]. rewrite Hne.
    rewrite (drop_S _ _ _ Hne) in *. apply merged_new; [done|done| |rewrite <- Nat.add_1_r; apply IH; lia].
    intros e. rewrite drop_ge by lia. done.
  - destruct (Nat.ltb_spec oi (length olds)); [|lia]. simpl orb. cbv match.
    destruct (lookup_lt_is_Some_2 olds oi Hoi) as [e He].
    rewrite (entry_at_full olds generation oi e Hwf He).
    rewrite (chunk_id_bytes_at_full olds generation oi e Hwf He).
    rewrite (drop_S _ _ _ He) in *.
    destruct (news !! ni) as [ne|] eqn:Hne.
    + pose proof (lookup_lt_Some _ _ _ Hne). rewrite (drop_S _ _ _ Hne) in *.
      destruct (bytes_leb _ _) eqn:C.
      * apply merged_old; [done|done|by intros ? [= <-]|].
        rewrite <- (drop_S _ _ _ Hne), <- Nat.add_1_r. apply IH; lia.
      * apply merged_new; [done|done| |].
        { intros e' [= <-]. apply bytes_leb_true. right. by apply bytes_leb_false. }
        rewrite <- (drop_S _ _ _ He), <- Nat.add_1_r. apply IH; lia.
    + apply lookup_ge_None in Hne. apply merged_old; [done|done|by rewrite drop_ge by lia|].
      rewrite <- Nat.add_1_r. apply IH; lia.
Qed.

(** The index a mergeable delta gives, chunk by chunk. *)
Lemma first_new_nodup e es :
  NoDup (new_chunk_id <$> es) -> e ∈ es ->
  first_new (new_chunk_id e) es = Some e /\ entry_refs (new_chunk_id e) es = new_refcount e.
Proof.
  unfold first_new, entry_refs. induction es as [|x es IH]; csimpl; [set_solver|].
  intros [Hni Hnd]%NoDup_cons [->|Hin]%elem_of_cons.
  - rewrite bool_decide_true, decide_True by done. split; [done|].
    fold (entry_refs (new_chunk_id x) es). rewrite entry_refs_none; [lia|].
    apply eq_None_not_Some. by rewrite first_new_Some.
  - assert (new_chunk_id x <> new_chunk_id e).
    { intros E. apply Hni. rewrite E. by apply list_elem_of_fmap_2. }
    rewrite bool_decide_false, decide_False by done. by apply IH.
Qed.

Lemma first_new_elem id es e : first_new id es = Some e -> e ∈ es /\ new_chunk_id e = id.
Proof.
  unfold first_new. intros [Hin Hb]%find_some.
  split; [by apply list_elem_of_In|by apply bool_decide_eq_true in Hb].
Qed.

Lemma lookup_apply_mergeable d ix id :
  mergeable d ix ->
  apply_to d ix !! id =
    match ix !! id, first_new id (new_entries d) with
    | Some e, _ => Some (set_refcount (bump_of d id (refcount e)) e)
    | None, Some ne => Some (entry_of (bumped_new d ne)).2
    | None, None => None
    end.
Proof.
  intros ((Hnew & _) & Hnd & Hfr). rewrite Forall_forall in Hfr.
  unfold apply_to. rewrite lookup_bumps, foldl_apply_new_entry by done.
  unfold pushed, bump_of. destruct (ix !! id) as [e|] eqn:E.
  - assert (first_new id (new_entries d) = None) as ->.
    { apply eq_None_not_Some. intros [ne Hne]. apply first_new_elem in Hne as [Hin <-].
      apply Hfr in Hin. congruence. }
    destruct (refcount_bumps d !! id); [done|]. by destruct e.
  - destruct (first_new id (new_entries d)) as [ne|] eqn:F; [|by destruct (refcount_bumps d !! id)].
    apply first_new_elem in F as [Hin <-].
    destruct (first_new_nodup ne (new_entries d) Hnd Hin) as [_ ->].
    rewrite Forall_forall in Hnew. destruct (Hnew ne Hin) as (_ & _ & _ & _ & Hr).
    rewrite u32_wrap_small by (unfold u32; lia). unfold bumped_new, bump_of. simpl.
    by destruct (refcount_bumps d !! new_chunk_id ne).
Qed.

Lemma elem_of_applied d ix x :
  mergeable d ix ->
  (x ∈ full_of <$> map_to_list (apply_to d ix)) <->
  x ∈ (bumped_old d <$> table_of fc_chunk_id full_of ix) ++ (bumped_new d <$> new_entries d).
Proof.
  intros Hm. pose proof (fun id => lookup_apply_mergeable d ix id Hm) as Hl.
  destruct Hm as (_ & Hnd & Hfr). rewrite Forall_forall in Hfr.
  rewrite elem_of_app, !list_elem_of_fmap. split.
  - intros ([id e] & -> & Hin%elem_of_map_to_list). rewrite Hl in Hin.
    destruct (ix !! id) as [x|] eqn:E.
    + injection Hin as <-. left. exists (full_of (id, x)). split; [done|].
      apply elem_of_table_of. eauto.
    + right. destruct (first_new id (new_entries d)) as [ne|] eqn:F; [|done].
      injection Hin as <-. apply first_new_elem in F as [Hin <-]. exists ne. done.
  - intros [(y & -> & Hy)|(ne & -> & Hin)].
    + apply elem_of_table_of in Hy as (id & e & -> & He).
      exists (id, set_refcount (bump_of d id (refcount e)) e).
      by rewrite elem_of_map_to_list, Hl, He.
    + exists (new_chunk_id ne, (entry_of (bumped_new d ne)).2).
      rewrite elem_of_map_to_list, Hl, (Hfr ne Hin).
      destruct (first_new_nodup ne (new_entries d) Hnd Hin) as [-> _]. done.
Qed.

Lemma full_of_inj : Inj (=) (=) full_of.
Proof. intros x y E. rewrite <- (entry_of_full_of x), E. apply entry_of_full_of. Qed.

Lemma NoDup_table_ids ix : NoDup (fc_chunk_id <$> table_of fc_chunk_id full_of ix).
Proof.
  eapply (NoDup_fmap_1 chunk_bytes). rewrite <- list_fmap_compose.
  unfold table_of. rewrite sort_by_perm. by apply NoDup_keys.
Qed.

(** The written entries are those of the new index. *)
Lemma merged_perm d ix out :
  mergeable d ix ->
  merged d (table_of fc_chunk_id full_of ix) (sort_by (by_chunk_id new_chunk_id) (new_entries d)) out ->
  out ≡ₚ full_of <$> map_to_list (apply_to d ix).
Proof.
  intros Hm [Hp _]. rewrite Hp. apply NoDup_Permutation.
  - apply (NoDup_fmap_1 fc_chunk_id). rewrite fmap_app, <- !list_fmap_compose.
    change (fc_chunk_id ∘ bumped_old d) with fc_chunk_id.
    change (fc_chunk_id ∘ bumped_new d) with new_chunk_id.
    destruct Hm as (_ & Hnd & Hfr). apply NoDup_app. split_and!.
    + apply NoDup_table_ids.
    + intros x (a & -> & Ha)%list_elem_of_fmap (b & Hb & Hin)%list_elem_of_fmap.
      rewrite sort_by_perm in Hin. rewrite Forall_forall in Hfr.
      apply elem_of_table_of in Ha as (id & e & -> & He). simpl in Hb. subst id.
      rewrite (Hfr _ Hin) in He. done.
    + by rewrite sort_by_perm.
  - apply NoDup_fmap_2; [apply full_of_inj|apply NoDup_map_to_list].
  - intros x. rewrite elem_of_applied by done. by rewrite sort_by_perm.
Qed.

(** Two ascending lists of the same entries of an index are equal. *)
Lemma full_sorted_unique ix out :
  out ≡ₚ full_of <$> map_to_list ix -> StronglySorted full_le out ->
  out = table_of fc_chunk_id full_of ix.
Proof.
  intros Hp Hs. apply (sorted_perm_unique full_le); [|done| |].
  - intros x y Hx Hy Hxy Hyx.
    assert (Hk : fc_chunk_id x = fc_chunk_id y).
    { apply bytes_leb_true in Hxy, Hyx.
      destruct Hxy as [E|Hlt], Hyx as [E'|Hlt'];
        [by destruct (fc_chunk_id x), (fc_chunk_id y); simpl in *; subst..|].
      exfalso. eapply bytes_lt_irrefl, bytes_lt_trans; done. }
    rewrite Hp in Hx, Hy. apply list_elem_of_fmap in Hx as ([i a] & -> & Hx), Hy as ([j b] & -> & Hy).
    apply elem_of_map_to_list in Hx, Hy. simpl in Hk. subst j. congruence.
  - apply sort_by_sorted; intros; [apply bytes_leb_total|by eapply bytes_leb_trans].
  - unfold table_of. by rewrite sort_by_perm.
Qed.

Lemma merge_table ix d generation new_generation :
  wf_index ix -> mergeable d ix -> u32 (Z.of_nat (size ix + length (new_entries d))) ->
  merge_full_index_cache (full_mmap (table_of fc_chunk_id full_of ix) generation) d new_generation =
  build_full_index_cache_to_path (apply_to d ix) new_generation.
Proof.
  intros Hwf Hm Hsz.
  set (news := sort_by (by_chunk_id new_chunk_id) (new_entries d)).
  assert (Hln : length news = length (new_entries d)) by apply length_sort_by.
  pose proof (length_table_of fc_chunk_id full_of ix) as Hlo.
  assert (Hmg : merged d (table_of fc_chunk_id full_of ix) news
    (merge_loop (size ix + length news)
       (full_mmap (table_of fc_chunk_id full_of ix) generation) d news 0 0)).
  { apply (merge_loop_spec (table_of fc_chunk_id full_of ix) generation d news _ 0 0);
      [by apply full_table_wf| | |lia|lia|lia];
      apply sort_by_sorted; intros; (apply bytes_leb_total || by eapply bytes_leb_trans). }
  pose proof (merged_perm d ix _ Hm Hmg) as Hperm.
  apply full_sorted_unique in Hperm as Hout; [|by destruct Hmg].
  assert (Hcount : u32_add (Z.of_nat (size ix)) (count_u32 news) =
    count_u32 (table_of fc_chunk_id full_of (apply_to d ix))).
  { rewrite <- Hout. destruct Hmg as [Hp _]. apply Permutation_length in Hp.
    rewrite length_app, !length_fmap, Hlo in Hp. unfold count_u32, u32_add. rewrite Hp.
    rewrite (u32_wrap_small (Z.of_nat (length news))) by (unfold u32 in *; lia).
    f_equal. lia. }
  unfold merge_full_index_cache. cbn [full_mmap entry_count]. fold news.
  by rewrite Nat2Z.id, Hlo, Hcount, Hout, build_full_table.
Qed.

(** C25. Merging a delta into the mapped full cache gives, byte for byte, the
    file that would be built from the index with the delta applied: the
    incremental path and the rebuild are equal. *)
Theorem merge_equals_rebuild ix d generation new_generation old :
  cacheable ix generation -> mergeable d ix ->
  u32 (Z.of_nat (size ix + length (new_entries d))) ->
  full_open_path (build_full_index_cache_to_path ix generation) generation = Some old ->
  merge_full_index_cache old d new_generation =
  build_full_index_cache_to_path (apply_to d ix) new_generation.
Proof.
  intros Hc Hm Hsz Ho. rewrite full_open_ok in Ho by done. injection Ho as <-. by apply merge_table; [apply Hc|..].
Qed.

(** ** Derived caches *)

(** Projecting commutes with sorting by chunk. *)
Lemma sort_by_fmap {A B} (ka : A -> ChunkId) (kb : B -> ChunkId) (f : A -> B) l :
  (forall a, kb (f a) = ka a) ->
  sort_by (by_chunk_id kb) (f <$> l) = f <$> sort_by (by_chunk_id ka) l.
Proof.
  intros Hk. induction l as [|a l IH]; csimpl; [done|]. rewrite IH.
  generalize (sort_by (by_chunk_id ka) l). intros m.
  induction m as [|x m IHm]; csimpl; [done|].
  unfold by_chunk_id at 1 3. rewrite !Hk. destruct (bytes_leb _ _); [done|].
  csimpl. by rewrite IHm.
Qed.

Lemma derive_caches ix generation :
  cacheable ix generation ->
  let full := build_full_index_cache_to_path ix generation in
  build_dedup_cache_from_full_cache full generation = Ok (build_dedup_cache_to_path ix generation) /\
  build_restore_cache_from_full_cache full generation = Ok (build_restore_cache_to_path ix generation).
Proof.
  intros Hc full. unfold build_dedup_cache_from_full_cache, build_restore_cache_from_full_cache.
  unfold full. rewrite full_open_ok by done. destruct Hc as (Hwf & Hsz & _).
  cbn [ok_or mbind result_bind mret result_ret]. rewrite full_iter_full by (by apply full_table_wf).
  cbn [full_mmap entry_count]. rewrite length_table_of.
  rewrite build_dedup_table, build_restore_table. unfold count_u32.
  rewrite !length_table_of, !u32_wrap_small by done.
  assert (Hd : table_of fst dedup_proj ix =
    (fun e => (fc_chunk_id e, fc_stored_size e)) <$> table_of fc_chunk_id full_of ix).
  { unfold table_of. rewrite <- (sort_by_fmap fc_chunk_id fst) by done.
    by rewrite <- list_fmap_compose. }
  assert (Hr : table_of (fun e => e.1.1.1) restore_proj ix =
    (fun e => (fc_chunk_id e, fc_stored_size e, fc_pack_id e, fc_pack_offset e))
      <$> table_of fc_chunk_id full_of ix).
  { unfold table_of. rewrite <- (sort_by_fmap fc_chunk_id (fun e => e.1.1.1)) by done.
    by rewrite <- list_fmap_compose. }
  by rewrite Hd, Hr, <- !list_fmap_compose.
Qed.

(** The caches streamed out of the full cache are, byte for byte, those
    built from the index. *)
Theorem derived_caches_equal ix generation :
  cacheable ix generation ->
  let full := build_full_index_cache_to_path ix generation in
  build_dedup_cache_from_full_cache full generation = Ok (build_dedup_cache_to_path ix generation) /\
  build_restore_cache_from_full_cache full generation = Ok (build_restore_cache_to_path ix generation).
Proof. apply derive_caches. Qed.

(** The map serialized from a full cache is the index. *)
Lemma entries_map_view_ok ix generation :
  wf_index ix ->
  list_to_map (entries_map_view (full_mmap (table_of fc_chunk_id full_of ix) generation)) = ix.
Proof.
  intros Hwf. unfold entries_map_view. rewrite full_iter_full by (by apply full_table_wf).
  apply table_list_to_map.
Qed.

(** The index blob cache answers the blob for its own generation only. *)
Lemma index_blob_cache_round_trip blob generation expected :
  u64 generation -> generation <> 0 ->
  read_index_blob_cache (write_index_blob_cache blob generation) expected =
    if decide (expected = generation) then Some blob else None.
Proof.
  intros Hg Hg0. set (file := write_index_blob_cache blob generation).
  assert (Hfl : length file = (24 + length blob)%nat).
  { unfold file, write_index_blob_cache. rewrite !length_app, !length_le_bytes. simpl. lia. }
  assert (H0 : slice 0 8 file = INDEX_BLOB_MAGIC) by done.
  assert (H8 : slice 8 4 file = le_bytes 4 VERSION) by done.
  assert (H12 : slice 12 8 file = le_bytes 8 generation).
  { unfold file, write_index_blob_cache. rewrite (app_assoc INDEX_BLOB_MAGIC). by apply slice_mid. }
  unfold read_index_blob_cache. rewrite H0, H8, H12, Hfl, bool_decide_true by done.
  rewrite le_value_bytes_u32, le_value_bytes_u64 by done.
  destruct (Z.eqb_spec expected 0) as [->|].
  { rewrite decide_False; [done|congruence]. }
  destruct (Nat.ltb_spec (24 + length blob) INDEX_BLOB_HEADER_SIZE) as [Hlt|_].
  { unfold INDEX_BLOB_HEADER_SIZE in Hlt. lia. }
  rewrite Z.eqb_refl. cbn [negb].
  destruct (Z.eqb_spec generation expected) as [->|]; cbn [negb].
  - by rewrite decide_True.
  - by rewrite decide_False.
Qed.

(** ** The tiered dedup index *)

(** The xorf crate: a filter built from keys has no false negatives. *)
Class Xor8 := {
  xor_filter : Type;
  xor_build : list Z -> option xor_filter;
  xor_contains : xor_filter -> Z -> bool;
  xor_no_false_negative : forall keys f k,
    xor_build keys = Some f -> k ∈ keys -> xor_contains f k = true;
}.

(** The exact filter, and an instance of the class. *)
#[export] Program Instance exact_xor8 : Xor8 := {|
  xor_filter := list Z;
  xor_build := Some;
  xor_contains := fun f k => existsb (Z.eqb k) f;
|}.
Next Obligation.
  intros keys f k [= <-] Hin. apply existsb_exists. exists k.
  split; [by apply list_elem_of_In|apply Z.eqb_refl].
Qed.

Definition chunk_id_to_u64 (id : ChunkId) : Z := le_value (slice 0 8 (chunk_bytes id)).

Section Tiered.
Context `{Xor8}.

Definition build_xor_filter_from_keys (keys : list Z) : option xor_filter :=
  if (length keys =? 0)%nat then None else xor_build keys.

Definition iter_u64_keys (c : MmapCache) : list Z :=
  let data := drop HEADER_SIZE (mmap c) in
  (fun i => le_value (slice (i * ENTRY_SIZE) 8 data)) <$> seq 0 (Z.to_nat (entry_count c)).

Record TieredDedupIndex := mkTiered {
  t_filter : option xor_filter;
  t_cache : MmapCache;
  session_new : gmap ChunkId Z;
}.

Definition tiered_new (c : MmapCache) : TieredDedupIndex :=
  mkTiered (build_xor_filter_from_keys (iter_u64_keys c)) c ∅.

Definition tiered_get_stored_size (t : TieredDedupIndex) (id : ChunkId) : option Z :=
  match session_new t !! id with
  | Some size => Some size
  | None =>
      match t_filter t with
      | Some f =>
          if negb (xor_contains f (chunk_id_to_u64 id)) then None
          else dedup_get_stored_size (t_cache t) id
      | None => dedup_get_stored_size (t_cache t) id
      end
  end.

Definition get_stored_size_skip_filter (t : TieredDedupIndex) (id : ChunkId) : option Z :=
  match session_new t !! id with
  | Some size => Some size
  | None => dedup_get_stored_size (t_cache t) id
  end.

Definition session_new_stored_size (t : TieredDedupIndex) (id : ChunkId) : option Z :=
  session_new t !! id.

Definition tiered_insert (id : ChunkId) (size : Z) (t : TieredDedupIndex) : TieredDedupIndex :=
  mkTiered (t_filter t) (t_cache t) (<[id := size]> (session_new t)).
Definition tiered_remove (id : ChunkId) (t : TieredDedupIndex) : TieredDedupIndex :=
  mkTiered (t_filter t) (t_cache t) (delete id (session_new t)).

(** Insertions and removals of a session. *)
Inductive tiered_op := TInsert (id : ChunkId) (size : Z) | TRemove (id : ChunkId).
Definition tiered_step (t : TieredDedupIndex) (o : tiered_op) : TieredDedupIndex :=
  match o with TInsert id size => tiered_insert id size t | TRemove id => tiered_remove id t end.

Lemma tiered_steps_const ops t :
  t_filter (foldl tiered_step t ops) = t_filter t /\ t_cache (foldl tiered_step t ops) = t_cache t.
Proof.
  revert t. induction ops as [|o ops IH]; intros t; simpl; [done|].
  destruct (IH (tiered_step t o)) as [-> ->]. by destruct o.
Qed.

(** Every chunk of the index passes the filter. *)
Lemma filter_has_index ix generation id f :
  wf_index ix -> is_Some (ix !! id) ->
  build_xor_filter_from_keys (iter_u64_keys
    (mkMmap (build_dedup_cache_to_path ix generation) (Z.of_nat (size ix)) generation)) = Some f ->
  xor_contains f (chunk_id_to_u64 id) = true.
Proof.
  intros Hwf [e He]. unfold build_xor_filter_from_keys. destruct (_ =? 0)%nat; [done|].
  intros Hb. eapply xor_no_false_negative; [exact Hb|].
  unfold iter_u64_keys. cbn [mmap entry_count]. rewrite Nat2Z.id, build_dedup_table, drop_header by done.
  assert (Hin : dedup_proj (id, e) ∈ table_of fst dedup_proj ix) by (apply elem_of_table_of; eauto).
  apply list_elem_of_lookup in Hin as [i Hi]. apply list_elem_of_fmap. exists i. split.
  - rewrite <- (Nat.add_0_r (i * ENTRY_SIZE)).
    rewrite (slice_table ENTRY_SIZE fst write_dedup_entry _ i (dedup_proj (id, e)) 0 8);
      [|by eapply table_of_ok, Hwf; apply dedup_enc_ok|done|unfold ENTRY_SIZE; lia].
    unfold chunk_id_to_u64, write_dedup_entry. simpl fst.
    destruct (Hwf _ _ He) as ((Hl & _) & _). by rewrite slice_app_l by lia.
  - apply elem_of_seq. apply lookup_lt_Some in Hi. rewrite length_table_of in Hi. lia.
Qed.

Definition tiered_answer (ix : ChunkIndex) (t : TieredDedupIndex) (id : ChunkId) : option Z :=
  match session_new t !! id with
  | Some size => Some size
  | None => stored_size <$> ix !! id
  end.

Lemma tiered_answers ix generation c t id :
  cacheable ix generation ->
  dedup_open_path (build_dedup_cache_to_path ix generation) generation = Some c ->
  t_filter t = t_filter (tiered_new c) -> t_cache t = c ->
  tiered_get_stored_size t id = tiered_answer ix t id /\
  get_stored_size_skip_filter t id = tiered_answer ix t id /\
  (forall f, t_filter t = Some f -> xor_contains f (chunk_id_to_u64 id) = false ->
     session_new_stored_size t id = tiered_answer ix t id).
Proof.
  intros (Hwf & Hsz & Hg & Hg0) Ho Hf Hc. unfold dedup_open_path in Ho. rewrite build_dedup_table in Ho.
  rewrite (open_index_table ENTRY_SIZE fst write_dedup_entry dedup_proj dedup_enc_ok) in Ho by done.
  rewrite decide_True in Ho by done. rewrite <- build_dedup_table in Ho. injection Ho as <-.
  unfold tiered_answer, tiered_get_stored_size, get_stored_size_skip_filter, session_new_stored_size.
  rewrite Hf, Hc. cbn [tiered_new t_filter t_cache]. rewrite dedup_lookup_ok by done.
  destruct (session_new t !! id); [done|].
  destruct (build_xor_filter_from_keys _) as [f|] eqn:Hb; [|done].
  destruct (ix !! id) as [e|] eqn:He; simpl.
  - rewrite (filter_has_index ix generation id f) by eauto. simpl. split; [done|]. split; [done|].
    intros f' [= <-]. rewrite (filter_has_index ix generation id f) by eauto. done.
  - by destruct (negb _).
Qed.

(** The tiered index is transparent: over a cache built from an index, and
    after any insertions and removals of the session, a lookup through the
    filter answers the session's entry if there is one and the index's size
    otherwise; the lookup that skips the filter agrees with it; and when the
    filter misses, the session map alone gives the same answer. *)
Theorem tiered_lookup_transparent ix generation ops id c :
  cacheable ix generation ->
  dedup_open_path (build_dedup_cache_to_path ix generation) generation = Some c ->
  let t := foldl tiered_step (tiered_new c) ops in
  let answer := match session_new t !! id with
                | Some size => Some size
                | None => stored_size <$> ix !! id
                end in
  tiered_get_stored_size t id = answer /\
  get_stored_size_skip_filter t id = answer /\
  (forall f, t_filter t = Some f -> xor_contains f (chunk_id_to_u64 id) = false ->
     session_new_stored_size t id = answer).
Proof.
  intros Hix Ho t answer. destruct (tiered_steps_const ops (tiered_new c)) as [Hf Hc].
  by apply (tiered_answers ix generation c).
Qed.
End Tiered.

(** ** Witnesses *)

Definition ex_delta2 : IndexDelta :=
  bump_refcount (ex_chunk 1) (add_new_entry (ex_chunk 2) 200 (ex_pack 20) 13 3 delta_new).

Lemma mmap_lookup_correct_witness :
  match dedup_open_path (build_dedup_cache_to_path ex_index 7) 7,
        restore_open_path (build_restore_cache_to_path ex_index 7) 7 with
  | Some dc, Some rc =>
      dedup_get_stored_size dc (ex_chunk 1) = Some 100 /\
      restore_lookup rc (ex_chunk 1) = Some (ex_pack 10, 13, 100) /\
      restore_lookup rc (ex_chunk 9) = None
  | _, _ => False
  end.
Proof.
  assert (Hc : cacheable ex_index 7) by by_eval.
  pose proof (mmap_lookup_correct ex_index 7 7 Hc) as Hm.
  destruct (dedup_open_path _ 7), (restore_open_path _ 7); try done.
  destruct Hm as [_ Hm]. destruct (Hm (ex_chunk 1)) as [-> ->]. destruct (Hm (ex_chunk 9)) as [_ ->].
  split; [|split]; vm_compute; reflexivity.
Defined.

Lemma full_cache_round_trip_witness :
  load_chunk_index_from_full_cache_path (build_full_index_cache_to_path ex_index 7) 7 = Ok ex_index.
Proof. apply (full_cache_round_trip ex_index 7); by_eval. Defined.

Lemma merge_equals_rebuild_witness :
  exists old, full_open_path (build_full_index_cache_to_path ex_index 7) 7 = Some old /\
    merge_full_index_cache old ex_delta2 8 =
    build_full_index_cache_to_path (apply_to ex_delta2 ex_index) 8.
Proof.
  eexists. split; [vm_compute; reflexivity|].
  apply (merge_equals_rebuild ex_index ex_delta2 7 8); [by_eval|by_eval|by_eval|].
  vm_compute. reflexivity.
Defined.

Lemma derived_caches_equal_witness :
  build_dedup_cache_from_full_cache (build_full_index_cache_to_path ex_index 7) 7 =
  Ok (build_dedup_cache_to_path ex_index 7).
Proof. apply (derived_caches_equal ex_index 7). by_eval. Defined.

Lemma tiered_lookup_transparent_witness :
  exists c, dedup_open_path (build_dedup_cache_to_path ex_index 7) 7 = Some c /\
    tiered_get_stored_size (tiered_insert (ex_chunk 5) 55 (tiered_new c)) (ex_chunk 1) = Some 100 /\
    tiered_get_stored_size (tiered_insert (ex_chunk 5) 55 (tiered_new c)) (ex_chunk 5) = Some 55.
Proof.
  assert (Hc : cacheable ex_index 7) by by_eval.
  destruct (dedup_open_path (build_dedup_cache_to_path ex_index 7) 7) as [c|] eqn:Ho;
    [|vm_compute in Ho; discriminate Ho].
  exists c. split; [reflexivity|].
  destruct (tiered_lookup_transparent ex_index 7 [TInsert (ex_chunk 5) 55] (ex_chunk 1) c Hc Ho)
    as [E1 _].
  destruct (tiered_lookup_transparent ex_index 7 [TInsert (ex_chunk 5) 55] (ex_chunk 5) c Hc Ho)
    as [E5 _].
  split; [exact E1|exact E5].
Defined.
