(* ===== verification/Retention.v ===== *)
(** * Snapshots and retention (crates/vykar-core/src/repo/manifest.rs, src/prune.rs)

    [Manifest] is the list of snapshots a client sees; [apply_policy] and
    [apply_policy_by_label] decide which of them a prune keeps.  Times are
    seconds as [Z]; the calendar of the chrono crate, which names the hour,
    day, week, month and year of a time, is third-party code: the class
    [Calendar].  The numbered reason texts are pairs of rule and number. *)

From S2P Require Import Prelude Types.
#[local] Open Scope string_scope.
#[local] Open Scope list_scope.
#[local] Open Scope Z_scope.

(** ** Manifest *)

Record SnapshotEntry := mkSnapshot {
  snap_name : string;
  snap_id : SnapshotId;
  snap_time : Z;
  source_label : string;
  snap_label : string;
  source_paths : list string;
  hostname : string;
}.
#[export] Instance SnapshotEntry_eq_dec : EqDecision SnapshotEntry.
Proof. solve_decision. Defined.

Abbreviation Manifest := (list SnapshotEntry).

Definition find_snapshot (m : Manifest) (name : string) : option SnapshotEntry :=
  List.find (fun s => String.eqb (snap_name s) name) m.

Definition to_lower (a : ascii) : ascii :=
  let n := Ascii.nat_of_ascii a in
  if ((65 <=? n) && (n <=? 90))%nat then Ascii.ascii_of_nat (n + 32) else a.
Fixpoint eq_ignore_ascii_case (s t : string) : bool :=
  match s, t with
  | EmptyString, EmptyString => true
  | String a s', String b t' => Ascii.eqb (to_lower a) (to_lower b) && eq_ignore_ascii_case s' t'
  | _, _ => false
  end.

(** [Iterator::max_by_key]: the last of the greatest. *)
Definition latest_snapshot (m : Manifest) : option SnapshotEntry :=
  foldl (fun best s =>
    match best with
    | None => Some s
    | Some b => if snap_time b <=? snap_time s then Some s else Some b
    end) None m.

Definition resolve_snapshot (m : Manifest) (query : string) : res SnapshotEntry :=
  if eq_ignore_ascii_case query "latest" then
    ok_or (latest_snapshot m) (SnapshotNotFound "latest")
  else ok_or (find_snapshot m query) (SnapshotNotFound query).

(** [Vec::remove] at the first position with that name. *)
Fixpoint remove_snapshot (m : Manifest) (name : string) : option SnapshotEntry * Manifest :=
  match m with
  | [] => (None, [])
  | s :: m' =>
      if String.eqb (snap_name s) name then (Some s, m')
      else let '(r, m'') := remove_snapshot m' name in (r, s :: m'')
  end.

(** ** Policies *)

Record RetentionConfig := mkRetention {
  keep_within : option string;
  keep_last : option nat;
  keep_hourly : option nat;
  keep_daily : option nat;
  keep_weekly : option nat;
  keep_monthly : option nat;
  keep_yearly : option nat;
}.

Definition is_some {A} (o : option A) : bool := match o with Some _ => true | None => false end.

Definition has_any_rule (p : RetentionConfig) : bool :=
  is_some (keep_within p) || is_some (keep_last p) || is_some (keep_hourly p)
  || is_some (keep_daily p) || is_some (keep_weekly p) || is_some (keep_monthly p)
  || is_some (keep_yearly p).

(** *** Durations *)

Definition i64_ok (z : Z) : bool := (- 2 ^ 63 <=? z) && (z <? 2 ^ 63).

(** [str::parse::<i64>]: an optional sign, at least one digit, in range. *)
Definition parse_i64 (s : string) : option Z :=
  let '(neg, digits) :=
    match s with
    | String "-" s' => (true, s')
    | String "+" s' => (false, s')
    | _ => (false, s)
    end in
  match digits with
  | EmptyString => None
  | _ =>
      n ← parse_digits 0 digits;
      let z := if neg : bool then - n else n in
      if i64_ok z then Some z else None
  end.

(** [str::trim] on ASCII white space. *)
Definition is_space (a : ascii) : bool :=
  let n := Ascii.nat_of_ascii a in (n =? 32)%nat || ((9 <=? n) && (n <=? 13))%nat.
Fixpoint trim_left (s : string) : string :=
  match s with
  | String a s' => if is_space a then trim_left s' else s
  | EmptyString => EmptyString
  end.
Fixpoint trim_right (s : string) : string :=
  match s with
  | EmptyString => EmptyString
  | String a s' =>
      match trim_right s' with
      | EmptyString => if is_space a then EmptyString else String a EmptyString
      | t => String a t
      end
  end.
Definition trim (s : string) : string := trim_right (trim_left s).

(** The leading digits and the rest. *)
Fixpoint span_digits (s : string) : string * string :=
  match s with
  | String a s' =>
      if is_digit a then let '(d, r) := span_digits s' in (String a d, r) else (EmptyString, s)
  | EmptyString => (EmptyString, EmptyString)
  end.

(** [chrono::Duration]s in seconds: the constructors panic outside the range
    of i64 milliseconds, which is the error [overflow]. *)
Definition overflow : VykarError := Other "panic: TimeDelta out of bounds".
Definition duration_secs (secs : Z) : res Z :=
  if Z.abs (secs * 1000) <? 2 ^ 63 then Ok secs else Err overflow.
Definition i64_wrap (z : Z) : Z := (z + 2 ^ 63) mod 2 ^ 64 - 2 ^ 63.

Definition parse_timespan (s0 : string) : res Z :=
  let s := trim s0 in
  if String.eqb s "" then Err (ConfigError "empty duration string")
  else
    match parse_i64 s with
    | Some n => duration_secs (n * 86400)
    | None =>
        match span_digits s with
        | (_, EmptyString) => Err (ConfigError "invalid duration")
        | (num_str, suffix) =>
            n ← ok_or (parse_i64 num_str) (ConfigError "invalid duration number");
            if String.eqb suffix "h" || String.eqb suffix "H" then duration_secs (n * 3600)
            else if String.eqb suffix "d" || String.eqb suffix "D" then duration_secs (n * 86400)
            else if String.eqb suffix "w" || String.eqb suffix "W" then duration_secs (n * 604800)
            else if String.eqb suffix "m" || String.eqb suffix "M" then
              duration_secs (i64_wrap (n * 30) * 86400)
            else if String.eqb suffix "y" || String.eqb suffix "Y" then
              duration_secs (i64_wrap (n * 365) * 86400)
            else Err (ConfigError "unknown duration suffix")
        end
    end.

(** *** Buckets *)

Class Calendar := {
  cal_year : Z -> Z;
  cal_ordinal : Z -> Z;
  cal_hour : Z -> Z;
  cal_iso_year : Z -> Z;
  cal_iso_week : Z -> Z;
  cal_month : Z -> Z;
}.

(** A calendar of 360-day years, for the witnesses. *)
#[export] Instance toy_calendar : Calendar := {|
  cal_year := fun t => t / (360 * 86400);
  cal_ordinal := fun t => t / 86400 mod 360;
  cal_hour := fun t => t / 3600 mod 24;
  cal_iso_year := fun t => t / (357 * 86400);
  cal_iso_week := fun t => t / 604800 mod 51;
  cal_month := fun t => t / (30 * 86400) mod 12;
|}.

Definition reason : Type := string * Z.

Inductive PruneDecision := Keep (reasons : list reason) | Prune.

Record PruneEntry := mkPruneEntry {
  pe_name : string;
  pe_time : Z;
  pe_decision : PruneDecision;
}.

(** The two collections the rules fill. *)
Record kept_state := mkKept { kept : gset nat; reasons : gmap nat (list reason) }.

(** [reasons.entry(idx).or_default().push(r)]. *)
Definition push_reason (idx : nat) (r : reason) (m : gmap nat (list reason)) : gmap nat (list reason) :=
  <[idx := default [] (m !! idx) ++ [r]]> m.

Definition keep_idx (idx : nat) (r : reason) (st : kept_state) : kept_state :=
  mkKept ({[idx]} ∪ kept st) (push_reason idx r (reasons st)).

Definition time_at (times : list Z) (idx : nat) : Z := nth idx times 0.

Section Buckets.
Context {K : Type} `{Countable K} (times : list Z) (max_buckets : nat) (key_fn : Z -> K) (rule : string).

(** The loop of [apply_bucket_rule] with its early exit. *)
Fixpoint bucket_loop (indices : list nat) (seen : gset K) (kept_count : nat) (st : kept_state) : kept_state :=
  match indices with
  | [] => st
  | idx :: rest =>
      let bucket := key_fn (time_at times idx) in
      if decide (bucket ∈ seen) then bucket_loop rest seen kept_count st
      else
        let seen := {[bucket]} ∪ seen in
        let '(st, kept_count) :=
          if decide (idx ∈ kept st) then
            (mkKept (kept st) (push_reason idx (rule, Z.of_nat kept_count + 1) (reasons st)),
             S kept_count)
          else if (kept_count <? max_buckets)%nat then
            (keep_idx idx (rule, Z.of_nat kept_count + 1) st, S kept_count)
          else (st, kept_count) in
        if (max_buckets <=? kept_count)%nat then st else bucket_loop rest seen kept_count st
  end.

Definition apply_bucket_rule (indices : list nat) (st : kept_state) : kept_state :=
  bucket_loop indices ∅ 0 st.

(** Specification: the first index of every bucket, in order. *)
Fixpoint bucket_firsts (indices : list nat) (seen : gset K) : list nat :=
  match indices with
  | [] => []
  | idx :: rest =>
      let bucket := key_fn (time_at times idx) in
      if decide (bucket ∈ seen) then bucket_firsts rest seen
      else idx :: bucket_firsts rest ({[bucket]} ∪ seen)
  end.

Lemma bucket_loop_kept indices seen kc st :
  (kc < max_buckets)%nat ->
  kept (bucket_loop indices seen kc st) =
    kept st ∪ list_to_set (take (max_buckets - kc) (bucket_firsts indices seen)).
Proof.
  revert seen kc st. induction indices as [|idx rest IH]; intros seen kc st Hkc; simpl.
  { rewrite take_nil. set_solver. }
  destruct (decide (key_fn (time_at times idx) ∈ seen)) as [|Hns]; [by apply IH|].
  replace (max_buckets - kc)%nat with (S (max_buckets - S kc)) by lia. simpl.
  destruct (decide (idx ∈ kept st)) as [Hk|Hk].
  - destruct (Nat.leb_spec max_buckets (S kc)).
    + replace (max_buckets - S kc)%nat with 0%nat by lia. simpl. set_solver.
    + rewrite IH by lia. simpl. set_solver.
  - destruct (Nat.ltb_spec kc max_buckets); [|lia].
    destruct (Nat.leb_spec max_buckets (S kc)).
    + replace (max_buckets - S kc)%nat with 0%nat by lia. simpl. set_solver.
    + rewrite IH by lia. simpl. set_solver.
Qed.

Lemma apply_bucket_rule_kept indices st :
  kept (apply_bucket_rule indices st) =
    kept st ∪ list_to_set (take max_buckets (bucket_firsts indices ∅)).
Proof.
  unfold apply_bucket_rule. destruct (decide (max_buckets = 0)%nat) as [E|].
  - destruct indices as [|idx rest]; simpl; [rewrite take_nil; set_solver|].
    rewrite decide_False by set_solver. rewrite E. simpl. destruct (decide _); simpl; set_solver.
  - rewrite bucket_loop_kept by lia. by rewrite Nat.sub_0_r.
Qed.
End Buckets.

(** ** The policy *)

(** Indices, newest first; the sort is stable. *)
Definition newest_first (snaps : list SnapshotEntry) : list nat :=
  let times := snap_time <$> snaps in
  sort_by (fun a b => time_at times b <=? time_at times a) (seq 0 (length snaps)).

Definition within_loop (times : list Z) (cutoff : Z) (indices : list nat) (st : kept_state) : kept_state :=
  foldl (fun st idx =>
    if cutoff <=? time_at times idx then keep_idx idx ("within", 0) st else st) st indices.

(** The loop over [indices.iter().enumerate()] from position [i]. *)
Fixpoint last_loop (n i : nat) (indices : list nat) (st : kept_state) : kept_state :=
  match indices with
  | [] => st
  | idx :: rest =>
      if (n <=? i)%nat then st
      else last_loop n (S i) rest (keep_idx idx ("last", Z.of_nat i + 1) st)
  end.

Section Policy.
Context `{Calendar}.

Definition hourly_key (t : Z) : Z * Z * Z := (cal_year t, cal_ordinal t, cal_hour t).
Definition daily_key (t : Z) : Z * Z := (cal_year t, cal_ordinal t).
Definition weekly_key (t : Z) : Z * Z := (cal_iso_year t, cal_iso_week t).
Definition monthly_key (t : Z) : Z * Z := (cal_year t, cal_month t).
Definition yearly_key (t : Z) : Z := cal_year t.

Definition optional {A} (o : option A) (f : A -> kept_state -> kept_state) (st : kept_state) : kept_state :=
  match o with Some a => f a st | None => st end.

(** The kept indices and their reasons after all the rules. *)
Definition run_rules (snaps : list SnapshotEntry) (p : RetentionConfig) (now : Z) : res kept_state :=
  let indices := newest_first snaps in
  let times := snap_time <$> snaps in
  let st0 := mkKept ∅ ∅ in
  st1 ← match keep_within p with
        | Some s => dur ← parse_timespan s; mret (within_loop times (now - dur) indices st0)
        | None => mret st0
        end;
  let st2 := optional (keep_last p) (fun n => last_loop n 0 indices) st1 in
  let st3 := optional (keep_hourly p) (fun n => apply_bucket_rule times n hourly_key "hourly" indices) st2 in
  let st4 := optional (keep_daily p) (fun n => apply_bucket_rule times n daily_key "daily" indices) st3 in
  let st5 := optional (keep_weekly p) (fun n => apply_bucket_rule times n weekly_key "weekly" indices) st4 in
  let st6 := optional (keep_monthly p) (fun n => apply_bucket_rule times n monthly_key "monthly" indices) st5 in
  let st7 := optional (keep_yearly p) (fun n => apply_bucket_rule times n yearly_key "yearly" indices) st6 in
  mret st7.

Definition decide_entry (snaps : list SnapshotEntry) (rs : gmap nat (list reason)) (idx : nat) : PruneEntry :=
  let d := match rs !! idx with Some r => Keep r | None => Prune end in
  match snaps !! idx with
  | Some s => mkPruneEntry (snap_name s) (snap_time s) d
  | None => mkPruneEntry "" 0 d
  end.

Definition apply_policy (snaps : list SnapshotEntry) (p : RetentionConfig) (now : Z) : res (list PruneEntry) :=
  if (length snaps =? 0)%nat then Ok []
  else
    st ← run_rules snaps p now;
    let prune_count := (length snaps - size (kept st))%nat in
    if (prune_count =? length snaps)%nat then
      Err (Other "refusing to prune: policy would remove ALL snapshots")
    else mret (decide_entry snaps (reasons st) <$> newest_first snaps).

(** ** Per-label policies *)

(** [BTreeMap::entry(label).or_default().push(i)]. *)
Fixpoint group_push (label : string) (i : nat) (groups : list (string * list nat)) : list (string * list nat) :=
  match groups with
  | [] => [(label, [i])]
  | (l, is_) :: rest =>
      match bytes_cmp (str_bytes label) (str_bytes l) with
      | Eq => (l, is_ ++ [i]) :: rest
      | Lt => (label, [i]) :: (l, is_) :: rest
      | Gt => (l, is_) :: group_push label i rest
      end
  end.

Fixpoint group_from (i : nat) (snaps : list SnapshotEntry) (groups : list (string * list nat)) :
    list (string * list nat) :=
  match snaps with
  | [] => groups
  | s :: rest => group_from (S i) rest (group_push (source_label s) i groups)
  end.

Definition keep_all (s : SnapshotEntry) : PruneEntry :=
  mkPruneEntry (snap_name s) (snap_time s) (Keep [("no policy", 0)]).

Definition group_entries (snaps : list SnapshotEntry) (default_retention : RetentionConfig)
    (source_retentions : gmap string RetentionConfig) (now : Z) (g : string * list nat) : res (list PruneEntry) :=
  let group_snapshots := omap (snaps !!.) g.2 in
  let policy := default default_retention (source_retentions !! g.1) in
  if negb (has_any_rule policy) then Ok (keep_all <$> group_snapshots)
  else apply_policy group_snapshots policy now.

Fixpoint all_groups (f : string * list nat -> res (list PruneEntry)) (gs : list (string * list nat)) :
    res (list PruneEntry) :=
  match gs with
  | [] => Ok []
  | g :: gs' => es ← f g; rest ← all_groups f gs'; mret (es ++ rest)
  end.

Definition apply_policy_by_label (snaps : list SnapshotEntry) (default_retention : RetentionConfig)
    (source_retentions : gmap string RetentionConfig) (now : Z) : res (list PruneEntry) :=
  let groups := group_from 0 snaps [] in
  all_entries ← all_groups (group_entries snaps default_retention source_retentions now) groups;
  mret (sort_by (fun a b => pe_time b <=? pe_time a) all_entries).
End Policy.

(** ** Specification and laws *)

Definition is_keep (d : PruneDecision) : bool := match d with Keep _ => true | Prune => false end.

(** What a bucket rule asks for: the newest snapshot of each of the [n] newest
    buckets. *)
Definition rule_keeps {K} `{Countable K} (snaps : list SnapshotEntry) (n : option nat)
    (key_fn : Z -> K) (idx : nat) : Prop :=
  match n with
  | Some n => idx ∈ take n (bucket_firsts (snap_time <$> snaps) key_fn (newest_first snaps) ∅)
  | None => False
  end.

Definition in_policy `{Calendar} (snaps : list SnapshotEntry) (p : RetentionConfig) (now : Z) (idx : nat) : Prop :=
  (exists s dur, keep_within p = Some s /\ parse_timespan s = Ok dur /\
     idx ∈ newest_first snaps /\ now - dur <= time_at (snap_time <$> snaps) idx) \/
  (exists n, keep_last p = Some n /\ idx ∈ take n (newest_first snaps)) \/
  rule_keeps snaps (keep_hourly p) hourly_key idx \/ rule_keeps snaps (keep_daily p) daily_key idx \/
  rule_keeps snaps (keep_weekly p) weekly_key idx \/ rule_keeps snaps (keep_monthly p) monthly_key idx \/
  rule_keeps snaps (keep_yearly p) yearly_key idx.

(** Reasons are recorded exactly for the kept indices. *)
Definition consistent (st : kept_state) : Prop := dom (reasons st) = kept st.

Lemma dom_push_reason idx r m : dom (push_reason idx r m) = {[idx]} ∪ dom m.
Proof. unfold push_reason. apply dom_insert_L. Qed.

Lemma keep_idx_consistent idx r st : consistent st -> consistent (keep_idx idx r st).
Proof. unfold consistent, keep_idx. simpl. rewrite dom_push_reason. by intros ->. Qed.

Lemma within_loop_spec times cutoff indices st :
  consistent st ->
  consistent (within_loop times cutoff indices st) /\
  forall idx, idx ∈ kept (within_loop times cutoff indices st) <->
    idx ∈ kept st \/ (idx ∈ indices /\ cutoff <= time_at times idx).
Proof.
  unfold within_loop. revert st. induction indices as [|i rest IH]; intros st Hst; simpl.
  { split; [done|]. set_solver. }
  destruct (Z.leb_spec cutoff (time_at times i)).
  - destruct (IH (keep_idx i ("within", 0) st)) as [Hc Hk]; [by apply keep_idx_consistent|].
    split; [done|]. intros idx. rewrite Hk. simpl. set_solver.
  - destruct (IH st Hst) as [Hc Hk]. split; [done|]. intros idx. rewrite Hk.
    rewrite elem_of_cons. intuition (subst; lia || eauto).
Qed.

Lemma last_loop_spec n i indices st :
  consistent st ->
  consistent (last_loop n i indices st) /\
  kept (last_loop n i indices st) = kept st ∪ list_to_set (take (n - i) indices).
Proof.
  revert i st. induction indices as [|idx rest IH]; intros i st Hst; simpl.
  { rewrite take_nil. split; [done|set_solver]. }
  destruct (Nat.leb_spec n i).
  - replace (n - i)%nat with 0%nat by lia. split; [done|]. simpl. set_solver.
  - destruct (IH (S i) (keep_idx idx ("last", Z.of_nat i + 1) st)) as [Hc Hk];
      [by apply keep_idx_consistent|].
    split; [done|]. rewrite Hk. replace (n - i)%nat with (S (n - S i)) by lia. simpl. set_solver.
Qed.

Lemma bucket_rule_consistent {K} `{Countable K} times n (key_fn : Z -> K) rule indices st :
  consistent st -> consistent (apply_bucket_rule times n key_fn rule indices st).
Proof.
  unfold apply_bucket_rule. generalize (∅ : gset K), 0%nat. revert st.
  induction indices as [|idx rest IH]; intros st seen kc Hst; simpl; [done|].
  destruct (decide _); [by apply IH|].
  destruct (decide (idx ∈ kept st)) as [Hk|Hk].
  - assert (consistent (mkKept (kept st) (push_reason idx (rule, Z.of_nat kc + 1) (reasons st)))).
    { unfold consistent in *. simpl. rewrite dom_push_reason. set_solver. }
    destruct (_ <=? _)%nat; [done|by apply IH].
  - destruct (_ <? _)%nat.
    + destruct (_ <=? _)%nat; [|apply IH]; by apply keep_idx_consistent.
    + destruct (_ <=? _)%nat; [done|by apply IH].
Qed.

(** One optional bucket rule. *)
Lemma optional_rule_spec {K} `{Countable K} snaps n (key_fn : Z -> K) rule st :
  consistent st ->
  let st' := optional n (fun n => apply_bucket_rule (snap_time <$> snaps) n key_fn rule
                                    (newest_first snaps)) st in
  consistent st' /\ forall idx, idx ∈ kept st' <-> idx ∈ kept st \/ rule_keeps snaps n key_fn idx.
Proof.
  intros Hst. destruct n as [n|]; simpl; [|tauto]. split; [by apply bucket_rule_consistent|].
  intros idx. rewrite apply_bucket_rule_kept. set_solver.
Qed.

Lemma run_rules_spec `{Calendar} snaps p now st :
  run_rules snaps p now = Ok st ->
  consistent st /\ forall idx, idx ∈ kept st <-> in_policy snaps p now idx.
Proof.
  unfold run_rules. intros Hr. apply bind_Ok in Hr as (st1 & H1 & Hst).
  assert (Hw : consistent st1 /\ forall idx, idx ∈ kept st1 <->
    exists s dur, keep_within p = Some s /\ parse_timespan s = Ok dur /\
      idx ∈ newest_first snaps /\ now - dur <= time_at (snap_time <$> snaps) idx).
  { destruct (keep_within p) as [s|] eqn:Ew.
    - apply bind_Ok in H1 as (dur & Hd & H1). apply (inj Ok) in H1 as <-.
      destruct (within_loop_spec (snap_time <$> snaps) (now - dur) (newest_first snaps) (mkKept ∅ ∅))
        as [Hc Hk]; [unfold consistent; simpl; apply dom_empty_L|].
      split; [done|]. intros idx. rewrite Hk. simpl. split.
      + intros [?|[? ?]]; [set_solver|]. eauto 10.
      + intros (s' & d' & [= <-] & Hd' & Hin & Hle). rewrite Hd in Hd'. apply (inj Ok) in Hd' as <-. auto.
    - apply (inj Ok) in H1 as <-. split; [unfold consistent; simpl; apply dom_empty_L|].
      intros idx. simpl. split; [set_solver|]. by intros (? & ? & ? & _). }
  destruct Hw as [Hc1 Hk1].
  set (st2 := optional (keep_last p) (fun n => last_loop n 0 (newest_first snaps)) st1) in *.
  assert (H2 : consistent st2 /\ forall idx, idx ∈ kept st2 <-> idx ∈ kept st1 \/
    exists n, keep_last p = Some n /\ idx ∈ take n (newest_first snaps)).
  { unfold st2. destruct (keep_last p) as [n|]; simpl; [|split; [done|naive_solver]].
    destruct (last_loop_spec n 0 (newest_first snaps) st1 Hc1) as [Hc Hk]. split; [done|].
    intros idx. rewrite Hk, Nat.sub_0_r. set_solver. }
  destruct H2 as [Hc2 Hk2]. apply (inj Ok) in Hst as <-.
  destruct (optional_rule_spec snaps (keep_hourly p) hourly_key "hourly" _ Hc2) as [Hc3 Hk3].
  destruct (optional_rule_spec snaps (keep_daily p) daily_key "daily" _ Hc3) as [Hc4 Hk4].
  destruct (optional_rule_spec snaps (keep_weekly p) weekly_key "weekly" _ Hc4) as [Hc5 Hk5].
  destruct (optional_rule_spec snaps (keep_monthly p) monthly_key "monthly" _ Hc5) as [Hc6 Hk6].
  destruct (optional_rule_spec snaps (keep_yearly p) yearly_key "yearly" _ Hc6) as [Hc7 Hk7].
  split; [exact Hc7|]. intros idx. rewrite Hk7, Hk6, Hk5, Hk4, Hk3, Hk2, Hk1.
  unfold in_policy. tauto.
Qed.

Lemma newest_first_perm snaps : newest_first snaps ≡ₚ seq 0 (length snaps).
Proof. apply sort_by_perm. Qed.



(** Entries stand for snapshots: same name and time. *)
Definition stands_for (s : SnapshotEntry) (e : PruneEntry) : Prop :=
  pe_name e = snap_name s /\ pe_time e = snap_time s.

Lemma decide_entry_ok snaps rs idx :
  (idx < length snaps)%nat ->
  exists s, snaps !! idx = Some s /\ stands_for s (decide_entry snaps rs idx) /\
    is_keep (pe_decision (decide_entry snaps rs idx)) = bool_decide (idx ∈ dom rs).
Proof.
  intros Hi. destruct (lookup_lt_is_Some_2 snaps idx Hi) as [s Hs]. exists s.
  unfold decide_entry, stands_for. rewrite Hs. simpl. split_and!; [done..|].
  destruct (rs !! idx) eqn:E; simpl; symmetry.
  - apply bool_decide_eq_true, elem_of_dom. eauto.
  - apply bool_decide_eq_false. by apply not_elem_of_dom.
Qed.

(** What a successful answer consists of. *)
Lemma apply_policy_inv `{Calendar} snaps p now es :
  snaps <> [] -> apply_policy snaps p now = Ok es ->
  exists st, run_rules snaps p now = Ok st /\ es = decide_entry snaps (reasons st) <$> newest_first snaps /\
    (length snaps - size (kept st) <> length snaps)%nat.
Proof.
  unfold apply_policy. intros Hne Hp. destruct (Nat.eqb_spec (length snaps) 0) as [E|].
  { by apply length_zero_iff_nil in E. }
  apply bind_Ok in Hp as (st & Hst & Hp).
  destruct (Nat.eqb_spec (length snaps - size (kept st)) (length snaps)); [done|].
  apply (inj Ok) in Hp as <-. eauto.
Qed.

Lemma newest_first_lt snaps idx : idx ∈ newest_first snaps -> (idx < length snaps)%nat.
Proof. rewrite newest_first_perm, elem_of_seq. lia. Qed.

Lemma apply_policy_answers `{Calendar} snaps p now es :
  apply_policy snaps p now = Ok es ->
  Forall2 (fun idx e => exists s, snaps !! idx = Some s /\ stands_for s e /\
             (is_keep (pe_decision e) = true <-> in_policy snaps p now idx))
    (newest_first snaps) es.
Proof.
  intros Hp. destruct (decide (snaps = [])) as [->|Hne].
  { apply (inj Ok) in Hp as <-. constructor. }
  destruct (apply_policy_inv snaps p now es Hne Hp) as (st & Hst & -> & _).
  destruct (run_rules_spec snaps p now st Hst) as [Hc Hk].
  apply Forall2_fmap_r, Forall_Forall2_diag, Forall_forall. intros idx Hin%newest_first_lt.
  destruct (decide_entry_ok snaps (reasons st) idx Hin) as (s & Hs & Hst' & Hkeep).
  exists s. split_and!; [done..|]. rewrite Hkeep, bool_decide_eq_true, <- Hk. unfold consistent in Hc.
  by rewrite Hc.
Qed.



Lemma kept_in_range `{Calendar} snaps p now st idx :
  run_rules snaps p now = Ok st -> idx ∈ kept st -> (idx < length snaps)%nat.
Proof.
  intros Hst. rewrite (proj2 (run_rules_spec snaps p now st Hst)).
  assert (Hin : forall l, l ⊆ newest_first snaps -> idx ∈ l -> (idx < length snaps)%nat).
  { intros l Hl Hi. apply Hl in Hi. rewrite newest_first_perm, elem_of_seq in Hi. lia. }
  assert (Hf : forall K (HE : EqDecision K) (HC : Countable K) (key : Z -> K) l seen,
    bucket_firsts (snap_time <$> snaps) key l seen ⊆ l).
  { intros K HE HC key l. induction l as [|i l IH]; intros seen; simpl; [done|].
    destruct (decide _); set_solver. }
  assert (Hr : forall K (HE : EqDecision K) (HC : Countable K) n (key : Z -> K),
    rule_keeps snaps n key idx -> (idx < length snaps)%nat).
  { intros K HE HC [n|] key; simpl; [|done]. intros Hi%elem_of_take.
    destruct Hi as (j & Hj & _). apply list_elem_of_lookup_2 in Hj. 
    by apply (Hin _ (Hf K HE HC key (newest_first snaps) ∅)). }
  intros [(s & d & _ & _ & Hi & _)|[(n & _ & Hi)|Hrest]].
  - by apply (Hin (newest_first snaps)).
  - apply elem_of_take in Hi as (j & Hj & _). apply list_elem_of_lookup_2 in Hj.
    by apply (Hin (newest_first snaps)).
  - destruct Hrest as [Hi|[Hi|[Hi|[Hi|Hi]]]]; by apply Hr in Hi.
Qed.

Lemma size_kept_le `{Calendar} snaps p now st :
  run_rules snaps p now = Ok st -> (size (kept st) <= length snaps)%nat.
Proof.
  intros Hst. replace (length snaps) with (size (list_to_set (seq 0 (length snaps)) : gset nat))
    by (rewrite size_list_to_set by apply NoDup_seq; apply length_seq).
  apply subseteq_size. intros idx Hin.
  apply elem_of_list_to_set, elem_of_seq. apply (kept_in_range snaps p now st) in Hin; [lia|done].
Qed.

Lemma apply_policy_keeps_one `{Calendar} snaps p now es :
  snaps <> [] -> apply_policy snaps p now = Ok es ->
  exists e, e ∈ es /\ is_keep (pe_decision e) = true.
Proof.
  intros Hne Hp. destruct (apply_policy_inv snaps p now es Hne Hp) as (st & Hst & -> & Hsz).
  destruct (run_rules_spec snaps p now st Hst) as [Hc _].
  assert (exists idx, idx ∈ kept st) as [idx Hin].
  { apply set_choose_L. intros H0. rewrite H0, size_empty in Hsz. lia. }
  pose proof (kept_in_range snaps p now st idx Hst Hin) as Hlt.
  exists (decide_entry snaps (reasons st) idx). split.
  - apply list_elem_of_fmap. exists idx. split; [done|]. rewrite newest_first_perm, elem_of_seq. lia.
  - destruct (decide_entry_ok snaps (reasons st) idx Hlt) as (s & _ & _ & ->).
    apply bool_decide_eq_true. unfold consistent in Hc. by rewrite Hc.
Qed.

(** A prune never empties a repository: when there are snapshots and the
    policy parses, the answer either keeps at least one of them or is the
    error that refuses to prune, and it is that error iff the policy keeps
    nothing. *)
Theorem apply_policy_never_empties `{Calendar} snaps p now st :
  snaps <> [] -> run_rules snaps p now = Ok st ->
  match apply_policy snaps p now with
  | Ok es => exists e, e ∈ es /\ is_keep (pe_decision e) = true
  | Err e => e = Other "refusing to prune: policy would remove ALL snapshots" /\
             forall idx, ~ in_policy snaps p now idx
  end.
Proof.
  intros Hne Hst. destruct (apply_policy snaps p now) as [es|err] eqn:Hp.
  { by apply (apply_policy_keeps_one snaps p now). }
  unfold apply_policy in Hp. destruct (_ =? 0)%nat; [done|]. rewrite Hst in Hp. simpl in Hp.
  destruct (Nat.eqb_spec (length snaps - size (kept st)) (length snaps)) as [E0|]; [|done].
  injection Hp as <-. split; [done|]. pose proof (size_kept_le snaps p now st Hst).
  assert (length snaps <> 0)%nat by (by destruct snaps).
  assert (kept st = ∅) as Hempty by (apply leibniz_equiv, size_empty_inv; lia).
  intros idx. rewrite <- (proj2 (run_rules_spec snaps p now st Hst)), Hempty. set_solver.
Qed.

(** *** Groups *)

Lemma omap_lookup_seq {A} (l : list A) : omap (l !!.) (seq 0 (length l)) = l.
Proof.
  assert (Hgen : forall pre, omap ((pre ++ l) !!.) (seq (length pre) (length l)) = l).
  { induction l as [|x l IH]; intros pre; [done|]. cbn [length seq omap list_omap].
    rewrite lookup_app_r, Nat.sub_diag by done. simpl. f_equal.
    specialize (IH (pre ++ [x])). rewrite <- app_assoc, length_app in IH. simpl in IH.
    by rewrite Nat.add_1_r in IH. }
  apply (Hgen []).
Qed.

#[export] Instance omap_perm {A B} (f : A -> option B) : Proper ((≡ₚ) ==> (≡ₚ)) (omap f).
Proof.
  intros l k. induction 1 as [|x l k _ IH|x y l|l1 l2 l3 _ IH1 _ IH2]; csimpl; [done| | |by etrans].
  - destruct (f x); by rewrite IH.
  - destruct (f x), (f y); try done. apply Permutation_swap.
Qed.

Lemma Forall2_omap {A B} (f : nat -> option A) (R : A -> B -> Prop) is_ es :
  Forall2 (fun i e => exists s, f i = Some s /\ R s e) is_ es -> Forall2 R (omap f is_) es.
Proof.
  induction 1 as [|i e is_ es (s & Hs & Hr) _ IH]; csimpl; [constructor|].
  rewrite Hs. by constructor.
Qed.

(** The answer for a group lists its snapshots and keeps at least one. *)
Definition group_ok (gs : list SnapshotEntry) (es : list PruneEntry) : Prop :=
  (exists ss, ss ≡ₚ gs /\ Forall2 stands_for ss es) /\
  (gs <> [] -> exists s e, s ∈ gs /\ e ∈ es /\ stands_for s e /\ is_keep (pe_decision e) = true).

Lemma Forall2_in_r {A B} (R : A -> B -> Prop) l k y : Forall2 R l k -> y ∈ k -> exists x, x ∈ l /\ R x y.
Proof.
  induction 1 as [|a b l k Hab _ IH]; [set_solver|].
  intros [->|Hy]%elem_of_cons; [set_solver|]. destruct (IH Hy) as (x & ? & ?). set_solver.
Qed.

Lemma apply_policy_group_ok `{Calendar} gs p now es :
  apply_policy gs p now = Ok es -> group_ok gs es.
Proof.
  intros Hp.
  assert (Hss : Forall2 stands_for (omap (gs !!.) (newest_first gs)) es).
  { apply Forall2_omap. eapply Forall2_impl; [by eapply apply_policy_answers|]. naive_solver. }
  assert (Hgs : omap (gs !!.) (newest_first gs) ≡ₚ gs).
  { by rewrite newest_first_perm, omap_lookup_seq. }
  split; [eauto|]. intros Hne.
  destruct (apply_policy_keeps_one gs p now es Hne Hp) as (e & He & Hk).
  destruct (Forall2_in_r _ _ _ e Hss He) as (s & Hs & Hse). rewrite Hgs in Hs. eauto 10.
Qed.

Lemma group_entries_ok `{Calendar} snaps dr srs now g es :
  group_entries snaps dr srs now g = Ok es -> group_ok (omap (snaps !!.) g.2) es.
Proof.
  unfold group_entries. destruct (negb _); [|apply apply_policy_group_ok].
  intros <-%(inj Ok). generalize (omap (snaps !!.) g.2). intros gs. split.
  - exists gs. split; [done|]. apply Forall2_fmap_r, Forall_Forall2_diag, Forall_forall. done.
  - destruct gs as [|s gs]; [done|]. intros _. exists s, (keep_all s). split; [set_solver|].
    split; [apply list_elem_of_here|done].
Qed.

Lemma group_push_perm label i groups :
  concat (group_push label i groups).*2 ≡ₚ i :: concat groups.*2.
Proof.
  induction groups as [|[l is_] groups IH]; csimpl; [done|].
  destruct (bytes_cmp _ _); csimpl.
  - rewrite <- app_assoc. simpl. symmetry. apply Permutation_middle.
  - done.
  - rewrite IH. symmetry. apply Permutation_middle.
Qed.

(** Members of a group carry its label. *)
Definition labelled (snaps : list SnapshotEntry) (g : string * list nat) : Prop :=
  Forall (fun i => exists s, snaps !! i = Some s /\ source_label s = g.1) g.2.

Lemma group_push_labelled snaps s i groups :
  snaps !! i = Some s -> Forall (labelled snaps) groups ->
  Forall (labelled snaps) (group_push (source_label s) i groups).
Proof.
  intros Hs. induction 1 as [|[l is_] groups Hg Hgs IH]; simpl.
  { repeat constructor. eauto. }
  destruct (bytes_cmp _ _) eqn:C.
  - apply bytes_cmp_eq, str_bytes_inj in C. constructor; [|done].
    unfold labelled in *. simpl in *. apply Forall_app. split; [done|]. repeat constructor. eauto.
  - constructor; [|by constructor]. repeat constructor. eauto.
  - by constructor.
Qed.

Lemma group_from_ok pre snaps groups :
  Forall (labelled (pre ++ snaps)) groups -> concat groups.*2 ≡ₚ seq 0 (length pre) ->
  Forall (labelled (pre ++ snaps)) (group_from (length pre) snaps groups) /\
  concat (group_from (length pre) snaps groups).*2 ≡ₚ seq 0 (length (pre ++ snaps)).
Proof.
  revert pre groups. induction snaps as [|s snaps IH]; intros pre groups Hl Hp; simpl.
  { rewrite app_nil_r in *. done. }
  specialize (IH (pre ++ [s]) (group_push (source_label s) (length pre) groups)).
  rewrite <- app_assoc, (length_app pre [s]) in IH. simpl in IH. rewrite Nat.add_1_r in IH.
  apply IH.
  - apply group_push_labelled; [|done]. by rewrite lookup_app_r, Nat.sub_diag.
  - rewrite group_push_perm, Hp, seq_S, Nat.add_0_l. apply Permutation_cons_append.
Qed.

Lemma all_groups_ok `{Calendar} snaps dr srs now gs es :
  all_groups (group_entries snaps dr srs now) gs = Ok es ->
  (exists ss, ss ≡ₚ omap (snaps !!.) (concat gs.*2) /\ Forall2 stands_for ss es) /\
  forall g, g ∈ gs -> omap (snaps !!.) g.2 <> [] ->
    exists s e, s ∈ omap (snaps !!.) g.2 /\ e ∈ es /\ stands_for s e /\ is_keep (pe_decision e) = true.
Proof.
  revert es. induction gs as [|g gs IH]; intros es Hg.
  { apply (inj Ok) in Hg as <-. split; [by exists []|set_solver]. }
  simpl in Hg. apply bind_Ok in Hg as (es1 & H1 & Hg). apply bind_Ok in Hg as (es2 & H2 & Hg).
  apply (inj Ok) in Hg as <-. destruct (IH es2 H2) as [(ss2 & Hp2 & Hf2) Hk2].
  destruct (group_entries_ok snaps dr srs now g es1 H1) as [(ss1 & Hp1 & Hf1) Hk1]. split.
  - exists (ss1 ++ ss2). split; [|by apply Forall2_app]. csimpl. by rewrite omap_app, Hp1, Hp2.
  - intros g' [->|Hin]%elem_of_cons Hne.
    + destruct (Hk1 Hne) as (s & e & ? & ? & ? & ?). exists s, e. set_solver.
    + destruct (Hk2 g' Hin Hne) as (s & e & ? & ? & ? & ?). exists s, e. set_solver.
Qed.

(** Every snapshot is decided once. *)
Lemma policy_by_label_perm `{Calendar} snaps dr srs now es :
  apply_policy_by_label snaps dr srs now = Ok es ->
  exists ss, ss ≡ₚ snaps /\ exists es', es' ≡ₚ es /\ Forall2 stands_for ss es'.
Proof.
  unfold apply_policy_by_label. intros Hp. apply bind_Ok in Hp as (all & Ha & Hp).
  apply (inj Ok) in Hp as <-. destruct (all_groups_ok snaps dr srs now _ all Ha) as [(ss & Hss & Hf) _].
  destruct (group_from_ok [] snaps [] ltac:(constructor) ltac:(done)) as [_ Hperm]. simpl in Hperm.
  exists ss. split; [by rewrite Hss, Hperm, omap_lookup_seq|]. exists all. split; [|done].
  by rewrite sort_by_perm.
Qed.

(** With per-source policies, too, every snapshot is answered for exactly
    once, newest first, and no source loses all its snapshots: for every
    snapshot some snapshot of the same source is kept. *)
Theorem policy_by_label_keeps_each_source `{Calendar} snaps dr srs now es :
  apply_policy_by_label snaps dr srs now = Ok es ->
  (exists ss, ss ≡ₚ snaps /\ exists es', es' ≡ₚ es /\ Forall2 stands_for ss es') /\
  StronglySorted (fun a b => pe_time b <= pe_time a) es /\
  forall s, s ∈ snaps -> exists s' e, s' ∈ snaps /\ source_label s' = source_label s /\
    e ∈ es /\ stands_for s' e /\ is_keep (pe_decision e) = true.
Proof.
  intros Hp. pose proof (policy_by_label_perm _ _ _ _ _ Hp) as Hperms. unfold apply_policy_by_label in Hp.
  apply bind_Ok in Hp as (all & Ha & Hp).
  apply (inj Ok) in Hp as <-. destruct (all_groups_ok snaps dr srs now _ all Ha) as [(ss & Hss & Hf) Hk].
  destruct (group_from_ok [] snaps [] ltac:(constructor) ltac:(done)) as [Hl Hperm]. simpl in Hl, Hperm.
  split_and!; [done| |].
  - eapply StronglySorted_weaken; [|apply sort_by_sorted]; simpl.
    + intros a b. apply Z.leb_le.
    + intros x y. rewrite !Z.leb_le. lia.
    + intros x y z. rewrite !Z.leb_le. lia.
  - intros s Hs. apply list_elem_of_lookup in Hs as [i Hi].
    assert (Hin : i ∈ concat (group_from 0 snaps []).*2).
    { rewrite Hperm, elem_of_seq. apply lookup_lt_Some in Hi. lia. }
    apply list_elem_of_In, in_concat in Hin as (is_ & Hg & Hin%list_elem_of_In).
    apply list_elem_of_In, list_elem_of_fmap in Hg as ([l is'] & -> & Hg). simpl in Hin.
    rewrite Forall_forall in Hl. specialize (Hl _ Hg). unfold labelled in Hl. simpl in Hl.
    rewrite Forall_forall in Hl. destruct (Hl i Hin) as (s0 & Hs0 & Hlab).
    rewrite Hi in Hs0. injection Hs0 as <-.
    destruct (Hk (l, is') Hg) as (s' & e & Hs' & He & Hse & Hkeep).
    { simpl. intros Hnil. assert (Hso : s ∈ omap (snaps !!.) is') by (apply list_elem_of_omap; eauto).
      rewrite Hnil in Hso. set_solver. }
    simpl in Hs'. apply list_elem_of_omap in Hs' as (j & Hj & Hsj).
    destruct (Hl j Hj) as (s2 & Hs2 & Hlab2). rewrite Hsj in Hs2. injection Hs2 as <-.
    exists s', e. split_and!; [by eapply list_elem_of_lookup_2|congruence|by rewrite sort_by_perm|done|done].
Qed.

(** ** Witnesses *)

Definition ex_snap (name : string) (t : Z) (label : string) : SnapshotEntry :=
  mkSnapshot name (mkSnapshotId (id_of_byte t)) t label "" [] "".
Definition ex_policy : RetentionConfig :=
  mkRetention None (Some 1%nat) None (Some 1%nat) None None None.
Definition ex_snaps : list SnapshotEntry :=
  [ex_snap "a" 100 "src"; ex_snap "c" 90000 "src"; ex_snap "b" 200 "other"].


Lemma apply_policy_never_empties_witness :
  match apply_policy ex_snaps ex_policy 100000 with
  | Ok es => exists e, e ∈ es /\ is_keep (pe_decision e) = true
  | Err _ => False
  end.
Proof.
  destruct (run_rules ex_snaps ex_policy 100000) as [st|] eqn:Hst;
    [|vm_compute in Hst; discriminate Hst].
  pose proof (apply_policy_never_empties ex_snaps ex_policy 100000 st ltac:(discriminate) Hst) as Hn.
  destruct (apply_policy ex_snaps ex_policy 100000) as [es|e] eqn:Hp; [exact Hn|].
  vm_compute in Hp. discriminate Hp.
Defined.

Lemma policy_by_label_keeps_each_source_witness :
  exists es, apply_policy_by_label ex_snaps ex_policy ∅ 100000 = Ok es /\
    exists s' e, s' ∈ ex_snaps /\ source_label s' = "other" /\ e ∈ es /\ stands_for s' e /\
      is_keep (pe_decision e) = true.
Proof.
  destruct (apply_policy_by_label ex_snaps ex_policy ∅ 100000) as [es|] eqn:Hp;
    [|vm_compute in Hp; discriminate Hp].
  exists es. split; [reflexivity|].
  apply (policy_by_label_keeps_each_source ex_snaps ex_policy ∅ 100000 es Hp) with
    (s := ex_snap "b" 200 "other"). by_eval.
Defined.

(** The newest snapshot is kept by [keep_last = 1]; its day then uses up the
    one slot of [keep_daily = 1], although the comment on the rule says that a
    snapshot kept already does not: the older day gets no keeper. *)
Example already_kept_uses_a_slot :
  apply_policy [ex_snap "new" 90000 ""; ex_snap "old" 100 ""] ex_policy 100000 =
  Ok [mkPruneEntry "new" 90000 (Keep [("last", 1); ("daily", 1)]); mkPruneEntry "old" 100 Prune].
Proof. vm_compute. reflexivity. Qed.
