(* ===== verification/Lock.v ===== *)
(** * Advisory locks and session markers (crates/vykar-core/src/repo/lock.rs,
      with_repo_lock and with_maintenance_lock of src/commands/util.rs)

    Locks and sessions are objects of the repository's store; the operations
    run in the storage monad.  What a call draws from its surroundings (the
    clock, a random id, the host name and process id) is the record [Env].
    JSON and RFC 3339 are third-party code (serde_json, chrono): classes with
    a round-trip law.  LockProtocol.v treats several clients at once. *)

From stdpp Require Import pretty.
From S2P Require Import Prelude Types Storage.
#[local] Open Scope string_scope.
#[local] Open Scope list_scope.
#[local] Open Scope Z_scope.

(** ** Third-party interfaces *)

Class Json (A : Type) := {
  json_encode : A -> bytes;
  json_decode : bytes -> option A;
  json_decode_encode : forall a, json_decode (json_encode a) = Some a;
}.

(** Times are microseconds. *)
Class Rfc3339 := {
  to_rfc3339 : Z -> string;
  parse_from_rfc3339 : string -> option Z;
  parse_to_rfc3339 : forall t, parse_from_rfc3339 (to_rfc3339 t) = Some t;
}.

(** ** Data *)

Record LockEntry := mkLockEntry { lock_hostname : string; lock_pid : Z; lock_time : string }.
Record LockGuard := mkGuard { guard_key : string; acquired_at : Z }.
Record SessionEntry := mkSession {
  ses_hostname : string;
  ses_pid : Z;
  registered_at : string;
  last_refresh : string;
}.

Definition LOCKS_PREFIX : string := "locks/".
Definition SESSIONS_PREFIX : string := "sessions/".
Definition micros : Z := 1000000.
Definition DEFAULT_STALE_LOCK_SECS : Z := 6 * 60 * 60.
Definition LOCK_REFRESH_INTERVAL_SECS : Z := 3 * 60 * 60.
Definition LOCK_MAX_UNREFRESHED_SECS : Z := DEFAULT_STALE_LOCK_SECS - 30 * 60.
Definition DEFAULT_STALE_SESSION_SECS : Z := 72 * 60 * 60.

(** What one call sees: its successive readings of the clock in microseconds
    since the epoch, the random id it draws (32 hex digits), the host and the
    process. *)
Record Env := mkEnv {
  clock1 : Z;
  clock2 : Z;
  clock3 : Z;
  rand_id : string;
  env_host : string;
  env_pid : Z;
}.

(** [duration_since(UNIX_EPOCH)] in seconds, with the value for a clock before
    the epoch. *)
Definition epoch_secs (before_epoch t : Z) : Z := if t <? 0 then before_epoch else t / micros.
Definition i64_max : Z := 2 ^ 63 - 1.

(** ** Keys *)

(** [{ts:020}]: decimal, zero-padded to [n] digits, for [0 <= ts < 10^n]. *)
Fixpoint dec_digits (n : nat) (z : Z) : string :=
  match n with
  | O => ""
  | S n' => String (Ascii.ascii_of_nat (48 + Z.to_nat (z / 10 ^ Z.of_nat n')))
                   (dec_digits n' (z mod 10 ^ Z.of_nat n'))
  end.

Definition lock_key (ts : Z) (uuid : string) : string :=
  LOCKS_PREFIX +:+ dec_digits 20 ts +:+ "-" +:+ uuid +:+ ".json".

Definition session_marker_key (sid : string) : string := SESSIONS_PREFIX +:+ sid +:+ ".json".
Definition session_index_key (sid : string) : string := SESSIONS_PREFIX +:+ sid +:+ ".index".

(** [str::strip_suffix]. *)
Fixpoint strip_suffix (s suf : string) : option string :=
  if String.eqb s suf then Some ""
  else match s with
       | EmptyString => None
       | String a s' => String a <$> strip_suffix s' suf
       end.
Definition ends_with (s suf : string) : bool :=
  match strip_suffix s suf with Some _ => true | None => false end.

Definition parse_session_id (key : string) : option string :=
  s ← strip_prefix key SESSIONS_PREFIX; strip_suffix s ".json".
Definition parse_index_id (key : string) : option string :=
  s ← strip_prefix key SESSIONS_PREFIX; strip_suffix s ".index".

(** [<str as Ord>]. *)
Definition str_leb (s t : string) : bool := bytes_leb (str_bytes s) (str_bytes t).

Definition str_elem (s : string) (l : list string) : bool := existsb (String.eqb s) l.

Section Locks.
Context `{Json LockEntry} `{Json SessionEntry} `{Rfc3339}.

(** ** Locks *)

Definition list_lock_keys : M (list string) :=
  keys ← list_keys LOCKS_PREFIX;
  mret (List.filter (fun k => starts_with k LOCKS_PREFIX && ends_with k ".json") keys).

Definition cleanup_stale_lock (now max_age_secs : Z) (key : string) : M unit :=
  d ← get key;
  match d with
  | None => mret tt
  | Some data =>
      match json_decode (A := LockEntry) data with
      | None => mret tt
      | Some entry =>
          match parse_from_rfc3339 (lock_time entry) with
          | None => mret tt
          | Some acquired =>
              if max_age_secs * micros <? now - acquired then ignore (del key) else mret tt
          end
      end
  end.

Definition cleanup_stale_locks (now max_age_secs : Z) : M unit :=
  keys ← list_lock_keys;
  for_each (cleanup_stale_lock now max_age_secs) keys.

Definition format_lock_holder (key : string) : M string :=
  r ← try_ (get key);
  mret (match r with
        | Ok (Some data) =>
            match json_decode (A := LockEntry) data with
            | Some entry => lock_hostname entry +:+ " (PID " +:+ pretty (lock_pid entry) +:+ ")"
            | None => key
            end
        | _ => key
        end).

(** The second half of [acquire_lock]: the oldest key wins. *)
Definition acquire_check (key : string) (at_secs : Z) : M LockGuard :=
  keys ← list_lock_keys;
  let keys := sort_by str_leb keys in
  if negb (str_elem key keys) then
    _ ← ignore (del key);
    fail (Other "lock acquisition failed: written lock key not returned by LIST")
  else
    match head keys with
    | Some k =>
        if String.eqb k key then mret (mkGuard key at_secs)
        else
          _ ← ignore (del key);
          holder ← format_lock_holder k;
          fail (Locked holder)
    | None => fail (Other "panic: unwrap on an empty list")
    end.

Definition lock_entry (env : Env) (t : Z) : LockEntry :=
  mkLockEntry (env_host env) (env_pid env) (to_rfc3339 t).

Definition acquire_lock (env : Env) : M LockGuard :=
  _ ← cleanup_stale_locks (clock1 env) DEFAULT_STALE_LOCK_SECS;
  let key := lock_key (clock2 env) (rand_id env) in
  _ ← put key (json_encode (lock_entry env (clock2 env)));
  acquire_check key (epoch_secs 0 (clock3 env)).

Definition release_lock (g : LockGuard) : M unit := del (guard_key g).

Fixpoint break_loop (keys : list string) (removed : Z) : M Z :=
  match keys with
  | [] => mret removed
  | k :: keys' => _ ← del k; break_loop keys' (removed + 1)
  end.
Definition break_lock : M Z := keys ← list_lock_keys; break_loop keys 0.

(** One call per attempt with its own surroundings; sleeping is left out. *)
Fixpoint acquire_lock_with_retry (envs : list Env) : M LockGuard :=
  match envs with
  | [] => fail (Other "panic: unreachable")
  | env :: envs' =>
      r ← try_ (acquire_lock env);
      match r with
      | Ok g => mret g
      | Err (Locked holder) =>
          match envs' with [] => fail (Locked holder) | _ => acquire_lock_with_retry envs' end
      | Err e => fail e
      end
  end.

(** ** The fence *)

Definition verify_lock_validity (key : string) (last_refreshed_secs now_secs : Z) : M unit :=
  there ← exists_ key;
  if negb there then fail (LockExpired "lock file removed by another client")
  else
    let elapsed := now_secs - last_refreshed_secs in
    if (elapsed <? 0) || (now_secs =? i64_max) then fail (LockExpired "clock anomaly detected")
    else if LOCK_MAX_UNREFRESHED_SECS <? elapsed then fail (LockExpired "lock unrefreshed")
    else mret tt.

(** The closure of [build_lock_fence_inner]: the new value of [last_refreshed]. *)
Definition lock_fence (env : Env) (key : string) (last_refreshed : Z) : M Z :=
  _ ← verify_lock_validity key last_refreshed (epoch_secs i64_max (clock1 env));
  let now_secs := epoch_secs i64_max (clock2 env) in
  if LOCK_REFRESH_INTERVAL_SECS <=? now_secs - last_refreshed then
    r ← try_ (put key (json_encode (lock_entry env (clock3 env))));
    mret (match r with Ok _ => now_secs | Err _ => last_refreshed end)
  else mret last_refreshed.

(** ** Sessions *)

Definition fresh_session (env : Env) : SessionEntry :=
  mkSession (env_host env) (env_pid env) (to_rfc3339 (clock1 env)) (to_rfc3339 (clock1 env)).

Definition register_session (env : Env) (probes : list Env) (sid : string) : M unit :=
  let key := session_marker_key sid in
  _ ← put key (json_encode (fresh_session env));
  r ← try_ (acquire_lock_with_retry probes);
  match r with
  | Ok guard =>
      rr ← try_ (release_lock guard);
      match rr with
      | Err e => _ ← ignore (del key); fail e
      | Ok _ => mret tt
      end
  | Err e => _ ← ignore (del key); fail e
  end.

(** Three attempts. *)
Fixpoint deregister_loop (attempts : nat) (key : string) : M unit :=
  match attempts with
  | O => mret tt
  | S n =>
      r ← try_ (del key);
      match r with Ok _ => mret tt | Err _ => deregister_loop n key end
  end.
Definition deregister_session (sid : string) : M unit := deregister_loop 3 (session_marker_key sid).

Definition refresh_session (env : Env) (sid : string) : M unit :=
  let key := session_marker_key sid in
  r ← try_ (get key);
  let entry :=
    match r with
    | Ok (Some data) =>
        let e := default (fresh_session env) (json_decode (A := SessionEntry) data) in
        mkSession (ses_hostname e) (ses_pid e) (registered_at e) (to_rfc3339 (clock1 env))
    | _ => fresh_session env
    end in
  ignore (put key (json_encode entry)).

Definition list_sessions : M (list string) :=
  keys ← list_keys SESSIONS_PREFIX;
  mret (omap parse_session_id keys).

(** The state of the first pass of [cleanup_stale_sessions]. *)
Record sweep := mkSweep {
  cleaned : list string;
  surviving_markers : gset string;
  cleaned_ids : gset string;
}.

Definition sweep_clean (sid : string) (listed : bool) (sw : sweep) : sweep :=
  mkSweep (if listed then cleaned sw ++ [sid] else cleaned sw) (surviving_markers sw)
    ({[sid]} ∪ cleaned_ids sw).

Definition or_else_opt {A} (o o' : option A) : option A := match o with Some _ => o | None => o' end.

Definition sweep_marker (now max_age_secs : Z) (local_hostname : string) (pid_alive : Z -> bool)
    (key : string) (sw : sweep) : M sweep :=
  match parse_session_id key with
  | None => mret sw
  | Some sid =>
      d ← get key;
      match d with
      | None => mret sw
      | Some data =>
          match json_decode (A := SessionEntry) data with
          | None => _ ← ignore (del key); mret (sweep_clean sid false sw)
          | Some entry =>
              match or_else_opt (parse_from_rfc3339 (last_refresh entry))
                                (parse_from_rfc3339 (registered_at entry)) with
              | None => _ ← ignore (del key); mret (sweep_clean sid false sw)
              | Some ts =>
                  if max_age_secs * micros <? now - ts then
                    _ ← ignore (del key); mret (sweep_clean sid true sw)
                  else if String.eqb (ses_hostname entry) local_hostname && negb (pid_alive (ses_pid entry)) then
                    _ ← ignore (del key); mret (sweep_clean sid true sw)
                  else mret (mkSweep (cleaned sw) ({[sid]} ∪ surviving_markers sw) (cleaned_ids sw))
              end
          end
      end
  end.

Fixpoint sweep_markers (now max_age_secs : Z) (local_hostname : string) (pid_alive : Z -> bool)
    (keys : list string) (sw : sweep) : M sweep :=
  match keys with
  | [] => mret sw
  | k :: keys' =>
      sw' ← sweep_marker now max_age_secs local_hostname pid_alive k sw;
      sweep_markers now max_age_secs local_hostname pid_alive keys' sw'
  end.

Definition sweep_index (sw : sweep) (key : string) : M unit :=
  match parse_index_id key with
  | Some id =>
      if decide ((id ∉ surviving_markers sw) /\ (id ∉ cleaned_ids sw)) then ignore (del key) else mret tt
  | None => mret tt
  end.

Definition cleanup_stale_sessions (now max_age_secs : Z) (local_hostname : string)
    (pid_alive : Z -> bool) : M (list string) :=
  keys ← list_keys SESSIONS_PREFIX;
  sw ← sweep_markers now max_age_secs local_hostname pid_alive keys (mkSweep [] ∅ ∅);
  _ ← for_each (sweep_index sw) keys;
  mret (cleaned sw).

Fixpoint clear_loop (keys : list string) (removed : Z) : M Z :=
  match keys with
  | [] => mret removed
  | k :: keys' =>
      if starts_with k SESSIONS_PREFIX then _ ← del k; clear_loop keys' (removed + 1)
      else clear_loop keys' removed
  end.
Definition clear_all_sessions : M Z := keys ← list_keys SESSIONS_PREFIX; clear_loop keys 0.

(** ** Running an operation under the lock *)

(** [flush_on_abort] is the abort path of the action's repository. *)
Definition release_after {A} (g : LockGuard) (result : res A) : M A :=
  r ← try_ (release_lock g);
  match r, result with
  | Ok _, Ok a => mret a
  | Ok _, Err e => fail e
  | Err _, Err e => fail e
  | Err e, Ok _ => fail e
  end.

(** The action runs with the fence of the guard installed. *)
Definition run_action {A} (g : LockGuard) (flush_on_abort : M unit) (action : LockGuard -> M A) : M A :=
  result ← try_ (action g);
  _ ← (match result with Err _ => ignore flush_on_abort | Ok _ => mret tt end);
  release_after g result.

Definition with_repo_lock {A} (env : Env) (flush_on_abort : M unit) (action : LockGuard -> M A) : M A :=
  g ← acquire_lock env;
  run_action g flush_on_abort action.

Definition with_maintenance_lock {A} (env : Env) (now : Z) (pid_alive : Z -> bool)
    (flush_on_abort : M unit) (action : LockGuard -> M A) : M A :=
  g ← acquire_lock env;
  _ ← ignore (cleanup_stale_sessions now DEFAULT_STALE_SESSION_SECS (env_host env) pid_alive);
  s ← try_ list_sessions;
  match s with
  | Ok [] => run_action g flush_on_abort action
  | Ok sessions => _ ← ignore (release_lock g); fail (ActiveSessions sessions)
  | Err _ => _ ← ignore (release_lock g); fail (Other "cannot verify no active backup sessions")
  end.
End Locks.

(** ** Laws of keys *)

(** Zero-padded numbers sort like the numbers. *)
Lemma dec_digits_lt n a b :
  0 <= a -> a < b -> b < 10 ^ Z.of_nat n ->
  bytes_lt (str_bytes (dec_digits n a)) (str_bytes (dec_digits n b)).
Proof.
  revert a b. induction n as [|n IH]; intros a b Ha Hab Hb; [simpl in *; lia|].
  rewrite Nat2Z.inj_succ, Z.pow_succ_r in Hb by lia. set (p := 10 ^ Z.of_nat n) in *.
  assert (Hp : 0 < p) by (apply Z.pow_pos_nonneg; lia).
  assert (Hq : a / p <= b / p) by (apply Z.div_le_mono; lia).
  assert (0 <= a / p /\ b / p < 10) as [Hqa Hqb].
  { split; [apply Z.div_pos; lia|apply Z.div_lt_upper_bound; lia]. }
  unfold bytes_lt. cbn [dec_digits str_bytes bytes_cmp]. fold p.
  rewrite !Ascii.nat_ascii_embedding by lia. rewrite !Nat2Z.inj_add, !Z2Nat.id by lia.
  destruct (Z.compare_spec (Z.of_nat 48 + a / p) (Z.of_nat 48 + b / p)) as [E| |]; [|done|lia].
  apply IH; [apply Z.mod_pos_bound; lia| |apply Z.mod_pos_bound; lia].
  rewrite (Z.div_mod a p), (Z.div_mod b p) in Hab by lia. nia.
Qed.

Lemma str_bytes_app s t : str_bytes (s +:+ t) = str_bytes s ++ str_bytes t.
Proof. induction s as [|a s IH]; [done|]. simpl. by rewrite IH. Qed.

Lemma bytes_cmp_app_same a b c : bytes_cmp (a ++ b) (a ++ c) = bytes_cmp b c.
Proof. induction a as [|x a IH]; simpl; [done|]. by rewrite Z.compare_refl. Qed.

Lemma bytes_lt_app a b c d : length a = length b -> bytes_lt a b -> bytes_lt (a ++ c) (b ++ d).
Proof.
  unfold bytes_lt. revert b. induction a as [|x a IH]; intros [|y b]; simpl; try done.
  intros [= Hl]. destruct (Z.compare x y); [by apply IH|done|done].
Qed.

Lemma length_dec_digits n z : length (str_bytes (dec_digits n z)) = n.
Proof. revert z. induction n as [|n IH]; intros z; simpl; [done|]. by rewrite IH. Qed.

(** Lock keys sort by their time stamp first: an older lock precedes. *)
Lemma lock_key_older ts1 ts2 u1 u2 :
  0 <= ts1 -> ts1 < ts2 -> ts2 < 10 ^ 20 ->
  bytes_lt (str_bytes (lock_key ts1 u1)) (str_bytes (lock_key ts2 u2)).
Proof.
  intros. unfold lock_key. rewrite !str_bytes_app. unfold bytes_lt. rewrite bytes_cmp_app_same.
  apply bytes_lt_app; [by rewrite !length_dec_digits|]. by apply dec_digits_lt.
Qed.

Lemma strip_suffix_Some s suf r : strip_suffix s suf = Some r -> s = r +:+ suf.
Proof.
  revert r. induction s as [|a s IH]; intros r; cbn [strip_suffix].
  - destruct (String.eqb_spec "" suf) as [<-|]; [|done]. by intros [= <-].
  - destruct (String.eqb_spec (String a s) suf) as [<-|]; [by intros [= <-]|].
    destruct (strip_suffix s suf) as [r'|] eqn:E; simpl; [|done]. intros [= <-].
    exact (f_equal (String a) (IH r' eq_refl)).
Qed.

Lemma strip_prefix_Some s pre r : strip_prefix s pre = Some r -> s = pre +:+ r.
Proof.
  revert s. induction pre as [|a pre IH]; intros s; cbn [strip_prefix];
    [destruct s; intros [= <-]; reflexivity|].
  destruct s as [|b s]; cbn [strip_prefix]; [done|]. destruct (Ascii.eqb_spec a b) as [<-|]; [|done].
  intros Hs. exact (f_equal (String a) (IH s Hs)).
Qed.

Lemma parse_session_id_Some key sid : parse_session_id key = Some sid -> key = session_marker_key sid.
Proof.
  unfold parse_session_id, session_marker_key. destruct (strip_prefix key SESSIONS_PREFIX) eqn:E; [|done].
  simpl. intros ->%strip_suffix_Some. by apply strip_prefix_Some.
Qed.

Lemma strip_suffix_app s suf : strip_suffix (s +:+ suf) suf = Some s.
Proof.
  induction s as [|a s IH].
  - change ("" +:+ suf) with suf. destruct suf; cbn [strip_suffix]; by rewrite String.eqb_refl.
  - change (String a s +:+ suf) with (String a (s +:+ suf)). cbn [strip_suffix].
    destruct (String.eqb_spec (String a (s +:+ suf)) suf) as [E|]; [|by rewrite IH].
    exfalso. apply (f_equal String.length) in E. simpl in E. revert E.
    assert (Hl : forall x y : string, (String.length y <= String.length (x +:+ y))%nat).
    { induction x as [|b x IHx]; intros y; [done|]. simpl. specialize (IHx y). lia. }
    specialize (Hl s suf). lia.
Qed.

Lemma strip_prefix_app pre r : strip_prefix (pre +:+ r) pre = Some r.
Proof.
  induction pre as [|a pre IH]; [by destruct r|].
  change (String a pre +:+ r) with (String a (pre +:+ r)). cbn [strip_prefix].
  by rewrite Ascii.eqb_refl.
Qed.

Lemma parse_session_id_marker sid : parse_session_id (session_marker_key sid) = Some sid.
Proof.
  unfold parse_session_id, session_marker_key. rewrite strip_prefix_app. apply strip_suffix_app.
Qed.

Section LockLaws.
Context `{Json LockEntry} `{Json SessionEntry} `{Rfc3339}.

(** The lock objects of a store. *)
Definition is_lock_key (k : string) : bool := starts_with k LOCKS_PREFIX && ends_with k ".json".
Definition lock_keys (s : Store) : list string :=
  List.filter is_lock_key
    (List.filter (fun k => starts_with k LOCKS_PREFIX) (map_to_list s).*1).

Lemma elem_of_lock_keys s k : k ∈ lock_keys s <-> is_Some (s !! k) /\ is_lock_key k = true.
Proof.
  unfold lock_keys. rewrite !list_elem_of_In, !filter_In, <- list_elem_of_In, list_elem_of_fmap.
  split.
  - intros [[([i d] & -> & Hin%elem_of_map_to_list) _] Hk]. eauto.
  - intros [[d Hd] Hk]. split; [split|done].
    + exists (k, d). split; [done|]. by apply elem_of_map_to_list.
    + unfold is_lock_key in Hk. by apply andb_true_iff in Hk as [? _].
Qed.

Lemma triple_list_lock_keys (P : Store -> Prop) (E : Store -> Prop) :
  (forall s, P s -> E s) ->
  triple P list_lock_keys (fun ks s => P s /\ ks = lock_keys s) E.
Proof.
  intros HE. eapply triple_bind; [by apply triple_reading|]. intros ks.
  apply triple_ret. intros s [HP ->]. done.
Qed.

(** [key] comes first among the lock objects. *)
Definition first_lock (key : string) (s : Store) : Prop :=
  is_Some (s !! key) /\ forall k, is_Some (s !! k) -> is_lock_key k = true -> str_leb key k = true.

Lemma head_sorted_least keys k x :
  head (sort_by str_leb keys) = Some k -> x ∈ keys -> str_leb k x = true.
Proof.
  intros Hh Hx. assert (Hs := sort_by_sorted str_leb (fun x y => bytes_leb_total _ _)
    (fun x y z => bytes_leb_trans _ _ _) keys).
  rewrite <- (sort_by_perm str_leb keys) in Hx.
  assert (Hr : Reflexive (fun x y => str_leb x y = true)).
  { intros y. apply bytes_leb_true. by left. }
  exact (StronglySorted_head _ k x _ Hs Hh Hx).
Qed.

(** Cleaning up after a lost race returns no guard. *)
Lemma triple_ignore_fail {A B} (m : M B) e (P : Store -> Prop) (Q : A -> Store -> Prop) :
  triple P (_ ← ignore m; fail e) Q (fun _ => True).
Proof.
  intros w _. unfold mbind, M_bind, fail. destruct (ignore m w) as [[?|?] ?]; done.
Qed.

Lemma acquire_check_first key at_secs (P : Store -> Prop) :
  triple P (acquire_check key at_secs)
    (fun g s => P s /\ g = mkGuard key at_secs /\ first_lock key s) (fun _ => True).
Proof.
  eapply triple_bind; [by apply triple_list_lock_keys|]. intros ks. cbv beta zeta.
  destruct (str_elem key (sort_by str_leb ks)) eqn:Hel; cbn [negb]; [|apply triple_ignore_fail].
  destruct (head (sort_by str_leb ks)) as [k|] eqn:Hh; [|by apply triple_fail].
  destruct (String.eqb_spec k key) as [->|].
  - apply triple_ret. intros s [HP ->]. split; [done|]. split; [done|].
    assert (Hin : key ∈ lock_keys s).
    { apply existsb_exists in Hel as (x & Hx & ->%String.eqb_eq).
      apply list_elem_of_In in Hx. by rewrite sort_by_perm in Hx. }
    split; [by apply elem_of_lock_keys in Hin as [? _]|].
    intros k Hk Hlk. apply (head_sorted_least _ _ _ Hh). by apply elem_of_lock_keys.
  - intros w _. unfold mbind, M_bind, fail.
    destruct (ignore _ w) as [[?|?] ?]; [|done]. destruct (format_lock_holder _ _) as [[?|?] ?]; done.
Qed.

Lemma lock_key_is_lock ts u : is_lock_key (lock_key ts u) = true.
Proof.
  unfold is_lock_key, lock_key, ends_with.
  replace (LOCKS_PREFIX +:+ dec_digits 20 ts +:+ "-" +:+ u +:+ ".json") with
    ((LOCKS_PREFIX +:+ dec_digits 20 ts +:+ "-" +:+ u) +:+ ".json") by (by rewrite !str_app_assoc).
  rewrite strip_suffix_app. rewrite andb_true_r. reflexivity.
Qed.

Lemma acquire_lock_guard env w g w' :
  acquire_lock env w = (Ok g, w') ->
  guard_key g = lock_key (clock2 env) (rand_id env) /\ first_lock (guard_key g) (objects w').
Proof.
  intros Ha.
  assert (Ht : triple (fun _ => True) (acquire_lock env)
    (fun g s => True /\ g = mkGuard (lock_key (clock2 env) (rand_id env)) (epoch_secs 0 (clock3 env)) /\
       first_lock (lock_key (clock2 env) (rand_id env)) s) (fun _ => True)).
  { assert (Htop : forall A (m : M A), triple (fun _ => True) m (fun _ _ => True) (fun _ => True)).
    { intros A m w0 _. by destruct (m w0) as [[]]. }
    eapply triple_bind; [apply Htop|]. intros ?. eapply triple_bind; [apply Htop|]. intros ?.
    apply acquire_check_first. }
  specialize (Ht w I). rewrite Ha in Ht. destruct Ht as (_ & -> & Hf). done.
Qed.

(** Whatever faults occur, a client that obtains the lock finds its own
    lock object in the store, with the time stamp it drew in the key, and no
    lock object that sorts before it; a lock whose time stamp is older is thus
    not in the store. *)
Theorem acquire_lock_first env w g w' :
  acquire_lock env w = (Ok g, w') -> 0 <= clock2 env < 10 ^ 20 ->
  guard_key g = lock_key (clock2 env) (rand_id env) /\
  is_Some (objects w' !! guard_key g) /\
  (forall ts u, 0 <= ts < clock2 env -> objects w' !! lock_key ts u = None).
Proof.
  intros Ha Hc. apply acquire_lock_guard in Ha as [Hk [Hex Hfirst]]. split_and!; [done|done|].
  intros ts u Hts. destruct (objects w' !! lock_key ts u) eqn:E; [exfalso|done].
  assert (Hle := Hfirst (lock_key ts u) ltac:(eauto) (lock_key_is_lock ts u)).
  apply bytes_leb_true in Hle. rewrite Hk in Hle.
  assert (Hlt := lock_key_older ts (clock2 env) u (rand_id env) ltac:(lia) ltac:(lia) ltac:(lia)).
  destruct Hle as [Heq|Hlt']; [rewrite Heq in Hlt|apply (bytes_lt_trans _ _ _ Hlt) in Hlt'];
    by eapply bytes_lt_irrefl.
Qed.
End LockLaws.

(** ** Witness instances *)

#[export] Instance LockEntry_eq_dec : EqDecision LockEntry.
Proof. solve_decision. Defined.
#[export] Program Instance LockEntry_countable : Countable LockEntry :=
  inj_countable' (fun e => (lock_hostname e, lock_pid e, lock_time e))
    (fun t => mkLockEntry t.1.1 t.1.2 t.2) _.
Next Obligation. by intros []. Qed.
#[export] Instance SessionEntry_eq_dec : EqDecision SessionEntry.
Proof. solve_decision. Defined.
#[export] Program Instance SessionEntry_countable : Countable SessionEntry :=
  inj_countable' (fun e => (ses_hostname e, ses_pid e, registered_at e, last_refresh e))
    (fun t => mkSession t.1.1.1 t.1.1.2 t.1.2 t.2) _.
Next Obligation. by intros []. Qed.

#[export] Instance toy_lock_json : Json LockEntry := {|
  json_encode := bits_encode; json_decode := bits_decode; json_decode_encode := bits_decode_encode |}.
#[export] Instance toy_session_json : Json SessionEntry := {|
  json_encode := bits_encode; json_decode := bits_decode; json_decode_encode := bits_decode_encode |}.

Fixpoint bits_str (b : bytes) : string :=
  match b with [] => "" | x :: b' => String (if Z.eqb x 0 then "0"%char else "1"%char) (bits_str b') end.
Fixpoint str_bits (s : string) : bytes :=
  match s with
  | EmptyString => []
  | String a s' => (if Ascii.eqb a "0" then 0 else 1) :: str_bits s'
  end.

Lemma str_bits_pos p : bits_pos (str_bits (bits_str (pos_bits p))) = p.
Proof. induction p as [p IH|p IH|]; simpl; by rewrite ?IH. Qed.

#[export] Program Instance toy_rfc3339 : Rfc3339 := {|
  to_rfc3339 := fun t => bits_str (bits_encode t);
  parse_from_rfc3339 := fun s => bits_decode (str_bits s);
|}.
Next Obligation.
  intros t. unfold bits_encode, bits_decode. rewrite str_bits_pos. apply decode_encode.
Qed.

Definition ex_env (t : Z) (id : string) : Env := mkEnv t t t id "host" 7.

Lemma acquire_lock_first_witness :
  exists g w', acquire_lock (ex_env 5 "aa") (mkWorld ∅ []) = (Ok g, w') /\
    is_Some (objects w' !! guard_key g) /\ objects w' !! lock_key 4 "bb" = None.
Proof.
  destruct (acquire_lock (ex_env 5 "aa") (mkWorld ∅ [])) as [[g|e] w'] eqn:Ha;
    [|vm_compute in Ha; discriminate Ha].
  exists g, w'. split; [reflexivity|].
  destruct (acquire_lock_first (ex_env 5 "aa") (mkWorld ∅ []) g w' Ha) as (_ & Hex & Hold);
    [vm_compute; split; [discriminate|reflexivity]|].
  split; [exact Hex|]. apply Hold. vm_compute. split; [discriminate|reflexivity].
Defined.

(** ** The fence and the cleaners *)

Section Fence.
Context `{Json LockEntry} `{Json SessionEntry} `{Rfc3339}.

(** A passing check bounds the time since the last refresh. *)
Lemma verify_lock_validity_Ok key last now_secs w w1 :
  verify_lock_validity key last now_secs w = (Ok tt, w1) ->
  is_Some (objects w !! key) /\ now_secs <> i64_max /\ 0 <= now_secs - last <= LOCK_MAX_UNREFRESHED_SECS.
Proof.
  unfold verify_lock_validity, mbind, M_bind, exists_, reading, next_fault. intros Hv.
  assert (Hgo : forall w0, objects w0 = objects w ->
    (if negb (bool_decide (is_Some (objects w0 !! key)))
     then fail (LockExpired "lock file removed by another client")
     else if (now_secs - last <? 0) || (now_secs =? i64_max)
          then fail (LockExpired "clock anomaly detected")
          else if LOCK_MAX_UNREFRESHED_SECS <? now_secs - last
               then fail (LockExpired "lock unrefreshed") else mret tt) w0 = (Ok tt, w1) ->
    is_Some (objects w !! key) /\ now_secs <> i64_max /\ 0 <= now_secs - last <= LOCK_MAX_UNREFRESHED_SECS).
  { intros w0 ->. case_bool_decide as Hex; simpl; [|done].
    destruct (Z.ltb_spec (now_secs - last) 0); simpl; [done|].
    destruct (Z.eqb_spec now_secs i64_max); simpl; [done|].
    destruct (Z.ltb_spec LOCK_MAX_UNREFRESHED_SECS (now_secs - last)); [done|].
    intros _. split; [done|lia]. }
  destruct (faults w) as [|[] fs]; cbv beta iota in Hv; try discriminate Hv;
    (eapply Hgo; [|exact Hv]; reflexivity).
Qed.

(** A lock that is not older than the limit is left alone. *)
Lemma cleanup_spares_fresh now key entry t w :
  objects w !! key = Some (json_encode entry) -> lock_time entry = to_rfc3339 t ->
  now - t <= DEFAULT_STALE_LOCK_SECS * micros ->
  objects (exec (cleanup_stale_lock now DEFAULT_STALE_LOCK_SECS key) w) = objects w.
Proof.
  intros Hobj Htime Hle. unfold exec, cleanup_stale_lock, mbind, M_bind, get, reading.
  destruct (next_fault w) as [f w3] eqn:Hnf.
  assert (Hw3 : objects w3 = objects w).
  { revert Hnf. unfold next_fault. destruct (faults w) as [|[] ?]; by intros [= <- <-]. }
  destruct f; simpl; try done.
  rewrite Hw3, Hobj, json_decode_encode, Htime, parse_to_rfc3339.
  destruct (Z.ltb_spec (DEFAULT_STALE_LOCK_SECS * micros) (now - t)); [lia|done].
Qed.

(** The fence leaves a margin.  When a holder's fence passes, at any fault
    schedule, its lock object was in the store and [last], the time the holder
    believes it last refreshed it, is at most 5.5 hours ago.  If the time [t]
    recorded in the lock object lags behind [last] by at most [lag]
    microseconds, the lock object survives every cleaner whose clock is ahead
    of the holder's by less than 30 minutes minus [lag] and one second. *)
Theorem lock_fence_margin env key last w last' w' t lag now' entry w2 :
  lock_fence env key last w = (Ok last', w') ->
  lock_time entry = to_rfc3339 t -> last * micros <= t + lag ->
  now' < clock1 env + 30 * 60 * micros - lag - micros ->
  objects w2 !! key = Some (json_encode entry) ->
  is_Some (objects w !! key) /\
  0 <= clock1 env / micros - last <= LOCK_MAX_UNREFRESHED_SECS /\
  objects (exec (cleanup_stale_lock now' DEFAULT_STALE_LOCK_SECS key) w2) = objects w2.
Proof.
  intros Hf Htime Hlast Hnow Hobj. unfold lock_fence, mbind at 1, M_bind at 1 in Hf.
  destruct (verify_lock_validity key last _ w) as [[[]|e] w1] eqn:Hv; [|done]. clear Hf.
  apply verify_lock_validity_Ok in Hv as (Hex & Hmax & Hel).
  unfold epoch_secs in Hmax, Hel. destruct (clock1 env <? 0); [done|].
  split_and!; [done|lia|lia|].
  apply (cleanup_spares_fresh now' key entry t w2 Hobj Htime).
  pose proof (Z.mul_succ_div_gt (clock1 env) micros).
  unfold LOCK_MAX_UNREFRESHED_SECS, DEFAULT_STALE_LOCK_SECS, micros in *. lia.
Qed.
End Fence.

Lemma lock_fence_margin_witness :
  let env := ex_env (3600 * micros) "aa" in
  let entry := mkLockEntry "host" 7 (to_rfc3339 0) in
  let w := mkWorld {["locks/k.json" := json_encode entry]} [] in
  objects (exec (cleanup_stale_lock (3600 * micros + 1000 * micros) DEFAULT_STALE_LOCK_SECS
    "locks/k.json") w) = objects w.
Proof.
  intros env entry w.
  apply (lock_fence_margin env "locks/k.json" 0 w 0 w 0 5 (3600 * micros + 1000 * micros) entry w);
    vm_compute; first [reflexivity | discriminate].
Defined.

(** ** Sweeping sessions *)

Section Sweep.
Context `{Json LockEntry} `{Json SessionEntry} `{Rfc3339}.
Context (now max_age : Z) (host : string) (pid_alive : Z -> bool).

(** A marker the first pass deletes: unreadable, too old, or of a dead
    process of this host. *)
Definition marker_dead (data : bytes) : bool :=
  match json_decode (A := SessionEntry) data with
  | None => true
  | Some e =>
      match or_else_opt (parse_from_rfc3339 (last_refresh e)) (parse_from_rfc3339 (registered_at e)) with
      | None => true
      | Some ts => (max_age * micros <? now - ts) || (String.eqb (ses_hostname e) host && negb (pid_alive (ses_pid e)))
      end
  end.

(** Specification of the whole cleanup on one object: a marker stays unless
    it is dead; a journal stays if its session had a marker when the cleanup
    began, even one the cleanup removed; other objects stay. *)
Definition survives (s : Store) (k : string) (d : bytes) : Prop :=
  (is_Some (parse_session_id k) -> marker_dead d = false) /\
  (forall id, parse_index_id k = Some id -> is_Some (s !! session_marker_key id)).

Lemma sweep_marker_healthy k s sw :
  exists sw', sweep_marker now max_age host pid_alive k sw (mkWorld s []) =
    (Ok sw', mkWorld (match parse_session_id k, s !! k with
                      | Some _, Some d => if marker_dead d then delete k s else s
                      | _, _ => s
                      end) []) /\
    surviving_markers sw' ∪ cleaned_ids sw' =
      surviving_markers sw ∪ cleaned_ids sw ∪
      (match parse_session_id k, s !! k with Some sid, Some _ => {[sid]} | _, _ => ∅ end).
Proof.
  unfold sweep_marker, marker_dead. destruct (parse_session_id k) as [sid|]; [|exists sw; split; [done|set_solver]].
  unfold mbind at 1, M_bind at 1. unfold get at 1, reading at 1. cbn [next_fault faults objects].
  destruct (s !! k) as [d|]; [|exists sw; split; [done|set_solver]].
  destruct (json_decode d) as [e|]; [|eexists; split; [done|]; simpl; set_solver].
  destruct (or_else_opt _ _) as [ts|]; [|eexists; split; [done|]; simpl; set_solver].
  destruct (_ <? _); simpl; [eexists; split; [done|]; simpl; set_solver|].
  destruct (_ && _); simpl; [eexists; split; [done|]; simpl; set_solver|].
  eexists. split; [done|]. simpl. set_solver.
Qed.

Lemma sweep_markers_healthy keys s sw :
  NoDup keys ->
  exists sw', sweep_markers now max_age host pid_alive keys sw (mkWorld s []) =
    (Ok sw', mkWorld (filter (fun kv => ~ (kv.1 ∈ keys /\ is_Some (parse_session_id kv.1) /\
                                           marker_dead kv.2 = true)) s) []) /\
    forall id, id ∈ surviving_markers sw' ∪ cleaned_ids sw' <->
      id ∈ surviving_markers sw ∪ cleaned_ids sw \/
      exists k, k ∈ keys /\ parse_session_id k = Some id /\ is_Some (s !! k).
Proof.
  intros Hnd. revert s sw. induction Hnd as [|k keys Hk Hnd IH]; intros s sw; simpl.
  { exists sw. split; [|set_solver]. unfold mret, M_ret. do 2 f_equal.
    symmetry. apply map_filter_id. intros ? ? _. set_solver. }
  destruct (sweep_marker_healthy k s sw) as (sw1 & Hm1 & Hu1).
  unfold mbind, M_bind. rewrite Hm1.
  set (s1 := match parse_session_id k, s !! k with
             | Some _, Some d => if marker_dead d then delete k s else s | _, _ => s end) in *.
  assert (Hs1 : forall j, j <> k -> s1 !! j = s !! j).
  { intros j Hj. unfold s1. destruct (parse_session_id k), (s !! k) as [d|]; try done.
    destruct (marker_dead d); [|done]. by rewrite lookup_delete_ne. }
  destruct (IH s1 sw1) as (sw2 & Hm2 & Hu2). exists sw2. split.
  - rewrite Hm2. do 2 f_equal. apply map_eq. intros j. apply option_eq. intros d.
    rewrite !map_lookup_filter_Some. simpl. destruct (decide (j = k)) as [->|Hj].
    + unfold s1. destruct (parse_session_id k) as [sid|] eqn:Ep.
      * destruct (s !! k) as [d0|] eqn:Ek; [|naive_solver].
        destruct (marker_dead d0) eqn:Ed.
        -- rewrite lookup_delete_eq. split; [naive_solver|]. intros [[= <-] Hn]. exfalso. apply Hn.
           split_and!; [apply list_elem_of_here|eauto|done].
        -- rewrite Ek. split; intros [[= <-] Hn]; (split; [done|]); intros (_ & _ & ?); congruence.
      * split; intros [Hd Hn]; (split; [done|]); intros (_ & [? ?] & _); congruence.
    + rewrite (Hs1 j Hj), elem_of_cons. naive_solver.
  - intros id. rewrite Hu2, Hu1. split.
    + intros [Hin|(j & Hj & Hp & Hs)].
      * apply elem_of_union in Hin as [Hin|Hin]; [by left|]. right. exists k.
        destruct (parse_session_id k) as [sid|] eqn:Ep; [|set_solver].
        destruct (s !! k) eqn:Ek; [|set_solver]. apply elem_of_singleton in Hin as ->.
        split_and!; [apply list_elem_of_here|done|eauto].
      * right. exists j. rewrite Hs1 in Hs by (by intros ->). set_solver.
    + intros [Hin|(j & Hj & Hp & Hs)]; [set_solver|].
      apply elem_of_cons in Hj as [->|Hj].
      * left. apply elem_of_union. right. rewrite Hp. destruct Hs as [d ->]. set_solver.
      * right. exists j. rewrite Hs1 by (by intros ->). done.
Qed.

Definition journal_orphan (sw : sweep) (k : string) : Prop :=
  exists id, parse_index_id k = Some id /\ id ∉ surviving_markers sw ∪ cleaned_ids sw.

Lemma sweep_index_healthy sw k s :
  exists s1, sweep_index sw k (mkWorld s []) = (Ok tt, mkWorld s1 []) /\
    forall j d, s1 !! j = Some d <-> s !! j = Some d /\ ~ (j = k /\ journal_orphan sw j).
Proof.
  unfold sweep_index, journal_orphan. destruct (parse_index_id k) as [id|] eqn:Ep.
  - case_decide as Hd.
    + exists (delete k s). split; [done|]. intros j d. rewrite lookup_delete_Some.
      split; [naive_solver|]. intros [? Hn]. split; [|done]. intros <-. apply Hn. split; [done|].
      exists id. split; [done|]. set_solver.
    + exists s. split; [done|]. intros j d. split; [|naive_solver]. intros ?. split; [done|].
      intros (-> & id' & ? & Hid). apply Hd. simplify_eq. set_solver.
  - exists s. split; [done|]. naive_solver.
Qed.

Lemma sweep_indexes_healthy sw keys s :
  exists s1, for_each (sweep_index sw) keys (mkWorld s []) = (Ok tt, mkWorld s1 []) /\
    forall j d, s1 !! j = Some d <-> s !! j = Some d /\ ~ (j ∈ keys /\ journal_orphan sw j).
Proof.
  revert s. induction keys as [|k keys IH]; intros s; cbn [for_each].
  { exists s. split; [done|]. set_solver. }
  destruct (sweep_index_healthy sw k s) as (s1 & Hs & Hs1). destruct (IH s1) as (s2 & Hk & Hs2).
  exists s2. unfold mbind, M_bind. rewrite Hs, Hk. split; [done|]. intros j d.
  rewrite Hs2, Hs1, elem_of_cons. tauto.
Qed.

Lemma starts_with_strip k pre r : strip_prefix k pre = Some r -> starts_with k pre = true.
Proof.
  revert k. induction pre as [|a pre IH]; intros [|b k]; cbn [strip_prefix starts_with]; try done.
  destruct (Ascii.eqb a b); [|done]. apply IH.
Qed.

Lemma session_keys_listed (s : Store) k :
  is_Some (s !! k) -> is_Some (parse_session_id k) \/ is_Some (parse_index_id k) ->
  k ∈ List.filter (fun k => starts_with k SESSIONS_PREFIX) (map_to_list s).*1.
Proof.
  intros [d Hd] Hp. rewrite list_elem_of_In, filter_In, <- list_elem_of_In, list_elem_of_fmap. split.
  { exists (k, d). split; [done|]. by apply elem_of_map_to_list. }
  unfold parse_session_id, parse_index_id in Hp.
  destruct (strip_prefix k SESSIONS_PREFIX) as [r|] eqn:E; [by eapply starts_with_strip|].
  destruct Hp as [[? [=]]|[? [=]]].
Qed.

Lemma NoDup_session_keys (s : Store) :
  NoDup (List.filter (fun k => starts_with k SESSIONS_PREFIX) (map_to_list s).*1).
Proof. rewrite NoDup_ListNoDup. apply List.NoDup_filter. rewrite <- NoDup_ListNoDup. apply NoDup_fst_map_to_list. Qed.

(** On a store that answers, the session cleanup terminates without an
    error and its effect is exact: it removes the markers that are unreadable,
    too old or left by a dead process of this host, and the journals whose
    session had no marker at all when it started (so the journal of a session
    it removes now stays until the next cleanup); it keeps every other object
    with its content. *)
Theorem cleanup_stale_sessions_exact s :
  exists ids s', cleanup_stale_sessions now max_age host pid_alive (mkWorld s []) =
    (Ok ids, mkWorld s' []) /\
    forall k d, s' !! k = Some d <-> s !! k = Some d /\ survives s k d.
Proof.
  unfold cleanup_stale_sessions, mbind, M_bind, list_keys, reading. cbn [next_fault faults objects].
  set (keys := List.filter _ _).
  destruct (sweep_markers_healthy keys s (mkSweep [] ∅ ∅) (NoDup_session_keys s)) as (sw & Hsw & Hids).
  rewrite Hsw. match goal with |- context [for_each _ _ (mkWorld ?s1 [])] =>
    destruct (sweep_indexes_healthy sw keys s1) as (s2 & Hs2 & Hlook) end.
  rewrite Hs2. exists (cleaned sw), s2. split; [reflexivity|]. intros k d.
  assert (Hin : forall j, is_Some (s !! j) -> is_Some (parse_session_id j) \/ is_Some (parse_index_id j) ->
    j ∈ keys) by (intros; by apply session_keys_listed).
  assert (Hmark : forall id, id ∈ surviving_markers sw ∪ cleaned_ids sw <-> is_Some (s !! session_marker_key id)).
  { intros id. rewrite Hids. cbn [surviving_markers cleaned_ids]. split.
    - intros [?|(j & _ & Hj%parse_session_id_Some & Hs)]; [set_solver|by subst j].
    - intros Hs. right. exists (session_marker_key id). split_and!; [|apply parse_session_id_marker|done].
      apply Hin; [done|]. rewrite parse_session_id_marker. eauto. }
  rewrite Hlook, map_lookup_filter_Some. cbn [fst snd]. unfold survives, journal_orphan. split.
  - intros [[Hd Hm] Hi]. split; [done|]. split.
    + intros Hp. apply not_true_is_false. intros Hdead. apply Hm. split_and!; [|done|done]. eauto.
    + intros id Hid. apply Hmark. apply dec_stable. intros Hn. apply Hi. split; [|by exists id].
      apply Hin; [eauto|]. rewrite Hid. eauto.
  - intros [Hd [Hm Hi]]. split; [split|]; [done| |].
    + intros (_ & Hp & Hdead). rewrite Hm in Hdead by done. done.
    + intros (_ & id & Hid & Hn). apply Hn, Hmark. by apply Hi.
Qed.
End Sweep.

(** ** Maintenance *)

Section Maintenance.
Context `{Json LockEntry} `{Json SessionEntry} `{Rfc3339}.

(** A key under sessions/ is not a lock. *)
Lemma session_key_not_lock k :
  is_Some (parse_session_id k) \/ is_Some (parse_index_id k) -> is_lock_key k = false.
Proof.
  unfold parse_session_id, parse_index_id. intros Hk.
  destruct (strip_prefix k SESSIONS_PREFIX) as [r|] eqn:E; [|by destruct Hk as [[? [=]]|[? [=]]]].
  apply strip_prefix_Some in E as ->. reflexivity.
Qed.

(** The lock objects are those of [s0]. *)
Definition same_locks (s0 s : Store) : Prop := forall k, is_lock_key k = true -> s !! k = s0 !! k.

Lemma preserves_del_session s0 k :
  is_Some (parse_session_id k) \/ is_Some (parse_index_id k) ->
  preserves (same_locks s0) (ignore (del k)).
Proof.
  intros Hk. apply preserves_ignore, preserves_writing. intros s Hs j Hj.
  rewrite lookup_delete_ne; [by apply Hs|]. intros ->. by rewrite session_key_not_lock in Hj.
Qed.

Lemma cleanup_keeps_locks s0 now max_age host pid_alive :
  preserves (same_locks s0) (cleanup_stale_sessions now max_age host pid_alive).
Proof.
  assert (Hdel : forall k sid (sw : sweep), parse_session_id k = Some sid ->
    preserves (same_locks s0) (_ ← ignore (del k); mret sw)).
  { intros k sid sw Hk. apply preserves_bind; [apply preserves_del_session; eauto|].
    intros _. apply preserves_ret. }
  apply preserves_bind; [apply preserves_reading|]. intros keys.
  apply preserves_bind.
  - generalize (mkSweep [] ∅ ∅). induction keys as [|k keys IH]; intros sw; [apply preserves_ret|].
    cbn [sweep_markers]. apply preserves_bind; [|auto]. unfold sweep_marker.
    destruct (parse_session_id k) as [sid|] eqn:Ek; [|apply preserves_ret].
    apply preserves_bind; [apply preserves_reading|]. intros [d|]; [|apply preserves_ret].
    destruct (json_decode d) as [e|]; [|by eapply Hdel].
    destruct (or_else_opt _ _); [|by eapply Hdel]. destruct (_ <? _); [by eapply Hdel|].
    destruct (_ && _); [by eapply Hdel|apply preserves_ret].
  - intros sw. apply preserves_bind; [|intros _; apply preserves_ret].
    apply preserves_for_each. intros k. unfold sweep_index.
    destruct (parse_index_id k) eqn:Ek; [|apply preserves_ret].
    case_decide; [|apply preserves_ret]. apply preserves_del_session. rewrite Ek. eauto.
Qed.

Lemma list_sessions_nil w w' :
  try_ list_sessions w = (Ok (Ok []), w') ->
  objects w' = objects w /\ forall sid, objects w !! session_marker_key sid = None.
Proof.
  intros Ht. pose proof (triple_reading (fun s => s = objects w)
    (fun s => List.filter (fun k => starts_with k SESSIONS_PREFIX) (map_to_list s).*1) (fun _ => True)
    (fun _ _ => I) w eq_refl) as Hr.
  revert Ht. unfold try_, list_sessions, mbind, M_bind, list_keys.
  destruct (reading _ w) as [[ks|e] w1]; [|done]. destruct Hr as [Ho ->]. rewrite Ho.
  unfold mret, M_ret. intros Heq. injection Heq as Hnil <-. split; [done|]. intros sid.
  destruct (objects w !! session_marker_key sid) as [d|] eqn:Ed; [exfalso|done].
  assert (Hin : sid ∈ omap parse_session_id (List.filter (fun k => starts_with k SESSIONS_PREFIX)
    (map_to_list (objects w)).*1)).
  { apply list_elem_of_omap. exists (session_marker_key sid). split; [|apply parse_session_id_marker].
    apply session_keys_listed; [eauto|]. rewrite parse_session_id_marker. eauto. }
  rewrite Hnil in Hin. by apply not_elem_of_nil in Hin.
Qed.

(** A successful release removed the lock object. *)
Lemma release_after_Ok {A} g (r : res A) a w w' :
  release_after g r w = (Ok a, w') -> r = Ok a /\ objects w' !! guard_key g = None.
Proof.
  unfold release_after, mbind, M_bind, try_.
  pose proof (triple_writing (fun _ => True) (delete (guard_key g)) (fun s => s !! guard_key g = None)
    (fun _ => True) (fun _ _ => I) (fun s _ => conj (lookup_delete_eq _ _) I) w I) as Hw.
  unfold release_lock, del. destruct (writing _ w) as [[[]|e] w1].
  - destruct r; [|done]. intros Heq. by injection Heq as <- <-.
  - by destruct r.
Qed.

(** Whatever faults occur, a maintenance run that reports success ran its
    action at a moment when its lock was the first of all lock objects and no
    session marker was in the store, and its lock object is gone afterwards. *)
Theorem maintenance_runs_alone {A} env now pid_alive flush (action : LockGuard -> M A) w a w' :
  with_maintenance_lock env now pid_alive flush action w = (Ok a, w') ->
  exists g w1 w2,
    first_lock (guard_key g) (objects w1) /\
    (forall sid, objects w1 !! session_marker_key sid = None) /\
    action g w1 = (Ok a, w2) /\
    objects w' !! guard_key g = None.
Proof.
  unfold with_maintenance_lock. unfold mbind at 1, M_bind at 1.
  pose proof (acquire_lock_guard env w) as Ha.
  destruct (acquire_lock env w) as [[g|e] wa]; [|done]. specialize (Ha g wa eq_refl).
  unfold mbind at 1, M_bind at 1. set (cl := ignore (cleanup_stale_sessions _ _ _ _)).
  assert (Hcl : preserves (same_locks (objects wa)) cl) by (apply preserves_ignore, cleanup_keeps_locks).
  specialize (Hcl wa (fun _ _ => eq_refl)). destruct (cl wa) as [[u|e] wb]; [|done].
  unfold mbind at 1, M_bind at 1.
  destruct (try_ list_sessions wb) as [[[[|? ?]|e]|e] wc] eqn:Hls; try done.
  - apply list_sessions_nil in Hls as [Hobj Hnone].
    unfold run_action, mbind, M_bind, try_. destruct (action g wc) as [r wd] eqn:Hact.
    intros Hrun. exists g, wc, wd.
    assert (Hrel : exists we, release_after g r we = (Ok a, w')).
    { destruct r as [a'|e]; [by exists wd|].
      destruct (ignore flush wd) as [[?|?] we]; [by exists we|done]. }
    destruct Hrel as [we Hrel]. apply release_after_Ok in Hrel as [-> Hgone].
    rewrite Hobj. split_and!; [|done|done|done]. destruct Ha as [Hlk [Hex Hleast]].
    split; [rewrite Hcl; [done|]; rewrite Hlk; apply lock_key_is_lock|]. intros k Hk Hl. apply Hleast; [|done]. by rewrite <- Hcl.
  - unfold mbind, M_bind. by destruct (ignore _ wc) as [[?|?] ?].
  - unfold mbind, M_bind. by destruct (ignore _ wc) as [[?|?] ?].
Qed.
End Maintenance.

Lemma maintenance_runs_alone_witness :
  exists w', with_maintenance_lock (ex_env 5 "aa") 5 (fun _ => true) (mret tt)
      (fun _ => put "index" [1]) (mkWorld ∅ []) = (Ok tt, w') /\
    exists g w1 w2, first_lock (guard_key g) (objects w1) /\
      (forall sid, objects w1 !! session_marker_key sid = None) /\
      put "index" [1] w1 = (Ok tt, w2) /\ objects w' !! guard_key g = None.
Proof.
  destruct (with_maintenance_lock (ex_env 5 "aa") 5 (fun _ => true) (mret tt)
    (fun _ => put "index" [1]) (mkWorld ∅ [])) as [[[]|e] w'] eqn:Hm; [|vm_compute in Hm; discriminate Hm].
  exists w'. split; [reflexivity|].
  exact (maintenance_runs_alone (ex_env 5 "aa") 5 (fun _ => true) (mret tt)
    (fun _ => put "index" [1]) (mkWorld ∅ []) tt w' Hm).
Defined.

(** ** Clocks *)

(** The lock of a holder is not safe from an older clock: a client whose clock reads an
    earlier time obtains the lock while another client holds it. *)
Theorem older_clock_takes_the_lock :
  exists g1 w1 g2 w2,
    acquire_lock (ex_env 10 "aa") (mkWorld ∅ []) = (Ok g1, w1) /\
    acquire_lock (ex_env 5 "bb") w1 = (Ok g2, w2) /\
    is_Some (objects w2 !! guard_key g1) /\ is_Some (objects w2 !! guard_key g2) /\
    guard_key g1 <> guard_key g2.
Proof.
  destruct (acquire_lock (ex_env 10 "aa") (mkWorld ∅ [])) as [[g1|e] w1] eqn:H1;
    [|vm_compute in H1; discriminate H1].
  vm_compute in H1. injection H1 as <- <-.
  eexists _, _, _, _. split; [reflexivity|]. split; [vm_compute; reflexivity|].
  split; [vm_compute; eauto|]. split; [vm_compute; eauto|]. vm_compute. discriminate.
Qed.
