(* ===== verification/LockProtocol.v ===== *)
(** * Several clients at one repository

    Lock.v runs one client's operation to its end.  Here any number of clients
    interleave, one storage call at a time, in the order register_session,
    acquire_lock, release_lock, with_repo_lock and with_maintenance_lock make
    their calls (crates/vykar-core/src/repo/lock.rs, src/commands/util.rs):
    the lock object is put, then the locks are listed, then the loser deletes
    its own; a backup puts its session marker before it probes the lock, and
    maintenance lists the markers only once it holds the lock.

    The time stamp in a lock key is drawn before the put, so another client's
    put may fall in between.  The relation takes what is known of the key at
    the moment of the put as a parameter [fresh]. *)

From stdpp Require Import functions pretty.
From S2P Require Import Prelude Types Storage Lock.
#[local] Open Scope string_scope.
#[local] Open Scope list_scope.
#[local] Open Scope Z_scope.

(** ** Clients *)

Inductive lock_state :=
  | NoLock
  | Written (k : string)   (** put done, not listed yet *)
  | Losing (k : string)    (** listed, another key came first *)
  | Held (k : string).

Inductive job :=
  | Idle
  | Marked        (** session marker written, registration not finished *)
  | Active        (** register_session returned Ok *)
  | Solo          (** acquiring or holding the lock without a session *)
  | Maintaining   (** holding the lock, no session marker seen *)
  | Dead.

Definition phase : Type := job * lock_state.

(** One storage call, or a crash. *)
Inductive act :=
  | APut (k : string)
  | AList (k : string) (won : bool)
  | ADel (k : string)
  | AMark
  | AUnmark
  | AListSessions
  | ACrash.

(** The calls of one client in program order. *)
Inductive program : phase -> act -> phase -> Prop :=
  | p_mark : program (Idle, NoLock) AMark (Marked, NoLock)
  | p_probe k : program (Marked, NoLock) (APut k) (Marked, Written k)
  | p_commit k : program (Active, NoLock) (APut k) (Active, Written k)
  | p_solo k : program (Idle, NoLock) (APut k) (Solo, Written k)
  | p_list j k won : program (j, Written k) (AList k won) (j, if won then Held k else Losing k)
  | p_lost_session j k : j = Marked \/ j = Active -> program (j, Losing k) (ADel k) (j, NoLock)
  | p_lost_solo k : program (Solo, Losing k) (ADel k) (Idle, NoLock)
  | p_registered k : program (Marked, Held k) (ADel k) (Active, NoLock)
  | p_committed k : program (Active, Held k) (ADel k) (Active, NoLock)
  | p_sessions k : program (Solo, Held k) AListSessions (Maintaining, Held k)
  | p_released j k : j = Solo \/ j = Maintaining -> program (j, Held k) (ADel k) (Idle, NoLock)
  | p_unmark j : j = Marked \/ j = Active -> program (j, NoLock) AUnmark (Idle, NoLock)
  | p_crash p : program p ACrash (Dead, NoLock).

Definition lock_of (p : phase) : option string :=
  match p.2 with NoLock => None | Written k | Losing k | Held k => Some k end.
Definition has_marker (p : phase) : bool :=
  match p.1 with Marked | Active => true | _ => false end.

Record state := mkState { store : Store; clients : nat -> phase }.

Section Protocol.
Context (sid : nat -> string) (sid_inj : forall c1 c2, sid c1 = sid c2 -> c1 = c2).
(** What holds of the key of a lock when it is put. *)
Context (fresh : Store -> string -> Prop).

Definition enabled (s : Store) (a : act) : Prop :=
  match a with
  | APut k => is_lock_key k = true /\ fresh s k
  | AList k won => if won then first_lock k s else ~ first_lock k s
  | AListSessions => forall id, s !! session_marker_key id = None
  | _ => True
  end.

(** The contents of the two kinds of objects play no part. *)
Definition effect (c : nat) (a : act) (data : bytes) (s : Store) : Store :=
  match a with
  | APut k => <[k := data]> s
  | ADel k => delete k s
  | AMark => <[session_marker_key (sid c) := data]> s
  | AUnmark => delete (session_marker_key (sid c)) s
  | _ => s
  end.

(** Objects nobody alive owns may be reaped, other objects change freely. *)
Definition owned (st : state) (k : string) : Prop :=
  exists c, lock_of (clients st c) = Some k \/
            (has_marker (clients st c) = true /\ k = session_marker_key (sid c)).

Inductive step : state -> state -> Prop :=
  | s_client st c a p' data :
      program (clients st c) a p' -> enabled (store st) a ->
      step st (mkState (effect c a data (store st)) (<[c := p']> (clients st)))
  | s_reap st k : ~ owned st k -> step st (mkState (delete k (store st)) (clients st))
  | s_other st k data :
      is_lock_key k = false -> parse_session_id k = None ->
      step st (mkState (<[k := data]> (store st)) (clients st)).

Inductive reachable : state -> Prop :=
  | r_init : reachable (mkState ∅ (fun _ => (Idle, NoLock)))
  | r_step st st' : reachable st -> step st st' -> reachable st'.

(** ** The invariant *)

Definition str_lt (k k' : string) : Prop := bytes_lt (str_bytes k) (str_bytes k').

Record Inv (st : state) : Prop := {
  inv_lock : forall c k, lock_of (clients st c) = Some k -> is_Some (store st !! k) /\ is_lock_key k = true;
  inv_owner : forall c1 c2 k, lock_of (clients st c1) = Some k -> lock_of (clients st c2) = Some k -> c1 = c2;
  inv_order : forall k k', is_Some (store st !! k) -> is_Some (store st !! k') ->
    is_lock_key k = true -> is_lock_key k' = true -> k <> k' -> str_lt k k' \/ str_lt k' k;
  inv_held : forall c k, (clients st c).2 = Held k -> first_lock k (store st);
  inv_marker : forall c, has_marker (clients st c) = true ->
    is_Some (store st !! session_marker_key (sid c));
  inv_sessions : forall m c, (clients st m).1 = Maintaining -> (clients st c).1 <> Active;
  inv_maintaining : forall m, (clients st m).1 = Maintaining -> exists k, (clients st m).2 = Held k;
}.

(** A key that is put is younger than the locks in the store. *)
Context (fresh_younger : forall s k, fresh s k ->
  s !! k = None /\ forall k', is_Some (s !! k') -> is_lock_key k' = true -> str_lt k' k).

Lemma str_lt_leb k k' : str_lt k k' -> str_leb k k' = true.
Proof. intros ?. apply bytes_leb_true. by right. Qed.

Lemma marker_not_lock id : is_lock_key (session_marker_key id) = false.
Proof. apply session_key_not_lock. left. rewrite parse_session_id_marker. eauto. Qed.

(** Two holders are one. *)
Lemma inv_exclusive st c1 c2 k1 k2 :
  Inv st -> (clients st c1).2 = Held k1 -> (clients st c2).2 = Held k2 -> c1 = c2.
Proof.
  intros HI H1 H2. destruct (inv_held _ HI c1 k1 H1) as [Hk1 Hf1], (inv_held _ HI c2 k2 H2) as [Hk2 Hf2].
  assert (Ho1 : lock_of (clients st c1) = Some k1) by (unfold lock_of; by rewrite H1).
  assert (Ho2 : lock_of (clients st c2) = Some k2) by (unfold lock_of; by rewrite H2).
  destruct (decide (k1 = k2)) as [->|Hne]; [by eapply inv_owner|].
  destruct (inv_lock _ HI _ _ Ho1) as [_ Hl1], (inv_lock _ HI _ _ Ho2) as [_ Hl2].
  assert (Hno : forall a b, str_leb a b = true -> ~ str_lt b a).
  { intros a b Hab%bytes_leb_true Hba. unfold str_lt in Hba.
    destruct Hab as [E|Hlt]; [rewrite E in Hba|apply (bytes_lt_trans _ _ _ Hba) in Hlt];
      by eapply bytes_lt_irrefl. }
  destruct (inv_order _ HI k1 k2 Hk1 Hk2 Hl1 Hl2 Hne) as [Hlt|Hlt]; exfalso;
    eapply Hno; [|exact Hlt| |exact Hlt]; auto.
Qed.

(** The objects a call of [c] leaves alone. *)
Lemma effect_other c a p p' data s k :
  program p a p' -> lock_of p <> Some k -> (forall k', a = APut k' -> k <> k') ->
  (a = AMark \/ a = AUnmark -> k <> session_marker_key (sid c)) ->
  effect c a data s !! k = s !! k.
Proof.
  intros Hp Hl Hput Hm. destruct a; simpl; try done.
  - rewrite lookup_insert_ne; [done|]. intros ->. by eapply Hput.
  - rewrite lookup_delete_ne; [done|]. intros ->. apply Hl. by inversion Hp.
  - rewrite lookup_insert_ne; [done|]. intros <-. apply Hm; auto.
  - rewrite lookup_delete_ne; [done|]. intros <-. apply Hm; auto.
Qed.

Lemma effect_present c a data s k :
  is_Some (effect c a data s !! k) -> is_lock_key k = true -> is_Some (s !! k) \/ a = APut k.
Proof.
  intros Hk Hl. destruct a as [k0| |k0| | | |]; simpl in Hk; auto.
  - destruct (decide (k0 = k)) as [->|Hne]; [by right|]. rewrite lookup_insert_ne in Hk by done. auto.
  - rewrite lookup_delete_is_Some in Hk. tauto.
  - rewrite lookup_insert_ne in Hk; [auto|]. intros <-. by rewrite marker_not_lock in Hl.
  - rewrite lookup_delete_is_Some in Hk. tauto.
Qed.

Lemma program_lock p a p' k :
  program p a p' -> lock_of p' = Some k ->
  (lock_of p = Some k /\ forall c data s, effect c a data s = s) \/ a = APut k.
Proof. intros Hp. destruct Hp as [| | | |j k0 []| | | | | | | |]; intros Hk; cbn in Hk; simplify_eq; auto. Qed.

Lemma program_held p a p' k :
  program p a p' -> p'.2 = Held k -> (p.2 = Held k /\ a = AListSessions) \/ a = AList k true.
Proof. intros Hp. destruct Hp as [| | | |j k0 []| | | | | | | |]; intros Hk; cbn in Hk; simplify_eq; auto. Qed.

Lemma program_marker p a p' :
  program p a p' -> has_marker p' = true -> a = AMark \/ (has_marker p = true /\ a <> AUnmark).
Proof.
  intros Hp. destruct Hp as [| | | |j k0 won| j k0 []| | | | |j k0 []|j []|]; intros Hm; subst; cbn in Hm;
    simplify_eq; auto.
Qed.

Lemma program_active p a p' :
  program p a p' -> p'.1 = Active -> p.1 = Active \/ exists k, p.2 = Held k.
Proof. intros Hp. destruct Hp; intros Hj; cbn in Hj; destruct_or?; simplify_eq; eauto 10. Qed.

Lemma program_maintaining p a p' :
  program p a p' -> p'.1 = Maintaining ->
  (p.1 = Maintaining /\ exists k, p.2 = Written k) \/ (a = AListSessions /\ exists k, p.2 = Held k /\ p'.2 = Held k).
Proof. intros Hp. destruct Hp; intros Hj; cbn in Hj; destruct_or?; simplify_eq; eauto 10. Qed.

(** ** The invariant is kept by a client's call *)

Section ClientStep.
Context (st : state) (c : nat) (a : act) (p' : phase) (data : bytes).
Context (HI : Inv st) (Hp : program (clients st c) a p') (Hen : enabled (store st) a).
#[local] Abbreviation st' := (mkState (effect c a data (store st)) (<[c := p']> (clients st))).

Lemma client_lookup c1 : clients st' c1 = if decide (c1 = c) then p' else clients st c1.
Proof.
  simpl. destruct (decide (c1 = c)) as [->|Hne]; [apply fn_lookup_insert|by apply fn_lookup_insert_ne].
Qed.

Lemma put_key_new k : a = APut k -> is_lock_key k = true /\ store st !! k = None /\
  forall k', is_Some (store st !! k') -> is_lock_key k' = true -> str_lt k' k.
Proof. intros ->. destruct Hen as [Hl Hf]. destruct (fresh_younger _ _ Hf). auto. Qed.

Lemma client_inv_lock c1 k :
  lock_of (clients st' c1) = Some k -> is_Some (store st' !! k) /\ is_lock_key k = true.
Proof.
  rewrite client_lookup. simpl store. case_decide as Hc.
  - intros Hk. destruct (program_lock _ _ _ _ Hp Hk) as [[Hold Heff]|Ha].
    + rewrite Heff. by apply (inv_lock _ HI c).
    + split; [|by apply put_key_new]. rewrite Ha. simpl. rewrite lookup_insert_eq. eauto.
  - intros Hk. destruct (inv_lock _ HI _ _ Hk) as [Hs Hl]. split; [|done].
    rewrite (effect_other c a _ p' data (store st) k Hp); [done| | |].
    + intros Hk'. apply Hc. by eapply inv_owner.
    + intros k' Ha ->. apply put_key_new in Ha as (_ & Hnone & _). rewrite Hnone in Hs. by destruct Hs.
    + intros _ ->. by rewrite marker_not_lock in Hl.
Qed.

Lemma client_inv_owner c1 c2 k :
  lock_of (clients st' c1) = Some k -> lock_of (clients st' c2) = Some k -> c1 = c2.
Proof.
  assert (Hmine : forall c0, lock_of p' = Some k -> lock_of (clients st c0) = Some k -> c0 = c).
  { intros c0 Hk Hk0. destruct (program_lock _ _ _ _ Hp Hk) as [[Hold _]|Ha]; [by eapply inv_owner|].
    apply put_key_new in Ha as (_ & Hnone & _). apply (inv_lock _ HI) in Hk0 as [Hs _].
    rewrite Hnone in Hs. by destruct Hs. }
  rewrite !client_lookup. repeat case_decide; subst; try done; intros.
  - symmetry. eauto.
  - eauto.
  - by eapply inv_owner.
Qed.

Lemma client_inv_order k k' :
  is_Some (store st' !! k) -> is_Some (store st' !! k') ->
  is_lock_key k = true -> is_lock_key k' = true -> k <> k' -> str_lt k k' \/ str_lt k' k.
Proof.
  simpl. intros Hs Hs' Hl Hl' Hne.
  destruct (effect_present _ _ _ _ _ Hs Hl) as [Ho|Ha], (effect_present _ _ _ _ _ Hs' Hl') as [Ho'|Ha'].
  - by apply (inv_order _ HI).
  - left. by apply (put_key_new _ Ha').
  - right. by apply (put_key_new _ Ha).
  - exfalso. congruence.
Qed.

Lemma client_inv_held c1 k : (clients st' c1).2 = Held k -> first_lock k (store st').
Proof.
  intros Hh. assert (Hk : is_Some (store st' !! k)).
  { apply (client_inv_lock c1 k). unfold lock_of. by rewrite Hh. }
  split; [done|]. intros k' Hs' Hl'. simpl in Hs'.
  assert (Hold : first_lock k (store st) -> str_leb k k' = true).
  { intros [Hks Hf]. destruct (effect_present _ _ _ _ _ Hs' Hl') as [Ho|Ha]; [by apply Hf|].
    destruct (put_key_new _ Ha) as (_ & _ & Hy). apply str_lt_leb, Hy; [done|].
    apply (client_inv_lock c1 k). unfold lock_of. by rewrite Hh. }
  apply Hold. rewrite client_lookup in Hh. case_decide as Hc.
  - destruct (program_held _ _ _ _ Hp Hh) as [[Hh' _]|Ha]; [by apply (inv_held _ HI c)|].
    clear Hs' Hk Hold. revert Hen. by rewrite Ha.
  - by apply (inv_held _ HI c1).
Qed.

Lemma client_inv_marker c1 :
  has_marker (clients st' c1) = true -> is_Some (store st' !! session_marker_key (sid c1)).
Proof.
  rewrite client_lookup. simpl store. intros Hm.
  assert (Hkeep : has_marker (clients st c1) = true -> (c1 = c -> a <> AMark /\ a <> AUnmark) ->
    is_Some (effect c a data (store st) !! session_marker_key (sid c1))).
  { intros Hold Hc. assert (Hs := inv_marker _ HI c1 Hold).
    rewrite (effect_other c a _ p' data (store st) _ Hp); [done| | |].
    - intros Hl. apply (inv_lock _ HI) in Hl as [_ Hl]. by rewrite marker_not_lock in Hl.
    - intros k' Ha <-. apply put_key_new in Ha as [Hl _]. by rewrite marker_not_lock in Hl.
    - intros Ha Heq. destruct (decide (c1 = c)) as [->|Hne]; [naive_solver|].
      apply Hne, sid_inj. apply (f_equal parse_session_id) in Heq.
      rewrite !parse_session_id_marker in Heq. by injection Heq. }
  case_decide as Hc; [subst c1|by apply Hkeep].
  destruct (program_marker _ _ _ Hp Hm) as [Ha|[Hold Ha]].
  - rewrite Ha. simpl. rewrite lookup_insert_eq. eauto.
  - apply Hkeep; [done|]. intros _. split; [|done]. intros Ha'. revert Hp Hold. rewrite Ha'.
    intros Hp'. by inversion Hp'.
Qed.

Lemma client_inv_maintaining m : (clients st' m).1 = Maintaining -> exists k, (clients st' m).2 = Held k.
Proof.
  rewrite client_lookup. case_decide; [|by apply (inv_maintaining _ HI)].
  intros Hm. destruct (program_maintaining _ _ _ Hp Hm) as [[Hj [k Hk]]|[_ (k & _ & Hk)]]; [|eauto].
  destruct (inv_maintaining _ HI _ Hj) as [k' Hk']. congruence.
Qed.

Lemma client_inv_sessions m c1 : (clients st' m).1 = Maintaining -> (clients st' c1).1 <> Active.
Proof.
  rewrite !client_lookup. intros Hm Ha.
  assert (Hsee : a = AListSessions -> forall c0, (clients st c0).1 <> Active).
  { intros Hls c0 Hact. assert (Hs := inv_marker _ HI c0). unfold has_marker in Hs. rewrite Hact in Hs.
    assert (Hnone := Hen). rewrite Hls in Hnone. simpl in Hnone. rewrite Hnone in Hs. by destruct (Hs eq_refl). }
  destruct (decide (m = c)) as [->|Hmc], (decide (c1 = c)) as [->|Hcc].
  - congruence.
  - destruct (program_maintaining _ _ _ Hp Hm) as [[Hj _]|[Hls _]]; [|by eapply Hsee].
    by eapply (inv_sessions _ HI).
  - destruct (program_active _ _ _ Hp Ha) as [Hold|[k Hk]]; [by eapply (inv_sessions _ HI)|].
    destruct (inv_maintaining _ HI _ Hm) as [k' Hk']. apply Hmc. by eapply inv_exclusive.
  - by eapply (inv_sessions _ HI).
Qed.

Lemma client_step_inv : Inv st'.
Proof.
  constructor; eauto using client_inv_lock, client_inv_owner, client_inv_order, client_inv_held,
    client_inv_marker, client_inv_sessions, client_inv_maintaining.
Qed.
End ClientStep.

(** Removing an object nobody owns, and writing an object of another kind. *)
Lemma reap_inv st k : Inv st -> ~ owned st k -> Inv (mkState (delete k (store st)) (clients st)).
Proof.
  intros HI Hno.
  assert (Hlock : forall c k0, lock_of (clients st c) = Some k0 -> k <> k0).
  { intros c k0 Hc <-. apply Hno. exists c. auto. }
  constructor; simpl.
  - intros c k0 Hc. rewrite lookup_delete_ne by eauto. by apply (inv_lock _ HI c).
  - apply (inv_owner _ HI).
  - intros k1 k2 [? ?]%lookup_delete_is_Some [? ?]%lookup_delete_is_Some. by apply (inv_order _ HI).
  - intros c k0 Hc. destruct (inv_held _ HI c k0 Hc) as [Hs Hf]. split.
    + rewrite lookup_delete_ne; [done|]. apply (Hlock c). unfold lock_of. by rewrite Hc.
    + intros k1 [? ?]%lookup_delete_is_Some. auto.
  - intros c Hc. rewrite lookup_delete_ne; [by apply (inv_marker _ HI)|]. intros ->. apply Hno. exists c. auto.
  - apply (inv_sessions _ HI).
  - apply (inv_maintaining _ HI).
Qed.

Lemma other_inv st k data :
  Inv st -> is_lock_key k = false -> parse_session_id k = None ->
  Inv (mkState (<[k := data]> (store st)) (clients st)).
Proof.
  intros HI Hl Hs.
  assert (Hl' : forall k', is_lock_key k' = true -> k <> k') by (intros k' Hk' <-; congruence).
  assert (Hold : forall k', is_lock_key k' = true -> <[k := data]> (store st) !! k' = store st !! k').
  { intros k' Hk'. by rewrite lookup_insert_ne by auto. }
  constructor; simpl.
  - intros c k0 Hc. destruct (inv_lock _ HI c k0 Hc). split; [|done]. by rewrite Hold.
  - apply (inv_owner _ HI).
  - intros k1 k2 H1 H2 Hk1 Hk2. rewrite Hold in H1, H2 by done. by apply (inv_order _ HI).
  - intros c k0 Hc. destruct (inv_held _ HI c k0 Hc) as [Hs0 Hf]. split.
    + apply lookup_insert_is_Some'. by right.
    + intros k1 H1 Hk1. rewrite Hold in H1 by done. auto.
  - intros c Hc. apply lookup_insert_is_Some'. right. by apply (inv_marker _ HI).
  - apply (inv_sessions _ HI).
  - apply (inv_maintaining _ HI).
Qed.

Lemma reachable_inv st : reachable st -> Inv st.
Proof.
  induction 1 as [|st st' _ IH Hstep].
  - constructor; simpl; try done; intros; by destruct H.
  - destruct Hstep; [by apply client_step_inv|by apply reap_inv|by apply other_inv].
Qed.
End Protocol.

(** ** Keys drawn in order *)

(** The key is younger than every lock in the store when it is put. *)
Definition in_order (s : Store) (k : string) : Prop :=
  s !! k = None /\ forall k', is_Some (s !! k') -> is_lock_key k' = true -> str_lt k' k.

(** C22. Mutual exclusion.  However any number of clients interleave their
    calls, crash, and have the objects of the dead reaped: if each lock key is
    younger than the lock keys in the store when it is put, two clients that
    hold the lock are the same client. *)
Theorem lock_exclusive sid st c1 c2 k1 k2 :
  (forall a b, sid a = sid b -> a = b) ->
  reachable sid in_order st ->
  (clients st c1).2 = Held k1 -> (clients st c2).2 = Held k2 -> c1 = c2.
Proof. intros Hsid Hr. eapply inv_exclusive, reachable_inv; [exact Hsid| |exact Hr]. by intros s k [? ?]. Qed.

(** C24. Maintenance and sessions.  Under the same assumption on the keys,
    while a client runs maintenance no session is registered: no backup runs
    while packs are deleted or moved. *)
Theorem maintenance_excludes_sessions sid st m c :
  (forall a b, sid a = sid b -> a = b) ->
  reachable sid in_order st ->
  (clients st m).1 = Maintaining -> (clients st c).1 <> Active.
Proof. intros Hsid Hr. eapply inv_sessions, reachable_inv; [exact Hsid| |exact Hr]. by intros s k [? ?]. Qed.

(** ** Executions *)

Definition ex_sid (n : nat) : string := pretty n.
Lemma ex_sid_inj a b : ex_sid a = ex_sid b -> a = b.
Proof. apply (inj pretty). Qed.

Lemma take_client sid fresh st c a p p' data :
  reachable sid fresh st -> clients st c = p -> program p a p' -> enabled fresh (store st) a ->
  reachable sid fresh (mkState (effect sid c a data (store st)) (<[c := p']> (clients st))).
Proof. intros Hr <- Hp He. eapply r_step; [exact Hr|]. by apply s_client. Qed.

Lemma first_lock_singleton k d : first_lock k {[k := d]}.
Proof.
  split; [rewrite lookup_singleton_eq; eauto|]. intros k' [? [<- _]%lookup_singleton_Some] _.
  apply bytes_leb_true. by left.
Qed.

Definition ex_key1 : string := lock_key 10 "aa".
Definition ex_key2 : string := lock_key 5 "bb".

Definition ex_holds : state :=
  mkState {[ex_key1 := [1]]}
    (<[0%nat := (Solo, Held ex_key1)]> (<[0%nat := (Solo, Written ex_key1)]> (fun _ => (Idle, NoLock)))).

Lemma ex_holds_reachable fresh : fresh ∅ ex_key1 -> reachable ex_sid fresh ex_holds.
Proof.
  intros Hf.
  pose proof (take_client ex_sid fresh _ 0%nat (APut ex_key1) _ _ [1] (r_init _ _) eq_refl
    (p_solo ex_key1) (conj (lock_key_is_lock _ _) Hf)) as H1.
  exact (take_client ex_sid fresh _ 0%nat (AList ex_key1 true) _ _ [] H1 eq_refl
    (p_list Solo ex_key1 true) (first_lock_singleton _ _)).
Qed.

(** The holder lists the sessions and sees none. *)
Definition ex_alone : state :=
  mkState (store ex_holds) (<[0%nat := (Maintaining, Held ex_key1)]> (clients ex_holds)).

Lemma ex_alone_reachable fresh : fresh ∅ ex_key1 -> reachable ex_sid fresh ex_alone.
Proof.
  intros Hf.
  refine (take_client ex_sid fresh ex_holds 0%nat AListSessions _ _ []
    (ex_holds_reachable _ Hf) eq_refl (p_sessions ex_key1) _).
  intros id. apply lookup_singleton_None. intros Heq. apply (f_equal is_lock_key) in Heq.
  unfold ex_key1 in Heq. by rewrite lock_key_is_lock, marker_not_lock in Heq.
Qed.

Lemma in_order_empty k : in_order ∅ k.
Proof. split; [done|]. intros k' [? [=]]. Qed.

Lemma lock_exclusive_witness :
  reachable ex_sid in_order ex_holds /\ (forall c k, (clients ex_holds c).2 = Held k -> c = 0%nat).
Proof.
  assert (Hr : reachable ex_sid in_order ex_holds) by (apply ex_holds_reachable, in_order_empty).
  split; [exact Hr|]. intros c k Hc.
  exact (lock_exclusive ex_sid ex_holds c 0%nat k ex_key1 ex_sid_inj Hr Hc eq_refl).
Defined.

(** Maintenance has begun and a backup has written its marker. *)
Definition ex_maintains : state :=
  mkState (<[session_marker_key (ex_sid 1) := [2]]> (store ex_holds))
    (<[1%nat := (Marked, NoLock)]> (<[0%nat := (Maintaining, Held ex_key1)]> (clients ex_holds))).

Lemma ex_maintains_reachable : reachable ex_sid in_order ex_maintains.
Proof.
  exact (take_client ex_sid in_order ex_alone 1%nat AMark _ _ [2]
    (ex_alone_reachable _ (in_order_empty _)) eq_refl p_mark I).
Qed.

Lemma maintenance_excludes_sessions_witness :
  reachable ex_sid in_order ex_maintains /\ (clients ex_maintains 1%nat).1 <> Active.
Proof.
  split; [exact ex_maintains_reachable|].
  exact (maintenance_excludes_sessions ex_sid ex_maintains 0%nat 1%nat ex_sid_inj
    ex_maintains_reachable eq_refl).
Defined.

(** ** Keys drawn before the put *)

(** Nothing in acquire_lock makes the keys come in order: the time stamp is
    read before the put, on the client's own clock. *)
Definition any_order (s : Store) (k : string) : Prop := s !! k = None.

(** Exclusion depends on that assumption: if keys need not be in order,
    there is an execution in which a backup takes the lock that a running
    maintenance holds, and registers its session.
    The second client read its clock before the first one's lock was written,
    and its put came after the first one's listing. *)
Theorem late_put_breaks_exclusion :
  exists st, reachable ex_sid any_order st /\
    (clients st 0%nat) = (Maintaining, Held ex_key1) /\
    (clients st 1%nat) = (Active, NoLock).
Proof.

  assert (H1 : reachable ex_sid any_order ex_alone) by (by apply ex_alone_reachable).
  pose proof (take_client ex_sid any_order _ 1%nat AMark _ _ [2] H1 eq_refl p_mark I) as H2.
  assert (Hen : enabled any_order (store (mkState (effect ex_sid 1 AMark [2] (store ex_alone))
    (<[1%nat := (Marked, NoLock)]> (clients ex_alone)))) (APut ex_key2)).
  { split; [apply lock_key_is_lock|]. vm_compute. reflexivity. }
  pose proof (take_client ex_sid any_order _ 1%nat (APut ex_key2) _ _ [3] H2 eq_refl
    (p_probe ex_key2) Hen) as H3.
  assert (Hfirst : first_lock ex_key2 (effect ex_sid 1 (APut ex_key2) [3] (effect ex_sid 1 AMark [2] (store ex_alone)))).
  { cbn [effect]. split; [rewrite lookup_insert_eq; eauto|]. intros k Hk Hl.
    apply lookup_insert_is_Some' in Hk as [<-|Hk]; [by vm_compute|].
    apply lookup_insert_is_Some' in Hk as [<-|Hk]; [by rewrite marker_not_lock in Hl|].
    destruct Hk as [? Hk]. cbn [store ex_alone ex_holds] in Hk.
    apply lookup_singleton_Some in Hk as [<- _]. by vm_compute. }
  pose proof (take_client ex_sid any_order _ 1%nat (AList ex_key2 true) _ _ [] H3 eq_refl
    (p_list Marked ex_key2 true) Hfirst) as H4.
  pose proof (take_client ex_sid any_order _ 1%nat (ADel ex_key2) _ _ [] H4 eq_refl
    (p_registered ex_key2) I) as H5.
  eexists. split; [exact H5|]. split; reflexivity.
Qed.
