(* ===== verification/Repo.v ===== *)
(** * The repository handle (crates/vykar-core/src/repo/mod.rs)

    The part of [Repository] that reads and writes the persistent state: the
    index object, its generation and the manifest in memory.  Local caches
    live outside the repository's store and are not part of it (DedupCache.v
    treats their contents).  What the process draws at random for one save,
    the generation and the nonce, is [draws n] for the [n]-th save; the fence
    installed by the lock is an operation [fence] of the storage monad. *)

From S2P Require Import Prelude Types Storage ChunkIndex Pack.
From S2P Require Import Crypto Format Compress DedupCache Retention Lock.
#[local] Open Scope string_scope.
#[local] Open Scope list_scope.
#[local] Open Scope Z_scope.

Definition INDEX_OBJECT_CONTEXT : bytes := str_bytes "index".

(** The fields of [Repository] that are state of the repository; [drawn]
    counts the saves. *)
Record Repository := mkRepo {
  manifest : Manifest;
  chunk_index : ChunkIndex;
  index_generation : Z;
  index_dirty : bool;
  drawn : nat;
}.

(** [chunk_index_mut]: a change of the index marks it dirty. *)
Definition set_chunk_index (ix : ChunkIndex) (r : Repository) : Repository :=
  mkRepo (manifest r) ix (index_generation r) true (drawn r).

(** MessagePack of the index: an entry takes at most 160 bytes (two 32-byte
    strings and four integers with their headers), the rest at most 1024. *)
Class IndexCodec := {
  index_msgpack :: MsgPack IndexBlob;
  index_size : forall generation ix, u64 generation -> wf_index ix ->
    blen (mp_encode (mkIndexBlob generation ix)) <= 1024 + 160 * Z.of_nat (size ix);
}.

Section Repo.
Context (e : CryptoEngine) `{Codecs} `{IndexCodec}.
Context (draws : nat -> Z * bytes) (fence : M unit).

Definition decode_index_blob_full (index_data : bytes) : res IndexBlob :=
  compressed ← unpack_object_expect_with_context e index_data OChunkIndex INDEX_OBJECT_CONTEXT;
  index_bytes ← decompress_metadata compressed;
  ok_or (mp_decode index_bytes) Deserialization.

Definition reload_full_index_with_generation : M (Z * ChunkIndex) :=
  d ← get "index";
  match d with
  | Some index_data =>
      b ← lift (decode_index_blob_full index_data);
      mret (blob_generation b, blob_chunks b)
  | None => mret (0, ∅)
  end.

Definition reload_full_index : M ChunkIndex :=
  p ← reload_full_index_with_generation; mret p.2.

Definition load_chunk_index (r : Repository) : M Repository :=
  p ← reload_full_index_with_generation;
  _ ← ignore (put "index.gen" (le_bytes 8 p.1));
  mret (mkRepo (manifest r) p.2 p.1 (index_dirty r) (drawn r)).

(** The object [persist_index] writes. *)
Definition index_object (generation : Z) (nonce : bytes) (ix : ChunkIndex) : res bytes :=
  pack_object_streaming_with_context e OChunkIndex INDEX_OBJECT_CONTEXT nonce
    (fun buf => compress_stream_zstd buf 3 (mp_encode (mkIndexBlob generation ix))).

Definition persist_index (r : Repository) : M Repository :=
  let generation := index_generation r in
  index_packed ← lift (index_object generation (draws (drawn r)).2 (chunk_index r));
  _ ← fence;
  _ ← put "index" index_packed;
  _ ← ignore (put "index.gen" (le_bytes 8 generation));
  mret (mkRepo (manifest r) (chunk_index r) generation false (S (drawn r))).

(** [save_state] of a repository without a write session, as compact, delete
    and prune run it. *)
Definition save_state (r : Repository) : M Repository :=
  if index_dirty r then
    persist_index (mkRepo (manifest r) (chunk_index r) (draws (drawn r)).1 true (drawn r))
  else mret r.

(** ** Laws *)

Context {Hlaw : LawfulEngine e}.

(** An index the metadata reader accepts again. *)
Definition index_fits (ix : ChunkIndex) : Prop :=
  wf_index ix /\ 1024 + 160 * Z.of_nat (size ix) <= MAX_METADATA_DECOMPRESS_SIZE.

Lemma index_object_decodes generation nonce ix data :
  length nonce = NONCE_LEN -> u64 generation -> index_fits ix ->
  index_object generation nonce ix = Ok data ->
  decode_index_blob_full data = Ok (mkIndexBlob generation ix).
Proof.
  intros Hn Hg [Hwf Hsize] Hobj. pose proof (index_size generation ix Hg Hwf) as Hfit. unfold index_object, compress_stream_zstd in Hobj.
  set (plain := mp_encode _) in *. destruct (zstd_encoder 3 plain) as [out|] eqn:Hz.
  - unfold pack_object_streaming_with_context in Hobj.
    rewrite (stream_with_aad_eq e _ _ ([TAG_ZSTD] ++ out)) in Hobj by done.
    unfold decode_index_blob_full. rewrite (unpack_expected e _ _ _ _ _ Hn Hobj).
    cbn [mbind result_bind mret result_ret app]. unfold decompress_metadata.
    change (TAG_ZSTD =? TAG_NONE) with false. change (TAG_ZSTD =? TAG_LZ4) with false.
    change (TAG_ZSTD =? TAG_ZSTD) with true. cbv match. unfold zstd_stream_branch.
    rewrite (zstd_encoder_round_trip _ _ _ (MAX_METADATA_DECOMPRESS_SIZE + 1) Hz) by lia.
    cbn [ok_or mbind result_bind mret result_ret].
    destruct (Z.ltb_spec MAX_METADATA_DECOMPRESS_SIZE (blen plain)); [lia|].
    cbn [mbind result_bind mret result_ret]. unfold plain. by rewrite mp_decode_encode.
  - unfold pack_object_streaming_with_context, stream_with_aad in Hobj.
    by destruct (is_encrypting e).
Qed.

(** The index that is in the store. *)
Definition index_of (s : Store) (ix : ChunkIndex) : Prop :=
  exists data generation, s !! "index" = Some data /\
    decode_index_blob_full data = Ok (mkIndexBlob generation ix).

(** Reloading answers the index that is in the store, or fails. *)
Lemma reload_full_index_of s ix (P : Store -> Prop) :
  index_of s ix -> P s ->
  triple (fun s' => s' = s) reload_full_index (fun ix' s' => s' = s /\ ix' = ix) P.
Proof.
  intros (data & g & Hd & Hdec) HP.
  eapply triple_bind with (R := fun p s' => s' = s /\ p.2 = ix).
  - eapply triple_bind; [apply triple_reading; by intros ? ->|]. intros d.
    destruct d as [index_data|].
    + eapply triple_bind with (R := fun b s' => s' = s /\ blob_chunks b = ix).
      * apply triple_lift. intros s' [-> Hi]. rewrite Hd in Hi. injection Hi as ->. by rewrite Hdec.
      * intros b. apply triple_ret. by intros s' [-> Hb].
    + apply triple_ret. intros s' [-> Hi]. by rewrite Hd in Hi.
  - intros p. apply triple_ret. intros s' [-> Hp]. done.
Qed.

(** Saving a dirty index: the store changes in the index object and its
    generation file only, and the index in it is the new one. *)
Lemma triple_save_state r (P Q E : Store -> Prop) :
  index_dirty r = true -> index_fits (chunk_index r) ->
  (forall n, u64 (draws n).1 /\ length (draws n).2 = NONCE_LEN) ->
  preserves P fence -> (forall s, P s -> E s) ->
  (forall s data, P s -> index_of (<["index" := data]> s) (chunk_index r) -> Q (<["index" := data]> s)) ->
  (forall s data, Q s -> Q (<["index.gen" := data]> s)) -> (forall s, Q s -> E s) ->
  triple P (save_state r)
    (fun r' s => Q s /\ chunk_index r' = chunk_index r /\ manifest r' = manifest r) E.
Proof.
  intros Hdirty Hfit Hn Hfence HPE HQ Hgen HQE. unfold save_state. rewrite Hdirty.
  eapply triple_bind with (R := fun data s => P s /\
    decode_index_blob_full data = Ok (mkIndexBlob (draws (drawn r)).1 (chunk_index r))).
  { apply triple_lift. intros s HP. cbn [index_generation chunk_index drawn].
    destruct (index_object _ _ _) as [data|] eqn:Ho; [|by apply HPE].
    split; [done|]. destruct (Hn (drawn r)). by eapply index_object_decodes. }
  intros data. eapply triple_bind with (R := fun _ s => P s /\
    decode_index_blob_full data = Ok (mkIndexBlob (draws (drawn r)).1 (chunk_index r))).
  { intros w [HP Hd]. specialize (Hfence w HP). destruct (fence w) as [[u|err] w']; [done|].
    by apply HPE. }
  intros _. eapply triple_bind with (R := fun _ s => Q s).
  { apply triple_writing; [by intros s [HP _]; apply HPE|].
    intros s [HP Hd]. assert (Hq : Q (<["index" := data]> s)); [|auto].
    apply HQ; [done|]. exists data, (draws (drawn r)).1. by rewrite lookup_insert_eq. }
  intros _. eapply triple_bind with (R := fun _ s => Q s).
  { eapply triple_weaken with (P := Q) (Q := fun _ => Q) (E := Q); [|done|done|done].
    apply preserves_ignore, preserves_writing. auto. }
  intros _. apply triple_ret. intros s HQs. by split.
Qed.
End Repo.

(** ** What the packs hold *)

Section Holds.
Context `{HexCodec} `{Codecs} `{IndexCodec}.

(** Stores that differ at most in locks and the advisory generation file. *)
Definition agree (s1 s : Store) : Prop :=
  forall k, is_lock_key k = false -> k <> "index.gen" -> s !! k = s1 !! k.

(** The fence touches lock objects only. *)
Definition only_locks (fence : M unit) : Prop :=
  forall w k, is_lock_key k = false -> objects (exec fence w) !! k = objects w !! k.

(** The blob is where an index entry says it is. *)
Definition holds (s : Store) (en : ChunkIndexEntry) (b : bytes) : Prop :=
  exists data, s !! pack_storage_key (pack_id en) = Some data /\ 0 <= pack_offset en /\
    slice (Z.to_nat (pack_offset en)) (Z.to_nat (stored_size en)) data = b /\
    Z.of_nat (length b) = stored_size en.

(** Every blob of the index can be read; [content] gives the stored blob of
    each chunk. *)
Definition readable (content : ChunkId -> bytes) (s : Store) (ix : ChunkIndex) : Prop :=
  forall id en, ix !! id = Some en -> holds s en (content id).

Lemma pack_key_plain p : is_lock_key (pack_storage_key p) = false /\
  pack_storage_key p <> "index.gen" /\ pack_storage_key p <> "index".
Proof. split; [reflexivity|]. split; discriminate. Qed.

Lemma agree_refl s : agree s s.
Proof. done. Qed.

Lemma agree_pack s1 s p : agree s1 s -> s !! pack_storage_key p = s1 !! pack_storage_key p.
Proof. intros Ha. destruct (pack_key_plain p) as (? & ? & _). by apply Ha. Qed.

Lemma agree_index e s1 s ix : agree s1 s -> index_of e s1 ix -> index_of e s ix.
Proof. intros Ha (d & g & Hd & Hx). exists d, g. by rewrite Ha. Qed.

Lemma agree_readable content s1 s ix : agree s1 s -> readable content s1 ix -> readable content s ix.
Proof.
  intros Ha Hr id en Hen. destruct (Hr id en Hen) as (d & Hd & Hx). exists d.
  by rewrite (agree_pack s1).
Qed.

Lemma fence_agree fence s1 : only_locks fence -> preserves (agree s1) fence.
Proof.
  intros fence_locks w Hw. assert (Hx : agree s1 (objects (exec fence w))).
  { intros k Hk Hg. rewrite fence_locks by done. by apply Hw. }
  unfold exec in Hx. by destruct (fence w) as [[] ?].
Qed.

(** Reason from the store at the start. *)
Lemma triple_at {A} (P : Store -> Prop) (m : M A) Q E :
  (forall s1, P s1 -> triple (agree s1) m Q E) -> triple P m Q E.
Proof. intros Hm w HP. by apply (Hm (objects w)). Qed.
End Holds.

(** ** A codec of that size

    The witness that the law of [IndexCodec] can hold: the table format of the
    local caches for well-typed indexes. *)

#[export] Instance IndexBlob_eq_dec : EqDecision IndexBlob.
Proof. solve_decision. Defined.
#[export] Program Instance ChunkIndexEntry_countable : Countable ChunkIndexEntry :=
  inj_countable' (fun e => (refcount e, stored_size e, pack_id e, pack_offset e))
    (fun t => mkEntry t.1.1.1 t.1.1.2 t.1.2 t.2) _.
Next Obligation. by intros []. Qed.
#[export] Program Instance IndexBlob_countable : Countable IndexBlob :=
  inj_countable' (fun b => (blob_generation b, blob_chunks b)) (fun t => mkIndexBlob t.1 t.2) _.
Next Obligation. by intros []. Qed.

Definition table_encode (b : IndexBlob) : bytes :=
  if decide (wf_index (blob_chunks b) /\ u64 (blob_generation b)) then
    0 :: mmap (full_mmap (full_of <$> map_to_list (blob_chunks b)) (blob_generation b))
  else 1 :: bits_encode b.

Definition table_decode (d : bytes) : option IndexBlob :=
  match d with
  | [] => None
  | 0 :: bs =>
      let n := ((length bs - HEADER_SIZE) / FULL_ENTRY_SIZE)%nat in
      let g := le_value (slice 12 8 bs) in
      Some (mkIndexBlob g (list_to_map (entry_of <$> full_iter (mkMmap bs (Z.of_nat n) g))))
  | _ :: bs => bits_decode bs
  end.

Lemma full_list_wf ix : wf_index ix -> Forall wf_full (full_of <$> map_to_list ix).
Proof.
  intros Hwf. apply Forall_fmap, Forall_forall. intros [id en] Hin%elem_of_map_to_list.
  unfold wf_full, compose. rewrite entry_of_full_of. by apply Hwf.
Qed.

Lemma length_full_mmap es g :
  Forall wf_full es -> length (mmap (full_mmap es g)) = (HEADER_SIZE + length es * FULL_ENTRY_SIZE)%nat.
Proof.
  intros Hwf. unfold full_mmap. cbn [mmap]. rewrite length_app.
  rewrite (length_table FULL_ENTRY_SIZE fc_chunk_id write_full_entry) by (by apply wf_full_enc_ok).
  unfold cache_header. rewrite !length_app, !length_le_bytes. done.
Qed.

Lemma table_decode_encode b : table_decode (table_encode b) = Some b.
Proof.
  unfold table_encode. destruct (decide _) as [[Hwf Hg]|_]; [|apply bits_decode_encode].
  destruct b as [g ix]. cbn [blob_chunks blob_generation] in *. set (es := full_of <$> map_to_list ix).
  pose proof (full_list_wf ix Hwf) as Hes. fold es in Hes.
  unfold table_decode. rewrite length_full_mmap by done.
  replace ((HEADER_SIZE + length es * FULL_ENTRY_SIZE - HEADER_SIZE) / FULL_ENTRY_SIZE)%nat with (length es).
  2:{ rewrite Nat.add_comm, Nat.add_sub, Nat.div_mul; [done|unfold FULL_ENTRY_SIZE; lia]. }
  assert (Hgen : le_value (slice 12 8 (mmap (full_mmap es g))) = g).
  { unfold full_mmap, cache_header. cbn [mmap]. rewrite <- !app_assoc. rewrite (app_assoc FULL_MAGIC).
    rewrite (slice_mid 12 8) by (rewrite ?length_app, ?length_le_bytes; done). by apply le_value_bytes_u64. }
  rewrite Hgen. change (mkMmap (mmap (full_mmap es g)) (Z.of_nat (length es)) g) with (full_mmap es g).
  rewrite full_iter_full by done. unfold es. do 2 f_equal. rewrite <- list_fmap_compose.
  rewrite (list_fmap_ext _ id); [by rewrite list_fmap_id, list_to_map_to_list|].
  intros i kv _. apply entry_of_full_of.
Qed.

#[export] Program Instance table_codec : IndexCodec := {|
  index_msgpack := {| mp_encode := table_encode; mp_decode := table_decode;
                      mp_decode_encode := table_decode_encode |};
|}.
Next Obligation.
  intros g ix Hg Hwf. cbn [mp_encode]. unfold table_encode. cbn [blob_chunks blob_generation].
  rewrite decide_True by done. unfold blen. cbn [length]. rewrite length_full_mmap by (by apply full_list_wf).
  rewrite length_fmap, length_map_to_list. unfold HEADER_SIZE, FULL_ENTRY_SIZE. lia.
Qed.
