(* ===== verification/Compact.v ===== *)
(** * Compaction (crates/vykar-core/src/commands/compact.rs)

    Compaction rewrites packs with too much dead space and deletes packs
    without live blobs.  Phase 1 (worker threads in the code, one pack after
    the other here; the order of its result is the order of arrival) compares
    every pack object with the index; phase 2 handles the selected packs one
    at a time: copy the live blobs to a new pack, save the index, delete the
    old pack.

    The comparison of the unused ratio with the threshold is in floating
    point: an argument [over_threshold dead payload].  The shutdown flag is an
    argument [check_interrupted]; [server_repack] is the method of the storage
    backend, which answers [UnsupportedBackend] unless the backend is a vykar
    server. *)

From S2P Require Import Prelude Types Protocol Storage ChunkIndex Pack.
From S2P Require Import Crypto Format Compress DedupCache Retention Lock Repo.
#[local] Open Scope string_scope.
#[local] Open Scope list_scope.
#[local] Open Scope Z_scope.

Record CompactStats := mkStats {
  packs_total : Z;
  packs_repacked : Z;
  packs_deleted_empty : Z;
  blobs_live : Z;
  space_freed : Z;
  packs_corrupt : Z;
  packs_orphan : Z;
}.
Definition stats_default : CompactStats := mkStats 0 0 0 0 0 0 0.

Record LiveEntry := mkLive { live_chunk_id : ChunkId; live_offset : Z; live_length : Z }.

Record PackAnalysis := mkAnalysis {
  an_pack_id : PackId;
  storage_key : string;
  live_entries : list LiveEntry;
  total_bytes : Z;
  dead_bytes : Z;
}.

Definition add_stats (total repacked deleted live freed corrupt orphan : Z) (st : CompactStats) : CompactStats :=
  mkStats (packs_total st + total) (packs_repacked st + repacked) (packs_deleted_empty st + deleted)
    (blobs_live st + live) (space_freed st + freed) (packs_corrupt st + corrupt) (packs_orphan st + orphan).

(** The entries of one pack in [per_pack_lookup]. *)
Definition pack_entries (ix : ChunkIndex) (p : PackId) : list LiveEntry :=
  (fun kv => mkLive kv.1 (pack_offset kv.2) (stored_size kv.2)) <$>
    filter (fun kv => pack_id kv.2 = p) (map_to_list ix).

Section Compact.
Context `{HexCodec} `{Blake2b} (e : CryptoEngine) `{Codecs} `{IndexCodec}.
Context (draws : nat -> Z * bytes) (fence : M unit).
Context (over_threshold : Z -> Z -> bool) (check_interrupted : M unit) (now : Z).
Context (server_repack : RepackPlanRequest -> M (list RepackOperationResult)).

(** ** Phase 1 *)

(** The keys of one shard directory that name packs. *)
Definition shard_packs (keys : list string) : list (string * PackId) :=
  omap (fun key => if ends_with key "/" then None
                   else match pack_from_storage_key key with Ok id => Some (key, id) | Err _ => None end) keys.

(** Every shard is listed; the first error is reported at the end. *)
Fixpoint list_shards (shards : list Z) (found : list (string * PackId)) (err : option VykarError) :
    M (list (string * PackId)) :=
  match shards with
  | [] => match err with None => mret found | Some er => fail er end
  | shard :: shards' =>
      r ← try_ (list_keys ("packs/" +:+ hex_encode [shard] +:+ "/"));
      match r with
      | Ok keys => list_shards shards' (found ++ shard_packs keys) err
      | Err er => list_shards shards' found (Some (default er err))
      end
  end.

Definition parallel_list_packs : M (list (string * PackId)) :=
  list_shards (Z.of_nat <$> seq 0 256) [] None.

Definition live_before (a b : LiveEntry) : bool := live_offset a <=? live_offset b.

(** One pack of phase 1: what it adds to the analyses and the counters. *)
Definition analyze_pack (ix : ChunkIndex) (key : string) (p : PackId)
    (acc : list PackAnalysis * CompactStats) : M (list PackAnalysis * CompactStats) :=
  let '(found, st) := acc in
  let header := Z.of_nat PACK_HEADER_SIZE in
  r ← try_ (size_of key);
  match r with
  | Ok None | Err _ => mret (found, add_stats 1 0 0 0 0 1 0 st)
  | Ok (Some pack_size) =>
      match pack_entries ix p with
      | [] =>
          let payload := sat_sub pack_size header in
          mret (if 0 <? payload then found ++ [mkAnalysis p key [] payload payload] else found,
                add_stats 1 0 0 0 0 0 1 st)
      | entries =>
          let live_bytes := sum_Z (fun en => 4 + live_length en) entries in
          if (pack_size <? header) || (pack_size - header <? live_bytes) then
            mret (found, add_stats 1 0 0 0 0 1 0 st)
          else
            let payload := pack_size - header in
            let dead := payload - live_bytes in
            let st := add_stats 1 0 0 (Z.of_nat (length entries)) 0 0 0 st in
            if dead =? 0 then mret (found, st)
            else if over_threshold dead payload then
              mret (found ++ [mkAnalysis p key (sort_by live_before entries) payload dead], st)
            else mret (found, st)
      end
  end.

Fixpoint analyze_packs (ix : ChunkIndex) (discovered : list (string * PackId))
    (acc : list PackAnalysis * CompactStats) : M (list PackAnalysis * CompactStats) :=
  match discovered with
  | [] => mret acc
  | (key, p) :: rest => acc' ← analyze_pack ix key p acc; analyze_packs ix rest acc'
  end.

Definition more_dead (a b : PackAnalysis) : bool := dead_bytes b <=? dead_bytes a.

Fixpoint select_loop (cap : option Z) (total : Z) (analyses : list PackAnalysis) : list PackAnalysis :=
  match analyses with
  | [] => []
  | a :: rest =>
      if match cap with Some c => c <=? total | None => false end then []
      else a :: select_loop cap (u64_sat_add total (total_bytes a)) rest
  end.
Definition select_analyses_by_cap (analyses : list PackAnalysis) (cap : option Z) : list PackAnalysis :=
  select_loop cap 0 analyses.

Definition dry_run_stats (selected : list PackAnalysis) (st : CompactStats) : CompactStats :=
  foldl (fun st a => match live_entries a with
                     | [] => add_stats 0 0 1 0 (dead_bytes a) 0 0 st
                     | _ => add_stats 0 1 0 0 (dead_bytes a) 0 0 st
                     end) st selected.

(** ** Repacking by the server *)

Definition repack_operation (a : PackAnalysis) : RepackOperationRequest :=
  mkRepackOp (storage_key a) ((fun en => mkRepackBlobRef (live_offset en) (live_length en)) <$> live_entries a) true.

(** [completed_by_source] keeps the last result of a source and gives each
    out once. *)
Definition result_of (key : string) (completed : list RepackOperationResult) : option RepackOperationResult :=
  List.find (fun r => String.eqb (res_source_pack r) key) (rev completed).
Definition without_source (key : string) (completed : list RepackOperationResult) : list RepackOperationResult :=
  List.filter (fun r => negb (String.eqb (res_source_pack r) key)) completed.

Definition move_entries (p : PackId) (moved : list (LiveEntry * Z)) (ix : ChunkIndex) : ChunkIndex :=
  foldl (fun ix m => (update_location (live_chunk_id m.1) p m.2 (live_length m.1) ix).2) ix moved.

Fixpoint apply_server_results (analyses : list PackAnalysis) (completed : list RepackOperationResult)
    (ix : ChunkIndex) (dirty : bool) (st : CompactStats) : res (ChunkIndex * bool * CompactStats) :=
  match analyses with
  | [] => Ok (ix, dirty, st)
  | a :: rest =>
      match result_of (storage_key a) completed with
      | None => Err (Other "server repack response missing operation")
      | Some r =>
          let completed := without_source (storage_key a) completed in
          match live_entries a with
          | [] =>
              apply_server_results rest completed ix dirty
                (if deleted r then add_stats 0 0 1 0 (total_bytes a) 0 0 st else st)
          | _ =>
              match new_pack r with
              | None => Err (Other "server repack did not return new pack")
              | Some new_pack_key =>
                  match pack_from_storage_key new_pack_key with
                  | Err _ => Err (Other "server repack returned invalid pack key")
                  | Ok p =>
                      if negb (length (new_offsets r) =? length (live_entries a))%nat then
                        Err (Other "server repack offsets mismatch")
                      else
                        apply_server_results rest completed
                          (move_entries p (zip (live_entries a) (new_offsets r)) ix) true
                          (add_stats 0 1 0 0 (if deleted r then dead_bytes a else 0) 0 0 st)
                  end
              end
          end
      end
  end.

Definition try_server_side_repack (r : Repository) (analyses : list PackAnalysis) (st : CompactStats) :
    M (option (Repository * CompactStats)) :=
  match analyses with
  | [] => mret (Some (r, st))
  | _ =>
      resp ← try_ (server_repack (mkRepackPlan (repack_operation <$> analyses) PROTOCOL_VERSION));
      match resp with
      | Err (UnsupportedBackend _) => mret None
      | Err er => fail er
      | Ok completed =>
          out ← lift (apply_server_results analyses completed (chunk_index r) (index_dirty r) st);
          let '(ix, dirty, st) := out in
          r' ← save_state e draws fence (mkRepo (manifest r) ix (index_generation r) dirty (drawn r));
          mret (Some (r', st))
      end
  end.

(** ** Phase 2 *)

Definition header_valid (header : bytes) : bool :=
  (length header =? PACK_HEADER_SIZE)%nat && bool_decide (take 8 header = PACK_MAGIC) &&
  (PACK_VERSION_MIN <=? nth 8 header 0) && (nth 8 header 0 <=? PACK_VERSION_MAX).

(** Copy the live blobs of a pack into a writer. *)
Fixpoint copy_live (key : string) (entries : list LiveEntry) (w : PackWriter) : M PackWriter :=
  match entries with
  | [] => mret w
  | en :: entries' =>
      if live_offset en <? 4 then fail (Other "no room for length prefix")
      else
        let read_len := 4 + live_length en in
        r ← get_range key (live_offset en - 4) read_len;
        match r with
        | None => fail (Other "pack not found")
        | Some combined =>
            if negb (Z.of_nat (length combined) =? read_len) then fail (Other "short read from pack")
            else if negb (le_value (take 4 combined) =? live_length en) then
              fail (Other "on-disk length differs from the index")
            else copy_live key entries' (add_blob now (live_chunk_id en) (drop 4 combined) w).2
        end
  end.

Definition relocate (p : PackId) (entries : list PackedChunkEntry) (ix : ChunkIndex) : ChunkIndex :=
  foldl (fun ix en => (update_location (pc_chunk_id en) p (pc_offset en) (pc_stored_size en) ix).2) ix entries.

(** One pack with live blobs: [None] when its header is invalid. *)
Definition repack_one (target : Z) (a : PackAnalysis) (r : Repository) : M (option Repository) :=
  h ← get_range (storage_key a) 0 (Z.of_nat PACK_HEADER_SIZE);
  match h with
  | None => fail (Other "pack disappeared during repack")
  | Some header =>
      if negb (header_valid header) then mret None
      else
        w ← copy_live (storage_key a) (live_entries a) (writer_new Data target);
        fl ← flush w;
        let '(new_pack_id, new_entries, _) := fl in
        r' ← save_state e draws fence (set_chunk_index (relocate new_pack_id new_entries (chunk_index r)) r);
        _ ← del (storage_key a);
        mret (Some r')
  end.

Fixpoint repack_loop (target : Z) (cap : option Z) (selected : list PackAnalysis)
    (r : Repository) (st : CompactStats) (repacked_bytes : Z) : M (Repository * CompactStats) :=
  match selected with
  | [] => mret (r, st)
  | a :: rest =>
      _ ← check_interrupted;
      if match cap with Some c => c <=? repacked_bytes | None => false end then mret (r, st)
      else
        match live_entries a with
        | [] =>
            _ ← del (storage_key a);
            repack_loop target cap rest r (add_stats 0 0 1 0 (total_bytes a) 0 0 st) repacked_bytes
        | _ =>
            o ← repack_one target a r;
            match o with
            | None => repack_loop target cap rest r (add_stats 0 0 0 0 0 1 0 st) repacked_bytes
            | Some r' =>
                repack_loop target cap rest r' (add_stats 0 1 0 0 (dead_bytes a) 0 0 st)
                  (repacked_bytes + total_bytes a)
            end
        end
  end.

Definition compact_repo (min_pack_size : Z) (cap : option Z) (dry_run : bool) (r : Repository) :
    M (Repository * CompactStats) :=
  discovered ← parallel_list_packs;
  an ← analyze_packs (chunk_index r) discovered ([], stats_default);
  let '(analyses, st) := an in
  _ ← check_interrupted;
  let selected := select_analyses_by_cap (sort_by more_dead analyses) cap in
  if dry_run then mret (r, dry_run_stats selected st)
  else
    served ← try_server_side_repack r selected st;
    match served with
    | Some out => mret out
    | None =>
        _ ← fence;
        out ← repack_loop min_pack_size cap selected r st 0;
        let '(r, st) := out in
        if (0 <? packs_repacked st) || (0 <? packs_deleted_empty st) then
          r' ← save_state e draws fence r; mret (r', st)
        else mret (r, st)
    end.
End Compact.

(** ** Safety of phase 2 *)

Section Safety.
Context `{Hhex : HexCodec} `{Hblake : Blake2b} (e : CryptoEngine).
Context `{Hcodecs : Codecs} `{Hmp : IndexCodec} {Hlaw : LawfulEngine e}.
Context (draws : nat -> Z * bytes).
Context (draws_typed : forall n, u64 (draws n).1 /\ length (draws n).2 = NONCE_LEN).
Context (fence : M unit) (check_interrupted : M unit) (now : Z).
(** The fence touches lock objects only, the shutdown flag nothing. *)
Context (fence_locks : only_locks fence).
Context (interrupted_pure : forall w, objects (exec check_interrupted w) = objects w).
(** The stored blob of each chunk. *)
Context (content : ChunkId -> bytes).

#[local] Abbreviation readable := (readable content).

(** Equal up to the location of the chunks. *)
Definition same_chunks (ix ix' : ChunkIndex) : Prop :=
  forall id, (fun en => (refcount en, stored_size en)) <$> ix !! id =
             (fun en => (refcount en, stored_size en)) <$> ix' !! id.

(** No chunk of [ix0] is lost: the index in the store has the same chunks and
    references, and every blob is where it says. *)
Definition nothing_lost (ix0 : ChunkIndex) (s : Store) : Prop :=
  exists ix, index_of e s ix /\ same_chunks ix0 ix /\ readable s ix.

(** The pack written for an analysis. *)
Definition new_data (a : PackAnalysis) : bytes :=
  pack_of ((fun en => content (live_chunk_id en)) <$> live_entries a).
Definition new_id (a : PackAnalysis) : PackId := pack_id_compute (new_data a).

(** What is needed of the selected packs: they are different packs under
    their own names; no two different packs in play have the same hash; and
    no selected pack is itself the outcome of repacking a selected one. *)
Record plan_ok (l : list PackAnalysis) : Prop := {
  plan_nodup : NoDup (an_pack_id <$> l);
  plan_key : forall a, a ∈ l -> storage_key a = pack_storage_key (an_pack_id a);
  plan_id : forall a, a ∈ l -> is_id (pack_bytes (an_pack_id a));
  plan_live : forall a, a ∈ l -> NoDup (live_chunk_id <$> live_entries a);
  plan_hash : forall a b, a ∈ l -> b ∈ l -> new_id a = new_id b -> new_data a = new_data b;
  plan_small : forall a, a ∈ l -> u64 (Z.of_nat (length (new_data a)));
  plan_fresh : forall a b, a ∈ l -> b ∈ l -> live_entries a <> [] -> new_id a <> an_pack_id b;
}.

Record Inv (ix0 : ChunkIndex) (s : Store) (ix : ChunkIndex) (l : list PackAnalysis) : Prop := {
  i_index : index_of e s ix;
  i_same : same_chunks ix0 ix;
  i_typed : wf_index ix;
  i_read : readable s ix;
  i_live : forall b id en, b ∈ l -> ix !! id = Some en -> pack_id en = an_pack_id b ->
    mkLive id (pack_offset en) (stored_size en) ∈ live_entries b;
  i_back : forall b en, b ∈ l -> en ∈ live_entries b ->
    exists en', ix !! live_chunk_id en = Some en' /\ pack_id en' = an_pack_id b /\
      pack_offset en' = live_offset en /\ stored_size en' = live_length en;
  i_hash : forall b d, b ∈ l -> s !! pack_storage_key (new_id b) = Some d -> d = new_data b;
}.

Context (ix0 : ChunkIndex) (Hsize : 1024 + 160 * Z.of_nat (size ix0) <= MAX_METADATA_DECOMPRESS_SIZE).

Lemma same_chunks_fits ix : same_chunks ix0 ix -> wf_index ix -> index_fits ix.
Proof.
  intros Hs Hwf. split; [done|]. replace (size ix) with (size ix0); [done|].
  rewrite <- !size_dom. f_equal. apply set_eq. intros id. rewrite !elem_of_dom.
  specialize (Hs id). destruct (ix0 !! id), (ix !! id); try done; split; intros [? ?]; eauto.
Qed.

Lemma agree_inv s1 s ix l : agree s1 s -> Inv ix0 s1 ix l -> Inv ix0 s ix l.
Proof.
  intros Ha [H1 H2 H3 H4 H5 H6 H7]. constructor; try done.
  - by eapply agree_index.
  - by eapply agree_readable.
  - intros b d Hb. rewrite (agree_pack s1) by done. by apply H7.
Qed.

Lemma inv_safe s ix l : Inv ix0 s ix l -> nothing_lost ix0 s.
Proof. intros [H1 H2 H3 H4 _ _ _]. by exists ix. Qed.

(** ** Copying the live blobs *)

Definition copy_ops (entries : list LiveEntry) : list writer_op :=
  (fun en => WAdd now (live_chunk_id en) (content (live_chunk_id en))) <$> entries.

Lemma added_copy_ops entries :
  added (copy_ops entries) = (fun en => (live_chunk_id en, content (live_chunk_id en))) <$> entries.
Proof. induction entries as [|en entries IH]; [done|]. csimpl. by rewrite IH. Qed.

Lemma copy_live_spec s1 p data entries w E :
  s1 !! pack_storage_key p = Some data ->
  (forall en, en ∈ entries -> 0 <= live_length en /\
     slice (Z.to_nat (live_offset en)) (Z.to_nat (live_length en)) data = content (live_chunk_id en)) ->
  (forall s, agree s1 s -> E s) ->
  triple (agree s1) (copy_live now (pack_storage_key p) entries w)
    (fun w' s => agree s1 s /\ w' = foldl run_writer w (copy_ops entries)) E.
Proof.
  intros Hdata Hen HE. revert w. induction entries as [|en entries IH]; intros w.
  { apply triple_ret. done. }
  cbn [copy_live]. destruct (Z.ltb_spec (live_offset en) 4); [by apply triple_fail|].
  destruct (Hen en) as [Hlen Hslice]; [apply list_elem_of_here|].
  eapply triple_bind with (R := fun r s => agree s1 s /\
    (forall c, r = Some c -> c = slice (Z.to_nat (live_offset en - 4)) (Z.to_nat (4 + live_length en)) data)).
  { eapply triple_bind; [by apply triple_reading|]. intros o. destruct o as [d|].
    - cbv zeta. destruct (_ =? _); [|by apply triple_fail; intros s [? _]; apply HE].
      apply triple_ret. intros s [Ha Hd]. split; [done|]. intros c [= <-].
      rewrite (agree_pack s1), Hdata in Hd by done. by injection Hd as ->.
    - apply triple_ret. by intros s [Ha _]. }
  intros [combined|]; [|by apply triple_fail; intros s [? _]; apply HE].
  destruct (negb (Z.of_nat (length combined) =? 4 + live_length en));
    [by apply triple_fail; intros s [? _]; apply HE|].
  destruct (negb _); [by apply triple_fail; intros s [? _]; apply HE|].
  intros ws [Hw Hc]. specialize (Hc combined eq_refl). subst combined.
  assert (Hd4 : drop 4 (slice (Z.to_nat (live_offset en - 4)) (Z.to_nat (4 + live_length en)) data) =
    content (live_chunk_id en)).
  { rewrite <- Hslice. unfold slice. rewrite skipn_firstn_comm, drop_drop. f_equal; [lia|]. f_equal. lia. }
  rewrite Hd4. refine (IH _ _ ws Hw). intros en' Hin. apply Hen. set_solver.
Qed.

(** ** The new locations *)

Lemma lookup_relocate p es ix id :
  NoDup (pc_chunk_id <$> es) ->
  relocate p es ix !! id =
    match List.find (fun en => bool_decide (pc_chunk_id en = id)) es with
    | Some en => (fun old => mkEntry (refcount old) (pc_stored_size en) p (pc_offset en)) <$> ix !! id
    | None => ix !! id
    end.
Proof.
  unfold relocate. revert ix. induction es as [|en es IH]; intros ix Hnd; [done|].
  cbn [foldl List.find]. rewrite fmap_cons in Hnd. apply NoDup_cons in Hnd as [Hn Hnd].
  rewrite IH by done. unfold update_location. case_bool_decide as Hid.
  - subst id. destruct (List.find _ es) as [en'|] eqn:Hf.
    + apply find_some in Hf as [Hin Hb%bool_decide_eq_true]. exfalso. apply Hn.
      apply list_elem_of_fmap. exists en'. split; [done|]. by apply list_elem_of_In.
    + destruct (ix !! pc_chunk_id en) eqn:Hx; simpl; [by rewrite lookup_insert_eq|done].
  - assert (Hsame : (match ix !! pc_chunk_id en with
      | Some old => (true, <[pc_chunk_id en := mkEntry (refcount old) (pc_stored_size en) p (pc_offset en)]> ix)
      | None => (false, ix) end).2 !! id = ix !! id).
    { destruct (ix !! pc_chunk_id en); simpl; [|done]. by rewrite lookup_insert_ne. }
    by rewrite Hsame.
Qed.

(** The entries sealed for the live blobs of a pack. *)
Definition new_entries_of (target : Z) (a : PackAnalysis) : list PackedChunkEntry :=
  seal_entries (pending (foldl run_writer (writer_new Data target) (copy_ops (live_entries a)))) 9
    ((fun b => mkMeta b.1 (blob_len b.2)) <$> added (copy_ops (live_entries a))).

Lemma seal_copy target a :
  live_entries a <> [] ->
  seal (foldl run_writer (writer_new Data target) (copy_ops (live_entries a))) =
    Ok (mkSealed (new_id a) (new_entries_of target a) (new_data a), writer_new Data target).
Proof.
  intros Hne. rewrite seal_run.
  - unfold new_id, new_data, new_entries_of. rewrite added_copy_ops.
    replace ((fun en => (live_chunk_id en, content (live_chunk_id en))) <$> live_entries a).*2
      with ((fun en => content (live_chunk_id en)) <$> live_entries a); [done|].
    by rewrite <- list_fmap_compose.
  - rewrite added_copy_ops. by destruct (live_entries a).
Qed.

Lemma seal_entries_sizes pend base bl :
  0 <= base -> Forall (fun b => fits b.2) bl ->
  Forall2 (fun b en => pc_chunk_id en = b.1 /\ pc_stored_size en = Z.of_nat (length b.2) /\
      0 <= pc_offset en <= base + Z.of_nat (length (frames bl.*2)))
    bl (seal_entries pend base ((fun b => mkMeta b.1 (blob_len b.2)) <$> bl)).
Proof.
  intros Hb Hf. revert base Hb. induction Hf as [|[id b] bl Hb Hbl IH]; intros base Hbase; [constructor|].
  rewrite !fmap_cons, frames_cons, length_app, length_frame. cbn [fst snd seal_entries] in *. constructor.
  - cbn [pc_chunk_id pc_stored_size pc_offset meta_chunk_id meta_stored_size fst snd].
    rewrite blob_len_fits by done. split_and!; [done|done|lia|lia].
  - cbn [meta_stored_size]. rewrite blob_len_fits by done.
    eapply Forall2_impl; [apply IH; lia|]. intros x y (? & ? & ?). split_and!; [done|done|lia|lia].
Qed.

(** Each live entry of a pack has one new entry, which cuts its blob out of
    the new pack. *)
Lemma new_entries_spec target a :
  Forall (fun en => fits (content (live_chunk_id en))) (live_entries a) ->
  Forall2 (fun en pe =>
      pc_chunk_id pe = live_chunk_id en /\
      pc_stored_size pe = Z.of_nat (length (content (live_chunk_id en))) /\
      0 <= pc_offset pe <= Z.of_nat (length (new_data a)) /\
      slice (Z.to_nat (pc_offset pe)) (Z.to_nat (pc_stored_size pe)) (new_data a) = content (live_chunk_id en))
    (live_entries a) (new_entries_of target a).
Proof.
  intros Hf. unfold new_entries_of. set (pend := pending _). rewrite added_copy_ops.
  set (bl := (fun en => (live_chunk_id en, content (live_chunk_id en))) <$> live_entries a).
  assert (Hfit : Forall (fun b : ChunkId * bytes => fits b.2) bl) by (by apply Forall_fmap).
  pose proof (seal_entries_sizes pend 9 bl ltac:(lia) Hfit) as Hs.
  pose proof (seal_entries_data pend pack_header bl Hfit) as Hd.
  change (Z.of_nat (length pack_header)) with 9 in Hd.
  assert (Hnd : pack_header ++ frames bl.*2 = new_data a).
  { unfold new_data, pack_of, bl. by rewrite <- list_fmap_compose. }
  assert (Hlen : 9 + Z.of_nat (length (frames bl.*2)) = Z.of_nat (length (new_data a))).
  { rewrite <- Hnd, length_app. change (length pack_header) with 9%nat. lia. }
  rewrite Hnd in Hd. pose proof (Forall2_both _ _ _ _ Hs Hd) as Hboth.
  clear Hs Hd Hnd. unfold bl in Hboth. apply Forall2_fmap_l in Hboth.
  eapply Forall2_impl; [exact Hboth|]. intros en pe [(H1 & H2 & H3) (H4 & _ & _)].
  cbn [fst snd] in *. rewrite <- Hlen. auto.
Qed.

(** ** One pack *)

Section OnePack.
Context (target : Z) (a : PackAnalysis) (l : list PackAnalysis) (s1 : Store) (ix : ChunkIndex).
Context (HI : Inv ix0 s1 ix (a :: l)) (Hplan : plan_ok (a :: l)) (Hne : live_entries a <> []).
#[local] Abbreviation ix2 := (relocate (new_id a) (new_entries_of target a) ix).
#[local] Abbreviation s2 := (<[pack_storage_key (new_id a) := new_data a]> s1).

Lemma live_indexed en : en ∈ live_entries a ->
  exists old, ix !! live_chunk_id en = Some old /\ pack_id old = an_pack_id a /\
    pack_offset old = live_offset en /\ stored_size old = live_length en /\
    holds s1 old (content (live_chunk_id en)) /\ u32 (stored_size old).
Proof.
  intros Hen. destruct (i_back _ _ _ _ HI a en) as (old & Hold & Hp & Ho & Hs); [apply list_elem_of_here|done|].
  exists old. split_and!; try done; [by apply (i_read _ _ _ _ HI)|by apply (i_typed _ _ _ _ HI) in Hold as (_ & _ & ? & _)].
Qed.

Lemma live_fits : Forall (fun en => fits (content (live_chunk_id en))) (live_entries a).
Proof.
  apply Forall_forall. intros en (old & _ & _ & _ & _ & (d & _ & _ & _ & Hlen) & Hu)%live_indexed.
  unfold fits. rewrite Hlen. by destruct Hu.
Qed.

(** After the move an entry is the new place of a live chunk or an old entry
    of another pack. *)
Lemma relocated id en2 : ix2 !! id = Some en2 ->
  (exists old, ix !! id = Some old /\ refcount en2 = refcount old /\ stored_size en2 = stored_size old /\
     pack_id old = an_pack_id a /\ pack_id en2 = new_id a /\ u64 (pack_offset en2) /\
     holds s2 en2 (content id)) \/
  (ix !! id = Some en2 /\ pack_id en2 <> an_pack_id a).
Proof.
  pose proof (new_entries_spec target a live_fits) as Hspec.
  assert (Hids : pc_chunk_id <$> new_entries_of target a = live_chunk_id <$> live_entries a).
  { clear -Hspec. induction Hspec as [|? ? ? ? [Hc _] _ IH]; csimpl; [done|]. by rewrite Hc, IH. }
  rewrite lookup_relocate.
  2:{ rewrite Hids. apply (plan_live _ Hplan), list_elem_of_here. }
  destruct (List.find _ _) as [pe|] eqn:Hf.
  - apply find_some in Hf as [Hin Hid%bool_decide_eq_true].
    apply list_elem_of_In, list_elem_of_lookup in Hin as [i Hi].
    destruct (Forall2_lookup_r _ _ _ _ _ Hspec Hi) as (en & Hen & Hc & Hs & Ho & Hsl).
    apply list_elem_of_lookup_2 in Hen. destruct (live_indexed en Hen) as (old & Hold & Hp & _ & _ & (d & _ & _ & _ & Hlen) & _).
    rewrite <- Hc, Hid in Hold. rewrite Hold. simpl. intros [= <-]. left. exists old. simpl.
    assert (Hholds : holds s2 (mkEntry (refcount old) (pc_stored_size pe) (new_id a) (pc_offset pe)) (content id)).
    { exists (new_data a). cbn [pack_id pack_offset stored_size]. rewrite lookup_insert_eq.
      rewrite <- Hid, Hc. split_and!; [done|lia|done|congruence]. }
    assert (Hsmall := plan_small _ Hplan a (list_elem_of_here _ _)).
    split_and!; [done|done|congruence|done|done| |done]. unfold u64 in *. simpl. lia.
  - intros Hx. right. split; [done|]. intros Hp.
    assert (Hl := i_live _ _ _ _ HI a id en2 (list_elem_of_here _ _) Hx Hp).
    assert (Hid : id ∈ pc_chunk_id <$> new_entries_of target a).
    { rewrite Hids. apply list_elem_of_fmap. eexists. split; [|exact Hl]. done. }
    apply list_elem_of_fmap in Hid as (pe & -> & Hpe). apply list_elem_of_In in Hpe.
    pose proof (find_none _ _ Hf pe Hpe) as Hb. simpl in Hb. by apply bool_decide_eq_false in Hb.
Qed.

(** Entries of other packs stay. *)
Lemma not_relocated id en : ix !! id = Some en -> pack_id en <> an_pack_id a -> ix2 !! id = Some en.
Proof.
  pose proof (new_entries_spec target a live_fits) as Hspec. intros Hx Hp. rewrite lookup_relocate.
  2:{ assert (Hids : pc_chunk_id <$> new_entries_of target a = live_chunk_id <$> live_entries a).
      { clear -Hspec. induction Hspec as [|? ? ? ? [Hc _] _ IH]; csimpl; [done|]. by rewrite Hc, IH. }
      rewrite Hids. apply (plan_live _ Hplan), list_elem_of_here. }
  destruct (List.find _ _) as [pe|] eqn:Hf; [exfalso|done].
  apply find_some in Hf as [Hin Hid%bool_decide_eq_true].
  apply list_elem_of_In, list_elem_of_lookup in Hin as [i Hi].
  destruct (Forall2_lookup_r _ _ _ _ _ Hspec Hi) as (en0 & Hen & Hc & _).
  apply list_elem_of_lookup_2 in Hen. destruct (live_indexed en0 Hen) as (old & Hold & Hpo & _).
  rewrite <- Hc, Hid in Hold. congruence.
Qed.

Lemma relocated_same : same_chunks ix0 ix2.
Proof.
  intros id. rewrite (i_same _ _ _ _ HI id). destruct (ix2 !! id) as [en2|] eqn:E2.
  - destruct (relocated id en2 E2) as [(old & -> & Hr & Hs & _)|[-> _]]; simpl; [|done]. by rewrite Hr, Hs.
  - destruct (ix !! id) as [en|] eqn:E1; [exfalso|done].
    unfold relocate in E2. revert E2. rewrite eq_None_not_Some. intros E2. apply E2. clear E2.
    assert (Hx : is_Some (ix !! id)) by eauto. clear E1. revert Hx. generalize ix as jx.
    induction (new_entries_of target a) as [|pe es IH]; intros jx Hx; [done|]. simpl. apply IH.
    unfold update_location. destruct (jx !! pc_chunk_id pe); simpl; [|done].
    apply lookup_insert_is_Some'. by right.
Qed.

Lemma relocated_typed : wf_index ix2.
Proof.
  intros id en2 E2. destruct (relocated id en2 E2) as [(old & Ho & Hr & Hs & _ & Hp & Hu & _)|[Hx _]];
    [|by apply (i_typed _ _ _ _ HI id)].
  destruct (i_typed _ _ _ _ HI id old Ho) as (H1 & H2 & H3 & _). unfold wf_entry.
  rewrite Hp, Hs, Hr. split; [done|]. split; [done|]. split; [done|]. split; [apply blake2b_id|done].
Qed.

(** Writing the new pack changes no pack. *)
Lemma put_new_pack p d : s1 !! pack_storage_key p = Some d -> s2 !! pack_storage_key p = Some d.
Proof.
  intros Hd. destruct (decide (pack_storage_key (new_id a) = pack_storage_key p)) as [Heq|Hn].
  - rewrite <- Heq, lookup_insert_eq. rewrite <- Heq in Hd.
    by rewrite (i_hash _ _ _ _ HI a d (list_elem_of_here _ _) Hd).
  - by rewrite lookup_insert_ne.
Qed.

Lemma put_holds en b : holds s1 en b -> holds s2 en b.
Proof. intros (d & Hd & Hx). exists d. split; [by apply put_new_pack|done]. Qed.

Lemma put_readable : readable s2 ix.
Proof. intros id en Hx. apply put_holds. by apply (i_read _ _ _ _ HI). Qed.

Lemma relocated_readable : readable s2 ix2.
Proof.
  intros id en2 E2. destruct (relocated id en2 E2) as [(old & _ & _ & _ & _ & _ & _ & Hh)|[Hx _]]; [done|].
  apply put_holds. by apply (i_read _ _ _ _ HI).
Qed.

(** Once the index is saved, the old pack can go. *)
Lemma after_delete s data :
  agree (<["index" := data]> s2) s -> index_of e s ix2 ->
  Inv ix0 (delete (storage_key a) s) ix2 l.
Proof.
  intros Ha Hix. assert (Hin := list_elem_of_here a l).
  rewrite (plan_key _ Hplan a Hin).
  assert (Hpk : forall p, s !! pack_storage_key p = s2 !! pack_storage_key p).
  { intros p. rewrite (agree_pack _ _ _ Ha). rewrite lookup_insert_ne; [done|].
    intros Heq. by destruct (pack_key_plain p) as (_ & _ & Hp). }
  constructor.
  - destruct Hix as (d & g & Hd & Hdec). exists d, g. by rewrite lookup_delete_ne.
  - apply relocated_same.
  - apply relocated_typed.
  - intros id en2 E2. destruct (relocated_readable id en2 E2) as (d & Hd & Hx). exists d.
    split; [|done]. rewrite lookup_delete_ne, Hpk; [done|]. intros Heq.
    apply pack_storage_key_inj in Heq; [|by apply (plan_id _ Hplan)|by destruct (relocated_typed id en2 E2) as (_ & _ & _ & ? & _)].
    destruct (relocated id en2 E2) as [(_ & _ & _ & _ & _ & Hp & _)|[_ Hp]]; [|congruence].
    apply (plan_fresh _ Hplan a a Hin Hin Hne). congruence.
  - intros b id en2 Hb E2 Hp. destruct (relocated id en2 E2) as [(_ & _ & _ & _ & _ & Hp' & _)|[Hx _]].
    + exfalso. apply (plan_fresh _ Hplan a b Hin ltac:(by right) Hne). congruence.
    + apply (i_live _ _ _ _ HI); [by right|done|done].
  - intros b en Hb Hen. destruct (i_back _ _ _ _ HI b en ltac:(by right) Hen) as (old & Hold & Hp & Hx).
    exists old. split; [|done]. apply not_relocated; [done|]. rewrite Hp. intros Heq.
    pose proof (plan_nodup _ Hplan) as Hnd. rewrite fmap_cons in Hnd. apply NoDup_cons in Hnd as [Hnd _].
    apply Hnd. apply list_elem_of_fmap. by exists b.
  - intros b d Hb Hd. apply lookup_delete_Some in Hd as [_ Hd]. rewrite Hpk in Hd.
    apply lookup_insert_Some in Hd as [[Heq <-]|[_ Hd]].
    + apply (plan_hash _ Hplan); [done|by right|].
      apply pack_storage_key_inj in Heq; [done|apply blake2b_id|apply blake2b_id].
    + apply (i_hash _ _ _ _ HI b); [by right|done].
Qed.
End OnePack.

Lemma flush_spec target a s1 E :
  live_entries a <> [] -> (forall s, agree s1 s -> E s) ->
  (forall s, agree (<[pack_storage_key (new_id a) := new_data a]> s1) s -> E s) ->
  triple (agree s1) (flush (foldl run_writer (writer_new Data target) (copy_ops (live_entries a))))
    (fun fl s => agree (<[pack_storage_key (new_id a) := new_data a]> s1) s /\
                 fl = (new_id a, new_entries_of target a, writer_new Data target)) E.
Proof.
  intros Hne HE1 HE2. unfold flush.
  eapply triple_bind with (R := fun x s => agree s1 s /\
    x = (mkSealed (new_id a) (new_entries_of target a) (new_data a), writer_new Data target)).
  { apply triple_lift. intros s Hs. by rewrite (seal_copy target a Hne). }
  intros x. apply triple_pure. intros ->. cbn [sealed_pack_id sealed_data sealed_entries].
  eapply triple_bind with (R := fun _ => agree (<[pack_storage_key (new_id a) := new_data a]> s1)).
  - assert (Hput : forall s, agree s1 s -> agree (<[pack_storage_key (new_id a) := new_data a]> s1)
      (<[pack_storage_key (new_id a) := new_data a]> s)).
    { intros s Ha k Hk Hg. destruct (decide (pack_storage_key (new_id a) = k)) as [<-|].
      - by rewrite !lookup_insert_eq.
      - rewrite !lookup_insert_ne by done. by apply Ha. }
    apply triple_writing; [done|]. auto.
  - intros _. apply triple_ret. done.
Qed.

(** The states a repack of one pack goes through, at any fault schedule. *)
Lemma repack_one_safe target a l r :
  plan_ok (a :: l) -> live_entries a <> [] ->
  triple (fun s => Inv ix0 s (chunk_index r) (a :: l)) (repack_one e draws fence now target a r)
    (fun o s => match o with
                | None => Inv ix0 s (chunk_index r) (a :: l)
                | Some r' => Inv ix0 s (chunk_index r') l
                end) (nothing_lost ix0).
Proof.
  intros Hplan Hne. apply triple_at. intros s1 HI.
  assert (Hsafe : forall s, agree s1 s -> nothing_lost ix0 s) by (intros; by eapply inv_safe, agree_inv).
  unfold repack_one.
  eapply triple_bind with (R := fun h s => agree s1 s).
  { eapply triple_bind; [by apply triple_reading|]. intros o. destruct o.
    - cbv zeta. destruct (_ =? _); [apply triple_ret|apply triple_fail]; by intros s [? _]; auto.
    - apply triple_ret. by intros s [? _]. }
  intros [header|]; [|by apply triple_fail].
  destruct (negb (header_valid header)); [apply triple_ret; intros s Hs; by eapply agree_inv|].
  destruct (live_entries a) as [|en0 ens] eqn:Hens; [done|]. rewrite <- Hens in *. clear Hne.
  assert (Hne : live_entries a <> []) by (by rewrite Hens).
  destruct (live_indexed a l s1 (chunk_index r) HI en0) as (old0 & _ & Hp0 & _ & _ & (data & Hdata & _) & _).
  { rewrite Hens. apply list_elem_of_here. }
  rewrite Hp0 in Hdata. rewrite (plan_key _ Hplan a (list_elem_of_here _ _)) at 1.
  eapply triple_bind; [apply (copy_live_spec s1 _ data); [done| |done]|].
  { intros en Hen. destruct (live_indexed a l s1 (chunk_index r) HI en Hen)
      as (old & _ & Hp & Ho & Hs & (d & Hd & _ & Hsl & Hlen) & Hu).
    rewrite Hp, Hdata in Hd. injection Hd as <-. rewrite Ho, Hs in *. split; [lia|done]. }
  intros w'. set (s2 := <[pack_storage_key (new_id a) := new_data a]> s1).
  assert (Hsafe2 : forall s, agree s2 s -> nothing_lost ix0 s).
  { intros s Ha. exists (chunk_index r). split_and!; [|apply (i_same _ _ _ _ HI)|].
    - eapply agree_index; [exact Ha|]. destruct (i_index _ _ _ _ HI) as (d & g & Hd & Hdec).
      exists d, g. split; [|done]. unfold s2. rewrite lookup_insert_ne; [done|].
      by destruct (pack_key_plain (new_id a)) as (_ & _ & ?).
    - eapply agree_readable; [exact Ha|]. by eapply put_readable. }
  apply triple_pure. intros ->. eapply triple_bind; [by apply (flush_spec target a s1)|].
  intros fl. apply triple_pure. intros ->.
  set (ix2 := relocate (new_id a) (new_entries_of target a) (chunk_index r)).
  assert (Hsame2 : same_chunks ix0 ix2) by (by eapply relocated_same).
  set (Q := fun s => exists data, agree (<["index" := data]> s2) s /\ index_of e s ix2).
  assert (HQsafe : forall s, Q s -> nothing_lost ix0 s).
  { intros s (d & Ha & Hix). exists ix2. split_and!; [done|done|].
    eapply agree_readable; [exact Ha|]. intros id en Hen.
    destruct (relocated_readable target a l s1 (chunk_index r) HI Hplan id en Hen) as (d' & Hd' & Hx).
    exists d'. split; [|done]. rewrite lookup_insert_ne; [done|].
    by destruct (pack_key_plain (pack_id en)) as (_ & _ & ?). }
  eapply triple_bind.
  { apply (triple_save_state e draws fence (set_chunk_index ix2 r) (agree s2) Q (nothing_lost ix0));
      [done|apply same_chunks_fits; [done|by eapply relocated_typed]|done|by apply fence_agree|done| | |done].
    - intros s d Ha Hix. exists d. split; [|done]. intros k Hk Hg.
      destruct (decide ("index" = k)) as [<-|]; [by rewrite !lookup_insert_eq|].
      rewrite !lookup_insert_ne by done. by apply Ha.
    - intros s d (d0 & Ha & Hix). exists d0. split.
      + intros k Hk Hg. rewrite lookup_insert_ne by done. by apply Ha.
      + destruct Hix as (d1 & g & Hd1 & Hdec). exists d1, g. by rewrite lookup_insert_ne. }
  intros r'. cbn [set_chunk_index chunk_index].
  eapply triple_bind with (R := fun _ s => Inv ix0 s ix2 l /\ chunk_index r' = ix2).
  { apply triple_writing; [by intros s [HQ _]; apply HQsafe|].
    intros s [(d & Ha & Hix) [Hr' _]]. assert (HI2 : Inv ix0 (delete (storage_key a) s) ix2 l).
    { by eapply after_delete. }
    split; [done|]. by eapply inv_safe. }
  intros _. apply triple_ret. intros s [HI2 ->]. done.
Qed.

Lemma inv_tail s ix a l : Inv ix0 s ix (a :: l) -> Inv ix0 s ix l.
Proof.
  intros [H1 H2 H3 H4 H5 H6 H7]. constructor; try done; intros b; intros;
    [eapply H5|eapply H6|eapply H7]; eauto; by right.
Qed.

Lemma plan_tail a l : plan_ok (a :: l) -> plan_ok l.
Proof.
  intros [H1 H2 H3 H4 H5 H6 H7]. rewrite fmap_cons in H1. apply NoDup_cons in H1 as [_ H1].
  constructor; [done|..]; intros; [eapply H2|eapply H3|eapply H4|eapply H5|eapply H6|eapply H7]; eauto; by right.
Qed.

Lemma inv_nil s ix l : Inv ix0 s ix l -> Inv ix0 s ix [].
Proof. intros [H1 H2 H3 H4 _ _ _]. constructor; try done; intros; set_solver. Qed.

(** A pack nobody refers to can be deleted. *)
Lemma delete_empty s ix a l :
  plan_ok (a :: l) -> live_entries a = [] -> Inv ix0 s ix (a :: l) -> Inv ix0 (delete (storage_key a) s) ix l.
Proof.
  intros Hplan Hnil HI. rewrite (plan_key _ Hplan a (list_elem_of_here _ _)).
  pose proof (inv_tail _ _ _ _ HI) as [H1 H2 H3 H4 H5 H6 H7]. constructor; try done.
  - destruct H1 as (d & g & Hd & Hx). exists d, g. by rewrite lookup_delete_ne.
  - intros id en Hen. destruct (H4 id en Hen) as (d & Hd & Hx). exists d. split; [|done].
    rewrite lookup_delete_ne; [done|]. intros Heq.
    apply pack_storage_key_inj in Heq; [|apply (plan_id _ Hplan), list_elem_of_here|by destruct (H3 _ _ Hen) as (_ & _ & _ & ? & _)].
    pose proof (i_live _ _ _ _ HI a id en (list_elem_of_here _ _) Hen (eq_sym Heq)) as Hin.
    rewrite Hnil in Hin. by apply not_elem_of_nil in Hin.
  - intros b d Hb Hd. apply lookup_delete_Some in Hd as [_ Hd]. by eapply H7.
Qed.

Lemma check_agree (I : Store -> Prop) : preserves I check_interrupted.
Proof.
  intros w Hw. pose proof (interrupted_pure w) as Hx. unfold exec in Hx.
  destruct (check_interrupted w) as [[] ?]; simpl in Hx; by rewrite Hx.
Qed.

Lemma repack_loop_safe target cap l : forall r st n,
  plan_ok l ->
  triple (fun s => Inv ix0 s (chunk_index r) l)
    (repack_loop e draws fence check_interrupted now target cap l r st n)
    (fun out s => Inv ix0 s (chunk_index out.1) []) (nothing_lost ix0).
Proof.
  induction l as [|a l IH]; intros r st n Hplan; cbn [repack_loop]; [by apply triple_ret|].
  pose proof (plan_tail _ _ Hplan) as Hplan'.
  eapply triple_bind with (R := fun _ s => Inv ix0 s (chunk_index r) (a :: l)).
  { eapply triple_weaken; [apply (check_agree (fun s => Inv ix0 s (chunk_index r) (a :: l)))|done|done|].
    intros s. apply inv_safe. }
  intros _. destruct (match cap with Some c => c <=? n | None => false end).
  { apply triple_ret. intros s HI. by eapply inv_nil. }
  destruct (live_entries a) as [|en ens] eqn:Hlive.
  - eapply triple_bind with (R := fun _ s => Inv ix0 s (chunk_index r) l); [|by intros _; apply IH].
    apply triple_writing; [intros s; apply inv_safe|]. intros s HI.
    assert (Hd := delete_empty s (chunk_index r) a l Hplan Hlive HI). split; [done|by eapply inv_safe].
  - eapply triple_bind; [apply (repack_one_safe target a l r Hplan); by rewrite Hlive|].
    intros [r'|]; [by apply IH|].
    eapply triple_weaken; [by apply IH| |done|done]. intros s. apply inv_tail.
Qed.

Lemma save_state_inv r l :
  triple (fun s => Inv ix0 s (chunk_index r) l) (save_state e draws fence r)
    (fun r' s => Inv ix0 s (chunk_index r') l) (nothing_lost ix0).
Proof.
  destruct (index_dirty r) eqn:Hd.
  2:{ unfold save_state. rewrite Hd. by apply triple_ret. }
  apply triple_at. intros s1 HI.
  eapply triple_weaken; [apply (triple_save_state e draws fence r (agree s1)
    (fun s => Inv ix0 s (chunk_index r) l) (nothing_lost ix0)); try done| done | |done].
  - apply same_chunks_fits; [apply (i_same _ _ _ _ HI)|apply (i_typed _ _ _ _ HI)].
  - by apply fence_agree.
  - intros s Ha. by eapply inv_safe, agree_inv.
  - intros s d Ha Hix. pose proof (agree_inv _ _ _ _ Ha HI) as [H1 H2 H3 H4 H5 H6 H7].
    assert (Hpk : forall p, <["index" := d]> s !! pack_storage_key p = s !! pack_storage_key p).
    { intros p. rewrite lookup_insert_ne; [done|]. by destruct (pack_key_plain p) as (_ & _ & ?). }
    constructor; try done.
    + intros id en Hen. destruct (H4 id en Hen) as (d' & Hd' & Hx). exists d'. by rewrite Hpk.
    + intros b d'. rewrite Hpk. apply H7.
  - intros s d HI'. eapply agree_inv; [|exact HI']. intros k Hk Hg. by rewrite lookup_insert_ne.
  - intros s. apply inv_safe.
  - intros r' s (HI' & -> & _). done.
Qed.

(** ** Phase 1 finds packs of the store *)

Definition shard_dir (shard : Z) : string := "packs/" +:+ hex_encode [shard] +:+ "/".

Lemma starts_with_unique k p1 p2 :
  starts_with k p1 = true -> starts_with k p2 = true -> String.length p1 = String.length p2 -> p1 = p2.
Proof.
  revert k p2. induction p1 as [|a p1 IH]; intros k [|b p2]; simpl; try done.
  destruct k as [|c k]; [done|].
  intros [->%Ascii.eqb_eq Hp1]%andb_true_iff [->%Ascii.eqb_eq Hp2]%andb_true_iff [= Hl].
  f_equal. by apply (IH k).
Qed.

Lemma shard_dir_inj x y : is_byte x -> is_byte y -> shard_dir x = shard_dir y -> x = y.
Proof.
  intros Hx Hy. unfold shard_dir. change ("packs/" +:+ hex_encode [x] +:+ "/") with
    (String "p" (String "a" (String "c" (String "k" (String "s" (String "/" (hex_encode [x] +:+ "/"))))))).
  change ("packs/" +:+ hex_encode [y] +:+ "/") with
    (String "p" (String "a" (String "c" (String "k" (String "s" (String "/" (hex_encode [y] +:+ "/"))))))).
  intros [= Heq]. apply (f_equal (fun s => strip_suffix s "/")) in Heq. rewrite !strip_suffix_app in Heq.
  injection Heq as Heq. apply hex_encode_inj in Heq; [by injection Heq|by apply Forall_singleton|by apply Forall_singleton].
Qed.

Definition found_in (s : Store) (shards : list Z) (found : list (string * PackId)) : Prop :=
  NoDup found.*1 /\
  forall k p, (k, p) ∈ found -> is_Some (s !! k) /\ pack_from_storage_key k = Ok p /\
    exists x, x ∈ shards /\ starts_with k (shard_dir x) = true.

Lemma elem_of_shard_packs keys k p :
  (k, p) ∈ shard_packs keys -> k ∈ keys /\ pack_from_storage_key k = Ok p.
Proof.
  unfold shard_packs. intros (key & Hkey & Hf)%list_elem_of_omap.
  destruct (ends_with key "/"); [done|]. destruct (pack_from_storage_key key) eqn:E; [|done].
  by injection Hf as -> ->.
Qed.

Lemma shard_packs_nodup keys : NoDup keys -> NoDup (shard_packs keys).*1.
Proof.
  induction 1 as [|k keys Hk _ IH]; [constructor|]. unfold shard_packs. csimpl. fold (shard_packs keys).
  destruct (ends_with k "/"); [done|]. destruct (pack_from_storage_key k) as [p|]; [|done].
  rewrite fmap_cons. constructor; [|done]. intros ([k' p'] & Heq & Hin)%list_elem_of_fmap.
  simpl in Heq. subst k'. apply elem_of_shard_packs in Hin as [Hin _]. done.
Qed.

(** The keys of one shard, as listed from a store that agrees with [s0]. *)
Definition listed (s0 : Store) (x : Z) (keys : list string) : Prop :=
  NoDup keys /\ forall k, k ∈ keys -> is_Some (s0 !! k) /\ starts_with k (shard_dir x) = true.

Lemma shard_key_plain k x : starts_with k (shard_dir x) = true -> is_lock_key k = false /\ k <> "index.gen".
Proof.
  unfold shard_dir. change ("packs/" +:+ hex_encode [x] +:+ "/") with
    (String "p" ("acks/" +:+ hex_encode [x] +:+ "/")).
  destruct k as [|c k]; [done|]. cbn [starts_with]. intros [<-%Ascii.eqb_eq _]%andb_true_iff.
  split; [reflexivity|discriminate].
Qed.

Lemma list_shard_spec s0 x :
  triple (agree s0) (try_ (list_keys (shard_dir x)))
    (fun r s => agree s0 s /\ forall keys, r = Ok keys -> listed s0 x keys) (agree s0).
Proof.
  eapply triple_weaken; [eapply (triple_try (agree s0)), (triple_reading _ _ (agree s0)); done|done| |].
  2:{ by intros s Hs. }
  intros [keys|er] s Hs; [|done]. destruct Hs as [Ha ->]. split; [done|]. intros ? [= <-]. split.
  - rewrite NoDup_ListNoDup. apply List.NoDup_filter. rewrite <- NoDup_ListNoDup. apply NoDup_fst_map_to_list.
  - intros k Hk. rewrite list_elem_of_In, filter_In, <- list_elem_of_In in Hk. destruct Hk as [Hk Hst].
    split; [|done]. apply list_elem_of_fmap in Hk as ([k' d] & -> & Hin%elem_of_map_to_list).
    destruct (shard_key_plain _ _ Hst). rewrite <- Ha by done. by eexists.
Qed.

Lemma found_more s0 x shards keys found :
  (forall y, y ∈ x :: shards -> is_byte y) -> x ∉ shards -> found_in s0 shards found -> listed s0 x keys ->
  found_in s0 (shards ++ [x]) (found ++ shard_packs keys).
Proof.
  intros Hb Hx [Hn Hf] [Hnk Hk]. split.
  - rewrite fmap_app. apply NoDup_app. split_and!; [done| |by apply shard_packs_nodup].
    intros k ([k1 p1] & -> & H1)%list_elem_of_fmap ([k2 p2] & Heq & H2)%list_elem_of_fmap.
    simpl in Heq. subst k2. apply elem_of_shard_packs in H2 as [H2 _].
    destruct (Hf _ _ H1) as (_ & _ & y & Hy & Hsy). destruct (Hk _ H2) as [_ Hsx]. apply Hx.
    replace x with y; [done|]. apply shard_dir_inj; [apply Hb; by right|apply Hb, list_elem_of_here|].
    apply (starts_with_unique k1); [done|done|]. unfold shard_dir.
    by rewrite !length_str_app, !hex_encode_length.
  - intros k p [Hin|Hin]%elem_of_app.
    + destruct (Hf k p Hin) as (? & ? & y & ? & ?). split_and!; [done|done|]. exists y. set_solver.
    + apply elem_of_shard_packs in Hin as [Hin Hp]. destruct (Hk k Hin). split_and!; [done|done|].
      exists x. set_solver.
Qed.

Lemma list_shards_spec s0 shards : forall seen found err,
  (forall x, x ∈ seen ++ shards -> is_byte x) -> NoDup (seen ++ shards) -> found_in s0 seen found ->
  triple (agree s0) (list_shards shards found err)
    (fun found' s => agree s0 s /\ found_in s0 (seen ++ shards) found') (agree s0).
Proof.
  induction shards as [|x shards IH]; intros seen found err Hb Hnd Hf; cbn [list_shards].
  { rewrite app_nil_r in *. destruct err; [by apply triple_fail|]. by apply triple_ret. }
  fold (shard_dir x). eapply triple_bind; [apply list_shard_spec|]. intros r. apply triple_pure. intros Hr.
  assert (Hx : x ∉ seen) by (apply NoDup_app in Hnd as (_ & Hd & _); intros Hin; apply (Hd x Hin), list_elem_of_here).
  assert (Hbx : forall y, y ∈ x :: seen -> is_byte y) by (intros; apply Hb; set_solver).
  change (x :: shards) with ([x] ++ shards) in *. rewrite app_assoc in *.
  destruct r as [keys|er]; apply IH; try done.
  - apply found_more; [done|done|done|by apply Hr].
  - destruct Hf as [Hn Hf]. split; [done|]. intros k p Hkp.
    destruct (Hf k p Hkp) as (? & ? & y & ? & ?). split_and!; [done|done|]. exists y. set_solver.
Qed.

Lemma starts_with_app k a b : starts_with k (a +:+ b) = true -> starts_with k a = true.
Proof.
  revert k. induction a as [|x a IH]; intros k; [by destruct k|].
  change (String x a +:+ b) with (String x (a +:+ b)). destruct k as [|y k]; cbn [starts_with]; [done|].
  rewrite !andb_true_iff. intros [? ?]. auto.
Qed.

(** A discovered pack: an object of the store under packs/. *)
Definition discovered_ok (s0 : Store) (k : string) (p : PackId) : Prop :=
  is_Some (s0 !! k) /\ pack_from_storage_key k = Ok p /\ starts_with k "packs/" = true /\
  is_lock_key k = false /\ k <> "index.gen".

Lemma parallel_list_packs_spec s0 :
  triple (agree s0) parallel_list_packs
    (fun found s => agree s0 s /\ (NoDup found.*1 /\ forall k p, (k, p) ∈ found -> discovered_ok s0 k p))
    (agree s0).
Proof.
  eapply triple_weaken; [apply (list_shards_spec s0 (Z.of_nat <$> seq 0 256) [] [])| done | |done].
  - intros x. rewrite app_nil_l. intros (n & -> & Hn%elem_of_seq)%list_elem_of_fmap. unfold is_byte. lia.
  - rewrite app_nil_l. apply NoDup_fmap_2; [apply _|apply NoDup_seq].
  - split; [constructor|]. intros k p Hkp. by apply not_elem_of_nil in Hkp.
  - intros found s (Ha & Hn & Hf). split_and!; [done|done|]. intros k p Hkp.
    destruct (Hf k p Hkp) as (Hs & Hp & x & _ & Hst). destruct (shard_key_plain _ _ Hst).
    split_and!; [done|done|by apply starts_with_app in Hst|done|done].
Qed.

(** ** The analyses *)

Context (over_threshold : Z -> Z -> bool).

(** The blobs of a pack in their order, and the pack they make. *)
Definition sorted_live (p : PackId) : list LiveEntry := sort_by live_before (pack_entries ix0 p).
Definition repacked (p : PackId) : bytes := pack_of ((fun en => content (live_chunk_id en)) <$> sorted_live p).

(** What phase 1 says of a pack object [data]: it has no live blobs, or it has
    all of them and more. *)
Definition analysis_ok (s0 : Store) (a : PackAnalysis) : Prop :=
  live_entries a = sorted_live (an_pack_id a) /\
  exists data, s0 !! storage_key a = Some data /\
    (live_entries a <> [] ->
     9 + sum_Z (fun en => 4 + live_length en) (live_entries a) < Z.of_nat (length data)).

Lemma size_of_spec s0 key data :
  is_lock_key key = false -> key <> "index.gen" -> s0 !! key = Some data ->
  triple (agree s0) (try_ (size_of key))
    (fun r s => agree s0 s /\ forall n, r = Ok (Some n) -> n = Z.of_nat (length data)) (agree s0).
Proof.
  intros Hk Hg Hdata. eapply triple_weaken with (E := fun _ => False); [|done| |done].
  - eapply (triple_try (agree s0) _ (fun o s => agree s0 s /\ o = Some (Z.of_nat (length data))) (agree s0)).
    eapply triple_bind; [by apply triple_reading|]. intros o. apply triple_ret. intros s [Ha ->].
    split; [done|]. rewrite Ha by done. by rewrite Hdata.
  - intros [o|er] s; [|done]. intros [Ha ->]. split; [done|]. by intros n [= <-].
Qed.

Definition analyzed (s0 : Store) (key : string) (p : PackId) (found out : list PackAnalysis) : Prop :=
  out = found \/ exists a, out = found ++ [a] /\ storage_key a = key /\ an_pack_id a = p /\ analysis_ok s0 a.

Lemma sum_live_perm entries :
  sum_Z (fun en => 4 + live_length en) (sort_by live_before entries) =
  sum_Z (fun en => 4 + live_length en) entries.
Proof. apply sum_Z_perm, sort_by_perm. Qed.

Lemma analyze_pack_spec s0 key p found st :
  is_lock_key key = false -> key <> "index.gen" -> is_Some (s0 !! key) ->
  triple (agree s0) (analyze_pack over_threshold ix0 key p (found, st))
    (fun out s => agree s0 s /\ analyzed s0 key p found out.1) (agree s0).
Proof.
  intros Hk Hg [data Hdata]. unfold analyze_pack.
  eapply triple_bind; [by apply size_of_spec|]. intros r. apply triple_pure. intros Hr.
  assert (Hsame : forall st', triple (agree s0) (mret (found, st'))
    (fun (out : list PackAnalysis * CompactStats) s => agree s0 s /\ analyzed s0 key p found out.1) (agree s0)).
  { intros st'. apply triple_ret. intros s Ha. split; [done|]. by left. }
  destruct r as [[n|]|er]; [|apply Hsame|apply Hsame]. rewrite (Hr n eq_refl). clear Hr.
  destruct (pack_entries ix0 p) as [|en0 ens] eqn:Hens.
  - destruct (0 <? _); [|apply Hsame]. apply triple_ret. intros s Ha. split; [done|]. right.
    eexists. split; [done|]. split; [done|]. split; [done|]. split; [|by exists data].
    simpl. unfold sorted_live. by rewrite Hens.
  - cbv zeta. rewrite <- Hens. set (live := sum_Z _ _). set (len := Z.of_nat (length data)).
    destruct (_ || _) eqn:Hor; [apply Hsame|]. apply orb_false_iff in Hor as [H1%Z.ltb_ge H2%Z.ltb_ge].
    destruct (Z.eqb_spec (len - Z.of_nat PACK_HEADER_SIZE - live) 0); [apply Hsame|].
    destruct (over_threshold _ _); [|apply Hsame]. apply triple_ret. intros s Ha. split; [done|]. right.
    eexists. split; [done|]. split; [done|]. split; [done|]. split; [done|]. exists data. split; [done|].
    intros _. cbn [live_entries]. rewrite sum_live_perm. fold live len. unfold PACK_HEADER_SIZE in *. lia.
Qed.


(** Phase 1 over all packs: the analyses are of different packs of the store. *)
Definition analyses_ok (s0 : Store) (l : list PackAnalysis) : Prop :=
  NoDup (storage_key <$> l) /\
  forall a, a ∈ l -> discovered_ok s0 (storage_key a) (an_pack_id a) /\ analysis_ok s0 a.

Lemma analyze_packs_spec s0 discovered : forall found st,
  NoDup ((storage_key <$> found) ++ discovered.*1) ->
  (forall k p, (k, p) ∈ discovered -> discovered_ok s0 k p) ->
  (forall a, a ∈ found -> discovered_ok s0 (storage_key a) (an_pack_id a) /\ analysis_ok s0 a) ->
  triple (agree s0) (analyze_packs over_threshold ix0 discovered (found, st))
    (fun out s => agree s0 s /\ analyses_ok s0 out.1) (agree s0).
Proof.
  induction discovered as [|[k p] discovered IH]; intros found st Hnd Hd Hf; cbn [analyze_packs].
  { rewrite app_nil_r in Hnd. by apply triple_ret. }
  destruct (Hd k p (list_elem_of_here _ _)) as (Hs & Hp & Hst & Hl & Hg).
  eapply triple_bind; [by apply analyze_pack_spec|]. intros [out st']. cbn [fst].
  apply triple_pure. rewrite fmap_cons in Hnd. cbn [fst] in Hnd. intros [->|(a & -> & Hk & Hpa & Ha)].
  - apply IH; [|set_solver|done]. apply NoDup_app in Hnd as (H1 & H2 & H3). apply NoDup_app.
    split_and!; [done|set_solver|]. by apply NoDup_cons in H3 as [_ ?].
  - apply IH; [|set_solver|].
    + rewrite fmap_app, <- app_assoc. csimpl. by rewrite Hk.
    + intros b [Hb|Hb%list_elem_of_singleton]%elem_of_app; [by apply Hf|]. subst b. rewrite Hk, Hpa. done.
Qed.

(** What compaction expects of the repository it starts from: the index in
    the store is the one in memory, and every blob is where it says; pack
    objects are named after their id; no two packs in play collide in their
    hash; and no pack of the store is already the outcome of repacking a pack
    with dead space. *)
Record compactable (s0 : Store) : Prop := {
  c_index : index_of e s0 ix0;
  c_typed : wf_index ix0;
  c_readable : readable s0 ix0;
  c_small : forall k d, s0 !! k = Some d -> u64 (Z.of_nat (length d));
  c_names : forall k p, is_Some (s0 !! k) -> starts_with k "packs/" = true ->
    pack_from_storage_key k = Ok p -> k = pack_storage_key p /\ is_id (pack_bytes p);
  c_hash : forall p q, pack_id_compute (repacked p) = pack_id_compute (repacked q) -> repacked p = repacked q;
  c_hash_store : forall p d, s0 !! pack_storage_key (pack_id_compute (repacked p)) = Some d -> d = repacked p;
  c_no_twin : forall p data, s0 !! pack_storage_key p = Some data -> pack_entries ix0 p <> [] ->
    (length (repacked p) < length data)%nat -> s0 !! pack_storage_key (pack_id_compute (repacked p)) = None;
}.

Lemma elem_of_pack_entries p en :
  en ∈ pack_entries ix0 p <->
  exists x, ix0 !! live_chunk_id en = Some x /\ pack_id x = p /\
    live_offset en = pack_offset x /\ live_length en = stored_size x.
Proof.
  unfold pack_entries. rewrite list_elem_of_fmap. split.
  - intros ([id x] & -> & Hin). apply list_elem_of_filter in Hin as [Hp Hin%elem_of_map_to_list]. by exists x.
  - intros (x & Hx & Hp & Ho & Hl). exists (live_chunk_id en, x). split.
    + destruct en. simpl in *. by subst.
    + apply list_elem_of_filter. split; [done|]. by apply elem_of_map_to_list.
Qed.

Lemma elem_of_sorted_live p en : en ∈ sorted_live p <-> en ∈ pack_entries ix0 p.
Proof. unfold sorted_live. by rewrite sort_by_perm. Qed.

Lemma sorted_live_nodup p : NoDup (live_chunk_id <$> sorted_live p).
Proof.
  unfold sorted_live. rewrite sort_by_perm. unfold pack_entries. rewrite <- list_fmap_compose.
  change ((live_chunk_id ∘ (fun kv : ChunkId * ChunkIndexEntry => mkLive kv.1 (pack_offset kv.2) (stored_size kv.2)))
    <$> ?l) with (l.*1).
  apply (sublist_NoDup _ (map_to_list ix0).*1); [apply NoDup_fst_map_to_list|].
  apply fmap_sublist, sublist_filter.
Qed.

Lemma length_repacked s0 p :
  readable s0 ix0 ->
  Z.of_nat (length (repacked p)) = 9 + sum_Z (fun en => 4 + live_length en) (sorted_live p).
Proof.
  intros Hr. unfold repacked, pack_of. rewrite length_app, Nat2Z.inj_add. f_equal.
  assert (Hl : forall en, en ∈ sorted_live p -> Z.of_nat (length (content (live_chunk_id en))) = live_length en).
  { intros en (x & Hx & _ & _ & ->)%elem_of_sorted_live%elem_of_pack_entries.
    by destruct (Hr _ _ Hx) as (d & _ & _ & _ & ?). }
  induction (sorted_live p) as [|en l IH]; [done|].
  rewrite fmap_cons, frames_cons, length_app, length_frame. cbn [sum_Z].
  rewrite <- IH by (intros; apply Hl; by right). rewrite <- (Hl en) by apply list_elem_of_here. lia.
Qed.

Lemma select_prefix cap total l : exists rest, l = select_loop cap total l ++ rest.
Proof.
  revert total. induction l as [|a l IH]; intros total; [by exists []|]. cbn [select_loop].
  destruct (match cap with Some c => c <=? total | None => false end); [by exists (a :: l)|].
  destruct (IH (u64_sat_add total (total_bytes a))) as [rest Hr]. exists rest. cbn [app]. by f_equal.
Qed.

Lemma selected_ok s0 l cap :
  analyses_ok s0 l -> analyses_ok s0 (select_analyses_by_cap (sort_by more_dead l) cap).
Proof.
  intros [Hn Ha]. destruct (select_prefix cap 0 (sort_by more_dead l)) as [rest Hr].
  fold (select_analyses_by_cap (sort_by more_dead l) cap) in Hr. set (sel := select_analyses_by_cap _ _) in *.
  assert (Hp : sel ++ rest ≡ₚ l) by (rewrite <- Hr; apply sort_by_perm). split.
  - rewrite <- Hp, fmap_app in Hn. by apply NoDup_app in Hn as [? _].
  - intros a Hin. apply Ha. rewrite <- Hp. apply elem_of_app. by left.
Qed.

Lemma plan_of_analyses s0 l : compactable s0 -> analyses_ok s0 l -> plan_ok l /\ Inv ix0 s0 ix0 l.
Proof.
  intros Hc [Hn Ha].
  assert (Hname : forall a, a ∈ l -> storage_key a = pack_storage_key (an_pack_id a) /\ is_id (pack_bytes (an_pack_id a))).
  { intros a (([d Hs] & Hp & Hst & _ & _) & _)%Ha. by apply (c_names _ Hc). }
  assert (Hnew : forall a, a ∈ l -> new_data a = repacked (an_pack_id a)).
  { intros a (_ & [He _])%Ha. unfold new_data, repacked. by rewrite He. }
  assert (Hid : forall a, a ∈ l -> new_id a = pack_id_compute (repacked (an_pack_id a))).
  { intros a Hin. unfold new_id. by rewrite Hnew. }
  split; constructor.
  - clear -Hn Hname. induction l as [|a l IH]; [constructor|]. rewrite fmap_cons in *.
    apply NoDup_cons in Hn as [Hn1 Hn2]. constructor; [|apply IH; [done|intros b Hb; apply Hname; by right]].
    intros (b & Hb & Hin)%list_elem_of_fmap. apply Hn1. apply list_elem_of_fmap. exists b. split; [|done].
    destruct (Hname a (list_elem_of_here _ _)) as [-> _], (Hname b ltac:(by right)) as [-> _]. by rewrite Hb.
  - intros a Hin. by apply Hname.
  - intros a Hin. by apply Hname.
  - intros a (_ & [He _])%Ha. rewrite He. apply sorted_live_nodup.
  - intros a b Hina Hinb. rewrite !Hid, !Hnew by done. apply (c_hash _ Hc).
  - intros a Hin. destruct (Ha a Hin) as (_ & He & data & Hd & Hlt). rewrite Hnew, (length_repacked s0) by
      (done || apply (c_readable _ Hc)). rewrite <- He. pose proof (c_small _ Hc _ _ Hd) as Hu. unfold u64 in *.
    destruct (live_entries a) as [|en ens] eqn:Hens; [by vm_compute|]. rewrite <- Hens in *.
    specialize (Hlt ltac:(by rewrite Hens)). assert (0 <= sum_Z (fun en => 4 + live_length en) (live_entries a)); [|lia].
    apply sum_Z_nonneg. intros x Hx. rewrite He in Hx.
    apply elem_of_sorted_live, elem_of_pack_entries in Hx as (y & Hy & _ & _ & ->).
    destruct (c_typed _ Hc _ _ Hy) as (_ & _ & Hu3 & _). unfold u32 in Hu3. lia.
  - intros a b Hina Hinb Hne Heq. destruct (Ha a Hina) as (_ & He & data & Hd & Hlt).
    specialize (Hlt Hne). destruct (Hname a Hina) as [Hka _]. destruct (Hname b Hinb) as [Hkb _].
    destruct (Ha b Hinb) as (([d Hs] & _) & _). rewrite Hkb, <- Heq, Hid in Hs by done.
    rewrite Hka in Hd. rewrite He in Hne, Hlt. rewrite <- (length_repacked s0) in Hlt by apply (c_readable _ Hc).
    rewrite (c_no_twin _ Hc (an_pack_id a) data) in Hs; [done|done| |lia].
    intros Hnil. apply Hne. unfold sorted_live. by rewrite Hnil.
  - apply (c_index _ Hc).
  - done.
  - apply (c_typed _ Hc).
  - apply (c_readable _ Hc).
  - intros b id en Hb Hen Hp. destruct (Ha b Hb) as (_ & -> & _). apply elem_of_sorted_live, elem_of_pack_entries.
    by exists en.
  - intros b en Hb Hen. destruct (Ha b Hb) as (_ & He & _). rewrite He in Hen.
    apply elem_of_sorted_live, elem_of_pack_entries in Hen as (x & Hx & Hp & Ho & Hl). by exists x.
  - intros b d Hb. rewrite Hid, Hnew by done. apply (c_hash_store _ Hc).
Qed.

Context (server_repack : RepackPlanRequest -> M (list RepackOperationResult)).
Context (no_server : forall plan, server_repack plan = fail (UnsupportedBackend "server repack")).

Lemma compact_repo_triple s0 min_pack_size cap dry_run r :
  chunk_index r = ix0 -> compactable s0 ->
  triple (agree s0) (compact_repo e draws fence over_threshold check_interrupted now server_repack
      min_pack_size cap dry_run r)
    (fun _ s => nothing_lost ix0 s) (nothing_lost ix0).
Proof.
  intros Hr Hc.
  assert (Hsafe : forall s, agree s0 s -> nothing_lost ix0 s).
  { intros s Ha. exists ix0. split_and!; [|done|].
    - eapply agree_index; [exact Ha|]. apply (c_index _ Hc).
    - eapply agree_readable; [exact Ha|]. apply (c_readable _ Hc). }
  unfold compact_repo. rewrite Hr.
  eapply triple_bind; [eapply triple_weaken; [apply (parallel_list_packs_spec s0)|done|done|exact Hsafe]|].
  intros found. apply triple_pure. intros [Hn Hf].
  eapply triple_bind; [eapply triple_weaken; [apply (analyze_packs_spec s0 found [] stats_default)|done|done|exact Hsafe]|].
  { done. } { done. } { intros a Hin. by apply not_elem_of_nil in Hin. }
  intros [analyses st]. cbn [fst]. apply triple_pure. intros Hok.
  eapply triple_bind with (R := fun _ => agree s0).
  { eapply triple_weaken; [apply (check_agree (agree s0))|done|done|exact Hsafe]. }
  intros _. cbv zeta. set (selected := select_analyses_by_cap _ _).
  destruct (plan_of_analyses s0 selected Hc (selected_ok _ _ _ Hok)) as [Hplan HI].
  destruct dry_run; [by apply triple_ret|].
  eapply triple_bind with (R := fun _ => agree s0).
  { unfold try_server_side_repack. destruct selected; [by apply triple_ret|]. rewrite no_server.
    eapply triple_bind with (R := fun x s => agree s0 s /\ x = Err (UnsupportedBackend "server repack"));
      [by intros w Hw|].
    intros x. apply triple_pure. intros ->. by apply triple_ret. }
  intros [out|]; [by apply triple_ret|].
  eapply triple_bind with (R := fun _ => agree s0).
  { eapply triple_weaken; [by apply fence_agree|done|done|exact Hsafe]. }
  intros _. eapply triple_bind.
  { eapply triple_weaken; [apply (repack_loop_safe min_pack_size cap selected r st 0 Hplan)| |done|done].
    intros s Ha. rewrite Hr. by eapply agree_inv. }
  intros [r' st']. cbn [fst]. destruct (_ || _).
  - eapply triple_bind; [apply save_state_inv|]. intros r''. apply triple_ret. intros s HI'. by eapply inv_safe.
  - apply triple_ret. intros s HI'. by eapply inv_safe.
Qed.

(** C12. Compaction by the client, on a backend that does not repack itself
    (the hypothesis [no_server]: it answers UnsupportedBackend, as every
    backend but the REST one does), loses nothing.  Whatever storage calls fail
    and wherever the process dies, the store it leaves has an index with the
    same chunks, sizes and references as before, and every one of their blobs
    can be read at the place this index names.  The repository must be sound to
    begin with, and no pack in it may be the outcome of an earlier, interrupted
    repacking; the fence touches only lock objects.  A server that repacks
    deletes the packs before the client saves the index, and a crash in between
    does lose chunks: this path is not covered
    ([server_compaction_loses_a_chunk]). *)
Theorem compact_loses_nothing s0 faults min_pack_size cap dry_run r :
  chunk_index r = ix0 -> compactable s0 ->
  nothing_lost ix0 (objects (exec (compact_repo e draws fence over_threshold check_interrupted now
    server_repack min_pack_size cap dry_run r) (mkWorld s0 faults))).
Proof.
  intros Hr Hc. pose proof (compact_repo_triple s0 min_pack_size cap dry_run r Hr Hc (mkWorld s0 faults)
    (agree_refl s0)) as Ht. unfold exec. by destruct (compact_repo _ _ _ _ _ _ _ _ _ _ _ _) as [[] ?].
Qed.
End Safety.

(** ** A pack with one live blob *)

Definition ex_live : ChunkId := mkChunkId (id_of_byte 1).
Definition ex_old_pack : bytes := pack_of [replicate 40 7; [5; 6]].
Definition ex_old_id : PackId := pack_id_compute ex_old_pack.
Definition ex_engine : CryptoEngine := PlaintextEngine [].
Definition ex_draws (n : nat) : Z * bytes := (1, replicate 12 0).
Definition ex_ix : ChunkIndex := {[ ex_live := mkEntry 1 2 ex_old_id 57 ]}.
Definition ex_index_object : bytes :=
  match index_object ex_engine 9 (replicate 12 0) ex_ix with Ok d => d | Err _ => [] end.
Definition ex_store : Store :=
  <["index" := ex_index_object]> {[ pack_storage_key ex_old_id := ex_old_pack ]}.
Definition ex_repo : Repository := mkRepo [] ex_ix 9 false 0.
Definition ex_unsupported (plan : RepackPlanRequest) : M (list RepackOperationResult) :=
  fail (UnsupportedBackend "server repack").
Definition ex_compact (r : Repository) : M (Repository * CompactStats) :=
  compact_repo ex_engine ex_draws (mret tt) (fun _ _ => true) (mret tt) 0 ex_unsupported 1000 None false r.

Lemma ex_pack_entries p :
  pack_entries ex_ix p = if decide (p = ex_old_id) then [mkLive ex_live 57 2] else [].
Proof.
  unfold pack_entries, ex_ix. rewrite map_to_list_singleton, filter_cons. cbn [snd pack_id].
  destruct (decide (ex_old_id = p)) as [<-|Hn]; case_decide; try done.
Qed.

Lemma ex_repacked p :
  repacked (fun _ => [5; 6]) ex_ix p = if decide (p = ex_old_id) then pack_of [[5; 6]] else pack_of [].
Proof. unfold repacked, sorted_live. rewrite ex_pack_entries. by case_decide. Qed.

(** A store is canonical if each of its pack keys is. *)
Definition canonical_key (k : string) : Prop :=
  match pack_from_storage_key k with
  | Ok p => starts_with k "packs/" = true -> k = pack_storage_key p /\ is_id (pack_bytes p)
  | Err _ => True
  end.
#[export] Instance canonical_key_dec k : Decision (canonical_key k).
Proof. unfold canonical_key. destruct (pack_from_storage_key k); apply _. Defined.

Lemma ex_compactable : compactable ex_engine (fun _ => [5; 6]) ex_ix ex_store.
Proof.
  constructor.
  - exists ex_index_object, 9. split; vm_compute; reflexivity.
  - by_eval.
  - unfold ex_ix. intros id en [<- <-]%lookup_singleton_Some. exists ex_old_pack.
    split_and!; [reflexivity|discriminate|reflexivity|reflexivity].
  - intros k d Hk. revert k d Hk. change (map_Forall (fun _ d => u64 (Z.of_nat (length d))) ex_store). by_eval.
  - intros k p [d Hd] Hst Hp.
    assert (Hall : map_Forall (fun k _ => canonical_key k) ex_store) by by_eval.
    specialize (Hall k d Hd). unfold canonical_key in Hall. rewrite Hp in Hall. auto.
  - intros p q. rewrite !ex_repacked. repeat case_decide; try done; intros Heq; exfalso; vm_compute in Heq; discriminate Heq.
  - intros p d. rewrite ex_repacked. case_decide; intros Hd; exfalso; vm_compute in Hd; discriminate Hd.
  - intros p data _ Hne _. rewrite ex_repacked, ex_pack_entries in *. case_decide; [|done]. vm_compute. reflexivity.
Qed.

(** The index object is not written any more. *)
Definition ex_crash : list fault := replicate 260 NoFault ++ [Crash].

Lemma compact_loses_nothing_witness :
  nothing_lost ex_engine (fun _ => [5; 6]) ex_ix (objects (exec (ex_compact ex_repo) (mkWorld ex_store ex_crash))).
Proof.
  apply (compact_loses_nothing ex_engine ex_draws).
  - intros n. split; [vm_compute; split; [discriminate|reflexivity]|reflexivity].
  - done.
  - reflexivity.
  - vm_compute. discriminate.
  - reflexivity.
  - reflexivity.
  - exact ex_compactable.
Defined.

(** The condition on the starting point is needed, and compaction itself
    breaks it.  A run that dies after it wrote the new pack and before it
    saved the index leaves that pack without references; the next run,
    without any fault, first moves the live blob there again (the same bytes,
    so the same pack id) and then deletes that pack as empty: it reports
    success, and the index in the store points to a pack that is gone. *)
Theorem compact_twice_loses_a_chunk :
  let s1 := objects (exec (ex_compact ex_repo) (mkWorld ex_store ex_crash)) in
  exists out s2 en,
    ex_compact ex_repo (mkWorld s1 []) = (Ok out, mkWorld s2 []) /\
    index_of ex_engine s2 {[ ex_live := en ]} /\
    s2 !! pack_storage_key (pack_id en) = None /\
    s2 !! pack_storage_key ex_old_id = None.
Proof.
  intros s1. destruct (ex_compact ex_repo (mkWorld s1 [])) as [[[r st]|er] w2] eqn:H;
    [|vm_compute in H; discriminate H].
  exists (r, st), (objects w2), (mkEntry 1 2 (pack_id_compute (pack_of [[5; 6]])) 13).
  assert (Hw : faults w2 = []) by (apply (f_equal (fun x => faults x.2)) in H; vm_compute in H; by vm_compute; rewrite <- H).
  split; [by destruct w2; simpl in Hw; subst|].
  apply (f_equal (fun x => objects x.2)) in H. cbn [snd] in H.
  split; [|split; rewrite <- H; vm_compute; reflexivity].
  exists (default [] (objects w2 !! "index")), 1. rewrite <- H. split; vm_compute; reflexivity.
Qed.

(** On a server that repacks itself the old pack is deleted before the index is
    saved: a client that dies in between leaves an index that points to a pack
    that is gone. *)
Definition ex_server (plan : RepackPlanRequest) : M (list RepackOperationResult) :=
  let new := pack_storage_key (pack_id_compute (pack_of [[5; 6]])) in
  _ ← put new (pack_of [[5; 6]]);
  _ ← del (pack_storage_key ex_old_id);
  mret [mkRepackResult (pack_storage_key ex_old_id) (Some new) [13] true].

Lemma server_compaction_loses_a_chunk :
  let s := objects (exec (compact_repo ex_engine ex_draws (mret tt) (fun _ _ => true) (mret tt) 0 ex_server 1000 None false ex_repo)
    (mkWorld ex_store (replicate 259 NoFault ++ [Crash]))) in
  index_of ex_engine s ex_ix /\ s !! pack_storage_key ex_old_id = None.
Proof. intros s. split; [exists ex_index_object, 9; split|]; vm_compute; reflexivity. Qed.
