(* ===== verification/ReadPath.v ===== *)
(** * Reading chunks (crates/vykar-core/src/repo/mod.rs: [BlobCache],
      [read_chunk_at], [read_chunks_coalesced_into])

    A chunk is read with a range request on its pack, decrypted, decompressed
    and kept in a bounded cache.  Several chunks are read together: requests
    that lie close to each other in a pack are merged, the plaintexts are
    appended to the output in the order they were asked for. *)

From S2P Require Import Prelude Types Storage ChunkIndex Pack Crypto Format Compress.
#[local] Open Scope string_scope.
#[local] Open Scope list_scope.
#[local] Open Scope Z_scope.

(** ** The blob cache *)

Definition BLOB_CACHE_MAX_BYTES : Z := 32 * 1024 * 1024.

Record BlobCache := mkCache {
  cache_entries : gmap ChunkId bytes;
  cache_order : list ChunkId;
  current_bytes : Z;
  max_bytes : Z;
}.

Definition cache_new (max : Z) : BlobCache := mkCache ∅ [] 0 max.
Definition cache_get (c : BlobCache) (id : ChunkId) : option bytes := cache_entries c !! id.

(** The eviction loop: the queue shrinks with every turn. *)
Fixpoint evict (data_len max : Z) (order : list ChunkId) (entries : gmap ChunkId bytes) (current : Z) :
    gmap ChunkId bytes * list ChunkId * Z :=
  if max <? current + data_len then
    match order with
    | [] => (entries, [], current)
    | id :: order' =>
        match entries !! id with
        | Some data => evict data_len max order' (delete id entries) (current - blen data)
        | None => evict data_len max order' entries current
        end
    end
  else (entries, order, current).

Definition cache_insert (id : ChunkId) (data : bytes) (c : BlobCache) : BlobCache :=
  if max_bytes c <? blen data then c
  else
    let '(entries, order, current) :=
      evict (blen data) (max_bytes c) (cache_order c) (cache_entries c) (current_bytes c) in
    mkCache (<[id := data]> entries) (order ++ [id]) (current + blen data) (max_bytes c).

(** ** One chunk *)

Section Read.
Context `{HexCodec} (e : CryptoEngine) `{Codecs}.

(** Decrypt and decompress a stored blob. *)
Definition open_blob (id : ChunkId) (blob : bytes) : res bytes :=
  compressed ← unpack_object_expect_with_context e blob OChunkData (chunk_bytes id);
  decompress compressed.

Definition read_chunk_at (id : ChunkId) (p : PackId) (offset size : Z) (c : BlobCache) :
    M (bytes * BlobCache) :=
  match cache_get c id with
  | Some cached => mret (cached, c)
  | None =>
      blob ← read_blob_from_pack p offset size;
      plaintext ← lift (open_blob id blob);
      mret (plaintext, cache_insert id plaintext c)
  end.

Definition read_chunk (ix : ChunkIndex) (id : ChunkId) (c : BlobCache) : M (bytes * BlobCache) :=
  match ix !! id with
  | None => fail (Other "chunk not found")
  | Some en => read_chunk_at id (pack_id en) (pack_offset en) (stored_size en) c
  end.

(** ** Many chunks *)

Definition COALESCE_GAP : Z := 256 * 1024.
Definition COALESCE_MAX : Z := 16 * 1024 * 1024.

Record CoalescedBlob := mkBlob {
  result_idx : nat;
  cb_chunk_id : ChunkId;
  cb_offset : Z;
  cb_size : Z;
}.
Record CoalescedGroup := mkGroup {
  cg_pack_id : PackId;
  read_start : Z;
  read_end : Z;
  cg_blobs : list CoalescedBlob;
}.

(** Phase 1: the slots, and the blobs to fetch by pack. *)
Fixpoint cache_scan (c : BlobCache) (idx : nat) (chunks : list (ChunkId * PackId * Z * Z))
    (slots : list (option bytes)) (pack_blobs : gmap PackId (list CoalescedBlob)) :
    list (option bytes) * gmap PackId (list CoalescedBlob) :=
  match chunks with
  | [] => (slots, pack_blobs)
  | (id, p, off, size) :: rest =>
      match cache_get c id with
      | Some cached => cache_scan c (S idx) rest (slots ++ [Some cached]) pack_blobs
      | None =>
          cache_scan c (S idx) rest (slots ++ [None])
            (<[p := default [] (pack_blobs !! p) ++ [mkBlob idx id off size]]> pack_blobs)
      end
  end.

(** [drain_ready]; each turn moves [next_emit]. *)
Fixpoint drain_ready (fuel : nat) (slots : list (option bytes)) (next_emit : nat) (out : bytes) :
    list (option bytes) * nat * bytes :=
  match fuel with
  | O => (slots, next_emit, out)
  | S fuel' =>
      match slots !! next_emit with
      | Some (Some data) => drain_ready fuel' (<[next_emit := None]> slots) (S next_emit) (out ++ data)
      | _ => (slots, next_emit, out)
      end
  end.

(** Phase 2: the merge loop of one pack. *)
Fixpoint coalesce_loop (p : PackId) (cur_start cur_end : Z) (cur_blobs rest : list CoalescedBlob) :
    list CoalescedGroup :=
  match rest with
  | [] => [mkGroup p cur_start cur_end cur_blobs]
  | b :: rest' =>
      let blob_end := cb_offset b + cb_size b in
      let gap := sat_sub (cb_offset b) cur_end in
      let merged_size := blob_end - cur_start in
      if (gap <=? COALESCE_GAP) && (merged_size <=? COALESCE_MAX) then
        coalesce_loop p cur_start blob_end (cur_blobs ++ [b]) rest'
      else mkGroup p cur_start cur_end cur_blobs :: coalesce_loop p (cb_offset b) blob_end [b] rest'
  end.

Definition coalesce_pack (p : PackId) (blobs : list CoalescedBlob) : list CoalescedGroup :=
  match sort_by (fun a b => cb_offset a <=? cb_offset b) blobs with
  | [] => []
  | first :: rest => coalesce_loop p (cb_offset first) (cb_offset first + cb_size first) [first] rest
  end.

Definition first_slot (g : CoalescedGroup) : nat :=
  foldr (fun b n => Nat.min (result_idx b) n) (default 0%nat (result_idx <$> head (cg_blobs g))) (cg_blobs g).

Definition coalesce (pack_blobs : gmap PackId (list CoalescedBlob)) : list CoalescedGroup :=
  sort_by (fun a b => (first_slot a <=? first_slot b)%nat)
    (concat ((fun kv => coalesce_pack kv.1 kv.2) <$> map_to_list pack_blobs)).

(** Phase 3: what is kept while reading. *)
Record read_state := mkRead {
  rs_slots : list (option bytes);
  rs_next : nat;
  rs_out : bytes;
  rs_cache : BlobCache;
}.

Definition drain (st : read_state) : read_state :=
  let '(slots, next, out) := drain_ready (length (rs_slots st)) (rs_slots st) (rs_next st) (rs_out st) in
  mkRead slots next out (rs_cache st).

Fixpoint place_blobs (start : Z) (raw : bytes) (blobs : list CoalescedBlob) (st : read_state) : res read_state :=
  match blobs with
  | [] => Ok st
  | b :: rest =>
      let local_offset := cb_offset b - start in
      let local_end := local_offset + cb_size b in
      if blen raw <? local_end then Err (Other "blob extends beyond downloaded range")
      else
        plaintext ← open_blob (cb_chunk_id b) (slice (Z.to_nat local_offset) (Z.to_nat (cb_size b)) raw);
        place_blobs start raw rest
          (drain (mkRead (<[result_idx b := Some plaintext]> (rs_slots st)) (rs_next st) (rs_out st)
                    (cache_insert (cb_chunk_id b) plaintext (rs_cache st))))
  end.

Definition read_group (g : CoalescedGroup) (st : read_state) : M read_state :=
  r ← get_range (pack_storage_key (cg_pack_id g)) (read_start g) (read_end g - read_start g);
  match r with
  | None => fail (Other "pack not found")
  | Some raw => lift (place_blobs (read_start g) raw (cg_blobs g) st)
  end.

Fixpoint read_groups (gs : list CoalescedGroup) (st : read_state) : M read_state :=
  match gs with
  | [] => mret st
  | g :: gs' => st' ← read_group g st; read_groups gs' st'
  end.

Definition read_chunks_coalesced_into (chunks : list (ChunkId * PackId * Z * Z)) (out : bytes) (c : BlobCache) :
    M (bytes * BlobCache) :=
  match chunks with
  | [] => mret (out, c)
  | _ =>
      let '(slots, pack_blobs) := cache_scan c 0 chunks [] ∅ in
      let st := drain (mkRead slots 0 out c) in
      if bool_decide (pack_blobs = ∅) then mret (rs_out st, rs_cache st)
      else
        st' ← read_groups (coalesce pack_blobs) st;
        let st' := drain st' in
        mret (rs_out st', rs_cache st')
  end.

Lemma read_coalesced_nonempty chunks out c :
  chunks <> [] ->
  read_chunks_coalesced_into chunks out c =
    let '(slots, pack_blobs) := cache_scan c 0 chunks [] ∅ in
    let st := drain (mkRead slots 0 out c) in
    if bool_decide (pack_blobs = ∅) then mret (rs_out st, rs_cache st)
    else
      st' ← read_groups (coalesce pack_blobs) st;
      let st' := drain st' in
      mret (rs_out st', rs_cache st').
Proof. by destruct chunks. Qed.
End Read.

(** ** The cache is bounded *)

Definition cached_bytes (c : BlobCache) : Z := sum_map blen (cache_entries c).

(** Every entry is queued, and the counter does not understate. *)
Definition cache_inv (c : BlobCache) : Prop :=
  (forall id, is_Some (cache_entries c !! id) -> id ∈ cache_order c) /\
  cached_bytes c <= current_bytes c /\ cached_bytes c <= max_bytes c.

Lemma blen_nonneg b : 0 <= blen b.
Proof. unfold blen. lia. Qed.

Lemma sum_map_insert_le (m : gmap ChunkId bytes) id d : sum_map blen (<[id := d]> m) <= sum_map blen m + blen d.
Proof.
  destruct (m !! id) as [old|] eqn:E.
  - rewrite <- (insert_delete_id m id old E) at 2. rewrite <- insert_delete_eq.
    rewrite !sum_map_insert by apply lookup_delete_eq. pose proof (blen_nonneg old). lia.
  - rewrite sum_map_insert by done. lia.
Qed.

Lemma evict_spec len max order entries current entries' order' current' :
  evict len max order entries current = (entries', order', current') ->
  (forall id, is_Some (entries !! id) -> id ∈ order) -> sum_map blen entries <= current ->
  (forall id, is_Some (entries' !! id) -> id ∈ order') /\ sum_map blen entries' <= current' /\
  (sum_map blen entries' + len <= max \/ sum_map blen entries' = 0).
Proof.
  revert entries current. induction order as [|id order IH]; intros entries current; cbn [evict];
    destruct (Z.ltb_spec max (current + len)).
  - intros [= <- <- <-] Hq Hs. split; [done|]. split; [done|]. right.
    replace entries with (∅ : gmap ChunkId bytes); [apply sum_map_empty|].
    symmetry. apply map_empty. intros i. apply eq_None_not_Some. intros Hi. by apply Hq, not_elem_of_nil in Hi.
  - intros [= <- <- <-] Hq Hs. split; [done|]. split; [done|]. left. lia.
  - destruct (entries !! id) as [d|] eqn:Hd; intros He Hq Hs; eapply IH; eauto.
    + intros i [Hn Hi]%lookup_delete_is_Some. apply Hq, elem_of_cons in Hi as [->|]; done.
    + rewrite (sum_map_delete _ _ _ _ Hd). lia.
    + intros i Hi. specialize (Hq i Hi) as [->|]%elem_of_cons; [|done]. rewrite Hd in Hi. by destruct Hi.
  - intros [= <- <- <-] Hq Hs. split; [done|]. split; [done|]. left. lia.
Qed.

Lemma cache_insert_inv id d c : cache_inv c -> cache_inv (cache_insert id d c).
Proof.
  intros (Hq & Hc & Hm). unfold cache_insert. destruct (Z.ltb_spec (max_bytes c) (blen d)); [done|].
  destruct (evict _ _ _ _ _) as [[entries order] current] eqn:He.
  destruct (evict_spec _ _ _ _ _ _ _ _ He Hq Hc) as (Hq' & Hc' & Hroom).
  pose proof (sum_map_insert_le entries id d) as Hle. unfold cache_inv, cached_bytes.
  cbn [cache_entries cache_order current_bytes max_bytes]. split; [|lia].
  intros i [<-|Hi]%lookup_insert_is_Some'; apply elem_of_app; [right; set_solver|left; auto].
Qed.

(** The blob cache is bounded: after any sequence of insertions, repeated
    ones included, it holds at most its limit in bytes, and the blob inserted
    last is found again if it is not larger than the limit. *)
Theorem blob_cache_bounded max inserts id d :
  0 <= max ->
  let c := foldl (fun c kv => cache_insert kv.1 kv.2 c) (cache_new max) (inserts ++ [(id, d)]) in
  cached_bytes c <= max /\ (blen d <= max -> cache_get c id = Some d).
Proof.
  intros Hmax c'. set (c := foldl (fun c kv => cache_insert kv.1 kv.2 c) (cache_new max) inserts).
  assert (Hc' : c' = cache_insert id d c) by (unfold c', c; by rewrite foldl_app). clearbody c'. subst c'.
  assert (Hi : cache_inv c /\ max_bytes c = max).
  { unfold c. induction inserts as [|[i x] inserts IH] using rev_ind.
    - split; [|done]. split; [intros ? [? [=]]|]. unfold cached_bytes, cache_new. simpl.
      rewrite sum_map_empty. lia.
    - rewrite foldl_app. cbn [foldl fst snd]. destruct IH as [IH1 IH2].
      split; [by apply cache_insert_inv|]. unfold cache_insert. destruct (_ <? _); [done|].
      by destruct (evict _ _ _ _ _) as [[? ?] ?]. }
  destruct Hi as [Hi Hm]. destruct (cache_insert_inv id d c Hi) as (_ & _ & Hb). split.
  - assert (max_bytes (cache_insert id d c) = max); [|lia]. unfold cache_insert.
    destruct (_ <? _); [done|]. by destruct (evict _ _ _ _ _) as [[? ?] ?].
  - intros Hd. unfold cache_insert. destruct (Z.ltb_spec (max_bytes c) (blen d)); [lia|].
    destruct (evict _ _ _ _ _) as [[? ?] ?]. unfold cache_get. cbn [cache_entries]. apply lookup_insert_eq.
Qed.

Lemma blob_cache_bounded_witness :
  cache_get (foldl (fun c kv => cache_insert kv.1 kv.2 c) (cache_new 3)
    ([(mkChunkId (id_of_byte 1), [1; 2]); (mkChunkId (id_of_byte 1), [1; 2])] ++ [(mkChunkId (id_of_byte 2), [3; 4])]))
    (mkChunkId (id_of_byte 2)) = Some [3; 4].
Proof.
  apply (blob_cache_bounded 3 [(mkChunkId (id_of_byte 1), [1; 2]); (mkChunkId (id_of_byte 1), [1; 2])]
    (mkChunkId (id_of_byte 2)) [3; 4]); vm_compute; discriminate.
Defined.

(** ** Coalesced reads equal single reads *)

Section Coalesced.
Context `{Hhex : HexCodec} (e : CryptoEngine) `{Hcodecs : Codecs}.
(** The plaintext of each chunk, and the store that is read. *)
Context (plain : ChunkId -> bytes) (s : Store).
Context (chunks : list (ChunkId * PackId * Z * Z)).

#[local] Abbreviation chunk := (ChunkId * PackId * Z * Z)%type.
Definition ck_id (k : chunk) : ChunkId := k.1.1.1.
Definition ck_pack (k : chunk) : PackId := k.1.1.2.
Definition ck_off (k : chunk) : Z := k.1.2.
Definition ck_size (k : chunk) : Z := k.2.
Definition ck_end (k : chunk) : Z := ck_off k + ck_size k.

(** The chunk is stored where the request says. *)
Definition located (k : chunk) : Prop :=
  exists data, s !! pack_storage_key (ck_pack k) = Some data /\
    0 <= ck_off k /\ 0 <= ck_size k /\ ck_end k <= Z.of_nat (length data) /\
    open_blob e (ck_id k) (slice (Z.to_nat (ck_off k)) (Z.to_nat (ck_size k)) data) = Ok (plain (ck_id k)).

(** Blobs of a pack do not contain each other. *)
Definition not_nested (k k' : chunk) : Prop :=
  ck_pack k = ck_pack k' -> ck_off k <= ck_off k' -> ck_end k <= ck_end k'.

Definition cache_sound (c : BlobCache) : Prop := forall id d, cache_get c id = Some d -> d = plain id.

Context (Hloc : Forall located chunks) (Hnest : forall k k', k ∈ chunks -> k' ∈ chunks -> not_nested k k').

Lemma evict_sub len max order entries current id d :
  (evict len max order entries current).1.1 !! id = Some d -> entries !! id = Some d.
Proof.
  revert entries current. induction order as [|i order IH]; intros entries current; cbn [evict];
    destruct (_ <? _); try done.
  destruct (entries !! i); intros Hx%IH; [|done]. by apply lookup_delete_Some in Hx as [_ ?].
Qed.

Lemma cache_insert_sound id c : cache_sound c -> cache_sound (cache_insert id (plain id) c).
Proof.
  intros Hc. unfold cache_insert. destruct (_ <? _); [done|].
  destruct (evict _ _ _ _ _) as [[entries order] current] eqn:He.
  intros i d. unfold cache_get. cbn [cache_entries]. intros [[-> <-]|[_ Hi]]%lookup_insert_Some; [done|].
  apply Hc. unfold cache_get. eapply evict_sub. by rewrite He.
Qed.

(** A blob of the request for a chunk. *)
Definition asks (p : PackId) (b : CoalescedBlob) : Prop :=
  chunks !! result_idx b = Some (cb_chunk_id b, p, cb_offset b, cb_size b).
Definition of_blob (p : PackId) (b : CoalescedBlob) : chunk := (cb_chunk_id b, p, cb_offset b, cb_size b).

Lemma asks_elem p b : asks p b -> of_blob p b ∈ chunks.
Proof. apply list_elem_of_lookup_2. Qed.

(** *** Draining *)

Record RI (out0 : bytes) (pend : list nat) (slots : list (option bytes)) (next : nat) (out : bytes) : Prop := {
  ri_length : length slots = length chunks;
  ri_next : (next <= length chunks)%nat;
  ri_out : out = out0 ++ concat ((fun k => plain (ck_id k)) <$> take next chunks);
  ri_slots : forall i k, (next <= i)%nat -> chunks !! i = Some k ->
    slots !! i = Some (Some (plain (ck_id k))) \/ i ∈ pend;
  ri_filled : forall i d k, (next <= i)%nat -> slots !! i = Some (Some d) -> chunks !! i = Some k -> d = plain (ck_id k);
}.

Lemma drain_ready_spec out0 pend fuel : forall slots next out slots' next' out',
  RI out0 pend slots next out -> (length slots <= fuel + next)%nat ->
  drain_ready fuel slots next out = (slots', next', out') ->
  RI out0 pend slots' next' out' /\ (pend = [] -> next' = length chunks).
Proof.
  induction fuel as [|fuel IH]; intros slots next out slots' next' out' HR Hf; cbn [drain_ready].
  { intros [= <- <- <-]. split; [done|]. intros _. destruct HR as [Hl Hn _ _ _]. lia. }
  destruct (slots !! next) as [[d|]|] eqn:Hs.
  - assert (Hlt : (next < length chunks)%nat) by (rewrite <- (ri_length _ _ _ _ _ HR); by eapply lookup_lt_Some).
    destruct (lookup_lt_is_Some_2 chunks next Hlt) as [k Hk].
    intros Hd. refine (IH _ _ _ _ _ _ _ _ Hd); [|rewrite length_insert; lia].
    pose proof (ri_filled _ _ _ _ _ HR next d k ltac:(lia) Hs Hk) as ->. destruct HR as [Hl Hn Ho Hsl Hfi].
    constructor; [by rewrite length_insert|lia| | |].
    + rewrite (take_S_r _ _ _ Hk), fmap_app, concat_app, Ho. simpl. by rewrite app_nil_r, app_assoc.
    + intros i k' Hi Hk'. rewrite list_lookup_insert_ne by lia. apply Hsl; [lia|done].
    + intros i d' k' Hi. rewrite list_lookup_insert_ne by lia. apply Hfi. lia.
  - intros [= <- <- <-]. split; [done|]. intros ->. destruct (Nat.eq_dec next (length chunks)) as [|Hne]; [done|].
    destruct (lookup_lt_is_Some_2 chunks next) as [k Hk]; [pose proof (ri_next _ _ _ _ _ HR); lia|].
    destruct (ri_slots _ _ _ _ _ HR next k ltac:(lia) Hk) as [Hx|Hx]; [congruence|by apply not_elem_of_nil in Hx].
  - intros [= <- <- <-]. split; [done|]. intros _. apply lookup_ge_None in Hs.
    rewrite (ri_length _ _ _ _ _ HR) in Hs. pose proof (ri_next _ _ _ _ _ HR). lia.
Qed.

Definition good (out0 : bytes) (pend : list nat) (st : read_state) : Prop :=
  RI out0 pend (rs_slots st) (rs_next st) (rs_out st) /\ cache_sound (rs_cache st).

Lemma drain_good out0 pend st :
  good out0 pend st -> good out0 pend (drain st) /\
  (pend = [] -> rs_out (drain st) = out0 ++ concat ((fun k => plain (ck_id k)) <$> chunks)).
Proof.
  intros [HR Hc]. unfold drain. destruct (drain_ready _ _ _ _) as [[slots next] out] eqn:Hd.
  destruct (drain_ready_spec out0 pend (length (rs_slots st)) (rs_slots st) _ _ _ _ _ HR ltac:(lia) Hd) as [HR' Hall].
  split; [done|]. intros ->. cbn [rs_out]. rewrite (ri_out _ _ _ _ _ HR'), Hall by done.
  by rewrite take_ge.
Qed.

(** Placing a plaintext in its slot. *)
Lemma place_good out0 p b pend st :
  asks p b -> good out0 (result_idx b :: pend) st ->
  good out0 pend (drain (mkRead (<[result_idx b := Some (plain (cb_chunk_id b))]> (rs_slots st)) (rs_next st)
    (rs_out st) (cache_insert (cb_chunk_id b) (plain (cb_chunk_id b)) (rs_cache st)))).
Proof.
  intros Hb [[Hl Hn Ho Hs Hf] Hc]. apply drain_good. split; [|by apply cache_insert_sound].
  cbn [rs_slots rs_next rs_out]. assert (Hlt : (result_idx b < length (rs_slots st))%nat).
  { rewrite Hl. by eapply lookup_lt_Some. }
  constructor; [by rewrite length_insert|done|done| |].
  - intros i k Hi Hk. destruct (decide (i = result_idx b)) as [->|Hne].
    + left. rewrite list_lookup_insert_eq by done. unfold asks in Hb. rewrite Hb in Hk. by injection Hk as <-.
    + rewrite list_lookup_insert_ne by done. destruct (Hs i k Hi Hk) as [|Hin]; [by left|]. right. set_solver.
  - intros i d k Hi. destruct (decide (i = result_idx b)) as [->|Hne].
    + rewrite list_lookup_insert_eq by done. intros [= <-] Hk. unfold asks in Hb. rewrite Hb in Hk. by injection Hk as <-.
    + rewrite list_lookup_insert_ne by done. by apply Hf.
Qed.

(** *** One group *)

Record group_ok (g : CoalescedGroup) : Prop := {
  g_asks : forall b, b ∈ cg_blobs g -> asks (cg_pack_id g) b;
  g_in : forall b, b ∈ cg_blobs g -> read_start g <= cb_offset b /\ cb_offset b + cb_size b <= read_end g;
  g_start : exists b, b ∈ cg_blobs g /\ read_start g = cb_offset b;
  g_end : exists b, b ∈ cg_blobs g /\ read_end g = cb_offset b + cb_size b;
}.

Lemma asks_located p b : asks p b -> located (of_blob p b).
Proof. intros Hb%asks_elem. by eapply Forall_forall. Qed.

Lemma place_blobs_spec out0 p data start len blobs : forall pend st,
  s !! pack_storage_key p = Some data -> 0 <= start -> 0 <= len -> start + len <= Z.of_nat (length data) ->
  (forall b, b ∈ blobs -> asks p b /\ start <= cb_offset b /\ cb_offset b + cb_size b <= start + len) ->
  good out0 ((result_idx <$> blobs) ++ pend) st ->
  exists st', place_blobs e start (slice (Z.to_nat start) (Z.to_nat len) data) blobs st = Ok st' /\
    good out0 pend st'.
Proof.
  intros pend st Hd Hs Hl Hlen. revert st. induction blobs as [|b blobs IH]; intros st Hall Hg.
  { by exists st. }
  destruct (Hall b (list_elem_of_here _ _)) as (Hask & Hlo & Hhi).
  destruct (asks_located p b Hask) as (data' & Hd' & Ho & Hsz & Hend & Hopen).
  unfold of_blob, ck_pack, ck_off, ck_size, ck_end, ck_id in *. cbn [fst snd] in *.
  rewrite Hd in Hd'. injection Hd' as <-. cbn [place_blobs]. cbv zeta.
  unfold blen. rewrite length_slice by lia. rewrite Z2Nat.id by lia.
  destruct (Z.ltb_spec len (cb_offset b - start + cb_size b)); [lia|].
  rewrite slice_slice by lia.
  replace (Z.to_nat start + Z.to_nat (cb_offset b - start))%nat with (Z.to_nat (cb_offset b)) by lia.
  rewrite Hopen. cbn [mbind result_bind]. apply IH.
  - intros b' Hb'. apply Hall. by right.
  - by eapply place_good.
Qed.

Lemma read_group_spec out0 g pend st :
  group_ok g -> good out0 ((result_idx <$> cg_blobs g) ++ pend) st ->
  exists st', computes s (read_group e g st) st' /\ good out0 pend st'.
Proof.
  intros Hg Hst. destruct (g_start _ Hg) as (b0 & Hb0 & Hs0). destruct (g_end _ Hg) as (b1 & Hb1 & He1).
  destruct (asks_located _ _ (g_asks _ Hg b0 Hb0)) as (data & Hd & Ho & Hsz & Hend & _).
  destruct (asks_located _ _ (g_asks _ Hg b1 Hb1)) as (data' & Hd' & Ho' & Hsz' & Hend' & _).
  destruct (g_in _ Hg b0 Hb0) as [_ Hin0]. destruct (g_in _ Hg b1 Hb1) as [Hin1 _].
  unfold ck_end, of_blob, ck_pack, ck_off, ck_size in *. cbn [fst snd] in *.
  rewrite Hd in Hd'. injection Hd' as <-.
  destruct (place_blobs_spec out0 (cg_pack_id g) data (read_start g) (read_end g - read_start g)
    (cg_blobs g) pend st) as (st' & Hp & Hgood); [done|lia|lia|lia| |done|].
  { intros b Hb. split; [by apply (g_asks _ Hg)|]. pose proof (g_in _ Hg b Hb). lia. }
  exists st'. split; [|done]. unfold read_group.
  eapply computes_bind; [apply (computes_get_range _ _ data); [done|lia|lia|lia]|].
  by apply computes_lift.
Qed.

Lemma read_groups_spec out0 gs : forall st,
  Forall group_ok gs -> good out0 (concat ((fun g => result_idx <$> cg_blobs g) <$> gs)) st ->
  exists st', computes s (read_groups e gs st) st' /\ good out0 [] st'.
Proof.
  induction gs as [|g gs IH]; intros st Hgs Hst.
  { exists st. split; [apply computes_ret|done]. }
  apply Forall_cons in Hgs as [Hg Hgs]. destruct (read_group_spec out0 g _ st Hg Hst) as (st1 & H1 & Hst1).
  destruct (IH st1 Hgs Hst1) as (st2 & H2 & Hst2). exists st2. split; [|done]. by eapply computes_bind.
Qed.

(** *** Coalescing *)

Definition by_offset (b b' : CoalescedBlob) : Prop := cb_offset b <= cb_offset b'.

Lemma coalesce_loop_spec p cur_start cur_end cur rest :
  (forall b, b ∈ cur ++ rest -> asks p b) ->
  StronglySorted by_offset rest ->
  (forall b b', b ∈ cur -> b' ∈ rest -> cb_offset b <= cb_offset b') ->
  (forall b, b ∈ cur -> cur_start <= cb_offset b /\ cb_offset b + cb_size b <= cur_end) ->
  (exists b, b ∈ cur /\ cur_start = cb_offset b) -> (exists b, b ∈ cur /\ cur_end = cb_offset b + cb_size b) ->
  Forall (fun g => cg_pack_id g = p /\ group_ok g) (coalesce_loop p cur_start cur_end cur rest) /\
  concat (cg_blobs <$> coalesce_loop p cur_start cur_end cur rest) = cur ++ rest.
Proof.
  intros Hask Hsort Hle Hin Hst Hen. revert cur_start cur_end cur Hask Hle Hin Hst Hen.
  induction Hsort as [|b rest Hsort IH Hb]; intros cur_start cur_end cur Hask Hle Hin Hst Hen; cbn [coalesce_loop].
  { split; [|simpl; by rewrite app_nil_r]. constructor; [|done]. split; [done|].
    constructor; cbn [cg_blobs cg_pack_id read_start read_end]; try done. intros b Hb. apply Hask. set_solver. }
  rewrite Forall_forall in Hb.
  assert (Hend : forall b', b' ∈ cur -> cb_offset b' + cb_size b' <= cb_offset b + cb_size b).
  { intros b' Hb'. pose proof (Hask b' ltac:(set_solver)) as Ha1%asks_elem.
    pose proof (Hask b ltac:(set_solver)) as Ha2%asks_elem.
    apply (Hnest (of_blob p b') (of_blob p b) Ha1 Ha2); [done|].
    apply Hle; [done|]. apply list_elem_of_here. }
  destruct (_ && _).
  - destruct (IH cur_start (cb_offset b + cb_size b) (cur ++ [b])) as [IH1 IH2].
    + intros b' Hb'. apply Hask. set_solver.
    + intros b1 b2 [Hb1|Hb1%list_elem_of_singleton]%elem_of_app Hb2; [apply Hle; set_solver|].
      subst b1. by apply Hb.
    + destruct Hst as (b0 & Hb0 & ->).
      intros b' [Hb'|Hb'%list_elem_of_singleton]%elem_of_app.
      * destruct (Hin b' Hb'). split; [done|]. by apply Hend.
      * subst b'. split; [|lia]. apply Hle; [done|apply list_elem_of_here].
    + destruct Hst as (b0 & Hb0 & ->). exists b0. split; [set_solver|done].
    + exists b. split; [set_solver|done].
    + split; [done|]. by rewrite IH2, <- app_assoc.
  - destruct (IH (cb_offset b) (cb_offset b + cb_size b) [b]) as [IH1 IH2].
    + intros b' Hb'. apply Hask. set_solver.
    + intros b1 b2 ->%list_elem_of_singleton Hb2. by apply Hb.
    + intros b' ->%list_elem_of_singleton. lia.
    + exists b. split; [set_solver|done].
    + exists b. split; [set_solver|done].
    + split.
      * constructor; [|done]. split; [done|]. constructor; cbn [cg_blobs cg_pack_id read_start read_end]; try done.
        intros b' Hb'. apply Hask. set_solver.
      * rewrite fmap_cons. cbn [concat cg_blobs]. rewrite IH2. done.
Qed.

Lemma coalesce_pack_spec p blobs :
  (forall b, b ∈ blobs -> asks p b) ->
  Forall group_ok (coalesce_pack p blobs) /\ concat (cg_blobs <$> coalesce_pack p blobs) ≡ₚ blobs.
Proof.
  intros Hask. unfold coalesce_pack. set (leb := fun a b => cb_offset a <=? cb_offset b).
  pose proof (sort_by_perm leb blobs) as Hperm.
  assert (Hsort : StronglySorted by_offset (sort_by leb blobs)).
  { eapply StronglySorted_weaken; [|apply (sort_by_sorted leb)].
    - intros a b Hab. by apply Z.leb_le in Hab.
    - intros a b. unfold leb. rewrite !Z.leb_le. lia.
    - intros a b c. unfold leb. rewrite !Z.leb_le. lia. }
  destruct (sort_by leb blobs) as [|first rest]; [done|]. apply StronglySorted_inv in Hsort as [Hsort Hf].
  rewrite Forall_forall in Hf.
  destruct (coalesce_loop_spec p (cb_offset first) (cb_offset first + cb_size first) [first] rest) as [Hg Hc].
  - intros b Hb. apply Hask. by rewrite <- Hperm.
  - done.
  - intros b b' ->%list_elem_of_singleton Hb'. by apply Hf.
  - intros b ->%list_elem_of_singleton. lia.
  - exists first. split; [set_solver|done].
  - exists first. split; [set_solver|done].
  - split; [|by rewrite Hc, <- Hperm]. eapply Forall_impl; [exact Hg|]. by intros g [_ ?].
Qed.

Lemma coalesce_spec pb :
  (forall p bs b, pb !! p = Some bs -> b ∈ bs -> asks p b) ->
  Forall group_ok (coalesce pb) /\
  forall p bs b, pb !! p = Some bs -> b ∈ bs ->
    result_idx b ∈ concat ((fun g => result_idx <$> cg_blobs g) <$> coalesce pb).
Proof.
  intros Hask. unfold coalesce. set (all := concat _).
  assert (Hall : Forall group_ok all).
  { unfold all. apply Forall_concat, Forall_fmap, Forall_forall. intros [p bs] Hin%elem_of_map_to_list.
    apply (coalesce_pack_spec p bs). intros b. by apply Hask. }
  split; [by rewrite sort_by_perm|]. intros p bs b Hp Hb.
  assert (Hg : exists g, g ∈ all /\ b ∈ cg_blobs g).
  { destruct (coalesce_pack_spec p bs) as [_ Hc]; [intros b' Hb'; by eapply Hask|].
    rewrite <- Hc in Hb. apply list_elem_of_In, in_concat in Hb as (bl & Hbl & Hb).
    apply list_elem_of_In, list_elem_of_fmap in Hbl as (g & -> & Hg). exists g.
    split; [|by apply list_elem_of_In]. unfold all. apply list_elem_of_In, in_concat.
    exists (coalesce_pack p bs). split; [|by apply list_elem_of_In].
    apply list_elem_of_In, list_elem_of_fmap. exists (p, bs). split; [done|]. by apply elem_of_map_to_list. }
  destruct Hg as (g & Hg & Hbg). apply list_elem_of_In, in_concat. exists (result_idx <$> cg_blobs g).
  split; apply list_elem_of_In, list_elem_of_fmap; [exists g; by rewrite sort_by_perm|by exists b].
Qed.

(** Phase 1 puts each chunk in its slot or in the list of its pack. *)
Lemma cache_scan_spec c : cache_sound c -> forall rest pre slots pb slots' pb',
  pre ++ rest = chunks -> length slots = length pre ->
  (forall p bs b, pb !! p = Some bs -> b ∈ bs -> asks p b) ->
  (forall i k, pre !! i = Some k -> slots !! i = Some (Some (plain (ck_id k))) \/
     (slots !! i = Some None /\ exists p bs b, pb !! p = Some bs /\ b ∈ bs /\ result_idx b = i)) ->
  cache_scan c (length pre) rest slots pb = (slots', pb') ->
  length slots' = length chunks /\
  (forall p bs b, pb' !! p = Some bs -> b ∈ bs -> asks p b) /\
  (forall i k, chunks !! i = Some k -> slots' !! i = Some (Some (plain (ck_id k))) \/
     (slots' !! i = Some None /\ exists p bs b, pb' !! p = Some bs /\ b ∈ bs /\ result_idx b = i)).
Proof.
  intros Hc. induction rest as [|[[[id p] off] size] rest IH]; intros pre slots pb slots' pb' Hch Hl Hask Hpre; cbn [cache_scan].
  { intros [= <- <-]. rewrite app_nil_r in Hch. subst pre. done. }
  assert (Hidx : chunks !! length pre = Some (id, p, off, size)) by (rewrite <- Hch; by apply list_lookup_middle).
  destruct (cache_get c id) as [d|] eqn:Hg; intros Hs.
  - apply (IH (pre ++ [(id, p, off, size)]) (slots ++ [Some d]) pb); try done.
    + by rewrite <- app_assoc.
    + rewrite !length_app. simpl. lia.
    + intros i k Hi. destruct (decide (i < length pre)%nat) as [Hlt|Hge].
      * rewrite lookup_app_l in Hi by done. rewrite lookup_app_l by (by rewrite Hl). by apply Hpre.
      * rewrite lookup_app_r in Hi by lia. rewrite lookup_app_r by lia. rewrite Hl.
        apply list_lookup_singleton_Some in Hi as [Hi <-]. rewrite Hi. left. simpl.
        by rewrite (Hc _ _ Hg).
    + rewrite length_app. simpl. by rewrite Nat.add_1_r.
  - apply (IH (pre ++ [(id, p, off, size)]) (slots ++ [None])
      (<[p := default [] (pb !! p) ++ [mkBlob (length pre) id off size]]> pb)); try done.
    + by rewrite <- app_assoc.
    + rewrite !length_app. simpl. lia.
    + intros p' bs b [[<- <-]|[_ Hp]]%lookup_insert_Some Hb; [|by eapply Hask].
      apply elem_of_app in Hb as [Hb|Hb%list_elem_of_singleton].
      * destruct (pb !! p) as [bs|] eqn:Hp; [by eapply Hask|by apply not_elem_of_nil in Hb].
      * by subst b.
    + intros i k Hi. destruct (decide (i < length pre)%nat) as [Hlt|Hge].
      * rewrite lookup_app_l in Hi by done. rewrite lookup_app_l by (by rewrite Hl).
        destruct (Hpre i k Hi) as [|(Hn & p' & bs & b & Hp & Hb & Hr)]; [by left|]. right. split; [done|].
        destruct (decide (p = p')) as [<-|Hne].
        -- eexists p, _, b. rewrite lookup_insert_eq. split; [done|]. rewrite Hp. split; [set_solver|done].
        -- exists p', bs, b. by rewrite lookup_insert_ne.
      * rewrite lookup_app_r in Hi by lia. rewrite lookup_app_r by lia. rewrite Hl.
        apply list_lookup_singleton_Some in Hi as [Hi <-]. rewrite Hi. right. split; [done|].
        eexists p, _, (mkBlob (length pre) id off size). rewrite lookup_insert_eq. split; [done|].
        split; [set_solver|]. simpl. lia.
    + rewrite length_app. simpl. by rewrite Nat.add_1_r.
Qed.

Lemma read_coalesced_computes c out0 :
  cache_sound c ->
  exists c', computes s (read_chunks_coalesced_into e chunks out0 c)
      (out0 ++ concat ((fun k => plain (ck_id k)) <$> chunks), c') /\ cache_sound c'.
Proof.
  intros Hc. destruct (decide (chunks = [])) as [He|Hne].
  { exists c. split; [|done]. rewrite He. simpl. rewrite app_nil_r. apply computes_ret. }
  rewrite (read_coalesced_nonempty e chunks out0 c Hne). destruct (cache_scan c 0 chunks [] ∅) as [slots pb] eqn:Hs.
  destruct (cache_scan_spec c Hc chunks [] [] ∅ slots pb) as (Hl & Hask & Hsl); try done.
  set (gs := coalesce pb). destruct (coalesce_spec pb Hask) as [Hok Hcov].
  set (pend := concat ((fun g => result_idx <$> cg_blobs g) <$> gs)).
  assert (Hg0 : good out0 pend (mkRead slots 0 out0 c)).
  { split; [|done]. constructor; cbn [rs_slots rs_next rs_out]; [done|lia| | |].
    - simpl. by rewrite app_nil_r.
    - intros i k _ Hk. destruct (Hsl i k Hk) as [|(_ & p & bs & b & Hp & Hb & <-)]; [by left|]. right. by eapply Hcov.
    - intros i d k _ Hd Hk. destruct (Hsl i k Hk) as [Hx|[Hx _]]; congruence. }
  destruct (drain_good out0 pend _ Hg0) as [Hg1 Hout1]. set (st1 := drain _) in *. cbv zeta.
  destruct (bool_decide (pb = ∅)) eqn:Hpb.
  - apply bool_decide_eq_true in Hpb. exists (rs_cache st1). split; [|by destruct Hg1].
    rewrite <- Hout1; [apply computes_ret|]. unfold pend, gs. by rewrite Hpb.
  - destruct (read_groups_spec out0 gs st1 Hok Hg1) as (st2 & H2 & Hg2).
    destruct (drain_good out0 [] st2 Hg2) as [Hg3 Hout3]. exists (rs_cache (drain st2)).
    split; [|by destruct Hg3]. eapply computes_bind; [exact H2|]. rewrite <- Hout3 by done. apply computes_ret.
Qed.
End Coalesced.

(** *** Blobs of a pack

    The blob of a chunk is the blob of a pack at one of its ranges. *)
Definition in_place `{HexCodec} (e : CryptoEngine) `{Codecs} (plain : ChunkId -> bytes) (s : Store)
    (id : ChunkId) (p : PackId) (off size : Z) : Prop :=
  exists blobs i blob, s !! pack_storage_key p = Some (pack_of blobs) /\ Forall fits blobs /\ blobs !! i = Some blob /\
    blob_ranges 9 blobs !! i = Some (off, size) /\ open_blob e id blob = Ok (plain id).

Lemma blob_range_slice blobs i blob off size :
  blobs !! i = Some blob -> blob_ranges 9 blobs !! i = Some (off, size) ->
  9 <= off /\ 0 <= size /\ off + size <= Z.of_nat (length (pack_of blobs)) /\
  slice (Z.to_nat off) (Z.to_nat size) (pack_of blobs) = blob.
Proof.
  intros Hi Hr. rewrite <- (take_drop_middle blobs i blob Hi) in *.
  set (bs1 := take i blobs) in *. set (bs2 := drop (S i) blobs) in *.
  assert (Hlen : length bs1 = i) by (apply length_take_le; apply lookup_lt_Some in Hi; lia).
  rewrite <- Hlen, blob_ranges_mid in Hr. injection Hr as <- <-.
  assert (E : pack_of (bs1 ++ blob :: bs2) = (pack_header ++ frames bs1 ++ le_bytes 4 (blob_len blob)) ++ blob ++ frames bs2).
  { unfold pack_of. rewrite frames_app, frames_cons. unfold frame. by rewrite <- !app_assoc. }
  assert (Hpre : length (pack_header ++ frames bs1 ++ le_bytes 4 (blob_len blob)) =
    Z.to_nat (9 + Z.of_nat (length (frames bs1)) + 4)).
  { rewrite !length_app, length_le_bytes. change (length pack_header) with 9%nat. lia. }
  split; [lia|]. split; [lia|]. rewrite E. split; [rewrite length_app, Hpre, length_app; lia|].
  rewrite <- Hpre, Nat2Z.id. apply slice_app_mid.
Qed.

Lemma blob_ranges_lookup base blobs i off size :
  blob_ranges base blobs !! i = Some (off, size) -> base + 4 <= off /\ 0 <= size.
Proof.
  revert base i. induction blobs as [|b blobs IH]; intros base i; [done|]. cbn [blob_ranges].
  destruct i as [|i]; cbn [lookup list_lookup].
  - intros [= <- <-]. lia.
  - intros Hi%IH. lia.
Qed.

Lemma blob_ranges_ordered base blobs i j off size off' size' :
  blob_ranges base blobs !! i = Some (off, size) -> blob_ranges base blobs !! j = Some (off', size') ->
  off <= off' -> off + size <= off' + size'.
Proof.
  revert base i j. induction blobs as [|b blobs IH]; intros base i j; [done|]. cbn [blob_ranges].
  destruct i as [|i], j as [|j]; cbn [lookup list_lookup].
  - intros [= <- <-] [= <- <-]. lia.
  - intros [= <- <-] Hj%blob_ranges_lookup. lia.
  - intros Hi%blob_ranges_lookup [= <- <-]. lia.
  - apply IH.
Qed.

Lemma in_place_located `{HexCodec} e `{Codecs} plain s id p off size :
  in_place e plain s id p off size -> located e plain s (id, p, off, size).
Proof.
  intros (blobs & i & blob & Hs & _ & Hi & Hr & Ho). destruct (blob_range_slice _ _ _ _ _ Hi Hr) as (H1 & H2 & H3 & H4).
  exists (pack_of blobs). unfold ck_end, ck_pack, ck_off, ck_size, ck_id. cbn [fst snd].
  split; [done|]. split; [lia|]. split; [done|]. split; [done|]. by rewrite H4.
Qed.

Lemma in_place_not_nested `{HexCodec} e `{Codecs} plain s id p off size id' p' off' size' :
  in_place e plain s id p off size -> in_place e plain s id' p' off' size' ->
  not_nested (id, p, off, size) (id', p', off', size').
Proof.
  intros (blobs & i & blob & Hs & Hf & _ & Hr & _) (blobs' & j & blob' & Hs' & Hf' & _ & Hr' & _).
  unfold not_nested, ck_end, ck_pack, ck_off, ck_size. cbn [fst snd]. intros <-.
  rewrite Hs in Hs'. apply (inj Some) in Hs'. assert (Hbb : blob_ranges 9 blobs = blob_ranges 9 blobs').
  { pose proof (scan_pack_of blobs Hf) as H1. rewrite Hs', (scan_pack_of blobs' Hf') in H1. by injection H1. }
  rewrite <- Hbb in Hr'. by eapply blob_ranges_ordered.
Qed.

(** The reference: one chunk after the other. *)
Fixpoint read_each `{HexCodec} (e : CryptoEngine) `{Codecs} (chunks : list (ChunkId * PackId * Z * Z))
    (out : bytes) (c : BlobCache) : M (bytes * BlobCache) :=
  match chunks with
  | [] => mret (out, c)
  | (id, p, off, size) :: rest =>
      r ← read_chunk_at e id p off size c;
      let '(data, c') := r in
      read_each e rest (out ++ data) c'
  end.

Lemma read_chunk_at_computes `{HexCodec} e `{Codecs} plain s id p off size c :
  located e plain s (id, p, off, size) -> cache_sound plain c ->
  exists c', computes s (read_chunk_at e id p off size c) (plain id, c') /\ cache_sound plain c'.
Proof.
  intros (data & Hd & Ho & Hs & Hend & Hopen) Hc.
  unfold ck_end, ck_pack, ck_off, ck_size, ck_id in *. cbn [fst snd] in *.
  unfold read_chunk_at. destruct (cache_get c id) as [d|] eqn:Hg.
  - rewrite (Hc _ _ Hg). exists c. split; [apply computes_ret|done].
  - exists (cache_insert id (plain id) c). split; [|by apply cache_insert_sound].
    eapply computes_bind; [|eapply computes_bind; [by apply computes_lift|apply computes_ret]].
    eapply computes_bind; [by apply (computes_get_range _ _ data)|].
    cbv beta iota. assert (Hlen : (Z.to_nat off + Z.to_nat size <= length data)%nat) by lia.
    rewrite (length_slice _ _ _ Hlen), Z2Nat.id, Z.eqb_refl by done. apply computes_ret.
Qed.

Lemma read_each_computes `{HexCodec} e `{Codecs} plain s chunks : forall out c,
  Forall (located e plain s) chunks -> cache_sound plain c ->
  exists c', computes s (read_each e chunks out c)
    (out ++ concat ((fun k => plain (ck_id k)) <$> chunks), c') /\ cache_sound plain c'.
Proof.
  induction chunks as [|[[[id p] off] size] rest IH]; intros out c Hl Hc.
  { exists c. simpl. rewrite app_nil_r. split; [apply computes_ret|done]. }
  apply Forall_cons in Hl as [Hloc Hl].
  destruct (read_chunk_at_computes e plain s id p off size c Hloc Hc) as (c1 & H1 & Hc1).
  destruct (IH (out ++ plain id) c1 Hl Hc1) as (c2 & H2 & Hc2).
  exists c2. split; [|done]. cbn [read_each]. eapply computes_bind; [exact H1|]. simpl.
  by rewrite app_assoc.
Qed.

(** C21. Merged range reads answer what single reads answer: where every
    chunk of the request is stored at its place and blobs of a pack are not
    nested, reading them with few large requests and reading them one after
    the other both append the chunks' plaintexts to the output in the order
    of the request, from whatever the cache already holds; the store is not
    changed, the cache stays right, and either reading fails only when a
    storage call failed. *)
Theorem coalesced_reads_equal_single_reads `{Hhex : HexCodec} (e : CryptoEngine) `{Hcodecs : Codecs}
    plain s chunks c out0 :
  Forall (located e plain s) chunks ->
  (forall k k', k ∈ chunks -> k' ∈ chunks -> not_nested k k') ->
  cache_sound plain c ->
  exists out c1 c2,
    out = out0 ++ concat ((fun k => plain (ck_id k)) <$> chunks) /\
    computes s (read_chunks_coalesced_into e chunks out0 c) (out, c1) /\ cache_sound plain c1 /\
    computes s (read_each e chunks out0 c) (out, c2) /\ cache_sound plain c2.
Proof.
  intros Hl Hn Hc. destruct (read_coalesced_computes e plain s chunks Hl Hn c out0 Hc) as (c1 & H1 & Hc1).
  destruct (read_each_computes e plain s chunks out0 c Hl Hc) as (c2 & H2 & Hc2).
  eexists _, c1, c2. split; [reflexivity|]. done.
Qed.

Definition ex_read_plain (id : ChunkId) : bytes := if decide (id = mkChunkId (id_of_byte 1)) then [7; 7] else [8].
Definition ex_read_blob (id : ChunkId) : bytes :=
  match compressed ← compress CNone (ex_read_plain id);
    pack_object_with_context (PlaintextEngine []) OChunkData (chunk_bytes id) compressed [] with
  | Ok blob => blob
  | Err _ => []
  end.
Definition ex_read_pack : PackId := mkPackId (id_of_byte 9).
Definition ex_read_id (n : Z) : ChunkId := mkChunkId (id_of_byte n).
Definition ex_read_store : Store :=
  {[ pack_storage_key ex_read_pack := [0; 0] ++ ex_read_blob (ex_read_id 1) ++ [0] ++ ex_read_blob (ex_read_id 2) ]}.
(** The second chunk first, and the first chunk twice. *)
Definition ex_read_chunks : list (ChunkId * PackId * Z * Z) :=
  [(ex_read_id 2, ex_read_pack, 7, 3); (ex_read_id 1, ex_read_pack, 2, 4); (ex_read_id 1, ex_read_pack, 2, 4)].

Lemma coalesced_reads_equal_single_reads_witness :
  exists c1 c2,
    computes ex_read_store (read_chunks_coalesced_into (PlaintextEngine []) ex_read_chunks [5] (cache_new 100))
      ([5; 8; 7; 7; 7; 7], c1) /\
    computes ex_read_store (read_each (PlaintextEngine []) ex_read_chunks [5] (cache_new 100))
      ([5; 8; 7; 7; 7; 7], c2).
Proof.
  destruct (coalesced_reads_equal_single_reads (PlaintextEngine []) ex_read_plain ex_read_store ex_read_chunks
    (cache_new 100) [5]) as (out & c1 & c2 & -> & H1 & _ & H2 & _).
  - repeat constructor; (eexists; split; [vm_compute; reflexivity|]);
      (split; [vm_compute; discriminate|]); (split; [vm_compute; discriminate|]);
      (split; [vm_compute; discriminate|vm_compute; reflexivity]).
  - intros k k' Hk Hk'. unfold ex_read_chunks in *.
    repeat match goal with H : _ ∈ _ :: _ |- _ => apply elem_of_cons in H as [->|H] end;
      try (exfalso; by eapply not_elem_of_nil); intros _; vm_compute; intros; congruence.
  - intros id d [=].
  - exists c1, c2. split; [exact H1|exact H2].
Defined.
