(* ===== verification/Snapshots.v ===== *)
(** * Snapshots (crates/vykar-core/src/snapshot/, commands/list.rs,
      commands/snapshot_ops.rs, commands/delete.rs, commands/prune.rs)

    A snapshot is one object under [snapshots/], named by a random id, whose
    [item_ptrs] are the chunks that hold the serialized items; each item names
    the chunks of its file.  Deleting a snapshot removes the object first and
    gives its references back to the index afterwards.  The theorems say that
    a store in which every snapshot is covered by the index stays one through
    deletion and pruning, wherever they stop.

    MessagePack is third-party code: [MsgPack SnapshotMeta] for the metadata,
    and [ItemStream] for the deserializer that takes one item off a stream. *)

From S2P Require Import Prelude Types Storage ChunkIndex Pack.
From S2P Require Import Crypto Format Compress DedupCache Retention Lock Repo ReadPath.
#[local] Open Scope string_scope.
#[local] Open Scope list_scope.
#[local] Open Scope Z_scope.

(** ** Data *)

Inductive ItemType := RegularFile | Directory | Symlink.
Record ChunkRef := mkChunkRef { ref_id : ChunkId; ref_size : Z; ref_csize : Z }.

Record Item := mkItem {
  item_path : string;
  entry_type : ItemType;
  mode : Z;
  uid : Z;
  gid : Z;
  user : option string;
  group : option string;
  mtime : Z;
  atime : option Z;
  ctime : option Z;
  item_size : Z;
  item_chunks : list ChunkRef;
  link_target : option string;
  xattrs : option (gmap string bytes);
}.

Record ChunkerConfig := mkChunker { min_size : Z; avg_size : Z; max_size : Z }.

Record SnapshotStats := mkStats {
  nfiles : Z;
  original_size : Z;
  compressed_size : Z;
  deduplicated_size : Z;
  errors : Z;
}.

(** Times are seconds. *)
Record SnapshotMeta := mkMeta {
  meta_name : string;
  meta_hostname : string;
  username : string;
  meta_time : Z;
  time_end : Z;
  chunker_params : ChunkerConfig;
  comment : string;
  item_ptrs : list ChunkId;
  meta_stats : SnapshotStats;
  meta_source_label : string;
  meta_source_paths : list string;
  meta_label : string;
}.

(** [rmp_serde]: items are self-delimiting, and reading one takes at least a
    byte off the stream. *)
Class ItemStream := {
  encode_item : Item -> bytes;
  next_item : bytes -> option (Item * bytes);
  next_item_encode : forall it rest, next_item (encode_item it ++ rest) = Some (it, rest);
  next_item_consumes : forall stream it rest, next_item stream = Some (it, rest) -> (length rest < length stream)%nat;
}.

Record SnapshotChunkImpact := mkImpact { chunks_deleted : Z; space_freed : Z }.
Definition impact_default : SnapshotChunkImpact := mkImpact 0 0.
Definition impact_add (size : Z) (i : SnapshotChunkImpact) : SnapshotChunkImpact :=
  mkImpact (u64_add (chunks_deleted i) 1) (u64_add (space_freed i) size).

Record DeleteStats := mkDeleteStats { del_snapshot_name : string; del_impact : SnapshotChunkImpact }.
Record PruneStats := mkPruneStats { prune_kept : nat; prune_pruned : nat; prune_impact : SnapshotChunkImpact }.
Record PruneListEntry := mkPruneList { action : string; list_name : string; list_reasons : list reason }.
Record PruneTarget := mkTarget { target_name : string; target_key : string; target_ptrs : list ChunkId }.

(** ** Reading snapshots *)

Section Items.
Context `{ItemStream}.

(** The loop of [for_each_decoded_item]; each turn takes at least a byte, so
    the length of the stream bounds the turns. *)
Fixpoint decode_loop {S} (fuel : nat) (visit : Item -> S -> res unit * S) (stream : bytes) (s : S) : res unit * S :=
  match stream, fuel with
  | [], _ => (Ok tt, s)
  | _, O => (Err Deserialization, s)
  | _, S fuel' =>
      match next_item stream with
      | None => (Err Deserialization, s)
      | Some (item, rest) =>
          match visit item s with
          | (Ok _, s') => decode_loop fuel' visit rest s'
          | (Err er, s') => (Err er, s')
          end
      end
  end.

Definition for_each_decoded_item {S} (visit : Item -> S -> res unit * S) (stream : bytes) (s : S) : res unit * S :=
  decode_loop (length stream) visit stream s.

Definition decode_items_stream (stream : bytes) : res (list Item) :=
  match for_each_decoded_item (fun item items => (Ok tt, items ++ [item])) stream [] with
  | (Ok _, items) => Ok items
  | (Err er, _) => Err er
  end.

(** ** What deleting a snapshot frees *)

Definition count_ref (ix : ChunkIndex) (i : SnapshotChunkImpact) (id : ChunkId) : SnapshotChunkImpact :=
  match ix !! id with
  | Some en => if refcount en =? 1 then impact_add (stored_size en) i else i
  | None => i
  end.

Definition count_snapshot_chunk_impact (r : Repository) (stream : bytes) (ptrs : list ChunkId) :
    res SnapshotChunkImpact :=
  match for_each_decoded_item
    (fun item i => (Ok tt, foldl (count_ref (chunk_index r)) i (ref_id <$> item_chunks item)))
    stream impact_default with
  | (Ok _, i) => Ok (foldl (count_ref (chunk_index r)) i ptrs)
  | (Err er, _) => Err er
  end.

Definition decrement_ref (st : Repository * SnapshotChunkImpact) (id : ChunkId) : Repository * SnapshotChunkImpact :=
  let '(r, i) := st in
  let '(o, ix) := decrement id (chunk_index r) in
  (set_chunk_index ix r,
   match o with
   | Some (rc, size) => if rc =? 0 then impact_add size i else i
   | None => i
   end).

(** The repository that is left, also after an error. *)
Definition decrement_snapshot_chunk_refs (r : Repository) (stream : bytes) (ptrs : list ChunkId) :
    res SnapshotChunkImpact * Repository :=
  match for_each_decoded_item
    (fun item st => (Ok tt, foldl decrement_ref st (ref_id <$> item_chunks item)))
    stream (r, impact_default) with
  | (Ok _, st) => let '(r', i) := foldl decrement_ref st ptrs in (Ok i, r')
  | (Err er, (r', _)) => (Err er, r')
  end.
End Items.

Section Snapshots.
Context `{HexCodec} (e : CryptoEngine) `{Codecs} `{IndexCodec} `{MsgPack SnapshotMeta} `{ItemStream}.
Context (draws : nat -> Z * bytes) (fence : M unit).

Definition decode_snapshot_meta (id : SnapshotId) (data : bytes) : res SnapshotMeta :=
  meta_bytes ← unpack_object_expect_with_context e data OSnapshotMeta (snapshot_bytes id);
  ok_or (mp_decode meta_bytes) Deserialization.

Definition load_snapshot_meta (r : Repository) (name : string) : M SnapshotMeta :=
  match find_snapshot (manifest r) name with
  | None => fail (SnapshotNotFound name)
  | Some entry =>
      d ← get (snapshot_storage_key (snap_id entry));
      match d with
      | None => fail (SnapshotNotFound name)
      | Some meta_data => lift (decode_snapshot_meta (snap_id entry) meta_data)
      end
  end.

Fixpoint resolve_all (resolve : ChunkId -> res (PackId * Z * Z)) (ptrs : list ChunkId) :
    res (list (ChunkId * PackId * Z * Z)) :=
  match ptrs with
  | [] => Ok []
  | id :: rest =>
      l ← resolve id;
      ls ← resolve_all resolve rest;
      Ok ((id, l.1.1, l.1.2, l.2) :: ls)
  end.

Definition resolve_and_read (resolve : ChunkId -> res (PackId * Z * Z)) (ptrs : list ChunkId) (c : BlobCache) :
    M (bytes * BlobCache) :=
  chunks ← lift (resolve_all resolve ptrs);
  read_chunks_coalesced_into e chunks [] c.

Definition load_item_stream_from_ptrs (r : Repository) (ptrs : list ChunkId) (c : BlobCache) : M (bytes * BlobCache) :=
  resolve_and_read (fun id => ok_or (loc (chunk_index r) id) (Other "chunk not found")) ptrs c.

Definition load_snapshot_item_stream (r : Repository) (name : string) (c : BlobCache) : M (bytes * BlobCache) :=
  meta ← load_snapshot_meta r name;
  load_item_stream_from_ptrs r (item_ptrs meta) c.

Definition load_snapshot_items (r : Repository) (name : string) (c : BlobCache) : M (list Item * BlobCache) :=
  p ← load_snapshot_item_stream r name c;
  items ← lift (decode_items_stream p.1);
  mret (items, p.2).

Definition load_snapshot_item_stream_via_lookup (r : Repository) (lookup : ChunkId -> option (PackId * Z * Z))
    (name : string) (c : BlobCache) : M (bytes * BlobCache) :=
  meta ← load_snapshot_meta r name;
  resolve_and_read (fun id => ok_or (lookup id) (ChunkNotInIndex id)) (item_ptrs meta) c.

Definition load_snapshot_items_via_lookup (r : Repository) (lookup : ChunkId -> option (PackId * Z * Z))
    (name : string) (c : BlobCache) : M (list Item * BlobCache) :=
  p ← load_snapshot_item_stream_via_lookup r lookup name c;
  items ← lift (decode_items_stream p.1);
  mret (items, p.2).

(** ** Delete *)

Definition set_manifest (m : Manifest) (r : Repository) : Repository :=
  mkRepo m (chunk_index r) (index_generation r) (index_dirty r) (drawn r).

(** The action of [delete::run], which runs under the maintenance lock. *)
Definition delete_snapshot (name : string) (dry_run : bool) (r : Repository) (c : BlobCache) :
    M (DeleteStats * Repository * BlobCache) :=
  match find_snapshot (manifest r) name with
  | None => fail (SnapshotNotFound name)
  | Some entry =>
      let snapshot_key := snapshot_storage_key (snap_id entry) in
      meta ← load_snapshot_meta r name;
      p ← load_snapshot_item_stream r name c;
      if dry_run then
        i ← lift (count_snapshot_chunk_impact r p.1 (item_ptrs meta));
        mret (mkDeleteStats name i, r, p.2)
      else
        _ ← fence;
        _ ← del snapshot_key;
        let r := set_manifest (remove_snapshot (manifest r) name).2 r in
        let '(o, r) := decrement_snapshot_chunk_refs r p.1 (item_ptrs meta) in
        i ← lift o;
        r ← save_state e draws fence r;
        mret (mkDeleteStats name i, r, p.2)
  end.

(** ** Prune *)

Context `{Calendar} (check_interrupted : M unit).

(** [sources] pairs a label with its own retention, if it has one. *)
Definition decide_prune (retention : RetentionConfig) (sources : list (string * option RetentionConfig))
    (source_filter : list string) (now : Z) (snaps : Manifest) : res (list PruneEntry) :=
  let target_snapshots :=
    match source_filter with
    | [] => snaps
    | _ => List.filter (fun s => str_elem (source_label s) source_filter) snaps
    end in
  let source_retentions : gmap string RetentionConfig :=
    foldl (fun m s => match s.2 with Some p => <[s.1 := p]> m | None => m end) ∅ sources in
  match sources with
  | [] =>
      if negb (has_any_rule retention) then Err (ConfigError "no retention rules configured")
      else apply_policy target_snapshots retention now
  | _ =>
      if negb (has_any_rule retention) &&
         forallb (fun kv => negb (has_any_rule kv.2)) (map_to_list source_retentions)
      then Err (ConfigError "no retention rules configured")
      else apply_policy_by_label target_snapshots retention source_retentions now
  end.

(** The loop that builds the [--list] output. *)
Definition list_entry (en : PruneEntry) : PruneListEntry :=
  match pe_decision en with
  | Keep reasons => mkPruneList "keep" (pe_name en) reasons
  | Prune => mkPruneList "prune" (pe_name en) []
  end.
Definition pruned_names (ds : list PruneEntry) : list string :=
  pe_name <$> List.filter (fun en => negb (is_keep (pe_decision en))) ds.

(** Phase 1. *)
Fixpoint load_targets (r : Repository) (names : list string) : M (list PruneTarget) :=
  match names with
  | [] => mret []
  | name :: rest =>
      _ ← check_interrupted;
      match find_snapshot (manifest r) name with
      | None => fail (SnapshotNotFound name)
      | Some entry =>
          meta ← load_snapshot_meta r name;
          ts ← load_targets r rest;
          mret (mkTarget name (snapshot_storage_key (snap_id entry)) (item_ptrs meta) :: ts)
      end
  end.

(** Phase 2. *)
Definition delete_targets (ts : list PruneTarget) : M unit :=
  for_each (fun t =>
    _ ← check_interrupted;
    _ ← fence;
    d ← try_ (del (target_key t));
    match d with
    | Ok _ => mret tt
    | Err _ => fail (Other "failed to delete snapshot object")
    end) ts.

(** Phase 3. *)
Definition impact_sum (i j : SnapshotChunkImpact) : SnapshotChunkImpact :=
  mkImpact (u64_add (chunks_deleted i) (chunks_deleted j)) (u64_add (space_freed i) (space_freed j)).

Fixpoint release_targets (ts : list PruneTarget) (r : Repository) (c : BlobCache) (total : SnapshotChunkImpact) :
    M (Repository * BlobCache * SnapshotChunkImpact) :=
  match ts with
  | [] => mret (r, c, total)
  | t :: rest =>
      p ← load_item_stream_from_ptrs r (target_ptrs t) c;
      let '(o, r) := decrement_snapshot_chunk_refs r p.1 (target_ptrs t) in
      i ← lift o;
      let r := set_manifest (remove_snapshot (manifest r) (target_name t)).2 r in
      release_targets rest r p.2 (impact_sum total i)
  end.

(** The action of [prune::run]. *)
Definition prune (retention : RetentionConfig) (sources : list (string * option RetentionConfig))
    (source_filter : list string) (dry_run list_ : bool) (now : Z) (r : Repository) (c : BlobCache) :
    M (PruneStats * list PruneListEntry * Repository * BlobCache) :=
  decisions ← lift (decide_prune retention sources source_filter now (manifest r));
  let list_entries := if list_ || dry_run then list_entry <$> decisions else [] in
  let kept := length (List.filter (fun en => is_keep (pe_decision en)) decisions) in
  let to_prune := pruned_names decisions in
  if dry_run then
    mret (mkPruneStats kept (length to_prune) impact_default, list_entries, r, c)
  else
    targets ← load_targets r (rev to_prune);
    _ ← delete_targets targets;
    x ← release_targets targets r c impact_default;
    let '(r, c, total) := x in
    r ← save_state e draws fence r;
    mret (mkPruneStats kept (length to_prune) total, list_entries, r, c).
End Snapshots.

(** ** The item stream *)

Lemma sublist_filter_bool {A} (f : A -> bool) l : List.filter f l `sublist_of` l.
Proof. induction l as [|x l IH]; simpl; [done|]. destruct (f x); by constructor. Qed.

Lemma foldl_snoc {A} (acc items : list A) : foldl (fun acc it => acc ++ [it]) acc items = acc ++ items.
Proof.
  revert acc. induction items as [|it items IH]; intros acc; simpl; [by rewrite app_nil_r|].
  rewrite IH. by rewrite <- app_assoc.
Qed.

Section StreamLaws.
Context `{Hitems : ItemStream}.

(** Every visitor that does not fail sees the same items. *)
Lemma decode_loop_pure fuel : forall stream, exists o items, forall S (f : Item -> S -> S) s,
  decode_loop fuel (fun it s => (Ok tt, f it s)) stream s = (o, foldl (fun s it => f it s) s items).
Proof.
  induction fuel as [|fuel IH]; intros stream.
  { destruct stream as [|b stream]; [by exists (Ok tt), []|by exists (Err Deserialization), []]. }
  destruct stream as [|b stream]; [by exists (Ok tt), []|].
  destruct (next_item (b :: stream)) as [[it rest]|] eqn:Hn.
  - destruct (IH rest) as (o & items & Hi). exists o, (it :: items). intros S f s.
    cbn [decode_loop]. rewrite Hn. apply Hi.
  - exists (Err Deserialization), []. intros S f s. cbn [decode_loop]. by rewrite Hn.
Qed.

Lemma for_each_pure stream : exists o items,
  decode_items_stream stream = match o with Ok _ => Ok items | Err er => Err er end /\
  forall S (f : Item -> S -> S) s,
    for_each_decoded_item (fun it s => (Ok tt, f it s)) stream s = (o, foldl (fun s it => f it s) s items).
Proof.
  destruct (decode_loop_pure (length stream) stream) as (o & items & Hi). exists o, items. split; [|exact (Hi)].
  unfold decode_items_stream, for_each_decoded_item. rewrite (Hi _ (fun it items => items ++ [it]) []).
  by rewrite foldl_snoc.
Qed.

(** More turns than bytes change nothing. *)
Lemma decode_loop_fuel {S} (visit : Item -> S -> res unit * S) fuel : forall fuel' stream s,
  (length stream <= fuel)%nat -> (length stream <= fuel')%nat ->
  decode_loop fuel visit stream s = decode_loop fuel' visit stream s.
Proof.
  induction fuel as [|fuel IH]; intros [|fuel'] [|b stream] s Hf Hf'; simpl in Hf, Hf'; try lia; try done.
  cbn [decode_loop]. destruct (next_item (b :: stream)) as [[it rest]|] eqn:Hn; [|done].
  pose proof (next_item_consumes _ _ _ Hn) as Hc. simpl in Hc.
  destruct (visit it s) as [[|] s']; [|done]. apply IH; lia.
Qed.

Lemma decode_items_cons it stream :
  decode_items_stream (encode_item it ++ stream) = items ← decode_items_stream stream; Ok (it :: items).
Proof.
  destruct (for_each_pure stream) as (o & items & -> & Hi).
  pose proof (next_item_encode it stream) as Hn. pose proof (next_item_consumes _ _ _ Hn) as Hc.
  unfold decode_items_stream, for_each_decoded_item in *.
  destruct (encode_item it ++ stream) as [|b rest] eqn:He; [simpl in Hc; lia|].
  cbn [length decode_loop]. rewrite Hn. cbn [app].
  rewrite (decode_loop_fuel _ (length rest) (length stream)) by (simpl in Hc; lia).
  rewrite (Hi _ (fun it items => items ++ [it]) [it]).
  rewrite foldl_snoc. by destruct o.
Qed.

(** The item stream round trips: decoding the concatenation of the
    encodings gives the items in order, for any number of items; the decoder
    always has turns enough. *)
Theorem items_round_trip items : decode_items_stream (concat (encode_item <$> items)) = Ok items.
Proof. induction items as [|it items IH]; [done|]. rewrite fmap_cons. cbn [concat]. by rewrite decode_items_cons, IH. Qed.
End StreamLaws.

(** ** Covered stores *)

Section Covered.
Context `{Hhex : HexCodec} (e : CryptoEngine) `{Hcodecs : Codecs} `{Hmp : IndexCodec}.
Context `{Hmeta : MsgPack SnapshotMeta} `{Hitems : ItemStream}.
(** The plaintext of each chunk. *)
Context (plain : ChunkId -> bytes).

(** The chunks a snapshot refers to: those of its items, and its own. *)
Definition meta_refs (m : SnapshotMeta) : res (list ChunkId) :=
  items ← decode_items_stream (concat (plain <$> item_ptrs m));
  Ok (concat ((fun it => ref_id <$> item_chunks it) <$> items) ++ item_ptrs m).

(** A snapshot object that cannot be read refers to nothing. *)
Definition object_refs (id : SnapshotId) (data : bytes) : list ChunkId :=
  match decode_snapshot_meta e id data ≫= meta_refs with Ok l => l | Err _ => [] end.
Definition key_refs (k : string) (data : bytes) : list ChunkId :=
  match strip_prefix k "snapshots/" with
  | Some hex => match snapshot_from_hex hex with Ok id => object_refs id data | Err _ => [] end
  | None => []
  end.

Definition snapshots_of (s : Store) : Store := filter (fun kv => starts_with kv.1 "snapshots/" = true) s.

(** How often the snapshots of a store refer to a chunk. *)
Definition references (s : Store) (id : ChunkId) : Z :=
  sum_Z (fun kv => count_id id (key_refs kv.1 kv.2)) (map_to_list (snapshots_of s)).

Definition stored (s : Store) (ix : ChunkIndex) : Prop :=
  forall id en, ix !! id = Some en -> in_place e plain s id (pack_id en) (pack_offset en) (stored_size en).

(** The index in the store has at least the references of the snapshots in
    it, and every chunk it lists can be read and decrypted. *)
Record covered (s : Store) (ix : ChunkIndex) : Prop := {
  cv_index : index_of e s ix;
  cv_fits : index_fits ix;
  cv_pos : map_Forall (fun _ en => 1 <= refcount en) ix;
  cv_stored : stored s ix;
  cv_refs : forall id, references s id <= rc ix id;
}.

(** *** References *)

Lemma snapshot_key_plain k : starts_with k "snapshots/" = true ->
  is_lock_key k = false /\ k <> "index.gen" /\ k <> "index".
Proof. intros [r ->]%starts_with_inv. split; [reflexivity|]. split; discriminate. Qed.

Lemma snapshot_storage_key_prefix id : starts_with (snapshot_storage_key id) "snapshots/" = true.
Proof. eapply starts_with_strip, strip_prefix_app. Qed.

Lemma key_refs_storage_key id d : is_id (snapshot_bytes id) -> key_refs (snapshot_storage_key id) d = object_refs id d.
Proof.
  intros Hid. unfold key_refs, snapshot_storage_key. rewrite strip_prefix_app.
  unfold snapshot_from_hex. rewrite id_from_hex_to_hex by done. by destruct id.
Qed.

Lemma snapshots_of_same s s' :
  (forall k, starts_with k "snapshots/" = true -> s !! k = s' !! k) -> snapshots_of s = snapshots_of s'.
Proof.
  intros Hs. apply map_eq. intros k. apply option_eq. intros d. unfold snapshots_of.
  rewrite !map_lookup_filter_Some. cbn [fst]. split; intros [Hd Hk]; (split; [|done]); congruence || by rewrite <- Hd, Hs.
Qed.

Lemma references_same s s' id :
  (forall k, starts_with k "snapshots/" = true -> s !! k = s' !! k) -> references s id = references s' id.
Proof. intros Hs. unfold references. by rewrite (snapshots_of_same s s' Hs). Qed.

Lemma references_nonneg s id : 0 <= references s id.
Proof. apply sum_Z_nonneg. intros. apply count_id_nonneg. Qed.

Lemma references_insert s k d id :
  s !! k = None -> starts_with k "snapshots/" = true ->
  references (<[k := d]> s) id = count_id id (key_refs k d) + references s id.
Proof.
  intros Hk Hp. unfold references, snapshots_of. rewrite map_filter_insert_True by done.
  rewrite map_to_list_insert; [done|]. apply map_lookup_filter_None. by left.
Qed.

Lemma references_delete s k d id :
  s !! k = Some d -> starts_with k "snapshots/" = true ->
  references s id = count_id id (key_refs k d) + references (delete k s) id.
Proof.
  intros Hk Hp. rewrite <- (insert_delete_id s k d Hk) at 1. apply references_insert; [|done]. apply lookup_delete_eq.
Qed.

Lemma references_delete_le s k id : references (delete k s) id <= references s id.
Proof.
  destruct (starts_with k "snapshots/") eqn:Hp.
  - destruct (s !! k) as [d|] eqn:Hk; [|by rewrite delete_id].
    rewrite (references_delete s k d) by done. pose proof (count_id_nonneg id (key_refs k d)). lia.
  - rewrite (references_same (delete k s) s); [done|]. intros k' Hk'. apply lookup_delete_ne. congruence.
Qed.

(** *** Changes that keep the store covered *)

Lemma stored_packs s s' ix :
  (forall p, s' !! pack_storage_key p = s !! pack_storage_key p) -> stored s ix -> stored s' ix.
Proof.
  intros Hs Hst id en Hen. destruct (Hst id en Hen) as (blobs & i & blob & Hd & Hx). exists blobs, i, blob. by rewrite Hs.
Qed.

(** Equal but for snapshots, the index, its generation file and locks. *)
Definition same_packs (s s' : Store) : Prop :=
  forall p, s' !! pack_storage_key p = s !! pack_storage_key p.

Lemma agree_snapshots s s' : agree s s' -> forall k, starts_with k "snapshots/" = true -> s' !! k = s !! k.
Proof. intros Ha k (Hl & Hg & _)%snapshot_key_plain. by apply Ha. Qed.

Lemma agree_covered s s' ix : agree s s' -> covered s ix -> covered s' ix.
Proof.
  intros Ha [H1 H2 H3 H4 H6]. constructor; try done.
  - by eapply agree_index.
  - eapply stored_packs; [|exact H4]. intros p. by apply agree_pack.
  - intros id. rewrite (references_same s' s); [done|]. by apply agree_snapshots.
Qed.

Lemma pack_key_not_snapshot p k : starts_with k "snapshots/" = true -> pack_storage_key p <> k.
Proof. intros [r ->]%starts_with_inv. discriminate. Qed.

Lemma covered_delete_snapshot s k ix :
  starts_with k "snapshots/" = true -> covered s ix -> covered (delete k s) ix.
Proof.
  intros Hk [H1 H2 H3 H4 H6]. destruct (snapshot_key_plain k Hk) as (_ & _ & Hi). constructor; try done.
  - destruct H1 as (d & g & Hd & Hx). exists d, g. by rewrite lookup_delete_ne by done.
  - eapply stored_packs; [|exact H4]. intros p. apply lookup_delete_ne. by apply not_eq_sym, pack_key_not_snapshot.
  - intros id. etransitivity; [apply references_delete_le|done].
Qed.

(** *** Releasing references *)

Lemma released_entry ids ix id en :
  map_Forall (fun _ en => 1 <= refcount en) ix -> decrement_all ids ix !! id = Some en ->
  exists old, ix !! id = Some old /\ location en = location old /\
    1 <= refcount en <= refcount old /\ refcount en = refcount old - count_id id ids.
Proof.
  intros Hpos. rewrite lookup_decrement_all by done. destruct (ix !! id) as [old|] eqn:Hold; [|done].
  cbn [mbind option_bind]. case_decide; [done|]. intros [= <-]. exists old. split; [done|]. split; [done|].
  pose proof (count_id_nonneg id ids). specialize (Hpos _ _ Hold). cbn [refcount set_refcount]. lia.
Qed.

Lemma released_pos ids ix :
  map_Forall (fun _ en => 1 <= refcount en) ix -> map_Forall (fun _ en => 1 <= refcount en) (decrement_all ids ix).
Proof. intros Hpos id en Hen. destruct (released_entry _ _ _ _ Hpos Hen) as (old & _ & _ & ? & _). lia. Qed.

Lemma released_fits ids ix :
  map_Forall (fun _ en => 1 <= refcount en) ix -> index_fits ix -> index_fits (decrement_all ids ix).
Proof.
  intros Hpos [Hwf Hsize]. split.
  - intros id en Hen. destruct (released_entry _ _ _ _ Hpos Hen) as (old & Hold & Hl & Hr & _).
    destruct (Hwf _ _ Hold) as (? & [? ?] & ? & ? & ?). unfold location in Hl. injection Hl as Hp Ho Hs.
    unfold wf_entry. rewrite Hp, Ho, Hs. split_and!; try done; unfold u32; lia.
  - assert (size (decrement_all ids ix) <= size ix)%nat; [|lia]. rewrite <- !size_dom. apply subseteq_size.
    intros id [en Hen]%elem_of_dom. destruct (released_entry _ _ _ _ Hpos Hen) as (old & Hold & _). by apply elem_of_dom.
Qed.

Lemma stored_location s ix id en old :
  stored s ix -> ix !! id = Some old -> location en = location old ->
  in_place e plain s id (pack_id en) (pack_offset en) (stored_size en).
Proof. intros Hs Hold Hl. unfold location in Hl. injection Hl as -> -> ->. by apply Hs. Qed.

Lemma released_stored ids s ix :
  map_Forall (fun _ en => 1 <= refcount en) ix -> stored s ix -> stored s (decrement_all ids ix).
Proof.
  intros Hpos Hs id en Hen. destruct (released_entry _ _ _ _ Hpos Hen) as (old & Hold & Hl & _).
  by eapply stored_location.
Qed.

(** The store after the references [ids] were given back. *)
Lemma covered_release s s' ix ids :
  covered s ix -> index_of e s' (decrement_all ids ix) -> same_packs s s' ->
  (forall id, references s' id + count_id id ids <= references s id) ->
  covered s' (decrement_all ids ix) /\ forall id, rc (decrement_all ids ix) id = rc ix id - count_id id ids.
Proof.
  intros [H1 H2 H3 H4 H6] Hi Hp Hr.
  assert (Hrc : forall id, rc (decrement_all ids ix) id = rc ix id - count_id id ids).
  { intros id. specialize (Hr id). specialize (H6 id). pose proof (references_nonneg s' id) as Hnn.
    unfold rc in *. rewrite lookup_decrement_all by done.
    pose proof (count_id_nonneg id ids). destruct (ix !! id) as [en|]; simpl in *; [|lia].
    case_decide; simpl; lia. }
  split; [|done]. constructor.
  - done.
  - by apply released_fits.
  - by apply released_pos.
  - eapply stored_packs; [exact Hp|]. by apply released_stored.
  - intros id. rewrite Hrc. specialize (Hr id). specialize (H6 id). lia.
Qed.

(** *** The operations *)

Lemma decrement_refs_fold ids : forall r i,
  (foldl decrement_ref (r, i) ids).1 =
    mkRepo (manifest r) (decrement_all ids (chunk_index r)) (index_generation r)
      (match ids with [] => index_dirty r | _ => true end) (drawn r).
Proof.
  induction ids as [|id ids IH]; intros r i; [by destruct r|].
  cbn [foldl]. unfold decrement_ref at 2. unfold decrement_all. cbn [foldl].
  destruct (decrement id (chunk_index r)) as [o ix]. rewrite IH. cbn [snd]. by destruct ids.
Qed.

Lemma decrement_snapshot_spec r stream ptrs :
  match decrement_snapshot_chunk_refs r stream ptrs with
  | (Ok _, r') => exists items, decode_items_stream stream = Ok items /\
      let ids := concat ((fun it => ref_id <$> item_chunks it) <$> items) ++ ptrs in
      r' = mkRepo (manifest r) (decrement_all ids (chunk_index r)) (index_generation r)
        (match ids with [] => index_dirty r | _ => true end) (drawn r)
  | (Err _, _) => True
  end.
Proof.
  destruct (for_each_pure stream) as (o & items & Hd & Hi). unfold decrement_snapshot_chunk_refs.
  rewrite (Hi _ (fun item st => foldl decrement_ref st (ref_id <$> item_chunks item))).
  set (ids := concat ((fun it => ref_id <$> item_chunks it) <$> items)).
  assert (Hf : forall st, foldl (fun st item => foldl decrement_ref st (ref_id <$> item_chunks item)) st items =
    foldl decrement_ref st ids).
  { unfold ids. clear. induction items as [|it items IH]; intros st; [done|].
    rewrite fmap_cons. cbn [concat foldl]. rewrite foldl_app. apply IH. }
  rewrite Hf. destruct o as [u|er]; [|by destruct (foldl _ _ _)]. rewrite <- foldl_app.
  pose proof (decrement_refs_fold (ids ++ ptrs) r impact_default) as Hr.
  destruct (foldl _ _ _) as [r' i]. cbn [fst] in Hr. exists items. split; [exact Hd|]. exact Hr.
Qed.

Lemma resolve_all_spec ix ptrs chunks :
  resolve_all (fun id => ok_or (loc ix id) (Other "chunk not found")) ptrs = Ok chunks ->
  (ck_id <$> chunks) = ptrs /\
  forall k, k ∈ chunks -> exists en, ix !! ck_id k = Some en /\
    k = (ck_id k, pack_id en, pack_offset en, stored_size en).
Proof.
  revert chunks. induction ptrs as [|id ptrs IH]; intros chunks; cbn [resolve_all].
  { intros [= <-]. split; [done|]. intros k Hk. by apply not_elem_of_nil in Hk. }
  destruct (loc ix id) as [l|] eqn:Hl; [|done]. cbn [ok_or mbind result_bind].
  unfold loc in Hl. destruct (ix !! id) as [en|] eqn:Hen; [|done]. injection Hl as <-.
  destruct (resolve_all _ ptrs) as [ls|]; [|done]. cbn [mbind result_bind]. intros [= <-].
  destruct (IH ls eq_refl) as [Hids Hall]. split; [by rewrite fmap_cons, Hids|].
  intros k [->|Hk]%elem_of_cons; [|by apply Hall]. by exists en.
Qed.

(** The chunk an entry stands for, and an index whose chunks can all be read:
    each is where its entry says, and none lies inside another. *)
Definition chunk_at (id : ChunkId) (en : ChunkIndexEntry) : ChunkId * PackId * Z * Z :=
  (id, pack_id en, pack_offset en, stored_size en).
Definition unnested (ix : ChunkIndex) : Prop :=
  forall id en id' en', ix !! id = Some en -> ix !! id' = Some en' -> not_nested (chunk_at id en) (chunk_at id' en').
Definition placed (s : Store) (ix : ChunkIndex) : Prop :=
  (forall id en, ix !! id = Some en -> located e plain s (chunk_at id en)) /\ unnested ix.

Lemma stored_placed s ix : stored s ix -> placed s ix.
Proof.
  intros Hst. split; [intros id en Hen; by apply in_place_located, Hst|].
  intros id en id' en' Hen Hen'. eapply in_place_not_nested; by apply Hst.
Qed.

(** Reading an item stream changes nothing and answers the plaintexts. *)
Lemma load_stream_triple (P : Store -> Prop) r ptrs c :
  (forall s, P s -> placed s (chunk_index r)) -> cache_sound plain c ->
  triple P (load_item_stream_from_ptrs e r ptrs c)
    (fun p s => P s /\ p.1 = concat (plain <$> ptrs) /\ cache_sound plain p.2) P.
Proof.
  intros Hst Hc w HP. unfold load_item_stream_from_ptrs, resolve_and_read, mbind, M_bind, lift.
  destruct (resolve_all _ ptrs) as [chunks|er] eqn:Hr; [|done].
  destruct (resolve_all_spec _ _ _ Hr) as [Hids Hall]. specialize (Hst _ HP).
  destruct (read_coalesced_computes e plain (objects w) chunks) with (c := c) (out0 := @nil Z) as (c' & Hcomp & Hc').
  - apply Forall_forall. intros k Hk. destruct (Hall k Hk) as (en & Hen & ->). by apply Hst.
  - intros k k' Hk Hk'. destruct (Hall k Hk) as (en & Hen & ->). destruct (Hall k' Hk') as (en' & Hen' & ->).
    by apply Hst.
  - done.
  - destruct (Hcomp w eq_refl) as [(w' & -> & Hw' & _)|(er & w' & -> & Hw' & _)]; rewrite Hw'; [|done].
    split; [done|]. split; [|done]. cbn [fst app]. by rewrite <- Hids, <- list_fmap_compose.
Qed.

Lemma load_meta_triple (P : Store -> Prop) r name entry (s0 : Store) :
  find_snapshot (manifest r) name = Some entry ->
  (forall s, P s -> s !! snapshot_storage_key (snap_id entry) = s0 !! snapshot_storage_key (snap_id entry)) ->
  triple P (load_snapshot_meta e r name)
    (fun m s => P s /\ exists d, s0 !! snapshot_storage_key (snap_id entry) = Some d /\
       decode_snapshot_meta e (snap_id entry) d = Ok m) P.
Proof.
  intros Hf Hs. unfold load_snapshot_meta. rewrite Hf. eapply triple_bind; [by apply triple_reading|].
  intros [d|]; [|apply triple_fail; by intros s [? _]].
  apply triple_lift. intros s [HP Hd]. rewrite Hs in Hd by done.
  destruct (decode_snapshot_meta e (snap_id entry) d) as [m|] eqn:Hm; [|done]. split; [done|]. by exists d.
Qed.

(** ** Restoring *)

Lemma count_id_elem id ids : id ∈ ids -> 1 <= count_id id ids.
Proof.
  induction ids as [|x ids IH]; [by intros ?%not_elem_of_nil|].
  pose proof (count_id_nonneg id ids) as Hnn. unfold count_id in *. cbn [sum_Z].
  intros [->|Hin]%elem_of_cons; [rewrite decide_True by done; lia|]. specialize (IH Hin). case_decide; lia.
Qed.

(** Every chunk a snapshot object refers to is in the index. *)
Lemma covered_refs s ix k d id :
  covered s ix -> s !! k = Some d -> starts_with k "snapshots/" = true -> id ∈ key_refs k d -> is_Some (ix !! id).
Proof.
  intros Hc Hd Hk Hin. pose proof (cv_refs _ _ Hc id) as Hr.
  rewrite (references_delete s k d id Hd Hk) in Hr. pose proof (count_id_elem _ _ Hin).
  pose proof (references_nonneg (delete k s) id). unfold rc in Hr.
  destruct (ix !! id) eqn:E; [by eexists|]. simpl in Hr. lia.
Qed.

Lemma resolve_all_total ix ptrs :
  (forall id, id ∈ ptrs -> is_Some (ix !! id)) ->
  exists chunks, resolve_all (fun id => ok_or (loc ix id) (Other "chunk not found")) ptrs = Ok chunks.
Proof.
  induction ptrs as [|id ptrs IH]; intros Hall; [by exists []|]. cbn [resolve_all].
  destruct IH as [chunks IH]; [intros id' Hid'; apply Hall; by right|]. rewrite IH.
  destruct (Hall id (list_elem_of_here _ _)) as [en Hen]. unfold loc. rewrite Hen.
  cbn [fmap option_fmap option_map ok_or mbind result_bind]. by eexists.
Qed.

Lemma load_stream_computes s r ptrs c :
  placed s (chunk_index r) -> cache_sound plain c ->
  (forall id, id ∈ ptrs -> is_Some (chunk_index r !! id)) ->
  exists c', computes s (load_item_stream_from_ptrs e r ptrs c) (concat (plain <$> ptrs), c') /\ cache_sound plain c'.
Proof.
  intros Hst Hc Hall. destruct (resolve_all_total (chunk_index r) ptrs Hall) as [chunks Hr].
  destruct (resolve_all_spec _ _ _ Hr) as [Hids Hin].
  destruct (read_coalesced_computes e plain s chunks) with (c := c) (out0 := @nil Z) as (c' & Hcomp & Hc').
  - apply Forall_forall. intros k Hk. destruct (Hin k Hk) as (en & Hen & ->). by apply Hst.
  - intros k k' Hk Hk'. destruct (Hin k Hk) as (en & Hen & ->). destruct (Hin k' Hk') as (en' & Hen' & ->).
    by apply Hst.
  - done.
  - exists c'. split; [|done]. unfold load_item_stream_from_ptrs, resolve_and_read.
    eapply computes_bind; [by apply computes_lift|]. cbn [app] in Hcomp.
    by rewrite <- Hids, <- list_fmap_compose.
Qed.

Lemma read_chunk_computes s ix id en c :
  placed s ix -> ix !! id = Some en -> cache_sound plain c ->
  exists c', computes s (read_chunk e ix id c) (plain id, c') /\ cache_sound plain c'.
Proof.
  intros Hst Hen Hc. unfold read_chunk. rewrite Hen.
  by apply (read_chunk_at_computes e plain s id (pack_id en) (pack_offset en) (stored_size en) c); [by apply Hst|].
Qed.

(** C16. What is covered can be restored: in a covered store, listing the items
    of a snapshot whose object and item stream are readable answers exactly
    these items, and reading any chunk of any of its files answers that
    chunk's plaintext; either fails only when a storage call does. *)
Theorem covered_snapshot_restores s ix r c name entry d m items :
  covered s ix -> chunk_index r = ix -> cache_sound plain c ->
  find_snapshot (manifest r) name = Some entry -> is_id (snapshot_bytes (snap_id entry)) ->
  s !! snapshot_storage_key (snap_id entry) = Some d -> decode_snapshot_meta e (snap_id entry) d = Ok m ->
  decode_items_stream (concat (plain <$> item_ptrs m)) = Ok items ->
  (exists c', computes s (load_snapshot_items e r name c) (items, c')) /\
  forall it ref, it ∈ items -> ref ∈ item_chunks it ->
    exists c', computes s (read_chunk e (chunk_index r) (ref_id ref) c) (plain (ref_id ref), c').
Proof.
  intros Hc Hix Hsound Hf Hid Hd Hm Hit.
  set (ids := concat ((fun it => ref_id <$> item_chunks it) <$> items) ++ item_ptrs m).
  assert (Hrefs : forall id, id ∈ ids -> is_Some (ix !! id)).
  { intros id Hin. eapply (covered_refs s ix (snapshot_storage_key (snap_id entry)) d); [done|done| |].
    - apply snapshot_storage_key_prefix.
    - rewrite key_refs_storage_key by done. unfold object_refs. rewrite Hm. cbn [mbind result_bind].
      unfold meta_refs. by rewrite Hit. }
  split.
  - destruct (load_stream_computes s r (item_ptrs m) c) as (c' & Hl & Hc').
    + rewrite Hix. apply stored_placed, (cv_stored _ _ Hc).
    + done.
    + intros id Hin. rewrite Hix. apply Hrefs. unfold ids. set_solver.
    + exists c'. eapply computes_bind.
      * eapply computes_bind; [|exact Hl]. unfold load_snapshot_meta. rewrite Hf.
        eapply computes_bind; [apply computes_reading|]. cbv beta. rewrite Hd. by apply computes_lift.
      * eapply computes_bind; [by apply computes_lift|]. apply computes_ret.
  - intros it ref Hin Href. destruct (Hrefs (ref_id ref)) as [en Hen].
    + unfold ids. apply elem_of_app. left. apply list_elem_of_In, in_concat. exists (ref_id <$> item_chunks it).
      split; apply list_elem_of_In, list_elem_of_fmap; eauto.
    + rewrite Hix. destruct (read_chunk_computes s ix (ref_id ref) en c) as (c' & ? & _); [apply stored_placed, (cv_stored _ _ Hc)|done|done|].
      by exists c'.
Qed.

Context {Hlaw : LawfulEngine e} (draws : nat -> Z * bytes) (fence : M unit).
Context (draws_typed : forall n, u64 (draws n).1 /\ length (draws n).2 = NONCE_LEN).
Context (fence_locks : only_locks fence).

(** Equal outside the index, its generation file, locks and the keys [ks]. *)
Definition others (ks : list string) (s0 s : Store) : Prop :=
  forall k, is_lock_key k = false -> k <> "index.gen" -> k <> "index" -> k ∉ ks -> s !! k = s0 !! k.

Lemma others_packs ks s0 s :
  Forall (fun k => starts_with k "snapshots/" = true) ks -> others ks s0 s -> same_packs s0 s.
Proof.
  intros Hks Ho p. destruct (pack_key_plain p) as (H1 & H2 & H3). apply Ho; try done.
  intros Hin. rewrite Forall_forall in Hks. by apply (pack_key_not_snapshot p (pack_storage_key p)); [apply Hks|].
Qed.

Lemma agree_others ks s0 s s' : agree s s' -> others ks s0 s -> others ks s0 s'.
Proof. intros Ha Ho k H1 H2 H3 H4. rewrite Ha by done. by apply Ho. Qed.

(** Saving the index after references were released: [s1] is the store
    without the snapshots, [s0] the store with them. *)
Lemma save_released s0 s1 ix ids ks r :
  covered s0 ix -> covered s1 ix -> others ks s0 s1 ->
  Forall (fun k => starts_with k "snapshots/" = true) ks ->
  (forall k, k ∈ ks -> s1 !! k = None) ->
  (forall id, references s1 id + count_id id ids <= references s0 id) ->
  chunk_index r = decrement_all ids ix -> (index_dirty r = false -> ids = []) ->
  triple (agree s1) (save_state e draws fence r)
    (fun _ s => covered s (decrement_all ids ix) /\ others ks s0 s /\ (forall k, k ∈ ks -> s !! k = None))
    (fun s => others ks s0 s /\ exists ix', covered s ix').
Proof.
  intros Hc0 Hc1 Ho Hks Hgone Hr Hix Hdirty.
  assert (HE : forall s, agree s1 s -> others ks s0 s /\ exists ix', covered s ix').
  { intros s Ha. split; [by eapply agree_others|]. exists ix. by eapply agree_covered. }
  destruct (index_dirty r) eqn:Hd.
  - set (Q := fun s : Store => index_of e s (decrement_all ids ix) /\
      forall k, is_lock_key k = false -> k <> "index.gen" -> k <> "index" -> s !! k = s1 !! k).
    assert (HQ : forall s, Q s -> covered s (decrement_all ids ix) /\ others ks s0 s /\ (forall k, k ∈ ks -> s !! k = None)).
    { intros s [Hi Hs]. assert (Hsnap : forall k, starts_with k "snapshots/" = true -> s !! k = s1 !! k).
      { intros k (? & ? & ?)%snapshot_key_plain. by apply Hs. }
      assert (Hos : others ks s0 s) by (intros k ????; rewrite Hs by done; by apply Ho).
      split; [|split; [done|]].
      - destruct (covered_release s0 s ix ids) as [? _]; [done|done|by eapply others_packs| |done].
        intros id. rewrite (references_same s s1) by done. apply Hr.
      - intros k Hk. rewrite Hsnap; [by apply Hgone|]. rewrite Forall_forall in Hks. by apply Hks. }
    eapply triple_weaken; [apply (triple_save_state e draws fence r (agree s1) Q
      (fun s => others ks s0 s /\ exists ix', covered s ix')) |done| |done].
    + done.
    + rewrite Hix. apply released_fits; [apply (cv_pos _ _ Hc0)|apply (cv_fits _ _ Hc0)].
    + done.
    + by apply fence_agree.
    + done.
    + intros s d Ha Hi. rewrite Hix in Hi. split; [done|]. intros k H1 H2 H3. rewrite lookup_insert_ne by done. by apply Ha.
    + intros s d [(d' & g & Hd' & Hdec) Hs]. split; [exists d', g; by rewrite lookup_insert_ne by done|].
      intros k H1 H2 H3. rewrite lookup_insert_ne by done. by apply Hs.
    + intros s HQs. destruct (HQ s HQs) as (? & ? & _). eauto.
    + intros r' s (HQs & _ & _). by apply HQ.
  - rewrite (Hdirty eq_refl) in *. unfold save_state. rewrite Hd. apply triple_ret. intros s Ha.
    split; [by eapply agree_covered|]. split; [by eapply agree_others|]. intros k Hk.
    rewrite Forall_forall in Hks. rewrite (agree_snapshots _ _ Ha) by (by apply Hks). by apply Hgone.
Qed.

(** ** Delete *)

(** What a deletion that succeeded has done: the object of the snapshot is
    gone, its references are released, nothing else has changed. *)
Definition deleted (s0 : Store) (ix : ChunkIndex) (entry : SnapshotEntry) (s : Store) : Prop :=
  let key := snapshot_storage_key (snap_id entry) in
  exists d, s0 !! key = Some d /\ s !! key = None /\
    let ids := object_refs (snap_id entry) d in
    covered s (decrement_all ids ix) /\
    forall id, rc (decrement_all ids ix) id = rc ix id - count_id id ids.

(** The objects in the packs, the other snapshots and everything else stay. *)
Definition intact (ks : list string) (s0 s : Store) : Prop := others ks s0 s /\ exists ix', covered s ix'.

Lemma agree_intact s0 s1 ix ks : others ks s0 s1 -> covered s1 ix -> forall s, agree s1 s -> intact ks s0 s.
Proof. intros Ho Hc s Ha. split; [by eapply agree_others|]. exists ix. by eapply agree_covered. Qed.

Lemma delete_references s0 key d ids id :
  s0 !! key = Some d -> starts_with key "snapshots/" = true -> key_refs key d = ids ->
  references (delete key s0) id + count_id id ids <= references s0 id.
Proof. intros Hd Hk <-. rewrite (references_delete s0 key d id Hd Hk). lia. Qed.

Lemma triple_del (s0 : Store) key (E : Store -> Prop) :
  (forall s, agree s0 s -> E s) -> (forall s, agree (delete key s0) s -> E s) ->
  triple (agree s0) (del key) (fun _ => agree (delete key s0)) E.
Proof.
  intros H0 H1. apply triple_writing; [exact H0|]. intros s Ha.
  assert (Ha1 : agree (delete key s0) (delete key s)); [|auto].
  intros k Hk Hg. destruct (decide (key = k)) as [<-|]; [by rewrite !lookup_delete_eq|].
  rewrite !lookup_delete_ne by done. by apply Ha.
Qed.

(** The second half of a deletion: the object is gone, [r] is the repository
    with the references released. *)
Lemma delete_tail s0 ix entry d ids r2 :
  let key := snapshot_storage_key (snap_id entry) in
  covered s0 ix -> s0 !! key = Some d -> is_id (snapshot_bytes (snap_id entry)) ->
  object_refs (snap_id entry) d = ids ->
  chunk_index r2 = decrement_all ids ix -> (index_dirty r2 = false -> ids = []) ->
  triple (agree (delete key s0)) (save_state e draws fence r2)
    (fun _ s => intact [key] s0 s /\ deleted s0 ix entry s) (intact [key] s0).
Proof.
  intros key Hc Hd Hid Hrefs Hix Hdirty. set (s1 := delete key s0).
  assert (Hkey : starts_with key "snapshots/" = true) by apply snapshot_storage_key_prefix.
  assert (Hk1 : Forall (fun k => starts_with k "snapshots/" = true) [key]) by (by apply Forall_singleton).
  assert (Hrel : forall id, references s1 id + count_id id ids <= references s0 id).
  { intros id. apply (delete_references s0 key d); [done..|]. unfold key. by rewrite key_refs_storage_key. }
  eapply triple_weaken; [apply (save_released s0 s1 ix ids [key] r2)|done| |done]; try done.
  - by apply covered_delete_snapshot.
  - intros k _ _ _ Hk. apply lookup_delete_ne. intros <-. apply Hk, list_elem_of_here.
  - intros k ->%list_elem_of_singleton. apply lookup_delete_eq.
  - intros r3 s (Hcs & Hos & Hgone). split; [split; [done|by eexists]|].
    assert (Hk : s !! key = None) by (apply Hgone; by apply list_elem_of_singleton).
    exists d. split; [done|]. split; [done|]. cbv zeta. rewrite Hrefs. split; [done|].
    intros id. destruct (covered_release s0 s ix ids) as [_ Hrc]; [done|by apply cv_index|by apply (others_packs [key])| |apply Hrc].
    intros id'. rewrite (references_same s s1); [apply Hrel|].
    intros k (? & ? & ?)%snapshot_key_plain. unfold s1.
    destruct (decide (key = k)) as [<-|Hne]; [by rewrite lookup_delete_eq|].
    rewrite lookup_delete_ne by done. apply Hos; try done. rewrite list_elem_of_singleton. congruence.
Qed.

(** The first half: the metadata and the items are read. *)
Lemma load_snapshot_triple s0 ix name entry r c :
  covered s0 ix -> chunk_index r = ix -> cache_sound plain c -> find_snapshot (manifest r) name = Some entry ->
  triple (agree s0) (load_snapshot_item_stream e r name c)
    (fun p s => agree s0 s /\ exists d m, s0 !! snapshot_storage_key (snap_id entry) = Some d /\
       decode_snapshot_meta e (snap_id entry) d = Ok m /\ p.1 = concat (plain <$> item_ptrs m) /\ cache_sound plain p.2)
    (agree s0).
Proof.
  intros Hc Hix Hsound Hfind. unfold load_snapshot_item_stream. eapply triple_bind.
  - apply (load_meta_triple (agree s0) r name entry s0); [done|]. intros s Ha.
    apply (agree_snapshots s0); [done|]. apply snapshot_storage_key_prefix.
  - intros m. apply triple_pure. intros (d & Hd & Hm).
    eapply triple_weaken; [apply (load_stream_triple (agree s0) r (item_ptrs m) c)|done| |done].
    + intros s Ha. rewrite Hix. by eapply stored_placed, cv_stored, agree_covered.
    + done.
    + intros p s (? & ? & ?). split; [done|]. by exists d, m.
Qed.

Lemma delete_snapshot_triple s0 ix name entry dry_run r c :
  covered s0 ix -> chunk_index r = ix -> index_dirty r = false -> cache_sound plain c ->
  find_snapshot (manifest r) name = Some entry -> is_id (snapshot_bytes (snap_id entry)) ->
  let key := snapshot_storage_key (snap_id entry) in
  triple (agree s0) (delete_snapshot e draws fence name dry_run r c)
    (fun out s => intact [key] s0 s /\ (if dry_run then agree s0 s else deleted s0 ix entry s)) (intact [key] s0).
Proof.
  intros Hc Hix Hdirty Hsound Hfind Hid key. unfold delete_snapshot. rewrite Hfind. fold key.
  assert (HE : forall s, agree s0 s -> intact [key] s0 s) by (by eapply agree_intact).
  assert (Hkey : starts_with key "snapshots/" = true) by apply snapshot_storage_key_prefix.
  eapply triple_bind.
  { eapply triple_weaken; [apply (load_meta_triple (agree s0) r name entry s0)|done|done|exact HE]; [done|].
    intros s Ha. by apply (agree_snapshots s0). }
  intros m. apply triple_pure. intros (d & Hd & Hm). fold key in Hd.
  eapply triple_bind; [eapply triple_weaken; [by apply (load_snapshot_triple s0 ix name entry r c)|done|done|exact HE]|].
  intros p. apply triple_pure. intros (d' & m' & Hd' & Hm' & Hp & _). fold key in Hd'.
  rewrite Hd in Hd'. injection Hd' as <-. rewrite Hm in Hm'. injection Hm' as <-. destruct dry_run.
  { eapply triple_bind with (R := fun _ s => agree s0 s).
    - apply triple_lift. intros s Ha. destruct (count_snapshot_chunk_impact _ _ _); auto.
    - intros i. apply triple_ret. intros s Ha. split; [by apply HE|done]. }
  eapply triple_bind with (R := fun _ => agree s0);
    [eapply triple_weaken; [by apply (fence_agree fence s0)|done|done|exact HE]|]. intros _.
  assert (HE1 : forall s, agree (delete key s0) s -> intact [key] s0 s).
  { eapply agree_intact; [|by apply covered_delete_snapshot].
    intros k _ _ _ Hk. apply lookup_delete_ne. intros <-. apply Hk, list_elem_of_here. }
  eapply triple_bind with (R := fun _ => agree (delete key s0)); [by apply triple_del|]. intros _. set (r1 := set_manifest _ r).
  pose proof (decrement_snapshot_spec r1 p.1 (item_ptrs m)) as Hdec.
  destruct (decrement_snapshot_chunk_refs r1 p.1 (item_ptrs m)) as [[i|er] r2].
  2:{ eapply triple_bind with (R := fun _ s => False); [by apply triple_lift|]. intros a w []. }
  destruct Hdec as (items & Hitems' & Hr2). cbv zeta in Hr2. rewrite Hp in Hitems'.
  set (ids := concat _ ++ item_ptrs m) in Hr2.
  assert (Hrefs : object_refs (snap_id entry) d = ids).
  { unfold object_refs. rewrite Hm. cbn [mbind result_bind]. unfold meta_refs. by rewrite Hitems'. }
  eapply triple_bind with (R := fun _ => agree (delete key s0)); [by apply triple_lift|]. intros i'.
  eapply triple_bind; [apply (delete_tail s0 ix entry d ids r2)|]; try done.
  - rewrite Hr2. cbn [chunk_index set_manifest r1]. by rewrite Hix.
  - rewrite Hr2. cbn [index_dirty]. by destruct ids.
  - intros r3. apply triple_ret. intros s [? ?]. done.
Qed.

(** C13. Deleting a snapshot keeps the repository whole.  Whatever storage
    calls fail and wherever the process dies, the store that is left has an
    index that covers the references of all snapshots still in it, every
    chunk of that index can be read and decrypted, and no pack, no other
    snapshot and no other object was changed.  If the deletion reports
    success, the object of the snapshot is gone and each chunk has lost
    exactly the references the snapshot had; a dry run that answers has
    changed nothing. *)
Theorem delete_keeps_cover s0 ix name entry dry_run r c faults :
  covered s0 ix -> chunk_index r = ix -> index_dirty r = false -> cache_sound plain c ->
  find_snapshot (manifest r) name = Some entry -> is_id (snapshot_bytes (snap_id entry)) ->
  let key := snapshot_storage_key (snap_id entry) in
  match delete_snapshot e draws fence name dry_run r c (mkWorld s0 faults) with
  | (Ok _, w) => intact [key] s0 (objects w) /\ (if dry_run then agree s0 (objects w) else deleted s0 ix entry (objects w))
  | (Err _, w) => intact [key] s0 (objects w)
  end.
Proof. intros Hc Hix Hd Hs Hf Hid key. by apply (delete_snapshot_triple s0 ix name entry dry_run r c). Qed.

(** ** Prune *)

Context (check_interrupted : M unit) (interrupted_pure : forall w, objects (exec check_interrupted w) = objects w).

Lemma preserves_interrupted (P : Store -> Prop) : preserves P check_interrupted.
Proof.
  intros w HP. pose proof (interrupted_pure w) as Hw. unfold exec in Hw.
  destruct (check_interrupted w) as [[] w']; cbn [snd] in Hw; by rewrite Hw.
Qed.

(** A target stands for a snapshot object of the store. *)
Definition target_of (s0 : Store) (r : Repository) (name : string) (t : PruneTarget) : Prop :=
  exists entry d m, find_snapshot (manifest r) name = Some entry /\
    target_key t = snapshot_storage_key (snap_id entry) /\
    s0 !! target_key t = Some d /\ decode_snapshot_meta e (snap_id entry) d = Ok m /\ target_ptrs t = item_ptrs m.

Lemma load_targets_triple s0 r names :
  triple (agree s0) (load_targets e check_interrupted r names)
    (fun ts s => agree s0 s /\ Forall2 (target_of s0 r) names ts) (agree s0).
Proof.
  induction names as [|name names IH]; [apply triple_ret; intros s Ha; by split|]. cbn [load_targets].
  eapply triple_bind with (R := fun _ => agree s0); [apply preserves_interrupted|]. intros _.
  destruct (find_snapshot (manifest r) name) as [entry|] eqn:Hf; [|by apply triple_fail].
  eapply triple_bind.
  { apply (load_meta_triple (agree s0) r name entry s0); [done|]. intros s Ha.
    apply (agree_snapshots s0); [done|]. apply snapshot_storage_key_prefix. }
  intros m. apply triple_pure. intros (d & Hd & Hm). eapply triple_bind; [exact IH|].
  intros ts. apply triple_ret. intros s [Ha Hts]. split; [done|]. constructor; [|done].
  by exists entry, d, m.
Qed.

(** The store while the objects [ks] are being deleted and [gone] already are. *)
Record pruning (s0 : Store) (ix : ChunkIndex) (ks gone : list string) (s : Store) : Prop := {
  pr_others : others ks s0 s;
  pr_covered : covered s ix;
  pr_gone : forall k, k ∈ gone -> s !! k = None;
}.
#[local] Abbreviation snapshot_keys := (Forall (fun k => starts_with k "snapshots/" = true)).

Lemma pruning_intact s0 ix ks gone s : pruning s0 ix ks gone s -> intact ks s0 s.
Proof. intros [Ho Hc _]. split; [done|by exists ix]. Qed.

Lemma agree_pruning s0 ix ks gone s s' :
  snapshot_keys gone -> agree s s' -> pruning s0 ix ks gone s -> pruning s0 ix ks gone s'.
Proof.
  intros Hg Ha [H1 H2 H3]. rewrite Forall_forall in Hg. constructor; [by eapply agree_others|by eapply agree_covered|].
  intros k Hk. rewrite (agree_snapshots _ _ Ha) by auto. auto.
Qed.

Lemma delete_pruning s0 ix ks gone k s :
  k ∈ ks -> starts_with k "snapshots/" = true ->
  pruning s0 ix ks gone s -> pruning s0 ix ks (gone ++ [k]) (delete k s).
Proof.
  intros Hk Hs [H1 H2 H3]. constructor; [|by apply covered_delete_snapshot|].
  - intros k' ? ? ? Hk'. rewrite lookup_delete_ne; [by apply H1|congruence].
  - intros k' [Hg| ->%list_elem_of_singleton]%elem_of_app; [|apply lookup_delete_eq].
    apply lookup_delete_None. right. auto.
Qed.

Lemma fence_pruning s0 ix ks gone : snapshot_keys gone -> preserves (pruning s0 ix ks gone) fence.
Proof.
  intros Hg w Hp. pose proof (fence_agree fence (objects w) fence_locks w (agree_refl _)) as Ha.
  destruct (fence w) as [[] w']; by eapply agree_pruning.
Qed.

(** Phase 2. *)
Lemma delete_targets_triple s0 ix ks ts : forall gone,
  snapshot_keys ks -> (forall k, k ∈ gone -> k ∈ ks) -> (forall t, t ∈ ts -> target_key t ∈ ks) ->
  triple (pruning s0 ix ks gone) (delete_targets fence check_interrupted ts)
    (fun _ => pruning s0 ix ks (gone ++ (target_key <$> ts))) (intact ks s0).
Proof.
  intros gone Hks. pose proof Hks as Hks'. rewrite Forall_forall in Hks'.
  revert gone. induction ts as [|t ts IH]; intros gone Hgone Hts.
  { apply triple_ret. intros s Hs. by rewrite app_nil_r. }
  assert (Hg : snapshot_keys gone) by (apply Forall_forall; auto).
  assert (Ht : target_key t ∈ ks) by (apply Hts, list_elem_of_here).
  unfold delete_targets. cbn [for_each]. fold (delete_targets fence check_interrupted ts).
  eapply triple_bind with (R := fun _ => pruning s0 ix ks (gone ++ [target_key t])).
  - eapply triple_bind with (R := fun _ => pruning s0 ix ks gone).
    { eapply triple_weaken; [apply preserves_interrupted|done|done|]. apply pruning_intact. }
    intros _. eapply triple_bind with (R := fun _ => pruning s0 ix ks gone).
    { eapply triple_weaken; [by apply fence_pruning|done|done|]. apply pruning_intact. }
    intros _. eapply triple_bind.
    { apply (triple_try _ _ (fun _ => pruning s0 ix ks (gone ++ [target_key t])) (intact ks s0)).
      apply triple_writing; [by intros s; apply pruning_intact|]. intros s Hs.
      assert (Hd : pruning s0 ix ks (gone ++ [target_key t]) (delete (target_key t) s)) by (apply delete_pruning; auto).
      split; [done|]. by eapply pruning_intact. }
    intros [u|er]; [by apply triple_ret|by apply triple_fail].
  - intros _. rewrite fmap_cons. replace (gone ++ target_key t :: (target_key <$> ts))
      with ((gone ++ [target_key t]) ++ (target_key <$> ts)) by (by rewrite <- app_assoc).
    apply IH; [|intros t' Ht'; apply Hts; by right].
    intros k [Hk| ->%list_elem_of_singleton]%elem_of_app; auto.
Qed.

(** Phase 3. *)
Definition target_refs (t : PruneTarget) (ids : list ChunkId) : Prop :=
  exists items, decode_items_stream (concat (plain <$> target_ptrs t)) = Ok items /\
    ids = concat ((fun it => ref_id <$> item_chunks it) <$> items) ++ target_ptrs t.

Lemma decrement_all_app ids ids' ix : decrement_all (ids ++ ids') ix = decrement_all ids' (decrement_all ids ix).
Proof. apply foldl_app. Qed.

Lemma release_targets_triple s1 ix ts : forall freed r c total,
  covered s1 ix -> cache_sound plain c ->
  chunk_index r = decrement_all freed ix -> (index_dirty r = false -> freed = []) ->
  triple (agree s1) (release_targets e ts r c total)
    (fun out s => agree s1 s /\ exists lls, Forall2 target_refs ts lls /\
       chunk_index out.1.1 = decrement_all (freed ++ concat lls) ix /\
       (index_dirty out.1.1 = false -> freed ++ concat lls = []))
    (agree s1).
Proof.
  induction ts as [|t ts IH]; intros freed r c total Hc Hsound Hix Hdirty; cbn [release_targets].
  { apply triple_ret. intros s Ha. split; [done|]. exists []. cbn [concat fst]. rewrite app_nil_r. done. }
  eapply triple_bind.
  { apply (load_stream_triple (agree s1) r (target_ptrs t) c); [|done]. rewrite Hix.
    intros s Ha. apply stored_placed, released_stored; [apply (cv_pos _ _ Hc)|]. by eapply cv_stored, agree_covered. }
  intros p. apply triple_pure. intros [Hp Hsound'].
  pose proof (decrement_snapshot_spec r p.1 (target_ptrs t)) as Hdec.
  destruct (decrement_snapshot_chunk_refs r p.1 (target_ptrs t)) as [[i|er] r2].
  2:{ eapply triple_bind with (R := fun _ s => False); [by apply triple_lift|]. intros a w []. }
  destruct Hdec as (items & Hitems' & Hr2). cbv zeta in Hr2. rewrite Hp in Hitems'.
  set (ids := concat _ ++ target_ptrs t) in Hr2.
  eapply triple_bind with (R := fun _ => agree s1); [by apply triple_lift|]. intros i'.
  eapply triple_weaken; [apply (IH (freed ++ ids))|done| |done]; [done|done| | |].
  - rewrite Hr2. cbn [set_manifest chunk_index]. by rewrite decrement_all_app, Hix.
  - rewrite Hr2. cbn [set_manifest index_dirty]. destruct ids; [|done]. rewrite app_nil_r. done.
  - intros out s (Ha & lls & Hlls & Hx & Hy). split; [done|]. exists (ids :: lls). cbn [concat].
    rewrite app_assoc. split; [|done]. constructor; [|done]. by exists items.
Qed.

Lemma count_id_app id l l' : count_id id (l ++ l') = count_id id l + count_id id l'.
Proof. apply sum_Z_app. Qed.

(** The references of the objects [ks], deleted one by one. *)
Lemma references_without s0 ks lls s id :
  NoDup ks -> snapshot_keys ks ->
  Forall2 (fun k l => exists d, s0 !! k = Some d /\ key_refs k d = l) ks lls ->
  (forall k, k ∈ ks -> s !! k = None) ->
  (forall k, starts_with k "snapshots/" = true -> k ∉ ks -> s !! k = s0 !! k) ->
  references s id + count_id id (concat lls) = references s0 id.
Proof.
  intros Hnd Hks Hf. revert s0 lls Hks Hnd Hf. induction ks as [|k ks IH]; intros s0 lls Hks Hnd Hf Hgone Hsame.
  { apply Forall2_nil_inv_l in Hf as ->. rewrite (references_same s s0); [unfold count_id; simpl; lia|].
    intros k Hk. apply Hsame; [done|]. apply not_elem_of_nil. }
  apply Forall2_cons_inv_l in Hf as (l & lls' & (d & Hd & Hl) & Hf & ->).
  apply NoDup_cons in Hnd as [Hk Hnd]. apply Forall_cons in Hks as [Hkp Hks].
  rewrite (references_delete s0 k d id Hd Hkp), Hl. cbn [concat].
  rewrite count_id_app, <- (IH (delete k s0) lls'); [lia|done|done| | |].
  - apply Forall2_same_length_lookup in Hf as [Hlen Hf]. apply Forall2_same_length_lookup. split; [done|].
    intros i k' l' Hk' Hl'. destruct (Hf i k' l' Hk' Hl') as (d' & Hd' & Hx). exists d'. split; [|done].
    rewrite lookup_delete_ne; [done|]. intros <-. apply Hk. by eapply list_elem_of_lookup_2.
  - intros k' Hk'. apply Hgone. by right.
  - intros k' Hp Hk'. destruct (decide (k = k')) as [<-|Hne].
    + rewrite lookup_delete_eq. apply Hgone, list_elem_of_here.
    + rewrite lookup_delete_ne by done. apply Hsame; [done|]. intros [->|]%elem_of_cons; done.
Qed.

(** *** The whole command *)

Record manifest_ok (m : Manifest) : Prop := {
  mf_names : NoDup (snap_name <$> m);
  mf_ids : NoDup (snap_id <$> m);
  mf_typed : Forall (fun s => is_id (snapshot_bytes (snap_id s))) m;
}.

Definition prune_keys (m : Manifest) (names : list string) : list string :=
  (fun entry => snapshot_storage_key (snap_id entry)) <$> omap (find_snapshot m) names.

Lemma find_snapshot_Some m name entry : find_snapshot m name = Some entry -> entry ∈ m /\ snap_name entry = name.
Proof. intros [Hin Hn]%List.find_some. split; [by apply list_elem_of_In|by apply String.eqb_eq in Hn]. Qed.

Lemma snapshot_storage_key_inj id id' :
  is_id (snapshot_bytes id) -> is_id (snapshot_bytes id') ->
  snapshot_storage_key id = snapshot_storage_key id' -> id = id'.
Proof.
  intros H1 H2 E. unfold snapshot_storage_key in E. apply (f_equal (fun k => strip_prefix k "snapshots/")) in E.
  rewrite !strip_prefix_app in E. injection E as E. apply (f_equal id_from_hex) in E.
  rewrite !id_from_hex_to_hex in E by done. injection E as E. destruct id, id'. simpl in E. by subst.
Qed.

Lemma manifest_same_id m s s' : manifest_ok m -> s ∈ m -> s' ∈ m -> snap_id s = snap_id s' -> s = s'.
Proof.
  intros Hm [i Hi]%list_elem_of_lookup [j Hj]%list_elem_of_lookup E.
  assert (i = j) as ->; [|congruence].
  eapply NoDup_lookup; [apply (mf_ids _ Hm)| |]; rewrite list_lookup_fmap; [by rewrite Hi|by rewrite Hj, E].
Qed.

Lemma prune_keys_snapshots m names : snapshot_keys (prune_keys m names).
Proof. apply Forall_fmap, Forall_forall. intros. apply snapshot_storage_key_prefix. Qed.

Lemma targets_keys s0 r names ts :
  Forall2 (target_of s0 r) names ts -> target_key <$> ts = prune_keys (manifest r) names.
Proof.
  induction 1 as [|name t names ts (entry & d & m & Hf & Hk & _) _ IH]; [done|].
  unfold prune_keys in *. cbn [omap list_omap]. rewrite Hf, !fmap_cons, IH, Hk. done.
Qed.

Lemma prune_keys_NoDup m names : manifest_ok m -> NoDup names -> NoDup (prune_keys m names).
Proof.
  intros Hm Hn. induction Hn as [|name names Hnot Hn IH]; [constructor|].
  unfold prune_keys in *. cbn [omap list_omap]. destruct (find_snapshot m name) as [entry|] eqn:Hf; [|done].
  rewrite fmap_cons. constructor; [|done]. intros (entry' & Hk & Hin)%list_elem_of_fmap.
  apply list_elem_of_omap in Hin as (name' & Hname' & Hf').
  destruct (find_snapshot_Some _ _ _ Hf) as [H1 H2]. destruct (find_snapshot_Some _ _ _ Hf') as [H1' H2'].
  pose proof (mf_typed _ Hm) as Hty. rewrite Forall_forall in Hty.
  apply snapshot_storage_key_inj in Hk; [|by apply Hty..].
  assert (entry = entry') as <- by (by eapply manifest_same_id). congruence.
Qed.

Lemma targets_refs s0 r names ts lls :
  manifest_ok (manifest r) -> Forall2 (target_of s0 r) names ts -> Forall2 target_refs ts lls ->
  Forall2 (fun k l => exists d, s0 !! k = Some d /\ key_refs k d = l) (target_key <$> ts) lls.
Proof.
  intros Hm Ht. revert lls. induction Ht as [|name t names ts (entry & d & m & Hf & Hk & Hd & Hdec & Hp) Ht IH]; intros lls Hl.
  { by apply Forall2_nil_inv_l in Hl as ->. }
  apply Forall2_cons_inv_l in Hl as (l & lls' & (items & Hit & ->) & Hl & ->). rewrite fmap_cons.
  constructor; [|by apply IH]. exists d. split; [done|]. rewrite Hk, key_refs_storage_key.
  - unfold object_refs. rewrite Hdec. cbn [mbind result_bind]. unfold meta_refs. rewrite <- Hp, Hit. done.
  - pose proof (mf_typed _ Hm) as Hty. rewrite Forall_forall in Hty. apply Hty. by apply (find_snapshot_Some _ _ _ Hf).
Qed.

(** What a prune that succeeded has done to the objects [ks]. *)
Definition pruned (s0 : Store) (ix : ChunkIndex) (ks : list string) (s : Store) : Prop :=
  (forall k, k ∈ ks -> s !! k = None) /\
  exists ids, covered s (decrement_all ids ix) /\
    forall id, rc (decrement_all ids ix) id = rc ix id - count_id id ids /\
               references s id = references s0 id - count_id id ids.

(** Phases 2 and 3 and the save. *)
Lemma prune_targets_triple s0 ix r c names ts (report : SnapshotChunkImpact -> PruneStats * list PruneListEntry) :
  covered s0 ix -> chunk_index r = ix -> index_dirty r = false -> cache_sound plain c ->
  manifest_ok (manifest r) -> NoDup names -> Forall2 (target_of s0 r) names ts ->
  let ks := prune_keys (manifest r) names in
  triple (agree s0)
    (_ ← delete_targets fence check_interrupted ts;
     x ← release_targets e ts r c impact_default;
     let '(r, c, total) := x in
     r ← save_state e draws fence r;
     mret (report total, r, c))
    (fun _ s => intact ks s0 s /\ pruned s0 ix ks s) (intact ks s0).
Proof.
  intros Hc Hix Hd Hsound Hm Hnd Hts ks. pose proof (targets_keys _ _ _ _ Hts) as Hkeys. fold ks in Hkeys.
  assert (Hks : snapshot_keys ks) by apply prune_keys_snapshots.
  eapply triple_bind with (R := fun _ => pruning s0 ix ks ks).
  { eapply triple_weaken; [apply (delete_targets_triple s0 ix ks ts [])| | |done]; [done|by intros ? ?%not_elem_of_nil| | |].
    - intros t Ht. rewrite <- Hkeys. by apply list_elem_of_fmap_2.
    - intros s Ha. constructor; [by eapply agree_others|by eapply agree_covered|by intros ? ?%not_elem_of_nil].
    - intros a s. by rewrite Hkeys. }
  intros _. apply triple_at. intros s1 [Ho1 Hc1 Hg1].
  assert (HE : forall s, agree s1 s -> intact ks s0 s) by (by eapply agree_intact).
  eapply triple_bind.
  { eapply triple_weaken; [apply (release_targets_triple s1 ix ts [] r c impact_default)|done|done|exact HE]; done. }
  intros [[r1 c1] total]. apply triple_pure. cbn [fst]. intros (lls & Hlls & Hout & Hdirty). rewrite app_nil_l in *.
  assert (Hrefs : forall s, others ks s0 s -> (forall k, k ∈ ks -> s !! k = None) ->
    forall id, references s id + count_id id (concat lls) = references s0 id).
  { intros s Hos Hgs id. apply (references_without s0 ks lls); [by apply prune_keys_NoDup|done| |done|].
    - rewrite <- Hkeys. by eapply targets_refs.
    - intros k (? & ? & ?)%snapshot_key_plain Hk. by apply Hos. }
  eapply triple_bind; [apply (save_released s0 s1 ix (concat lls) ks r1)|]; try done.
  - intros id. rewrite (Hrefs s1); done.
  - intros r'. apply triple_ret. intros s (Hcs & Hos & Hgs). split; [split; [done|by eexists]|]. split; [done|]. exists (concat lls).
    split; [done|]. intros id. pose proof (Hrefs s Hos Hgs) as Hr. split; [|specialize (Hr id); lia].
    destruct (covered_release s0 s ix (concat lls)) as [_ Hrc]; [done|by apply cv_index|by eapply others_packs| |apply Hrc].
    intros id'. by rewrite Hr.
Qed.

Context `{Hcal : Calendar}.

Lemma pruned_names_NoDup retention sources source_filter now m ds :
  NoDup (snap_name <$> m) -> decide_prune retention sources source_filter now m = Ok ds -> NoDup (pruned_names ds).
Proof.
  intros Hnd Hdec.
  assert (Hds : exists snaps ss es, (snap_name <$> snaps) `sublist_of` (snap_name <$> m) /\
    ss ≡ₚ snaps /\ es ≡ₚ ds /\ Forall2 stands_for ss es).
  { unfold decide_prune in Hdec. cbv zeta in Hdec.
    set (snaps := match source_filter with [] => m | _ => _ end) in Hdec. exists snaps.
    assert (Hsub : (snap_name <$> snaps) `sublist_of` (snap_name <$> m)).
    { apply fmap_sublist. unfold snaps. destruct source_filter; [done|]. apply sublist_filter_bool. }
    destruct sources as [|src sources].
    - destruct (negb _); [done|]. destruct (apply_policy_group_ok _ _ _ _ Hdec) as [(ss & Hss & Hf) _].
      by exists ss, ds.
    - destruct (negb _ && _); [done|]. destruct (policy_by_label_perm _ _ _ _ _ Hdec) as (ss & Hss & es & Hes & Hf).
      by exists ss, es. }
  destruct Hds as (snaps & ss & es & Hsub & Hss & Hes & Hf).
  assert (Hnames : pe_name <$> es = snap_name <$> ss).
  { clear -Hf. induction Hf as [|s en ss es [Hn _] _ IH]; [done|]. rewrite !fmap_cons, IH. by f_equal. }
  assert (Hnd' : NoDup (pe_name <$> ds)).
  { rewrite <- Hes, Hnames, Hss. by eapply sublist_NoDup. }
  eapply sublist_NoDup; [exact Hnd'|]. apply fmap_sublist. apply sublist_filter_bool.
Qed.

Lemma prune_triple s0 ix retention sources source_filter dry_run list_ now r c ds :
  covered s0 ix -> chunk_index r = ix -> index_dirty r = false -> cache_sound plain c ->
  manifest_ok (manifest r) -> decide_prune retention sources source_filter now (manifest r) = Ok ds ->
  let ks := prune_keys (manifest r) (rev (pruned_names ds)) in
  triple (agree s0)
    (prune e draws fence check_interrupted retention sources source_filter dry_run list_ now r c)
    (fun _ s => intact ks s0 s /\ (if dry_run then agree s0 s else pruned s0 ix ks s)) (intact ks s0).
Proof.
  intros Hc Hix Hd Hsound Hm Hds ks. unfold prune. rewrite Hds.
  assert (HE : forall s, agree s0 s -> intact ks s0 s) by (by eapply agree_intact).
  eapply triple_bind with (R := fun ds' s => agree s0 s /\ ds' = ds); [by apply triple_lift|].
  intros ds'. apply triple_pure. intros ->. cbv zeta. destruct dry_run.
  { apply triple_ret. intros s Ha. split; [by apply HE|done]. }
  eapply triple_bind; [eapply triple_weaken; [apply (load_targets_triple s0 r)|done|done|exact HE]|].
  intros ts. apply triple_pure. intros Hts.
  eapply triple_weaken; [apply (prune_targets_triple s0 ix r c (rev (pruned_names ds)) ts
    (fun total => (mkPruneStats (length (List.filter (fun en => is_keep (pe_decision en)) ds)) (length (pruned_names ds)) total,
                   if list_ || false then list_entry <$> ds else [])))| | |]; try done.
  - rewrite <- Permutation_rev. eapply pruned_names_NoDup; [apply (mf_names _ Hm)|exact Hds].
Qed.

(** C14. Pruning keeps the repository whole.  Whatever storage calls fail and
    wherever the process dies, only objects of snapshots that the policy
    prunes are gone, the index in the store covers the references of all
    snapshots still there, and every chunk of that index can be read.  If the
    prune reports success, the objects of all pruned snapshots are gone and
    each chunk has lost exactly the references those snapshots had; a dry run
    that answers has changed nothing. *)
Theorem prune_keeps_cover s0 ix retention sources source_filter dry_run list_ now r c ds faults :
  covered s0 ix -> chunk_index r = ix -> index_dirty r = false -> cache_sound plain c ->
  manifest_ok (manifest r) -> decide_prune retention sources source_filter now (manifest r) = Ok ds ->
  let ks := prune_keys (manifest r) (rev (pruned_names ds)) in
  match prune e draws fence check_interrupted retention sources source_filter dry_run list_ now r c
    (mkWorld s0 faults) with
  | (Ok _, w) => intact ks s0 (objects w) /\ (if dry_run then agree s0 (objects w) else pruned s0 ix ks (objects w))
  | (Err _, w) => intact ks s0 (objects w)
  end.
Proof. intros Hc Hix Hd Hs Hm Hds ks. by apply (prune_triple s0 ix retention sources source_filter dry_run list_ now r c ds). Qed.
End Covered.

(** ** Codecs with these laws, and a store *)

#[export] Instance ItemType_eq_dec : EqDecision ItemType.
Proof. solve_decision. Defined.
#[export] Instance ItemType_countable : Countable ItemType.
Proof.
  refine (inj_countable' (fun t => match t with RegularFile => None | Directory => Some true | Symlink => Some false end)
    (fun o => match o with None => RegularFile | Some true => Directory | Some false => Symlink end) _).
  by intros [].
Defined.
#[export] Instance ChunkRef_eq_dec : EqDecision ChunkRef.
Proof. solve_decision. Defined.
#[export] Program Instance ChunkRef_countable : Countable ChunkRef :=
  inj_countable' (fun r => (ref_id r, ref_size r, ref_csize r)) (fun t => mkChunkRef t.1.1 t.1.2 t.2) _.
Next Obligation. by intros []. Qed.
#[export] Instance Item_eq_dec : EqDecision Item.
Proof. solve_decision. Defined.
(** Fields one after the other. *)
Definition item_fields (i : Item) : list positive :=
  [encode (item_path i); encode (entry_type i); encode (mode i); encode (uid i); encode (gid i); encode (user i);
   encode (group i); encode (mtime i); encode (atime i); encode (ctime i); encode (item_size i);
   encode (item_chunks i); encode (link_target i); encode (xattrs i)].
Definition item_of_fields (l : list positive) : option Item :=
  match l with
  | [a; b; c; d; f; g; h; j; k; l; m; n; o; p] =>
      a ← decode a; b ← decode b; c ← decode c; d ← decode d; f ← decode f; g ← decode g; h ← decode h;
      j ← decode j; k ← decode k; l ← decode l; m ← decode m; n ← decode n; o ← decode o; p ← decode p;
      Some (mkItem a b c d f g h j k l m n o p)
  | _ => None
  end.
#[export] Program Instance Item_countable : Countable Item := inj_countable item_fields item_of_fields _.
Next Obligation.
  intros []. unfold item_fields, item_of_fields.
  cbn [item_path entry_type mode uid gid user group mtime atime ctime item_size item_chunks link_target xattrs].
  repeat (rewrite decode_encode; cbn [mbind option_bind]). done.
Qed.
#[export] Instance SnapshotMeta_eq_dec : EqDecision SnapshotMeta.
Proof. assert (EqDecision ChunkerConfig) by solve_decision. assert (EqDecision SnapshotStats) by solve_decision. solve_decision. Defined.
Definition meta_fields (m : SnapshotMeta) : list positive :=
  [encode (meta_name m); encode (meta_hostname m); encode (username m); encode (meta_time m); encode (time_end m);
   encode (min_size (chunker_params m)); encode (avg_size (chunker_params m)); encode (max_size (chunker_params m));
   encode (comment m); encode (item_ptrs m); encode (nfiles (meta_stats m)); encode (original_size (meta_stats m));
   encode (compressed_size (meta_stats m)); encode (deduplicated_size (meta_stats m)); encode (errors (meta_stats m));
   encode (meta_source_label m); encode (meta_source_paths m); encode (meta_label m)].
Definition meta_of_fields (l : list positive) : option SnapshotMeta :=
  match l with
  | [a; b; c; d; f; h; i; j; g; ps; k; l; m; n; o; q; r; s] =>
      a ← decode a; b ← decode b; c ← decode c; d ← decode d; f ← decode f; h ← decode h; i ← decode i; j ← decode j;
      g ← decode g; ps ← decode ps; k ← decode k; l ← decode l; m ← decode m; n ← decode n; o ← decode o;
      q ← decode q; r ← decode r; s ← decode s;
      Some (mkMeta a b c d f (mkChunker h i j) g ps (mkStats k l m n o) q r s)
  | _ => None
  end.
#[export] Program Instance SnapshotMeta_countable : Countable SnapshotMeta := inj_countable meta_fields meta_of_fields _.
Next Obligation.
  intros [? ? ? ? ? [] ? ? [] ? ? ?]. unfold meta_fields, meta_of_fields.
  cbn [meta_name meta_hostname username meta_time time_end chunker_params comment item_ptrs meta_stats
    meta_source_label meta_source_paths meta_label min_size avg_size max_size nfiles original_size
    compressed_size deduplicated_size errors].
  repeat (rewrite decode_encode; cbn [mbind option_bind]). done.
Qed.
#[export] Instance toy_meta_msgpack : MsgPack SnapshotMeta :=
  {| mp_encode := bits_encode; mp_decode := bits_decode; mp_decode_encode := bits_decode_encode |}.

(** Items behind their length in unary. *)
Fixpoint take_ones (b : bytes) : nat * bytes :=
  match b with
  | 1 :: b' => let '(n, r) := take_ones b' in (S n, r)
  | _ => (O, b)
  end.
Definition toy_encode_item (it : Item) : bytes :=
  let b := bits_encode it in replicate (length b) 1 ++ 0 :: b.
Definition toy_next_item (stream : bytes) : option (Item * bytes) :=
  match take_ones stream with
  | (n, 0 :: r) => if decide (n <= length r)%nat then it ← bits_decode (take n r); Some (it, drop n r) else None
  | _ => None
  end.

Lemma take_ones_replicate n r : take_ones (replicate n 1 ++ 0 :: r) = (n, 0 :: r).
Proof. induction n as [|n IH]; [done|]. simpl. by rewrite IH. Qed.

Lemma take_ones_length b n r : take_ones b = (n, r) -> length b = (n + length r)%nat.
Proof.
  revert n r. induction b as [|x b IH]; intros n r; simpl; [by intros [= <- <-]|].
  destruct (take_ones b) as [n' r'] eqn:E. specialize (IH _ _ eq_refl).
  destruct x as [|[]|]; intros [= <- <-]; simpl; lia.
Qed.

#[export] Program Instance toy_items : ItemStream := {|
  encode_item := toy_encode_item;
  next_item := toy_next_item;
|}.
Next Obligation.
  intros it rest. unfold toy_next_item, toy_encode_item. rewrite <- app_assoc. cbn [app].
  rewrite take_ones_replicate. rewrite decide_True by (rewrite length_app; lia).
  rewrite take_app_length, drop_app_length, bits_decode_encode. done.
Qed.
Next Obligation.
  intros stream it rest. unfold toy_next_item. destruct (take_ones stream) as [n r] eqn:E.
  apply take_ones_length in E. destruct r as [|[|[]|] r]; try done. case_decide; [|done].
  destruct (bits_decode (take n r)); [|done]. intros [= <- <-]. rewrite length_drop. simpl in E. lia.
Qed.

(** Two snapshots of one file: its content is chunk 1, its item chunk 2. *)
Definition sn_item : Item :=
  mkItem "f" RegularFile 420 0 0 None None 0 None None 2 [mkChunkRef (ex_read_id 1) 2 4] None None.
Definition sn_plain (id : ChunkId) : bytes := if decide (id = ex_read_id 1) then [7; 7] else encode_item sn_item.
Definition sn_engine : CryptoEngine := PlaintextEngine [].
Definition sn_blob (id : ChunkId) : bytes :=
  match compressed ← compress CNone (sn_plain id);
    pack_object_with_context sn_engine OChunkData (chunk_bytes id) compressed [] with
  | Ok blob => blob
  | Err _ => []
  end.
Definition sn_ix : ChunkIndex :=
  <[ex_read_id 1 := mkEntry 2 4 ex_read_pack 13]>
  {[ex_read_id 2 := mkEntry 2 (blen (sn_blob (ex_read_id 2))) ex_read_pack 21]}.
Definition sn_draws (n : nat) : Z * bytes := (1, replicate 12 0).
Definition sn_meta (name : string) : SnapshotMeta :=
  mkMeta name "host" "user" 0 0 (mkChunker 1 2 3) "" [ex_read_id 2] (mkStats 1 2 2 2 0) "" [] "".
Definition sn_id (n : Z) : SnapshotId := mkSnapshotId (id_of_byte n).
Definition sn_object (n : Z) (name : string) : bytes :=
  match pack_object_with_context sn_engine OSnapshotMeta (snapshot_bytes (sn_id n)) (mp_encode (sn_meta name)) [] with
  | Ok d => d
  | Err _ => []
  end.
Definition sn_entry (n : Z) (name : string) (t : Z) : SnapshotEntry := mkSnapshot name (sn_id n) t "" "" [] "host".
Definition sn_repo : Repository := mkRepo [sn_entry 3 "a" 0; sn_entry 4 "b" 100] sn_ix 9 false 0.
Definition sn_store : Store :=
  <["index" := match index_object sn_engine 9 (replicate 12 0) sn_ix with Ok d => d | Err _ => [] end]>
  (<[snapshot_storage_key (sn_id 3) := sn_object 3 "a"]>
  (<[snapshot_storage_key (sn_id 4) := sn_object 4 "b"]>
  {[pack_storage_key ex_read_pack := pack_of [sn_blob (ex_read_id 1); sn_blob (ex_read_id 2)]]})).

(** Counting, by evaluation. *)
Lemma references_count `{HexCodec} e `{MsgPack SnapshotMeta} `{ItemStream} plain s l ix :
  concat ((fun kv => key_refs e plain kv.1 kv.2) <$> map_to_list (snapshots_of s)) = l ->
  map_Forall (fun _ en => 1 <= refcount en) ix -> Forall (fun id => count_id id l <= rc ix id) l ->
  forall id, references e plain s id <= rc ix id.
Proof.
  intros Hl Hpos Hall id.
  assert (E : references e plain s id = count_id id l).
  { subst l. unfold references. clear. induction (map_to_list _) as [|kv l IH]; [done|].
    rewrite fmap_cons. cbn [concat sum_Z]. by rewrite count_id_app, IH. }
  rewrite E. destruct (decide (id ∈ l)) as [Hin|Hni]; [rewrite Forall_forall in Hall; by apply Hall|].
  assert (count_id id l = 0) as ->.
  { clear -Hni. induction l as [|x l IH]; [done|]. unfold count_id in *. simpl. rewrite decide_False by set_solver.
    rewrite IH; set_solver. }
  unfold rc. destruct (ix !! id) as [en|] eqn:Hen; simpl; [|done]. specialize (Hpos _ _ Hen). simpl in Hpos. lia.
Qed.

Lemma sn_covered : covered sn_engine sn_plain sn_store sn_ix.
Proof.
  constructor.
  - eexists _, 9. split; [reflexivity|]. vm_compute. reflexivity.
  - split; [by_eval|]. vm_compute. discriminate.
  - by_eval.
  - intros id en. unfold sn_ix. intros [[<- <-]|[_ [<- <-]%lookup_singleton_Some]]%lookup_insert_Some;
      exists [sn_blob (ex_read_id 1); sn_blob (ex_read_id 2)]; [exists 0%nat|exists 1%nat]; eexists;
      (split; [vm_compute; reflexivity|]); (split; [by_eval|]); (split; [reflexivity|]);
      split; vm_compute; reflexivity.
  - eapply references_count; [vm_compute; reflexivity|by_eval|by_eval].
Qed.

(** The object is deleted; the index is written, but the answer is lost. *)
Definition sn_faults : list fault := replicate 5 NoFault ++ [FailAfter].

Lemma delete_keeps_cover_witness :
  (let w := exec (delete_snapshot sn_engine sn_draws (mret tt) "a" false sn_repo (cache_new 100)) (mkWorld sn_store sn_faults) in
   intact sn_engine sn_plain [snapshot_storage_key (sn_id 3)] sn_store (objects w)) /\
  deleted sn_engine sn_plain sn_store sn_ix (sn_entry 3 "a" 0)
    (objects (exec (delete_snapshot sn_engine sn_draws (mret tt) "a" false sn_repo (cache_new 100)) (mkWorld sn_store []))).
Proof.
  assert (Hd : forall n : nat, u64 (sn_draws n).1 /\ length (sn_draws n).2 = NONCE_LEN).
  { intros n. split; [vm_compute; split; [discriminate|reflexivity]|reflexivity]. }
  assert (Hid : is_id (snapshot_bytes (sn_id 3))) by by_eval.
  assert (Hcs : cache_sound sn_plain (cache_new 100)) by (intros id d [=]).
  pose proof (delete_keeps_cover sn_engine sn_plain sn_draws (mret tt) Hd (fun w k _ => eq_refl) sn_store sn_ix "a" (sn_entry 3 "a" 0) false
    sn_repo (cache_new 100)) as Ht.
  split.
  - specialize (Ht sn_faults sn_covered eq_refl eq_refl Hcs eq_refl Hid). unfold exec. cbv zeta in *.
    destruct (delete_snapshot _ _ _ _ _ _ _ _) as [[out|er] w]; [by destruct Ht|exact Ht].
  - specialize (Ht [] sn_covered eq_refl eq_refl Hcs eq_refl Hid). unfold exec. cbv zeta in *.
    destruct (delete_snapshot _ _ _ _ _ _ _ (mkWorld sn_store [])) as [[out|er] w] eqn:E; [by destruct Ht|].
    exfalso. apply (f_equal fst) in E. vm_compute in E. discriminate E.
Defined.

(** Keep the last snapshot; the process dies when the index is written. *)
Definition sn_policy : RetentionConfig := mkRetention None (Some 1%nat) None None None None None.
Definition sn_prune (faults : list fault) : World :=
  exec (prune sn_engine sn_draws (mret tt) (mret tt) sn_policy [] [] false false 200 sn_repo (cache_new 100))
    (mkWorld sn_store faults).

Lemma prune_keeps_cover_witness :
  intact sn_engine sn_plain [snapshot_storage_key (sn_id 3)] sn_store
    (objects (sn_prune (replicate 3 NoFault ++ [Crash]))) /\
  pruned sn_engine sn_plain sn_store sn_ix [snapshot_storage_key (sn_id 3)] (objects (sn_prune [])).
Proof.
  assert (Hd : forall n : nat, u64 (sn_draws n).1 /\ length (sn_draws n).2 = NONCE_LEN).
  { intros n. split; [vm_compute; split; [discriminate|reflexivity]|reflexivity]. }
  assert (Hm : manifest_ok (manifest sn_repo)) by (constructor; by_eval).
  assert (Hcs : cache_sound sn_plain (cache_new 100)) by (intros id d [=]).
  destruct (decide_prune sn_policy [] [] 200 (manifest sn_repo)) as [ds|] eqn:Hds; [|vm_compute in Hds; discriminate Hds].
  assert (Hks : prune_keys (manifest sn_repo) (rev (pruned_names ds)) = [snapshot_storage_key (sn_id 3)]).
  { vm_compute in Hds. injection Hds as <-. vm_compute. reflexivity. }
  pose proof (prune_keeps_cover sn_engine sn_plain sn_draws (mret tt) Hd (fun w k _ => eq_refl) (mret tt) (fun w => eq_refl)
    sn_store sn_ix sn_policy [] [] false false 200 sn_repo (cache_new 100) ds) as Ht.
  rewrite Hks in Ht. unfold sn_prune, exec. split.
  - specialize (Ht (replicate 3 NoFault ++ [Crash]) sn_covered eq_refl eq_refl Hcs Hm Hds). cbv zeta in *.
    destruct (prune _ _ _ _ _ _ _ _ _ _ _ _ _) as [[out|er] w]; [by destruct Ht|exact Ht].
  - specialize (Ht [] sn_covered eq_refl eq_refl Hcs Hm Hds). cbv zeta in *.
    destruct (prune _ _ _ _ _ _ _ _ _ _ _ _ (mkWorld sn_store [])) as [[out|er] w] eqn:E; [by destruct Ht|].
    exfalso. apply (f_equal fst) in E. vm_compute in E. discriminate E.
Defined.

Lemma covered_snapshot_restores_witness :
  (exists c', computes sn_store (load_snapshot_items sn_engine sn_repo "b" (cache_new 0)) ([sn_item], c')) /\
  exists c', computes sn_store (read_chunk sn_engine sn_ix (ex_read_id 1) (cache_new 0)) ([7; 7], c').
Proof.
  assert (Hcs : cache_sound sn_plain (cache_new 0)) by (intros id d [=]).
  destruct (covered_snapshot_restores sn_engine sn_plain sn_store sn_ix sn_repo (cache_new 0) "b" (sn_entry 4 "b" 100)
    (sn_object 4 "b") (sn_meta "b") [sn_item] sn_covered) as [H1 H2].
  - exact eq_refl.
  - exact Hcs.
  - vm_compute. reflexivity.
  - by_eval.
  - vm_compute. reflexivity.
  - vm_compute. reflexivity.
  - vm_compute. reflexivity.
  - split; [exact H1|]. apply (H2 sn_item (mkChunkRef (ex_read_id 1) 2 4)); apply list_elem_of_here.
Defined.
