(* ===== verification/SnapshotCache.v ===== *)
(** * The cache of the snapshot list (crates/vykar-core/src/repo/snapshot_cache.rs)

    The list of snapshots is rebuilt from the objects under [snapshots/]; a
    local file remembers those already read.  The specification is
    [listing], which reads every object; the theorem says that going through
    any truthful cache file gives the same list. *)

From S2P Require Import Prelude Types Storage ChunkIndex Pack.
From S2P Require Import Crypto Format Compress DedupCache Retention Lock Repo ReadPath Snapshots.
#[local] Open Scope string_scope.
#[local] Open Scope list_scope.
#[local] Open Scope Z_scope.

Definition SNAPSHOT_CACHE_CONTEXT : bytes := str_bytes "snapshot_cache".

(** By the hex form of the identifier. *)
Abbreviation SnapshotListCache := (gmap string SnapshotEntry).

Lemma StronglySorted_impl {A} (R R' : A -> A -> Prop) l :
  (forall a b, R a b -> R' a b) -> StronglySorted R l -> StronglySorted R' l.
Proof. intros HR. induction 1 as [|a l Hs IH Hf]; constructor; [done|]. eapply Forall_impl; eauto. Qed.

Section SnapshotCache.
Context `{Hhex : HexCodec} (e : CryptoEngine) `{Hmeta : MsgPack SnapshotMeta} `{Hcache : MsgPack SnapshotListCache}.

(** What the file holds; an empty cache on any error. *)
Definition cache_load (file : option bytes) : SnapshotListCache :=
  match file with
  | None => ∅
  | Some data =>
      match unpack_object_expect_with_context e data OSnapshotCache SNAPSHOT_CACHE_CONTEXT with
      | Err _ => ∅
      | Ok plaintext => default ∅ (mp_decode plaintext)
      end
  end.

(** The file after saving; [written] tells whether the file system let it. *)
Definition cache_save (written : bool) (nonce : bytes) (file : option bytes) (cache : SnapshotListCache) : option bytes :=
  match pack_object_with_context e OSnapshotCache SNAPSHOT_CACHE_CONTEXT (mp_encode cache) nonce with
  | Ok packed => if written then Some packed else file
  | Err _ => file
  end.

Definition by_time (a b : SnapshotEntry) : bool := snap_time a <=? snap_time b.
Definition to_entries (cache : SnapshotListCache) : list SnapshotEntry := sort_by by_time (map_to_list cache).*2.

Definition remote_id (ids : gmap string string) (key : string) : gmap string string :=
  match strip_prefix key "snapshots/" with
  | Some id_hex => if String.eqb id_hex "" then ids else <[id_hex := key]> ids
  | None => ids
  end.
Definition remote_ids (keys : list string) : gmap string string := foldl remote_id ∅ keys.

Definition entry_of_meta (id : SnapshotId) (m : SnapshotMeta) : SnapshotEntry :=
  mkSnapshot (meta_name m) id (meta_time m) (meta_source_label m) (meta_label m) (meta_source_paths m) (meta_hostname m).

Definition fetch_entry (strict_io : bool) (cache : SnapshotListCache) (id_hex storage_key : string) : M SnapshotListCache :=
  match cache !! id_hex with
  | Some _ => mret cache
  | None =>
      match snapshot_from_hex id_hex with
      | Err _ => mret cache
      | Ok snapshot_id =>
          r ← try_ (get storage_key);
          match r with
          | Ok (Some blob) =>
              match decode_snapshot_meta e snapshot_id blob with
              | Ok meta => mret (<[id_hex := entry_of_meta snapshot_id meta]> cache)
              | Err _ => mret cache
              end
          | Ok None => if strict_io then fail (Other "snapshot listed but not found") else mret cache
          | Err _ => if strict_io then fail (Other "failed to fetch snapshot") else mret cache
          end
      end
  end.

Fixpoint fetch_entries (strict_io : bool) (cache : SnapshotListCache) (ids : list (string * string)) : M SnapshotListCache :=
  match ids with
  | [] => mret cache
  | (id_hex, key) :: ids' => cache' ← fetch_entry strict_io cache id_hex key; fetch_entries strict_io cache' ids'
  end.

(** The entries and the cache file. *)
Definition refresh_snapshot_cache (file : option bytes) (strict_io written : bool) (nonce : bytes) :
    M (list SnapshotEntry * option bytes) :=
  let cache := cache_load file in
  remote_keys ← list_keys "snapshots/";
  let ids := remote_ids remote_keys in
  let cache := filter (fun kv => is_Some (ids !! kv.1)) cache in
  cache ← fetch_entries strict_io cache (map_to_list ids);
  mret (to_entries cache, cache_save written nonce file cache).

(** ** The specification: every object is read *)

Definition snapshot_key (id_hex : string) : string := "snapshots/" +:+ id_hex.

Definition read_object (id_hex : string) (blob : bytes) : option SnapshotEntry :=
  match snapshot_from_hex id_hex with
  | Err _ => None
  | Ok id => match decode_snapshot_meta e id blob with Ok meta => Some (entry_of_meta id meta) | Err _ => None end
  end.

Definition listing (s : Store) (id_hex : string) : option SnapshotEntry :=
  if String.eqb id_hex "" then None else blob ← s !! snapshot_key id_hex; read_object id_hex blob.

(** A cache is truthful when it says of no object what the object does not. *)
Definition truthful (s : Store) (cache : SnapshotListCache) : Prop :=
  forall id_hex en, cache !! id_hex = Some en -> is_Some (s !! snapshot_key id_hex) -> listing s id_hex = Some en.

Lemma remote_ids_spec keys id_hex :
  remote_ids keys !! id_hex =
    if decide (id_hex <> "" /\ snapshot_key id_hex ∈ keys) then Some (snapshot_key id_hex) else None.
Proof.
  unfold remote_ids. induction keys as [|k keys IH] using rev_ind; [by rewrite decide_False by set_solver|].
  rewrite foldl_app. cbn [foldl]. unfold remote_id at 1. destruct (strip_prefix k "snapshots/") as [h|] eqn:Hk.
  - apply strip_prefix_Some in Hk as ->. fold (snapshot_key h). destruct (String.eqb_spec h "") as [->|Hne].
    + rewrite IH. apply decide_ext. set_solver.
    + rewrite lookup_insert. destruct (decide (h = id_hex)) as [->|Hd]; [rewrite decide_True by set_solver; done|].
      rewrite IH. apply decide_ext. rewrite elem_of_app, list_elem_of_singleton.
      assert (snapshot_key id_hex <> snapshot_key h); [|tauto]. unfold snapshot_key. intros E. apply Hd.
      apply (f_equal (fun k => strip_prefix k "snapshots/")) in E. rewrite !strip_prefix_app in E. congruence.
  - rewrite IH. apply decide_ext. rewrite elem_of_app, list_elem_of_singleton.
    assert (snapshot_key id_hex <> k); [|tauto]. intros <-. unfold snapshot_key in Hk. by rewrite strip_prefix_app in Hk.
Qed.

Lemma list_snapshots_spec (s : Store) id_hex :
  snapshot_key id_hex ∈ List.filter (fun k => starts_with k "snapshots/") (map_to_list s).*1 <-> is_Some (s !! snapshot_key id_hex).
Proof.
  rewrite list_elem_of_In, List.filter_In, <- list_elem_of_In, list_elem_of_fmap. split.
  - intros [([k d] & -> & Hin%elem_of_map_to_list) _]. by eexists.
  - intros [d Hd]. split; [exists (snapshot_key id_hex, d); split; [done|by apply elem_of_map_to_list]|].
    apply (starts_with_strip _ _ id_hex), strip_prefix_app.
Qed.

(** ** The refinement *)

Section Refresh.
Context (s : Store).

(** The cache while it is filled: nothing false, and with the objects that
    have been looked at. *)
Definition filling (strict : bool) (seen : list string) (cache : SnapshotListCache) : Prop :=
  (forall h en, cache !! h = Some en -> listing s h = Some en) /\
  (strict = true -> forall h, h ∈ seen -> cache !! h = listing s h).

Lemma fetch_entry_triple strict seen cache h :
  filling strict seen cache -> h <> "" -> is_Some (s !! snapshot_key h) ->
  triple (fun st => st = s) (fetch_entry strict cache h (snapshot_key h))
    (fun c st => st = s /\ filling strict (seen ++ [h]) c) (fun st => st = s).
Proof.
  intros [H1 H2] Hh [d Hd].
  assert (Hl : listing s h = read_object h d).
  { unfold listing. destruct (String.eqb_spec h ""); [done|]. by rewrite Hd. }
  assert (Hsame : forall c', (forall k, k <> h -> c' !! k = cache !! k) -> (c' !! h = cache !! h \/ c' !! h = listing s h) ->
    (strict = true -> c' !! h = listing s h) -> filling strict (seen ++ [h]) c').
  { intros c' Hk Hc Hs. split.
    - intros k en. destruct (decide (k = h)) as [->|Hne]; [|rewrite Hk by done; apply H1].
      destruct Hc as [-> | ->]; [apply H1|done].
    - intros Hst k [Hin| ->%list_elem_of_singleton]%elem_of_app; [|by apply Hs].
      destruct (decide (k = h)) as [->|Hne]; [by apply Hs|]. rewrite Hk by done. by apply H2. }
  unfold fetch_entry. destruct (cache !! h) as [en|] eqn:Hc.
  { apply triple_ret. intros st ->. split; [done|]. apply Hsame; [done|by left|]. rewrite Hc. by rewrite (H1 _ _ Hc). }
  unfold read_object in Hl. destruct (snapshot_from_hex h) as [id|er].
  2:{ apply triple_ret. intros st ->. split; [done|]. apply Hsame; [done|by left|]. by rewrite Hc, Hl. }
  eapply triple_bind with (R := fun r st => st = s /\ match r with Ok o => o = Some d | Err _ => True end).
  { eapply triple_weaken; [apply triple_try with (E' := fun st => st = s), triple_reading with (E := fun st => st = s); done|done| |done].
    intros [o|er] st; [|done]. by intros [-> ->]. }
  intros r. apply triple_pure. intros Hr. destruct r as [o|er].
  - subst o. destruct (decode_snapshot_meta e id d) as [meta|er] eqn:Hm; apply triple_ret; intros st ->; (split; [done|]).
    + apply Hsame; [intros k Hk; by rewrite lookup_insert_ne|right|intros _]; rewrite lookup_insert_eq; by rewrite Hl.
    + apply Hsame; [done|by left|]. by rewrite Hc, Hl.
  - destruct strict; [by apply triple_fail|]. apply triple_ret. intros st ->. split; [done|]. apply Hsame; [done|by left|done].
Qed.

Lemma fetch_entries_triple strict ids seen cache :
  filling strict seen cache -> Forall (fun p => p.1 <> "" /\ p.2 = snapshot_key p.1 /\ is_Some (s !! snapshot_key p.1)) ids ->
  triple (fun st => st = s) (fetch_entries strict cache ids)
    (fun c st => st = s /\ filling strict (seen ++ ids.*1) c) (fun st => st = s).
Proof.
  intros Hf Hids. revert seen cache Hf. induction Hids as [|[h k] ids (Hh & Hk & Hs) Hids IH]; intros seen cache Hf; cbn [fetch_entries].
  { apply triple_ret. intros st ->. by rewrite app_nil_r. }
  cbn [fst snd] in *. subst k. eapply triple_bind; [by apply (fetch_entry_triple strict seen)|]. intros c. apply triple_pure. intros Hc.
  change (((h, snapshot_key h) :: ids).*1) with ([h] ++ ids.*1). rewrite app_assoc. by apply IH.
Qed.
End Refresh.

Definition exact (s : Store) (cache : SnapshotListCache) : Prop := forall h, cache !! h = listing s h.

Lemma refresh_triple s file strict written nonce :
  truthful s (cache_load file) ->
  triple (fun st => st = s) (refresh_snapshot_cache file strict written nonce)
    (fun r st => st = s /\ exists cache, r = (to_entries cache, cache_save written nonce file cache) /\
       (forall h en, cache !! h = Some en -> listing s h = Some en) /\ (strict = true -> exact s cache)) (fun st => st = s).
Proof.
  intros Ht. unfold refresh_snapshot_cache. cbv zeta. eapply triple_bind; [apply triple_reading with (E := fun st => st = s); done|].
  intros keys. cbv beta. set (ids := remote_ids keys).
  intros w [Hw Hkeys]. rewrite Hw in Hkeys. subst keys.
  assert (Hids : forall h, ids !! h = if decide (h <> "" /\ is_Some (s !! snapshot_key h)) then Some (snapshot_key h) else None).
  { intros h. unfold ids. rewrite remote_ids_spec. apply decide_ext. by rewrite list_snapshots_spec. }
  assert (Hnone : forall h, ids !! h = None -> listing s h = None).
  { intros h. rewrite Hids. case_decide as Hd; [done|]. intros _. unfold listing. destruct (String.eqb_spec h ""); [done|].
    destruct (s !! snapshot_key h) eqn:E; [|done]. exfalso. apply Hd. split; [done|by eexists]. }
  set (cache := filter _ _).
  assert (Hf : filling s strict [] cache).
  { split; [|by intros _ h ?%elem_of_nil]. intros h en [Hc [k Hk]]%map_lookup_filter_Some. cbn [fst] in Hk.
    apply Ht; [done|]. rewrite Hids in Hk. case_decide as Hd; [|done]. apply Hd. }
  pose proof (fetch_entries_triple s strict (map_to_list ids) [] cache Hf) as Htr.
  assert (Hall : Forall (fun p => p.1 <> "" /\ p.2 = snapshot_key p.1 /\ is_Some (s !! snapshot_key p.1)) (map_to_list ids)).
  { apply Forall_forall. intros [h k] Hin%elem_of_map_to_list. rewrite Hids in Hin. case_decide as Hd; [|done].
    injection Hin as <-. by destruct Hd. }
  specialize (Htr Hall w Hw). unfold mbind, M_bind. destruct (fetch_entries _ _ _ w) as [[c|er] w']; [|done].
  destruct Htr as [Hw' [Hc1 Hc2]]. split; [exact Hw'|]. exists c. split; [done|]. split; [done|]. intros Hst h.
  destruct (ids !! h) eqn:E.
  - apply Hc2; [done|]. apply list_elem_of_fmap. exists (h, s0). split; [done|]. by apply elem_of_map_to_list.
  - rewrite (Hnone h E). destruct (c !! h) eqn:Ec; [|done]. apply Hc1 in Ec. by rewrite (Hnone h E) in Ec.
Qed.

Lemma load_save `{LawfulEngine e} written nonce file cache :
  length nonce = NONCE_LEN ->
  cache_load (cache_save written nonce file cache) = cache \/
  cache_load (cache_save written nonce file cache) = cache_load file.
Proof.
  intros Hn. unfold cache_save. destruct (pack_object_with_context _ _ _ _ _) as [packed|er] eqn:Hp; [|by right].
  destruct written; [|by right]. left. unfold cache_load. rewrite (unpack_expected e _ _ _ _ _ Hn Hp). by rewrite mp_decode_encode.
Qed.

Lemma fetch_entries_healthy s strict ids cache :
  Forall (fun p => is_Some (s !! p.2)) ids ->
  exists c, fetch_entries strict cache ids (mkWorld s []) = (Ok c, mkWorld s []).
Proof.
  intros Hids. revert cache. induction Hids as [|[h k] ids [d Hd] Hids IH]; intros cache; cbn [fetch_entries]; [by eexists|].
  cbn [snd] in Hd. unfold fetch_entry. destruct (cache !! h); [apply IH|]. destruct (snapshot_from_hex h) as [id|]; [|apply IH].
  unfold mbind at 1 2, M_bind, try_, get, reading, next_fault. cbn [faults objects]. rewrite Hd.
  destruct (decode_snapshot_meta e id d); apply IH.
Qed.

(** C29. The cached snapshot list is the list of the stored snapshots.  From
    any local cache file that says nothing false about a stored object, the
    refresh changes no object and leaves such a file again; in strict mode
    the entries it answers are, sorted by time, exactly those of the readable
    objects under [snapshots/], so that no stored name can be missed; in the
    lenient mode they are some of these.  Without storage faults it
    succeeds. *)
Theorem refresh_refines `{LawfulEngine e} s faults file strict written nonce :
  length nonce = NONCE_LEN -> truthful s (cache_load file) ->
  let '(r, w') := refresh_snapshot_cache file strict written nonce (mkWorld s faults) in
  objects w' = s /\ (faults = [] -> exists p, r = Ok p) /\
  forall entries file', r = Ok (entries, file') ->
    truthful s (cache_load file') /\ StronglySorted (fun a b => snap_time a <= snap_time b) entries /\
    exists cache : SnapshotListCache, entries ≡ₚ (map_to_list cache).*2 /\
      (forall h en, cache !! h = Some en -> listing s h = Some en) /\
      (strict = true -> forall h, cache !! h = listing s h).
Proof.
  intros Hn Ht. pose proof (refresh_triple s file strict written nonce Ht (mkWorld s faults) eq_refl) as Hr.
  destruct (refresh_snapshot_cache _ _ _ _ _) as [r w'] eqn:E. split; [destruct r; [apply Hr|exact Hr]|]. split.
  - intros ->. unfold refresh_snapshot_cache in E. cbv zeta in E. unfold mbind, M_bind, list_keys, reading, next_fault in E. cbn [Storage.faults objects] in E.
    set (ids := remote_ids _) in E. destruct (fetch_entries_healthy s strict (map_to_list ids) (filter (fun kv => is_Some (ids !! kv.1)) (cache_load file)))
      as [c Hc].
    + apply Forall_forall. intros [h k] Hin%elem_of_map_to_list. cbn [snd]. unfold ids in Hin. rewrite remote_ids_spec in Hin.
      case_decide as Hd; [|done]. injection Hin as <-. destruct Hd as [_ Hd]. by apply list_snapshots_spec in Hd.
    + rewrite Hc in E. injection E as <- <-. by eexists.
  - intros entries file' ->. destruct Hr as [_ (cache & [= -> ->] & H1 & H2)]. split; [|split].
    + destruct (load_save written nonce file cache Hn) as [-> | ->]; [|done]. intros h en Hh _. by apply H1.
    + eapply StronglySorted_impl; [|apply sort_by_sorted].
      * intros a b Hab. by apply Z.leb_le.
      * intros a b. unfold by_time. rewrite !Z.leb_le. lia.
      * intros a b c. unfold by_time. rewrite !Z.leb_le. lia.
    + exists cache. split; [apply sort_by_perm|]. done.
Qed.
End SnapshotCache.

(** ** Witness: two snapshots, one of them in the cache already *)

#[export] Program Instance SnapshotEntry_countable : Countable SnapshotEntry :=
  inj_countable' (fun s => (snap_name s, snap_id s, snap_time s, source_label s, snap_label s, source_paths s, hostname s))
    (fun t => mkSnapshot t.1.1.1.1.1.1 t.1.1.1.1.1.2 t.1.1.1.1.2 t.1.1.1.2 t.1.1.2 t.1.2 t.2) _.
Next Obligation. by intros []. Qed.
#[export] Instance toy_list_msgpack : MsgPack SnapshotListCache :=
  {| mp_encode := bits_encode; mp_decode := bits_decode; mp_decode_encode := bits_decode_encode |}.

Definition sc_hex (n : Z) : string := to_hex (snapshot_bytes (sn_id n)).
Definition sc_cache : SnapshotListCache := match listing sn_engine sn_store (sc_hex 3) with Some en => {[sc_hex 3 := en]} | None => ∅ end.
Definition sc_file : option bytes := cache_save sn_engine true (replicate 12 0) None sc_cache.

Lemma refresh_refines_witness :
  let '(r, w') := refresh_snapshot_cache sn_engine sc_file true true (replicate 12 0) (mkWorld sn_store []) in
  exists entries file', r = Ok (entries, file') /\ snap_name <$> entries = ["a"; "b"] /\ truthful sn_engine sn_store (cache_load sn_engine file').
Proof.
  assert (Ht : truthful sn_engine sn_store (cache_load sn_engine sc_file)).
  { assert (Hl : cache_load sn_engine sc_file = sc_cache) by (vm_compute; reflexivity). rewrite Hl. intros h en. unfold sc_cache.
    destruct (listing sn_engine sn_store (sc_hex 3)) as [en'|] eqn:E; [|by rewrite lookup_empty].
    intros [<- <-]%lookup_singleton_Some _. exact E. }
  pose proof (refresh_refines sn_engine sn_store [] sc_file true true (replicate 12 0) eq_refl Ht) as H.
  destruct (refresh_snapshot_cache _ _ _ _ _ _) as [r w'] eqn:E. destruct H as (_ & Hok & Hr).
  destruct (Hok eq_refl) as [[entries file'] ->]. exists entries, file'. split; [reflexivity|].
  destruct (Hr entries file' eq_refl) as (Hf & _ & _). split; [|exact Hf].
  assert (Hn : match (refresh_snapshot_cache sn_engine sc_file true true (replicate 12 0) (mkWorld sn_store [])).1 with
    | Ok p => snap_name <$> p.1 = ["a"; "b"] | Err _ => False end) by (vm_compute; reflexivity).
  by rewrite E in Hn.
Defined.
