(* ===== verification/WriteSession.v ===== *)
(** * The write session (crates/vykar-core/src/repo/write_session.rs, and the
      write path of repo/mod.rs)

    During a backup chunks are looked up in the dedup structure, referenced
    when they are known and otherwise encrypted and added to a pack; full
    packs are sealed and uploaded in the background, and what a pack holds is
    recorded in the delta for the index and in a journal from which an
    interrupted backup can be resumed.

    An operation keeps the session it has changed also when it fails, since
    the abort path works on it: [WM] is the storage monad of Storage.v with
    the session as a state.  An upload takes effect when its thread is
    joined.  The inputs of one call, clock, thread states and nonce, are a
    [Tick].  The target size of data packs is computed in floating point: an
    argument [data_target]. *)

From S2P Require Import Prelude Types Storage ChunkIndex Pack.
From S2P Require Import Crypto Format Compress DedupCache Retention Lock Repo ReadPath.
#[local] Open Scope string_scope.
#[local] Open Scope list_scope.
#[local] Open Scope Z_scope.

Definition UPLOAD_QUEUE_HEADROOM : nat := 2.
Definition JOURNAL_WRITE_INTERVAL : nat := 8.
Definition DEFAULT_SESSION_ID : string := "default".
Definition PENDING_INDEX_OBJECT_CONTEXT : bytes := str_bytes "pending_index".
Definition RECOVERY_STALE_SECS : Z := 45 * 60.
Definition SESSION_REFRESH_SECS : Z := 15 * 60.

Record DumpRollbackTracker := mkTracker {
  delta_checkpoint : IndexDeltaCheckpoint;
  dedup_inserts : list ChunkId;
  promoted_recovered : list (ChunkId * RecoveredChunkEntry);
  journal_pack_ids : list PackId;
  data_pack_target_size : Z;
}.

Section Data.
Context {Hxor : Xor8}.

(** An upload is the key and the data its thread puts. *)
Record WriteSessionState := mkWS {
  data_pack_writer : PackWriter;
  tree_pack_writer : PackWriter;
  pending_uploads : list (string * bytes);
  max_in_flight_uploads : nat;
  dedup_index : option DedupIndex;
  tiered_dedup : option TieredDedupIndex;
  index_delta : option IndexDelta;
  pending_journal : PendingIndexJournal;
  pending_journal_last_written : nat;
  recovered_chunks : gmap ChunkId RecoveredChunkEntry;
  recovered_index_keys : list string;
  persisted_pack_count : nat;
  session_packs_flushed : nat;
  session_id : string;
  last_session_refresh : Z;
  dump_tracker : option DumpRollbackTracker;
}.

Definition ws_new (data_target tree_target : Z) (max_in_flight : nat) (now : Z) : WriteSessionState :=
  mkWS (writer_new Data data_target) (writer_new Tree tree_target) [] max_in_flight None None None ∅ 0 ∅ [] 0 0
    DEFAULT_SESSION_ID now None.

(** ** Field updates *)

Definition set_writer (pt : PackType) (w : PackWriter) (s : WriteSessionState) : WriteSessionState :=
  mkWS (match pt with Data => w | Tree => data_pack_writer s end)
    (match pt with Data => tree_pack_writer s | Tree => w end)
    (pending_uploads s) (max_in_flight_uploads s) (dedup_index s) (tiered_dedup s) (index_delta s) (pending_journal s)
    (pending_journal_last_written s) (recovered_chunks s) (recovered_index_keys s) (persisted_pack_count s)
    (session_packs_flushed s) (session_id s) (last_session_refresh s) (dump_tracker s).
Definition set_uploads (u : list (string * bytes)) (s : WriteSessionState) : WriteSessionState :=
  mkWS (data_pack_writer s) (tree_pack_writer s) u (max_in_flight_uploads s) (dedup_index s) (tiered_dedup s)
    (index_delta s) (pending_journal s) (pending_journal_last_written s) (recovered_chunks s) (recovered_index_keys s)
    (persisted_pack_count s) (session_packs_flushed s) (session_id s) (last_session_refresh s) (dump_tracker s).
Definition set_dedup (dd : option DedupIndex) (t : option TieredDedupIndex) (d : option IndexDelta)
    (s : WriteSessionState) : WriteSessionState :=
  mkWS (data_pack_writer s) (tree_pack_writer s) (pending_uploads s) (max_in_flight_uploads s) dd t d
    (pending_journal s) (pending_journal_last_written s) (recovered_chunks s) (recovered_index_keys s)
    (persisted_pack_count s) (session_packs_flushed s) (session_id s) (last_session_refresh s) (dump_tracker s).
Definition set_journal (j : PendingIndexJournal) (n : nat) (s : WriteSessionState) : WriteSessionState :=
  mkWS (data_pack_writer s) (tree_pack_writer s) (pending_uploads s) (max_in_flight_uploads s) (dedup_index s)
    (tiered_dedup s) (index_delta s) j n (recovered_chunks s) (recovered_index_keys s)
    (persisted_pack_count s) (session_packs_flushed s) (session_id s) (last_session_refresh s) (dump_tracker s).
Definition set_recovered (m : gmap ChunkId RecoveredChunkEntry) (ks : list string) (s : WriteSessionState) :
    WriteSessionState :=
  mkWS (data_pack_writer s) (tree_pack_writer s) (pending_uploads s) (max_in_flight_uploads s) (dedup_index s)
    (tiered_dedup s) (index_delta s) (pending_journal s) (pending_journal_last_written s) m ks
    (persisted_pack_count s) (session_packs_flushed s) (session_id s) (last_session_refresh s) (dump_tracker s).
Definition set_counts (persisted flushed : nat) (s : WriteSessionState) : WriteSessionState :=
  mkWS (data_pack_writer s) (tree_pack_writer s) (pending_uploads s) (max_in_flight_uploads s) (dedup_index s)
    (tiered_dedup s) (index_delta s) (pending_journal s) (pending_journal_last_written s) (recovered_chunks s)
    (recovered_index_keys s) persisted flushed (session_id s) (last_session_refresh s) (dump_tracker s).
Definition set_refreshed (t : Z) (s : WriteSessionState) : WriteSessionState :=
  mkWS (data_pack_writer s) (tree_pack_writer s) (pending_uploads s) (max_in_flight_uploads s) (dedup_index s)
    (tiered_dedup s) (index_delta s) (pending_journal s) (pending_journal_last_written s) (recovered_chunks s)
    (recovered_index_keys s) (persisted_pack_count s) (session_packs_flushed s) (session_id s) t (dump_tracker s).
Definition set_tracker (o : option DumpRollbackTracker) (s : WriteSessionState) : WriteSessionState :=
  mkWS (data_pack_writer s) (tree_pack_writer s) (pending_uploads s) (max_in_flight_uploads s) (dedup_index s)
    (tiered_dedup s) (index_delta s) (pending_journal s) (pending_journal_last_written s) (recovered_chunks s)
    (recovered_index_keys s) (persisted_pack_count s) (session_packs_flushed s) (session_id s)
    (last_session_refresh s) o.
Definition writer_of (pt : PackType) (s : WriteSessionState) : PackWriter :=
  match pt with Data => data_pack_writer s | Tree => tree_pack_writer s end.

(** The index of the repository and the session; the other fields of the
    repository play no part in the write path. *)
Record Session := mkSess {
  s_index : ChunkIndex;
  s_dirty : bool;
  s_ws : WriteSessionState;
}.

(** ** The monad *)

Definition WM (A : Type) : Type := Session -> World -> res A * (Session * World).

End Data.

#[export] Instance WM_ret `{Xor8} : MRet WM := fun A a s w => (Ok a, (s, w)).
#[export] Instance WM_bind `{Xor8} : MBind WM := fun A B f m s w =>
  match m s w with
  | (Ok a, (s', w')) => f a s' w'
  | (Err er, (s', w')) => (Err er, (s', w'))
  end.

Section Monad.
Context {Hxor : Xor8}.
Definition wfail {A} (er : VykarError) : WM A := fun s w => (Err er, (s, w)).
Definition wlift {A} (r : res A) : WM A := fun s w => (r, (s, w)).
(** A storage call. *)
Definition wdo {A} (m : M A) : WM A := fun s w => let '(r, w') := m w in (r, (s, w')).
Definition wget : WM Session := fun s w => (Ok s, (s, w)).
Definition wput (s : Session) : WM unit := fun _ w => (Ok tt, (s, w)).
Definition modify_ws (f : WriteSessionState -> WriteSessionState) : WM unit := fun s w =>
  (Ok tt, (mkSess (s_index s) (s_dirty s) (f (s_ws s)), w)).
(** [if let Err(e) = m]. *)
Definition wtry {A} (m : WM A) : WM (res A) := fun s w => let '(r, sw) := m s w in (Ok r, sw).
End Monad.

(** The inputs of one call. *)
Record Tick := mkTick {
  tk_now : Z;
  tk_env : Env;
  tk_finished : string -> bool;
  tk_nonce : bytes;
}.

(** ** Operations *)

Section Write.
Context `{Hhex : HexCodec} `{Hblake : Blake2b} {Hxor : Xor8} (e : CryptoEngine) `{Hcodecs : Codecs}.
Context `{Hjournal : MsgPack (list PendingPackEntry)}.
Context `{Hljson : Json LockEntry} `{Hsjson : Json SessionEntry} `{Hrfc : Rfc3339}.
Context (data_target : nat -> Z).

Definition pending_index_key (s : WriteSessionState) : string := session_index_key (session_id s).

(** *** The journal *)

Definition write_pending_index (nonce : bytes) (s : WriteSessionState) : M unit :=
  let wire := to_wire (pending_journal s) in
  compressed ← lift (compress (CZstd 3) (mp_encode wire));
  packed ← lift (pack_object_with_context e OPendingIndex PENDING_INDEX_OBJECT_CONTEXT compressed nonce);
  put (pending_index_key s) packed.

Definition write_pending_index_best_effort (tk : Tick) : WM unit :=
  s ← wget;
  let ws := s_ws s in
  if (size (pending_journal ws) =? 0)%nat then mret tt
  else
    r ← wtry (wdo (write_pending_index (tk_nonce tk) ws));
    match r with
    | Ok _ => modify_ws (set_journal (pending_journal ws) (size (pending_journal ws)))
    | Err _ => mret tt
    end.

Definition maybe_write_pending_index (tk : Tick) : WM unit :=
  s ← wget;
  if (pending_journal_last_written (s_ws s) + JOURNAL_WRITE_INTERVAL <=? size (pending_journal (s_ws s)))%nat
  then write_pending_index_best_effort tk
  else mret tt.

(** How recovery reads a journal; [None] for one that is corrupt. *)
Definition decode_journal (data : bytes) : option (list PendingPackEntry) :=
  match unpack_object_expect_with_context e data OPendingIndex PENDING_INDEX_OBJECT_CONTEXT with
  | Err _ => None
  | Ok compressed =>
      match decompress_metadata compressed with
      | Err _ => None
      | Ok serialized => mp_decode serialized
      end
  end.

(** *** Uploads *)

(** [Vec::swap_remove] at a position in range. *)
Definition swap_remove {A} (i : nat) (l : list A) : list A :=
  match last l with
  | None => []
  | Some x => let init := take (length l - 1) l in if (i <? length init)%nat then <[i := x]> init else init
  end.

(** [JoinHandle::join]: the upload has happened. *)
Definition join (u : string * bytes) : WM unit := wdo (put u.1 u.2).

(** Every turn removes an upload or moves on: as many turns as uploads. *)
Fixpoint drain_loop (fuel : nat) (tk : Tick) (i : nat) : WM unit :=
  match fuel with
  | O => mret tt
  | S fuel' =>
      s ← wget;
      let ups := pending_uploads (s_ws s) in
      match ups !! i with
      | None => mret tt
      | Some u =>
          if tk_finished tk u.1 then
            _ ← modify_ws (set_uploads (swap_remove i ups));
            _ ← join u;
            drain_loop fuel' tk i
          else drain_loop fuel' tk (S i)
      end
  end.

Definition drain_finished_uploads (tk : Tick) : WM unit :=
  s ← wget;
  _ ← drain_loop (length (pending_uploads (s_ws s))) tk 0;
  maybe_write_pending_index tk.

(** All handles are joined; the first error is kept. *)
Fixpoint join_all (ups : list (string * bytes)) (first_err : option VykarError) : WM (option VykarError) :=
  match ups with
  | [] => mret first_err
  | u :: rest =>
      r ← wtry (join u);
      join_all rest (match first_err, r with None, Err er => Some er | _, _ => first_err end)
  end.

Definition wait_pending_uploads (tk : Tick) : WM unit :=
  s ← wget;
  first_err ← join_all (pending_uploads (s_ws s)) None;
  _ ← modify_ws (set_uploads []);
  _ ← write_pending_index_best_effort tk;
  match first_err with Some er => wfail er | None => mret tt end.

Definition maybe_refresh_session (tk : Tick) : WM unit :=
  s ← wget;
  if negb (String.eqb (session_id (s_ws s)) DEFAULT_SESSION_ID)
     && (SESSION_REFRESH_SECS <=? tk_now tk - last_session_refresh (s_ws s))
  then
    _ ← wdo (refresh_session (tk_env tk) (session_id (s_ws s)));
    modify_ws (set_refreshed (tk_now tk))
  else mret tt.

Definition cap_pending_uploads (tk : Tick) : WM unit :=
  _ ← drain_finished_uploads tk;
  _ ← maybe_refresh_session tk;
  s ← wget;
  let ups := pending_uploads (s_ws s) in
  if (max_in_flight_uploads (s_ws s) + UPLOAD_QUEUE_HEADROOM <=? length ups)%nat then
    match ups with
    | [] => mret tt
    | u :: _ =>
        _ ← modify_ws (set_uploads (swap_remove 0 ups));
        _ ← join u;
        maybe_write_pending_index tk
    end
  else mret tt.

(** *** Sealed packs *)

Definition track_insert (id : ChunkId) (s : WriteSessionState) : WriteSessionState :=
  match dump_tracker s with
  | None => s
  | Some t => set_tracker (Some (mkTracker (delta_checkpoint t) (dedup_inserts t ++ [id]) (promoted_recovered t)
      (journal_pack_ids t) (data_pack_target_size t))) s
  end.

(** One turn of each of the three loops. *)
Definition apply_sealed_entry (pk : PackId) (s : Session) (en : PackedChunkEntry) : Session :=
  let ws := s_ws s in
  let id := pc_chunk_id en in
  let delta := add_new_entry id (pc_stored_size en) pk (pc_offset en) (pc_refcount en) <$> index_delta ws in
  match tiered_dedup ws, dedup_index ws with
  | Some t, dd =>
      mkSess (s_index s) (s_dirty s)
        (track_insert id (set_dedup dd (Some (tiered_insert id (pc_stored_size en) t)) delta ws))
  | None, Some dd =>
      mkSess (s_index s) (s_dirty s)
        (track_insert id (set_dedup (Some (<[id := pc_stored_size en]> dd)) None delta ws))
  | None, None =>
      let ix := add id (pc_stored_size en) pk (pc_offset en) (s_index s) in
      mkSess (Nat.iter (Z.to_nat (pc_refcount en - 1)) (increment_refcount id) ix) true (track_insert id ws)
  end.

Definition apply_sealed_entries (pk : PackId) (entries : list PackedChunkEntry) (s : Session) : Session :=
  foldl (apply_sealed_entry pk) s entries.

Definition journal_chunk (en : PackedChunkEntry) : PendingChunkEntry :=
  mkPendingChunk (pc_chunk_id en) (pc_stored_size en) (pc_offset en).

(** What is noted of a sealed pack before its entries are applied: the
    emptied writer, the pack count with the target size that follows from it,
    the journal, and the pack's identifier for a rollback. *)
Definition note_sealed (pt : PackType) (sp : SealedPack) (w : PackWriter) (ws : WriteSessionState) : WriteSessionState :=
  let ws := set_writer pt w ws in
  let ws :=
    match pt with
    | Data =>
        let ws := set_counts (persisted_pack_count ws) (S (session_packs_flushed ws)) ws in
        let total := (persisted_pack_count ws + session_packs_flushed ws)%nat in
        set_writer Data (set_target_size (data_target total) (data_pack_writer ws)) ws
    | Tree => ws
    end in
  let ws := set_journal (record_pack (sealed_pack_id sp) (journal_chunk <$> sealed_entries sp) (pending_journal ws))
              (pending_journal_last_written ws) ws in
  match dump_tracker ws with
  | None => ws
  | Some t => set_tracker (Some (mkTracker (delta_checkpoint t) (dedup_inserts t) (promoted_recovered t)
      (journal_pack_ids t ++ [sealed_pack_id sp]) (data_pack_target_size t))) ws
  end.

Definition flush_writer_async (tk : Tick) (pt : PackType) : WM unit :=
  _ ← cap_pending_uploads tk;
  s ← wget;
  p ← wlift (seal (writer_of pt (s_ws s)));
  let '(sp, w) := p in
  _ ← modify_ws (note_sealed pt sp w);
  s ← wget;
  _ ← wput (apply_sealed_entries (sealed_pack_id sp) (sealed_entries sp) s);
  modify_ws (fun ws => set_uploads (pending_uploads ws ++ [(pack_storage_key (sealed_pack_id sp), sealed_data sp)]) ws).

(** *** References *)

Definition bump_delta (id : ChunkId) (s : Session) : Session :=
  let ws := s_ws s in
  mkSess (s_index s) (s_dirty s)
    (set_dedup (dedup_index ws) (tiered_dedup ws) (bump_refcount id <$> index_delta ws) ws).

Definition promote_recovered_chunk (id : ChunkId) (s : Session) : option (Z * Session) :=
  let ws := s_ws s in
  match recovered_chunks ws !! id with
  | None => None
  | Some en =>
      let ws := match dump_tracker ws with
                | None => ws
                | Some t => set_tracker (Some (mkTracker (delta_checkpoint t) (dedup_inserts t ++ [id])
                    (promoted_recovered t ++ [(id, en)]) (journal_pack_ids t) (data_pack_target_size t))) ws
                end in
      let ws := set_recovered (delete id (recovered_chunks ws)) (recovered_index_keys ws) ws in
      let delta := add_new_entry id (rec_stored_size en) (rec_pack_id en) (rec_pack_offset en) 1 <$> index_delta ws in
      Some (rec_stored_size en,
        match tiered_dedup ws, dedup_index ws with
        | Some t, dd =>
            mkSess (s_index s) (s_dirty s) (set_dedup dd (Some (tiered_insert id (rec_stored_size en) t)) delta ws)
        | None, Some dd =>
            mkSess (s_index s) (s_dirty s) (set_dedup (Some (<[id := rec_stored_size en]> dd)) None delta ws)
        | None, None =>
            mkSess (add id (rec_stored_size en) (rec_pack_id en) (rec_pack_offset en) (s_index s)) true
              (set_dedup None None delta ws)
        end)
  end.

Definition bump_ref_pending (id : ChunkId) (s : Session) : option (Z * Session) :=
  let ws := s_ws s in
  let bump pt := mkSess (s_index s) (s_dirty s) (set_writer pt (increment_pending id (writer_of pt ws)) ws) in
  match get_pending_stored_size id (data_pack_writer ws) with
  | Some size => Some (size, bump Data)
  | None =>
      match get_pending_stored_size id (tree_pack_writer ws) with
      | Some size => Some (size, bump Tree)
      | None => None
      end
  end.

Definition promote_or_pending (id : ChunkId) (s : Session) : option (Z * Session) :=
  match promote_recovered_chunk id s with
  | Some r => Some r
  | None => bump_ref_pending id s
  end.

Definition bump_ref_if_exists (id : ChunkId) (s : Session) : option (Z * Session) :=
  let ws := s_ws s in
  match tiered_dedup ws, dedup_index ws with
  | Some t, _ =>
      match tiered_get_stored_size t id with
      | Some size => Some (size, bump_delta id s)
      | None => promote_or_pending id s
      end
  | None, Some dd =>
      match dd !! id with
      | Some size => Some (size, bump_delta id s)
      | None => promote_or_pending id s
      end
  | None, None =>
      match s_index s !! id with
      | Some en => Some (stored_size en, mkSess (increment_refcount id (s_index s)) true ws)
      | None => promote_or_pending id s
      end
  end.

Definition bump_ref_prefilter_hit (id : ChunkId) (s : Session) : option (Z * Session) :=
  match tiered_dedup (s_ws s) with
  | Some t =>
      match get_stored_size_skip_filter t id with
      | Some size => Some (size, bump_delta id s)
      | None => promote_or_pending id s
      end
  | None => bump_ref_if_exists id s
  end.

Definition bump_ref_prefilter_miss (id : ChunkId) (s : Session) : option (Z * Session) :=
  match tiered_dedup (s_ws s) with
  | Some t =>
      match session_new_stored_size t id with
      | Some size => Some (size, bump_delta id s)
      | None => promote_or_pending id s
      end
  | None => bump_ref_if_exists id s
  end.

Definition increment_chunk_ref (id : ChunkId) (s : Session) : Session :=
  match index_delta (s_ws s) with
  | Some _ => bump_delta id s
  | None => mkSess (increment_refcount id (s_index s)) true (s_ws s)
  end.

Definition chunk_exists (id : ChunkId) (s : Session) : bool :=
  match tiered_dedup (s_ws s), dedup_index (s_ws s) with
  | Some t, _ => bool_decide (is_Some (tiered_get_stored_size t id))
  | None, Some dd => bool_decide (is_Some (dd !! id))
  | None, None => contains (s_index s) id
  end.

(** *** Chunks *)

Definition commit_prepacked_chunk (tk : Tick) (id : ChunkId) (packed : bytes) (pt : PackType) : WM Z :=
  _ ← modify_ws (fun ws => set_writer pt (add_blob (tk_now tk) id packed (writer_of pt ws)).2 ws);
  s ← wget;
  _ ← (if should_flush (tk_now tk) (writer_of pt (s_ws s)) then flush_writer_async tk pt else mret tt);
  mret (u32_wrap (blen packed)).

Definition seal_chunk (id : ChunkId) (data : bytes) (compression : Compression) (nonce : bytes) : res bytes :=
  compressed ← compress compression data;
  pack_object_with_context e OChunkData (chunk_bytes id) compressed nonce.

Definition commit_chunk_inline (tk : Tick) (id : ChunkId) (data : bytes) (compression : Compression)
    (pt : PackType) (nonce : bytes) : WM Z :=
  packed ← wlift (seal_chunk id data compression nonce);
  commit_prepacked_chunk tk id packed pt.

Definition reuse_cached_chunk_ref (id : ChunkId) : WM Z := fun s w =>
  match bump_ref_if_exists id s with
  | Some (size, s') => (Ok size, (s', w))
  | None => (Err (Other "cache hit references unresolvable chunk"), (s, w))
  end.

Definition store_chunk (tk : Tick) (data : bytes) (compression : Compression) (pt : PackType) (nonce : bytes) :
    WM (ChunkId * Z * bool) :=
  let id := chunk_id_compute (chunk_id_key e) data in
  s ← wget;
  match bump_ref_if_exists id s with
  | Some (size, s') => _ ← wput s'; mret (id, size, false)
  | None =>
      packed ← wlift (seal_chunk id data compression nonce);
      size ← commit_prepacked_chunk tk id packed pt;
      mret (id, size, true)
  end.

(** *** The end of a session *)

Definition flush_packs (tk : PackType -> Tick) (tk_wait : Tick) : WM unit :=
  s ← wget;
  let flush_data := has_pending (data_pack_writer (s_ws s)) in
  let flush_tree := has_pending (tree_pack_writer (s_ws s)) in
  _ ← (if flush_data then flush_writer_async (tk Data) Data else mret tt);
  _ ← (if flush_tree then flush_writer_async (tk Tree) Tree else mret tt);
  wait_pending_uploads tk_wait.

(** What is left of the session is dropped. *)
Definition flush_on_abort (tk : PackType -> Tick) (tk_wait : Tick) : WM unit :=
  s ← wget;
  let ws := s_ws s in
  let has_partial_packs := has_pending (data_pack_writer ws) || has_pending (tree_pack_writer ws) in
  if (length (pending_uploads ws) =? 0)%nat && (size (pending_journal ws) =? 0)%nat && negb has_partial_packs then mret tt
  else
    _ ← (if has_pending (data_pack_writer ws) then wtry (flush_writer_async (tk Data) Data) else mret (Ok tt));
    s ← wget;
    _ ← (if has_pending (tree_pack_writer (s_ws s)) then wtry (flush_writer_async (tk Tree) Tree) else mret (Ok tt));
    s ← wget;
    _ ← join_all (pending_uploads (s_ws s)) None;
    _ ← modify_ws (set_uploads []);
    write_pending_index_best_effort tk_wait.
End Write.

(** ** Reasoning with the session as a state *)

Section Logic.
Context {Hxor : Xor8}.

Definition wtriple {A} (P : Session -> Store -> Prop) (m : WM A) (Q : A -> Session -> Store -> Prop)
    (E : Session -> Store -> Prop) : Prop :=
  forall s w, P s (objects w) ->
  match m s w with
  | (Ok a, (s', w')) => Q a s' (objects w')
  | (Err _, (s', w')) => E s' (objects w')
  end.

Lemma wtriple_ret {A} (P : Session -> Store -> Prop) (a : A) (Q : A -> Session -> Store -> Prop) E :
  (forall s st, P s st -> Q a s st) -> wtriple P (mret a) Q E.
Proof. intros HQ s w HP. by apply HQ. Qed.
Lemma wtriple_fail {A} (P : Session -> Store -> Prop) er (Q : A -> Session -> Store -> Prop) (E : Session -> Store -> Prop) :
  (forall s st, P s st -> E s st) -> wtriple P (wfail er) Q E.
Proof. intros HE s w HP. by apply HE. Qed.
Lemma wtriple_bind {A B} P (m : WM A) (R : A -> Session -> Store -> Prop) (f : A -> WM B) Q E :
  wtriple P m R E -> (forall a, wtriple (R a) (f a) Q E) -> wtriple P (m ≫= f) Q E.
Proof.
  intros Hm Hf s w HP. unfold mbind, WM_bind. specialize (Hm s w HP).
  destruct (m s w) as [[a|er] [s' w']]; [|done]. by apply Hf.
Qed.
Lemma wtriple_weaken {A} (P P' : Session -> Store -> Prop) (m : WM A) Q Q' (E E' : Session -> Store -> Prop) :
  wtriple P m Q E -> (forall s st, P' s st -> P s st) -> (forall a s st, Q a s st -> Q' a s st) ->
  (forall s st, E s st -> E' s st) -> wtriple P' m Q' E'.
Proof.
  intros Hm HP HQ HE s w Hw. specialize (Hm s w (HP _ _ Hw)). destruct (m s w) as [[a|er] [s' w']]; auto.
Qed.
Lemma wtriple_pure {A} (P : Session -> Store -> Prop) (phi : Prop) (m : WM A) Q E :
  (phi -> wtriple P m Q E) -> wtriple (fun s st => P s st /\ phi) m Q E.
Proof. intros Hm s w [HP Hphi]. by apply Hm. Qed.
Lemma wtriple_get (P : Session -> Store -> Prop) E : wtriple P wget (fun a s st => P s st /\ a = s) E.
Proof. intros s w HP. done. Qed.
Lemma wtriple_get_bind {B} (P : Session -> Store -> Prop) (f : Session -> WM B) Q E :
  (forall s0, wtriple (fun s st => P s st /\ s = s0) (f s0) Q E) -> wtriple P (wget ≫= f) Q E.
Proof. intros Hf s w HP. by apply (Hf s). Qed.
Lemma wtriple_put (P : Session -> Store -> Prop) s1 (Q : Session -> Store -> Prop) E :
  (forall s st, P s st -> Q s1 st) -> wtriple P (wput s1) (fun _ => Q) E.
Proof. intros HQ s w HP. by eapply HQ. Qed.
Lemma wtriple_modify (P : Session -> Store -> Prop) f (Q : Session -> Store -> Prop) E :
  (forall s st, P s st -> Q (mkSess (s_index s) (s_dirty s) (f (s_ws s))) st) -> wtriple P (modify_ws f) (fun _ => Q) E.
Proof. intros HQ s w HP. by apply HQ. Qed.
Lemma wtriple_lift {A} (P : Session -> Store -> Prop) (r : res A) (Q : A -> Session -> Store -> Prop) (E : Session -> Store -> Prop) :
  (forall s st, P s st -> match r with Ok a => Q a s st | Err _ => E s st end) -> wtriple P (wlift r) Q E.
Proof. intros HQ s w HP. specialize (HQ s _ HP). unfold wlift. by destruct r. Qed.
Lemma wtriple_do {A} (P : Session -> Store -> Prop) (m : M A) (Q : A -> Session -> Store -> Prop) (E : Session -> Store -> Prop) :
  (forall s, triple (P s) m (fun a => Q a s) (E s)) -> wtriple P (wdo m) Q E.
Proof. intros Hm s w HP. unfold wdo. specialize (Hm s w HP). destruct (m w) as [[a|er] w']; done. Qed.
Lemma wtriple_try {A} (P : Session -> Store -> Prop) (m : WM A) Q E E' :
  wtriple P m Q E ->
  wtriple P (wtry m) (fun r s st => match r with Ok a => Q a s st | Err _ => E s st end) E'.
Proof. intros Hm s w HP. specialize (Hm s w HP). unfold wtry. destruct (m s w) as [[a|er] [s' w']]; done. Qed.
End Logic.

