(* ===== verification/Accounting.v ===== *)
(** * What a write session has taken in

    The accounting behind a backup: every reference the backup asks for is
    in the delta or in a pack writer, every new entry of the delta names a
    blob in a pack that is stored or on its way, and the store changes in
    nothing but packs and the session's own objects.  The definitions of
    the write path are in WriteSession.v. *)

From S2P Require Import Prelude Types Storage ChunkIndex Pack.
From S2P Require Import Crypto Format Compress DedupCache Retention Lock Repo ReadPath WriteSession.
#[local] Open Scope string_scope.
#[local] Open Scope list_scope.
#[local] Open Scope Z_scope.

(**     [base] are the chunks of the index the session started from, [ids] the
    chunks the backup has asked for, once per reference; [plain] gives the
    plaintext of each chunk and [pack_data] the pack stored under each key. *)

Section Accounting.
Context `{Hhex : HexCodec} `{Hblake : Blake2b} {Hxor : Xor8} (e : CryptoEngine) `{Hcodecs : Codecs}.
Context `{Hjournal : MsgPack (list PendingPackEntry)}.
Context `{Hljson : Json LockEntry} `{Hsjson : Json SessionEntry} `{Hrfc : Rfc3339}.
Context (data_target : nat -> Z).
Context (plain : ChunkId -> bytes) (pack_data : string -> bytes) (base : gset ChunkId).

Definition known_size (ws : WriteSessionState) (id : ChunkId) : option Z :=
  match tiered_dedup ws, dedup_index ws with
  | Some t, _ => tiered_get_stored_size t id
  | None, Some dd => dd !! id
  | None, None => None
  end.

(** The pack of that name has the chunk's blob at that place. *)
Definition promised (id : ChunkId) (p : PackId) (off size : Z) : Prop :=
  is_id (pack_bytes p) /\ u64 off /\
  exists blobs i blob, pack_data (pack_storage_key p) = pack_of blobs /\ Forall fits blobs /\ blobs !! i = Some blob /\
    blob_ranges 9 blobs !! i = Some (off, size) /\ open_blob e id blob = Ok (plain id).

(** The pack is stored or on its way. *)
Definition held (st : Store) (ups : list (string * bytes)) (k : string) : Prop :=
  k ∈ ups.*1 \/ is_Some (st !! k).

Definition placed (st : Store) (ups : list (string * bytes)) (id : ChunkId) (p : PackId) (off size : Z) : Prop :=
  held st ups (pack_storage_key p) /\ promised id p off size.

(** The packs are what their names say. *)
Definition names (st : Store) : Prop :=
  forall k d, starts_with k "packs/" = true -> st !! k = Some d -> d = pack_data k.

Definition named (ups : list (string * bytes)) : Prop :=
  forall u, u ∈ ups -> starts_with u.1 "packs/" = true /\ u.2 = pack_data u.1.

(** What a journal says of packs is true of the packs of those names. *)
Definition journal_entry_ok (pe : PendingPackEntry) : Prop :=
  Forall (fun c => promised (pend_chunk_id c) (pend_pack_id pe) (pend_pack_offset c) (pend_stored_size c)) (pend_chunks pe).
Definition journal_ok (j : PendingIndexJournal) : Prop := map_Forall (fun _ pe => journal_entry_ok pe) j.

Definition pend_refs (w : PackWriter) (id : ChunkId) : Z := default 0 (snd <$> pending w !! id).

(** The blobs in a writer. *)
Definition writer_ok (w : PackWriter) : Prop :=
  exists bl, writer_inv bl w /\ NoDup bl.*1 /\
    Forall (fun b => fits b.2 /\ open_blob e b.1 b.2 = Ok (plain b.1)) bl /\
    (forall id, is_Some (pending w !! id) <-> id ∈ bl.*1) /\
    map_Forall (fun _ p => 1 <= p.2) (pending w).

(** No other pack has the name of the one that a writer would seal; its
    offsets are [u64]. *)
Definition sealable (w : PackWriter) : Prop :=
  forall v, buffer w = Some v -> u64 (Z.of_nat (length v)) /\ pack_data (pack_storage_key (pack_id_compute v)) = v.

Definition new_ids (d : IndexDelta) : list ChunkId := new_chunk_id <$> new_entries d.

Record session_inv (ids : list ChunkId) (d : IndexDelta) (ws : WriteSessionState) (st : Store) : Prop := {
  si_delta : index_delta ws = Some d;
  si_mode : is_Some (tiered_dedup ws) \/ is_Some (dedup_index ws);
  si_known : forall id, is_Some (known_size ws id) <-> id ∈ base \/ id ∈ new_ids d;
  si_nodup : NoDup (new_ids d);
  si_new : forall id, id ∈ new_ids d -> id ∉ base;
  si_pos : Forall (fun n => 1 <= new_refcount n) (new_entries d);
  si_writers : writer_ok (data_pack_writer ws) /\ writer_ok (tree_pack_writer ws);
  si_pending : forall pt id, is_Some (pending (writer_of pt ws) !! id) ->
    (id ∉ base) /\ (id ∉ new_ids d) /\ recovered_chunks ws !! id = None;
  si_apart : forall id, is_Some (pending (data_pack_writer ws) !! id) -> pending (tree_pack_writer ws) !! id = None;
  si_recovered : forall id en, recovered_chunks ws !! id = Some en ->
    (id ∉ base) /\ (id ∉ new_ids d) /\
    placed st (pending_uploads ws) id (rec_pack_id en) (rec_pack_offset en) (rec_stored_size en);
  si_refs : forall id, delta_refs d id + pend_refs (data_pack_writer ws) id + pend_refs (tree_pack_writer ws) id = count_id id ids;
  si_bumps : forall id n, refcount_bumps d !! id = Some n -> 0 <= n /\ (id ∈ base \/ id ∈ new_ids d);
  si_placed : forall n, n ∈ new_entries d ->
    placed st (pending_uploads ws) (new_chunk_id n) (new_pack_id n) (new_pack_offset n) (new_stored_size n);
  si_named : named (pending_uploads ws);
  si_journal : journal_ok (pending_journal ws);
  si_sealable : forall pt, sealable (writer_of pt ws);
}.

Ltac ws := cbn [data_pack_writer tree_pack_writer pending_uploads max_in_flight_uploads dedup_index tiered_dedup
  index_delta pending_journal pending_journal_last_written recovered_chunks recovered_index_keys persisted_pack_count
  session_packs_flushed session_id last_session_refresh dump_tracker set_writer set_uploads set_dedup set_journal
  set_recovered set_counts set_refreshed set_tracker writer_of s_ws s_index s_dirty] in *.

Definition one (id i : ChunkId) : Z := if decide (id = i) then 1 else 0.

Lemma count_id_snoc i ids id : count_id i (ids ++ [id]) = count_id i ids + one id i.
Proof. unfold count_id, one. rewrite sum_Z_app. simpl. lia. Qed.

Lemma count_id_le i ids : count_id i ids <= Z.of_nat (length ids).
Proof. unfold count_id. induction ids as [|x ids IH]; simpl; [done|]. case_decide; lia. Qed.

Lemma pend_refs_nonneg w id : writer_ok w -> 0 <= pend_refs w id.
Proof.
  intros (_ & _ & _ & _ & _ & Hp). unfold pend_refs. destruct (pending w !! id) as [[size rc]|] eqn:E; simpl; [|done].
  specialize (Hp _ _ E). simpl in Hp. lia.
Qed.

Lemma entry_refs_nonneg id es : Forall (fun n => 1 <= new_refcount n) es -> 0 <= entry_refs id es.
Proof. intros Hf. apply sum_Z_nonneg. intros n Hn. rewrite Forall_forall in Hf. specialize (Hf n Hn). simpl in Hf. case_decide; lia. Qed.

(** Room for one more reference. *)
Definition room (ids : list ChunkId) : Prop := Z.of_nat (length ids) + 1 < u32_modulus.

Lemma bumps_small ids d ws st id :
  session_inv ids d ws st -> default 0 (refcount_bumps d !! id) <= count_id id ids.
Proof.
  intros Hi. pose proof (si_refs _ _ _ _ Hi id) as Hr. unfold delta_refs in Hr.
  pose proof (entry_refs_nonneg id _ (si_pos _ _ _ _ Hi)). destruct (si_writers _ _ _ _ Hi) as [Hw1 Hw2].
  pose proof (pend_refs_nonneg _ id Hw1). pose proof (pend_refs_nonneg _ id Hw2). lia.
Qed.

Lemma bumps_nonneg ids d ws st id : session_inv ids d ws st -> 0 <= default 0 (refcount_bumps d !! id).
Proof.
  intros Hi. destruct (refcount_bumps d !! id) as [n|] eqn:E; simpl; [|done]. by apply (si_bumps _ _ _ _ Hi id).
Qed.

Lemma delta_refs_bump ids d ws st id i :
  session_inv ids d ws st -> room ids -> delta_refs (bump_refcount id d) i = delta_refs d i + one id i.
Proof.
  intros Hi Hroom. unfold delta_refs, bump_refcount, bump_by, one. cbn [new_entries refcount_bumps].
  rewrite lookup_insert. case_decide; [|lia]. subst i. simpl.
  pose proof (bumps_small _ _ _ _ id Hi). pose proof (count_id_le id ids). pose proof (bumps_nonneg _ _ _ _ id Hi).
  rewrite u32_add_small; [lia|]. unfold room in Hroom. unfold u32. lia.
Qed.

(** A chunk that is known gets one more reference. *)
Lemma bump_known_inv ids d s st id :
  session_inv ids d (s_ws s) st -> room ids -> is_Some (known_size (s_ws s) id) ->
  session_inv (ids ++ [id]) (bump_refcount id d) (s_ws (bump_delta id s)) st.
Proof.
  intros Hi Hroom Hk. pose proof (delta_refs_bump ids d (s_ws s) st id) as Hd.
  pose proof (bumps_nonneg _ _ _ _ id Hi) as Hnn. pose proof (bumps_small _ _ _ _ id Hi) as Hsm.
  pose proof (count_id_le id ids) as Hcl. unfold room in Hroom.
  pose proof Hi as [H1 H2 H3 H4 H5 H6 H7 H8 H9 H10 H11 H12 H13 H14 H15 H16]. unfold bump_delta. ws.
  constructor; ws; try done.
  - by rewrite H1.
  - intros i. rewrite Hd by done. rewrite count_id_snoc, <- H11. lia.
  - intros i n. unfold bump_refcount, bump_by. cbn [refcount_bumps]. intros [[<- <-]|[_ Hn]]%lookup_insert_Some; [|by apply H12].
    split; [|by apply H3]. rewrite u32_add_small by (unfold u32; lia). lia.
Qed.

(** A chunk in a writer gets one more reference. *)
Lemma pend_refs_increment id w i :
  0 <= pend_refs w id -> pend_refs w id + 1 < u32_modulus -> is_Some (pending w !! id) ->
  pend_refs (increment_pending id w) i = pend_refs w i + one id i.
Proof.
  intros Hnn Hr [[size rc] E]. unfold pend_refs, increment_pending, one in *. cbn [pending]. rewrite E in *.
  simpl in Hnn, Hr. rewrite lookup_insert. case_decide; [|lia]. subst i. rewrite E. simpl.
  apply u32_add_small. unfold u32. lia.
Qed.

Lemma increment_writer_ok id w :
  writer_ok w -> pend_refs w id + 1 < u32_modulus -> writer_ok (increment_pending id w).
Proof.
  intros (bl & Hw & Hnd & Hall & Hp & Hpos) Hr. exists bl. split; [exact Hw|]. split; [done|]. split; [done|].
  unfold increment_pending. cbn [pending]. destruct (pending w !! id) as [[size rc]|] eqn:E; [|done].
  split.
  - intros i. rewrite <- Hp. rewrite lookup_insert_is_Some'. split; [|by right]. intros [<-|]; [by rewrite E|done].
  - apply map_Forall_insert_2; [|done]. specialize (Hpos _ _ E). simpl in *. unfold pend_refs in Hr. rewrite E in Hr.
    simpl in Hr. rewrite u32_add_small by (unfold u32; lia). lia.
Qed.

Lemma increment_pending_dom id w i : is_Some (pending (increment_pending id w) !! i) <-> is_Some (pending w !! i).
Proof.
  unfold increment_pending. cbn [pending]. destruct (pending w !! id) as [[size rc]|] eqn:E; [|done].
  rewrite lookup_insert_is_Some'. split; [|by right]. intros [<-|]; [by rewrite E|done].
Qed.

Lemma pend_small ids d ws st pt id : session_inv ids d ws st -> 0 <= pend_refs (writer_of pt ws) id <= count_id id ids.
Proof.
  intros Hi. pose proof (si_refs _ _ _ _ Hi id) as Hr. unfold delta_refs in Hr.
  pose proof (entry_refs_nonneg id _ (si_pos _ _ _ _ Hi)). destruct (si_writers _ _ _ _ Hi) as [Hw1 Hw2].
  pose proof (pend_refs_nonneg _ id Hw1). pose proof (pend_refs_nonneg _ id Hw2).
  pose proof (bumps_nonneg _ _ _ _ id Hi). destruct pt; ws; lia.
Qed.

Lemma bump_pending_inv ids d s st pt id :
  session_inv ids d (s_ws s) st -> room ids -> is_Some (pending (writer_of pt (s_ws s)) !! id) ->
  session_inv (ids ++ [id]) d (set_writer pt (increment_pending id (writer_of pt (s_ws s))) (s_ws s)) st.
Proof.
  intros Hi Hroom Hp. pose proof (pend_small _ _ _ _ pt id Hi) as Hsm. pose proof (count_id_le id ids) as Hcl.
  unfold room in Hroom. pose proof Hi as [H1 H2 H3 H4 H5 H6 H7 H8 H9 H10 H11 H12 H13 H14 H15 H16].
  set (w := writer_of pt (s_ws s)) in *.
  assert (Hw : writer_ok w) by (unfold w; destruct H7, pt; done).
  assert (Hok : writer_ok (increment_pending id w)) by (apply increment_writer_ok; [done|lia]).
  assert (Hinc : forall i, pend_refs (increment_pending id w) i = pend_refs w i + one id i)
    by (intros i; apply pend_refs_increment; [lia|lia|done]).
  constructor; ws; try done.
  - unfold w. destruct pt; ws; [split; [done|apply H7]|split; [apply H7|done]].
  - intros pt' i Hpi. apply (H8 pt'). destruct pt, pt'; ws; try done; by apply increment_pending_dom in Hpi.
  - intros i. destruct pt; ws.
    + rewrite increment_pending_dom. apply H9.
    + intros Hd%H9. apply eq_None_not_Some. rewrite increment_pending_dom. by apply eq_None_not_Some.
  - intros i. rewrite count_id_snoc, <- H11. destruct pt; ws; fold w; rewrite Hinc; unfold w; ws; lia.
  - intros pt'. specialize (H16 pt'). unfold w. by destruct pt, pt'.
Qed.

(** A chunk of an interrupted session is taken over. *)
Lemma known_insert ws id size i ws' :
  known_size ws' i = (if decide (id = i) then Some size else known_size ws i) ->
  is_Some (known_size ws' i) <-> i = id \/ is_Some (known_size ws i).
Proof.
  intros ->. case_decide; [subst; split; [by left|by eexists]|]. split; [by right|]. by intros [->|].
Qed.

Definition with_known (ws : WriteSessionState) (id : ChunkId) (size : Z) (d : IndexDelta) : WriteSessionState :=
  match tiered_dedup ws, dedup_index ws with
  | Some t, dd => set_dedup dd (Some (tiered_insert id size t)) (Some d) ws
  | None, Some dd => set_dedup (Some (<[id := size]> dd)) None (Some d) ws
  | None, None => set_dedup None None (Some d) ws
  end.

Lemma known_size_with ws id size d i :
  is_Some (tiered_dedup ws) \/ is_Some (dedup_index ws) ->
  known_size (with_known ws id size d) i = if decide (id = i) then Some size else known_size ws i.
Proof.
  intros Hm. unfold with_known, known_size. destruct (tiered_dedup ws) as [t|] eqn:Et.
  - ws. unfold tiered_get_stored_size, tiered_insert. cbn [session_new t_filter t_cache].
    rewrite lookup_insert. by case_decide.
  - destruct (dedup_index ws) as [dd|]; [|by destruct Hm as [[]|[]]]. ws. rewrite lookup_insert. by case_decide.
Qed.

Lemma with_known_same ws id size d :
  let ws' := with_known ws id size d in
  data_pack_writer ws' = data_pack_writer ws /\ tree_pack_writer ws' = tree_pack_writer ws /\
  pending_uploads ws' = pending_uploads ws /\ recovered_chunks ws' = recovered_chunks ws /\
  index_delta ws' = Some d /\ dump_tracker ws' = dump_tracker ws /\
  ((is_Some (tiered_dedup ws) \/ is_Some (dedup_index ws)) -> is_Some (tiered_dedup ws') \/ is_Some (dedup_index ws')) /\
  pending_journal ws' = pending_journal ws.
Proof.
  unfold with_known. destruct (tiered_dedup ws) as [t|], (dedup_index ws) as [dd|]; ws; split_and!; try done; eauto.
Qed.

(** *** New entries

    [grows d es ws ws']: the entries [es] have gone into the delta and the
    dedup structure; the packs on their way are still there. *)
Definition append_entries (es : list NewChunkEntry) (d : IndexDelta) : IndexDelta :=
  mkDelta (new_entries d ++ es) (refcount_bumps d).

Record grows (d : IndexDelta) (es : list NewChunkEntry) (ws ws' : WriteSessionState) : Prop := {
  gr_delta : index_delta ws' = Some (append_entries es d);
  gr_mode : is_Some (tiered_dedup ws') \/ is_Some (dedup_index ws');
  gr_known : forall id, is_Some (known_size ws' id) <-> is_Some (known_size ws id) \/ id ∈ new_chunk_id <$> es;
  gr_writers : writer_of Data ws' = writer_of Data ws /\ writer_of Tree ws' = writer_of Tree ws;
  gr_uploads : pending_uploads ws' = pending_uploads ws;
  gr_recovered : recovered_chunks ws' = recovered_chunks ws;
  gr_journal : pending_journal ws' = pending_journal ws;
}.

Lemma grows_nil d ws :
  index_delta ws = Some d -> is_Some (tiered_dedup ws) \/ is_Some (dedup_index ws) -> grows d [] ws ws.
Proof.
  intros Hd Hm. constructor; try done.
  - rewrite Hd. destruct d as [es bs]. unfold append_entries. simpl. by rewrite app_nil_r.
  - intros id. split; [by left|]. by intros [|?%elem_of_nil].
Qed.

Lemma grows_known d es ws ws' id size pk off rc :
  grows d es ws ws' ->
  grows d (es ++ [mkNew id size pk off rc]) ws (with_known ws' id size (append_entries (es ++ [mkNew id size pk off rc]) d)).
Proof.
  intros [H1 H2 H3 H4 H5 H6 H7]. destruct (with_known_same ws' id size (append_entries (es ++ [mkNew id size pk off rc]) d))
    as (E1 & E2 & E3 & E4 & E5 & _ & E7 & E8). constructor; ws.
  - done.
  - by apply E7.
  - intros i. rewrite (known_insert ws' id size) by (by apply known_size_with). rewrite H3, fmap_app, elem_of_app. csimpl.
    rewrite list_elem_of_singleton. tauto.
  - by rewrite E1, E2.
  - by rewrite E3.
  - by rewrite E4.
  - by rewrite E8.
Qed.

Lemma grows_same d es ws ws' ws'' :
  grows d es ws ws' -> index_delta ws'' = index_delta ws' -> tiered_dedup ws'' = tiered_dedup ws' ->
  dedup_index ws'' = dedup_index ws' -> writer_of Data ws'' = writer_of Data ws' -> writer_of Tree ws'' = writer_of Tree ws' ->
  pending_uploads ws'' = pending_uploads ws' -> recovered_chunks ws'' = recovered_chunks ws' ->
  pending_journal ws'' = pending_journal ws' -> grows d es ws ws''.
Proof.
  intros [H1 H2 H3 H4 H5 H6 H7] E1 E2 E3 E4 E5 E6 E7 E8. constructor; unfold known_size; rewrite ?E1, ?E2, ?E3, ?E4, ?E5, ?E6, ?E7, ?E8; done.
Qed.

Definition new_of (pk : PackId) (en : PackedChunkEntry) : NewChunkEntry :=
  mkNew (pc_chunk_id en) (pc_stored_size en) pk (pc_offset en) (pc_refcount en).

Lemma apply_sealed_entry_grows pk d es ws s en :
  grows d es ws (s_ws s) -> grows d (es ++ [new_of pk en]) ws (s_ws (apply_sealed_entry pk s en)).
Proof.
  intros Hg. pose proof (grows_known d es ws (s_ws s) (pc_chunk_id en) (pc_stored_size en) pk (pc_offset en)
    (pc_refcount en) Hg) as Hk. destruct Hg as [H1 H2 _ _ _ _ _].
  assert (Hd : add_new_entry (pc_chunk_id en) (pc_stored_size en) pk (pc_offset en) (pc_refcount en) <$> index_delta (s_ws s)
    = Some (append_entries (es ++ [new_of pk en]) d)).
  { rewrite H1. unfold append_entries, add_new_entry. simpl. by rewrite <- app_assoc. }
  unfold apply_sealed_entry. unfold with_known in Hk. fold (new_of pk en) in Hk.
  destruct (tiered_dedup (s_ws s)) as [t|]; [|destruct (dedup_index (s_ws s)) as [dd|]; [|by destruct H2 as [[]|[]]]];
    cbn [s_ws]; rewrite Hd; (eapply grows_same; [exact Hk|..]);
    unfold track_insert; by destruct (dump_tracker _) as [].
Qed.

Lemma apply_sealed_entries_grows pk d entries s :
  index_delta (s_ws s) = Some d -> is_Some (tiered_dedup (s_ws s)) \/ is_Some (dedup_index (s_ws s)) ->
  grows d (new_of pk <$> entries) (s_ws s) (s_ws (apply_sealed_entries pk entries s)).
Proof.
  intros Hd Hm. unfold apply_sealed_entries. induction entries as [|en entries IH] using rev_ind; [by apply grows_nil|].
  rewrite foldl_app, fmap_app. by apply apply_sealed_entry_grows.
Qed.

Lemma held_mono st ups st' ups' k :
  (forall u, u ∈ ups -> u.1 ∈ ups'.*1 \/ is_Some (st' !! u.1)) ->
  (is_Some (st !! k) -> is_Some (st' !! k)) -> held st ups k -> held st' ups' k.
Proof. intros Hu Hs [(u & -> & H)%list_elem_of_fmap|H]; [|right; auto]. destruct (Hu _ H); [by left|by right]. Qed.

Definition keeps (st : Store) (ups : list (string * bytes)) (st' : Store) (ups' : list (string * bytes)) : Prop :=
  forall p, held st ups (pack_storage_key p) -> held st' ups' (pack_storage_key p).

Lemma placed_mono st ups st' ups' id p off size :
  keeps st ups st' ups' -> placed st ups id p off size -> placed st' ups' id p off size.
Proof. intros Hk [Hh Hr]. split; [by apply Hk|done]. Qed.

(** The general case: entries go into the delta while references leave the
    writers or the set of recovered chunks. *)
Lemma absorb_inv ids ids' d es ws ws' st :
  session_inv ids d ws st ->
  index_delta ws' = Some (append_entries es d) ->
  is_Some (tiered_dedup ws') \/ is_Some (dedup_index ws') ->
  (forall id, is_Some (known_size ws' id) <-> is_Some (known_size ws id) \/ id ∈ new_chunk_id <$> es) ->
  NoDup (new_chunk_id <$> es) ->
  (forall id, id ∈ new_chunk_id <$> es -> (id ∉ base) /\ (id ∉ new_ids d) /\ recovered_chunks ws' !! id = None /\
    forall pt, pending (writer_of pt ws') !! id = None) ->
  Forall (fun n => 1 <= new_refcount n) es ->
  (forall n, n ∈ es ->
    placed st (pending_uploads ws') (new_chunk_id n) (new_pack_id n) (new_pack_offset n) (new_stored_size n)) ->
  writer_ok (data_pack_writer ws') /\ writer_ok (tree_pack_writer ws') ->
  (forall pt id, is_Some (pending (writer_of pt ws') !! id) -> is_Some (pending (writer_of pt ws) !! id)) ->
  recovered_chunks ws' ⊆ recovered_chunks ws ->
  pending_uploads ws ⊆ pending_uploads ws' ->
  named (pending_uploads ws') -> journal_ok (pending_journal ws') ->
  (forall pt, sealable (writer_of pt ws')) ->
  (forall id, entry_refs id es + pend_refs (data_pack_writer ws') id + pend_refs (tree_pack_writer ws') id + count_id id ids =
    pend_refs (data_pack_writer ws) id + pend_refs (tree_pack_writer ws) id + count_id id ids') ->
  session_inv ids' (append_entries es d) ws' st.
Proof.
  intros [H1 H2 H3 H4 H5 H6 H7 H8 H9 H10 H11 H12 H13 H14 H15 H16] Hd Hm Hk Hnd Hfresh Hpos Hpl Hw Hp Hrec Hups Hnam Hjo Hseal Hrefs.
  assert (Hkeep : keeps st (pending_uploads ws) st (pending_uploads ws')).
  { intros p. apply held_mono; [|done]. intros u Hu. left. apply list_elem_of_fmap_2. by apply Hups. }
  assert (Hids : new_ids (append_entries es d) = new_ids d ++ (new_chunk_id <$> es)) by apply fmap_app.
  constructor; try done.
  - intros id. rewrite Hk, H3, Hids, elem_of_app. tauto.
  - rewrite Hids. apply NoDup_app. split; [done|]. split; [|done]. intros id Hin Hin2. by apply Hfresh in Hin2 as (_ & ? & _).
  - intros id. rewrite Hids. intros [|Hin]%elem_of_app; [by apply H5|]. by apply Hfresh in Hin as (? & _).
  - apply Forall_app. by split.
  - intros pt id Hpi. destruct (H8 pt id (Hp pt id Hpi)) as (Hb & Hn & Hr). rewrite Hids, not_elem_of_app.
    split; [done|]. split; [split; [done|]|by eapply lookup_weaken_None].
    intros (_ & _ & _ & Hq)%Hfresh. by rewrite Hq in Hpi; destruct Hpi.
  - intros id Hpi%(Hp Data)%H9. apply eq_None_not_Some. intros Ht%(Hp Tree). ws. rewrite Hpi in Ht. by destruct Ht.
  - intros id en Hre. pose proof (lookup_weaken _ _ _ _ Hre Hrec) as Ho. destruct (H10 id en Ho) as (Hb & Hn & Hpe).
    rewrite Hids, not_elem_of_app. split; [done|]. split; [|by eapply placed_mono]. split; [done|].
    intros (_ & _ & Hq & _)%Hfresh. by rewrite Hq in Hre.
  - intros id. specialize (H11 id). specialize (Hrefs id). unfold delta_refs, append_entries in *.
    cbn [new_entries refcount_bumps] in *. unfold entry_refs in *. rewrite sum_Z_app. lia.
  - intros id n Hb. destruct (H12 id n Hb) as [? Hin]. rewrite Hids, elem_of_app. split; [done|tauto].
  - intros n [Hn|Hn]%elem_of_app; [|by apply Hpl]. eapply placed_mono; [exact Hkeep|]. by apply H13.
Qed.

Lemma promote_inv ids d s st id size s' :
  session_inv ids d (s_ws s) st -> promote_recovered_chunk id s = Some (size, s') ->
  exists d', session_inv (ids ++ [id]) d' (s_ws s') st.
Proof.
  intros Hi Hp. unfold promote_recovered_chunk in Hp. destruct (recovered_chunks (s_ws s) !! id) as [en|] eqn:Hr; [|done].
  destruct (si_recovered _ _ _ _ Hi id en Hr) as (Hb & Hn & Hpl).
  set (ws0 := match dump_tracker (s_ws s) with Some t => set_tracker _ _ | None => _ end) in Hp.
  set (ws1 := set_recovered _ _ ws0) in Hp.
  assert (E : index_delta ws1 = Some d /\ tiered_dedup ws1 = tiered_dedup (s_ws s) /\ dedup_index ws1 = dedup_index (s_ws s) /\
    data_pack_writer ws1 = data_pack_writer (s_ws s) /\ tree_pack_writer ws1 = tree_pack_writer (s_ws s) /\
    pending_uploads ws1 = pending_uploads (s_ws s) /\ recovered_chunks ws1 = delete id (recovered_chunks (s_ws s)) /\
    pending_journal ws1 = pending_journal (s_ws s)).
  { pose proof (si_delta _ _ _ _ Hi). unfold ws1, ws0. destruct (dump_tracker (s_ws s)); ws; done. }
  destruct E as (E1 & E2 & E3 & E4 & E5 & E6 & E7 & E8).
  assert (Hm : is_Some (tiered_dedup ws1) \/ is_Some (dedup_index ws1)) by (rewrite E2, E3; apply Hi).
  pose proof (grows_known d [] ws1 ws1 id (rec_stored_size en) (rec_pack_id en) (rec_pack_offset en) 1 (grows_nil d ws1 E1 Hm)) as Hg.
  set (es := [] ++ _) in Hg. exists (append_entries es d).
  assert (Hs' : s_ws s' = with_known ws1 id (rec_stored_size en) (append_entries es d)).
  { rewrite E1 in Hp. unfold with_known. destruct (tiered_dedup ws1); [by injection Hp as <- <-|].
    destruct (dedup_index ws1); [by injection Hp as <- <-|by destruct Hm as [[]|[]]]. }
  rewrite <- Hs' in Hg. destruct Hg as [G1 G2 G3 [G4 G5] G6 G7 G8]. ws. rewrite E4 in G4. rewrite E5 in G5. rewrite E6 in G6. rewrite E7 in G7.
  rewrite E8 in G8.
  apply (absorb_inv ids (ids ++ [id]) d es (s_ws s)); try done; rewrite ?G4, ?G5, ?G6, ?G7, ?G8.
  - intros i. rewrite G3. unfold known_size. by rewrite E2, E3.
  - apply NoDup_singleton.
  - intros i ->%list_elem_of_singleton. ws. split; [done|]. split; [done|]. split; [apply lookup_delete_eq|].
    intros pt. apply eq_None_not_Some. intros Hpt. assert (Hpt' : is_Some (pending (writer_of pt (s_ws s)) !! id)).
    { destruct pt; ws; [by rewrite <- G4|by rewrite <- G5]. }
    destruct (si_pending _ _ _ _ Hi pt id Hpt') as (_ & _ & Hx). by rewrite Hx in Hr.
  - by repeat constructor.
  - intros n ->%list_elem_of_singleton. exact Hpl.
  - apply Hi.
  - intros pt i. by destruct pt; ws; rewrite ?G4, ?G5.
  - apply delete_subseteq.
  - done.
  - apply Hi.
  - apply Hi.
  - intros pt. pose proof (si_sealable _ _ _ _ Hi pt). by destruct pt; ws; rewrite ?G4, ?G5.
  - intros i. rewrite count_id_snoc. unfold entry_refs, one, es. simpl. lia.
Qed.

(** *** Looking a chunk up *)

Definition unknown (d : IndexDelta) (ws : WriteSessionState) (id : ChunkId) : Prop :=
  (id ∉ base) /\ (id ∉ new_ids d) /\ recovered_chunks ws !! id = None /\ forall pt, pending (writer_of pt ws) !! id = None.

(** The four cases of the lookup. *)
Lemma bump_ref_cases ids d s st id :
  session_inv ids d (s_ws s) st ->
  bump_ref_if_exists id s =
    match known_size (s_ws s) id with Some size => Some (size, bump_delta id s) | None => promote_or_pending id s end.
Proof.
  intros Hi. unfold bump_ref_if_exists, known_size. destruct (tiered_dedup (s_ws s)) eqn:Et; [done|].
  destruct (dedup_index (s_ws s)) eqn:Ed; [done|]. destruct (si_mode _ _ _ _ Hi) as [[]|[]]; congruence.
Qed.

Lemma bump_ref_inv ids d s st id size s' :
  session_inv ids d (s_ws s) st -> room ids -> bump_ref_if_exists id s = Some (size, s') ->
  exists d', session_inv (ids ++ [id]) d' (s_ws s') st.
Proof.
  intros Hi Hroom. rewrite (bump_ref_cases _ _ _ _ id Hi). destruct (known_size (s_ws s) id) eqn:Hk.
  { intros [= <- <-]. eexists. apply bump_known_inv; [done|done|by eexists]. }
  unfold promote_or_pending. destruct (promote_recovered_chunk id s) as [[z s1]|] eqn:Hp.
  { intros [= <- <-]. by eapply promote_inv. }
  unfold bump_ref_pending, get_pending_stored_size.
  destruct (pending (data_pack_writer (s_ws s)) !! id) as [x|] eqn:Hd; simpl.
  { intros [= <- <-]. exists d. apply (bump_pending_inv ids d s st Data); [done|done|]. ws. by rewrite Hd. }
  destruct (pending (tree_pack_writer (s_ws s)) !! id) as [x|] eqn:Ht; simpl; [|done].
  intros [= <- <-]. exists d. apply (bump_pending_inv ids d s st Tree); [done|done|]. ws. by rewrite Ht.
Qed.

Lemma bump_ref_none ids d s st id :
  session_inv ids d (s_ws s) st -> bump_ref_if_exists id s = None -> unknown d (s_ws s) id.
Proof.
  intros Hi. rewrite (bump_ref_cases _ _ _ _ id Hi). destruct (known_size (s_ws s) id) eqn:Hk; [done|].
  assert (Hn : ~ (id ∈ base \/ id ∈ new_ids d)) by (rewrite <- (si_known _ _ _ _ Hi), Hk; by intros []).
  unfold promote_or_pending, promote_recovered_chunk, bump_ref_pending, get_pending_stored_size.
  destruct (recovered_chunks (s_ws s) !! id) eqn:Hr.
  { cbv zeta. by destruct (tiered_dedup _), (dedup_index _). }
  destruct (pending (data_pack_writer (s_ws s)) !! id) eqn:Hd; [done|].
  destruct (pending (tree_pack_writer (s_ws s)) !! id) eqn:Ht; [done|]. intros _.
  split; [tauto|]. split; [tauto|]. split; [done|]. by intros [].
Qed.

(** *** A new chunk *)

Lemma pend_refs_add now id blob w i :
  pending w !! id = None -> pend_refs (add_blob now id blob w).2 i = pend_refs w i + one id i.
Proof.
  intros Hp. unfold pend_refs, add_blob, one. cbn [pending snd]. rewrite lookup_insert. case_decide; [|lia].
  subst i. by rewrite Hp.
Qed.

Lemma add_blob_writer_ok now id blob w :
  writer_ok w -> pending w !! id = None -> fits blob -> open_blob e id blob = Ok (plain id) ->
  writer_ok (add_blob now id blob w).2.
Proof.
  intros (bl & Hw & Hnd & Hall & Hp & Hpos) Hid Hf Ho. exists (bl ++ [(id, blob)]).
  split; [by apply add_blob_inv|]. split.
  { rewrite fmap_app. csimpl. apply NoDup_app. split; [done|]. split; [|apply NoDup_singleton].
    intros i Hi ->%list_elem_of_singleton. apply Hp in Hi as [? Hi]. by rewrite Hid in Hi. }
  split; [apply Forall_app; split; [done|by repeat constructor]|]. unfold add_blob. cbn [pending snd]. split.
  - intros i. rewrite lookup_insert_is_Some', Hp, fmap_app, elem_of_app. csimpl. rewrite list_elem_of_singleton.
    intuition congruence.
  - by apply map_Forall_insert_2.
Qed.

Lemma add_blob_session_inv now ids d ws st pt id blob :
  session_inv ids d ws st -> unknown d ws id -> fits blob -> open_blob e id blob = Ok (plain id) ->
  sealable (add_blob now id blob (writer_of pt ws)).2 ->
  session_inv (ids ++ [id]) d (set_writer pt (add_blob now id blob (writer_of pt ws)).2 ws) st.
Proof.
  intros Hi (Hb & Hn & Hr & Hp) Hf Ho Hse. pose proof Hi as [H1 H2 H3 H4 H5 H6 H7 H8 H9 H10 H11 H12 H13 H14 H15 H16].
  set (w := writer_of pt ws) in *.
  assert (Hok : writer_ok (add_blob now id blob w).2).
  { apply add_blob_writer_ok; [unfold w; by destruct pt, H7|apply Hp|done|done]. }
  assert (Hadd : forall i, pend_refs (add_blob now id blob w).2 i = pend_refs w i + one id i)
    by (intros; apply pend_refs_add, Hp).
  assert (Hdom : forall i, is_Some (pending (add_blob now id blob w).2 !! i) <-> id = i \/ is_Some (pending w !! i)).
  { intros i. unfold add_blob. cbn [pending snd]. apply lookup_insert_is_Some'. }
  assert (Hpd : pending (data_pack_writer ws) !! id = None) by apply (Hp Data).
  assert (Hpt : pending (tree_pack_writer ws) !! id = None) by apply (Hp Tree).
  constructor; try done; set (w' := (add_blob now id blob w).2) in *.
  - destruct pt; ws; split; try done; apply H7.
  - intros pt' i Hpi. destruct (decide (id = i)) as [<-|Hne]; [done|]. apply (H8 pt').
    destruct pt, pt'; ws; try done; apply Hdom in Hpi as [|]; done.
  - intros i Hi1. destruct (decide (id = i)) as [<-|Hne].
    + destruct pt; ws; [done|]. rewrite Hpd in Hi1. by destruct Hi1.
    + destruct pt; ws; [apply Hdom in Hi1 as [|]; [done|by apply H9]|].
      apply eq_None_not_Some. intros [|Hx]%Hdom; [done|]. unfold w in Hx. ws. rewrite (H9 i Hi1) in Hx. by destruct Hx.
  - intros i. rewrite count_id_snoc, <- H11. destruct pt; ws; fold w'; rewrite Hadd; unfold w; ws; lia.
  - intros pt'. specialize (H16 pt'). by destruct pt, pt'.
Qed.

(** *** Sealing *)

Definition metas_of (bl : list (ChunkId * bytes)) : list BlobMeta := (fun b => mkMeta b.1 (blob_len b.2)) <$> bl.

Lemma seal_inversion bl w sp w' :
  writer_inv bl w -> seal w = Ok (sp, w') ->
  buffer w' = None /\ buffer w = Some (pack_of bl.*2) /\ sp = mkSealed (pack_id_compute (pack_of bl.*2)) (seal_entries (pending w) 9 (metas_of bl)) (pack_of bl.*2) /\
  pending w' = ∅ /\ writer_inv [] w'.
Proof.
  intros (Hb & Hm & _) Hs. unfold seal in Hs. rewrite Hm, length_fmap in Hs.
  destruct (Nat.eqb_spec (length bl) 0) as [|Hl]; [done|]. destruct bl as [|b bl]; [done|]. rewrite Hb in * by done.
  injection Hs as <- <-. done.
Qed.

Lemma empty_writer_ok w : pending w = ∅ -> writer_inv [] w -> writer_ok w.
Proof.
  intros Hp Hw. exists []. rewrite Hp. split; [done|]. split; [constructor|]. split; [constructor|]. split.
  - intros id. rewrite lookup_empty. split; [by intros []|by intros ?%elem_of_nil].
  - apply map_Forall_empty.
Qed.

Lemma entry_refs_seal pk pend base' bl id :
  NoDup bl.*1 ->
  entry_refs id (new_of pk <$> seal_entries pend base' (metas_of bl)) =
    if decide (id ∈ bl.*1) then default 1 (snd <$> pend !! id) else 0.
Proof.
  revert base'. induction bl as [|[i b] bl IH]; intros base'; csimpl; [done|]. intros [Hni Hnd]%NoDup_cons.
  unfold entry_refs in *. cbn [sum_Z new_of new_chunk_id new_refcount pc_chunk_id pc_refcount].
  rewrite IH by done. destruct (decide (i = id)) as [->|Hne].
  - rewrite (decide_False (P := id ∈ bl.*1)) by done. rewrite decide_True by set_solver. lia.
  - destruct (decide (id ∈ bl.*1)); [rewrite decide_True by set_solver|rewrite decide_False by set_solver]; lia.
Qed.

Lemma seal_refs bl w pk id :
  NoDup bl.*1 -> (forall id, is_Some (pending w !! id) <-> id ∈ bl.*1) ->
  entry_refs id (new_of pk <$> seal_entries (pending w) 9 (metas_of bl)) = pend_refs w id.
Proof.
  intros Hnd Hp. rewrite entry_refs_seal by done. unfold pend_refs. destruct (decide (id ∈ bl.*1)) as [Hin|Hni].
  - apply Hp in Hin as [x ->]. done.
  - rewrite <- Hp, <- eq_None_not_Some in Hni. by rewrite Hni.
Qed.

Lemma seal_entries_lookup pend base' bl i en :
  Forall (fun b => fits b.2) bl -> seal_entries pend base' (metas_of bl) !! i = Some en ->
  exists b, bl !! i = Some b /\ pc_chunk_id en = b.1 /\ blob_ranges base' bl.*2 !! i = Some (pc_offset en, pc_stored_size en) /\
    pc_refcount en = default 1 (snd <$> pend !! b.1).
Proof.
  intros Hf. revert base' i. induction Hf as [|[id b] bl Hb Hbl IH]; intros base' i; csimpl; [done|]. simpl in Hb.
  destruct i as [|i]; cbn [lookup list_lookup].
  - intros [= <-]. eexists. split; [done|]. cbn [pc_chunk_id pc_offset pc_stored_size pc_refcount]. by rewrite blob_len_fits.
  - rewrite blob_len_fits by done. replace (base' + (4 + Z.of_nat (length b))) with (base' + 4 + Z.of_nat (length b)) by lia.
    apply IH.
Qed.

Definition sealed_upload (sp : SealedPack) : string * bytes := (pack_storage_key (sealed_pack_id sp), sealed_data sp).

Lemma blob_ranges_bound base' bl i off size :
  0 <= base' -> blob_ranges base' bl !! i = Some (off, size) -> 0 <= off < base' + Z.of_nat (length (frames bl)) + 1.
Proof.
  intros Hb. revert base' i Hb. induction bl as [|b bl IH]; intros base' i Hb; [done|]. rewrite frames_cons, length_app, length_frame.
  destruct i as [|i]; cbn [blob_ranges lookup list_lookup].
  - intros [= <- <-]. lia.
  - intros Hi. apply IH in Hi; lia.
Qed.

(** What a sealed pack says of a chunk is true of the pack of that name. *)
Lemma sealed_promised w sp w' en :
  writer_ok w -> sealable w -> seal w = Ok (sp, w') -> en ∈ sealed_entries sp ->
  1 <= pc_refcount en /\ is_Some (pending w !! pc_chunk_id en) /\
  promised (pc_chunk_id en) (sealed_pack_id sp) (pc_offset en) (pc_stored_size en).
Proof.
  intros (bl & Hw & Hnd & Hall & Hp & Hpos) Hse Hs. destruct (seal_inversion _ _ _ _ Hw Hs) as (_ & Hb & -> & _ & _).
  cbn [sealed_pack_id sealed_entries]. intros [i Hi]%list_elem_of_lookup.
  assert (Hfit : Forall (fun b => fits b.2) bl) by (eapply Forall_impl; [exact Hall|]; by intros b []).
  destruct (seal_entries_lookup _ _ _ _ _ Hfit Hi) as (b & Hbl & Hid & Hr & Hrc). rewrite Hid, Hrc.
  assert (Hpb : is_Some (pending w !! b.1)) by (apply Hp, list_elem_of_fmap; eauto using list_elem_of_lookup_2).
  split.
  { destruct Hpb as [x Hx]. rewrite Hx. by apply (Hpos _ _ Hx). }
  destruct (Hse _ Hb) as [Hlen Hname].
  split; [done|]. split; [apply blake2b_id|]. split.
  { apply blob_ranges_bound in Hr; [|done]. unfold pack_of in Hlen. rewrite length_app in Hlen.
    change (length pack_header) with 9%nat in Hlen. unfold u64 in *. lia. }
  exists bl.*2, i, b.2. split; [exact Hname|]. split; [by apply Forall_fmap|].
  split; [by rewrite list_lookup_fmap, Hbl|]. split; [done|]. rewrite Forall_forall in Hall. by apply Hall, list_elem_of_lookup_2 with i.
Qed.

Lemma sealed_journal_ok w sp w' j :
  writer_ok w -> sealable w -> seal w = Ok (sp, w') -> journal_ok j ->
  journal_ok (record_pack (sealed_pack_id sp) (journal_chunk <$> sealed_entries sp) j).
Proof.
  intros Hok Hse Hs Hj. apply map_Forall_insert_2; [|done]. apply Forall_fmap, Forall_forall. intros en Hen.
  by destruct (sealed_promised w sp w' en Hok Hse Hs Hen) as (_ & _ & Hp).
Qed.

Definition other (pt : PackType) : PackType := match pt with Data => Tree | Tree => Data end.

Record emptied (pt : PackType) (sp : SealedPack) (ws ws' : WriteSessionState) : Prop := {
  em_pending : pending (writer_of pt ws') = ∅;
  em_writer : writer_inv [] (writer_of pt ws');
  em_buffer : buffer (writer_of pt ws') = None;
  em_other : writer_of (other pt) ws' = writer_of (other pt) ws;
  em_delta : index_delta ws' = index_delta ws;
  em_tiered : tiered_dedup ws' = tiered_dedup ws;
  em_dedup : dedup_index ws' = dedup_index ws;
  em_uploads : pending_uploads ws' = pending_uploads ws;
  em_recovered : recovered_chunks ws' = recovered_chunks ws;
  em_journal : pending_journal ws' = record_pack (sealed_pack_id sp) (journal_chunk <$> sealed_entries sp) (pending_journal ws);
}.

Lemma pack_key_packs p : starts_with (pack_storage_key p) "packs/" = true.
Proof. apply (starts_with_strip _ _ _ (strip_prefix_app "packs/" _)). Qed.

Lemma named_snoc ups k d :
  named ups -> starts_with k "packs/" = true -> pack_data k = d -> named (ups ++ [(k, d)]).
Proof.
  intros H1 Hk Hd u [Hin|Hin]%elem_of_app; [by apply H1|]. by apply list_elem_of_singleton in Hin as ->.
Qed.

Lemma sealed_named w sp w' ups :
  writer_ok w -> sealable w -> seal w = Ok (sp, w') -> named ups -> named (ups ++ [sealed_upload sp]).
Proof.
  intros (bl & Hw & _) Hse Hs Hn. destruct (seal_inversion _ _ _ _ Hw Hs) as (_ & Hb & -> & _ & _).
  apply named_snoc; [done|apply pack_key_packs|by apply Hse].
Qed.

Lemma emptied_writer pt sp ws ws' i :
  emptied pt sp ws ws' ->
  pend_refs (data_pack_writer ws') i + pend_refs (tree_pack_writer ws') i + pend_refs (writer_of pt ws) i =
  pend_refs (data_pack_writer ws) i + pend_refs (tree_pack_writer ws) i.
Proof.
  intros [Hp _ _ Ho _ _ _ _ _ _]. assert (Hz : pend_refs (writer_of pt ws') i = 0) by (unfold pend_refs; by rewrite Hp).
  destruct pt; cbn [other] in Ho; ws; rewrite Ho, Hz; lia.
Qed.

Lemma other_of (pt pt' : PackType) : pt' <> pt -> pt' = other pt.
Proof. by destruct pt, pt'. Qed.

Lemma emptied_ok pt sp ws ws' :
  emptied pt sp ws ws' -> (forall p, writer_ok (writer_of p ws)) -> (forall p, sealable (writer_of p ws)) ->
  forall p, writer_ok (writer_of p ws') /\ sealable (writer_of p ws').
Proof.
  intros Hem Hok Hse p. destruct (decide (p = pt)) as [->|Hne].
  - split; [apply empty_writer_ok; [apply (em_pending _ _ _ _ Hem)|apply (em_writer _ _ _ _ Hem)]|].
    intros v. by rewrite (em_buffer _ _ _ _ Hem).
  - apply other_of in Hne as ->. rewrite (em_other _ _ _ _ Hem). done.
Qed.

Lemma si_writer ids d ws st pt : session_inv ids d ws st -> writer_ok (writer_of pt ws).
Proof. intros Hi. destruct (si_writers _ _ _ _ Hi). by destruct pt. Qed.

Lemma seal_session_inv ids d pt ws ws1 ws2 st sp w :
  session_inv ids d ws st -> seal (writer_of pt ws) = Ok (sp, w) -> emptied pt sp ws ws1 ->
  grows d (new_of (sealed_pack_id sp) <$> sealed_entries sp) ws1 ws2 ->
  session_inv ids (append_entries (new_of (sealed_pack_id sp) <$> sealed_entries sp) d)
    (set_uploads (pending_uploads ws2 ++ [sealed_upload sp]) ws2) st.
Proof.
  intros Hi Hs Hem [G1 G2 G3 [G4 G5] G6 G7 G8]. pose proof Hem as [E1 E2 Eb E3 E4 E5 E6 E7 E8 E9].
  pose proof (si_writer _ _ _ _ pt Hi) as Hok. pose proof (si_sealable _ _ _ _ Hi pt) as Hse.
  assert (Hpl := fun en => sealed_promised (writer_of pt ws) sp w en Hok Hse Hs).
  pose proof (sealed_named _ _ _ _ Hok Hse Hs (si_named _ _ _ _ Hi)) as Hnm.
  pose proof (sealed_journal_ok _ _ _ _ Hok Hse Hs (si_journal _ _ _ _ Hi)) as Hjo.
  pose proof (emptied_ok _ _ _ _ Hem (fun p => si_writer _ _ _ _ p Hi) (si_sealable _ _ _ _ Hi)) as Heo.
  assert (Hw2 : forall pt', writer_of pt' ws2 = writer_of pt' ws1) by (by intros []).
  assert (Hsub : forall pt' id, is_Some (pending (writer_of pt' ws2) !! id) -> is_Some (pending (writer_of pt' ws) !! id)).
  { intros pt' id. rewrite Hw2. destruct (decide (pt' = pt)) as [->|Hne].
    - rewrite E1, lookup_empty. by intros [].
    - apply other_of in Hne as ->. by rewrite E3. }
  destruct Hok as (bl & Hw & Hnd & Hall & Hp & Hpos). destruct (seal_inversion _ _ _ _ Hw Hs) as (_ & Hbuf & Hsp & _ & _).
  set (es := new_of _ <$> _) in *. apply (absorb_inv ids ids d es ws);
    cbn [set_uploads data_pack_writer tree_pack_writer pending_uploads dedup_index tiered_dedup index_delta recovered_chunks pending_journal]; try done.
  - intros id. specialize (G3 id). unfold known_size in *. ws. by rewrite G3, E5, E6.
  - unfold es. rewrite Hsp. cbn [sealed_entries sealed_pack_id]. rewrite <- list_fmap_compose.
    change (new_chunk_id ∘ new_of _) with pc_chunk_id. destruct (seal_entries_ranges (pending (writer_of pt ws)) 9 bl) as [_ Hr].
    { eapply Forall_impl; [exact Hall|]. by intros b []. }
    unfold metas_of. by rewrite Hr.
  - intros id (n & -> & (en & -> & Hen)%list_elem_of_fmap)%list_elem_of_fmap. destruct (Hpl en Hen) as (_ & Hpn & _).
    cbn [new_of new_chunk_id]. destruct (si_pending _ _ _ _ Hi pt _ Hpn) as (? & ? & ?).
    split; [done|]. split; [done|]. split; [by rewrite G7, E8|].
    intros pt'. destruct (decide (pt' = pt)) as [->|Hne]; apply eq_None_not_Some.
    + assert (writer_of pt (set_uploads (pending_uploads ws2 ++ [sealed_upload sp]) ws2) = writer_of pt ws2) as -> by (by destruct pt).
      rewrite Hw2, E1, lookup_empty. by intros [].
    + intros Hx. assert (Hx' : is_Some (pending (writer_of pt' ws2) !! pc_chunk_id en)) by (by destruct pt'). apply Hsub in Hx'.
      pose proof (si_apart _ _ _ _ Hi (pc_chunk_id en)) as Hap.
      destruct pt, pt'; ws; try done; [rewrite Hap in Hx' by done|rewrite Hap in Hpn by done]; by destruct Hx', Hpn.
  - apply Forall_fmap, Forall_forall. intros en Hen. by destruct (Hpl en Hen).
  - intros n (en & -> & Hen)%list_elem_of_fmap. destruct (Hpl en Hen) as (_ & _ & Hpr). split; [|done].
    left. rewrite fmap_app. apply elem_of_app. right. apply list_elem_of_here.
  - cbn [writer_of] in G4, G5. rewrite G4, G5. split; [apply (Heo Data)|apply (Heo Tree)].
  - by rewrite G7, E8.
  - rewrite G6, E7. intros u Hu. apply elem_of_app. by left.
  - by rewrite G6, E7.
  - by rewrite G8, E9.
  - intros pt'. change (writer_of pt' (set_uploads _ ws2)) with (writer_of pt' ws2). rewrite Hw2. apply Heo.
  - intros id. pose proof (emptied_writer _ _ _ _ id Hem) as Hem'. cbn [writer_of] in G4, G5. rewrite G4, G5. unfold es. rewrite Hsp.
    cbn [sealed_entries sealed_pack_id]. rewrite seal_refs by done. lia.
Qed.

(** *** The store under a session

    A session adds packs and writes its own objects; everything else stays as
    it was in [st0]. *)
Definition extends (st0 st : Store) : Prop :=
  (forall k, starts_with k "packs/" = false -> starts_with k SESSIONS_PREFIX = false -> st !! k = st0 !! k) /\
  (forall k d, starts_with k "packs/" = true -> st0 !! k = Some d -> st !! k = Some d).

(** The journals in the store can be trusted. *)
Definition journals_ok (st : Store) : Prop :=
  forall k sid data wire, parse_index_id k = Some sid -> st !! k = Some data -> decode_journal e data = Some wire ->
  Forall journal_entry_ok wire.

Record St (st0 st : Store) : Prop := {
  st_extends : extends st0 st;
  st_names : names st;
  st_journals : journals_ok st;
}.

Lemma prefix_apart k : starts_with k SESSIONS_PREFIX = true -> starts_with k "packs/" = false.
Proof. destruct k as [|[[] [] [] [] [] [] [] []] k]; simpl; done. Qed.

Lemma parse_index_sessions k sid : parse_index_id k = Some sid -> starts_with k SESSIONS_PREFIX = true.
Proof.
  unfold parse_index_id. destruct (strip_prefix k SESSIONS_PREFIX) eqn:E; [|done]. intros _. by eapply starts_with_strip.
Qed.

(** An object that the session may put under its own prefix. *)
Definition session_object (k : string) (x : bytes) : Prop :=
  starts_with k SESSIONS_PREFIX = true /\
  forall sid wire, parse_index_id k = Some sid -> decode_journal e x = Some wire -> Forall journal_entry_ok wire.

Lemma session_put_St st0 st k x : session_object k x -> St st0 st -> St st0 (<[k := x]> st).
Proof.
  intros [Hk Hx] [[H1 H2] H3 H4]. pose proof (prefix_apart k Hk) as Hnp. split; [split|..].
  - intros k' Hp Hs. rewrite lookup_insert_ne by congruence. auto.
  - intros k' y Hp Hy. rewrite lookup_insert_ne by congruence. auto.
  - intros k' y Hp Hy. rewrite lookup_insert_ne in Hy by congruence. auto.
  - intros k' sid y wire Hp Hy Hd. apply lookup_insert_Some in Hy as [[<- <-]|[_ Hy]]; [by eapply Hx|by eapply H4].
Qed.

Lemma pack_put_St st0 st k : starts_with k "packs/" = true -> St st0 st -> St st0 (<[k := pack_data k]> st).
Proof.
  intros Hk [[H1 H2] H3 H4]. split; [split|..].
  - intros k' Hp Hs. rewrite lookup_insert_ne by congruence. auto.
  - intros k' d Hp Hd. apply H2 in Hd; [|done]. destruct (decide (k = k')) as [->|]; [|by rewrite lookup_insert_ne].
    by rewrite lookup_insert_eq, (H3 k' d).
  - intros k' y Hp Hy. apply lookup_insert_Some in Hy as [[<- <-]|[_ Hy]]; [done|by apply H3].
  - intros k' sid y wire Hp Hy Hd. apply lookup_insert_Some in Hy as [[<- <-]|[_ Hy]]; [|by eapply H4].
    apply parse_index_sessions, prefix_apart in Hp. congruence.
Qed.

(** The object of a true journal. *)
Lemma journal_object `{LawfulEngine e} k j nonce compressed packed :
  starts_with k SESSIONS_PREFIX = true -> journal_ok j -> length nonce = NONCE_LEN ->
  compress (CZstd 3) (mp_encode (to_wire j)) = Ok compressed ->
  pack_object_with_context e OPendingIndex PENDING_INDEX_OBJECT_CONTEXT compressed nonce = Ok packed ->
  session_object k packed.
Proof.
  intros Hk Hj Hn Hc Hp. split; [done|]. intros sid wire _ Hd. unfold decode_journal in Hd.
  rewrite (unpack_expected e _ _ _ _ _ Hn Hp) in Hd. destruct (decompress_metadata compressed) as [o|] eqn:Ho; [|done].
  rewrite (decompress_metadata_sound _ _ _ _ Hc Ho), mp_decode_encode in Hd. injection Hd as <-.
  apply Forall_forall. intros pe ([k' pe'] & -> & Hin%elem_of_map_to_list)%list_elem_of_fmap. by apply (Hj _ _ Hin).
Qed.

(** A session marker is not a journal. *)
Lemma marker_object sid x : session_object (session_marker_key sid) x.
Proof.
  split; [apply (starts_with_strip _ _ _ (strip_prefix_app SESSIONS_PREFIX _))|]. intros sid' wire Hp. exfalso.
  unfold parse_index_id, session_marker_key in Hp. rewrite strip_prefix_app in Hp. cbn in Hp.
  apply strip_suffix_Some, (f_equal str_bytes) in Hp. rewrite !str_bytes_app in Hp.
  apply (f_equal last) in Hp. by rewrite !last_app in Hp.
Qed.

(** *** Invariants of the session and the store *)

Context {Hlaw : LawfulEngine e}.

Definition same_core (ws ws' : WriteSessionState) : Prop :=
  data_pack_writer ws' = data_pack_writer ws /\ tree_pack_writer ws' = tree_pack_writer ws /\
  index_delta ws' = index_delta ws /\ tiered_dedup ws' = tiered_dedup ws /\ dedup_index ws' = dedup_index ws /\
  recovered_chunks ws' = recovered_chunks ws /\ pending_journal ws' = pending_journal ws.

Lemma moved_inv ids d ws ws' st st' :
  session_inv ids d ws st -> same_core ws ws' -> keeps st (pending_uploads ws) st' (pending_uploads ws') ->
  named (pending_uploads ws') -> session_inv ids d ws' st'.
Proof.
  intros [H1 H2 H3 H4 H5 H6 H7 H8 H9 H10 H11 H12 H13 H14 H15 H16] (E1 & E2 & E3 & E4 & E5 & E6 & E7) Hk Hn.
  assert (Hw : forall pt, writer_of pt ws' = writer_of pt ws) by (by intros []).
  constructor; unfold known_size; rewrite ?E1, ?E2, ?E3, ?E4, ?E5, ?E6, ?E7; try done.
  - intros pt id. rewrite Hw. apply H8.
  - intros id en Hr. destruct (H10 id en Hr) as (? & ? & ?). split; [done|]. split; [done|]. by eapply placed_mono.
  - intros n Hin. eapply placed_mono; [done|]. by apply H13.
  - intros pt. rewrite Hw. apply H16.
Qed.

(** What holds of a session also after an operation has failed: enough to
    seal, upload and journal what is left. *)
Record Weak (st0 : Store) (s : Session) (st : Store) : Prop := {
  wk_store : St st0 st;
  wk_named : named (pending_uploads (s_ws s));
  wk_journal : journal_ok (pending_journal (s_ws s));
  wk_writers : forall pt, writer_ok (writer_of pt (s_ws s));
  wk_sealable : forall pt, sealable (writer_of pt (s_ws s));
}.

(** The writers in [em] are known to be empty. *)
Definition Inv (st0 : Store) (ids : list ChunkId) (em : PackType -> bool) (s : Session) (st : Store) : Prop :=
  (exists d, session_inv ids d (s_ws s) st /\ forall pt, em pt = true -> pending (writer_of pt (s_ws s)) = ∅) /\ St st0 st.

Definition with_uploads (ups : list (string * bytes)) (s : Session) : Session :=
  mkSess (s_index s) (s_dirty s) (set_uploads ups (s_ws s)).

(** The invariants that survive what the background threads do: objects of
    the session are put, an upload leaves the queue and is stored. *)
Record robust (st0 : Store) (I : Session -> Store -> Prop) : Prop := {
  rb_weak : forall s st, I s st -> Weak st0 s st;
  rb_put : forall s st k x, session_object k x -> I s st -> I s (<[k := x]> st);
  rb_same : forall s s' st, same_core (s_ws s) (s_ws s') -> pending_uploads (s_ws s') = pending_uploads (s_ws s) -> I s st -> I s' st;
  rb_upload : forall s st u, u ∈ pending_uploads (s_ws s) -> I s st -> I s (<[u.1 := u.2]> st);
  rb_join : forall s st u ups, pending_uploads (s_ws s) ≡ₚ u :: ups -> I s st -> I (with_uploads ups s) (<[u.1 := u.2]> st);
}.

Lemma named_cons u ups ups' : named ups -> ups ≡ₚ u :: ups' -> named ups' /\ starts_with u.1 "packs/" = true /\ u.2 = pack_data u.1.
Proof.
  intros Hn Hp. split; [intros v Hv; apply Hn; rewrite Hp; by right|]. apply Hn. rewrite Hp. by left.
Qed.

Lemma same_core_writers ws ws' pt : same_core ws ws' -> writer_of pt ws' = writer_of pt ws.
Proof. intros (E1 & E2 & _). by destruct pt. Qed.

Lemma Weak_robust st0 : robust st0 (Weak st0).
Proof.
  split.
  - done.
  - intros s st k x Hk [H1 H2 H3 H4 H5]. split; [by apply session_put_St|done..].
  - intros s s' st Hc Hu [H1 H2 H3 H4 H5]. split; [done|by rewrite Hu|by destruct Hc as (_ & _ & _ & _ & _ & _ & ->)|..];
      intros pt; by rewrite (same_core_writers _ _ pt Hc).
  - intros s st u Hu [H1 H2 H3 H4 H5]. destruct (H2 u Hu) as [Hk Hd]. split; [rewrite Hd; by apply pack_put_St|done..].
  - intros s st u ups Hp [H1 H2 H3 H4 H5]. destruct (named_cons _ _ _ H2 Hp) as (Hn & Hk & Hd).
    split; [rewrite Hd; by apply pack_put_St|done..].
Qed.

Lemma Inv_robust st0 ids em : robust st0 (Inv st0 ids em).
Proof.
  split.
  - intros s st [[d [Hi _]] Hst]. split; [done|apply Hi|apply Hi| |apply Hi]. intros pt. by eapply si_writer.
  - intros s st k x Hk [[d [Hi He]] Hst]. split; [|by apply session_put_St]. exists d. split; [|done].
    eapply moved_inv; [done|done| |apply Hi]. intros p. apply held_mono; [|intros [y Hy]].
    + intros u Hu. left. by apply list_elem_of_fmap_2.
    + rewrite lookup_insert_ne; [by eexists|]. intros E. destruct Hk as [Hk _]. apply prefix_apart in Hk. by rewrite E, pack_key_packs in Hk.
  - intros s s' st Hc Hu [[d [Hi He]] Hst]. split; [|done]. exists d. split.
    + eapply moved_inv; [done|done| |]; rewrite Hu; [by intros p|apply Hi].
    + intros pt Hpt. rewrite (same_core_writers _ _ pt Hc). by apply He.
  - intros s st u Hu [[d [Hi He]] Hst]. destruct (si_named _ _ _ _ Hi u Hu) as [Hk Hd].
    split; [|rewrite Hd; by apply pack_put_St]. exists d. split; [|done]. eapply moved_inv; [done|done| |apply Hi].
    intros p. apply held_mono; [intros v Hv; left; by apply list_elem_of_fmap_2|].
    intros Hx. by apply lookup_insert_is_Some'; right.
  - intros s st u ups Hp [[d [Hi He]] Hst]. destruct (named_cons _ _ _ (si_named _ _ _ _ Hi) Hp) as (Hn & Hk & Hd).
    split; [|rewrite Hd; by apply pack_put_St]. exists d. split; [|exact He].
    eapply moved_inv; [done|done| |exact Hn]. intros p. cbn [with_uploads s_ws set_uploads pending_uploads]. apply held_mono.
    + intros v Hv. rewrite Hp in Hv. apply elem_of_cons in Hv as [->|Hv]; [right; rewrite lookup_insert_eq; by eexists|].
      left. by apply list_elem_of_fmap_2.
    + intros Hx. by apply lookup_insert_is_Some'; right.
Qed.

(** *** The operations on uploads *)

Lemma swap_remove_perm {A} (l : list A) i x : l !! i = Some x -> x :: swap_remove i l ≡ₚ l.
Proof.
  intros Hi. destruct l as [|y l] using rev_ind; [done|]. unfold swap_remove. rewrite last_snoc, length_app. cbn [length].
  rewrite Nat.add_sub, take_app_length. destruct (Nat.ltb_spec i (length l)) as [Hlt|Hge].
  - rewrite lookup_app_l in Hi by done. rewrite <- Permutation_cons_append, (insert_take_drop l i y Hlt).
    rewrite <- (take_drop_middle l i x Hi) at 3. rewrite <- !Permutation_middle. apply perm_swap.
  - rewrite lookup_app_r in Hi by done. destruct (i - length l)%nat eqn:E; [|done]. injection Hi as ->. by rewrite <- Permutation_cons_append.
Qed.

Section Robust.
Context (st0 : Store) (I : Session -> Store -> Prop) (HI : robust st0 I).

(** Nonces have the length the engine asks for. *)
Definition tick_ok (tk : Tick) : Prop := length (tk_nonce tk) = NONCE_LEN.

Lemma write_pending_index_triple nonce s0 :
  length nonce = NONCE_LEN ->
  wtriple (fun s st => I s st /\ s = s0) (wdo (write_pending_index e nonce (s_ws s0))) (fun _ => I) I.
Proof.
  intros Hn. apply wtriple_do. intros s. unfold write_pending_index. cbv zeta.
  eapply triple_bind with (R := fun c st => I s st /\ s = s0 /\ compress (CZstd 3) (mp_encode (to_wire (pending_journal (s_ws s0)))) = Ok c).
  { apply triple_lift. intros st [H ->]. by destruct (compress _ _). }
  intros c. eapply triple_bind with (R := fun packed st => I s st /\ session_object (pending_index_key (s_ws s0)) packed).
  { apply triple_lift. intros st (H & -> & Hc). destruct (pack_object_with_context _ _ _ _ _) as [packed|er] eqn:Hp; [|done].
    split; [done|]. eapply journal_object; [|exact (wk_journal _ _ _ (rb_weak st0 I HI _ _ H))|exact Hn|exact Hc|exact Hp].
    apply (starts_with_strip _ _ _ (strip_prefix_app SESSIONS_PREFIX _)). }
  intros packed. apply triple_writing; [by intros st []|]. intros st [H Ho]. pose proof (rb_put st0 I HI s st _ _ Ho H). done.
Qed.

Lemma best_effort_triple E tk : tick_ok tk -> wtriple I (write_pending_index_best_effort e tk) (fun _ => I) E.
Proof.
  intros Hn. apply wtriple_get_bind. intros s0. cbv beta zeta. destruct (_ =? 0)%nat; [apply wtriple_ret; by intros s st []|].
  intros s w [Hs ->]. pose proof (write_pending_index_triple (tk_nonce tk) s0 Hn s0 w (conj Hs eq_refl)) as Ht.
  unfold wtry, wdo, mbind, WM_bind in *. destruct (write_pending_index _ _ _ w) as [[[]|er] w']; [|exact Ht].
  cbn [modify_ws]. by apply (rb_same st0 I HI s0).
Qed.

Lemma maybe_write_triple E tk : tick_ok tk -> wtriple I (maybe_write_pending_index e tk) (fun _ => I) E.
Proof.
  intros Hn. apply wtriple_get_bind. intros s0. cbv beta zeta. destruct (_ <=? _)%nat; [|apply wtriple_ret; by intros s st []].
  eapply wtriple_weaken; [by apply (best_effort_triple E)|by intros s st []|done|done].
Qed.

Lemma maybe_refresh_triple tk : wtriple I (maybe_refresh_session tk) (fun _ => I) (Weak st0).
Proof.
  apply wtriple_get_bind. intros s0. cbv beta zeta. destruct (_ && _); [|apply wtriple_ret; by intros s st []].
  eapply wtriple_bind with (R := fun _ => I).
  - eapply wtriple_weaken with (P := I) (Q := fun _ => I) (E := I); [|by intros s st []|done|apply (rb_weak st0 I HI)].
    apply wtriple_do. intros s. unfold refresh_session.
    apply preserves_bind; [apply preserves_try, preserves_reading|]. intros r. apply preserves_ignore, preserves_writing.
    intros st. apply (rb_put st0 I HI), marker_object.
  - intros _. apply wtriple_modify. intros s st. by apply (rb_same st0 I HI).
Qed.

(** An upload leaves the queue and its thread is joined. *)
Lemma remove_join_triple {B} s0 i u (f : unit -> WM B) Q :
  pending_uploads (s_ws s0) !! i = Some u -> wtriple I (f tt) Q (Weak st0) ->
  wtriple (fun s st => I s st /\ s = s0)
    (_ ← modify_ws (set_uploads (swap_remove i (pending_uploads (s_ws s0)))); r ← join u; f r) Q (Weak st0).
Proof.
  intros Hu Hf. set (ups := swap_remove i (pending_uploads (s_ws s0))).
  assert (Hp : pending_uploads (s_ws s0) ≡ₚ u :: ups) by (symmetry; by apply swap_remove_perm).
  eapply wtriple_bind with (R := fun _ s st => s = with_uploads ups s0 /\ I s0 st).
  { apply wtriple_modify. by intros s st [H ->]. }
  intros []. eapply wtriple_bind with (R := fun _ => I); [|by intros []].
  apply wtriple_do. intros s. apply triple_writing.
  - intros st [-> H]. apply (rb_weak st0 I HI) in H as [H1 H2 H3 H4 H5].
    split; [done| |done..]. by destruct (named_cons _ _ _ H2 Hp).
  - intros st [-> H]. pose proof (rb_join st0 I HI s0 st u ups Hp H) as Hj. split; [done|by apply (rb_weak st0 I HI)].
Qed.

Lemma drain_loop_triple tk fuel : forall i, wtriple I (drain_loop fuel tk i) (fun _ => I) (Weak st0).
Proof.
  induction fuel as [|fuel IH]; intros i; [by apply wtriple_ret|]. cbn [drain_loop]. apply wtriple_get_bind. intros s0. cbv zeta.
  destruct (pending_uploads (s_ws s0) !! i) as [u|] eqn:Hu; [|apply wtriple_ret; by intros s st []].
  destruct (tk_finished tk u.1).
  - by apply (remove_join_triple s0 i u (fun _ => drain_loop fuel tk i)).
  - eapply wtriple_weaken; [apply IH|by intros s st []|done|done].
Qed.

Lemma cap_triple tk : tick_ok tk -> wtriple I (cap_pending_uploads e tk) (fun _ => I) (Weak st0).
Proof.
  intros Hn. eapply wtriple_bind with (R := fun _ => I).
  { apply wtriple_get_bind. intros s0. eapply wtriple_bind with (R := fun _ => I); [|intros _; by apply maybe_write_triple].
    eapply wtriple_weaken; [apply drain_loop_triple|by intros s st []|done|done]. }
  intros _. eapply wtriple_bind with (R := fun _ => I); [apply maybe_refresh_triple|]. intros _.
  apply wtriple_get_bind. intros s0. cbv zeta.
  destruct (_ <=? _)%nat; [|apply wtriple_ret; by intros s st []].
  destruct (pending_uploads (s_ws s0)) as [|u ups] eqn:Hu; [apply wtriple_ret; by intros s st []|]. rewrite <- Hu.
  apply (remove_join_triple s0 0 u (fun _ => maybe_write_pending_index e tk)); [by rewrite Hu|]. by apply maybe_write_triple.
Qed.

(** All threads are joined; when none failed their packs are stored. *)
Lemma join_all_triple E s0 ups done0 first_err :
  pending_uploads (s_ws s0) = done0 ++ ups ->
  wtriple (fun s st => s = s0 /\ I s0 st /\ (first_err = None -> forall u, u ∈ done0 -> is_Some (st !! u.1)))
    (join_all ups first_err)
    (fun err s st => s = s0 /\ I s0 st /\ (err = None -> forall u, u ∈ pending_uploads (s_ws s0) -> is_Some (st !! u.1))) E.
Proof.
  revert done0 first_err. induction ups as [|u ups IH]; intros done0 first_err Hup; cbn [join_all].
  { apply wtriple_ret. intros s st. by rewrite Hup, app_nil_r. }
  assert (Hu : u ∈ pending_uploads (s_ws s0)) by (rewrite Hup; apply elem_of_app; right; apply list_elem_of_here).
  set (P := fun st => I s0 st /\ (first_err = None -> forall u, u ∈ done0 -> is_Some (st !! u.1))).
  assert (Hput : forall st, P st -> P (<[u.1 := u.2]> st)).
  { intros st [H Hst]. split; [by apply (rb_upload st0 I HI)|]. intros Hf v Hv. apply lookup_insert_is_Some'. right. by apply Hst. }
  eapply wtriple_bind with (R := fun r s st => s = s0 /\ P st /\ (match r with Ok _ => is_Some (st !! u.1) | Err _ => True end)).
  - eapply wtriple_weaken; [eapply wtriple_try with (P := fun s st => s = s0 /\ P st) (E := fun s st => s = s0 /\ P st)
      (Q := fun _ s st => s = s0 /\ P st /\ is_Some (st !! u.1)) (E' := E)|done| |done].
    + apply wtriple_do. intros s. apply triple_writing; [done|]. intros st [-> HP]. pose proof (Hput st HP).
      split; [|done]. split; [done|]. split; [done|]. rewrite lookup_insert_eq. by eexists.
    + by intros [a|er] s st; [|intros [? ?]].
  - intros r. eapply wtriple_weaken; [apply (IH (done0 ++ [u])); by rewrite <- app_assoc| |done|done].
    intros s st (-> & [H Hst] & Hr). split; [done|]. split; [done|]. intros He v. rewrite elem_of_app, list_elem_of_singleton.
    destruct first_err, r; try done. intros [Hv| ->]; [by apply Hst|done].
Qed.
End Robust.

Definition ticks_ok (tk : PackType -> Tick) : Prop := forall pt, tick_ok (tk pt).

Lemma wait_triple st0 ids em tk :
  tick_ok tk ->
  wtriple (Inv st0 ids em) (wait_pending_uploads e tk)
    (fun _ s st => Inv st0 ids em s st /\ pending_uploads (s_ws s) = []) (Weak st0).
Proof.
  intros Hn. set (I := fun (err : option VykarError) s st =>
    match err with None => Inv st0 ids em s st /\ pending_uploads (s_ws s) = [] | Some _ => Weak st0 s st end).
  apply wtriple_get_bind. intros s0. eapply wtriple_bind.
  { eapply wtriple_weaken; [apply (join_all_triple st0 _ (Inv_robust st0 ids em) (Weak st0) s0 (pending_uploads (s_ws s0)) [] None); done| |intros ? ? ?; exact id|done].
    intros s st [HI ->]. split; [done|]. split; [done|]. by intros _ u ?%elem_of_nil. }
  intros err. eapply wtriple_bind with (R := fun _ => I err).
  { apply wtriple_modify. intros s st (-> & HI & Hall). unfold I. pose proof (rb_weak _ _ (Inv_robust st0 ids em) _ _ HI) as [W1 W2 W3 W4 W5].
    destruct err; [split; [done|by intros u ?%elem_of_nil|done..]|]. specialize (Hall eq_refl).
    split; [|done]. destruct HI as [[d [Hi He]] Hx]. split; [|done]. exists d. split; [|exact He].
    eapply moved_inv; [done|done| |by intros u ?%elem_of_nil].
    intros p [(u & Hp & Hu)%list_elem_of_fmap|Hh]; right; [|done]. rewrite Hp. by apply Hall. }
  intros _. eapply wtriple_bind with (R := fun _ => I err).
  { apply (best_effort_triple st0); [|done]. unfold I. destruct err; [apply Weak_robust|].
    destruct (Inv_robust st0 ids em) as [S1 S2 S3 S4 S5]. split.
    - intros s st [HI _]. by apply S1.
    - intros s st k x Hk [HI Hu]. split; [by apply S2|done].
    - intros s s' st Hc Hu [HI Hu']. split; [by eapply S3|congruence].
    - intros s st u Hu [HI Hu']. rewrite Hu' in Hu. by apply elem_of_nil in Hu.
    - intros s st u ups Hp [HI Hu']. rewrite Hu' in Hp. by apply Permutation_nil_cons in Hp. }
  intros _. unfold I. destruct err; [by apply wtriple_fail|by apply wtriple_ret].
Qed.

Lemma note_sealed_emptied pt sp w ws :
  writer_ok (writer_of pt ws) -> seal (writer_of pt ws) = Ok (sp, w) ->
  emptied pt sp ws (note_sealed data_target pt sp w ws).
Proof.
  intros (bl & Hw & _) Hs. destruct (seal_inversion _ _ _ _ Hw Hs) as (B1 & _ & _ & B2 & B3).
  unfold note_sealed. destruct pt; cbv zeta; destruct (dump_tracker _); ws; constructor; done.
Qed.

Lemma flush_triple st0 ids em tk pt :
  tick_ok tk ->
  wtriple (Inv st0 ids em) (flush_writer_async e data_target tk pt)
    (fun _ => Inv st0 ids (fun p => em p || bool_decide (p = pt))) (Weak st0).
Proof.
  intros Hn. eapply wtriple_bind with (R := fun _ => Inv st0 ids em); [apply cap_triple; [apply Inv_robust|done]|].
  intros _. apply wtriple_get_bind. intros s0 s w [HI ->]. pose proof (rb_weak _ _ (Inv_robust st0 ids em) _ _ HI) as HW.
  destruct HI as [[d [Hi He]] Hx]. unfold wlift, mbind, WM_bind. destruct (seal (writer_of pt (s_ws s0))) as [[sp w1]|er] eqn:Hs; [|done].
  pose proof (note_sealed_emptied pt sp w1 (s_ws s0) (si_writer _ _ _ _ pt Hi) Hs) as Hem.
  cbn [modify_ws wget wput s_ws s_index s_dirty]. set (ws1 := note_sealed _ _ _ _ _) in *.
  pose proof (apply_sealed_entries_grows (sealed_pack_id sp) d (sealed_entries sp) (mkSess (s_index s0) (s_dirty s0) ws1)) as Hg.
  cbn [s_ws] in Hg. rewrite (em_delta _ _ _ _ Hem), (em_tiered _ _ _ _ Hem), (em_dedup _ _ _ _ Hem) in Hg.
  specialize (Hg (si_delta _ _ _ _ Hi) (si_mode _ _ _ _ Hi)). split; [|done]. eexists. split.
  - by eapply seal_session_inv.
  - intros p Hp. destruct Hg as [_ _ _ [G1 G2] _ _ _].
    trans (pending (writer_of p ws1)); [by destruct p; cbn [writer_of] in G1, G2 |- *; ws; rewrite ?G1, ?G2|].
    destruct (decide (p = pt)) as [->|Hne]; [by apply (em_pending _ _ _ _ Hem)|].
    rewrite bool_decide_false, orb_false_r in Hp by done. rewrite <- (He p Hp). f_equal.
    apply other_of in Hne as ->. by apply (em_other _ _ _ _ Hem).
Qed.

(** The same under the weaker invariant, for the abort path. *)
Lemma apply_sealed_same pk entries s :
  let ws := s_ws s in let ws' := s_ws (apply_sealed_entries pk entries s) in
  writer_of Data ws' = writer_of Data ws /\ writer_of Tree ws' = writer_of Tree ws /\
  pending_uploads ws' = pending_uploads ws /\ pending_journal ws' = pending_journal ws.
Proof.
  cbv zeta. unfold apply_sealed_entries. induction entries as [|en entries IH] using rev_ind; [done|].
  rewrite foldl_app. cbn [foldl]. destruct IH as (<- & <- & <- & <-). set (s1 := foldl _ _ _).
  unfold apply_sealed_entry, track_insert. destruct (tiered_dedup _), (dedup_index _), (dump_tracker _); done.
Qed.

Lemma flush_weak_triple st0 tk pt :
  tick_ok tk -> wtriple (Weak st0) (flush_writer_async e data_target tk pt) (fun _ => Weak st0) (Weak st0).
Proof.
  intros Hn. eapply wtriple_bind with (R := fun _ => Weak st0); [apply cap_triple; [apply Weak_robust|done]|].
  intros _. apply wtriple_get_bind. intros s0 s w [HW ->]. unfold wlift, mbind, WM_bind.
  destruct (seal (writer_of pt (s_ws s0))) as [[sp w1]|er] eqn:Hs; [|done]. destruct HW as [W1 W2 W3 W4 W5].
  pose proof (note_sealed_emptied pt sp w1 (s_ws s0) (W4 pt) Hs) as Hem.
  cbn [modify_ws wget wput s_ws s_index s_dirty]. set (ws1 := note_sealed _ _ _ _ _) in *.
  destruct (apply_sealed_same (sealed_pack_id sp) (sealed_entries sp) (mkSess (s_index s0) (s_dirty s0) ws1)) as (A1 & A2 & A3 & A4).
  cbn [s_ws] in *. pose proof (emptied_ok _ _ _ _ Hem W4 W5) as Heo.
  split; cbn [s_ws set_uploads pending_uploads pending_journal].
  - done.
  - rewrite A3, (em_uploads _ _ _ _ Hem). by eapply sealed_named.
  - rewrite A4, (em_journal _ _ _ _ Hem). by eapply sealed_journal_ok.
  - intros p. destruct (Heo p) as [Ho _]. by destruct p; cbn [writer_of] in *; cbn [data_pack_writer tree_pack_writer set_uploads]; rewrite ?A1, ?A2.
  - intros p. destruct (Heo p) as [_ Ho]. by destruct p; cbn [writer_of] in *; cbn [data_pack_writer tree_pack_writer set_uploads]; rewrite ?A1, ?A2.
Qed.

Lemma abort_triple st0 tk tk_wait E :
  ticks_ok tk -> tick_ok tk_wait -> wtriple (Weak st0) (flush_on_abort e data_target tk tk_wait) (fun _ => Weak st0) E.
Proof.
  intros Hn Hnw. apply wtriple_get_bind. intros s0. cbv zeta.
  assert (Hif : forall (b : bool) pt, wtriple (Weak st0) (if b then wtry (flush_writer_async e data_target (tk pt) pt) else mret (Ok tt))
    (fun _ => Weak st0) E).
  { intros [] pt; [|by apply wtriple_ret]. eapply wtriple_weaken; [apply wtriple_try with (E' := E), flush_weak_triple, Hn|done| |done].
    by intros [[]|er] s st. }
  destruct (_ && _); [apply wtriple_ret; by intros s st []|].
  eapply wtriple_bind with (R := fun _ => Weak st0); [eapply wtriple_weaken; [apply (Hif _ Data)|by intros s st []|done|done]|].
  intros _. apply wtriple_get_bind. intros s1.
  eapply wtriple_bind with (R := fun _ => Weak st0); [eapply wtriple_weaken; [apply (Hif _ Tree)|by intros s st []|done|done]|].
  intros _. apply wtriple_get_bind. intros s2.
  eapply wtriple_bind with (R := fun _ => Weak st0).
  { eapply wtriple_weaken; [apply (join_all_triple st0 _ (Weak_robust st0) E s2 (pending_uploads (s_ws s2)) [] None); done| | |done].
    - intros s st [HW ->]. split; [done|]. split; [done|]. by intros _ u ?%elem_of_nil.
    - by intros err s st (-> & HW & _). }
  intros _. eapply wtriple_bind with (R := fun _ => Weak st0).
  { apply wtriple_modify. intros s st [W1 W2 W3 W4 W5]. split; [done|by intros u ?%elem_of_nil|done..]. }
  intros _. by apply (best_effort_triple st0 _ (Weak_robust st0)).
Qed.

(** *** Chunks *)

Lemma seal_chunk_opens id data c nonce packed :
  length nonce = NONCE_LEN -> blen data <= MAX_DECOMPRESS_SIZE -> seal_chunk e id data c nonce = Ok packed ->
  open_blob e id packed = Ok data.
Proof.
  intros Hn Hl Hs. unfold seal_chunk in Hs. destruct (compress c data) as [z|] eqn:Hc; [|done]. cbn [mbind result_bind] in Hs.
  unfold open_blob. rewrite (unpack_expected e _ _ _ _ _ Hn Hs). cbn [mbind result_bind].
  by apply (decompress_compress c data z None).
Qed.

(** The inputs a chunk is stored with: a chunk of a size the readers accept,
    whose identifier and pack identifier are not those of other data. *)
Record storable (s : Session) (tk : Tick) (data : bytes) (c : Compression) (pt : PackType) (nonce : bytes) : Prop := {
  so_tick : tick_ok tk;
  so_nonce : length nonce = NONCE_LEN;
  so_size : blen data <= MAX_DECOMPRESS_SIZE;
  so_plain : plain (chunk_id_compute (chunk_id_key e) data) = data;
  so_packed : bump_ref_if_exists (chunk_id_compute (chunk_id_key e) data) s = None -> forall packed,
    seal_chunk e (chunk_id_compute (chunk_id_key e) data) data c nonce = Ok packed ->
    fits packed /\ sealable (add_blob (tk_now tk) (chunk_id_compute (chunk_id_key e) data) packed (writer_of pt (s_ws s))).2;
}.

Definition none_empty : PackType -> bool := fun _ => false.

Lemma Inv_weaken st0 ids em s st : Inv st0 ids em s st -> Inv st0 ids none_empty s st.
Proof. intros [[d [Hi _]] Hx]. split; [|done]. by exists d. Qed.

Lemma maybe_flush_triple st0 ids tk pt (b : bool) :
  tick_ok tk ->
  wtriple (Inv st0 ids none_empty) (if b then flush_writer_async e data_target tk pt else mret tt)
    (fun _ => Inv st0 ids none_empty) (Weak st0).
Proof.
  intros Hn. destruct b; [|by apply wtriple_ret]. eapply wtriple_weaken; [by apply flush_triple|done| |done].
  intros [] s st. apply Inv_weaken.
Qed.

Lemma store_chunk_triple st0 ids s0 tk data c pt nonce :
  storable s0 tk data c pt nonce -> room ids ->
  wtriple (fun s st => Inv st0 ids none_empty s st /\ s = s0) (store_chunk e data_target tk data c pt nonce)
    (fun r => Inv st0 (ids ++ [r.1.1]) none_empty) (Weak st0).
Proof.
  intros [Htk Hn Hsz Hpl Hpk] Hroom. unfold store_chunk. set (id := chunk_id_compute _ data) in *.
  apply wtriple_get_bind. intros s1. destruct (bump_ref_if_exists id s1) as [[size s']|] eqn:Hb.
  - intros s w [[HI ->] ->]. cbn. destruct HI as [[d [Hi _]] Hx]. split; [|done].
    destruct (bump_ref_inv _ _ _ _ _ _ _ Hi Hroom Hb) as [d' Hd']. by exists d'.
  - destruct (seal_chunk e id data c nonce) as [packed|er] eqn:Hs.
    2:{ intros s w [[HI ->] ->]. cbn. by apply (rb_weak _ _ (Inv_robust st0 ids none_empty)). }
    eapply wtriple_bind with (R := fun p s st => p = packed /\ Inv st0 ids none_empty s st /\ s = s0 /\ bump_ref_if_exists id s = None).
    { intros s w [[HI ->] ->]. cbn. done. }
    intros p. eapply wtriple_bind with (R := fun _ => Inv st0 (ids ++ [id]) none_empty).
    2:{ intros z. by apply wtriple_ret. }
    unfold commit_prepacked_chunk. eapply wtriple_bind with (R := fun _ => Inv st0 (ids ++ [id]) none_empty).
    { apply wtriple_modify. intros s st (-> & [[d [Hi _]] Hx] & -> & Hnone). destruct (Hpk Hnone packed eq_refl) as [Hfit Hse]. split; [|done]. exists d. split; [|done].
      apply add_blob_session_inv; [done|by eapply bump_ref_none|done| |done]. rewrite Hpl. by eapply seal_chunk_opens. }
    intros _. apply wtriple_get_bind. intros s2. eapply wtriple_bind with (R := fun _ => Inv st0 (ids ++ [id]) none_empty).
    { eapply wtriple_weaken; [by apply (maybe_flush_triple st0 (ids ++ [id]))|by intros s st []|done|done]. }
    intros _. by apply wtriple_ret.
Qed.

Lemma reuse_triple st0 ids id :
  room ids -> wtriple (Inv st0 ids none_empty) (reuse_cached_chunk_ref id) (fun _ => Inv st0 (ids ++ [id]) none_empty) (Weak st0).
Proof.
  intros Hroom s w HI. pose proof (rb_weak _ _ (Inv_robust st0 ids none_empty) _ _ HI) as HW. destruct HI as [[d [Hi _]] Hx].
  unfold reuse_cached_chunk_ref.
  destruct (bump_ref_if_exists id s) as [[size s']|] eqn:Hb; [|done]. split; [|done].
  destruct (bump_ref_inv _ _ _ _ _ _ _ Hi Hroom Hb) as [d' Hd']. by exists d'.
Qed.

(** *** The end of a session *)

Lemma no_pending_empty w : writer_ok w -> has_pending w = false -> pending w = ∅.
Proof.
  intros (bl & (_ & Hm & _) & _ & _ & Hp & _) Hh. unfold has_pending in Hh. rewrite Hm, length_fmap in Hh.
  destruct bl; [|done]. apply map_eq. intros id. rewrite lookup_empty. apply eq_None_not_Some. rewrite Hp. by intros ?%elem_of_nil.
Qed.

Lemma flush_if_triple st0 ids em tk pt (b : bool) :
  tick_ok tk ->
  wtriple (fun s st => Inv st0 ids em s st /\ (b = false -> pending (writer_of pt (s_ws s)) = ∅))
    (if b then flush_writer_async e data_target tk pt else mret tt)
    (fun _ => Inv st0 ids (fun p => em p || bool_decide (p = pt))) (Weak st0).
Proof.
  intros Hn. destruct b.
  - eapply wtriple_weaken; [by apply flush_triple|by intros s st []|done|done].
  - apply wtriple_ret. intros s st [[[d [Hi He]] Hx] Hb]. split; [|done]. exists d. split; [done|].
    intros p [Hp|Hp]%orb_true_iff; [by apply He|]. apply bool_decide_eq_true in Hp as ->. by apply Hb.
Qed.

(** What [flush_packs] leaves when it succeeds. *)
Definition flushed (st0 : Store) (ids : list ChunkId) (s : Session) (st : Store) : Prop :=
  (exists d, session_inv ids d (s_ws s) st) /\ pending_uploads (s_ws s) = [] /\
  pending (data_pack_writer (s_ws s)) = ∅ /\ pending (tree_pack_writer (s_ws s)) = ∅ /\ St st0 st.

Lemma flush_packs_triple st0 ids tk tk_wait :
  ticks_ok tk -> tick_ok tk_wait ->
  wtriple (Inv st0 ids none_empty) (flush_packs e data_target tk tk_wait) (fun _ => flushed st0 ids) (Weak st0).
Proof.
  intros Hn Hnw. apply wtriple_get_bind. intros s0. cbv zeta.
  set (bt := has_pending (tree_pack_writer (s_ws s0))).
  eapply wtriple_bind with (R := fun _ s st => Inv st0 ids (fun p => none_empty p || bool_decide (p = Data)) s st /\
    (bt = false -> pending (writer_of Tree (s_ws s)) = ∅)).
  { destruct bt eqn:Hbt.
    - eapply wtriple_weaken; [by apply flush_if_triple, Hn| | |done].
      + intros s st [HI ->]. split; [exact HI|]. destruct HI as [[d [Hi _]] _]. intros Hp. by apply no_pending_empty; [apply Hi|].
      + by intros [] s st HI.
    - destruct (has_pending (data_pack_writer (s_ws s0))) eqn:Hbd.
      + eapply wtriple_weaken; [by apply (flush_triple st0 ids (fun p => bool_decide (p = Tree))), Hn| | |done].
        * intros s st [[[d [Hi _]] Hx] ->]. split; [|done]. exists d. split; [done|]. intros pt ->%bool_decide_eq_true.
          by apply no_pending_empty; [apply Hi|].
        * intros [] s st [[d [Hi He]] Hx]. split; [|intros _; by apply He]. split; [|done]. exists d. split; [done|].
          intros pt Hpt. apply He. by destruct pt.
      + apply wtriple_ret. intros s st [[[d [Hi _]] Hx] ->]. split; [|intros _; by apply no_pending_empty; [apply Hi|]].
        split; [|done]. exists d. split; [done|]. intros pt Hpt. destruct pt; [|done]. by apply no_pending_empty; [apply Hi|]. }
  intros _. eapply wtriple_bind; [by apply flush_if_triple, Hn|]. intros [].
  eapply wtriple_weaken; [by apply wait_triple| | |done]; [done|]. intros [] s st [[[d [Hi He]] Hx] Hu].
  split; [by exists d|]. split; [done|]. split; [by apply (He Data)|]. split; [by apply (He Tree)|done].
Qed.

(** *** A whole session *)

Inductive writes : Session -> World -> list ChunkId -> Session -> World -> Prop :=
  | writes_nil s w : writes s w [] s w
  | writes_store s0 w0 ids s w tk data c pt nonce r s' w' :
      writes s0 w0 ids s w -> storable s tk data c pt nonce ->
      store_chunk e data_target tk data c pt nonce s w = (Ok r, (s', w')) ->
      writes s0 w0 (ids ++ [r.1.1]) s' w'
  | writes_reuse s0 w0 ids s w id size s' w' :
      writes s0 w0 ids s w -> reuse_cached_chunk_ref id s w = (Ok size, (s', w')) ->
      writes s0 w0 (ids ++ [id]) s' w'.

Definition small (ids : list ChunkId) : Prop := Z.of_nat (length ids) < u32_modulus.

Lemma writes_inv s0 w0 ids s w d0 :
  writes s0 w0 ids s w -> session_inv [] d0 (s_ws s0) (objects w0) -> St (objects w0) (objects w0) -> small ids ->
  Inv (objects w0) ids none_empty s (objects w).
Proof.
  intros Hw Hd Hst0. induction Hw as [s w|s0 w0 ids s w tk data c pt nonce r s' w' Hw IH Hso Hst|s0 w0 ids s w id size s' w' Hw IH Hst];
    intros Hsm.
  - split; [by exists d0|done].
  - assert (Hroom : room ids) by (unfold small, room in *; rewrite length_app in Hsm; simpl in Hsm; lia).
    assert (HI : Inv (objects w0) ids none_empty s (objects w)) by (apply IH; [done|done|unfold small, room in *; lia]).
    pose proof (store_chunk_triple (objects w0) ids s tk data c pt nonce Hso Hroom s w (conj HI eq_refl)) as Ht. by rewrite Hst in Ht.
  - assert (Hroom : room ids) by (unfold small, room in *; rewrite length_app in Hsm; simpl in Hsm; lia).
    assert (HI : Inv (objects w0) ids none_empty s (objects w)) by (apply IH; [done|done|unfold small, room in *; lia]).
    pose proof (reuse_triple (objects w0) ids id Hroom s w HI) as Ht. by rewrite Hst in Ht.
Qed.

(** What the delta says of the chunks a session was asked for, over a store. *)
Definition delta_ok (ids : list ChunkId) (d : IndexDelta) (st : Store) : Prop :=
  (forall id, delta_refs d id = count_id id ids) /\ NoDup (new_ids d) /\
  (forall id, is_Some (refcount_bumps d !! id) -> id ∈ base \/ id ∈ new_ids d) /\
  (forall n, n ∈ new_entries d -> (new_chunk_id n ∉ base) /\ 1 <= new_refcount n /\
     in_place e plain st (new_chunk_id n) (new_pack_id n) (new_pack_offset n) (new_stored_size n)).

Lemma placed_stored st id p off size :
  names st -> placed st [] id p off size -> in_place e plain st id p off size.
Proof.
  intros Hn [[?%elem_of_nil|[x Hx]] (_ & _ & bl & i & b & Hd & Hr)]; [done|]. exists bl, i, b. split; [|done].
  by rewrite Hx, (Hn _ _ (pack_key_packs p) Hx), Hd.
Qed.

Lemma flushed_delta st0 ids s st :
  flushed st0 ids s st -> exists d, index_delta (s_ws s) = Some d /\ delta_ok ids d st.
Proof.
  intros ([d Hi] & Hu & Hd & Ht & Hst). exists d. split; [apply Hi|]. split; [|split; [apply Hi|split]].
  - intros id. pose proof (si_refs _ _ _ _ Hi id) as Hr. unfold pend_refs in Hr. rewrite Hd, Ht, !lookup_empty in Hr. simpl in Hr. lia.
  - intros id [n Hn]. by apply (si_bumps _ _ _ _ Hi id n).
  - intros n Hn. split; [apply (si_new _ _ _ _ Hi); by apply list_elem_of_fmap_2|].
    split; [pose proof (si_pos _ _ _ _ Hi) as Hp; rewrite Forall_forall in Hp; by apply Hp|].
    apply placed_stored; [apply Hst|]. rewrite <- Hu. by apply (si_placed _ _ _ _ Hi).
Qed.

(** C2. A backup's bookkeeping is exact.  Whatever chunks a session stores or
    reuses, in whatever order, with packs sealed and uploaded in between and
    under any storage faults: when [flush_packs] succeeds, the delta counts
    for every chunk exactly the references asked for, it introduces each new
    chunk once, and the blob of each is in a stored pack at the recorded
    offset and opens to the chunk's data.  Also when it fails the store has
    changed in packs and session objects only. *)
Theorem session_accounts s0 w0 ids s w d0 tk tk_wait :
  session_inv [] d0 (s_ws s0) (objects w0) -> St (objects w0) (objects w0) ->
  writes s0 w0 ids s w -> small ids -> ticks_ok tk -> tick_ok tk_wait ->
  let '(r, (s', w')) := flush_packs e data_target tk tk_wait s w in
  extends (objects w0) (objects w') /\
  (r = Ok tt -> exists d, index_delta (s_ws s') = Some d /\ delta_ok ids d (objects w')).
Proof.
  intros Hd Hst Hw Hsm Hn Hnw. pose proof (writes_inv _ _ _ _ _ _ Hw Hd Hst Hsm) as HI.
  pose proof (flush_packs_triple (objects w0) ids tk tk_wait Hn Hnw s w HI) as Ht.
  destruct (flush_packs _ _ _ _ _ _) as [[[]|er] [s' w']]; [|split; [apply Ht|done]].
  split; [apply Ht|]. intros _. by eapply flushed_delta.
Qed.
End Accounting.
