(* ===== verification/Recovery.v ===== *)
(** * Beginning a write session, and recovery (crates/vykar-core/src/repo/mod.rs
      and repo/write_session.rs)

    A session begins with the chunk index loaded, takes over what the journals
    of interrupted sessions say of packs that are still there, and switches to
    one of the two lightweight dedup structures.  The markers of other
    sessions tell which journals may be taken over. *)

From S2P Require Import Prelude Types Storage ChunkIndex Pack.
From S2P Require Import Crypto Format Compress DedupCache Retention Lock Repo ReadPath WriteSession Accounting.
#[local] Open Scope string_scope.
#[local] Open Scope list_scope.
#[local] Open Scope Z_scope.

(** A companion marker; no marker at all makes the journal an orphan. *)
Inductive MarkerState := MActive | MStale | MUnknown.

Inductive RecoverResult := ROk (recovered : nat) | RCorrupt | RNotFound.

Record PendingIndexRecovery := mkPIR {
  pir_recovered_chunks : nat;
  pir_recovered_sessions : list string;
}.

(** ** The beginning of a session *)

Section Begin.
Context {Hxor : Xor8} (data_target : nat -> Z).

Definition set_session_id (sid : string) (ws : WriteSessionState) : WriteSessionState :=
  mkWS (data_pack_writer ws) (tree_pack_writer ws) (pending_uploads ws) (max_in_flight_uploads ws) (dedup_index ws)
    (tiered_dedup ws) (index_delta ws) (pending_journal ws) (pending_journal_last_written ws) (recovered_chunks ws)
    (recovered_index_keys ws) (persisted_pack_count ws) (session_packs_flushed ws) sid (last_session_refresh ws)
    (dump_tracker ws).

Definition begin_write_session (min_pack_size now : Z) (ix : ChunkIndex) (dirty : bool)
    (active : option WriteSessionState) : res Session :=
  match active with
  | Some _ => Err (Other "write session already active")
  | None =>
      let num_packs := count_distinct_packs ix in
      let ws := ws_new (data_target num_packs) (compute_tree_pack_target min_pack_size) 2 now in
      Ok (mkSess ix dirty (set_counts num_packs (session_packs_flushed ws) ws))
  end.

Definition set_write_session_id (sid : string) (s : Session) : Session :=
  mkSess (s_index s) (s_dirty s) (set_session_id sid (s_ws s)).

Definition rebase_pack_target_from_index (s : Session) : Session :=
  let num_packs := count_distinct_packs (s_index s) in
  let ws := set_counts num_packs 0 (s_ws s) in
  mkSess (s_index s) (s_dirty s) (set_writer Data (set_target_size (data_target num_packs) (data_pack_writer ws)) ws).

Definition enable_dedup_mode (s : Session) : Session :=
  match dedup_index (s_ws s) with
  | Some _ => s
  | None =>
      mkSess ∅ (s_dirty s)
        (set_dedup (Some (dedup_from_chunk_index (s_index s))) (tiered_dedup (s_ws s)) (Some delta_new) (s_ws s))
  end.

(** [cache] is what [MmapDedupCache::open] answers; with it the value of
    [rebuild_dedup_cache] that is set, if one is. *)
Definition enable_tiered_dedup_mode (cache : option MmapCache) (s : Session) : option bool * Session :=
  match tiered_dedup (s_ws s), dedup_index (s_ws s) with
  | None, None =>
      (Some true,
       match cache with
       | Some c => mkSess ∅ (s_dirty s) (set_dedup None (Some (tiered_new c)) (Some delta_new) (s_ws s))
       | None => enable_dedup_mode s
       end)
  | _, _ => (None, s)
  end.
End Begin.

(** ** Recovery *)

Section Recover.
Context `{Hhex : HexCodec} `{Hblake : Blake2b} {Hxor : Xor8} (e : CryptoEngine) `{Hcodecs : Codecs}.
Context `{Hjournal : MsgPack (list PendingPackEntry)}.
Context `{Hsjson : Json SessionEntry} `{Hrfc : Rfc3339}.

Definition marker_state (now : Z) (key : string) : M MarkerState :=
  r ← try_ (get key);
  mret match r with
  | Ok (Some data) =>
      match json_decode (A := SessionEntry) data with
      | Some entry =>
          match or_else_opt (parse_from_rfc3339 (last_refresh entry)) (parse_from_rfc3339 (registered_at entry)) with
          | Some ts => if RECOVERY_STALE_SECS <=? Z.quot (now - ts) micros then MStale else MActive
          | None => MUnknown
          end
      | None => MUnknown
      end
  | _ => MUnknown
  end.

Fixpoint marker_states (now : Z) (keys : list string) (states : gmap string MarkerState) : M (gmap string MarkerState) :=
  match keys with
  | [] => mret states
  | key :: keys' =>
      match parse_session_id key with
      | None => marker_states now keys' states
      | Some sid => st ← marker_state now key; marker_states now keys' (<[sid := st]> states)
      end
  end.

(** The [.index] keys with their session, without our own. *)
Definition index_keys (my_key : string) (keys : list string) : list (string * string) :=
  List.filter (fun p => negb (String.eqb p.1 my_key)) (omap (fun key => (fun sid => (key, sid)) <$> parse_index_id key) keys).

Definition pack_shard (p : PackId) : string := "packs/" +:+ shard_prefix p.

(** The packs of the journal that [exists] for one shard. *)
Fixpoint shard_exists (shard : string) (wire : list PendingPackEntry) (known : gset string) : M (gset string) :=
  match wire with
  | [] => mret known
  | pe :: wire' =>
      if String.eqb (pack_shard (pend_pack_id pe)) shard then
        r ← try_ (exists_ (pack_storage_key (pend_pack_id pe)));
        shard_exists shard wire' (match r with Ok true => {[pack_storage_key (pend_pack_id pe)]} ∪ known | _ => known end)
      else shard_exists shard wire' known
  end.

Fixpoint known_packs (shards : list string) (wire : list PendingPackEntry) (known : gset string) : M (gset string) :=
  match shards with
  | [] => mret known
  | shard :: shards' =>
      r ← try_ (list_keys shard);
      known' ← match r with
               | Ok keys => mret (list_to_set keys ∪ known)
               | Err _ => shard_exists shard wire known
               end;
      known_packs shards' wire known'
  end.

Definition recover_chunk (ix : ChunkIndex) (p : PackId) (acc : gmap ChunkId RecoveredChunkEntry * nat) (c : PendingChunkEntry) :
    gmap ChunkId RecoveredChunkEntry * nat :=
  if contains ix (pend_chunk_id c) then acc
  else (<[pend_chunk_id c := mkRecovered (pend_stored_size c) p (pend_pack_offset c)]> acc.1, S acc.2).

Definition recover_pack (ix : ChunkIndex) (known : gset string) (acc : WriteSessionState * nat) (pe : PendingPackEntry) :
    WriteSessionState * nat :=
  let '(ws, recovered) := acc in
  if bool_decide (pack_storage_key (pend_pack_id pe) ∈ known) then
    let '(m, n) := foldl (recover_chunk ix (pend_pack_id pe)) (recovered_chunks ws, recovered) (pend_chunks pe) in
    let ws := set_recovered m (recovered_index_keys ws) ws in
    (set_journal (record_pack (pend_pack_id pe) (pend_chunks pe) (pending_journal ws)) (pending_journal_last_written ws) ws, n)
  else acc.

(** The shards are the elements of a set; their order does not matter. *)
Definition recover_single_index (key : string) : WM RecoverResult :=
  d ← wdo (get key);
  match d with
  | None => mret RNotFound
  | Some data =>
      match decode_journal e data with
      | None => mret RCorrupt
      | Some wire =>
          known ← wdo (known_packs (remove_dups ((fun pe => pack_shard (pend_pack_id pe)) <$> wire)) wire ∅);
          s ← wget;
          let '(ws, recovered) := foldl (recover_pack (s_index s) known) (s_ws s, 0%nat) wire in
          _ ← wput (mkSess (s_index s) (s_dirty s) ws);
          mret (ROk recovered)
      end
  end.

Definition may_recover (states : gmap string MarkerState) (sid : string) : bool :=
  match states !! sid with
  | None | Some MStale => true
  | Some MActive | Some MUnknown => false
  end.

Fixpoint recover_loop (states : gmap string MarkerState) (keys : list (string * string)) (acc : PendingIndexRecovery) :
    WM PendingIndexRecovery :=
  match keys with
  | [] => mret acc
  | (index_key, sid) :: keys' =>
      if may_recover states sid then
        r ← wtry (recover_single_index index_key);
        match r with
        | Ok (ROk n) =>
            _ ← modify_ws (fun ws => set_recovered (recovered_chunks ws) (recovered_index_keys ws ++ [index_key]) ws);
            recover_loop states keys' (mkPIR (pir_recovered_chunks acc + n) (pir_recovered_sessions acc ++ [sid]))
        | Ok RCorrupt => _ ← wdo (ignore (del index_key)); recover_loop states keys' acc
        | Ok RNotFound | Err _ => recover_loop states keys' acc
        end
      else recover_loop states keys' acc
  end.

Definition recover_pending_index (now : Z) : WM PendingIndexRecovery :=
  all_keys ← wdo (list_keys SESSIONS_PREFIX);
  states ← wdo (marker_states now all_keys ∅);
  s ← wget;
  recover_loop states (index_keys (pending_index_key (s_ws s)) all_keys) (mkPIR 0 []).

Definition clear_pending_index (sid : string) : M unit := ignore (del (session_index_key sid)).

Definition cleanup_recovered_indices : WM unit :=
  s ← wget;
  _ ← wdo (for_each (fun k => ignore (del k)) (recovered_index_keys (s_ws s)));
  modify_ws (fun ws => set_recovered (recovered_chunks ws) [] ws).
End Recover.

(** ** What a session begins with *)

Section Start.
Context `{Hhex : HexCodec} `{Hblake : Blake2b} {Hxor : Xor8} (e : CryptoEngine) `{Hcodecs : Codecs}.
Context `{Hjournal : MsgPack (list PendingPackEntry)}.
Context `{Hljson : Json LockEntry} `{Hsjson : Json SessionEntry} `{Hrfc : Rfc3339}.
Context (data_target : nat -> Z) (plain : ChunkId -> bytes) (pack_data : string -> bytes).

Abbreviation St := (St e plain pack_data).
Abbreviation placed := (placed e plain pack_data).
Abbreviation journal_ok := (journal_ok e plain pack_data).
Abbreviation journal_entry_ok := (journal_entry_ok e plain pack_data).

Definition recovered_ok (ix : ChunkIndex) (st : Store) (m : gmap ChunkId RecoveredChunkEntry) : Prop :=
  forall id en, m !! id = Some en ->
  ix !! id = None /\ placed st [] id (rec_pack_id en) (rec_pack_offset en) (rec_stored_size en).

Definition empty_writer (w : PackWriter) : Prop := pending w = ∅ /\ writer_inv [] w /\ buffer w = None.

Record starting (ix : ChunkIndex) (st0 : Store) (s : Session) (st : Store) : Prop := {
  sg_store : St st0 st;
  sg_index : s_index s = ix;
  sg_writers : forall pt, empty_writer (writer_of pt (s_ws s));
  sg_uploads : pending_uploads (s_ws s) = [];
  sg_modes : tiered_dedup (s_ws s) = None /\ dedup_index (s_ws s) = None;
  sg_journal : journal_ok (pending_journal (s_ws s));
  sg_recovered : recovered_ok ix st (recovered_chunks (s_ws s));
}.

Lemma begin_starting min_pack_size now ix dirty sid s st0 st :
  begin_write_session data_target min_pack_size now ix dirty None = Ok s -> St st0 st ->
  starting ix st0 (set_write_session_id sid s) st.
Proof.
  intros [= <-] Hst. split; try done.
  - by intros [].
Qed.

(** *** One journal *)

Lemma shard_exists_triple st shard wire known :
  set_Forall (fun k => is_Some (st !! k)) known ->
  triple (fun st' => st' = st) (shard_exists shard wire known)
    (fun known st' => st' = st /\ set_Forall (fun k => is_Some (st !! k)) known) (fun st' => st' = st).
Proof.
  revert known. induction wire as [|pe wire IH]; intros known Hk; cbn [shard_exists]; [by apply triple_ret|].
  destruct (String.eqb _ _); [|by apply IH].
  eapply triple_bind with (R := fun r st' => st' = st /\ match r with Ok b => b = bool_decide (is_Some (st !! pack_storage_key (pend_pack_id pe))) | Err _ => True end).
  - eapply triple_weaken; [apply triple_try with (E' := fun st' => st' = st), triple_reading with (E := fun st' => st' = st); done|done| |done].
    intros [b|er] s; [by intros [-> ->]|done].
  - intros r. apply triple_pure. intros Hr. apply IH. destruct r as [[]|er]; try done.
    apply set_Forall_union; [|done]. apply set_Forall_singleton. symmetry in Hr. by apply bool_decide_eq_true in Hr.
Qed.

Lemma known_packs_triple st shards wire known :
  set_Forall (fun k => is_Some (st !! k)) known ->
  triple (fun st' => st' = st) (known_packs shards wire known)
    (fun known st' => st' = st /\ set_Forall (fun k => is_Some (st !! k)) known) (fun st' => st' = st).
Proof.
  revert known. induction shards as [|shard shards IH]; intros known Hk; cbn [known_packs]; [by apply triple_ret|].
  eapply triple_bind with (R := fun r st' => st' = st /\ match r with Ok keys => Forall (fun k => is_Some (st !! k)) keys | Err _ => True end).
  - eapply triple_weaken; [apply triple_try with (E' := fun st' => st' = st), triple_reading with (E := fun st' => st' = st); done|done| |done].
    intros [keys|er] s; [|done]. intros [-> ->]. split; [done|]. apply Forall_forall. intros k Hin.
    apply list_elem_of_In, List.filter_In in Hin as [Hin _]. apply list_elem_of_In, list_elem_of_fmap in Hin as ([k' d] & -> & Hp).
    apply elem_of_map_to_list in Hp. by eexists.
  - intros r. apply triple_pure. intros Hr. eapply triple_bind with (R := fun known st' => st' = st /\ set_Forall (fun k => is_Some (st !! k)) known).
    + destruct r as [keys|er]; [|by apply shard_exists_triple]. apply triple_ret. intros s ->. split; [done|].
      apply set_Forall_union; [|done]. intros k Hin%elem_of_list_to_set. rewrite Forall_forall in Hr. auto.
    + intros known'. apply triple_pure. apply IH.
Qed.

Lemma recover_chunks_ok ix st p chunks m n :
  Forall (fun c => placed st [] (pend_chunk_id c) p (pend_pack_offset c) (pend_stored_size c)) chunks ->
  recovered_ok ix st m -> recovered_ok ix st (foldl (recover_chunk ix p) (m, n) chunks).1.
Proof.
  intros Hc. revert m n. induction Hc as [|c chunks Hc Hcs IH]; intros m n Hm; cbn [foldl]; [done|].
  unfold recover_chunk at 2. unfold contains. case_bool_decide as Hin; [by apply IH|].
  apply IH. intros id en [[<- <-]|[_ He]]%lookup_insert_Some; [|by apply Hm]. split; [by apply eq_None_not_Some|exact Hc].
Qed.

Lemma recover_packs_ok ix st0 st known wire s n :
  starting ix st0 s st -> Forall journal_entry_ok wire -> set_Forall (fun k => is_Some (st !! k)) known ->
  starting ix st0 (mkSess (s_index s) (s_dirty s) (foldl (recover_pack ix known) (s_ws s, n) wire).1) st.
Proof.
  intros Hs Hw Hk. destruct s as [i0 d0 ws]. cbn [s_ws s_index s_dirty] in *. revert ws n Hs.
  induction Hw as [|pe wire Hpe Hw IH]; intros ws n Hs; cbn [foldl]; [done|].
  unfold recover_pack at 2. case_bool_decide as Hin; [|by apply IH].
  destruct (foldl _ _ (pend_chunks pe)) as [m n'] eqn:Hf. apply IH.
  assert (Hm : recovered_ok ix st m).
  { change m with (m, n').1. rewrite <- Hf. apply recover_chunks_ok; [|apply Hs].
    eapply Forall_impl; [exact Hpe|]. intros c Hc. split; [right; by apply Hk|exact Hc]. }
  destruct Hs as [H1 H2 H3 H4 H5 H6 H7]. split; try done. by apply map_Forall_insert_2.
Qed.

Lemma recover_single_triple ix st0 key sid E :
  parse_index_id key = Some sid -> (forall s st, starting ix st0 s st -> E s st) ->
  wtriple (starting ix st0) (recover_single_index e key) (fun _ => starting ix st0) E.
Proof.
  intros Hkey HE. eapply wtriple_bind with (R := fun d s st => starting ix st0 s st /\ d = st !! key).
  { apply wtriple_do. intros s. eapply triple_weaken; [apply triple_reading with (E := E s), HE|done|done|done]. }
  intros d. destruct d as [data|]; [|apply wtriple_ret; by intros s st []].
  destruct (decode_journal e data) as [wire|] eqn:Hd; [|apply wtriple_ret; by intros s st []].
  intros s w [Hs Hdata]. unfold wdo at 1, mbind, WM_bind.
  pose proof (known_packs_triple (objects w) (remove_dups ((fun pe => pack_shard (pend_pack_id pe)) <$> wire)) wire ∅) as Ht.
  specialize (Ht (set_Forall_empty _) w eq_refl). destruct (known_packs _ wire ∅ w) as [[known|er] w']; [|rewrite Ht; by apply HE].
  destruct Ht as [Hw' Hk]. cbn [wget]. destruct (foldl (recover_pack (s_index s) known) (s_ws s, 0%nat) wire) as [ws n] eqn:Hf.
  cbn [wput mret WM_ret]. rewrite Hw'. change ws with (ws, n).1. rewrite <- Hf.
  assert (Hix : s_index s = ix) by apply Hs. rewrite Hix at 2. apply recover_packs_ok; [done| |done].
  eapply (st_journals _ _ _ _ _ (sg_store _ _ _ _ Hs)); [exact Hkey|by rewrite <- Hdata|exact Hd].
Qed.

(** *** All journals *)

Lemma delete_St st0 st k sid : parse_index_id k = Some sid -> St st0 st -> St st0 (delete k st).
Proof.
  intros Hk%parse_index_sessions [[H1 H2] H3 H4]. pose proof (prefix_apart k Hk) as Hnp. split; [split|..].
  - intros k' Hp Hs. rewrite lookup_delete_ne by congruence. auto.
  - intros k' d Hp Hd. rewrite lookup_delete_ne by congruence. auto.
  - intros k' d Hp Hd. rewrite lookup_delete_ne in Hd by congruence. auto.
  - intros k' sid' d wire Hp Hd. apply lookup_delete_Some in Hd as [_ Hd]. by eapply H4.
Qed.

Lemma delete_placed st k sid id p off size :
  parse_index_id k = Some sid -> placed st [] id p off size -> placed (delete k st) [] id p off size.
Proof.
  intros Hk%parse_index_sessions%prefix_apart. apply placed_mono. intros p' [?%elem_of_nil|Hx]; [done|]. right.
  rewrite lookup_delete_ne; [done|]. intros ->. by rewrite pack_key_packs in Hk.
Qed.

Lemma delete_starting ix st0 s st k sid :
  parse_index_id k = Some sid -> starting ix st0 s st -> starting ix st0 s (delete k st).
Proof.
  intros Hk [H1 H2 H3 H4 H5 H6 H7]. split; try done; [by eapply delete_St|].
  intros id en He. destruct (H7 id en He). split; [done|]. by eapply delete_placed.
Qed.

Lemma recover_loop_triple ix st0 states keys acc :
  Forall (fun p => parse_index_id p.1 = Some p.2) keys ->
  wtriple (starting ix st0) (recover_loop e states keys acc) (fun _ => starting ix st0) (starting ix st0).
Proof.
  intros Hks. revert acc. induction Hks as [|[k sid] keys Hk Hks IH]; intros acc; cbn [recover_loop]; [by apply wtriple_ret|].
  destruct (may_recover states sid); [|apply IH]. eapply wtriple_bind with (R := fun _ => starting ix st0).
  { eapply wtriple_weaken; [apply wtriple_try with (E' := starting ix st0), (recover_single_triple ix st0 k sid (starting ix st0)); done|done| |done].
    by intros [r|er] s st. }
  intros [[n| |]|er]; [|..|apply IH]; [|..|apply IH].
  - eapply wtriple_bind with (R := fun _ => starting ix st0); [|intros _; apply IH].
    apply wtriple_modify. intros s st [H1 H2 H3 H4 H5 H6 H7]. by split.
  - eapply wtriple_bind with (R := fun _ => starting ix st0); [|intros _; apply IH].
    apply wtriple_do. intros s. apply preserves_ignore, preserves_writing. intros st. by apply (delete_starting ix st0 s st k sid).
Qed.

Lemma index_keys_parse my_key keys : Forall (fun p => parse_index_id p.1 = Some p.2) (index_keys my_key keys).
Proof.
  apply Forall_forall. intros [k sid] Hin. apply list_elem_of_In, List.filter_In in Hin as [Hin _].
  apply list_elem_of_In, list_elem_of_omap in Hin as (k' & _ & Hk). destruct (parse_index_id k') eqn:E; [|done].
  injection Hk as <- <-. done.
Qed.

Lemma marker_states_triple now keys states (P : Store -> Prop) : preserves P (marker_states now keys states).
Proof.
  revert states. induction keys as [|k keys IH]; intros states; cbn [marker_states]; [apply preserves_ret|].
  destruct (parse_session_id k); [|apply IH]. apply preserves_bind; [|intros ?; apply IH].
  apply preserves_bind; [apply preserves_try, preserves_reading|]. intros r. apply preserves_ret.
Qed.

Lemma recover_triple ix st0 now :
  wtriple (starting ix st0) (recover_pending_index e now) (fun _ => starting ix st0) (starting ix st0).
Proof.
  eapply wtriple_bind with (R := fun _ => starting ix st0); [apply wtriple_do; intros s; apply preserves_reading|].
  intros keys. eapply wtriple_bind with (R := fun _ => starting ix st0); [apply wtriple_do; intros s; apply marker_states_triple|].
  intros states. apply wtriple_get_bind. intros s0.
  eapply wtriple_weaken; [apply recover_loop_triple, index_keys_parse|by intros s st []|done|done].
Qed.

(** *** A dedup structure is switched on *)

Definition cache_of (ix : ChunkIndex) (cache : option MmapCache) : Prop :=
  forall c, cache = Some c -> exists generation, cacheable ix generation /\
    dedup_open_path (build_dedup_cache_to_path ix generation) generation = Some c.

Lemma start_session_inv ix st0 s st ws' :
  starting ix st0 s st -> same_core (set_dedup (dedup_index ws') (tiered_dedup ws') (Some delta_new) (s_ws s)) ws' ->
  pending_uploads ws' = [] -> is_Some (tiered_dedup ws') \/ is_Some (dedup_index ws') ->
  (forall id, is_Some (known_size ws' id) <-> is_Some (ix !! id)) ->
  session_inv e plain pack_data (dom ix) [] delta_new ws' st.
Proof.
  intros [H1 H2 H3 H4 H5 H6 H7] Hc Hu Hm Hk. pose proof Hc as (C1 & C2 & C3 & _ & _ & C6 & C7).
  cbn [set_dedup data_pack_writer tree_pack_writer index_delta recovered_chunks pending_journal] in *.
  assert (Hw : forall pt, empty_writer (writer_of pt ws')) by (intros []; cbn [writer_of]; rewrite ?C1, ?C2; [apply (H3 Data)|apply (H3 Tree)]).
  assert (Hp : forall pt id, pending (writer_of pt ws') !! id = None) by (intros pt id; destruct (Hw pt) as (-> & _); apply lookup_empty).
  split; rewrite ?C3, ?C6, ?C7, ?Hu; try done.
  - intros id. rewrite Hk, elem_of_dom. split; [by left|]. intros [|[]%elem_of_nil]; done.
  - constructor.
  - by intros id ?%elem_of_nil.
  - split; apply empty_writer_ok; [apply (Hw Data)|apply (Hw Data)|apply (Hw Tree)|apply (Hw Tree)].
  - intros pt id [x Hx]. by rewrite Hp in Hx.
  - intros id _. apply (Hp Tree).
  - intros id en He. destruct (H7 id en He) as [Hx Hpl]. split; [by rewrite not_elem_of_dom|]. split; [by intros ?%elem_of_nil|done].
  - intros id. unfold pend_refs. rewrite (Hp Data id : pending (data_pack_writer ws') !! id = None), (Hp Tree id : pending (tree_pack_writer ws') !! id = None).
    done.
  - by intros n ?%elem_of_nil.
  - by intros u ?%elem_of_nil.
  - intros pt v. destruct (Hw pt) as (_ & _ & ->). done.
Qed.

Lemma enable_inv ix st0 s st cache :
  starting ix st0 s st -> cache_of ix cache ->
  session_inv e plain pack_data (dom ix) [] delta_new (s_ws (enable_tiered_dedup_mode cache s).2) st.
Proof.
  intros Hs Hc. pose proof Hs as [_ Hix _ Hu [Ht Hd] _ _]. unfold enable_tiered_dedup_mode. rewrite Ht, Hd. cbn [snd].
  destruct cache as [c|].
  - eapply start_session_inv; [exact Hs|done|done|by left; eexists|]. intros id. destruct (Hc c eq_refl) as (g & Hca & Ho).
    unfold known_size. cbn [s_ws set_dedup tiered_dedup].
    destruct (tiered_answers ix g c (tiered_new c) id Hca Ho eq_refl eq_refl) as [-> _]. unfold tiered_answer. cbn [tiered_new session_new].
    rewrite lookup_empty. by rewrite fmap_is_Some.
  - unfold enable_dedup_mode. rewrite Hd. eapply start_session_inv; [exact Hs|done|done|by right; eexists|]. intros id.
    unfold known_size. cbn [s_ws set_dedup tiered_dedup dedup_index]. rewrite Ht. unfold dedup_from_chunk_index.
    by rewrite lookup_fmap, fmap_is_Some, Hix.
Qed.

(** *** Interruption

    The states in which a session can be cut off: between two operations,
    after one that failed, and after the abort path has sealed and journalled
    what was left. *)

Context {Hlaw : LawfulEngine e}.

Inductive reaches (s0 : Session) (w0 : World) : Session -> World -> Prop :=
  | reaches_writes ids s w : writes e data_target plain pack_data s0 w0 ids s w -> small ids -> reaches s0 w0 s w
  | reaches_store ids s w tk data c pt nonce r s' w' :
      writes e data_target plain pack_data s0 w0 ids s w -> room ids ->
      storable e plain pack_data s tk data c pt nonce ->
      store_chunk e data_target tk data c pt nonce s w = (r, (s', w')) -> reaches s0 w0 s' w'
  | reaches_flush ids s w tk tk_wait r s' w' :
      writes e data_target plain pack_data s0 w0 ids s w -> small ids -> ticks_ok tk -> tick_ok tk_wait ->
      flush_packs e data_target tk tk_wait s w = (r, (s', w')) -> reaches s0 w0 s' w'
  | reaches_abort s w tk tk_wait r s' w' :
      reaches s0 w0 s w -> ticks_ok tk -> tick_ok tk_wait ->
      flush_on_abort e data_target tk tk_wait s w = (r, (s', w')) -> reaches s0 w0 s' w'.

Lemma flushed_weak base st0 ids s st : flushed e plain pack_data base st0 ids s st -> Weak e plain pack_data st0 s st.
Proof.
  intros ([d Hi] & _ & _ & _ & Hst). split; [done|apply Hi|apply Hi| |apply Hi]. intros pt. by eapply si_writer.
Qed.

Lemma reaches_weak base d0 s0 w0 s w :
  session_inv e plain pack_data base [] d0 (s_ws s0) (objects w0) -> St (objects w0) (objects w0) ->
  reaches s0 w0 s w -> Weak e plain pack_data (objects w0) s (objects w).
Proof.
  intros Hd Hst Hr.
  assert (Hsmall : forall ids, room ids -> small ids) by (unfold room, small; intros; lia).
  assert (HI : forall ids s w, writes e data_target plain pack_data s0 w0 ids s w -> small ids ->
    Inv e plain pack_data base (objects w0) ids none_empty s (objects w)) by (intros; by eapply writes_inv).
  assert (HW := fun ids => rb_weak _ _ _ _ _ (Inv_robust e plain pack_data base (objects w0) ids none_empty)).
  induction Hr as [ids s w Hw Hs|ids s w tk data c pt nonce r s' w' Hw Hro Hso Hst'|ids s w tk tkw r s' w' Hw Hs Hn Hnw Hf|s w tk tkw r s' w' Hr IH Hn Hnw Hf].
  - by apply (HW ids), HI.
  - pose proof (store_chunk_triple e data_target plain pack_data base (objects w0) ids s tk data c pt nonce Hso Hro s w) as Ht.
    rewrite Hst' in Ht. specialize (Ht (conj (HI _ _ _ Hw (Hsmall _ Hro)) eq_refl)). destruct r; [|done]. by apply HW in Ht.
  - pose proof (flush_packs_triple e data_target plain pack_data base (objects w0) ids tk tkw Hn Hnw s w (HI _ _ _ Hw Hs)) as Ht.
    rewrite Hf in Ht. destruct r; [|done]. by eapply flushed_weak.
  - pose proof (abort_triple e data_target plain pack_data (objects w0) tk tkw (Weak e plain pack_data (objects w0)) Hn Hnw s w IH) as Ht.
    rewrite Hf in Ht. by destruct r.
Qed.

(** C11. An interrupted backup can be resumed.  Wherever a session is cut off,
    also after failed operations and after the abort path, the next session
    that begins, recovers the journals it finds (under any faults of its own)
    and switches on a dedup structure, starts from a sound state: it knows
    exactly the chunks of its index, and every chunk it has taken over from a
    journal is outside the index and has its blob in a stored pack at the
    recorded place. *)
Theorem resumed_session_sound base d0 s0 w0 s w ix min_pack_size now dirty sid s1 faults r s2 w2 cache :
  session_inv e plain pack_data base [] d0 (s_ws s0) (objects w0) -> St (objects w0) (objects w0) ->
  reaches s0 w0 s w ->
  begin_write_session data_target min_pack_size now ix dirty None = Ok s1 ->
  recover_pending_index e now (set_write_session_id sid s1) (mkWorld (objects w) faults) = (r, (s2, w2)) ->
  cache_of ix cache ->
  let s3 := (enable_tiered_dedup_mode cache s2).2 in
  session_inv e plain pack_data (dom ix) [] delta_new (s_ws s3) (objects w2) /\
  (forall id en, recovered_chunks (s_ws s3) !! id = Some en -> ix !! id = None /\
     in_place e plain (objects w2) id (rec_pack_id en) (rec_pack_offset en) (rec_stored_size en)) /\
  extends (objects w0) (objects w2).
Proof.
  intros Hd Hst Hr Hb Hrec Hc s3. pose proof (reaches_weak _ _ _ _ _ _ Hd Hst Hr) as [Hw _ _ _ _].
  pose proof (begin_starting min_pack_size now ix dirty sid s1 (objects w0) (objects w) Hb Hw) as Hs.
  pose proof (recover_triple ix (objects w0) now _ (mkWorld (objects w) faults) Hs) as Ht. rewrite Hrec in Ht.
  assert (Hs2 : starting ix (objects w0) s2 (objects w2)) by (by destruct r).
  pose proof (enable_inv ix (objects w0) s2 (objects w2) cache Hs2 Hc) as Hi. fold s3 in Hi. split; [done|]. split; [|apply Hs2].
  intros id en He. destruct (si_recovered _ _ _ _ _ _ _ _ Hi id en He) as (Hx & _ & Hp). split; [by apply not_elem_of_dom|].
  apply (placed_stored e plain pack_data); [apply Hs2|]. assert (Hu : pending_uploads (s_ws s3) = []).
  { unfold s3, enable_tiered_dedup_mode, enable_dedup_mode. destruct (sg_modes _ _ _ _ Hs2) as [-> ->]. pose proof (sg_uploads _ _ _ _ Hs2).
    by destruct cache. }
  by rewrite Hu in Hp.
Qed.
End Start.

(** ** Witnesses

    A session over an empty repository: one chunk stored twice in a data pack,
    another in a tree pack. *)

#[export] Instance PendingChunkEntry_eq_dec : EqDecision PendingChunkEntry.
Proof. solve_decision. Defined.
#[export] Program Instance PendingChunkEntry_countable : Countable PendingChunkEntry :=
  inj_countable' (fun c => (pend_chunk_id c, pend_stored_size c, pend_pack_offset c)) (fun t => mkPendingChunk t.1.1 t.1.2 t.2) _.
Next Obligation. by intros []. Qed.
#[export] Instance PendingPackEntry_eq_dec : EqDecision PendingPackEntry.
Proof. solve_decision. Defined.
#[export] Program Instance PendingPackEntry_countable : Countable PendingPackEntry :=
  inj_countable' (fun p => (pend_pack_id p, pend_chunks p)) (fun t => mkPendingPack t.1 t.2) _.
Next Obligation. by intros []. Qed.
#[export] Instance toy_journal_msgpack : MsgPack (list PendingPackEntry) :=
  {| mp_encode := bits_encode; mp_decode := bits_decode; mp_decode_encode := bits_decode_encode |}.

Definition ac_engine : CryptoEngine := PlaintextEngine [].
Definition ac_nonce : bytes := replicate 12 0.
Definition ac_tick : Tick := mkTick 0 (ex_env 0 "x") (fun _ => false) ac_nonce.
Definition ac_target (n : nat) : Z := 1000.
Definition ac_id (data : bytes) : ChunkId := chunk_id_compute (chunk_id_key ac_engine) data.
Definition ac_plain (id : ChunkId) : bytes := if decide (id = ac_id [7; 7]) then [7; 7] else [8].
Definition ac_pack (data : bytes) : bytes :=
  match seal_chunk ac_engine (ac_id data) data CNone ac_nonce with Ok b => pack_of [b] | Err _ => [] end.
Definition ac_key (data : bytes) : string := pack_storage_key (pack_id_compute (ac_pack data)).
Definition ac_pack_data (k : string) : bytes := if decide (k = ac_key [7; 7]) then ac_pack [7; 7] else ac_pack [8].

Definition ac_begin : Session :=
  match begin_write_session ac_target 1000 0 ∅ false None with
  | Ok s => set_write_session_id "me" s
  | Err _ => mkSess ∅ false (ws_new 0 0 0 0)
  end.
Definition ac_s0 : Session := (enable_tiered_dedup_mode None ac_begin).2.
Definition ac_store (data : bytes) (pt : PackType) := store_chunk ac_engine ac_target ac_tick data CNone pt ac_nonce.
Definition ac_step (data : bytes) (pt : PackType) (sw : Session * World) : Session * World := (ac_store data pt sw.1 sw.2).2.
Definition ac_w0 : World := mkWorld ∅ [].
Definition ac_1 := ac_step [7; 7] Data (ac_s0, ac_w0).
Definition ac_2 := ac_step [7; 7] Data ac_1.
Definition ac_3 := ac_step [8] Tree ac_2.
Definition ac_ids : list ChunkId := [ac_id [7; 7]; ac_id [7; 7]; ac_id [8]].

Lemma ac_St : St ac_engine ac_plain ac_pack_data ∅ ∅.
Proof. split; [by split| |]; by intros k. Qed.

Lemma ac_start : session_inv ac_engine ac_plain ac_pack_data (dom (∅ : ChunkIndex)) [] delta_new (s_ws ac_s0) ∅.
Proof.
  eapply (enable_inv ac_engine ac_plain ac_pack_data ∅ ∅ ac_begin); [|done].
  eapply (begin_starting ac_engine ac_target); [reflexivity|apply ac_St].
Qed.

Ltac ac_storable := split; [reflexivity|reflexivity|by_eval|vm_compute; reflexivity|
  let Hb := fresh in intros Hb packed Hp; first [by vm_compute in Hb|
    vm_compute in Hp; injection Hp as <-; split; [by_eval|intros v Hv; vm_compute in Hv; injection Hv as <-; split; [by_eval|vm_compute; reflexivity]]]].

Lemma ac_writes : writes ac_engine ac_target ac_plain ac_pack_data ac_s0 ac_w0 ac_ids ac_3.1 ac_3.2.
Proof.
  assert (W1 : writes ac_engine ac_target ac_plain ac_pack_data ac_s0 ac_w0 ([] ++ [ac_id [7; 7]]) ac_1.1 ac_1.2).
  { apply (writes_store _ _ _ _ ac_s0 ac_w0 [] ac_s0 ac_w0 ac_tick [7; 7] CNone Data ac_nonce (ac_id [7; 7], 4, true));
      [constructor|ac_storable|vm_compute; reflexivity]. }
  assert (W2 : writes ac_engine ac_target ac_plain ac_pack_data ac_s0 ac_w0 (([] ++ [ac_id [7; 7]]) ++ [ac_id [7; 7]]) ac_2.1 ac_2.2).
  { apply (writes_store _ _ _ _ _ _ _ _ _ ac_tick [7; 7] CNone Data ac_nonce (ac_id [7; 7], 4, false) _ _ W1);
      [ac_storable|vm_compute; reflexivity]. }
  apply (writes_store _ _ _ _ _ _ _ _ _ ac_tick [8] CNone Tree ac_nonce (ac_id [8], 3, true) _ _ W2);
    [ac_storable|vm_compute; reflexivity].
Qed.

Definition ac_final := flush_packs ac_engine ac_target (fun _ => ac_tick) ac_tick ac_3.1 ac_3.2.

Lemma session_accounts_witness :
  ac_final.1 = Ok tt /\ exists d, index_delta (s_ws ac_final.2.1) = Some d /\
    delta_ok ac_engine ac_plain ∅ ac_ids d (objects ac_final.2.2) /\ delta_refs d (ac_id [7; 7]) = 2.
Proof.
  assert (Hr : ac_final.1 = Ok tt) by (vm_compute; reflexivity). split; [exact Hr|].
  pose proof (session_accounts ac_engine ac_target ac_plain ac_pack_data ∅ ac_s0 ac_w0 ac_ids ac_3.1 ac_3.2 delta_new
    (fun _ => ac_tick) ac_tick ac_start ac_St ac_writes) as H.
  fold ac_final in H. destruct ac_final as [r [s' w']]. cbn [fst snd] in *. subst r.
  destruct H as [_ H]; [reflexivity|by intros ?|reflexivity|]. destruct (H eq_refl) as (d & Hd & Hok). exists d.
  split; [exact Hd|]. split; [exact Hok|]. destruct Hok as [-> _]. vm_compute. reflexivity.
Defined.

(** The same session cut off after its abort path; a second session takes over
    both chunks from its journal. *)
Definition ac_abort := flush_on_abort ac_engine ac_target (fun _ => ac_tick) ac_tick ac_3.1 ac_3.2.
Definition ac_begin2 : Session :=
  match begin_write_session ac_target 1000 0 ∅ false None with Ok s => s | Err _ => ac_begin end.
Definition ac_recover := recover_pending_index ac_engine 0 (set_write_session_id "you" ac_begin2) (mkWorld (objects ac_abort.2.2) []).

Lemma outcome_eta {A B C} (x : A * (B * C)) : x = (x.1, (x.2.1, x.2.2)).
Proof. by destruct x as [? []]. Qed.

Lemma resumed_session_sound_witness :
  size (recovered_chunks (s_ws ac_recover.2.1)) = 2%nat /\
  session_inv ac_engine ac_plain ac_pack_data (dom (∅ : ChunkIndex)) [] delta_new
    (s_ws (enable_tiered_dedup_mode None ac_recover.2.1).2) (objects ac_recover.2.2).
Proof.
  split; [vm_compute; reflexivity|].
  destruct (resumed_session_sound ac_engine ac_target ac_plain ac_pack_data ∅ delta_new ac_s0 ac_w0 ac_abort.2.1 ac_abort.2.2
    ∅ 1000 0 false "you" ac_begin2 [] ac_recover.1 ac_recover.2.1 ac_recover.2.2 None ac_start ac_St) as [H _].
  - apply (reaches_abort _ _ _ _ ac_s0 ac_w0 ac_3.1 ac_3.2 (fun _ => ac_tick) ac_tick ac_abort.1);
      [exact (reaches_writes _ _ _ _ _ _ _ _ _ ac_writes eq_refl)|by intros ?|reflexivity|apply (outcome_eta ac_abort)].
  - reflexivity.
  - apply (outcome_eta ac_recover).
  - done.
  - exact H.
Defined.
