(* ===== verification/Commit.v ===== *)
(** * Committing a backup (crates/vykar-core/src/repo/mod.rs,
      [commit_concurrent_session_with_progress])

    At its end a backup flushes its packs, takes the snapshot list and the
    index from the store again, since other clients may have committed
    meanwhile, adds its delta to the index, and writes the snapshot object,
    which is the commit point.  When the index object is still the one of the
    local blob cache, the delta is merged into the local full cache instead
    of decoding and reconciling (the fast path).

    The operations work on a [Handle]: the repository, the write session and
    the files of the local cache directory.  It keeps its changes also when
    an operation fails, like the session in WriteSession.v.  Whether the file
    system lets a local file be written is given by a [LocalIo]. *)

From S2P Require Import Prelude Types Storage ChunkIndex Pack.
From S2P Require Import Crypto Format Compress DedupCache Retention Lock Repo ReadPath Snapshots SnapshotCache.
From S2P Require Import WriteSession Accounting Recovery.
#[local] Open Scope string_scope.
#[local] Open Scope list_scope.
#[local] Open Scope Z_scope.

Definition BATCH_VERIFY_THRESHOLD : nat := 32.

(** The files of the cache directory. *)
Record LocalCaches := mkLocal {
  lc_blob : option bytes;
  lc_full : option bytes;
  lc_dedup : option bytes;
  lc_restore : option bytes;
  lc_snapshots : option bytes;
}.

(** Which writes the file system performs, and whether the full cache can be
    read back. *)
Record LocalIo := mkIo {
  io_blob : bool;
  io_full : bool;
  io_dedup : bool;
  io_restore : bool;
  io_snapshots : bool;
  io_merge : bool;
  io_hydrate : bool;
}.

Section Handle.
Context {Hxor : Xor8}.

Record Handle := mkHandle {
  h_repo : Repository;
  h_session : option WriteSessionState;
  h_local : LocalCaches;
  h_rebuild : bool;
}.

Definition HM (A : Type) : Type := Handle -> World -> res A * (Handle * World).
End Handle.

#[export] Instance HM_ret `{Xor8} : MRet HM := fun A a h w => (Ok a, (h, w)).
#[export] Instance HM_bind `{Xor8} : MBind HM := fun A B f m h w =>
  match m h w with
  | (Ok a, (h', w')) => f a h' w'
  | (Err er, (h', w')) => (Err er, (h', w'))
  end.

Section Monad.
Context {Hxor : Xor8}.
Definition hfail {A} (er : VykarError) : HM A := fun h w => (Err er, (h, w)).
Definition hlift {A} (r : res A) : HM A := fun h w => (r, (h, w)).
Definition hdo {A} (m : M A) : HM A := fun h w => let '(r, w') := m w in (r, (h, w')).
Definition hget : HM Handle := fun h w => (Ok h, (h, w)).
Definition hmodify (f : Handle -> Handle) : HM unit := fun h w => (Ok tt, (f h, w)).
Definition on_repo (f : Repository -> Repository) : HM unit :=
  hmodify (fun h => mkHandle (f (h_repo h)) (h_session h) (h_local h) (h_rebuild h)).
Definition on_local (f : LocalCaches -> LocalCaches) : HM unit :=
  hmodify (fun h => mkHandle (h_repo h) (h_session h) (f (h_local h)) (h_rebuild h)).
(** An operation of the write session; without one it does nothing. *)
Definition hws (m : WM unit) : HM unit := fun h w =>
  match h_session h with
  | None => (Ok tt, (h, w))
  | Some ws =>
      let '(r, (s, w')) := m (mkSess (chunk_index (h_repo h)) (index_dirty (h_repo h)) ws) w in
      let r0 := h_repo h in
      (r, (mkHandle (mkRepo (manifest r0) (s_index s) (index_generation r0) (s_dirty s) (drawn r0)) (Some (s_ws s))
             (h_local h) (h_rebuild h), w'))
  end.
End Monad.

Definition set_blob (f : option bytes) (l : LocalCaches) : LocalCaches := mkLocal f (lc_full l) (lc_dedup l) (lc_restore l) (lc_snapshots l).
Definition set_full (f : option bytes) (l : LocalCaches) : LocalCaches := mkLocal (lc_blob l) f (lc_dedup l) (lc_restore l) (lc_snapshots l).
Definition set_derived (d r : option bytes) (l : LocalCaches) : LocalCaches := mkLocal (lc_blob l) (lc_full l) d r (lc_snapshots l).
Definition set_snapshots (f : option bytes) (l : LocalCaches) : LocalCaches := mkLocal (lc_blob l) (lc_full l) (lc_dedup l) (lc_restore l) f.

(** A file after an attempt to replace it. *)
Definition written (ok : bool) (new : bytes) (file : option bytes) : option bytes := if ok then Some new else file.

Section Verify.
Context `{Hhex : HexCodec}.

Definition missing_pack : VykarError := Other "commit failed: pack missing from storage (stale session or concurrent deletion)".

Definition require_pack (p : PackId) : M unit :=
  found ← exists_ (pack_storage_key p);
  if (found : bool) then mret tt else fail missing_pack.

(** The keys of the shards that could be listed, and the other shards. *)
Fixpoint list_delta_shards (shards : list string) (known fallback : gset string) : M (gset string * gset string) :=
  match shards with
  | [] => mret (known, fallback)
  | shard :: shards' =>
      r ← try_ (list_keys shard);
      match r with
      | Ok keys => list_delta_shards shards' (list_to_set keys ∪ known) fallback
      | Err _ => list_delta_shards shards' known ({[shard]} ∪ fallback)
      end
  end.

Definition require_known (known fallback : gset string) (p : PackId) : M unit :=
  if bool_decide (pack_shard p ∈ fallback) then require_pack p
  else if bool_decide (pack_storage_key p ∈ known) then mret tt
  else fail missing_pack.

(** The sets are iterated in the order of their elements; any order finds a
    missing pack. *)
Definition verify_delta_packs (d : IndexDelta) : M unit :=
  let pack_ids := elements (list_to_set (new_pack_id <$> new_entries d) : gset PackId) in
  let shards := elements (list_to_set (pack_shard <$> pack_ids) : gset string) in
  if (BATCH_VERIFY_THRESHOLD <=? length pack_ids)%nat && (length shards <? length pack_ids)%nat then
    kf ← list_delta_shards shards ∅ ∅;
    for_each (require_known kf.1 kf.2) pack_ids
  else for_each require_pack pack_ids.
End Verify.

Section Commit.
Context `{Hhex : HexCodec} `{Hblake : Blake2b} {Hxor : Xor8} (e : CryptoEngine) `{Hcodecs : Codecs}.
Context `{Hmp : IndexCodec} `{Hmeta : MsgPack SnapshotMeta} `{Hcache : MsgPack SnapshotListCache}.
Context `{Hjournal : MsgPack (list PendingPackEntry)}.
Context `{Hljson : Json LockEntry} `{Hsjson : Json SessionEntry} `{Hrfc : Rfc3339}.
Context (data_target : nat -> Z) (draws : nat -> Z * bytes) (fence : M unit) (io : LocalIo).

Definition fetch_raw_index_blob : M (option bytes) := get "index".

Definition decode_raw_index_blob (raw : bytes) : res (Z * ChunkIndex) :=
  b ← decode_index_blob_full e raw; mret (blob_generation b, blob_chunks b).

(** The map of the cache is written entry by entry, as the index would be. *)
Definition serialize_full_cache_as_index_blob (c : MmapCache) (generation : Z) (nonce : bytes) : res bytes :=
  index_object e generation nonce (list_to_map (entries_map_view c)).

Definition write_blob_cache (blob : bytes) (generation : Z) (l : LocalCaches) : LocalCaches :=
  set_blob (written (io_blob io) (write_index_blob_cache blob generation) (lc_blob l)) l.

(** [persist_index] with the raw object kept for the next fast path. *)
Definition persist_index_cached : HM unit :=
  h ← hget;
  let generation := index_generation (h_repo h) in
  index_packed ← hlift (index_object e generation (draws (drawn (h_repo h))).2 (chunk_index (h_repo h)));
  _ ← hdo fence;
  _ ← hdo (put "index" index_packed);
  _ ← hdo (ignore (put "index.gen" (le_bytes 8 generation)));
  _ ← on_repo (fun r => mkRepo (manifest r) (chunk_index r) generation false (S (drawn r)));
  on_local (write_blob_cache index_packed generation).

Definition refresh_snapshot_list (nonce : bytes) : HM unit :=
  h ← hget;
  p ← hdo (refresh_snapshot_cache e (lc_snapshots (h_local h)) true (io_snapshots io) nonce);
  _ ← on_local (set_snapshots p.2);
  on_repo (fun r => mkRepo p.1 (chunk_index r) (index_generation r) (index_dirty r) (drawn r)).

(** The blob cache and the full cache of the current generation, when the
    object is the cached one. *)
Definition fast_path_cache (h : Handle) (raw_blob : bytes) : option MmapCache :=
  cached_blob ← (lc_blob (h_local h) ≫= fun f => read_index_blob_cache f (index_generation (h_repo h)));
  if bool_decide (raw_blob = cached_blob) then
    lc_full (h_local h) ≫= fun f => full_open_path f (index_generation (h_repo h))
  else None.

Definition try_fast_path_commit (raw_blob : bytes) (d : IndexDelta) : HM bool :=
  h ← hget;
  match fast_path_cache h raw_blob with
  | None => mret false
  | Some old_cache =>
      _ ← hdo (verify_delta_packs d);
      let '(generation, nonce) := draws (drawn (h_repo h)) in
      _ ← on_repo (fun r => mkRepo (manifest r) (chunk_index r) generation (index_dirty r) (S (drawn r)));
      let merged_file := merge_full_index_cache old_cache d generation in
      _ ← (if io_merge io then on_local (set_full (Some merged_file)) else hfail (Other "io"));
      merged_cache ← hlift (ok_or (full_open_path merged_file generation) (Other "failed to reopen merged cache"));
      index_packed ← hlift (serialize_full_cache_as_index_blob merged_cache generation nonce);
      _ ← hdo fence;
      _ ← hdo (put "index" index_packed);
      _ ← hdo (ignore (put "index.gen" (le_bytes 8 generation)));
      _ ← on_repo (fun r => mkRepo (manifest r) (chunk_index r) (index_generation r) false (drawn r));
      _ ← on_local (write_blob_cache index_packed generation);
      mret true
  end.

Definition new_generation (r : Repository) : Repository :=
  mkRepo (manifest r) (chunk_index r) (draws (drawn r)).1 (index_dirty r) (drawn r).

(** Decode, reconcile, verify, apply, persist. *)
Definition slow_path_commit (raw_blob : option bytes) (d : IndexDelta) : HM unit :=
  fresh_index ← hlift match raw_blob with Some raw => decode_raw_index_blob raw | None => Ok (0, ∅) end;
  reconciled ← hlift (reconcile d fresh_index.2);
  _ ← hdo (verify_delta_packs reconciled);
  _ ← on_repo (fun r => new_generation (mkRepo (manifest r) (apply_to reconciled fresh_index.2) (index_generation r) true (drawn r)));
  persist_index_cached.

(** Each build is best-effort; the derived caches are streamed out of the
    full cache. *)
Definition rebuild_local_caches (full_cache_fresh : bool) (r : Repository) (l : LocalCaches) : LocalCaches :=
  let generation := index_generation r in
  let l := if full_cache_fresh then l
           else set_full (written (io_full io) (build_full_index_cache_to_path (chunk_index r) generation) (lc_full l)) l in
  let derive (ok : bool) (build : bytes -> Z -> res bytes) (file : option bytes) : option bytes :=
    match lc_full l ≫= fun f => match build f generation with Ok b => Some b | Err _ => None end with
    | Some b => written ok b file
    | None => file
    end in
  set_derived (derive (io_dedup io) build_dedup_cache_from_full_cache (lc_dedup l))
    (derive (io_restore io) build_restore_cache_from_full_cache (lc_restore l)) l.

(** The full cache, or else the store. *)
Definition hydrate_chunk_index : HM unit :=
  h ← hget;
  let from_cache := if io_hydrate io then
      match lc_full (h_local h) with
      | Some f => load_chunk_index_from_full_cache_path f (index_generation (h_repo h))
      | None => Err (Other "full index cache not found or stale")
      end
    else Err (Other "io") in
  ix ← match from_cache with Ok ix => mret ix | Err _ => hdo (reload_full_index e) end;
  on_repo (fun r => mkRepo (manifest r) ix (index_generation r) (index_dirty r) (drawn r)).

(** The index part of the commit; whether the fast path was taken. *)
Definition commit_index (d : IndexDelta) : HM bool :=
  if delta_is_empty d then
    h ← hget;
    if h_rebuild h then
      ix ← hdo (reload_full_index e);
      _ ← on_repo (fun r => mkRepo (manifest r) ix (index_generation r) (index_dirty r) (drawn r));
      mret false
    else mret false
  else
    raw_blob ← hdo fetch_raw_index_blob;
    fast_path_taken ← match raw_blob with Some raw => try_fast_path_commit raw d | None => mret false end;
    if (fast_path_taken : bool) then mret true
    else
      _ ← slow_path_commit raw_blob d;
      mret false.

(** The delta is taken out of the session. *)
Definition take_delta : HM (option IndexDelta) := fun h w =>
  match h_session h with
  | None => (Err (Other "no active write session"), (h, w))
  | Some ws =>
      let d := index_delta ws in
      let dd := match d with Some _ => None | None => dedup_index ws end in
      (Ok d, (mkHandle (h_repo h) (Some (set_dedup dd None None ws)) (h_local h) (h_rebuild h), w))
  end.

Definition finish_caches (full_cache_fresh : bool) (h : Handle) : Handle :=
  if h_rebuild h then
    mkHandle (h_repo h) (h_session h) (rebuild_local_caches full_cache_fresh (h_repo h) (h_local h)) false
  else h.

Definition consume_session (h : Handle) : Handle := mkHandle (h_repo h) None (h_local h) (h_rebuild h).

(** The progress messages and the file cache, which is local and
    best-effort, are left out. *)
Definition commit_concurrent_session (tk : PackType -> Tick) (tk_wait : Tick) (nonce : bytes)
    (snapshot_entry : SnapshotEntry) (snapshot_packed : bytes) : HM unit :=
  _ ← hws (flush_packs e data_target tk tk_wait);
  delta ← take_delta;
  _ ← refresh_snapshot_list nonce;
  h ← hget;
  match find_snapshot (manifest (h_repo h)) (snap_name snapshot_entry) with
  | Some _ => hfail (SnapshotAlreadyExists (snap_name snapshot_entry))
  | None =>
      deferred ← match delta with Some d => commit_index d | None => mret false end;
      h ← hget;
      _ ← (if index_dirty (h_repo h) then _ ← on_repo new_generation; persist_index_cached else mret tt);
      _ ← hdo fence;
      _ ← hdo (put (snapshot_storage_key (snap_id snapshot_entry)) snapshot_packed);
      _ ← on_repo (fun r => mkRepo (manifest r ++ [snapshot_entry]) (chunk_index r) (index_generation r) (index_dirty r) (drawn r));
      _ ← (if deferred then hydrate_chunk_index else mret tt);
      _ ← hmodify (finish_caches deferred);
      _ ← hws cleanup_recovered_indices;
      hmodify consume_session
  end.
End Commit.

(** ** What flushing leaves alone

    In a dedup mode the write path changes neither the index in memory nor the
    list of recovered journals. *)

Section Settled.
Context `{Hhex : HexCodec} `{Hblake : Blake2b} {Hxor : Xor8} (e : CryptoEngine) `{Hcodecs : Codecs}.
Context `{Hjournal : MsgPack (list PendingPackEntry)}.
Context `{Hljson : Json LockEntry} `{Hsjson : Json SessionEntry} `{Hrfc : Rfc3339}.
Context (data_target : nat -> Z).

Definition settled (ks : list string) (s : Session) : Prop :=
  s_dirty s = false /\ (is_Some (tiered_dedup (s_ws s)) \/ is_Some (dedup_index (s_ws s))) /\ recovered_index_keys (s_ws s) = ks.

Definition settles {A} (m : WM A) : Prop :=
  forall ks, wtriple (fun s _ => settled ks s) m (fun _ s _ => settled ks s) (fun s _ => settled ks s).

Lemma settles_ret {A} (a : A) : settles (mret a).
Proof. intros ks. by apply wtriple_ret. Qed.
Lemma settles_fail {A} er : settles (wfail (A := A) er).
Proof. intros ks. by apply wtriple_fail. Qed.
Lemma settles_lift {A} (r : res A) : settles (wlift r).
Proof. intros ks. apply wtriple_lift. by destruct r. Qed.
Lemma settles_do {A} (m : M A) : settles (wdo m).
Proof. intros ks s w Hs. unfold wdo. by destruct (m w) as [[] ?]. Qed.
Lemma settles_get : settles wget.
Proof. by intros ks s w Hs. Qed.
Lemma settles_bind {A B} (m : WM A) (f : A -> WM B) : settles m -> (forall a, settles (f a)) -> settles (m ≫= f).
Proof. intros Hm Hf ks. eapply wtriple_bind; [apply Hm|]. intros a. apply Hf. Qed.
Lemma settles_try {A} (m : WM A) : settles m -> settles (wtry m).
Proof. intros Hm ks s w Hs. specialize (Hm ks s w Hs). unfold wtry. by destruct (m s w) as [[] [s' w']]. Qed.
Lemma settles_modify f :
  (forall ws, tiered_dedup (f ws) = tiered_dedup ws /\ dedup_index (f ws) = dedup_index ws /\ recovered_index_keys (f ws) = recovered_index_keys ws) ->
  settles (modify_ws f).
Proof. intros Hf ks. apply wtriple_modify. intros s _ (H1 & H2 & H3). destruct (Hf (s_ws s)) as (E1 & E2 & E3). split; [done|]. cbn. by rewrite E1, E2, E3. Qed.
Create HintDb settle.
#[local] Hint Resolve settles_ret settles_fail settles_lift settles_do settles_get settles_bind settles_try : settle.
#[local] Hint Extern 1 (settles (modify_ws _)) => apply settles_modify; done : settle.
#[local] Hint Extern 2 (settles (if ?b then _ else _)) => destruct b : settle.

Ltac settle := repeat first [progress (cbv beta zeta) | apply settles_bind; [|intros ?] | case_match | by auto with settle].

Lemma best_effort_settles tk : settles (write_pending_index_best_effort e tk).
Proof. unfold write_pending_index_best_effort. settle. Qed.
Lemma maybe_write_settles tk : settles (maybe_write_pending_index e tk).
Proof. pose proof best_effort_settles. unfold maybe_write_pending_index. settle. Qed.
Lemma join_settles u : settles (join u).
Proof. apply settles_do. Qed.
Lemma drain_loop_settles tk fuel : forall i, settles (drain_loop fuel tk i).
Proof. pose proof join_settles. induction fuel as [|fuel IH]; intros i; cbn [drain_loop]; settle. Qed.
Lemma maybe_refresh_settles tk : settles (maybe_refresh_session tk).
Proof. unfold maybe_refresh_session. settle. Qed.
Lemma cap_settles tk : settles (cap_pending_uploads e tk).
Proof.
  pose proof join_settles. pose proof (maybe_write_settles tk). pose proof (drain_loop_settles tk). pose proof (maybe_refresh_settles tk).
  unfold cap_pending_uploads, drain_finished_uploads. settle.
Qed.
Lemma join_all_settles ups : forall er, settles (join_all ups er).
Proof. pose proof join_settles. induction ups as [|u ups IH]; intros er; cbn [join_all]; settle. Qed.
Lemma wait_settles tk : settles (wait_pending_uploads e tk).
Proof. pose proof (best_effort_settles tk). pose proof join_all_settles. unfold wait_pending_uploads. settle. Qed.

Lemma apply_sealed_settled pk ens ks s : settled ks s -> settled ks (apply_sealed_entries pk ens s).
Proof.
  unfold apply_sealed_entries. revert s. induction ens as [|en ens IH]; intros s Hs; cbn [foldl]; [done|]. apply IH.
  destruct Hs as (H1 & H2 & H3). unfold settled, apply_sealed_entry, track_insert.
  destruct (tiered_dedup (s_ws s)), (dedup_index (s_ws s)), (dump_tracker (s_ws s)) eqn:Et; cbn; rewrite ?Et; cbn;
    try (split; [done|]; split; [|done]; (left; by eexists) || (right; by eexists)); by destruct H2 as [[? [=]]|[? [=]]].
Qed.

Lemma note_sealed_settles pt sp w : settles (modify_ws (note_sealed data_target pt sp w)).
Proof. apply settles_modify. intros ws. unfold note_sealed. by destruct pt; cbv zeta; destruct (dump_tracker _). Qed.

Lemma flush_writer_settles tk pt : settles (flush_writer_async e data_target tk pt).
Proof.
  apply settles_bind; [apply cap_settles|]. intros _. apply settles_bind; [apply settles_get|]. intros s0.
  apply settles_bind; [apply settles_lift|]. intros [sp w]. apply settles_bind; [apply note_sealed_settles|]. intros _ ks.
  apply wtriple_get_bind. intros s1. eapply wtriple_bind with (R := fun _ s _ => settled ks s).
  - apply wtriple_put. intros s _ [Hs ->]. by apply apply_sealed_settled.
  - intros _. by apply settles_modify.
Qed.

Lemma flush_packs_settles tk tk_wait : settles (flush_packs e data_target tk tk_wait).
Proof.
  pose proof flush_writer_settles. pose proof (wait_settles tk_wait). unfold flush_packs.
  apply settles_bind; [apply settles_get|]. intros s0. cbv beta zeta.
  apply settles_bind; [destruct (has_pending _); auto using settles_ret|]. intros [].
  apply settles_bind; [destruct (has_pending _); auto using settles_ret|]. by intros [].
Qed.
End Settled.

(** ** Reasoning about the handle *)

Section Logic.
Context {Hxor : Xor8}.

Definition htriple {A} (P : Handle -> Store -> Prop) (m : HM A) (Q : A -> Handle -> Store -> Prop) (E : Store -> Prop) : Prop :=
  forall h w, P h (objects w) ->
  match m h w with
  | (Ok a, (h', w')) => Q a h' (objects w')
  | (Err _, (_, w')) => E (objects w')
  end.

Lemma htriple_ret {A} (P : Handle -> Store -> Prop) (a : A) (Q : A -> Handle -> Store -> Prop) E :
  (forall h st, P h st -> Q a h st) -> htriple P (mret a) Q E.
Proof. intros HQ h w HP. by apply HQ. Qed.
Lemma htriple_fail {A} (P : Handle -> Store -> Prop) er (Q : A -> Handle -> Store -> Prop) (E : Store -> Prop) :
  (forall h st, P h st -> E st) -> htriple P (hfail er) Q E.
Proof. intros HE h w HP. by eapply HE. Qed.
Lemma htriple_bind {A B} P (m : HM A) (R : A -> Handle -> Store -> Prop) (f : A -> HM B) Q E :
  htriple P m R E -> (forall a, htriple (R a) (f a) Q E) -> htriple P (m ≫= f) Q E.
Proof.
  intros Hm Hf h w HP. unfold mbind, HM_bind. specialize (Hm h w HP).
  destruct (m h w) as [[a|er] [h' w']]; [|done]. by apply Hf.
Qed.
Lemma htriple_weaken {A} (P P' : Handle -> Store -> Prop) (m : HM A) Q Q' (E E' : Store -> Prop) :
  htriple P m Q E -> (forall h st, P' h st -> P h st) -> (forall a h st, Q a h st -> Q' a h st) ->
  (forall st, E st -> E' st) -> htriple P' m Q' E'.
Proof. intros Hm HP HQ HE h w Hw. specialize (Hm h w (HP _ _ Hw)). destruct (m h w) as [[a|er] [h' w']]; auto. Qed.
Lemma htriple_get_bind {B} (P : Handle -> Store -> Prop) (f : Handle -> HM B) Q E :
  (forall h0, htriple (fun h st => h = h0 /\ P h0 st) (f h0) Q E) -> htriple P (hget ≫= f) Q E.
Proof. intros Hf h w HP. by apply (Hf h). Qed.
Lemma htriple_pure {A} (P : Handle -> Store -> Prop) (phi : Prop) (m : HM A) Q E :
  (phi -> htriple P m Q E) -> htriple (fun h st => P h st /\ phi) m Q E.
Proof. intros Hm h w [HP Hphi]. by apply Hm. Qed.
Lemma htriple_ex {A B} (P : B -> Handle -> Store -> Prop) (m : HM A) Q E :
  (forall x, htriple (P x) m Q E) -> htriple (fun h st => exists x, P x h st) m Q E.
Proof. intros Hm h w [x HP]. by apply (Hm x). Qed.
Lemma htriple_modify (P : Handle -> Store -> Prop) f (Q : Handle -> Store -> Prop) E :
  (forall h st, P h st -> Q (f h) st) -> htriple P (hmodify f) (fun _ => Q) E.
Proof. intros HQ h w HP. by apply HQ. Qed.
Lemma htriple_lift {A} (P : Handle -> Store -> Prop) (r : res A) (Q : A -> Handle -> Store -> Prop) (E : Store -> Prop) :
  (forall h st, P h st -> match r with Ok a => Q a h st | Err _ => E st end) -> htriple P (hlift r) Q E.
Proof. intros HQ h w HP. specialize (HQ h _ HP). unfold hlift. by destruct r. Qed.
(** A storage call at a known handle. *)
Lemma htriple_do {A} h0 (P : Store -> Prop) (m : M A) (Q : A -> Store -> Prop) (E : Store -> Prop) :
  triple P m Q E -> htriple (fun h st => h = h0 /\ P st) (hdo m) (fun a h st => h = h0 /\ Q a st) E.
Proof. intros Hm h w [-> HP]. unfold hdo. specialize (Hm w HP). by destruct (m w) as [[a|er] w']. Qed.
Lemma htriple_lift_bind {A B} (P : Handle -> Store -> Prop) (r : res A) (f : A -> HM B) Q (E : Store -> Prop) :
  (forall a, r = Ok a -> htriple P (f a) Q E) -> (forall h st, P h st -> E st) -> htriple P (hlift r ≫= f) Q E.
Proof.
  intros Hf HE. destruct r as [a|er]; intros h w HP; [by apply Hf|]. by eapply HE.
Qed.
Lemma htriple_modify_bind {B} h0 (P : Store -> Prop) f (rest : HM B) Q E :
  htriple (fun h st => h = f h0 /\ P st) rest Q E -> htriple (fun h st => h = h0 /\ P st) (_ ← hmodify f; rest) Q E.
Proof. intros Hr h w [-> HP]. by apply Hr. Qed.
Lemma htriple_get_at {B} h0 (P : Store -> Prop) (f : Handle -> HM B) Q E :
  htriple (fun h st => h = h0 /\ P st) (f h0) Q E -> htriple (fun h st => h = h0 /\ P st) (hget ≫= f) Q E.
Proof. intros Hf h w [-> HP]. by apply Hf. Qed.
End Logic.

(** ** Verifying packs *)

Section VerifyLaws.
Context `{Hhex : HexCodec}.

Lemma require_pack_triple s p E :
  E s -> triple (fun st => st = s) (require_pack p) (fun _ st => st = s /\ is_Some (s !! pack_storage_key p)) E.
Proof.
  intros HE. eapply triple_bind; [apply triple_reading; by intros ? ->|]. intros b.
  destruct b; [apply triple_ret|apply triple_fail; by intros ? [-> _]].
  intros st [-> Hb]. by apply eq_sym, bool_decide_eq_true in Hb.
Qed.

Lemma list_delta_shards_triple s shards known fallback E :
  E s -> set_Forall (fun k => is_Some (s !! k)) known ->
  triple (fun st => st = s) (list_delta_shards shards known fallback)
    (fun kf st => st = s /\ set_Forall (fun k => is_Some (s !! k)) kf.1) E.
Proof.
  intros HE. revert known fallback. induction shards as [|sh shards IH]; intros known fallback Hk; cbn [list_delta_shards].
  { apply triple_ret. by intros st ->. }
  eapply triple_bind with (R := fun r st => st = s /\ match r with Ok keys => forall k, k ∈ keys -> is_Some (s !! k) | Err _ => True end).
  { eapply triple_weaken; [apply triple_try with (E' := E), triple_reading with (E := fun st => st = s); done|done| |done].
    intros [keys|er] st; [|done]. intros [-> ->]. split; [done|]. intros k Hin.
    apply list_elem_of_In, List.filter_In in Hin as [Hin _]. apply list_elem_of_In, list_elem_of_fmap in Hin as ([k' d] & -> & Hin).
    apply elem_of_map_to_list in Hin. by eexists. }
  intros r. apply triple_pure. intros Hr. destruct r as [keys|er]; [|by apply IH]. apply IH.
  intros k [Hin|Hin]%elem_of_union; [by apply Hr, (elem_of_list_to_set (C := gset string))|by apply Hk].
Qed.

Lemma for_each_triple {A} s (f : A -> M unit) (phi : A -> Prop) l (E : Store -> Prop) :
  (forall x, triple (fun st => st = s) (f x) (fun _ st => st = s /\ phi x) E) ->
  triple (fun st => st = s) (for_each f l) (fun _ st => st = s /\ forall x, x ∈ l -> phi x) E.
Proof.
  intros Hf. induction l as [|x l IH]; cbn [for_each].
  { apply triple_ret. intros st ->. split; [done|]. by intros x ?%elem_of_nil. }
  eapply triple_bind; [apply Hf|]. intros []. apply triple_pure. intros Hx.
  eapply triple_weaken; [exact IH|done| |done]. intros [] st [-> Hl]. split; [done|].
  intros y [->|Hy]%elem_of_cons; auto.
Qed.

(** The packs of a verified delta are there. *)
Lemma verify_triple s d (E : Store -> Prop) :
  E s -> triple (fun st => st = s) (verify_delta_packs d)
    (fun _ st => st = s /\ forall n, n ∈ new_entries d -> is_Some (s !! pack_storage_key (new_pack_id n))) E.
Proof.
  intros HE. unfold verify_delta_packs. cbv zeta. set (pack_ids := elements _).
  assert (Hin : forall n, n ∈ new_entries d -> new_pack_id n ∈ pack_ids).
  { intros n Hn. apply elem_of_elements, elem_of_list_to_set. by apply list_elem_of_fmap_2. }
  assert (Hall : triple (fun st => st = s) (for_each require_pack pack_ids)
    (fun _ st => st = s /\ forall p, p ∈ pack_ids -> is_Some (s !! pack_storage_key p)) E).
  { apply for_each_triple. intros p. by apply require_pack_triple. }
  destruct (_ && _); [|eapply triple_weaken; [exact Hall|done| |done]; intros [] st [-> Hp]; split; [done|]; auto].
  eapply triple_bind; [apply (list_delta_shards_triple s _ ∅ ∅ E HE); by intros k ?%elem_of_empty|]. intros [known fallback].
  apply triple_pure. cbn [fst snd]. intros Hk. eapply triple_weaken;
    [apply (for_each_triple s _ (fun p => is_Some (s !! pack_storage_key p)))|done| |done].
  - intros p. unfold require_known. case_bool_decide; [by apply require_pack_triple|]. case_bool_decide as Hb.
    + apply triple_ret. intros st ->. split; [done|]. by apply Hk.
    + apply triple_fail. by intros st ->.
  - intros [] st [-> Hp]. split; [done|]. auto.
Qed.
End VerifyLaws.

(** ** The index with the delta *)

Section CommitLaws.
Context `{Hhex : HexCodec} `{Hblake : Blake2b} {Hxor : Xor8} (e : CryptoEngine) `{Hcodecs : Codecs}.
Context `{Hmp : IndexCodec} `{Hmeta : MsgPack SnapshotMeta} `{Hcache : MsgPack SnapshotListCache} `{Hitems : ItemStream}.
Context `{Hjournal : MsgPack (list PendingPackEntry)}.
Context `{Hljson : Json LockEntry} `{Hsjson : Json SessionEntry} `{Hrfc : Rfc3339}.
Context (plain : ChunkId -> bytes) (pack_data : string -> bytes).

Abbreviation covered := (covered e plain).
Abbreviation references := (references e plain).

(** The delta of a session that was asked for [ids]; the packs need not be
    there any more. *)
Record delta_promised (ids : list ChunkId) (d : IndexDelta) : Prop := {
  dp_refs : forall id, delta_refs d id = count_id id ids;
  dp_nodup : NoDup (new_ids d);
  dp_wf : wf_delta d;
  dp_new : forall n, n ∈ new_entries d ->
    promised e plain pack_data (new_chunk_id n) (new_pack_id n) (new_pack_offset n) (new_stored_size n);
}.

(** No counter overflows and the metadata reader accepts the result. *)
Definition capacity (ix : ChunkIndex) (ids : list ChunkId) : Prop :=
  (forall id, rc ix id + count_id id ids < u32_modulus) /\
  1024 + 160 * Z.of_nat (size ix + length ids) <= MAX_METADATA_DECOMPRESS_SIZE.

Definition grown (ids : list ChunkId) (ix ix' : ChunkIndex) : Prop := forall id, rc ix' id = rc ix id + count_id id ids.

Lemma count_id_elem_inv id ids : 1 <= count_id id ids -> id ∈ ids.
Proof.
  unfold count_id. induction ids as [|x ids IH]; simpl; [lia|]. case_decide as Hx; [subst; by left|]. intros Hc. right. apply IH. lia.
Qed.

Lemma new_ids_asked ids d : delta_promised ids d -> forall id, id ∈ new_ids d -> id ∈ ids.
Proof.
  intros [Hr Hnd [Hwf Hb] _] id (n & -> & Hn)%list_elem_of_fmap. apply count_id_elem_inv. rewrite <- Hr. unfold delta_refs.
  destruct (first_new_nodup n (new_entries d) Hnd Hn) as [_ ->]. rewrite Forall_forall in Hwf.
  destruct (Hwf n Hn) as (_ & _ & _ & _ & ? & _).
  destruct (refcount_bumps d !! new_chunk_id n) as [k|] eqn:Hk; simpl; [|lia]. destruct (Hb _ _ Hk). lia.
Qed.

Lemma new_ids_length ids d : delta_promised ids d -> (length (new_entries d) <= length ids)%nat.
Proof.
  intros Hd. replace (length (new_entries d)) with (length (new_ids d)) by apply length_fmap.
  apply submseteq_length, NoDup_submseteq; [apply Hd|]. by apply new_ids_asked.
Qed.

Lemma rc_pos ix id : map_Forall (fun _ en => 1 <= refcount en) ix -> 0 <= rc ix id.
Proof. intros Hp. unfold rc. destruct (ix !! id) eqn:E; simpl; [|done]. specialize (Hp _ _ E). simpl in Hp. lia. Qed.

Lemma rc_wf ix id : wf_index ix -> u32 (rc ix id).
Proof. intros Hp. unfold rc. destruct (ix !! id) eqn:E; simpl; [|done]. by destruct (Hp _ _ E) as (_ & ? & _). Qed.

Section Grow.
Context (st : Store) (ix : ChunkIndex) (ids : list ChunkId) (d d' : IndexDelta).
Context (Hcov : covered st ix) (Hd : delta_promised ids d) (Hcap : capacity ix ids) (Hrec : reconcile d ix = Ok d').

Lemma commit_grown : grown ids ix (apply_to d' ix).
Proof.
  intros id. destruct Hcov as [_ [Hwf _] Hpos _ _]. destruct Hd as [Hr _ Hwd _]. destruct Hcap as [Hc _].
  rewrite (commit_rc d ix d' id Hwd Hwf Hrec), Hr. apply u32_add_small. specialize (Hc id).
  pose proof (rc_pos ix id Hpos). pose proof (count_id_nonneg id ids). unfold u32; lia.
Qed.

Lemma commit_fits : index_fits (apply_to d' ix).
Proof.
  destruct Hcov as [_ [Hwf _] _ _ _]. split; [by eapply commit_wf; [apply Hd|..]|]. destruct Hcap as [_ Hc].
  assert (Hs : (size (apply_to d' ix) <= size ix + length ids)%nat); [|lia].
  pose proof (new_ids_length ids d Hd) as Hl.
  assert (Hsub : dom (apply_to d' ix) ⊆ dom ix ∪ list_to_set (new_ids d)).
  { intros id [en Hen]%elem_of_dom. destruct (commit_dom d ix d' id (dp_wf _ _ Hd) Hrec) as [Hx|Hx]; [by eexists| |].
    - by apply elem_of_union_l, elem_of_dom.
    - by apply elem_of_union_r, elem_of_list_to_set. }
  apply subseteq_size in Hsub. rewrite size_dom in Hsub. etransitivity; [exact Hsub|].
  rewrite size_union_alt, size_dom. apply Nat.add_le_mono_l.
  etransitivity; [apply subseteq_size, subseteq_difference_l; done|]. rewrite size_list_to_set by apply Hd.
  unfold new_ids. by rewrite length_fmap.
Qed.

Lemma commit_entry_new id en : ix !! id = None -> apply_to d' ix !! id = Some en ->
  exists n, n ∈ new_entries d' /\ n ∈ new_entries d /\ new_chunk_id n = id /\
    en = mkEntry (refcount en) (new_stored_size n) (new_pack_id n) (new_pack_offset n).
Proof.
  intros Hi Hen. rewrite (commit_lookup d ix d' id (dp_wf _ _ Hd) Hrec), Hi in Hen.
  destruct (first_new id (new_entries d)) as [n|] eqn:Hn; [|done]. injection Hen as <-. exists n.
  apply first_new_elem in Hn as [Hin <-]. split; [|done].
  destruct (reconcile_inv d ix d' (dp_wf _ _ Hd) Hrec) as (-> & _). by apply list_elem_of_filter.
Qed.

Lemma commit_pos : map_Forall (fun _ en => 1 <= refcount en) (apply_to d' ix).
Proof.
  intros id en Hen. pose proof (commit_grown id) as Hg. unfold rc at 1 in Hg. rewrite Hen in Hg. cbn in Hg. rewrite Hg.
  pose proof (count_id_nonneg id ids). destruct (ix !! id) as [old|] eqn:Hi.
  - destruct Hcov as [_ _ Hpos _ _]. specialize (Hpos _ _ Hi). unfold rc. rewrite Hi. simpl in *. lia.
  - destruct (commit_entry_new id en Hi Hen) as (n & _ & Hin & <- & _). unfold rc. rewrite Hi. cbn [fmap option_fmap option_map default].
    assert (Hids : new_chunk_id n ∈ ids) by (apply (new_ids_asked ids d Hd), list_elem_of_fmap_2, Hin).
    apply count_id_elem in Hids. simpl. lia.
Qed.

(** A store with that index, the packs of the delta, and no more references
    than were counted is covered. *)
Lemma commit_covered st' :
  index_of e st' (apply_to d' ix) -> names pack_data st' -> same_packs st st' ->
  (forall n, n ∈ new_entries d' -> is_Some (st' !! pack_storage_key (new_pack_id n))) ->
  (forall id, references st' id <= rc ix id + count_id id ids) ->
  covered st' (apply_to d' ix).
Proof.
  intros Hi Hn Hp Hst Hr. split; [done|apply commit_fits|apply commit_pos| |].
  - intros id en Hen. destruct (ix !! id) as [old|] eqn:Ho.
    + eapply (stored_location e plain); [eapply stored_packs; [exact Hp|apply Hcov]|exact Ho|].
      rewrite (commit_lookup d ix d' id (dp_wf _ _ Hd) Hrec), Ho in Hen. by destruct (refcount_bumps d' !! id); injection Hen as <-.
    + destruct (commit_entry_new id en Ho Hen) as (n & Hin' & Hin & <- & ->).
      apply (placed_stored e plain pack_data); [done|]. split; [right; by apply Hst|by apply Hd].
  - intros id. rewrite commit_grown. apply Hr.
Qed.
End Grow.

(** ** The local caches *)

(** What the cache files answer for a generation is the index [ix]. *)
Record caches_ok (l : LocalCaches) (g : Z) (ix : ChunkIndex) : Prop := {
  co_blob : forall f raw, lc_blob l = Some f -> read_index_blob_cache f g = Some raw ->
    decode_index_blob_full e raw = Ok (mkIndexBlob g ix);
  co_full : forall f c, lc_full l = Some f -> full_open_path f g = Some c ->
    cacheable ix g /\ f = build_full_index_cache_to_path ix g;
  co_dedup : forall f c, lc_dedup l = Some f -> dedup_open_path f g = Some c -> f = build_dedup_cache_to_path ix g;
  co_restore : forall f c, lc_restore l = Some f -> restore_open_path f g = Some c -> f = build_restore_cache_to_path ix g;
}.

(** No file is of that generation. *)
Record unused (l : LocalCaches) (g : Z) : Prop := {
  un_blob : forall f, lc_blob l = Some f -> read_index_blob_cache f g = None;
  un_full : forall f, lc_full l = Some f -> full_open_path f g = None;
  un_dedup : forall f, lc_dedup l = Some f -> dedup_open_path f g = None;
  un_restore : forall f, lc_restore l = Some f -> restore_open_path f g = None;
}.

Lemma open_nonzero magic esize f g c : open_cache magic esize f g = Some c -> g <> 0.
Proof. unfold open_cache. by destruct (Z.eqb_spec g 0). Qed.

Lemma blob_written ok blob g l ix :
  u64 g -> decode_index_blob_full e blob = Ok (mkIndexBlob g ix) ->
  (forall f, lc_blob l = Some f -> read_index_blob_cache f g = None) ->
  forall f raw, written ok (write_index_blob_cache blob g) (lc_blob l) = Some f -> read_index_blob_cache f g = Some raw ->
    decode_index_blob_full e raw = Ok (mkIndexBlob g ix).
Proof.
  intros Hg Hd Hu f raw Hf Hr. unfold written in Hf. destruct ok; [|by rewrite (Hu f Hf) in Hr].
  injection Hf as <-. destruct (decide (g = 0)) as [->|Hg0]; [done|]. rewrite index_blob_cache_round_trip in Hr by done.
  rewrite decide_True in Hr by done. by injection Hr as <-.
Qed.

(** The full cache of [ix], or none of this generation, and none derived from
    it yet. *)
Record caches_half (l : LocalCaches) (g : Z) (ix : ChunkIndex) : Prop := {
  ch_blob : forall f raw, lc_blob l = Some f -> read_index_blob_cache f g = Some raw ->
    decode_index_blob_full e raw = Ok (mkIndexBlob g ix);
  ch_full : forall f c, lc_full l = Some f -> full_open_path f g = Some c ->
    cacheable ix g /\ f = build_full_index_cache_to_path ix g;
  ch_dedup : forall f, lc_dedup l = Some f -> dedup_open_path f g = None;
  ch_restore : forall f, lc_restore l = Some f -> restore_open_path f g = None;
}.

Lemma half_ok l g ix : caches_half l g ix -> caches_ok l g ix.
Proof.
  intros [H1 H2 H3 H4]. split; [done|done| |].
  - intros f c Hf Hc. by rewrite (H3 f Hf) in Hc.
  - intros f c Hf Hc. by rewrite (H4 f Hf) in Hc.
Qed.

Lemma rebuild_ok io fresh r l ix :
  u64 (index_generation r) -> wf_index ix -> u32 (Z.of_nat (size ix)) -> (fresh = false -> chunk_index r = ix) ->
  caches_half l (index_generation r) ix -> caches_ok (rebuild_local_caches io fresh r l) (index_generation r) ix.
Proof.
  set (g := index_generation r). intros Hg Hwf Hsz Hix [H1 H2 H3 H4]. unfold rebuild_local_caches. fold g. cbv zeta.
  set (l1 := if fresh then l else _).
  assert (Hl1 : caches_half l1 g ix).
  { destruct fresh; [done|]. unfold l1, set_full. rewrite Hix by done. split; cbn [lc_blob lc_full lc_dedup lc_restore]; try done.
    intros f c Hf Hc. unfold written in Hf. destruct (io_full io); [|by eapply H2]. injection Hf as <-.
    split; [|done]. split; [done|]. split; [done|]. split; [done|]. by eapply open_nonzero. }
  clearbody l1. destruct Hl1 as [L1 L2 L3 L4]. unfold set_derived. split; cbn [lc_blob lc_full lc_dedup lc_restore]; [done|done| |].
  - intros f c Hf Hc. destruct (lc_full l1) as [ff|] eqn:Ef; cbn [mbind option_bind] in Hf; [|by rewrite (L3 f Hf) in Hc].
    destruct (build_dedup_cache_from_full_cache ff g) as [b|] eqn:Hb; [|by rewrite (L3 f Hf) in Hc].
    unfold written in Hf. destruct (io_dedup io); [|by rewrite (L3 f Hf) in Hc]. injection Hf as <-.
    pose proof Hb as Hb'. unfold build_dedup_cache_from_full_cache in Hb. destruct (full_open_path ff g) as [cc|] eqn:Ho; [|done].
    destruct (L2 ff cc eq_refl Ho) as [Hca ->]. destruct (derive_caches ix g Hca) as [E _]. rewrite E in Hb'. by injection Hb' as <-.
  - intros f c Hf Hc. destruct (lc_full l1) as [ff|] eqn:Ef; cbn [mbind option_bind] in Hf; [|by rewrite (L4 f Hf) in Hc].
    destruct (build_restore_cache_from_full_cache ff g) as [b|] eqn:Hb; [|by rewrite (L4 f Hf) in Hc].
    unfold written in Hf. destruct (io_restore io); [|by rewrite (L4 f Hf) in Hc]. injection Hf as <-.
    pose proof Hb as Hb'. unfold build_restore_cache_from_full_cache in Hb. destruct (full_open_path ff g) as [cc|] eqn:Ho; [|done].
    destruct (L2 ff cc eq_refl Ho) as [Hca ->]. destruct (derive_caches ix g Hca) as [_ E]. rewrite E in Hb'. by injection Hb' as <-.
Qed.

(** ** Writing the index

    [st1] is the store after the flush, [ix] the index in it. *)

Section Paths.
Context {Hlaw : LawfulEngine e}.
Context (draws : nat -> Z * bytes) (fence : M unit) (io : LocalIo).
Context (draws_ok : forall n, u64 (draws n).1 /\ length (draws n).2 = NONCE_LEN) (fence_ok : only_locks fence).
Context (st1 : Store) (ix : ChunkIndex) (ids : list ChunkId) (d : IndexDelta).
Context (Hcov : covered st1 ix) (Hnames : names pack_data st1) (Hd : delta_promised ids d) (Hcap : capacity ix ids).

(** Only the index object may differ, and what [agree] ignores. *)
Definition kept (st : Store) : Prop :=
  forall k, is_lock_key k = false -> k <> "index.gen" -> k <> "index" -> st !! k = st1 !! k.

Definition safe (st : Store) : Prop := (exists ix', covered st ix') /\ kept st.

Lemma agree_kept st : agree st1 st -> kept st.
Proof. intros Ha k Hl Hg _. by apply Ha. Qed.

Lemma agree_safe st : agree st1 st -> safe st.
Proof. intros Ha. split; [exists ix; by eapply agree_covered|by apply agree_kept]. Qed.

Lemma kept_packs st : kept st -> same_packs st1 st.
Proof. intros Hk p. destruct (pack_key_plain p) as (? & ? & ?). by apply Hk. Qed.

Lemma kept_references st id : kept st -> references st id = references st1 id.
Proof. intros Hk. apply references_same. intros k (Hl & Hg & Hi)%snapshot_key_plain. by apply Hk. Qed.

Lemma kept_names st : kept st -> names pack_data st.
Proof.
  intros Hk k x Hp Hx. apply Hnames; [done|]. rewrite <- Hk; [done|..].
  - destruct k as [|[[] [] [] [] [] [] [] []] k]; by destruct Hp || done.
  - intros ->. done.
  - intros ->. done.
Qed.

(** The index of a reconciled and verified delta. *)
Lemma kept_covered d' st :
  reconcile d ix = Ok d' -> (forall n, n ∈ new_entries d' -> is_Some (st1 !! pack_storage_key (new_pack_id n))) ->
  kept st -> index_of e st (apply_to d' ix) -> covered st (apply_to d' ix).
Proof.
  intros Hr Hv Hk Hi. eapply (commit_covered st1 ix ids d d'); try done.
  - by apply kept_names.
  - by apply kept_packs.
  - intros n Hn. rewrite (kept_packs st Hk). by apply Hv.
  - intros id. rewrite (kept_references st id Hk). pose proof (cv_refs _ _ _ _ Hcov id). pose proof (count_id_nonneg id ids). lia.
Qed.

Lemma fence_triple h0 : htriple (fun h st => h = h0 /\ agree st1 st) (hdo fence) (fun _ h st => h = h0 /\ agree st1 st) safe.
Proof.
  apply htriple_do. eapply triple_weaken; [apply (fence_agree fence st1 fence_ok)|done|done|]. apply agree_safe.
Qed.

(** The fence, the index object and its generation file. *)
Lemma write_index_triple {B} h0 data g gb ix' (rest : HM B) Q :
  decode_index_blob_full e data = Ok (mkIndexBlob g ix') ->
  (forall st, kept st -> index_of e st ix' -> covered st ix') ->
  htriple (fun h st => h = h0 /\ covered st ix' /\ kept st) rest Q safe ->
  htriple (fun h st => h = h0 /\ agree st1 st)
    (_ ← hdo fence; _ ← hdo (put "index" data); _ ← hdo (ignore (put "index.gen" gb)); rest) Q safe.
Proof.
  intros Hdec Hc Hrest. assert (Hsafe : forall st, covered st ix' /\ kept st -> safe st) by (intros st [? ?]; split; [by eexists|done]).
  eapply htriple_bind; [apply fence_triple|]. intros [].
  eapply htriple_bind with (R := fun _ h st => h = h0 /\ covered st ix' /\ kept st).
  { apply htriple_do. apply triple_writing; [apply agree_safe|]. intros st Ha.
    assert (Hst : covered (<["index" := data]> st) ix' /\ kept (<["index" := data]> st)); [|split; [done|by apply Hsafe]].
    assert (Hk : kept (<["index" := data]> st)).
    { intros k Hl Hg Hi. rewrite lookup_insert_ne by done. by apply Ha. }
    split; [|done]. apply Hc; [done|]. exists data, g. by rewrite lookup_insert_eq. }
  intros []. eapply htriple_bind with (R := fun _ h st => h = h0 /\ covered st ix' /\ kept st); [|by intros []].
  eapply htriple_weaken with (P := fun h st => h = h0 /\ covered st ix' /\ kept st) (Q := fun _ h st => h = h0 /\ covered st ix' /\ kept st) (E := fun st => covered st ix' /\ kept st);
    [|done|done|exact Hsafe]. apply htriple_do.
  apply (preserves_ignore (fun st => covered st ix' /\ kept st)), preserves_writing. intros st [Hcv Hk].
  assert (Ha : agree st (<["index.gen" := gb]> st)) by (intros k Hl Hg; by rewrite lookup_insert_ne).
  split; [by eapply agree_covered|]. intros k Hl Hg Hi. rewrite Ha by done. by apply Hk.
Qed.

Definition persisted (h : Handle) (data : bytes) : Handle :=
  let r := h_repo h in
  mkHandle (mkRepo (manifest r) (chunk_index r) (index_generation r) false (S (drawn r))) (h_session h)
    (write_blob_cache io data (index_generation r) (h_local h)) (h_rebuild h).

Lemma persist_triple h0 (Q : Handle -> Store -> Prop) :
  index_fits (chunk_index (h_repo h0)) -> u64 (index_generation (h_repo h0)) ->
  (forall st, kept st -> index_of e st (chunk_index (h_repo h0)) -> covered st (chunk_index (h_repo h0))) ->
  (forall data st, decode_index_blob_full e data = Ok (mkIndexBlob (index_generation (h_repo h0)) (chunk_index (h_repo h0))) ->
     covered st (chunk_index (h_repo h0)) -> kept st -> Q (persisted h0 data) st) ->
  htriple (fun h st => h = h0 /\ agree st1 st) (persist_index_cached e draws fence io) (fun _ => Q) safe.
Proof.
  intros Hfit Hg Hc HQ. unfold persist_index_cached. apply htriple_get_at. cbv beta zeta.
  apply htriple_lift_bind; [|intros h st [_ Ha]; by apply agree_safe]. intros data Hobj.
  assert (Hdec : decode_index_blob_full e data = Ok (mkIndexBlob (index_generation (h_repo h0)) (chunk_index (h_repo h0)))).
  { by eapply index_object_decodes; [exact Hlaw|apply draws_ok|..]. }
  eapply write_index_triple; [exact Hdec|exact Hc|]. apply htriple_modify_bind.
  apply htriple_modify. intros h st (-> & Hcv & Hk). by apply HQ.
Qed.

(** What the index phase of the commit leaves. *)
Record index_phase (h0 h : Handle) (st : Store) (deferred : bool) (ix' : ChunkIndex) : Prop := {
  ip_covered : covered st ix';
  ip_kept : kept st;
  ip_grown : grown ids ix ix';
  ip_clean : index_dirty (h_repo h) = false;
  ip_session : h_session h = h_session h0;
  ip_manifest : manifest (h_repo h) = manifest (h_repo h0);
  ip_rebuild : h_rebuild h = h_rebuild h0;
  ip_snapshots : lc_snapshots (h_local h) = lc_snapshots (h_local h0);
  ip_index : if deferred then lc_full (h_local h) = Some (build_full_index_cache_to_path ix' (index_generation (h_repo h))) /\
                              cacheable ix' (index_generation (h_repo h))
             else delta_is_empty d = false \/ h_rebuild h0 = true -> chunk_index (h_repo h) = ix';
  ip_caches : delta_is_empty d = false -> u64 (index_generation (h_repo h)) /\ caches_half (h_local h) (index_generation (h_repo h)) ix';
}.

(** The generation drawn for this commit. *)
Definition drawn_generation (h : Handle) : Z := (draws (drawn (h_repo h))).1.

Lemma index_sized ix' : index_fits ix' -> u32 (Z.of_nat (size ix')).
Proof. intros [_ Hs]. unfold MAX_METADATA_DECOMPRESS_SIZE, u32, u32_modulus in *. lia. Qed.

Lemma slow_path_triple h0 raw g :
  decode_index_blob_full e raw = Ok (mkIndexBlob g ix) -> unused (h_local h0) (drawn_generation h0) ->
  htriple (fun h st => h = h0 /\ st = st1) (slow_path_commit e draws fence io (Some raw) d)
    (fun _ h st => exists ix', index_phase h0 h st false ix') safe.
Proof.
  intros Hdec [U1 U2 U3 U4]. assert (Hs1 : safe st1) by apply agree_safe, agree_refl.
  unfold slow_path_commit, decode_raw_index_blob. rewrite Hdec. cbn [mbind result_bind mret result_ret blob_generation blob_chunks].
  apply htriple_lift_bind; [|by intros h st [_ ->]]. intros p [= <-]. cbn [snd].
  apply htriple_lift_bind; [|by intros h st [_ ->]]. intros d' Hrec.
  eapply htriple_bind; [apply htriple_do, (verify_triple st1 d' safe Hs1)|]. intros [].
  eapply htriple_weaken with (P := fun h st => (h = h0 /\ agree st1 st) /\ (forall n, n ∈ new_entries d' -> is_Some (st1 !! pack_storage_key (new_pack_id n))));
    [|by intros h st (-> & -> & Hv)|intros a h st Hq; exact Hq|done].
  apply htriple_pure. intros Hv. apply htriple_modify_bind. apply persist_triple.
  - by apply (commit_fits st1 ix ids d d').
  - apply draws_ok.
  - intros st Hk Hi. by apply kept_covered.
  - intros data st Hdata Hcv Hk. exists (apply_to d' ix). split; try done.
    + by apply (commit_grown st1 ix ids d d').
    + intros _. split; [apply draws_ok|]. split; cbn [h_local h_repo persisted write_blob_cache lc_blob lc_full lc_dedup lc_restore set_blob index_generation new_generation drawn].
      * apply blob_written; [apply draws_ok|exact Hdata|exact U1].
      * intros f c Hf Hc. pose proof (U2 f Hf) as Hno. rewrite (Hc : full_open_path f (drawn_generation h0) = Some c) in Hno. done.
      * exact U3.
      * exact U4.
Qed.

(** *** The fast path *)

Context (ixb : ChunkIndex).
Context (Hbase_new : forall n, n ∈ new_entries d -> ixb !! new_chunk_id n = None).
Context (Hbase_bumps : forall id, is_Some (refcount_bumps d !! id) -> is_Some (ixb !! id) \/ id ∈ new_ids d).

Lemma fast_path_cache_spec h0 raw g old :
  caches_ok (h_local h0) (index_generation (h_repo h0)) ixb -> decode_index_blob_full e raw = Ok (mkIndexBlob g ix) ->
  fast_path_cache h0 raw = Some old ->
  ix = ixb /\ old = full_mmap (table_of fc_chunk_id full_of ix) (index_generation (h_repo h0)).
Proof.
  intros [C1 C2 _ _] Hdec Hf. unfold fast_path_cache in Hf.
  destruct (lc_blob (h_local h0)) as [fb|] eqn:Eb; cbn [mbind option_bind] in Hf; [|done].
  destruct (read_index_blob_cache fb _) as [cached|] eqn:Er; cbn [mbind option_bind] in Hf; [|done].
  case_bool_decide as Hraw; [|done]. subst cached. rewrite (C1 fb raw eq_refl Er) in Hdec. injection Hdec as <- <-. split; [done|].
  destruct (lc_full (h_local h0)) as [ff|] eqn:Ef; cbn [mbind option_bind] in Hf; [|done].
  destruct (C2 ff old eq_refl Hf) as [Hca ->]. rewrite full_open_ok in Hf by done. by injection Hf as <-.
Qed.

Lemma fast_mergeable : ix = ixb -> mergeable d ix /\ reconcile d ix = Ok d.
Proof.
  intros ->. split; [split; [apply Hd|]; split; [apply Hd|by apply Forall_forall]|]. by apply reconcile_fitting.
Qed.

Lemma fast_size : u32 (Z.of_nat (size ix + length (new_entries d))).
Proof.
  pose proof (new_ids_length ids d Hd). destruct Hcap as [_ Hc]. unfold MAX_METADATA_DECOMPRESS_SIZE, u32, u32_modulus in *. lia.
Qed.

Lemma fast_path_triple h0 raw g :
  decode_index_blob_full e raw = Ok (mkIndexBlob g ix) -> caches_ok (h_local h0) (index_generation (h_repo h0)) ixb ->
  unused (h_local h0) (drawn_generation h0) ->
  htriple (fun h st => h = h0 /\ st = st1) (try_fast_path_commit e draws fence io raw d)
    (fun taken h st => if taken then exists ix', index_phase h0 h st true ix' else h = h0 /\ st = st1) safe.
Proof.
  intros Hdec Hco [U1 U2 U3 U4]. assert (Hs1 : safe st1) by apply agree_safe, agree_refl.
  unfold try_fast_path_commit. apply htriple_get_at. destruct (fast_path_cache h0 raw) as [old|] eqn:Hf; [|by apply htriple_ret].
  destruct (fast_path_cache_spec h0 raw g old Hco Hdec Hf) as [Hix ->]. destruct (fast_mergeable Hix) as [Hm Hrec].
  eapply htriple_bind; [apply htriple_do, (verify_triple st1 d safe Hs1)|]. intros [].
  eapply htriple_weaken with (P := fun h st => (h = h0 /\ agree st1 st) /\ (forall n, n ∈ new_entries d -> is_Some (st1 !! pack_storage_key (new_pack_id n))));
    [|by intros h st (-> & -> & Hv)|intros a h st Hq; exact Hq|done].
  apply htriple_pure. intros Hv. destruct (draws_ok (drawn (h_repo h0))) as [Hg Hn].
  unfold drawn_generation in *. destruct (draws (drawn (h_repo h0))) as [g' nonce]. cbn [fst snd] in *.
  apply htriple_modify_bind. destruct Hcov as [_ [Hwf _] _ _ _].
  rewrite merge_table by (done || apply fast_size).
  destruct (io_merge io); [|apply htriple_fail; intros h st [_ Ha]; by apply agree_safe]. apply htriple_modify_bind.
  pose proof (commit_fits st1 ix ids d d Hcov Hd Hcap Hrec) as Hfit.
  apply htriple_lift_bind; [|intros h st [_ Ha]; by apply agree_safe]. intros mc Hmc.
  destruct (full_open_path _ g') as [mc'|] eqn:Ho; [|done]. injection Hmc as ->.
  assert (Hca : cacheable (apply_to d ix) g').
  { split; [apply Hfit|]. split; [by apply index_sized|]. split; [done|]. by eapply open_nonzero. }
  rewrite full_open_ok in Ho by done. injection Ho as <-. unfold serialize_full_cache_as_index_blob. rewrite entries_map_view_ok by apply Hca.
  apply htriple_lift_bind; [|intros h st [_ Ha]; by apply agree_safe]. intros data Hobj.
  assert (Hdata : decode_index_blob_full e data = Ok (mkIndexBlob g' (apply_to d ix))) by (by eapply index_object_decodes).
  eapply write_index_triple; [exact Hdata|intros st Hk Hi; by apply kept_covered|].
  apply htriple_modify_bind, htriple_modify_bind, htriple_ret. intros h st (-> & Hcv & Hk). exists (apply_to d ix). split; try done.
  - by apply (commit_grown st1 ix ids d d).
  - intros _. split; [done|]. split; cbn [h_local h_repo write_blob_cache lc_blob lc_full lc_dedup lc_restore set_blob set_full index_generation].
    + by apply blob_written.
    + intros f c [= <-] Hc. done.
    + exact U3.
    + exact U4.
Qed.

Lemma commit_index_triple h0 :
  index_dirty (h_repo h0) = false -> caches_ok (h_local h0) (index_generation (h_repo h0)) ixb ->
  unused (h_local h0) (drawn_generation h0) ->
  htriple (fun h st => h = h0 /\ st = st1) (commit_index e draws fence io d)
    (fun deferred h st => exists ix', index_phase h0 h st deferred ix') safe.
Proof.
  intros Hdirty Hco Hun. assert (Hs1 : safe st1) by apply agree_safe, agree_refl. unfold commit_index.
  destruct (delta_is_empty d) eqn:He.
  - assert (Hg : grown ids ix ix).
    { intros id. rewrite <- (dp_refs _ _ Hd id). unfold delta_is_empty in He. apply andb_true_iff in He as [H1 H2].
      unfold delta_refs. destruct (new_entries d); [|done]. cbn.
      assert (refcount_bumps d = ∅) as ->; [|rewrite lookup_empty; simpl; lia].
      apply map_size_empty_iff. by apply Nat.eqb_eq in H2. }
    assert (Hk1 : kept st1) by done. apply htriple_get_at. destruct (h_rebuild h0) eqn:Hrb.
    + eapply htriple_bind; [apply htriple_do, reload_full_index_of with (P := safe); [apply Hcov|done]|]. intros ix0.
      eapply htriple_weaken with (P := fun h st => (h = h0 /\ st = st1) /\ ix0 = ix); [|by intros h st (-> & -> & ->)|intros a h st Hq; exact Hq|done].
      apply htriple_pure. intros ->. apply htriple_modify_bind, htriple_ret. intros h st [-> ->]. exists ix. split; try done. by rewrite He.
    + apply htriple_ret. intros h st [-> ->]. exists ix. split; try done. all: rewrite He, ?Hrb; intuition discriminate.
  - pose proof (cv_index _ _ _ _ Hcov) as (raw & g & Hraw & Hdec).
    eapply htriple_bind with (R := fun b h st => (h = h0 /\ st = st1) /\ b = Some raw).
    { eapply htriple_weaken; [apply (htriple_do h0), triple_reading with (P := fun st => st = st1) (E := safe); by intros st ->|done| |done].
      intros b h st (-> & -> & ->). by rewrite Hraw. }
    intros b. apply htriple_pure. intros ->.
    eapply htriple_bind; [by apply (fast_path_triple h0 raw g)|]. intros [].
    + apply htriple_ret. by intros h st Hx.
    + eapply htriple_bind; [by apply (slow_path_triple h0 raw g)|]. intros [].
      apply htriple_ret. by intros h st Hx.
Qed.
End Paths.

(** ** From the session to the delta *)

Section Whole.
Context {Hlaw : LawfulEngine e}.
Context (data_target : nat -> Z) (draws : nat -> Z * bytes) (fence : M unit) (io : LocalIo).
Context (draws_ok : forall n, u64 (draws n).1 /\ length (draws n).2 = NONCE_LEN) (fence_ok : only_locks fence).

Definition typed_ids (ids : list ChunkId) : Prop := Forall (fun id => is_id (chunk_bytes id)) ids.

Lemma promised_types id p off size : promised e plain pack_data id p off size -> is_id (pack_bytes p) /\ u64 off /\ u32 size.
Proof.
  intros (Hp & Ho & bl & i & b & _ & Hf & Hb & Hr & _). split; [done|]. split; [done|].
  assert (Hsz : size = Z.of_nat (length b)).
  { apply list_elem_of_split_length in Hb as (b1 & b2 & -> & ->). rewrite blob_ranges_mid in Hr. by injection Hr as _ <-. }
  rewrite Forall_lookup in Hf. specialize (Hf i b Hb). unfold fits in Hf. unfold u32. lia.
Qed.

Lemma flushed_promised base ids s d st :
  session_inv e plain pack_data base ids d (s_ws s) st -> pending (data_pack_writer (s_ws s)) = ∅ -> pending (tree_pack_writer (s_ws s)) = ∅ ->
  small ids -> typed_ids ids -> delta_promised ids d.
Proof.
  intros Hi Hpd Hpt Hsm Hty.
  assert (Hr : forall id, delta_refs d id = count_id id ids).
  { intros id. pose proof (si_refs _ _ _ _ _ _ _ _ Hi id) as Hx. unfold pend_refs in Hx. rewrite Hpd, Hpt, !lookup_empty in Hx. simpl in Hx. lia. }
  assert (Hc : forall id, 0 <= count_id id ids < u32_modulus).
  { intros id. pose proof (count_id_nonneg id ids). pose proof (count_id_le id ids). unfold small in Hsm. lia. }
  pose proof (si_pos _ _ _ _ _ _ _ _ Hi) as Hpos. pose proof (si_nodup _ _ _ _ _ _ _ _ Hi) as Hnd.
  assert (Hb : forall id n, refcount_bumps d !! id = Some n -> 0 <= n) by (intros; by eapply (si_bumps _ _ _ _ _ _ _ _ Hi)).
  assert (Hn : forall n, n ∈ new_entries d -> new_refcount n <= count_id (new_chunk_id n) ids).
  { intros n Hin. rewrite <- Hr. unfold delta_refs. destruct (first_new_nodup n (new_entries d) Hnd Hin) as [_ ->].
    destruct (refcount_bumps d !! new_chunk_id n) eqn:Hk; simpl; [|lia]. specialize (Hb _ _ Hk). lia. }
  split; [exact Hr|exact Hnd| |].
  - split.
    + apply Forall_forall. intros n Hin. rewrite Forall_forall in Hpos. specialize (Hpos n Hin). simpl in Hpos. specialize (Hn n Hin).
      destruct (si_placed _ _ _ _ _ _ _ _ Hi n Hin) as [_ Hp]. destruct (promised_types _ _ _ _ Hp) as (? & ? & ?).
      split; [|split_and!; try done; specialize (Hc (new_chunk_id n)); lia].
      unfold typed_ids in Hty. rewrite Forall_forall in Hty. apply Hty, count_id_elem_inv. lia.
    + intros id n Hk. pose proof (Hb _ _ Hk). pose proof (entry_refs_nonneg id _ Hpos) as He. specialize (Hr id). unfold delta_refs in Hr.
      rewrite Hk in Hr. simpl in Hr. specialize (Hc id). unfold u32. lia.
  - intros n Hin. by destruct (si_placed _ _ _ _ _ _ _ _ Hi n Hin) as [_ Hp].
Qed.

(** Adding packs and session objects keeps a store covered. *)
Lemma extends_covered s0 st ix : extends s0 st -> covered s0 ix -> covered st ix.
Proof.
  intros [Hx Hp] [H1 H2 H3 H4 H6]. split; [|done|done| |].
  - destruct H1 as (x & g & Hd & Hi). exists x, g. by rewrite Hx.
  - intros id en Hen. destruct (H4 id en Hen) as (bl & i & b & Hd & Hr). exists bl, i, b. split; [|done]. apply Hp; [apply pack_key_packs|done].
  - intros id. rewrite (references_same e plain st s0); [done|]. intros k Hk. apply Hx.
    + by apply starts_with_inv in Hk as [r ->].
    + by apply starts_with_inv in Hk as [r ->].
Qed.

Lemma covered_same st st' ix :
  st' !! "index" = st !! "index" -> same_packs st st' -> (forall k, starts_with k "snapshots/" = true -> st' !! k = st !! k) ->
  covered st ix -> covered st' ix.
Proof.
  intros Hi Hp Hs [H1 H2 H3 H4 H6]. split; [|done|done|by eapply stored_packs|].
  - destruct H1 as (x & g & Hd & Hx). exists x, g. by rewrite Hi.
  - intros id. by rewrite (references_same e plain st' st).
Qed.

(** *** The commit point and after *)

Section Tail.
Context (st1 : Store) (ix ix' : ChunkIndex) (ids : list ChunkId) (entry : SnapshotEntry) (packed : bytes).
Abbreviation key := (snapshot_storage_key (snap_id entry)).
Context (Hid : is_id (snapshot_bytes (snap_id entry))) (Hfresh : st1 !! key = None).
Context (Hrefs : forall id, count_id id (object_refs e plain (snap_id entry) packed) <= count_id id ids).
Context (Hcov1 : covered st1 ix) (Hgrown : grown ids ix ix').

(** As [st1] but for the objects the commit writes. *)
Definition later (st : Store) : Prop :=
  forall k, is_lock_key k = false -> k <> "index.gen" -> k <> "index" -> k <> key -> starts_with k SESSIONS_PREFIX = false ->
  st !! k = st1 !! k.

Definition ends (st : Store) : Prop := (exists i, covered st i) /\ later st.

Definition published (st : Store) : Prop := covered st ix' /\ st !! key = Some packed /\ later st.

Lemma published_ends st : published st -> ends st.
Proof. intros (? & _ & ?). split; [by eexists|done]. Qed.

Lemma indexed_ends st : covered st ix' /\ kept st1 st -> ends st.
Proof. intros [Hc Hk]. split; [by eexists|]. intros k H1 H2 H3 _ _. by apply Hk. Qed.

Lemma publish st : covered st ix' /\ kept st1 st -> published (<[key := packed]> st).
Proof.
  intros [Hc Hk]. destruct (snapshot_key_plain key (snapshot_storage_key_prefix _)) as (Hl & Hg & Hi).
  assert (Hnone : st !! key = None) by (rewrite Hk by done; exact Hfresh).
  split; [|split; [apply lookup_insert_eq|]].
  - destruct Hc as [H1 H2 H3 H4 H6]. split; [|done|done| |].
    + destruct H1 as (x & g & Hd & Hx). exists x, g. rewrite lookup_insert_ne by done. done.
    + eapply stored_packs; [|exact H4]. intros p. apply lookup_insert_ne. apply not_eq_sym, pack_key_not_snapshot, snapshot_storage_key_prefix.
    + intros id. rewrite references_insert by (done || apply snapshot_storage_key_prefix).
      rewrite key_refs_storage_key by done. rewrite (kept_references st1 st id Hk), Hgrown.
      pose proof (cv_refs _ _ _ _ Hcov1 id). specialize (Hrefs id). lia.
  - intros k H1 H2 H3 H4 _. rewrite lookup_insert_ne by done. by apply Hk.
Qed.

Lemma published_reload h0 st : published st ->
  htriple (fun h s => h = h0 /\ s = st) (hdo (reload_full_index e)) (fun i h s => h = h0 /\ s = st /\ i = ix') ends.
Proof.
  intros Hp. apply htriple_do. apply reload_full_index_of; [apply Hp|by apply published_ends].
Qed.

(** In memory the index is the one that was saved. *)
Definition with_index (h : Handle) : Handle :=
  let r := h_repo h in
  mkHandle (mkRepo (manifest r) ix' (index_generation r) (index_dirty r) (drawn r)) (h_session h) (h_local h) (h_rebuild h).

Lemma hydrate_triple h0 :
  cacheable ix' (index_generation (h_repo h0)) -> lc_full (h_local h0) = Some (build_full_index_cache_to_path ix' (index_generation (h_repo h0))) ->
  htriple (fun h s => h = h0 /\ published s) (hydrate_chunk_index e io) (fun _ h s => h = with_index h0 /\ published s) ends.
Proof.
  intros Hca Hfull. apply htriple_get_at. rewrite Hfull. intros h w [-> Hp].
  assert (Hpos : map_Forall (fun _ en => 1 <= refcount en) ix') by apply Hp.
  destruct (io_hydrate io).
  - rewrite (load_full_cache ix' _ Hca Hpos). done.
  - pose proof (published_reload h0 (objects w) Hp h0 w (conj eq_refl eq_refl)) as Hr.
    unfold mbind, HM_bind. destruct (hdo (reload_full_index e) h0 w) as [[i|er] [h' w']]; [|done].
    destruct Hr as (-> & Hw & ->). cbn. by rewrite Hw.
Qed.

Lemma cleanup_triple ks E :
  Forall (fun k => starts_with k SESSIONS_PREFIX = true) ks ->
  triple published (for_each (fun k => ignore (del k)) ks) (fun _ => published) E.
Proof.
  intros Hks. induction Hks as [|k ks Hk Hks IH]; cbn [for_each]; [by apply triple_ret|].
  eapply triple_bind with (R := fun _ => published); [|intros []; exact IH].
  intros w Hw. assert (Hpr : preserves published (ignore (del k))).
  { apply preserves_ignore, preserves_writing. intros st (Hc & Hs & Hl).
    assert (Hne : forall k', starts_with k' SESSIONS_PREFIX = false -> delete k st !! k' = st !! k').
    { intros k' Hk'. apply lookup_delete_ne. congruence. }
    assert (Hsn : forall k', starts_with k' "snapshots/" = true -> starts_with k' SESSIONS_PREFIX = false).
    { intros k' [r ->]%starts_with_inv. done. }
    split; [|split].
    - eapply covered_same; [| | |exact Hc]; [by apply Hne|intros p; by apply Hne|intros k' Hk'; by apply Hne, Hsn].
    - rewrite Hne; [done|]. apply Hsn, snapshot_storage_key_prefix.
    - intros k' H1 H2 H3 H4 H5. rewrite Hne by done. by apply Hl. }
  specialize (Hpr w Hw). unfold ignore, try_, mbind, M_bind in *. by destruct (del k w).
Qed.
End Tail.

Definition push_snapshot (entry : SnapshotEntry) (h : Handle) : Handle :=
  let r := h_repo h in
  mkHandle (mkRepo (manifest r ++ [entry]) (chunk_index r) (index_generation r) (index_dirty r) (drawn r)) (h_session h) (h_local h) (h_rebuild h).

(** The handle a commit leaves, from that of its index phase. *)
Definition finished (deferred : bool) (ix' : ChunkIndex) (entry : SnapshotEntry) (h : Handle) : Handle :=
  let h := push_snapshot entry h in
  consume_session (finish_caches io deferred (if deferred then with_index ix' h else h)).

Definition commit_tail (deferred : bool) (entry : SnapshotEntry) (packed : bytes) : HM unit :=
  _ ← hdo fence;
  _ ← hdo (put (snapshot_storage_key (snap_id entry)) packed);
  _ ← on_repo (fun r => mkRepo (manifest r ++ [entry]) (chunk_index r) (index_generation r) (index_dirty r) (drawn r));
  _ ← (if deferred then hydrate_chunk_index e io else mret tt);
  _ ← hmodify (finish_caches io deferred);
  _ ← hws cleanup_recovered_indices;
  hmodify consume_session.

Lemma cleanup_handle_triple (P : Store -> Prop) h0 ws E :
  h_session h0 = Some ws -> triple P (for_each (fun k => ignore (del k)) (recovered_index_keys ws)) (fun _ => P) E ->
  htriple (fun h st => h = h0 /\ P st) (hws cleanup_recovered_indices)
    (fun _ h st => consume_session h = consume_session h0 /\ P st) E.
Proof.
  intros Hws Ht h w [-> HP]. unfold hws. rewrite Hws. specialize (Ht w HP).
  unfold cleanup_recovered_indices, mbind, WM_bind, wget, wdo, modify_ws. cbn [s_ws s_index s_dirty].
  destruct (for_each _ _ w) as [[[]|er] w']; [|done]. split; [|done]. unfold consume_session. destruct h0 as [r o l b]. by destruct r.
Qed.

Lemma commit_tail_triple st1 ix ix' ids entry packed deferred h1 ws :
  is_id (snapshot_bytes (snap_id entry)) -> st1 !! snapshot_storage_key (snap_id entry) = None ->
  (forall id, count_id id (object_refs e plain (snap_id entry) packed) <= count_id id ids) ->
  covered st1 ix -> grown ids ix ix' -> h_session h1 = Some ws ->
  Forall (fun k => starts_with k SESSIONS_PREFIX = true) (recovered_index_keys ws) ->
  (deferred = true -> lc_full (h_local h1) = Some (build_full_index_cache_to_path ix' (index_generation (h_repo h1))) /\
     cacheable ix' (index_generation (h_repo h1))) ->
  htriple (fun h st => h = h1 /\ covered st ix' /\ kept st1 st) (commit_tail deferred entry packed)
    (fun _ h st => published st1 ix' entry packed st /\ h = finished deferred ix' entry h1) (ends st1 entry).
Proof.
  intros Hid Hfresh Hrefs Hc1 Hg Hws Hks Hdef. unfold commit_tail.
  pose proof (indexed_ends st1 ix' entry) as Hie. pose proof (published_ends st1 ix' entry packed) as Hpe.
  eapply htriple_bind with (R := fun _ h st => h = h1 /\ covered st ix' /\ kept st1 st).
  { eapply htriple_weaken with (P := fun h st => h = h1 /\ covered st ix' /\ kept st1 st) (Q := fun _ h st => h = h1 /\ covered st ix' /\ kept st1 st)
      (E := fun st => covered st ix' /\ kept st1 st); [|done|done|exact Hie].
    apply htriple_do. intros w [Hc Hk]. pose proof (fence_agree fence (objects w) fence_ok w (agree_refl _)) as Ha.
    assert (Hgo : forall st, agree (objects w) st -> covered st ix' /\ kept st1 st).
    { intros st Hst. split; [by eapply agree_covered|]. intros k H1 H2 H3. rewrite Hst by done. by apply Hk. }
    destruct (fence w) as [[] w']; by apply Hgo. }
  intros []. eapply htriple_bind with (R := fun _ h st => h = h1 /\ published st1 ix' entry packed st).
  { apply htriple_do. apply triple_writing; [exact Hie|]. intros st Hst.
    assert (Hp : published st1 ix' entry packed (<[snapshot_storage_key (snap_id entry) := packed]> st)) by (by eapply publish). auto. }
  intros []. apply htriple_modify_bind. change (mkHandle _ _ _ _) with (push_snapshot entry h1).
  set (h3 := if deferred then with_index ix' (push_snapshot entry h1) else push_snapshot entry h1).
  eapply htriple_bind with (R := fun _ h st => h = h3 /\ published st1 ix' entry packed st).
  { unfold h3. destruct deferred; [|by apply htriple_ret]. destruct (Hdef eq_refl) as [Hf Hca].
    eapply hydrate_triple; [exact Hca|exact Hf]. }
  intros []. apply htriple_modify_bind. set (h4 := finish_caches io deferred h3).
  assert (Hws4 : h_session h4 = Some ws).
  { unfold h4, finish_caches, h3. by destruct deferred; cbn; destruct (h_rebuild h1). }
  eapply htriple_bind; [apply (cleanup_handle_triple _ h4 ws _ Hws4), (cleanup_triple st1 ix' entry packed _ (ends st1 entry) Hks)|].
  intros []. apply htriple_modify. intros h st [-> Hp]. done.
Qed.

(** ** The whole commit *)

Definition session_of (h : Handle) (ws : WriteSessionState) : Session := mkSess (chunk_index (h_repo h)) (index_dirty (h_repo h)) ws.

(** A session ready to be committed to the store [s0] with the index [ix]:
    [ids] are the chunks it was asked for and [ixb] is the index it began
    with, which the local caches of its generation hold. *)
Record ready (s0 : Store) (ix ixb : ChunkIndex) (ids : list ChunkId) (h : Handle) (ws : WriteSessionState) : Prop := {
  rd_covered : covered s0 ix;
  rd_session : h_session h = Some ws;
  rd_inv : Inv e plain pack_data (dom ixb) s0 ids none_empty (session_of h ws) s0;
  rd_clean : index_dirty (h_repo h) = false;
  rd_recovered : Forall (fun k => starts_with k SESSIONS_PREFIX = true) (recovered_index_keys ws);
  rd_caches : caches_ok (h_local h) (index_generation (h_repo h)) ixb;
  rd_unused : unused (h_local h) (drawn_generation draws h);
  rd_listed : truthful e s0 (cache_load e (lc_snapshots (h_local h)));
  rd_capacity : capacity ix ids;
  rd_small : small ids;
  rd_typed : typed_ids ids;
}.

(** The object to be written: of a new identifier, referring to nothing the
    session was not asked for. *)
Record snapshot_ready (s0 : Store) (ids : list ChunkId) (entry : SnapshotEntry) (packed : bytes) : Prop := {
  sr_id : is_id (snapshot_bytes (snap_id entry));
  sr_fresh : s0 !! snapshot_storage_key (snap_id entry) = None;
  sr_refs : forall id, count_id id (object_refs e plain (snap_id entry) packed) <= count_id id ids;
}.

(** Nothing is lost: the other snapshots and all packs. *)
Definition rest (s0 : Store) (entry : SnapshotEntry) (st : Store) : Prop :=
  (forall k, starts_with k "snapshots/" = true -> k <> snapshot_storage_key (snap_id entry) -> st !! k = s0 !! k) /\
  (forall k x, starts_with k "packs/" = true -> s0 !! k = Some x -> st !! k = Some x).

Lemma extends_snapshots s0 st : extends s0 st -> forall k, starts_with k "snapshots/" = true -> st !! k = s0 !! k.
Proof. intros [Hx _] k [r ->]%starts_with_inv. by apply Hx. Qed.

Lemma later_rest s0 st1 entry st : extends s0 st1 -> later st1 entry st -> rest s0 entry st.
Proof.
  intros Hx Hl. split.
  - intros k Hk Hne. destruct (snapshot_key_plain k Hk) as (H1 & H2 & H3). rewrite Hl; [by apply (extends_snapshots s0 st1)|done..|].
    apply starts_with_inv in Hk as [r ->]. done.
  - intros k x Hk Hd. apply starts_with_inv in Hk as Hr. destruct Hr as [r ->]. rewrite Hl; [by apply Hx|done|done|done| |done].
    intros E. pose proof (snapshot_storage_key_prefix (snap_id entry)) as Hp. rewrite <- E in Hp. done.
Qed.

Lemma listing_same (s s' : Store) h : (forall k, starts_with k "snapshots/" = true -> s' !! k = s !! k) -> listing e s' h = listing e s h.
Proof. intros Hs. unfold listing. rewrite Hs; [done|]. eapply starts_with_strip, strip_prefix_app. Qed.

Lemma truthful_same (s s' : Store) c : (forall k, starts_with k "snapshots/" = true -> s' !! k = s !! k) -> truthful e s c -> truthful e s' c.
Proof.
  intros Hs Ht h en Hc Hk. rewrite (listing_same s s') by done. apply Ht; [done|]. rewrite <- Hs; [done|].
  eapply starts_with_strip, strip_prefix_app.
Qed.

Lemma names_free m name : find_snapshot m name = None -> forall en, en ∈ m -> snap_name en <> name.
Proof.
  intros Hf en Hin <-. unfold find_snapshot in Hf.
  assert (Hx := find_none _ _ Hf en). rewrite <- list_elem_of_In in Hx. specialize (Hx Hin). cbn in Hx. by rewrite String.eqb_refl in Hx.
Qed.

(** The refreshed list, seen through the name check. *)
Lemma refresh_list_triple s1 h0 nonce (E : Store -> Prop) :
  E s1 -> truthful e s1 (cache_load e (lc_snapshots (h_local h0))) ->
  htriple (fun h st => h = h0 /\ st = s1) (refresh_snapshot_list e io nonce)
    (fun _ h st => exists cache file, st = s1 /\ exact e s1 cache /\
       h = mkHandle (mkRepo (to_entries cache) (chunk_index (h_repo h0)) (index_generation (h_repo h0)) (index_dirty (h_repo h0)) (drawn (h_repo h0)))
             (h_session h0) (set_snapshots file (h_local h0)) (h_rebuild h0)) E.
Proof.
  intros HE Ht. apply htriple_get_at. eapply htriple_bind.
  { eapply htriple_weaken; [apply (htriple_do h0), (refresh_triple e s1 _ true (io_snapshots io) nonce Ht)|done|intros a h st Hq; exact Hq|by intros st ->]. }
  intros p h w (-> & Hw & cache & -> & _ & Hex). cbn. exists cache. eexists. split; [exact Hw|]. split; [by apply Hex|done].
Qed.

(** The flush, at the handle. *)
Lemma flush_handle_triple s0 ix ixb ids h0 ws tk tk_wait :
  ready s0 ix ixb ids h0 ws -> ticks_ok tk -> tick_ok tk_wait ->
  htriple (fun h st => h = h0 /\ st = s0) (hws (flush_packs e data_target tk tk_wait))
    (fun _ h st => exists s, flushed e plain pack_data (dom ixb) s0 ids s st /\ settled (recovered_index_keys ws) s /\
       h = mkHandle (mkRepo (manifest (h_repo h0)) (s_index s) (index_generation (h_repo h0)) (s_dirty s) (drawn (h_repo h0)))
             (Some (s_ws s)) (h_local h0) (h_rebuild h0)) (extends s0).
Proof.
  intros Hr Hn Hnw h w [-> Hw]. destruct Hr as [Hcov Hws HI Hcl _ _ _ _ _ _ _]. unfold hws. rewrite Hws. fold (session_of h0 ws).
  pose proof (flush_packs_triple e data_target plain pack_data (dom ixb) s0 ids tk tk_wait Hn Hnw (session_of h0 ws) w) as Hf.
  rewrite Hw in Hf. specialize (Hf HI).
  assert (Hset : settled (recovered_index_keys ws) (session_of h0 ws)).
  { split; [done|]. split; [|done]. destruct HI as [[d [Hi _]] _]. by apply (si_mode _ _ _ _ _ _ _ _ Hi). }
  pose proof (flush_packs_settles e data_target tk tk_wait _ (session_of h0 ws) w Hset) as Hs.
  destruct (flush_packs e data_target tk tk_wait (session_of h0 ws) w) as [[[]|er] [s w']]; [|apply Hf]. by exists s.
Qed.

(** What a commit promises when it succeeds. *)
Definition committed (s0 : Store) (ix : ChunkIndex) (ids : list ChunkId) (entry : SnapshotEntry) (packed : bytes) (h : Handle) (st : Store) : Prop :=
  exists ix', covered st ix' /\ grown ids ix ix' /\ st !! snapshot_storage_key (snap_id entry) = Some packed /\
    (forall hex en, listing e s0 hex = Some en -> snap_name en <> snap_name entry) /\
    (ids <> [] -> chunk_index (h_repo h) = ix' /\ caches_ok (h_local h) (index_generation (h_repo h)) ix').

Lemma nonempty_delta ids d : delta_promised ids d -> ids <> [] -> delta_is_empty d = false.
Proof.
  intros Hd Hne. destruct (delta_is_empty d) eqn:He; [|done]. exfalso. destruct ids as [|id ids]; [done|].
  pose proof (count_id_elem id (id :: ids) (list_elem_of_here _ _)) as Hc. rewrite <- (dp_refs _ _ Hd) in Hc.
  unfold delta_is_empty in He. apply andb_true_iff in He as [H1 H2%Nat.eqb_eq]. unfold delta_refs in Hc.
  apply map_size_empty_inv in H2. rewrite H2, lookup_empty in Hc. destruct (new_entries d); [|done]. by cbn in Hc.
Qed.

(** The caches after the index phase and the rebuild. *)
Lemma finished_ok st1 ix ids d h0 h st deferred ix' entry :
  delta_is_empty d = false -> index_phase st1 ix ids d h0 h st deferred ix' ->
  let h' := finished deferred ix' entry h in
  chunk_index (h_repo h') = ix' /\ caches_ok (h_local h') (index_generation (h_repo h')) ix'.
Proof.
  intros He Hip h'. destruct Hip as [Hc _ _ _ _ _ _ _ Hix Hca]. destruct (Hca He) as [Hg Hh].
  assert (Hi : chunk_index (h_repo h') = ix').
  { unfold h', finished, finish_caches. destruct deferred; cbn; destruct (h_rebuild h); cbn; try done; apply Hix; by left. }
  split; [done|]. pose proof (index_sized ix' (cv_fits _ _ _ _ Hc)) as Hsz. pose proof (cv_fits _ _ _ _ Hc) as [Hwf _].
  unfold h', finished, finish_caches. cbn [h_rebuild push_snapshot with_index].
  assert (Hb : h_rebuild (if deferred then with_index ix' (push_snapshot entry h) else push_snapshot entry h) = h_rebuild h) by (by destruct deferred).
  rewrite Hb. set (hx := if deferred then _ else _).
  assert (Hl : h_local hx = h_local h) by (unfold hx; by destruct deferred).
  assert (Hgx : index_generation (h_repo hx) = index_generation (h_repo h)) by (unfold hx; by destruct deferred).
  destruct (h_rebuild h); cbn [consume_session h_local h_repo]; rewrite ?Hl, Hgx; [|by apply half_ok].
  rewrite <- Hgx. apply rebuild_ok; rewrite ?Hgx; try done. intros ->. unfold hx. cbn. apply Hix. by left.
Qed.

(** After the flush: [st1] is the store, [d] the delta that was taken. *)
Lemma commit_flushed_triple s0 st1 ix ixb ids d s h1 entry packed nonce :
  covered s0 ix -> flushed e plain pack_data (dom ixb) s0 ids s st1 -> session_inv e plain pack_data (dom ixb) ids d (s_ws s) st1 ->
  delta_promised ids d -> capacity ix ids -> snapshot_ready s0 ids entry packed ->
  (exists ws, h_session h1 = Some ws /\ Forall (fun k => starts_with k SESSIONS_PREFIX = true) (recovered_index_keys ws)) ->
  index_dirty (h_repo h1) = false -> caches_ok (h_local h1) (index_generation (h_repo h1)) ixb ->
  unused (h_local h1) (drawn_generation draws h1) -> truthful e s0 (cache_load e (lc_snapshots (h_local h1))) ->
  htriple (fun h st => h = h1 /\ st = st1)
    (_ ← refresh_snapshot_list e io nonce;
     h ← hget;
     match find_snapshot (manifest (h_repo h)) (snap_name entry) with
     | Some _ => hfail (SnapshotAlreadyExists (snap_name entry))
     | None =>
         deferred ← commit_index e draws fence io d;
         h ← hget;
         _ ← (if index_dirty (h_repo h) then _ ← on_repo (new_generation draws); persist_index_cached e draws fence io else mret tt);
         commit_tail deferred entry packed
     end)
    (fun _ h st => committed s0 ix ids entry packed h st /\ rest s0 entry st)
    (fun st => (exists ix', covered st ix') /\ rest s0 entry st).
Proof.
  intros Hc0 Hfl Hi Hdp Hcap [Sid Sfresh Srefs] (ws & Hws & Hks) Hcl Hco Hun Htr. destruct Hfl as (_ & _ & _ & _ & [Hx Hnm _]).
  pose proof (extends_covered s0 st1 ix Hx Hc0) as Hc1. pose proof (extends_snapshots s0 st1 Hx) as Hsn.
  assert (Hlater : forall st, kept st1 st -> rest s0 entry st).
  { intros st Hk. eapply later_rest; [exact Hx|]. intros k H1 H2 H3 _ _. by apply Hk. }
  assert (HE : (exists ix', covered st1 ix') /\ rest s0 entry st1) by (split; [by eexists|by apply Hlater]).
  eapply htriple_bind; [apply (refresh_list_triple st1 h1 nonce _ HE); by eapply truthful_same|]. intros [].
  apply htriple_ex. intros cache. apply htriple_ex. intros file. set (h2 := mkHandle _ _ _ _).
  eapply htriple_weaken with (P := fun h st => (h = h2 /\ st = st1) /\ exact e st1 cache);
    [|intros h st (-> & Hex & ->); done|intros a h st Hq; exact Hq|intros st Hq; exact Hq].
  apply htriple_pure. intros Hex.
  apply htriple_get_at. destruct (find_snapshot _ _) eqn:Hfind; [by apply htriple_fail; intros h st [_ ->]|].
  assert (Hfree : forall hex en, listing e s0 hex = Some en -> snap_name en <> snap_name entry).
  { intros hex en Hl. rewrite <- (listing_same s0 st1 hex Hsn), <- Hex in Hl. eapply names_free; [exact Hfind|].
    cbn [h2 h_repo manifest]. unfold to_entries. rewrite sort_by_perm. apply list_elem_of_fmap. exists (hex, en).
    split; [done|]. by apply elem_of_map_to_list. }
  assert (Hco2 : caches_ok (h_local h2) (index_generation (h_repo h2)) ixb) by (by destruct Hco).
  assert (Hun2 : unused (h_local h2) (drawn_generation draws h2)) by (by destruct Hun).
  eapply htriple_bind with (R := fun deferred h st => exists ix', index_phase st1 ix ids d h2 h st deferred ix').
  { eapply htriple_weaken with (E := safe st1); [|intros h st Hq; exact Hq|intros a h st Hq; exact Hq|].
    2:{ intros st [Hcv Hk]. split; [done|by apply Hlater]. }
    apply (commit_index_triple draws fence io draws_ok fence_ok st1 ix ids d Hc1 Hnm Hdp Hcap ixb); [| |done|exact Hco2|exact Hun2].
    - intros n Hn. apply not_elem_of_dom. apply (si_new _ _ _ _ _ _ _ _ Hi). by apply list_elem_of_fmap_2.
    - intros id [n Hn]. rewrite <- elem_of_dom. by apply (si_bumps _ _ _ _ _ _ _ _ Hi id n). }
  intros deferred h w (ix' & Hip). pose proof Hip as [P1 P2 P3 P4 P5 P6 P7 P8 P9 P10].
  unfold mbind at 1, HM_bind, hget. rewrite P4. cbv beta iota.
  pose proof (commit_tail_triple st1 ix ix' ids entry packed deferred h ws Sid) as Ht. rewrite Hsn in Ht by apply snapshot_storage_key_prefix.
  specialize (Ht Sfresh Srefs Hc1 P3). rewrite P5 in Ht. specialize (Ht Hws Hks).
  assert (Hd9 : deferred = true -> lc_full (h_local h) = Some (build_full_index_cache_to_path ix' (index_generation (h_repo h))) /\
     cacheable ix' (index_generation (h_repo h))) by (intros ->; exact P9).
  specialize (Ht Hd9 h w (conj eq_refl (conj P1 P2))). unfold mbind, HM_bind, mret, HM_ret.
  destruct (commit_tail deferred entry packed h w) as [[[]|er] [h' w']].
  - destruct Ht as [(Q1 & Q2 & Q3) ->]. split; [|by eapply later_rest]. exists ix'. split; [done|]. split; [done|]. split; [done|]. split; [done|].
    intros Hne. eapply finished_ok; [by eapply nonempty_delta|exact Hip].
  - destruct Ht as [Q1 Q2]. split; [done|by eapply later_rest].
Qed.

(** C1. A commit is safe at every point and complete when it succeeds.
    Whatever storage calls fail or wherever the process dies, the store stays
    covered by the index in it, no other snapshot and no pack is touched.  On
    success the snapshot object is there, no stored snapshot had its name,
    and the index counts exactly the references of before plus those of the
    backup, whether the index was decoded and reconciled or merged in the
    local cache; and if the backup refers to any chunk at all, the handle has
    that index in memory and its local caches answer it for the new
    generation. *)
Theorem commit_publishes s0 faults ix ixb ids h0 ws entry packed tk tk_wait nonce :
  ready s0 ix ixb ids h0 ws -> snapshot_ready s0 ids entry packed -> ticks_ok tk -> tick_ok tk_wait ->
  let '(r, (h, w)) := commit_concurrent_session e data_target draws fence io tk tk_wait nonce entry packed h0 (mkWorld s0 faults) in
  (exists ix', covered (objects w) ix') /\ rest s0 entry (objects w) /\
  (r = Ok tt -> committed s0 ix ids entry packed h (objects w)).
Proof.
  intros Hr Hs Hn Hnw. pose proof (rd_covered _ _ _ _ _ _ Hr) as Hc0.
  assert (Ht : htriple (fun h st => h = h0 /\ st = s0) (commit_concurrent_session e data_target draws fence io tk tk_wait nonce entry packed)
    (fun _ h st => committed s0 ix ids entry packed h st /\ rest s0 entry st) (fun st => (exists ix', covered st ix') /\ rest s0 entry st)).
  { eapply htriple_bind.
    { eapply htriple_weaken; [by apply (flush_handle_triple s0 ix ixb ids h0 ws tk tk_wait)|done|intros a h st Hq; exact Hq|].
      intros st Hx. split; [exists ix; by eapply extends_covered|]. eapply later_rest; [exact Hx|done]. }
    intros [] h w (s & Hfl & (Hdirty & _ & Hks) & ->). pose proof Hfl as ([d Hi] & _ & Hpd & Hpt & _).
    pose proof (flushed_promised _ _ _ _ _ Hi Hpd Hpt (rd_small _ _ _ _ _ _ Hr) (rd_typed _ _ _ _ _ _ Hr)) as Hdp.
    set (h1 := mkHandle _ _ _ _).
    set (h2 := mkHandle (h_repo h1) (Some (set_dedup None None None (s_ws s))) (h_local h1) (h_rebuild h1)).
    assert (Htake : take_delta h1 w = (Ok (Some d), (h2, w))).
    { unfold take_delta. cbn [h1 h_session]. by rewrite (si_delta _ _ _ _ _ _ _ _ Hi). }
    unfold mbind at 1, HM_bind. rewrite Htake.
    refine (commit_flushed_triple s0 (objects w) ix ixb ids d s h2 entry packed nonce Hc0 Hfl Hi Hdp (rd_capacity _ _ _ _ _ _ Hr) Hs _ Hdirty
      (rd_caches _ _ _ _ _ _ Hr) (rd_unused _ _ _ _ _ _ Hr) (rd_listed _ _ _ _ _ _ Hr) h2 w (conj eq_refl eq_refl)).
    eexists. split; [done|]. cbn. rewrite Hks. apply Hr. }
  specialize (Ht h0 (mkWorld s0 faults) (conj eq_refl eq_refl)).
  destruct (commit_concurrent_session _ _ _ _ _ _ _ _ _ _ _ _) as [[[]|er] [h w]].
  - destruct Ht as [Hcm Hrs]. pose proof Hcm as (ix' & Hcv & _). split; [by eexists|]. split; [done|]. by intros _.
  - destruct Ht as [Hcv Hrs]. split; [done|]. by split.
Qed.
End Whole.
End CommitLaws.

(** ** Witness

    A third snapshot of the file of Snapshots.v: its two chunks are reused and
    a new one is stored; the index is unchanged since the session began, so
    the fast path is taken. *)

Definition cm_new : ChunkId := ac_id [9].
Definition cm_plain (id : ChunkId) : bytes := if decide (id = cm_new) then [9] else sn_plain id.
Definition cm_pack_data (k : string) : bytes :=
  if decide (k = ac_key [9]) then ac_pack [9] else pack_of [sn_blob (ex_read_id 1); sn_blob (ex_read_id 2)].

Definition cm_begin : Session :=
  match begin_write_session ac_target 1000 0 sn_ix false None with
  | Ok s => set_write_session_id "me" s
  | Err _ => mkSess ∅ false (ws_new 0 0 0 0)
  end.
Definition cm_s0 : Session := (enable_tiered_dedup_mode None cm_begin).2.
Definition cm_w0 : World := mkWorld sn_store [].
Definition cm_reuse (id : ChunkId) (sw : Session * World) : Session * World := (reuse_cached_chunk_ref id sw.1 sw.2).2.
Definition cm_1 := cm_reuse (ex_read_id 1) (cm_s0, cm_w0).
Definition cm_2 := cm_reuse (ex_read_id 2) cm_1.
Definition cm_3 := ac_step [9] Data cm_2.
Definition cm_ids : list ChunkId := [ex_read_id 1; ex_read_id 2; cm_new].

Lemma cm_St : St ac_engine cm_plain cm_pack_data sn_store sn_store.
Proof.
  split; [by split| |].
  - intros k d Hk Hd. unfold sn_store in Hd.
    repeat (apply lookup_insert_Some in Hd as [[<- _]|[_ Hd]]; [by vm_compute in Hk|]).
    apply lookup_singleton_Some in Hd as [<- <-]. vm_compute. reflexivity.
  - intros k sid data wire Hp Hd _. exfalso. unfold sn_store in Hd.
    repeat (apply lookup_insert_Some in Hd as [[<- _]|[_ Hd]]; [by vm_compute in Hp|]).
    apply lookup_singleton_Some in Hd as [<- _]. by vm_compute in Hp.
Qed.

Lemma cm_start : session_inv ac_engine cm_plain cm_pack_data (dom sn_ix) [] delta_new (s_ws cm_s0) sn_store.
Proof.
  eapply (enable_inv ac_engine cm_plain cm_pack_data sn_ix sn_store cm_begin); [|done].
  eapply (begin_starting ac_engine ac_target); [reflexivity|apply cm_St].
Qed.

Lemma cm_writes : writes ac_engine ac_target cm_plain cm_pack_data cm_s0 cm_w0 cm_ids cm_3.1 cm_3.2.
Proof.
  assert (W1 : writes ac_engine ac_target cm_plain cm_pack_data cm_s0 cm_w0 ([] ++ [ex_read_id 1]) cm_1.1 cm_1.2).
  { apply (writes_reuse _ _ _ _ cm_s0 cm_w0 [] cm_s0 cm_w0 (ex_read_id 1) 4); [constructor|vm_compute; reflexivity]. }
  assert (W2 : writes ac_engine ac_target cm_plain cm_pack_data cm_s0 cm_w0 (([] ++ [ex_read_id 1]) ++ [ex_read_id 2]) cm_2.1 cm_2.2).
  { eapply (writes_reuse _ _ _ _ _ _ _ _ _ (ex_read_id 2) _ _ _ W1); vm_compute; reflexivity. }
  apply (writes_store _ _ _ _ _ _ _ _ _ ac_tick [9] CNone Data ac_nonce (cm_new, 3, true) _ _ W2);
    [ac_storable|vm_compute; reflexivity].
Qed.

Definition cm_index_object : bytes := match index_object sn_engine 9 (replicate 12 0) sn_ix with Ok d => d | Err _ => [] end.
Definition cm_local : LocalCaches :=
  mkLocal (Some (write_index_blob_cache cm_index_object 9)) (Some (build_full_index_cache_to_path sn_ix 9)) None None None.
Definition cm_handle : Handle := mkHandle (mkRepo [] ∅ 9 false 0) (Some (s_ws cm_3.1)) cm_local true.
Definition cm_draws (n : nat) : Z * bytes := (11, ac_nonce).
Definition cm_io : LocalIo := mkIo true true true true true true true.
Definition cm_entry : SnapshotEntry := sn_entry 5 "c" 200.
Definition cm_commit (faults : list fault) :=
  commit_concurrent_session ac_engine ac_target cm_draws (mret tt) cm_io (fun _ => ac_tick) ac_tick ac_nonce cm_entry (sn_object 5 "c")
    cm_handle (mkWorld sn_store faults).

Lemma cm_covered : covered ac_engine cm_plain sn_store sn_ix.
Proof.
  constructor.
  - eexists _, 9. split; [reflexivity|]. vm_compute. reflexivity.
  - split; [by_eval|]. vm_compute. discriminate.
  - by_eval.
  - intros id en. unfold sn_ix. intros [[<- <-]|[_ [<- <-]%lookup_singleton_Some]]%lookup_insert_Some;
      exists [sn_blob (ex_read_id 1); sn_blob (ex_read_id 2)]; [exists 0%nat|exists 1%nat]; eexists;
      (split; [vm_compute; reflexivity|]); (split; [by_eval|]); (split; [reflexivity|]);
      split; vm_compute; reflexivity.
  - eapply references_count; [vm_compute; reflexivity|by_eval|by_eval].
Qed.

Lemma cm_ready : ready ac_engine cm_plain cm_pack_data cm_draws sn_store sn_ix sn_ix cm_ids cm_handle (s_ws cm_3.1).
Proof.
  split.
  - apply cm_covered.
  - reflexivity.
  - assert (E1 : session_of cm_handle (s_ws cm_3.1) = cm_3.1) by (vm_compute; reflexivity).
    assert (E2 : objects cm_3.2 = sn_store) by by_eval.
    pose proof (writes_inv ac_engine ac_target cm_plain cm_pack_data (dom sn_ix) cm_s0 cm_w0 cm_ids cm_3.1 cm_3.2 delta_new cm_writes cm_start cm_St eq_refl) as HI.
    rewrite E2 in HI. rewrite E1. exact HI.
  - reflexivity.
  - by_eval.
  - split; [intros f raw [= <-] Hr|intros f c [= <-] Hc|done|done].
    + vm_compute in Hr. injection Hr as <-. vm_compute. reflexivity.
    + split; [by_eval|reflexivity].
  - split; [intros f [= <-]|intros f [= <-]|done|done]; vm_compute; reflexivity.
  - intros hex en. cbn. by rewrite lookup_empty.
  - split; [|vm_compute; discriminate]. intros id. destruct (decide (id ∈ cm_ids)) as [Hin|Hin].
    + assert (Hall : Forall (fun id => rc sn_ix id + count_id id cm_ids < u32_modulus) cm_ids) by by_eval.
      rewrite Forall_forall in Hall. by apply Hall.
    + assert (Hc : count_id id cm_ids <= Z.of_nat (length cm_ids)) by apply count_id_le. assert (Hwf : wf_index sn_ix) by by_eval.
      assert (Hr : rc sn_ix id <= 2).
      { unfold rc, sn_ix. destruct (<[_ := _]> _ !! id) as [en|] eqn:E; [|done].
        by apply lookup_insert_Some in E as [[_ <-]|[_ [_ <-]%lookup_singleton_Some]]. }
      change (Z.of_nat (length cm_ids)) with 3 in Hc. unfold u32_modulus. lia.
  - reflexivity.
  - by_eval.
Qed.

Lemma commit_publishes_witness :
  committed ac_engine cm_plain sn_store sn_ix cm_ids cm_entry (sn_object 5 "c") (cm_commit []).2.1 (objects (cm_commit []).2.2) /\
  (cm_commit (replicate 6 NoFault ++ [Crash])).1 = Err storage_error /\
  exists ix', covered ac_engine cm_plain (objects (cm_commit (replicate 6 NoFault ++ [Crash])).2.2) ix'.
Proof.
  assert (Hd : forall n, u64 (cm_draws n).1 /\ length (cm_draws n).2 = NONCE_LEN) by (intros n; split; [by_eval|reflexivity]).
  assert (Hs : snapshot_ready ac_engine cm_plain sn_store cm_ids cm_entry (sn_object 5 "c")).
  { split; [by_eval|vm_compute; reflexivity|]. intros id. assert (Ho : object_refs ac_engine cm_plain (snap_id cm_entry) (sn_object 5 "c") = [ex_read_id 1; ex_read_id 2])
      by (vm_compute; reflexivity). rewrite Ho. change cm_ids with ([ex_read_id 1; ex_read_id 2] ++ [cm_new]). rewrite count_id_app.
    pose proof (count_id_nonneg id [cm_new]). lia. }
  pose proof (commit_publishes ac_engine cm_plain cm_pack_data ac_target cm_draws (mret tt) cm_io Hd (fun w k _ => eq_refl) sn_store) as Hc.
  split; [|split].
  - specialize (Hc [] sn_ix sn_ix cm_ids cm_handle (s_ws cm_3.1) cm_entry (sn_object 5 "c") (fun _ => ac_tick) ac_tick ac_nonce cm_ready Hs).
    fold (cm_commit []) in Hc. assert (Hr : (cm_commit []).1 = Ok tt) by (vm_compute; reflexivity).
    destruct (cm_commit []) as [r [h w]]. apply Hc; [by intros ?|reflexivity|exact Hr].
  - vm_compute. reflexivity.
  - specialize (Hc (replicate 6 NoFault ++ [Crash]) sn_ix sn_ix cm_ids cm_handle (s_ws cm_3.1) cm_entry (sn_object 5 "c") (fun _ => ac_tick) ac_tick ac_nonce cm_ready Hs).
    fold (cm_commit (replicate 6 NoFault ++ [Crash])) in Hc. destruct (cm_commit (replicate 6 NoFault ++ [Crash])) as [r [h w]].
    apply Hc; [by intros ?|reflexivity].
Defined.
