(* ===== verification/ServerPath.v ===== *)
(** * Paths of the server (crates/vykar-server/src/state.rs)

    The server keeps a repository in a directory and derives the file of a
    request from the key in its URL.  A path is the list of its components;
    [data_dir] is that of the directory.  Whether the nearest existing
    ancestor of a path lies inside it, links followed, is asked of the file
    system: the argument [within]. *)

From S2P Require Import Prelude Types Protocol.
#[local] Open Scope string_scope.
#[local] Open Scope list_scope.
#[local] Open Scope Z_scope.

Abbreviation Path := (list string).

(** [str::contains] of a character. *)
Fixpoint has_char (c : ascii) (s : string) : bool :=
  match s with
  | EmptyString => false
  | String a s' => Ascii.eqb a c || has_char c s'
  end.

Definition nul : ascii := "000"%char.
Definition backslash : ascii := "\"%char.

Definition unsafe_part (part : string) : bool :=
  String.eqb part "" || String.eqb part "." || String.eqb part "..".

(** Safe against path traversal, any file name. *)
Definition is_safe_relative_path (key : string) : bool :=
  if has_char nul key || has_char backslash key then false
  else
    let trimmed := trim_matches slash key in
    if String.eqb trimmed "" then true
    else negb (existsb unsafe_part (split_on slash trimmed)).

Definition is_valid_packs_key (parts : list string) : bool :=
  match parts with
  | "packs" :: rest =>
      match rest with
      | [] => true
      | shard :: rest' =>
          if negb ((String.length shard =? 2)%nat && str_all is_ascii_hexdigit shard) then false
          else
            match rest' with
            | [] => true
            | [pack] => (String.length pack =? 64)%nat && str_all is_ascii_hexdigit pack
            | _ => false
            end
      end
  | _ => false
  end.

Definition FLAT_DIRS : list string := ["keys"; "snapshots"; "locks"; "sessions"; "pending_index"].

Definition is_valid_storage_key (key : string) : bool :=
  if has_char nul key || has_char backslash key then false
  else
    let trimmed := trim_matches slash key in
    if String.eqb trimmed "" then true
    else
      let parts := split_on slash trimmed in
      if existsb unsafe_part parts then false
      else
        let first := hd "" parts in
        if str_contains FLAT_DIRS first then ((1 <=? length parts) && (length parts <=? 2))%nat
        else if String.eqb first "packs" then is_valid_packs_key parts
        else if str_contains KNOWN_ROOT_FILES first then (length parts =? 1)%nat
        else false.

Section Paths.
Context (data_dir : Path) (within : Path -> bool).

(** [Path::starts_with]: by components. *)
Fixpoint path_starts_with (p base : Path) {struct base} : bool :=
  match base, p with
  | [], _ => true
  | b :: base', a :: p' => String.eqb a b && path_starts_with p' base'
  | _ :: _, [] => false
  end.

(** [PathBuf::join] with a relative path. *)
Definition path_join (base : Path) (rel : string) : Path := base ++ split_on slash rel.

Definition file_path (key : string) : option Path :=
  if negb (is_valid_storage_key key) then None
  else
    let trimmed := trim_matches slash key in
    let path := if String.eqb trimmed "" then data_dir else path_join data_dir trimmed in
    if negb (path_starts_with path data_dir) then None
    else if negb (within path) then None
    else Some path.

Definition file_path_for_cleanup (key : string) : option Path :=
  if negb (is_safe_relative_path key) then None
  else
    let trimmed := trim_matches slash key in
    if String.eqb trimmed "" then None
    else
      let path := path_join data_dir trimmed in
      if negb (path_starts_with path data_dir) then None
      else if negb (within path) then None
      else Some path.

(** ** The layout of a repository *)

(** A component the file system takes for a name in its directory. *)
Definition safe_name (part : string) : Prop :=
  part <> "" /\ part <> "." /\ part <> ".." /\
  str_all (fun a => negb (Ascii.eqb a slash)) part = true /\ has_char nul part = false /\ has_char backslash part = false.

Inductive layout : list string -> Prop :=
  | layout_root : layout []
  | layout_file f : f ∈ KNOWN_ROOT_FILES -> layout [f]
  | layout_dir d : d ∈ FLAT_DIRS -> layout [d]
  | layout_entry d n : d ∈ FLAT_DIRS -> safe_name n -> layout [d; n]
  | layout_packs : layout ["packs"]
  | layout_shard s : String.length s = 2%nat -> str_all is_ascii_hexdigit s = true -> layout ["packs"; s]
  | layout_pack s p : String.length s = 2%nat -> str_all is_ascii_hexdigit s = true ->
      String.length p = 64%nat -> str_all is_ascii_hexdigit p = true -> layout ["packs"; s; p].

Lemma path_starts_with_app base p : path_starts_with (base ++ p) base = true.
Proof. induction base as [|b base IH]; [done|]. cbn. by rewrite String.eqb_refl, IH. Qed.

Lemma split_on_all (p : ascii -> bool) c s : str_all p s = true -> Forall (fun t => str_all p t = true) (split_on c s).
Proof.
  induction s as [|a s IH]; cbn; [intros _; by constructor|]. intros [Ha Hs]%andb_true_iff. specialize (IH Hs).
  destruct (Ascii.eqb a c); [by constructor|]. destruct (split_on c s) as [|x xs]; [constructor; [cbn; by rewrite Ha|done]|].
  inversion IH as [|? ? Hx Hxs]; subst. constructor; [cbn; by rewrite Ha|done].
Qed.

Lemma has_char_all c s : has_char c s = false <-> str_all (fun a => negb (Ascii.eqb a c)) s = true.
Proof. induction s as [|a s IH]; cbn; [done|]. rewrite orb_false_iff, andb_true_iff, negb_true_iff, IH. done. Qed.

Lemma trim_start_all p c s : str_all p s = true -> str_all p (trim_start c s) = true.
Proof. induction s as [|a s IH]; cbn; [done|]. destruct (Ascii.eqb a c); [|done]. intros [_ Hs]%andb_true_iff. auto. Qed.
Lemma trim_end_all p c s : str_all p s = true -> str_all p (trim_end c s) = true.
Proof.
  induction s as [|a s IH]; cbn; [done|]. intros [Ha Hs]%andb_true_iff. specialize (IH Hs).
  destruct (trim_end c s) as [|b t]; [destruct (Ascii.eqb a c); cbn; by rewrite ?Ha|]. cbn. cbn in IH. by rewrite Ha, IH.
Qed.

Lemma trimmed_chars key :
  has_char nul key || has_char backslash key = false ->
  Forall (fun t => has_char nul t = false /\ has_char backslash t = false) (split_on slash (trim_matches slash key)).
Proof.
  intros [H1 H2]%orb_false_iff. apply has_char_all in H1, H2.
  apply (trim_start_all _ slash), (trim_end_all _ slash), (split_on_all _ slash) in H1, H2.
  apply Forall_and. split; [eapply Forall_impl; [exact H1|]|eapply Forall_impl; [exact H2|]]; intros t Ht; by apply has_char_all.
Qed.

Lemma existsb_unsafe parts : existsb unsafe_part parts = false <-> Forall (fun t => t <> "" /\ t <> "." /\ t <> "..") parts.
Proof.
  induction parts as [|t parts IH]; cbn; [by split|]. rewrite orb_false_iff, Forall_cons, IH. unfold unsafe_part.
  rewrite !orb_false_iff, !String.eqb_neq. tauto.
Qed.

Lemma safe_parts key :
  is_safe_relative_path key = true -> trim_matches slash key <> "" -> Forall safe_name (split_on slash (trim_matches slash key)).
Proof.
  unfold is_safe_relative_path. destruct (_ || _) eqn:Hc; [done|]. destruct (String.eqb_spec (trim_matches slash key) ""); [done|].
  rewrite negb_true_iff. intros Hp%existsb_unsafe _. pose proof (trimmed_chars key Hc) as Ht.
  pose proof (split_on_sep slash (trim_matches slash key)) as Hs.
  apply Forall_forall. intros t Hin. rewrite Forall_forall in Hp, Ht, Hs.
  specialize (Hp t Hin). specialize (Ht t Hin). specialize (Hs t Hin). unfold safe_name. tauto.
Qed.

Lemma str_contains_elem l s : str_contains l s = true <-> s ∈ l.
Proof.
  unfold str_contains. rewrite existsb_exists. split.
  - intros (x & Hx & ->%String.eqb_eq). by apply list_elem_of_In.
  - intros Hin. exists s. by rewrite <- list_elem_of_In, String.eqb_refl.
Qed.

Lemma valid_is_safe key : is_valid_storage_key key = true -> is_safe_relative_path key = true.
Proof.
  unfold is_valid_storage_key, is_safe_relative_path. destruct (_ || _); [done|]. destruct (String.eqb _ ""); [done|].
  by destruct (existsb unsafe_part _).
Qed.

Lemma flat_dirs_layout parts : str_contains FLAT_DIRS (hd "" parts) = true -> Forall safe_name parts ->
  ((1 <=? length parts) && (length parts <=? 2))%nat = true -> layout parts.
Proof.
  intros Hd%str_contains_elem Hs Hl. destruct parts as [|a [|b [|c parts]]]; try done; [by apply layout_dir|].
  inversion Hs as [|? ? _ Hb]; subst. inversion Hb; subst. by apply layout_entry.
Qed.

Lemma packs_layout parts : is_valid_packs_key parts = true -> layout parts.
Proof.
  unfold is_valid_packs_key. destruct parts as [|a parts]; [done|]. destruct (decide (a = "packs")) as [->|Hne].
  2:{ by repeat (destruct a as [|[[] [] [] [] [] [] [] []] a]; try done). }
  destruct parts as [|sh parts]; [intros _; apply layout_packs|]. destruct ((String.length sh =? 2)%nat && _) eqn:Hsh; [|done].
  apply andb_true_iff in Hsh as [H1%Nat.eqb_eq H2]. destruct parts as [|pk [|? ?]]; try done; [intros _; by apply layout_shard|].
  intros [H3%Nat.eqb_eq H4]%andb_true_iff. by apply layout_pack.
Qed.

Definition parts_of (key : string) : list string :=
  let trimmed := trim_matches slash key in if String.eqb trimmed "" then [] else split_on slash trimmed.

Lemma valid_layout key : is_valid_storage_key key = true -> layout (parts_of key).
Proof.
  intros Hv. pose proof (safe_parts key (valid_is_safe key Hv)) as Hs. unfold is_valid_storage_key, parts_of in *.
  destruct (_ || _); [done|]. destruct (String.eqb_spec (trim_matches slash key) "") as [|Hne]; [constructor|].
  specialize (Hs Hne). destruct (existsb _ _); [done|]. destruct (str_contains FLAT_DIRS _) eqn:Hf; [by apply flat_dirs_layout|].
  destruct (String.eqb_spec (hd "" (split_on slash (trim_matches slash key))) "packs"); [by apply packs_layout|].
  destruct (str_contains KNOWN_ROOT_FILES _) eqn:Hr; [|done]. apply str_contains_elem in Hr.
  destruct (split_on slash (trim_matches slash key)) as [|f [|? ?]]; try done. by constructor.
Qed.

Lemma file_path_eq key p : file_path key = Some p -> is_valid_storage_key key = true /\ p = data_dir ++ parts_of key /\ within p = true.
Proof.
  unfold file_path, parts_of. destruct (is_valid_storage_key key); [|done]. cbn [negb].
  destruct (String.eqb (trim_matches slash key) "").
  - destruct (path_starts_with _ _); [|done]. destruct (within _) eqn:Hw; [|done]. intros [= <-]. by rewrite app_nil_r.
  - unfold path_join. rewrite path_starts_with_app. destruct (within _) eqn:Hw; [|done]. by intros [= <-].
Qed.

Lemma cleanup_path_eq key p : file_path_for_cleanup key = Some p ->
  p = data_dir ++ parts_of key /\ parts_of key <> [] /\ Forall safe_name (parts_of key) /\ within p = true.
Proof.
  unfold file_path_for_cleanup, parts_of. destruct (is_safe_relative_path key) eqn:Hs; [|done]. cbn [negb].
  destruct (String.eqb_spec (trim_matches slash key) "") as [|Hne]; [done|].
  unfold path_join. rewrite path_starts_with_app. destruct (within _) eqn:Hw; [|done]. intros [= <-]. split; [done|]. split; [apply split_on_nonempty|].
  split; [by apply safe_parts|done].
Qed.

(** *** The other direction *)

Lemma hexdigits_safe s : (2 <= String.length s)%nat -> str_all is_ascii_hexdigit s = true -> unsafe_part s = false.
Proof.
  intros Hl Ha. unfold unsafe_part. destruct s as [|a [|b s]]; cbn in *; try lia.
  destruct (Ascii.eqb_spec a "."%char) as [->|]; [done|]. done.
Qed.

Lemma safe_name_unsafe n : safe_name n -> unsafe_part n = false.
Proof. intros (H1 & H2 & H3 & _). unfold unsafe_part. by rewrite !orb_false_iff, !String.eqb_neq. Qed.

Lemma flat_dir_cases d : d ∈ FLAT_DIRS -> unsafe_part d = false /\ str_contains FLAT_DIRS d = true.
Proof. intros Hd. split; [|by apply str_contains_elem]. revert d Hd. apply Forall_forall. repeat constructor. Qed.

Lemma root_file_cases f : f ∈ KNOWN_ROOT_FILES ->
  unsafe_part f = false /\ str_contains FLAT_DIRS f = false /\ String.eqb f "packs" = false /\ str_contains KNOWN_ROOT_FILES f = true.
Proof. revert f. apply Forall_forall. repeat constructor. Qed.

Lemma layout_valid key :
  has_char nul key = false -> has_char backslash key = false -> layout (parts_of key) -> is_valid_storage_key key = true.
Proof.
  intros Hn Hb. unfold is_valid_storage_key, parts_of. rewrite Hn, Hb. cbn [orb].
  destruct (String.eqb (trim_matches slash key) ""); [done|]. pose proof (split_on_nonempty slash (trim_matches slash key)) as Hne.
  intros Hl. destruct Hl as [|f Hf|d Hd|d n Hd Hs| |s Hs Hh|s p Hs Hh Hp Hph]; [done|..]; cbn [existsb hd length].
  - destruct (root_file_cases f Hf) as (-> & -> & -> & ->). done.
  - destruct (flat_dir_cases d Hd) as [-> ->]. done.
  - destruct (flat_dir_cases d Hd) as [-> ->]. by rewrite safe_name_unsafe.
  - done.
  - rewrite (hexdigits_safe s) by (done || lia). cbn. by rewrite Hs, Hh.
  - rewrite (hexdigits_safe s), (hexdigits_safe p) by (done || lia). cbn. by rewrite Hs, Hh, Hp, Hph.
Qed.

(** C33. The paths that the server makes from the keys of requests.
    [file_path], for objects: whatever the key, the path it answers is
    [data_dir] or lies below it, has only ordinary names after it, follows the
    layout of a repository and passes the check that the nearest ancestor that
    exists lies within [data_dir] ([within], an argument, since it asks the
    file system); conversely every key of that layout, with or without slashes
    around it and without NUL and backslash, whose path passes this check, is
    answered.  Keys that differ by more than surrounding slashes get different
    paths.  [file_path_for_cleanup], for batch deletions, which may also name
    temporary files: the path lies below [data_dir] and is not [data_dir]
    itself, has only ordinary names and passes the same check.  This is about
    the paths of the objects; the temporary file of an upload is placed beside
    the path of its object, for a key of slashes only beside [data_dir] itself
    ([upload_beside_data_dir]). *)
Theorem file_path_exact key :
  (forall p, file_path key = Some p -> exists parts, p = data_dir ++ parts /\ layout parts /\ Forall safe_name parts /\ within p = true) /\
  (has_char nul key = false -> has_char backslash key = false -> layout (parts_of key) -> within (data_dir ++ parts_of key) = true ->
     file_path key = Some (data_dir ++ parts_of key)) /\
  (forall key' p, file_path key = Some p -> file_path key' = Some p -> parts_of key' = parts_of key) /\
  (forall p, file_path_for_cleanup key = Some p -> exists parts, p = data_dir ++ parts /\ parts <> [] /\ Forall safe_name parts /\ within p = true).
Proof.
  split_and!.
  - intros p (Hv & -> & Hw)%file_path_eq. exists (parts_of key). split; [done|]. split; [by apply valid_layout|]. split; [|done].
    unfold parts_of. destruct (String.eqb_spec (trim_matches slash key) ""); [constructor|]. by apply safe_parts; [apply valid_is_safe|].
  - intros Hn Hb Hl Hw. pose proof (layout_valid key Hn Hb Hl) as Hv. unfold file_path. rewrite Hv. cbn [negb]. unfold parts_of in *.
    destruct (String.eqb (trim_matches slash key) ""); [rewrite app_nil_r in *|unfold path_join].
    + rewrite <- (app_nil_r data_dir) at 1. by rewrite path_starts_with_app, Hw.
    + by rewrite path_starts_with_app, Hw.
  - intros key' p (_ & -> & _)%file_path_eq (_ & Hp & _)%file_path_eq. by apply app_inv_head in Hp.
  - intros p Hp. exists (parts_of key). by destruct (cleanup_path_eq key p Hp) as (? & ? & ? & ?).
Qed.
End Paths.

(** The keys of the client: a pack behind slashes. *)
Lemma file_path_exact_witness :
  let key := "/" +:+ pack_storage_key (mkPackId (id_of_byte 171)) in
  exists p, file_path ["srv"] (fun _ => true) key = Some p /\
    exists parts, p = ["srv"] ++ parts /\ layout parts /\ Forall safe_name parts.
Proof.
  intros key. destruct (file_path_exact ["srv"] (fun _ => true) key) as (H1 & H2 & _).
  exists (["srv"] ++ parts_of key). split; [|].
  - apply H2; [vm_compute; reflexivity..| |reflexivity]. apply layout_pack; vm_compute; reflexivity.
  - destruct (H1 (["srv"] ++ parts_of key)) as (parts & E & Hl & Hs & _); [|by exists parts].
    apply H2; [vm_compute; reflexivity..| |reflexivity]. apply layout_pack; vm_compute; reflexivity.
Defined.
