(* ===== verification/Server.v ===== *)
(** * The server (crates/vykar-server/src/state.rs, quota.rs and handlers/)

    The handlers that change a repository: uploads, deletions, directories,
    batch deletion and repacking, with the append-only mode and the quota.
    The state is the directory tree, the counters and a schedule of failing
    operating-system calls; a handler keeps its changes when it fails.  An
    upload runs in three steps, [put_admit], [put_stream] and [put_commit],
    between which other requests may run. *)

From stdpp Require Import pretty.
From S2P Require Import Prelude Types Protocol Pack ServerPath.
#[local] Open Scope string_scope.
#[local] Open Scope list_scope.
#[local] Open Scope Z_scope.

(** ** Files *)

Inductive IoErr := IoNotFound | IoOther.

Record Fs := mkFs { fs_files : gmap Path bytes; fs_dirs : gset Path }.

Definition parent (p : Path) : Path := take (length p - 1) p.
Definition file_name (p : Path) : string := List.last p "".
Definition with_file_name (p : Path) (name : string) : Path := parent p ++ [name].

(** The proper prefixes. *)
Definition ancestors (p : Path) : list Path := (fun n => take n p) <$> seq 0 (length p).
Definition under_file (fs : Fs) (p : Path) : bool := existsb (fun q => bool_decide (is_Some (fs_files fs !! q))) (ancestors p).
Definition absent (fs : Fs) (p : Path) : IoErr := if under_file fs p then IoOther else IoNotFound.
Definition is_dir (fs : Fs) (p : Path) : bool := bool_decide (p ∈ fs_dirs fs).

Section Syscalls.
(** The size the system reports for a directory. *)
Context (dir_len : Path -> Z).

Definition fs_metadata (p : Path) (fs : Fs) : result IoErr Z :=
  match fs_files fs !! p with
  | Some data => Ok (Z.of_nat (length data))
  | None => if is_dir fs p then Ok (dir_len p) else Err (absent fs p)
  end.
End Syscalls.

Definition fs_read (p : Path) (fs : Fs) : result IoErr bytes :=
  match fs_files fs !! p with
  | Some data => Ok data
  | None => Err (if is_dir fs p then IoOther else absent fs p)
  end.

Definition fs_create (p : Path) (fs : Fs) : result IoErr Fs :=
  if is_dir fs p then Err IoOther
  else if is_dir fs (parent p) then Ok (mkFs (<[p := []]> (fs_files fs)) (fs_dirs fs))
  else Err (absent fs p).

Definition fs_append (p : Path) (data : bytes) (fs : Fs) : result IoErr Fs :=
  match fs_files fs !! p with
  | Some old => Ok (mkFs (<[p := old ++ data]> (fs_files fs)) (fs_dirs fs))
  | None => Err IoNotFound
  end.

Definition fs_rename (a b : Path) (fs : Fs) : result IoErr Fs :=
  match fs_files fs !! a with
  | None => Err IoNotFound
  | Some data =>
      if is_dir fs b then Err IoOther
      else if is_dir fs (parent b) then Ok (mkFs (<[b := data]> (delete a (fs_files fs))) (fs_dirs fs))
      else Err IoNotFound
  end.

Definition fs_remove_file (p : Path) (fs : Fs) : result IoErr Fs :=
  match fs_files fs !! p with
  | Some _ => Ok (mkFs (delete p (fs_files fs)) (fs_dirs fs))
  | None => Err (if is_dir fs p then IoOther else absent fs p)
  end.

Definition fs_create_dir_all (p : Path) (fs : Fs) : result IoErr Fs :=
  if under_file fs p || bool_decide (is_Some (fs_files fs !! p)) then Err IoOther
  else Ok (mkFs (fs_files fs) (list_to_set (ancestors p ++ [p]) ∪ fs_dirs fs)).

(** A directory goes when it is empty. *)
Definition fs_remove_dir (p : Path) (fs : Fs) : result IoErr Fs :=
  if negb (is_dir fs p) then Err (absent fs p)
  else if existsb (fun q => bool_decide (parent q = p) && negb (bool_decide (q = []))) ((map_to_list (fs_files fs)).*1 ++ elements (fs_dirs fs))
  then Err IoOther
  else Ok (mkFs (fs_files fs) (fs_dirs fs ∖ {[p]})).

(** ** Quota *)

Definition FREE_SPACE_MARGIN : Z := 50 * 1024 * 1024.

Inductive QuotaSource := Explicit | FsQuota | FreeSpace | Unlimited.

(** What the system says of the data directory: the hard limit of a quota and
    the available bytes, when they can be read. *)
Record Probe := mkProbe { pr_fs_quota : option Z; pr_available : option Z }.

Definition available_free_space (pr : Probe) : option Z := (fun a => sat_sub a FREE_SPACE_MARGIN) <$> pr_available pr.

Definition detect_auto (pr : Probe) (current_usage : Z) : QuotaSource * Z :=
  match pr_fs_quota pr with
  | Some limit => (FsQuota, limit)
  | None =>
      match available_free_space pr with
      | Some avail => (FreeSpace, u64_sat_add current_usage avail)
      | None => (Unlimited, 0)
      end
  end.

Definition detect_quota (pr : Probe) (explicit_override : option Z) (current_usage : Z) : QuotaSource * Z :=
  match explicit_override with
  | Some limit => if 0 <? limit then (Explicit, limit) else detect_auto pr current_usage
  | None => detect_auto pr current_usage
  end.

Record QuotaState := mkQuota { q_source : QuotaSource; effective_limit : Z; q_explicit : bool }.

Definition refresh (pr : Probe) (current_usage : Z) (q : QuotaState) : QuotaState :=
  if q_explicit q then q
  else let '(source, limit) := detect_auto pr current_usage in mkQuota source limit (q_explicit q).

(** ** State *)

Inductive ServerError :=
  | ENotFound | EForbidden (msg : string) | EPayloadTooLarge | EBadRequest (msg : string) | EConflict (msg : string) | EInternal.

Definition from_io (er : IoErr) : ServerError := match er with IoNotFound => ENotFound | IoOther => EInternal end.

Record AppState := mkApp {
  append_only : bool;
  fs : Fs;
  quota_usage : Z;
  quota_state : QuotaState;
  last_backup_at : option Z;
  temp_counter : Z;
  repack_temp_counter : Z;
  os_faults : list bool;
}.

Definition SM (A : Type) : Type := AppState -> result ServerError A * AppState.
#[export] Instance SM_ret : MRet SM := fun A a s => (Ok a, s).
#[export] Instance SM_bind : MBind SM := fun A B f m s =>
  match m s with (Ok a, s') => f a s' | (Err er, s') => (Err er, s') end.

Definition sfail {A} (er : ServerError) : SM A := fun s => (Err er, s).
Definition slift {A} (r : result ServerError A) : SM A := fun s => (r, s).
Definition sget : SM AppState := fun s => (Ok s, s).
Definition stry {A} (m : SM A) : SM (result ServerError A) := fun s => let '(r, s') := m s in (Ok r, s').

Definition set_fs (f : Fs) (s : AppState) : AppState :=
  mkApp (append_only s) f (quota_usage s) (quota_state s) (last_backup_at s) (temp_counter s) (repack_temp_counter s) (os_faults s).
Definition set_usage (u : Z) (s : AppState) : AppState :=
  mkApp (append_only s) (fs s) u (quota_state s) (last_backup_at s) (temp_counter s) (repack_temp_counter s) (os_faults s).
Definition set_faults (l : list bool) (s : AppState) : AppState :=
  mkApp (append_only s) (fs s) (quota_usage s) (quota_state s) (last_backup_at s) (temp_counter s) (repack_temp_counter s) l.

(** One call of the operating system; the error is a value. *)
Definition next_os (s : AppState) : bool * AppState :=
  match os_faults s with [] => (false, s) | f :: l => (f, set_faults l s) end.
Definition os_read {A} (f : Fs -> result IoErr A) : SM (result IoErr A) := fun s =>
  let '(failed, s) := next_os s in (Ok (if failed then Err IoOther else f (fs s)), s).
Definition os_write (f : Fs -> result IoErr Fs) : SM (result IoErr unit) := fun s =>
  let '(failed, s) := next_os s in
  if failed then (Ok (Err IoOther), s)
  else match f (fs s) with Ok fs' => (Ok (Ok tt), set_fs fs' s) | Err er => (Ok (Err er), s) end.

Definition io_try {A} (r : result IoErr A) : SM A := slift (match r with Ok a => Ok a | Err er => Err (from_io er) end).

Definition add_quota_usage (bytes : Z) : SM unit := fun s => (Ok tt, set_usage (u64_add (quota_usage s) bytes) s).
Definition sub_quota_usage (bytes : Z) : SM unit := fun s => (Ok tt, set_usage (sat_sub (quota_usage s) bytes) s).

(** [fetch_add] on a counter of temporary names. *)
Definition fetch_temp : SM Z := fun s =>
  (Ok (temp_counter s), mkApp (append_only s) (fs s) (quota_usage s) (quota_state s) (last_backup_at s)
     (u64_add (temp_counter s) 1) (repack_temp_counter s) (os_faults s)).
Definition fetch_repack_temp : SM Z := fun s =>
  (Ok (repack_temp_counter s), mkApp (append_only s) (fs s) (quota_usage s) (quota_state s) (last_backup_at s)
     (temp_counter s) (u64_add (repack_temp_counter s) 1) (os_faults s)).

(** The refresh of the quota runs in the background; here it happens at
    once. *)
Definition record_backup (now : Z) (pr : Probe) : SM unit := fun s =>
  (Ok tt, mkApp (append_only s) (fs s) (quota_usage s) (refresh pr (quota_usage s) (quota_state s)) (Some now)
     (temp_counter s) (repack_temp_counter s) (os_faults s)).

Definition CREATED : Z := 201.
Definition NO_CONTENT : Z := 204.
Definition NOT_FOUND : Z := 404.
Definition BAD_REQUEST : Z := 400.

Definition lower_char (a : ascii) : ascii :=
  let n := Z.of_nat (nat_of_ascii a) in if (65 <=? n) && (n <=? 90) then ascii_of_nat (Z.to_nat (n + 32)) else a.
Fixpoint to_ascii_lowercase (s : string) : string :=
  match s with EmptyString => EmptyString | String a s' => String (lower_char a) (to_ascii_lowercase s') end.

Section Handlers.
Context `{Hhex : HexCodec} `{Hblake : Blake2b} (data_dir : Path) (within : Path -> bool) (dir_len : Path -> Z).

Definition resolve (key : string) : SM Path := slift (ok_or (file_path data_dir within key) (EBadRequest "invalid path")).

(** [Ok(meta)], or none when there is no such file. *)
Definition existing_size (p : Path) : SM (option Z) :=
  r ← os_read (fs_metadata dir_len p);
  match r with
  | Ok n => mret (Some n)
  | Err IoNotFound => mret None
  | Err er => sfail (from_io er)
  end.

(** *** Uploads *)

Definition is_mutable (key : string) : bool :=
  String.eqb key "index" || String.eqb key "index.gen" || String.eqb key "manifest"
  || starts_with key "locks/" || starts_with key "sessions/".

(** [used.saturating_sub(old_size) + len > quota]. *)
Definition over_quota (quota used old_size len : Z) : bool := (0 <? quota) && (quota <? u64_add (sat_sub used old_size) len).

Definition checksum_header (key : string) (header : option string) : result ServerError (option string) :=
  match header with
  | Some hex_str =>
      if negb ((String.length hex_str =? 64)%nat && str_all is_ascii_hexdigit hex_str)
      then Err (EBadRequest "X-Content-BLAKE2b must be 64 hex characters")
      else Ok (Some (to_ascii_lowercase hex_str))
  | None =>
      if starts_with key "packs/" then Err (EBadRequest "X-Content-BLAKE2b header required for pack uploads") else Ok None
  end.

Record Upload := mkUpload {
  up_key : string;
  up_path : Path;
  up_old_size : Z;
  up_quota : Z;
  up_checksum : option string;
  up_temp : Path;
}.

Definition temp_name (name : string) (unique_id : Z) : string := ".tmp." +:+ name +:+ "." +:+ pretty (Z.to_N unique_id).

(** Up to the name of the temporary file. *)
Definition put_admit (key : string) (content_length : option Z) (checksum : option string) : SM Upload :=
  path ← resolve key;
  existing ← existing_size path;
  s ← sget;
  if append_only s && bool_decide (is_Some existing) && negb (is_mutable key)
  then sfail (EForbidden "append-only: cannot overwrite immutable object")
  else
    let old_size := default 0 existing in
    let quota := effective_limit (quota_state s) in
    if match content_length with Some len => over_quota quota (quota_usage s) old_size len | None => false end
    then sfail EPayloadTooLarge
    else
      expected ← slift (checksum_header key checksum);
      r ← os_write (fs_create_dir_all (parent path));
      _ ← io_try r;
      unique_id ← fetch_temp;
      mret (mkUpload key path old_size quota expected (with_file_name path (temp_name (file_name path) unique_id))).

(** The body as the reads deliver it; an empty read is its end. *)
Fixpoint stream_body (up : Upload) (body : list (result IoErr bytes)) (written : bytes) : SM bytes :=
  match body with
  | [] => mret written
  | Err er :: _ => sfail (from_io er)
  | Ok [] :: _ => mret written
  | Ok piece :: body' =>
      let written := written ++ piece in
      s ← sget;
      if over_quota (up_quota up) (quota_usage s) (up_old_size up) (Z.of_nat (length written)) then sfail EPayloadTooLarge
      else
        r ← os_write (fs_append (up_temp up) piece);
        _ ← io_try r;
        stream_body up body' written
  end.

(** [let _ = remove_file(temp)] and the error. *)
Definition drop_temp {A} (temp : Path) (er : ServerError) : SM A :=
  _ ← os_write (fs_remove_file temp);
  sfail er.

Definition put_stream (up : Upload) (body : list (result IoErr bytes)) : SM bytes :=
  r ← os_write (fs_create (up_temp up));
  _ ← io_try r;
  w ← stry (data ← stream_body up body []; r ← os_read (fun _ => Ok tt); _ ← io_try r; mret data);
  match w with
  | Ok data => mret data
  | Err er => drop_temp (up_temp up) er
  end.

Definition put_commit (up : Upload) (content_length : option Z) (data : bytes) (now : Z) (pr : Probe) : SM Z :=
  let data_len := Z.of_nat (length data) in
  if match content_length with Some len => negb (data_len =? len) | None => false end
  then drop_temp (up_temp up) (EBadRequest "upload size mismatch")
  else if match up_checksum up with Some expected => negb (String.eqb (hex_encode (blake2b data)) expected) | None => false end
  then drop_temp (up_temp up) (EConflict "BLAKE2b checksum mismatch")
  else
    r ← os_write (fs_rename (up_temp up) (up_path up));
    match r with
    | Err er => drop_temp (up_temp up) (from_io er)
    | Ok _ =>
        _ ← (if up_old_size up <? data_len then add_quota_usage (data_len - up_old_size up)
             else sub_quota_usage (up_old_size up - data_len));
        _ ← (if (starts_with (up_key up) "snapshots/" && (up_old_size up =? 0)) || String.eqb (up_key up) "manifest"
             then record_backup now pr else mret tt);
        mret (if 0 <? up_old_size up then NO_CONTENT else CREATED)
    end.

Definition put_object (key : string) (content_length : option Z) (checksum : option string)
    (body : list (result IoErr bytes)) (now : Z) (pr : Probe) : SM Z :=
  up ← put_admit key content_length checksum;
  data ← put_stream up body;
  put_commit up content_length data now pr.

(** *** Deletions and directories *)

Definition delete_object (key : string) : SM Z :=
  s ← sget;
  if append_only s && negb (starts_with key "locks/") && negb (starts_with key "sessions/")
  then sfail (EForbidden "append-only: delete not allowed")
  else
    path ← resolve key;
    existing ← existing_size path;
    match existing with
    | None => mret NOT_FOUND
    | Some old_size =>
        r ← os_write (fs_remove_file path);
        match r with
        | Ok _ => _ ← sub_quota_usage old_size; mret NO_CONTENT
        | Err IoNotFound => mret NOT_FOUND
        | Err er => sfail (from_io er)
        end
    end.

Definition post_object (mkdir : bool) (key : string) : SM Z :=
  if mkdir then
    path ← resolve key;
    r ← os_write (fs_create_dir_all path);
    _ ← io_try r;
    mret CREATED
  else mret BAD_REQUEST.

Fixpoint delete_keys (keys : list string) : SM unit :=
  match keys with
  | [] => mret tt
  | key :: keys' =>
      match file_path_for_cleanup data_dir within key with
      | None => delete_keys keys'
      | Some path =>
          existing ← existing_size path;
          r ← os_write (fs_remove_file path);
          match r with
          | Ok _ => _ ← sub_quota_usage (default 0 existing); delete_keys keys'
          | Err IoNotFound => delete_keys keys'
          | Err er => sfail (from_io er)
          end
      end
  end.

(** The directories above a path, inside [data_dir]. *)
Definition dirs_above (p : Path) : list Path :=
  List.filter (fun d => negb (bool_decide (d = data_dir)) && path_starts_with d data_dir) (ancestors p).

Fixpoint remove_dirs (dirs : list Path) : SM unit :=
  match dirs with
  | [] => mret tt
  | d :: dirs' => _ ← os_write (fs_remove_dir d); remove_dirs dirs'
  end.

(** Deepest first. *)
Definition deeper (a b : Path) : bool := (length b <=? length a)%nat.

Definition batch_delete (keys : list string) (cleanup_dirs : bool) : SM Z :=
  s ← sget;
  if append_only s then sfail (EForbidden "append-only: batch-delete not allowed")
  else
    _ ← delete_keys keys;
    _ ← (if cleanup_dirs then
           let dirs := remove_dups (concat (dirs_above <$> omap (file_path_for_cleanup data_dir within) keys)) in
           _ ← remove_dirs (sort_by deeper dirs);
           remove_dirs [data_dir]
         else mret tt);
    mret NO_CONTENT.
End Handlers.

(** ** Repacking (handlers/admin.rs) *)

Definition MAX_REPACK_OPS : Z := 10000.
Definition MAX_KEEP_BLOBS_PER_OP : Z := 200000.

Definition validate_refs (blobs : list RepackBlobRef) : bool :=
  forallb (fun b => is_ok (validate_blob_ref (rb_offset b) (rb_length b))) blobs.

Definition validate_repack_plan (plan : RepackPlanRequest) : result ServerError unit :=
  if negb (is_ok (check_protocol_version (plan_protocol_version plan))) then Err (EBadRequest "protocol version")
  else if MAX_REPACK_OPS <? Z.of_nat (length (operations plan)) then Err (EBadRequest "too many repack operations")
  else if forallb (fun op => is_valid_pack_key (source_pack op) && (Z.of_nat (length (keep_blobs op)) <=? MAX_KEEP_BLOBS_PER_OP)
                             && validate_refs (keep_blobs op)) (operations plan)
  then Ok tt
  else Err (EBadRequest "invalid operation").

(** A kept blob, with the checks made while it is copied. *)
Definition repack_blob (source : bytes) (b : RepackBlobRef) : option bytes :=
  if rb_length b =? 0 then None
  else if u64_max <? rb_offset b + rb_length b then None
  else if Z.of_nat (length source) <? rb_offset b + rb_length b then None
  else if rb_offset b <? 4 then None
  else if negb (le_value (slice (Z.to_nat (rb_offset b - 4)) 4 source) =? rb_length b) then None
  else Some (slice (Z.to_nat (rb_offset b)) (Z.to_nat (rb_length b)) source).

(** The frames written and the new offsets; the offset stays far below 2^64. *)
Fixpoint repack_blobs (source : bytes) (keep : list RepackBlobRef) (pack_offset : Z) : option (bytes * list Z) :=
  match keep with
  | [] => Some ([], [])
  | b :: keep' =>
      blob ← repack_blob source b;
      rest ← repack_blobs source keep' (pack_offset + (4 + rb_length b));
      Some (le_bytes 4 (u32_wrap (rb_length b)) ++ blob ++ rest.1, (pack_offset + 4) :: rest.2)
  end.

Definition repack_data (source : bytes) (keep : list RepackBlobRef) : option (bytes * list Z) :=
  p ← repack_blobs source keep (Z.of_nat PACK_HEADER_SIZE);
  Some (PACK_MAGIC ++ [PACK_VERSION_CURRENT] ++ p.1, p.2).

Section Repack.
Context `{Hhex : HexCodec} `{Hblake : Blake2b} (data_dir : Path) (within : Path -> bool) (dir_len : Path -> Z).

(** The errors of [execute_repack] are strings and become internal errors. *)
Definition internal {A} (r : result IoErr A) : SM A := slift (match r with Ok a => Ok a | Err _ => Err EInternal end).

Definition delete_source (path : Path) : SM unit :=
  m ← os_read (fs_metadata dir_len path);
  _ ← os_write (fs_remove_file path);
  sub_quota_usage (match m with Ok n => n | Err _ => 0 end).

Definition repack_temp (path : Path) (id : Z) : Path := with_file_name path (".repack_tmp." +:+ pretty (Z.to_N id)).

(** A step that removes the temporary file when it fails. *)
Definition or_drop (temp : Path) (r : result IoErr unit) : SM unit :=
  match r with Ok _ => mret tt | Err _ => drop_temp temp EInternal end.

Definition repack_op (op : RepackOperationRequest) : SM RepackOperationResult :=
  source_path ← slift (ok_or (file_path data_dir within (source_pack op)) EInternal);
  match keep_blobs op with
  | [] =>
      _ ← (if delete_after op then delete_source source_path else mret tt);
      mret (mkRepackResult (source_pack op) None [] (delete_after op))
  | keep =>
      r ← os_read (fs_read source_path);
      source ← internal r;
      r ← os_read (fun _ => Ok tt);
      _ ← internal r;
      temp_id ← fetch_repack_temp;
      let temp_path := repack_temp source_path temp_id in
      r ← os_write (fs_create temp_path);
      _ ← internal r;
      match repack_data source keep with
      | None => drop_temp temp_path EInternal
      | Some (data, offsets) =>
          r ← os_write (fs_append temp_path data);
          _ ← or_drop temp_path r;
          let new_pack_key := pack_storage_key (pack_id_compute data) in
          match file_path data_dir within new_pack_key with
          | None => drop_temp temp_path EInternal
          | Some new_pack_path =>
              r ← os_write (fs_create_dir_all (parent new_pack_path));
              _ ← or_drop temp_path r;
              r ← os_write (fs_rename temp_path new_pack_path);
              _ ← or_drop temp_path r;
              _ ← add_quota_usage (Z.of_nat (length data));
              _ ← (if delete_after op then delete_source source_path else mret tt);
              mret (mkRepackResult (source_pack op) (Some new_pack_key) offsets (delete_after op))
          end
      end
  end.

Fixpoint execute_repack (ops : list RepackOperationRequest) : SM (list RepackOperationResult) :=
  match ops with
  | [] => mret []
  | op :: ops' => r ← repack_op op; rs ← execute_repack ops'; mret (r :: rs)
  end.

Definition repack (plan : RepackPlanRequest) : SM (list RepackOperationResult) :=
  _ ← slift (validate_repack_plan plan);
  s ← sget;
  if append_only s && existsb delete_after (operations plan)
  then sfail (EForbidden "append-only: repack with delete not allowed")
  else execute_repack (operations plan).

(** ** Initialisation *)

(** The names directly under [data_dir]. *)
Definition top_names (f : Fs) : list string :=
  omap (fun p => if bool_decide (parent p = data_dir) && negb (bool_decide (p = [])) then last p else None)
    ((map_to_list (fs_files f)).*1 ++ elements (fs_dirs f)).

Definition unexpected_entries (f : Fs) : list string :=
  List.filter (fun n => negb (str_contains KNOWN_ROOT_FILES n || str_contains KNOWN_ROOT_DIRS n || is_temp_file n)) (top_names f).

Fixpoint create_dirs (dirs : list Path) : SM unit :=
  match dirs with
  | [] => mret tt
  | d :: dirs' => r ← os_write (fs_create_dir_all d); _ ← io_try r; create_dirs dirs'
  end.

Definition repo_init : SM Z :=
  s ← sget;
  if negb (length (unexpected_entries (fs s)) =? 0)%nat then sfail (EConflict "data directory contains unexpected entries")
  else
    existing ← existing_size dir_len (data_dir ++ ["config"]);
    match existing with
    | Some _ => sfail (EConflict "repo already initialized")
    | None =>
        _ ← create_dirs ([data_dir] ++ ((fun d => data_dir ++ [d]) <$> ["keys"; "snapshots"; "locks"])
                         ++ ((fun i => data_dir ++ ["packs"; hex_encode [Z.of_nat i]]) <$> seq 0 256));
        mret CREATED
    end.

(** ** Requests *)

Inductive Request :=
  | Put (key : string) (content_length : option Z) (checksum : option string) (body : list (result IoErr bytes))
  | Delete (key : string)
  | Post (mkdir : bool) (key : string)
  | BatchDelete (keys : list string) (cleanup_dirs : bool)
  | Repack (plan : RepackPlanRequest)
  | Init.

Definition handle (now : Z) (pr : Probe) (req : Request) : SM Z :=
  match req with
  | Put key len checksum body => put_object data_dir within dir_len key len checksum body now pr
  | Delete key => delete_object data_dir within dir_len key
  | Post mkdir key => post_object data_dir within mkdir key
  | BatchDelete keys cleanup => batch_delete data_dir within dir_len keys cleanup
  | Repack plan => _ ← repack plan; mret 200
  | Init => repo_init
  end.

(** [auth_middleware]: the bearer token must match. *)
Definition authorized (token : string) (authorization : option string) : bool :=
  let provided := default "" (authorization ≫= fun v => strip_prefix v "Bearer ") in String.eqb provided token.

(** The requests that arrive one after the other. *)
Fixpoint serve (reqs : list (Z * Probe * Request)) (s : AppState) : AppState :=
  match reqs with
  | [] => s
  | (now, pr, req) :: reqs' => serve reqs' (handle now pr req s).2
  end.
End Repack.

(** ** Reasoning about handlers *)

Section Logic.
Definition striple {A} (P : AppState -> Prop) (m : SM A) (Q : A -> AppState -> Prop) (E : AppState -> Prop) : Prop :=
  forall s, P s -> match m s with (Ok a, s') => Q a s' | (Err _, s') => E s' end.

Lemma striple_ret {A} (P : AppState -> Prop) (a : A) (Q : A -> AppState -> Prop) E : (forall s, P s -> Q a s) -> striple P (mret a) Q E.
Proof. intros HQ s HP. by apply HQ. Qed.
Lemma striple_fail {A} (P : AppState -> Prop) er (Q : A -> AppState -> Prop) (E : AppState -> Prop) :
  (forall s, P s -> E s) -> striple P (sfail er) Q E.
Proof. intros HE s HP. by apply HE. Qed.
Lemma striple_bind {A B} P (m : SM A) (R : A -> AppState -> Prop) (f : A -> SM B) Q E :
  striple P m R E -> (forall a, striple (R a) (f a) Q E) -> striple P (m ≫= f) Q E.
Proof.
  intros Hm Hf s HP. unfold mbind, SM_bind. specialize (Hm s HP). destruct (m s) as [[a|er] s']; [|done]. by apply Hf.
Qed.
Lemma striple_weaken {A} (P P' : AppState -> Prop) (m : SM A) Q Q' (E E' : AppState -> Prop) :
  striple P m Q E -> (forall s, P' s -> P s) -> (forall a s, Q a s -> Q' a s) -> (forall s, E s -> E' s) -> striple P' m Q' E'.
Proof. intros Hm HP HQ HE s Hs. specialize (Hm s (HP _ Hs)). destruct (m s) as [[a|er] s']; auto. Qed.
Lemma striple_pure {A} (P : AppState -> Prop) (phi : Prop) (m : SM A) Q E :
  (phi -> striple P m Q E) -> striple (fun s => P s /\ phi) m Q E.
Proof. intros Hm s [HP Hphi]. by apply Hm. Qed.
Lemma striple_lift_bind {A B} (P : AppState -> Prop) (r : result ServerError A) (f : A -> SM B) Q (E : AppState -> Prop) :
  (forall a, r = Ok a -> striple P (f a) Q E) -> (forall s, P s -> E s) -> striple P (slift r ≫= f) Q E.
Proof. intros Hf HE s HP. destruct r as [a|er]; [by apply Hf|]. by apply HE. Qed.
Lemma striple_get_bind {B} (P : AppState -> Prop) (f : AppState -> SM B) Q E :
  (forall s0, striple (fun s => s = s0 /\ P s) (f s0) Q E) -> striple P (sget ≫= f) Q E.
Proof. intros Hf s HP. by apply (Hf s). Qed.
Lemma striple_try {A} (P : AppState -> Prop) (m : SM A) Q E E' :
  striple P m Q E -> striple P (stry m) (fun r s => match r with Ok a => Q a s | Err _ => E s end) E'.
Proof. intros Hm s HP. specialize (Hm s HP). unfold stry. by destruct (m s) as [[a|er] s']. Qed.

(** Predicates that do not look at the schedule of faults. *)
Definition blind (P : AppState -> Prop) : Prop := forall s l, P (set_faults l s) <-> P s.

Lemma next_os_blind P s : blind P -> P s -> P (next_os s).2.
Proof. intros Hb HP. unfold next_os. destruct (os_faults s); [done|]. by apply Hb. Qed.

Lemma next_os_fs s : fs (next_os s).2 = fs s.
Proof. unfold next_os. by destruct (os_faults s). Qed.

Lemma striple_read {A} (P : AppState -> Prop) (f : Fs -> result IoErr A) E :
  blind P -> striple P (os_read f) (fun r s => P s /\ (r = f (fs s) \/ r = Err IoOther)) E.
Proof.
  intros Hb s HP. unfold os_read. pose proof (next_os_blind P s Hb HP) as Hn. destruct (next_os s) as [[] s']; cbn in *; split; auto.
Qed.

Lemma striple_write (P Q : AppState -> Prop) (f : Fs -> result IoErr Fs) E :
  blind P -> (forall s fs', P s -> f (fs s) = Ok fs' -> Q (set_fs fs' s)) ->
  striple P (os_write f) (fun r s => match r with Ok _ => Q s | Err _ => P s end) E.
Proof.
  intros Hb HQ s HP. unfold os_write. pose proof (next_os_blind P s Hb HP) as Hn. destruct (next_os s) as [[] s']; cbn in *; [done|].
  destruct (f (fs s')) as [fs'|er] eqn:Hf; [by apply HQ|done].
Qed.

(** An operation that keeps [I] whatever happens. *)
Definition sm_keeps {A} (I : AppState -> Prop) (m : SM A) : Prop := striple I m (fun _ => I) I.

Lemma keeps_bind {A B} I (m : SM A) (f : A -> SM B) : sm_keeps I m -> (forall a, sm_keeps I (f a)) -> sm_keeps I (m ≫= f).
Proof. intros. by eapply striple_bind. Qed.
Lemma keeps_ret {A} I (a : A) : sm_keeps I (mret a).
Proof. by apply striple_ret. Qed.
Lemma keeps_fail {A} I er : sm_keeps I (sfail (A := A) er).
Proof. by apply striple_fail. Qed.
Lemma keeps_lift {A} I (r : result ServerError A) : sm_keeps I (slift r).
Proof. intros s Hs. unfold slift. by destruct r. Qed.
Lemma keeps_get I : sm_keeps I sget.
Proof. by intros s Hs. Qed.
Lemma keeps_try {A} I (m : SM A) : sm_keeps I m -> sm_keeps I (stry m).
Proof. intros Hm s Hs. specialize (Hm s Hs). unfold stry. by destruct (m s) as [[] s']. Qed.
Lemma keeps_read {A} I (f : Fs -> result IoErr A) : blind I -> sm_keeps I (os_read f).
Proof. intros Hb. apply (striple_weaken I I _ _ _ I I (striple_read I f I Hb)); auto. by intros a s []. Qed.
Lemma keeps_write I f : blind I -> (forall s fs', I s -> f (fs s) = Ok fs' -> I (set_fs fs' s)) -> sm_keeps I (os_write f).
Proof. intros Hb Hf. apply (striple_weaken I I _ _ _ I I (striple_write I I f I Hb Hf)); auto. by intros []. Qed.
End Logic.
Create HintDb server.
#[export] Hint Resolve keeps_ret keeps_fail keeps_lift keeps_get keeps_try keeps_read : server.

(** ** The append-only mode *)

Section AppendOnly.
Context `{Hhex : HexCodec} `{Hblake : Blake2b} (data_dir : Path) (within : Path -> bool) (dir_len : Path -> Z).

Definition mutable_parts (parts : list string) : Prop :=
  parts = ["index"] \/ parts = ["index.gen"] \/ parts = ["manifest"] \/ hd "" parts = "locks" \/ hd "" parts = "sessions".

Lemma trim_end_prefix c d t :
  str_all (fun a => negb (Ascii.eqb a c)) d = true -> trim_end c (d +:+ t) = d +:+ trim_end c t.
Proof.
  induction d as [|a d IH]; [done|]. cbn [str_all]. intros [Ha%negb_true_iff Hd]%andb_true_iff.
  change (String a d +:+ t) with (String a (d +:+ t)). cbn [trim_end]. rewrite IH by done.
  change (String a d +:+ trim_end c t) with (String a (d +:+ trim_end c t)). destruct (d +:+ trim_end c t); [by rewrite Ha|done].
Qed.

Lemma parts_of_prefix d key :
  d <> "" -> str_all (fun a => negb (Ascii.eqb a slash)) d = true -> starts_with key (d +:+ String slash "") = true ->
  hd "" (parts_of key) = d.
Proof.
  intros Hne Hd Hs. assert (Hk : exists r, key = d +:+ String slash r).
  { apply starts_with_inv in Hs as [r ->]. exists r. by rewrite <- str_app_assoc. }
  destruct Hk as [r ->]. unfold parts_of, trim_matches.
  assert (Hst : trim_start slash (d +:+ String slash r) = d +:+ String slash r).
  { destruct d as [|a d]; [done|]. cbn [str_all] in Hd. apply andb_true_iff in Hd as [Ha%negb_true_iff _].
    change (String a d +:+ String slash r) with (String a (d +:+ String slash r)). cbn [trim_start]. by rewrite Ha. }
  rewrite Hst, trim_end_prefix by done. cbn [trim_end]. rewrite Ascii.eqb_refl. destruct (trim_end slash r) as [|b t].
  - replace (d +:+ "") with d by (clear; induction d as [|a d IH]; [done|]; change (String a d +:+ "") with (String a (d +:+ "")); by rewrite <- IH).
    destruct (String.eqb_spec d ""); [done|]. by rewrite split_on_none.
  - destruct (String.eqb_spec (d +:+ String slash (String b t)) "") as [E|]; [by destruct d|]. by rewrite split_on_cons.
Qed.

Lemma is_mutable_parts key : is_mutable key = true -> mutable_parts (parts_of key).
Proof.
  unfold is_mutable, mutable_parts. rewrite !orb_true_iff. intros [[[[ ->%String.eqb_eq| ->%String.eqb_eq]| ->%String.eqb_eq]|H]|H].
  - by left.
  - by right; left.
  - by do 2 right; left.
  - do 3 right; left. by apply (parts_of_prefix "locks").
  - do 4 right. by apply (parts_of_prefix "sessions").
Qed.

(** A file the clients may not replace: not one of the mutable objects and
    not a temporary file. *)
Definition protected (parts : list string) : Prop :=
  parts <> [] /\ ~ mutable_parts parts /\ starts_with (file_name parts) ".tmp." = false /\ starts_with (file_name parts) ".repack_tmp." = false.

(** The name of a pack with this content. *)
Definition named_by (p : Path) (data : bytes) : Prop := p = data_dir ++ parts_of (pack_storage_key (pack_id_compute data)).

Definition kept (p : Path) (data : bytes) (s : AppState) : Prop :=
  append_only s = true /\ exists data', fs_files (fs s) !! p = Some data' /\ (data' = data \/ named_by p data').

Lemma kept_blind p data : blind (kept p data).
Proof. done. Qed.

(** Calls that leave the file of [p] alone. *)
Definition spares (p : Path) (f : Fs -> result IoErr Fs) : Prop :=
  forall x y, f x = Ok y -> is_Some (fs_files x !! p) -> fs_files y !! p = fs_files x !! p.

Lemma kept_write p data f : spares p f -> sm_keeps (kept p data) (os_write f).
Proof.
  intros Hf. apply keeps_write; [apply kept_blind|]. intros s fs' (Ha & d & Hd & Hn) Hw. split; [done|]. exists d. split; [|done].
  cbn. by rewrite (Hf _ _ Hw), Hd by (by rewrite Hd).
Qed.

Lemma spares_dirs p d : spares p (fs_create_dir_all d).
Proof. intros x y. unfold fs_create_dir_all. destruct (_ || _); [done|]. by intros [= <-]. Qed.
Lemma spares_create p q : q <> p -> spares p (fs_create q).
Proof.
  intros Hq x y. unfold fs_create. destruct (is_dir x q); [done|]. destruct (is_dir x _); [|done]. intros [= <-] _. cbn.
  by rewrite lookup_insert_ne.
Qed.
Lemma spares_append p q b : q <> p -> spares p (fs_append q b).
Proof. intros Hq x y. unfold fs_append. destruct (fs_files x !! q); [|done]. intros [= <-] _. cbn. by rewrite lookup_insert_ne. Qed.
Lemma spares_remove p q : q <> p -> spares p (fs_remove_file q).
Proof. intros Hq x y. unfold fs_remove_file. destruct (fs_files x !! q); [|done]. intros [= <-] _. cbn. by rewrite lookup_delete_ne. Qed.
Lemma spares_rename p a b : a <> p -> b <> p -> spares p (fs_rename a b).
Proof.
  intros Ha Hb x y. unfold fs_rename. destruct (fs_files x !! a); [|done]. destruct (is_dir x b); [done|].
  destruct (is_dir x _); [|done]. intros [= <-] _. cbn. by rewrite lookup_insert_ne, lookup_delete_ne.
Qed.

Lemma with_file_name_ne p q name pre :
  starts_with name pre = true -> starts_with (file_name p) pre = false -> with_file_name q name <> p.
Proof. intros H1 H2 <-. unfold file_name, with_file_name in H2. rewrite List.last_last in H2. congruence. Qed.

Lemma file_name_app d parts : parts <> [] -> file_name (d ++ parts) = file_name parts.
Proof. intros Hne. destruct parts as [|x parts] using rev_ind; [done|]. unfold file_name. by rewrite app_assoc, !List.last_last. Qed.

Lemma temp_name_prefix n i : starts_with (temp_name n i) ".tmp." = true.
Proof. apply starts_with_prefix. Qed.

Section Kept.
Context (parts : list string) (data : bytes) (Hp : protected parts).
#[local] Abbreviation p := (data_dir ++ parts).
#[local] Abbreviation K := (kept p data).

Lemma temp_ne q n i : with_file_name q (temp_name n i) <> p.
Proof. destruct Hp as (Hne & _ & Ht & _). apply (with_file_name_ne _ _ _ ".tmp."); [apply temp_name_prefix|]. by rewrite file_name_app. Qed.
Lemma repack_temp_ne q i : repack_temp q i <> p.
Proof. destruct Hp as (Hne & _ & _ & Ht). apply (with_file_name_ne _ _ _ ".repack_tmp."); [apply starts_with_prefix|]. by rewrite file_name_app. Qed.

Lemma drop_fails {A} q er Q : q <> p -> striple K (drop_temp (A := A) q er) Q K.
Proof. intros Hq. apply (striple_bind _ _ (fun _ => K)); [by apply kept_write, spares_remove|]. intros _. by apply striple_fail. Qed.
Lemma keeps_drop {A} q er : q <> p -> sm_keeps K (drop_temp (A := A) q er).
Proof. apply drop_fails. Qed.

Lemma keeps_io {A} (r : result IoErr A) I : sm_keeps I (io_try r).
Proof. apply keeps_lift. Qed.

Lemma keeps_usage (n : Z) : sm_keeps K (add_quota_usage n) /\ sm_keeps K (sub_quota_usage n).
Proof. by split; intros s Hs. Qed.

(** An upload that is admitted goes elsewhere. *)
Lemma put_admit_kept key len checksum :
  striple K (put_admit data_dir within dir_len key len checksum) (fun up s => K s /\ up_path up <> p /\ up_temp up <> p) K.
Proof.
  unfold put_admit, resolve. apply striple_lift_bind; [|done]. intros path Hpath.
  destruct (file_path data_dir within key) as [path'|] eqn:Hf; [|done]. injection Hpath as <-. apply file_path_eq in Hf as (_ & Hf & _).
  eapply (striple_bind _ _ (fun existing s => K s /\ (path' = p -> is_Some existing))).
  { unfold existing_size. eapply striple_bind; [apply striple_read, kept_blind|]. intros r s [Hs Hr].
    destruct Hr as [Hr | ->]; [|done]. destruct r as [n|[]]; cbn; [by split|split; [done|]|done].
    intros ->. destruct Hs as (_ & d & Hd & _). unfold fs_metadata in Hr. by rewrite Hd in Hr. }
  intros existing. apply striple_pure. intros Hex. apply striple_get_bind. intros s0.
  destruct (append_only s0 && bool_decide (is_Some existing) && negb (is_mutable key)) eqn:Hao; [by apply striple_fail; intros s [_ ?]|].
  cbv zeta. destruct (match len with Some _ => _ | None => _ end); [by apply striple_fail; intros s [_ ?]|].
  apply striple_lift_bind; [|by intros s [_ ?]]. intros expected _.
  apply (striple_bind _ _ (fun _ s => K s /\ path' <> p)).
  { intros s [-> HK]. assert (Hne : path' <> p).
    { intros E. specialize (Hex E). destruct HK as [Ha _]. rewrite Ha, bool_decide_eq_true_2 in Hao by done.
      apply negb_false_iff, is_mutable_parts in Hao. rewrite Hf in E. apply app_inv_head in E. destruct Hp as (_ & Hm & _). by rewrite <- E in Hm. }
    pose proof (kept_write p data _ (spares_dirs p (parent path')) s0 HK) as H. by destruct (os_write _ s0) as [[] s']. }
  intros r. apply striple_pure. intros Hne. apply (striple_bind _ _ (fun _ => K)); [apply keeps_io|]. intros _.
  intros s HK. split; [exact HK|]. split; [done|]. apply temp_ne.
Qed.

Lemma stream_body_kept up body written : up_temp up <> p -> sm_keeps K (stream_body up body written).
Proof.
  intros Hup. revert written. induction body as [|r body IH]; intros written; [apply keeps_ret|].
  destruct r as [[|b piece]|er]; [apply keeps_ret| |apply keeps_fail]. cbn [stream_body].
  apply keeps_bind; [apply keeps_get|]. intros s. destruct (over_quota _ _ _ _); [apply keeps_fail|].
  apply keeps_bind; [by apply kept_write, spares_append|]. intros r. apply keeps_bind; [apply keeps_io|]. intros _. apply IH.
Qed.

Lemma put_stream_kept up body : up_temp up <> p -> sm_keeps K (put_stream up body).
Proof.
  intros Hup. apply keeps_bind; [by apply kept_write, spares_create|]. intros r. apply keeps_bind; [apply keeps_io|]. intros _.
  apply keeps_bind; [apply keeps_try|].
  - apply keeps_bind; [by apply stream_body_kept|]. intros d. apply keeps_bind; [apply keeps_read, kept_blind|]. intros r'.
    apply keeps_bind; [apply keeps_io|]. intros _. apply keeps_ret.
  - intros [d|er]; [apply keeps_ret|by apply keeps_drop].
Qed.

Lemma put_commit_kept up len d now pr : up_path up <> p -> up_temp up <> p -> sm_keeps K (put_commit up len d now pr).
Proof.
  intros Hpath Htemp. unfold put_commit. cbv zeta. destruct (match len with Some _ => _ | None => _ end); [by apply keeps_drop|].
  destruct (match up_checksum up with Some _ => _ | None => _ end); [by apply keeps_drop|].
  apply keeps_bind; [by apply kept_write, spares_rename|]. intros [[]|er]; [|by apply keeps_drop].
  apply keeps_bind; [destruct (_ <? _); apply keeps_usage|]. intros _.
  apply keeps_bind; [destruct (_ || _); [by intros s Hs|apply keeps_ret]|]. intros _. apply keeps_ret.
Qed.

Lemma put_object_kept key len checksum body now pr : sm_keeps K (put_object data_dir within dir_len key len checksum body now pr).
Proof.
  eapply striple_bind; [apply put_admit_kept|]. intros up. apply striple_pure. intros [H1 H2].
  apply keeps_bind; [by apply put_stream_kept|]. intros d. by apply put_commit_kept.
Qed.

Lemma existing_size_kept q : sm_keeps K (existing_size dir_len q).
Proof.
  apply keeps_bind; [apply keeps_read, kept_blind|]. intros [n|[]]; [apply keeps_ret..|apply keeps_fail].
Qed.

Lemma delete_object_kept key : sm_keeps K (delete_object data_dir within dir_len key).
Proof.
  unfold delete_object, resolve. apply striple_get_bind. intros s0. destruct (_ && _) eqn:Hao; [by apply striple_fail; intros s [_ ?]|].
  apply striple_lift_bind; [|by intros s [_ ?]]. intros path Hpath.
  destruct (file_path data_dir within key) as [path'|] eqn:Hf; [|done]. injection Hpath as <-. apply file_path_eq in Hf as (_ & Hf & _).
  intros s [-> HK]. assert (Hne : path' <> p).
  { intros E. rewrite Hf in E. apply app_inv_head in E. destruct Hp as (_ & Hm & _). apply Hm. rewrite <- E. destruct HK as [Ha _].
    rewrite Ha in Hao. cbn [andb] in Hao. rewrite <- negb_orb in Hao. apply negb_false_iff, orb_true_iff in Hao as [H|H].
    - do 3 right; left. by apply (parts_of_prefix "locks").
    - do 4 right. by apply (parts_of_prefix "sessions"). }
  revert s0 HK Hao. intros s HK _. revert s HK. apply (keeps_bind K); [apply existing_size_kept|]. intros [n|]; [|apply keeps_ret].
  apply keeps_bind; [by apply kept_write, spares_remove|]. intros [[]|[]]; [|apply keeps_ret|apply keeps_fail].
  apply keeps_bind; [apply keeps_usage|]. intros _. apply keeps_ret.
Qed.

Lemma post_object_kept mkdir key : sm_keeps K (post_object data_dir within mkdir key).
Proof.
  destruct mkdir; [|apply keeps_ret]. apply keeps_bind; [apply keeps_lift|]. intros path.
  apply keeps_bind; [apply kept_write, spares_dirs|]. intros r. apply keeps_bind; [apply keeps_io|]. intros _. apply keeps_ret.
Qed.

Lemma batch_delete_kept keys cleanup : sm_keeps K (batch_delete data_dir within dir_len keys cleanup).
Proof. apply striple_get_bind. intros s0 s [-> HK]. pose proof HK as [Ha _]. by rewrite Ha. Qed.

Lemma create_dirs_kept dirs : sm_keeps K (create_dirs dirs).
Proof.
  induction dirs as [|d dirs IH]; [apply keeps_ret|]. apply keeps_bind; [apply kept_write, spares_dirs|]. intros r.
  apply keeps_bind; [apply keeps_io|]. intros _. apply IH.
Qed.

Lemma repo_init_kept : sm_keeps K (repo_init data_dir dir_len).
Proof.
  apply keeps_bind; [apply keeps_get|]. intros s. destruct (negb _); [apply keeps_fail|].
  apply keeps_bind; [apply existing_size_kept|]. intros [n|]; [apply keeps_fail|].
  apply keeps_bind; [apply create_dirs_kept|]. intros _. apply keeps_ret.
Qed.

(** While a repack writes its temporary file. *)
Definition writing (temp : Path) (d : bytes) (s : AppState) : Prop := K s /\ fs_files (fs s) !! temp = Some d.

Lemma writing_blind temp d : blind (writing temp d).
Proof. done. Qed.

Lemma writing_write temp d d' (f : Fs -> result IoErr Fs) :
  spares p f -> (forall x y, fs_files x !! temp = Some d -> f x = Ok y -> fs_files y !! temp = Some d') ->
  striple (writing temp d) (os_write f) (fun r s => K s /\ (r = Ok tt -> writing temp d' s)) K.
Proof.
  intros Hs Ht s [HK Hd]. pose proof (kept_write p data f Hs s HK) as H. revert H. unfold os_write.
  pose proof (next_os_fs s) as Hfs. destruct (next_os s) as [[] s']; cbn in *; [by split|].
  destruct (f (fs s')) as [y|er] eqn:Hf; [|by split]. intros Hy. split; [done|]. intros _. split; [done|]. rewrite Hfs in Hf. by apply (Ht (fs s)).
Qed.

Lemma writing_drop temp d (r : result IoErr unit) : temp <> p ->
  striple (fun s => K s /\ (r = Ok tt -> writing temp d s)) (or_drop temp r) (fun _ => writing temp d) K.
Proof. intros Hne s [HK Hw]. destruct r as [[]|er]; [by apply Hw|]. cbn [or_drop]. by apply (drop_fails temp EInternal _ Hne s). Qed.

Lemma rename_kept temp d new : temp <> p -> new = data_dir ++ parts_of (pack_storage_key (pack_id_compute d)) ->
  striple (writing temp d) (os_write (fs_rename temp new)) (fun _ => K) K.
Proof.
  intros Hne Hnew s [HK Hd]. unfold os_write. pose proof (next_os_fs s) as Hfs.
  pose proof (next_os_blind K s (kept_blind p data) HK) as HK'. destruct (next_os s) as [[] s']; cbn in *; [done|].
  unfold fs_rename. rewrite Hfs, Hd. destruct (is_dir _ new); [done|]. destruct (is_dir _ (parent new)); [|done].
  destruct HK as (Ha & x & Hx & Hn). split; [by destruct HK'|]. cbn. destruct (decide (new = p)) as [->|Hnp].
  - exists d. rewrite lookup_insert_eq. split; [done|]. by right.
  - exists x. by rewrite lookup_insert_ne, lookup_delete_ne.
Qed.

Lemma repack_op_kept op : delete_after op = false -> sm_keeps K (repack_op data_dir within dir_len op).
Proof.
  intros Hda. unfold repack_op. rewrite Hda. apply keeps_bind; [apply keeps_lift|]. intros source_path.
  destruct (keep_blobs op) as [|b keep]; [apply keeps_bind; [|intros _]; apply keeps_ret|].
  do 2 (apply keeps_bind; [apply keeps_read, kept_blind|]; intros ?; apply keeps_bind; [apply keeps_lift|]; intros ?).
  apply keeps_bind; [by intros s Hs|]. intros id. pose proof (repack_temp_ne source_path id) as Hne.
  set (temp := repack_temp source_path id) in *. cbv zeta.
  apply (striple_bind _ _ (fun r s => K s /\ (r = Ok tt -> writing temp [] s))).
  { apply (striple_weaken K K _ (fun r s => match r with Ok _ => writing temp [] s | Err _ => K s end) _ K K);
      [|done| |done].
    - apply striple_write; [apply kept_blind|]. intros s y HK Hy.
      pose proof (spares_create p temp Hne _ _ Hy) as Hs. unfold fs_create in Hy.
      destruct (is_dir _ temp); [done|]. destruct (is_dir _ _); [|done]. injection Hy as <-. split; [|cbn; by rewrite lookup_insert_eq].
      destruct HK as (Ha & x & Hx & Hn). split; [done|]. exists x. split; [|done]. cbn in *. rewrite Hs by (by rewrite Hx). done.
    - intros [[]|er] s H; [|by split]. split; [by destruct H|done]. }
  intros r. apply (striple_bind _ _ (fun _ => writing temp [])).
  { intros s [HK Hw]. destruct r as [[]|er]; [by apply Hw|done]. }
  intros _. destruct (repack_data _ _) as [[d offsets]|].
  2:{ intros s [HK _]. by apply (keeps_drop temp EInternal Hne s). }
  eapply striple_bind; [apply (writing_write temp [] d); [by apply spares_append|]|].
  { intros x y Hx. unfold fs_append. rewrite Hx. intros [= <-]. cbn. by rewrite lookup_insert_eq. }
  intros r2. eapply striple_bind; [by apply writing_drop|]. intros [].
  destruct (file_path _ _ _) as [new|] eqn:Hf; [|intros s [HK _]; by apply (keeps_drop temp EInternal Hne s)].
  apply file_path_eq in Hf as (_ & Hf & _).
  eapply striple_bind; [apply (writing_write temp d d); [by apply spares_dirs|]|].
  { intros x y Hx. unfold fs_create_dir_all. destruct (_ || _); [done|]. by intros [= <-]. }
  intros r3. eapply striple_bind; [by apply writing_drop|]. intros [].
  eapply striple_bind; [by apply rename_kept|]. intros r4.
  apply (striple_bind _ _ (fun _ => K)); [destruct r4 as [[]|er]; [apply keeps_ret|by apply keeps_drop]|]. intros _.
  apply keeps_bind; [apply keeps_usage|]. intros _. apply keeps_bind; [apply keeps_ret|]. intros _. apply keeps_ret.
Qed.

Lemma execute_repack_kept ops : existsb delete_after ops = false -> sm_keeps K (execute_repack data_dir within dir_len ops).
Proof.
  induction ops as [|op ops IH]; [intros _; apply keeps_ret|]. cbn [existsb]. intros [H1 H2]%orb_false_iff.
  apply keeps_bind; [by apply repack_op_kept|]. intros r. apply keeps_bind; [by apply IH|]. intros rs. apply keeps_ret.
Qed.

Lemma repack_kept plan : sm_keeps K (repack data_dir within dir_len plan).
Proof.
  apply keeps_bind; [apply keeps_lift|]. intros _. apply striple_get_bind. intros s0 s [-> HK]. pose proof HK as [Ha _].
  rewrite Ha. cbn [andb]. destruct (existsb _ _) eqn:He; [done|]. by apply execute_repack_kept.
Qed.

Lemma handle_kept now pr req : sm_keeps K (handle data_dir within dir_len now pr req).
Proof.
  destruct req; cbn [handle].
  - apply put_object_kept.
  - apply delete_object_kept.
  - apply post_object_kept.
  - apply batch_delete_kept.
  - apply keeps_bind; [apply repack_kept|]. intros _. apply keeps_ret.
  - apply repo_init_kept.
Qed.
End Kept.

(** C30. In append-only mode clients whose requests are handled one after the
    other cannot destroy a backup: through any sequence of uploads, deletions,
    directory requests, batch deletions, repacks and initialisations, with any
    calls of the operating system failing, a stored file other than 'index',
    'index.gen', 'manifest', the locks, the sessions and the temporary files is
    still there, with its content, or with a content that the name of the file
    is the hash of.  ('manifest' may be overwritten as well, for clients of the
    first format; the comment in objects.rs and server-setup.md leave it out.)
    Requests that are handled at the same time are not covered: two uploads of
    one new key that overlap are both accepted, and the second replaces the
    first ([append_only_race]). *)
Theorem append_only_safe reqs s parts data :
  append_only s = true -> protected parts -> fs_files (fs s) !! (data_dir ++ parts) = Some data ->
  exists data', fs_files (fs (serve data_dir within dir_len reqs s)) !! (data_dir ++ parts) = Some data' /\
    (data' = data \/ named_by (data_dir ++ parts) data').
Proof.
  intros Ha Hp Hd. assert (HK : kept (data_dir ++ parts) data s) by (split; [done|]; exists data; auto). clear Ha Hd.
  revert s HK. induction reqs as [|[[now pr] req] reqs IH]; intros s HK; [by destruct HK|]. cbn [serve]. apply IH.
  pose proof (handle_kept parts data Hp now pr req s HK) as H. by destruct (handle _ _ _ _ _ _ s) as [[] s'].
Qed.
End AppendOnly.


(** ** Uploads and the quota *)

Section Uploads.
Context `{Hhex : HexCodec} `{Hblake : Blake2b} (data_dir : Path) (within : Path -> bool) (dir_len : Path -> Z).

(** What the server knows a body to contain: the pieces up to the first empty
    read, none of which failed. *)
Fixpoint body_bytes (body : list (result IoErr bytes)) : option bytes :=
  match body with
  | [] | Ok [] :: _ => Some []
  | Err _ :: _ => None
  | Ok piece :: body' => app piece <$> body_bytes body'
  end.

Definition file_size (m : gmap Path bytes) (p : Path) : Z := match m !! p with Some d => Z.of_nat (length d) | None => 0 end.

(** The state an upload started in. *)
Context (s0 : AppState).
#[local] Abbreviation m0 := (fs_files (fs s0)).

(** What no step before the rename touches; directories may be added. *)
Definition rest_same (s : AppState) : Prop :=
  append_only s = append_only s0 /\ quota_usage s = quota_usage s0 /\ quota_state s = quota_state s0 /\ fs_dirs (fs s0) ⊆ fs_dirs (fs s) /\
  (os_faults s0 = [] -> os_faults s = []).

Definition upload_temp (path : Path) : Path := with_file_name path (temp_name (file_name path) (temp_counter s0)).

(** An upload as it is admitted. *)
Record admission (key : string) (checksum : option string) (up : Upload) : Prop := {
  ad_key : up_key up = key;
  ad_path : file_path data_dir within key = Some (up_path up);
  ad_size : up_path up ∉ fs_dirs (fs s0) -> up_old_size up = file_size m0 (up_path up);
  ad_quota : up_quota up = effective_limit (quota_state s0);
  ad_temp : up_temp up = upload_temp (up_path up);
  ad_checksum : checksum_header key checksum = Ok (up_checksum up);
}.

(** The files as they were, but for the temporary one. *)
Definition same_but (temp : Path) (m : gmap Path bytes) : Prop := delete temp m = delete temp m0.
(** As they were; the temporary one may be left when the calls fail. *)
Definition rolled_back (temp : Path) (s : AppState) : Prop :=
  rest_same s /\ same_but temp (fs_files (fs s)) /\ (os_faults s0 = [] -> m0 !! temp = None -> fs_files (fs s) = m0).

Lemma rest_next s : rest_same s -> rest_same (next_os s).2.
Proof.
  intros (H1 & H2 & H3 & H4 & H5). unfold next_os. destruct (os_faults s) as [|f l] eqn:Hf; cbn; split_and!; auto.
  intros E. by specialize (H5 E).
Qed.

(** One call, on states that keep the rest. *)
Lemma rest_write (P Q : gmap Path bytes -> Prop) (f : Fs -> result IoErr Fs) E :
  (forall x y, P (fs_files x) -> fs_dirs (fs s0) ⊆ fs_dirs x -> f x = Ok y -> Q (fs_files y) /\ fs_dirs x ⊆ fs_dirs y) ->
  striple (fun s => rest_same s /\ P (fs_files (fs s))) (os_write f)
    (fun r s => rest_same s /\ match r with Ok _ => Q (fs_files (fs s)) | Err _ => P (fs_files (fs s)) end) E.
Proof.
  intros Hf s [Hr HP]. unfold os_write. pose proof (rest_next s Hr) as Hr'. pose proof (next_os_fs s) as Hfs.
  destruct (next_os s) as [[] s']; cbn in *; rewrite Hfs; [done|].
  destruct (f (fs s)) as [y|er] eqn:Hy; [|by rewrite Hfs].
  destruct Hr as (_ & _ & _ & Hd & _). destruct (Hf _ _ HP Hd Hy) as [HQ Hsub]. split; [|done].
  destruct Hr' as (H1 & H2 & H3 & H4 & H5). split_and!; try done. cbn. exact (transitivity Hd Hsub).
Qed.

Lemma same_but_back temp m : same_but temp m -> m !! temp = None -> m0 !! temp = None -> m = m0.
Proof. unfold same_but. intros H H1 H2. by rewrite !delete_id in H. Qed.

Lemma drop_rolls_back {A} temp er Q :
  striple (fun s => rest_same s /\ same_but temp (fs_files (fs s))) (drop_temp (A := A) temp er) Q (rolled_back temp).
Proof.
  intros s [Hr Hs]. unfold drop_temp, mbind, SM_bind, os_write, sfail. pose proof (rest_next s Hr) as Hr'. pose proof (next_os_fs s) as Hfs.
  assert (Hno : os_faults s0 = [] -> (next_os s).1 = false).
  { intros E0. destruct Hr as (_ & _ & _ & _ & H5). unfold next_os. by rewrite (H5 E0). }
  destruct (next_os s) as [[] s']; cbn in *.
  - split; [done|]. rewrite Hfs. split; [done|]. intros E0. by specialize (Hno E0).
  - unfold fs_remove_file. rewrite Hfs. destruct (fs_files (fs s) !! temp) as [d|] eqn:Hd; cbn.
    + split; [destruct Hr' as (? & ? & ? & ? & ?); rewrite Hfs in *; by split_and!|]. unfold same_but in *. cbn. rewrite delete_delete_eq, Hs. split; [done|]. intros _ Hn. by rewrite delete_id.
    + split; [done|]. rewrite Hfs. split; [done|]. intros _ Hn. by apply (same_but_back temp).
Qed.

Lemma admit_untouched key len checksum :
  striple (fun s => s = s0) (put_admit data_dir within dir_len key len checksum)
    (fun up s => rest_same s /\ fs_files (fs s) = m0 /\ admission key checksum up) (fun s => rest_same s /\ fs_files (fs s) = m0).
Proof.
  assert (Hrefl : forall s, s = s0 -> rest_same s /\ fs_files (fs s) = m0) by (intros s ->; by split_and!).
  apply (striple_weaken (fun s => rest_same s /\ fs_files (fs s) = m0 /\ fs_dirs (fs s) = fs_dirs (fs s0) /\ temp_counter s = temp_counter s0) _ _
    (fun up s => rest_same s /\ fs_files (fs s) = m0 /\ admission key checksum up) _ (fun s => rest_same s /\ fs_files (fs s) = m0) _);
    [|intros s ->; by split_and!|done|done].
  unfold put_admit, resolve. apply striple_lift_bind; [|by intros s (? & ? & _)]. intros path Hpath.
  destruct (file_path data_dir within key) as [path'|] eqn:Hf; [|done]. injection Hpath as <-.
  set (I := fun s => rest_same s /\ fs_files (fs s) = m0 /\ fs_dirs (fs s) = fs_dirs (fs s0) /\ temp_counter s = temp_counter s0).
  assert (HE : forall s, I s -> rest_same s /\ fs_files (fs s) = m0) by (by intros s (? & ? & _)).
  apply (striple_bind _ _ (fun existing s => I s /\ (path' ∉ fs_dirs (fs s0) -> default 0 existing = file_size m0 path'))).
  { intros s Hs. unfold existing_size, mbind, SM_bind, os_read. pose proof (next_os_fs s) as Hfs.
    assert (Hs' : I (next_os s).2).
    { destruct Hs as (H1 & H2 & H3 & H4). split; [by apply rest_next|]. rewrite Hfs. split_and!; try done.
      unfold next_os. by destruct (os_faults s). }
    destruct (next_os s) as [[] s']; cbn in *; [by apply HE|]. unfold fs_metadata, is_dir. destruct Hs' as (H1 & H2 & H3 & H4).
    rewrite H2, H3. unfold file_size. destruct (m0 !! path') as [d|]; [by split|].
    destruct (bool_decide_reflect (path' ∈ fs_dirs (fs s0))); [by split|]. unfold absent. by destruct (under_file _ _). }
  intros existing. apply striple_pure. intros Hsz. apply striple_get_bind. intros s1.
  destruct (_ && _ && _); [apply striple_fail; intros s [_ Hs]; by apply HE|]. cbv zeta.
  destruct (match len with Some _ => _ | None => _ end); [apply striple_fail; intros s [_ Hs]; by apply HE|].
  apply striple_lift_bind; [|intros s [_ Hs]; by apply HE]. intros expected Hexp.
  intros s [-> Hs]. unfold mbind, SM_bind. destruct Hs as (H1 & H2 & H3 & H4).
  pose proof (rest_write (fun m => m = m0) (fun m => m = m0) (fs_create_dir_all (parent path')) (fun _ => True)) as Hw.
  unshelve epose proof (Hw _ s1 (conj H1 H2)) as Hw'.
  { intros x y Hx _. unfold fs_create_dir_all. destruct (_ || _); [done|]. intros [= <-]. cbn. split; [done|]. set_solver. }
  assert (Hc : temp_counter (os_write (fs_create_dir_all (parent path')) s1).2 = temp_counter s0).
  { rewrite <- H4. unfold os_write, next_os. destruct (os_faults s1) as [|[] l]; cbn; try done; by destruct (fs_create_dir_all _ _). }
  destruct (os_write _ s1) as [[r|] s2] eqn:Hos; [|by unfold os_write in Hos; destruct (next_os s1) as [[] ?]; [|destruct (fs_create_dir_all _ _)]].
  destruct Hw' as [Hr2 Hm2]. destruct r as [[]|er]; cbn in *; [|done]. split; [exact Hr2|]. split; [done|].
  constructor; cbn; try done; [|unfold upload_temp; by rewrite Hc].
  destruct H1 as (_ & _ & -> & _). done.
Qed.

Definition holds (temp : Path) (d : bytes) (m : gmap Path bytes) : Prop := same_but temp m /\ m !! temp = Some d.

(** Every piece was checked against the quota. *)
Definition quota_checked (up : Upload) (d : bytes) : Prop :=
  d = [] \/ over_quota (up_quota up) (quota_usage s0) (up_old_size up) (Z.of_nat (length d)) = false.

#[local] Abbreviation rolling temp := (fun s => rest_same s /\ same_but temp (fs_files (fs s))).

Lemma stream_body_spec up body written : quota_checked up written ->
  striple (fun s => rest_same s /\ holds (up_temp up) written (fs_files (fs s))) (stream_body up body written)
    (fun data s => rest_same s /\ holds (up_temp up) data (fs_files (fs s)) /\
       quota_checked up data /\ exists rest, body_bytes body = Some rest /\ data = written ++ rest) (rolling (up_temp up)).
Proof.
  revert written. induction body as [|r body IH]; intros written Hq.
  { apply striple_ret. intros s [Hr Hh]. split_and!; try done. exists []. by rewrite app_nil_r. }
  destruct r as [[|b piece]|er]; cbn [stream_body body_bytes].
  - apply striple_ret. intros s [Hr Hh]. split_and!; try done. exists []. by rewrite app_nil_r.
  - set (pc := b :: piece). cbv zeta. apply striple_get_bind. intros s1.
    destruct (over_quota _ _ _ _) eqn:Hov; [apply striple_fail; by intros s [_ [Hr [Hh _]]]|].
    intros s [-> Hs]. assert (Hq' : quota_checked up (written ++ pc)).
    { right. destruct Hs as [(_ & Hu & _) _]. by rewrite <- Hu. }
    revert s1 Hs Hov. intros s Hs _. revert s Hs. eapply striple_bind.
    { apply (rest_write (holds (up_temp up) written) (holds (up_temp up) (written ++ pc))).
      intros x y [Hx1 Hx2] _. unfold fs_append. rewrite Hx2. intros [= <-]. cbn. split; [|done]. split; [|by rewrite lookup_insert_eq].
      unfold same_but in *. by rewrite delete_insert_eq. }
    intros [[]|er]; cbn [io_try].
    + apply (striple_weaken (fun s => rest_same s /\ holds (up_temp up) (written ++ pc) (fs_files (fs s))) _ _
        (fun data s => rest_same s /\ holds (up_temp up) data (fs_files (fs s)) /\ quota_checked up data /\
           exists rest, body_bytes body = Some rest /\ data = (written ++ pc) ++ rest) _ (rolling (up_temp up)) _); [by apply IH|done| |done].
      intros data s (H1 & H2 & H3 & rest & H4 & ->). split_and!; try done. exists (pc ++ rest). rewrite H4. by rewrite <- app_assoc.
    + intros s [Hr [Hh _]]. done.
  - apply striple_fail. by intros s [Hr [Hh _]].
Qed.

Lemma put_stream_spec up body :
  striple (fun s => rest_same s /\ fs_files (fs s) = m0) (put_stream up body)
    (fun data s => rest_same s /\ holds (up_temp up) data (fs_files (fs s)) /\ quota_checked up data /\ body_bytes body = Some data)
    (rolled_back (up_temp up)).
Proof.
  eapply striple_bind.
  { apply (rest_write (fun m => m = m0) (holds (up_temp up) [])). intros x y Hx _. unfold fs_create. destruct (is_dir x _); [done|].
    destruct (is_dir x _); [|done]. intros [= <-]. cbn. split; [|done]. rewrite Hx. split; [|by rewrite lookup_insert_eq].
    unfold same_but. by rewrite delete_insert_eq. }
  intros r. apply (striple_bind _ _ (fun _ s => rest_same s /\ holds (up_temp up) [] (fs_files (fs s)))).
  { intros s [Hr Hm]. destruct r as [[]|er]; [done|]. split; [done|]. cbn in Hm. unfold same_but. by rewrite Hm. }
  set (DQ := fun data s => rest_same s /\ holds (up_temp up) data (fs_files (fs s)) /\ quota_checked up data /\ body_bytes body = Some data).
  intros []. apply (striple_bind _ _ (fun w s => match w with Ok data => DQ data s | Err _ => rolling (up_temp up) s end)); [apply striple_try|].
  { eapply striple_bind; [apply stream_body_spec; by left|]. intros data s Hs. cbv beta in Hs.
    pose proof (rest_next s ltac:(tauto)) as Hn. pose proof (next_os_fs s) as Hfs. unfold mbind, SM_bind, os_read.
    destruct Hs as (H1 & H2 & H3 & rest & H4 & H5). destruct (next_os s) as [[] s']; cbn in Hn, Hfs; cbn.
    - rewrite Hfs. split; [done|]. by destruct H2.
    - split; [done|]. rewrite Hfs, H4, H5. rewrite H5 in H2, H3. by split_and!. }
  intros [data|er]; [by apply striple_ret|]. apply drop_rolls_back.
Qed.

(** The usage after a file of [old] bytes became one of [new] bytes. *)
Definition usage_after (old new : Z) : Z :=
  if old <? new then u64_add (quota_usage s0) (new - old) else sat_sub (quota_usage s0) (old - new).

Record stored (key : string) (len : option Z) (checksum : option string) (body : list (result IoErr bytes)) (code : Z) (s : AppState) (path : Path) (data : bytes) : Prop := {
  st_code : code = if 0 <? file_size m0 path then NO_CONTENT else CREATED;
  st_path : file_path data_dir within key = Some path;
  st_body : body_bytes body = Some data;
  st_files : fs_files (fs s) = <[path := data]> (delete (upload_temp path) m0);
  st_len : forall n, len = Some n -> n = Z.of_nat (length data);
  st_sum : forall hex, checksum = Some hex -> hex_encode (blake2b data) = to_ascii_lowercase hex;
  st_pack : starts_with key "packs/" = true -> is_Some checksum;
  st_quota : data <> [] -> over_quota (effective_limit (quota_state s0)) (quota_usage s0) (file_size m0 path) (Z.of_nat (length data)) = false;
  st_usage : quota_usage s = usage_after (file_size m0 path) (Z.of_nat (length data));
  st_faults : os_faults s0 = [] -> os_faults s = [];
  st_mode : append_only s = append_only s0;
}.

Lemma put_commit_spec key len checksum up body data now pr :
  admission key checksum up -> quota_checked up data -> body_bytes body = Some data ->
  striple (fun s => rest_same s /\ holds (up_temp up) data (fs_files (fs s))) (put_commit up len data now pr)
    (fun code s => stored key len checksum body code s (up_path up) data) (rolled_back (up_temp up)).
Proof.
  intros [Hk Hpath Hsz Hquota Htemp Hsum] Hq Hb. unfold put_commit. cbv zeta.
  assert (Hw : forall s, rest_same s /\ holds (up_temp up) data (fs_files (fs s)) -> rest_same s /\ same_but (up_temp up) (fs_files (fs s)))
    by (by intros s [? []]).
  destruct (match len with Some _ => _ | None => _ end) eqn:Hlen.
  { intros s Hs. by apply (drop_rolls_back (up_temp up)), Hw. }
  destruct (match up_checksum up with Some _ => _ | None => _ end) eqn:Hck.
  { intros s Hs. by apply (drop_rolls_back (up_temp up)), Hw. }
  apply (striple_bind _ _ (fun r s => rest_same s /\ match r with
    | Ok _ => fs_files (fs s) = <[up_path up := data]> (delete (up_temp up) m0) /\ up_path up ∉ fs_dirs (fs s0)
    | Err _ => same_but (up_temp up) (fs_files (fs s)) end)).
  { eapply (striple_weaken _ _ _ _ _ (rolled_back (up_temp up)));
      [apply (rest_write (holds (up_temp up) data) (fun m => m = <[up_path up := data]> (delete (up_temp up) m0) /\ up_path up ∉ fs_dirs (fs s0)))
      |done| |done].
    - intros x y [Hx1 Hx2] Hsub. unfold fs_rename. rewrite Hx2. unfold is_dir.
      destruct (bool_decide_reflect (up_path up ∈ fs_dirs x)) as [|Hnd]; [done|]. destruct (bool_decide _); [|done]. intros [= <-]. cbn.
      unfold same_but in Hx1. rewrite Hx1. split; [|done]. split; [done|]. set_solver.
    - intros [[]|er] s [Hr Hs]; [done|]. split; [done|]. by destruct Hs. }
  intros [[]|er]; [|intros s Hs; by apply (drop_rolls_back (up_temp up))].
  intros s (Hr & Hm & Hnd). unfold mbind, SM_bind, mret, SM_ret.
  pose proof Hr as (Ha & Hu & _ & _ & Hf). specialize (Hsz Hnd).
  assert (Hst : forall s', fs s' = fs s -> quota_usage s' = usage_after (file_size m0 (up_path up)) (Z.of_nat (length data)) ->
     os_faults s' = os_faults s -> append_only s' = append_only s ->
     stored key len checksum body (if 0 <? up_old_size up then NO_CONTENT else CREATED) s' (up_path up) data).
  { intros s' E1 E2 E3 E4. constructor; try done.
    - by rewrite Hsz.
    - by rewrite E1, Hm, Htemp.
    - intros n ->. apply negb_false_iff in Hlen. lia.
    - intros hx ->. unfold checksum_header in Hsum. destruct (negb _); [done|]. injection Hsum as E. rewrite <- E in Hck.
      apply negb_false_iff in Hck. by apply String.eqb_eq.
    - intros Hpk. destruct checksum; [done|]. unfold checksum_header in Hsum. by rewrite Hpk in Hsum.
    - intros Hne. destruct Hq as [?|Hq]; [done|]. by rewrite <- Hquota, <- Hsz.
    - by rewrite E3.
    - by rewrite E4. }
  unfold usage_after in *. rewrite Hsz in *. rewrite <- Hu in *. unfold add_quota_usage, sub_quota_usage, record_backup.
  destruct (file_size m0 (up_path up) <? Z.of_nat (length data)); destruct (_ || _); apply Hst; done.
Qed.

Lemma put_object_spec key len checksum body now pr :
  match put_object data_dir within dir_len key len checksum body now pr s0 with
  | (Ok code, s) => exists path data, stored key len checksum body code s path data
  | (Err _, s) => rolled_back (upload_temp (default data_dir (file_path data_dir within key))) s
  end.
Proof.
  set (temp := upload_temp _). assert (Hback : forall s, rest_same s /\ fs_files (fs s) = m0 -> rolled_back temp s).
  { intros s [Hr Hm]. split; [done|]. split; [|done]. unfold same_but. by rewrite Hm. }
  apply (striple_bind (fun s => s = s0) (put_admit data_dir within dir_len key len checksum)
    (fun up s => (rest_same s /\ fs_files (fs s) = m0) /\ admission key checksum up)
    (fun up => data ← put_stream up body; put_commit up len data now pr)
    (fun code s => exists path data, stored key len checksum body code s path data) (rolled_back temp)); [| |done].
  - eapply (striple_weaken _ _ _ _ _ _ _ (admit_untouched key len checksum)); [done| |done]. intros up s (? & ? & ?). done.
  - intros up. apply striple_pure. intros Had. assert (Ht : up_temp up = temp).
    { destruct Had as [_ Hpath _ _ Htemp _]. unfold temp. by rewrite Hpath. }
    rewrite <- Ht. eapply striple_bind; [apply put_stream_spec|]. intros data.
    apply (striple_weaken (fun s => (rest_same s /\ holds (up_temp up) data (fs_files (fs s))) /\ (quota_checked up data /\ body_bytes body = Some data)) _ _
      (fun code s => stored key len checksum body code s (up_path up) data) _ (rolled_back (up_temp up)) _); [|intros s; tauto|eauto|done].
    apply striple_pure. intros [Hq Hb]. by apply put_commit_spec.
Qed.
End Uploads.

(** ** The quota counter *)

Section QuotaExact.
Context `{Hhex : HexCodec} `{Hblake : Blake2b} (data_dir : Path) (within : Path -> bool) (dir_len : Path -> Z).

(** [dir_size]: the bytes of the files below the directory, from which the
    server starts its counter. *)
Definition weight (p : Path) (d : bytes) : Z := if path_starts_with p data_dir then Z.of_nat (length d) else 0.
Definition dir_size (m : gmap Path bytes) : Z := map_fold (fun p d acc => weight p d + acc) 0 m.

Lemma dir_size_insert m p d : m !! p = None -> dir_size (<[p := d]> m) = weight p d + dir_size m.
Proof. intros Hn. unfold dir_size. apply (map_fold_insert_L (fun p d acc => weight p d + acc)); [intros; lia|done]. Qed.

Lemma dir_size_delete m p : dir_size m = (match m !! p with Some d => weight p d | None => 0 end) + dir_size (delete p m).
Proof.
  destruct (m !! p) as [d|] eqn:Hd; [|by rewrite delete_id]. rewrite <- dir_size_insert by apply lookup_delete_eq. by rewrite insert_delete_id.
Qed.

Lemma dir_size_replace m p d :
  dir_size (<[p := d]> m) = weight p d + dir_size m - (match m !! p with Some x => weight p x | None => 0 end).
Proof. rewrite (dir_size_delete m p), <- insert_delete_eq, dir_size_insert by apply lookup_delete_eq. lia. Qed.

Lemma dir_size_nonneg m : 0 <= dir_size m.
Proof.
  unfold dir_size. apply (map_fold_weak_ind (fun acc _ => 0 <= acc)); [done|]. intros i x m' r _ Hr. unfold weight. destruct (path_starts_with _ _); lia.
Qed.

Lemma weight_below parts d : weight (data_dir ++ parts) d = Z.of_nat (length d).
Proof. unfold weight. by rewrite path_starts_with_app. Qed.

Definition untemped (m : gmap Path bytes) : Prop := forall p, is_Some (m !! p) -> starts_with (file_name p) ".tmp." = false.
Definition plain_key (key : string) : Prop := parts_of key <> [] /\ starts_with (file_name (parts_of key)) ".tmp." = false.

Fixpoint body_size (body : list (result IoErr bytes)) : Z :=
  match body with [] => 0 | r :: body' => (match r with Ok d => Z.of_nat (length d) | Err _ => 0 end) + body_size body' end.

Lemma body_size_bytes body d : body_bytes body = Some d -> 0 <= Z.of_nat (length d) <= body_size body.
Proof.
  assert (Hn : forall b, 0 <= body_size b) by (intros b; induction b as [|[] b IH]; cbn [body_size]; lia).
  revert d. induction body as [|r body IH]; intros d; cbn [body_bytes body_size].
  - intros [= <-]. cbn. lia.
  - specialize (Hn body). destruct r as [[|b pc]|er]; [intros [= <-]; cbn; lia| |done].
    destruct (body_bytes body) as [rest|]; [|done]. intros [= <-]. specialize (IH rest eq_refl).
    change (b :: pc ++ rest) with ((b :: pc) ++ rest). rewrite length_app. lia.
Qed.

(** The counter is right, and [budget] more bytes fit in 64 bits. *)
Definition exact (budget : Z) (s : AppState) : Prop :=
  os_faults s = [] /\ quota_usage s = dir_size (fs_files (fs s)) /\ untemped (fs_files (fs s)) /\ dir_size (fs_files (fs s)) + budget <= u64_max.

Lemma os_read_calm {A} (f : Fs -> result IoErr A) s : os_faults s = [] -> os_read f s = (Ok (f (fs s)), s).
Proof. intros H. unfold os_read, next_os. by rewrite H. Qed.
Lemma os_write_calm f s : os_faults s = [] ->
  os_write f s = match f (fs s) with Ok fs' => (Ok (Ok tt), set_fs fs' s) | Err er => (Ok (Err er), s) end.
Proof. intros H. unfold os_write, next_os. by rewrite H. Qed.

(** Calls that change directories only. *)
Lemma exact_dirs budget (f : Fs -> result IoErr Fs) :
  (forall x y, f x = Ok y -> fs_files y = fs_files x) -> sm_keeps (exact budget) (os_write f).
Proof.
  intros Hf s (H1 & H2 & H3 & H4). rewrite os_write_calm by done. destruct (f (fs s)) as [y|] eqn:Hy; [|by split_and!].
  specialize (Hf _ _ Hy). unfold exact. cbn. by rewrite Hf.
Qed.

Lemma exact_read {A} budget (f : Fs -> result IoErr A) : sm_keeps (exact budget) (os_read f).
Proof. intros s Hs. rewrite os_read_calm by (by destruct Hs). done. Qed.

Lemma exact_remove budget parts s y :
  exact budget s -> fs_remove_file (data_dir ++ parts) (fs s) = Ok y ->
  exists n, fs_metadata dir_len (data_dir ++ parts) (fs s) = Ok n /\ exact budget (set_usage (sat_sub (quota_usage s) n) (set_fs y s)).
Proof.
  intros (H1 & H2 & H3 & H4). unfold fs_remove_file, fs_metadata. destruct (fs_files (fs s) !! _) as [d|] eqn:Hd; [|done]. intros [= <-].
  exists (Z.of_nat (length d)). split; [done|]. pose proof (dir_size_delete (fs_files (fs s)) (data_dir ++ parts)) as Hz.
  rewrite Hd, weight_below in Hz. pose proof (dir_size_nonneg (delete (data_dir ++ parts) (fs_files (fs s)))). unfold exact. cbn.
  split_and!; [done|unfold sat_sub; lia| |lia]. intros q [x [_ Hq]%lookup_delete_Some]. apply H3. by exists x.
Qed.

Lemma existing_size_calm p s : os_faults s = [] -> existing_size dir_len p s =
  match fs_metadata dir_len p (fs s) with Ok n => (Ok (Some n), s) | Err IoNotFound => (Ok None, s) | Err er => (Err (from_io er), s) end.
Proof. intros H. unfold existing_size, mbind, SM_bind. rewrite os_read_calm by done. by destruct (fs_metadata _ _ _) as [|[]]. Qed.

Lemma delete_object_exact budget key : sm_keeps (exact budget) (delete_object data_dir within dir_len key).
Proof.
  apply keeps_bind; [apply keeps_get|]. intros s0. destruct (_ && _); [apply keeps_fail|].
  unfold resolve. apply striple_lift_bind; [|done]. intros path Hpath.
  destruct (file_path data_dir within key) as [path'|] eqn:Hf; [|done]. injection Hpath as <-. apply file_path_eq in Hf as (_ & -> & _).
  intros s Hs. unfold mbind, SM_bind. assert (Hno : os_faults s = []) by (by destruct Hs). rewrite existing_size_calm by done.
  destruct (fs_remove_file (data_dir ++ parts_of key) (fs s)) as [y|er] eqn:Hr.
  - destruct (exact_remove budget _ s y Hs Hr) as (n & Hn & Hx). rewrite Hn, os_write_calm, Hr by done. exact Hx.
  - destruct (fs_metadata _ _ _) as [n|[]]; [|done..]. rewrite os_write_calm, Hr by done. by destruct er.
Qed.

Lemma delete_keys_exact budget keys : sm_keeps (exact budget) (delete_keys data_dir within dir_len keys).
Proof.
  induction keys as [|key keys IH]; [apply keeps_ret|]. cbn [delete_keys].
  destruct (file_path_for_cleanup data_dir within key) as [path|] eqn:Hf; [|done]. apply cleanup_path_eq in Hf as (-> & _).
  intros s Hs. unfold mbind, SM_bind. assert (Hno : os_faults s = []) by (by destruct Hs). rewrite existing_size_calm by done.
  destruct (fs_remove_file (data_dir ++ parts_of key) (fs s)) as [y|er] eqn:Hr.
  - destruct (exact_remove budget _ s y Hs Hr) as (n & Hn & Hx). rewrite Hn, os_write_calm, Hr by done. by apply IH.
  - destruct (fs_metadata _ _ _) as [n|[]]; [|..|done]; rewrite os_write_calm, Hr by done; destruct er; [by apply IH|done..|by apply IH|done].
Qed.

Lemma remove_dirs_exact budget dirs : sm_keeps (exact budget) (remove_dirs dirs).
Proof.
  induction dirs as [|d dirs IH]; [apply keeps_ret|]. apply keeps_bind; [|by intros _].
  apply exact_dirs. intros x y. unfold fs_remove_dir. destruct (negb _); [done|]. destruct (existsb _ _); [done|]. by intros [= <-].
Qed.

Lemma create_dir_exact budget d : sm_keeps (exact budget) (os_write (fs_create_dir_all d)).
Proof. apply exact_dirs. intros x y. unfold fs_create_dir_all. destruct (_ || _); [done|]. by intros [= <-]. Qed.

Lemma batch_delete_exact budget keys cleanup : sm_keeps (exact budget) (batch_delete data_dir within dir_len keys cleanup).
Proof.
  apply keeps_bind; [apply keeps_get|]. intros s0. destruct (append_only s0); [apply keeps_fail|].
  apply keeps_bind; [apply delete_keys_exact|]. intros _. apply keeps_bind; [|intros _; apply keeps_ret].
  destruct cleanup; [|apply keeps_ret]. apply keeps_bind; [|intros _]; apply remove_dirs_exact.
Qed.

Lemma temp_untemped m s path : untemped m -> m !! upload_temp s path = None.
Proof.
  intros Hm. destruct (m !! upload_temp s path) eqn:Hd; [|done]. specialize (Hm (upload_temp s path) ltac:(by rewrite Hd)).
  unfold upload_temp, with_file_name, file_name in Hm. rewrite List.last_last in Hm.
  unfold temp_name in Hm. rewrite starts_with_prefix in Hm. done.
Qed.

Lemma size_below m parts : file_size m (data_dir ++ parts) = match m !! (data_dir ++ parts) with Some d => weight (data_dir ++ parts) d | None => 0 end.
Proof. unfold file_size. destruct (m !! _); [by rewrite weight_below|done]. Qed.

Lemma size_of_bound m parts : 0 <= file_size m (data_dir ++ parts) <= dir_size m.
Proof.
  pose proof (dir_size_delete m (data_dir ++ parts)) as H. pose proof (dir_size_nonneg (delete (data_dir ++ parts) m)).
  rewrite <- size_below in H. split; [|lia]. unfold file_size. destruct (m !! _); lia.
Qed.

(** The counter after an upload. *)
Lemma usage_after_exact s old new :
  0 <= old <= quota_usage s -> 0 <= new -> quota_usage s + new <= u64_max -> usage_after s old new = quota_usage s - old + new.
Proof.
  intros Ho Hn Hb. unfold usage_after. destruct (old <? new) eqn:E; [|unfold sat_sub; lia].
  unfold u64_add, u64_wrap. unfold u64_max in Hb. rewrite Z.mod_small; lia.
Qed.

Lemma put_object_exact budget key len checksum body now pr : plain_key key -> 0 <= budget ->
  striple (exact (body_size body + budget)) (put_object data_dir within dir_len key len checksum body now pr) (fun _ => exact budget) (exact budget).
Proof.
  intros [Hk1 Hk2] Hb s (H1 & H2 & H3 & H4). pose proof (put_object_spec data_dir within dir_len s key len checksum body now pr) as Hs.
  assert (Hbs : 0 <= body_size body).
  { clear. induction body as [|[] body IH]; cbn [body_size]; lia. }
  destruct (put_object _ _ _ _ _ _ _ _ _ s) as [[code|er] s'].
  - destruct Hs as (path & data & [_ Hp Hbd Hfiles _ _ _ _ Hu Hno _]). apply file_path_eq in Hp as (_ & -> & _).
    rewrite delete_id in Hfiles by (by apply temp_untemped). pose proof (body_size_bytes body data Hbd) as Hlen.
    pose proof (size_of_bound (fs_files (fs s)) (parts_of key)) as Hsz. rewrite <- H2 in Hsz.
    rewrite usage_after_exact in Hu by lia. pose proof (dir_size_replace (fs_files (fs s)) (data_dir ++ parts_of key) data) as Hd.
    rewrite weight_below, <- size_below, <- Hfiles in Hd. split_and!; [by apply Hno|lia| |lia].
    rewrite Hfiles. intros q Hq. destruct (decide (q = data_dir ++ parts_of key)) as [->|Hne]; [by rewrite file_name_app|].
    rewrite lookup_insert_ne in Hq by done. by apply H3.
  - destruct Hs as ((_ & Hu & _ & _ & Hno) & _ & Hback). specialize (Hback H1 (temp_untemped _ _ _ H3)). unfold exact.
    rewrite Hback, Hu. split_and!; [by apply Hno|done|done|lia].
Qed.

Lemma exact_weaken b b' s : b' <= b -> exact b s -> exact b' s.
Proof. intros Hb (H1 & H2 & H3 & H4). split_and!; try done. lia. Qed.

Lemma create_dirs_exact budget dirs : sm_keeps (exact budget) (create_dirs dirs).
Proof.
  induction dirs as [|d dirs IH]; [apply keeps_ret|]. apply keeps_bind; [apply create_dir_exact|]. intros r.
  apply keeps_bind; [apply keeps_lift|]. by intros _.
Qed.

Definition request_size (req : Request) : Z := match req with Put _ _ _ body => body_size body | _ => 0 end.
Definition plain_request (req : Request) : Prop :=
  match req with Put key _ _ _ => plain_key key | Repack _ => False | _ => True end.

Lemma handle_exact budget now pr req : plain_request req -> 0 <= budget ->
  striple (exact (request_size req + budget)) (handle data_dir within dir_len now pr req) (fun _ => exact budget) (exact budget).
Proof.
  intros Hp Hb. destruct req; cbn [handle request_size] in *; try done.
  - by apply put_object_exact.
  - apply delete_object_exact.
  - destruct mkdir; [|apply keeps_ret]. apply keeps_bind; [apply keeps_lift|]. intros path.
    apply keeps_bind; [apply create_dir_exact|]. intros r. apply keeps_bind; [apply keeps_lift|]. intros _. apply keeps_ret.
  - apply batch_delete_exact.
  - apply keeps_bind; [apply keeps_get|]. intros s. destruct (negb _); [apply keeps_fail|].
    apply keeps_bind; [apply keeps_bind; [apply exact_read|intros [n|[]]; [apply keeps_ret..|apply keeps_fail]]|].
    intros [n|]; [apply keeps_fail|]. apply keeps_bind; [apply create_dirs_exact|]. intros _. apply keeps_ret.
Qed.

Definition requests_size (reqs : list (Z * Probe * Request)) : Z := fold_right (fun r acc => request_size r.2 + acc) 0 reqs.

(** C31. The quota counter never drifts: starting from the size of the data
    directory, after any sequence of uploads (admitted or refused, complete
    or cut off, over the quota, with wrong lengths or checksums),
    deletions, batch deletions and directory requests it is the number of
    bytes stored, as long as the calls of the operating system do not fail,
    the bytes fit in 64 bits and no key is that of a temporary file. *)
Theorem quota_usage_exact reqs s :
  os_faults s = [] -> quota_usage s = dir_size (fs_files (fs s)) -> untemped (fs_files (fs s)) ->
  dir_size (fs_files (fs s)) + requests_size reqs <= u64_max -> Forall (fun r => plain_request r.2) reqs ->
  let s' := serve data_dir within dir_len reqs s in quota_usage s' = dir_size (fs_files (fs s')).
Proof.
  intros H1 H2 H3 H4 Hr. assert (HK : exact (requests_size reqs) s) by (by split_and!). clear H1 H2 H3 H4.
  assert (Hnn : forall l, 0 <= requests_size l).
  { intros l. induction l as [|[[? ?] rq] l IH]; cbn; [done|]. unfold requests_size in IH.
    assert (0 <= request_size rq); [|lia]. destruct rq; cbn; try lia. clear. induction body as [|[] body IH]; cbn [body_size]; lia. }
  revert s HK. induction Hr as [|[[now pr] req] reqs Hreq Hr IH]; intros s HK; [by destruct HK as (_ & ? & _)|]. cbn [serve].
  apply IH. pose proof (handle_exact (requests_size reqs) now pr req Hreq (Hnn _) s HK) as H.
  by destruct (handle _ _ _ _ _ _ s) as [[] s'].
Qed.

(** An upload is all or nothing, whatever fails: when it is answered
    with success the file of the key holds exactly the body that arrived, of
    the announced length and with the announced checksum (which a pack must
    announce), every other file is as before, the counter is adjusted by the
    difference, and a body that is not empty has not taken the usage over the
    limit; when it is answered with an error no file has changed but possibly
    the upload's own temporary file, and not even that one when the calls of
    the operating system succeed. *)
Theorem put_all_or_nothing s key len checksum body now pr :
  match put_object data_dir within dir_len key len checksum body now pr s with
  | (Ok code, s') => exists path data, stored data_dir within s key len checksum body code s' path data /\
      (0 <= quota_usage s -> quota_usage s + Z.of_nat (length data) <= u64_max -> file_size (fs_files (fs s)) path <= quota_usage s ->
       0 < effective_limit (quota_state s) -> data <> [] -> quota_usage s' <= effective_limit (quota_state s))
  | (Err _, s') => rolled_back s (upload_temp s (default data_dir (file_path data_dir within key))) s'
  end.
Proof.
  pose proof (put_object_spec data_dir within dir_len s key len checksum body now pr) as Hs.
  destruct (put_object _ _ _ _ _ _ _ _ _ s) as [[code|er] s']; [|done]. destruct Hs as (path & data & Hst). exists path, data. split; [done|].
  destruct Hst as [_ _ _ _ _ _ _ Hq Hu _ _]. intros H0 Hb Ho Hl Hne. specialize (Hq Hne).
  assert (Hsz : 0 <= file_size (fs_files (fs s)) path) by (unfold file_size; destruct (_ !! _); lia).
  rewrite usage_after_exact in Hu by lia. unfold over_quota in Hq.
  replace (u64_add (sat_sub (quota_usage s) (file_size (fs_files (fs s)) path)) (Z.of_nat (length data))) with (quota_usage s') in Hq;
    [|rewrite Hu; unfold sat_sub, u64_add, u64_wrap; unfold u64_max in Hb; rewrite Z.mod_small; lia].
  apply andb_false_iff in Hq as [?|?]; lia.
Qed.
End QuotaExact.

(** ** Examples *)

Definition sv_dir : Path := ["srv"].
Definition sv_none : Probe := mkProbe None None.
Definition sv_state (append : bool) (files : gmap Path bytes) (faults : list bool) : AppState :=
  mkApp append (mkFs files (list_to_set [["srv"]; ["srv"; "snapshots"]; []])) (dir_size sv_dir files) (mkQuota Explicit 100 true) None 0 0 faults.
Definition sv_files : gmap Path bytes := {[ ["srv"; "snapshots"; "a"] := [1; 2; 3]; ["srv"; "index"] := [7] ]}.

(** An overwrite, an upload that is cut off and a deletion, all refused or
    undone. *)
Definition sv_requests : list (Z * Probe * Request) :=
  (fun r => (0, sv_none, r)) <$>
    [Put "snapshots/a" None None [Ok [9]]; Put "index" None None [Ok [8; 8]]; Put "snapshots/b" None None [Ok [1]; Err IoOther];
     Delete "snapshots/a"; BatchDelete ["snapshots/a"] true].

Lemma append_only_safe_witness :
  protected ["snapshots"; "a"] /\
  exists data', fs_files (fs (serve sv_dir (fun _ => true) (fun _ => 0) sv_requests (sv_state true sv_files [false; true; false]))) !! (sv_dir ++ ["snapshots"; "a"]) = Some data' /\
    (data' = [1; 2; 3] \/ named_by sv_dir (sv_dir ++ ["snapshots"; "a"]) data').
Proof.
  assert (Hp : protected ["snapshots"; "a"]).
  { split; [done|]. split; [|done]. intros [H|[H|[H|[H|H]]]]; discriminate H. }
  split; [exact Hp|].
  apply (append_only_safe sv_dir (fun _ => true) (fun _ => 0) sv_requests (sv_state true sv_files [false; true; false])); [reflexivity|exact Hp|by_eval].
Defined.

Lemma quota_usage_exact_witness :
  let s' := serve sv_dir (fun _ => true) (fun _ => 0) sv_requests (sv_state false sv_files []) in
  quota_usage s' = dir_size sv_dir (fs_files (fs s')).
Proof.
  apply (quota_usage_exact sv_dir (fun _ => true) (fun _ => 0) sv_requests (sv_state false sv_files [])); [reflexivity|reflexivity| | |].
  - intros p Hp. assert (Hd : map_Forall (fun p _ => starts_with (file_name p) ".tmp." = false) sv_files) by by_eval.
    destruct Hp as [d Hp]. exact (Hd p d Hp).
  - vm_compute. discriminate.
  - unfold sv_requests. cbn [fmap list_fmap]. repeat (apply Forall_cons; split; [cbn [snd plain_request]; first [exact I | split; [discriminate|reflexivity]]|]). apply Forall_nil. exact I.
Defined.
