(* ===== verification/ServerRepack.v ===== *)
(** * Repacks and races of the server (crates/vykar-server/src/handlers/)

    What a repack does to the blobs it keeps, and two things the handlers do
    not promise: a counter that stays right over repacks, and an append-only
    mode that survives uploads running at the same time. *)

From stdpp Require Import pretty.
From S2P Require Import Prelude Types Protocol Pack ServerPath Server.
#[local] Open Scope string_scope.
#[local] Open Scope list_scope.
#[local] Open Scope Z_scope.

(** ** The new pack *)

Definition kept_blobs (source : bytes) (keep : list RepackBlobRef) : list bytes :=
  (fun b => slice (Z.to_nat (rb_offset b)) (Z.to_nat (rb_length b)) source) <$> keep.

(** A blob of the source, as its frames have it. *)
Definition framed (source : bytes) (b : RepackBlobRef) : Prop :=
  0 < rb_length b <= u32_max /\ 4 <= rb_offset b /\ rb_offset b + rb_length b <= Z.of_nat (length source) /\
  rb_offset b + rb_length b <= u64_max /\ le_value (slice (Z.to_nat (rb_offset b - 4)) 4 source) = rb_length b.

Lemma repack_blob_iff source b x : is_bytes source -> 0 <= rb_length b ->
  repack_blob source b = Some x <-> framed source b /\ x = slice (Z.to_nat (rb_offset b)) (Z.to_nat (rb_length b)) source.
Proof.
  intros Hs Hl. unfold repack_blob, framed.
  assert (Hp : 0 <= le_value (slice (Z.to_nat (rb_offset b - 4)) 4 source) <= u32_max).
  { pose proof (le_value_bound (slice (Z.to_nat (rb_offset b - 4)) 4 source) (Forall_slice _ _ _ _ Hs)) as Hv.
    assert (Hn : (length (slice (Z.to_nat (rb_offset b - 4)) 4 source) <= 4)%nat) by (unfold slice; rewrite length_take; lia).
    assert (256 ^ Z.of_nat (length (slice (Z.to_nat (rb_offset b - 4)) 4 source)) <= 256 ^ 4) by (apply Z.pow_le_mono_r; lia).
    unfold u32_max, u32_modulus in *. change (256 ^ 4) with 4294967296 in *. lia. }
  destruct (Z.eqb_spec (rb_length b) 0); [split; [done|lia]|].
  destruct (Z.ltb_spec u64_max (rb_offset b + rb_length b)); [split; [done|lia]|].
  destruct (Z.ltb_spec (Z.of_nat (length source)) (rb_offset b + rb_length b)); [split; [done|lia]|].
  destruct (Z.ltb_spec (rb_offset b) 4); [split; [done|lia]|].
  destruct (Z.eqb_spec (le_value (slice (Z.to_nat (rb_offset b - 4)) 4 source)) (rb_length b)) as [E|]; cbn [negb]; [|split; [done|lia]].
  split; [intros [= <-]; split; [lia|done]|]. by intros [_ ->].
Qed.

Lemma framed_length source b : framed source b ->
  length (slice (Z.to_nat (rb_offset b)) (Z.to_nat (rb_length b)) source) = Z.to_nat (rb_length b).
Proof. intros (H1 & H2 & H3 & _). apply length_slice. lia. Qed.

Lemma repack_blobs_iff source keep base out : is_bytes source -> Forall (fun b => 0 <= rb_length b) keep ->
  repack_blobs source keep base = Some out <->
  Forall (framed source) keep /\ out = (frames (kept_blobs source keep), (blob_ranges base (kept_blobs source keep)).*1).
Proof.
  intros Hs Hk. revert base out. induction Hk as [|b keep Hb Hk IH]; intros base out; cbn [repack_blobs].
  { split; [intros [= <-]; by split|]. by intros [_ ->]. }
  split.
  - intros Ho. destruct (repack_blob source b) as [x|] eqn:Hx; [|done]. apply repack_blob_iff in Hx as [Hf ->]; [|done..]. cbn in Ho.
    destruct (repack_blobs source keep _) as [rest|] eqn:Hr; [|done]. cbn in Ho. injection Ho as <-. apply IH in Hr as [Hfs ->].
    split; [by constructor|]. cbn [kept_blobs fmap list_fmap fst snd]. fold (kept_blobs source keep). rewrite frames_cons. unfold frame, blob_len.
    cbn [blob_ranges]. rewrite framed_length, Z2Nat.id by done. rewrite <- app_assoc. f_equal. cbn. do 3 f_equal. lia.
  - intros [Hf ->]. inversion Hf as [|? ? Hf1 Hf2]; subst.
    assert (Hx : repack_blob source b = Some (slice (Z.to_nat (rb_offset b)) (Z.to_nat (rb_length b)) source)) by (by apply repack_blob_iff).
    rewrite Hx. cbn [mbind option_bind]. rewrite (proj2 (IH _ _) (conj Hf2 eq_refl)). cbn [mbind option_bind fst snd].
    cbn [kept_blobs fmap list_fmap]. fold (kept_blobs source keep). rewrite frames_cons. unfold frame, blob_len.
    cbn [blob_ranges]. rewrite framed_length, Z2Nat.id by done. rewrite <- app_assoc. by rewrite Z.add_assoc.
Qed.

Lemma repack_data_iff source keep data offsets : is_bytes source -> Forall (fun b => 0 <= rb_length b) keep ->
  repack_data source keep = Some (data, offsets) <->
  Forall (framed source) keep /\ data = pack_of (kept_blobs source keep) /\ offsets = (blob_ranges 9 (kept_blobs source keep)).*1.
Proof.
  intros Hs Hk. unfold repack_data. split.
  - destruct (repack_blobs _ _ _) as [out|] eqn:Hr; [|done]. apply repack_blobs_iff in Hr as [Hf ->]; [|done..]. cbn. by intros [= <- <-].
  - intros (Hf & -> & ->). by rewrite (proj2 (repack_blobs_iff source keep _ _ Hs Hk) (conj Hf eq_refl)).
Qed.

(** The blobs a scan finds can be kept. *)
Lemma scanned_framed blobs off len :
  Forall fits blobs -> Z.of_nat (length (pack_of blobs)) <= u64_max -> (off, len) ∈ blob_ranges 9 blobs -> 0 < len ->
  framed (pack_of blobs) (mkRepackBlobRef off len).
Proof.
  intros Hf Hsz [i Hi]%list_elem_of_lookup Hl.
  assert (Hlen : forall base l, length (blob_ranges base l) = length l) by (intros base l; revert base; induction l; intros; cbn; auto).
  destruct (lookup_lt_is_Some_2 blobs i) as [b Hb]. { rewrite <- (Hlen 9). by apply lookup_lt_Some in Hi. }
  rewrite <- (take_drop_middle _ _ _ Hb) in *. set (bs1 := take i blobs) in *. set (bs2 := drop (S i) blobs) in *.
  assert (Hil : i = length bs1). { unfold bs1. rewrite length_take. apply lookup_lt_Some in Hb. lia. }
  rewrite Hil, blob_ranges_mid in Hi. injection Hi as <- <-. apply Forall_app in Hf as [_ Hf]. apply Forall_cons in Hf as [Hfb _].
  assert (Hsplit : pack_of (bs1 ++ b :: bs2) = (pack_header ++ frames bs1) ++ frame b ++ frames bs2).
  { unfold pack_of. rewrite frames_app, frames_cons. by rewrite !app_assoc. }
  assert (Hll : Z.of_nat (length (pack_of (bs1 ++ b :: bs2))) = 9 + Z.of_nat (length (frames bs1)) + 4 + Z.of_nat (length b) + Z.of_nat (length (frames bs2))).
  { rewrite Hsplit, !length_app, length_frame. change (length pack_header) with 9%nat. lia. }
  unfold framed. cbn [rb_offset rb_length]. unfold fits, u32_max in *. split_and!; [lia..|].
  replace (Z.to_nat (9 + Z.of_nat (length (frames bs1)) + 4 - 4)) with (length (pack_header ++ frames bs1))
    by (rewrite length_app; change (length pack_header) with 9%nat; lia).
  rewrite Hsplit, slice_app_skip by done. by apply frame_prefix.
Qed.

(** ** A repack *)

Section RepackOp.
Context `{Hhex : HexCodec} `{Hblake : Blake2b} (data_dir : Path) (within : Path -> bool) (dir_len : Path -> Z) (s0 : AppState).
#[local] Abbreviation m0 := (fs_files (fs s0)).

Definition same_beside (qs : list Path) (s : AppState) : Prop := forall q, q ∉ qs -> fs_files (fs s) !! q = m0 !! q.

Lemma same_but_beside temp s : same_but s0 temp (fs_files (fs s)) -> same_beside [temp] s.
Proof.
  unfold same_but. intros H q Hq. apply (f_equal (fun m => m !! q)) in H.
  rewrite !lookup_delete_ne in H by (intros ->; apply Hq; by constructor). done.
Qed.

(** What is left after the source was deleted, or its deletion failed. *)
Definition after_delete (path : Path) (m m' : gmap Path bytes) : Prop := m' = m \/ m' = delete path m.

Lemma delete_source_after path s : exists s', delete_source dir_len path s = (Ok tt, s') /\ after_delete path (fs_files (fs s)) (fs_files (fs s')).
Proof.
  unfold delete_source, mbind, SM_bind, os_read, os_write. pose proof (next_os_fs s) as H1. destruct (next_os s) as [f1 s1]. cbn in H1.
  pose proof (next_os_fs s1) as H2. destruct (next_os s1) as [[] s2]; cbn in H2; cbn.
  - eexists. split; [reflexivity|]. left. cbn. by rewrite H2, H1.
  - unfold fs_remove_file. destruct (fs_files (fs s2) !! path); eexists; (split; [reflexivity|]); cbn; rewrite H2, H1; [by right|by left].
Qed.

(** A repack that answered with success. *)
Record repacked (op : RepackOperationRequest) (source_path : Path) (source : bytes) (temp : Path) (res : RepackOperationResult) (s : AppState) : Prop := {
  rp_framed : exists offsets, repack_data source (keep_blobs op) = Some (pack_of (kept_blobs source (keep_blobs op)), offsets) /\ new_offsets res = offsets;
  rp_new : exists new_path, let data := pack_of (kept_blobs source (keep_blobs op)) in
    new_pack res = Some (pack_storage_key (pack_id_compute data)) /\
    file_path data_dir within (pack_storage_key (pack_id_compute data)) = Some new_path /\
    exists m, m = <[new_path := data]> (delete temp m0) /\
      (if delete_after op then after_delete source_path m (fs_files (fs s)) else fs_files (fs s) = m);
  rp_deleted : deleted res = delete_after op;
}.

Lemma or_drop_spec (temp : Path) (P Q : gmap Path bytes -> Prop) (r : result IoErr unit) :
  (forall m, P m -> same_but s0 temp m) ->
  striple (fun s => rest_same s0 s /\ match r with Ok _ => Q (fs_files (fs s)) | Err _ => P (fs_files (fs s)) end)
    (or_drop temp r) (fun _ s => rest_same s0 s /\ Q (fs_files (fs s))) (rolled_back s0 temp).
Proof.
  intros HP. destruct r as [[]|er]; [by apply striple_ret|]. intros s [Hr Hm]. apply (drop_rolls_back s0 temp EInternal). split; [done|]. by apply HP.
Qed.

Lemma holds_same temp d m : holds s0 temp d m -> same_but s0 temp m.
Proof. by intros []. Qed.

#[local] Abbreviation keeping P := (fun s => rest_same s0 s /\ P (fs_files (fs s))).

(** The part of an operation after the temporary file was created. *)
Lemma repack_write_spec op source_path source temp data offsets :
  is_bytes source -> Forall (fun b => 0 <= rb_length b) (keep_blobs op) -> repack_data source (keep_blobs op) = Some (data, offsets) ->
  striple (keeping (holds s0 temp []))
    (r ← os_write (fs_append temp data);
     _ ← or_drop temp r;
     match file_path data_dir within (pack_storage_key (pack_id_compute data)) with
     | None => drop_temp temp EInternal
     | Some new_pack_path =>
         r ← os_write (fs_create_dir_all (parent new_pack_path));
         _ ← or_drop temp r;
         r ← os_write (fs_rename temp new_pack_path);
         _ ← or_drop temp r;
         _ ← add_quota_usage (Z.of_nat (length data));
         _ ← (if delete_after op then delete_source dir_len source_path else mret tt);
         mret (mkRepackResult (source_pack op) (Some (pack_storage_key (pack_id_compute data))) offsets (delete_after op))
     end)
    (fun res s => repacked op source_path source temp res s) (rolled_back s0 temp).
Proof.
  intros Hb Hk Hd. pose proof (proj1 (repack_data_iff _ _ _ _ Hb Hk) Hd) as (Hf & Hdata & Hoff).
  eapply striple_bind.
  { apply (rest_write s0 (holds s0 temp []) (holds s0 temp data)). intros x y [Hx1 Hx2] _. unfold fs_append. rewrite Hx2. intros [= <-].
    cbn. split; [|done]. split; [|by rewrite lookup_insert_eq]. unfold same_but in *. by rewrite delete_insert_eq. }
  intros r. eapply striple_bind; [apply (or_drop_spec temp (holds s0 temp []) (holds s0 temp data)), holds_same|].
  intros []. destruct (file_path data_dir within _) as [new_path|] eqn:Hnew.
  2:{ intros s [Hr Hm]. apply (drop_rolls_back s0 temp EInternal). split; [done|]. by apply (holds_same temp data). }
  eapply striple_bind.
  { apply (rest_write s0 (holds s0 temp data) (holds s0 temp data)). intros x y Hx _. unfold fs_create_dir_all. destruct (_ || _); [done|].
    intros [= <-]. cbn. split; [done|]. set_solver. }
  intros r2. eapply striple_bind; [apply (or_drop_spec temp (holds s0 temp data) (holds s0 temp data)), holds_same|].
  intros []. eapply striple_bind.
  { apply (rest_write s0 (holds s0 temp data) (fun m => m = <[new_path := data]> (delete temp m0))). intros x y [Hx1 Hx2] _.
    unfold fs_rename. rewrite Hx2. destruct (is_dir x _); [done|]. destruct (is_dir x _); [|done]. intros [= <-]. cbn. by rewrite Hx1. }
  intros r3. apply (striple_bind _ _ (fun _ s => fs_files (fs s) = <[new_path := data]> (delete temp m0))).
  { intros s [Hr Hm]. destruct r3 as [[]|er]; [done|]. apply (drop_rolls_back s0 temp EInternal). split; [done|]. by destruct Hm. }
  intros [] s Hm. unfold mbind, SM_bind, add_quota_usage, mret, SM_ret. set (s1 := set_usage _ s).
  destruct (delete_source_after source_path s1) as (s2 & E2 & Hdel).
  assert (Hfin : forall s', (if delete_after op then after_delete source_path (fs_files (fs s)) (fs_files (fs s')) else fs_files (fs s') = fs_files (fs s)) ->
     repacked op source_path source temp (mkRepackResult (source_pack op) (Some (pack_storage_key (pack_id_compute data))) offsets (delete_after op)) s').
  { intros s' Hs'. constructor; cbn [new_offsets new_pack deleted]; [exists offsets; by rewrite <- Hdata| |done]. exists new_path. rewrite <- Hdata. split; [done|]. split; [done|].
    eexists. split; [reflexivity|]. rewrite <- Hm. done. }
  destruct (delete_after op); [rewrite E2|]; by apply Hfin.
Qed.

Lemma repack_op_spec op sp source :
  is_bytes source -> Forall (fun b => 0 <= rb_length b) (keep_blobs op) -> keep_blobs op <> [] ->
  file_path data_dir within (source_pack op) = Some sp -> m0 !! sp = Some source ->
  let temp := repack_temp sp (repack_temp_counter s0) in
  striple (fun s => s = s0) (repack_op data_dir within dir_len op) (fun res s => repacked op sp source temp res s) (rolled_back s0 temp).
Proof.
  intros Hb Hk Hne Hp Hs temp. unfold repack_op. rewrite Hp. destruct (keep_blobs op) as [|b0 keep0] eqn:Hkeep; [done|]. rewrite <- Hkeep in *. clear Hne.
  set (U := fun s => rest_same s0 s /\ fs_files (fs s) = m0 /\ repack_temp_counter s = repack_temp_counter s0).
  assert (HU : forall s, U s -> rolled_back s0 temp s).
  { intros s (H1 & H2 & _). split; [done|]. split; [by unfold same_but; rewrite H2|done]. }
  assert (Hnext : forall s, U s -> U (next_os s).2).
  { intros s (H1 & H2 & H3). split; [by apply rest_next|]. rewrite next_os_fs. split; [done|]. unfold next_os. by destruct (os_faults s). }
  apply (striple_weaken U _ _ (fun res s => repacked op sp source temp res s) _ (rolled_back s0 temp) _);
    [|intros s ->; split; [by split_and!|done]|done|done].
  apply striple_lift_bind; [|done]. intros path [= <-].
  apply (striple_bind _ _ (fun r s => U s /\ (forall d, r = Ok d -> d = source))).
  { intros s Hu. unfold os_read. specialize (Hnext s Hu). destruct (next_os s) as [[] s']; cbn in *; [done|]. split; [done|].
    intros d. unfold fs_read. destruct Hnext as (_ & -> & _). rewrite Hs. by intros [= <-]. }
  intros r. apply striple_pure. intros Hr. unfold internal. apply striple_lift_bind; [|done]. intros d Hd.
  assert (d = source) as ->. { destruct r as [d'|]; [|done]. injection Hd as <-. by apply Hr. }
  apply (striple_bind _ _ (fun _ => U)). { intros s Hu. unfold os_read. specialize (Hnext s Hu). by destruct (next_os s) as [[] s']. }
  intros r2. apply striple_lift_bind; [|done]. intros _ _.
  intros s (H1 & H2 & H3). unfold mbind at 1, SM_bind at 1, fetch_repack_temp. cbv zeta. rewrite H3. fold temp.
  set (s1 := mkApp _ _ _ _ _ _ _ _). assert (Hs1 : rest_same s0 s1 /\ fs_files (fs s1) = m0) by (by split). clearbody s1. revert s1 Hs1.
  eapply striple_bind.
  { apply (rest_write s0 (fun m => m = m0) (holds s0 temp [])). intros x y Hx _. unfold fs_create. destruct (is_dir x _); [done|].
    destruct (is_dir x _); [|done]. intros [= <-]. cbn. split; [|done]. rewrite Hx. split; [|by rewrite lookup_insert_eq].
    unfold same_but. by rewrite delete_insert_eq. }
  intros r3. apply (striple_bind _ _ (fun _ => keeping (holds s0 temp []))).
  { intros s1 [Hr1 Hm]. destruct r3 as [[]|er]; [done|]. cbn in Hm. cbn. split; [done|]. unfold same_but. by rewrite Hm. }
  intros []. destruct (repack_data source (keep_blobs op)) as [[data offsets]|] eqn:Hd'.
  - by apply repack_write_spec.
  - intros s1 [Hr1 Hm]. apply (drop_rolls_back s0 temp EInternal). split; [done|]. by apply (holds_same temp []).
Qed.

(** The blob at a new offset is the blob at the old one. *)
Lemma kept_at source keep i b off : Forall (framed source) keep -> keep !! i = Some b ->
  (blob_ranges 9 (kept_blobs source keep)).*1 !! i = Some off ->
  slice (Z.to_nat off) (Z.to_nat (rb_length b)) (pack_of (kept_blobs source keep)) = slice (Z.to_nat (rb_offset b)) (Z.to_nat (rb_length b)) source.
Proof.
  intros Hf Hb Ho. pose proof (Forall_lookup_1 _ _ _ _ Hf Hb) as Hfb. set (x := slice (Z.to_nat (rb_offset b)) (Z.to_nat (rb_length b)) source).
  assert (Hx : kept_blobs source keep !! i = Some x) by (unfold kept_blobs; rewrite list_lookup_fmap, Hb; done).
  set (blobs := kept_blobs source keep) in *. rewrite <- (take_drop_middle _ _ _ Hx) in *.
  assert (Hi : i = length (take i blobs)). { rewrite length_take. apply lookup_lt_Some in Hx. lia. }
  rewrite list_lookup_fmap in Ho. rewrite Hi in Ho at 1. rewrite blob_ranges_mid in Ho. injection Ho as <-.
  unfold pack_of. rewrite frames_app, frames_cons. unfold frame.
  replace (pack_header ++ frames (take i blobs) ++ (le_bytes 4 (blob_len x) ++ x) ++ frames (drop (S i) blobs))
    with ((pack_header ++ frames (take i blobs) ++ le_bytes 4 (blob_len x)) ++ x ++ frames (drop (S i) blobs)) by (by rewrite <- !app_assoc).
  apply slice_mid; [|by apply framed_length]. rewrite !length_app, length_le_bytes. change (length pack_header) with 9%nat. lia.
Qed.
End RepackOp.

Section RepackTheorem.
Context `{Hhex : HexCodec} `{Hblake : Blake2b} (data_dir : Path) (within : Path -> bool) (dir_len : Path -> Z).

(** C32. A repack loses nothing it was told to keep, whatever fails: when it
    answers with success, every blob of the plan was a framed blob of the
    source, the new pack, named by its hash, is a well-formed pack that
    holds those blobs in the order of the plan, at the offsets reported, and
    is stored (unless it is the source itself, that the plan deletes); no
    other file but the source, when the plan deletes it, has changed.  When
    it fails, no file has changed but possibly its temporary file. *)
Theorem repack_keeps_blobs s op sp source :
  is_bytes source -> Forall (fun b => 0 <= rb_length b) (keep_blobs op) -> keep_blobs op <> [] ->
  file_path data_dir within (source_pack op) = Some sp -> fs_files (fs s) !! sp = Some source ->
  let temp := repack_temp sp (repack_temp_counter s) in let kept := kept_blobs source (keep_blobs op) in
  match repack_op data_dir within dir_len op s with
  | (Ok res, s') =>
      Forall (framed source) (keep_blobs op) /\ new_offsets res = (blob_ranges 9 kept).*1 /\ Forall fits kept /\
      (forall i b off, keep_blobs op !! i = Some b -> new_offsets res !! i = Some off ->
         slice (Z.to_nat off) (Z.to_nat (rb_length b)) (pack_of kept) = slice (Z.to_nat (rb_offset b)) (Z.to_nat (rb_length b)) source) /\
      exists new_path, new_pack res = Some (pack_storage_key (pack_id_compute (pack_of kept))) /\
        file_path data_dir within (pack_storage_key (pack_id_compute (pack_of kept))) = Some new_path /\
        (delete_after op = false \/ new_path <> sp -> fs_files (fs s') !! new_path = Some (pack_of kept)) /\
        (forall q, q <> new_path -> q <> temp -> (delete_after op = true -> q <> sp) -> fs_files (fs s') !! q = fs_files (fs s) !! q)
  | (Err _, s') => forall q, q <> temp -> fs_files (fs s') !! q = fs_files (fs s) !! q
  end.
Proof.
  intros Hb Hk Hne Hp Hs temp kept. pose proof (repack_op_spec data_dir within dir_len s op sp source Hb Hk Hne Hp Hs s eq_refl) as H.
  destruct (repack_op data_dir within dir_len op s) as [[res|er] s'].
  2:{ destruct H as (_ & H & _). intros q Hq. apply (same_but_beside s temp s'); [done|]. by rewrite list_elem_of_singleton. }
  destruct H as [(offsets & Hd & Hoff) (new_path & Hnew & Hpath & m & Hm & Hfin) _].
  apply repack_data_iff in Hd as (Hf & _ & ->); [|done..]. fold kept in Hoff, Hnew, Hpath, Hm.
  split; [done|]. split; [done|]. split.
  { unfold kept, kept_blobs. apply Forall_fmap. eapply Forall_impl; [exact Hf|]. intros b Hfb. cbn. unfold fits.
    rewrite framed_length by done. destruct Hfb as (? & _). unfold u32_max in *. lia. }
  split; [intros i b off Hi Ho; rewrite Hoff in Ho; by apply (kept_at source (keep_blobs op) i)|].
  exists new_path. split; [done|]. split; [done|]. subst m. split.
  - intros Hor. destruct (delete_after op); [|by rewrite Hfin, lookup_insert_eq]. destruct Hor as [?|Hor]; [done|].
    destruct Hfin as [-> | ->]; [by rewrite lookup_insert_eq|]. by rewrite lookup_delete_ne, lookup_insert_eq.
  - intros q Hq1 Hq2 Hq3. assert (Hbase : <[new_path := pack_of kept]> (delete temp (fs_files (fs s))) !! q = fs_files (fs s) !! q)
      by (by rewrite lookup_insert_ne, lookup_delete_ne).
    destruct (delete_after op); [|by rewrite Hfin]. destruct Hfin as [-> | ->]; [done|]. rewrite lookup_delete_ne; [done|]. intros <-. by apply Hq3.
Qed.
End RepackTheorem.

(** ** Examples *)

Definition sr_blobs : list bytes := [[11; 12]; [13]].
Definition sr_pack : bytes := pack_of sr_blobs.
Definition sr_key : string := pack_storage_key (pack_id_compute sr_pack).
Definition sr_path : Path := sv_dir ++ parts_of sr_key.
Definition sr_state (append : bool) : AppState :=
  mkApp append (mkFs {[ sr_path := sr_pack ]} (list_to_set (ancestors sr_path ++ [["srv"; "snapshots"]]))) (dir_size sv_dir {[ sr_path := sr_pack ]})
    (mkQuota Explicit 100 true) None 0 0 [].
Definition sr_op (keep : list RepackBlobRef) (del : bool) : RepackOperationRequest := mkRepackOp sr_key keep del.
Definition sr_first : RepackBlobRef := mkRepackBlobRef 13 2.
Definition sr_second : RepackBlobRef := mkRepackBlobRef 19 1.
#[local] Abbreviation sr_run := (repack_op sv_dir (fun _ => true) (fun _ => 0)).

Lemma repack_keeps_blobs_witness :
  exists res, (sr_run (sr_op [sr_second] true) (sr_state false)).1 = Ok res /\ new_offsets res = [13] /\
    Forall (framed sr_pack) [sr_second].
Proof.
  assert (Hb : is_bytes sr_pack) by by_eval. assert (Hf : Forall (fun b => 0 <= rb_length b) [sr_second]) by (repeat constructor; cbn; lia).
  assert (Hp : file_path sv_dir (fun _ => true) sr_key = Some sr_path) by by_eval.
  assert (Hs : fs_files (fs (sr_state false)) !! sr_path = Some sr_pack) by by_eval.
  pose proof (repack_keeps_blobs sv_dir (fun _ => true) (fun _ => 0) (sr_state false) (sr_op [sr_second] true) sr_path sr_pack Hb Hf
    ltac:(discriminate) Hp Hs) as H. cbv zeta in H.
  assert (Hr : (sr_run (sr_op [sr_second] true) (sr_state false)).1 = Ok (mkRepackResult sr_key
    (Some (pack_storage_key (pack_id_compute (pack_of [[13]])))) [13] true)) by (vm_compute; reflexivity).
  destruct (sr_run (sr_op [sr_second] true) (sr_state false)) as [r s']. cbn [fst] in Hr. subst r. destruct H as (H1 & _).
  eexists. split; [reflexivity|]. split; [reflexivity|exact H1].
Defined.

(** A repack told to keep every blob of a pack, in order, and to delete the
    pack afterwards renames the new pack over the old one and then deletes
    it: the blobs are gone, and the answer names the deleted file. *)
Lemma repack_of_all_loses_pack :
  exists res s', sr_run (sr_op [sr_first; sr_second] true) (sr_state false) = (Ok res, s') /\
    new_pack res = Some sr_key /\ fs_files (fs s') !! sr_path = None.
Proof. eexists _, _. split; [vm_compute; reflexivity|]. split; by_eval. Qed.

(** A repack whose new pack is already there is counted again. *)
Lemma repack_counts_twice :
  let s' := (sr_run (sr_op [sr_first; sr_second] false) (sr_state false)).2 in
  quota_usage s' = 2 * dir_size sv_dir (fs_files (fs s')).
Proof. vm_compute. reflexivity. Qed.

(** Two uploads of one key that are both admitted before either is stored:
    in append-only mode, the second replaces the object of the first. *)
Definition race (s : AppState) (key : string) (a b : bytes) : option (bytes * bytes) :=
  let ask := put_admit sv_dir (fun _ => true) (fun _ => 0) key None None in
  match ask s with
  | (Ok up1, s) =>
      match ask s with
      | (Ok up2, s) =>
          match put_stream up1 [Ok a] s with
          | (Ok d1, s) =>
              match put_stream up2 [Ok b] s with
              | (Ok d2, s) =>
                  match put_commit up1 None d1 0 sv_none s with
                  | (Ok _, s1) =>
                      match put_commit up2 None d2 0 sv_none s1 with
                      | (Ok _, s2) => x ← fs_files (fs s1) !! up_path up1; y ← fs_files (fs s2) !! up_path up1; Some (x, y)
                      | _ => None
                      end
                  | _ => None
                  end
              | _ => None
              end
          | _ => None
          end
      | _ => None
      end
  | _ => None
  end.

Lemma append_only_race :
  append_only (sr_state true) = true /\ race (sr_state true) "snapshots/a" [1] [2] = Some ([1], [2]).
Proof. split; [reflexivity|]. by_eval. Qed.

(** A key of slashes only is the directory itself; the temporary file of its
    upload is written beside the directory, not in it. *)
Lemma upload_beside_data_dir :
  exists up s', put_admit sv_dir (fun _ => true) (fun _ => 0) "/" None None (sr_state false) = (Ok up, s') /\
    path_starts_with (up_temp up) sv_dir = false /\
    exists d s'', put_stream up [Ok [1]] s' = (Ok d, s'') /\ fs_files (fs s'') !! up_temp up = Some [1].
Proof.
  eexists _, _. split; [vm_compute; reflexivity|]. split; [reflexivity|]. eexists _, _. split; [vm_compute; reflexivity|]. by_eval.
Qed.

(** A pack key with a slash in front needs no checksum. *)
Lemma pack_without_checksum :
  let key := "/" +:+ sr_key in
  exists code s', put_object sv_dir (fun _ => true) (fun _ => 0) key None None [Ok [0]] 0 sv_none (sr_state false) = (Ok code, s') /\
    fs_files (fs s') !! sr_path = Some [0].
Proof. eexists _, _. split; [vm_compute; reflexivity|]. by_eval. Qed.
