(* ===== verification/ServerRead.v ===== *)
(** * The reading side of the server (crates/vykar-server/src/handlers/)

    Reads of objects and ranges (objects.rs) and the verification of packs in
    one pass (admin.rs).  A file is read in pieces whose sizes the system
    chooses; each of them may fail, and an empty one is the end. *)

From stdpp Require Import pretty.
From S2P Require Import Prelude Types Protocol Pack ServerPath Server.
#[local] Open Scope string_scope.
#[local] Open Scope list_scope.
#[local] Open Scope Z_scope.

(** ** Objects and ranges *)

(** An open file, and what its stream will deliver: nothing for a directory. *)
Definition fs_open (p : Path) (f : Fs) : result IoErr (option bytes) :=
  match fs_files f !! p with
  | Some data => Ok (Some data)
  | None => if is_dir f p then Ok None else Err (absent f p)
  end.

(** The body is streamed after the headers were sent: a read that fails then
    cuts it short, which is [None] here. *)
Record ReadResponse := mkReadResponse { rs_content_range : option string; rs_content_length : Z; rs_body : option bytes }.

Section Reads.
Context (data_dir : Path) (within : Path -> bool) (dir_len : Path -> Z).

Definition open_file (path : Path) : SM (option bytes * Z) :=
  r ← os_read (fs_open path);
  file ← io_try r;
  m ← os_read (fun f => Ok (match file with Some d => Z.of_nat (length d) | None => dir_len path end));
  file_len ← io_try m;
  mret (file, file_len).

Definition send (file : option bytes) (start length : Z) : SM (option bytes) :=
  r ← os_read (fun _ => Ok tt);
  mret (match r, file with Ok _, Some d => Some (slice (Z.to_nat start) (Z.to_nat length) d) | _, _ => None end).

Definition stream_full_read (path : Path) : SM ReadResponse :=
  x ← open_file path;
  body ← send x.1 0 x.2;
  mret (mkReadResponse None x.2 body).

Definition content_range (start end_ total : Z) : string :=
  "bytes " +:+ pretty (Z.to_N start) +:+ "-" +:+ pretty (Z.to_N end_) +:+ "/" +:+ pretty (Z.to_N total).

Definition parse_range (header : string) : result ServerError (Z * Z) :=
  match strip_prefix header "bytes=" with
  | None => Err (EBadRequest "invalid Range header")
  | Some range_str =>
      match split_on "-"%char range_str with
      | [a; b] =>
          match parse_u64 a, parse_u64 b with
          | None, _ => Err (EBadRequest "invalid range start")
          | _, None => Err (EBadRequest "invalid range end")
          | Some start, Some end_ =>
              if end_ <? start then Err (EBadRequest "invalid Range header: end before start")
              else if u64_max <? end_ - start + 1 then Err (EBadRequest "invalid Range header")
              else Ok (start, end_ - start + 1)
          end
      | _ => Err (EBadRequest "invalid Range header")
      end
  end.

Definition handle_range_read (path : Path) (header : string) : SM ReadResponse :=
  range ← slift (parse_range header);
  let '(start, length) := range in
  x ← open_file path;
  let '(file, file_len) := x in
  if file_len <=? start then sfail EInternal
  else
    r ← os_read (fun _ => Ok tt);
    _ ← io_try r;
    let to_read := Z.min length (file_len - start) in
    let actual_end := start + to_read - 1 in
    body ← send file start to_read;
    mret (mkReadResponse (Some (content_range start actual_end file_len)) to_read body).

Definition get_object (key : string) (range : option string) : SM ReadResponse :=
  path ← resolve data_dir within key;
  match range with
  | Some header => handle_range_read path header
  | None => stream_full_read path
  end.

(** The length, or [None] for status 404. *)
Definition head_object (key : string) : SM (option Z) :=
  path ← resolve data_dir within key;
  existing_size dir_len path.
End Reads.

(** ** Wire types *)

Record VerifyBlobRef := mkVerifyBlob { vb_offset : Z; vb_length : Z }.
Record VerifyPackRequest := mkVerifyPack { vp_pack_key : string; expected_size : Z; expected_blobs : list VerifyBlobRef }.
Record VerifyPacksPlanRequest := mkVerifyPlan { vp_packs : list VerifyPackRequest; vp_protocol_version : Z }.

Inductive VerifyError :=
  | InvalidPackPath | StatFailed | ReadFailed | ReadError | HashMismatch | InvalidHeader | BoundaryMismatch.
Record VerifyPackResult := mkVerifyResult {
  vr_pack_key : string;
  hash_valid : bool;
  header_valid : bool;
  blobs_valid : bool;
  vr_error : option VerifyError;
}.
Record VerifyPacksResponse := mkVerifyResponse { vr_results : list VerifyPackResult; truncated : bool }.

Definition MAX_VERIFY_PACKS : Z := 100.
Definition MAX_VERIFY_BYTES : Z := 2 * 1024 * 1024 * 1024.
Definition SKIP_BUF : Z := 8192.

(** ** The buffered reader, with the bytes the hasher has seen *)

Record Reader := mkReader { rd_buf : bytes; rd_src : list (result IoErr bytes); rd_hashed : bytes }.

(** [fill_buf]; an empty answer is the end of the file. *)
Definition fill_buf (rd : Reader) : result IoErr (bytes * Reader) :=
  match rd_buf rd with
  | [] =>
      match rd_src rd with
      | [] => Ok ([], rd)
      | Ok b :: src => Ok (b, mkReader b src (rd_hashed rd))
      | Err er :: _ => Err er
      end
  | b => Ok (b, rd)
  end.

(** [hasher.update(&avail[..n])] and [consume(n)]. *)
Definition consume (n : nat) (rd : Reader) : Reader :=
  mkReader (drop n (rd_buf rd)) (rd_src rd) (rd_hashed rd ++ take n (rd_buf rd)).

(** [read_exact_hashed]: up to [want] bytes; every turn of the loop takes one
    at least, so [want] turns are enough. *)
Fixpoint read_loop (fuel want : nat) (acc : bytes) (rd : Reader) : result IoErr (bytes * Reader) :=
  match fuel with
  | O => Ok (acc, rd)
  | S fuel =>
      match want with
      | O => Ok (acc, rd)
      | _ =>
          '(avail, rd) ← fill_buf rd;
          match avail with
          | [] => Ok (acc, rd)
          | _ => let n := Nat.min (length avail) want in read_loop fuel (want - n) (acc ++ take n avail) (consume n rd)
          end
      end
  end.
Definition read_exact_hashed (want : nat) (rd : Reader) : result IoErr (bytes * Reader) := read_loop want want [] rd.

(** The data of a blob, through a buffer of 8 KiB; answers what is missing. *)
Fixpoint skip_loop (fuel : nat) (blob_remaining : nat) (rd : Reader) : result IoErr (nat * Reader) :=
  match fuel with
  | O => Ok (blob_remaining, rd)
  | S fuel =>
      match blob_remaining with
      | O => Ok (O, rd)
      | _ =>
          '(got, rd) ← read_exact_hashed (Nat.min blob_remaining (Z.to_nat SKIP_BUF)) rd;
          match got with
          | [] => Ok (blob_remaining, rd)
          | _ => skip_loop fuel (blob_remaining - length got) rd
          end
      end
  end.

(** The scan of the frames: whether they are valid, the expected blobs not
    yet seen, and the reader.  Every turn moves [pos] by four at least. *)
Fixpoint scan_frames (fuel : nat) (file_len pos : Z) (remaining : gset (Z * Z)) (rd : Reader) : result IoErr (bool * gset (Z * Z) * Reader) :=
  match fuel with
  | O => Ok (false, remaining, rd)
  | S fuel =>
      if file_len <? u64_add pos 4 then Ok (pos =? file_len, remaining, rd)
      else
        '(len_buf, rd) ← read_exact_hashed 4 rd;
        if negb (length len_buf =? 4)%nat then Ok (false, remaining, rd)
        else
          let blob_len := le_value len_buf in
          let pos := u64_add pos 4 in
          if file_len <? u64_add pos blob_len then Ok (false, remaining, rd)
          else
            let remaining := remaining ∖ {[ (pos, blob_len) ]} in
            '(missing, rd) ← skip_loop (Z.to_nat blob_len) (Z.to_nat blob_len) rd;
            if negb (missing =? 0)%nat then Ok (false, remaining, rd)
            else scan_frames fuel file_len (u64_add pos blob_len) remaining rd
  end.

(** The rest of the file: the pieces, whether a read failed, and how many
    bytes there were. *)
Fixpoint drain_reads (src : list (result IoErr bytes)) (hashed : bytes) (extra : Z) : bytes * Z * option IoErr :=
  match src with
  | [] | Ok [] :: _ => (hashed, extra, None)
  | Ok b :: src' => drain_reads src' (hashed ++ b) (extra + Z.of_nat (length b))
  | Err er :: _ => (hashed, extra, Some er)
  end.
Definition drain_reader (rd : Reader) : bytes * Z * option IoErr :=
  match rd_buf rd with
  | [] => drain_reads (rd_src rd) (rd_hashed rd) 0
  | b => drain_reads (rd_src rd) (rd_hashed rd ++ b) (Z.of_nat (length b))
  end.

Definition expected_ranges (entry : VerifyPackRequest) : list (Z * Z) := (fun b => (vb_offset b, vb_length b)) <$> expected_blobs entry.
Definition expected_name (entry : VerifyPackRequest) : string := rsplit_next slash (vp_pack_key entry).

Section Verify.
Context `{Hhex : HexCodec} `{Hblake : Blake2b}.

Definition failed_result (key : string) (er : VerifyError) : VerifyPackResult := mkVerifyResult key false false false (Some er).

Definition valid_header (header : bytes) : bool :=
  (length header =? 9)%nat && bool_decide (take 8 header = PACK_MAGIC)
  && ((PACK_VERSION_MIN <=? nth 8 header 0) && (nth 8 header 0 <=? PACK_VERSION_MAX)).

Definition verify_pack_from_reader (reader : list (result IoErr bytes)) (file_len : Z) (entry : VerifyPackRequest) : VerifyPackResult :=
  let expected_hash := expected_name entry in
  let remaining : gset (Z * Z) := list_to_set (expected_ranges entry) in
  match
    ('(header, rd) ← read_exact_hashed 9 (mkReader [] reader []);
     if valid_header header then
       '(ok, remaining, rd) ← scan_frames (S (Z.to_nat file_len)) file_len (Z.of_nat PACK_HEADER_SIZE) remaining rd;
       Ok (true, ok && bool_decide (remaining = ∅), rd)
     else Ok (false, false, rd)) : result IoErr (bool * bool * Reader)
  with
  | Err _ => failed_result (vp_pack_key entry) ReadError
  | Ok (header_ok, blobs_ok, rd) =>
      let '(hashed, extra_bytes, drain_err) := drain_reader rd in
      let blobs_ok := blobs_ok && negb (header_ok && (0 <? extra_bytes)) in
      let hash_ok := String.eqb (hex_encode (blake2b hashed)) expected_hash in
      mkVerifyResult (vp_pack_key entry) hash_ok header_ok blobs_ok
        (match drain_err with
         | Some _ => Some ReadError
         | None => if negb hash_ok then Some HashMismatch else if negb header_ok then Some InvalidHeader
                   else if negb blobs_ok then Some BoundaryMismatch else None
         end)
  end.

(** ** Requests of several packs *)

Definition validate_verify_blobs (blobs : list VerifyBlobRef) : bool :=
  forallb (fun b => is_ok (validate_blob_ref (vb_offset b) (vb_length b))) blobs.

Fixpoint validate_verify_entries (packs : list VerifyPackRequest) (total_bytes : Z) : option Z :=
  match packs with
  | [] => Some total_bytes
  | entry :: packs' =>
      if negb (is_valid_pack_key (vp_pack_key entry)) then None
      else if expected_size entry =? 0 then None
      else if negb (validate_verify_blobs (expected_blobs entry)) then None
      else validate_verify_entries packs' (u64_sat_add total_bytes (expected_size entry))
  end.

Definition validate_verify_packs_plan (plan : VerifyPacksPlanRequest) : result ServerError unit :=
  if negb (is_ok (check_protocol_version (vp_protocol_version plan))) then Err (EBadRequest "protocol version")
  else if MAX_VERIFY_PACKS <? Z.of_nat (length (vp_packs plan)) then Err (EBadRequest "too many packs to verify")
  else match validate_verify_entries (vp_packs plan) 0 with
       | None => Err (EBadRequest "invalid pack")
       | Some total => if MAX_VERIFY_BYTES <? total then Err (EBadRequest "estimated verify I/O too large") else Ok tt
       end.

(** What the system answers for a path: its size, and its size and reads once
    it is open. *)
Context (data_dir : Path) (within : Path -> bool) (stat : Path -> result IoErr Z) (open : Path -> result IoErr (result IoErr Z * list (result IoErr bytes))).

Definition verify_single_pack (path : Path) (entry : VerifyPackRequest) : VerifyPackResult :=
  match open path with
  | Err _ => failed_result (vp_pack_key entry) ReadFailed
  | Ok (Err _, _) => failed_result (vp_pack_key entry) StatFailed
  | Ok (Ok file_len, reads) => verify_pack_from_reader reads file_len entry
  end.

Fixpoint verify_entries (packs : list VerifyPackRequest) (bytes_read : Z) : list VerifyPackResult * bool :=
  match packs with
  | [] => ([], false)
  | entry :: packs' =>
      match file_path data_dir within (vp_pack_key entry) with
      | None => let '(rs, t) := verify_entries packs' bytes_read in (failed_result (vp_pack_key entry) InvalidPackPath :: rs, t)
      | Some path =>
          match stat path with
          | Err _ => let '(rs, t) := verify_entries packs' bytes_read in (failed_result (vp_pack_key entry) StatFailed :: rs, t)
          | Ok file_size =>
              if MAX_VERIFY_BYTES <? u64_sat_add bytes_read file_size then ([], true)
              else let '(rs, t) := verify_entries packs' (u64_add bytes_read file_size) in (verify_single_pack path entry :: rs, t)
          end
      end
  end.

Definition execute_verify_packs (plan : VerifyPacksPlanRequest) : VerifyPacksResponse :=
  let '(rs, t) := verify_entries (vp_packs plan) 0 in mkVerifyResponse rs t.
End Verify.

(** ** What the reader does *)

Definition flat (src : list (result IoErr bytes)) : bytes := concat ((fun r => match r with Ok b => b | Err _ => [] end) <$> src).
Definition content (rd : Reader) : bytes := rd_buf rd ++ flat (rd_src rd).

(** Reads that deliver something until the end. *)
Definition calm (src : list (result IoErr bytes)) : Prop := Forall (fun r => exists b, r = Ok b /\ b <> []) src.

(** [rd'] is [rd] after [got] was read. *)
Definition advanced (rd : Reader) (got : bytes) (rd' : Reader) : Prop :=
  rd_hashed rd' = rd_hashed rd ++ got /\ content rd = got ++ content rd' /\ (calm (rd_src rd) -> calm (rd_src rd')).

Lemma advanced_nil rd : advanced rd [] rd.
Proof. unfold advanced. by rewrite app_nil_r. Qed.
Lemma advanced_trans rd a rd1 b rd2 : advanced rd a rd1 -> advanced rd1 b rd2 -> advanced rd (a ++ b) rd2.
Proof. intros (H1 & H2 & H3) (H4 & H5 & H6). split; [by rewrite H4, H1, app_assoc|]. split; [by rewrite H2, H5, app_assoc|]. auto. Qed.

Lemma fill_buf_advanced rd avail rd' : fill_buf rd = Ok (avail, rd') ->
  advanced rd [] rd' /\ rd_buf rd' = avail /\ (calm (rd_src rd) -> avail = [] -> content rd = []).
Proof.
  unfold fill_buf, advanced, content. destruct (rd_buf rd) as [|x buf] eqn:Hb.
  - destruct (rd_src rd) as [|[b|] src] eqn:Hs; [intros [= <- <-]; rewrite Hb, Hs; by rewrite app_nil_r| |done].
    intros [= <- <-]. cbn. rewrite app_nil_r. split; [split_and!; [done|done|by inversion 1]|]. split; [done|].
    intros Hc ->. apply Forall_cons in Hc as [(b' & E & Hne) _]. injection E as E. by subst.
  - intros [= <- <-]. rewrite Hb, app_nil_r. done.
Qed.

Lemma fill_buf_calm rd : calm (rd_src rd) -> is_ok (fill_buf rd) = true.
Proof.
  intros Hc. unfold fill_buf. destruct (rd_buf rd); [|done]. destruct (rd_src rd) as [|r src]; [done|].
  apply Forall_cons in Hc as [(b' & -> & _) _]. done.
Qed.

Lemma consume_advanced n rd : advanced rd (take n (rd_buf rd)) (consume n rd).
Proof. split; [done|]. split; [|done]. unfold content, consume. cbn. by rewrite app_assoc, take_drop. Qed.

Lemma read_loop_spec fuel want acc rd : (want <= fuel)%nat ->
  match read_loop fuel want acc rd with
  | Ok (out, rd') => exists got, out = acc ++ got /\ advanced rd got rd' /\ (length got <= want)%nat /\
      (calm (rd_src rd) -> (length got < want)%nat -> content rd' = [])
  | Err _ => ~ calm (rd_src rd)
  end.
Proof.
  revert want acc rd. induction fuel as [|fuel IH]; intros want acc rd Hf.
  { exists []. rewrite app_nil_r. split; [done|]. split; [apply advanced_nil|]. split; [cbn; lia|]. cbn. lia. }
  destruct want as [|want].
  { exists []. rewrite app_nil_r. split; [done|]. split; [apply advanced_nil|]. split; [cbn; lia|]. cbn. lia. }
  cbn [read_loop]. destruct (fill_buf rd) as [[avail rd1]|er] eqn:Hfill; cbn [mbind result_bind].
  2:{ intros Hc%fill_buf_calm. by rewrite Hfill in Hc. }
  apply fill_buf_advanced in Hfill as (Hadv & Hbuf & Hend). destruct avail as [|x avail].
  { exists []. rewrite app_nil_r. split; [done|]. split; [done|]. split; [cbn; lia|]. intros Hc _. destruct Hadv as (_ & E & _). cbn in E. rewrite <- E. by apply Hend. }
  set (n := Nat.min (length (x :: avail)) (S want)). assert (Hn : (1 <= n <= S want)%nat) by (unfold n; cbn [length]; lia).
  specialize (IH (S want - n)%nat (acc ++ take n (x :: avail)) (consume n rd1) ltac:(lia)).
  assert (Hadv' : advanced rd (take n (x :: avail)) (consume n rd1)).
  { rewrite <- Hbuf. apply (advanced_trans rd [] rd1); [done|]. apply consume_advanced. }
  assert (Hln : length (take n (x :: avail)) = n) by (rewrite length_take; unfold n; lia).
  destruct (read_loop fuel _ _ _) as [[out rd2]|er].
  - destruct IH as (got & -> & Hg & Hl & He). exists (take n (x :: avail) ++ got). split; [by rewrite app_assoc|].
    split; [by eapply advanced_trans|]. rewrite length_app, Hln. split; [lia|]. intros Hc Hlt. apply He; [|lia]. by apply Hadv'.
  - intros Hc. apply IH. by apply Hadv'.
Qed.

Lemma skip_loop_spec fuel want rd : (want <= fuel)%nat ->
  match skip_loop fuel want rd with
  | Ok (missing, rd') => exists got, advanced rd got rd' /\ (length got + missing = want)%nat /\ (calm (rd_src rd) -> (0 < missing)%nat -> content rd' = [])
  | Err _ => ~ calm (rd_src rd)
  end.
Proof.
  revert want rd. induction fuel as [|fuel IH]; intros want rd Hf.
  { exists []. split; [apply advanced_nil|]. cbn. split; [done|]. lia. }
  destruct want as [|want]. { exists []. split; [apply advanced_nil|]. cbn. split; [done|]. lia. }
  cbn [skip_loop]. unfold read_exact_hashed. set (k := Nat.min (S want) (Z.to_nat SKIP_BUF)).
  assert (Hk : (1 <= k <= S want)%nat) by (unfold k, SKIP_BUF; lia).
  pose proof (read_loop_spec k k [] rd ltac:(lia)) as Hr. destruct (read_loop k k [] rd) as [[got rd1]|er]; cbn [mbind result_bind]; [|done].
  destruct Hr as (got' & E & Hadv & Hl & He). cbn in E. subst got'. destruct got as [|x got].
  { exists []. split; [done|]. split; [done|]. intros Hc _. apply He; [done|cbn [length]; lia]. }
  specialize (IH (S want - length (x :: got))%nat rd1 ltac:(cbn [length]; lia)). destruct (skip_loop fuel _ rd1) as [[missing rd2]|er].
  - destruct IH as (got2 & Hadv2 & Hl2 & He2). exists ((x :: got) ++ got2). split; [by eapply advanced_trans|]. rewrite length_app. split; [lia|].
    intros Hc. apply He2. by apply Hadv.
  - intros Hc. apply IH. by apply Hadv.
Qed.

(** A prefix read from framed bytes. *)
Lemma frames_head blobs pre rest : Forall fits blobs -> frames blobs = pre ++ rest -> length pre = 4%nat ->
  exists b bs, blobs = b :: bs /\ le_value pre = Z.of_nat (length b) /\ rest = b ++ frames bs.
Proof.
  intros Hf E Hl. destruct blobs as [|b bs]; [destruct pre; discriminate|]. exists b, bs. split; [done|].
  apply Forall_cons in Hf as [Hb _]. rewrite frames_cons in E. pose proof (frame_prefix b (frames bs) Hb) as Hp.
  rewrite E, take_app_length' in Hp by done. split; [done|]. unfold frame in E. rewrite <- app_assoc in E.
  apply app_inj_1 in E as [_ ->]; [done|]. by rewrite length_le_bytes.
Qed.

Lemma frame_of_prefix pre b : is_bytes pre -> length pre = 4%nat -> le_value pre = Z.of_nat (length b) -> fits b /\ frame b = pre ++ b.
Proof.
  intros Hb Hl Hv. pose proof (le_value_bound pre Hb) as Hr. rewrite Hl in Hr. assert (Hfit : fits b).
  { unfold fits, u32_modulus. change (256 ^ Z.of_nat 4) with (2 ^ 32) in Hr. lia. }
  split; [done|]. unfold frame. rewrite blob_len_fits, <- Hv, <- Hl by done. by rewrite le_bytes_value.
Qed.

Lemma scan_frames_spec fuel len pos rem rd :
  0 <= pos <= len -> len < 2 ^ 63 -> len - pos < Z.of_nat fuel -> is_bytes (content rd) ->
  match scan_frames fuel len pos rem rd with
  | Ok (ok, rem', rd') => exists got, advanced rd got rd' /\
      (ok = true -> exists blobs, Forall fits blobs /\ got = frames blobs /\ rem' = rem ∖ list_to_set (blob_ranges pos blobs)) /\
      (calm (rd_src rd) -> forall blobs, Forall fits blobs -> content rd = frames blobs -> pos + Z.of_nat (length (frames blobs)) = len -> ok = true /\ content rd' = [])
  | Err _ => ~ calm (rd_src rd)
  end.
Proof.
  revert pos rem rd. induction fuel as [|fuel IH]; intros pos rem rd Hpos Hlen Hfuel Hb; [lia|]. cbn [scan_frames].
  assert (Hwrap : forall a b, 0 <= a <= len + 4 -> 0 <= b < 2 ^ 32 -> u64_add a b = a + b).
  { intros a b Ha Hb'. unfold u64_add, u64_wrap, u64_modulus. apply Z.mod_small. lia. }
  rewrite (Hwrap pos 4) by lia. destruct (Z.ltb_spec len (pos + 4)) as [Hend|Hmore].
  { exists []. split; [apply advanced_nil|]. split.
    - intros ->%Z.eqb_eq. exists []. split; [done|]. split; [done|]. cbn. set_solver.
    - intros _ blobs Hf Hc Hl. destruct blobs as [|b bs]; [|rewrite frames_cons, length_app, length_frame in Hl; lia].
      cbn in Hl. split; [apply Z.eqb_eq; lia|done]. }
  unfold read_exact_hashed. pose proof (read_loop_spec 4 4 [] rd ltac:(lia)) as Hr.
  destruct (read_loop 4 4 [] rd) as [[pre rd1]|er]; cbn [mbind result_bind]; [|done]. destruct Hr as (got & E & Hadv & Hl & He). cbn in E. subst got.
  pose proof Hadv as (_ & Hcont & Hcalm). rewrite Hcont in Hb. apply Forall_app in Hb as [Hpre Hb1].
  destruct (Nat.eqb_spec (length pre) 4) as [Hl4|Hl4]; cbn [negb].
  2:{ exists pre. split; [done|]. split; [done|]. intros Hc blobs Hf Hcb Hlb. exfalso. rewrite <- Hcb, Hcont, He, app_nil_r in Hlb by (done || lia). lia. }
  pose proof (le_value_bound pre Hpre) as Hv. rewrite Hl4 in Hv. change (256 ^ Z.of_nat 4) with (2 ^ 32) in Hv.
  cbv zeta. set (n := le_value pre) in *. rewrite (Hwrap (pos + 4) n) by lia.
  destruct (Z.ltb_spec len (pos + 4 + n)) as [Hbig|Hfit].
  { exists pre. split; [done|]. split; [done|]. intros Hc blobs Hf Hcb Hlb. exfalso. rewrite Hcb in Hcont.
    destruct (frames_head blobs pre _ Hf Hcont Hl4) as (b & bs & -> & Hvb & Hrest). rewrite frames_cons, length_app, length_frame in Hlb. unfold n in *. lia. }
  pose proof (skip_loop_spec (Z.to_nat n) (Z.to_nat n) rd1 ltac:(lia)) as Hs.
  destruct (skip_loop _ _ rd1) as [[missing rd2]|er]; cbn [mbind result_bind]; [|by intros Hc%Hcalm].
  destruct Hs as (blob & Hadv2 & Hl2 & He2). pose proof Hadv2 as (_ & Hcont2 & Hcalm2). rewrite Hcont2 in Hb1. apply Forall_app in Hb1 as [Hbb Hb2].
  destruct (Nat.eqb_spec missing 0) as [->|Hm]; cbn [negb].
  2:{ exists (pre ++ blob). split; [by eapply advanced_trans|]. split; [done|]. intros Hc blobs Hf Hcb Hlb. exfalso. rewrite <- Hcb, Hcont, Hcont2 in Hlb.
      rewrite He2, app_nil_r, length_app in Hlb by (auto || lia). lia. }
  assert (Hnb : n = Z.of_nat (length blob)) by lia. destruct (frame_of_prefix pre blob Hpre Hl4 Hnb) as [Hfb Hframe].
  specialize (IH (pos + 4 + n) (rem ∖ {[(pos + 4, n)]}) rd2 ltac:(lia) Hlen ltac:(lia) Hb2).
  destruct (scan_frames fuel _ _ _ rd2) as [[[ok rem'] rd3]|er]; [|by intros Hc%Hcalm%Hcalm2].
  destruct IH as (got & Hadv3 & Hsound & Hcomp). exists (pre ++ blob ++ got). split; [rewrite app_assoc; eapply advanced_trans; [by eapply advanced_trans|done]|]. split.
  - intros (blobs & Hf & -> & ->)%Hsound. exists (blob :: blobs). split; [by constructor|]. split; [by rewrite frames_cons, Hframe, app_assoc|].
    cbn [blob_ranges list_to_set]. rewrite Hnb. set_solver.
  - intros Hc blobs Hf Hcb Hlb. rewrite Hcb in Hcont. destruct (frames_head blobs pre _ Hf Hcont Hl4) as (b & bs & -> & Hvb & Hrest).
    assert (Hbl : length blob = length b) by (unfold n in *; lia). rewrite Hcont2 in Hrest. apply app_inj_1 in Hrest as [-> Hr2]; [|done].
    apply (Hcomp ltac:(auto) bs); [by apply Forall_cons in Hf as [_ ?]|done|]. rewrite frames_cons, length_app, length_frame in Hlb. lia.
Qed.

Lemma drain_spec src hashed extra : exists got, (drain_reads src hashed extra).1 = (hashed ++ got, extra + Z.of_nat (length got)) /\
  (exists rest, flat src = got ++ rest) /\ (calm src -> (drain_reads src hashed extra).2 = None /\ got = flat src).
Proof.
  revert hashed extra. induction src as [|r src IH]; intros hashed extra.
  { exists []. cbn. rewrite app_nil_r, Z.add_0_r. split; [done|]. split; [by exists []|done]. }
  destruct r as [[|x b]|er]; cbn [drain_reads].
  - exists []. cbn. rewrite app_nil_r, Z.add_0_r. split; [done|]. split; [by exists (flat src)|].
    intros Hc. apply Forall_cons in Hc as [(b' & E & Hne) _]. injection E as E. by subst.
  - destruct (IH (hashed ++ x :: b) (extra + Z.of_nat (length (x :: b)))) as (got & E & (rest & Hr) & Hc). exists ((x :: b) ++ got).
    split; [rewrite E, length_app, <- app_assoc; f_equal; lia|]. change (flat (Ok (x :: b) :: src)) with ((x :: b) ++ flat src).
    split; [exists rest; by rewrite Hr, app_assoc|]. intros [_ Hcs]%Forall_cons. destruct (Hc Hcs) as [-> ->]. done.
  - exists []. cbn. rewrite app_nil_r, Z.add_0_r. split; [done|]. split; [by exists (flat src)|].
    intros Hc. by apply Forall_cons in Hc as [(b' & E & _) _].
Qed.

Lemma drain_reader_spec rd : exists got, (drain_reader rd).1 = (rd_hashed rd ++ got, Z.of_nat (length got)) /\
  (exists rest, content rd = got ++ rest) /\ (calm (rd_src rd) -> (drain_reader rd).2 = None /\ got = content rd).
Proof.
  unfold drain_reader, content. destruct (rd_buf rd) as [|x b].
  - destruct (drain_spec (rd_src rd) (rd_hashed rd) 0) as (got & E & H). exists got. by rewrite E.
  - destruct (drain_spec (rd_src rd) (rd_hashed rd ++ x :: b) (Z.of_nat (length (x :: b)))) as (got & E & (rest & Hr) & Hc). exists ((x :: b) ++ got).
    split; [rewrite E, length_app, <- app_assoc; f_equal; lia|]. split; [exists rest; by rewrite Hr, app_assoc|].
    intros Hcs. destruct (Hc Hcs) as [-> ->]. done.
Qed.

Section VerifySpec.
Context `{Hhex : HexCodec} `{Hblake : Blake2b}.

(** The verdict on a file in memory, by the scan the clients use. *)
Definition verify_spec (file : bytes) (entry : VerifyPackRequest) : VerifyPackResult :=
  let hash_ok := String.eqb (hex_encode (blake2b file)) (expected_name entry) in
  let header_ok := valid_header (take 9 file) in
  let blobs_ok := match scan_pack_blobs_bytes file with
                  | Ok ranges => bool_decide (Forall (fun r => r ∈ ranges) (expected_ranges entry))
                  | Err _ => false
                  end in
  mkVerifyResult (vp_pack_key entry) hash_ok header_ok blobs_ok
    (if negb hash_ok then Some HashMismatch else if negb header_ok then Some InvalidHeader else if negb blobs_ok then Some BoundaryMismatch else None).

Lemma valid_header_iff h : valid_header h = true <-> h = pack_header.
Proof.
  unfold valid_header, pack_header. rewrite !andb_true_iff, Nat.eqb_eq, bool_decide_eq_true, !Z.leb_le.
  unfold PACK_VERSION_MIN, PACK_VERSION_MAX, PACK_VERSION_CURRENT. split.
  - intros ((Hl & Hm) & H1 & H2). do 9 (destruct h as [|? h]; [discriminate|]). destruct h; [|discriminate].
    cbn in Hm, H1, H2. rewrite <- Hm. cbn. do 8 f_equal. f_equal. lia.
  - intros ->. cbn. split; [done|lia].
Qed.

Lemma pack_of_header blobs : take 9 (pack_of blobs) = pack_header.
Proof. unfold pack_of. by rewrite take_app_length'. Qed.

(** The expected blobs that are left over. *)
Lemma remaining_empty (l ranges : list (Z * Z)) :
  (list_to_set l : gset (Z * Z)) ∖ list_to_set ranges = ∅ <-> Forall (fun r => r ∈ ranges) l.
Proof.
  rewrite Forall_forall. split.
  - intros H r Hr. destruct (decide (r ∈ ranges)) as [|Hn]; [done|]. exfalso. assert (r ∈ (∅ : gset (Z * Z))) as []%elem_of_empty.
    rewrite <- H. apply elem_of_difference. by rewrite !elem_of_list_to_set.
  - intros H. apply set_eq. intros r. rewrite elem_of_difference, !elem_of_list_to_set. set_solver.
Qed.

(** What the reads up to the drain_reads have established. *)
Lemma verify_scan_spec reads file_len entry : is_bytes (flat reads) -> 0 <= file_len < 2 ^ 63 ->
  let start := mkReader [] reads [] in
  match
    ('(header, rd) ← read_exact_hashed 9 start;
     if valid_header header then
       '(ok, remaining, rd) ← scan_frames (S (Z.to_nat file_len)) file_len (Z.of_nat PACK_HEADER_SIZE) (list_to_set (expected_ranges entry)) rd;
       Ok (true, ok && bool_decide (remaining = ∅), rd)
     else Ok (false, false, rd)) : result IoErr (bool * bool * Reader)
  with
  | Ok (header_ok, blobs_ok, rd) => exists got, advanced start got rd /\
      (blobs_ok = true -> header_ok = true /\ exists blobs, Forall fits blobs /\ got = pack_of blobs /\ Forall (fun r => r ∈ blob_ranges 9 blobs) (expected_ranges entry)) /\
      (calm reads -> file_len = Z.of_nat (length (flat reads)) -> header_ok = valid_header (take 9 (flat reads)) /\
         forall blobs, Forall fits blobs -> flat reads = pack_of blobs -> Forall (fun r => r ∈ blob_ranges 9 blobs) (expected_ranges entry) ->
           blobs_ok = true /\ content rd = [])
  | Err _ => ~ calm reads
  end.
Proof.
  intros Hb Hlen start. unfold read_exact_hashed. pose proof (read_loop_spec 9 9 [] start ltac:(lia)) as Hr.
  destruct (read_loop 9 9 [] start) as [[header rd]|er]; cbn [mbind result_bind]; [|done].
  destruct Hr as (got & E & Hadv & Hl & He). cbn in E. subst got. pose proof Hadv as (Hh & Hcont & Hcalm). change (flat reads = header ++ content rd) in Hcont.
  assert (Htake : calm reads -> take 9 (flat reads) = header).
  { intros Hc. rewrite Hcont. destruct (decide (length header = 9%nat)) as [H9|H9]; [by rewrite take_app_length'|].
    rewrite He by (done || lia). rewrite app_nil_r, take_ge; [done|]. lia. }
  destruct (valid_header header) eqn:Hv.
  2:{ exists header. split; [done|]. split; [done|]. intros Hc _. rewrite Htake by done. split; [done|]. intros blobs _ E. rewrite <- Htake, E, pack_of_header in Hv by done.
      by rewrite (proj2 (valid_header_iff _) eq_refl) in Hv. }
  apply valid_header_iff in Hv. change (Z.of_nat PACK_HEADER_SIZE) with 9. destruct (decide (file_len < 9)) as [Hs|Hs].
  { cbn [scan_frames]. change (u64_add 9 4) with 13. destruct (Z.ltb_spec file_len 13); [|lia]. cbn [mbind result_bind].
    destruct (Z.eqb_spec 9 file_len); [lia|]. exists header. split; [done|]. split; [done|]. intros Hc Hfl. exfalso.
    rewrite Hcont, Hv, length_app in Hfl. change (length pack_header) with 9%nat in Hfl. lia. }
  rewrite Hcont in Hb. apply Forall_app in Hb as [_ Hb].
  pose proof (scan_frames_spec (S (Z.to_nat file_len)) file_len 9 (list_to_set (expected_ranges entry)) rd ltac:(lia) ltac:(lia) ltac:(lia) Hb) as Hsc.
  destruct (scan_frames _ _ _ _ rd) as [[[ok rem] rd2]|er]; cbn [mbind result_bind]; [|by intros Hc%Hcalm].
  destruct Hsc as (got & Hadv2 & Hsound & Hcomp). exists (header ++ got). split; [by eapply advanced_trans|]. split.
  - intros [-> Hrem%bool_decide_eq_true]%andb_true_iff. split; [done|]. destruct (Hsound eq_refl) as (blobs & Hf & -> & ->). exists blobs. split; [done|].
    split; [by rewrite Hv|]. by apply remaining_empty.
  - intros Hc Hfl. rewrite Htake by done. split; [symmetry; by apply valid_header_iff|]. intros blobs Hf Hpk Hexp.
    unfold pack_of in Hpk. rewrite Hcont, Hv in Hpk. apply app_inv_head in Hpk.
    destruct (Hcomp ltac:(auto) blobs Hf Hpk) as [-> Hend].
    { rewrite Hfl, Hcont, Hv, length_app, Hpk. change (length pack_header) with 9%nat. lia. }
    split; [|done]. cbn [andb]. destruct (Hsound eq_refl) as (blobs' & Hf' & -> & ->). apply bool_decide_eq_true, remaining_empty.
    destruct Hadv2 as (_ & E2 & _). rewrite Hend, app_nil_r, Hpk in E2.
    assert (Hr : blob_ranges 9 blobs' = blob_ranges 9 blobs).
    { pose proof (scan_pack_of blobs Hf) as S1. pose proof (scan_pack_of blobs' Hf') as S2. unfold pack_of in *. rewrite E2, S2 in S1. by injection S1. }
    by rewrite Hr.
Qed.

(** A verdict without error is to be trusted, whatever the reads do: they
    may be split anywhere, end early, or deliver more than the file was said
    to hold.  The bytes that were read form a well-formed pack whose hash is
    the name in the key, and every blob the client expects lies in it where
    the client expects it. *)
Theorem verify_sound reads file_len entry : is_bytes (flat reads) -> 0 <= file_len < 2 ^ 63 ->
  vr_error (verify_pack_from_reader reads file_len entry) = None ->
  exists blobs rest, Forall fits blobs /\ flat reads = pack_of blobs ++ rest /\
    hex_encode (blake2b (pack_of blobs)) = expected_name entry /\ Forall (fun r => r ∈ blob_ranges 9 blobs) (expected_ranges entry).
Proof.
  intros Hb Hlen. pose proof (verify_scan_spec reads file_len entry Hb Hlen) as Hs. cbv zeta in Hs. unfold verify_pack_from_reader. cbv zeta.
  destruct (mbind _ _) as [[[header_ok blobs_ok] rd]|er]; [|done]. destruct Hs as (got & Hadv & Hsound & _).
  destruct (drain_reader_spec rd) as (more & Hd & (rest & Hrest) & _). destruct (drain_reader rd) as [[hashed extra] err]. cbn in Hd. injection Hd as -> ->.
  cbn [vr_error]. destruct err; [done|]. destruct (String.eqb_spec (hex_encode (blake2b (rd_hashed rd ++ more))) (expected_name entry)) as [Hh|]; [|done].
  destruct header_ok; [|done]. cbn [negb andb]. destruct blobs_ok; [|done]. cbn [andb]. destruct (Z.ltb_spec 0 (Z.of_nat (length more))) as [|Hm]; [done|]. intros _.
  destruct more; [|cbn in Hm; lia]. destruct (Hsound eq_refl) as (_ & blobs & Hf & -> & Hexp). exists blobs, (content rd).
  destruct Hadv as (H1 & H2 & _). cbn in H1. rewrite app_nil_r, H1 in Hh. split; [done|]. split; [exact H2|done].
Qed.

(** The verification in one pass, over reads split in any way, gives
    exactly the verdict of hashing and scanning the file in memory: the three
    flags and the error agree, for well-formed and for damaged files. *)
Theorem verify_equals_scan reads entry : is_bytes (flat reads) -> calm reads -> Z.of_nat (length (flat reads)) < 2 ^ 63 ->
  verify_pack_from_reader reads (Z.of_nat (length (flat reads))) entry = verify_spec (flat reads) entry.
Proof.
  intros Hb Hc Hlen. pose proof (verify_scan_spec reads (Z.of_nat (length (flat reads))) entry Hb ltac:(lia)) as Hs. cbv zeta in Hs.
  unfold verify_pack_from_reader, verify_spec. cbv zeta.
  destruct (mbind _ _) as [[[header_ok blobs_ok] rd]|er]; [|done]. destruct Hs as (got & Hadv & Hsound & Hcomp). destruct (Hcomp Hc eq_refl) as [-> Hfull].
  pose proof Hadv as (H1 & H2 & H3). change (flat reads = got ++ content rd) in H2. cbn in H1.
  destruct (drain_reader_spec rd) as (more & Hd & _ & Hcd). destruct (Hcd (H3 Hc)) as [Hnone Hmore]. destruct (drain_reader rd) as [[hashed extra] err].
  cbn in Hd, Hnone. injection Hd as -> ->. subst err. assert (Hall : rd_hashed rd ++ more = flat reads) by (rewrite H1, Hmore; by symmetry). rewrite Hall.
  assert (Hbl : blobs_ok && negb (valid_header (take 9 (flat reads)) && (0 <? Z.of_nat (length more))) =
    match scan_pack_blobs_bytes (flat reads) with Ok ranges => bool_decide (Forall (fun r => r ∈ ranges) (expected_ranges entry)) | Err _ => false end).
  { apply eq_true_iff_eq. rewrite andb_true_iff, negb_true_iff. split.
    - intros [Hok Hx]. destruct (Hsound Hok) as (Hh & blobs & Hf & -> & Hexp). rewrite Hh in Hx. cbn [andb] in Hx. apply Z.ltb_ge in Hx.
      destruct more; [|cbn in Hx; lia]. rewrite <- Hmore, app_nil_r in H2. rewrite H2, scan_pack_of by done. by apply bool_decide_eq_true.
    - destruct (scan_pack_blobs_bytes (flat reads)) as [ranges|] eqn:Hsc; [|done]. intros Hexp%bool_decide_eq_true.
      apply scan_pack_inv in Hsc as (blobs & Hf & Hpk & ->); [|done]. destruct (Hfull blobs Hf Hpk Hexp) as [-> Hend]. split; [done|].
      rewrite Hmore, Hend. by destruct (valid_header _). }
  rewrite Hbl. done.
Qed.
End VerifySpec.

(** ** Numbers in headers *)

Lemma digit_value_pretty d : (d < 10)%N -> digit_value (pretty_N_char d) = Some (Z.of_N d).
Proof.
  intros Hd. assert (Hin : d ∈ [0; 1; 2; 3; 4; 5; 6; 7; 8; 9]%N) by (rewrite !elem_of_cons; lia).
  clear Hd. revert d Hin. apply Forall_forall. repeat constructor.
Qed.

Lemma parse_digits_pretty x s : parse_digits 0 (pretty_N_go x s) = parse_digits (Z.of_N x) s.
Proof.
  revert s. induction (N.lt_wf_0 x) as [x _ IH]. intros s. destruct (decide (x = 0%N)) as [->|Hx]; [by rewrite pretty_N_go_0|].
  rewrite pretty_N_go_step by lia. rewrite IH by (apply N.div_lt; lia). cbn [parse_digits].
  rewrite digit_value_pretty by (apply N.mod_lt; lia). cbn [mbind option_bind]. f_equal.
  rewrite (N.div_mod x 10) at 3 by lia. lia.
Qed.

Lemma parse_u64_pretty n : 0 <= n <= u64_max -> parse_u64 (pretty (Z.to_N n)) = Some n.
Proof.
  intros Hn. unfold parse_u64. unfold pretty, pretty_N. destruct (decide (Z.to_N n = 0%N)) as [H0|H0].
  { assert (n = 0) as -> by lia. reflexivity. }
  pose proof (parse_digits_pretty (Z.to_N n) "") as Hp. cbn [parse_digits] in Hp. rewrite Z2N.id in Hp by lia.
  destruct (pretty_N_go (Z.to_N n) "") as [|a s] eqn:Hs; [injection Hp as <-; done|].
  assert (Ha : a <> "+"%char) by (intros ->; discriminate Hp).
  assert (Hstrip : (match String a s with String "+" s' => s' | _ => String a s end) = String a s).
  { destruct a as [[] [] [] [] [] [] [] []]; try reflexivity. by destruct Ha. }
  rewrite Hstrip, Hp. cbn [mbind option_bind]. by rewrite (proj2 (Z.leb_le n u64_max)) by lia.
Qed.

(** ** Requests of several packs *)

Section VerifyPlans.
Context `{Hhex : HexCodec} `{Hblake : Blake2b} (data_dir : Path) (within : Path -> bool).
Context (stat : Path -> result IoErr Z) (open : Path -> result IoErr (result IoErr Z * list (result IoErr bytes))).

(** The bytes a pack costs: its size, when it can be found. *)
Definition pack_cost (entry : VerifyPackRequest) : Z :=
  match file_path data_dir within (vp_pack_key entry) with
  | None => 0
  | Some path => match stat path with Ok n => n | Err _ => 0 end
  end.
Definition total_cost (entries : list VerifyPackRequest) : Z := fold_right (fun e acc => pack_cost e + acc) 0 entries.

Lemma verify_entries_spec packs read : (forall p n, stat p = Ok n -> 0 <= n <= u64_max) -> 0 <= read <= MAX_VERIFY_BYTES ->
  let '(rs, t) := verify_entries data_dir within stat open packs read in
  vr_pack_key <$> rs = vp_pack_key <$> take (length rs) packs /\ read + total_cost (take (length rs) packs) <= MAX_VERIFY_BYTES /\
  (if (t : bool) then exists e rest, drop (length rs) packs = e :: rest /\ MAX_VERIFY_BYTES < read + total_cost (take (length rs) packs) + pack_cost e
   else length rs = length packs) /\
  Forall2 (fun r e => vr_error r = None -> exists path, file_path data_dir within (vp_pack_key e) = Some path /\ r = verify_single_pack open path e)
    rs (take (length rs) packs).
Proof.
  intros Hst. revert read. induction packs as [|e packs IH]; intros read Hr; cbn [verify_entries]; [cbn; split_and!; (done || lia || constructor)|].
  assert (Hcost : pack_cost e = match file_path data_dir within (vp_pack_key e) with None => 0 | Some path => match stat path with Ok n => n | Err _ => 0 end end) by done.
  assert (Hstep : forall r c, pack_cost e = c -> 0 <= read + c <= MAX_VERIFY_BYTES -> vr_pack_key r = vp_pack_key e ->
    (vr_error r = None -> exists path, file_path data_dir within (vp_pack_key e) = Some path /\ r = verify_single_pack open path e) ->
    let '(rs, t) := (let '(rs, t) := verify_entries data_dir within stat open packs (read + c) in (r :: rs, t)) in
    vr_pack_key <$> rs = vp_pack_key <$> take (length rs) (e :: packs) /\ read + total_cost (take (length rs) (e :: packs)) <= MAX_VERIFY_BYTES /\
    (if (t : bool) then exists e' rest, drop (length rs) (e :: packs) = e' :: rest /\ MAX_VERIFY_BYTES < read + total_cost (take (length rs) (e :: packs)) + pack_cost e'
     else length rs = length (e :: packs)) /\
    Forall2 (fun r e => vr_error r = None -> exists path, file_path data_dir within (vp_pack_key e) = Some path /\ r = verify_single_pack open path e)
      rs (take (length rs) (e :: packs))).
  { intros r c Hc Hrc Hk He. specialize (IH (read + c) Hrc). destruct (verify_entries _ _ _ _ packs _) as [rs t]. destruct IH as (H1 & H2 & H3 & H4).
    cbn [length take fmap list_fmap drop]. rewrite Hk. split; [by f_equal|]. unfold total_cost in *. cbn [fold_right]. split; [lia|].
    split; [|by constructor]. destruct t; [|by f_equal]. destruct H3 as (e' & rest & E & Hlt). exists e', rest. split; [done|lia]. }
  destruct (file_path data_dir within (vp_pack_key e)) as [path|] eqn:Hp.
  2:{ specialize (Hstep (failed_result (vp_pack_key e) InvalidPackPath) 0 Hcost ltac:(lia) eq_refl ltac:(done)). by rewrite Z.add_0_r in Hstep. }
  destruct (stat path) as [n|er] eqn:Hs.
  2:{ specialize (Hstep (failed_result (vp_pack_key e) StatFailed) 0 Hcost ltac:(lia) eq_refl ltac:(done)). by rewrite Z.add_0_r in Hstep. }
  specialize (Hst path n Hs). assert (Hsat : MAX_VERIFY_BYTES < u64_sat_add read n <-> MAX_VERIFY_BYTES < read + n).
  { unfold u64_sat_add, MAX_VERIFY_BYTES, u64_max, u64_modulus in *. lia. }
  destruct (Z.ltb_spec MAX_VERIFY_BYTES (u64_sat_add read n)) as [Hbig|Hfit].
  - cbn. split; [done|]. split; [lia|]. split; [|constructor]. exists e, packs. split; [done|]. rewrite Hcost. apply Hsat in Hbig. lia.
  - assert (Hle : read + n <= MAX_VERIFY_BYTES) by (apply Z.nlt_ge; rewrite <- Hsat; lia).
    assert (Hadd : u64_add read n = read + n).
    { unfold u64_add, u64_wrap. apply Z.mod_small. unfold MAX_VERIFY_BYTES, u64_modulus in *. lia. }
    rewrite Hadd. apply Hstep; [done|lia| |by exists path].
    unfold verify_single_pack. destruct (open path) as [[[len|] reads]|]; [|done..]. unfold verify_pack_from_reader. cbv zeta.
    destruct (mbind _ _) as [[[h b] rd]|]; [|done]. by destruct (drain_reader rd) as [[? ?] ?].
Qed.

(** A request to verify packs reads at most 2 GiB from disk, whatever the
    client declared, and says how far it came: the results are those of the
    packs of the plan, in order, up to the first pack that would exceed the
    limit, and the response is marked truncated exactly when there is such a
    pack.  A pack reported without error was really read and found intact. *)
Theorem verify_packs_bounded plan : (forall p n, stat p = Ok n -> 0 <= n <= u64_max) ->
  let '(mkVerifyResponse rs t) := execute_verify_packs data_dir within stat open plan in
  let answered := take (length rs) (vp_packs plan) in
  vr_pack_key <$> rs = vp_pack_key <$> answered /\ total_cost answered <= MAX_VERIFY_BYTES /\
  (t = true <-> (length rs < length (vp_packs plan))%nat) /\
  (forall e rest, drop (length rs) (vp_packs plan) = e :: rest -> MAX_VERIFY_BYTES < total_cost answered + pack_cost e) /\
  Forall2 (fun r e => vr_error r = None -> exists path, file_path data_dir within (vp_pack_key e) = Some path /\ r = verify_single_pack open path e) rs answered.
Proof.
  intros Hst. unfold execute_verify_packs. pose proof (verify_entries_spec (vp_packs plan) 0 Hst) as H.
  destruct (verify_entries _ _ _ _ _ 0) as [rs t]. destruct H as (H1 & H2 & H3 & H4); [unfold MAX_VERIFY_BYTES; lia|]. cbv zeta.
  split; [done|]. split; [lia|]. destruct t.
  - destruct H3 as (e & rest & Hd & Hlt). assert (Hlen : (length rs < length (vp_packs plan))%nat).
    { apply (f_equal length) in Hd. rewrite length_drop in Hd. cbn in Hd. lia. }
    split; [done|]. split; [|done]. intros e' rest' Hd'. rewrite Hd in Hd'. injection Hd' as <- <-. lia.
  - split; [split; [done|lia]|]. split; [|done]. intros e rest Hd. apply (f_equal length) in Hd. rewrite length_drop in Hd. cbn in Hd. lia.
Qed.
End VerifyPlans.

(** ** Examples *)

Definition vr_blobs : list bytes := [[11; 12]; [13]].
Definition vr_pack : bytes := pack_of vr_blobs.
Definition vr_reads : list (result IoErr bytes) := [Ok (take 5 vr_pack); Ok (slice 5 6 vr_pack); Ok (drop 11 vr_pack)].
Definition vr_entry : VerifyPackRequest := mkVerifyPack (pack_storage_key (pack_id_compute vr_pack)) 20 [mkVerifyBlob 19 1; mkVerifyBlob 13 2; mkVerifyBlob 13 2].

Lemma verify_sound_witness :
  exists blobs rest, Forall fits blobs /\ flat vr_reads = pack_of blobs ++ rest /\
    hex_encode (blake2b (pack_of blobs)) = expected_name vr_entry /\ Forall (fun r => r ∈ blob_ranges 9 blobs) (expected_ranges vr_entry).
Proof. apply (verify_sound vr_reads 20 vr_entry); [by_eval|lia|vm_compute; reflexivity]. Defined.

Lemma verify_equals_scan_witness :
  verify_pack_from_reader vr_reads 20 vr_entry = verify_spec vr_pack vr_entry /\ blobs_valid (verify_spec vr_pack vr_entry) = true.
Proof.
  split; [|vm_compute; reflexivity].
  assert (Hc : calm vr_reads) by (repeat (apply Forall_cons; split; [eexists; split; [reflexivity|vm_compute; discriminate]|]); by apply Forall_nil).
  change 20 with (Z.of_nat (length (flat vr_reads))). change vr_pack with (flat vr_reads).
  apply (verify_equals_scan vr_reads vr_entry); [by_eval|exact Hc|vm_compute; reflexivity].
Defined.

Lemma verify_packs_bounded_witness :
  let stat := fun _ => Ok 20 in let open := fun _ => Ok (Ok 20, vr_reads) in
  let '(mkVerifyResponse rs t) := execute_verify_packs sv_dir (fun _ => true) stat open (mkVerifyPlan [vr_entry] 1) in
  t = true <-> (length rs < 1)%nat.
Proof.
  intros stat open. pose proof (verify_packs_bounded sv_dir (fun _ => true) stat open (mkVerifyPlan [vr_entry] 1)) as H.
  destruct (execute_verify_packs _ _ _ _ _) as [rs t]. cbv zeta in H. apply H. intros p n [= <-]. vm_compute. split; discriminate.
Defined.
