(* ===== verification/Rest.v ===== *)
(** * The REST backend (crates/vykar-storage/src/rest_backend.rs, retry.rs)

    The storage methods as HTTP requests to the server of Server.v, repeated
    with a growing pause while the errors are transient.  Between client and
    server is a network that may lose a request, cut an upload off, lose an
    answer or cut its body off; the system calls of the server may fail as
    well.  The theorems show that what the client sees is what Storage.v
    assumes of a backend. *)

From stdpp Require Import pretty.
From S2P Require Import Prelude Types Storage Lock Protocol Pack ServerPath Server ServerRead.
#[local] Open Scope string_scope.
#[local] Open Scope list_scope.
#[local] Open Scope Z_scope.

(** ** Retries *)

Record RetryConfig := mkRetry { max_retries : nat; retry_delay_ms : Z; retry_max_delay_ms : Z }.

Inductive UreqError := UTimeout | UConnectionFailed | UHostNotFound | UIo (k : IoErrorKind) | UOther.

Inductive HttpRetryError := Transport (er : UreqError) | RetryableStatus (code : Z) | BodyIo (k : IoErrorKind) | Permanent (msg : string).

Definition is_retryable_io (k : IoErrorKind) : bool :=
  match k with ConnectionReset | ConnectionAborted | BrokenPipe | UnexpectedEof | TimedOut | InterruptedIo => true | _ => false end.

Definition is_retryable_transport (er : UreqError) : bool :=
  match er with UTimeout | UConnectionFailed | UHostNotFound => true | UIo k => is_retryable_io k | UOther => false end.

Definition is_retryable (er : HttpRetryError) : bool :=
  match er with Transport _ | RetryableStatus _ => true | BodyIo k => is_retryable_io k | Permanent _ => false end.

Definition classify_status (code : Z) (msg : string) : result HttpRetryError unit :=
  if code <? 400 then Ok tt
  else if (code =? 429) || (500 <=? code) then Err (RetryableStatus code)
  else Err (Permanent msg).

Section RetryHttp.
Context {St R T : Type} (f : St -> result UreqError R * St) (handle_response : R -> result HttpRetryError T) (jitter : nat -> Z).

Definition attempt (st : St) : result HttpRetryError T * St :=
  let '(r, st) := f st in
  (match r with
   | Ok response => handle_response response
   | Err er => if is_retryable_transport er then Err (Transport er) else Err (Permanent "transport")
   end, st).

(** [tries] attempts may still follow; also the pauses made, in ms. *)
Fixpoint retry_loop (tries : nat) (max_delay delay_ms : Z) (st : St) : result HttpRetryError T * St * list Z :=
  let '(r, st) := attempt st in
  match r with
  | Ok a => (Ok a, st, [])
  | Err er =>
      if is_retryable er then
        match tries with
        | O => (Err er, st, [])
        | S tries =>
            let pause := u64_add delay_ms (jitter tries mod Z.max delay_ms 1) in
            let '(r, st, pauses) := retry_loop tries max_delay (Z.min (u64_wrap (delay_ms * 2)) max_delay) st in
            (r, st, pause :: pauses)
        end
      else (Err er, st, [])
  end.

Definition retry_http (config : RetryConfig) (st : St) : result HttpRetryError T * St * list Z :=
  retry_loop (max_retries config) (retry_max_delay_ms config) (retry_delay_ms config) st.
End RetryHttp.

(** ** HTTP *)

Inductive HttpRequest :=
  | HPut (key : string) (len : Z) (checksum : string) (body : bytes)
  | HGet (key : string) (range : option string)
  | HHead (key : string)
  | HDelete (key : string).

Record Response := mkResponse {
  r_status : Z;
  r_content_range : option string;
  r_content_length : option string;
  r_body : result IoErrorKind bytes;
}.

Definition bare (code : Z) : Response := mkResponse code None None (Ok []).

Definition error_status (er : ServerError) : Z :=
  match er with
  | ENotFound => 404 | EForbidden _ => 403 | EPayloadTooLarge => 413 | EBadRequest _ => 400 | EConflict _ => 409 | EInternal => 500
  end.

Definition respond {A} (r : result ServerError A) (ok : A -> Response) : Response :=
  match r with Ok a => ok a | Err er => bare (error_status er) end.

(** What becomes of a request. *)
Inductive Fate :=
  | Delivered
  | Unsent (er : UreqError)
  | CutUpload (n : nat) (er : UreqError)
  | Unanswered (er : UreqError)
  | CutBody (k : IoErrorKind).

Record Net := mkNet { server : AppState; fates : list Fate }.

Definition next_fate (n : Net) : Fate * Net :=
  match fates n with [] => (Delivered, n) | x :: l => (x, mkNet (server n) l) end.

Section Client.
Context `{Hhex : HexCodec} `{Hblake : Blake2b} (data_dir : Path) (within : Path -> bool) (dir_len : Path -> Z).
(** The server's token, the client's, the clock and the disk of the server,
    how the network splits a body, the random part of the pauses. *)
Context (token : string) (client_token : option string) (now : Z) (pr : Probe) (pieces : bytes -> list bytes) (jitter : nat -> Z) (retry : RetryConfig).

Definition authorization : option string := (fun t => "Bearer " +:+ t) <$> client_token.

Definition run_request (req : HttpRequest) (cut : option nat) (s : AppState) : Response * AppState :=
  if negb (authorized token authorization) then (bare 401, s)
  else match req with
  | HPut key len checksum body =>
      let reads := Ok <$> pieces body in
      let reads := match cut with None => reads | Some n => take n reads ++ [Err IoOther] end in
      let '(r, s) := put_object data_dir within dir_len key (Some len) (Some checksum) reads now pr s in
      (respond r bare, s)
  | HGet key range =>
      let '(r, s) := get_object data_dir within dir_len key range s in
      (respond r (fun x => mkResponse (match range with Some _ => 206 | None => 200 end) (rs_content_range x)
                             (Some (pretty (Z.to_N (rs_content_length x)))) (match rs_body x with Some b => Ok b | None => Err UnexpectedEof end)), s)
  | HHead key =>
      let '(r, s) := head_object data_dir within dir_len key s in
      (respond r (fun x => match x with Some n => mkResponse 200 None (Some (pretty (Z.to_N n))) (Ok []) | None => bare NOT_FOUND end), s)
  | HDelete key =>
      let '(r, s) := delete_object data_dir within dir_len key s in
      (respond r bare, s)
  end.

(** One request over the network; a request without a body cannot be cut off
    while it is sent. *)
Definition exchange (req : HttpRequest) (n : Net) : result UreqError Response * Net :=
  let '(fate, n) := next_fate n in
  match fate with
  | Unsent er => (Err er, n)
  | CutUpload k er =>
      match req with
      | HPut _ _ _ _ => let '(_, s) := run_request req (Some k) (server n) in (Err er, mkNet s (fates n))
      | _ => (Err er, n)
      end
  | Unanswered er => let '(_, s) := run_request req None (server n) in (Err er, mkNet s (fates n))
  | Delivered => let '(resp, s) := run_request req None (server n) in (Ok resp, mkNet s (fates n))
  | CutBody k =>
      let '(resp, s) := run_request req None (server n) in
      (Ok (mkResponse (r_status resp) (r_content_range resp) (r_content_length resp) (Err k)), mkNet s (fates n))
  end.

(** The path of [url]. *)
Definition url (key : string) : string := trim_start slash key.

Definition retry_call {T} (req : HttpRequest) (handle_response : Response -> result HttpRetryError T) (n : Net) : res T * Net :=
  let '(r, n, _) := retry_http (exchange req) handle_response jitter retry n in
  (match r with Ok a => Ok a | Err _ => Err (Other "REST") end, n).

(** [if status >= 400 { classify_status(..)?; }] *)
Definition check_status (resp : Response) : result HttpRetryError unit :=
  if 400 <=? r_status resp then classify_status (r_status resp) "HTTP" else Ok tt.

Definition read_body (resp : Response) : result HttpRetryError bytes :=
  match r_body resp with Ok b => Ok b | Err k => Err (BodyIo k) end.

(** *** Uploads *)

Definition str_drop (n : nat) (s : string) : string := String.substring n (String.length s - n) s.

Definition try_extract_pack_hex (key : string) : option string :=
  rest ← strip_prefix key "packs/";
  if (String.length rest <? 3)%nat then None
  else
    let hex := str_drop 3 rest in
    if (String.length hex =? 64)%nat && str_all is_ascii_hexdigit hex then Some hex else None.

Definition compute_blake2b_256_hex (data : bytes) : string := hex_encode (blake2b data).

Definition put_bytes (key : string) (data : bytes) (n : Net) : res unit * Net :=
  let checksum := default (compute_blake2b_256_hex data) (try_extract_pack_hex key) in
  retry_call (HPut (url key) (Z.of_nat (length data)) checksum data) check_status n.

(** *** Reads *)

Definition rest_get (key : string) : Net -> res (option bytes) * Net :=
  retry_call (HGet (url key) None) (fun resp =>
    if r_status resp =? 404 then Ok None
    else _ ← check_status resp; buf ← read_body resp; Ok (Some buf)).

Definition rest_delete (key : string) : Net -> res unit * Net :=
  retry_call (HDelete (url key)) (fun resp => if r_status resp =? 404 then Ok tt else check_status resp).

Definition rest_exists (key : string) : Net -> res bool * Net :=
  retry_call (HHead (url key)) (fun resp =>
    if r_status resp =? 404 then Ok false else _ ← check_status resp; Ok true).

Definition extract_content_length (resp : Response) : result HttpRetryError Z :=
  match r_content_length resp with
  | None => Err (Permanent "missing Content-Length")
  | Some v => match parse_u64 v with Some n => Ok n | None => Err (Permanent "invalid Content-Length") end
  end.

Definition rest_size (key : string) : Net -> res (option Z) * Net :=
  retry_call (HHead (url key)) (fun resp =>
    if r_status resp =? 404 then Ok None else _ ← check_status resp; len ← extract_content_length resp; Ok (Some len)).

(** [str::split_once]. *)
Fixpoint split_once (c : ascii) (s : string) : option (string * string) :=
  match s with
  | EmptyString => None
  | String a s' => if Ascii.eqb a c then Some (EmptyString, s') else p ← split_once c s'; Some (String a p.1, p.2)
  end.

Definition validate_content_range (header : string) (expected_offset expected_length : Z) : bool :=
  match
    rest ← strip_prefix header "bytes ";
    range_part ← split_once slash rest;
    ends ← split_once "-"%char range_part.1;
    start ← parse_u64 ends.1;
    end_ ← parse_u64 ends.2;
    if (end_ <? start) || (u64_max <? end_ - start + 1) then None else Some (start, end_ - start + 1)
  with
  | Some (start, range_len) => (start =? expected_offset) && (range_len =? expected_length)
  | None => false
  end.

Definition range_header (offset end_ : Z) : string := "bytes=" +:+ pretty (Z.to_N offset) +:+ "-" +:+ pretty (Z.to_N end_).

Definition range_response (offset length : Z) (resp : Response) : result HttpRetryError (option bytes) :=
  if r_status resp =? 404 then Ok None
  else
    _ ← check_status resp;
    if r_status resp =? 200 then Err (Permanent "Range header ignored")
    else if negb (r_status resp =? 206) then Err (Permanent "unexpected status")
    else match r_content_range resp with
    | None => Err (Permanent "206 without Content-Range header")
    | Some header =>
        if negb (validate_content_range header offset length) then Err (Permanent "Content-Range mismatch")
        else
          body ← read_body resp;
          let buf := take (Z.to_nat length) body in
          if negb (Z.of_nat (List.length buf) =? length) then Err (BodyIo UnexpectedEof) else Ok (Some buf)
    end.

Definition rest_get_range (key : string) (offset length : Z) (n : Net) : res (option bytes) * Net :=
  if length =? 0 then (Err (Other "zero-length read requested"), n)
  else if u64_max <? offset + length then (Err (Other "overflows u64"), n)
  else retry_call (HGet (url key) (Some (range_header offset (offset + length - 1)))) (range_response offset length) n.
End Client.

(** ** Retries end *)

Section RetryLaws.
Context {St R T : Type} (f : St -> result UreqError R * St) (handle_response : R -> result HttpRetryError T) (jitter : nat -> Z).

Lemma retry_loop_inv (I : St -> Prop) (Q : T -> St -> Prop) :
  (forall st, I st -> let '(r, st') := attempt f handle_response st in I st' /\ (forall a, r = Ok a -> Q a st')) ->
  forall tries max_delay delay st, I st ->
    let '(r, st', _) := retry_loop f handle_response jitter tries max_delay delay st in I st' /\ (forall a, r = Ok a -> Q a st').
Proof.
  intros Ha tries max_delay. induction tries as [|tries IH]; intros delay st HI; cbn [retry_loop];
    specialize (Ha st HI); destruct (attempt f handle_response st) as [[a|er] st1]; try done.
  - destruct Ha as [HI1 _]. by destruct (is_retryable er).
  - destruct Ha as [HI1 _]. destruct (is_retryable er); [|done]. specialize (IH (Z.min (u64_wrap (delay * 2)) max_delay) st1 HI1).
    by destruct (retry_loop f handle_response jitter tries _ _ st1) as [[r st2] pauses].
Qed.
End RetryLaws.

(** ** Keys and files *)

Lemma split_on_inj c s t : split_on c s = split_on c t -> s = t.
Proof.
  revert t. induction s as [|a s IH]; intros [|b t]; cbn [split_on]; [done|..].
  - destruct (Ascii.eqb b c); [intros [= E]; by destruct (split_on_nonempty c t)|]. by destruct (split_on c t).
  - destruct (Ascii.eqb a c); [intros [= E]; by destruct (split_on_nonempty c s)|]. by destruct (split_on c s).
  - destruct (Ascii.eqb_spec a c) as [->|Ha]; destruct (Ascii.eqb_spec b c) as [->|Hb].
    + intros [= E]. by rewrite (IH t).
    + destruct (split_on c t); discriminate.
    + destruct (split_on c s); discriminate.
    + pose proof (split_on_nonempty c s). pose proof (split_on_nonempty c t). specialize (IH t).
      destruct (split_on c s) as [|x xs]; [done|]. destruct (split_on c t) as [|y ys]; [done|]. intros [= -> -> ->]. by rewrite IH.
Qed.

(** The keys of objects: no slashes around them, not a temporary file. *)
Definition object_key (key : string) : Prop :=
  key <> "" /\ url key = key /\ trim_end slash key = key /\ starts_with (file_name (parts_of key)) ".tmp." = false.

Lemma object_key_parts key : object_key key -> parts_of key = split_on slash key.
Proof.
  intros (Hne & Hs & He & _). unfold url in Hs. unfold parts_of, trim_matches. rewrite Hs, He. by destruct (String.eqb_spec key "").
Qed.

Lemma object_key_inj key key' : object_key key -> object_key key' -> parts_of key = parts_of key' -> key = key'.
Proof. intros H H'. rewrite !object_key_parts by done. apply split_on_inj. Qed.

Section Refinement.
Context `{Hhex : HexCodec} `{Hblake : Blake2b} (data_dir : Path) (within : Path -> bool) (dir_len : Path -> Z).
Context (token : string) (client_token : option string) (now : Z) (pr : Probe) (pieces : bytes -> list bytes) (jitter : nat -> Z) (retry : RetryConfig).
(** The network delivers the bytes of a body in pieces. *)
Hypothesis pieces_concat : forall data, concat (pieces data) = data.
Hypothesis pieces_nonempty : forall data, Forall (fun p => p <> []) (pieces data).

#[local] Abbreviation obj key := (data_dir ++ parts_of key).

(** The objects the server stores. *)
Definition represents (m : Store) (s : AppState) : Prop := forall key, object_key key -> fs_files (fs s) !! obj key = m !! key.

Lemma obj_inj key key' : object_key key -> object_key key' -> obj key = obj key' -> key = key'.
Proof. intros H H' E%app_inv_head. by apply object_key_inj. Qed.

Lemma obj_not_temp key s path : object_key key -> obj key <> upload_temp s path.
Proof.
  intros Hk E. pose proof Hk as (Hne & _ & _ & Ht). apply (f_equal file_name) in E. rewrite file_name_app in E.
  - unfold upload_temp, with_file_name, file_name in E. rewrite List.last_last in E. unfold file_name in Ht. rewrite E in Ht.
    unfold temp_name in Ht. by rewrite starts_with_prefix in Ht.
  - rewrite object_key_parts by done. apply split_on_nonempty.
Qed.

Lemma represents_insert m s s' key data path : object_key key -> path = obj key ->
  represents m s -> fs_files (fs s') = <[path := data]> (delete (upload_temp s path) (fs_files (fs s))) -> represents (<[key := data]> m) s'.
Proof.
  intros Hk -> Hr Hf key' Hk'. rewrite Hf. destruct (decide (key' = key)) as [->|Hne]; [by rewrite !lookup_insert_eq|].
  rewrite !lookup_insert_ne by (done || (intros E; apply Hne; by apply obj_inj)).
  rewrite lookup_delete_ne by (apply not_eq_sym; by apply obj_not_temp). by apply Hr.
Qed.

Lemma represents_back m s s' path : represents m s -> same_but s (upload_temp s path) (fs_files (fs s')) -> represents m s'.
Proof.
  intros Hr Hs key Hk. rewrite <- Hr by done. apply (f_equal (fun x => x !! obj key)) in Hs.
  by rewrite !lookup_delete_ne in Hs by (apply not_eq_sym; by apply obj_not_temp).
Qed.

(** *** Uploads *)

Lemma body_bytes_pieces l : Forall (fun p => p <> []) l -> body_bytes (Ok <$> l) = Some (concat l).
Proof. induction 1 as [|p l Hp Hl IH]; [done|]. destruct p as [|x p]; [done|]. cbn. cbn in IH. by rewrite IH. Qed.

Lemma body_bytes_cut l n er : Forall (fun p => p <> []) l -> body_bytes (take n (Ok <$> l) ++ [Err er]) = None.
Proof.
  intros Hl. revert n. induction Hl as [|p l Hp Hl IH]; intros n; [by destruct n|]. destruct n as [|n]; [done|].
  destruct p as [|x p]; [done|]. cbn. specialize (IH n). cbn in IH. by rewrite IH.
Qed.

#[local] Abbreviation run := (run_request data_dir within dir_len token client_token now pr pieces).

Lemma run_put m s key len sum data cut : object_key key -> represents m s ->
  let '(resp, s') := run (HPut key len sum data) cut s in
  if (r_status resp <? 400) && bool_decide (cut = None) then represents (<[key := data]> m) s' else represents m s' \/ represents (<[key := data]> m) s'.
Proof.
  intros Hk Hr. unfold run_request. destruct (authorized _ _); cbn [negb]; [|destruct (bool_decide _); by left].
  cbv zeta. set (body := match cut with None => _ | Some n => _ end).
  pose proof (put_object_spec data_dir within dir_len s key (Some len) (Some sum) body now pr) as Hs.
  destruct (put_object _ _ _ _ _ _ _ _ _ s) as [[code|er] s'].
  - destruct Hs as (path & d & Hst). destruct Hst as [Hcode Hp Hb Hf _ _ _ _ _ _ _]. apply file_path_eq in Hp as (_ & Hp & _).
    unfold body in Hb. destruct cut as [n|]; [by rewrite body_bytes_cut in Hb|]. rewrite body_bytes_pieces, pieces_concat in Hb by done. injection Hb as <-.
    cbn [respond bare r_status]. rewrite bool_decide_eq_true_2 by done. pose proof (represents_insert m s s' key data path Hk Hp Hr Hf).
    destruct (_ && _); [done|by right].
  - destruct Hs as (_ & Hs & _). cbn [respond bare r_status]. assert (Hn : (error_status er <? 400) = false) by (by destruct er).
    rewrite Hn. left. by eapply represents_back.
Qed.

Lemma check_status_ok resp a : check_status resp = Ok a -> (r_status resp <? 400) = true.
Proof.
  unfold check_status, classify_status. destruct (Z.leb_spec 400 (r_status resp)); [|intros _; lia].
  destruct (Z.ltb_spec (r_status resp) 400); [lia|]. by destruct (_ || _).
Qed.

#[local] Abbreviation send_req := (exchange data_dir within dir_len token client_token now pr pieces).

(** What an attempt does to the server, whatever becomes of the request. *)
Lemma attempt_server {T} (req : HttpRequest) (h : Response -> result HttpRetryError T) (I : AppState -> Prop) (Q : T -> AppState -> Prop) n :
  I (server n) ->
  (forall cut s, I s -> let '(resp, s') := run req cut s in I s' /\
     (cut = None -> forall b a, h (mkResponse (r_status resp) (r_content_range resp) (r_content_length resp) b) = Ok a -> b = r_body resp \/ (exists k, b = Err k) -> Q a s')) ->
  let '(r, n') := attempt (send_req req) h n in I (server n') /\ (forall a, r = Ok a -> Q a (server n')).
Proof.
  intros HI Hrun. unfold attempt, exchange. assert (HI' : I (server (next_fate n).2)) by (unfold next_fate; by destruct (fates n)).
  destruct (next_fate n) as [fate n1]. cbn in HI'. destruct fate as [|er|k er|er|k].
  - specialize (Hrun None _ HI'). destruct (run req None (server n1)) as [resp s']. destruct Hrun as [H1 H2]. split; [done|].
    intros a Ha. apply (H2 eq_refl (r_body resp)); [|by left]. by destruct resp.
  - split; [done|]. intros a. by destruct (is_retryable_transport er).
  - assert (Hno : forall a : T, (if is_retryable_transport er then Err (Transport er) else Err (Permanent "transport")) = Ok a -> False)
      by (intros a; by destruct (is_retryable_transport er)).
    destruct req; try (split; [done|]; intros a Ha; by destruct (Hno a)).
    specialize (Hrun (Some k) _ HI'). destruct (run _ (Some k) (server n1)) as [resp s']. split; [by destruct Hrun|]. intros a Ha. by destruct (Hno a).
  - specialize (Hrun None _ HI'). destruct (run req None (server n1)) as [resp s']. split; [by destruct Hrun|].
    intros a. by destruct (is_retryable_transport er).
  - specialize (Hrun None _ HI'). destruct (run req None (server n1)) as [resp s']. destruct Hrun as [H1 H2]. split; [done|].
    intros a Ha. apply (H2 eq_refl (Err k)); [done|]. right. by exists k.
Qed.

#[local] Abbreviation call req h := (retry_call data_dir within dir_len token client_token now pr pieces jitter retry req h).

Lemma retry_call_server {T} (req : HttpRequest) (h : Response -> result HttpRetryError T) (I : AppState -> Prop) (Q : T -> AppState -> Prop) n :
  I (server n) ->
  (forall cut s, I s -> let '(resp, s') := run req cut s in I s' /\
     (cut = None -> forall b a, h (mkResponse (r_status resp) (r_content_range resp) (r_content_length resp) b) = Ok a -> b = r_body resp \/ (exists k, b = Err k) -> Q a s')) ->
  let '(r, n') := call req h n in I (server n') /\ (forall a, r = Ok a -> Q a (server n')).
Proof.
  intros HI Hrun. unfold retry_call, retry_http.
  pose proof (retry_loop_inv (send_req req) h jitter (fun n => I (server n)) (fun a n => Q a (server n))
    (fun n HI => attempt_server req h I Q n HI Hrun) (max_retries retry) (retry_max_delay_ms retry) (retry_delay_ms retry) n HI) as H.
  destruct (retry_loop _ _ _ _ _ _ n) as [[r n'] pauses]. destruct H as [H1 H2]. split; [done|]. intros a. destruct r as [a'|]; [|done]. intros [= ->]. by apply H2.
Qed.

(** *** Reads leave the files alone *)

Definition sm_pure {A} (m : SM A) : Prop := forall s, fs (m s).2 = fs s.
Lemma pure_bind {A B} (m : SM A) (k : A -> SM B) : sm_pure m -> (forall a, sm_pure (k a)) -> sm_pure (m ≫= k).
Proof. intros Hm Hk s. unfold mbind, SM_bind. specialize (Hm s). destruct (m s) as [[a|er] s']; cbn in *; [by rewrite Hk|done]. Qed.
Lemma pure_read {A} (g : Fs -> result IoErr A) : sm_pure (os_read g).
Proof. intros s. unfold os_read. pose proof (next_os_fs s) as H. by destruct (next_os s) as [[] s']. Qed.
Lemma pure_lift {A} (r : result ServerError A) : sm_pure (slift r).
Proof. done. Qed.

(** The answer of a system call that reads, if it did not fail. *)
Lemma os_read_val {A} (g : Fs -> result IoErr A) s : exists r, (os_read g s).1 = Ok r /\ (r = g (fs s) \/ r = Err IoOther).
Proof.
  unfold os_read. pose proof (next_os_fs s) as H. destruct (next_os s) as [[] s']; cbn in *; [by exists (Err IoOther); auto|].
  exists (g (fs s')). rewrite H. auto.
Qed.

Lemma os_read_cases {A} (g : Fs -> result IoErr A) s :
  exists s', fs s' = fs s /\ (os_read g s = (Ok (g (fs s)), s') \/ os_read g s = (Ok (Err IoOther), s')).
Proof.
  unfold os_read. pose proof (next_os_fs s) as H. destruct (next_os s) as [[] s']; cbn in *; exists s'; (split; [done|]); [by right|left; by rewrite H].
Qed.

Lemma open_file_spec path s : let '(r, s') := open_file dir_len path s in fs s' = fs s /\
  match r with
  | Ok (file, len) => forall d, file = Some d -> fs_files (fs s) !! path = Some d /\ len = Z.of_nat (length d)
  | Err er => er = ENotFound -> fs_files (fs s) !! path = None
  end.
Proof.
  unfold open_file, mbind, SM_bind, io_try, slift. destruct (os_read_cases (fs_open path) s) as (s1 & H1 & [-> | ->]); cbn; [|done].
  unfold fs_open. destruct (fs_files (fs s) !! path) as [d|] eqn:Hd.
  - cbn. destruct (os_read_cases (fun _ => Ok (Z.of_nat (length d)) : result IoErr Z) s1) as (s2 & H2 & [-> | ->]); cbn; (split; [by rewrite H2|]); [|done].
    intros x [= <-]. done.
  - destruct (is_dir (fs s) path); cbn; [|by unfold absent; destruct (under_file _ _)].
    destruct (os_read_cases (fun _ => Ok (dir_len path) : result IoErr Z) s1) as (s2 & H2 & [-> | ->]); cbn; (split; [by rewrite H2|]); done.
Qed.

Lemma send_spec file start len s : exists s' b, send file start len s = (Ok b, s') /\ fs s' = fs s /\
  (forall x, b = Some x -> exists d, file = Some d /\ x = slice (Z.to_nat start) (Z.to_nat len) d).
Proof.
  unfold send, mbind, SM_bind. destruct (os_read_cases (fun _ => Ok tt : result IoErr unit) s) as (s1 & H1 & [-> | ->]); cbn; eexists _, _; (split; [reflexivity|]); split; try done.
  intros x. destruct file as [d|]; [|done]. intros [= <-]. by exists d.
Qed.

Lemma stream_full_read_spec path s : let '(r, s') := stream_full_read dir_len path s in fs s' = fs s /\
  match r with
  | Ok x => forall b, rs_body x = Some b -> fs_files (fs s) !! path = Some b
  | Err er => er = ENotFound -> fs_files (fs s) !! path = None
  end.
Proof.
  unfold stream_full_read, mbind, SM_bind. pose proof (open_file_spec path s) as Ho. destruct (open_file dir_len path s) as [[[file len]|er] s1]; [|done].
  destruct Ho as [H1 Ho]. cbn [fst snd]. destruct (send_spec file 0 len s1) as (s2 & b & -> & H2 & Hb). cbn. split; [by rewrite H2|].
  intros x ->. destruct (Hb x eq_refl) as (d & -> & ->). destruct (Ho d eq_refl) as [-> ->]. f_equal. unfold slice. rewrite drop_0, Nat2Z.id. by rewrite take_ge.
Qed.

Lemma handle_range_read_spec path header off len s : parse_range header = Ok (off, len) -> 0 <= off -> 1 <= len ->
  let '(r, s') := handle_range_read dir_len path header s in fs s' = fs s /\
  match r with
  | Ok x => forall b, rs_body x = Some b -> exists d, fs_files (fs s) !! path = Some d /\
      let k := Z.min len (Z.of_nat (length d) - off) in
      off < Z.of_nat (length d) /\ rs_content_range x = Some (content_range off (off + k - 1) (Z.of_nat (length d))) /\ b = slice (Z.to_nat off) (Z.to_nat k) d
  | Err er => er = ENotFound -> fs_files (fs s) !! path = None
  end.
Proof.
  intros Hp Hoff Hlen. unfold handle_range_read, mbind, SM_bind, slift. rewrite Hp. pose proof (open_file_spec path s) as Ho.
  destruct (open_file dir_len path s) as [[[file flen]|er] s1]; [|done]. destruct Ho as [H1 Ho]. cbn.
  destruct (Z.leb_spec flen off) as [|Hlt]; [done|].
  destruct (os_read_cases (fun _ => Ok tt : result IoErr unit) s1) as (s2 & H2 & [-> | ->]); cbn; [|split; [by rewrite H2|done]].
  destruct (send_spec file off (Z.min len (flen - off)) s2) as (s3 & b & -> & H3 & Hb). cbn. split; [by rewrite H3, H2|].
  intros x ->. destruct (Hb x eq_refl) as (d & -> & ->). destruct (Ho d eq_refl) as [-> ->]. by exists d.
Qed.

(** *** Headers *)

Lemma pretty_go_digits x s : str_all is_digit s = true -> str_all is_digit (pretty_N_go x s) = true.
Proof.
  revert s. induction (N.lt_wf_0 x) as [x _ IH]. intros s Hs. destruct (decide (x = 0%N)) as [->|Hx]; [by rewrite pretty_N_go_0|].
  rewrite pretty_N_go_step by lia. apply IH; [apply N.div_lt; lia|]. cbn [str_all]. rewrite Hs, andb_true_r.
  pose proof (digit_value_pretty (x mod 10)%N ltac:(apply N.mod_lt; lia)) as Hd. unfold digit_value in Hd. by destruct (is_digit _).
Qed.
Lemma pretty_digits (x : N) : str_all is_digit (pretty x) = true.
Proof. unfold pretty, pretty_N. destruct (decide _); [done|]. by apply pretty_go_digits. Qed.

Lemma digits_no (c : ascii) s : is_digit c = false -> str_all is_digit s = true -> str_all (fun a => negb (Ascii.eqb a c)) s = true.
Proof.
  intros Hc. induction s as [|a s IH]; cbn [str_all]; [done|]. intros [Ha Hs]%andb_true_iff. rewrite IH, andb_true_r by done.
  destruct (Ascii.eqb_spec a c) as [->|]; [congruence|done].
Qed.

Lemma split_once_app c a b : str_all (fun x => negb (Ascii.eqb x c)) a = true -> split_once c (a +:+ String c b) = Some (a, b).
Proof.
  induction a as [|x a IH]; cbn [str_all]; intros H.
  - change ("" +:+ String c b) with (String c b). cbn [split_once]. by rewrite Ascii.eqb_refl.
  - apply andb_true_iff in H as [Hx%negb_true_iff Ha]. change (String x a +:+ String c b) with (String x (a +:+ String c b)). cbn [split_once].
    rewrite Hx, IH by done. done.
Qed.

Lemma parse_range_header off end_ : 0 <= off <= end_ -> end_ < u64_max -> parse_range (range_header off end_) = Ok (off, end_ - off + 1).
Proof.
  intros H1 H2. unfold parse_range, range_header. rewrite strip_prefix_app.
  change ("-" +:+ pretty (Z.to_N end_)) with (String "-" (pretty (Z.to_N end_))).
  rewrite split_on_cons by (apply digits_no; [done|apply pretty_digits]). rewrite split_on_none by (apply digits_no; [done|apply pretty_digits]).
  rewrite !parse_u64_pretty by lia. destruct (Z.ltb_spec end_ off); [lia|]. by destruct (Z.ltb_spec u64_max (end_ - off + 1)); [lia|].
Qed.

Lemma validate_content_range_sound s e total off len : 0 <= s <= e -> e < u64_max ->
  validate_content_range (content_range s e total) off len = true -> s = off /\ e - s + 1 = len.
Proof.
  intros H1 H2. unfold validate_content_range, content_range. rewrite strip_prefix_app. cbn [mbind option_bind].
  change ("/" +:+ pretty (Z.to_N total)) with (String slash (pretty (Z.to_N total))).
  change ("-" +:+ pretty (Z.to_N e) +:+ String slash (pretty (Z.to_N total))) with (("-" +:+ pretty (Z.to_N e)) +:+ String slash (pretty (Z.to_N total))).
  rewrite str_app_assoc.
  assert (Hns : str_all (fun x => negb (Ascii.eqb x slash)) (pretty (Z.to_N s) +:+ "-" +:+ pretty (Z.to_N e)) = true).
  { assert (Happ : forall g a b, str_all g a = true -> str_all g b = true -> str_all g (a +:+ b) = true).
    { intros g a b Ha Hb. induction a as [|x a IH]; [done|]. cbn [str_all] in Ha. apply andb_true_iff in Ha as [Hx Ha].
      change (String x a +:+ b) with (String x (a +:+ b)). cbn [str_all]. by rewrite Hx, IH. }
    apply Happ; [apply digits_no; [done|apply pretty_digits]|]. apply Happ; [done|]. apply digits_no; [done|apply pretty_digits]. }
  rewrite split_once_app by done. cbn [mbind option_bind fst snd]. change ("-" +:+ pretty (Z.to_N e)) with (String "-" (pretty (Z.to_N e))).
  rewrite split_once_app by (apply digits_no; [done|apply pretty_digits]). cbn [mbind option_bind fst snd]. rewrite !parse_u64_pretty by lia. cbn [mbind option_bind].
  destruct (Z.ltb_spec e s); [lia|]. destruct (Z.ltb_spec u64_max (e - s + 1)); [lia|]. cbn [orb]. rewrite andb_true_iff, !Z.eqb_eq. done.
Qed.

(** ** Refinement of the storage interface *)

Definition same_answer {A} (a b : res A) : Prop :=
  match a, b with Ok x, Ok y => x = y | Err _, Err _ => True | _, _ => False end.

(** Whatever the network and the server's system do, what the client is
    answered, and what is stored afterwards, is what the storage interface
    allows, for some fault of the one call. *)
Definition simulates {A} (P : AppState -> Prop) (rest : Net -> res A * Net) (op : M A) : Prop :=
  forall m n, represents m (server n) -> P (server n) ->
  let '(r, n') := rest n in
  exists fl r' w', op (mkWorld m fl) = (r', w') /\ same_answer r r' /\ represents (objects w') (server n').

Definition always : AppState -> Prop := fun _ => True.

Lemma simulates_read {A} (P : AppState -> Prop) (req : HttpRequest) (h : Response -> result HttpRetryError A) (op : M A) (val : Store -> A) :
  (forall m, op (mkWorld m []) = (Ok (val m), mkWorld m [])) -> (forall m, exists er, op (mkWorld m [FailBefore]) = (Err er, mkWorld m [])) ->
  (forall m cut s, represents m s -> P s -> let '(resp, s') := run req cut s in fs s' = fs s /\
     forall b a, h (mkResponse (r_status resp) (r_content_range resp) (r_content_length resp) b) = Ok a -> b = r_body resp \/ (exists k, b = Err k) -> a = val m) ->
  (forall s s', fs s' = fs s -> P s -> P s') ->
  simulates P (call req h) op.
Proof.
  intros Hok Herr Hrun HP m n Hr HPn.
  assert (Hrep : forall s s', fs s' = fs s -> represents m s -> represents m s').
  { intros s s' E H key Hk. rewrite E. by apply H. }
  pose proof (retry_call_server req h (fun s => fs s = fs (server n)) (fun a _ => a = val m) n eq_refl) as H.
  destruct (call req h n) as [r n']. destruct H as [H1 H2].
  { intros cut s Hs. specialize (Hrun m cut s (Hrep _ _ Hs Hr) (HP _ _ Hs HPn)). destruct (run req cut s) as [resp s'].
    destruct Hrun as [E Ha]. split; [by rewrite E|]. intros _. exact Ha. }
  destruct r as [a|er].
  - exists [], (Ok (val m)), (mkWorld m []). split; [apply Hok|]. split; [by apply H2|]. by apply (Hrep (server n)).
  - destruct (Herr m) as (er' & E). exists [FailBefore], (Err er'), (mkWorld m []). split; [done|]. split; [done|]. by apply (Hrep (server n)).
Qed.

Lemma resolve_object key s : object_key key ->
  (exists er, resolve data_dir within key s = (Err (EBadRequest er), s)) \/ resolve data_dir within key s = (Ok (obj key), s).
Proof.
  intros Hk. unfold resolve, slift. destruct (file_path data_dir within key) as [p|] eqn:Hf; [|left; by eexists].
  right. apply file_path_eq in Hf as (_ & -> & _). done.
Qed.

Lemma get_simulates key : object_key key ->
  simulates always (rest_get data_dir within dir_len token client_token now pr pieces jitter retry key) (Storage.get key).
Proof.
  intros Hk. pose proof Hk as (_ & Hu & _). unfold rest_get. rewrite Hu.
  apply simulates_read with (val := fun m => m !! key); [done|by eexists| |done].
  intros m cut s Hr _. unfold run_request. destruct (authorized _ _); cbn [negb]; [|split; [done|]; cbn; done].
  unfold get_object, mbind at 1, SM_bind at 1. destruct (resolve_object key s Hk) as [(er & ->)| ->]; [split; [done|]; cbn; done|].
  pose proof (stream_full_read_spec (obj key) s) as Hs. destruct (stream_full_read dir_len (obj key) s) as [[x|er] s']; destruct Hs as [Hfs Hs]; (split; [done|]); cbn.
  - intros b a Ha Hb. destruct b as [b|k]; [|done]. cbn in Ha. injection Ha as <-. destruct Hb as [Hb|[k Hb]]; [|done].
    destruct (rs_body x) as [b'|]; [|done]. injection Hb as ->. rewrite <- Hr by done. symmetry. by apply Hs.
  - intros b a Ha _. destruct er; cbn in Ha; try done. injection Ha as <-. rewrite <- Hr by done. symmetry. by apply Hs.
Qed.

Lemma range_simulates key offset length : object_key key -> 0 <= offset -> 0 <= length ->
  simulates always (rest_get_range data_dir within dir_len token client_token now pr pieces jitter retry key offset length) (Storage.get_range key offset length).
Proof.
  intros Hk Ho Hl m n Hr _. unfold rest_get_range. pose proof Hk as (_ & Hu & _). rewrite Hu.
  assert (Hfail : exists er, Storage.get_range key offset length (mkWorld m [FailBefore]) = (Err er, mkWorld m [])) by (by eexists).
  destruct (Z.eqb_spec length 0) as [|H0]; [destruct Hfail as [er E]; exists [FailBefore], (Err er), (mkWorld m []); done|].
  destruct (Z.ltb_spec u64_max (offset + length)) as [|Hmax]; [destruct Hfail as [er E]; exists [FailBefore], (Err er), (mkWorld m []); done|].
  assert (Hpr : parse_range (range_header offset (offset + length - 1)) = Ok (offset, length)).
  { rewrite parse_range_header by lia. do 2 f_equal. lia. }
  assert (Hrep : forall s s', fs s' = fs s -> represents m s -> represents m s').
  { intros s s' E H k Hk'. rewrite E. by apply H. }
  pose proof (retry_call_server (HGet key (Some (range_header offset (offset + length - 1)))) (range_response offset length) (fun s => fs s = fs (server n))
    (fun a _ => match m !! key with None => a = None | Some d => a = Some (slice (Z.to_nat offset) (Z.to_nat length) d) /\ offset + length <= Z.of_nat (List.length d) end) n eq_refl) as H.
  destruct (call _ _ n) as [r n']. destruct H as [H1 H2].
  { intros cut s Hs. unfold run_request. destruct (authorized _ _); cbn [negb]; [|split; [done|]; cbn; done].
    unfold get_object, mbind at 1, SM_bind at 1. destruct (resolve_object key s Hk) as [(er & ->)| ->]; [split; [done|]; cbn; done|].
    pose proof (handle_range_read_spec (obj key) (range_header offset (offset + length - 1)) offset length s Hpr Ho ltac:(lia)) as Hsp.
    destruct (handle_range_read dir_len (obj key) _ s) as [[x|er] s']; destruct Hsp as [Hfs Hsp]; (split; [by rewrite Hfs|]); intros _; cbn [respond bare r_status r_content_range r_content_length r_body].
    - intros b a Ha Hb. unfold range_response in Ha. cbn [r_status r_content_range r_body] in Ha. change (206 =? 404) with false in Ha. cbn [check_status] in Ha.
      change (check_status (mkResponse 206 (rs_content_range x) (Some (pretty (Z.to_N (rs_content_length x)))) b)) with (Ok tt : result HttpRetryError unit) in Ha.
      cbn [mbind result_bind] in Ha. change (206 =? 200) with false in Ha. change (negb (206 =? 206)) with false in Ha. cbv iota in Ha.
      destruct b as [b|k]; [|by destruct (rs_content_range x) as [hd|]; [|done]; destruct (negb _)].
      destruct Hb as [Hb|[k Hb]]; [|done]. destruct (rs_body x) as [b'|]; [|done]. injection Hb as ->.
      destruct (Hsp b' eq_refl) as (d & Hd & Hlt & Hcr & ->). rewrite Hcr in Ha. rewrite <- (Hr key Hk), <- Hs, Hd.
      remember (Z.min length (Z.of_nat (List.length d) - offset)) as k eqn:Hkd.
      destruct (validate_content_range _ offset length) eqn:Hv; [|done]. apply validate_content_range_sound in Hv as [_ Hv]; [|lia..].
      assert (k = length) as -> by lia. cbn [negb mbind result_bind read_body r_body] in Ha.
      rewrite take_ge in Ha by (unfold slice; rewrite length_take; lia). destruct (negb _); [done|]. injection Ha as <-. split; [done|lia].
    - intros b a Ha _. rewrite <- (Hr key Hk), <- Hs. destruct er; cbn in Ha; try done. injection Ha as <-. by rewrite Hsp. }
  destruct r as [a|er].
  - specialize (H2 a eq_refl). exists [], (Ok a), (mkWorld m []). split; [|split; [done|by apply (Hrep (server n))]].
    unfold Storage.get_range, mbind, M_bind. cbn. destruct (m !! key) as [d|]; [|by rewrite H2]. destruct H2 as [-> Hle].
    rewrite length_slice by lia. rewrite Z2Nat.id, Z.eqb_refl by lia. done.
  - destruct Hfail as (er' & E). exists [FailBefore], (Err er'), (mkWorld m []). split; [done|]. split; [done|]. by apply (Hrep (server n)).
Qed.

Definition no_dir (key : string) (s : AppState) : Prop := obj key ∉ fs_dirs (fs s).

Lemma existing_size_spec path s : let '(r, s') := existing_size dir_len path s in fs s' = fs s /\
  match r with
  | Ok (Some n) => path ∉ fs_dirs (fs s) -> exists d, fs_files (fs s) !! path = Some d /\ n = Z.of_nat (length d)
  | Ok None => fs_files (fs s) !! path = None
  | Err er => er = EInternal
  end.
Proof.
  unfold existing_size, mbind, SM_bind. destruct (os_read_cases (fs_metadata dir_len path) s) as (s1 & H1 & [-> | ->]); cbn; [|done].
  unfold fs_metadata, is_dir. destruct (fs_files (fs s) !! path) as [d|] eqn:Hd; [split; [done|]; intros _; by exists d|].
  destruct (bool_decide_reflect (path ∈ fs_dirs (fs s))); [by split|]. unfold absent. by destruct (under_file _ _).
Qed.

Lemma head_object_spec key s : object_key key -> no_dir key s -> let '(r, s') := head_object data_dir within dir_len key s in fs s' = fs s /\
  match r with
  | Ok (Some n) => exists d, fs_files (fs s) !! obj key = Some d /\ n = Z.of_nat (length d)
  | Ok None => fs_files (fs s) !! obj key = None
  | Err er => er <> ENotFound
  end.
Proof.
  intros Hk Hd. unfold head_object, mbind, SM_bind. destruct (resolve_object key s Hk) as [(er & ->)| ->]; [done|].
  pose proof (existing_size_spec (obj key) s) as H. destruct (existing_size dir_len (obj key) s) as [[[n|]|er] s']; destruct H as [H1 H2]; (split; [done|]); [by apply H2|done|].
  by rewrite H2.
Qed.

Lemma exists_simulates key : object_key key ->
  simulates (no_dir key) (rest_exists data_dir within dir_len token client_token now pr pieces jitter retry key) (Storage.exists_ key).
Proof.
  intros Hk. pose proof Hk as (_ & Hu & _). unfold rest_exists. rewrite Hu.
  apply simulates_read with (val := fun m => bool_decide (is_Some (m !! key))); [done|by eexists| |by unfold no_dir; intros s s' ->].
  intros m cut s Hr Hd. unfold run_request. destruct (authorized _ _); cbn [negb]; [|split; [done|]; cbn; done].
  pose proof (head_object_spec key s Hk Hd) as Hs. destruct (head_object data_dir within dir_len key s) as [[[x|]|er] s']; destruct Hs as [Hfs Hs]; (split; [done|]); intros b a; cbn.
  - destruct Hs as (d & Hd' & _). rewrite <- Hr, Hd' by done. by intros [= <-] _.
  - rewrite <- Hr, Hs by done. by intros [= <-] _.
  - destruct er; cbn; try done.
Qed.

(** A file whose size a 64-bit number can hold. *)
Definition sized (key : string) (s : AppState) : Prop := no_dir key s /\ forall d, fs_files (fs s) !! obj key = Some d -> Z.of_nat (length d) <= u64_max.

Lemma size_simulates key : object_key key ->
  simulates (sized key) (rest_size data_dir within dir_len token client_token now pr pieces jitter retry key) (Storage.size_of key).
Proof.
  intros Hk. pose proof Hk as (_ & Hu & _). unfold rest_size. rewrite Hu.
  apply simulates_read with (val := fun m => (fun d => Z.of_nat (length d)) <$> m !! key); [done|by eexists| |by unfold sized, no_dir; intros s s' ->].
  intros m cut s Hr [Hd Hbig]. unfold run_request. destruct (authorized _ _); cbn [negb]; [|split; [done|]; cbn; done].
  pose proof (head_object_spec key s Hk Hd) as Hs. destruct (head_object data_dir within dir_len key s) as [[[x|]|er] s']; destruct Hs as [Hfs Hs]; (split; [done|]); intros b a; cbn.
  - destruct Hs as (d & Hd' & ->). specialize (Hbig d Hd'). unfold extract_content_length. cbn. rewrite <- Hr, Hd' by done.
    rewrite parse_u64_pretty by lia. by intros [= <-] _.
  - rewrite <- Hr, Hs by done. by intros [= <-] _.
  - destruct er; cbn; try done.
Qed.

(** *** Writes *)

Lemma delete_object_spec key s : object_key key -> let '(r, s') := delete_object data_dir within dir_len key s in
  let m' := fs_files (fs s') in
  match r with
  | Ok code => (code = NOT_FOUND /\ m' = fs_files (fs s) /\ m' !! obj key = None) \/ (code = NO_CONTENT /\ m' = delete (obj key) (fs_files (fs s)))
  | Err er => m' = fs_files (fs s) /\ er <> ENotFound
  end.
Proof.
  intros Hk. unfold delete_object, mbind at 1, SM_bind at 1, sget. destruct (_ && _ && _); [done|].
  unfold mbind at 1, SM_bind at 1. destruct (resolve_object key s Hk) as [(er & ->)| ->]; [done|].
  unfold mbind at 1, SM_bind at 1. pose proof (existing_size_spec (obj key) s) as H. destruct (existing_size dir_len (obj key) s) as [[[n|]|er] s1]; destruct H as [H1 H2].
  2:{ cbn. left. by rewrite H1. }
  2:{ cbn. rewrite H1, H2. done. }
  unfold mbind at 1, SM_bind at 1, os_write. pose proof (next_os_fs s1) as Hn. destruct (next_os s1) as [[] s2]; cbn in Hn; cbn; [by rewrite Hn, H1|].
  unfold fs_remove_file. rewrite Hn, H1. destruct (fs_files (fs s) !! obj key) as [d|] eqn:Hd; cbn; [by right|].
  destruct (is_dir _ _); cbn; [by rewrite Hn, H1|]. unfold absent. destruct (under_file _ _); cbn; rewrite Hn, H1; [done|by left].
Qed.

Lemma represents_delete m s s' key : object_key key -> represents m s -> fs_files (fs s') = delete (obj key) (fs_files (fs s)) -> represents (delete key m) s'.
Proof.
  intros Hk Hr Hf key' Hk'. rewrite Hf. destruct (decide (key' = key)) as [->|Hne]; [by rewrite !lookup_delete_eq|].
  rewrite !lookup_delete_ne by (done || (intros E; apply Hne; by apply obj_inj)). by apply Hr.
Qed.

(** A call that may change one object: the answer says it is changed, an
    error leaves it open. *)
Lemma simulates_write (req : HttpRequest) (h : Response -> result HttpRetryError unit) (g : Store -> Store) :
  (forall m, g (g m) = g m) ->
  (forall m cut s, represents m s -> let '(resp, s') := run req cut s in (represents m s' \/ represents (g m) s') /\
     (cut = None -> forall b a, h (mkResponse (r_status resp) (r_content_range resp) (r_content_length resp) b) = Ok a -> represents (g m) s')) ->
  simulates always (call req h) (Storage.writing g).
Proof.
  intros Hidem Hrun m n Hr _.
  pose proof (retry_call_server req h (fun s => represents m s \/ represents (g m) s) (fun _ s => represents (g m) s) n (or_introl Hr)) as H.
  destruct (call req h n) as [r n']. destruct H as [H1 H2].
  { intros cut s [Hs|Hs]; specialize (Hrun _ cut s Hs); destruct (run req cut s) as [resp s']; destruct Hrun as [H1 H2]; rewrite ?Hidem in *; (split; [tauto|]); eauto. }
  destruct r as [[]|er].
  - exists [], (Ok tt), (mkWorld (g m) []). split; [done|]. split; [done|]. by apply (H2 tt).
  - destruct H1 as [H1|H1]; [exists [FailBefore], (Err storage_error), (mkWorld m [])|exists [FailAfter], (Err storage_error), (mkWorld (g m) [])]; done.
Qed.

Lemma put_simulates key data : object_key key ->
  simulates always (put_bytes data_dir within dir_len token client_token now pr pieces jitter retry key data) (Storage.put key data).
Proof.
  intros Hk. pose proof Hk as (_ & Hu & _). unfold put_bytes. rewrite Hu. apply simulates_write; [intros m; apply insert_insert_eq|].
  intros m cut s Hr. set (sum := default _ _). pose proof (run_put m s key (Z.of_nat (length data)) sum data cut Hk Hr) as H.
  destruct (run _ cut s) as [resp s']. split.
  - destruct (_ && _) in H; [by right|done].
  - intros -> b a Ha. apply check_status_ok in Ha. cbn in Ha. by rewrite Ha, bool_decide_eq_true_2 in H by done.
Qed.

Lemma delete_simulates key : object_key key ->
  simulates always (rest_delete data_dir within dir_len token client_token now pr pieces jitter retry key) (Storage.del key).
Proof.
  intros Hk. pose proof Hk as (_ & Hu & _). unfold rest_delete. rewrite Hu. apply simulates_write; [intros m; apply delete_delete_eq|].
  intros m cut s Hr. unfold run_request. destruct (authorized _ _); cbn [negb]; [|split; [by left|]; cbn; done].
  assert (Hsame : forall s', fs_files (fs s') = fs_files (fs s) -> represents m s') by (intros s' E k Hk'; rewrite E; by apply Hr).
  pose proof (delete_object_spec key s Hk) as H. destruct (delete_object data_dir within dir_len key s) as [[code|er] s'].
  - destruct H as [(-> & Hm & Hn)|(-> & Hm)].
    + assert (represents (delete key m) s').
      { rewrite delete_id; [by apply Hsame|]. rewrite <- (Hsame s' Hm key Hk). done. }
      split; [by right|done].
    + pose proof (represents_delete m s s' key Hk Hr Hm). split; [by right|done].
  - destruct H as [Hm He]. split; [left; by apply Hsame|]. intros _ b a. cbn. by destruct er.
Qed.

(** C34. Six methods of the REST backend with its server - get, put, delete,
    exists, size and get_range - are those of a storage backend as Storage.v
    assumes one, whatever requests, uploads, answers and bodies the network
    loses or cuts off, whatever system calls fail on the server, and however
    often the client repeats a request: an answer is the answer of the
    interface on the objects stored, a write that is reported done is done, a
    write that fails has either had its effect or none, and no operation
    touches another object.  This holds for the keys of objects (without
    slashes around them, and not those of temporary files); for exists and size
    as long as there is no directory where the object would be ([no_dir]), and
    for size as long as the size of the file fits 64 bits ([sized]); a range
    starts and ends at no negative offset; the network delivers a body in
    pieces that are not empty and make up its bytes; and the requests of
    other clients do not come in between.  Listing is not covered: the server
    leaves out directories it fails to read (objects.rs:362-380), so that a
    list can lack keys and still be a success. *)
Theorem rest_refines_storage key : object_key key ->
  simulates always (rest_get data_dir within dir_len token client_token now pr pieces jitter retry key) (Storage.get key) /\
  (forall data, simulates always (put_bytes data_dir within dir_len token client_token now pr pieces jitter retry key data) (Storage.put key data)) /\
  simulates always (rest_delete data_dir within dir_len token client_token now pr pieces jitter retry key) (Storage.del key) /\
  simulates (no_dir key) (rest_exists data_dir within dir_len token client_token now pr pieces jitter retry key) (Storage.exists_ key) /\
  simulates (sized key) (rest_size data_dir within dir_len token client_token now pr pieces jitter retry key) (Storage.size_of key) /\
  (forall offset length, 0 <= offset -> 0 <= length ->
     simulates always (rest_get_range data_dir within dir_len token client_token now pr pieces jitter retry key offset length) (Storage.get_range key offset length)).
Proof.
  intros Hk. split_and!; [by apply get_simulates|intros data; by apply put_simulates|by apply delete_simulates|by apply exists_simulates|by apply size_simulates|].
  intros offset length Ho Hl. by apply range_simulates.
Qed.
End Refinement.

(** ** Progress *)

Section Progress.
Context `{Hhex : HexCodec} `{Hblake : Blake2b} (data_dir : Path) (within : Path -> bool) (dir_len : Path -> Z) (pr : Probe).

(** No limit, now and after a refresh. *)
Definition unlimited (s : AppState) : Prop :=
  effective_limit (quota_state s) = 0 /\ (q_explicit (quota_state s) = true \/ forall u, (detect_auto pr u).2 = 0).

(** The directory tree has room for the file: nothing above it is a file, and
    neither it nor its temporary files are directories. *)
Definition has_room (path : Path) (f : Fs) : Prop :=
  under_file f path = false /\ (path ∉ fs_dirs f) /\ forall i, with_file_name path (temp_name (file_name path) i) ∉ fs_dirs f.

Definition ready (path : Path) (s : AppState) : Prop :=
  os_faults s = [] /\ append_only s = false /\ unlimited s /\ has_room path (fs s).

Lemma ancestors_shorter q (path : Path) : q ∈ ancestors path -> (length q < length path)%nat.
Proof. unfold ancestors. rewrite list_elem_of_fmap. intros (n & -> & Hn). apply elem_of_seq in Hn. rewrite length_take. lia. Qed.

Lemma length_parent (path : Path) : path <> [] -> (length (parent path) < length path)%nat.
Proof. destruct path; [done|]. intros _. unfold parent. rewrite length_take. cbn [length]. lia. Qed.

Lemma length_with_file_name (path : Path) name : path <> [] -> length (with_file_name path name) = length path.
Proof. intros Hp. unfold with_file_name, parent. rewrite length_app, length_take. destruct path; [done|]. cbn [length]. lia. Qed.

Lemma parent_is_ancestor (path : Path) : path <> [] -> parent path ∈ ancestors path.
Proof.
  intros Hp. unfold ancestors. apply list_elem_of_fmap. exists (length path - 1)%nat. split; [done|]. apply elem_of_seq. destruct path; [done|]. cbn [length]. lia.
Qed.

Lemma ancestors_parent q (path : Path) : q ∈ ancestors (parent path) -> q ∈ ancestors path.
Proof.
  unfold ancestors. rewrite !list_elem_of_fmap. intros (n & -> & Hn). apply elem_of_seq in Hn. unfold parent in *. rewrite length_take in Hn.
  exists n. split; [rewrite take_take; f_equal; lia|]. apply elem_of_seq. lia.
Qed.

Lemma under_file_false f path : (under_file f path = false) <-> forall q, q ∈ ancestors path -> fs_files f !! q = None.
Proof.
  unfold under_file. rewrite <- not_true_iff_false, existsb_exists. split.
  - intros H q Hq. destruct (fs_files f !! q) eqn:E; [|done]. destruct H. exists q. split; [by apply list_elem_of_In|]. apply bool_decide_eq_true. by rewrite E.
  - intros H (q & Hq & Hb%bool_decide_eq_true). apply list_elem_of_In in Hq. rewrite (H q Hq) in Hb. by destruct Hb.
Qed.

(** Changes at the length of the path, and directories above it, leave room. *)
Lemma has_room_change path x y : path <> [] ->
  (forall q, (length q < length path)%nat -> fs_files y !! q = fs_files x !! q) ->
  (forall q, q ∈ fs_dirs y -> q ∈ fs_dirs x \/ (length q < length path)%nat) ->
  has_room path x -> has_room path y.
Proof.
  intros Hp Hf Hd (H1 & H2 & H3). rewrite under_file_false in H1. split_and!.
  - apply under_file_false. intros q Hq. rewrite Hf by (by apply ancestors_shorter). by apply H1.
  - intros [H|H]%Hd; [done|lia].
  - intros i [H|H]%Hd; [by apply (H3 i)|]. rewrite length_with_file_name in H by done. lia.
Qed.

Lemma ready_write path f : path <> [] ->
  (forall x y, f x = Ok y -> (forall q, (length q < length path)%nat -> fs_files y !! q = fs_files x !! q) /\
     (forall q, q ∈ fs_dirs y -> q ∈ fs_dirs x \/ (length q < length path)%nat)) ->
  sm_keeps (ready path) (os_write f).
Proof.
  intros Hp Hf s (H1 & H2 & H3 & H4). rewrite os_write_calm by done. destruct (f (fs s)) as [y|] eqn:Hy; [|done].
  destruct (Hf _ _ Hy) as [Ha Hb]. split_and!; try done. by apply (has_room_change path (fs s)).
Qed.

Lemma sm_bind_ok {A B} (m : SM A) (k : A -> SM B) s a s' : m s = (Ok a, s') -> (m ≫= k) s = k a s'.
Proof. intros E. unfold mbind, SM_bind. by rewrite E. Qed.

Section PutReady.
Context (path : Path) (Hp : path <> []).

Lemma ready_dirs : sm_keeps (ready path) (os_write (fs_create_dir_all (parent path))).
Proof.
  apply ready_write; [done|]. intros x y. unfold fs_create_dir_all. destruct (_ || _); [done|]. intros [= <-]. cbn. split; [done|].
  intros q. rewrite elem_of_union, elem_of_list_to_set, elem_of_app, list_elem_of_singleton. intros [[H| ->]|H]; [right|right|by left].
  - apply ancestors_shorter in H. pose proof (length_parent path Hp). lia.
  - by apply length_parent.
Qed.
Lemma ready_create q : length q = length path -> sm_keeps (ready path) (os_write (fs_create q)).
Proof.
  intros Hq. apply ready_write; [done|]. intros x y. unfold fs_create. destruct (is_dir x q); [done|]. destruct (is_dir x _); [|done]. intros [= <-]. cbn.
  split; [|auto]. intros q' Hq'. rewrite lookup_insert_ne; [done|]. intros ->. lia.
Qed.
Lemma ready_append q b : length q = length path -> sm_keeps (ready path) (os_write (fs_append q b)).
Proof.
  intros Hq. apply ready_write; [done|]. intros x y. unfold fs_append. destruct (_ !! q); [|done]. intros [= <-]. cbn.
  split; [|auto]. intros q' Hq'. rewrite lookup_insert_ne; [done|]. intros ->. lia.
Qed.
Lemma ready_remove q : length q = length path -> sm_keeps (ready path) (os_write (fs_remove_file q)).
Proof.
  intros Hq. apply ready_write; [done|]. intros x y. unfold fs_remove_file. destruct (_ !! q); [|done]. intros [= <-]. cbn.
  split; [|auto]. intros q' Hq'. rewrite lookup_delete_ne; [done|]. intros ->. lia.
Qed.
Lemma ready_rename a : length a = length path -> sm_keeps (ready path) (os_write (fs_rename a path)).
Proof.
  intros Hq. apply ready_write; [done|]. intros x y. unfold fs_rename. destruct (_ !! a); [|done]. destruct (is_dir x _); [done|]. destruct (is_dir x _); [|done].
  intros [= <-]. cbn. split; [|auto]. intros q' Hq'. rewrite lookup_insert_ne, lookup_delete_ne; [done|..]; intros ->; lia.
Qed.
Lemma ready_read {A} (g : Fs -> result IoErr A) : sm_keeps (ready path) (os_read g).
Proof. intros s Hs. rewrite os_read_calm by (by destruct Hs). done. Qed.

(** An upload to the file leaves room for the next one. *)
Lemma ready_upload up body : up_path up = path -> length (up_temp up) = length path ->
  forall len now, sm_keeps (ready path) (data ← put_stream up body; put_commit up len data now pr).
Proof.
  intros Hpath Ht len now. assert (Hdrop : forall A er, sm_keeps (ready path) (drop_temp (A := A) (up_temp up) er)).
  { intros A er. apply keeps_bind; [by apply ready_remove|]. intros _. apply keeps_fail. }
  apply keeps_bind.
  - apply keeps_bind; [by apply ready_create|]. intros r. apply keeps_bind; [apply keeps_lift|]. intros _.
    apply keeps_bind; [apply keeps_try|].
    + apply keeps_bind; [|intros d; apply keeps_bind; [apply ready_read|]; intros r'; apply keeps_bind; [apply keeps_lift|]; intros _; apply keeps_ret].
      generalize (@nil Z). induction body as [|rr body IH]; intros written; [apply keeps_ret|].
      destruct rr as [[|b piece]|er]; [apply keeps_ret| |apply keeps_fail]. cbn [stream_body].
      apply keeps_bind; [apply keeps_get|]. intros s. destruct (over_quota _ _ _ _); [apply keeps_fail|].
      apply keeps_bind; [by apply ready_append|]. intros r'. apply keeps_bind; [apply keeps_lift|]. intros _. apply IH.
    + intros [d|er]; [apply keeps_ret|apply Hdrop].
  - intros d. unfold put_commit. cbv zeta. destruct (match len with Some _ => _ | None => _ end); [apply Hdrop|].
    destruct (match up_checksum up with Some _ => _ | None => _ end); [apply Hdrop|].
    apply keeps_bind; [rewrite Hpath; by apply ready_rename|]. intros [[]|er]; [|apply Hdrop].
    apply keeps_bind; [by destruct (_ <? _); intros s Hs|]. intros _.
    apply keeps_bind; [|intros _; apply keeps_ret]. destruct (_ || _); [|apply keeps_ret].
    intros s (H1 & H2 & (H3 & H4) & H5). split_and!; try done. split; cbn; unfold refresh.
    + destruct (q_explicit (quota_state s)) eqn:E; [done|]. destruct H4 as [?|H4]; [done|]. specialize (H4 (quota_usage s)).
      destruct (detect_auto pr (quota_usage s)). done.
    + destruct (q_explicit (quota_state s)) eqn:E; [by left|]. destruct H4 as [?|H4]; [done|]. right. done.
Qed.

Context (key : string) (Hkey : file_path data_dir within key = Some path).

(** An upload for which there is room is admitted. *)
Lemma put_admit_ready s len checksum : ready path s -> (String.length checksum =? 64)%nat && str_all is_ascii_hexdigit checksum = true ->
  exists up s', put_admit data_dir within dir_len key len (Some checksum) s = (Ok up, s') /\ ready path s' /\ parent path ∈ fs_dirs (fs s') /\
    up_path up = path /\ (exists i, up_temp up = with_file_name path (temp_name (file_name path) i)) /\ up_quota up = 0 /\ up_checksum up = Some (to_ascii_lowercase checksum).
Proof.
  intros Hr Hsum. pose proof Hr as (H1 & H2 & (H3 & H4) & (H5 & H6 & H7)). unfold put_admit, resolve. rewrite Hkey. unfold mbind at 1, SM_bind at 1, slift, ok_or.
  unfold mbind at 1, SM_bind at 1. rewrite existing_size_calm by done.
  assert (Hex : exists o, (match fs_metadata dir_len path (fs s) with Ok n => (Ok (Some n), s) | Err IoNotFound => (Ok None, s) | Err er => (Err (from_io er), s) end) = (Ok o : result ServerError (option Z), s)).
  { unfold fs_metadata, is_dir. destruct (fs_files (fs s) !! path); [by eexists|]. rewrite bool_decide_eq_false_2 by done. unfold absent. rewrite H5. by eexists. }
  destruct Hex as [o ->]. unfold mbind at 1, SM_bind at 1, sget. rewrite H2. cbn [andb]. cbv zeta. rewrite H3.
  assert (Hno : forall l, match l with Some n => over_quota 0 (quota_usage s) (default 0 o) n | None => false end = false) by (by intros [n|]).
  rewrite Hno. unfold checksum_header. rewrite Hsum. cbn [negb]. unfold mbind at 1, SM_bind at 1. unfold mbind at 1, SM_bind at 1.
  pose proof (ready_dirs s Hr) as Hrd. rewrite os_write_calm in Hrd |- * by done.
  assert (Hcd : fs_create_dir_all (parent path) (fs s) = Ok (mkFs (fs_files (fs s)) (list_to_set (ancestors (parent path) ++ [parent path]) ∪ fs_dirs (fs s)))).
  { unfold fs_create_dir_all. rewrite under_file_false in H5. assert (Hu : under_file (fs s) (parent path) = false).
    { apply under_file_false. intros q Hq. apply H5. by apply ancestors_parent. }
    rewrite Hu, H5 by (by apply parent_is_ancestor). done. }
  rewrite Hcd in Hrd |- *. eexists _, _. split; [reflexivity|]. cbn. split; [exact Hrd|]. split; [|by eauto 10].
  apply elem_of_union_l, elem_of_list_to_set, elem_of_app. right. by apply list_elem_of_singleton.
Qed.

Lemma stream_body_ready up body written s : ready path s -> up_quota up = 0 -> length (up_temp up) = length path -> Forall (fun b => b <> []) body ->
  fs_files (fs s) !! up_temp up = Some written -> parent path ∈ fs_dirs (fs s) ->
  exists s', stream_body up (Ok <$> body) written s = (Ok (written ++ concat body), s') /\ ready path s' /\
    fs_files (fs s') !! up_temp up = Some (written ++ concat body) /\ parent path ∈ fs_dirs (fs s').
Proof.
  intros Hr Hq Hl Hb. revert written s Hr. induction Hb as [|pc body Hpc Hb IH]; intros written s Hr Hw Hd.
  { exists s. cbn. by rewrite app_nil_r. }
  destruct pc as [|x pc]; [done|]. cbn [fmap list_fmap stream_body]. cbv zeta. unfold mbind at 1, SM_bind at 1, sget. rewrite Hq.
  change (over_quota 0 _ _ _) with false. unfold mbind at 1, SM_bind at 1. assert (Hno : os_faults s = []) by (by destruct Hr).
  pose proof (ready_append (up_temp up) (x :: pc) Hl s Hr) as Hra. rewrite os_write_calm in Hra |- * by done.
  unfold fs_append in Hra |- *. rewrite Hw in Hra |- *. unfold mbind at 1, SM_bind at 1. cbn [io_try slift].
  change (concat ((x :: pc) :: body)) with ((x :: pc) ++ concat body). rewrite app_assoc. apply IH; [exact Hra| |exact Hd]. cbn. by rewrite lookup_insert_eq.
Qed.

(** An upload for which there is room is stored. *)
Lemma put_object_ready s body checksum now : ready path s -> Forall (fun b => b <> []) body ->
  (String.length checksum =? 64)%nat && str_all is_ascii_hexdigit checksum = true -> to_ascii_lowercase checksum = hex_encode (blake2b (concat body)) ->
  exists code s', put_object data_dir within dir_len key (Some (Z.of_nat (length (concat body)))) (Some checksum) (Ok <$> body) now pr s = (Ok code, s').
Proof.
  intros Hr Hb Hsum Hlow. destruct (put_admit_ready s (Some (Z.of_nat (length (concat body)))) checksum Hr Hsum) as (up & s1 & E & Hr1 & Hd1 & Hup & (i & Ht) & Hq & Hc).
  assert (Hlt : length (up_temp up) = length path) by (rewrite Ht; by apply length_with_file_name).
  unfold put_object. rewrite (sm_bind_ok _ _ _ _ _ E). pose proof Hr1 as (Hn1 & _ & _ & (_ & _ & Hnt)).
  pose proof (ready_create (up_temp up) Hlt s1 Hr1) as Hrc. rewrite os_write_calm in Hrc by done.
  assert (Hcr : fs_create (up_temp up) (fs s1) = Ok (mkFs (<[up_temp up := []]> (fs_files (fs s1))) (fs_dirs (fs s1)))).
  { unfold fs_create, is_dir. rewrite bool_decide_eq_false_2 by (by rewrite Ht). assert (Hpt : parent (up_temp up) = parent path).
    { rewrite Ht. unfold with_file_name. unfold parent at 1. rewrite length_app. cbn [length].
      replace (length (parent path) + 1 - 1)%nat with (length (parent path)) by lia. by rewrite take_app_length. }
    rewrite Hpt, bool_decide_eq_true_2 by done. done. }
  rewrite Hcr in Hrc. set (s2 := set_fs _ s1) in *.
  destruct (stream_body_ready up body [] s2 Hrc Hq Hlt Hb) as (s3 & E3 & Hr3 & Hf3 & Hd3); [cbn; by rewrite lookup_insert_eq|exact Hd1|]. cbn [app] in E3, Hf3.
  assert (Hn3 : os_faults s3 = []) by (by destruct Hr3).
  assert (Est : put_stream up (Ok <$> body) s1 = (Ok (concat body), s3)).
  { unfold put_stream. erewrite sm_bind_ok; [|rewrite os_write_calm, Hcr by done; reflexivity]. erewrite sm_bind_ok; [|reflexivity]. fold s2.
    assert (Etry : stry (data ← stream_body up (Ok <$> body) []; r ← os_read (fun _ => Ok tt); _ ← io_try r; mret data) s2 = (Ok (Ok (concat body)), s3)).
    { unfold stry. rewrite (sm_bind_ok _ _ _ _ _ E3). erewrite sm_bind_ok; [|rewrite os_read_calm by done; reflexivity]. done. }
    rewrite (sm_bind_ok _ _ _ _ _ Etry). done. }
  rewrite (sm_bind_ok _ _ _ _ _ Est). unfold put_commit. cbv zeta. rewrite Z.eqb_refl. cbn [negb]. rewrite Hc, Hlow, String.eqb_refl. cbn [negb].
  pose proof Hr3 as (_ & _ & _ & (_ & Hnd & _)).
  erewrite sm_bind_ok.
  2:{ rewrite os_write_calm by done. unfold fs_rename. rewrite Hf3, Hup. unfold is_dir. rewrite bool_decide_eq_false_2 by done.
      rewrite bool_decide_eq_true_2 by done. reflexivity. }
  destruct (up_old_size up <? Z.of_nat _); (erewrite sm_bind_ok; [|reflexivity]); destruct (_ || _); by eexists _, _.
Qed.

Lemma ready_put s body len checksum now : ready path s -> ready path (put_object data_dir within dir_len key len checksum body now pr s).2.
Proof.
  intros Hr. unfold put_object, mbind at 1, SM_bind at 1.
  assert (Hadm : let '(r, s') := put_admit data_dir within dir_len key len checksum s in ready path s' /\
    (forall up, r = Ok up -> up_path up = path /\ length (up_temp up) = length path)).
  { unfold put_admit, resolve. rewrite Hkey. unfold mbind at 1, SM_bind at 1, slift, ok_or. unfold mbind at 1, SM_bind at 1.
    assert (Hno : os_faults s = []) by (by destruct Hr). rewrite existing_size_calm by done. destruct (fs_metadata dir_len path (fs s)) as [n|[]]; [| |done];
      unfold mbind at 1, SM_bind at 1, sget; (destruct (_ && _ && _); [done|]); cbv zeta; (destruct (match len with Some _ => _ | None => _ end); [done|]);
      unfold mbind at 1, SM_bind at 1; (destruct (checksum_header key checksum) as [expected|]; [|done]);
      unfold mbind at 1, SM_bind at 1; pose proof (ready_dirs s Hr) as Hrd; destruct (os_write _ s) as [[[[]|er]|er] s1]; try done;
      cbn; (split; [exact Hrd|]); intros up [= <-]; (split; [done|]); by apply length_with_file_name. }
  destruct (put_admit _ _ _ _ _ _ s) as [[up|er] s1]; [|by destruct Hadm]. destruct Hadm as [Hr1 Hu]. destruct (Hu up eq_refl) as [Hup Hlt].
  pose proof (ready_upload up body Hup Hlt len now s1 Hr1) as H. revert H.
  match goal with |- context [snd (?m s1)] => destruct (m s1) as [[] s2] end; done.
Qed.
End PutReady.
End Progress.

(** ** Termination *)

Section Bounded.
Context {St R T : Type} (f : St -> result UreqError R * St) (handle_response : R -> result HttpRetryError T) (jitter : nat -> Z).

(** The request, counted. *)
Definition counted (x : nat * St) : result UreqError R * (nat * St) := let '(r, st) := f x.2 in (r, (S x.1, st)).

Lemma retry_loop_bounded tries max_delay delay x bound :
  (forall i, 0 <= jitter i) -> 0 <= delay <= bound -> 0 <= max_delay <= bound -> 1 <= bound -> 2 * bound <= u64_max ->
  let '(_, x', pauses) := retry_loop counted handle_response jitter tries max_delay delay x in
  x'.1 = (x.1 + length pauses + 1)%nat /\ (length pauses <= tries)%nat /\ Forall (fun p => 0 <= p < 2 * bound) pauses.
Proof.
  intros Hj Hd Hm Hb Hu. revert delay x Hd. induction tries as [|tries IH]; intros delay x Hd; cbn [retry_loop]; unfold attempt, counted at 1;
    destruct (f x.2) as [r st].
  - destruct (match r with Ok _ => _ | Err _ => _ end) as [a|er]; [|destruct (is_retryable er)]; cbn; (split; [lia|]); (split; [lia|constructor]).
  - destruct (match r with Ok _ => _ | Err _ => _ end) as [a|er]; [cbn; split; [lia|]; split; [lia|constructor]|].
    destruct (is_retryable er); [|cbn; split; [lia|]; split; [lia|constructor]].
    assert (Hw : u64_wrap (delay * 2) = delay * 2) by (apply Z.mod_small; unfold u64_max in Hu; lia). rewrite Hw.
    specialize (IH (Z.min (delay * 2) max_delay) (S x.1, st) ltac:(lia)).
    destruct (retry_loop counted handle_response jitter tries _ _ _) as [[r' x'] pauses]. destruct IH as (H1 & H2 & H3). cbn [fst length] in *.
    split; [lia|]. split; [lia|]. constructor; [|done].
    pose proof (Z.mod_pos_bound (jitter tries) (Z.max delay 1) ltac:(lia)) as Hp. unfold u64_add.
    rewrite u64_wrap_small; [lia|]. unfold u64, u64_max in *. lia.
Qed.
End Bounded.

(** C40. Retrying ends: however the network and the server behave, an operation
    sends at most one request more than the retries configured, and no pause
    between two of them is as long as twice the larger of the initial and the
    largest delay. *)
Theorem retry_http_bounded {St R T} (f : St -> result UreqError R * St) (h : R -> result HttpRetryError T) jitter config st :
  (forall i, 0 <= jitter i) -> 1 <= retry_delay_ms config -> 1 <= retry_max_delay_ms config ->
  let bound := Z.max (retry_delay_ms config) (retry_max_delay_ms config) in 2 * bound <= u64_max ->
  let '(_, x, pauses) := retry_http (counted f) h jitter config (O, st) in
  (x.1 <= max_retries config + 1)%nat /\ (length pauses <= max_retries config)%nat /\ Forall (fun p => 0 <= p < 2 * bound) pauses.
Proof.
  intros Hj Hd Hm bound Hu. pose proof (retry_loop_bounded f h jitter (max_retries config) (retry_max_delay_ms config) (retry_delay_ms config) (O, st) bound Hj) as H.
  unfold retry_http. destruct (retry_loop _ _ _ _ _ _ _) as [[r x] pauses]. destruct H as (H1 & H2 & H3); [unfold bound; lia..|done|]. cbn in H1. split_and!; [lia|lia|done].
Qed.

Lemma retry_http_bounded_witness :
  let config := mkRetry 3 1000 60000 in let down := fun n : nat => (Err UTimeout : result UreqError unit, n) in
  let '(_, x, pauses) := retry_http (counted down) (fun _ => Ok tt) (fun _ => 7) config (O, O) in
  (x.1 <= 4)%nat /\ (length pauses <= 3)%nat /\ Forall (fun p => 0 <= p < 120000) pauses.
Proof.
  intros config down. apply (retry_http_bounded down (fun _ => Ok tt) (fun _ => 7) config O); [intros i; lia|vm_compute; discriminate..].
Defined.

(** ** Liveness *)

Section Liveness.
Context `{Hhex : HexCodec} `{Hblake : Blake2b} (data_dir : Path) (within : Path -> bool) (dir_len : Path -> Z).
Context (token : string) (now : Z) (pr : Probe) (pieces : bytes -> list bytes) (jitter : nat -> Z) (retry : RetryConfig).
Hypothesis pieces_concat : forall data, concat (pieces data) = data.
Hypothesis pieces_nonempty : forall data, Forall (fun p => p <> []) (pieces data).

(** What passes: the network loses a request or an answer, or cuts off. *)
Definition transient (x : Fate) : bool :=
  match x with
  | Unsent er | CutUpload _ er | Unanswered er => is_retryable_transport er
  | Delivered | CutBody _ => true
  end.

Lemma authorized_self : authorized token (authorization (Some token)) = true.
Proof. unfold authorized, authorization. cbn [fmap option_fmap option_map mbind option_bind]. rewrite strip_prefix_app. cbn. apply String.eqb_refl. Qed.

Lemma lower_char_hex a : is_digit a || is_lower_af a = true -> lower_char a = a.
Proof. destruct a as [[] [] [] [] [] [] [] []]; cbn; intros; first [reflexivity|discriminate]. Qed.

Lemma lower_hex s : str_all (fun a => is_digit a || is_lower_af a) s = true -> to_ascii_lowercase s = s.
Proof. induction s as [|a s IH]; cbn [str_all to_ascii_lowercase]; [done|]. intros [Ha Hs]%andb_true_iff. by rewrite lower_char_hex, IH. Qed.

(** The checksum the client sends is one the server takes. *)
Lemma checksum_taken key data : (forall hex, try_extract_pack_hex key = Some hex -> to_ascii_lowercase hex = hex_encode (blake2b data)) ->
  let checksum := default (compute_blake2b_256_hex data) (try_extract_pack_hex key) in
  (String.length checksum =? 64)%nat && str_all is_ascii_hexdigit checksum = true /\ to_ascii_lowercase checksum = hex_encode (blake2b data).
Proof.
  intros Hk. destruct (try_extract_pack_hex key) as [hex|] eqn:Hh; cbn [default from_option].
  - split; [|by apply Hk]. unfold try_extract_pack_hex in Hh. destruct (strip_prefix key "packs/") as [rest|]; [|done]. cbn in Hh.
    destruct (_ <=? 2)%nat; [done|]. destruct (_ && _) eqn:E; [|done]. by injection Hh as <-.
  - unfold compute_blake2b_256_hex. pose proof (blake2b_id data) as [Hl Hb]. pose proof (hex_encode_digits _ Hb) as Hd. split.
    + rewrite hex_encode_length, Hl. cbn [Nat.mul Nat.eqb Nat.add andb]. clear -Hd. induction (hex_encode (blake2b data)) as [|a s IH]; [done|].
      cbn [str_all] in *. apply andb_true_iff in Hd as [Ha Hs]. by rewrite (hex_digit_is_hexdigit a Ha), IH.
    + by apply lower_hex.
Qed.

Lemma put_attempts key path data tries max_delay delay n :
  path <> [] -> file_path data_dir within key = Some path -> ready pr path (server n) ->
  (forall hex, try_extract_pack_hex key = Some hex -> to_ascii_lowercase hex = hex_encode (blake2b data)) ->
  Forall (fun x => transient x = true) (fates n) -> (length (fates n) <= tries)%nat ->
  let checksum := default (compute_blake2b_256_hex data) (try_extract_pack_hex key) in
  exists n' pauses, retry_loop (exchange data_dir within dir_len token (Some token) now pr pieces (HPut key (Z.of_nat (length data)) checksum data))
    check_status jitter tries max_delay delay n = (Ok tt, n', pauses).
Proof.
  intros Hp Hk Hr Hsum Hf Hl checksum. destruct (checksum_taken key data Hsum) as [Hc1 Hc2]. fold checksum in Hc1, Hc2.
  set (req := HPut key (Z.of_nat (length data)) checksum data). set (run := run_request data_dir within dir_len token (Some token) now pr pieces req).
  assert (Hgood : forall s, ready pr path s -> exists code s', run None s = (bare code, s') /\ (400 <=? code) = false).
  { intros s Hs. unfold run, run_request, req. rewrite authorized_self. cbn [negb]. cbv zeta.
    destruct (put_object_ready data_dir within dir_len pr path Hp key Hk s (pieces data) checksum now Hs) as (code & s' & E); [done|done|by rewrite pieces_concat|].
    rewrite pieces_concat in E. pose proof (put_object_spec data_dir within dir_len s key (Some (Z.of_nat (length data))) (Some checksum) (Ok <$> pieces data) now pr) as Hsp.
    rewrite E in Hsp |- *. destruct Hsp as (q & d & Hst). exists code, s'. split; [done|]. rewrite (st_code _ _ _ _ _ _ _ _ _ _ _ Hst). by destruct (0 <? _). }
  assert (Hkeep : forall cut s, ready pr path s -> ready pr path (run cut s).2).
  { intros cut s Hs. unfold run, run_request, req. rewrite authorized_self. cbn [negb]. cbv zeta.
    pose proof (ready_put data_dir within dir_len pr path Hp key Hk s (match cut with None => Ok <$> pieces data | Some k => take k (Ok <$> pieces data) ++ [Err IoOther] end)
      (Some (Z.of_nat (length data))) (Some checksum) now Hs) as H. by destruct (put_object _ _ _ _ _ _ _ _ _ s). }
  revert delay n Hr Hf Hl. induction tries as [|tries IH]; intros delay n Hr Hf Hl; cbn [retry_loop]; unfold attempt, exchange, next_fate; fold run.
  - destruct (fates n) eqn:Hfn; [|cbn in Hl; lia]. destruct (Hgood _ Hr) as (code & s' & -> & Hcode). unfold check_status. cbn. rewrite Hcode. by eexists _, _.
  - destruct (fates n) as [|x l] eqn:Hfn.
    { destruct (Hgood _ Hr) as (code & s' & -> & Hcode). unfold check_status. cbn. rewrite Hcode. by eexists _, _. }
    apply Forall_cons in Hf as [Hx Hf]. cbn [length] in Hl. cbn [server fates].
    assert (Hgo : forall er s', is_retryable_transport er = true -> ready pr path s' -> forall pause,
      exists n' pauses, (let '(r, st, pauses) := retry_loop (exchange data_dir within dir_len token (Some token) now pr pieces req) check_status jitter tries max_delay
         (Z.min (u64_wrap (delay * 2)) max_delay) (mkNet s' l) in (r, st, pause :: pauses)) = (Ok tt, n', pauses)).
    { intros er s' _ Hs' pause. destruct (IH (Z.min (u64_wrap (delay * 2)) max_delay) (mkNet s' l) Hs' Hf ltac:(cbn; lia)) as (n' & pauses & ->). by eexists _, _. }
    destruct x as [|er|k er|er|k]; cbn in Hx.
    + destruct (Hgood _ Hr) as (code & s' & -> & Hcode). unfold check_status. cbn. rewrite Hcode. by eexists _, _.
    + rewrite Hx. cbn [is_retryable]. by apply (Hgo er).
    + pose proof (Hkeep (Some k) _ Hr) as Hs. unfold req at 1. fold req. destruct (run (Some k) (server n)) as [resp s']. rewrite Hx. cbn [is_retryable]. by apply (Hgo er).
    + pose proof (Hkeep None _ Hr) as Hs. destruct (run None (server n)) as [resp s']. rewrite Hx. cbn [is_retryable]. by apply (Hgo er).
    + destruct (Hgood _ Hr) as (code & s' & -> & Hcode). unfold check_status. cbn. rewrite Hcode. by eexists _, _.
Qed.

(** Uploads get through: over a network that loses requests or answers or
    cuts uploads off, no more often than the client retries, to a server that
    is not append-only, has no quota, room for the file and system calls that
    work, an upload succeeds and the object is stored, even when earlier
    attempts were stored or left half-written. *)
Theorem upload_gets_through key path data m n :
  object_key key -> file_path data_dir within key = Some path -> path <> [] -> ready pr path (server n) ->
  (forall hex, try_extract_pack_hex key = Some hex -> to_ascii_lowercase hex = hex_encode (blake2b data)) ->
  Forall (fun x => transient x = true) (fates n) -> (length (fates n) <= max_retries retry)%nat -> represents data_dir m (server n) ->
  exists n', put_bytes data_dir within dir_len token (Some token) now pr pieces jitter retry key data n = (Ok tt, n') /\
    represents data_dir (<[key := data]> m) (server n').
Proof.
  intros Hk Hf Hp Hr Hsum Hfa Hl Hm. pose proof (put_simulates data_dir within dir_len token (Some token) now pr pieces jitter retry pieces_concat pieces_nonempty key data Hk m n Hm I) as Hs.
  pose proof Hk as (_ & Hu & _). assert (E : exists n', put_bytes data_dir within dir_len token (Some token) now pr pieces jitter retry key data n = (Ok tt, n')).
  { unfold put_bytes, retry_call, retry_http. rewrite Hu.
    destruct (put_attempts key path data (max_retries retry) (retry_max_delay_ms retry) (retry_delay_ms retry) n Hp Hf Hr Hsum Hfa Hl) as (n' & pauses & ->). by exists n'. }
  destruct E as [n' E]. rewrite E in Hs. exists n'. split; [done|]. destruct Hs as (fl & r' & w' & Hput & Hans & Hrep). destruct r' as [[]|]; [|done].
  unfold Storage.put, Storage.writing in Hput. destruct (next_fault (mkWorld m fl)) as [flt w1] eqn:Hnf. destruct flt; try discriminate. injection Hput as <-.
  unfold next_fault in Hnf. cbn in Hnf. destruct fl as [|[] fl]; try discriminate Hnf; injection Hnf as <-; done.
Qed.
End Liveness.

(** ** Examples *)

Definition rt_retry : RetryConfig := mkRetry 2 1000 60000.
Definition rt_pieces (data : bytes) : list bytes := (fun b => [b]) <$> data.
Definition rt_server (append : bool) : AppState :=
  mkApp append (mkFs ∅ {[ ["srv"] ]}) 0 (mkQuota Unlimited 0 false) None 0 0 [].
#[local] Abbreviation rt_put key data n := (put_bytes sv_dir (fun _ => true) (fun _ => 0) "t" (Some "t") 0 sv_none rt_pieces (fun _ => 0) rt_retry key data n).

Lemma rt_pieces_concat data : concat (rt_pieces data) = data.
Proof. unfold rt_pieces. induction data as [|b data IH]; [done|]. cbn. f_equal. exact IH. Qed.
Lemma rt_pieces_nonempty data : Forall (fun p => p <> []) (rt_pieces data).
Proof. apply Forall_fmap, Forall_true. done. Qed.
Lemma rt_key : object_key "snapshots/a".
Proof. split_and!; first [discriminate|reflexivity]. Qed.
Lemma rt_represents : represents sv_dir ∅ (rt_server false).
Proof. intros key _. by rewrite !lookup_empty. Qed.

(** An upload whose answer is lost. *)
Lemma rest_refines_storage_witness :
  let n := mkNet (rt_server false) [Unanswered UTimeout; CutUpload 1 UTimeout] in
  let '(r, n') := rt_put "snapshots/a" [1; 2] n in
  exists fl r' w', Storage.put "snapshots/a" [1; 2] (mkWorld ∅ fl) = (r', w') /\ same_answer r r' /\ represents sv_dir (objects w') (server n').
Proof.
  intros n.
  pose proof (rest_refines_storage sv_dir (fun _ => true) (fun _ => 0) "t" (Some "t") 0 sv_none rt_pieces (fun _ => 0) rt_retry rt_pieces_concat rt_pieces_nonempty
    "snapshots/a" rt_key) as (_ & H & _).
  exact (H [1; 2] ∅ n rt_represents I).
Defined.

Lemma upload_gets_through_witness :
  let n := mkNet (rt_server false) [Unanswered UTimeout; CutUpload 1 UTimeout] in
  exists n', rt_put "snapshots/a" [1; 2] n = (Ok tt, n') /\ represents sv_dir (<["snapshots/a" := [1; 2]]> ∅) (server n').
Proof.
  intros n. apply (upload_gets_through sv_dir (fun _ => true) (fun _ => 0) "t" 0 sv_none rt_pieces (fun _ => 0) rt_retry rt_pieces_concat rt_pieces_nonempty
    "snapshots/a" ["srv"; "snapshots"; "a"] [1; 2] ∅ n rt_key).
  - vm_compute. reflexivity.
  - discriminate.
  - split; [reflexivity|]. split; [reflexivity|]. split; [split; [reflexivity|right; intros u; reflexivity]|]. split; [reflexivity|]. split.
    + cbn. set_solver.
    + intros i. cbn. rewrite elem_of_singleton. discriminate.
  - intros hex Hh. vm_compute in Hh. discriminate.
  - repeat (apply Forall_cons; split; [reflexivity|]). by apply Forall_nil.
  - cbn. lia.
  - exact rt_represents.
Defined.

(** On an append-only server the repetition of an upload whose answer was lost
    is refused: the client reports an error for an object that is stored. *)
Lemma append_only_lost_answer :
  let '(r, n') := rt_put "snapshots/a" [1; 2] (mkNet (rt_server true) [Unanswered UTimeout]) in
  r = Err (Other "REST") /\ fs_files (fs (server n')) !! ["srv"; "snapshots"; "a"] = Some [1; 2].
Proof. vm_compute. split; reflexivity. Qed.
