(* ===== verification/CheckServer.v ===== *)
(** * Verification of packs by the server, the client's side
      (crates/vykar-core/src/commands/check.rs)

    [vykar check] asks a server that can to verify packs itself, in batches
    of bounded size, and checks what is left on the client.  The server is a
    parameter: any operation that answers a plan.  The theorems compose this
    loop with the server of ServerRead.v. *)

From S2P Require Import Prelude Types Protocol Storage ChunkIndex Pack ServerPath Server ServerRead.
#[local] Open Scope string_scope.
#[local] Open Scope list_scope.
#[local] Open Scope Z_scope.

Record CheckError := mkCheckError { ce_context : string; ce_message : string }.

Definition SERVER_VERIFY_BATCH_SIZE : nat := 100.
Definition SERVER_VERIFY_MAX_BYTES : Z := 2 * 1024 * 1024 * 1024.

(** A pack with the chunks the index places in it. *)
Abbreviation PackChunks := (PackId * list (ChunkId * ChunkIndexEntry))%type.

(** The grouping by pack all of check works with; [skip] are packs left out. *)
Definition push_chunk (skip : gset PackId) (m : gmap PackId (list (ChunkId * ChunkIndexEntry))) (kv : ChunkId * ChunkIndexEntry) :
    gmap PackId (list (ChunkId * ChunkIndexEntry)) :=
  if decide (pack_id kv.2 ∈ skip) then m
  else <[pack_id kv.2 := default [] (m !! pack_id kv.2) ++ [kv]]> m.
Definition group_by_pack (skip : gset PackId) (ix : ChunkIndex) : gmap PackId (list (ChunkId * ChunkIndexEntry)) :=
  foldl (push_chunk skip) ∅ (map_to_list ix).

(** [Iterator::sum] over [u64] wraps as addition does. *)
Definition estimate_pack_bytes (chunks : list (ChunkId * ChunkIndexEntry)) : Z :=
  u64_add (Z.of_nat PACK_HEADER_SIZE)
    (foldl (fun n kv => u64_add n (4 + stored_size kv.2)) 0 chunks).

Inductive ServerVerifyOutcome :=
  | VerifyOk (errors : list CheckError) (packs_responded packs_passed chunks_verified : nat) (verified_packs : gset PackId)
  | VerifyFallback.

Record ProcessedVerifyResult := mkProcessed { pv_responded : nat; pv_passed : nat; pv_chunks : nat }.

(** What a result says when it is not clean; of the error text the constant
    part. *)
Definition verify_error_text (er : VerifyError) : string :=
  match er with
  | InvalidPackPath => "invalid pack path"
  | StatFailed => "stat failed"
  | ReadFailed => "read failed"
  | ReadError => "read error"
  | HashMismatch => "hash mismatch"
  | InvalidHeader => "invalid pack header"
  | BoundaryMismatch => "blob boundary mismatch"
  end.

Section CheckServer.
Context `{Hhex : HexCodec}.

Definition request_of (include_blobs : bool) (p : PackChunks) : VerifyPackRequest :=
  mkVerifyPack (pack_storage_key p.1) (estimate_pack_bytes p.2)
    (if include_blobs then (fun kv => mkVerifyBlob (pack_offset kv.2) (stored_size kv.2)) <$> p.2 else []).
Definition build_verify_request (packs : list PackChunks) (include_blobs : bool) : VerifyPacksPlanRequest :=
  mkVerifyPlan (request_of include_blobs <$> packs) PROTOCOL_VERSION.

(** ** Reading a response *)

Definition failed_checks (r : VerifyPackResult) : list string :=
  (if hash_valid r then [] else ["hash"]) ++ (if header_valid r then [] else ["header"]) ++
  (if blobs_valid r then [] else ["blobs"]).
Definition failure_message (r : VerifyPackResult) : string :=
  match vr_error r with
  | Some er => "pack " +:+ vr_pack_key r +:+ ": " +:+ verify_error_text er
  | None => "pack " +:+ vr_pack_key r +:+ ": verification failed (" +:+ String.concat ", " (failed_checks r) +:+ ")"
  end.
Definition result_clean (r : VerifyPackResult) : bool :=
  hash_valid r && header_valid r && blobs_valid r && match vr_error r with None => true | Some _ => false end.

(** The loop over the results; [seen] are the keys already answered for. *)
Fixpoint process_results (requested : gmap string nat) (results : list VerifyPackResult) (seen : gset string)
    (n : ProcessedVerifyResult) (errors : list CheckError) : gset string * ProcessedVerifyResult * list CheckError :=
  match results with
  | [] => (seen, n, errors)
  | r :: results' =>
      match requested !! vr_pack_key r with
      | None => process_results requested results' seen n errors
      | Some chunk_count =>
          if decide (vr_pack_key r ∈ seen) then process_results requested results' seen n errors
          else
            let seen := {[ vr_pack_key r ]} ∪ seen in
            if result_clean r then
              process_results requested results' seen
                (mkProcessed (S (pv_responded n)) (S (pv_passed n)) (pv_chunks n + chunk_count)) errors
            else
              process_results requested results' seen (mkProcessed (S (pv_responded n)) (pv_passed n) (pv_chunks n))
                (errors ++ [mkCheckError "server-verify" (failure_message r)])
      end
  end.

Definition missing_errors (seen : gset string) (requested_packs : list (string * nat)) : list CheckError :=
  (fun kn => mkCheckError "server-verify" ("pack " +:+ kn.1 +:+ " not included in server response")) <$>
    List.filter (fun kn => bool_decide (kn.1 ∉ seen)) requested_packs.

(** [collect] into a [HashMap]: a later pair replaces an earlier one. *)
Definition requested_map (requested_packs : list (string * nat)) : gmap string nat :=
  foldl (fun m kn => <[kn.1 := kn.2]> m) ∅ requested_packs.

Definition process_verify_response (resp : VerifyPacksResponse) (requested_packs : list (string * nat))
    (errors : list CheckError) : ProcessedVerifyResult * list CheckError :=
  let '(seen, n, errors) :=
    process_results (requested_map requested_packs) (vr_results resp) ∅ (mkProcessed 0 0 0) errors in
  (n, if truncated resp then errors else errors ++ missing_errors seen requested_packs).

(** ** The batches *)

(** [end - offset] of the next batch: the loop that respects the number of
    packs and their volume. *)
Fixpoint batch_len (rest : list PackChunks) (n : nat) (batch_bytes : Z) : nat :=
  match rest with
  | [] => n
  | p :: rest' =>
      if (n <? SERVER_VERIFY_BATCH_SIZE)%nat
         && ((n =? 0)%nat || (u64_add batch_bytes (estimate_pack_bytes p.2) <=? SERVER_VERIFY_MAX_BYTES))
      then batch_len rest' (S n) (u64_add batch_bytes (estimate_pack_bytes p.2))
      else n
  end.

Record VerifyTotals := mkTotals {
  vt_errors : list CheckError;
  vt_responded : nat;
  vt_passed : nat;
  vt_chunks : nat;
  vt_verified : gset PackId;
}.
Definition outcome_of (t : VerifyTotals) : ServerVerifyOutcome :=
  VerifyOk (vt_errors t) (vt_responded t) (vt_passed t) (vt_chunks t) (vt_verified t).

(** The server, as [StorageBackend::server_verify_packs] shows it. *)
Context (server_verify_packs : VerifyPacksPlanRequest -> M VerifyPacksResponse).

(** The packs from [offset] on; every turn moves past one at least, so their
    number bounds the turns. *)
Fixpoint verify_batches (fuel : nat) (verify_data : bool) (packs : list PackChunks) (is_first_batch : bool)
    (t : VerifyTotals) : M ServerVerifyOutcome :=
  match packs, fuel with
  | [], _ => mret (outcome_of t)
  | _, O => mret (outcome_of t)
  | _, S fuel' =>
      let n := batch_len packs 0 0 in
      let batch := take n packs in
      r ← try_ (server_verify_packs (build_verify_request batch verify_data));
      match r with
      | Err (UnsupportedBackend _) => mret VerifyFallback
      | Err _ => if is_first_batch then mret VerifyFallback else mret (outcome_of t)
      | Ok resp =>
          let '(result, errors) :=
            process_verify_response resp ((fun p => (pack_storage_key p.1, length p.2)) <$> batch) (vt_errors t) in
          let packs_covered := if truncated resp then pv_responded result else n in
          let t := mkTotals errors (vt_responded t + pv_responded result) (vt_passed t + pv_passed result)
            (vt_chunks t + pv_chunks result) (vt_verified t ∪ list_to_set (take packs_covered packs).*1) in
          let step := if truncated resp then Nat.max packs_covered 1 else n in
          verify_batches fuel' verify_data (drop step packs) false t
      end
  end.

Definition try_server_verify (pack_chunks : gmap PackId (list (ChunkId * ChunkIndexEntry))) (verify_data : bool) :
    M ServerVerifyOutcome :=
  verify_batches (size pack_chunks) verify_data (map_to_list pack_chunks) true (mkTotals [] 0 0 0 ∅).
End CheckServer.

(** ** The batches fit the server's limits *)

Section BatchLaws.
Context `{Hhex : HexCodec}.

(** A pack the server can be asked about: typed, not too large, and without
    empty blobs. *)
Definition askable (p : PackChunks) : Prop :=
  is_id (pack_bytes p.1) /\ 0 < estimate_pack_bytes p.2 <= SERVER_VERIFY_MAX_BYTES /\
  Forall (fun kv => 0 < stored_size kv.2 <= u32_max /\ 0 <= pack_offset kv.2 /\ pack_offset kv.2 + stored_size kv.2 <= u64_max) p.2.

Definition batch_volume (packs : list PackChunks) : Z := fold_right (fun p n => estimate_pack_bytes p.2 + n) 0 packs.

Lemma batch_len_spec rest : forall n bytes,
  Forall askable rest -> (n <= SERVER_VERIFY_BATCH_SIZE)%nat -> 0 <= bytes <= SERVER_VERIFY_MAX_BYTES -> (n = 0%nat -> bytes = 0) ->
  exists k, batch_len rest n bytes = (n + k)%nat /\ (n + k <= SERVER_VERIFY_BATCH_SIZE)%nat /\ (k <= length rest)%nat /\
    bytes + batch_volume (take k rest) <= SERVER_VERIFY_MAX_BYTES /\ (n = 0%nat -> rest <> [] -> (1 <= k)%nat).
Proof.
  induction rest as [|p rest IH]; intros n bytes Ha Hn Hb H0; cbn [batch_len].
  { exists 0%nat. cbn. split_and!; (lia || done). }
  apply Forall_cons in Ha as [(Hid & Hest & _) Ha].
  destruct (_ && _) eqn:Hc.
  - apply andb_true_iff in Hc as [Hlt%Nat.ltb_lt Hc].
    assert (Hsum : u64_add bytes (estimate_pack_bytes p.2) = bytes + estimate_pack_bytes p.2).
    { apply u64_wrap_small. unfold SERVER_VERIFY_MAX_BYTES in *. unfold_ints. lia. }
    rewrite Hsum in *. clear Hsum. assert (Hfit : bytes + estimate_pack_bytes p.2 <= SERVER_VERIFY_MAX_BYTES).
    { apply orb_true_iff in Hc as [Hz%Nat.eqb_eq|Hle%Z.leb_le]; [|done]. rewrite (H0 Hz). lia. }
    destruct (IH (S n) (bytes + estimate_pack_bytes p.2)) as (k & E & H1 & H2 & H3 & _); [done|exact Hlt|lia|done|].
    exists (S k). cbn [take length]. unfold batch_volume in *. cbn [fold_right]. rewrite E. split_and!; lia.
  - exists 0%nat. cbn. split_and!; try lia. intros -> _. rewrite (H0 eq_refl) in Hc. unfold SERVER_VERIFY_BATCH_SIZE in Hc. cbn in Hc. discriminate.
Qed.

Lemma validate_entries_volume include packs : forall total,
  Forall askable packs -> 0 <= total -> total + batch_volume packs <= SERVER_VERIFY_MAX_BYTES ->
  validate_verify_entries (request_of include <$> packs) total = Some (total + batch_volume packs).
Proof.
  induction packs as [|p packs IH]; intros total Ha Ht Hv; cbn [fmap list_fmap validate_verify_entries].
  { cbn. f_equal. lia. }
  apply Forall_cons in Ha as [(Hid & Hest & Hch) Ha]. unfold batch_volume in *. cbn [fold_right] in *. fold (batch_volume packs) in *.
  cbn [request_of vp_pack_key expected_size expected_blobs]. rewrite pack_storage_key_valid by done. cbn [negb].
  assert (Hnn : 0 <= batch_volume packs).
  { clear -Ha. induction Ha as [|q l (_ & [? _] & _) Ha IH]; unfold batch_volume in *; cbn [fold_right]; lia. }
  destruct (Z.eqb_spec (estimate_pack_bytes p.2) 0); [lia|].
  assert (Hbl : validate_verify_blobs (if include then (fun kv => mkVerifyBlob (pack_offset kv.2) (stored_size kv.2)) <$> p.2 else []) = true).
  { destruct include; [|done]. unfold validate_verify_blobs. apply forallb_forall. intros b Hb%list_elem_of_In.
    apply list_elem_of_fmap in Hb as (kv & -> & Hin). rewrite Forall_forall in Hch. destruct (Hch kv Hin) as (H1 & H2 & H3).
    unfold validate_blob_ref. cbn [vb_offset vb_length]. destruct (Z.eqb_spec (stored_size kv.2) 0); [lia|].
    destruct (Z.ltb_spec u32_max (stored_size kv.2)); [lia|]. destruct (Z.ltb_spec u64_max (pack_offset kv.2 + stored_size kv.2)); [lia|done]. }
  rewrite Hbl. cbn [negb].
  assert (Hs : u64_sat_add total (estimate_pack_bytes p.2) = total + estimate_pack_bytes p.2).
  { unfold SERVER_VERIFY_MAX_BYTES in *. unfold u64_sat_add, u64_max, u64_modulus in *. lia. }
  rewrite Hs, IH by (done || lia). f_equal. lia.
Qed.

(** Every batch the client puts together passes the server's validation:
    it has at least one pack and at most a hundred, its declared volume is
    within the server's limit, and every key and blob range is one the server
    accepts.  So no request of a check is refused for its size or form. *)
Theorem verify_batch_accepted packs verify_data :
  Forall askable packs -> packs <> [] ->
  let n := batch_len packs 0 0 in
  (1 <= n <= length packs)%nat /\
  validate_verify_packs_plan (build_verify_request (take n packs) verify_data) = Ok tt.
Proof.
  intros Ha Hne n. destruct (batch_len_spec packs 0 0 Ha) as (k & E & H1 & H2 & H3 & H4);
    [unfold SERVER_VERIFY_BATCH_SIZE; lia|unfold SERVER_VERIFY_MAX_BYTES; lia|done|].
  unfold n. rewrite E. cbn [Nat.add]. specialize (H4 eq_refl Hne). split; [lia|].
  unfold validate_verify_packs_plan, build_verify_request. cbn [vp_packs vp_protocol_version]. change (is_ok (check_protocol_version PROTOCOL_VERSION)) with true.
  cbn [negb]. rewrite length_fmap, length_take. unfold MAX_VERIFY_PACKS, SERVER_VERIFY_BATCH_SIZE in *.
  destruct (Z.ltb_spec 100 (Z.of_nat (k `min` length packs))); [lia|].
  rewrite validate_entries_volume by (lia || by apply Forall_take). unfold SERVER_VERIFY_MAX_BYTES, MAX_VERIFY_BYTES in *.
  destruct (Z.ltb_spec (2 * 1024 * 1024 * 1024) (0 + batch_volume (take k packs))); [lia|done].
Qed.
End BatchLaws.

(** ** With an honest server *)

Lemma batch_len_bounds rest n bytes : (n <= batch_len rest n bytes <= n + length rest)%nat.
Proof.
  revert n bytes. induction rest as [|p rest IH]; intros n bytes; cbn [batch_len length]; [lia|].
  destruct (_ && _); [|lia]. specialize (IH (S n) (u64_add bytes (estimate_pack_bytes p.2))). lia.
Qed.
Lemma batch_len_pos p rest : (1 <= batch_len (p :: rest) 0 0)%nat.
Proof. cbn [batch_len]. pose proof (batch_len_bounds rest 1 (u64_add 0 (estimate_pack_bytes p.2))). cbn. lia. Qed.

Lemma lookup_requested_map reqs : forall (m : gmap string nat) k, (k ∈ reqs.*1 \/ is_Some (m !! k)) ->
  is_Some (foldl (fun m (kn : string * nat) => <[kn.1 := kn.2]> m) m reqs !! k).
Proof.
  induction reqs as [|[k' n] reqs IH]; intros m k Hk; cbn [foldl fst snd]; [by destruct Hk as [?%not_elem_of_nil|]|].
  apply IH. rewrite fmap_cons, elem_of_cons in Hk. cbn [fst] in Hk.
  destruct (decide (k = k')) as [->|Hne]; [right; by rewrite lookup_insert_eq|].
  destruct Hk as [[|]|]; [done|by left|right; by rewrite lookup_insert_ne].
Qed.

Definition server_error (r : VerifyPackResult) : CheckError := mkCheckError "server-verify" (failure_message r).

Lemma process_results_spec requested results : forall seen n errors,
  Forall (fun r => is_Some (requested !! vr_pack_key r) /\ vr_pack_key r ∉ seen) results -> NoDup (vr_pack_key <$> results) ->
  let '(seen', n', errors') := process_results requested results seen n errors in
  seen' = list_to_set (vr_pack_key <$> results) ∪ seen /\ pv_responded n' = (pv_responded n + length results)%nat /\
  errors' = errors ++ (server_error <$> List.filter (fun r => negb (result_clean r)) results).
Proof.
  induction results as [|r results IH]; intros seen n errors Hall Hnd; cbn [process_results].
  { cbn. rewrite app_nil_r. split_and!; [by rewrite union_empty_l_L|lia|done]. }
  apply Forall_cons in Hall as [[[c Hc] Hnot] Hall]. rewrite fmap_cons in Hnd. apply NoDup_cons in Hnd as [Hr Hnd].
  rewrite Hc, decide_False by done.
  assert (Hall' : Forall (fun r' => is_Some (requested !! vr_pack_key r') /\ vr_pack_key r' ∉ {[ vr_pack_key r ]} ∪ seen) results).
  { rewrite Forall_forall in *. intros r' Hr'. destruct (Hall r' Hr') as [H1 H2]. split; [done|].
    intros [E%elem_of_singleton|]%elem_of_union; [|done]. apply Hr. rewrite <- E. apply list_elem_of_fmap. by exists r'. }
  assert (Hset : list_to_set (vr_pack_key <$> results) ∪ ({[ vr_pack_key r ]} ∪ seen) =
    (list_to_set (vr_pack_key <$> r :: results) ∪ seen : gset string)) by (rewrite fmap_cons, list_to_set_cons; set_solver).
  cbv zeta. cbn [List.filter]. destruct (result_clean r); cbn [negb].
  - specialize (IH ({[ vr_pack_key r ]} ∪ seen) (mkProcessed (S (pv_responded n)) (S (pv_passed n)) (pv_chunks n + c)) errors Hall' Hnd).
    destruct (process_results _ _ _ _ _) as [[seen' n'] errors']. destruct IH as (-> & H2 & ->). cbn [pv_responded length] in *.
    split_and!; [done|lia|done].
  - specialize (IH ({[ vr_pack_key r ]} ∪ seen) (mkProcessed (S (pv_responded n)) (pv_passed n) (pv_chunks n)) (errors ++ [server_error r]) Hall' Hnd).
    fold (server_error r). destruct (process_results _ _ _ _ _) as [[seen' n'] errors']. destruct IH as (-> & H2 & ->). cbn [pv_responded length] in *.
    split_and!; [done|lia|]. by rewrite fmap_cons, <- app_assoc.
Qed.

Section Honest.
Context `{Hhex : HexCodec} `{Hblake : Blake2b} (data_dir : Path) (within : Path -> bool).
(** The server's disk while the check runs. *)
Context (stat : Path -> result IoErr Z) (open : Path -> result IoErr (result IoErr Z * list (result IoErr bytes))).
Context (server : VerifyPacksPlanRequest -> M VerifyPacksResponse).

Record disk_sane : Prop := {
  ds_stat : forall p n, stat p = Ok n -> 0 <= n <= u64_max;
  ds_open : forall p len reads, open p = Ok (Ok len, reads) -> is_bytes (flat reads) /\ 0 <= len < 2 ^ 63;
}.

(** What it answers, when it answers, is the truth about its disk. *)
Definition honest : Prop := forall plan w,
  match server plan w with (Ok resp, _) => resp = execute_verify_packs data_dir within stat open plan | (Err _, _) => True end.

(** The server has read a file for the pack that is the pack of that name, in
    which, when blobs were asked for, every chunk of the index is a blob. *)
Definition found (verify_data : bool) (p : PackChunks) : Prop :=
  exists path len reads blobs rest, file_path data_dir within (pack_storage_key p.1) = Some path /\
    open path = Ok (Ok len, reads) /\ flat reads = pack_of blobs ++ rest /\ pack_id_compute (pack_of blobs) = p.1 /\
    (verify_data = true -> Forall (fun kv => (pack_offset kv.2, stored_size kv.2) ∈ blob_ranges 9 blobs) p.2).

Lemma clean_found verify_data p r path :
  disk_sane -> is_id (pack_bytes p.1) -> result_clean r = true ->
  file_path data_dir within (pack_storage_key p.1) = Some path -> r = verify_single_pack open path (request_of verify_data p) ->
  found verify_data p.
Proof.
  intros [_ Hopen] Hid Hc Hp ->. unfold result_clean in Hc. apply andb_true_iff in Hc as [_ Hc].
  unfold verify_single_pack in Hc. destruct (open path) as [[[len|] reads]|] eqn:Ho; [|done..].
  destruct (Hopen _ _ _ Ho) as [Hb Hlen].
  destruct (verify_sound reads len (request_of verify_data p) Hb Hlen) as (blobs & rest & _ & Hflat & Hname & Hr).
  { by destruct (vr_error _). }
  exists path, len, reads, blobs, rest. split; [done|]. split; [done|]. split; [done|]. split.
  - unfold expected_name in Hname. cbn [request_of vp_pack_key] in Hname. unfold pack_storage_key, to_hex in Hname.
    change ("packs/" +:+ shard_prefix p.1 +:+ "/" +:+ hex_encode (pack_bytes p.1))
      with ("packs/" +:+ (shard_prefix p.1 +:+ String slash (hex_encode (pack_bytes p.1)))) in Hname.
    rewrite !str_app_assoc, rsplit_next_app in Hname by (apply hex_encode_no_slash; by destruct Hid).
    apply hex_encode_inj in Hname; [|apply blake2b_id|apply Hid]. unfold pack_id_compute. rewrite Hname. by destruct p.1.
  - intros ->. unfold expected_ranges in Hr. cbn [request_of expected_blobs] in Hr.
    rewrite <- list_fmap_compose in Hr. by apply Forall_fmap in Hr.
Qed.

#[local] Abbreviation requested vd packs := (build_verify_request packs vd).

Lemma request_keys vd batch k : vp_pack_key <$> take k (vp_packs (requested vd batch)) = (fun p => pack_storage_key p.1) <$> take k batch.
Proof. cbn [build_verify_request vp_packs]. by rewrite <- fmap_take, <- list_fmap_compose. Qed.

Lemma storage_keys_NoDup (batch : list PackChunks) :
  Forall (fun p => is_id (pack_bytes p.1)) batch -> NoDup batch.*1 -> NoDup ((fun p => pack_storage_key p.1) <$> batch).
Proof.
  intros Hty Hnd. change (NoDup ((pack_storage_key ∘ fst) <$> batch)). rewrite list_fmap_compose. apply NoDup_fmap_2_strong; [|done].
  intros x y Hx Hy. rewrite Forall_forall in Hty. apply list_elem_of_fmap in Hx as (px & -> & Hx). apply list_elem_of_fmap in Hy as (py & -> & Hy).
  apply pack_storage_key_inj; by apply Hty.
Qed.

(** One response of the honest server. *)
Lemma response_spec vd batch errors :
  disk_sane -> Forall (fun p => is_id (pack_bytes p.1)) batch -> NoDup batch.*1 ->
  let resp := execute_verify_packs data_dir within stat open (requested vd batch) in
  let '(n, errors') := process_verify_response resp ((fun p => (pack_storage_key p.1, length p.2)) <$> batch) errors in
  let k := pv_responded n in
  (k <= length batch)%nat /\ (truncated resp = false -> k = length batch) /\
  (truncated resp = true -> k = 0%nat -> exists p, head batch = Some p /\ MAX_VERIFY_BYTES < pack_cost data_dir within stat (request_of vd p)) /\
  exists es, errors' = errors ++ es /\ (es = [] -> Forall (found vd) (take k batch)).
Proof.
  intros Hds Hty Hnd. cbv zeta. unfold execute_verify_packs.
  pose proof (verify_entries_spec data_dir within stat open (vp_packs (requested vd batch)) 0 (ds_stat Hds) ltac:(unfold MAX_VERIFY_BYTES; lia)) as Hs.
  destruct (verify_entries _ _ _ _ _ 0) as [rs t]. destruct Hs as (Hk & _ & Ht & Hall). rewrite request_keys in Hk.
  pose proof (f_equal length Hk) as Hlen. rewrite !length_fmap, length_take in Hlen.
  unfold process_verify_response. cbn [vr_results truncated].
  pose proof (process_results_spec (requested_map ((fun p => (pack_storage_key p.1, length p.2)) <$> batch)) rs ∅ (mkProcessed 0 0 0) errors) as Hp.
  destruct (process_results _ _ _ _ _) as [[seen n] errors']. destruct Hp as (Hseen & Hn & He).
  { apply Forall_forall. intros r Hr. split; [|set_solver]. apply lookup_requested_map. left. rewrite <- list_fmap_compose.
    assert (Hin : vr_pack_key r ∈ vr_pack_key <$> rs) by (apply list_elem_of_fmap; by exists r). rewrite Hk in Hin.
    apply list_elem_of_fmap in Hin as (p & -> & Hin). apply list_elem_of_fmap. exists p. split; [done|]. by apply (subseteq_take (length rs) batch). }
  { rewrite Hk, fmap_take. eapply sublist_NoDup; [|apply sublist_take]. by apply storage_keys_NoDup. }
  cbn [pv_responded Nat.add] in Hn. rewrite Hn. split; [lia|].
  assert (Hfound : List.filter (fun r => negb (result_clean r)) rs = [] -> Forall (found vd) (take (length rs) batch)).
  { intros Hf. cbn [build_verify_request vp_packs] in Hall. rewrite <- fmap_take in Hall. apply Forall_forall. intros p Hin.
    apply list_elem_of_lookup in Hin as [i Hi]. assert (Hreq : (request_of vd <$> take (length rs) batch) !! i = Some (request_of vd p)) by (by rewrite list_lookup_fmap, Hi).
    destruct (Forall2_lookup_r _ _ _ _ _ Hall Hreq) as (r & Hr & Hx).
    assert (Hc : result_clean r = true).
    { destruct (result_clean r) eqn:E; [done|]. assert (Hbad : r ∈ List.filter (fun r => negb (result_clean r)) rs).
      { apply list_elem_of_In, List.filter_In. rewrite E. split; [|done]. by apply list_elem_of_In, (list_elem_of_lookup_2 _ i). }
      rewrite Hf in Hbad. by apply not_elem_of_nil in Hbad. }
    destruct Hx as (path & Hp & Er). { unfold result_clean in Hc. apply andb_true_iff in Hc as [_ Hc]. by destruct (vr_error r). }
    eapply (clean_found vd p r path); try done. rewrite Forall_forall in Hty. apply Hty. by eapply (subseteq_take (length rs) batch), list_elem_of_lookup_2. }
  destruct t.
  - split; [done|]. split.
    + intros _ Hz. destruct Ht as (e & rest & Hd & Hlt). rewrite Hz in Hd, Hlt. destruct batch as [|p batch]; [done|]. exists p. split; [done|].
      cbn in Hd. injection Hd as <- _. unfold total_cost in Hlt. rewrite take_0 in Hlt. cbn [fold_right] in Hlt. lia.
    + exists (server_error <$> List.filter (fun r => negb (result_clean r)) rs). split; [done|]. intros Hf. apply Hfound. by destruct (List.filter _ rs).
  - split; [intros _; cbn in Ht; by rewrite length_fmap in Ht|]. split; [done|]. rewrite He, <- app_assoc. eexists. split; [done|]. intros [Hf _]%app_eq_nil.
    apply Hfound. by destruct (List.filter _ rs).
Qed.

(** What the loop has established about the packs it went past. *)
Definition accounted (vd : bool) (t0 : VerifyTotals) (packs : list PackChunks) (errors : list CheckError) (responded : nat) (verified : gset PackId) : Prop :=
  exists more es, more ⊆ packs /\ verified = vt_verified t0 ∪ list_to_set more.*1 /\ responded = size verified /\
    errors = vt_errors t0 ++ es /\ (es = [] -> Forall (found vd) more).

Lemma drop_step {A} n k (l : list A) : (k <= n)%nat -> take k (take n l) ++ drop k l = l.
Proof. intros. rewrite take_take, Nat.min_l by done. apply take_drop. Qed.

Lemma verify_batches_spec vd fuel : honest -> disk_sane -> forall packs first t w,
  Forall (fun p => is_id (pack_bytes p.1)) packs -> NoDup packs.*1 ->
  vt_verified t ## list_to_set packs.*1 -> vt_responded t = size (vt_verified t) ->
  match verify_batches server fuel vd packs first t w with
  | (Ok (VerifyOk errors responded _ _ verified), _) =>
      accounted vd t packs errors responded verified /\
      ((forall plan w, is_ok (server plan w).1 = true) -> (length packs <= fuel)%nat ->
       forall p, p ∈ packs -> p.1 ∉ verified -> MAX_VERIFY_BYTES < pack_cost data_dir within stat (request_of vd p))
  | (Ok VerifyFallback, _) => exists plan w, is_ok (server plan w).1 = false
  | (Err _, _) => False
  end.
Proof.
  intros Hh Hds. induction fuel as [|fuel IH]; intros packs first t w Hty Hnd Hdis Hsz.
  { assert (Hdone : accounted vd t packs (vt_errors t) (vt_responded t) (vt_verified t)).
    { exists [], []. cbn. rewrite app_nil_r, union_empty_r_L. split_and!; (done || apply list_subseteq_nil). }
    destruct packs as [|p packs]; cbn [verify_batches]; (split; [exact Hdone|]); [by intros _ _ p ?%not_elem_of_nil|].
    intros _ Hl. cbn in Hl. lia. }
  destruct packs as [|p0 rest] eqn:Hpk; cbn [verify_batches].
  { split; [exists [], []; cbn; rewrite app_nil_r, union_empty_r_L; split_and!; (done || apply list_subseteq_nil)|]. by intros _ _ p ?%not_elem_of_nil. }
  rewrite <- Hpk in *. pose proof (batch_len_pos p0 rest) as Hpos. rewrite <- Hpk in Hpos. pose proof (batch_len_bounds packs 0 0) as [_ Hb].
  set (n := batch_len packs 0 0) in *. cbv zeta. unfold mbind, M_bind, try_.
  specialize (Hh (build_verify_request (take n packs) vd) w).
  destruct (server (build_verify_request (take n packs) vd) w) as [[resp|er] w'] eqn:Hsv.
  2:{ assert (Hno : exists plan w, is_ok (server plan w).1 = false) by (eexists _, w; by rewrite Hsv).
      assert (Hstop : forall o, o = outcome_of t \/ o = VerifyFallback ->
        match o with VerifyOk errors responded _ _ verified => accounted vd t packs errors responded verified /\
          ((forall plan w, is_ok (server plan w).1 = true) -> (length packs <= S fuel)%nat ->
           forall p, p ∈ packs -> p.1 ∉ verified -> MAX_VERIFY_BYTES < pack_cost data_dir within stat (request_of vd p))
        | VerifyFallback => exists plan w, is_ok (server plan w).1 = false end).
      { intros o [-> | ->]; [|done]. split.
        - exists [], []. cbn. rewrite app_nil_r, union_empty_r_L. split_and!; (done || apply list_subseteq_nil).
        - intros Hok. destruct Hno as (plan & w2 & Hw2). by rewrite Hok in Hw2. }
      destruct er; try (apply (Hstop VerifyFallback); by right); destruct first; (apply (Hstop (outcome_of t)); by left) || (apply (Hstop VerifyFallback); by right). }
  pose proof (response_spec vd (take n packs) (vt_errors t) Hds (Forall_take _ _ _ Hty)) as Hr. cbv zeta in Hr.
  rewrite <- Hh in Hr. destruct (process_verify_response _ _ _) as [res errors] eqn:Hproc.
  destruct Hr as (Hk & Hfull & Hzero & es & He & Hfound).
  { rewrite fmap_take. eapply sublist_NoDup; [exact Hnd|apply sublist_take]. }
  rewrite length_take, Nat.min_l in Hk, Hfull by done.
  set (covered := if truncated resp then pv_responded res else n).
  assert (Hcov : covered = pv_responded res) by (unfold covered; destruct (truncated resp); [done|symmetry; by apply Hfull]).
  set (step := if truncated resp then Nat.max covered 1 else n). assert (Hstep : (covered <= step <= n)%nat /\ (1 <= step)%nat).
  { unfold step, covered. destruct (truncated resp); lia. }
  set (t' := mkTotals _ _ _ _ _).
  assert (Hsplit : (take covered packs).*1 ++ (drop covered packs).*1 = packs.*1) by (rewrite <- fmap_app; by rewrite take_drop).
  rewrite <- Hsplit in Hnd. apply NoDup_app in Hnd as (Hnd1 & Hnd12 & Hnd2).
  assert (Hdrop : (drop step packs).*1 ⊆ (drop covered packs).*1).
  { rewrite <- (take_drop (step - covered) (drop covered packs)), drop_drop, fmap_app.
    replace (covered + (step - covered))%nat with step by lia. set_solver. }
  assert (Hsize : vt_responded t' = size (vt_verified t')).
  { cbn [t' vt_responded vt_verified]. rewrite size_union by (rewrite <- Hsplit, list_to_set_app in Hdis; set_solver).
    rewrite size_list_to_set by done. rewrite length_fmap, length_take, <- Hcov, Hsz. lia. }
  assert (HndS : NoDup (drop step packs).*1).
  { eapply sublist_NoDup; [|apply fmap_sublist, sublist_drop]. rewrite <- Hsplit. by apply NoDup_app. }
  assert (HdisS : vt_verified t' ## list_to_set (drop step packs).*1).
  { cbn [t' vt_verified]. rewrite <- Hsplit, list_to_set_app in Hdis.
    intros x [Hx|Hx]%elem_of_union Hd%elem_of_list_to_set; apply Hdrop in Hd.
    - apply (Hdis x Hx). apply elem_of_union_r. by apply elem_of_list_to_set.
    - apply elem_of_list_to_set in Hx. by apply (Hnd12 x). }
  specialize (IH (drop step packs) false t' w' (Forall_drop _ _ _ Hty) HndS HdisS Hsize).
  destruct (verify_batches _ _ _ _ _ _ w') as [[[errs resp' ? ? ver|]|] w2]; [|done|done].
  destruct IH as [(more & es2 & Hmore & -> & -> & -> & Hf2) Hrest]. cbn [t' vt_verified vt_errors] in *. split.
  - exists (take covered packs ++ more), (es ++ es2). rewrite fmap_app, list_to_set_app_L, union_assoc_L, He, app_assoc. split_and!; try done.
    + intros x [Hx|Hx]%elem_of_app; [by apply (subseteq_take covered)|]. apply Hmore in Hx. by apply (subseteq_drop step).
    + intros [-> ->]%app_eq_nil. apply Forall_app. split; [|by apply Hf2]. specialize (Hfound eq_refl).
      rewrite <- Hcov, take_take, Nat.min_l in Hfound by lia. done.
  - intros Hok Hl p Hp Hnot. rewrite <- (take_drop step packs) in Hp. apply elem_of_app in Hp as [Hp|Hp].
    2:{ apply Hrest; try done. rewrite length_drop. lia. }
    destruct (decide (covered = step)) as [Ec|Ec].
    { exfalso. apply Hnot. rewrite Ec. apply elem_of_union_l, elem_of_union_r, elem_of_list_to_set, list_elem_of_fmap. by exists p. }
    assert (Hz : covered = 0%nat /\ step = 1%nat /\ truncated resp = true) by (unfold step, covered in *; destruct (truncated resp); lia).
    destruct Hz as (Hz1 & Hz2 & Htr). destruct (Hzero Htr ltac:(lia)) as (p' & Hhead & Hlt).
    rewrite Hz2, Hpk in Hp. cbn in Hp. apply list_elem_of_singleton in Hp as ->. rewrite Hpk in Hhead.
    destruct n as [|n']; [lia|]. cbn in Hhead. by injection Hhead as <-.
Qed.

(** C20. What an honest server is credited with is what it did.  Every answer
    of the server is assumed to be that of the handler of ServerRead.v
    ([execute_verify_packs]) on a disk that does not change during the check
    and whose files fit the limits of a file system ([honest], [disk_sane]);
    any of its requests may fail instead.  Then the loop ends; the packs
    counted as verified are packs of the index, as many as were answered for;
    and if no error was recorded, the server has read for each of them the file
    whose hash is the pack's name, with every chunk of the index where the
    index says when blobs were asked for.  A server that answers every request
    leaves to the client only packs larger than its own limit, and the client
    falls back to checking everything itself only if a request failed.  The
    honesty matters for answers that are cut short: the client counts the first
    packs of the request as verified, which is what this server answers for,
    and a server that answered for others would be believed
    ([truncated_answers_are_counted]). *)
Theorem server_verify_sound pack_chunks verify_data w :
  honest -> disk_sane -> (forall p, is_Some (pack_chunks !! p) -> is_id (pack_bytes p)) ->
  match try_server_verify server pack_chunks verify_data w with
  | (Ok (VerifyOk errors responded _ _ verified), _) =>
      verified ⊆ dom pack_chunks /\ responded = size verified /\
      (errors = [] -> forall p chunks, pack_chunks !! p = Some chunks -> p ∈ verified -> found verify_data (p, chunks)) /\
      ((forall plan w, is_ok (server plan w).1 = true) -> forall p chunks, pack_chunks !! p = Some chunks -> p ∉ verified ->
         MAX_VERIFY_BYTES < pack_cost data_dir within stat (request_of verify_data (p, chunks)))
  | (Ok VerifyFallback, _) => exists plan w, is_ok (server plan w).1 = false
  | (Err _, _) => False
  end.
Proof.
  intros Hh Hds Hty. unfold try_server_verify.
  assert (Hin : forall p chunks, (p, chunks) ∈ map_to_list pack_chunks <-> pack_chunks !! p = Some chunks) by (intros; apply elem_of_map_to_list).
  pose proof (verify_batches_spec verify_data (size pack_chunks) Hh Hds (map_to_list pack_chunks) true (mkTotals [] 0 0 0 ∅) w) as H.
  destruct (verify_batches _ _ _ _ _ _ w) as [[[errors responded ? ? verified|]|] w'].
  - destruct H as [(more & es & Hmore & -> & -> & -> & Hf) Hrest].
    + apply Forall_forall. intros [p chunks] Hp%Hin. apply Hty. by eexists.
    + apply NoDup_fst_map_to_list.
    + cbn. set_solver.
    + done.
    + cbn [vt_verified vt_errors app] in *. rewrite (union_empty_l_L (list_to_set more.*1)) in *. split; [|split; [done|split]].
      * intros p Hp%elem_of_list_to_set%list_elem_of_fmap. destruct Hp as ([p' chunks] & -> & Hp%Hmore%Hin). apply elem_of_dom. by eexists.
      * intros E p chunks Hp Hv. specialize (Hf E). rewrite Forall_forall in Hf. apply Hf.
        apply elem_of_list_to_set, list_elem_of_fmap in Hv as ([p' chunks'] & -> & Hv). cbn [fst] in *. pose proof (Hmore _ Hv) as Hp'%Hin. congruence.
      * intros Hok p chunks Hp Hv. apply (Hrest Hok); [by rewrite length_map_to_list|by apply Hin|done].
  - apply H; [|apply NoDup_fst_map_to_list|cbn; set_solver|done]. apply Forall_forall. intros [p chunks] Hp%Hin. apply Hty. by eexists.
  - apply H; [|apply NoDup_fst_map_to_list|cbn; set_solver|done]. apply Forall_forall. intros [p chunks] Hp%Hin. apply Hty. by eexists.
Qed.
End Honest.

(** ** Examples *)

Definition cs_pack : PackId := pack_id_compute vr_pack.
Definition cs_chunks : list (ChunkId * ChunkIndexEntry) :=
  [(mkChunkId (id_of_byte 1), mkEntry 1 2 cs_pack 13); (mkChunkId (id_of_byte 2), mkEntry 1 1 cs_pack 19)].
Definition cs_stat (_ : Path) : result IoErr Z := Ok 20.
Definition cs_open (_ : Path) : result IoErr (result IoErr Z * list (result IoErr bytes)) := Ok (Ok 20, vr_reads).
Definition cs_server (plan : VerifyPacksPlanRequest) : M VerifyPacksResponse :=
  mret (execute_verify_packs sv_dir (fun _ => true) cs_stat cs_open plan).

Lemma verify_batch_accepted_witness :
  validate_verify_packs_plan (build_verify_request (take (batch_len [(cs_pack, cs_chunks)] 0 0) [(cs_pack, cs_chunks)]) true) = Ok tt.
Proof.
  apply (verify_batch_accepted [(cs_pack, cs_chunks)] true); [|done]. apply Forall_singleton. unfold askable. by_eval.
Defined.

Lemma server_verify_sound_witness :
  match try_server_verify cs_server {[cs_pack := cs_chunks]} true (mkWorld ∅ []) with
  | (Ok (VerifyOk errors _ _ _ verified), _) => errors = [] /\ cs_pack ∈ verified /\ found sv_dir (fun _ => true) cs_open true (cs_pack, cs_chunks)
  | _ => False
  end.
Proof.
  pose proof (server_verify_sound sv_dir (fun _ => true) cs_stat cs_open cs_server {[cs_pack := cs_chunks]} true (mkWorld ∅ [])) as H.
  assert (Hrun : match try_server_verify cs_server {[cs_pack := cs_chunks]} true (mkWorld ∅ []) with
    | (Ok (VerifyOk [] _ _ _ v), _) => bool_decide (cs_pack ∈ v) | _ => false end = true) by (vm_compute; reflexivity).
  destruct (try_server_verify _ _ _ _) as [[[[|] n m k v|]|] w]; try discriminate Hrun. apply bool_decide_eq_true in Hrun.
  split; [done|]. split; [done|]. apply H; try done.
  - constructor; [intros p x [= <-]; by vm_compute|]. intros p len reads [= <- <-]. split; [by_eval|lia].
  - intros p [x Hp]. apply lookup_singleton_Some in Hp as [<- _]. by_eval.
Defined.

(** The loop counts the answers of a truncated response and credits the first
    packs of the batch with them; it does not look which packs were answered
    for.  A server that answers for the last pack of every batch gets all
    packs counted as verified without an error. *)
Definition last_only (plan : VerifyPacksPlanRequest) : M VerifyPacksResponse :=
  match last (vp_packs plan) with
  | Some e => mret (mkVerifyResponse [mkVerifyResult (vp_pack_key e) true true true None] (2 <=? Z.of_nat (length (vp_packs plan))))
  | None => mret (mkVerifyResponse [] false)
  end.
Definition cs_two : gmap PackId (list (ChunkId * ChunkIndexEntry)) :=
  {[mkPackId (id_of_byte 1) := []; mkPackId (id_of_byte 2) := []]}.

Lemma truncated_answers_are_counted :
  match try_server_verify last_only cs_two false (mkWorld ∅ []) with
  | (Ok (VerifyOk [] 2 _ _ verified), _) => verified = dom cs_two
  | _ => False
  end.
Proof.
  assert (Hrun : match try_server_verify last_only cs_two false (mkWorld ∅ []) with
    | (Ok (VerifyOk [] 2 _ _ v), _) => bool_decide (v = dom cs_two) | _ => false end = true) by (vm_compute; reflexivity).
  destruct (try_server_verify _ _ _ _) as [[[[|] [|[|[]]] m k v|]|] w]; try discriminate Hrun. by apply bool_decide_eq_true in Hrun.
Qed.
