(* ===== verification/Check.v ===== *)
(** * Check (crates/vykar-core/src/commands/check.rs)

    The integrity scan: the objects under [snapshots/], every snapshot of the
    manifest with the chunks it names, the packs the index names, and, on
    request, the contents of every chunk.  Work that threads share is done in
    one order; progress is not reported.  A read that fails leaves the blob
    cache as it was. *)

From stdpp Require Import pretty.
From S2P Require Import Prelude Types Protocol Storage ChunkIndex Pack.
From S2P Require Import Crypto Format Compress DedupCache Retention Lock Repo ReadPath Snapshots SnapshotCache.
From S2P Require Import ServerRead CheckServer.
#[local] Open Scope string_scope.
#[local] Open Scope list_scope.
#[local] Open Scope Z_scope.

Definition BATCH_THRESHOLD : nat := 3.

(** The [Display] of errors; what third-party errors print is left out. *)
Definition display `{HexCodec} (er : VykarError) : string :=
  match er with
  | StorageError what => "storage I/O error: " +:+ what
  | RepoNotFound what => "repository not found at '" +:+ what +:+ "'"
  | RepoAlreadyExists what => "repository already exists at '" +:+ what +:+ "'"
  | DecryptionFailed => "decryption failed: wrong passphrase or corrupted data"
  | KeyDerivation what => "key derivation error: " +:+ what
  | SnapshotNotFound name => "snapshot not found: '" +:+ name +:+ "'"
  | SnapshotAlreadyExists name => "snapshot already exists: '" +:+ name +:+ "'"
  | InvalidFormat what => "invalid repository format: " +:+ what
  | UnknownObjectType tag => "unknown object type tag: " +:+ pretty (Z.to_N tag)
  | UnknownCompressionTag tag => "unknown compression tag: " +:+ pretty (Z.to_N tag)
  | UnsupportedVersion v => "unsupported repository version: " +:+ pretty (Z.to_N v)
  | Serialization => "serialization error: "
  | Deserialization => "deserialization error: "
  | ConfigError what => "configuration error: " +:+ what
  | UnsupportedBackend what => "unsupported backend: '" +:+ what +:+ "'"
  | Io _ => "I/O error: "
  | Locked key => "repository is locked by another process (lock: " +:+ key +:+ ")"
  | ChunkNotInIndex id => "chunk not found in index: " +:+ to_hex (chunk_bytes id)
  | Decompression what => "decompression error: " +:+ what
  | HookError what => "hook error: " +:+ what
  | Interrupted => "operation interrupted by signal"
  | ActiveSessions _ => "active sessions prevent maintenance: "
  | StaleChunksDuringCommit => "commit failed: referenced chunks were deleted since session started"
  | LockExpired what => "lock expired: " +:+ what
  | RepositoryMismatch what => "repository identity mismatch: " +:+ what
  | Other what => what
  end.

(** ** Issues *)

Inductive IntegrityIssue :=
  | CorruptSnapshot (id : SnapshotId) (name : option string)
  | InvalidSnapshotKey (key : string)
  | DanglingItemPtr (name : string) (id : ChunkId)
  | DanglingFileChunk (name path : string) (id : ChunkId)
  | MissingPack (p : PackId)
  | CorruptPackContent (p : PackId) (detail : string)
  | CorruptChunk (id : ChunkId) (p : PackId) (detail : string)
  | PackExistenceCheckFailed (p : PackId) (detail : string)
  | UnreadableSnapshot (name detail : string)
  | SnapshotReadFailed (name detail : string).

Record CheckResult := mkCheckResult {
  cr_snapshots_checked : nat;
  cr_items_checked : nat;
  cr_chunks_existence_checked : nat;
  cr_packs_existence_checked : nat;
  cr_chunks_data_verified : nat;
  cr_errors : list CheckError;
  cr_skipped : bool;
}.

Definition is_transient_io (er : VykarError) : bool :=
  match er with StorageError _ | Io _ => true | _ => false end.

Record ScanOptions := mkOptions {
  collect_chunk_refs : bool;
  detect_orphans : bool;
  opt_verify_data : bool;
  skip_packs : option (gset PackId);
  snapshot_sample_percent : option Z;
}.

Record ScanCounters := mkCounters {
  snapshots_checked : nat;
  items_checked : nat;
  chunks_existence_checked : nat;
  packs_existence_checked : nat;
  chunks_data_verified : nat;
}.
Definition no_counters : ScanCounters := mkCounters 0 0 0 0 0.

Record ScanResult := mkScan {
  counters : ScanCounters;
  issues : list IntegrityIssue;
  snapshot_chunk_refs : gmap string (gset ChunkId);
}.

Section Check.
Context `{Hhex : HexCodec} `{Hblake : Blake2b} (e : CryptoEngine) `{Hcodecs : Codecs} `{Hmp : IndexCodec}.
Context `{Hmeta : MsgPack SnapshotMeta} `{Hitems : ItemStream}.

Definition to_check_error (i : IntegrityIssue) : CheckError :=
  match i with
  | CorruptSnapshot id name =>
      mkCheckError (match name with Some n => "snapshot '" +:+ n +:+ "'" | None => "snapshot " +:+ to_hex (snapshot_bytes id) end)
        "failed to load metadata: corrupt or undecryptable"
  | InvalidSnapshotKey key => mkCheckError "snapshots" ("invalid snapshot key: " +:+ key)
  | DanglingItemPtr name id => mkCheckError ("snapshot '" +:+ name +:+ "' item_ptrs") ("chunk " +:+ to_hex (chunk_bytes id) +:+ " not in index")
  | DanglingFileChunk name path id =>
      mkCheckError ("snapshot '" +:+ name +:+ "' file '" +:+ path +:+ "'") ("chunk " +:+ to_hex (chunk_bytes id) +:+ " not in index")
  | MissingPack p => mkCheckError "chunk index" ("pack " +:+ to_hex (pack_bytes p) +:+ " missing from storage")
  | CorruptPackContent p detail => mkCheckError "verify-data" ("pack " +:+ to_hex (pack_bytes p) +:+ ": " +:+ detail)
  | CorruptChunk id _ detail => mkCheckError "verify-data" ("chunk " +:+ to_hex (chunk_bytes id) +:+ ": " +:+ detail)
  | PackExistenceCheckFailed p detail =>
      mkCheckError "chunk index" ("pack " +:+ to_hex (pack_bytes p) +:+ " existence check failed: " +:+ detail)
  | UnreadableSnapshot name detail => mkCheckError ("snapshot '" +:+ name +:+ "'") ("failed to load items: " +:+ detail)
  | SnapshotReadFailed name detail => mkCheckError ("snapshot '" +:+ name +:+ "'") ("I/O error: " +:+ detail)
  end.

(** ** Phase 0: objects that are in no manifest *)

Definition scan_orphan (manifest_ids : gset string) (key : string) : M (list IntegrityIssue) :=
  match strip_prefix key "snapshots/" with
  | None => mret []
  | Some id_hex =>
      if String.eqb id_hex "" || bool_decide (id_hex ∈ manifest_ids) then mret []
      else
        match snapshot_from_hex id_hex with
        | Err _ => mret [InvalidSnapshotKey key]
        | Ok snapshot_id =>
            d ← try_ (get key);
            match d with
            | Ok (Some blob) =>
                match decode_snapshot_meta e snapshot_id blob with
                | Ok _ => mret []
                | Err _ => mret [CorruptSnapshot snapshot_id None]
                end
            | Ok None => mret []
            | Err er =>
                mret [SnapshotReadFailed ("(orphan " +:+ to_hex (snapshot_bytes snapshot_id) +:+ ")") ("GET failed: " +:+ display er)]
            end
        end
  end.

Fixpoint scan_orphans (manifest_ids : gset string) (keys : list string) : M (list IntegrityIssue) :=
  match keys with
  | [] => mret []
  | key :: keys' => iss ← scan_orphan manifest_ids key; iss' ← scan_orphans manifest_ids keys'; mret (iss ++ iss')
  end.

Definition manifest_hexes (m : Manifest) : gset string := list_to_set ((fun en => to_hex (snapshot_bytes (snap_id en))) <$> m).

Definition phase0 (r : Repository) : M (list IntegrityIssue) :=
  remote_keys ← list_keys "snapshots/";
  scan_orphans (manifest_hexes (manifest r)) remote_keys.

(** ** Phase 1: the snapshots of the manifest *)

Definition add_issues (iss : list IntegrityIssue) (st : ScanResult) : ScanResult :=
  mkScan (counters st) (issues st ++ iss) (snapshot_chunk_refs st).
Definition add_refs (name : string) (ids : list ChunkId) (st : ScanResult) : ScanResult :=
  mkScan (counters st) (issues st)
    (<[name := default ∅ (snapshot_chunk_refs st !! name) ∪ list_to_set ids]> (snapshot_chunk_refs st)).

(** One turn of the loop over [item_ptrs]. *)
Definition check_ptr (collect : bool) (ix : ChunkIndex) (name : string) (st : ScanResult) (id : ChunkId) : ScanResult :=
  let st := if collect then add_refs name [id] st else st in
  if contains ix id then st else add_issues [DanglingItemPtr name id] st.

(** The visitor of the items: how many, the issues, the chunks. *)
Definition file_ids (item : Item) : list ChunkId :=
  match entry_type item with RegularFile => ref_id <$> item_chunks item | _ => [] end.
Definition check_item (collect : bool) (ix : ChunkIndex) (name : string) (item : Item) (st : nat * list IntegrityIssue * list ChunkId) :
    nat * list IntegrityIssue * list ChunkId :=
  let '(n, iss, ids) := st in
  (S n,
   iss ++ ((fun id => DanglingFileChunk name (item_path item) id) <$> List.filter (fun id => negb (contains ix id)) (file_ids item)),
   if collect then ids ++ file_ids item else ids).

Definition count_snapshot (items : nat) (st : ScanResult) : ScanResult :=
  let c := counters st in
  mkScan (mkCounters (S (snapshots_checked c)) (items_checked c + items) (chunks_existence_checked c)
    (packs_existence_checked c) (chunks_data_verified c)) (issues st) (snapshot_chunk_refs st).

Definition scan_snapshot (r : Repository) (collect : bool) (entry : SnapshotEntry) (st : ScanResult) (c : BlobCache) :
    M (ScanResult * BlobCache) :=
  let name := snap_name entry in
  m ← try_ (load_snapshot_meta e r name);
  match m with
  | Err er =>
      mret (add_issues [if is_transient_io er then SnapshotReadFailed name ("load metadata: " +:+ display er)
                        else CorruptSnapshot (snap_id entry) (Some name)] st, c)
  | Ok meta =>
      let st := foldl (check_ptr collect (chunk_index r) name) st (item_ptrs meta) in
      s ← try_ (load_snapshot_item_stream e r name c);
      match s with
      | Err er =>
          mret (add_issues [if is_transient_io er then SnapshotReadFailed name ("load item stream: " +:+ display er)
                            else UnreadableSnapshot name ("load item stream: " +:+ display er)] st, c)
      | Ok (items_stream, c) =>
          let '(o, (n, item_issues, file_chunk_ids)) :=
            for_each_decoded_item (fun item st => (Ok tt, check_item collect (chunk_index r) name item st)) items_stream (0%nat, [], []) in
          let st := match o with Ok _ => st | Err er => add_issues [UnreadableSnapshot name ("decode items: " +:+ display er)] st end in
          let st := add_issues item_issues st in
          let st := if collect then add_refs name file_chunk_ids st else st in
          mret (count_snapshot n st, c)
      end
  end.

Fixpoint scan_snapshots (r : Repository) (collect : bool) (entries : list SnapshotEntry) (st : ScanResult) (c : BlobCache) :
    M (ScanResult * BlobCache) :=
  match entries with
  | [] => mret (st, c)
  | entry :: entries' => p ← scan_snapshot r collect entry st c; scan_snapshots r collect entries' p.1 p.2
  end.

(** [rand::seq::index::sample]: which of [total] to keep. *)
Context (sample : Z -> Z -> gset nat).

(** The sampled share, at least one. *)
Definition keep_count (total percent : Z) : Z := Z.min (Z.max ((total * percent + 99) / 100) 1) total.

Definition select {A} (keep : nat -> bool) (l : list A) : list A :=
  (List.filter (fun p => keep p.1) (combine (seq 0 (length l)) l)).*2.

Definition sampled_entries (percent : option Z) (entries : list SnapshotEntry) : list SnapshotEntry :=
  match percent with
  | None => entries
  | Some pct =>
      let total := Z.of_nat (length entries) in
      if (total =? 0) || (100 <=? pct) then entries
      else let indices := sample total (keep_count total pct) in select (fun i => bool_decide (i ∈ indices)) entries
  end.

Definition sample_packs_out (pack_chunks : gmap PackId (list (ChunkId * ChunkIndexEntry))) (percent : Z) : gset PackId :=
  let total := Z.of_nat (size pack_chunks) in
  if (total =? 0) || (100 <=? percent) then ∅
  else
    let kept := sample total (keep_count total percent) in
    list_to_set (select (fun i => negb (bool_decide (i ∈ kept))) (map_to_list pack_chunks).*1).

(** ** Phase 2: packs that are there *)

Fixpoint parallel_pack_existence (packs : list PackId) : M (nat * list IntegrityIssue) :=
  match packs with
  | [] => mret (0%nat, [])
  | p :: packs' =>
      x ← try_ (exists_ (pack_storage_key p));
      rest ← parallel_pack_existence packs';
      mret (match x with
            | Ok true => (S rest.1, rest.2)
            | Ok false => (S rest.1, MissingPack p :: rest.2)
            | Err er => (rest.1, PackExistenceCheckFailed p (display er) :: rest.2)
            end)
  end.

(** ** Phase 3: chunks that can be decrypted and are what their name says *)

Definition verify_single_chunk (id : ChunkId) (p : PackId) (raw : bytes) : nat * list IntegrityIssue :=
  match unpack_object_expect_with_context e raw OChunkData (chunk_bytes id) with
  | Err er => (0%nat, [CorruptChunk id p ("decrypt failed: " +:+ display er)])
  | Ok compressed =>
      match decompress compressed with
      | Err er => (0%nat, [CorruptChunk id p ("decompress failed: " +:+ display er)])
      | Ok plaintext =>
          let recomputed := chunk_id_compute (chunk_id_key e) plaintext in
          if decide (recomputed = id) then (1%nat, [])
          else (0%nat, [CorruptChunk id p ("ID mismatch (recomputed " +:+ to_hex (chunk_bytes recomputed) +:+ ")")])
      end
  end.

(** [usize] has 64 bits, so the conversions of offset and size succeed. *)
Definition verify_in_pack (p : PackId) (pack_data : bytes) (kv : ChunkId * ChunkIndexEntry) : nat * list IntegrityIssue :=
  let start := pack_offset kv.2 in
  let size := stored_size kv.2 in
  let end_ := start + size in
  if u64_max <? end_ then
    (0%nat, [CorruptChunk kv.1 p ("blob range overflows (offset=" +:+ pretty (Z.to_N start) +:+ ", size=" +:+ pretty (Z.to_N size) +:+ ")")])
  else if Z.of_nat (length pack_data) <? end_ then
    (0%nat, [CorruptChunk kv.1 p ("blob range [" +:+ pretty (Z.to_N start) +:+ ".." +:+ pretty (Z.to_N end_) +:+
      ") exceeds pack size " +:+ pretty (N.of_nat (length pack_data)))])
  else verify_single_chunk kv.1 p (slice (Z.to_nat start) (Z.to_nat size) pack_data).

Definition sum_verified (rs : list (nat * list IntegrityIssue)) : nat * list IntegrityIssue :=
  (fold_right (fun r n => (r.1 + n)%nat) 0%nat rs, concat rs.*2).

Definition valid_pack_header (pack_data : bytes) : bool :=
  negb ((length pack_data <? PACK_HEADER_SIZE)%nat || negb (bool_decide (take 8 pack_data = PACK_MAGIC))
        || (nth 8 pack_data 0 <? PACK_VERSION_MIN) || (PACK_VERSION_MAX <? nth 8 pack_data 0)).

Definition verify_pack_full (p : PackId) (chunks : list (ChunkId * ChunkIndexEntry)) : M (nat * list IntegrityIssue) :=
  d ← try_ (get (pack_storage_key p));
  match d with
  | Ok (Some pack_data) =>
      if valid_pack_header pack_data then mret (sum_verified (verify_in_pack p pack_data <$> chunks))
      else mret (0%nat, [CorruptPackContent p "invalid pack header"])
  | Ok None => mret (0%nat, [CorruptPackContent p "pack not found (full GET)"])
  | Err er => mret (0%nat, [PackExistenceCheckFailed p ("full GET failed: " +:+ display er)])
  end.

Fixpoint verify_pack_individual (p : PackId) (chunks : list (ChunkId * ChunkIndexEntry)) : M (nat * list IntegrityIssue) :=
  match chunks with
  | [] => mret (0%nat, [])
  | (id, en) :: chunks' =>
      d ← try_ (read_blob_from_pack p (pack_offset en) (stored_size en));
      let x := match d with
               | Ok raw => verify_single_chunk id p raw
               | Err er => (0%nat, [CorruptChunk id p ("read failed: " +:+ display er)])
               end in
      rest ← verify_pack_individual p chunks';
      mret ((x.1 + rest.1)%nat, x.2 ++ rest.2)
  end.

Fixpoint parallel_verify_data (packs : list PackChunks) : M (nat * list IntegrityIssue) :=
  match packs with
  | [] => mret (0%nat, [])
  | (p, chunks) :: packs' =>
      x ← (if (BATCH_THRESHOLD <=? length chunks)%nat then verify_pack_full p chunks else verify_pack_individual p chunks);
      rest ← parallel_verify_data packs';
      mret ((x.1 + rest.1)%nat, x.2 ++ rest.2)
  end.

(** ** The scan *)

Definition io_failed_packs (iss : list IntegrityIssue) : gset PackId :=
  list_to_set (omap (fun i => match i with PackExistenceCheckFailed p _ => Some p | _ => None end) iss).
Definition chunk_count (packs : list PackChunks) : nat := fold_right (fun p n => (length p.2 + n)%nat) 0%nat packs.

Definition scan_packs (pack_chunks : list PackChunks) (st : ScanResult) : M ScanResult :=
  match pack_chunks with
  | [] => mret st
  | _ =>
      x ← parallel_pack_existence pack_chunks.*1;
      let '(existence_checked, pack_issues) := x in
      let failed := io_failed_packs pack_issues in
      let c := counters st in
      mret (mkScan (mkCounters (snapshots_checked c) (items_checked c)
        (chunk_count (List.filter (fun p => negb (bool_decide (p.1 ∈ failed))) pack_chunks)) existence_checked (chunks_data_verified c))
        (issues st ++ pack_issues) (snapshot_chunk_refs st))
  end.

Definition scan_data (pack_chunks : list PackChunks) (st : ScanResult) : M ScanResult :=
  x ← parallel_verify_data pack_chunks;
  let c := counters st in
  mret (mkScan (mkCounters (snapshots_checked c) (items_checked c) (chunks_existence_checked c) (packs_existence_checked c) x.1)
    (issues st ++ x.2) (snapshot_chunk_refs st)).

Definition integrity_scan (r : Repository) (opts : ScanOptions) (c : BlobCache) : M (ScanResult * BlobCache) :=
  orphans ← (if detect_orphans opts then phase0 r else mret []);
  let entries := sampled_entries (snapshot_sample_percent opts) (manifest r) in
  p ← scan_snapshots r (collect_chunk_refs opts) entries (mkScan no_counters orphans ∅) c;
  let pack_chunks := map_to_list (group_by_pack (default ∅ (skip_packs opts)) (chunk_index r)) in
  st ← scan_packs pack_chunks p.1;
  st ← (if opt_verify_data opts then scan_data pack_chunks st else mret st);
  mret (st, p.2).

(** ** [vykar check] *)

Definition skipped_result : CheckResult := mkCheckResult 0 0 0 0 0 [] true.

(** How much is checked: [due] tells, for a configured interval, whether a
    full check is due. *)
Definition effective_percent (max_percent : Z) (due : option bool) : Z :=
  if max_percent =? 100 then 100
  else match due with
       | Some true => 100
       | _ => max_percent
       end.

Context (server_verify_packs : VerifyPacksPlanRequest -> M VerifyPacksResponse).

Definition load_chunk_index_uncached (r : Repository) : M Repository :=
  ix ← reload_full_index e;
  mret (mkRepo (manifest r) ix (index_generation r) (index_dirty r) (drawn r)).

(** [run_with_progress] once the repository is open; the second component
    tells whether the full check is recorded. *)
Definition check (verify_data distrust_server : bool) (max_percent : Z) (due : option bool) (record_state : bool)
    (r : Repository) (c : BlobCache) : M (CheckResult * bool) :=
  if (max_percent =? 0) && match due with None => true | Some _ => false end then mret (skipped_result, false)
  else
    let effective := effective_percent max_percent due in
    if effective =? 0 then mret (skipped_result, false)
    else
      r ← load_chunk_index_uncached r;
      let pack_chunks := group_by_pack ∅ (chunk_index r) in
      let sampled_out := if effective <? 100 then sample_packs_out pack_chunks effective else ∅ in
      let verify_pack_chunks := filter (fun kv => kv.1 ∉ sampled_out) pack_chunks in
      outcome ← (if distrust_server then mret VerifyFallback
                 else try_server_verify server_verify_packs verify_pack_chunks verify_data);
      let '(verified_packs, srv_packs_responded, srv_chunks_verified, srv_errors) :=
        match outcome with
        | VerifyOk errors responded _ chunks verified => (verified, responded, chunks, errors)
        | VerifyFallback => (∅, 0%nat, 0%nat, [])
        end in
      let combined_skip : gset PackId := sampled_out ∪ verified_packs in
      let skip := if bool_decide (combined_skip = ∅) then None else Some combined_skip in
      let sample_percent := if effective <? 100 then Some effective else None in
      p ← integrity_scan r (mkOptions false false verify_data skip sample_percent) c;
      let scan := p.1 in
      let srv_chunks_existence := chunk_count (List.filter (fun p => bool_decide (p.1 ∈ verified_packs)) (map_to_list pack_chunks)) in
      let n := counters scan in
      let errors := srv_errors ++ (to_check_error <$> issues scan) in
      mret (mkCheckResult (snapshots_checked n) (items_checked n) (chunks_existence_checked n + srv_chunks_existence)
              (packs_existence_checked n + srv_packs_responded)
              (chunks_data_verified n + (if verify_data then srv_chunks_verified else 0)) errors false,
            record_state && (effective =? 100) && match errors with [] => true | _ => false end).
End Check.

(** ** Operations that only read

    [answers s m Phi]: on the store [s], whatever faults occur, [m] changes
    nothing, and what it answers satisfies [Phi]. *)

Definition answers {A} (s : Store) (m : M A) (Phi : A -> Prop) : Prop :=
  triple (fun st => st = s) m (fun a st => st = s /\ Phi a) (fun st => st = s).

Section Answers.
Context (s : Store).

Lemma answers_ret {A} (a : A) (Phi : A -> Prop) : Phi a -> answers s (mret a) Phi.
Proof. intros HP. apply triple_ret. by intros st ->. Qed.
Lemma answers_bind {A B} (m : M A) (f : A -> M B) (Phi : A -> Prop) (Psi : B -> Prop) :
  answers s m Phi -> (forall a, Phi a -> answers s (f a) Psi) -> answers s (m ≫= f) Psi.
Proof. intros Hm Hf. eapply triple_bind; [exact Hm|]. intros a. apply triple_pure. apply Hf. Qed.
Lemma answers_impl {A} (m : M A) (Phi Psi : A -> Prop) : answers s m Phi -> (forall a, Phi a -> Psi a) -> answers s m Psi.
Proof. intros Hm HP. eapply triple_weaken; [exact Hm|done| |done]. intros a st [-> ?]. auto. Qed.
Lemma answers_reading {A} (f : Store -> A) : answers s (reading f) (fun a => a = f s).
Proof. eapply triple_weaken; [apply triple_reading with (E := fun st => st = s); done|done| |done]. by intros a st [-> ->]. Qed.
Lemma answers_fail {A} er (Phi : A -> Prop) : answers s (fail er) Phi.
Proof. by apply triple_fail. Qed.
Lemma answers_lift {A} (r : res A) : answers s (lift r) (fun a => r = Ok a).
Proof. apply triple_lift. intros st ->. by destruct r. Qed.
Lemma answers_try {A} (m : M A) (Phi : A -> Prop) :
  answers s m Phi -> answers s (try_ m) (fun r => match r with Ok a => Phi a | Err _ => True end).
Proof.
  intros Hm. eapply triple_weaken; [by apply triple_try with (E' := fun st => st = s)|done| |done]. by intros [a|er] st.
Qed.
Lemma answers_run {A} (m : M A) (Phi : A -> Prop) w r w' :
  answers s m Phi -> objects w = s -> m w = (r, w') -> objects w' = s /\ (forall a, r = Ok a -> Phi a).
Proof. intros Hm Hw E. specialize (Hm w Hw). rewrite E in Hm. destruct r as [a|er]; [|done]. destruct Hm. split; [done|]. by intros ? [= <-]. Qed.
End Answers.

Lemma bind_run {A B} (m : M A) (f : A -> M B) w b w' :
  (m ≫= f) w = (Ok b, w') -> exists a w1, m w = (Ok a, w1) /\ f a w1 = (Ok b, w').
Proof. unfold mbind, M_bind. destruct (m w) as [[a|er] w1]; [eauto|done]. Qed.

(** ** Grouping *)

Lemma push_chunks_elem skip l p kv :
  kv ∈ default [] (foldl (push_chunk skip) ∅ l !! p) <-> kv ∈ l /\ pack_id kv.2 = p /\ p ∉ skip.
Proof.
  induction l as [|x l IH] using rev_ind; [cbn; set_solver|]. rewrite foldl_app. cbn [foldl]. unfold push_chunk at 1.
  rewrite elem_of_app, list_elem_of_singleton. case_decide as Hs.
  - rewrite IH. split; [tauto|]. intros ([Hl| ->] & Hp & Hn); [done|]. subst p. done.
  - rewrite lookup_insert. case_decide as Hp.
    + cbn [from_option]. unfold id at 1. rewrite elem_of_app, list_elem_of_singleton, Hp, IH. subst p. split; [|tauto]. intros [?| ->]; [tauto|]. auto.
    + rewrite IH. split; [tauto|]. intros ([Hl| ->] & Hq & Hn); done.
Qed.

Lemma group_elem skip ix p kv :
  kv ∈ default [] (group_by_pack skip ix !! p) <-> ix !! kv.1 = Some kv.2 /\ pack_id kv.2 = p /\ p ∉ skip.
Proof. unfold group_by_pack. rewrite push_chunks_elem. destruct kv as [id en]. by rewrite elem_of_map_to_list. Qed.

Lemma push_chunks_perm l : concat (map_to_list (foldl (push_chunk ∅) ∅ l)).*2 ≡ₚ l.
Proof.
  induction l as [|x l IH] using rev_ind; [cbn [foldl]; by rewrite map_to_list_empty|]. rewrite foldl_app. cbn [foldl]. unfold push_chunk at 1.
  rewrite decide_False by set_solver. set (m := foldl _ _ l) in *. destruct (m !! pack_id x.2) as [old|] eqn:Hp; cbn [from_option id].
  - rewrite <- (insert_delete_id m _ old Hp) in IH |- *. rewrite insert_insert_eq.
    rewrite map_to_list_insert in IH |- * by apply lookup_delete_eq. cbn [fmap list_fmap concat snd] in *.
    rewrite <- IH. rewrite <- !app_assoc. apply Permutation_app_head, Permutation_app_comm.
  - rewrite map_to_list_insert by done. cbn [fmap list_fmap concat snd app]. rewrite IH. apply Permutation_cons_append.
Qed.

Lemma chunk_count_concat (packs : list PackChunks) : chunk_count packs = length (concat packs.*2).
Proof. induction packs as [|p packs IH]; [done|]. cbn [chunk_count fold_right fmap list_fmap concat]. rewrite length_app. by f_equal. Qed.

Lemma group_count ix : chunk_count (map_to_list (group_by_pack ∅ ix)) = size ix.
Proof. rewrite chunk_count_concat. unfold group_by_pack. rewrite push_chunks_perm. apply length_map_to_list. Qed.

Section CheckLaws.
Context `{Hhex : HexCodec} `{Hblake : Blake2b} (e : CryptoEngine) `{Hcodecs : Codecs} `{Hmp : IndexCodec}.
Context `{Hmeta : MsgPack SnapshotMeta} `{Hitems : ItemStream}.

(** ** What verified data is *)

(** The chunk is where its entry says, and is what its name says. *)
Definition genuine (s : Store) (id : ChunkId) (en : ChunkIndexEntry) : Prop :=
  exists data plaintext, s !! pack_storage_key (pack_id en) = Some data /\
    pack_offset en + stored_size en <= Z.of_nat (length data) /\
    open_blob e id (slice (Z.to_nat (pack_offset en)) (Z.to_nat (stored_size en)) data) = Ok plaintext /\
    chunk_id_compute (chunk_id_key e) plaintext = id.

(** The issues the verification of a pack can raise. *)
Definition concerns (p : PackId) (chunks : list (ChunkId * ChunkIndexEntry)) (i : IntegrityIssue) : Prop :=
  match i with
  | CorruptPackContent q _ | PackExistenceCheckFailed q _ => q = p
  | CorruptChunk id q _ => q = p /\ id ∈ chunks.*1
  | _ => False
  end.

Lemma verify_single_spec id p raw chunks : id ∈ chunks.*1 ->
  let x := verify_single_chunk e id p raw in
  Forall (concerns p chunks) x.2 /\
  (x.2 = [] -> x.1 = 1%nat /\ exists pt, open_blob e id raw = Ok pt /\ chunk_id_compute (chunk_id_key e) pt = id).
Proof.
  intros Hin. cbv zeta. unfold verify_single_chunk, open_blob. destruct (unpack_object_expect_with_context _ _ _ _) as [compressed|].
  2:{ split; [by apply Forall_singleton|done]. }
  cbn [mbind result_bind]. destruct (decompress compressed) as [pt|]; [|split; [by apply Forall_singleton|done]].
  case_decide; [|split; [by apply Forall_singleton|done]]. split; [by apply Forall_nil|]. intros _. split; [done|]. by exists pt.
Qed.

Lemma open_blob_nil id : is_ok (open_blob e id []) = false.
Proof. reflexivity. Qed.

Definition typed_entry (kv : ChunkId * ChunkIndexEntry) : Prop := 0 <= pack_offset kv.2 /\ 0 <= stored_size kv.2.

Lemma verify_in_pack_spec s p data kv chunks :
  s !! pack_storage_key p = Some data -> pack_id kv.2 = p -> kv ∈ chunks ->
  let x := verify_in_pack e p data kv in
  Forall (concerns p chunks) x.2 /\ (x.2 = [] -> x.1 = 1%nat /\ genuine s kv.1 kv.2).
Proof.
  intros Hd Hp Hin. cbv zeta. assert (Hid : kv.1 ∈ chunks.*1) by (apply list_elem_of_fmap; by exists kv).
  unfold verify_in_pack. destruct (_ <? _); [split; [by apply Forall_singleton|done]|].
  destruct (Z.ltb_spec (Z.of_nat (length data)) (pack_offset kv.2 + stored_size kv.2)); [split; [by apply Forall_singleton|done]|].
  destruct (verify_single_spec kv.1 p (slice (Z.to_nat (pack_offset kv.2)) (Z.to_nat (stored_size kv.2)) data) chunks Hid) as [H1 H2].
  split; [done|]. intros E. destruct (H2 E) as (Hn & pt & Ho & Hc). split; [done|]. exists data, pt. by rewrite Hp.
Qed.

Definition verified_pack (s : Store) (p : PackId) (chunks : list (ChunkId * ChunkIndexEntry)) (x : nat * list IntegrityIssue) : Prop :=
  Forall (concerns p chunks) x.2 /\ (x.2 = [] -> x.1 = length chunks /\ Forall (fun kv => genuine s kv.1 kv.2) chunks).

Lemma sum_verified_spec s p all chunks (f : ChunkId * ChunkIndexEntry -> nat * list IntegrityIssue) :
  (forall kv, kv ∈ chunks -> Forall (concerns p all) (f kv).2 /\ ((f kv).2 = [] -> (f kv).1 = 1%nat /\ genuine s kv.1 kv.2)) ->
  Forall (concerns p all) (sum_verified (f <$> chunks)).2 /\
  ((sum_verified (f <$> chunks)).2 = [] -> (sum_verified (f <$> chunks)).1 = length chunks /\ Forall (fun kv => genuine s kv.1 kv.2) chunks).
Proof.
  unfold sum_verified. cbn [fst snd]. induction chunks as [|kv chunks IH]; intros Hf; [by split; [by apply Forall_nil|]|].
  destruct (Hf kv (list_elem_of_here _ _)) as [H1 H2]. destruct IH as [H3 H4]; [intros kv' Hkv'; apply Hf; by right|].
  cbn [fmap list_fmap concat fold_right]. split; [by apply Forall_app|]. intros [E1 E2]%app_eq_nil.
  destruct (H2 E1) as [-> Hg]. destruct (H4 E2) as [-> Hgs]. split; [done|]. by constructor.
Qed.

Lemma verify_pack_full_spec s p chunks :
  Forall (fun kv => pack_id kv.2 = p) chunks -> answers s (verify_pack_full e p chunks) (verified_pack s p chunks).
Proof.
  intros Hp. unfold verify_pack_full. eapply answers_bind; [apply answers_try, answers_reading|].
  intros [[data|]|er] Hd; cbv beta in Hd; [|apply answers_ret; split; [by apply Forall_singleton|done]..].
  destruct (valid_pack_header data); apply answers_ret; [|split; [by apply Forall_singleton|done]].
  apply sum_verified_spec. intros kv Hin. rewrite Forall_forall in Hp. by apply verify_in_pack_spec; [|apply Hp|].
Qed.

Lemma verify_pack_individual_spec s p all chunks :
  Forall (fun kv => pack_id kv.2 = p /\ typed_entry kv) chunks -> chunks ⊆ all ->
  answers s (verify_pack_individual e p chunks) (fun x => Forall (concerns p all) x.2 /\
    (x.2 = [] -> x.1 = length chunks /\ Forall (fun kv => genuine s kv.1 kv.2) chunks)).
Proof.
  induction chunks as [|[id en] chunks IH]; intros Hc Hall; cbn [verify_pack_individual]; [apply answers_ret; by split; [by apply Forall_nil|]|].
  apply Forall_cons in Hc as [(Hp & Ho & Hs) Hc]. cbn [fst snd] in *.
  assert (Hid : id ∈ all.*1) by (apply list_elem_of_fmap; exists (id, en); split; [done|apply Hall, list_elem_of_here]).
  eapply answers_bind with (Phi := fun d => match d with
    | Ok raw => exists data, s !! pack_storage_key p = Some data /\ Z.of_nat (length raw) = stored_size en /\
        raw = slice (Z.to_nat (pack_offset en)) (Z.to_nat (stored_size en)) data
    | Err _ => True end).
  { apply answers_try. unfold read_blob_from_pack, get_range.
    eapply answers_bind with (Phi := fun o => match o with Some raw => exists data, s !! pack_storage_key p = Some data /\
      Z.of_nat (length raw) = stored_size en /\ raw = slice (Z.to_nat (pack_offset en)) (Z.to_nat (stored_size en)) data | None => True end).
    - eapply answers_bind; [apply answers_reading|]. intros [data|] Hd; [|by apply answers_ret]. cbv zeta.
      destruct (Z.eqb_spec (Z.of_nat (length (slice (Z.to_nat (pack_offset en)) (Z.to_nat (stored_size en)) data))) (stored_size en)) as [E|]; [|apply answers_fail].
      apply answers_ret. by exists data.
    - intros [raw|] Hr; [|apply answers_fail]. destruct (negb _); [apply answers_fail|]. by apply answers_ret. }
  intros d Hd. cbv zeta. eapply answers_bind; [apply IH; [done|]; intros x Hx; apply Hall; by right|].
  intros rest [H1 H2]. apply answers_ret. cbn [fst snd]. destruct d as [raw|er].
  2:{ split; [apply Forall_app; split; [by apply Forall_singleton|done]|done]. }
  destruct (verify_single_spec id p raw all Hid) as [H3 H4]. split; [by apply Forall_app|]. intros [E1 E2]%app_eq_nil.
  destruct (H4 E1) as (-> & pt & Hopen & Hcomp). destruct (H2 E2) as [-> Hg]. split; [done|]. constructor; [|done].
  destruct Hd as (data & Hd & Hlen & ->). cbn [fst snd]. exists data, pt. rewrite Hp. split; [done|]. split; [|done].
  destruct (decide (stored_size en = 0)) as [Hz|]; [|unfold slice in Hlen; rewrite length_take, length_drop in Hlen; lia].
  rewrite Hz in Hopen. change (slice _ (Z.to_nat 0) data) with (@nil Z) in Hopen. pose proof (open_blob_nil id) as Hnil. by rewrite Hopen in Hnil.
Qed.

Lemma parallel_verify_data_spec s packs :
  (forall p chunks kv, (p, chunks) ∈ packs -> kv ∈ chunks -> pack_id kv.2 = p /\ typed_entry kv) ->
  answers s (parallel_verify_data e packs) (fun x =>
    Forall (fun i => exists p chunks, (p, chunks) ∈ packs /\ concerns p chunks i) x.2 /\
    (x.2 = [] -> x.1 = chunk_count packs /\ forall p chunks kv, (p, chunks) ∈ packs -> kv ∈ chunks -> genuine s kv.1 kv.2)).
Proof.
  induction packs as [|[p chunks] packs IH]; intros Hty; cbn [parallel_verify_data].
  { apply answers_ret. split; [by apply Forall_nil|]. intros _. split; [done|]. intros ? ? ? Hn. by apply not_elem_of_nil in Hn. }
  assert (Hc : Forall (fun kv => pack_id kv.2 = p /\ typed_entry kv) chunks).
  { apply Forall_forall. intros kv Hkv. apply (Hty p chunks kv); [apply list_elem_of_here|done]. }
  eapply answers_bind with (Phi := verified_pack s p chunks).
  { destruct (_ <=? _)%nat; [eapply verify_pack_full_spec, Forall_impl; [exact Hc|by intros ? []]|].
    by apply (verify_pack_individual_spec s p chunks chunks). }
  intros x [H1 H2]. eapply answers_bind; [apply IH; intros; eapply Hty; [by right|done]|].
  intros rest [H3 H4]. apply answers_ret. cbn [fst snd]. split.
  - apply Forall_app. split; (eapply Forall_impl; [eassumption|]); cbv beta.
    + intros i Hi. exists p, chunks. split; [apply list_elem_of_here|done].
    + intros i (q & cs & Hq & Hi). exists q, cs. split; [by right|done].
  - intros [E1 E2]%app_eq_nil. destruct (H2 E1) as [-> Hg]. destruct (H4 E2) as [-> Hgs]. split; [done|].
    intros q cs kv [[= -> ->]|Hq]%elem_of_cons Hkv; [rewrite Forall_forall in Hg; by apply Hg|by eapply Hgs].
Qed.

Lemma pack_existence_spec s packs :
  answers s (parallel_pack_existence packs) (fun x =>
    Forall (fun i => match i with MissingPack p => p ∈ packs /\ s !! pack_storage_key p = None | PackExistenceCheckFailed p _ => p ∈ packs | _ => False end) x.2 /\
    (forall p, p ∈ packs -> s !! pack_storage_key p = None -> MissingPack p ∈ x.2 \/ exists d, PackExistenceCheckFailed p d ∈ x.2) /\
    (x.2 = [] -> x.1 = length packs)).
Proof.
  induction packs as [|p packs IH]; cbn [parallel_pack_existence].
  { apply answers_ret. split; [by apply Forall_nil|]. split; [by intros ? ?%not_elem_of_nil|done]. }
  eapply answers_bind; [apply answers_try, answers_reading|]. intros x Hx. eapply answers_bind; [exact IH|].
  intros [n iss] (H1 & H2 & H3). apply answers_ret. cbn [fst snd] in *.
  assert (Hup : Forall (fun i => match i with MissingPack q => q ∈ p :: packs /\ s !! pack_storage_key q = None
    | PackExistenceCheckFailed q _ => q ∈ p :: packs | _ => False end) iss).
  { eapply Forall_impl; [exact H1|]. intros []; try done; [intros [? ?]; split; [by right|done]|by right]. }
  destruct x as [[|]|er]; cbv beta in Hx; cbn [fst snd].
  - symmetry in Hx. apply bool_decide_eq_true in Hx as [d Hd]. split; [done|]. split; [|intros E; by rewrite H3].
    intros q [->|Hq]%elem_of_cons; [by rewrite Hd|by apply H2].
  - symmetry in Hx. apply bool_decide_eq_false, eq_None_not_Some in Hx. split; [constructor; [split; [apply list_elem_of_here|done]|done]|]. split; [|done].
    intros q [->|Hq]%elem_of_cons Hn; [left; apply list_elem_of_here|]. destruct (H2 q Hq Hn) as [|[d ?]]; [left; by right|right; exists d; by right].
  - split; [constructor; [apply list_elem_of_here|done]|]. split; [|done].
    intros q [->|Hq]%elem_of_cons Hn; [right; eexists; apply list_elem_of_here|]. destruct (H2 q Hq Hn) as [|[d ?]]; [left; by right|right; exists d; by right].
Qed.

(** ** What the scan of the snapshots finds *)

Section Scan.
Context (plain : ChunkId -> bytes) (s : Store) (r : Repository).

(** Item streams that are read are the plaintexts of their chunks. *)
Definition reads_plain : Prop := forall ptrs c, cache_sound plain c ->
  answers s (load_item_stream_from_ptrs e r ptrs c) (fun p => p.1 = concat (plain <$> ptrs) /\ cache_sound plain p.2).

(** The snapshot can be read, and all its chunks [ids] are in the index. *)
Definition whole (entry : SnapshotEntry) (ids : list ChunkId) : Prop :=
  exists d m items, s !! snapshot_storage_key (snap_id entry) = Some d /\ decode_snapshot_meta e (snap_id entry) d = Ok m /\
    decode_items_stream (concat (plain <$> item_ptrs m)) = Ok items /\ ids = concat (file_ids <$> items) ++ item_ptrs m /\
    forall id, id ∈ ids -> is_Some (chunk_index r !! id).

(** Issues that name a snapshot. *)
Definition blames (entry : SnapshotEntry) (i : IntegrityIssue) : Prop :=
  match i with
  | CorruptSnapshot id name => id = snap_id entry /\ name = Some (snap_name entry)
  | DanglingItemPtr name _ | DanglingFileChunk name _ _ | UnreadableSnapshot name _ | SnapshotReadFailed name _ => name = snap_name entry
  | _ => False
  end.

Definition collected (collect : bool) (name : string) (ids : list ChunkId) (st : ScanResult) : Prop :=
  collect = true -> forall id, id ∈ ids -> exists R, snapshot_chunk_refs st !! name = Some R /\ id ∈ R.

(** References are only added. *)
Definition refs_grow (st st' : ScanResult) : Prop :=
  forall name R, snapshot_chunk_refs st !! name = Some R -> exists R', snapshot_chunk_refs st' !! name = Some R' /\ R ⊆ R'.

Lemma refs_grow_refl st : refs_grow st st.
Proof. intros n R HR. by exists R. Qed.
Lemma refs_grow_trans st1 st2 st3 : refs_grow st1 st2 -> refs_grow st2 st3 -> refs_grow st1 st3.
Proof. intros H1 H2 n R HR. destruct (H1 n R HR) as (R1 & H & ?). destruct (H2 n R1 H) as (R2 & ? & ?). exists R2. split; [done|]. by transitivity R1. Qed.
Lemma refs_grow_add name ids st : refs_grow st (add_refs name ids st).
Proof.
  intros n R HR. unfold add_refs. cbn [snapshot_chunk_refs]. rewrite lookup_insert. case_decide as E; [|by exists R].
  subst n. rewrite HR. eexists. split; [done|]. cbn. apply union_subseteq_l.
Qed.
Lemma collected_grow collect name ids st st' : refs_grow st st' -> collected collect name ids st -> collected collect name ids st'.
Proof. intros Hg Hc Hcol id Hid. destruct (Hc Hcol id Hid) as (R & HR & Hin). destruct (Hg _ _ HR) as (R' & ? & Hsub). exists R'. split; [done|]. by apply Hsub. Qed.
Lemma collected_add name ids st : collected true name ids (add_refs name ids st).
Proof.
  intros _ id Hid. unfold add_refs. cbn [snapshot_chunk_refs]. rewrite lookup_insert_eq. eexists. split; [done|].
  apply elem_of_union_r. by apply elem_of_list_to_set.
Qed.

Lemma check_ptrs_spec collect ix entry ptrs : forall st,
  exists new, issues (foldl (check_ptr collect ix (snap_name entry)) st ptrs) = issues st ++ new /\ Forall (blames entry) new /\
    (new = [] -> forall id, id ∈ ptrs -> is_Some (ix !! id)) /\
    refs_grow st (foldl (check_ptr collect ix (snap_name entry)) st ptrs) /\
    collected collect (snap_name entry) ptrs (foldl (check_ptr collect ix (snap_name entry)) st ptrs).
Proof.
  induction ptrs as [|id ptrs IH]; intros st; cbn [foldl].
  { exists []. rewrite app_nil_r. split_and!; [done|by apply Forall_nil|by intros _ ? ?%not_elem_of_nil|apply refs_grow_refl|by intros _ ? ?%not_elem_of_nil]. }
  destruct (IH (check_ptr collect ix (snap_name entry) st id)) as (new & Hi & Hb & Hin & Hg & Hcol).
  set (st1 := if collect then add_refs (snap_name entry) [id] st else st).
  assert (Hg1 : refs_grow st (check_ptr collect ix (snap_name entry) st id)).
  { unfold check_ptr. fold st1. assert (refs_grow st st1) by (unfold st1; destruct collect; [apply refs_grow_add|apply refs_grow_refl]).
    by destruct (contains ix id). }
  assert (Hc1 : collected collect (snap_name entry) [id] (check_ptr collect ix (snap_name entry) st id)).
  { intros E. unfold check_ptr. rewrite E. intros x Hx. destruct (collected_add (snap_name entry) [id] st eq_refl x Hx) as (R & HR & ?).
    exists R. by destruct (contains ix id). }
  assert (Hi1 : issues (check_ptr collect ix (snap_name entry) st id) =
    issues st ++ (if contains ix id then [] else [DanglingItemPtr (snap_name entry) id])).
  { unfold check_ptr. destruct (contains ix id); [rewrite app_nil_r|]; by destruct collect. }
  exists ((if contains ix id then [] else [DanglingItemPtr (snap_name entry) id]) ++ new). split_and!.
  - by rewrite Hi, Hi1, app_assoc.
  - apply Forall_app. split; [|done]. destruct (contains ix id); [by apply Forall_nil|by apply Forall_singleton].
  - intros [E1 E2]%app_eq_nil x [->|Hx]%elem_of_cons; [|by apply Hin]. destruct (contains ix id) eqn:Hc; [by apply contains_true|done].
  - by eapply refs_grow_trans.
  - intros E x [->|Hx]%elem_of_cons; [|by apply Hcol]. eapply collected_grow; [exact Hg|exact Hc1|done|by apply list_elem_of_singleton].
Qed.

(** The issues of all items. *)
Definition dangling_files (ix : ChunkIndex) (name : string) (items : list Item) : list IntegrityIssue :=
  concat ((fun it => (fun id => DanglingFileChunk name (item_path it) id) <$> List.filter (fun id => negb (contains ix id)) (file_ids it)) <$> items).

Lemma check_items_fold collect ix name items : forall n iss ids,
  foldl (fun st it => check_item collect ix name it st) (n, iss, ids) items =
    ((n + length items)%nat,
     iss ++ dangling_files ix name items,
     if collect then ids ++ concat (file_ids <$> items) else ids).
Proof.
  induction items as [|it items IH]; intros n iss ids; cbn [foldl].
  { cbn. rewrite !app_nil_r. replace (n + 0)%nat with n by lia. by destruct collect. }
  etransitivity; [apply IH|]. unfold dangling_files. cbn [fmap list_fmap concat length]. rewrite <- app_assoc. f_equal; [f_equal; lia|].
  destruct collect; [by rewrite <- app_assoc|done].
Qed.

Lemma dangling_nil ix name items :
  dangling_files ix name items = [] ->
  forall id, id ∈ concat (file_ids <$> items) -> is_Some (ix !! id).
Proof.
  unfold dangling_files. induction items as [|it items IH]; cbn [fmap list_fmap concat]; [by intros _ ? ?%not_elem_of_nil|].
  intros [E1 E2]%app_eq_nil id [Hid|Hid]%elem_of_app; [|by apply IH]. apply contains_true. destruct (contains ix id) eqn:Hc; [done|].
  assert (Hin : id ∈ List.filter (fun id => negb (contains ix id)) (file_ids it)).
  { apply list_elem_of_In, List.filter_In. rewrite Hc. split; [by apply list_elem_of_In|done]. }
  destruct (List.filter _ _); [by apply not_elem_of_nil in Hin|done].
Qed.

Lemma dangling_blames ix entry items :
  Forall (blames entry) (dangling_files ix (snap_name entry) items).
Proof. apply Forall_concat, Forall_fmap, Forall_forall. intros it _. cbv beta. apply Forall_fmap, Forall_forall. by intros id _. Qed.

Lemma load_meta_answers entry :
  find_snapshot (manifest r) (snap_name entry) = Some entry ->
  answers s (load_snapshot_meta e r (snap_name entry)) (fun m => exists d, s !! snapshot_storage_key (snap_id entry) = Some d /\
    decode_snapshot_meta e (snap_id entry) d = Ok m).
Proof.
  intros Hf. eapply triple_weaken; [apply (load_meta_triple e (fun st => st = s) r (snap_name entry) entry s Hf); by intros ? ->|done|done|done].
Qed.

(** What scanning a snapshot that is found under its name adds. *)
Definition scanned (collect : bool) (entry : SnapshotEntry) (st st' : ScanResult) : Prop :=
  exists new, issues st' = issues st ++ new /\ Forall (blames entry) new /\ refs_grow st st' /\
    (new = [] -> snapshots_checked (counters st') = S (snapshots_checked (counters st)) /\
       exists ids, whole entry ids /\ collected collect (snap_name entry) ids st').

Lemma scan_snapshot_spec collect entry st c :
  reads_plain -> find_snapshot (manifest r) (snap_name entry) = Some entry -> cache_sound plain c ->
  answers s (scan_snapshot e r collect entry st c) (fun x => scanned collect entry st x.1 /\ cache_sound plain x.2).
Proof.
  intros Hread Hf Hc. unfold scan_snapshot. cbv zeta. eapply answers_bind; [apply answers_try, load_meta_answers, Hf|].
  intros [m|er] Hm; cbv beta in Hm.
  2:{ apply answers_ret. split; [|done]. eexists. split; [done|]. split; [|split; [exact (refs_grow_refl st)|done]].
      apply Forall_singleton. by destruct (is_transient_io er). }
  destruct Hm as (d & Hd & Hdec). destruct (check_ptrs_spec collect (chunk_index r) entry (item_ptrs m) st) as (new & Hi & Hb & Hin & Hg & Hcol).
  set (st1 := foldl _ st _) in *. eapply answers_bind with (Phi := fun x => match x with
    | Ok p => p.1 = concat (plain <$> item_ptrs m) /\ cache_sound plain p.2 | Err _ => True end).
  { apply answers_try. eapply answers_bind; [by apply load_meta_answers|]. intros m' (d' & Hd' & Hdec').
    rewrite Hd in Hd'. injection Hd' as <-. rewrite Hdec in Hdec'. injection Hdec' as <-. by apply Hread. }
  intros [[stream c']|er] Hs; cbv beta in Hs.
  2:{ apply answers_ret. split; [|done]. exists (new ++ [if is_transient_io er then SnapshotReadFailed (snap_name entry) ("load item stream: " +:+ display er)
        else UnreadableSnapshot (snap_name entry) ("load item stream: " +:+ display er)]). split.
      { cbn [fst]. change (issues (add_issues ?x ?y)) with (issues y ++ x). by rewrite Hi, app_assoc. }
      split; [|split; [done|by intros [_ ?]%app_eq_nil]]. apply Forall_app. split; [done|]. apply Forall_singleton. by destruct (is_transient_io er). }
  cbn [fst snd] in Hs. destruct Hs as [-> Hc']. destruct (for_each_pure (concat (plain <$> item_ptrs m))) as (o & items & Hitems' & Hrun).
  rewrite (Hrun _ (check_item collect (chunk_index r) (snap_name entry))), check_items_fold. cbn [app].
  set (dang := dangling_files _ _ _). set (ids := if collect then concat (file_ids <$> items) else []). apply answers_ret. cbn [fst snd]. split; [|done].
  set (st2 := match o with Ok _ => st1 | Err er => add_issues [UnreadableSnapshot (snap_name entry) ("decode items: " +:+ display er)] st1 end).
  set (st3 := if collect then add_refs (snap_name entry) ids (add_issues dang st2) else add_issues dang st2).
  assert (Hg2 : refs_grow st1 st3).
  { assert (Hr2 : snapshot_chunk_refs (add_issues dang st2) = snapshot_chunk_refs st1) by (unfold st2; by destruct o).
    intros n R HR. rewrite <- Hr2 in HR. unfold st3. destruct collect; [by apply (refs_grow_add (snap_name entry) ids (add_issues dang st2))|by exists R]. }
  exists (new ++ (match o with Ok _ => [] | Err er => [UnreadableSnapshot (snap_name entry) ("decode items: " +:+ display er)] end) ++ dang). split_and!.
  - cbn [count_snapshot issues]. transitivity (issues st2 ++ dang); [unfold st3; by destruct collect|].
    unfold st2. destruct o as [u|er]; [by rewrite Hi, <- app_assoc|].
    change (issues (add_issues ?x ?y)) with (issues y ++ x). by rewrite Hi, <- !app_assoc.
  - apply Forall_app. split; [done|]. apply Forall_app. split; [by destruct o; [apply Forall_nil|apply Forall_singleton]|]. apply dangling_blames.
  - eapply refs_grow_trans; [exact Hg|]. exact Hg2.
  - intros [Hnew [Ho Hdang]%app_eq_nil]%app_eq_nil. destruct o as [u|]; [|done]. split.
    { cbn [count_snapshot counters snapshots_checked]. f_equal. transitivity (snapshots_checked (counters st1)); [unfold st3, st2; by destruct collect|].
      unfold st1. clear. revert st. generalize (item_ptrs m). intros l. induction l as [|x l IH]; intros st; [done|]. cbn [foldl].
      rewrite IH. unfold check_ptr. destruct (contains _ _), collect; done. }
    exists (concat (file_ids <$> items) ++ item_ptrs m). split.
    + exists d, m, items. split_and!; [done..|]. intros id [Hid|Hid]%elem_of_app; [by eapply dangling_nil|by apply Hin].
    + intros E id [Hid|Hid]%elem_of_app; cbn [count_snapshot snapshot_chunk_refs].
      * unfold st3, ids. rewrite E. by apply (collected_add (snap_name entry) (concat (file_ids <$> items))).
      * by apply (collected_grow collect (snap_name entry) (item_ptrs m) st1 st3).
Qed.

Lemma scanned_grow collect entry st1 st2 : scanned collect entry st1 st2 -> refs_grow st1 st2.
Proof. by intros (new & _ & _ & Hg & _). Qed.

(** All snapshots: each is whole, or an issue names it. *)
Definition scanned_all (collect : bool) (entries : list SnapshotEntry) (st st' : ScanResult) : Prop :=
  exists new, issues st' = issues st ++ new /\ refs_grow st st' /\
    Forall (fun i => exists entry, entry ∈ entries /\ blames entry i) new /\
    (forall entry, entry ∈ entries -> (exists i, i ∈ new /\ blames entry i) \/
       exists ids, whole entry ids /\ collected collect (snap_name entry) ids st') /\
    (new = [] -> snapshots_checked (counters st') = (snapshots_checked (counters st) + length entries)%nat).

Lemma scan_snapshots_spec collect entries : forall st c,
  reads_plain -> (forall entry, entry ∈ entries -> find_snapshot (manifest r) (snap_name entry) = Some entry) -> cache_sound plain c ->
  answers s (scan_snapshots e r collect entries st c) (fun x => scanned_all collect entries st x.1 /\ cache_sound plain x.2).
Proof.
  induction entries as [|entry entries IH]; intros st c Hread Hf Hc; cbn [scan_snapshots].
  { apply answers_ret. split; [|done]. exists []. rewrite app_nil_r. split_and!; [done|apply refs_grow_refl|by apply Forall_nil|by intros ? ?%not_elem_of_nil|].
    intros _. cbn. lia. }
  eapply answers_bind; [apply scan_snapshot_spec; [done|apply Hf, list_elem_of_here|done]|].
  intros [st1 c1] [(new1 & Hi1 & Hb1 & Hg1 & Hw1) Hc1]. cbn [fst snd] in *.
  eapply answers_impl; [apply IH; [done|intros en Hen; apply Hf; by right|done]|].
  intros [st2 c2] [(new2 & Hi2 & Hg2 & Hb2 & Hw2 & Hn2) Hc2]. cbn [fst snd] in *. split; [|done].
  exists (new1 ++ new2). split_and!.
  - by rewrite Hi2, Hi1, app_assoc.
  - by eapply refs_grow_trans.
  - apply Forall_app. split; (eapply Forall_impl; [eassumption|]); cbv beta.
    + intros i Hi. exists entry. split; [apply list_elem_of_here|done].
    + intros i (en & Hen & Hi). exists en. split; [by right|done].
  - intros en [->|Hen]%elem_of_cons.
    + destruct new1 as [|i new1].
      * right. destruct (Hw1 eq_refl) as (_ & ids & Hids & Hcol). exists ids. split; [done|]. by eapply collected_grow.
      * left. exists i. split; [apply list_elem_of_here|]. by apply Forall_cons in Hb1 as [? _].
    + destruct (Hw2 en Hen) as [(i & Hi & Hbi)|?]; [left; exists i; split; [set_solver|done]|by right].
  - intros [E1 E2]%app_eq_nil. rewrite Hn2 by done. destruct (Hw1 E1) as [-> _]. cbn. lia.
Qed.
End Scan.

Lemma find_snapshot_NoDup m entry : NoDup (snap_name <$> m) -> entry ∈ m -> find_snapshot m (snap_name entry) = Some entry.
Proof.
  induction m as [|en m IH]; intros Hnd Hin; [by apply not_elem_of_nil in Hin|]. rewrite fmap_cons in Hnd. apply NoDup_cons in Hnd as [Hn Hnd].
  unfold find_snapshot in *. cbn [List.find]. apply elem_of_cons in Hin as [->|Hin]; [by rewrite String.eqb_refl|].
  destruct (String.eqb_spec (snap_name en) (snap_name entry)) as [E|_]; [|by apply IH].
  exfalso. apply Hn. rewrite E. apply list_elem_of_fmap. by exists entry.
Qed.

Lemma placed_reads plain s r : placed e plain s (chunk_index r) -> reads_plain plain s r.
Proof.
  intros Hp ptrs c Hc. eapply triple_weaken; [apply (load_stream_triple e plain (fun st => st = s) r ptrs c); [by intros ? ->|done]|done|done|done].
Qed.

(** ** A clean check *)

(** What the store holds for a chunk of the index. *)
Definition plain_of (s : Store) (ix : ChunkIndex) (id : ChunkId) : bytes :=
  match ix !! id with
  | None => []
  | Some en =>
      match s !! pack_storage_key (pack_id en) with
      | None => []
      | Some data =>
          match open_blob e id (slice (Z.to_nat (pack_offset en)) (Z.to_nat (stored_size en)) data) with Ok pt => pt | Err _ => [] end
      end
  end.

Lemma genuine_placed s ix :
  wf_index ix -> unnested ix -> (forall id en, ix !! id = Some en -> genuine s id en) ->
  placed e (plain_of s ix) s ix /\ forall id, is_Some (ix !! id) -> chunk_id_compute (chunk_id_key e) (plain_of s ix id) = id.
Proof.
  intros Hwf Hun Hg. split; [split; [|done]|].
  - intros id en Hen. destruct (Hg id en Hen) as (data & pt & Hd & Hle & Ho & _). destruct (Hwf id en Hen) as (_ & _ & [Hs _] & _ & [Hoff _]).
    exists data. unfold chunk_at, ck_pack, ck_off, ck_size, ck_end, ck_id. cbn [fst snd]. split_and!; try done.
    unfold plain_of. by rewrite Hen, Hd, Ho.
  - intros id [en Hen]. destruct (Hg id en Hen) as (data & pt & Hd & Hle & Ho & Hc). unfold plain_of. by rewrite Hen, Hd, Ho.
Qed.

(** The objects phase 0 complains of cannot be read. *)
Definition orphan_issue (s : Store) (i : IntegrityIssue) : Prop :=
  match i with
  | InvalidSnapshotKey key => exists id_hex, strip_prefix key "snapshots/" = Some id_hex /\ is_ok (snapshot_from_hex id_hex) = false
  | CorruptSnapshot id name => name = None /\ exists key id_hex d, strip_prefix key "snapshots/" = Some id_hex /\
      snapshot_from_hex id_hex = Ok id /\ s !! key = Some d /\ is_ok (decode_snapshot_meta e id d) = false
  | SnapshotReadFailed _ _ => True
  | _ => False
  end.

Lemma scan_orphan_spec s ids key : answers s (scan_orphan e ids key) (Forall (orphan_issue s)).
Proof.
  unfold scan_orphan. destruct (strip_prefix key "snapshots/") as [id_hex|] eqn:Hk; [|apply answers_ret; by apply Forall_nil].
  destruct (_ || _); [apply answers_ret; by apply Forall_nil|]. destruct (snapshot_from_hex id_hex) as [id|er] eqn:Hid.
  2:{ apply answers_ret, Forall_singleton. exists id_hex. by rewrite Hid. }
  eapply answers_bind; [apply answers_try, answers_reading|]. intros [[d|]|er] Hd; cbv beta in Hd; [|apply answers_ret; by apply Forall_nil|apply answers_ret; by apply Forall_singleton].
  destruct (decode_snapshot_meta e id d) eqn:Hdec; apply answers_ret; [by apply Forall_nil|]. apply Forall_singleton. split; [done|].
  exists key, id_hex, d. rewrite Hdec. done.
Qed.

Lemma phase0_spec s r : answers s (phase0 e r) (Forall (orphan_issue s)).
Proof.
  unfold phase0. eapply answers_bind; [apply answers_reading|]. intros keys _. induction keys as [|key keys IH]; cbn [scan_orphans]; [apply answers_ret; by apply Forall_nil|].
  eapply answers_bind; [apply scan_orphan_spec|]. intros l1 H1. eapply answers_bind; [exact IH|]. intros l2 H2. apply answers_ret. by apply Forall_app.
Qed.

Lemma group_nonempty skip ix p chunks : group_by_pack skip ix !! p = Some chunks -> chunks <> [].
Proof.
  unfold group_by_pack. generalize (map_to_list ix) as l. intros l. revert chunks. induction l as [|x l IH] using rev_ind; intros chunks; [done|].
  rewrite foldl_app. cbn [foldl]. unfold push_chunk at 1. case_decide; [apply IH|]. intros [[_ <-]|[_ Hp]]%lookup_insert_Some; [|by eapply IH].
  by intros [_ ?]%app_eq_nil.
Qed.

(** Reads keep the store, whatever they answer. *)
Lemma load_meta_preserves (P : Store -> Prop) r name : preserves P (load_snapshot_meta e r name).
Proof.
  unfold load_snapshot_meta. destruct (find_snapshot _ _); [|apply preserves_fail]. apply preserves_bind; [apply preserves_reading|].
  intros [d|]; [apply preserves_lift|apply preserves_fail].
Qed.

Lemma load_stream_preserves (P : Store -> Prop) r ptrs c : preserves P (load_item_stream_from_ptrs e r ptrs c).
Proof.
  unfold load_item_stream_from_ptrs, resolve_and_read. apply preserves_bind; [apply preserves_lift|]. intros [|k chunks]; [apply preserves_ret|].
  rewrite read_coalesced_nonempty by done. destruct (cache_scan _ _ _ _ _) as [slots pb]. cbv zeta. destruct (bool_decide _); [apply preserves_ret|].
  apply preserves_bind; [|intros ?; apply preserves_ret]. generalize (drain (mkRead slots 0 [] c)) as st. generalize (coalesce pb) as gs.
  induction gs as [|g gs IH]; intros st; cbn [read_groups]; [apply preserves_ret|]. apply preserves_bind; [|intros ?; apply IH].
  unfold read_group, get_range. apply preserves_bind.
  - apply preserves_bind; [apply preserves_reading|]. intros [d|]; [|apply preserves_ret]. cbv zeta. destruct (_ =? _); [apply preserves_ret|apply preserves_fail].
  - intros [raw|]; [apply preserves_lift|apply preserves_fail].
Qed.

Lemma scan_snapshots_reads s r collect entries : forall st c w x w',
  objects w = s -> scan_snapshots e r collect entries st c w = (Ok x, w') -> objects w' = s.
Proof.
  intros st c w x w' Hw Hrun. assert (Hp : forall st c, preserves (fun o => o = s) (scan_snapshots e r collect entries st c)).
  { clear. induction entries as [|en entries IH]; intros st c; cbn [scan_snapshots]; [apply preserves_ret|].
    apply preserves_bind; [|intros ?; apply IH]. unfold scan_snapshot. cbv zeta.
    apply preserves_bind; [apply preserves_try, load_meta_preserves|]. intros [m|er]; [|apply preserves_ret].
    apply preserves_bind; [apply preserves_try, preserves_bind; [apply load_meta_preserves|intros m'; apply load_stream_preserves]|].
    intros [[stream c']|er]; [|apply preserves_ret]. destruct (for_each_decoded_item _ _ _) as [? [[? ?] ?]]. apply preserves_ret. }
  specialize (Hp st c w Hw). rewrite Hrun in Hp. exact Hp.
Qed.

Context (sample : Z -> Z -> gset nat).

(** The stages of a scan that is not sampled and skips nothing. *)
Lemma scan_stages s r opts c w st c' w' :
  wf_index (chunk_index r) -> skip_packs opts = None -> snapshot_sample_percent opts = None -> objects w = s ->
  integrity_scan e sample r opts c w = (Ok (st, c'), w') ->
  exists orphans st1 w0 w1 exist_issues data_issues,
    objects w0 = s /\ objects w' = s /\
    scan_snapshots e r (collect_chunk_refs opts) (manifest r) (mkScan no_counters orphans ∅) c w0 = (Ok (st1, c'), w1) /\
    issues st = issues st1 ++ exist_issues ++ data_issues /\ snapshot_chunk_refs st = snapshot_chunk_refs st1 /\
    snapshots_checked (counters st) = snapshots_checked (counters st1) /\
    Forall (orphan_issue s) orphans /\
    Forall (fun i => match i with MissingPack p => (exists id en, chunk_index r !! id = Some en /\ pack_id en = p) /\ s !! pack_storage_key p = None
      | PackExistenceCheckFailed p _ => True | _ => False end) exist_issues /\
    (forall id en, chunk_index r !! id = Some en -> s !! pack_storage_key (pack_id en) = None ->
       MissingPack (pack_id en) ∈ exist_issues \/ exists d, PackExistenceCheckFailed (pack_id en) d ∈ exist_issues) /\
    Forall (fun i => match i with CorruptPackContent p _ | PackExistenceCheckFailed p _ => exists id en, chunk_index r !! id = Some en /\ pack_id en = p
      | CorruptChunk id p _ => exists en, chunk_index r !! id = Some en /\ pack_id en = p | _ => False end) data_issues /\
    (if opt_verify_data opts then data_issues = [] -> chunks_data_verified (counters st) = size (chunk_index r) /\
        forall id en, chunk_index r !! id = Some en -> genuine s id en else data_issues = []).
Proof.
  intros Hwf Hskip Hsamp Hw. unfold integrity_scan. rewrite Hskip, Hsamp. cbn [from_option sampled_entries].
  intros Hrun. apply bind_run in Hrun as (orphans & w0 & Ho & Hrun). apply bind_run in Hrun as ([st1 c1] & w1 & Hsn & Hrun). cbn [fst snd] in Hrun.
  set (pcs := map_to_list (group_by_pack ∅ (chunk_index r))) in *.
  assert (Hin : forall p chunks kv, (p, chunks) ∈ pcs -> kv ∈ chunks -> chunk_index r !! kv.1 = Some kv.2 /\ pack_id kv.2 = p).
  { intros p chunks kv Hp%elem_of_map_to_list Hkv. destruct (proj1 (group_elem ∅ (chunk_index r) p kv)) as (? & ? & _); [by rewrite Hp|done]. }
  assert (Hall : forall id en, chunk_index r !! id = Some en -> exists chunks, (pack_id en, chunks) ∈ pcs /\ (id, en) ∈ chunks).
  { intros id en Hen. pose proof (proj2 (group_elem ∅ (chunk_index r) (pack_id en) (id, en))) as Hg.
    destruct (group_by_pack ∅ (chunk_index r) !! pack_id en) as [chunks|] eqn:E.
    - exists chunks. split; [by apply elem_of_map_to_list|]. apply Hg. split_and!; [done..|set_solver].
    - exfalso. eapply not_elem_of_nil, Hg. split_and!; [done..|set_solver]. }
  assert (Hne : forall p chunks, (p, chunks) ∈ pcs -> exists id en, chunk_index r !! id = Some en /\ pack_id en = p).
  { intros p chunks Hp. destruct chunks as [|[id en] chunks]; [|destruct (Hin p _ (id, en) Hp (list_elem_of_here _ _)); eauto].
    exfalso. apply elem_of_map_to_list in Hp. by apply group_nonempty in Hp. }
  assert (Hph : objects w0 = s /\ Forall (orphan_issue s) orphans).
  { destruct (detect_orphans opts).
    - destruct (answers_run s _ _ _ _ _ (phase0_spec s r) Hw Ho) as [? Hor]. split; [done|]. by apply Hor.
    - injection Ho as <- <-. split; [done|by apply Forall_nil]. }
  destruct Hph as [Hw0 Horph].
  apply bind_run in Hrun as (st2 & w2 & Hsp & Hrun). apply bind_run in Hrun as (st3 & w3 & Hsd & Hrun). injection Hrun as <- <- <-.
  assert (Hw1 : objects w1 = s) by (by eapply scan_snapshots_reads).
  assert (Hex : exists exist_issues, objects w2 = s /\ issues st2 = issues st1 ++ exist_issues /\ snapshot_chunk_refs st2 = snapshot_chunk_refs st1 /\
    snapshots_checked (counters st2) = snapshots_checked (counters st1) /\
    Forall (fun i => match i with MissingPack p => p ∈ pcs.*1 /\ s !! pack_storage_key p = None | PackExistenceCheckFailed p _ => p ∈ pcs.*1 | _ => False end) exist_issues /\
    (forall p, p ∈ pcs.*1 -> s !! pack_storage_key p = None -> MissingPack p ∈ exist_issues \/ exists d, PackExistenceCheckFailed p d ∈ exist_issues)).
  { unfold scan_packs in Hsp. destruct pcs as [|x pcs'] eqn:Hpcs.
    { injection Hsp as <- <-. exists []. rewrite app_nil_r. split_and!; [done..|by apply Forall_nil|by intros ? ?%not_elem_of_nil]. }
    rewrite <- Hpcs in *. apply bind_run in Hsp as ([n iss] & w' & Hpe & Hsp). injection Hsp as <- <-. exists iss.
    destruct (answers_run s _ _ _ _ _ (pack_existence_spec s pcs.*1) Hw1 Hpe) as [? Hx]. destruct (Hx _ eq_refl) as (? & ? & _). done. }
  destruct Hex as (exist_issues & Hw2 & Hi2 & Hr2 & Hn2 & Hf2 & Hm2).
  assert (Htyped : forall p chunks kv, (p, chunks) ∈ pcs -> kv ∈ chunks -> pack_id kv.2 = p /\ typed_entry kv).
  { intros p chunks kv Hp Hkv. destruct (Hin p chunks kv Hp Hkv) as [Hen Hpk]. split; [done|].
    destruct (Hwf _ _ Hen) as (_ & _ & [? _] & _ & [? _]). done. }
  assert (Hdata : exists data_issues, objects w3 = s /\ issues st3 = issues st2 ++ data_issues /\ snapshot_chunk_refs st3 = snapshot_chunk_refs st2 /\
    snapshots_checked (counters st3) = snapshots_checked (counters st2) /\
    Forall (fun i => exists p chunks, (p, chunks) ∈ pcs /\ concerns p chunks i) data_issues /\
    (if opt_verify_data opts then data_issues = [] -> chunks_data_verified (counters st3) = chunk_count pcs /\
      forall p chunks kv, (p, chunks) ∈ pcs -> kv ∈ chunks -> genuine s kv.1 kv.2 else data_issues = [])).
  { destruct (opt_verify_data opts).
    - apply bind_run in Hsd as ([n iss] & w' & Hpe & Hsd). injection Hsd as <- <-. exists iss.
      destruct (answers_run s _ _ _ _ _ (parallel_verify_data_spec s pcs Htyped) Hw2 Hpe) as [? Hx]. destruct (Hx _ eq_refl) as (? & ?). done.
    - injection Hsd as <- <-. exists []. rewrite app_nil_r. split_and!; (done || by apply Forall_nil). }
  destruct Hdata as (data_issues & Hw3 & Hi3 & Hr3 & Hn3 & Hf3 & Hd3).
  assert (Hfst : forall p, p ∈ pcs.*1 -> exists id en, chunk_index r !! id = Some en /\ pack_id en = p).
  { intros p ([p' chunks] & -> & Hp)%list_elem_of_fmap. by eapply Hne. }
  exists orphans, st1, w0, w1, exist_issues, data_issues. split_and!; try done.
  - by rewrite Hi3, Hi2, <- app_assoc.
  - by rewrite Hr3, Hr2.
  - by rewrite Hn3, Hn2.
  - eapply Forall_impl; [exact Hf2|]. intros []; try done. intros [? ?]. split; [by apply Hfst|done].
  - intros id en Hen Hn. apply Hm2; [|done]. destruct (Hall id en Hen) as (chunks & Hp & _). apply list_elem_of_fmap. by exists (pack_id en, chunks).
  - eapply Forall_impl; [exact Hf3|]. intros i (p & chunks & Hp & Hc). destruct i; try done; cbn in Hc.
    + subst. by eapply Hne.
    + destruct Hc as [-> ([id' en] & -> & Hid)%list_elem_of_fmap]. destruct (Hin _ _ _ Hp Hid). by exists en.
    + subst. by eapply Hne.
  - destruct (opt_verify_data opts); [|done]. intros E. destruct (Hd3 E) as [Hn Hg]. split; [rewrite Hn; apply group_count|].
    intros id en Hen. destruct (Hall id en Hen) as (chunks & Hp & Hkv). exact (Hg _ _ _ Hp Hkv).
Qed.

(** C19. A clean check means the snapshots can be restored.  If a scan of the
    whole repository with data verification ends without an issue, whatever
    storage faults it met on the way, then it has changed nothing, it has
    looked at every snapshot and at every chunk of the index, and for every
    snapshot of the manifest: listing its items succeeds on the store as it
    is, and every chunk of every file can be read back, with contents whose
    keyed hash is the name of the chunk. *)
Theorem clean_check_restores r opts s faults st c' w' :
  wf_index (chunk_index r) -> unnested (chunk_index r) -> NoDup (snap_name <$> manifest r) ->
  opt_verify_data opts = true -> skip_packs opts = None -> snapshot_sample_percent opts = None ->
  integrity_scan e sample r opts (cache_new BLOB_CACHE_MAX_BYTES) (mkWorld s faults) = (Ok (st, c'), w') -> issues st = [] ->
  objects w' = s /\ snapshots_checked (counters st) = length (manifest r) /\ chunks_data_verified (counters st) = size (chunk_index r) /\
  forall entry c, entry ∈ manifest r -> c = cache_new BLOB_CACHE_MAX_BYTES ->
    exists items c1, computes s (load_snapshot_items e r (snap_name entry) c) (items, c1) /\
      forall it id, it ∈ items -> id ∈ file_ids it ->
        exists data c2, computes s (read_chunk e (chunk_index r) id c) (data, c2) /\ chunk_id_compute (chunk_id_key e) data = id.
Proof.
  intros Hwf Hun Hnd Hv Hskip Hsamp Hrun Hclean.
  destruct (scan_stages s r opts _ (mkWorld s faults) _ _ _ Hwf Hskip Hsamp eq_refl Hrun) as
    (orphans & st1 & w0 & w1 & ei & di & Hw0 & Hw' & Hsn & Hi & _ & Hcount & _ & _ & _ & _ & Hdata).
  rewrite Hclean in Hi. symmetry in Hi. apply app_eq_nil in Hi as [Hi1 [_ Hdi]%app_eq_nil]. rewrite Hv in Hdata. destruct (Hdata Hdi) as [Hn Hg].
  destruct (genuine_placed s (chunk_index r) Hwf Hun Hg) as [Hpl Hid].
  assert (Hc : cache_sound (plain_of s (chunk_index r)) (cache_new BLOB_CACHE_MAX_BYTES)) by (by intros id d).
  pose proof (scan_snapshots_spec (plain_of s (chunk_index r)) s r (collect_chunk_refs opts) (manifest r) (mkScan no_counters orphans ∅) _
    (placed_reads _ _ _ Hpl) (fun en => find_snapshot_NoDup _ en Hnd) Hc) as Hspec.
  destruct (answers_run s _ _ _ _ _ Hspec Hw0 Hsn) as [_ Hx]. destruct (Hx _ eq_refl) as [(new & Hnew & _ & _ & Hall & Hlen) _]. cbn [fst] in *.
  rewrite Hi1 in Hnew. symmetry in Hnew. apply app_eq_nil in Hnew as [_ ->].
  split; [done|]. split; [rewrite Hcount; by apply Hlen|]. split; [done|]. intros entry c Hin ->.
  destruct (Hall entry Hin) as [(i & Hbad & _)|(ids & (d & m & items & Hd & Hm & Hit & -> & Hrefs) & _)]; [by apply not_elem_of_nil in Hbad|].
  exists items. destruct (load_stream_computes e _ s r (item_ptrs m) _ Hpl Hc) as (c1 & Hl & _); [intros id Hp; apply Hrefs, elem_of_app; by right|].
  exists c1. split.
  - eapply computes_bind; [eapply computes_bind; [|exact Hl]|].
    + unfold load_snapshot_meta. rewrite (find_snapshot_NoDup _ entry Hnd Hin). eapply computes_bind; [apply computes_reading|]. cbv beta. rewrite Hd. by apply computes_lift.
    + eapply computes_bind; [by apply computes_lift|]. apply computes_ret.
  - intros it id Hit' Hfid. assert (His : is_Some (chunk_index r !! id)).
    { apply Hrefs, elem_of_app. left. apply list_elem_of_In, in_concat. exists (file_ids it). split; apply list_elem_of_In; [|done]. apply list_elem_of_fmap. by exists it. }
    destruct His as [en Hen]. destruct (read_chunk_computes e _ s (chunk_index r) id en _ Hpl Hen Hc) as (c2 & Hr & _).
    exists (plain_of s (chunk_index r) id), c2. split; [done|]. apply Hid. by eexists.
Qed.
End CheckLaws.

(** ** Examples

    Two snapshots of one file, as in Snapshots.v, with chunks named by their
    hashes; the first snapshot's pack also holds a second, smaller file. *)

Definition cx_id (data : bytes) : ChunkId := chunk_id_compute (chunk_id_key sn_engine) data.
Definition cx_item : Item :=
  mkItem "f" RegularFile 420 0 0 None None 0 None None 2 [mkChunkRef (cx_id [7; 7]) 2 4] None None.
Definition cx_stream : bytes := encode_item cx_item.
Definition cx_blob (data : bytes) : bytes :=
  match compressed ← compress CNone data; pack_object_with_context sn_engine OChunkData (chunk_bytes (cx_id data)) compressed [] with
  | Ok blob => blob
  | Err _ => []
  end.
Definition cx_pack (n : Z) : PackId := mkPackId (id_of_byte n).
(** The contents of the file are in pack 1, the item streams in pack 2. *)
Definition cx_ix (refs : Z) : ChunkIndex :=
  <[cx_id [7; 7] := mkEntry refs 4 (cx_pack 1) 13]>
  {[cx_id cx_stream := mkEntry refs (blen (cx_blob cx_stream)) (cx_pack 2) 13]}.
Definition cx_meta (name : string) : SnapshotMeta :=
  mkMeta name "host" "user" 0 0 (mkChunker 1 2 3) "" [cx_id cx_stream] (mkStats 1 2 2 2 0) "" [] "".
Definition cx_object (n : Z) (name : string) : bytes :=
  match pack_object_with_context sn_engine OSnapshotMeta (snapshot_bytes (sn_id n)) (mp_encode (cx_meta name)) [] with
  | Ok d => d
  | Err _ => []
  end.
Definition cx_repo (refs : Z) : Repository := mkRepo [sn_entry 3 "a" 0; sn_entry 4 "b" 100] (cx_ix refs) 9 false 0.
Definition cx_index (refs : Z) : bytes :=
  match index_object sn_engine 9 (replicate 12 0) (cx_ix refs) with Ok d => d | Err _ => [] end.
Definition cx_store (refs : Z) : Store :=
  <["index" := cx_index refs]>
  (<[snapshot_storage_key (sn_id 3) := cx_object 3 "a"]>
  (<[snapshot_storage_key (sn_id 4) := cx_object 4 "b"]>
  (<[pack_storage_key (cx_pack 1) := pack_of [cx_blob [7; 7]]]>
  {[pack_storage_key (cx_pack 2) := pack_of [cx_blob cx_stream]]}))).
Definition cx_full : ScanOptions := mkOptions false true true None None.

Lemma cx_unnested refs : unnested (cx_ix refs).
Proof.
  intros id en id' en' Hen Hen'. unfold cx_ix in *. unfold not_nested, chunk_at, ck_pack, ck_end, ck_off, ck_size. cbn [fst snd].
  apply lookup_insert_Some in Hen as [[<- <-]|[_ [<- <-]%lookup_singleton_Some]];
    apply lookup_insert_Some in Hen' as [[<- <-]|[_ [<- <-]%lookup_singleton_Some]]; cbn [fst snd pack_id pack_offset stored_size]; try lia; intros E; discriminate E.
Qed.

Definition cx_sample (total keep : Z) : gset nat := ∅.

Lemma clean_check_restores_witness :
  exists st c' w', integrity_scan sn_engine cx_sample (cx_repo 2) cx_full (cache_new BLOB_CACHE_MAX_BYTES) (mkWorld (cx_store 2) []) = (Ok (st, c'), w') /\
    issues st = [] /\ snapshots_checked (counters st) = 2%nat /\
    exists items c1, computes (cx_store 2) (load_snapshot_items sn_engine (cx_repo 2) "b" (cache_new BLOB_CACHE_MAX_BYTES)) (items, c1).
Proof.
  destruct (integrity_scan sn_engine cx_sample (cx_repo 2) cx_full (cache_new BLOB_CACHE_MAX_BYTES) (mkWorld (cx_store 2) [])) as [[[st c']|er] w'] eqn:Hrun.
  2:{ exfalso. apply (f_equal (fun x => is_ok x.1)) in Hrun. vm_compute in Hrun. discriminate Hrun. }
  assert (Hclean : issues st = []).
  { apply (f_equal (fun x => match x.1 with Ok (st, _) => issues st | Err _ => [InvalidSnapshotKey ""] end)) in Hrun. vm_compute in Hrun. by symmetry. }
  exists st, c', w'. split; [done|]. split; [done|].
  assert (Hwf : wf_index (chunk_index (cx_repo 2))) by by_eval. assert (Hnd : NoDup (snap_name <$> manifest (cx_repo 2))) by by_eval.
  destruct (clean_check_restores sn_engine cx_sample (cx_repo 2) cx_full (cx_store 2) [] st c' w' Hwf (cx_unnested 2) Hnd eq_refl eq_refl eq_refl Hrun Hclean)
    as (_ & Hn & _ & Hall).
  split; [exact Hn|]. destruct (Hall (sn_entry 4 "b" 100) (cache_new BLOB_CACHE_MAX_BYTES)) as (items & c1 & Hc & _); [|reflexivity|exists items, c1; exact Hc].
  right. apply list_elem_of_here.
Defined.
