(* ===== verification/Repair.v ===== *)
(** * Repair (crates/vykar-core/src/commands/check.rs, [check --repair])

    From the issues of a scan a plan is made; applying it removes snapshots
    that cannot be restored and index entries without data, counts the
    references of what is left and saves the index. *)

From S2P Require Import Prelude Types Protocol Storage ChunkIndex Pack.
From S2P Require Import Crypto Format Compress DedupCache Retention Lock Repo ReadPath Snapshots SnapshotCache.
From S2P Require Import CheckServer Check.
#[local] Open Scope string_scope.
#[local] Open Scope list_scope.
#[local] Open Scope Z_scope.

Inductive RepairAction :=
  | RemoveCorruptSnapshot (id : SnapshotId) (name : option string)
  | RemoveInvalidSnapshotKey (key : string)
  | RemoveDanglingIndexEntries (p : PackId) (chunk_count : nat)
  | RemoveCorruptPack (p : PackId) (chunk_count : nat)
  | RemoveCorruptChunks (p : PackId) (ids : list ChunkId)
  | RemoveDanglingSnapshot (name : string) (missing_chunks : nat)
  | RebuildRefcounts.

Record RepairPlan := mkRepairPlan { plan_actions : list RepairAction; has_data_loss : bool }.
Inductive RepairMode := PlanOnly | Apply.
Record RepairResult := mkRepairResult {
  check_result : CheckResult;
  plan : RepairPlan;
  applied : list RepairAction;
  repair_errors : list string;
}.

(** ** The plan *)

(** The first loop: actions so far, the names they cover, data loss. *)
Definition plan_snapshots (st : list RepairAction * gset string * bool) (i : IntegrityIssue) : list RepairAction * gset string * bool :=
  let '(actions, names, loss) := st in
  match i with
  | CorruptSnapshot id name =>
      if existsb (fun a => match a with RemoveCorruptSnapshot id' _ => bool_decide (id' = id) | _ => false end) actions then st
      else (actions ++ [RemoveCorruptSnapshot id name], match name with Some n => {[n]} ∪ names | None => names end, true)
  | InvalidSnapshotKey key => (actions ++ [RemoveInvalidSnapshotKey key], names, true)
  | _ => st
  end.

Definition missing_packs_of (issues : list IntegrityIssue) : gset PackId :=
  foldl (fun s i => match i with MissingPack p => {[p]} ∪ s | _ => s end) ∅ issues.

(** The loop over corrupt packs and chunks. *)
Definition plan_corrupt (missing : gset PackId) (st : gset PackId * gmap PackId (list ChunkId)) (i : IntegrityIssue) :
    gset PackId * gmap PackId (list ChunkId) :=
  let '(packs, chunks) := st in
  match i with
  | CorruptPackContent p _ => ({[p]} ∪ packs, chunks)
  | CorruptChunk id p _ =>
      if bool_decide (p ∈ packs) || bool_decide (p ∈ missing) then st
      else (packs, <[p := default [] (chunks !! p) ++ [id]]> chunks)
  | _ => st
  end.

Definition pack_chunk_ids (pack_chunks : gmap PackId (list (ChunkId * ChunkIndexEntry))) (p : PackId) : list ChunkId :=
  (default [] (pack_chunks !! p)).*1.

Definition chunks_to_remove (pack_chunks : gmap PackId (list (ChunkId * ChunkIndexEntry))) (missing corrupt : gset PackId)
    (by_pack : gmap PackId (list ChunkId)) : gset ChunkId :=
  list_to_set (concat (pack_chunk_ids pack_chunks <$> elements missing) ++ concat (pack_chunk_ids pack_chunks <$> elements corrupt)
    ++ concat (map_to_list by_pack).*2).

(** Source A: the loop over issues that name a snapshot. *)
Definition doom_issue (m : gmap string nat) (i : IntegrityIssue) : gmap string nat :=
  match i with
  | DanglingItemPtr name _ | DanglingFileChunk name _ _ => <[name := S (default 0%nat (m !! name))]> m
  | UnreadableSnapshot name _ => match m !! name with Some _ => m | None => <[name := 1%nat]> m end
  | _ => m
  end.
(** Source B: the loop over the references. *)
Definition doom_refs (removed : gset ChunkId) (corrupt_names : gset string) (m : gmap string nat) (r : string * gset ChunkId) : gmap string nat :=
  if bool_decide (r.1 ∈ corrupt_names) then m
  else
    let newly_missing := size (r.2 ∩ removed) in
    if (0 <? newly_missing)%nat then <[r.1 := (default 0 (m !! r.1) + newly_missing)%nat]> m else m.

Definition build_repair_plan (issues : list IntegrityIssue) (pack_chunks : gmap PackId (list (ChunkId * ChunkIndexEntry)))
    (refs : gmap string (gset ChunkId)) : RepairPlan :=
  let '(actions, corrupt_names, loss) := foldl plan_snapshots ([], ∅, false) issues in
  let missing := missing_packs_of issues in
  let count p := length (default [] (pack_chunks !! p)) in
  let dangling := (fun p => RemoveDanglingIndexEntries p (count p)) <$> elements missing in
  let '(corrupt, by_pack) := foldl (plan_corrupt missing) (∅, ∅) issues in
  let packs := (fun p => RemoveCorruptPack p (count p)) <$> List.filter (fun p => negb (bool_decide (p ∈ missing))) (elements corrupt) in
  let chunks := (fun pc => RemoveCorruptChunks pc.1 pc.2) <$> map_to_list by_pack in
  let removed := chunks_to_remove pack_chunks missing corrupt by_pack in
  let doomed := foldl doom_issue ∅ issues in
  let doomed := if bool_decide (removed = ∅) then doomed else foldl (doom_refs removed corrupt_names) doomed (map_to_list refs) in
  let snapshots := (fun d => RemoveDanglingSnapshot d.1 d.2) <$>
    List.filter (fun d => negb (bool_decide (d.1 ∈ corrupt_names))) (map_to_list doomed) in
  let lossy := dangling ++ packs ++ chunks ++ snapshots in
  mkRepairPlan (actions ++ lossy ++ [RebuildRefcounts]) (loss || match lossy with [] => false | _ => true end).

(** ** The probe *)

(** [to_lowercase] on ASCII text, and [contains]. *)
Definition lower (a : ascii) : ascii :=
  let n := nat_of_ascii a in if ((65 <=? n) && (n <=? 90))%nat then ascii_of_nat (n + 32) else a.
Fixpoint to_lowercase (s : string) : string :=
  match s with EmptyString => EmptyString | String a s' => String (lower a) (to_lowercase s') end.
Fixpoint contains_str (s pat : string) : bool :=
  starts_with s pat || match s with EmptyString => false | String _ s' => contains_str s' pat end.

Section Repair.
Context `{Hhex : HexCodec} `{Hblake : Blake2b} (e : CryptoEngine) `{Hcodecs : Codecs} `{Hmp : IndexCodec}.
Context `{Hmeta : MsgPack SnapshotMeta} `{Hitems : ItemStream} `{Hcache : MsgPack SnapshotListCache}.
Context (draws : nat -> Z * bytes) (fence : M unit).

Definition refuses_deletes (msg : string) : bool :=
  let msg := to_lowercase msg in
  contains_str msg "permission" || contains_str msg "forbidden" || contains_str msg "403"
  || contains_str msg "read-only" || contains_str msg "append-only".

Definition probe_deletes_allowed : M bool :=
  r ← try_ (del "snapshots/.repair-probe");
  mret (match r with Ok _ => true | Err er => negb (refuses_deletes (display er)) end).

(** ** Carrying it out *)

Definition read_failure (issues : list IntegrityIssue) : bool :=
  existsb (fun i => match i with SnapshotReadFailed _ _ => true | _ => false end) issues.

(** What is kept while the plan is carried out. *)
Record Progress := mkProgress { pg_repo : Repository; pg_applied : list RepairAction; pg_errors : list string }.

(** Step 1. *)
Definition remove_corrupt (pg : Progress) (a : RepairAction) : M Progress :=
  match a with
  | RemoveCorruptSnapshot id name =>
      d ← try_ (del (snapshot_storage_key id));
      match d with
      | Ok _ =>
          let r := match name with Some n => set_manifest (remove_snapshot (manifest (pg_repo pg)) n).2 (pg_repo pg) | None => pg_repo pg end in
          mret (mkProgress r (pg_applied pg ++ [a]) (pg_errors pg))
      | Err _ => fail (Other "aborting repair: failed to remove corrupt snapshot")
      end
  | _ => mret pg
  end.

(** Step 2. *)
Definition remove_invalid (pg : Progress) (a : RepairAction) : M Progress :=
  match a with
  | RemoveInvalidSnapshotKey key =>
      d ← try_ (del key);
      match d with
      | Ok _ => mret (mkProgress (pg_repo pg) (pg_applied pg ++ [a]) (pg_errors pg))
      | Err er => mret (mkProgress (pg_repo pg) (pg_applied pg)
          (pg_errors pg ++ ["failed to remove invalid snapshot key " +:+ key +:+ ": " +:+ display er]))
      end
  | _ => mret pg
  end.

(** Steps 3 and 4, which change the index in memory. *)
Definition remove_dangling (pg : Progress) (a : RepairAction) : Progress :=
  match a with
  | RemoveDanglingIndexEntries p _ =>
      mkProgress (set_chunk_index (remove_by_pack p (chunk_index (pg_repo pg))).2 (pg_repo pg)) (pg_applied pg ++ [a]) (pg_errors pg)
  | _ => pg
  end.
Definition remove_content (pg : Progress) (a : RepairAction) : Progress :=
  match a with
  | RemoveCorruptPack p _ =>
      mkProgress (set_chunk_index (remove_by_pack p (chunk_index (pg_repo pg))).2 (pg_repo pg)) (pg_applied pg ++ [a]) (pg_errors pg)
  | RemoveCorruptChunks _ ids =>
      mkProgress (foldl (fun r id => set_chunk_index (remove id (chunk_index r)).2 r) (pg_repo pg) ids) (pg_applied pg ++ [a]) (pg_errors pg)
  | _ => pg
  end.

(** Step 5; the names whose objects were deleted. *)
Definition remove_doomed (x : Progress * gset string) (a : RepairAction) : M (Progress * gset string) :=
  let '(pg, gone) := x in
  match a with
  | RemoveDanglingSnapshot name _ =>
      match find_snapshot (manifest (pg_repo pg)) name with
      | None => mret x
      | Some entry =>
          d ← try_ (del (snapshot_storage_key (snap_id entry)));
          match d with
          | Ok _ => mret (mkProgress (set_manifest (remove_snapshot (manifest (pg_repo pg)) name).2 (pg_repo pg))
              (pg_applied pg ++ [a]) (pg_errors pg), {[name]} ∪ gone)
          | Err er => mret (mkProgress (pg_repo pg) (pg_applied pg)
              (pg_errors pg ++ ["failed to remove doomed snapshot '" +:+ name +:+ "': " +:+ display er]), gone)
          end
      end
  | _ => mret x
  end.

Fixpoint fold_m {A S} (f : S -> A -> M S) (st : S) (l : list A) : M S :=
  match l with
  | [] => mret st
  | a :: l' => st' ← f st a; fold_m f st' l'
  end.

(** Step 6: one reference; chunks that are not in the index do not count. *)
Definition count_reference (ix : ChunkIndex) (m : gmap ChunkId Z) (id : ChunkId) : gmap ChunkId Z :=
  if contains ix id then bump_by id 1 m else m.

Definition count_snapshot_refs (r : Repository) (x : gmap ChunkId Z * BlobCache) (entry : SnapshotEntry) : M (gmap ChunkId Z * BlobCache) :=
  let '(m, c) := x in
  o ← try_ (load_snapshot_meta e r (snap_name entry));
  match o with
  | Err _ => fail (Other "aborting repair: cannot load snapshot during refcount rebuild")
  | Ok meta =>
      let m := foldl (count_reference (chunk_index r)) m (item_ptrs meta) in
      o ← try_ (load_snapshot_item_stream e r (snap_name entry) c);
      match o with
      | Err _ => fail (Other "aborting repair: cannot load item stream during refcount rebuild")
      | Ok (stream, c) =>
          match for_each_decoded_item (fun item m => (Ok tt, foldl (count_reference (chunk_index r)) m (file_ids item))) stream m with
          | (Ok _, m) => mret (m, c)
          | (Err _, _) => fail (Other "aborting repair: failed to decode items during refcount rebuild")
          end
      end
  end.

Definition execute_repair (r : Repository) (c : BlobCache) (p : RepairPlan) (issues : list IntegrityIssue) :
    M (Repository * list RepairAction * list string) :=
  if read_failure issues then fail (Other "aborting repair: snapshot had a transient read failure during scan")
  else
    pg ← fold_m remove_corrupt (mkProgress r [] []) (plan_actions p);
    pg ← fold_m remove_invalid pg (plan_actions p);
    let pg := foldl remove_dangling pg (plan_actions p) in
    let pg := foldl remove_content pg (plan_actions p) in
    x ← fold_m remove_doomed (pg, ∅) (plan_actions p);
    let '(pg, gone) := x in
    let surviving := List.filter (fun en => negb (bool_decide (snap_name en ∈ (gone : gset string)))) (manifest (pg_repo pg)) in
    y ← fold_m (count_snapshot_refs (pg_repo pg)) (∅, c) surviving;
    let r := set_chunk_index (rebuild_refcounts y.1 (chunk_index (pg_repo pg))) (pg_repo pg) in
    r ← save_state e draws fence r;
    mret (r, pg_applied pg ++ [RebuildRefcounts], pg_errors pg).

(** ** [run_with_repair] once the repository is open *)

Definition repair_options (verify_data : bool) : ScanOptions := mkOptions true true verify_data None None.
Context (sample : Z -> Z -> gset nat).

Definition result_of_scan (scan : ScanResult) : CheckResult :=
  let n := counters scan in
  mkCheckResult (snapshots_checked n) (items_checked n) (chunks_existence_checked n) (packs_existence_checked n)
    (chunks_data_verified n) (to_check_error <$> issues scan) false.

(** [refresh_snapshot_list] with the cache file. *)
Definition refresh_manifest (r : Repository) (file : option bytes) (written : bool) (nonce : bytes) : M (Repository * option bytes) :=
  x ← refresh_snapshot_cache e file true written nonce;
  mret (set_manifest x.1 r, x.2).

(** From the scan on. *)
Definition scan_and_repair (mode : RepairMode) (verify_data : bool) (r : Repository) (c : BlobCache) : M (RepairResult * Repository) :=
  p ← integrity_scan e sample r (repair_options verify_data) c;
  let '(scan, c) := p in
  let pack_chunks := group_by_pack ∅ (chunk_index r) in
  let plan := build_repair_plan (issues scan) pack_chunks (snapshot_chunk_refs scan) in
  match mode with
  | PlanOnly => mret (mkRepairResult (result_of_scan scan) plan [] [], r)
  | Apply =>
      allowed ← (if has_data_loss plan then probe_deletes_allowed else mret true);
      if negb allowed then fail (Other "repair requires deleting immutable snapshot objects; not supported on append-only backends")
      else
        y ← execute_repair r c plan (issues scan);
        let '(r, applied, errors) := y in
        mret (mkRepairResult (result_of_scan scan) plan applied errors, r)
  end.

Definition run_with_repair (mode : RepairMode) (verify_data : bool) (r : Repository) (c : BlobCache)
    (file : option bytes) (written : bool) (nonce : bytes) : M (RepairResult * Repository) :=
  r ← load_chunk_index_uncached e r;
  x ← refresh_manifest r file written nonce;
  scan_and_repair mode verify_data x.1 c.
End Repair.

(** ** What a plan contains *)

Section PlanLaws.
Context (issues : list IntegrityIssue) (pack_chunks : gmap PackId (list (ChunkId * ChunkIndexEntry))) (refs : gmap string (gset ChunkId)).

Lemma plan_snapshots_spec is0 :
  let '(actions, names, loss) := foldl plan_snapshots ([], ∅, false) is0 in
  (forall id name, CorruptSnapshot id name ∈ is0 -> exists name', RemoveCorruptSnapshot id name' ∈ actions) /\
  Forall (fun a => match a with RemoveCorruptSnapshot id name => CorruptSnapshot id name ∈ is0
    | RemoveInvalidSnapshotKey key => InvalidSnapshotKey key ∈ is0 | _ => False end) actions /\
  (forall n, n ∈ names <-> exists id, RemoveCorruptSnapshot id (Some n) ∈ actions).
Proof.
  induction is0 as [|i is0 IH] using rev_ind; [cbn; split_and!; [by intros ? ? ?%not_elem_of_nil|by apply Forall_nil|set_solver]|].
  rewrite foldl_app. cbn [foldl]. destruct (foldl plan_snapshots _ is0) as [[actions names] loss]. destruct IH as (H1 & H2 & H3).
  assert (Hup : Forall (fun a => match a with RemoveCorruptSnapshot id name => CorruptSnapshot id name ∈ is0 ++ [i]
    | RemoveInvalidSnapshotKey key => InvalidSnapshotKey key ∈ is0 ++ [i] | _ => False end) actions).
  { eapply Forall_impl; [exact H2|]. intros []; try done; set_solver. }
  assert (Hsame : (forall id name, i <> CorruptSnapshot id name) ->
    forall id name, CorruptSnapshot id name ∈ is0 ++ [i] -> exists name', RemoveCorruptSnapshot id name' ∈ actions).
  { intros Hi id name [Hin|Hin%list_elem_of_singleton]%elem_of_app; [by eapply H1|]. by destruct (Hi id name). }
  destruct i as [id name|key| | | | | | | |]; cbn [plan_snapshots]; try (split_and!; [by apply Hsame|done|done]).
  - destruct (existsb _ actions) eqn:Hex.
    + apply existsb_exists in Hex as (a & Ha%list_elem_of_In & Hid). destruct a as [id' name'| | | | | |]; try done. apply bool_decide_eq_true in Hid as ->.
      split_and!; [|done|done]. intros id' name0 [Hin|[= -> ->]%list_elem_of_singleton]%elem_of_app; [by eapply H1|by exists name'].
    + split_and!.
      * intros id' name0 [Hin|[= -> ->]%list_elem_of_singleton]%elem_of_app; [destruct (H1 _ _ Hin) as [n ?]; exists n|exists name]; set_solver.
      * apply Forall_app. split; [done|]. apply Forall_singleton. set_solver.
      * intros n. destruct name as [m|]; [rewrite elem_of_union, elem_of_singleton|]; rewrite H3.
        -- split; [intros [->|[x ?]]; [exists id|exists x]; set_solver|]. intros [x Hx]. apply elem_of_app in Hx as [Hx|Hx%list_elem_of_singleton]; [right; eauto|left; congruence].
        -- split; [intros [x ?]; exists x; set_solver|]. intros [x Hx]. apply elem_of_app in Hx as [Hx|Hx%list_elem_of_singleton]; [eauto|congruence].
  - split_and!.
    + intros id name [Hin|[=]%list_elem_of_singleton]%elem_of_app. destruct (H1 _ _ Hin) as [n ?]. exists n. set_solver.
    + apply Forall_app. split; [done|]. apply Forall_singleton. set_solver.
    + intros n. rewrite H3. split; intros [x Hx]; exists x; [set_solver|]. apply elem_of_app in Hx as [|[=]%list_elem_of_singleton]; done.
Qed.

Lemma missing_packs_spec p : p ∈ missing_packs_of issues <-> MissingPack p ∈ issues.
Proof.
  unfold missing_packs_of. induction issues as [|i is0 IH] using rev_ind; [set_solver|]. rewrite foldl_app. cbn [foldl].
  rewrite elem_of_app, list_elem_of_singleton. destruct i; try (rewrite IH; split; [tauto|intros [|[=]]; done]).
  rewrite elem_of_union, elem_of_singleton, IH. split; [intros [->|]; auto|intros [|[= ->]]; auto].
Qed.

Lemma doom_issues_spec is0 : forall m name,
  is_Some (m !! name) \/ Exists (fun i => match i with DanglingItemPtr n _ | DanglingFileChunk n _ _ | UnreadableSnapshot n _ => n = name | _ => False end) is0 ->
  is_Some (foldl doom_issue m is0 !! name).
Proof.
  induction is0 as [|i is0 IH]; intros m name Hin; cbn [foldl]; [destruct Hin as [|Hin]; [done|by apply Exists_nil in Hin]|].
  apply IH. rewrite Exists_cons in Hin.
  assert (Hkeep : is_Some (m !! name) -> is_Some (doom_issue m i !! name)).
  { intros Hm. destruct i; cbn [doom_issue]; try done; try (apply lookup_insert_is_Some'; by right).
    destruct (m !! name0); [done|]. apply lookup_insert_is_Some'. by right. }
  destruct Hin as [Hm|[Hi|]]; [by left; apply Hkeep| |by right]. left.
  destruct i; try done; subst; cbn [doom_issue]; try (apply lookup_insert_is_Some'; by left).
  destruct (m !! name) eqn:E; [by rewrite E|]. apply lookup_insert_is_Some'. by left.
Qed.

Lemma doom_refs_spec removed names l : forall m name,
  is_Some (m !! name) \/ ((name ∉ names) /\ exists R id, ((name, R) ∈ l) /\ id ∈ R /\ id ∈ removed) ->
  is_Some (foldl (doom_refs removed names) m l !! name).
Proof.
  induction l as [|[n R] l IH]; intros m name Hin; cbn [foldl]; [destruct Hin as [|(_ & R & id & ?%not_elem_of_nil & _)]; done|].
  apply IH. assert (Hkeep : is_Some (m !! name) -> is_Some (doom_refs removed names m (n, R) !! name)).
  { intros Hm. unfold doom_refs. destruct (bool_decide _); [done|]. cbv zeta. destruct (_ <? _)%nat; [|done]. apply lookup_insert_is_Some'. by right. }
  destruct Hin as [Hm|(Hn & R' & id & [[= <- <-]|Hl]%elem_of_cons & H1 & H2)]; [by left; apply Hkeep| |right; eauto 10].
  left. unfold doom_refs. cbn [fst snd]. rewrite bool_decide_false by done. cbv zeta.
  destruct (Nat.ltb_spec 0 (size (R' ∩ removed))) as [_|Hz]; [apply lookup_insert_is_Some'; by left|].
  exfalso. assert (He : size (R' ∩ removed) = 0%nat) by lia. apply size_empty_inv in He. set_solver.
Qed.

Definition names_doom (name : string) (i : IntegrityIssue) : Prop :=
  match i with DanglingItemPtr n _ | DanglingFileChunk n _ _ | UnreadableSnapshot n _ => n = name | _ => False end.

(** The chunks an action takes out of the index are among [removed]. *)
Definition removes_within (removed : gset ChunkId) (a : RepairAction) : Prop :=
  match a with
  | RemoveDanglingIndexEntries p _ | RemoveCorruptPack p _ => forall kv, kv ∈ default [] (pack_chunks !! p) -> kv.1 ∈ removed
  | RemoveCorruptChunks _ ids => forall id, id ∈ ids -> id ∈ removed
  | _ => True
  end.

Record plan_ok (actions : list RepairAction) : Prop := {
  pl_corrupt : forall id name, RemoveCorruptSnapshot id name ∈ actions -> CorruptSnapshot id name ∈ issues;
  pl_invalid : forall key, RemoveInvalidSnapshotKey key ∈ actions -> InvalidSnapshotKey key ∈ issues;
  pl_all_corrupt : forall id name, CorruptSnapshot id name ∈ issues -> exists n, RemoveCorruptSnapshot id n ∈ actions;
  pl_missing : forall p, MissingPack p ∈ issues -> exists n, RemoveDanglingIndexEntries p n ∈ actions;
  pl_removed : exists removed, (forall a, a ∈ actions -> removes_within removed a) /\
    forall name, (Exists (names_doom name) issues \/ exists R id, refs !! name = Some R /\ id ∈ R /\ id ∈ removed) ->
      (exists n, RemoveDanglingSnapshot name n ∈ actions) \/ exists id, RemoveCorruptSnapshot id (Some name) ∈ actions;
}.

Lemma elem_fmap {A B} (f : A -> B) x (l : list A) : x ∈ l -> f x ∈ f <$> l.
Proof. intros. apply list_elem_of_fmap. by exists x. Qed.

Lemma concat_elem {A} (x : A) (l : list A) ls : x ∈ l -> l ∈ ls -> x ∈ concat ls.
Proof. intros H1 H2. apply list_elem_of_In, in_concat. exists l. split; by apply list_elem_of_In. Qed.

Lemma build_plan_ok : plan_ok (plan_actions (build_repair_plan issues pack_chunks refs)).
Proof.
  unfold build_repair_plan. pose proof (plan_snapshots_spec issues) as Hs.
  destruct (foldl plan_snapshots _ issues) as [[actions names] loss]. destruct Hs as (H1 & H2 & H3). rewrite Forall_forall in H2.
  destruct (foldl (plan_corrupt _) _ issues) as [corrupt by_pack]. cbv zeta. cbn [plan_actions].
  set (missing := missing_packs_of issues). set (dangling := _ <$> elements missing).
  set (packs := _ <$> List.filter _ (elements corrupt)). set (chunks := _ <$> map_to_list by_pack).
  set (removed := chunks_to_remove pack_chunks missing corrupt by_pack). set (doomed := if bool_decide (removed = ∅) then _ else _).
  set (snapshots := _ <$> List.filter _ (map_to_list doomed)).
  assert (Hother : forall a, a ∈ (dangling ++ packs ++ chunks ++ snapshots) ++ [RebuildRefcounts] ->
    match a with RemoveCorruptSnapshot _ _ | RemoveInvalidSnapshotKey _ => False | _ => True end).
  { intros a. rewrite !elem_of_app, list_elem_of_singleton. unfold dangling, packs, chunks, snapshots. rewrite !list_elem_of_fmap. naive_solver. }
  constructor.
  - intros id name [Ha|Ha]%elem_of_app; [by apply H2 in Ha|by apply Hother in Ha].
  - intros key [Ha|Ha]%elem_of_app; [by apply H2 in Ha|by apply Hother in Ha].
  - intros id name Hi. destruct (H1 id name Hi) as [n Hn]. exists n. apply elem_of_app. by left.
  - intros p Hp%missing_packs_spec. exists (length (default [] (pack_chunks !! p))). apply elem_of_app. right. apply elem_of_app. left. apply elem_of_app. left.
    apply (elem_fmap (fun p => RemoveDanglingIndexEntries p (length (default [] (pack_chunks !! p)))) p). by apply elem_of_elements.
  - exists removed. assert (Hrm : forall p kv, p ∈ missing \/ p ∈ corrupt -> kv ∈ default [] (pack_chunks !! p) -> kv.1 ∈ removed).
    { intros p kv Hp Hkv. apply elem_of_list_to_set. rewrite !elem_of_app. destruct Hp as [Hp|Hp]; [left|right; left];
        (apply (concat_elem kv.1 (pack_chunk_ids pack_chunks p)); [by apply elem_fmap|]; apply elem_fmap; by apply elem_of_elements). }
    split.
    + intros a Ha. apply elem_of_app in Ha as [Ha|Ha]; [apply H2 in Ha; by destruct a|].
      rewrite !elem_of_app, list_elem_of_singleton in Ha. destruct Ha as [[Ha|[Ha|[Ha|Ha]]]| ->]; [..|done].
      * apply list_elem_of_fmap in Ha as (p & -> & Hp%elem_of_elements). intros kv. apply Hrm. by left.
      * apply list_elem_of_fmap in Ha as (p & -> & Hp). apply list_elem_of_In, List.filter_In in Hp as [Hp%list_elem_of_In%elem_of_elements _].
        intros kv. apply Hrm. by right.
      * apply list_elem_of_fmap in Ha as ([p ids] & -> & Hp). intros id Hid. apply elem_of_list_to_set. rewrite !elem_of_app. right; right.
        apply (concat_elem id ids); [done|]. apply list_elem_of_fmap. by exists (p, ids).
      * apply list_elem_of_fmap in Ha as (d & -> & _). done.
    + intros name Hn. destruct (decide (name ∈ names)) as [Hin|Hnot].
      { right. apply H3 in Hin as [id Hid]. exists id. apply elem_of_app. by left. }
      left. assert (Hd : is_Some (doomed !! name)).
      { destruct Hn as [Hn|(R & id & HR & H4 & H5)].
        - assert (Hd0 : is_Some (foldl doom_issue ∅ issues !! name)) by (apply doom_issues_spec; right; exact Hn).
          unfold doomed. destruct (bool_decide _); [done|]. apply doom_refs_spec. by left.
        - unfold doomed. rewrite bool_decide_false by set_solver. apply doom_refs_spec. right. split; [done|]. exists R, id.
          split; [by apply elem_of_map_to_list|done]. }
      destruct Hd as [n Hd]. exists n. apply elem_of_app. right. apply elem_of_app. left. rewrite !elem_of_app. right; right; right.
      apply (elem_fmap (fun d => RemoveDanglingSnapshot d.1 d.2) (name, n)). apply list_elem_of_In, List.filter_In. split.
      * by apply list_elem_of_In, elem_of_map_to_list.
      * cbn [fst]. by rewrite bool_decide_false.
Qed.

(** Why a chunk is taken out of the index. *)
Definition lost_chunk (id : ChunkId) : Prop :=
  (exists p kv, kv ∈ default [] (pack_chunks !! p) /\ kv.1 = id /\ (MissingPack p ∈ issues \/ exists d, CorruptPackContent p d ∈ issues)) \/
  exists p d, CorruptChunk id p d ∈ issues.

Lemma plan_corrupt_sound missing is0 :
  let '(packs, chunks) := foldl (plan_corrupt missing) (∅, ∅) is0 in
  (forall p, p ∈ packs -> exists d, CorruptPackContent p d ∈ is0) /\
  forall p ids id, chunks !! p = Some ids -> id ∈ ids -> exists d, CorruptChunk id p d ∈ is0.
Proof.
  induction is0 as [|i is0 IH] using rev_ind; [cbn; split; [set_solver|by intros ? ? ? ?%lookup_empty_Some]|].
  rewrite foldl_app. cbn [foldl]. destruct (foldl (plan_corrupt missing) _ is0) as [packs chunks]. destruct IH as [H1 H2].
  assert (Hw1 : forall p, p ∈ packs -> exists d, CorruptPackContent p d ∈ is0 ++ [i]) by (intros p [d ?]%H1; exists d; set_solver).
  assert (Hw2 : forall p ids id, chunks !! p = Some ids -> id ∈ ids -> exists d, CorruptChunk id p d ∈ is0 ++ [i])
    by (intros p ids id Hp [d ?]%(H2 p ids id Hp); exists d; set_solver).
  destruct i as [| | | | |q d|x q d| | |]; cbn [plan_corrupt]; try done.
  - split; [|done]. intros p [->%elem_of_singleton|Hp]%elem_of_union; [exists d; set_solver|by apply Hw1].
  - destruct (_ || _); [done|]. split; [done|]. intros p ids id [[<- <-]|[Hne Hp]]%lookup_insert_Some Hid; [|by eapply Hw2].
    apply elem_of_app in Hid as [Hid| ->%list_elem_of_singleton]; [|exists d; set_solver].
    destruct (chunks !! q) as [l|] eqn:E; [by eapply Hw2|by apply not_elem_of_nil in Hid].
Qed.

Lemma doom_issues_sound is0 : forall m name, is_Some (foldl doom_issue m is0 !! name) -> is_Some (m !! name) \/ Exists (names_doom name) is0.
Proof.
  induction is0 as [|i is0 IH]; intros m name Hs; cbn [foldl] in Hs; [by left|]. rewrite Exists_cons. apply IH in Hs as [Hs|]; [|tauto].
  destruct i; cbn [doom_issue names_doom] in *; try tauto; try (apply lookup_insert_is_Some' in Hs; tauto).
  destruct (m !! name0); [tauto|]. apply lookup_insert_is_Some' in Hs. tauto.
Qed.

Lemma doom_refs_sound removed names l : forall m name, is_Some (foldl (doom_refs removed names) m l !! name) ->
  is_Some (m !! name) \/ exists R id, ((name, R) ∈ l) /\ id ∈ R /\ id ∈ removed.
Proof.
  induction l as [|[n R] l IH]; intros m name Hs; cbn [foldl] in Hs; [by left|]. apply IH in Hs as [Hs|(R' & id & Hin & ? & ?)]; [|right; exists R', id; set_solver].
  unfold doom_refs in Hs. cbn [fst snd] in Hs. destruct (bool_decide _); [by left|]. cbv zeta in Hs.
  destruct (Nat.ltb_spec 0 (size (R ∩ removed))) as [Hlt|_]; [|by left]. apply lookup_insert_is_Some' in Hs as [->|Hs]; [|by left]. right.
  destruct (set_choose_L (R ∩ removed)) as [id Hid]; [|exists R, id; set_solver]. intros E. rewrite E, size_empty in Hlt. lia.
Qed.

(** Every action has its reason among the issues. *)
Definition has_reason (a : RepairAction) : Prop :=
  match a with
  | RemoveCorruptSnapshot id name => CorruptSnapshot id name ∈ issues
  | RemoveInvalidSnapshotKey key => InvalidSnapshotKey key ∈ issues
  | RemoveDanglingSnapshot name _ => Exists (names_doom name) issues \/ exists R id, refs !! name = Some R /\ id ∈ R /\ lost_chunk id
  | _ => True
  end.

Lemma build_plan_sound a : a ∈ plan_actions (build_repair_plan issues pack_chunks refs) -> has_reason a.
Proof.
  unfold build_repair_plan. pose proof (plan_snapshots_spec issues) as Hs.
  destruct (foldl plan_snapshots _ issues) as [[actions names] loss]. destruct Hs as (_ & H2 & _). rewrite Forall_forall in H2.
  pose proof (plan_corrupt_sound (missing_packs_of issues) issues) as Hc.
  destruct (foldl (plan_corrupt _) _ issues) as [corrupt by_pack]. destruct Hc as [Hc1 Hc2]. cbv zeta. cbn [plan_actions].
  rewrite !elem_of_app, list_elem_of_singleton, !list_elem_of_fmap.
  intros [Ha|[[(p & -> & _)|[(p & -> & _)|[(p & -> & _)|([name n] & -> & Hin)]]]| ->]]; try done; [apply H2 in Ha; by destruct a|].
  apply list_elem_of_In, List.filter_In in Hin as [Hin%list_elem_of_In%elem_of_map_to_list _]. cbn [fst snd has_reason].
  destruct (bool_decide _); [destruct (doom_issues_sound issues ∅ name ltac:(by eexists)) as [[? [=]]|]; by left|].
  destruct (doom_refs_sound _ _ _ _ _ (mk_is_Some _ _ Hin)) as [Hd|(R & id & HR%elem_of_map_to_list & Hid & Hrm)].
  { left. by destruct (doom_issues_sound issues ∅ name Hd) as [[? [=]]|]. }
  right. exists R, id. split; [done|]. split; [done|]. unfold chunks_to_remove in Hrm. apply elem_of_list_to_set in Hrm.
  assert (Hpack : forall l : list PackId, (forall p, p ∈ l -> MissingPack p ∈ issues \/ exists d, CorruptPackContent p d ∈ issues) ->
    id ∈ concat (pack_chunk_ids pack_chunks <$> l) -> lost_chunk id).
  { intros l Hl Hin'. apply list_elem_of_In, in_concat in Hin' as (x & (p & -> & Hp)%list_elem_of_In%list_elem_of_fmap & Hx%list_elem_of_In).
    left. apply list_elem_of_fmap in Hx as (kv & -> & Hkv). exists p, kv. eauto. }
  rewrite !elem_of_app in Hrm. destruct Hrm as [Hrm|[Hrm|Hrm]].
  - apply (Hpack (elements (missing_packs_of issues))); [|done]. intros p Hp%elem_of_elements%missing_packs_spec. by left.
  - apply (Hpack (elements corrupt)); [|done]. intros p Hp%elem_of_elements%Hc1. by right.
  - apply list_elem_of_In, in_concat in Hrm as (ids & ([p ids'] & -> & Hp%elem_of_map_to_list)%list_elem_of_In%list_elem_of_fmap & Hx%list_elem_of_In).
    right. exists p. by eapply Hc2.
Qed.
End PlanLaws.

(** ** What the steps do *)

(** The index in memory has lost entries, all of them of chunks [removed]. *)
Definition shrinks (removed : gset ChunkId) (pg pg' : Progress) : Prop :=
  manifest (pg_repo pg') = manifest (pg_repo pg) /\ pg_errors pg' = pg_errors pg /\
  chunk_index (pg_repo pg') ⊆ chunk_index (pg_repo pg) /\
  forall id, id ∉ removed -> chunk_index (pg_repo pg') !! id = chunk_index (pg_repo pg) !! id.

Lemma shrinks_refl removed pg : shrinks removed pg pg.
Proof. done. Qed.
Lemma shrinks_trans removed pg1 pg2 pg3 : shrinks removed pg1 pg2 -> shrinks removed pg2 pg3 -> shrinks removed pg1 pg3.
Proof.
  intros (H1 & H2 & H3 & H4) (H5 & H6 & H7 & H8). split_and!; [congruence|congruence|by transitivity (chunk_index (pg_repo pg2))|].
  intros id Hid. rewrite H8, H4 by done. done.
Qed.

Section StepLaws.
Context (ix0 : ChunkIndex) (removed : gset ChunkId).
#[local] Abbreviation within := (removes_within (group_by_pack ∅ ix0) removed).

Lemma remove_pack_shrinks p pg pg' : chunk_index (pg_repo pg) ⊆ ix0 ->
  (forall kv, kv ∈ default [] (group_by_pack ∅ ix0 !! p) -> kv.1 ∈ removed) ->
  manifest (pg_repo pg') = manifest (pg_repo pg) -> pg_errors pg' = pg_errors pg ->
  chunk_index (pg_repo pg') = (remove_by_pack p (chunk_index (pg_repo pg))).2 -> shrinks removed pg pg'.
Proof.
  intros Hsub Hw Hm He Hix. split; [done|]. split; [done|]. rewrite Hix. unfold remove_by_pack. cbn [snd]. split; [apply map_filter_subseteq|].
  intros id Hid. destruct (chunk_index (pg_repo pg) !! id) as [en|] eqn:E; [|apply map_lookup_filter_None; by left].
  apply map_lookup_filter_Some. split; [done|]. cbn [snd]. intros Hp. apply Hid. apply (Hw (id, en)). apply group_elem.
  split; [by eapply lookup_weaken|]. split; [done|set_solver].
Qed.

Lemma remove_dangling_shrinks pg a : chunk_index (pg_repo pg) ⊆ ix0 -> within a -> shrinks removed pg (remove_dangling pg a).
Proof. intros Hsub Hw. destruct a; try apply shrinks_refl. by apply (remove_pack_shrinks p). Qed.

Lemma remove_content_shrinks pg a : chunk_index (pg_repo pg) ⊆ ix0 -> within a -> shrinks removed pg (remove_content pg a).
Proof.
  intros Hsub Hw. destruct a; try apply shrinks_refl; [by apply (remove_pack_shrinks p)|]. cbn [remove_content removes_within] in *.
  assert (Hfold : forall r, manifest (foldl (fun r id => set_chunk_index (remove id (chunk_index r)).2 r) r ids) = manifest r /\
    chunk_index (foldl (fun r id => set_chunk_index (remove id (chunk_index r)).2 r) r ids) ⊆ chunk_index r /\
    forall id, id ∉ removed -> chunk_index (foldl (fun r id => set_chunk_index (remove id (chunk_index r)).2 r) r ids) !! id = chunk_index r !! id).
  { induction ids as [|x ids IH]; intros r; [done|]. cbn [foldl]. destruct (IH ltac:(intros id Hid; apply Hw; by right) (set_chunk_index (remove x (chunk_index r)).2 r)) as (H1 & H2 & H3).
    cbn [set_chunk_index manifest chunk_index remove snd] in H1, H2, H3. split; [done|]. split; [etransitivity; [exact H2|apply delete_subseteq]|].
    intros id Hid. rewrite H3 by done. apply lookup_delete_ne. intros ->. apply Hid, Hw, list_elem_of_here. }
  destruct (Hfold (pg_repo pg)) as (H1 & H2 & H3). split_and!; done.
Qed.

Lemma fold_shrinks (f : Progress -> RepairAction -> Progress) actions : forall pg,
  (forall pg a, chunk_index (pg_repo pg) ⊆ ix0 -> within a -> shrinks removed pg (f pg a)) ->
  chunk_index (pg_repo pg) ⊆ ix0 -> (forall a, a ∈ actions -> within a) -> shrinks removed pg (foldl f pg actions).
Proof.
  induction actions as [|a actions IH]; intros pg Hf Hsub Hw; [apply shrinks_refl|]. cbn [foldl].
  pose proof (Hf pg a Hsub (Hw a (list_elem_of_here _ _))) as H1. eapply shrinks_trans; [exact H1|]. apply IH; [done| |intros; apply Hw; by right].
  etransitivity; [apply H1|exact Hsub].
Qed.

(** A pack whose entries are to go has none left. *)
Lemma dangling_gone p n actions : forall pg, RemoveDanglingIndexEntries p n ∈ actions ->
  forall id en, chunk_index (pg_repo (foldl remove_dangling pg actions)) !! id = Some en -> pack_id en <> p.
Proof.
  assert (Hsub : forall actions pg, chunk_index (pg_repo (foldl remove_dangling pg actions)) ⊆ chunk_index (pg_repo pg)).
  { clear. induction actions as [|a actions IH]; intros pg; [done|]. cbn [foldl]. etransitivity; [apply IH|]. destruct a; try done. apply map_filter_subseteq. }
  induction actions as [|a actions IH]; intros pg Ha id en Hen; [by apply not_elem_of_nil in Ha|]. cbn [foldl] in Hen.
  apply elem_of_cons in Ha as [<-|Ha]; [|by eapply IH]. pose proof (lookup_weaken _ _ _ _ Hen (Hsub _ _)) as Hx.
  cbn [remove_dangling pg_repo set_chunk_index chunk_index] in Hx. unfold remove_by_pack in Hx. by apply map_lookup_filter_Some in Hx as [_ ?].
Qed.
End StepLaws.

(** ** Deletions *)

(** The rule of [fold_m]: an invariant of what was worked off. *)
Lemma fold_m_triple {A S} (I : list A -> S -> Store -> Prop) (E : Store -> Prop) (f : S -> A -> M S) l :
  (forall pre a st, a ∈ l -> triple (I pre st) (f st a) (I (pre ++ [a])) E) ->
  forall pre st, triple (I pre st) (fold_m f st l) (I (pre ++ l)) E.
Proof.
  induction l as [|a l IH]; intros Hf pre st; cbn [fold_m]; [rewrite app_nil_r; by apply triple_ret|].
  eapply triple_bind; [apply Hf, list_elem_of_here|]. intros st'. replace (pre ++ a :: l) with ((pre ++ [a]) ++ l) by (by rewrite <- app_assoc).
  apply IH. intros. apply Hf. by right.
Qed.

Lemma triple_try_del (P : Store -> Prop) key (Q : res unit -> Store -> Prop) E :
  (forall st, P st -> Q (Ok tt) (delete key st) /\ forall er, Q (Err er) st /\ Q (Err er) (delete key st)) ->
  triple P (try_ (del key)) Q E.
Proof.
  intros HP w Hw. unfold try_, del, writing, next_fault. destruct (HP _ Hw) as [H1 H2]. destruct (faults w) as [|[] fs]; cbn; try done; apply H2.
Qed.

(** Objects have gone, all of keys in [J]; nothing else has changed. *)
Definition shrunk (J : string -> Prop) (s st : Store) : Prop := forall k, st !! k = s !! k \/ (J k /\ st !! k = None).

Lemma shrunk_refl J s : shrunk J s s.
Proof. intros k. by left. Qed.
Lemma shrunk_delete (J : string -> Prop) s st k : J k -> shrunk J s st -> shrunk J s (delete k st).
Proof. intros Hk Hs k'. destruct (decide (k = k')) as [<-|]; [right; by rewrite lookup_delete_eq|]. rewrite lookup_delete_ne by done. apply Hs. Qed.

Section Deletions.
Context `{Hhex : HexCodec} (J : string -> Prop) (s : Store) (m0 : Manifest) (Hm0 : manifest_ok m0).
#[local] Abbreviation key_of := (fun en => snapshot_storage_key (snap_id en)).

(** The manifest in memory has lost only snapshots whose objects are gone. *)
Record kept (st : Store) (m : Manifest) : Prop := {
  kp_shrunk : shrunk J s st;
  kp_sub : m `sublist_of` m0;
  kp_kept : forall en, en ∈ m0 -> is_Some (st !! key_of en) -> en ∈ m;
}.

Lemma remove_snapshot_sublist m name : (remove_snapshot m name).2 `sublist_of` m.
Proof.
  induction m as [|en m IH]; [done|]. cbn [remove_snapshot]. destruct (String.eqb _ _); [by apply sublist_cons|].
  destruct (remove_snapshot m name) as [o m']. cbn [snd] in *. by apply sublist_skip.
Qed.
Lemma remove_snapshot_other m name en : en ∈ m -> snap_name en <> name -> en ∈ (remove_snapshot m name).2.
Proof.
  induction m as [|x m IH]; intros Hin Hne; [by apply not_elem_of_nil in Hin|]. cbn [remove_snapshot]. destruct (String.eqb_spec (snap_name x) name) as [E|].
  - apply elem_of_cons in Hin as [->|]; [congruence|done].
  - destruct (remove_snapshot m name) as [o m']. cbn [snd] in *. apply elem_of_cons in Hin as [->|]; [apply list_elem_of_here|right; auto].
Qed.

Lemma kept_refl : kept s m0.
Proof. constructor; [apply shrunk_refl|done|done]. Qed.

Lemma kept_delete st m k : J k -> kept st m -> kept (delete k st) m.
Proof.
  intros Hk [H1 H2 H3]. constructor; [by apply shrunk_delete|done|]. intros en Hen [d [_ Hd]%lookup_delete_Some]. apply H3; [done|by exists d].
Qed.

Lemma kept_remove st m en : en ∈ m0 -> J (key_of en) -> kept st m -> kept (delete (key_of en) st) (remove_snapshot m (snap_name en)).2.
Proof.
  intros Hen HJ [H1 H2 H3]. constructor; [by apply shrunk_delete|etransitivity; [apply remove_snapshot_sublist|done]|].
  intros en' Hen' [d [Hne Hd]%lookup_delete_Some]. apply remove_snapshot_other; [apply H3; [done|by exists d]|].
  intros E. apply Hne. f_equal. f_equal. pose proof (find_snapshot_NoDup _ _ (mf_names _ Hm0) Hen) as F1.
  pose proof (find_snapshot_NoDup _ _ (mf_names _ Hm0) Hen') as F2. rewrite E in F2. congruence.
Qed.

Context (issues0 : list IntegrityIssue) (actions : list RepairAction).
(** Corrupt snapshots that are named are snapshots of the manifest; the keys
    the actions delete are in [J]. *)
Context (Hnamed : forall id n, RemoveCorruptSnapshot id (Some n) ∈ actions -> exists en, en ∈ m0 /\ snap_id en = id /\ snap_name en = n).
Context (Hcorrupt : forall id n, RemoveCorruptSnapshot id n ∈ actions -> J (snapshot_storage_key id)).
Context (Hinvalid : forall key, RemoveInvalidSnapshotKey key ∈ actions -> J key).
Context (Hdoomed : forall name n en, RemoveDanglingSnapshot name n ∈ actions -> en ∈ m0 -> snap_name en = name -> J (key_of en)).

Lemma remove_corrupt_step pre a pg (r := pg_repo pg) : a ∈ actions ->
  triple (fun st => kept st (manifest (pg_repo pg)) /\ forall id n, RemoveCorruptSnapshot id n ∈ pre -> st !! snapshot_storage_key id = None)
    (remove_corrupt pg a)
    (fun pg' st => (chunk_index (pg_repo pg') = chunk_index r /\ pg_errors pg' = pg_errors pg) /\ kept st (manifest (pg_repo pg')) /\
       forall id n, RemoveCorruptSnapshot id n ∈ pre ++ [a] -> st !! snapshot_storage_key id = None)
    (shrunk J s).
Proof.
  intros Ha. assert (Hskip : (forall id n, a <> RemoveCorruptSnapshot id n) -> forall st : Store,
    (forall id n, RemoveCorruptSnapshot id n ∈ pre -> st !! snapshot_storage_key id = None) ->
    forall id n, RemoveCorruptSnapshot id n ∈ pre ++ [a] -> st !! snapshot_storage_key id = None).
  { intros Hne st Hst id n [Hin|Hin%list_elem_of_singleton]%elem_of_app; [by eapply Hst|]. by destruct (Hne id n). }
  destruct a as [id name| | | | | |]; cbn [remove_corrupt]; try (apply triple_ret; intros st [Hk Hst]; split; [done|]; split; [done|]; by apply Hskip).
  eapply triple_bind.
  { apply triple_try_del with (Q := fun r st => match r with
      | Ok _ => kept st (match name with Some n => (remove_snapshot (manifest (pg_repo pg)) n).2 | None => manifest (pg_repo pg) end) /\
          forall id' n, RemoveCorruptSnapshot id' n ∈ pre ++ [RemoveCorruptSnapshot id name] -> st !! snapshot_storage_key id' = None
      | Err _ => shrunk J s st end).
    intros st [Hk Hst]. split.
    - split.
      + destruct name as [n|]; [|apply kept_delete; [by eapply Hcorrupt|done]].
        pose proof (Hcorrupt _ _ Ha) as HJ. destruct (Hnamed id n Ha) as (en & Hen & <- & <-). by apply kept_remove.
      + intros id' n [Hin|[= -> ->]%list_elem_of_singleton]%elem_of_app; [|apply lookup_delete_eq]. apply lookup_delete_None. right. by eapply Hst.
    - intros er. split; [apply Hk|]. apply shrunk_delete; [by eapply Hcorrupt|apply Hk]. }
  intros [u|er]; [|by apply triple_fail]. apply triple_ret. intros st [Hk Hst]. cbn [pg_repo pg_errors]. destruct name; done.
Qed.

Definition corrupt_erased (l : list RepairAction) (st : Store) : Prop :=
  forall id n, RemoveCorruptSnapshot id n ∈ l -> st !! snapshot_storage_key id = None.

Lemma erased_delete l st k : corrupt_erased l st -> corrupt_erased l (delete k st).
Proof. intros Hst id n Hin. apply lookup_delete_None. right. by eapply Hst. Qed.

Lemma step1_triple pg :
  triple (fun st => kept st (manifest (pg_repo pg))) (fold_m remove_corrupt pg actions)
    (fun pg' st => (chunk_index (pg_repo pg') = chunk_index (pg_repo pg) /\ pg_errors pg' = pg_errors pg) /\
       kept st (manifest (pg_repo pg')) /\ corrupt_erased actions st) (shrunk J s).
Proof.
  eapply triple_weaken; [apply (fold_m_triple (fun pre pg' st => (chunk_index (pg_repo pg') = chunk_index (pg_repo pg) /\ pg_errors pg' = pg_errors pg) /\
    kept st (manifest (pg_repo pg')) /\ corrupt_erased pre st) (shrunk J s) remove_corrupt actions) with (pre := []) (st := pg)| | |done].
  - intros pre a pg' Ha w [[E1 E2] Hw]. pose proof (remove_corrupt_step pre a pg' Ha w Hw) as H. destruct (remove_corrupt pg' a w) as [[pg2|] w']; [|done].
    destruct H as [[E3 E4] H]. split; [by rewrite E3, E4|done].
  - intros st Hk. split; [done|]. split; [done|]. by intros id n ?%not_elem_of_nil.
  - done.
Qed.

Lemma step2_triple pg (G : Store -> Prop) : (forall st k, G st -> G (delete k st)) ->
  triple (fun st => kept st (manifest (pg_repo pg)) /\ G st) (fold_m remove_invalid pg actions)
    (fun pg' st => pg_repo pg' = pg_repo pg /\ kept st (manifest (pg_repo pg)) /\ G st) (shrunk J s).
Proof.
  intros HG. eapply triple_weaken; [apply (fold_m_triple (fun _ pg' st => pg_repo pg' = pg_repo pg /\ kept st (manifest (pg_repo pg)) /\ G st)
    (shrunk J s) remove_invalid actions) with (pre := []) (st := pg)|done|done|done].
  intros _ a pg' Ha. destruct a as [|key| | | | |]; cbn [remove_invalid]; try (by apply triple_ret).
  pose proof (Hinvalid key Ha) as Hk. eapply triple_bind.
  { apply triple_try_del with (Q := fun _ st => pg_repo pg' = pg_repo pg /\ kept st (manifest (pg_repo pg)) /\ G st).
    intros st (H1 & H2 & H3). split; [|intros er; split; [done|]]; (split; [done|]; split; [by apply kept_delete|auto]). }
  intros [u|er]; by apply triple_ret.
Qed.

(** The snapshot of that name has gone. *)
Definition doomed_erased (l : list RepairAction) (st : Store) : Prop :=
  forall name n en, RemoveDanglingSnapshot name n ∈ l -> en ∈ m0 -> snap_name en = name -> st !! key_of en = None.

Definition names_off (gone : gset string) (m : Manifest) : Prop := forall en, en ∈ m -> snap_name en ∉ gone.

Lemma sublist_elem (m : Manifest) en : m `sublist_of` m0 -> en ∈ m -> en ∈ m0.
Proof. intros Hs. by apply sublist_subseteq in Hs; apply Hs. Qed.

Lemma removed_name_gone m name : m `sublist_of` m0 -> forall en, en ∈ (remove_snapshot m name).2 -> snap_name en <> name.
Proof.
  intros Hs en Hin E. assert (Hnd : NoDup (snap_name <$> m)).
  { eapply sublist_NoDup; [apply (mf_names _ Hm0)|by apply fmap_sublist]. }
  clear Hs. induction m as [|x m IH]; cbn [remove_snapshot] in Hin; [by apply not_elem_of_nil in Hin|]. rewrite fmap_cons in Hnd. apply NoDup_cons in Hnd as [Hx Hnd].
  destruct (String.eqb_spec (snap_name x) name) as [E'|Hne].
  - cbn [snd] in Hin. apply Hx. rewrite E', <- E. by apply elem_fmap.
  - destruct (remove_snapshot m name) as [o m']. cbn [snd] in *. apply elem_of_cons in Hin as [->|Hin]; [done|]. by apply IH.
Qed.

Lemma step5_triple pg (G : Store -> Prop) : (forall st k, G st -> G (delete k st)) ->
  triple (fun st => kept st (manifest (pg_repo pg)) /\ G st) (fold_m remove_doomed (pg, ∅) actions)
    (fun x st => chunk_index (pg_repo x.1) = chunk_index (pg_repo pg) /\ kept st (manifest (pg_repo x.1)) /\ G st /\
       names_off x.2 (manifest (pg_repo x.1)) /\ (pg_errors x.1 = [] -> doomed_erased actions st)) (shrunk J s).
Proof.
  intros HG. eapply triple_weaken; [apply (fold_m_triple (fun pre x st => chunk_index (pg_repo x.1) = chunk_index (pg_repo pg) /\
    kept st (manifest (pg_repo x.1)) /\ G st /\ names_off x.2 (manifest (pg_repo x.1)) /\ (pg_errors x.1 = [] -> doomed_erased pre st))
    (shrunk J s) remove_doomed actions) with (pre := []) (st := (pg, ∅))| | |done].
  2:{ intros st [Hk HGs]. split_and!; try done. by intros _ ? ? ? ?%not_elem_of_nil. }
  2:{ done. }
  intros pre a [pg' gone] Ha. cbn [fst snd].
  destruct a as [| | | | |name n|]; cbn [remove_doomed]; try (apply triple_ret; intros st (H1 & H2 & H3 & H4 & H5); split_and!; try done;
    intros E nm n en [Hin|[=]%list_elem_of_singleton]%elem_of_app; by eapply H5).
  destruct (find_snapshot (manifest (pg_repo pg')) name) as [entry|] eqn:Hf.
  2:{ apply triple_ret. intros st (H1 & H2 & H3 & H4 & H5). split_and!; try done. cbn [fst].
      intros E nm n' en [Hin|[= -> ->]%list_elem_of_singleton]%elem_of_app Hen Hn; [by eapply H5|]. destruct (st !! key_of en) eqn:Hd; [|done].
      pose proof (kp_kept _ _ H2 en Hen ltac:(by eexists)) as Hin. exfalso. unfold find_snapshot in Hf. rewrite list_elem_of_In in Hin.
      pose proof (List.find_none _ _ Hf _ Hin) as Hne. cbn beta in Hne. by rewrite Hn, String.eqb_refl in Hne. }
  destruct (find_snapshot_Some _ _ _ Hf) as [Hin Hname]. eapply triple_bind.
  { apply triple_try_del with (Q := fun r st => chunk_index (pg_repo pg') = chunk_index (pg_repo pg) /\ G st /\ names_off gone (manifest (pg_repo pg')) /\ entry ∈ m0 /\
      manifest (pg_repo pg') `sublist_of` m0 /\
      match r with
      | Ok _ => kept st (remove_snapshot (manifest (pg_repo pg')) name).2 /\ (pg_errors pg' = [] -> doomed_erased pre st) /\ st !! key_of entry = None
      | Err _ => kept st (manifest (pg_repo pg'))
      end).
    intros st (H1 & H2 & H3 & H4 & H5). pose proof (sublist_elem _ _ (kp_sub _ _ H2) Hin) as Hm. split.
    - split; [done|]. split; [by apply HG|]. split; [done|]. split; [done|]. split; [apply (kp_sub _ _ H2)|].
      split; [rewrite <- Hname; apply kept_remove; [done|by eapply Hdoomed|done]|]. split; [|apply lookup_delete_eq].
      intros E nm n' en Hpre Hen Hn. apply lookup_delete_None. right. by eapply H5.
    - pose proof (kp_sub _ _ H2) as Hs. intros er. split.
      + done.
      + split_and!; try done; [by apply HG|]. apply kept_delete; [by eapply Hdoomed|done]. }
  intros [u|er]; apply triple_ret; intros st (H1 & H2 & H3 & H4 & Hsub & H5); cbn [fst snd pg_repo pg_errors].
  - destruct H5 as (H5 & H6 & H7). split_and!; try done.
    + intros en Hen. cbn [set_manifest manifest] in Hen. intros [En%elem_of_singleton|Hg]%elem_of_union.
      * by apply (removed_name_gone _ _ Hsub en Hen).
      * eapply H3; [|exact Hg]. by eapply sublist_subseteq; [apply remove_snapshot_sublist|].
    + intros E nm n' en [Hpre|[= -> ->]%list_elem_of_singleton]%elem_of_app Hen Hn; [by eapply H6|].
      pose proof (find_snapshot_NoDup _ _ (mf_names _ Hm0) Hen) as F1. pose proof (find_snapshot_NoDup _ _ (mf_names _ Hm0) H4) as F2.
      assert (en = entry) as ->; [|done]. rewrite Hname in F2. rewrite Hn in F1. congruence.
  - split_and!; try done. by intros [_ ?]%app_eq_nil.
Qed.
End Deletions.

(** ** Reading what is left of the packs *)

Section Lost.
Context `{Hhex : HexCodec} (e : CryptoEngine) `{Hcodecs : Codecs} `{Hmp : IndexCodec}.
Context `{Hmeta : MsgPack SnapshotMeta} `{Hitems : ItemStream} (plain : ChunkId -> bytes).

(** Packs of [full] are missing from [s]; those that are there are whole. *)
Definition packs_lost (full s : Store) : Prop :=
  forall p, s !! pack_storage_key p = None \/ s !! pack_storage_key p = full !! pack_storage_key p.

Lemma read_groups_lost full s gs : packs_lost full s -> forall st w st' w',
  objects w = s -> read_groups e gs st w = (Ok st', w') ->
  read_groups e gs st (mkWorld full (faults w)) = (Ok st', mkWorld full (faults w')).
Proof.
  intros Hl. induction gs as [|g gs IH]; intros st w st' w' Hw; cbn [read_groups]; [by intros [= <- <-]|].
  intros (st1 & w1 & Hg & Hrest)%bind_run.
  assert (Hstep : objects w1 = s /\ read_group e g st (mkWorld full (faults w)) = (Ok st1, mkWorld full (faults w1))).
  { unfold read_group in *. apply bind_run in Hg as (o & w2 & Hr & Hg). unfold get_range in Hr. apply bind_run in Hr as (o2 & w3 & Hrd & Hr).
    unfold reading, next_fault in Hrd. destruct o as [raw|]; [|done]. injection Hg as Hplace <-.
    destruct o2 as [data|]; [|by injection Hr as [=]]. cbv zeta in Hr. destruct (_ =? _) eqn:Hlen; [|done]. injection Hr as <- <-.
    assert (Hdata : full !! pack_storage_key (cg_pack_id g) = s !! pack_storage_key (cg_pack_id g)).
    { destruct (Hl (cg_pack_id g)) as [Hn|]; [|done]. rewrite <- Hw in Hn. destruct (faults w) as [|[] fs]; cbn in Hrd; try done; injection Hrd as Hx _; congruence. }
    unfold mbind, M_bind, get_range, mbind, M_bind, reading, next_fault. cbn [faults objects].
    destruct (faults w) as [|[] fs] eqn:Hfs; cbn in Hrd; try done; injection Hrd as Hd <-; rewrite Hw in *; (split; [done|]); cbn [objects]; rewrite Hdata, Hd, Hlen; cbn;
      unfold lift; rewrite Hplace; cbn; by rewrite ?Hfs. }
  destruct Hstep as [Hw1 Hstep]. unfold mbind, M_bind. rewrite Hstep. by apply (IH st1 w1).
Qed.

Lemma load_stream_lost full s r ptrs c w x w' : packs_lost full s -> objects w = s ->
  load_item_stream_from_ptrs e r ptrs c w = (Ok x, w') ->
  load_item_stream_from_ptrs e r ptrs c (mkWorld full (faults w)) = (Ok x, mkWorld full (faults w')).
Proof.
  intros Hl Hw. unfold load_item_stream_from_ptrs, resolve_and_read. unfold mbind, M_bind, lift.
  destruct (resolve_all _ ptrs) as [chunks|]; [|done]. destruct chunks as [|k chunks]; [by intros [= <- <-]|].
  rewrite !read_coalesced_nonempty by done. destruct (cache_scan _ _ _ _ _) as [slots pb]. cbv zeta.
  destruct (bool_decide _); [by intros [= <- <-]|]. unfold mbind, M_bind.
  destruct (read_groups e (coalesce pb) _ w) as [[st'|] w1] eqn:Hg; [|done]. intros [= <- <-]. by rewrite (read_groups_lost full s _ Hl _ _ _ _ Hw Hg).
Qed.

Lemma lost_reads full s r : packs_lost full s -> placed e plain full (chunk_index r) -> reads_plain e plain s r.
Proof.
  intros Hl Hp ptrs c Hc w Hw. pose proof (load_stream_preserves e (fun st => st = s) r ptrs c w Hw) as Hpres.
  destruct (load_item_stream_from_ptrs e r ptrs c w) as [[x|] w'] eqn:Hrun; [|done]. split; [done|].
  pose proof (load_stream_lost full s r ptrs c w x w' Hl Hw Hrun) as Hfull.
  pose proof (placed_reads e plain full r Hp ptrs c Hc (mkWorld full (faults w)) eq_refl) as Hx. rewrite Hfull in Hx. apply Hx.
Qed.

Lemma placed_sub s ix ix' : placed e plain s ix -> ix' ⊆ ix -> placed e plain s ix'.
Proof.
  intros [H1 H2] Hsub. split; [intros id en Hen; apply H1; by eapply lookup_weaken|].
  intros id en id' en' Hen Hen'. apply H2; by eapply lookup_weaken.
Qed.
End Lost.

(** ** Counting *)

Definition tally (m : gmap ChunkId Z) (id : ChunkId) : Z := default 0 (m !! id).

Lemma tally_fold ix ids : forall m id, u32 (tally m id) ->
  tally (foldl (count_reference ix) m ids) id = u32_wrap (tally m id + if contains ix id then count_id id ids else 0) /\
  (is_Some (foldl (count_reference ix) m ids !! id) <-> is_Some (m !! id) \/ (contains ix id = true /\ id ∈ ids)).
Proof.
  induction ids as [|x ids IH]; intros m id Hu; cbn [foldl].
  { split; [|split; [by left|intros [|[_ ?%not_elem_of_nil]]; done]]. unfold count_id. cbn. destruct (contains ix id); by rewrite Z.add_0_r, u32_wrap_small. }
  assert (Hx : tally (count_reference ix m x) id = (if decide (x = id) then if contains ix id then u32_add (tally m id) 1 else tally m id else tally m id) /\
    (is_Some (count_reference ix m x !! id) <-> is_Some (m !! id) \/ (contains ix id = true /\ x = id))).
  { unfold count_reference, tally, bump_by. destruct (contains ix x) eqn:Hc.
    - rewrite lookup_insert. case_decide as E; [subst x; rewrite Hc; cbn; split; [done|naive_solver]|]. split; [done|naive_solver].
    - case_decide as E; [subst x; rewrite Hc|]; split; try done; naive_solver. }
  destruct Hx as [Hx1 Hx2]. destruct (IH (count_reference ix m x) id) as [H1 H2].
  { rewrite Hx1. case_decide; [|done]. destruct (contains ix id); [apply u32_add_u32|done]. }
  split.
  - rewrite H1, Hx1. unfold count_id. cbn [sum_Z]. case_decide as E; [|destruct (contains ix id); f_equal; lia].
    destruct (contains ix id); [|done]. unfold u32_add, u32_wrap. rewrite Zplus_mod_idemp_l. f_equal. lia.
  - rewrite H2, Hx2, elem_of_cons. naive_solver.
Qed.

Section CountSum.
Context `{Hhex : HexCodec} (e : CryptoEngine) `{Hmeta : MsgPack SnapshotMeta} `{Hitems : ItemStream} (plain : ChunkId -> bytes).
#[local] Abbreviation key_of := (fun en => snapshot_storage_key (snap_id en)).

(** The references of the store are those of a list of snapshots that has
    every readable object once. *)
Lemma references_of_entries id l : forall st,
  NoDup (key_of <$> l) -> Forall (fun en => is_id (snapshot_bytes (snap_id en)) /\ is_Some (st !! key_of en)) l ->
  (forall k d, st !! k = Some d -> starts_with k "snapshots/" = true -> key_refs e plain k d <> [] -> k ∈ key_of <$> l) ->
  references e plain st id = sum_Z (fun en => count_id id (key_refs e plain (key_of en) (default [] (st !! key_of en)))) l.
Proof.
  induction l as [|en l IH]; intros st Hnd Hall Hcov.
  - unfold references. cbn [sum_Z]. apply sum_Z_zero. intros [k d] Hin%elem_of_map_to_list. unfold snapshots_of in Hin. apply map_lookup_filter_Some in Hin as [Hd Hk].
    cbn [fst snd] in *. destruct (key_refs e plain k d) eqn:E; [done|]. exfalso. apply (not_elem_of_nil k). apply (Hcov k d); [done..|]. by rewrite E.
  - rewrite fmap_cons in Hnd. apply NoDup_cons in Hnd as [Hn Hnd]. apply Forall_cons in Hall as [[Hid [d Hd]] Hall]. cbn [sum_Z].
    rewrite (references_delete e plain st (key_of en) d id Hd (snapshot_storage_key_prefix _)). rewrite Hd. cbn [from_option Datatypes.id]. f_equal.
    rewrite IH; [| done | |].
    + apply sum_Z_ext. intros x Hx. rewrite lookup_delete_ne; [done|]. intros E. apply Hn. cbv beta in *. rewrite E. by apply (elem_fmap key_of).
    + rewrite Forall_forall in *. intros x Hx. destruct (Hall x Hx) as [? ?]. split; [done|]. rewrite lookup_delete_ne; [done|].
      intros E. apply Hn. cbv beta in *. rewrite E. by apply (elem_fmap key_of).
    + intros k d' [Hne Hk]%lookup_delete_Some Hp Hr. specialize (Hcov k d' Hk Hp Hr). rewrite fmap_cons in Hcov. apply elem_of_cons in Hcov as [->|]; done.
Qed.
End CountSum.

(** ** The whole repair *)

Lemma foldl_concat {A B C} (f : C -> B -> C) (g : A -> list B) (l : list A) : forall c,
  foldl (fun c a => foldl f c (g a)) c l = foldl f c (concat (g <$> l)).
Proof. induction l as [|a l IH]; intros c; [done|]. rewrite fmap_cons. cbn [concat foldl]. rewrite foldl_app. apply IH. Qed.

Lemma count_id_perm id l1 l2 : l1 ≡ₚ l2 -> count_id id l1 = count_id id l2.
Proof. intros. unfold count_id. by apply sum_Z_perm. Qed.

Lemma count_id_not id l : id ∉ l -> count_id id l = 0.
Proof. intros Hn. unfold count_id. apply sum_Z_zero. intros x Hx. rewrite decide_False; [done|]. congruence. Qed.

Lemma count_id_in id l : id ∈ l -> 1 <= count_id id l.
Proof.
  unfold count_id. induction l as [|x l IH]; intros Hin; [by apply not_elem_of_nil in Hin|]. cbn [sum_Z]. pose proof (count_id_nonneg id l) as Hnn. unfold count_id in Hnn.
  case_decide as E; [lia|]. apply elem_of_cons in Hin as [->|Hin]; [done|]. specialize (IH Hin). lia.
Qed.

Section RepairLaws.
Context `{Hhex : HexCodec} `{Hblake : Blake2b} (e : CryptoEngine) `{Hcodecs : Codecs} `{Hmp : IndexCodec}.
Context `{Hmeta : MsgPack SnapshotMeta} `{Hitems : ItemStream} `{Hcache : MsgPack SnapshotListCache}.
Context {Hlaw : LawfulEngine e} (plain : ChunkId -> bytes).
Context (draws : nat -> Z * bytes) (fence : M unit).
Context (draws_typed : forall n, u64 (draws n).1 /\ length (draws n).2 = NONCE_LEN).
Context (fence_locks : only_locks fence).
#[local] Abbreviation key_of := (fun en => snapshot_storage_key (snap_id en)).

(** The references read from a snapshot. *)
Definition read_refs (st : Store) (en : SnapshotEntry) (ids : list ChunkId) : Prop :=
  exists d m items, st !! snapshot_storage_key (snap_id en) = Some d /\ decode_snapshot_meta e (snap_id en) d = Ok m /\
    decode_items_stream (concat (plain <$> item_ptrs m)) = Ok items /\ ids = item_ptrs m ++ concat (file_ids <$> items).

Lemma count_snapshot_answers st r m c en :
  reads_plain e plain st r -> find_snapshot (manifest r) (snap_name en) = Some en -> cache_sound plain c ->
  answers st (count_snapshot_refs e r (m, c) en) (fun x => exists ids, read_refs st en ids /\
    x.1 = foldl (count_reference (chunk_index r)) m ids /\ cache_sound plain x.2).
Proof.
  intros Hread Hf Hc. unfold count_snapshot_refs. eapply answers_bind; [apply answers_try, load_meta_answers, Hf|].
  intros [meta|er] Hm; cbv beta in Hm; [|apply answers_fail]. destruct Hm as (d & Hd & Hdec). cbv zeta.
  eapply answers_bind with (Phi := fun x => match x with Ok p => p.1 = concat (plain <$> item_ptrs meta) /\ cache_sound plain p.2 | Err _ => True end).
  { apply answers_try. eapply answers_bind; [by apply load_meta_answers|]. intros m' (d' & Hd' & Hdec').
    rewrite Hd in Hd'. injection Hd' as <-. rewrite Hdec in Hdec'. injection Hdec' as <-. by apply Hread. }
  intros [[stream c']|er] Hs; cbv beta in Hs; [|apply answers_fail]. cbn [fst snd] in Hs. destruct Hs as [-> Hc'].
  destruct (for_each_pure (concat (plain <$> item_ptrs meta))) as (o & items & Hit & Hrun).
  rewrite (Hrun _ (fun item m => foldl (count_reference (chunk_index r)) m (file_ids item))). destruct o as [u|]; [|apply answers_fail].
  apply answers_ret. cbn [fst snd]. exists (item_ptrs meta ++ concat (file_ids <$> items)). split; [by exists d, meta, items|]. split; [|done].
  by rewrite foldl_app, <- foldl_concat.
Qed.

Lemma count_all_answers st r l : forall m c,
  reads_plain e plain st r -> (forall en, en ∈ l -> find_snapshot (manifest r) (snap_name en) = Some en) -> cache_sound plain c ->
  answers st (fold_m (count_snapshot_refs e r) (m, c) l) (fun y => exists ls, Forall2 (read_refs st) l ls /\
    y.1 = foldl (count_reference (chunk_index r)) m (concat ls)).
Proof.
  induction l as [|en l IH]; intros m c Hread Hf Hc; cbn [fold_m]; [apply answers_ret; by exists []|].
  eapply answers_bind; [apply count_snapshot_answers; [done|apply Hf, list_elem_of_here|done]|].
  intros [m' c'] (ids & Hids & Hm & Hc'). cbn [fst snd] in *. eapply answers_impl; [apply IH; [done|intros; apply Hf; by right|done]|].
  intros y (ls & Hls & Hy). exists (ids :: ls). split; [by constructor|]. cbn [concat]. by rewrite foldl_app, Hy, Hm.
Qed.

(** *** The index that is saved *)

(** Nothing but objects of keys in [J], the index and locks is touched. *)
Definition only_lost (J : string -> Prop) (s s' : Store) : Prop :=
  forall k, is_lock_key k = false -> k <> "index" -> k <> "index.gen" -> s' !! k = s !! k \/ (J k /\ s' !! k = None).

(** The index counts exactly the references of the snapshots of the store,
    its entries are entries of the old one, and their chunks are in the
    store, unless the scan could not find out whether the pack is there. *)
Record repaired (found : list IntegrityIssue) (ix : ChunkIndex) (s' : Store) (ix' : ChunkIndex) : Prop := {
  rp_index : index_of e s' ix';
  rp_fits : index_fits ix';
  rp_pos : map_Forall (fun _ en => 1 <= refcount en) ix';
  rp_refs : forall id, rc ix' id = references e plain s' id;
  rp_loc : forall id en, ix' !! id = Some en -> exists en0, ix !! id = Some en0 /\ location en = location en0;
  rp_stored : forall id en, ix' !! id = Some en -> in_place e plain s' id (pack_id en) (pack_offset en) (stored_size en) \/
    exists d, PackExistenceCheckFailed (pack_id en) d ∈ found;
}.

Lemma rebuild_lookup m (ix : ChunkIndex) id :
  rebuild_refcounts m ix !! id = en ← ix !! id; (fun n => set_refcount n en) <$> m !! id.
Proof. unfold rebuild_refcounts. by rewrite map_lookup_imap. Qed.

Lemma rebuild_fits ix ix1 m : index_fits ix -> ix1 ⊆ ix -> (forall id n, m !! id = Some n -> u32 n) -> index_fits (rebuild_refcounts m ix1).
Proof.
  intros [Hwf Hsize] Hsub Hm. split.
  - intros id en. rewrite rebuild_lookup. destruct (ix1 !! id) as [en1|] eqn:H1; [|done]. cbn. destruct (m !! id) as [n|] eqn:H2; [|done]. intros [= <-].
    destruct (Hwf id en1) as (? & ? & ? & ? & ?); [by eapply lookup_weaken|]. unfold wf_entry. cbn [set_refcount refcount stored_size pack_id pack_offset].
    split_and!; try done; apply (Hm _ _ H2).
  - assert (size (rebuild_refcounts m ix1) <= size ix)%nat; [|lia]. rewrite <- !size_dom. apply subseteq_size.
    intros id [en Hen]%elem_of_dom. rewrite rebuild_lookup in Hen. destruct (ix1 !! id) as [en1|] eqn:H1; [|done]. apply elem_of_dom. exists en1. by eapply lookup_weaken.
Qed.

Lemma tally_some ix ids id n : foldl (count_reference ix) ∅ ids !! id = Some n -> u32 n /\ id ∈ ids /\ contains ix id = true /\ n = u32_wrap (count_id id ids).
Proof.
  intros Hn. destruct (tally_fold ix ids ∅ id) as [H1 H2]; [unfold tally; rewrite lookup_empty; cbn; unfold_ints; lia|].
  destruct (proj1 H2 ltac:(by eexists)) as [[? [=]]|[Hc Hin]]. unfold tally in H1. rewrite Hn, lookup_empty, Hc in H1. cbn in H1. rewrite H1. split; [apply u32_wrap_u32|done].
Qed.

(** Counting all references, of chunks that are all in the index. *)
Lemma rebuild_counts ix1 ids id :
  (forall x, x ∈ ids -> is_Some (ix1 !! x)) -> count_id id ids < u32_modulus ->
  rc (rebuild_refcounts (foldl (count_reference ix1) ∅ ids) ix1) id = count_id id ids.
Proof.
  intros Hin Hlt. unfold rc. rewrite rebuild_lookup. pose proof (count_id_nonneg id ids) as Hnn.
  destruct (ix1 !! id) as [en|] eqn:Hen; cbn.
  - destruct (foldl (count_reference ix1) ∅ ids !! id) as [n|] eqn:Hn; cbn.
    + destruct (tally_some _ _ _ _ Hn) as (_ & _ & _ & ->). apply u32_wrap_small. unfold u32. lia.
    + destruct (tally_fold ix1 ids ∅ id) as [_ H2]; [unfold tally; rewrite lookup_empty; cbn; unfold_ints; lia|].
      rewrite count_id_not; [done|]. intros Hid. rewrite Hn in H2. destruct (proj2 H2) as [? [=]]. right. split; [|done]. apply contains_true. by eexists.
  - rewrite count_id_not; [done|]. intros Hid. destruct (Hin _ Hid) as [? ?]. congruence.
Qed.

Lemma references_shrunk J s0 st id : shrunk J s0 st -> references e plain st id <= references e plain s0 id.
Proof.
  intros Hs. unfold references. apply sum_Z_submseteq; [intros; apply count_id_nonneg|]. apply map_to_list_submseteq.
  apply map_subseteq_spec. intros k d. unfold snapshots_of. rewrite !map_lookup_filter_Some. intros [Hd Hk]. split; [|done].
  destruct (Hs k) as [<-|[_ Hn]]; congruence.
Qed.

(** Items that are not files have no chunks. *)
Definition files_only (l : Manifest) (s : Store) : Prop := forall en d m items it,
  en ∈ l -> s !! key_of en = Some d -> decode_snapshot_meta e (snap_id en) d = Ok m -> decode_items_stream (concat (plain <$> item_ptrs m)) = Ok items ->
  it ∈ items -> entry_type it <> RegularFile -> item_chunks it = [].

Lemma read_refs_key l st en ids : files_only l st -> en ∈ l -> is_id (snapshot_bytes (snap_id en)) -> read_refs st en ids ->
  exists d, st !! key_of en = Some d /\ key_refs e plain (key_of en) d ≡ₚ ids.
Proof.
  intros Hfiles Hl Hid (d & m & items & Hd & Hm & Hit & ->). exists d. split; [done|].
  rewrite key_refs_storage_key by done. unfold object_refs. rewrite Hm. cbn [mbind result_bind]. unfold meta_refs. rewrite Hit. cbn [mbind result_bind].
  replace (file_ids <$> items) with ((fun it => ref_id <$> item_chunks it) <$> items); [apply Permutation_app_comm|].
  apply list_fmap_ext. intros i it Hi. unfold file_ids. pose proof (Hfiles _ _ _ _ it Hl Hd Hm Hit (list_elem_of_lookup_2 _ _ _ Hi)) as Hx.
  destruct (entry_type it); try done; by rewrite Hx.
Qed.

Lemma references_read st l ls id :
  files_only l st -> manifest_ok l -> Forall2 (read_refs st) l ls ->
  (forall k d, st !! k = Some d -> starts_with k "snapshots/" = true -> key_refs e plain k d <> [] -> k ∈ key_of <$> l) ->
  references e plain st id = count_id id (concat ls).
Proof.
  intros Hfiles Hm Hls Hcov. pose proof (mf_typed _ Hm) as Hty.
  assert (Hnd : NoDup (key_of <$> l)).
  { pose proof (mf_ids _ Hm) as Hids. clear -Hids Hty Hhex. induction l as [|en l IH]; [constructor|]. rewrite !fmap_cons in *.
    apply NoDup_cons in Hids as [Hn Hids]. apply Forall_cons in Hty as [H1 Hty]. apply NoDup_cons. split; [|by apply IH].
    intros (en' & E & Hin)%list_elem_of_fmap. rewrite Forall_forall in Hty. apply snapshot_storage_key_inj in E; [|done|by apply Hty].
    apply Hn. rewrite E. by apply elem_fmap. }
  assert (Hsome : Forall (fun en => is_id (snapshot_bytes (snap_id en)) /\ is_Some (st !! key_of en)) l).
  { clear -Hty Hls. induction Hls as [|en ids l ls (d & m & items & Hd & _) Hls IH]; [by apply Forall_nil|].
    apply Forall_cons in Hty as [H1 Hty]. apply Forall_cons. split; [split; [done|by exists d]|by apply IH]. }
  rewrite (references_of_entries e plain id l st Hnd Hsome Hcov). clear Hcov Hnd Hsome Hm.
  induction Hls as [|en ids l ls Hr Hls IH]; [done|]. apply Forall_cons in Hty as [H1 Hty]. cbn [sum_Z concat].
  rewrite count_id_app, IH; [|intros x d m items it Hx; apply Hfiles; by right|done].
  f_equal. destruct (read_refs_key _ st en ids Hfiles (list_elem_of_here _ _) H1 Hr) as (d & Hd & Hp). rewrite Hd. by apply count_id_perm.
Qed.

Lemma triple_eq {A} (P : Store -> Prop) (m : M A) Q E : (forall s1, P s1 -> triple (fun st => st = s1) m Q E) -> triple P m Q E.
Proof. intros Hm w Hw. by apply (Hm (objects w) Hw w). Qed.

Lemma triple_pure_pre {A} (phi : Prop) (P : Store -> Prop) (m : M A) Q E : (phi -> triple P m Q E) -> triple (fun st => phi /\ P st) m Q E.
Proof. intros Hm w [Hphi HP]. by apply Hm. Qed.

(** *** What the scan tells the repair *)

Record scan_found (s : Store) (r : Repository) (scan : ScanResult) : Prop := {
  sf_named : forall id n, CorruptSnapshot id (Some n) ∈ issues scan -> exists en, en ∈ manifest r /\ snap_id en = id /\ snap_name en = n;
  sf_invalid : forall key, InvalidSnapshotKey key ∈ issues scan -> starts_with key "snapshots/" = true;
  sf_each : forall en, en ∈ manifest r -> (exists i, i ∈ issues scan /\ blames en i) \/
    exists ids, whole e plain s r en ids /\ collected true (snap_name en) ids scan;
  sf_packs : forall id en, chunk_index r !! id = Some en -> s !! pack_storage_key (pack_id en) = None ->
    MissingPack (pack_id en) ∈ issues scan \/ exists d, PackExistenceCheckFailed (pack_id en) d ∈ issues scan;
}.

(** A repository that lost packs and snapshots, or whose counts are wrong:
    [full] is the store with no pack lost. *)
Record repairable (full s : Store) (r : Repository) : Prop := {
  ra_manifest : manifest_ok (manifest r);
  ra_complete : forall k d, s !! k = Some d -> starts_with k "snapshots/" = true -> key_refs e plain k d <> [] -> k ∈ key_of <$> manifest r;
  ra_packs : packs_lost full s;
  ra_stored : stored e plain full (chunk_index r);
  ra_fits : index_fits (chunk_index r);
  ra_files : files_only (manifest r) s;
  ra_u32 : forall id, references e plain s id < u32_modulus;
}.

Section Execute.
Context (J : string -> Prop) (HJ : forall k, J k -> starts_with k "snapshots/" = true).
Context (full s : Store) (r : Repository) (scan : ScanResult).
Context (Hra : repairable full s r) (Hsf : scan_found s r scan) (Hread : read_failure (issues scan) = false).
Context (actions : list RepairAction) (removed : gset ChunkId).
Context (Hplan : plan_ok (issues scan) (group_by_pack ∅ (chunk_index r)) (snapshot_chunk_refs scan) actions).
Context (Hdoom : forall name, (Exists (names_doom name) (issues scan) \/ exists R id, snapshot_chunk_refs scan !! name = Some R /\ id ∈ R /\ id ∈ removed) ->
  (exists n, RemoveDanglingSnapshot name n ∈ actions) \/ exists id, RemoveCorruptSnapshot id (Some name) ∈ actions).
#[local] Abbreviation m0 := (manifest r).

Lemma actions_named id n : RemoveCorruptSnapshot id (Some n) ∈ actions -> exists en, en ∈ m0 /\ snap_id en = id /\ snap_name en = n.
Proof. intros Ha%(pl_corrupt _ _ _ _ Hplan). by apply (sf_named _ _ _ Hsf). Qed.

(** A snapshot that was marked for removal is not there any more. *)
Lemma marked_erased st en :
  corrupt_erased actions st -> doomed_erased m0 actions st -> en ∈ m0 ->
  (exists n, RemoveDanglingSnapshot (snap_name en) n ∈ actions) \/ (exists id, RemoveCorruptSnapshot id (Some (snap_name en)) ∈ actions) ->
  st !! key_of en = None.
Proof.
  intros Hc Hd Hen [[n Hn]|[id Hid]]; [by eapply Hd|]. destruct (actions_named _ _ Hid) as (en' & Hen' & Hi & Hn).
  pose proof (find_snapshot_NoDup _ _ (mf_names _ (ra_manifest _ _ _ Hra)) Hen) as F1.
  pose proof (find_snapshot_NoDup _ _ (mf_names _ (ra_manifest _ _ _ Hra)) Hen') as F2. rewrite Hn in F2.
  assert (en' = en) as -> by congruence. subst id. by eapply Hc.
Qed.

(** The chunks of a snapshot that is left are in the index and stay there. *)
Lemma survivor_refs st en ids :
  shrunk J s st -> corrupt_erased actions st -> doomed_erased m0 actions st -> en ∈ m0 -> read_refs st en ids ->
  forall x, x ∈ ids -> is_Some (chunk_index r !! x) /\ x ∉ removed.
Proof.
  intros Hs Hc Hd Hen (d & m & items & Hk & Hm & Hit & ->) x Hx.
  assert (Hno : ~ ((exists n, RemoveDanglingSnapshot (snap_name en) n ∈ actions) \/ exists id, RemoveCorruptSnapshot id (Some (snap_name en)) ∈ actions)).
  { intros Hmark. pose proof (marked_erased st en Hc Hd Hen Hmark). cbv beta in *. congruence. }
  destruct (sf_each _ _ _ Hsf en Hen) as [(i & Hi & Hb)|(ids & (d' & m' & items' & Hk' & Hm' & Hit' & -> & Hin) & Hcol)].
  - exfalso. assert (Hdm : names_doom (snap_name en) i -> False).
    { intros Hn. apply Hno, Hdoom. left. apply Exists_exists. by exists i. }
    destruct i as [id name| | | | | | | | |]; cbn [blames] in Hb; try done; try (by apply Hdm).
    + destruct Hb as [-> ->]. destruct (pl_all_corrupt _ _ _ _ Hplan _ _ Hi) as [n Hn]. pose proof (Hc _ _ Hn). congruence.
    + assert (read_failure (issues scan) = true); [|congruence]. apply existsb_exists. eexists. by split; [apply list_elem_of_In, Hi|].
  - destruct (Hs (key_of en)) as [E|[_ E]]; [|cbv beta in *; congruence]. cbv beta in E. rewrite Hk, Hk' in E. injection E as <-.
    rewrite Hm in Hm'. injection Hm' as <-. rewrite Hit in Hit'. injection Hit' as <-.
    assert (Hx' : x ∈ concat (file_ids <$> items) ++ item_ptrs m) by (rewrite elem_of_app in *; tauto). split; [by apply Hin|].
    intros Hrm. apply Hno, Hdoom. right. destruct (Hcol eq_refl x Hx') as (R & HR & HxR). eauto.
Qed.

Lemma shrunk_lost st : shrunk J s st -> only_lost J s st.
Proof. intros Hs k _ _ _. apply Hs. Qed.

Lemma shrunk_files st m5 : shrunk J s st -> m5 `sublist_of` m0 -> files_only m5 st.
Proof.
  intros Hs Hsub en d m items it Hen Hk. apply (ra_files _ _ _ Hra en d); [by eapply sublist_elem|]. destruct (Hs (key_of en)) as [<-|[_ ?]]; cbv beta in *; congruence.
Qed.

Lemma shrunk_pack st p : shrunk J s st -> st !! pack_storage_key p = s !! pack_storage_key p.
Proof. intros Hs. destruct (Hs (pack_storage_key p)) as [|[Hk _]]; [done|]. exfalso. by apply (pack_key_not_snapshot p _ (HJ _ Hk)). Qed.

(** The index after the rebuild is right for a store without the snapshots
    that were marked. *)
Lemma rebuilt_repaired st ix5 m5 ls (ix' := rebuild_refcounts (foldl (count_reference ix5) ∅ (concat ls)) ix5) :
  kept J s m0 st m5 -> corrupt_erased actions st -> doomed_erased m0 actions st ->
  ix5 ⊆ chunk_index r -> (forall id, id ∉ removed -> ix5 !! id = chunk_index r !! id) ->
  (forall p id en, MissingPack p ∈ issues scan -> ix5 !! id = Some en -> pack_id en <> p) ->
  Forall2 (read_refs st) m5 ls ->
  index_fits ix' /\ forall s', (forall k, is_lock_key k = false -> k <> "index" -> k <> "index.gen" -> s' !! k = st !! k) -> index_of e s' ix' ->
    repaired (issues scan) (chunk_index r) s' ix'.
Proof.
  intros [Hs Hsub Hkept] Hc Hd Hix Hsame Hmiss Hls.
  assert (Hm5 : manifest_ok m5).
  { destruct (ra_manifest _ _ _ Hra) as [H1 H2 H3]. constructor; [eapply sublist_NoDup; [exact H1|by apply fmap_sublist]|eapply sublist_NoDup; [exact H2|by apply fmap_sublist]|].
    rewrite Forall_forall in *. intros en Hen. apply H3. by eapply sublist_elem. }
  assert (Hin : forall x, x ∈ concat ls -> is_Some (ix5 !! x)).
  { intros x Hx. apply list_elem_of_In, in_concat in Hx as (ids & Hids%list_elem_of_In & Hx%list_elem_of_In).
    apply list_elem_of_lookup in Hids as [i Hi]. destruct (Forall2_lookup_r _ _ _ _ _ Hls Hi) as (en & Hen & Hrr).
    destruct (survivor_refs st en ids Hs Hc Hd ltac:(eapply sublist_elem; [exact Hsub|by eapply list_elem_of_lookup_2]) Hrr x Hx) as [H1 H2]. by rewrite Hsame. }
  assert (Hrefs : forall id, references e plain st id = count_id id (concat ls)).
  { intros id. apply (references_read st m5); [by apply shrunk_files|done|done|]. intros k d Hk Hp Hr.
    assert (Hks : s !! k = Some d) by (destruct (Hs k) as [<-|[_ ?]]; congruence).
    destruct (proj1 (list_elem_of_fmap _ _ _) (ra_complete _ _ _ Hra k d Hks Hp Hr)) as (en & -> & Hen). apply (elem_fmap key_of), Hkept; [done|by exists d]. }
  assert (Hlt : forall id, count_id id (concat ls) < u32_modulus).
  { intros id. rewrite <- Hrefs. pose proof (references_shrunk J s st id Hs). pose proof (ra_u32 _ _ _ Hra id). lia. }
  assert (Hlook : forall id en, ix' !! id = Some en -> exists en5, ix5 !! id = Some en5 /\ en = set_refcount (count_id id (concat ls)) en5 /\ 1 <= count_id id (concat ls)).
  { intros id en. unfold ix'. rewrite rebuild_lookup. destruct (ix5 !! id) as [en5|]; [|done]. cbn [mbind option_bind].
    destruct (foldl (count_reference ix5) ∅ (concat ls) !! id) as [n|] eqn:Hn; [|done]. intros [= <-]. exists en5. split; [done|].
    destruct (tally_some _ _ _ _ Hn) as (_ & Hid & _ & ->). pose proof (count_id_nonneg id (concat ls)) as Hnn. specialize (Hlt id).
    rewrite u32_wrap_small by (unfold u32; lia). split; [done|]. by apply count_id_in. }
  assert (Hfit : index_fits ix').
  { apply (rebuild_fits (chunk_index r)); [apply (ra_fits _ _ _ Hra)|done|]. intros id n Hn. by apply tally_some in Hn as [? _]. }
  split; [done|]. intros s' Hs' Hof. constructor; [done|done| | | |].
  - intros id en Hen. destruct (Hlook id en Hen) as (en5 & _ & -> & Hge). done.
  - intros id. unfold ix'. rewrite rebuild_counts by done. rewrite <- Hrefs. apply references_same. intros k Hk.
    destruct (snapshot_key_plain k Hk) as (? & ? & ?). symmetry. by apply Hs'.
  - intros id en Hen. destruct (Hlook id en Hen) as (en5 & H5 & -> & _). exists en5. split; [by eapply lookup_weaken|done].
  - intros id en Hen. destruct (Hlook id en Hen) as (en5 & H5 & -> & _). cbn [set_refcount pack_id pack_offset stored_size].
    pose proof (lookup_weaken _ _ _ _ H5 Hix) as H0.
    destruct (s !! pack_storage_key (pack_id en5)) as [data|] eqn:Hp.
    + left. destruct (ra_stored _ _ _ Hra id en5 H0) as (blobs & i & blob & Hd' & Hx). exists blobs, i, blob. split; [|done].
      destruct (pack_key_plain (pack_id en5)) as (? & ? & ?). rewrite Hs' by done. rewrite shrunk_pack by done.
      destruct (ra_packs _ _ _ Hra (pack_id en5)) as [?|E]; [congruence|by rewrite E].
    + right. destruct (sf_packs _ _ _ Hsf id en5 H0 Hp) as [Hm|[d Hf]]; [by destruct (Hmiss _ _ _ Hm H5)|]. by exists d.
Qed.
End Execute.

(** What a repair leaves behind. *)
Definition repair_done (J : string -> Prop) (s : Store) (r : Repository) (found : list IntegrityIssue) (errors : list string) (st : Store) : Prop :=
  only_lost J s st /\ (errors = [] -> exists ix', repaired found (chunk_index r) st ix').

Lemma save_keeps (J : string -> Prop) s r1 st (Phi : Store -> Prop) :
  only_lost J s st -> index_dirty r1 = true -> index_fits (chunk_index r1) ->
  (forall s', (forall k, is_lock_key k = false -> k <> "index" -> k <> "index.gen" -> s' !! k = st !! k) -> index_of e s' (chunk_index r1) -> Phi s') ->
  triple (agree st) (save_state e draws fence r1) (fun _ s' => only_lost J s s' /\ Phi s') (only_lost J s).
Proof.
  intros Hlost Hdirty Hfit Hrep.
  set (same := fun s' : Store => forall k, is_lock_key k = false -> k <> "index" -> k <> "index.gen" -> s' !! k = st !! k).
  assert (HE : forall s', same s' -> only_lost J s s').
  { intros s' Hs' k H1 H2 H3. rewrite (Hs' k) by done. by apply Hlost. }
  eapply triple_weaken; [apply (triple_save_state e draws fence r1 (agree st) (fun s' => same s' /\ index_of e s' (chunk_index r1)) (only_lost J s)); try done| done | |done].
  - by apply fence_agree.
  - intros s' Ha. apply HE. intros k H1 _ H3. by apply Ha.
  - intros s' d Ha Hix. split; [|done]. intros k H1 H2 H3. rewrite lookup_insert_ne by done. by apply Ha.
  - intros s' d [Hs' (data & g & Hd & Hdec)]. split; [intros k H1 H2 H3; rewrite lookup_insert_ne by done; by apply Hs'|]. exists data, g. by rewrite lookup_insert_ne.
  - intros s' [Hs' _]. by apply HE.
  - intros r' s' [[Hs' Hix] _]. split; [by apply HE|by apply Hrep].
Qed.

(** What the report names: keys a repair may delete. *)
Definition reported (r : Repository) (scan : ScanResult) (k : string) : Prop :=
  k = "snapshots/.repair-probe" \/ InvalidSnapshotKey k ∈ issues scan \/
  (exists id n, k = snapshot_storage_key id /\ CorruptSnapshot id n ∈ issues scan) \/
  exists en, en ∈ manifest r /\ k = key_of en /\ (Exists (names_doom (snap_name en)) (issues scan) \/
    exists R id, snapshot_chunk_refs scan !! snap_name en = Some R /\ id ∈ R /\ lost_chunk (issues scan) (group_by_pack ∅ (chunk_index r)) id).

Lemma reported_prefix s r scan k : scan_found s r scan -> reported r scan k -> starts_with k "snapshots/" = true.
Proof.
  intros Hsf [->|[Hi|[(id & n & -> & _)|(en & _ & -> & _)]]]; [done|by apply (sf_invalid _ _ _ Hsf)|apply snapshot_storage_key_prefix|apply snapshot_storage_key_prefix].
Qed.

Lemma execute_triple full s r scan c p (J := reported r scan) :
  repairable full s r -> scan_found s r scan -> cache_sound plain c ->
  p = build_repair_plan (issues scan) (group_by_pack ∅ (chunk_index r)) (snapshot_chunk_refs scan) ->
  triple (fun st => kept J s (manifest r) st (manifest r)) (execute_repair e draws fence r c p (issues scan))
    (fun y => repair_done J s r (issues scan) y.2) (only_lost J s).
Proof.
  intros Hra Hsf Hc ->. pose proof (build_plan_sound (issues scan) (group_by_pack ∅ (chunk_index r)) (snapshot_chunk_refs scan)) as Hwhy.
  pose proof (reported_prefix s r scan) as HJ. specialize (fun k => HJ k Hsf).
  pose proof (build_plan_ok (issues scan) (group_by_pack ∅ (chunk_index r)) (snapshot_chunk_refs scan)) as Hplan.
  set (actions := plan_actions _) in *. destruct (pl_removed _ _ _ _ Hplan) as (removed & Hw & Hdoom).
  pose proof (ra_manifest _ _ _ Hra) as Hm. unfold execute_repair. fold actions.
  destruct (read_failure (issues scan)) eqn:Hrf; [apply triple_fail; intros st Hk; by apply shrunk_lost, Hk|].
  eapply triple_bind; [eapply triple_weaken; [apply (step1_triple J s (manifest r) Hm actions)| | |apply shrunk_lost]; [| |done|done]|].
  { by eapply actions_named. }
  { intros id n Ha%Hwhy. right; right; left. by exists id, n. }
  intros pg1. eapply triple_bind with (R := fun pg2 st => (chunk_index (pg_repo pg2) = chunk_index r) /\ kept J s (manifest r) st (manifest (pg_repo pg2)) /\ corrupt_erased actions st).
  { apply triple_pure_pre. intros [E1 _]. eapply triple_weaken; [apply (step2_triple J s (manifest r) actions) with (G := corrupt_erased actions)| | |apply shrunk_lost].
    - intros key Ha%Hwhy. right; by left.
    - intros st k. apply erased_delete.
    - done.
    - intros pg2 st (-> & ? & ?). done. }
  intros pg2. apply triple_pure_pre. intros E2. cbv zeta.
  pose proof (fold_shrinks (chunk_index r) removed remove_dangling actions pg2 (remove_dangling_shrinks _ _) ltac:(by rewrite E2) Hw) as S3.
  set (pg3 := foldl remove_dangling pg2 actions) in *.
  pose proof (fold_shrinks (chunk_index r) removed remove_content actions pg3 (remove_content_shrinks _ _) ltac:(destruct S3 as (_ & _ & S3 & _); by rewrite <- E2) Hw) as S4.
  set (pg4 := foldl remove_content pg3 actions) in *.
  pose proof (shrinks_trans _ _ _ _ S3 S4) as (Em & _ & Hsub & Hsame). rewrite E2 in Hsub, Hsame.
  assert (Hmiss : forall q id en, MissingPack q ∈ issues scan -> chunk_index (pg_repo pg4) !! id = Some en -> pack_id en <> q).
  { intros q id en Hq Hen. destruct (pl_missing _ _ _ _ Hplan q Hq) as [n Hn]. eapply (dangling_gone q n actions pg2 Hn). fold pg3.
    eapply lookup_weaken; [exact Hen|]. apply S4. }
  eapply triple_bind; [eapply triple_weaken; [apply (step5_triple J s (manifest r) Hm actions)| | |apply shrunk_lost]; [|apply (erased_delete actions)| |done]|].
  { intros name n en Ha%Hwhy Hen <-. right; right; right. by exists en. }
  { intros st [Hk He]. by rewrite Em. }
  intros [pg5 gone]. cbn [fst snd]. apply triple_eq. intros st (E5 & Hk & He & Hoff & Hd).
  assert (Hsurv : List.filter (fun en => negb (bool_decide (snap_name en ∈ gone))) (manifest (pg_repo pg5)) = manifest (pg_repo pg5)).
  { clear -Hoff. induction (manifest (pg_repo pg5)) as [|en m IH]; [done|]. cbn [List.filter]. rewrite bool_decide_false by (apply Hoff, list_elem_of_here).
    cbn [negb]. f_equal. apply IH. intros x Hx. apply Hoff. by right. }
  rewrite Hsurv. rewrite <- E5 in Hsub, Hsame, Hmiss.
  assert (Hnd : NoDup (snap_name <$> manifest (pg_repo pg5))) by (eapply sublist_NoDup; [apply (mf_names _ Hm)|apply fmap_sublist, (kp_sub _ _ _ _ _ Hk)]).
  eapply triple_bind.
  { eapply triple_weaken; [apply (count_all_answers st (pg_repo pg5) (manifest (pg_repo pg5)) ∅ c)|done|done| ]; [ |intros en; by apply find_snapshot_NoDup|done|].
    - apply (lost_reads e plain full); [|eapply placed_sub; [apply stored_placed, (ra_stored _ _ _ Hra)|done]].
      intros q. rewrite (shrunk_pack J HJ s st q (kp_shrunk _ _ _ _ _ Hk)). apply (ra_packs _ _ _ Hra).
    - intros ? ->. apply shrunk_lost, Hk. }
  intros [counts c']. apply triple_eq. intros st' [-> (ls & Hls & Hcounts)]. cbn [fst] in *. subst counts.
  set (r6 := set_chunk_index _ _).
  eapply triple_bind with (R := fun _ s' => repair_done J s r (issues scan) (pg_errors pg5) s').
  2:{ intros r7. by apply triple_ret. }
  eapply triple_weaken; [apply (save_keeps J s r6 st (fun s' => pg_errors pg5 = [] -> exists ix', repaired (issues scan) (chunk_index r) s' ix'))| intros ? ->; apply agree_refl|done|done].
  - apply shrunk_lost, Hk.
  - done.
  - apply (rebuild_fits (chunk_index r)); [apply (ra_fits _ _ _ Hra)|done|]. intros id n Hn. by apply tally_some in Hn as [? _].
  - intros s' Hs' Hof Herr. exists (chunk_index r6).
    by eapply (rebuilt_repaired J HJ full s r scan Hra Hsf Hrf actions removed Hplan Hdoom st _ _ ls Hk He (Hd Herr) Hsub Hsame Hmiss Hls).
Qed.

Context (sample : Z -> Z -> gset nat).

Lemma scan_finds full s r verify c w scan c' w' :
  repairable full s r -> cache_sound plain c -> objects w = s ->
  integrity_scan e sample r (repair_options verify) c w = (Ok (scan, c'), w') ->
  objects w' = s /\ scan_found s r scan /\ cache_sound plain c'.
Proof.
  intros Hra Hc Hw Hrun. pose proof (find_snapshot_NoDup (manifest r)) as Hf. pose proof (mf_names _ (ra_manifest _ _ _ Hra)) as Hnd.
  destruct (scan_stages e sample s r (repair_options verify) c w _ _ _ (proj1 (ra_fits _ _ _ Hra)) eq_refl eq_refl Hw Hrun) as
    (orphans & st1 & w0 & w1 & ei & di & Hw0 & Hw' & Hsn & Hi & Hrefs & _ & Horph & Hei & Hpacks & Hdi & _).
  pose proof (scan_snapshots_spec e plain s r true (manifest r) (mkScan no_counters orphans ∅) c
    (lost_reads e plain full s r (ra_packs _ _ _ Hra) (stored_placed _ _ _ _ (ra_stored _ _ _ Hra))) (fun en => Hf en Hnd) Hc) as Hspec.
  destruct (answers_run s _ _ _ _ _ Hspec Hw0 Hsn) as [_ Hx]. destruct (Hx _ eq_refl) as [(new & Hnew & _ & Hblame & Hall & _) Hc']. cbn [fst snd] in *.
  split; [done|]. split; [|done]. change (issues (mkScan no_counters orphans ∅)) with orphans in Hnew. rewrite Forall_forall in Horph, Hei, Hdi, Hblame.
  assert (Hcases : forall i, i ∈ issues scan -> (i ∈ orphans) \/ (i ∈ new) \/ (i ∈ ei) \/ i ∈ di).
  { intros i. rewrite Hi, Hnew, !elem_of_app. tauto. }
  constructor.
  - intros id n Hin. destruct (Hcases _ Hin) as [Ho|[Hn|[He|Hd]]].
    + by destruct (Horph _ Ho) as [[=] _].
    + destruct (Hblame _ Hn) as (en & Hen & -> & [= ->]). by exists en.
    + by apply Hei in He.
    + by apply Hdi in Hd.
  - intros key Hin. destruct (Hcases _ Hin) as [Ho|[Hn|[He|Hd]]].
    + destruct (Horph _ Ho) as (hex & Hs & _). by eapply starts_with_strip.
    + by destruct (Hblame _ Hn) as (en & _ & ?).
    + by apply Hei in He.
    + by apply Hdi in Hd.
  - intros en Hen. destruct (Hall en Hen) as [(i & Hin & Hb)|(ids & Hwh & Hcol)]; [left|right].
    + exists i. split; [|done]. rewrite Hi, Hnew, !elem_of_app. auto.
    + exists ids. split; [done|]. intros E x Hin. destruct (Hcol eq_refl x Hin) as (R & HR & ?). exists R. by rewrite Hrefs.
  - intros id en Hen Hn. rewrite Hi. destruct (Hpacks id en Hen Hn) as [?|[d ?]]; [left|right; exists d]; rewrite !elem_of_app; auto.
Qed.

(** A repaired repository whose packs could all be looked up is one that
    backups, prunes and compactions keep: it is covered, with equality. *)
Lemma repaired_covered found ix s' ix' :
  repaired found ix s' ix' -> (forall p d, PackExistenceCheckFailed p d ∉ found) -> covered e plain s' ix'.
Proof.
  intros [H1 H2 H3 H4 H5 H6] Hno. constructor; [done..| |intros id; by rewrite H4].
  intros id en Hen. destruct (H6 id en Hen) as [|[d Hd]]; [done|]. by destruct (Hno _ _ Hd).
Qed.

(** C18. What a repair does to the repository.  For a repository that has lost
    packs or snapshot objects or whose reference counts are wrong, whatever
    storage faults the run meets: once the scan has answered, applying the
    plan changes, besides the index and locks, only snapshot objects that the
    report of the scan names, and never a pack, also when the repair fails half
    way.  The report names invalid keys, snapshots it found corrupt or
    unreadable, snapshots with chunks that are not in the index, and snapshots
    with a chunk that the scan reported as corrupt or whose pack it reported as
    missing or corrupt (and the key that is deleted to see whether deletions
    are allowed).  That a chunk is reported does not mean it is damaged: a read
    that fails for a moment while data is verified is reported as a corrupt
    chunk (check.rs:1353, against the intent of the comment at check.rs:1721),
    and the repair then deletes healthy snapshots
    ([transient_read_loses_snapshots]).  If the repair succeeds without an
    error, the index in the store is one whose counts are exactly the
    references of the snapshots that are left, whose entries are those of the
    old index, and whose chunks are all in the store and can be decrypted,
    except for packs whose existence the report says could not be checked. *)
Theorem repair_restores_index full s r verify faults c scan c1 w1 o w' :
  repairable full s r -> c = cache_new BLOB_CACHE_MAX_BYTES ->
  integrity_scan e sample r (repair_options verify) c (mkWorld s faults) = (Ok (scan, c1), w1) ->
  scan_and_repair e draws fence sample Apply verify r c (mkWorld s faults) = (o, w') ->
  only_lost (reported r scan) s (objects w') /\
  match o with
  | Ok (x, _) => repair_errors x = [] -> exists ix', repaired (issues scan) (chunk_index r) (objects w') ix'
  | Err _ => True
  end.
Proof.
  intros Hra -> Hscan. unfold scan_and_repair. unfold mbind at 1. unfold M_bind at 1. rewrite Hscan. cbn beta iota zeta.
  assert (Hc : cache_sound plain (cache_new BLOB_CACHE_MAX_BYTES)) by (by intros id d).
  destruct (scan_finds full s r verify _ (mkWorld s faults) scan c1 w1 Hra Hc eq_refl Hscan) as (Hw1 & Hsf & Hc1).
  set (p := build_repair_plan _ _ _). intros Hrun.
  assert (Ht : triple (fun st => st = s)
    (allowed ← (if has_data_loss p then probe_deletes_allowed else mret true);
     if negb allowed then fail (Other "repair requires deleting immutable snapshot objects; not supported on append-only backends")
     else y ← execute_repair e draws fence r c1 p (issues scan);
       let '(r0, applied, errors) := y in mret (mkRepairResult (result_of_scan scan) p applied errors, r0))
    (fun z => repair_done (reported r scan) s r (issues scan) (repair_errors z.1)) (only_lost (reported r scan) s)).
  { eapply triple_bind with (R := fun _ st => kept (reported r scan) s (manifest r) st (manifest r)).
    - destruct (has_data_loss p); [|apply triple_ret; intros st ->; apply kept_refl].
      eapply triple_bind; [apply triple_try_del with (Q := fun _ st => kept (reported r scan) s (manifest r) st (manifest r))|intros x; by apply triple_ret].
      assert (Hprobe : reported r scan "snapshots/.repair-probe") by by left.
      intros st ->. pose proof (kept_refl (reported r scan) s (manifest r)) as Hk. split; [|intros er; split; [done|]]; by apply kept_delete.
    - intros allowed. destruct (negb allowed); [apply triple_fail; intros st Hk; by eapply shrunk_lost, kp_shrunk|].
      eapply triple_bind; [by apply (execute_triple full)|]. intros [[r' applied] errors]. by apply triple_ret. }
  specialize (Ht w1 Hw1). rewrite Hrun in Ht. destruct o as [[x r']|er]; [|done]. exact Ht.
Qed.
End RepairLaws.

(** ** A repair

    Snapshot [a] has its file in pack 1, which is lost; snapshot [b] and the
    item streams are in pack 2.  The counts are wrong, and there is a key that
    names no snapshot. *)
Definition rx_item (n : Z) : Item :=
  mkItem "f" RegularFile 420 0 0 None None 0 None None 2 [mkChunkRef (ex_read_id n) 2 4] None None.
Definition rx_plain (id : ChunkId) : bytes :=
  if decide (id = ex_read_id 1) then [7; 7] else if decide (id = ex_read_id 3) then [8; 8]
  else if decide (id = ex_read_id 2) then encode_item (rx_item 1) else encode_item (rx_item 3).
Definition rx_blob (n : Z) : bytes :=
  match compressed ← compress CNone (rx_plain (ex_read_id n));
    pack_object_with_context sn_engine OChunkData (chunk_bytes (ex_read_id n)) compressed [] with
  | Ok blob => blob
  | Err _ => []
  end.
Definition rx_ix : ChunkIndex :=
  <[ex_read_id 1 := mkEntry 9 4 (cx_pack 1) 13]>
  (<[ex_read_id 2 := mkEntry 9 (blen (rx_blob 2)) (cx_pack 2) 13]>
  (<[ex_read_id 3 := mkEntry 9 4 (cx_pack 2) (17 + blen (rx_blob 2))]>
  {[ex_read_id 4 := mkEntry 9 (blen (rx_blob 4)) (cx_pack 2) (25 + blen (rx_blob 2))]})).
Definition rx_object (n : Z) (name : string) (ptr : Z) : bytes :=
  match pack_object_with_context sn_engine OSnapshotMeta (snapshot_bytes (sn_id n))
    (mp_encode (mkMeta name "host" "user" 0 0 (mkChunker 1 2 3) "" [ex_read_id ptr] (mkStats 1 2 2 2 0) "" [] "")) [] with
  | Ok d => d
  | Err _ => []
  end.
Definition rx_repo : Repository := mkRepo [sn_entry 3 "a" 0; sn_entry 4 "b" 100] rx_ix 9 false 0.
Definition rx_full : Store :=
  <[pack_storage_key (cx_pack 1) := pack_of [rx_blob 1]]>
  (<[snapshot_storage_key (sn_id 3) := rx_object 3 "a" 2]>
  (<[snapshot_storage_key (sn_id 4) := rx_object 4 "b" 4]>
  (<["snapshots/zz" := [1]]>
  {[pack_storage_key (cx_pack 2) := pack_of [rx_blob 2; rx_blob 3; rx_blob 4]]}))).
Definition rx_store : Store := delete (pack_storage_key (cx_pack 1)) rx_full.

Definition rx_run := scan_and_repair sn_engine sn_draws (mret tt) cx_sample Apply false rx_repo (cache_new BLOB_CACHE_MAX_BYTES) (mkWorld rx_store []).

Lemma rx_repairable : repairable sn_engine rx_plain rx_full rx_store rx_repo.
Proof.
  constructor.
  - constructor; by_eval.
  - intros k d Hk Hp Hr. assert (Hall : map_Forall (fun k d => starts_with k "snapshots/" = true -> key_refs sn_engine rx_plain k d <> [] ->
      k ∈ (fun en => snapshot_storage_key (snap_id en)) <$> manifest rx_repo) rx_store) by by_eval. by apply (Hall k d Hk).
  - intros p. unfold rx_store. destruct (decide (pack_storage_key (cx_pack 1) = pack_storage_key p)) as [E|E]; [left; apply lookup_delete_None; by left|right; by apply lookup_delete_ne].
  - assert (H2 : rx_full !! pack_storage_key (cx_pack 2) = Some (pack_of [rx_blob 2; rx_blob 3; rx_blob 4])) by (vm_compute; reflexivity).
    intros id en. unfold chunk_index, rx_repo, rx_ix.
    intros [[<- <-]|[_ Hen]]%lookup_insert_Some; [|apply lookup_insert_Some in Hen as [[<- <-]|[_ Hen]]; [|apply lookup_insert_Some in Hen as [[<- <-]|[_ [<- <-]%lookup_singleton_Some]]]].
    + exists [rx_blob 1], 0%nat, (rx_blob 1). split; [vm_compute; reflexivity|]. split; [by_eval|]. split; [reflexivity|]. split; vm_compute; reflexivity.
    + exists [rx_blob 2; rx_blob 3; rx_blob 4], 0%nat, (rx_blob 2). split; [exact H2|]. split; [by_eval|]. split; [reflexivity|]. split; vm_compute; reflexivity.
    + exists [rx_blob 2; rx_blob 3; rx_blob 4], 1%nat, (rx_blob 3). split; [exact H2|]. split; [by_eval|]. split; [reflexivity|]. split; vm_compute; reflexivity.
    + exists [rx_blob 2; rx_blob 3; rx_blob 4], 2%nat, (rx_blob 4). split; [exact H2|]. split; [by_eval|]. split; [reflexivity|]. split; vm_compute; reflexivity.
  - split; [by_eval|]. vm_compute. discriminate.
  - intros en d m items it Hen Hd Hm Hit Hin Hty. cbn [manifest rx_repo] in Hen.
    apply elem_of_cons in Hen as [->| ->%list_elem_of_singleton]; vm_compute in Hd; injection Hd as <-; vm_compute in Hm; injection Hm as <-;
      vm_compute in Hit; injection Hit as <-; apply list_elem_of_singleton in Hin as ->; by destruct Hty.
  - intros id. assert (Hle : references sn_engine rx_plain rx_store id <= rc rx_ix id) by (eapply references_count; [vm_compute; reflexivity|by_eval|by_eval]).
    assert (Hwf : wf_index rx_ix) by by_eval. assert (rc rx_ix id < u32_modulus); [|lia]. unfold rc.
    destruct (rx_ix !! id) as [en|] eqn:E; [|reflexivity]. cbn. destruct (Hwf id en E) as (_ & [_ Hlt] & _). exact Hlt.
Qed.

Lemma repair_restores_index_witness :
  (exists ix', covered sn_engine rx_plain (objects rx_run.2) ix' /\ forall id, rc ix' id = references sn_engine rx_plain (objects rx_run.2) id) /\
  objects rx_run.2 !! snapshot_storage_key (sn_id 4) = rx_store !! snapshot_storage_key (sn_id 4) /\
  objects rx_run.2 !! snapshot_storage_key (sn_id 3) = None.
Proof.
  assert (Hd : forall n : nat, u64 (sn_draws n).1 /\ length (sn_draws n).2 = NONCE_LEN).
  { intros n. split; [vm_compute; split; [discriminate|reflexivity]|reflexivity]. }
  assert (Hfence : only_locks (mret tt)) by (intros w k _; reflexivity).
  split; [|split; vm_compute; reflexivity].
  destruct (integrity_scan sn_engine cx_sample rx_repo (repair_options false) (cache_new BLOB_CACHE_MAX_BYTES) (mkWorld rx_store [])) as [[[scan c1]|er] w1] eqn:Hscan.
  2:{ exfalso. apply (f_equal (fun x => is_ok x.1)) in Hscan. vm_compute in Hscan. discriminate Hscan. }
  destruct (repair_restores_index sn_engine rx_plain sn_draws (mret tt) Hd Hfence cx_sample rx_full rx_store rx_repo false [] _ scan c1 w1
    rx_run.1 rx_run.2 rx_repairable eq_refl Hscan) as [_ Hok]; [unfold rx_run; by destruct (scan_and_repair _ _ _ _ _ _ _ _ _)|].
  destruct rx_run.1 as [[x r']|er] eqn:Hx.
  2:{ exfalso. apply (f_equal is_ok) in Hx. vm_compute in Hx. discriminate Hx. }
  assert (He : repair_errors x = []).
  { apply (f_equal (fun o => match o with Ok (x, _) => repair_errors x | Err _ => [EmptyString] end)) in Hx. vm_compute in Hx. by symmetry. }
  destruct (Hok He) as [ix' Hr]. exists ix'. split; [|apply Hr]. eapply repaired_covered; [exact Hr|].
  assert (Hno : Forall (fun i => match i with PackExistenceCheckFailed _ _ => False | _ => True end) (issues scan)).
  { apply (f_equal (fun o => match o.1 with Ok (st, _) => issues st | Err _ => [] end)) in Hscan. cbv beta iota in Hscan. cbn [fst] in Hscan.
    match type of Hscan with ?l = _ => let l' := eval vm_compute in l in replace l with l' in Hscan by (vm_compute; reflexivity) end.
    rewrite <- Hscan. by repeat constructor. }
  rewrite Forall_forall in Hno. intros p d Hin. by apply Hno in Hin.
Defined.

(** One read that fails while the data is verified is enough: the healthy
    repository of Check.v loses both its snapshots, and the run reports
    success. *)
Lemma transient_read_loses_snapshots :
  let o := scan_and_repair sn_engine sn_draws (mret tt) cx_sample Apply true (cx_repo 2) (cache_new BLOB_CACHE_MAX_BYTES)
    (mkWorld (cx_store 2) (replicate 8 NoFault ++ [FailBefore])) in
  is_ok o.1 = true /\ objects o.2 !! snapshot_storage_key (sn_id 3) = None /\ objects o.2 !! snapshot_storage_key (sn_id 4) = None /\
  is_Some (cx_store 2 !! snapshot_storage_key (sn_id 3)) /\ is_Some (cx_store 2 !! snapshot_storage_key (sn_id 4)).
Proof. cbv zeta. split_and!; [vm_compute; reflexivity..| |]; (eexists; vm_compute; reflexivity). Qed.
