(* ===== verification/FileCache.v ===== *)
(** * The file cache (crates/vykar-core/src/repo/file_cache.rs)

    A local file remembers, for every file of the last backup, its metadata
    and the chunks it was stored as; a file whose metadata has not changed is
    not read again.  The entries are kept in one section per source root, and
    each section names the snapshot it belongs to.  Without a section the
    items of the last snapshot serve instead.  Paths are those of Unix;
    BLAKE2b with 16 bytes of output is an argument [blake2b_16], and a panic
    is [None]. *)

From S2P Require Import Prelude Types Storage ChunkIndex Pack.
From S2P Require Import Crypto Format Compress DedupCache Retention Lock Repo ReadPath Snapshots.
#[local] Open Scope string_scope.
#[local] Open Scope list_scope.
#[local] Open Scope Z_scope.

(** ** Paths (std::path) *)

(** [Path::components]: the root, a leading dot of a relative path, and the
    names between slashes. *)
Definition components (p : string) : list string :=
  let parts := List.filter (fun c => negb (String.eqb c "")) (split_on "/" p) in
  if starts_with p "/" then "/" :: List.filter (fun c => negb (String.eqb c ".")) parts
  else
    match parts with
    | c :: parts' => c :: List.filter (fun c => negb (String.eqb c ".")) parts'
    | [] => []
    end.

(** [Path::starts_with]. *)
Definition path_starts_with (p base : string) : bool :=
  bool_decide (take (length (components base)) (components p) = components base).

Fixpoint ends_with_slash (s : string) : bool :=
  match s with
  | EmptyString => false
  | String a EmptyString => Ascii.eqb a "/"
  | String _ s' => ends_with_slash s'
  end.

(** [Path::join]. *)
Definition join_path (base p : string) : string :=
  if starts_with p "/" then p
  else if String.eqb base "" || ends_with_slash base then base +:+ p
  else base +:+ "/" +:+ p.

(** [str::find('/')] with the parts before and after. *)
Fixpoint find_slash (s : string) : option (string * string) :=
  match s with
  | EmptyString => None
  | String a s' =>
      if Ascii.eqb a "/" then Some (EmptyString, s')
      else match find_slash s' with Some (x, y) => Some (String a x, y) | None => None end
  end.

(** ** The cache *)

Record FileCacheEntry := mkFileEntry {
  fe_device : Z;
  fe_inode : Z;
  fe_mtime_ns : Z;
  fe_ctime_ns : Z;
  fe_size : Z;
  fe_chunk_refs : list ChunkRef;
}.

(** What [stat] says of a file; [MetadataSummary] without owner and mode. *)
Record FileStamp := mkStamp { st_device : Z; st_inode : Z; st_mtime_ns : Z; st_ctime_ns : Z; st_size : Z }.

Abbreviation PathHash := bytes (only parsing).

Record CacheSection := mkSection { anchor_snapshot_id : SnapshotId; section_entries : gmap PathHash FileCacheEntry }.

Record FileCache := mkFileCache { sections : gmap string CacheSection; active_keys : list string }.

#[export] Instance FileStamp_eq_dec : EqDecision FileStamp.
Proof. solve_decision. Defined.

Definition fc_new : FileCache := mkFileCache ∅ [].

(** [sort_by_key(|k| Reverse(k.len()))]. *)
Definition sort_longest_first (l : list string) : list string :=
  sort_by (fun a b => (String.length b <=? String.length a)%nat) l.

Definition zero_anchor : SnapshotId := mkSnapshotId (replicate 32 0).

Section FileCache.
Context (blake2b_16 : bytes -> bytes).

Definition hash_path (path : string) : PathHash := blake2b_16 (str_bytes path).

Definition find_section_key (c : FileCache) (path : string) : option string :=
  List.find (fun key => path_starts_with path key) (active_keys c).

Definition begin_sections (roots : list string) (c : FileCache) : FileCache :=
  mkFileCache (foldl (fun m root => <[root := mkSection zero_anchor ∅]> m) (sections c) roots) (sort_longest_first roots).

Definition activate_for_walk_roots (roots : list string) (c : FileCache) : bool * FileCache :=
  let has root := bool_decide (is_Some (sections c !! root)) in
  (forallb has roots, mkFileCache (sections c) (sort_longest_first (List.filter has roots))).

Definition clear_active_for_lookup (c : FileCache) : FileCache := mkFileCache (sections c) [].

Definition stamp_of (en : FileCacheEntry) : FileStamp :=
  mkStamp (fe_device en) (fe_inode en) (fe_mtime_ns en) (fe_ctime_ns en) (fe_size en).

Definition fc_lookup (c : FileCache) (path : string) (stamp : FileStamp) : option (list ChunkRef) :=
  key ← find_section_key c path;
  section ← sections c !! key;
  en ← section_entries section !! hash_path path;
  if (fe_device en =? st_device stamp) && (fe_inode en =? st_inode stamp) && (fe_mtime_ns en =? st_mtime_ns stamp)
     && (fe_ctime_ns en =? st_ctime_ns stamp) && (fe_size en =? st_size stamp)
  then Some (fe_chunk_refs en)
  else None.

(** One turn of the loop; [None] where [expect] panics. *)
Definition insert_section (h : PathHash) (en : FileCacheEntry) (o : option (gmap string CacheSection)) (key : string) :
    option (gmap string CacheSection) :=
  m ← o;
  section ← m !! key;
  Some (<[key := mkSection (anchor_snapshot_id section) (<[h := en]> (section_entries section))]> m).

Definition fc_insert (path : string) (stamp : FileStamp) (refs : list ChunkRef) (c : FileCache) : option FileCache :=
  let en := mkFileEntry (st_device stamp) (st_inode stamp) (st_mtime_ns stamp) (st_ctime_ns stamp) (st_size stamp) refs in
  let matching := List.filter (fun key => path_starts_with path key) (active_keys c) in
  match matching with
  | [] => None
  | _ => m ← foldl (insert_section (hash_path path) en) (Some (sections c)) matching; Some (mkFileCache m (active_keys c))
  end.

Definition fc_contains (c : FileCache) (path : string) : bool :=
  match find_section_key c path with
  | None => false
  | Some key =>
      match sections c !! key with
      | None => false
      | Some section => bool_decide (is_Some (section_entries section !! hash_path path))
      end
  end.

Definition finalize_section (id : SnapshotId) (o : option (gmap string CacheSection)) (key : string) : option (gmap string CacheSection) :=
  m ← o; section ← m !! key; Some (<[key := mkSection id (section_entries section)]> m).
Definition finalize_sections (id : SnapshotId) (c : FileCache) : option FileCache :=
  m ← foldl (finalize_section id) (Some (sections c)) (active_keys c); Some (mkFileCache m (active_keys c)).

(** The sections in the order of the keys; a key that comes twice is there
    only once. *)
Fixpoint take_sections (keys : list string) (m : gmap string CacheSection) : list (string * CacheSection) * gmap string CacheSection :=
  match keys with
  | [] => ([], m)
  | key :: keys' =>
      match m !! key with
      | Some section => let '(l, m') := take_sections keys' (delete key m) in ((key, section) :: l, m')
      | None => take_sections keys' m
      end
  end.
Definition take_active_sections (c : FileCache) : list (string * CacheSection) * FileCache :=
  let '(l, m) := take_sections (active_keys c) (sections c) in (l, mkFileCache m []).

Definition merge_section (label : string) (section : CacheSection) (c : FileCache) : FileCache :=
  mkFileCache (<[label := section]> (sections c)) (active_keys c).

(** How a commit takes the new sections over. *)
Definition merge_sections (l : list (string * CacheSection)) (c : FileCache) : FileCache :=
  foldl (fun c ls => merge_section ls.1 ls.2 c) c l.

Definition invalidate_missing_snapshots (exists_ : SnapshotId -> bool) (c : FileCache) : nat * FileCache :=
  let m := filter (fun ls => exists_ (anchor_snapshot_id ls.2) = true) (sections c) in
  ((size (sections c) - size m)%nat, mkFileCache m (active_keys c)).

Definition missing_roots (c : FileCache) (roots : list string) : list string :=
  List.filter (fun root => bool_decide (sections c !! root = None)) roots.

Definition section_len (c : FileCache) (root : string) : nat :=
  match sections c !! root with Some s => size (section_entries s) | None => 0%nat end.

Definition fc_len (c : FileCache) : nat := map_fold (fun _ s n => (size (section_entries s) + n)%nat) 0%nat (sections c).

(** ** On disk *)

Definition MIN_BYTES_PER_ENTRY : Z := 40.
Definition MAX_FILE_CACHE_PLAINTEXT : Z := 256 * 1024 * 1024.
Definition FILE_CACHE_CONTEXT : bytes := str_bytes "filecache".

Context (e : CryptoEngine) `{Hfc : MsgPack (gmap string CacheSection)}.

Definition decode_from_plaintext (plaintext : bytes) : FileCache :=
  if MAX_FILE_CACHE_PLAINTEXT <? blen plaintext then fc_new
  else
    match mp_decode plaintext with
    | Some m =>
        let cache := mkFileCache m [] in
        if blen plaintext / MIN_BYTES_PER_ENTRY <? Z.of_nat (fc_len cache) then fc_new else cache
    | None => fc_new
    end.

Definition file_cache_load (file : option bytes) : FileCache :=
  match file with
  | None => fc_new
  | Some data =>
      match unpack_object_expect_with_context e data OFileCache FILE_CACHE_CONTEXT with
      | Ok plaintext => decode_from_plaintext plaintext
      | Err _ => fc_new
      end
  end.

Definition file_cache_save (nonce : bytes) (c : FileCache) : res bytes :=
  pack_object_streaming_with_context e OFileCache FILE_CACHE_CONTEXT nonce (fun buf => Ok (buf ++ mp_encode (sections c))).

(** ** The last snapshot as a cache *)

Record ParentEntry := mkParent { pr_mtime_ns : Z; pr_ctime_ns : Z; pr_size : Z; pr_chunk_refs : list ChunkRef }.

Abbreviation ParentReuseIndex := (gmap PathHash ParentEntry).

Record ParentReuseBuilder := mkParentBuilder {
  pb_entries : ParentReuseIndex;
  walk_roots : list (string * string);
  multi_path : bool;
  legacy_abort : bool;
}.

Definition parent_new (roots : list (string * string)) (multi : bool) : ParentReuseBuilder := mkParentBuilder ∅ roots multi false.

Definition reconstruct_abs_path (item_path : string) (roots : list (string * string)) (multi : bool) : string :=
  if multi then
    match find_slash item_path with
    | Some (prefix, rel) =>
        match List.find (fun br => String.eqb br.1 prefix) roots with
        | Some br => join_path br.2 rel
        | None => item_path
        end
    | None => item_path
    end
  else
    match roots with
    | br :: _ => join_path br.2 item_path
    | [] => item_path
    end.

Definition parent_push (item : Item) (b : ParentReuseBuilder) : bool * ParentReuseBuilder :=
  if legacy_abort b then (false, b)
  else if negb (bool_decide (entry_type item = RegularFile)) then (true, b)
  else if starts_with (item_path item) "vykar-dumps/" then (true, b)
  else
    match ctime item with
    | None => (false, mkParentBuilder (pb_entries b) (walk_roots b) (multi_path b) true)
    | Some ctime_ns =>
        let abs_path := reconstruct_abs_path (item_path item) (walk_roots b) (multi_path b) in
        (true, mkParentBuilder
          (<[hash_path abs_path := mkParent (mtime item) ctime_ns (item_size item) (item_chunks item)]> (pb_entries b))
          (walk_roots b) (multi_path b) false)
    end.

Definition parent_finish (b : ParentReuseBuilder) : option ParentReuseIndex :=
  if legacy_abort b then None else Some (pb_entries b).

Definition parent_lookup (ix : ParentReuseIndex) (abs_path : string) (stamp : FileStamp) : option (list ChunkRef) :=
  en ← ix !! hash_path abs_path;
  if (pr_size en =? st_size stamp) && (pr_mtime_ns en =? st_mtime_ns stamp) && (pr_ctime_ns en =? st_ctime_ns stamp)
  then Some (pr_chunk_refs en)
  else None.
End FileCache.

(** ** Laws *)

(** A file that is noted. *)
Record Noted := mkNoted { nt_path : string; nt_stamp : FileStamp; nt_refs : list ChunkRef }.

Section Laws.
Context (blake2b_16 : bytes -> bytes).
#[local] Abbreviation hash := (hash_path blake2b_16).

Fixpoint insert_all (ins : list Noted) (c : FileCache) : option FileCache :=
  match ins with
  | [] => Some c
  | i :: ins' => c' ← fc_insert blake2b_16 (nt_path i) (nt_stamp i) (nt_refs i) c; insert_all ins' c'
  end.

(** What was noted of a path last. *)
Definition recorded (ins : list Noted) (path : string) : option Noted :=
  foldl (fun o i => if decide (nt_path i = path) then Some i else o) None ins.

Definition entry_of (i : Noted) : FileCacheEntry :=
  mkFileEntry (st_device (nt_stamp i)) (st_inode (nt_stamp i)) (st_mtime_ns (nt_stamp i)) (st_ctime_ns (nt_stamp i))
    (st_size (nt_stamp i)) (nt_refs i).

Definition note_under (r : string) (m : gmap PathHash FileCacheEntry) (i : Noted) : gmap PathHash FileCacheEntry :=
  if path_starts_with (nt_path i) r then <[hash (nt_path i) := entry_of i]> m else m.

(** Every key has got the entry. *)
Lemma insert_section_spec h en keys : forall m, (forall k, k ∈ keys -> is_Some (m !! k)) ->
  exists m', foldl (insert_section h en) (Some m) keys = Some m' /\
    forall k, m' !! k = if decide (k ∈ keys) then (fun s => mkSection (anchor_snapshot_id s) (<[h := en]> (section_entries s))) <$> m !! k else m !! k.
Proof.
  induction keys as [|k0 keys IH]; intros m Hk; cbn [foldl]; [by exists m|].
  destruct (Hk k0 (list_elem_of_here _ _)) as [s Hs]. unfold insert_section at 2. cbn [mbind option_bind]. rewrite Hs. cbn [mbind option_bind].
  destruct (IH (<[k0 := mkSection (anchor_snapshot_id s) (<[h := en]> (section_entries s))]> m)) as (m' & Hm & Hl).
  { intros k Hin. apply lookup_insert_is_Some'. right. apply Hk. by right. }
  exists m'. split; [done|]. intros k. rewrite Hl. destruct (decide (k0 = k)) as [<-|Hne].
  - rewrite lookup_insert_eq, Hs. rewrite (decide_True (P := k0 ∈ k0 :: keys)) by apply list_elem_of_here. cbn. case_decide; [|done]. cbn. by rewrite insert_insert_eq.
  - rewrite !lookup_insert_ne by done. destruct (decide (k ∈ keys)) as [Hin|Hn]; [rewrite decide_True by (by right); done|].
    rewrite decide_False; [done|]. intros [?|?]%elem_of_cons; done.
Qed.

Lemma matching_elem (path : string) keys k :
  k ∈ List.filter (fun key => path_starts_with path key) keys <-> (k ∈ keys /\ path_starts_with path k = true).
Proof. rewrite !list_elem_of_In. by rewrite List.filter_In. Qed.

Lemma insert_all_spec ins : forall c,
  (forall k, k ∈ active_keys c -> is_Some (sections c !! k)) ->
  (forall i, i ∈ ins -> exists r, r ∈ active_keys c /\ path_starts_with (nt_path i) r = true) ->
  exists c', insert_all ins c = Some c' /\ active_keys c' = active_keys c /\
    forall k, sections c' !! k = if decide (k ∈ active_keys c)
      then (fun s => mkSection (anchor_snapshot_id s) (foldl (note_under k) (section_entries s) ins)) <$> sections c !! k else sections c !! k.
Proof.
  induction ins as [|i ins IH]; intros c Hact Hin; cbn [insert_all].
  { exists c. split; [done|]. split; [done|]. intros k. case_decide; [|done]. cbn [foldl]. by destruct (sections c !! k) as [[]|]. }
  unfold fc_insert. set (matching := List.filter _ _). destruct (Hin i (list_elem_of_here _ _)) as (r & Hr & Hpr).
  assert (Hne : matching <> []).
  { intros E. assert (Hm : r ∈ matching) by (by apply matching_elem). rewrite E in Hm. by apply not_elem_of_nil in Hm. }
  destruct (insert_section_spec (hash (nt_path i)) (entry_of i) matching (sections c)) as (m' & Hm & Hl).
  { intros k [Hk _]%matching_elem. by apply Hact. }
  fold (entry_of i). destruct matching as [|k0 ks] eqn:Ems; [done|]. rewrite <- Ems in *. rewrite Hm. cbn [mbind option_bind].
  assert (Hsec : forall k, m' !! k = if decide (k ∈ active_keys c) then (fun s => mkSection (anchor_snapshot_id s) (note_under k (section_entries s) i)) <$> sections c !! k else sections c !! k).
  { intros k. rewrite Hl. destruct (decide (k ∈ matching)) as [Hk|Hk].
    - assert (k ∈ active_keys c /\ path_starts_with (nt_path i) k = true) as [H1 H2] by (by apply matching_elem). rewrite decide_True by done. unfold note_under. by rewrite H2.
    - case_decide as Ha; [|done]. unfold note_under. destruct (path_starts_with (nt_path i) k) eqn:Hp; [exfalso; apply Hk; by apply matching_elem|].
      by destruct (sections c !! k) as [[]|]. }
  destruct (IH (mkFileCache m' (active_keys c))) as (c' & H1 & H2 & H3).
  { intros k Hk. cbn [sections active_keys] in *. rewrite Hsec, decide_True by done. destruct (Hact k Hk) as [s Hs]. by rewrite Hs. }
  { intros j Hj. apply Hin. by right. }
  exists c'. split; [done|]. split; [done|]. intros k. rewrite H3. cbn [sections active_keys]. rewrite Hsec. case_decide; [|done].
  by destruct (sections c !! k) as [[]|].
Qed.

Lemma notes_lookup r ins path :
  path_starts_with path r = true -> (forall i, i ∈ ins -> hash (nt_path i) = hash path -> nt_path i = path) ->
  foldl (note_under r) ∅ ins !! hash path = entry_of <$> recorded ins path.
Proof.
  intros Hp Hinj. induction ins as [|i ins IH] using rev_ind; [done|]. unfold recorded. rewrite !foldl_app. cbn [foldl]. fold (recorded ins path).
  assert (IH' := IH ltac:(intros j Hj; apply Hinj; apply elem_of_app; by left)). clear IH. unfold note_under at 1. case_decide as E.
  - subst path. rewrite Hp. by rewrite lookup_insert_eq.
  - destruct (path_starts_with (nt_path i) r); [|done]. rewrite lookup_insert_ne; [done|]. intros Hh. apply E, Hinj; [apply elem_of_app; right; by apply list_elem_of_singleton|done].
Qed.

Lemma finalize_spec id keys : forall m, (forall k, k ∈ keys -> is_Some (m !! k)) ->
  exists m', foldl (finalize_section id) (Some m) keys = Some m' /\
    forall k, m' !! k = if decide (k ∈ keys) then (fun s => mkSection id (section_entries s)) <$> m !! k else m !! k.
Proof.
  induction keys as [|k0 keys IH]; intros m Hk; cbn [foldl]; [by exists m|].
  destruct (Hk k0 (list_elem_of_here _ _)) as [s Hs]. unfold finalize_section at 2. cbn [mbind option_bind]. rewrite Hs. cbn [mbind option_bind].
  destruct (IH (<[k0 := mkSection id (section_entries s)]> m)) as (m' & Hm & Hl).
  { intros k Hin. apply lookup_insert_is_Some'. right. apply Hk. by right. }
  exists m'. split; [done|]. intros k. rewrite Hl. destruct (decide (k0 = k)) as [<-|Hne].
  - rewrite lookup_insert_eq, Hs. rewrite (decide_True (P := k0 ∈ k0 :: keys)) by apply list_elem_of_here. by case_decide.
  - rewrite !lookup_insert_ne by done. destruct (decide (k ∈ keys)) as [Hin|Hn]; [rewrite decide_True by (by right); done|].
    rewrite decide_False; [done|]. intros [?|?]%elem_of_cons; done.
Qed.

Lemma merge_taken keys : forall m c k,
  sections (merge_sections (take_sections keys m).1 c) !! k =
    if decide (k ∈ keys) then match m !! k with Some s => Some s | None => sections c !! k end else sections c !! k.
Proof.
  induction keys as [|k0 keys IH]; intros m c k; cbn [take_sections]; [by rewrite decide_False by apply not_elem_of_nil|].
  destruct (m !! k0) as [s|] eqn:Hk0.
  - pose proof (IH (delete k0 m)) as IH'. destruct (take_sections keys (delete k0 m)) as [l m']. cbn [fst] in *. unfold merge_sections. cbn [foldl fst snd].
    fold (merge_sections l (merge_section k0 s c)). rewrite IH'. cbn [merge_section sections]. destruct (decide (k0 = k)) as [<-|Hne].
    + rewrite lookup_insert_eq, lookup_delete_eq, Hk0. rewrite (decide_True (P := k0 ∈ k0 :: keys)) by apply list_elem_of_here. by case_decide.
    + rewrite lookup_insert_ne, lookup_delete_ne by done. destruct (decide (k ∈ keys)) as [Hin|Hn]; [rewrite decide_True by (by right); done|].
      rewrite decide_False; [done|]. intros [?|?]%elem_of_cons; done.
  - rewrite IH. destruct (decide (k ∈ keys)) as [Hin|Hn]; [rewrite decide_True by (by right); done|]. case_decide as Hc; [|done].
    apply elem_of_cons in Hc as [->|]; [by rewrite Hk0|done].
Qed.

Lemma begin_spec roots : forall (m : gmap string CacheSection) k,
  foldl (fun m root => <[root := mkSection zero_anchor ∅]> m) m roots !! k = if decide (k ∈ roots) then Some (mkSection zero_anchor ∅) else m !! k.
Proof.
  induction roots as [|r roots IH]; intros m k; cbn [foldl]; [by rewrite decide_False by apply not_elem_of_nil|].
  rewrite IH, lookup_insert. destruct (decide (k ∈ roots)) as [Hin|Hn]; [by rewrite (decide_True (P := k ∈ r :: roots)) by (by right)|].
  destruct (decide (r = k)) as [<-|Hne]; [by rewrite decide_True by apply list_elem_of_here|]. rewrite decide_False; [done|]. intros [?|?]%elem_of_cons; done.
Qed.

Lemma sorted_elem k l : k ∈ sort_longest_first l <-> k ∈ l.
Proof. unfold sort_longest_first. by rewrite (sort_by_perm _ l). Qed.

(** What a lookup finds when every active section that covers the path has
    the same entry for it. *)
Lemma lookup_active c path stamp (o : option Noted) :
  (exists r, r ∈ active_keys c /\ path_starts_with path r = true) ->
  (forall r, r ∈ active_keys c -> path_starts_with path r = true ->
    exists s, sections c !! r = Some s /\ section_entries s !! hash path = entry_of <$> o) ->
  fc_lookup blake2b_16 c path stamp = i ← o; if decide (nt_stamp i = stamp) then Some (nt_refs i) else None.
Proof.
  intros (r & Hr & Hpr) Hall. unfold fc_lookup, find_section_key. destruct (List.find _ (active_keys c)) as [k|] eqn:Hf.
  2:{ exfalso. pose proof (List.find_none _ _ Hf r ltac:(by apply list_elem_of_In)) as Hn. cbv beta in Hn. congruence. }
  apply List.find_some in Hf as [Hk%list_elem_of_In Hpk]. destruct (Hall k Hk Hpk) as (s & Hs & He). cbn [mbind option_bind]. rewrite Hs. cbn [mbind option_bind].
  rewrite He. destruct o as [i|]; [|done]. cbn [fmap option_fmap option_map mbind option_bind]. unfold entry_of. cbn [fe_device fe_inode fe_mtime_ns fe_ctime_ns fe_size fe_chunk_refs].
  destruct i as [pi [d0 i0 m0 c0 s0] refs], stamp as [d1 i1 m1 c1 s1]. cbn.
  destruct (Z.eqb_spec d0 d1), (Z.eqb_spec i0 i1), (Z.eqb_spec m0 m1), (Z.eqb_spec c0 c1), (Z.eqb_spec s0 s1); cbn; subst;
    first [by rewrite decide_True | by rewrite decide_False by congruence].
Qed.

(** C17. The file cache is transparent.  A backup of [roots] notes its files,
    the cache is anchored at the new snapshot and merged into what was there
    before.  When a later backup of some of these roots - all, or fewer, with
    roots that lie in one another or not - looks up a file below one of them,
    it is answered exactly what the backup noted last for that path if the
    metadata are the same in all five fields, and nothing otherwise; and once
    the anchoring snapshot is gone, nothing at all.  Noting a file below a
    root never panics.  The paths in question must not collide under the
    16-byte hash. *)
Theorem file_cache_transparent roots roots' ins c0 sid exists_ path stamp :
  (forall i, i ∈ ins -> exists r, r ∈ roots /\ path_starts_with (nt_path i) r = true) ->
  (forall r, r ∈ roots' -> r ∈ roots) -> (exists r, r ∈ roots' /\ path_starts_with path r = true) ->
  (forall i, i ∈ ins -> hash (nt_path i) = hash path -> nt_path i = path) ->
  exists c1 c2, insert_all ins (begin_sections roots fc_new) = Some c1 /\ finalize_sections sid c1 = Some c2 /\
    let c := (invalidate_missing_snapshots exists_ (merge_sections (take_active_sections c2).1 c0)).2 in
    fc_lookup blake2b_16 (activate_for_walk_roots roots' c).2 path stamp =
      if exists_ sid then i ← recorded ins path; if decide (nt_stamp i = stamp) then Some (nt_refs i) else None else None.
Proof.
  intros Hins Hsub Hpath Hinj.
  destruct (insert_all_spec ins (begin_sections roots fc_new)) as (c1 & H1 & Ha1 & Hs1); cbn [begin_sections active_keys sections fc_new] in *.
  { intros k Hk%(proj1 (sorted_elem _ _)). rewrite begin_spec.  rewrite decide_True by done. by eexists. }
  { intros i Hi. destruct (Hins i Hi) as (r & Hr & Hp). exists r. split; [by apply sorted_elem|done]. }
  assert (Hc1 : forall k, k ∈ roots -> sections c1 !! k = Some (mkSection zero_anchor (foldl (note_under k) ∅ ins))).
  { intros k Hk. rewrite Hs1, decide_True by (by apply sorted_elem). by rewrite begin_spec, decide_True. }
  destruct (finalize_spec sid (active_keys c1) (sections c1)) as (m2 & H2 & Hs2).
  { intros k. rewrite Ha1. intros Hk%(proj1 (sorted_elem _ _)). rewrite Hc1 by done. by eexists. }
  exists c1, (mkFileCache m2 (active_keys c1)). split; [done|]. split; [unfold finalize_sections; by rewrite H2|].
  assert (Hmerged : forall k, k ∈ roots -> sections (merge_sections (take_active_sections (mkFileCache m2 (active_keys c1))).1 c0) !! k =
    Some (mkSection sid (foldl (note_under k) ∅ ins))).
  { intros k Hk. unfold take_active_sections. cbn [sections active_keys]. pose proof (merge_taken (active_keys c1) m2 c0 k) as Hmt.
    destruct (take_sections (active_keys c1) m2) as [l m3]. cbn [fst] in *. rewrite Hmt, Hs2.
    rewrite !decide_True by (rewrite Ha1; by apply sorted_elem). by rewrite Hc1. }
  cbv zeta. set (c := merge_sections _ c0) in *. unfold invalidate_missing_snapshots, activate_for_walk_roots. cbn [snd sections]. set (m := filter _ (sections c)).
  assert (Hm : forall k, k ∈ roots -> m !! k = if exists_ sid then Some (mkSection sid (foldl (note_under k) ∅ ins)) else None).
  { intros k Hk. unfold m. destruct (exists_ sid) eqn:Hex.
    - apply map_lookup_filter_Some. by rewrite Hmerged.
    - apply map_lookup_filter_None. right. intros x Hx. rewrite Hmerged in Hx by done. injection Hx as <-. cbn. by rewrite Hex. }
  assert (Hact : forall k, k ∈ sort_longest_first (List.filter (fun root => bool_decide (is_Some (m !! root))) roots') <-> k ∈ roots' /\ exists_ sid = true).
  { intros k. rewrite sorted_elem, list_elem_of_In, List.filter_In, <- list_elem_of_In, bool_decide_eq_true. split; intros [Hk Hx]; (split; [done|]); rewrite Hm in * by auto; destruct (exists_ sid); first [done|by destruct Hx|by eexists]. }
  destruct (exists_ sid) eqn:Hex.
  - apply lookup_active; cbn [active_keys sections].
    + destruct Hpath as (r & Hr & Hp). exists r. split; [by apply Hact|done].
    + intros r [Hr _]%Hact Hp. exists (mkSection sid (foldl (note_under r) ∅ ins)). split; [apply Hm; auto|]. by apply notes_lookup.
  - unfold fc_lookup, find_section_key. cbn [active_keys]. destruct (List.find _ _) as [k|] eqn:Hf; [|done].
    apply List.find_some in Hf as [Hk%list_elem_of_In _]. by apply Hact in Hk as [_ ?].
Qed.

(** *** On disk *)

(** A cache comes back from disk as it was, unless it is larger than the
    reader believes or its entries are smaller. *)
Lemma file_cache_round_trip e `{LawfulEngine e} `{MsgPack (gmap string CacheSection)} nonce c packed :
  length nonce = NONCE_LEN -> blen (mp_encode (sections c)) <= MAX_FILE_CACHE_PLAINTEXT ->
  Z.of_nat (fc_len c) <= blen (mp_encode (sections c)) / MIN_BYTES_PER_ENTRY ->
  file_cache_save e nonce c = Ok packed ->
  file_cache_load e (Some packed) = mkFileCache (sections c) [].
Proof.
  intros Hn Hmax Hmin Hs. unfold file_cache_save in Hs. unfold file_cache_load.
  assert (Hp : pack_object_with_context e OFileCache FILE_CACHE_CONTEXT (mp_encode (sections c)) nonce = Ok packed).
  { rewrite <- Hs. symmetry. by apply stream_with_aad_eq. }
  rewrite (unpack_expected e _ _ _ _ _ Hn Hp). unfold decode_from_plaintext.
  destruct (Z.ltb_spec MAX_FILE_CACHE_PLAINTEXT (blen (mp_encode (sections c)))); [lia|]. rewrite mp_decode_encode.
  destruct (Z.ltb_spec (blen (mp_encode (sections c)) / MIN_BYTES_PER_ENTRY) (Z.of_nat (fc_len (mkFileCache (sections c) [])))) as [Hlt|]; [|done].
  change (fc_len (mkFileCache (sections c) [])) with (fc_len c) in Hlt. lia.
Qed.

(** *** The last snapshot *)

Lemma find_slash_app x y : str_all (fun a => negb (Ascii.eqb a "/")) x = true -> find_slash (x +:+ "/" +:+ y) = Some (x, y).
Proof.
  induction x as [|a x IH]; intros Hx; [done|]. cbn [str_all] in Hx. apply andb_true_iff in Hx as [Ha Hx]. 
  change (String a x +:+ "/" +:+ y) with (String a (x +:+ "/" +:+ y)). unfold find_slash. fold find_slash.
  apply negb_true_iff in Ha. rewrite Ha. by rewrite IH.
Qed.

(** The path an item of the snapshot is given by the walk of a source. *)
Definition walk_item_path (multi : bool) (basename rel : string) : string := if multi then basename +:+ "/" +:+ rel else rel.

(** The absolute path of an item is recovered: of a single source always, of
    several when their names are distinct, as the configuration demands. *)
Lemma reconstruct_walked multi roots basename root rel :
  (basename, root) ∈ roots -> NoDup roots.*1 -> str_all (fun a => negb (Ascii.eqb a "/")) basename = true ->
  (multi = false -> roots = [(basename, root)]) ->
  reconstruct_abs_path (walk_item_path multi basename rel) roots multi = join_path root rel.
Proof.
  intros Hin Hnd Hb Hone. unfold walk_item_path, reconstruct_abs_path. destruct multi; [|by rewrite Hone].
  rewrite find_slash_app by done. destruct (List.find _ roots) as [br|] eqn:Hf.
  - apply List.find_some in Hf as [Hbr%list_elem_of_In E%String.eqb_eq]. f_equal.
    apply list_elem_of_lookup in Hin as [i Hi]. apply list_elem_of_lookup in Hbr as [j Hj].
    assert (i = j) as <-; [|rewrite Hi in Hj; by injection Hj as <-]. eapply NoDup_lookup; [exact Hnd| |]; rewrite list_lookup_fmap; [rewrite Hi; done|rewrite Hj; cbn; by rewrite E].
  - exfalso. pose proof (List.find_none _ _ Hf _ (proj1 (list_elem_of_In _ _) Hin)) as Hn. cbn in Hn. by rewrite String.eqb_refl in Hn.
Qed.

Definition parent_all (items : list Item) (b : ParentReuseBuilder) : ParentReuseBuilder :=
  foldl (fun b it => (parent_push blake2b_16 it b).2) b items.

(** The items that count: files, without the output of commands. *)
Definition reusable (it : Item) : bool :=
  bool_decide (entry_type it = RegularFile) && negb (starts_with (item_path it) "vykar-dumps/").

Definition last_parent (roots : list (string * string)) (multi : bool) (items : list Item) (path : string) : option Item :=
  foldl (fun o it => if reusable it && String.eqb (reconstruct_abs_path (item_path it) roots multi) path then Some it else o) None items.

Definition same_file (it : Item) (stamp : FileStamp) : bool :=
  (item_size it =? st_size stamp) && (mtime it =? st_mtime_ns stamp) && bool_decide (ctime it = Some (st_ctime_ns stamp)).

Lemma parent_all_spec roots multi items path :
  (forall it, it ∈ items -> hash (reconstruct_abs_path (item_path it) roots multi) = hash path -> reconstruct_abs_path (item_path it) roots multi = path) ->
  let b := parent_all items (parent_new roots multi) in
  walk_roots b = roots /\ multi_path b = multi /\
  (legacy_abort b = false -> (forall it, it ∈ items -> reusable it = true -> is_Some (ctime it)) /\
    pb_entries b !! hash path = it ← last_parent roots multi items path; c ← ctime it; Some (mkParent (mtime it) c (item_size it) (item_chunks it))).
Proof.
  induction items as [|it items IH] using rev_ind; intros Hinj; [split; [done|]; split; [done|]; intros _; split; [by intros ? ?%not_elem_of_nil|done]|].
  assert (IH' := IH ltac:(intros x Hx; apply Hinj, elem_of_app; by left)). clear IH. unfold parent_all, last_parent in *. rewrite !foldl_app. cbn [foldl].
  set (b := foldl _ (parent_new roots multi) items) in *. set (o := foldl _ None items) in *. destruct IH' as (Hr & Hm & Hb). unfold parent_push, reusable.
  assert (Hall : (forall x, x ∈ items -> reusable x = true -> is_Some (ctime x)) -> (reusable it = true -> is_Some (ctime it)) ->
    forall x, x ∈ items ++ [it] -> reusable x = true -> is_Some (ctime x)).
  { intros H1 H2 x [Hx| ->%list_elem_of_singleton]%elem_of_app; auto. }
  destruct (legacy_abort b) eqn:Hl; [cbn [snd]; split; [done|]; split; [done|]; congruence|]. destruct (Hb eq_refl) as [H1 H2]. unfold reusable in Hall.
  destruct (bool_decide (entry_type it = RegularFile)) eqn:Ht; cbn [negb andb snd]; [|split_and!; [done..|]; intros _; split; [apply Hall; [done|rewrite ?Ht; done]|done]].
  destruct (starts_with (item_path it) "vykar-dumps/") eqn:Hd; cbn [negb andb snd]; [split_and!; [done..|]; intros _; split; [apply Hall; [done|rewrite ?Ht, ?Hd; done]|done]|].
  destruct (ctime it) as [c|] eqn:Hc; cbn [snd]; [|split_and!; done]. split; [done|]. split; [done|]. intros _.
  split; [apply Hall; [done|by eexists]|]. cbn [pb_entries]. rewrite Hr, Hm.
  destruct (String.eqb_spec (reconstruct_abs_path (item_path it) roots multi) path) as [<-|Hne].
  - rewrite lookup_insert_eq. cbn [mbind option_bind]. by rewrite Hc.
  - rewrite lookup_insert_ne; [done|]. intros E. apply Hne, Hinj; [|done]. apply elem_of_app. right. by apply list_elem_of_singleton.
Qed.

(** Reuse from the last snapshot answers for a path the chunks of the last
    file item with that path, if size and both times are those of the item. *)
Lemma parent_reuse_exact roots multi items path stamp ix :
  (forall it, it ∈ items -> hash (reconstruct_abs_path (item_path it) roots multi) = hash path -> reconstruct_abs_path (item_path it) roots multi = path) ->
  parent_finish (parent_all items (parent_new roots multi)) = Some ix ->
  parent_lookup blake2b_16 ix path stamp = it ← last_parent roots multi items path; if same_file it stamp then Some (item_chunks it) else None.
Proof.
  intros Hinj Hfin. destruct (parent_all_spec roots multi items path Hinj) as (_ & _ & Hb). unfold parent_finish in Hfin.
  destruct (legacy_abort _); [done|]. injection Hfin as <-. destruct (Hb eq_refl) as [H1 H2]. unfold parent_lookup. rewrite H2.
  destruct (last_parent roots multi items path) as [it|] eqn:Hlast; [|done]. cbn [mbind option_bind].
  assert (Hre : (it ∈ items) /\ reusable it = true).
  { clear -Hlast. unfold last_parent in Hlast. induction items as [|x items IH] using rev_ind; [done|]. rewrite foldl_app in Hlast. cbn [foldl] in Hlast.
    destruct (reusable x && _) eqn:Hx; [|destruct (IH Hlast); split; [apply elem_of_app; by left|done]].
    injection Hlast as <-. apply andb_true_iff in Hx as [? _]. split; [apply elem_of_app; right; by apply list_elem_of_singleton|done]. }
  destruct (H1 it (proj1 Hre) (proj2 Hre)) as [c Hc]. rewrite Hc. cbn [mbind option_bind pr_size pr_mtime_ns pr_ctime_ns pr_chunk_refs]. unfold same_file. rewrite Hc.
  destruct (Z.eqb_spec c (st_ctime_ns stamp)) as [->|Hne]; [by rewrite bool_decide_true|]. rewrite (bool_decide_false (Some c = _)) by congruence.
  by rewrite !andb_false_r.
Qed.
End Laws.

(** ** A cache

    The first backup has two roots, one in the other; the second only the
    outer one. *)
Definition fc_stamp : FileStamp := mkStamp 1 2 3 4 5.
Definition fc_refs : list ChunkRef := [mkChunkRef (mkChunkId [9]) 5 7].
Definition fc_noted : list Noted := [mkNoted "/data/b" fc_stamp []; mkNoted "/data/sub/a" fc_stamp fc_refs].

Lemma file_cache_transparent_witness :
  exists c1 c2, insert_all (fun x => x) fc_noted (begin_sections ["/data"; "/data/sub"] fc_new) = Some c1 /\
    finalize_sections (mkSnapshotId [1]) c1 = Some c2 /\
    fc_lookup (fun x => x) (activate_for_walk_roots ["/data"] (invalidate_missing_snapshots (fun _ => true)
      (merge_sections (take_active_sections c2).1 fc_new)).2).2 "/data/sub/a" fc_stamp = Some fc_refs.
Proof.
  destruct (file_cache_transparent (fun x => x) ["/data"; "/data/sub"] ["/data"] fc_noted fc_new (mkSnapshotId [1]) (fun _ => true) "/data/sub/a" fc_stamp)
    as (c1 & c2 & H1 & H2 & H3).
  - intros i Hi. exists "/data". split; [apply list_elem_of_here|]. apply elem_of_cons in Hi as [->|Hi]; [vm_compute; reflexivity|].
    apply list_elem_of_singleton in Hi as ->. vm_compute. reflexivity.
  - intros r Hr. apply list_elem_of_singleton in Hr as ->. apply list_elem_of_here.
  - exists "/data". split; [apply list_elem_of_here|]. vm_compute. reflexivity.
  - intros i _ E. by apply str_bytes_inj in E.
  - exists c1, c2. split; [exact H1|]. split; [exact H2|]. etransitivity; [exact H3|]. vm_compute. reflexivity.
Defined.
