(* ===== verification/Backup.v ===== *)
(** * Backing up a source (crates/vykar-core/src/commands/backup/sequential.rs,
      with chunk_process.rs, commit.rs and the item stream of mod.rs)

    The walk of a source is worked off entry by entry: the contents of files
    are cut into chunks, known chunks are referenced and new ones packed,
    small files are collected into batches, unchanged files take their chunks
    from the cache, and every entry becomes an item of the item stream, which
    is itself cut into chunks.

    The walk, the file system and the fastcdc crate are arguments: the entries
    of the walk, what [open], [read] and [readlink] answer, and the chunks the
    chunker yields for an open file.  [input n] gives the clock, nonce and
    shutdown flag that the [n]-th use sees.  What changes during a backup, and
    is kept when a file fails, is the [Job] and the [Session] of
    WriteSession.v.  Progress events are left out; a panic of the file cache
    ends the backup with an error. *)

From S2P Require Import Prelude Types Storage ChunkIndex Pack.
From S2P Require Import Crypto Format Compress DedupCache Retention Lock Repo ReadPath Snapshots WriteSession Accounting Recovery FileCache.
#[local] Open Scope string_scope.
#[local] Open Scope list_scope.
#[local] Open Scope Z_scope.

Record MetadataSummary := mkMetadata {
  md_mode : Z;
  md_uid : Z;
  md_gid : Z;
  md_mtime_ns : Z;
  md_ctime_ns : Z;
  md_device : Z;
  md_inode : Z;
  md_size : Z;
}.
Definition file_stamp (m : MetadataSummary) : FileStamp :=
  mkStamp (md_device m) (md_inode m) (md_mtime_ns m) (md_ctime_ns m) (md_size m).

Inductive FileType := FDir | FSymlink | FFile | FSpecial.

Inductive SequentialWalkItem :=
  | WEntry (abs_path rel_path : string) (metadata : MetadataSummary) (file_type : FileType)
  | WSkipped
  | WHardError (er : VykarError).

Record PreparedChunk := mkPrepared { pp_chunk_id : ChunkId; uncompressed_size : Z; pp_packed : bytes }.
Record HashedChunk := mkHashed { hc_chunk_id : ChunkId; hc_data : bytes }.
Inductive WorkerChunk := Prepared (c : PreparedChunk) | Hashed (c : HashedChunk).

Record PendingBatchFile := mkPendingFile { pf_item : Item; pf_metadata : MetadataSummary; pf_abs_path : string; pf_chunk_count : nat }.
Record CrossFileBatch := mkBatch { bt_files : list PendingBatchFile; bt_raw_chunks : list bytes; bt_pending_bytes : Z }.

Definition CROSS_BATCH_MAX_BYTES : Z := 32 * 1024 * 1024.
Definition CROSS_BATCH_MAX_CHUNKS : Z := 8192.

Definition batch_new : CrossFileBatch := mkBatch [] [] 0.
Definition batch_is_empty (b : CrossFileBatch) : bool := match bt_files b with [] => true | _ => false end.
Definition batch_should_flush (b : CrossFileBatch) : bool :=
  (CROSS_BATCH_MAX_BYTES <=? bt_pending_bytes b) || (CROSS_BATCH_MAX_CHUNKS <=? Z.of_nat (length (bt_raw_chunks b))).
Definition batch_add_file (item : Item) (data : bytes) (m : MetadataSummary) (abs_path : string) (b : CrossFileBatch) : CrossFileBatch :=
  mkBatch (bt_files b ++ [mkPendingFile item m abs_path 1]) (bt_raw_chunks b ++ [data]) (u64_add (bt_pending_bytes b) (blen data)).

Definition items_chunker_config : ChunkerConfig := mkChunker (32 * 1024) (128 * 1024) (512 * 1024).

Definition is_soft_io_error (er : IoError) : bool :=
  match io_kind er with PermissionDenied | NotFound => true | _ => is_eio er end.

(** ** The state of a backup *)

Record Job := mkJob {
  j_stats : SnapshotStats;
  j_stream : bytes;
  j_ptrs : list ChunkId;
  j_cache : FileCache;
  j_used : nat;
}.

Definition set_stats (st : SnapshotStats) (j : Job) : Job := mkJob st (j_stream j) (j_ptrs j) (j_cache j) (j_used j).
Definition set_stream (stream : bytes) (ptrs : list ChunkId) (j : Job) : Job := mkJob (j_stats j) stream ptrs (j_cache j) (j_used j).
Definition set_cache (c : FileCache) (j : Job) : Job := mkJob (j_stats j) (j_stream j) (j_ptrs j) c (j_used j).
Definition set_used (n : nat) (j : Job) : Job := mkJob (j_stats j) (j_stream j) (j_ptrs j) (j_cache j) n.

Definition add_sizes (original compressed deduplicated : Z) (st : SnapshotStats) : SnapshotStats :=
  mkStats (nfiles st) (u64_add (original_size st) original) (u64_add (compressed_size st) compressed)
    (u64_add (deduplicated_size st) deduplicated) (errors st).
Definition add_file_count (st : SnapshotStats) : SnapshotStats :=
  mkStats (u64_add (nfiles st) 1) (original_size st) (compressed_size st) (deduplicated_size st) (errors st).
Definition add_error (st : SnapshotStats) : SnapshotStats :=
  mkStats (nfiles st) (original_size st) (compressed_size st) (deduplicated_size st) (u64_add (errors st) 1).

(** One use of the outside world. *)
Record Input := mkInput { in_tick : Tick; in_nonce : bytes; in_interrupted : bool }.

Definition BM `{Xor8} (A : Type) : Type := Job -> Session -> World -> res A * (Job * Session * World).
#[export] Instance BM_ret `{Xor8} : MRet BM := fun A a j s w => (Ok a, (j, s, w)).
#[export] Instance BM_bind `{Xor8} : MBind BM := fun A B f m j s w =>
  match m j s w with
  | (Ok a, (j', s', w')) => f a j' s' w'
  | (Err er, st) => (Err er, st)
  end.

Section BackupMonad.
Context {Hxor : Xor8}.
Definition bfail {A} (er : VykarError) : BM A := fun j s w => (Err er, (j, s, w)).
Definition blift {A} (r : res A) : BM A := fun j s w => (r, (j, s, w)).
(** An operation of the repository. *)
Definition bdo {A} (m : WM A) : BM A := fun j s w => let '(r, (s', w')) := m s w in (r, (j, s', w')).
Definition bjob : BM Job := fun j s w => (Ok j, (j, s, w)).
Definition bmodify (f : Job -> Job) : BM unit := fun j s w => (Ok tt, (f j, s, w)).
Definition btry {A} (m : BM A) : BM (res A) := fun j s w => let '(r, st) := m j s w in (Ok r, st).
End BackupMonad.

Section Backup.
Context `{Hhex : HexCodec} `{Hblake : Blake2b} {Hxor : Xor8} (e : CryptoEngine) `{Hcodecs : Codecs}.
Context `{Hjournal : MsgPack (list PendingPackEntry)}.
Context `{Hljson : Json LockEntry} `{Hsjson : Json SessionEntry} `{Hrfc : Rfc3339}.
Context `{Hitems : ItemStream}.
Context (data_target : nat -> Z) (blake2b_16 : bytes -> bytes) (input : nat -> Input).

Definition draw : BM Input := fun j s w => (Ok (input (j_used j)), (set_used (S (j_used j)) j, s, w)).

Definition check_interrupted : BM unit :=
  i ← draw; if in_interrupted i then bfail Interrupted else mret tt.

(** ** Chunks *)

Definition pack_chunk_data (id : ChunkId) (data : bytes) (compression : Compression) (nonce : bytes) : res bytes :=
  pack_object_streaming_with_context e OChunkData (chunk_bytes id) nonce (fun buf => compress_append compression data buf).

Definition classify_chunk (id : ChunkId) (data : bytes) (dedup_filter : option xor_filter) (compression : Compression) (nonce : bytes) :
    res WorkerChunk :=
  if match dedup_filter with Some f => xor_contains f (chunk_id_to_u64 id) | None => false end
  then Ok (Hashed (mkHashed id data))
  else packed ← pack_chunk_data id data compression nonce; Ok (Prepared (mkPrepared id (u32_wrap (blen data)) packed)).

(** A lookup that changes the session when it finds the chunk. *)
Definition resolving (f : Session -> option (Z * Session)) : WM (option Z) := fun s w =>
  match f s with Some (size, s') => (Ok (Some size), (s', w)) | None => (Ok None, (s, w)) end.

Definition push_chunk_ref (r : ChunkRef) (item : Item) : Item :=
  mkItem (item_path item) (entry_type item) (mode item) (uid item) (gid item) (user item) (group item) (mtime item)
    (atime item) (ctime item) (item_size item) (item_chunks item ++ [r]) (link_target item) (xattrs item).

Definition process_worker_chunk (compression : Compression) (dedup_filter : option xor_filter) (item : Item) (wc : WorkerChunk) : BM Item :=
  match wc with
  | Prepared p =>
      let id := pp_chunk_id p in
      let size := uncompressed_size p in
      existing ← bdo (resolving (match dedup_filter with Some _ => bump_ref_prefilter_miss id | None => bump_ref_if_exists id end));
      match existing with
      | Some csize =>
          _ ← bmodify (fun j => set_stats (add_sizes size csize 0 (j_stats j)) j);
          mret (push_chunk_ref (mkChunkRef id size csize) item)
      | None =>
          i ← draw;
          csize ← bdo (commit_prepacked_chunk e data_target (in_tick i) id (pp_packed p) Data);
          _ ← bmodify (fun j => set_stats (add_sizes size csize csize (j_stats j)) j);
          mret (push_chunk_ref (mkChunkRef id size csize) item)
      end
  | Hashed h =>
      let id := hc_chunk_id h in
      let size := u32_wrap (blen (hc_data h)) in
      existing ← bdo (resolving (bump_ref_prefilter_hit id));
      match existing with
      | Some csize =>
          _ ← bmodify (fun j => set_stats (add_sizes size csize 0 (j_stats j)) j);
          mret (push_chunk_ref (mkChunkRef id size csize) item)
      | None =>
          i ← draw;
          csize ← bdo (commit_chunk_inline e data_target (in_tick i) id (hc_data h) compression Data (in_nonce i));
          _ ← bmodify (fun j => set_stats (add_sizes size csize csize (j_stats j)) j);
          mret (push_chunk_ref (mkChunkRef id size csize) item)
      end
  end.

Fixpoint process_worker_chunks (compression : Compression) (dedup_filter : option xor_filter) (item : Item) (chunks : list WorkerChunk) : BM Item :=
  match chunks with
  | [] => mret item
  | wc :: chunks' =>
      item ← process_worker_chunk compression dedup_filter item wc;
      process_worker_chunks compression dedup_filter item chunks'
  end.

(** The chunks of an unchanged file. *)
Fixpoint reuse_refs (refs : list ChunkRef) : WM Z :=
  match refs with
  | [] => mret 0
  | r :: refs' => size ← reuse_cached_chunk_ref (ref_id r); rest ← reuse_refs refs'; mret (u64_add size rest)
  end.
Definition with_chunks (refs : list ChunkRef) (item : Item) : Item :=
  mkItem (item_path item) (entry_type item) (mode item) (uid item) (gid item) (user item) (group item) (mtime item)
    (atime item) (ctime item) (item_size item) refs (link_target item) (xattrs item).
Definition commit_cache_hit (item : Item) (cached_refs : list ChunkRef) : BM Item :=
  file_compressed ← bdo (reuse_refs cached_refs);
  let file_original := fold_right (fun r n => u64_add (ref_size r) n) 0 cached_refs in
  _ ← bmodify (fun j => set_stats (add_sizes file_original file_compressed 0 (add_file_count (j_stats j))) j);
  mret (with_chunks cached_refs item).

(** ** The item stream *)

Definition flush_item_stream_chunk (compression : Compression) : BM unit :=
  j ← bjob;
  match j_stream j with
  | [] => mret tt
  | chunk_data =>
      _ ← bmodify (set_stream [] (j_ptrs j));
      i ← draw;
      r ← bdo (store_chunk e data_target (in_tick i) chunk_data compression Tree (in_nonce i));
      bmodify (fun j => set_stream (j_stream j) (j_ptrs j ++ [r.1.1]) j)
  end.

Definition append_item_to_stream (items_config : ChunkerConfig) (compression : Compression) (item : Item) : BM unit :=
  _ ← bmodify (fun j => set_stream (j_stream j ++ encode_item item) (j_ptrs j) j);
  j ← bjob;
  if avg_size items_config <=? blen (j_stream j) then flush_item_stream_chunk compression else mret tt.

Definition note_file (abs_path : string) (m : MetadataSummary) (refs : list ChunkRef) : BM unit :=
  j ← bjob;
  match fc_insert blake2b_16 abs_path (file_stamp m) refs (j_cache j) with
  | Some c => bmodify (set_cache c)
  | None => bfail (Other "insert called without matching active section")
  end.

(** ** Files *)

(** Every chunk is classified, with a nonce of its own; then the first error
    decides. *)
Fixpoint classify_all (compression : Compression) (dedup_filter : option xor_filter) (raw : list bytes) : BM (list (res WorkerChunk)) :=
  match raw with
  | [] => mret []
  | data :: raw' =>
      i ← draw;
      let id := chunk_id_compute (chunk_id_key e) data in
      rest ← classify_all compression dedup_filter raw';
      mret (classify_chunk id data dedup_filter compression (in_nonce i) :: rest)
  end.
Fixpoint collect_results {A} (l : list (res A)) : res (list A) :=
  match l with
  | [] => Ok []
  | Err er :: _ => Err er
  | Ok a :: l' => l' ← collect_results l'; Ok (a :: l')
  end.

Definition flush_regular_file_batch (compression : Compression) (dedup_filter : option xor_filter) (raw : list bytes) (item : Item) : BM Item :=
  match raw with
  | [] => mret item
  | _ =>
      results ← classify_all compression dedup_filter raw;
      worker_chunks ← blift (collect_results results);
      process_worker_chunks compression dedup_filter item worker_chunks
  end.

Context (max_pending_transform_bytes : Z) (max_pending_file_actions : nat).

(** The loop over the chunks of a file, and what is left to flush. *)
Fixpoint chunk_loop (compression : Compression) (dedup_filter : option xor_filter) (chunks : list (res bytes)) (raw : list bytes)
    (pending_bytes : Z) (item : Item) : BM (list bytes * Item) :=
  match chunks with
  | [] => mret (raw, item)
  | Err er :: _ => bfail er
  | Ok data :: chunks' =>
      let pending_bytes := u64_sat_add pending_bytes (blen data) in
      let raw := raw ++ [data] in
      if (max_pending_transform_bytes <=? pending_bytes) || (max_pending_file_actions <=? length raw)%nat then
        item ← flush_regular_file_batch compression dedup_filter raw item;
        chunk_loop compression dedup_filter chunks' [] 0 item
      else chunk_loop compression dedup_filter chunks' raw pending_bytes item
  end.

(** The cache of the last backup, or else its snapshot. *)
Definition effective_hit (old : FileCache) (parent : option (gmap bytes ParentEntry)) (abs_path : string) (m : MetadataSummary) :
    option (list ChunkRef) :=
  match fc_lookup blake2b_16 old abs_path (file_stamp m) with
  | Some refs => Some refs
  | None => ix ← parent; parent_lookup blake2b_16 ix abs_path (file_stamp m)
  end.

(** The file system: the chunks an open file yields, the bytes of a file, the
    target of a link, the extended attributes. *)
Context (open_chunks : string -> res (list (res bytes))) (read_file : string -> result IoError bytes)
  (read_link : string -> result IoError string) (read_xattrs : string -> option (gmap string bytes)).

Definition process_regular_file_item (old : FileCache) (parent : option (gmap bytes ParentEntry)) (compression : Compression)
    (dedup_filter : option xor_filter) (entry_path : string) (m : MetadataSummary) (item : Item) : BM Item :=
  match effective_hit old parent entry_path m with
  | Some cached_refs =>
      item ← commit_cache_hit item cached_refs;
      _ ← note_file entry_path m cached_refs;
      mret item
  | None =>
      chunk_stream ← blift (open_chunks entry_path);
      p ← chunk_loop compression dedup_filter chunk_stream [] 0 item;
      let '(raw, item) := p in
      item ← flush_regular_file_batch compression dedup_filter raw item;
      _ ← bmodify (fun j => set_stats (add_file_count (j_stats j)) j);
      _ ← note_file entry_path m (item_chunks item);
      mret item
  end.

(** The files of a batch with the chunks each is due. *)
Fixpoint flush_files (items_config : ChunkerConfig) (compression : Compression) (dedup_filter : option xor_filter)
    (files : list PendingBatchFile) (worker_chunks : list WorkerChunk) : BM unit :=
  match files with
  | [] => mret tt
  | f :: files' =>
      item ← process_worker_chunks compression dedup_filter (pf_item f) (take (pf_chunk_count f) worker_chunks);
      _ ← bmodify (fun j => set_stats (add_file_count (j_stats j)) j);
      _ ← append_item_to_stream items_config compression item;
      _ ← note_file (pf_abs_path f) (pf_metadata f) (item_chunks item);
      flush_files items_config compression dedup_filter files' (drop (pf_chunk_count f) worker_chunks)
  end.

Definition flush_cross_file_batch (items_config : ChunkerConfig) (compression : Compression) (dedup_filter : option xor_filter)
    (b : CrossFileBatch) : BM CrossFileBatch :=
  if batch_is_empty b then mret b
  else
    results ← classify_all compression dedup_filter (bt_raw_chunks b);
    worker_chunks ← blift (collect_results results);
    _ ← flush_files items_config compression dedup_filter (bt_files b) worker_chunks;
    mret batch_new.

(** ** A source *)

(** [Path::file_name]. *)
Definition path_file_name (p : string) : option string :=
  match last (components p) with
  | Some c => if String.eqb c "/" || String.eqb c "." || String.eqb c ".." then None else Some c
  | None => None
  end.

Definition prefix_item (base : string) : Item :=
  mkItem base Directory 493 0 0 None None 0 None None 0 [] None None.

Definition walked_item (prefix : option string) (rel_path : string) (t : ItemType) (link : option string) (xattrs_enabled : bool)
    (abs_path : string) (m : MetadataSummary) : Item :=
  mkItem (match prefix with Some pfx => pfx +:+ "/" +:+ rel_path | None => rel_path end) t (md_mode m) (md_uid m) (md_gid m) None None
    (md_mtime_ns m) None (if bool_decide (t = RegularFile) then Some (md_ctime_ns m) else None) (md_size m) [] link
    (if xattrs_enabled then read_xattrs abs_path else None).

(** What becomes of an entry before its contents are looked at. *)
Inductive Typed := TItem (t : ItemType) (link : option string) | TSoft | TSpecial | THard (er : VykarError).
Definition entry_kind (abs_path : string) (t : FileType) : Typed :=
  match t with
  | FDir => TItem Directory None
  | FSymlink =>
      match read_link abs_path with
      | Ok target => TItem Symlink (Some target)
      | Err er => if is_soft_io_error er then TSoft else THard (Other "readlink")
      end
  | FFile => TItem RegularFile None
  | FSpecial => TSpecial
  end.

Section Source.
Context (old : FileCache) (parent : option (gmap bytes ParentEntry)) (min_chunk_size : Z).
Context (items_config : ChunkerConfig) (compression : Compression) (dedup_filter : option xor_filter) (xattrs_enabled : bool).

(** A file with contents that is smaller than a chunk. *)
Definition process_small_file (abs_path : string) (m : MetadataSummary) (item : Item) (b : CrossFileBatch) : BM CrossFileBatch :=
  match effective_hit old parent abs_path m with
  | Some cached_refs =>
      b ← flush_cross_file_batch items_config compression dedup_filter b;
      item ← commit_cache_hit item cached_refs;
      _ ← note_file abs_path m cached_refs;
      _ ← append_item_to_stream items_config compression item;
      mret b
  | None =>
      match read_file abs_path with
      | Err er =>
          if is_soft_io_error er then _ ← bmodify (fun j => set_stats (add_error (j_stats j)) j); mret b
          else bfail (Io er)
      | Ok data =>
          let b := batch_add_file item data m abs_path b in
          if batch_should_flush b then flush_cross_file_batch items_config compression dedup_filter b else mret b
      end
  end.

Definition process_large_file (abs_path : string) (m : MetadataSummary) (item : Item) (b : CrossFileBatch) : BM CrossFileBatch :=
  b ← flush_cross_file_batch items_config compression dedup_filter b;
  r ← btry (process_regular_file_item old parent compression dedup_filter abs_path m item);
  match r with
  | Ok item => _ ← append_item_to_stream items_config compression item; mret b
  | Err er =>
      if is_soft_file_error er then _ ← bmodify (fun j => set_stats (add_error (j_stats j)) j); mret b
      else bfail er
  end.

Definition process_walk_item (prefix : option string) (b : CrossFileBatch) (wi : SequentialWalkItem) : BM CrossFileBatch :=
  match wi with
  | WSkipped => _ ← bmodify (fun j => set_stats (add_error (j_stats j)) j); mret b
  | WHardError er => bfail er
  | WEntry abs_path rel_path m t =>
      match entry_kind abs_path t with
      | TSoft => _ ← bmodify (fun j => set_stats (add_error (j_stats j)) j); mret b
      | THard er => bfail er
      | TSpecial => mret b
      | TItem ty link =>
          let item := walked_item prefix rel_path ty link xattrs_enabled abs_path m in
          if bool_decide (ty = RegularFile) && (0 <? md_size m) then
            if md_size m <? min_chunk_size then process_small_file abs_path m item b
            else process_large_file abs_path m item b
          else
            b ← flush_cross_file_batch items_config compression dedup_filter b;
            _ ← append_item_to_stream items_config compression item;
            mret b
      end
  end.

Fixpoint walk_loop (prefix : option string) (b : CrossFileBatch) (walk : list SequentialWalkItem) : BM CrossFileBatch :=
  match walk with
  | [] => mret b
  | wi :: walk' => _ ← check_interrupted; b ← process_walk_item prefix b wi; walk_loop prefix b walk'
  end.

Definition source_prefix (multi_path : bool) (source_path : string) : option string :=
  if multi_path then Some (default source_path (path_file_name source_path)) else None.

Definition process_source_path (multi_path : bool) (source_path : string) (walk : list SequentialWalkItem) : BM unit :=
  let prefix := source_prefix multi_path source_path in
  _ ← match prefix with Some base => append_item_to_stream items_config compression (prefix_item base) | None => mret tt end;
  b ← walk_loop prefix batch_new walk;
  _ ← flush_cross_file_batch items_config compression dedup_filter b;
  mret tt.
End Source.
End Backup.

(** ** Backups as sequences of requests to the session *)

Inductive Request :=
  | RStore (tk : Tick) (data : bytes) (c : Compression) (pt : PackType) (nonce : bytes)
  | RReuse (id : ChunkId).
Inductive Event := Done (r : Request) | Failed (r : Request).

(** The chunks of the item stream that were stored. *)
Definition tree_of (ev : Event) : list bytes := match ev with Done (RStore _ data _ Tree _) => [data] | _ => [] end.
Definition trees (evs : list Event) : list bytes := concat (tree_of <$> evs).

Lemma trees_app evs1 evs2 : trees (evs1 ++ evs2) = trees evs1 ++ trees evs2.
Proof. unfold trees. by rewrite fmap_app, concat_app. Qed.

Section Requests.
Context `{Hhex : HexCodec} `{Hblake : Blake2b} {Hxor : Xor8} (e : CryptoEngine) `{Hcodecs : Codecs}.
Context `{Hjournal : MsgPack (list PendingPackEntry)}.
Context `{Hljson : Json LockEntry} `{Hsjson : Json SessionEntry} `{Hrfc : Rfc3339}.
Context (data_target : nat -> Z).

Definition cid (data : bytes) : ChunkId := chunk_id_compute (chunk_id_key e) data.

(** The other references that were taken. *)
Definition refs_of (ev : Event) : list ChunkId :=
  match ev with Done (RStore _ data _ Data _) => [cid data] | Done (RReuse id) => [id] | _ => [] end.
Definition data_refs (evs : list Event) : list ChunkId := concat (refs_of <$> evs).

Lemma data_refs_app evs1 evs2 : data_refs (evs1 ++ evs2) = data_refs evs1 ++ data_refs evs2.
Proof. unfold data_refs. by rewrite fmap_app, concat_app. Qed.

Definition run_request (r : Request) : WM unit :=
  match r with
  | RStore tk data c pt nonce => _ ← store_chunk e data_target tk data c pt nonce; mret tt
  | RReuse id => _ ← reuse_cached_chunk_ref id; mret tt
  end.

Inductive ran (s0 : Session) (w0 : World) : list Event -> Session -> World -> Prop :=
  | ran_nil : ran s0 w0 [] s0 w0
  | ran_done evs s w r s' w' : ran s0 w0 evs s w -> run_request r s w = (Ok tt, (s', w')) -> ran s0 w0 (evs ++ [Done r]) s' w'
  | ran_failed evs s w r er s' w' : ran s0 w0 evs s w -> run_request r s w = (Err er, (s', w')) -> ran s0 w0 (evs ++ [Failed r]) s' w'.

(** *** The filter of the session does not change *)

Context (dedup_filter : option xor_filter).
Definition agrees (s : Session) : Prop :=
  match tiered_dedup (s_ws s) with Some t => t_filter t = dedup_filter | None => True end.

Definition wkeeps {A} (m : WM A) : Prop := forall s w, agrees s -> agrees (m s w).2.1.

Lemma wkeeps_ret {A} (a : A) : wkeeps (mret a).
Proof. by intros s w Hs. Qed.
Lemma wkeeps_bind {A B} (m : WM A) (f : A -> WM B) : wkeeps m -> (forall a, wkeeps (f a)) -> wkeeps (m ≫= f).
Proof.
  intros Hm Hf s w Hs. unfold mbind, WM_bind. specialize (Hm s w Hs). destruct (m s w) as [[a|er] [s' w']]; [by apply Hf|done].
Qed.
Lemma wkeeps_lift {A} (r : res A) : wkeeps (wlift r).
Proof. by intros s w Hs. Qed.
Lemma wkeeps_fail {A} er : wkeeps (wfail (A := A) er).
Proof. by intros s w Hs. Qed.
Lemma wkeeps_do {A} (m : M A) : wkeeps (wdo m).
Proof. intros s w Hs. unfold wdo. by destruct (m w). Qed.
Lemma wkeeps_get {B} (f : Session -> WM B) : (forall s w, agrees s -> agrees (f s s w).2.1) -> wkeeps (wget ≫= f).
Proof. intros Hf s w Hs. by apply Hf. Qed.
Lemma wkeeps_get_any {B} (f : Session -> WM B) : (forall s, wkeeps (f s)) -> wkeeps (wget ≫= f).
Proof. intros Hf s w Hs. by apply Hf. Qed.
Lemma wkeeps_modify f : (forall ws, tiered_dedup (f ws) = tiered_dedup ws) -> wkeeps (modify_ws f).
Proof. intros Hf s w Hs. unfold agrees. cbn. by rewrite Hf. Qed.
Lemma wkeeps_try {A} (m : WM A) : wkeeps m -> wkeeps (wtry m).
Proof. intros Hm s w Hs. specialize (Hm s w Hs). unfold wtry. by destruct (m s w) as [r [s' w']]. Qed.
Lemma wkeeps_if {A} (b : bool) (m1 m2 : WM A) : wkeeps m1 -> wkeeps m2 -> wkeeps (if b then m1 else m2).
Proof. by destruct b. Qed.

Lemma best_effort_keeps tk : wkeeps (write_pending_index_best_effort e tk).
Proof.
  apply wkeeps_get_any. intros s. apply wkeeps_if; [apply wkeeps_ret|]. apply wkeeps_bind; [apply wkeeps_try, wkeeps_do|].
  intros [a|er]; [by apply wkeeps_modify|apply wkeeps_ret].
Qed.
Lemma maybe_write_keeps tk : wkeeps (maybe_write_pending_index e tk).
Proof. apply wkeeps_get_any. intros s. apply wkeeps_if; [apply best_effort_keeps|apply wkeeps_ret]. Qed.
Lemma join_keeps u : wkeeps (join u).
Proof. apply wkeeps_do. Qed.
Lemma drain_loop_keeps fuel tk : forall i, wkeeps (drain_loop fuel tk i).
Proof.
  induction fuel as [|fuel IH]; intros i; cbn [drain_loop]; [apply wkeeps_ret|]. apply wkeeps_get_any. intros s.
  destruct (_ !! i) as [u|]; [|apply wkeeps_ret]. apply wkeeps_if; [|apply IH].
  apply wkeeps_bind; [by apply wkeeps_modify|]. intros _. apply wkeeps_bind; [apply join_keeps|]. intros _. apply IH.
Qed.
Lemma cap_keeps tk : wkeeps (cap_pending_uploads e tk).
Proof.
  unfold cap_pending_uploads, drain_finished_uploads, maybe_refresh_session.
  apply wkeeps_bind; [apply wkeeps_get_any; intros s; apply wkeeps_bind; [apply drain_loop_keeps|intros _; apply maybe_write_keeps]|]. intros _.
  apply wkeeps_bind; [apply wkeeps_get_any; intros s; apply wkeeps_if; [apply wkeeps_bind; [apply wkeeps_do|intros _; by apply wkeeps_modify]|apply wkeeps_ret]|]. intros _.
  apply wkeeps_get_any. intros s. apply wkeeps_if; [|apply wkeeps_ret]. destruct (pending_uploads (s_ws s)) as [|u us]; [apply wkeeps_ret|].
  apply wkeeps_bind; [by apply wkeeps_modify|]. intros _. apply wkeeps_bind; [apply join_keeps|]. intros _. apply maybe_write_keeps.
Qed.

Lemma agrees_ext (s s' : Session) : tiered_dedup (s_ws s') = tiered_dedup (s_ws s) -> agrees s -> agrees s'.
Proof. intros E. unfold agrees. by rewrite E. Qed.

Lemma track_insert_tiered id ws : tiered_dedup (track_insert id ws) = tiered_dedup ws.
Proof. unfold track_insert. by destruct (dump_tracker ws). Qed.

Lemma apply_sealed_keeps pk entries : forall s, agrees s -> agrees (apply_sealed_entries pk entries s).
Proof.
  unfold apply_sealed_entries. induction entries as [|en entries IH]; intros s Hs; [done|]. cbn [foldl]. apply IH. unfold apply_sealed_entry, agrees in *. cbv zeta.
  destruct (tiered_dedup (s_ws s)) as [t|] eqn:Ht; [cbn [s_ws]; rewrite track_insert_tiered; exact Hs|].
  destruct (dedup_index (s_ws s)); cbn [s_ws]; rewrite track_insert_tiered; cbn [set_dedup tiered_dedup]; [done|]. by rewrite Ht.
Qed.

Lemma note_sealed_tiered pt sp w ws : tiered_dedup (note_sealed data_target pt sp w ws) = tiered_dedup ws.
Proof. unfold note_sealed. cbv zeta. by destruct pt, (dump_tracker _). Qed.

Lemma flush_keeps tk pt : wkeeps (flush_writer_async e data_target tk pt).
Proof.
  unfold flush_writer_async. apply wkeeps_bind; [apply cap_keeps|]. intros _. apply wkeeps_get_any. intros s. apply wkeeps_bind; [apply wkeeps_lift|]. intros [sp w].
  apply wkeeps_bind; [apply wkeeps_modify; intros; apply note_sealed_tiered|]. intros _. apply wkeeps_get. intros s1 w1 Hs1.
  assert (Hk : wkeeps (modify_ws (fun ws => set_uploads (pending_uploads ws ++ [(pack_storage_key (sealed_pack_id sp), sealed_data sp)]) ws))) by (by apply wkeeps_modify).
  specialize (Hk (apply_sealed_entries (sealed_pack_id sp) (sealed_entries sp) s1) w1). apply Hk. by apply apply_sealed_keeps.
Qed.

Lemma commit_keeps tk id packed pt : wkeeps (commit_prepacked_chunk e data_target tk id packed pt).
Proof.
  unfold commit_prepacked_chunk. apply wkeeps_bind; [apply wkeeps_modify; intros ws; by destruct pt|]. intros _. apply wkeeps_get_any. intros s.
  apply wkeeps_bind; [apply wkeeps_if; [apply flush_keeps|apply wkeeps_ret]|]. intros _. apply wkeeps_ret.
Qed.

Lemma bump_keeps id s size s' : agrees s -> bump_ref_if_exists id s = Some (size, s') -> agrees s'.
Proof.
  intros Hs. assert (Hp : promote_or_pending id s = Some (size, s') -> agrees s').
  { unfold promote_or_pending, promote_recovered_chunk, bump_ref_pending. cbv zeta. destruct (recovered_chunks (s_ws s) !! id) as [en|].
    - unfold agrees in *. destruct (dump_tracker (s_ws s)); cbn [tiered_dedup dedup_index set_recovered set_tracker];
        (destruct (tiered_dedup (s_ws s)) as [t|] eqn:Ht; [intros [= <- <-]; exact Hs|]; destruct (dedup_index (s_ws s)); intros [= <- <-]; done).
    - destruct (get_pending_stored_size id (data_pack_writer (s_ws s))); [intros [= <- <-]; exact Hs|].
      destruct (get_pending_stored_size id (tree_pack_writer (s_ws s))); [intros [= <- <-]; exact Hs|done]. }
  unfold bump_ref_if_exists. cbv zeta. destruct (tiered_dedup (s_ws s)) as [t|] eqn:Ht.
  - destruct (tiered_get_stored_size t id); [|exact Hp]. intros [= <- <-]. unfold agrees, bump_delta in *. cbn. by rewrite Ht in *.
  - destruct (dedup_index (s_ws s)) as [dd|]; [destruct (dd !! id); [|exact Hp]; intros [= <- <-]; unfold agrees; cbn; by rewrite Ht|].
    destruct (s_index s !! id); [|exact Hp]. intros [= <- <-]. unfold agrees. cbn. by rewrite Ht.
Qed.

(** *** Optimised lookups *)

(** The worker asks the filter, the consumer only what the filter leaves
    open; together they do what [store_chunk] does. *)
Lemma prefilter_miss_eq f id s : agrees s -> dedup_filter = Some f -> xor_contains f (chunk_id_to_u64 id) = false ->
  bump_ref_prefilter_miss id s = bump_ref_if_exists id s.
Proof.
  intros Hs Hf Hc. unfold agrees, bump_ref_prefilter_miss, bump_ref_if_exists in *. cbv zeta. destruct (tiered_dedup (s_ws s)) as [t|] eqn:Ht; [|done].
  unfold session_new_stored_size, tiered_get_stored_size. destruct (session_new t !! id); [done|]. rewrite Hs, Hf. by rewrite Hc.
Qed.
Lemma prefilter_hit_eq f id s : agrees s -> dedup_filter = Some f -> xor_contains f (chunk_id_to_u64 id) = true ->
  bump_ref_prefilter_hit id s = bump_ref_if_exists id s.
Proof.
  intros Hs Hf Hc. unfold agrees, bump_ref_prefilter_hit, bump_ref_if_exists in *. cbv zeta. destruct (tiered_dedup (s_ws s)) as [t|] eqn:Ht; [|done].
  unfold get_stored_size_skip_filter, tiered_get_stored_size. destruct (session_new t !! id); [done|]. rewrite Hs, Hf. by rewrite Hc.
Qed.

Context {Hlaw : LawfulEngine e}.

Lemma compress_append_app c data buf :
  compress_append c data buf = match compress c data with Ok z => Ok (buf ++ z) | Err er => Err er end.
Proof.
  unfold compress, compress_append. destruct c as [| |level]; [done| |].
  - destruct (lz4_compress data); [|done]. cbv zeta. by rewrite <- !app_assoc.
  - by destruct (zstd_compress level data).
Qed.

Lemma pack_chunk_data_seals id data c nonce packed : length nonce = NONCE_LEN -> pack_chunk_data e id data c nonce = Ok packed ->
  seal_chunk e id data c nonce = Ok packed.
Proof.
  intros Hn. unfold pack_chunk_data, seal_chunk. pose proof (fun buf => compress_append_app c data buf) as Ha. destruct (compress c data) as [z|er].
  - cbn [mbind result_bind]. intros Hp. rewrite <- Hp. symmetry. by apply stream_with_aad_eq.
  - unfold pack_object_streaming_with_context, stream_with_aad. rewrite !Ha. by destruct (is_encrypting e).
Qed.

Lemma bind_wm {A B} (m : WM A) (f : A -> WM B) s w : (m ≫= f) s w = match m s w with (Ok a, (s', w')) => f a s' w' | (Err er, (s', w')) => (Err er, (s', w')) end.
Proof. unfold mbind, WM_bind. by destruct (m s w) as [[] []]. Qed.

(** What a classified chunk stands for. *)
Definition classified (c : Compression) (data : bytes) (wc : WorkerChunk) : Prop :=
  exists nonce, length nonce = NONCE_LEN /\ classify_chunk e (cid data) data dedup_filter c nonce = Ok wc.

(** *** Reasoning about a backup with the requests as a ghost state *)

Context (s0 : Session) (w0 : World).

(** From a state reached by the requests [es0]: the operation makes the
    requests [evs]. *)
Definition spec {A} (m : BM A) (j0 : Job) (es0 : list Event) (Q : A -> Job -> list Event -> Prop) (E : Job -> list Event -> Prop) : Prop :=
  forall s w, ran s0 w0 es0 s w -> agrees s ->
  match m j0 s w with
  | (Ok a, (j, s', w')) => agrees s' /\ exists evs, ran s0 w0 (es0 ++ evs) s' w' /\ Q a j evs
  | (Err _, (j, s', w')) => agrees s' /\ exists evs, ran s0 w0 (es0 ++ evs) s' w' /\ E j evs
  end.

Lemma spec_ret {A} (a : A) j0 es0 (Q : A -> Job -> list Event -> Prop) E : Q a j0 [] -> spec (mret a) j0 es0 Q E.
Proof. intros HQ s w Hr Ha. split; [done|]. exists []. by rewrite app_nil_r. Qed.
Lemma spec_fail {A} er j0 es0 (Q : A -> Job -> list Event -> Prop) (E : Job -> list Event -> Prop) : E j0 [] -> spec (bfail er) j0 es0 Q E.
Proof. intros HE s w Hr Ha. split; [done|]. exists []. by rewrite app_nil_r. Qed.
Lemma spec_lift {A} (r : res A) j0 es0 (Q : A -> Job -> list Event -> Prop) (E : Job -> list Event -> Prop) :
  match r with Ok a => Q a j0 [] | Err _ => E j0 [] end -> spec (blift r) j0 es0 Q E.
Proof. intros HQ s w Hr Ha. destruct r; (split; [done|]; exists []; by rewrite app_nil_r). Qed.
Lemma spec_modify f j0 es0 (Q : unit -> Job -> list Event -> Prop) E : Q tt (f j0) [] -> spec (bmodify f) j0 es0 Q E.
Proof. intros HQ s w Hr Ha. split; [done|]. exists []. by rewrite app_nil_r. Qed.
Lemma spec_job {B} (f : Job -> BM B) j0 es0 Q E : spec (f j0) j0 es0 Q E -> spec (bjob ≫= f) j0 es0 Q E.
Proof. intros Hf s w Hr Ha. by apply Hf. Qed.
Lemma spec_change {B} g (f : unit -> BM B) j0 es0 Q E : spec (f tt) (g j0) es0 Q E -> spec (bmodify g ≫= f) j0 es0 Q E.
Proof. intros Hf s w Hr Ha. by apply Hf. Qed.
Lemma spec_bind {A B} (m : BM A) (f : A -> BM B) j0 es0 R (Q : B -> Job -> list Event -> Prop) (E : Job -> list Event -> Prop) :
  spec m j0 es0 R E ->
  (forall a j evs, R a j evs -> spec (f a) j (es0 ++ evs) (fun b j' evs' => Q b j' (evs ++ evs')) (fun j' evs' => E j' (evs ++ evs'))) ->
  spec (m ≫= f) j0 es0 Q E.
Proof.
  intros Hm Hf s w Hr Ha. unfold mbind, BM_bind. specialize (Hm s w Hr Ha). destruct (m j0 s w) as [[a|er] [[j s'] w']]; [|done].
  destruct Hm as (Ha' & evs & Hr' & HR). specialize (Hf a j evs HR s' w' Hr' Ha'). destruct (f a j s' w') as [[b|er] [[j2 s2] w2]];
    (destruct Hf as (? & evs2 & Hr2 & HQ); split; [done|]; exists (evs ++ evs2); rewrite app_assoc; done).
Qed.
Lemma spec_weaken {A} (m : BM A) j0 es0 (Q Q' : A -> Job -> list Event -> Prop) (E E' : Job -> list Event -> Prop) :
  spec m j0 es0 Q E -> (forall a j evs, Q a j evs -> Q' a j evs) -> (forall j evs, E j evs -> E' j evs) -> spec m j0 es0 Q' E'.
Proof.
  intros Hm HQ HE s w Hr Ha. specialize (Hm s w Hr Ha). destruct (m j0 s w) as [[a|er] [[j s'] w']]; destruct Hm as (? & evs & ? & ?); (split; [done|]; exists evs; auto).
Qed.
Lemma spec_try {A} (m : BM A) j0 es0 (Q : A -> Job -> list Event -> Prop) (E : Job -> list Event -> Prop) E' :
  spec m j0 es0 Q E -> spec (btry m) j0 es0 (fun r j evs => match r with Ok a => Q a j evs | Err _ => E j evs end) E'.
Proof. intros Hm s w Hr Ha. specialize (Hm s w Hr Ha). unfold btry. by destruct (m j0 s w) as [[a|er] [[j s'] w']]. Qed.

(** Which errors an operation may answer. *)
Definition raises {A} (m : BM A) (P : VykarError -> Prop) : Prop := forall j s w er st, m j s w = (Err er, st) -> P er.
Lemma raises_ret {A} (a : A) P : raises (mret a) P.
Proof. by intros j s w er st. Qed.
Lemma raises_fail {A} er (P : VykarError -> Prop) : P er -> raises (bfail (A := A) er) P.
Proof. by intros HP j s w er' st [= <- _]. Qed.
Lemma raises_bind {A B} (m : BM A) (f : A -> BM B) P : raises m P -> (forall a, raises (f a) P) -> raises (m ≫= f) P.
Proof.
  intros Hm Hf j s w er st. unfold mbind, BM_bind. destruct (m j s w) as [[a|er'] [[j' s'] w']] eqn:E; [apply Hf|]. intros [= -> _]. by eapply Hm.
Qed.
Lemma raises_modify f P : raises (bmodify f) P.
Proof. by intros j s w er st. Qed.
Lemma raises_lift {A} (r : res A) (P : VykarError -> Prop) : (forall er, r = Err er -> P er) -> raises (blift r) P.
Proof. intros HP j s w er st [= E _]. by apply HP. Qed.
Lemma raises_do {A} (m : WM A) (P : VykarError -> Prop) : (forall s w er, (m s w).1 = Err er -> P er) -> raises (bdo m) P.
Proof. intros HP j s w er st. unfold bdo. specialize (HP s w). destruct (m s w) as [r [s' w']]. intros [= -> _]. by apply HP. Qed.
Lemma raises_lifted {A B} (r : res A) (f : A -> BM B) (P : VykarError -> Prop) :
  (forall er, r = Err er -> P er) -> (forall a, r = Ok a -> raises (f a) P) -> raises (blift r ≫= f) P.
Proof. intros He Hf. destruct r as [a|er]; [exact (Hf a eq_refl)|]. intros j s w er' st [= <- _]. by apply He. Qed.
Lemma spec_try_raises {A} (m : BM A) j0 es0 (Q : A -> Job -> list Event -> Prop) (E : Job -> list Event -> Prop) E' P : raises m P ->
  spec m j0 es0 Q E -> spec (btry m) j0 es0 (fun r j evs => match r with Ok a => Q a j evs | Err er => P er /\ E j evs end) E'.
Proof.
  intros HP Hm s w Hr Ha. specialize (Hm s w Hr Ha). specialize (HP j0 s w). unfold btry. destruct (m j0 s w) as [[a|er] [[j s'] w']]; [done|].
  destruct Hm as (H1 & evs & H2 & H3). split; [done|]. exists evs. split; [done|]. split; [by eapply HP|done].
Qed.

Lemma spec_then {A B} (m : BM A) (f : A -> BM B) j0 es0 R (E1 : Job -> list Event -> Prop) (Q : B -> Job -> list Event -> Prop) (E : Job -> list Event -> Prop) :
  spec m j0 es0 R E1 -> (forall j evs, E1 j evs -> E j evs) ->
  (forall a j evs, R a j evs -> spec (f a) j (es0 ++ evs) (fun b j' evs' => Q b j' (evs ++ evs')) (fun j' evs' => E j' (evs ++ evs'))) ->
  spec (m ≫= f) j0 es0 Q E.
Proof. intros Hm HE Hf. eapply spec_bind; [|exact Hf]. eapply spec_weaken; [exact Hm|auto|exact HE]. Qed.

(** What a request to the session does to a backup. *)
Lemma spec_request {A} (m : WM A) r (g : A -> Prop) j0 es0 :
  (forall s w, agrees s -> match m s w with
    | (Ok a, sw) => agrees sw.1 /\ g a /\ run_request r s w = (Ok tt, sw)
    | (Err er, sw) => agrees sw.1 /\ run_request r s w = (Err er, sw) end) ->
  spec (bdo m) j0 es0 (fun a j evs => g a /\ j = j0 /\ evs = [Done r]) (fun j evs => j = j0 /\ evs = [Failed r]).
Proof.
  intros Hm s w Hr Ha. specialize (Hm s w Ha). unfold bdo. destruct (m s w) as [[a|er] [s' w']].
  - destruct Hm as (Ha' & Hg & Hrun). split; [done|]. exists [Done r]. split; [by eapply ran_done|done].
  - destruct Hm as (Ha' & Hrun). split; [done|]. exists [Failed r]. split; [by eapply ran_failed|done].
Qed.

Lemma run_store tk data c pt nonce s w :
  run_request (RStore tk data c pt nonce) s w =
    match bump_ref_if_exists (cid data) s with
    | Some (_, s') => (Ok tt, (s', w))
    | None =>
        match seal_chunk e (cid data) data c nonce with
        | Ok packed =>
            match commit_prepacked_chunk e data_target tk (cid data) packed pt s w with
            | (Ok _, sw) => (Ok tt, sw)
            | (Err er, sw) => (Err er, sw)
            end
        | Err er => (Err er, (s, w))
        end
    end.
Proof.
  unfold run_request. rewrite bind_wm. unfold store_chunk. fold (cid data). unfold mbind at 1, WM_bind at 1, wget. cbn beta iota.
  destruct (bump_ref_if_exists (cid data) s) as [[size s']|]; [done|]. rewrite bind_wm. unfold wlift.
  destruct (seal_chunk e (cid data) data c nonce) as [packed|er]; [|done]. rewrite bind_wm.
  by destruct (commit_prepacked_chunk e data_target tk (cid data) packed pt s w) as [[z|er] [s' w']].
Qed.

(** Nothing but counters has changed. *)
Definition quiet (j j' : Job) : Prop :=
  j_stream j' = j_stream j /\ j_ptrs j' = j_ptrs j /\ j_cache j' = j_cache j /\ errors (j_stats j') = errors (j_stats j).

Lemma quiet_refl j : quiet j j.
Proof. done. Qed.
Lemma quiet_trans j1 j2 j3 : quiet j1 j2 -> quiet j2 j3 -> quiet j1 j3.
Proof. intros (? & ? & ? & ?) (? & ? & ? & ?). unfold quiet. split_and!; congruence. Qed.

Context (input : nat -> Input) (Hinput : forall n, length (in_nonce (input n)) = NONCE_LEN).

Lemma spec_draw {B} (f : Input -> BM B) j0 es0 Q E :
  spec (f (input (j_used j0))) (set_used (S (j_used j0)) j0) es0 Q E -> spec (draw input ≫= f) j0 es0 Q E.
Proof. intros Hf s w Hr Ha. by apply Hf. Qed.

(** Events that are not of the item stream. *)
Definition off_stream (ids : list ChunkId) (evs : list Event) : Prop := trees evs = [] /\ data_refs evs = ids.

Lemma off_stream_app ids1 ids2 evs1 evs2 : off_stream ids1 evs1 -> off_stream ids2 evs2 -> off_stream (ids1 ++ ids2) (evs1 ++ evs2).
Proof. intros [H1 H2] [H3 H4]. split; [by rewrite trees_app, H1, H3|by rewrite data_refs_app, H2, H4]. Qed.

(** The events of work given up halfway. *)
Definition leaked (ids : list ChunkId) (evs : list Event) : Prop := trees evs = [] /\ data_refs evs `prefix_of` ids.

Lemma leaked_nil ids : leaked ids [].
Proof. split; [done|apply prefix_nil]. Qed.
Lemma leaked_failed ids r : leaked ids [Failed r].
Proof. split; [done|apply prefix_nil]. Qed.
Lemma leaked_all ids evs : off_stream ids evs -> leaked ids evs.
Proof. intros [H1 <-]. by split. Qed.
Lemma leaked_app ids1 ids2 evs1 evs2 : off_stream ids1 evs1 -> leaked ids2 evs2 -> leaked (ids1 ++ ids2) (evs1 ++ evs2).
Proof. intros [H1 H2] [H3 H4]. split; [by rewrite trees_app, H1, H3|]. rewrite data_refs_app, H2. by apply prefix_app. Qed.
Lemma leaked_more ids ids' evs : leaked ids evs -> leaked (ids ++ ids') evs.
Proof. intros [H1 H2]. split; [done|]. by apply prefix_app_r. Qed.

Lemma worker_chunk_spec c item data wc j0 es0 : classified c data wc ->
  spec (process_worker_chunk e data_target input c dedup_filter item wc) j0 es0
    (fun it j evs => (exists r, it = push_chunk_ref r item /\ ref_id r = cid data /\ ref_size r = u32_wrap (blen data)) /\ quiet j0 j /\ off_stream [cid data] evs)
    (fun j evs => quiet j0 j /\ leaked [cid data] evs).
Proof.
  intros (nonce & Hn & Hcl) s w Hr Ha. unfold classify_chunk in Hcl.
  assert (Hres : forall f, f s = bump_ref_if_exists (cid data) s -> forall (k : option Z -> BM Item),
    (bdo (resolving f) ≫= k) j0 s w = match bump_ref_if_exists (cid data) s with
      | Some (size, s') => k (Some size) j0 s' w | None => k None j0 s w end).
  { intros f Hf k. unfold mbind, BM_bind, bdo, resolving. rewrite Hf. by destruct (bump_ref_if_exists (cid data) s) as [[size s']|]. }
  destruct (match dedup_filter with Some f => xor_contains f (chunk_id_to_u64 (cid data)) | None => false end) eqn:Hflt.
  - injection Hcl as <-. cbn [process_worker_chunk hc_chunk_id hc_data]. destruct dedup_filter as [f|] eqn:Hdf; [|done].
    rewrite Hres by (by apply (prefilter_hit_eq f)).
    set (r := RStore (in_tick (input (j_used j0))) data c Data (in_nonce (input (j_used j0)))). pose proof (run_store (in_tick (input (j_used j0))) data c Data (in_nonce (input (j_used j0))) s w) as Hrun. fold r in Hrun.
    destruct (bump_ref_if_exists (cid data) s) as [[size s']|] eqn:Hb.
    + cbn. split; [by eapply bump_keeps|]. exists [Done r]. split; [by eapply ran_done|]. split; [by eexists|]. by split.
    + unfold mbind at 1, BM_bind at 1, draw. cbn beta iota. unfold mbind at 1, BM_bind at 1, bdo, commit_chunk_inline. rewrite bind_wm. unfold wlift.
      destruct (seal_chunk e (cid data) data c (in_nonce (input (j_used j0)))) as [packed|er].
      2:{ split; [done|]. exists [Failed r]. split; [by eapply ran_failed|]. split; [done|apply leaked_failed]. }
      pose proof (commit_keeps (in_tick (input (j_used j0))) (cid data) packed Data s w Ha) as Hk.
      destruct (commit_prepacked_chunk e data_target (in_tick (input (j_used j0))) (cid data) packed Data s w) as [[z|er] [s' w']].
      * cbn. split; [done|]. exists [Done r]. split; [by eapply ran_done|]. split; [by eexists|]. by split.
      * split; [done|]. exists [Failed r]. split; [by eapply ran_failed|]. split; [done|apply leaked_failed].
  - destruct (pack_chunk_data e (cid data) data c nonce) as [packed|er] eqn:Hp; [|done]. cbn [mbind result_bind] in Hcl. injection Hcl as <-.
    apply pack_chunk_data_seals in Hp; [|done]. cbn [process_worker_chunk pp_chunk_id uncompressed_size pp_packed].
    set (r := RStore (in_tick (input (j_used j0))) data c Data nonce). pose proof (run_store (in_tick (input (j_used j0))) data c Data nonce s w) as Hrun. fold r in Hrun. rewrite Hp in Hrun.
    rewrite Hres by (destruct dedup_filter as [f|] eqn:Hdf; [by apply (prefilter_miss_eq f)|done]).
    destruct (bump_ref_if_exists (cid data) s) as [[size s']|] eqn:Hb.
    + cbn. split; [by eapply bump_keeps|]. exists [Done r]. split; [by eapply ran_done|]. split; [by eexists|]. by split.
    + unfold mbind at 1, BM_bind at 1, draw. cbn beta iota. unfold mbind at 1, BM_bind at 1, bdo.
      pose proof (commit_keeps (in_tick (input (j_used j0))) (cid data) packed Data s w Ha) as Hk.
      destruct (commit_prepacked_chunk e data_target (in_tick (input (j_used j0))) (cid data) packed Data s w) as [[z|er] [s' w']].
      * cbn. split; [done|]. exists [Done r]. split; [by eapply ran_done|]. split; [by eexists|]. by split.
      * split; [done|]. exists [Failed r]. split; [by eapply ran_failed|]. split; [done|apply leaked_failed].
Qed.

(** The item has got the chunks of these data. *)
Definition extended (item : Item) (datas : list bytes) (it : Item) : Prop :=
  exists rs, it = with_chunks (item_chunks item ++ rs) item /\ ref_id <$> rs = cid <$> datas.

Lemma extended_nil item : extended item [] item.
Proof. exists []. split; [|done]. rewrite app_nil_r. by destruct item. Qed.
Lemma extended_app item it it' ds ds' : extended item ds it -> extended it ds' it' -> extended item (ds ++ ds') it'.
Proof.
  intros (rs & -> & H1) (rs' & -> & H2). exists (rs ++ rs'). cbn [with_chunks item_chunks]. split; [by rewrite app_assoc|]. by rewrite !fmap_app, H1, H2.
Qed.
Lemma extended_push item r d : ref_id r = cid d -> extended item [d] (push_chunk_ref r item).
Proof. intros Hr. exists [r]. split; [done|]. by rewrite !list_fmap_singleton, Hr. Qed.

Lemma worker_chunks_spec c wcs : forall item datas j0 es0, Forall2 (classified c) datas wcs ->
  spec (process_worker_chunks e data_target input c dedup_filter item wcs) j0 es0
    (fun it j evs => extended item datas it /\ quiet j0 j /\ off_stream (cid <$> datas) evs) (fun j evs => quiet j0 j /\ leaked (cid <$> datas) evs).
Proof.
  induction wcs as [|wc wcs IH]; intros item datas j0 es0 Hcl.
  { apply Forall2_nil_inv_r in Hcl as ->. apply spec_ret. split; [apply extended_nil|]. by split. }
  apply Forall2_cons_inv_r in Hcl as (data & datas' & Hc & Hcl & ->). cbn [process_worker_chunks].
  eapply spec_then; [by apply worker_chunk_spec|intros j evs [Hq Hl]; split; [done|by apply (leaked_more [cid data])]|]. intros it j evs ((r & -> & Hid & _) & Hq & Ho).
  eapply spec_weaken; [by apply IH| |].
  - intros it' j' evs' (Hx & Hq' & Ho'). split; [apply (extended_app item (push_chunk_ref r item) it' [data] datas'); [by apply extended_push|done]|].
    split; [by eapply quiet_trans|]. by apply (off_stream_app [cid data]).
  - intros j' evs' [Hq' Ht]. split; [by eapply quiet_trans|]. rewrite fmap_cons. exact (leaked_app [cid data] (cid <$> datas') _ _ Ho Ht).
Qed.

Lemma classify_all_spec c raw : forall j0 es0 E,
  spec (classify_all e input c dedup_filter raw) j0 es0
    (fun rs j evs => Forall2 (fun data r => match r with Ok wc => classified c data wc | Err _ => True end) raw rs /\ quiet j0 j /\ evs = []) E.
Proof.
  induction raw as [|data raw IH]; intros j0 es0 E; cbn [classify_all]; [by apply spec_ret|]. apply spec_draw. cbv zeta.
  eapply spec_bind; [apply IH|]. intros rs j evs (Hrs & Hq & ->). apply spec_ret. split; [|split; [exact Hq|done]].
  constructor; [|done]. fold (cid data). destruct (classify_chunk e (cid data) data dedup_filter c _) as [wc|] eqn:Hc; [|done]. by exists (in_nonce (input (j_used j0))).
Qed.

Lemma collect_results_spec {A B} (R : A -> B -> Prop) (xs : list A) (rs : list (res B)) l :
  Forall2 (fun x r => match r with Ok b => R x b | Err _ => True end) xs rs -> collect_results rs = Ok l -> Forall2 R xs l.
Proof.
  intros Hf. revert l. induction Hf as [|x r xs rs Hr Hf IH]; intros l; cbn [collect_results]; [intros [= <-]; constructor|].
  destruct r as [b|]; [|done]. destruct (collect_results rs) as [l'|]; [|done]. intros [= <-]. constructor; auto.
Qed.

Lemma classified_all_spec c raw {B} (f : list WorkerChunk -> BM B) j0 es0 Q (E : Job -> list Event -> Prop) :
  (forall j, quiet j0 j -> E j []) ->
  (forall wcs j, Forall2 (classified c) raw wcs -> quiet j0 j -> spec (f wcs) j es0 Q E) ->
  spec (results ← classify_all e input c dedup_filter raw; worker_chunks ← blift (collect_results results); f worker_chunks) j0 es0 Q E.
Proof.
  intros HE Hf. eapply spec_bind; [apply classify_all_spec|]. intros rs j evs (Hrs & Hq & ->). rewrite app_nil_r. cbn [app].
  eapply spec_bind with (R := fun wcs j' evs => Forall2 (classified c) raw wcs /\ j' = j /\ evs = []).
  { apply spec_lift. destruct (collect_results rs) as [l|] eqn:Hl; [|by apply HE]. split; [by eapply collect_results_spec|done]. }
  intros wcs j' evs (Hw & -> & ->). rewrite app_nil_r. by apply Hf.
Qed.

Lemma file_batch_spec c raw item j0 es0 :
  spec (flush_regular_file_batch e data_target input c dedup_filter raw item) j0 es0
    (fun it j evs => extended item raw it /\ quiet j0 j /\ off_stream (cid <$> raw) evs) (fun j evs => quiet j0 j /\ leaked (cid <$> raw) evs).
Proof.
  unfold flush_regular_file_batch. destruct raw as [|d raw]; [apply spec_ret; split; [apply extended_nil|by split]|].
  apply classified_all_spec; [intros j Hq; split; [done|apply leaked_nil]|]. intros wcs j Hw Hq. eapply spec_weaken; [by apply worker_chunks_spec| |].
  - intros it j' evs (H1 & H2 & H3). split; [done|]. split; [by eapply quiet_trans|done].
  - intros j' evs [H1 H2]. split; [by eapply quiet_trans|done].
Qed.

Context (max_pending_transform_bytes : Z) (max_pending_file_actions : nat).

(** What can be read of a file. *)
Fixpoint readable (chunks : list (res bytes)) : list bytes :=
  match chunks with Ok data :: chunks' => data :: readable chunks' | _ => [] end.

Definition read_error (contents : res (list (res bytes))) : option VykarError :=
  match contents with Err er => Some er | Ok chunks => head (omap (fun r => match r with Err er => Some er | Ok _ => None end) chunks) end.

(** The errors of sealing a chunk or of adding it to a pack, which may write
    one out or wait for the upload of another. *)
Inductive storing_failed (er : VykarError) : Prop :=
  | sealing_failed id data c nonce : pack_chunk_data e id data c nonce = Err er -> storing_failed er
  | inline_failed id data c nonce : seal_chunk e id data c nonce = Err er -> storing_failed er
  | packing_failed tk id packed s w : (commit_prepacked_chunk e data_target tk id packed Data s w).1 = Err er -> storing_failed er.

(** Soft errors come from reading the file or from storing its chunks. *)
Definition soft_from (contents : res (list (res bytes))) (er : VykarError) : Prop :=
  is_soft_file_error er = true -> read_error contents = Some er \/ storing_failed er.
Lemma storing_soft contents er : storing_failed er -> soft_from contents er.
Proof. by right. Qed.

Lemma resolving_never (f : Session -> option (Z * Session)) P : raises (bdo (resolving f)) P.
Proof. apply raises_do. intros s w er. unfold resolving. by destruct (f s) as [[]|]. Qed.
Lemma draw_never P : raises (draw input) P.
Proof. by intros j s w er st. Qed.
Lemma worker_chunk_raises contents c item wc : raises (process_worker_chunk e data_target input c dedup_filter item wc) (soft_from contents).
Proof.
  assert (Hc : forall tk id packed, raises (bdo (commit_prepacked_chunk e data_target tk id packed Data)) (soft_from contents)).
  { intros tk id packed. apply raises_do. intros s w er Her. by eapply storing_soft, packing_failed. }
  destruct wc as [p|h]; cbn [process_worker_chunk]; (apply raises_bind; [apply resolving_never|]; intros [csize|];
    [apply raises_bind; [apply raises_modify|intros _; apply raises_ret]|]; apply raises_bind; [apply draw_never|]; intros i;
    apply raises_bind; [|intros z; apply raises_bind; [apply raises_modify|intros _; apply raises_ret]]); [apply Hc|].
  apply raises_do. intros s w er. unfold commit_chunk_inline. rewrite bind_wm. unfold wlift.
  destruct (seal_chunk e _ _ c _) as [packed|er'] eqn:E; [intros Her; by eapply storing_soft, packing_failed|]. intros [= <-]. by eapply storing_soft, inline_failed.
Qed.
Lemma worker_chunks_raise contents c wcs : forall item, raises (process_worker_chunks e data_target input c dedup_filter item wcs) (soft_from contents).
Proof. induction wcs as [|wc wcs IH]; intros item; [apply raises_ret|]. apply raises_bind; [apply worker_chunk_raises|apply IH]. Qed.

Definition sealed_or_failed (r : res WorkerChunk) : Prop := forall er, r = Err er -> storing_failed er.
Lemma classify_all_sealed c raw : forall j s w rs st, classify_all e input c dedup_filter raw j s w = (Ok rs, st) -> Forall sealed_or_failed rs.
Proof.
  induction raw as [|data raw IH]; intros j s w rs st; cbn [classify_all]; [by intros [= <- _]|]. unfold mbind at 1, BM_bind at 1, draw. cbv zeta.
  unfold mbind at 1, BM_bind at 1. destruct (classify_all _ _ _ _ raw _ _ _) as [[rs'|er] [[j' s'] w']] eqn:E; [|done]. intros [= <- _]. apply Forall_cons. split; [|by eapply IH].
  intros er. unfold classify_chunk. destruct (match dedup_filter with Some f => _ | None => _ end); [done|].
  destruct (pack_chunk_data e _ data c _) as [packed|er'] eqn:Ep; [done|]. intros [= <-]. by eapply sealing_failed.
Qed.
Lemma collect_results_error rs er : Forall sealed_or_failed rs -> collect_results rs = Err er -> storing_failed er.
Proof.
  induction 1 as [|r rs Hr _ IH]; [done|]. cbn [collect_results]. destruct r as [wc|er']; [|intros [= <-]; by apply Hr].
  destruct (collect_results rs) as [l|er'] eqn:E; [done|]. intros [= <-]. by apply IH.
Qed.
Lemma file_batch_raises contents c raw item : raises (flush_regular_file_batch e data_target input c dedup_filter raw item) (soft_from contents).
Proof.
  unfold flush_regular_file_batch. destruct raw as [|d raw]; [apply raises_ret|]. intros j s w er st. unfold mbind at 1, BM_bind at 1.
  destruct (classify_all _ _ _ _ (d :: raw) j s w) as [[rs|er'] [[j' s'] w']] eqn:E.
  - apply classify_all_sealed in E. revert j' s' w' er st. change (raises (wcs ← blift (collect_results rs); process_worker_chunks e data_target input c dedup_filter item wcs) (soft_from contents)).
    apply raises_bind; [|intros wcs; apply worker_chunks_raise]. apply raises_lift. intros er Her. by eapply storing_soft, collect_results_error.
  - exfalso. clear -E. revert j s w E. generalize (d :: raw). intros l. induction l as [|x l IH]; intros j s w; cbn [classify_all]; [done|].
    unfold mbind at 1, BM_bind at 1, draw. cbv zeta. unfold mbind at 1, BM_bind at 1.
    destruct (classify_all _ _ _ _ l _ _ _) as [[rs'|er] [[j1 s1] w1]] eqn:E; [done|]. intros [= <- <- <- <-]. by eapply IH.
Qed.
Lemma chunk_loop_raises all c chunks : (forall er, read_error (Ok chunks) = Some er -> read_error (Ok all) = Some er) -> forall raw pending item,
  raises (chunk_loop e data_target input max_pending_transform_bytes max_pending_file_actions c dedup_filter chunks raw pending item) (soft_from (Ok all)).
Proof.
  induction chunks as [|r chunks IH]; intros Hsub raw pending item; cbn [chunk_loop]; [apply raises_ret|].
  destruct r as [data|er]; [|apply raises_fail; intros _; left; by apply Hsub]. cbv zeta.
  destruct (_ || _); [apply raises_bind; [apply file_batch_raises|intros it]|]; by apply IH.
Qed.

Lemma chunk_loop_spec c chunks : forall raw pending item j0 es0,
  spec (chunk_loop e data_target input max_pending_transform_bytes max_pending_file_actions c dedup_filter chunks raw pending item) j0 es0
    (fun p j evs => exists datas done0, chunks = Ok <$> datas /\ raw ++ datas = done0 ++ p.1 /\ extended item done0 p.2 /\
       quiet j0 j /\ off_stream (cid <$> done0) evs) (fun j evs => quiet j0 j /\ leaked (cid <$> raw ++ readable chunks) evs).
Proof.
  induction chunks as [|r chunks IH]; intros raw pending item j0 es0; cbn [chunk_loop].
  { apply spec_ret. exists [], []. cbn [fst snd]. rewrite app_nil_r. split; [done|]. split; [done|]. split; [apply extended_nil|by split]. }
  destruct r as [data|er]; [|apply spec_fail; split; [done|apply leaked_nil]]. cbv zeta. destruct (_ || _).
  - eapply spec_then; [apply file_batch_spec| |].
    { intros j evs [Hq Hl]. split; [done|]. cbn [readable]. rewrite cons_middle, app_assoc, fmap_app. by apply leaked_more. }
    intros it j evs (Hx & Hq & Ho). eapply spec_weaken; [apply IH| |].
    + intros [raw' it'] j' evs' (datas & done0 & -> & Hd & Hx' & Hq' & Ho'). cbn [fst snd] in *. exists (data :: datas), ((raw ++ [data]) ++ done0).
      split; [done|]. split; [rewrite <- app_assoc; cbn [app]; rewrite <- Hd; cbn [app]; by rewrite <- app_assoc|]. split; [by eapply extended_app|].
      split; [by eapply quiet_trans|]. rewrite fmap_app. by apply off_stream_app.
    + intros j' evs' [Hq' Ht]. split; [by eapply quiet_trans|]. cbn [readable]. rewrite cons_middle, app_assoc, fmap_app. by apply leaked_app.
  - eapply spec_weaken; [apply IH| |]; [|intros j' evs' Hl; cbn [readable]; by rewrite cons_middle, app_assoc].
    intros [raw' it'] j' evs' (datas & done0 & -> & Hd & Hx). cbn [fst snd] in *.
    exists (data :: datas), done0. split; [done|]. split; [by rewrite <- Hd, <- app_assoc|done].
Qed.

Lemma reuse_refs_spec refs : forall j0 es0,
  spec (bdo (reuse_refs refs)) j0 es0 (fun _ j evs => j = j0 /\ off_stream (ref_id <$> refs) evs) (fun j evs => j = j0 /\ leaked (ref_id <$> refs) evs).
Proof.
  induction refs as [|r refs IH]; intros j0 es0 s w Hr Ha; cbn [reuse_refs].
  { split; [done|]. exists []. by rewrite app_nil_r. }
  unfold bdo. rewrite bind_wm. assert (Hrun : run_request (RReuse (ref_id r)) s w = match reuse_cached_chunk_ref (ref_id r) s w with (Ok _, sw) => (Ok tt, sw) | (Err er, sw) => (Err er, sw) end).
  { unfold run_request. rewrite bind_wm. by destruct (reuse_cached_chunk_ref (ref_id r) s w) as [[] []]. }
  unfold reuse_cached_chunk_ref in *. destruct (bump_ref_if_exists (ref_id r) s) as [[size s']|] eqn:Hb.
  2:{ split; [done|]. exists [Failed (RReuse (ref_id r))]. split; [by eapply ran_failed|]. split; [done|apply leaked_failed]. }
  pose proof (ran_done s0 w0 es0 s w _ s' w Hr Hrun) as Hr'. pose proof (bump_keeps _ _ _ _ Ha Hb) as Ha'.
  specialize (IH j0 _ s' w Hr' Ha'). unfold bdo in IH. rewrite bind_wm. destruct (reuse_refs refs s' w) as [[z|er] [s2 w2]].
  - destruct IH as (H1 & evs & H2 & _ & Ho). split; [done|]. exists (Done (RReuse (ref_id r)) :: evs). rewrite <- app_assoc in H2. split; [done|]. split; [done|].
    rewrite fmap_cons. exact (off_stream_app [ref_id r] (ref_id <$> refs) [Done (RReuse (ref_id r))] evs (conj eq_refl eq_refl) Ho).
  - destruct IH as (H1 & evs & H2 & _ & Ho). split; [done|]. exists (Done (RReuse (ref_id r)) :: evs). rewrite <- app_assoc in H2. split; [done|]. split; [done|].
    rewrite fmap_cons. exact (leaked_app [ref_id r] (ref_id <$> refs) [Done (RReuse (ref_id r))] evs (conj eq_refl eq_refl) Ho).
Qed.

Lemma cache_hit_spec item refs j0 es0 :
  spec (commit_cache_hit item refs) j0 es0
    (fun it j evs => it = with_chunks refs item /\ quiet j0 j /\ off_stream (ref_id <$> refs) evs) (fun j evs => quiet j0 j /\ leaked (ref_id <$> refs) evs).
Proof.
  unfold commit_cache_hit. eapply spec_then; [apply reuse_refs_spec| |].
  - intros j evs [-> Ht]. by split.
  - intros z j evs [-> Ho]. cbv zeta. apply spec_change, spec_ret. rewrite !app_nil_r. by split.
Qed.

(** *** What a backup has written *)

(** The items of the stream, the references taken, the files noted in the new
    cache, and the errors counted. *)
Record Outcome := mkOutcome { o_items : list Item; o_refs : list ChunkId; o_notes : list Noted; o_errors : nat }.
Definition nothing : Outcome := mkOutcome [] [] [] 0.
Definition one_error : Outcome := mkOutcome [] [] [] 1.
Definition oapp (o1 o2 : Outcome) : Outcome :=
  mkOutcome (o_items o1 ++ o_items o2) (o_refs o1 ++ o_refs o2) (o_notes o1 ++ o_notes o2) (o_errors o1 + o_errors o2).
Definition osum (os : list Outcome) : Outcome := foldr oapp nothing os.

Lemma oapp_assoc o1 o2 o3 : oapp o1 (oapp o2 o3) = oapp (oapp o1 o2) o3.
Proof. unfold oapp. cbn. f_equal; [by rewrite app_assoc..|lia]. Qed.
Lemma oapp_nothing o : oapp o nothing = o.
Proof. destruct o. unfold oapp. cbn. by rewrite !app_nil_r, Nat.add_0_r. Qed.
Lemma nothing_oapp o : oapp nothing o = o.
Proof. by destruct o. Qed.
Lemma osum_app os1 os2 : osum (os1 ++ os2) = oapp (osum os1) (osum os2).
Proof. induction os1 as [|o os1 IH]; [by rewrite nothing_oapp|]. change (oapp o (osum (os1 ++ os2)) = oapp (oapp o (osum os1)) (osum os2)). by rewrite IH, oapp_assoc. Qed.
Lemma osum_one o : osum [o] = o.
Proof. apply oapp_nothing. Qed.
(** When an error is counted does not matter. *)
Lemma error_early o : oapp o one_error = oapp one_error o.
Proof. destruct o. unfold oapp. cbn. by rewrite !app_nil_r, Nat.add_1_r. Qed.

Context `{Hitems : ItemStream} (blake2b_16 : bytes -> bytes).

Definition count_errors (n : nat) (z : Z) : Z := Nat.iter n (fun z => u64_add z 1) z.

Lemma count_errors_add n m z : count_errors (n + m) z = count_errors m (count_errors n z).
Proof. unfold count_errors. rewrite Nat.add_comm. apply Nat.iter_add. Qed.

(** From [j0] to [j] by the requests [evs]. *)
Record wrote (j0 j : Job) (evs : list Event) (o : Outcome) : Prop := {
  wrote_stream : concat (trees evs) ++ j_stream j = j_stream j0 ++ concat (encode_item <$> o_items o);
  wrote_ptrs : j_ptrs j = j_ptrs j0 ++ (cid <$> trees evs);
  wrote_refs : data_refs evs = o_refs o;
  wrote_notes : insert_all blake2b_16 (o_notes o) (j_cache j0) = Some (j_cache j);
  wrote_errors : errors (j_stats j) = count_errors (o_errors o) (errors (j_stats j0));
}.

Lemma insert_all_app ins1 ins2 c : insert_all blake2b_16 (ins1 ++ ins2) c = insert_all blake2b_16 ins1 c ≫= insert_all blake2b_16 ins2.
Proof. revert c. induction ins1 as [|i ins1 IH]; intros c; [done|]. cbn [app insert_all]. destruct (fc_insert _ _ _ _ c); [apply IH|done]. Qed.

Lemma wrote_nothing j : wrote j j [] nothing.
Proof. split; cbn; [by rewrite app_nil_r|by rewrite app_nil_r|done..]. Qed.
Lemma wrote_quiet j0 j evs ids : quiet j0 j -> off_stream ids evs -> wrote j0 j evs (mkOutcome [] ids [] 0).
Proof. intros (H1 & H2 & H3 & H4) [H5 H6]. split; rewrite ?H5; cbn; [by rewrite app_nil_r|by rewrite app_nil_r|done|by rewrite H3|done]. Qed.
Lemma wrote_app j0 j1 j2 evs1 evs2 o1 o2 : wrote j0 j1 evs1 o1 -> wrote j1 j2 evs2 o2 -> wrote j0 j2 (evs1 ++ evs2) (oapp o1 o2).
Proof.
  intros [H1 H2 H3 H4 H5] [H6 H7 H8 H9 H10]. split.
  - rewrite trees_app, concat_app, <- app_assoc, H6, app_assoc, H1. cbn. by rewrite fmap_app, concat_app, app_assoc.
  - by rewrite H7, H2, trees_app, fmap_app, app_assoc.
  - by rewrite data_refs_app, H3, H8.
  - cbn. by rewrite insert_all_app, H4.
  - cbn [oapp o_errors]. by rewrite H10, H5, count_errors_add.
Qed.

(** Steps that write what is not known yet. *)
Lemma spec_wrote {A B} (m : BM A) (f : A -> BM B) j0 es0 R o (Q : B -> Job -> list Event -> Prop) E1 E :
  spec m j0 es0 (fun a j evs => R a /\ wrote j0 j evs o) E1 -> (forall j evs, E1 j evs -> E j evs) ->
  (forall a j evs, R a -> wrote j0 j evs o ->
    spec (f a) j (es0 ++ evs) (fun b j' evs' => Q b j' (evs ++ evs')) (fun j' evs' => E j' (evs ++ evs'))) ->
  spec (m ≫= f) j0 es0 Q E.
Proof. intros Hm HE Hf. eapply spec_then; [exact Hm|done|]. intros a j evs [H1 H2]. by apply Hf. Qed.

(** *** The item stream *)

Definition failing : Job -> list Event -> Prop := fun _ _ => True.

Lemma flush_stream_spec c j0 es0 :
  spec (flush_item_stream_chunk e data_target input c) j0 es0 (fun _ j evs => wrote j0 j evs nothing) failing.
Proof.
  unfold flush_item_stream_chunk. apply spec_job. destruct (j_stream j0) as [|b l] eqn:Hs; [apply spec_ret, wrote_nothing|].
  apply spec_change, spec_draw. set (i := input _). set (j1 := set_used _ _).
  eapply spec_then; [apply (spec_request _ (RStore (in_tick i) (b :: l) c Tree (in_nonce i)) (fun r => r.1.1 = cid (b :: l)))|done|].
  - intros s w Ha. rewrite run_store. unfold store_chunk. fold (cid (b :: l)). unfold mbind at 1, WM_bind at 1, wget. cbn beta iota.
    destruct (bump_ref_if_exists (cid (b :: l)) s) as [[size s']|] eqn:Hb; [split; [by eapply bump_keeps|done]|]. rewrite bind_wm. unfold wlift.
    destruct (seal_chunk e (cid (b :: l)) (b :: l) c (in_nonce i)) as [packed|er]; [|by split]. rewrite bind_wm.
    pose proof (commit_keeps (in_tick i) (cid (b :: l)) packed Tree s w Ha) as Hk.
    by destruct (commit_prepacked_chunk e data_target (in_tick i) (cid (b :: l)) packed Tree s w) as [[z|er] [s' w']].
  - intros r j evs (Hr & -> & ->). apply spec_modify. rewrite Hr. split; try done.
    cbn [trees tree_of fmap list_fmap concat app j_stream set_stream j1 set_used o_items nothing]. rewrite Hs. by rewrite !app_nil_r.
Qed.

Definition item_only (item : Item) : Outcome := mkOutcome [item] [] [] 0.

Lemma append_item_spec config c item j0 es0 :
  spec (append_item_to_stream e data_target input config c item) j0 es0 (fun _ j evs => wrote j0 j evs (item_only item)) failing.
Proof.
  unfold append_item_to_stream. apply spec_change, spec_job. set (j1 := set_stream _ _ _).
  assert (W1 : wrote j0 j1 [] (item_only item)) by (split; cbn; [by rewrite app_nil_r|by rewrite app_nil_r|done..]).
  destruct (_ <=? _); [|by apply spec_ret]. eapply spec_weaken; [apply flush_stream_spec| |done].
  intros [] j evs W2. rewrite <- (oapp_nothing (item_only item)). by apply (wrote_app _ _ _ [] _ _ _ W1 W2).
Qed.

Lemma note_file_spec path m refs j0 es0 :
  spec (note_file blake2b_16 path m refs) j0 es0
    (fun _ j evs => wrote j0 j evs (mkOutcome [] [] [mkNoted path (file_stamp m) refs] 0)) (fun j evs => j = j0 /\ evs = []).
Proof.
  unfold note_file. apply spec_job. destruct (fc_insert _ _ _ _ (j_cache j0)) as [c|] eqn:Hc; [|by apply spec_fail].
  apply spec_modify. split; cbn; [by rewrite app_nil_r|by rewrite app_nil_r|done|by rewrite Hc|done].
Qed.

(** *** Files *)

Context (open_chunks : string -> res (list (res bytes))) (read_file : string -> result IoError bytes)
  (read_link : string -> result IoError string) (read_xattrs : string -> option (gmap string bytes)).
Context (old : FileCache) (parent : option (gmap bytes ParentEntry)) (min_chunk_size : Z).
Context (items_config : ChunkerConfig) (compression : Compression) (xattrs_enabled : bool).

(** The chunks the contents of a file are stored as: those of the cached
    entry, or one for each piece of the contents. *)
Definition refs_of_file (path : string) (m : MetadataSummary) (pieces : res (list (res bytes))) (refs : list ChunkRef) : Prop :=
  match effective_hit blake2b_16 old parent path m with
  | Some cached_refs => refs = cached_refs
  | None => exists datas, pieces = Ok (Ok <$> datas) /\ ref_id <$> refs = cid <$> datas
  end.
(** What of it may have been stored before an error. *)
Definition partial_refs (path : string) (m : MetadataSummary) : list ChunkId :=
  match effective_hit blake2b_16 old parent path m with
  | Some cached_refs => ref_id <$> cached_refs
  | None => match open_chunks path with Ok chunks => cid <$> readable chunks | Err _ => [] end
  end.

Definition file_outcome (path : string) (m : MetadataSummary) (item : Item) (refs : list ChunkRef) : Outcome :=
  mkOutcome [with_chunks refs item] (ref_id <$> refs) [mkNoted path (file_stamp m) refs] 0.

Lemma wrote_noted j0 j1 j2 evs1 evs2 ids note :
  quiet j0 j1 -> off_stream ids evs1 -> wrote j1 j2 evs2 (mkOutcome [] [] [note] 0) -> wrote j0 j2 (evs1 ++ evs2) (mkOutcome [] ids [note] 0).
Proof. intros Hq Ho W. rewrite <- (app_nil_r ids). exact (wrote_app _ _ _ _ _ _ _ (wrote_quiet _ _ _ _ Hq Ho) W). Qed.

Lemma readable_all datas : readable (Ok <$> datas) = datas.
Proof. induction datas as [|d datas IH]; [done|]. cbn. by rewrite IH. Qed.

Lemma extended_fresh item datas it : item_chunks item = [] -> extended item datas it ->
  it = with_chunks (item_chunks it) item /\ ref_id <$> item_chunks it = cid <$> datas.
Proof. intros Hi (rs & -> & Hrs). rewrite Hi. by split. Qed.

Lemma regular_file_spec path m item j0 es0 : item_chunks item = [] ->
  spec (process_regular_file_item e data_target blake2b_16 input max_pending_transform_bytes max_pending_file_actions open_chunks
      old parent compression dedup_filter path m item) j0 es0
    (fun it j evs => exists refs, it = with_chunks refs item /\ refs_of_file path m (open_chunks path) refs /\
       wrote j0 j evs (mkOutcome [] (ref_id <$> refs) [mkNoted path (file_stamp m) refs] 0))
    (fun j evs => quiet j0 j /\ leaked (partial_refs path m) evs).
Proof.
  intros Hi. unfold process_regular_file_item, refs_of_file, partial_refs. destruct (effective_hit _ old parent path m) as [refs|].
  - eapply spec_then; [apply cache_hit_spec|done|]. intros it j evs (-> & Hq & Ho).
    eapply spec_then; [apply note_file_spec| |].
    + intros j' evs' [-> ->]. rewrite app_nil_r. split; [done|by apply leaked_all].
    + intros [] j' evs' W. apply spec_ret. exists refs. split; [done|]. split; [done|]. rewrite app_nil_r. by eapply wrote_noted.
  - eapply spec_then with (R := fun chunks j evs => open_chunks path = Ok chunks /\ j = j0 /\ evs = []) (E1 := fun j evs => j = j0 /\ evs = []).
    { apply spec_lift. by destruct (open_chunks path). }
    { intros j evs [-> ->]. split; [done|apply leaked_nil]. }
    intros chunks j evs (-> & -> & ->). rewrite app_nil_r.
    eapply spec_then; [apply chunk_loop_spec|done|]. intros [raw it] j evs (datas & done0 & -> & Hd & Hx & Hq & Ho). cbn [fst snd app] in *.
    eapply spec_then; [apply file_batch_spec| |].
    { intros j' evs' [Hq' Hl]. split; [by eapply quiet_trans|]. rewrite readable_all, Hd, fmap_app. by apply leaked_app. }
    intros it' j' evs' (Hx' & Hq' & Ho').
    assert (Hall : off_stream (cid <$> datas) (evs ++ evs')) by (rewrite Hd, fmap_app; by apply off_stream_app).
    assert (Hq2 : quiet j0 (set_stats (add_file_count (j_stats j')) j')) by (by apply (quiet_trans _ _ _ (quiet_trans _ _ _ Hq Hq'))).
    pose proof (extended_app _ _ _ _ _ Hx Hx') as Hx2. rewrite <- Hd in Hx2. apply extended_fresh in Hx2 as [Hit Hids]; [|done].
    apply spec_change. eapply spec_then; [apply note_file_spec| |].
    + intros j2 evs2 [-> ->]. rewrite readable_all, app_nil_r. split; [done|by apply leaked_all].
    + intros [] j2 evs2 W. apply spec_ret. exists (item_chunks it'). split; [done|]. split; [by exists datas|].
      rewrite app_nil_r, app_assoc, Hids. by eapply wrote_noted.
Qed.

Lemma regular_file_raises path m item : raises (process_regular_file_item e data_target blake2b_16 input max_pending_transform_bytes max_pending_file_actions open_chunks
  old parent compression dedup_filter path m item) (soft_from (open_chunks path)).
Proof.
  assert (Hnote : forall refs, raises (note_file blake2b_16 path m refs) (soft_from (open_chunks path))).
  { intros refs. intros j s w er st. unfold note_file, bjob, mbind, BM_bind. destruct (fc_insert _ _ _ _ _); [done|]. by intros [= <- _]. }
  assert (Hreuse : forall refs s w er, (reuse_refs refs s w).1 = Err er -> is_soft_file_error er = false).
  { induction refs as [|r refs IH]; intros s w er; [done|]. cbn [reuse_refs]. rewrite bind_wm. unfold reuse_cached_chunk_ref.
    destruct (bump_ref_if_exists (ref_id r) s) as [[size s']|]; [|by intros [= <-]]. rewrite bind_wm. specialize (IH s' w er).
    destruct (reuse_refs refs s' w) as [[z|er'] [s2 w2]]; [done|exact IH]. }
  unfold process_regular_file_item. destruct (effective_hit _ old parent path m) as [refs|].
  - apply raises_bind; [|intros it; apply raises_bind; [apply Hnote|intros _; apply raises_ret]]. unfold commit_cache_hit.
    apply raises_bind; [|intros z; cbv zeta; apply raises_bind; [apply raises_modify|intros _; apply raises_ret]].
    apply raises_do. intros s w er Her Hs. apply Hreuse in Her. congruence.
  - apply raises_lifted; [intros er ->; by left|]. intros chunks E. rewrite E in *. apply raises_bind; [by apply chunk_loop_raises|]. intros [raw it].
    apply raises_bind; [apply file_batch_raises|]. intros it'. apply raises_bind; [apply raises_modify|]. intros _. apply raises_bind; [apply Hnote|intros _; apply raises_ret].
Qed.

(** *** Batches *)

Definition pending (b : CrossFileBatch) : Prop :=
  Forall (fun f => pf_chunk_count f = 1%nat /\ item_chunks (pf_item f) = []) (bt_files b) /\ length (bt_files b) = length (bt_raw_chunks b).
Definition flushed (fd : PendingBatchFile * bytes) (o : Outcome) : Prop :=
  exists r, ref_id r = cid fd.2 /\ o = file_outcome (pf_abs_path fd.1) (pf_metadata fd.1) (pf_item fd.1) [r].

Lemma extended_one item d it : item_chunks item = [] -> extended item [d] it -> exists r, ref_id r = cid d /\ it = with_chunks [r] item.
Proof.
  intros Hi (rs & -> & Hrs). rewrite Hi. destruct rs as [|r [|r' rs]]; [done| |done]. exists r. split; [|done]. by injection Hrs.
Qed.

Lemma flush_files_spec files : forall raw wcs j0 es0,
  Forall (fun f => pf_chunk_count f = 1%nat /\ item_chunks (pf_item f) = []) files -> length files = length raw -> Forall2 (classified compression) raw wcs ->
  spec (flush_files e data_target blake2b_16 input items_config compression dedup_filter files wcs) j0 es0
    (fun _ j evs => exists os, Forall2 flushed (zip files raw) os /\ wrote j0 j evs (osum os)) failing.
Proof.
  induction files as [|f files IH]; intros raw wcs j0 es0 Hf Hlen Hcl; cbn [flush_files].
  { apply spec_ret. exists []. split; [constructor|apply wrote_nothing]. }
  destruct raw as [|d raw]; [done|]. apply Forall2_cons_inv_l in Hcl as (wc & wcs' & Hc & Hcl & ->). apply Forall_cons in Hf as [[Hn Hi] Hf].
  rewrite Hn. cbn [take drop]. eapply spec_then; [apply (worker_chunks_spec _ _ _ [d]); by constructor|done|].
  intros it j evs (Hx & Hq & Ho). apply extended_one in Hx as (r & Hr & ->); [|done].
  apply spec_change. set (j1 := set_stats _ j). assert (Hq1 : quiet j0 j1) by exact Hq.
  eapply spec_then; [apply append_item_spec|done|]. intros [] j2 evs2 W2.
  eapply spec_then; [apply note_file_spec|done|]. intros [] j3 evs3 W3.
  eapply spec_weaken; [apply (IH raw wcs'); [done|by injection Hlen|done]| |done]. intros [] j4 evs4 (os & Hos & W4).
  exists (file_outcome (pf_abs_path f) (pf_metadata f) (pf_item f) [r] :: os). split; [constructor; [by exists r|done]|].
  pose proof (wrote_app _ _ _ _ _ _ _ (wrote_quiet _ _ _ _ Hq1 Ho) (wrote_app _ _ _ _ _ _ _ W2 (wrote_app _ _ _ _ _ _ _ W3 W4))) as W.
  rewrite !oapp_assoc in W. change (osum (?o :: ?l)) with (oapp o (osum l)). unfold file_outcome. rewrite list_fmap_singleton, Hr. exact W.
Qed.

Lemma flush_batch_spec b j0 es0 : pending b ->
  spec (flush_cross_file_batch e data_target blake2b_16 input items_config compression dedup_filter b) j0 es0
    (fun b' j evs => (pending b' /\ bt_files b' = []) /\ exists os, Forall2 flushed (zip (bt_files b) (bt_raw_chunks b)) os /\ wrote j0 j evs (osum os)) failing.
Proof.
  intros Hp. pose proof Hp as [Hf Hlen]. unfold flush_cross_file_batch, batch_is_empty. destruct (bt_files b) as [|f files] eqn:Hb.
  { apply spec_ret. split; [done|]. exists []. split; [constructor|apply wrote_nothing]. }
  rewrite <- Hb in *. apply classified_all_spec; [done|]. intros wcs j Hw Hq.
  eapply spec_then; [by apply (flush_files_spec _ (bt_raw_chunks b))|done|]. intros [] j' evs (os & Hos & W). apply spec_ret.
  split; [by repeat split; constructor|]. exists os. split; [done|]. rewrite app_nil_r.
  rewrite <- (nothing_oapp (osum os)). exact (wrote_app _ _ _ [] _ _ _ (wrote_quiet j0 j [] [] Hq (conj eq_refl eq_refl)) W).
Qed.

(** *** The walk *)

(** What becomes of an entry of the walk.  A file is left out, and counted, for
    a soft error alone: one of reading it, or, for a large file, one of storing
    its chunks, which the code does not tell apart from the former; the chunks
    of a large file stored before the error stay referenced. *)
Definition file_done (abs_path : string) (m : MetadataSummary) (item : Item) (o : Outcome) : Prop :=
  if md_size m <? min_chunk_size then
    (exists refs, refs_of_file abs_path m (match read_file abs_path with Ok data => Ok [Ok data] | Err er => Err (Io er) end) refs /\
       o = file_outcome abs_path m item refs) \/
    (exists er, read_file abs_path = Err er /\ is_soft_io_error er = true /\ o = one_error)
  else
    (exists refs, refs_of_file abs_path m (open_chunks abs_path) refs /\ o = file_outcome abs_path m item refs) \/
    (exists er lost, is_soft_file_error er = true /\ (read_error (open_chunks abs_path) = Some er \/ storing_failed er) /\
       lost `prefix_of` partial_refs abs_path m /\ o = mkOutcome [] lost [] 1).

Definition entry_done (prefix : option string) (wi : SequentialWalkItem) (o : Outcome) : Prop :=
  match wi with
  | WSkipped => o = one_error
  | WHardError _ => False
  | WEntry abs_path rel_path m t =>
      match entry_kind read_link abs_path t with
      | TSoft => o = one_error
      | THard _ => False
      | TSpecial => o = nothing
      | TItem ty link =>
          let item := walked_item read_xattrs prefix rel_path ty link xattrs_enabled abs_path m in
          if bool_decide (ty = RegularFile) && (0 <? md_size m) then file_done abs_path m item o else o = item_only item
      end
  end.

Section Walk.
Context (prefix : option string).

(** [o] has been written, and the batch holds the rest of the walk so far. *)
Definition due (walk : list SequentialWalkItem) (b : CrossFileBatch) (o : Outcome) : Prop :=
  pending b /\ forall ob, Forall2 flushed (zip (bt_files b) (bt_raw_chunks b)) ob ->
    exists os, Forall2 (entry_done prefix) walk os /\ osum os = oapp o (osum ob).

Lemma due_new : due [] batch_new nothing.
Proof. split; [by split|]. intros ob Hob. apply Forall2_nil_inv_l in Hob as ->. exists []. split; [constructor|done]. Qed.
Lemma due_flushed walk b b' o ob : due walk b o -> pending b' /\ bt_files b' = [] ->
  Forall2 flushed (zip (bt_files b) (bt_raw_chunks b)) ob -> due walk b' (oapp o (osum ob)).
Proof.
  intros [_ Hd] [Hp Hb] Hob. split; [done|]. intros ob' Hob'. rewrite Hb in Hob'. apply Forall2_nil_inv_l in Hob' as ->.
  destruct (Hd ob Hob) as (os & Hos & Hsum). exists os. split; [done|]. by rewrite oapp_nothing.
Qed.
Lemma due_snoc walk b o wi o' : due walk b o -> bt_files b = [] -> entry_done prefix wi o' -> due (walk ++ [wi]) b (oapp o o').
Proof.
  intros [Hp Hd] Hb Hw. split; [done|]. intros ob Hob. pose proof Hob as Hnil. rewrite Hb in Hnil. apply Forall2_nil_inv_l in Hnil as ->.
  destruct (Hd [] Hob) as (os & Hos & Hsum). exists (os ++ [o']). split; [by apply Forall2_app; [|repeat constructor]|].
  rewrite osum_app, osum_one, Hsum. by rewrite !oapp_nothing.
Qed.
Lemma due_counted walk b o wi o' : due walk b o -> entry_done prefix wi o' -> (forall x, oapp x o' = oapp o' x) -> due (walk ++ [wi]) b (oapp o o').
Proof.
  intros [Hp Hd] Hw Hc. split; [done|]. intros ob Hob. destruct (Hd ob Hob) as (os & Hos & Hsum).
  exists (os ++ [o']). split; [by apply Forall2_app; [|repeat constructor]|]. by rewrite osum_app, osum_one, Hsum, <- !oapp_assoc, Hc.
Qed.
Lemma due_pending walk b o wi item data m path : due walk b o -> item_chunks item = [] ->
  (forall r, ref_id r = cid data -> entry_done prefix wi (file_outcome path m item [r])) -> due (walk ++ [wi]) (batch_add_file item data m path b) o.
Proof.
  intros [[Hf Hlen] Hd] Hi Hw. split.
  - split; cbn [batch_add_file bt_files bt_raw_chunks]; [apply Forall_app; split; [done|by repeat constructor]|rewrite !length_app; cbn; lia].
  - cbn [batch_add_file bt_files bt_raw_chunks]. rewrite zip_with_app by done. intros ob Hob.
    apply Forall2_app_inv_l in Hob as (ob1 & ob2 & H1 & H2 & ->). apply Forall2_cons_inv_l in H2 as (o' & ob3 & (r & Hr & Ho') & H3 & ->).
    apply Forall2_nil_inv_l in H3 as ->. destruct (Hd ob1 H1) as (os & Hos & Hsum). exists (os ++ [o']).
    split; [apply Forall2_app; [done|]; constructor; [rewrite Ho'; by apply Hw|constructor]|]. by rewrite !osum_app, Hsum, oapp_assoc.
Qed.

Definition walked (walk : list SequentialWalkItem) (o : Outcome) (j0 : Job) (b : CrossFileBatch) (j : Job) (evs : list Event) : Prop :=
  exists o', due walk b (oapp o o') /\ wrote j0 j evs o'.

Lemma wrote_error j0 : wrote j0 (set_stats (add_error (j_stats j0)) j0) [] one_error.
Proof. split; cbn; [by rewrite app_nil_r|by rewrite app_nil_r|done..]. Qed.

(** A step that first writes out the batch. *)
Lemma flush_then_spec {B} walk b o (f : CrossFileBatch -> BM B) j0 es0 (Q : B -> Job -> list Event -> Prop) : due walk b o ->
  (forall b' j evs o', bt_files b' = [] -> due walk b' (oapp o o') -> wrote j0 j evs o' ->
    spec (f b') j (es0 ++ evs) (fun a j' evs' => Q a j' (evs ++ evs')) failing) ->
  spec (flush_cross_file_batch e data_target blake2b_16 input items_config compression dedup_filter b ≫= f) j0 es0 Q failing.
Proof.
  intros Hd Hf. eapply spec_then; [apply flush_batch_spec, Hd|done|]. intros b' j evs (Hb & os & Hos & W).
  apply (Hf b' j evs (osum os)); [apply Hb|by eapply due_flushed|done].
Qed.

Lemma error_spec walk b o wi j0 es0 : due walk b o -> entry_done prefix wi one_error ->
  spec (_ ← bmodify (fun j => set_stats (add_error (j_stats j)) j); mret b) j0 es0 (walked (walk ++ [wi]) o j0) failing.
Proof. intros Hd Hw. apply spec_change, spec_ret. exists one_error. split; [by apply due_counted; [..|apply error_early]|apply wrote_error]. Qed.

(** The last steps of an entry after the batch has been written. *)
Lemma last_step walk wi b o o1 o2 j0 j1 j2 evs1 evs2 : bt_files b = [] -> due walk b (oapp o o1) -> wrote j0 j1 evs1 o1 ->
  wrote j1 j2 evs2 o2 -> entry_done prefix wi o2 -> walked (walk ++ [wi]) o j0 b j2 (evs1 ++ evs2).
Proof. intros Hb Hd W1 W2 Hw. exists (oapp o1 o2). split; [rewrite oapp_assoc; by apply due_snoc|by eapply wrote_app]. Qed.

Lemma item_appended j0 j1 j2 evs1 evs2 ids notes n item :
  wrote j0 j1 evs1 (mkOutcome [] ids notes n) -> wrote j1 j2 evs2 (item_only item) -> wrote j0 j2 (evs1 ++ evs2) (mkOutcome [item] ids notes n).
Proof.
  intros W1 W2. pose proof (wrote_app _ _ _ _ _ _ _ W1 W2) as W. unfold oapp, item_only in W. cbn in W. by rewrite !app_nil_r, Nat.add_0_r in W.
Qed.

Lemma small_file_spec walk wi b o path m item j0 es0 : due walk b o -> item_chunks item = [] -> (md_size m <? min_chunk_size) = true ->
  (forall o', file_done path m item o' -> entry_done prefix wi o') ->
  spec (process_small_file e data_target blake2b_16 input read_file old parent items_config compression dedup_filter path m item b) j0 es0
    (walked (walk ++ [wi]) o j0) failing.
Proof.
  intros Hd Hi Hsz Hw. unfold process_small_file. unfold file_done, refs_of_file in Hw. rewrite Hsz in Hw.
  destruct (effective_hit _ old parent path m) as [refs|].
  - eapply flush_then_spec; [exact Hd|]. intros b' j1 evs1 o1 Hb Hd1 W1.
    eapply spec_then; [apply cache_hit_spec|done|]. intros it j2 evs2 (-> & Hq & Ho).
    eapply spec_then; [apply note_file_spec|done|]. intros [] j3 evs3 W3.
    eapply spec_then; [apply append_item_spec|done|]. intros [] j4 evs4 W4. apply spec_ret. rewrite app_nil_r.
    eapply last_step; [exact Hb|exact Hd1|exact W1| |apply Hw; left; exists refs; split; [done|reflexivity]].
    rewrite app_assoc. eapply item_appended; [by eapply wrote_noted|done].
  - destruct (read_file path) as [data|er] eqn:Hrd.
    2:{ destruct (is_soft_io_error er) eqn:Hs; [|by apply spec_fail]. apply error_spec; [done|]. apply Hw. right. by exists er. }
    assert (Hd' : due (walk ++ [wi]) (batch_add_file item data m path b) o).
    { apply due_pending; [done..|]. intros r Hr. apply Hw. left. exists [r]. split; [|done]. exists [data]. split; [done|]. by rewrite !list_fmap_singleton, Hr. }
    cbv zeta. destruct (batch_should_flush _).
    + eapply spec_weaken; [apply flush_batch_spec, Hd'| |done]. intros b' j evs (Hb & os & Hos & W). exists (osum os). split; [by eapply due_flushed|done].
    + apply spec_ret. exists nothing. rewrite oapp_nothing. split; [done|apply wrote_nothing].
Qed.

Lemma large_file_spec walk wi b o path m item j0 es0 : due walk b o -> item_chunks item = [] -> (md_size m <? min_chunk_size) = false ->
  (forall o', file_done path m item o' -> entry_done prefix wi o') ->
  spec (process_large_file e data_target blake2b_16 input max_pending_transform_bytes max_pending_file_actions open_chunks
      old parent items_config compression dedup_filter path m item b) j0 es0
    (walked (walk ++ [wi]) o j0) failing.
Proof.
  intros Hd Hi Hsz Hw. unfold process_large_file. unfold file_done in Hw. rewrite Hsz in Hw.
  eapply flush_then_spec; [exact Hd|]. intros b' j1 evs1 o1 Hb Hd1 W1.
  eapply spec_then; [eapply (spec_try_raises _ _ _ _ _ failing); [apply regular_file_raises|exact (regular_file_spec path m item j1 _ Hi)]|done|]. intros [it|er] j2 evs2 H.
  - destruct H as (refs & -> & Hrefs & W2). eapply spec_then; [apply append_item_spec|done|]. intros [] j3 evs3 W3. apply spec_ret. rewrite app_nil_r.
    eapply last_step; [exact Hb|exact Hd1|exact W1| |apply Hw; left; by exists refs]. by eapply item_appended.
  - destruct H as [Her [Hq [Ht Hl]]]. destruct (is_soft_file_error er) eqn:Hsoft; [|by apply spec_fail]. apply spec_change, spec_ret. rewrite app_nil_r.
    eapply last_step; [exact Hb|exact Hd1|exact W1| |apply Hw; right; exists er, (data_refs evs2); by auto].
    pose proof (wrote_app _ _ _ _ _ _ _ (wrote_quiet _ _ _ _ Hq (conj Ht eq_refl)) (wrote_error j2)) as W. unfold oapp in W. cbn in W. by rewrite !app_nil_r in W.
Qed.

Lemma walk_item_spec walk wi b o j0 es0 : due walk b o ->
  spec (process_walk_item e data_target blake2b_16 input max_pending_transform_bytes max_pending_file_actions open_chunks read_file read_link read_xattrs
      old parent min_chunk_size items_config compression dedup_filter xattrs_enabled prefix b wi) j0 es0
    (walked (walk ++ [wi]) o j0) failing.
Proof.
  intros Hd. destruct wi as [path rel m t| |er]; cbn [process_walk_item]; [|by apply error_spec|by apply spec_fail].
  destruct (entry_kind read_link path t) as [ty link| | |er] eqn:Hk; [|apply error_spec; [done|cbn; by rewrite Hk]| |by apply spec_fail].
  - cbv zeta. set (item := walked_item _ _ _ _ _ _ _ _). destruct (bool_decide (ty = RegularFile) && (0 <? md_size m)) eqn:Hc.
    + assert (Hw : forall o', file_done path m item o' -> entry_done prefix (WEntry path rel m t) o') by (intros o' Ho'; cbn; by rewrite Hk, Hc).
      destruct (md_size m <? min_chunk_size) eqn:Hsz; [by apply small_file_spec|by apply large_file_spec].
    + eapply flush_then_spec; [exact Hd|]. intros b' j1 evs1 o1 Hb Hd1 W1.
      eapply spec_then; [apply append_item_spec|done|]. intros [] j2 evs2 W2. apply spec_ret. rewrite app_nil_r.
      eapply last_step; [done..|]. cbn. by rewrite Hk, Hc.
  - apply spec_ret. exists nothing. split; [|apply wrote_nothing]. apply due_counted; [done|cbn; by rewrite Hk|].
    intros x. by rewrite oapp_nothing, nothing_oapp.
Qed.

Lemma wrote_used j n : wrote j (set_used n j) [] nothing.
Proof. split; cbn; [by rewrite app_nil_r|by rewrite app_nil_r|done..]. Qed.

Lemma walk_loop_spec todo : forall walk b o j0 es0, due walk b o ->
  spec (walk_loop e data_target blake2b_16 input max_pending_transform_bytes max_pending_file_actions open_chunks read_file read_link read_xattrs
      old parent min_chunk_size items_config compression dedup_filter xattrs_enabled prefix b todo) j0 es0
    (walked (walk ++ todo) o j0) failing.
Proof.
  induction todo as [|wi todo IH]; intros walk b o j0 es0 Hd; cbn [walk_loop].
  { apply spec_ret. exists nothing. rewrite oapp_nothing, app_nil_r. split; [done|apply wrote_nothing]. }
  eapply spec_then with (R := fun _ j evs => wrote j0 j evs nothing) (E1 := failing); [|done|].
  { unfold check_interrupted. apply spec_draw. destruct (in_interrupted _); [by apply spec_fail|apply spec_ret, wrote_used]. }
  intros [] j1 evs1 W1. eapply spec_then; [by apply walk_item_spec|done|]. intros b' j2 evs2 (o2 & Hd2 & W2).
  eapply spec_weaken; [by apply (IH (walk ++ [wi]))| |done]. intros b3 j3 evs3 (o3 & Hd3 & W3). rewrite <- app_assoc in Hd3.
  exists (oapp o2 o3). split; [by rewrite oapp_assoc|]. rewrite <- (nothing_oapp (oapp o2 o3)). by repeat eapply wrote_app.
Qed.
End Walk.

Definition prefix_outcome (prefix : option string) : Outcome :=
  match prefix with Some base => item_only (prefix_item base) | None => nothing end.

(** C3. The backup of a source stores what the walk found.  When
    [process_source_path] succeeds, its effect on the session is that of a
    sequence of [store_chunk] and [reuse_cached_chunk_ref] requests (the
    filter, the classification by workers and the batches of small files make
    no difference), every entry of the walk has become what [entry_done]
    says, and the outcomes appear in walk order: the chunks of the item stream
    that were stored and the rest that is buffered are the encoded items, the
    item pointers are the identifiers of those chunks, the references taken
    for data are those of the items and of files given up halfway, the new
    file cache has exactly the stored files with their chunks.  An entry is
    left out for a soft I/O error alone (no permission, not found, EIO), and
    counted; any other error ends the backup.  Assumed are nonces of the right
    length and that workers and session use the same filter ([agrees]).  The
    errors of storage calls are never soft here, as Storage.v has them; those of
    the local backend can be. *)
Theorem backup_source_faithful multi_path source_path walk j0 j s w :
  agrees s0 ->
  process_source_path e data_target blake2b_16 input max_pending_transform_bytes max_pending_file_actions open_chunks read_file read_link read_xattrs
    old parent min_chunk_size items_config compression dedup_filter xattrs_enabled multi_path source_path walk j0 s0 w0 = (Ok tt, (j, s, w)) ->
  exists evs os, ran s0 w0 evs s w /\ Forall2 (entry_done (source_prefix multi_path source_path)) walk os /\
    wrote j0 j evs (oapp (prefix_outcome (source_prefix multi_path source_path)) (osum os)).
Proof.
  intros Ha Hrun. set (prefix := source_prefix multi_path source_path).
  assert (Hspec : spec (process_source_path e data_target blake2b_16 input max_pending_transform_bytes max_pending_file_actions open_chunks read_file
      read_link read_xattrs old parent min_chunk_size items_config compression dedup_filter xattrs_enabled multi_path source_path walk) j0 []
    (fun _ j evs => exists os, Forall2 (entry_done prefix) walk os /\ wrote j0 j evs (oapp (prefix_outcome prefix) (osum os))) failing).
  { unfold process_source_path. fold prefix. cbv zeta.
    eapply spec_then with (R := fun _ j evs => wrote j0 j evs (prefix_outcome prefix)) (E1 := failing); [|done|].
    { destruct prefix; [apply append_item_spec|apply spec_ret, wrote_nothing]. }
    intros [] j1 evs1 W1. eapply spec_then; [apply (walk_loop_spec prefix walk []), due_new|done|]. intros b j2 evs2 (o2 & Hd & W2).
    eapply spec_then; [apply flush_batch_spec, Hd|done|]. intros b' j3 evs3 (_ & ob & Hob & W3). apply spec_ret.
    destruct (proj2 Hd ob Hob) as (os & Hos & Hsum). exists os. split; [done|]. rewrite app_nil_r, Hsum, nothing_oapp.
    eapply wrote_app; [done|]. by eapply wrote_app. }
  specialize (Hspec s0 w0 (ran_nil s0 w0) Ha). rewrite Hrun in Hspec. destruct Hspec as (_ & evs & Hr & os & Hos & W). by exists evs, os.
Qed.
End Requests.

(** ** Two backups of a directory

    The first sees a directory, two small files of which one cannot be read, a
    link, a large file and a socket.  The second sees a large file whose second
    half cannot be read. *)

Definition bk_input (n : nat) : Input := mkInput ac_tick ac_nonce false.
Definition bk_meta (size : Z) : MetadataSummary := mkMetadata 420 1000 1000 5 6 1 2 size.
Definition bk_denied : IoError := {| io_kind := PermissionDenied; raw_os_error := Some 13 |}.
Definition bk_open (p : string) : res (list (res bytes)) :=
  if String.eqb p "/d/big" then Ok [Ok [1]; Ok [7; 7]] else Ok [Ok [1]; Err (Io bk_denied)].
Definition bk_read (p : string) : result IoError bytes := if String.eqb p "/d/a" then Ok [7; 7] else Err bk_denied.
Definition bk_link (p : string) : result IoError string := Ok "a".
Definition bk_xattrs (p : string) : option (gmap string bytes) := None.
Definition bk_job : Job := mkJob (mkStats 0 0 0 0 0) [] [] (begin_sections ["/d"] fc_new) 0.
Definition bk_config : ChunkerConfig := mkChunker 1 100 200.

Definition bk_backup (walk : list SequentialWalkItem) :=
  process_source_path ac_engine ac_target (fun x => x) bk_input 1 1 bk_open bk_read bk_link bk_xattrs fc_new None 3 bk_config CNone None false
    true "/d" walk bk_job ac_s0 ac_w0.
Definition bk_walk : list SequentialWalkItem :=
  [WEntry "/d/sub" "sub" (bk_meta 0) FDir; WEntry "/d/a" "a" (bk_meta 2) FFile; WEntry "/d/secret" "secret" (bk_meta 2) FFile;
   WEntry "/d/l" "l" (bk_meta 1) FSymlink; WEntry "/d/big" "big" (bk_meta 3) FFile; WEntry "/d/socket" "socket" (bk_meta 0) FSpecial].

Lemma backup_source_faithful_witness :
  exists j s w evs os, bk_backup bk_walk = (Ok tt, (j, s, w)) /\ ran ac_engine ac_target ac_s0 ac_w0 evs s w /\
    wrote ac_engine (fun x => x) bk_job j evs (oapp (item_only (prefix_item "d")) (osum os)) /\
    errors (j_stats j) = 1 /\ length (j_ptrs j) = 5%nat.
Proof.
  destruct (bk_backup bk_walk) as [r [[j s] w]] eqn:Hrun.
  assert (Hr : (bk_backup bk_walk).1 = Ok tt) by (vm_compute; reflexivity). rewrite Hrun in Hr. cbn [fst] in Hr. subst r.
  assert (He : errors (j_stats (bk_backup bk_walk).2.1.1) = 1) by (vm_compute; reflexivity).
  assert (Hp : length (j_ptrs (bk_backup bk_walk).2.1.1) = 5%nat) by (vm_compute; reflexivity). rewrite Hrun in He, Hp. cbn [fst snd] in He, Hp.
  destruct (backup_source_faithful ac_engine ac_target None ac_s0 ac_w0 bk_input (fun _ => eq_refl) 1 1 (fun x => x) bk_open bk_read bk_link bk_xattrs
    fc_new None 3 bk_config CNone false true "/d" bk_walk bk_job j s w) as (evs & os & H1 & _ & H3); [vm_compute; reflexivity|exact Hrun|].
  exists j, s, w, evs, os. split; [done|]. split; [exact H1|]. split; [exact H3|]. by split.
Defined.

(** A large file that becomes unreadable halfway is left out of the snapshot
    and counted, but the chunks stored before stay referenced: the delta that
    the commit adds to the index counts a chunk that no item names, so that
    no later delete can bring the count to zero. *)
Definition bk_torn := bk_backup [WEntry "/d/torn" "torn" (bk_meta 3) FFile].
Definition bk_torn_flushed := flush_packs ac_engine ac_target (fun _ => ac_tick) ac_tick bk_torn.2.1.2 bk_torn.2.2.

Lemma torn_file_keeps_references :
  bk_torn.1 = Ok tt /\ errors (j_stats bk_torn.2.1.1) = 1 /\ j_ptrs bk_torn.2.1.1 = [ac_id (encode_item (prefix_item "d"))] /\ j_stream bk_torn.2.1.1 = [] /\
  (index_delta (s_ws bk_torn_flushed.2.1) ≫= fun d => Some (delta_refs d (ac_id [1]))) = Some 1.
Proof. split_and!; vm_compute; reflexivity. Qed.
