(* ===== verification/Pipeline.v ===== *)
(** * The parallel backup (crates/vykar-core/src/commands/backup/pipeline.rs,
      with concurrency.rs and the walk entries of walk/mod.rs)

    One thread walks the sources and reserves memory, several workers read and
    classify, and the consumer puts the results back into walk order and does
    what the sequential backup of Backup.v does.  The threads share two bounded
    channels, the byte budget and the shutdown flag.

    [step] is one step of one thread: what a thread does between two accesses
    to a channel or to the budget.  It is [None] where the thread would block
    or has ended.  The consumer owns the repository, so its work on one entry
    is a step.  As in Backup.v the walk and the contents of files are
    arguments; [wnonce i n] is the nonce for chunk [n] of entry [i].  Progress
    events and the counter of the peak are left out. *)

From S2P Require Import Prelude Types Storage ChunkIndex Pack.
From S2P Require Import Crypto Format Compress DedupCache Retention Lock Repo ReadPath Snapshots WriteSession Accounting Recovery FileCache Backup.
#[local] Open Scope string_scope.
#[local] Open Scope list_scope.
#[local] Open Scope Z_scope.

(** ** The byte budget *)

Record BudgetState := mkBudget { available : Z; capacity : Z; poisoned : bool }.

Definition budget_new (cap : Z) : BudgetState := mkBudget cap cap false.

(** [None] while the caller has to wait. *)
Definition acquire (n : Z) (st : BudgetState) : option (res Z * BudgetState) :=
  let n := n `min` capacity st in
  if poisoned st then Some (Err (Other "pipeline budget poisoned"), st)
  else if n <=? available st then Some (Ok n, mkBudget (available st - n) (capacity st) (poisoned st))
  else None.
Definition release (n : Z) (st : BudgetState) : BudgetState :=
  mkBudget ((available st + n) `min` capacity st) (capacity st) (poisoned st).
Definition poison (st : BudgetState) : BudgetState := mkBudget (available st) (capacity st) true.

(** [BudgetGuard]'s [drop]. *)
Definition drop_guard (bytes : Z) (st : BudgetState) : BudgetState := if 0 <? bytes then release bytes st else st.

(** ** Walk entries *)

Inductive WalkEntry :=
  | WkFile (item : Item) (abs_path : string) (metadata : MetadataSummary) (file_size : Z)
  | WkSegment (item : option Item) (abs_path : string) (metadata : MetadataSummary) (segment_index num_segments : nat) (offset len : Z)
  | WkCacheHit (item : Item) (abs_path : string) (metadata : MetadataSummary) (cached_refs : list ChunkRef)
  | WkNonFile (item : Item)
  | WkSkipped
  | WkSourceStarted (path : string)
  | WkSourceFinished (path : string).

Definition reserve_budget (entry : WalkEntry) (st : BudgetState) : option (res Z * BudgetState) :=
  match entry with
  | WkFile _ _ _ file_size => acquire file_size st
  | WkSegment _ _ _ _ _ _ len => acquire len st
  | _ => Some (Ok 0, st)
  end.

(** The [i]-th turn of [WalkItems::Segments]. *)
Definition segment (item : Item) (abs_path : string) (m : MetadataSummary) (segment_size file_size : Z) (num_segments i : nat) : WalkEntry :=
  let offset := Z.of_nat i * segment_size in
  WkSegment (match i with O => Some item | S _ => None end) abs_path m i num_segments offset (segment_size `min` (file_size - offset)).
Definition segments (item : Item) (abs_path : string) (m : MetadataSummary) (segment_size file_size : Z) : list WalkEntry :=
  let num_segments := Z.to_nat ((file_size + segment_size - 1) / segment_size) in
  segment item abs_path m segment_size file_size num_segments <$> seq 0 num_segments.

Section Walk.
Context (blake2b_16 : bytes -> bytes) (read_link : string -> result IoError string) (read_xattrs : string -> option (gmap string bytes)).
Context (old : FileCache) (parent : option (gmap bytes ParentEntry)) (xattrs_enabled : bool) (segment_size : Z).

Definition walked_entry_to_walk_items (prefix : option string) (abs_path rel_path : string) (m : MetadataSummary) (t : FileType) : list (res WalkEntry) :=
  match entry_kind read_link abs_path t with
  | TSoft => [Ok WkSkipped]
  | THard er => [Err er]
  | TSpecial => []
  | TItem ty link =>
      let item := walked_item read_xattrs prefix rel_path ty link xattrs_enabled abs_path m in
      if bool_decide (ty = RegularFile) && (0 <? md_size m) then
        match effective_hit blake2b_16 old parent abs_path m with
        | Some cached_refs => [Ok (WkCacheHit item abs_path m cached_refs)]
        | None =>
            if segment_size <? md_size m then Ok <$> segments item abs_path m segment_size (md_size m)
            else [Ok (WkFile item abs_path m (md_size m))]
        end
      else [Ok (WkNonFile item)]
  end.
Definition walk_items (prefix : option string) (wi : SequentialWalkItem) : list (res WalkEntry) :=
  match wi with
  | WSkipped => [Ok WkSkipped]
  | WHardError er => [Err er]
  | WEntry abs_path rel_path m t => walked_entry_to_walk_items prefix abs_path rel_path m t
  end.

Definition walk_source (multi_path : bool) (source_path : string) (walk : res (list SequentialWalkItem)) : list (res WalkEntry) :=
  match walk with
  | Err er => [Err er]
  | Ok walk =>
      let prefix := source_prefix multi_path source_path in
      (match prefix with Some pfx => [Ok (WkNonFile (prefix_item pfx))] | None => [] end) ++ (walk ≫= walk_items prefix)
  end.
Definition build_walk_iter (multi_path : bool) (sources : list (string * res (list SequentialWalkItem))) : list (res WalkEntry) :=
  sources ≫= fun '(path, walk) => [Ok (WkSourceStarted path)] ++ walk_source multi_path path walk ++ [Ok (WkSourceFinished path)].
End Walk.

(** ** Workers *)

Inductive ProcessedEntry :=
  | ProcessedFile (item : Item) (abs_path : string) (metadata : MetadataSummary) (chunks : list WorkerChunk) (acquired_bytes : Z)
  | FileSegment (item : option Item) (abs_path : string) (metadata : MetadataSummary) (chunks : list WorkerChunk) (acquired_bytes : Z)
      (segment_index num_segments : nat)
  | CacheHit (item : Item) (abs_path : string) (metadata : MetadataSummary) (cached_refs : list ChunkRef)
  | NonFile (item : Item)
  | Skipped
  | SegmentSkipped (num_segments : nat)
  | SourceStarted (path : string)
  | SourceFinished (path : string).

Inductive PipelineResult :=
  | POk (idx : nat) (entry : ProcessedEntry)
  | PWorkerErr (idx : nat) (er : VykarError)
  | PWalkErr (er : VykarError).

Record LargeFileAccum := mkAccum {
  ac_item : Item;
  ac_abs_path : string;
  ac_metadata : MetadataSummary;
  next_expected_index : nat;
  ac_num_segments : nat;
}.

Definition validate_segment_accum (accum : option LargeFileAccum) (item : option Item) (abs_path : string) (m : MetadataSummary)
    (segment_index num_segments : nat) : res LargeFileAccum :=
  match segment_index with
  | O =>
      match accum with
      | Some _ => Err (Other "nested large file segmentation")
      | None =>
          match item with
          | None => Err (Other "BUG: segment 0 must carry item")
          | Some item => Ok (mkAccum item abs_path m 1 num_segments)
          end
      end
  | S _ =>
      match accum with
      | None => Err (Other "FileSegment without preceding segment 0")
      | Some a =>
          if negb (Nat.eqb segment_index (next_expected_index a)) then Err (Other "segment index mismatch")
          else if negb (String.eqb abs_path (ac_abs_path a)) then Err (Other "segment file identity mismatch")
          else if negb (Nat.eqb num_segments (ac_num_segments a)) then Err (Other "segment count mismatch")
          else Ok (mkAccum (ac_item a) (ac_abs_path a) (ac_metadata a) (S (next_expected_index a)) (ac_num_segments a))
      end
  end.

Section Pipeline.
Context `{Hhex : HexCodec} `{Hblake : Blake2b} {Hxor : Xor8} (e : CryptoEngine) `{Hcodecs : Codecs}.
Context `{Hjournal : MsgPack (list PendingPackEntry)}.
Context `{Hljson : Json LockEntry} `{Hsjson : Json SessionEntry} `{Hrfc : Rfc3339}.
Context `{Hitems : ItemStream}.
Context (data_target : nat -> Z) (blake2b_16 : bytes -> bytes) (input : nat -> Input) (wnonce : nat -> nat -> bytes).
Context (open_chunks : string -> res (list (res bytes))) (open_segment : string -> Z -> Z -> res (list (res bytes)))
  (read_file : string -> result IoError bytes).
Context (min_chunk_size : Z) (items_config : ChunkerConfig) (compression : Compression) (dedup_filter : option xor_filter).

(** Chunks are classified as they are read; the first error ends it. *)
Fixpoint classify_stream (nonce : nat -> bytes) (n : nat) (chunks : list (res bytes)) : res (list WorkerChunk) :=
  match chunks with
  | [] => Ok []
  | Err er :: _ => Err er
  | Ok data :: chunks' =>
      wc ← classify_chunk e (chunk_id_compute (chunk_id_key e) data) data dedup_filter compression (nonce n);
      rest ← classify_stream nonce (S n) chunks';
      Ok (wc :: rest)
  end.

Definition process_file_worker_inner (nonce : nat -> bytes) (entry : WalkEntry) (pre_acquired_bytes : Z) : res ProcessedEntry :=
  match entry with
  | WkFile item abs_path m file_size =>
      if file_size <? min_chunk_size then
        match read_file abs_path with
        | Err er => Err (Io er)
        | Ok data =>
            wc ← classify_chunk e (chunk_id_compute (chunk_id_key e) data) data dedup_filter compression (nonce O);
            Ok (ProcessedFile item abs_path m [wc] pre_acquired_bytes)
        end
      else
        chunk_stream ← open_chunks abs_path;
        worker_chunks ← classify_stream nonce 0 chunk_stream;
        Ok (ProcessedFile item abs_path m worker_chunks pre_acquired_bytes)
  | WkSegment item abs_path m segment_index num_segments offset len =>
      chunk_stream ← open_segment abs_path offset len;
      worker_chunks ← classify_stream nonce 0 chunk_stream;
      Ok (FileSegment item abs_path m worker_chunks pre_acquired_bytes segment_index num_segments)
  | WkCacheHit item abs_path m cached_refs => Ok (CacheHit item abs_path m cached_refs)
  | WkNonFile item => Ok (NonFile item)
  | WkSkipped => Ok Skipped
  | WkSourceStarted path => Ok (SourceStarted path)
  | WkSourceFinished path => Ok (SourceFinished path)
  end.

Definition process_file_worker (nonce : nat -> bytes) (entry : WalkEntry) (pre_acquired_bytes : Z) : res ProcessedEntry :=
  match process_file_worker_inner nonce entry pre_acquired_bytes with
  | Ok processed => Ok processed
  | Err er =>
      if is_soft_file_error er then
        match entry with
        | WkFile _ _ _ _ => Ok Skipped
        | WkSegment _ _ _ O num_segments _ _ => Ok (SegmentSkipped num_segments)
        | _ => Err er
        end
      else Err er
  end.

(** What the guard of the worker gives back: everything unless it is defused. *)
Definition guard_drops (nonce : nat -> bytes) (entry : WalkEntry) (pre_acquired_bytes : Z) : Z :=
  match entry, process_file_worker_inner nonce entry pre_acquired_bytes with
  | (WkFile _ _ _ _ | WkSegment _ _ _ _ _ _ _), Err _ => pre_acquired_bytes
  | _, _ => 0
  end.

(** ** The consumer *)

(** The result, the accumulator, and the bytes given back to the budget.  What
    fails leaves the accumulator as it was, since it is not looked at again. *)
Definition consume_processed_entry (accum : option LargeFileAccum) (entry : ProcessedEntry) : BM (res unit * option LargeFileAccum * Z) :=
  match entry with
  | ProcessedFile item abs_path m chunks acquired_bytes =>
      r ← btry (process_worker_chunks e data_target input compression dedup_filter item chunks);
      match r with
      | Err er => mret (Err er, accum, 0)
      | Ok item =>
          r ← btry (
            _ ← bmodify (fun j => set_stats (add_file_count (j_stats j)) j);
            _ ← append_item_to_stream e data_target input items_config compression item;
            note_file blake2b_16 abs_path m (item_chunks item));
          mret (r, accum, acquired_bytes)
      end
  | FileSegment item abs_path m chunks acquired_bytes segment_index num_segments =>
      match validate_segment_accum accum item abs_path m segment_index num_segments with
      | Err er => mret (Err er, accum, 0)
      | Ok a =>
          r ← btry (process_worker_chunks e data_target input compression dedup_filter (ac_item a) chunks);
          match r with
          | Err er => mret (Err er, accum, 0)
          | Ok item =>
              let a := mkAccum item (ac_abs_path a) (ac_metadata a) (next_expected_index a) (ac_num_segments a) in
              if Nat.eqb segment_index (num_segments - 1) then
                r ← btry (
                  _ ← bmodify (fun j => set_stats (add_file_count (j_stats j)) j);
                  _ ← append_item_to_stream e data_target input items_config compression (ac_item a);
                  note_file blake2b_16 (ac_abs_path a) (ac_metadata a) (item_chunks (ac_item a)));
                mret (r, None, acquired_bytes)
              else mret (Ok tt, Some a, acquired_bytes)
          end
      end
  | CacheHit item abs_path m cached_refs =>
      r ← btry (
        item ← commit_cache_hit item cached_refs;
        _ ← append_item_to_stream e data_target input items_config compression item;
        note_file blake2b_16 abs_path m cached_refs);
      mret (r, accum, 0)
  | NonFile item => r ← btry (append_item_to_stream e data_target input items_config compression item); mret (r, accum, 0)
  | SourceStarted _ | SourceFinished _ => mret (Ok tt, accum, 0)
  | Skipped | SegmentSkipped _ => mret (Err (Other "unreachable"), accum, 0)
  end.

(** What the consumer keeps between entries. *)
Record Progress := mkProgress { large_file_accum : option LargeFileAccum; segments_to_skip : nat }.

Definition count_error : BM unit := bmodify (fun j => set_stats (add_error (j_stats j)) j).

(** One turn of the loop that drains the reorder buffer. *)
Definition drain_one (pr : Progress) (result : res ProcessedEntry) : BM (res unit * Progress * Z) :=
  match segments_to_skip pr with
  | S n => mret (Ok tt, mkProgress (large_file_accum pr) n, match result with Ok (FileSegment _ _ _ _ acquired_bytes _ _) => acquired_bytes | _ => 0 end)
  | O =>
      match result with
      | Ok Skipped => _ ← count_error; mret (Ok tt, pr, 0)
      | Ok (SegmentSkipped num_segments) => _ ← count_error; mret (Ok tt, mkProgress (large_file_accum pr) (num_segments - 1), 0)
      | Ok entry =>
          x ← consume_processed_entry (large_file_accum pr) entry;
          let '(r, accum, released) := x in
          mret (r, mkProgress accum O, released)
      | Err er =>
          if is_soft_file_error er && match large_file_accum pr with None => true | Some _ => false end
          then _ ← count_error; mret (Ok tt, pr, 0)
          else mret (Err er, pr, 0)
      end
  end.

(** ** The threads *)

Inductive WalkThread := Walking | Reserving (entry : WalkEntry) | SendingWork (entry : WalkEntry) (acquired : Z) | SendingErr (er : VykarError) | WalkEnded.
Inductive Worker := Idle | Working (idx : nat) (entry : WalkEntry) (acquired : Z) | Delivering (msg : PipelineResult) | Gone.
Inductive Consumer := Receiving | Draining | Finished (r : res unit).

Record Pipe := mkPipe {
  walk_todo : list (res WalkEntry);
  seq_idx : nat;
  walker : WalkThread;
  work : list (nat * WalkEntry * Z);
  workers : list Worker;
  results : list PipelineResult;
  budget : BudgetState;
  shutdown : bool;
  next_expected : nat;
  pending_results : gmap nat (res ProcessedEntry);
  progress : Progress;
  consumer : Consumer;
  backup : Job * Session * World;
}.

Definition is_gone (w : Worker) : bool := match w with Gone => true | _ => false end.
Definition walk_ended (p : Pipe) : bool := match walker p with WalkEnded => true | _ => false end.
Definition consumer_finished (p : Pipe) : bool := match consumer p with Finished _ => true | _ => false end.

Context (num_workers readahead_depth : nat).
Definition work_cap : nat := num_workers * 2.
Definition result_cap : nat := num_workers + readahead_depth.

Definition set_walker (t : WalkThread) (p : Pipe) : Pipe :=
  mkPipe (walk_todo p) (seq_idx p) t (work p) (workers p) (results p) (budget p) (shutdown p) (next_expected p) (pending_results p) (progress p) (consumer p) (backup p).
Definition set_todo (l : list (res WalkEntry)) (p : Pipe) : Pipe :=
  mkPipe l (seq_idx p) (walker p) (work p) (workers p) (results p) (budget p) (shutdown p) (next_expected p) (pending_results p) (progress p) (consumer p) (backup p).
Definition set_work (n : nat) (l : list (nat * WalkEntry * Z)) (p : Pipe) : Pipe :=
  mkPipe (walk_todo p) n (walker p) l (workers p) (results p) (budget p) (shutdown p) (next_expected p) (pending_results p) (progress p) (consumer p) (backup p).
Definition set_worker (i : nat) (t : Worker) (p : Pipe) : Pipe :=
  mkPipe (walk_todo p) (seq_idx p) (walker p) (work p) (<[i := t]> (workers p)) (results p) (budget p) (shutdown p) (next_expected p) (pending_results p) (progress p) (consumer p) (backup p).
Definition set_results (l : list PipelineResult) (p : Pipe) : Pipe :=
  mkPipe (walk_todo p) (seq_idx p) (walker p) (work p) (workers p) l (budget p) (shutdown p) (next_expected p) (pending_results p) (progress p) (consumer p) (backup p).
Definition set_budget (b : BudgetState) (p : Pipe) : Pipe :=
  mkPipe (walk_todo p) (seq_idx p) (walker p) (work p) (workers p) (results p) b (shutdown p) (next_expected p) (pending_results p) (progress p) (consumer p) (backup p).
Definition set_shutdown (p : Pipe) : Pipe :=
  mkPipe (walk_todo p) (seq_idx p) (walker p) (work p) (workers p) (results p) (budget p) true (next_expected p) (pending_results p) (progress p) (consumer p) (backup p).
Definition set_pending (n : nat) (m : gmap nat (res ProcessedEntry)) (p : Pipe) : Pipe :=
  mkPipe (walk_todo p) (seq_idx p) (walker p) (work p) (workers p) (results p) (budget p) (shutdown p) n m (progress p) (consumer p) (backup p).
Definition set_consumer (pr : Progress) (c : Consumer) (st : Job * Session * World) (p : Pipe) : Pipe :=
  mkPipe (walk_todo p) (seq_idx p) (walker p) (work p) (workers p) (results p) (budget p) (shutdown p) (next_expected p) (pending_results p) pr c st.

Definition walk_step (p : Pipe) : option Pipe :=
  match walker p with
  | Walking =>
      if shutdown p then Some (set_walker WalkEnded p)
      else match walk_todo p with
      | [] => Some (set_walker WalkEnded p)
      | Ok entry :: todo => Some (set_walker (Reserving entry) (set_todo todo p))
      | Err er :: todo => Some (set_walker (SendingErr er) (set_todo todo p))
      end
  | Reserving entry =>
      x ← reserve_budget entry (budget p);
      match x with
      | (Ok n, b) => Some (set_walker (SendingWork entry n) (set_budget b p))
      | (Err _, _) => Some (set_walker WalkEnded p)
      end
  | SendingWork entry acquired =>
      if forallb is_gone (workers p) then Some (set_walker WalkEnded (set_budget (release acquired (budget p)) p))
      else if (length (work p) <? work_cap)%nat
      then Some (set_walker Walking (set_work (S (seq_idx p)) (work p ++ [(seq_idx p, entry, acquired)]) p))
      else None
  | SendingErr er =>
      if consumer_finished p then Some (set_walker WalkEnded p)
      else if (length (results p) <? result_cap)%nat then Some (set_walker WalkEnded (set_results (results p ++ [PWalkErr er]) p))
      else None
  | WalkEnded => None
  end.

Definition worker_step (i : nat) (p : Pipe) : option Pipe :=
  t ← workers p !! i;
  match t with
  | Idle =>
      match work p with
      | (idx, entry, acquired) :: work' => Some (set_worker i (Working idx entry acquired) (set_work (seq_idx p) work' p))
      | [] => if walk_ended p then Some (set_worker i Gone p) else None
      end
  | Working idx entry acquired =>
      let msg := match process_file_worker (wnonce idx) entry acquired with Ok processed => POk idx processed | Err er => PWorkerErr idx er end in
      Some (set_worker i (Delivering msg) (set_budget (drop_guard (guard_drops (wnonce idx) entry acquired) (budget p)) p))
  | Delivering msg =>
      if consumer_finished p then Some (set_worker i Gone p)
      else if (length (results p) <? result_cap)%nat then Some (set_worker i Idle (set_results (results p ++ [msg]) p))
      else None
  | Gone => None
  end.

(** The end of the loop over the result channel. *)
Definition finish (p : Pipe) : res unit :=
  match large_file_accum (progress p) with
  | Some _ => Err (Other "incomplete segmented file")
  | None => if shutdown p then Err Interrupted else Ok tt
  end.

Definition consumer_step (p : Pipe) : option Pipe :=
  match consumer p with
  | Finished _ => None
  | Receiving =>
      match results p with
      | [] =>
          if walk_ended p && forallb is_gone (workers p) then Some (set_consumer (progress p) (Finished (finish p)) (backup p) p) else None
      | msg :: results' =>
          let p := set_results results' p in
          let fail er := Some (set_consumer (progress p) (Finished (Err er)) (backup p) (set_budget (poison (budget p)) p)) in
          if shutdown p then fail Interrupted
          else match msg with
          | POk idx entry => Some (set_consumer (progress p) Draining (backup p) (set_pending (next_expected p) (<[idx := Ok entry]> (pending_results p)) p))
          | PWorkerErr idx er => Some (set_consumer (progress p) Draining (backup p) (set_pending (next_expected p) (<[idx := Err er]> (pending_results p)) p))
          | PWalkErr er =>
              if is_soft_file_error er then
                let '(j, s, w) := backup p in
                Some (set_consumer (progress p) Receiving (set_stats (add_error (j_stats j)) j, s, w) p)
              else fail er
          end
      end
  | Draining =>
      match pending_results p !! next_expected p with
      | None => Some (set_consumer (progress p) Receiving (backup p) p)
      | Some result =>
          let p := set_pending (S (next_expected p)) (delete (next_expected p) (pending_results p)) p in
          let '(j, s, w) := backup p in
          match drain_one (progress p) result j s w with
          | (Ok (Ok tt, pr, released), st) => Some (set_consumer pr Draining st (set_budget (release released (budget p)) p))
          | (Ok (Err er, pr, released), st) => Some (set_consumer pr (Finished (Err er)) st (set_budget (poison (release released (budget p))) p))
          | (Err er, st) => Some (set_consumer (progress p) (Finished (Err er)) st (set_budget (poison (budget p)) p))
          end
      end
  end.

Inductive Thread := TWalk | TWorker (i : nat) | TConsumer | TSignal.
#[export] Instance Thread_eq_dec : EqDecision Thread.
Proof. solve_decision. Defined.
Definition step (t : Thread) (p : Pipe) : option Pipe :=
  match t with
  | TWalk => walk_step p
  | TWorker i => worker_step i p
  | TConsumer => consumer_step p
  | TSignal => if shutdown p then None else Some (set_shutdown p)
  end.

Definition pipe_init (entries : list (res WalkEntry)) (pipeline_buffer_bytes : Z) (st : Job * Session * World) : Pipe :=
  mkPipe entries 0 Walking [] (replicate num_workers Idle) [] (budget_new pipeline_buffer_bytes) false 0 ∅ (mkProgress None 0) Receiving st.

(** A schedule: the threads that take a step, in turn. *)
Fixpoint run_schedule (sched : list Thread) (p : Pipe) : option Pipe :=
  match sched with
  | [] => Some p
  | t :: sched' => p' ← step t p; run_schedule sched' p'
  end.

(** The scope is left when all threads have ended. *)
Definition finished (p : Pipe) : bool := consumer_finished p && walk_ended p && forallb is_gone (workers p).

(** ** Every schedule ends *)

Definition walker_weight (t : WalkThread) : nat :=
  match t with Walking => 1 | Reserving _ => 9 | SendingWork _ _ => 8 | SendingErr _ => 8 | WalkEnded => 0 end.
Definition worker_weight (t : Worker) : nat :=
  match t with Idle => 1 | Working _ _ _ => 6 | Delivering _ => 5 | Gone => 0 end.
Definition consumer_weight (c : Consumer) : nat := match c with Receiving => 1 | Draining => 2 | Finished _ => 0 end.
Definition measure (p : Pipe) : nat :=
  9 * length (walk_todo p) + walker_weight (walker p) + 6 * length (work p) + sum_list_with worker_weight (workers p) +
  3 * length (results p) + size (pending_results p) + consumer_weight (consumer p) + (if shutdown p then 0 else 1).

Lemma sum_weights_insert l i t t' : l !! i = Some t ->
  (sum_list_with worker_weight (<[i := t']> l) + worker_weight t = sum_list_with worker_weight l + worker_weight t')%nat.
Proof.
  revert i. induction l as [|x l IH]; intros [|i] H; [done..| |].
  - injection H as ->. cbn [insert list_insert sum_list_with]. lia.
  - specialize (IH _ H). change (<[S i := t']> (x :: l)) with (x :: <[i := t']> l). cbn [sum_list_with]. lia.
Qed.

Ltac weigh := unfold measure; cbn [walk_todo seq_idx walker work workers results budget shutdown next_expected pending_results progress consumer backup
  set_walker set_todo set_work set_worker set_results set_budget set_pending set_consumer set_shutdown walker_weight consumer_weight length]; rewrite ?length_app; cbn [length].

Lemma walk_step_measure p p' : walk_step p = Some p' -> (measure p' < measure p)%nat.
Proof.
  unfold walk_step. destruct (walker p) as [|entry|entry acq|er|] eqn:Hw.
  - destruct (shutdown p) eqn:Hs; [intros [= <-]; weigh; rewrite Hw, Hs; cbn; lia|]. destruct (walk_todo p) as [|[entry|er] todo] eqn:Ht; intros [= <-]; weigh; rewrite Hw, Ht; cbn; lia.
  - destruct (reserve_budget entry (budget p)) as [[[n|er] b]|]; [..|done]; intros [= <-]; weigh; rewrite Hw; cbn; lia.
  - destruct (forallb _ _); [intros [= <-]; weigh; rewrite Hw; cbn; lia|]. destruct (_ <? _)%nat; [|done]. intros [= <-]. weigh. rewrite Hw. cbn. lia.
  - destruct (consumer_finished p); [intros [= <-]; weigh; rewrite Hw; cbn; lia|]. destruct (_ <? _)%nat; [|done]. intros [= <-]. weigh. rewrite Hw. cbn. lia.
  - done.
Qed.

Lemma worker_step_measure i p p' : worker_step i p = Some p' -> (measure p' < measure p)%nat.
Proof.
  unfold worker_step. destruct (workers p !! i) as [t|] eqn:Hi; [|done]. cbn [mbind option_bind].
  pose proof (fun t' => sum_weights_insert (workers p) i t t' Hi) as Hsum. destruct t as [|idx entry acq|msg|].
  - destruct (work p) as [|[[idx entry] acq] work'] eqn:Hw.
    + destruct (walk_ended p); [|done]. intros [= <-]. specialize (Hsum Gone). weigh. rewrite Hw. cbn in *. lia.
    + intros [= <-]. specialize (Hsum (Working idx entry acq)). weigh. rewrite Hw. cbn in *. lia.
  - intros [= <-]. match goal with |- context [Delivering ?m] => specialize (Hsum (Delivering m)) end. weigh. cbn in *. lia.
  - destruct (consumer_finished p); [intros [= <-]; specialize (Hsum Gone); weigh; cbn in *; lia|].
    destruct (_ <? _)%nat; [|done]. intros [= <-]. specialize (Hsum Idle). weigh. cbn in *. lia.
  - done.
Qed.

Lemma size_insert_le (m : gmap nat (res ProcessedEntry)) i r : (size (<[i := r]> m) <= S (size m))%nat.
Proof. destruct (m !! i) eqn:E; [rewrite map_size_insert_Some by eauto; lia|rewrite map_size_insert_None by done; lia]. Qed.

Lemma consumer_step_measure p p' : consumer_step p = Some p' -> (measure p' < measure p)%nat.
Proof.
  unfold consumer_step. destruct (consumer p) as [| |r] eqn:Hc; [..|done].
  - destruct (results p) as [|msg results'] eqn:Hr.
    { destruct (_ && _); [|done]. intros [= <-]. weigh. rewrite Hc, Hr. cbn. lia. }
    cbv zeta. destruct (shutdown (set_results results' p)) eqn:Hs; [intros [= <-]; weigh; cbn in Hs; rewrite Hc, Hr; cbn; lia|]. destruct msg as [idx entry|idx er|er].
    + intros [= <-]. weigh. pose proof (size_insert_le (pending_results p) idx (Ok entry)). rewrite Hc, Hr. cbn. lia.
    + intros [= <-]. weigh. pose proof (size_insert_le (pending_results p) idx (Err er)). rewrite Hc, Hr. cbn. lia.
    + destruct (is_soft_file_error er); [|intros [= <-]; weigh; rewrite Hc, Hr; cbn; lia].
      destruct (backup (set_results results' p)) as [[j s] w]. intros [= <-]. weigh. rewrite Hc, Hr. cbn. lia.
  - destruct (pending_results p !! next_expected p) as [result|] eqn:Hp; [|intros [= <-]; weigh; rewrite Hc; cbn; lia].
    cbv zeta. destruct (backup (set_pending _ _ p)) as [[j s] w].
    assert (Hsz : (S (size (delete (next_expected p) (pending_results p))) = size (pending_results p))%nat).
    { rewrite map_size_delete_Some by eauto. assert (size (pending_results p) <> 0%nat); [|lia]. intros H0%map_size_empty_inv. by rewrite H0, lookup_empty in Hp. }
    destruct (drain_one _ result j s w) as [[[[[[]|er] pr] n]|er] st]; intros [= <-]; weigh; rewrite Hc; cbn; lia.
Qed.

Lemma step_measure t p p' : step t p = Some p' -> (measure p' < measure p)%nat.
Proof.
  destruct t as [|i| |]; cbn [step]; [apply walk_step_measure|apply worker_step_measure|apply consumer_step_measure|].
  destruct (shutdown p) eqn:Hs; [done|]. intros [= <-]. weigh. rewrite Hs. lia.
Qed.
Lemma schedule_bounded sched : forall p p', run_schedule sched p = Some p' -> (length sched + measure p' <= measure p)%nat.
Proof.
  induction sched as [|t sched IH]; intros p p'; cbn [run_schedule]; [intros [= ->]; cbn; lia|].
  destruct (step t p) as [p1|] eqn:Hs; [|done]. cbn [mbind option_bind]. intros H. apply IH in H. apply step_measure in Hs. cbn [length]. lia.
Qed.

(** ** Consuming in walk order *)

Fixpoint consume_seq (pr : Progress) (l : list (res ProcessedEntry)) : BM (res unit * Progress) :=
  match l with
  | [] => mret (Ok tt, pr)
  | result :: l' =>
      x ← drain_one pr result;
      match x with
      | (Ok tt, pr', _) => consume_seq pr' l'
      | (Err er, pr', _) => mret (Err er, pr')
      end
  end.
Definition consume_in_order (l : list (res ProcessedEntry)) : BM unit :=
  x ← consume_seq (mkProgress None 0) l;
  match x with
  | (Err er, _) => bfail er
  | (Ok tt, pr) => match large_file_accum pr with Some _ => bfail (Other "incomplete segmented file") | None => mret tt end
  end.

Lemma bm_bind_run {A B} (m : BM A) (f : A -> BM B) j s w :
  (m ≫= f) j s w = match m j s w with (Ok a, (j', s', w')) => f a j' s' w' | (Err er, st) => (Err er, st) end.
Proof. done. Qed.
Lemma btry_run {A B} (m : BM A) (f : res A -> BM B) j s w :
  (btry m ≫= f) j s w = match m j s w with (r, (j', s', w')) => f r j' s' w' end.
Proof. rewrite bm_bind_run. unfold btry. by destruct (m j s w) as [r [[j' s'] w']]. Qed.
Lemma count_error_run {B} (f : unit -> BM B) j s w : (count_error ≫= f) j s w = f tt (set_stats (add_error (j_stats j)) j) s w.
Proof. done. Qed.

(** The bytes that go back with a result. *)
Definition held (r : res ProcessedEntry) : Z :=
  match r with Ok (ProcessedFile _ _ _ _ n) | Ok (FileSegment _ _ _ _ n _ _) => n | _ => 0 end.

Ltac case_try := rewrite btry_run; match goal with |- context [match ?x with (_, _) => _ end] => destruct x as [? [[? ?] ?]] end.

Lemma consume_entry_run accum entry j s w : exists r accum' n st,
  consume_processed_entry accum entry j s w = (Ok (r, accum', n), st) /\ (r = Ok tt -> n = held (Ok entry)).
Proof.
  destruct entry as [item path m chunks n|item path m chunks n i num|item path m refs|item| |num|path|path]; cbn [consume_processed_entry held].
  - rewrite btry_run. destruct (process_worker_chunks _ _ _ _ _ item chunks j s w) as [[item'|er] [[j1 s1] w1]]; [|by eexists _, _, _, _].
    case_try. by eexists _, _, _, _.
  - destruct (validate_segment_accum _ _ _ _ _ _) as [a|er]; [|by eexists _, _, _, _]. rewrite btry_run.
    destruct (process_worker_chunks _ _ _ _ _ (ac_item a) chunks j s w) as [[item'|er] [[j1 s1] w1]]; [|by eexists _, _, _, _]. cbv zeta.
    destruct (Nat.eqb i (num - 1)); [|by eexists _, _, _, _]. case_try. by eexists _, _, _, _.
  - case_try. by eexists _, _, _, _.
  - rewrite btry_run. destruct (append_item_to_stream _ _ _ _ _ item j s w) as [r [[j2 s2] w2]]. by eexists _, _, _, _.
  - by eexists _, _, _, _.
  - by eexists _, _, _, _.
  - by eexists _, _, _, _.
  - by eexists _, _, _, _.
Qed.

(** Draining an entry never fails itself, and gives back what the result
    holds unless it is skipped as a segment of another file. *)
Lemma drain_one_run pr result j s w : exists r pr' n st,
  drain_one pr result j s w = (Ok (r, pr', n), st) /\
  (r = Ok tt -> (segments_to_skip pr = O \/ forall item path m chunks n', result <> Ok (ProcessedFile item path m chunks n')) -> n = held result) /\
  (segments_to_skip pr' = pred (segments_to_skip pr) \/
   segments_to_skip pr = O /\ exists num, result = Ok (SegmentSkipped num) /\ segments_to_skip pr' = (num - 1)%nat).
Proof.
  unfold drain_one. destruct (segments_to_skip pr) as [|k] eqn:Hk.
  2:{ eexists _, _, _, _. split; [reflexivity|]. split; [|by left]. intros _ [H|H]; [done|]. by destruct result as [[]|]; try done; destruct (H item abs_path metadata chunks acquired_bytes). }
  destruct result as [entry|er].
  - assert (Hc : exists r pr' n st, (x ← consume_processed_entry (large_file_accum pr) entry; let '(r, accum, released) := x in mret (r, mkProgress accum O, released)) j s w
       = (Ok (r, pr', n), st) /\ (r = Ok tt -> (0%nat = O \/ forall item path m chunks n', Ok entry <> Ok (ProcessedFile item path m chunks n') :> res ProcessedEntry) -> n = held (Ok entry)) /\
       (segments_to_skip pr' = pred 0 \/ 0%nat = O /\ exists num, Ok entry = Ok (SegmentSkipped num) :> res ProcessedEntry /\ segments_to_skip pr' = (num - 1)%nat)).
    { rewrite bm_bind_run. destruct (consume_entry_run (large_file_accum pr) entry j s w) as (r & accum' & n & [[j' s'] w'] & -> & Hn).
      eexists _, _, _, _. split; [reflexivity|]. split; [by auto|]. by left. }
    destruct entry as [| | | | |num| |]; try exact Hc.
    + rewrite count_error_run. eexists _, _, _, _. split; [reflexivity|]. split; [done|by left].
    + rewrite count_error_run. eexists _, _, _, _. split; [reflexivity|]. split; [done|]. right. split; [done|]. by exists num.
  - destruct (_ && _); [rewrite count_error_run|]; (eexists _, _, _, _; split; [reflexivity|]; split; [done|by left]).
Qed.

Lemma consume_seq_run pr l : forall j s w, exists r pr' st, consume_seq pr l j s w = (Ok (r, pr'), st).
Proof.
  revert pr. induction l as [|x l IH]; intros pr j s w; [by eexists _, _, _|]. cbn [consume_seq]. rewrite bm_bind_run.
  destruct (drain_one_run pr x j s w) as (r & pr' & n & [[j' s'] w'] & -> & _). destruct r as [[]|er]; [apply IH|by eexists _, _, _].
Qed.
Lemma consume_seq_app pr l1 l2 j s w :
  consume_seq pr (l1 ++ l2) j s w = match consume_seq pr l1 j s w with
    | (Ok (Ok tt, pr'), (j', s', w')) => consume_seq pr' l2 j' s' w'
    | x => x
    end.
Proof.
  revert pr j s w. induction l1 as [|x l1 IH]; intros pr j s w; [done|]. cbn [app consume_seq]. rewrite !bm_bind_run.
  destruct (drain_one_run pr x j s w) as (r & pr' & n & [[j' s'] w'] & -> & _). by destruct r as [[]|er].
Qed.

(** ** The invariant *)

Section Invariant.
Context (es : list WalkEntry) (tail : list (res WalkEntry)) (cap : Z) (j0 : Job) (s0 : Session) (w0 : World).

(** What an entry reserves, and what its worker makes of it. *)
Definition need (entry : WalkEntry) : Z :=
  match entry with WkFile _ _ _ size => size `min` cap | WkSegment _ _ _ _ _ _ len => len `min` cap | _ => 0 end.
Definition processed (i : nat) (entry : WalkEntry) : res ProcessedEntry := process_file_worker (wnonce i) entry (need entry).
Definition all_processed : list (res ProcessedEntry) := imap processed es.

(** The entries on their way, with the bytes they hold. *)
Definition msg_flight (msg : PipelineResult) : list (nat * Z) :=
  match msg with POk i x => [(i, held (Ok x))] | PWorkerErr i _ => [(i, 0)] | PWalkErr _ => [] end.
Definition worker_flight (t : Worker) : list (nat * Z) :=
  match t with Working i _ n => [(i, n)] | Delivering msg => msg_flight msg | _ => [] end.
Definition work_flight (x : nat * WalkEntry * Z) : nat * Z := (x.1.1, x.2).
Definition pending_flight (x : nat * res ProcessedEntry) : nat * Z := (x.1, held x.2).
Definition flight (p : Pipe) : list (nat * Z) :=
  (work_flight <$> work p) ++ (workers p ≫= worker_flight) ++ (results p ≫= msg_flight) ++ (pending_flight <$> map_to_list (pending_results p)).

Definition holds (t : WalkThread) : Z := match t with SendingWork _ n => n | _ => 0 end.

(** Everything that was sent is on its way once or consumed, and the budget is
    what is not held. *)
Record Flow (next sent : nat) (walk_holds avail : Z) (fl : list (nat * Z)) : Prop := {
  fw_le : (next <= sent)%nat;
  fw_idx : fl.*1 ≡ₚ seq next (sent - next);
  fw_bytes : avail + sum_Z snd fl + walk_holds = cap;
  fw_pos : Forall (fun x => 0 <= x.2) fl;
  fw_holds : 0 <= walk_holds;
  fw_avail : 0 <= avail;
}.

Lemma flow_perm next sent h avail fl fl' : fl ≡ₚ fl' -> Flow next sent h avail fl -> Flow next sent h avail fl'.
Proof. intros Hp [H1 H2 H3 H4 H5 H6]. split; [done|by rewrite <- Hp|by rewrite <- Hp|by rewrite <- Hp|done|done]. Qed.
Lemma flow_avail next sent h avail fl : Flow next sent h avail fl -> avail <= cap.
Proof.
  intros [_ _ H3 H4 H5 _]. assert (0 <= sum_Z snd fl); [|lia]. apply sum_Z_nonneg. intros x Hx. rewrite Forall_forall in H4. by apply H4.
Qed.
Lemma flow_send next sent n avail fl : Flow next sent n avail fl -> Flow next (S sent) 0 avail ((sent, n) :: fl).
Proof.
  intros [H1 H2 H3 H4 H5 H6]. split; [lia| |cbn; lia|by constructor|done|done]. cbn [fmap list_fmap fst]. rewrite H2, Nat.sub_succ_l by done.
  rewrite seq_S. replace (next + (sent - next))%nat with sent by lia. by rewrite Permutation_app_comm.
Qed.
Lemma flow_acquire next sent avail fl n : 0 <= n <= avail -> Flow next sent 0 avail fl -> Flow next sent n (avail - n) fl.
Proof. intros Hn [H1 H2 H3 H4 H5 H6]. split; [done..|lia|done|lia|lia]. Qed.
Lemma flow_return next sent avail fl n : Flow next sent n avail fl -> Flow next sent 0 ((avail + n) `min` cap) fl.
Proof.
  intros H. pose proof H as [H1 H2 H3 H4 H5 H6]. assert (0 <= sum_Z snd fl).
  { apply sum_Z_nonneg. intros x Hx. rewrite Forall_forall in H4. by apply H4. }
  split; [done..|lia|done|done|lia].
Qed.
(** An entry gives back some of its bytes. *)
Lemma flow_drop next sent h avail i n n' fl : 0 <= n' <= n -> Flow next sent h avail ((i, n) :: fl) ->
  Flow next sent h ((avail + (n - n')) `min` cap) ((i, n') :: fl).
Proof.
  intros Hn H. pose proof H as [H1 H2 H3 H4 H5 H6]. apply Forall_cons in H4 as [Hi H4]. assert (0 <= sum_Z snd fl).
  { apply sum_Z_nonneg. intros x Hx. rewrite Forall_forall in H4. by apply H4. }
  split; [done|done|cbn in *; lia|constructor; [cbn; lia|done]|done|cbn in *; lia].
Qed.
Lemma flow_consume next sent h avail n fl : Flow next sent h avail ((next, n) :: fl) -> Flow (S next) sent h ((avail + n) `min` cap) fl.
Proof.
  intros H. pose proof H as [H1 H2 H3 H4 H5 H6]. apply Forall_cons in H4 as [Hi H4]. assert (0 <= sum_Z snd fl).
  { apply sum_Z_nonneg. intros x Hx. rewrite Forall_forall in H4. by apply H4. }
  assert (Hlt : (next < sent)%nat). { apply Permutation_length in H2. rewrite length_seq in H2. cbn in H2. lia. }
  split; [lia| |cbn in *; lia|done|done|cbn in *; lia]. cbn [fmap list_fmap fst] in H2. replace (sent - next)%nat with (S (sent - S next)) in H2 by lia.
  cbn [seq] in H2. by apply Permutation_cons_inv in H2.
Qed.

Lemma workers_flight_split (l : list Worker) i t : l !! i = Some t ->
  exists R, (l ≫= worker_flight) ≡ₚ worker_flight t ++ R /\ forall t', (<[i := t']> l ≫= worker_flight) ≡ₚ worker_flight t' ++ R.
Proof.
  revert i. induction l as [|x l IH]; intros [|i] H; [done..| |].
  - injection H as ->. by exists (l ≫= worker_flight).
  - destruct (IH _ H) as (R & H1 & H2). exists (worker_flight x ++ R). split; [rewrite bind_cons, H1; solve_Permutation|].
    intros t'. change (<[S i := t']> (x :: l)) with (x :: <[i := t']> l). rewrite bind_cons, H2. solve_Permutation.
Qed.

Definition good_work (x : nat * WalkEntry * Z) : Prop := es !! x.1.1 = Some x.1.2 /\ x.2 = need x.1.2.
Definition good_result (i : nat) (r : res ProcessedEntry) : Prop := exists entry, es !! i = Some entry /\ processed i entry = r.
Definition good_msg (msg : PipelineResult) : Prop :=
  match msg with POk i x => good_result i (Ok x) | PWorkerErr i er => good_result i (Err er) | PWalkErr er => exists t, tail = Err er :: t end.
Definition good_worker (t : Worker) : Prop :=
  match t with Working i entry n => good_work (i, entry, n) | Delivering msg => good_msg msg | _ => True end.

Definition walk_at (p : Pipe) : Prop :=
  match walker p with
  | Walking => (seq_idx p <= length es)%nat /\ walk_todo p = (Ok <$> drop (seq_idx p) es) ++ tail
  | Reserving entry => es !! seq_idx p = Some entry /\ walk_todo p = (Ok <$> drop (S (seq_idx p)) es) ++ tail
  | SendingWork entry n => es !! seq_idx p = Some entry /\ n = need entry /\ walk_todo p = (Ok <$> drop (S (seq_idx p)) es) ++ tail
  | SendingErr er => exists t, tail = Err er :: t
  | WalkEnded => shutdown p = true \/ tail <> [] \/ length es = seq_idx p
  end.

(** While the consumer is at work. *)
Record Live (p : Pipe) : Prop := {
  lv_walk : walk_at p;
  lv_flow : Flow (next_expected p) (seq_idx p) (holds (walker p)) (available (budget p)) (flight p);
  lv_work : Forall good_work (work p);
  lv_workers : Forall good_worker (workers p);
  lv_results : Forall good_msg (results p);
  lv_pending : map_Forall good_result (pending_results p);
  lv_cap : capacity (budget p) = cap;
  lv_sound : poisoned (budget p) = false;
  lv_gone : Gone ∈ workers p -> walk_ended p = true /\ work p = [];
  lv_recv : consumer p = Receiving -> pending_results p !! next_expected p = None;
  lv_skip : forall k, (k < segments_to_skip (progress p))%nat ->
    exists item path m i num off len, es !! (next_expected p + k)%nat = Some (WkSegment item path m i num off len);
  lv_seq : consume_seq (mkProgress None 0) (take (next_expected p) all_processed) j0 s0 w0 = (Ok (Ok tt, progress p), backup p);
}.

(** When it has ended. *)
Definition Over (p : Pipe) (r : res unit) : Prop :=
  (walk_ended p = true \/ poisoned (budget p) = true) /\
  (shutdown p = true /\ r <> Ok tt \/ tail <> [] \/ consume_in_order all_processed j0 s0 w0 = (r, backup p)).

Definition Inv (p : Pipe) : Prop :=
  length (workers p) = num_workers /\ match consumer p with Finished r => Over p r | _ => Live p end.

Context (Hcap : 0 <= cap) (Hneed : forall entry, entry ∈ es -> 0 <= need entry).
Context (Htail : match tail with [] => True | Err er :: _ => is_soft_file_error er = false | Ok _ :: _ => False end).
Context (Hseg : forall i item path m num off len k, es !! i = Some (WkSegment item path m 0 num off len) -> (k < num)%nat ->
  exists item' path' m' i' num' off' len', es !! (i + k)%nat = Some (WkSegment item' path' m' i' num' off' len')).
Context (Hworkers : (0 < num_workers)%nat).

Lemma inner_shape nonce entry n : match process_file_worker_inner nonce entry n with
  | Ok x => held (Ok x) = match entry with WkFile _ _ _ _ | WkSegment _ _ _ _ _ _ _ => n | _ => 0 end
  | Err _ => match entry with WkFile _ _ _ _ | WkSegment _ _ _ _ _ _ _ => True | _ => False end end.
Proof.
  destruct entry; cbn [process_file_worker_inner]; try done.
  - destruct (_ <? _).
    + destruct (read_file abs_path) as [data|]; [|done]. by destruct (classify_chunk _ _ _ _ _ _).
    + destruct (open_chunks abs_path) as [l|]; [|done]. cbn [mbind result_bind]. by destruct (classify_stream _ _ l).
  - destruct (open_segment abs_path offset len) as [l|]; [|done]. cbn [mbind result_bind]. by destruct (classify_stream _ _ l).
Qed.
Lemma processed_held i entry : 0 <= need entry -> 0 <= held (processed i entry) <= need entry /\
  guard_drops (wnonce i) entry (need entry) = need entry - held (processed i entry).
Proof.
  intros Hn. unfold processed, process_file_worker, guard_drops. pose proof (inner_shape (wnonce i) entry (need entry)) as Hs.
  destruct (process_file_worker_inner (wnonce i) entry (need entry)) as [x|er] eqn:Hx.
  - rewrite Hs. destruct entry; rewrite ?Hx; cbn [need] in *; lia.
  - destruct entry; try done; rewrite Hx; destruct (is_soft_file_error er); try (destruct segment_index); cbn [held]; lia.
Qed.

Lemma drop_guard_release n st : 0 <= n -> available st <= capacity st -> drop_guard n st = release n st.
Proof.
  intros Hn Ha. unfold drop_guard, release. destruct (Z.ltb_spec 0 n); [done|]. replace n with 0 by lia. destruct st as [a c po]. cbn [available capacity poisoned] in *. f_equal. lia.
Qed.
Lemma drop_guard_poisoned n st : poisoned (drop_guard n st) = poisoned st.
Proof. unfold drop_guard. by destruct (0 <? n). Qed.

Lemma not_all_gone p : length (workers p) = num_workers -> (Gone ∈ workers p -> walk_ended p = true) -> walk_ended p = false ->
  forallb is_gone (workers p) = false.
Proof.
  intros Hl Hg Hw. destruct (workers p) as [|t l]; [cbn in Hl; lia|]. destruct t; try done. by rewrite Hg in Hw by apply list_elem_of_here.
Qed.

Ltac pcbn := cbn [walk_todo seq_idx walker work workers results budget shutdown next_expected pending_results progress consumer backup
  set_walker set_todo set_work set_worker set_results set_budget set_pending set_consumer set_shutdown holds available capacity poisoned] in *.

Lemma live_ended p : Live p -> shutdown p = true \/ tail <> [] \/ length es = seq_idx p -> holds (walker p) = 0 -> Live (set_walker WalkEnded p).
Proof.
  intros [Hw Hf H1 H2 H3 H4 H5 H6 H7 H8 H9 H10] He Hh. split; pcbn; try done; [by rewrite Hh in Hf|]. intros HG. destruct (H7 HG). by split.
Qed.

Lemma walk_live p p' : length (workers p) = num_workers -> consumer_finished p = false -> Live p -> walk_step p = Some p' -> Live p'.
Proof.
  intros Hlen Hfin HL. pose proof HL as [Hw Hf H1 H2 H3 H4 H5 H6 H7 H8 H9 H10]. unfold walk_step. unfold walk_at in Hw. destruct (walker p) as [|entry|entry acq|er|] eqn:Hwk.
  - destruct (shutdown p) eqn:Hs; [intros [= <-]; apply live_ended; [done|by left|by rewrite Hwk]|]. destruct Hw as [Hle Hw].
    destruct (drop (seq_idx p) es) as [|entry l] eqn:Hd.
    + apply (f_equal length) in Hd. rewrite length_drop in Hd. cbn [length] in Hd. rewrite Hw. cbn [fmap list_fmap app] in *. destruct tail as [|[x|er] t] eqn:Ht; [|done|].
      * intros [= <-]. apply live_ended; [done|right; right; lia|by rewrite Hwk].
      * intros [= <-]. split; pcbn; try done; [by exists t|]. intros HG. destruct (H7 HG) as [E _]. unfold walk_ended in E. by rewrite Hwk in E.
    + rewrite Hw. cbn [fmap list_fmap app] in *. intros [= <-].
      assert (He : es !! seq_idx p = Some entry) by (rewrite <- (Nat.add_0_r (seq_idx p)), <- lookup_drop, Hd; done).
      assert (Hl : l = drop (S (seq_idx p)) es) by (by rewrite (drop_S _ _ _ He) in Hd; injection Hd).
      split; pcbn; try done; [split; [done|by rewrite Hl]|]. intros HG. destruct (H7 HG) as [E _]. unfold walk_ended in E. by rewrite Hwk in E.
  - destruct Hw as [He Hw]. assert (Hn : 0 <= need entry) by (by apply Hneed, (list_elem_of_lookup_2 _ (seq_idx p))).
    assert (HG' : ~ Gone ∈ workers p) by (intros HG; destruct (H7 HG) as [E _]; unfold walk_ended in E; by rewrite Hwk in E).
    assert (Hacq : forall size, size `min` cap = need entry -> forall x, acquire size (budget p) = Some x ->
      Live match x with (Ok n, b) => set_walker (SendingWork entry n) (set_budget b p) | (Err _, _) => set_walker WalkEnded p end).
    { intros size Hsz x. unfold acquire. rewrite H5, H6, Hsz. destruct (Z.leb_spec (need entry) (available (budget p))); [|done]. intros [= <-].
      split; pcbn; try done. by apply flow_acquire. }
    unfold reserve_budget. destruct entry as [item path m size|item path m i num off len| | | | |]; cbn [mbind option_bind];
      try (intros [= <-]; split; pcbn; try done; fail).
    + destruct (acquire size (budget p)) as [[[n|er] b]|] eqn:Ha; [| |done]; cbn [mbind option_bind]; intros [= <-]; by apply (Hacq size eq_refl _ Ha).
    + destruct (acquire len (budget p)) as [[[n|er] b]|] eqn:Ha; [| |done]; cbn [mbind option_bind]; intros [= <-]; by apply (Hacq len eq_refl _ Ha).
  - destruct Hw as (He & -> & Hw).
    rewrite not_all_gone; [|done|by intros HG; destruct (H7 HG)|unfold walk_ended; by rewrite Hwk].
    destruct (_ <? _)%nat; [|done]. intros [= <-]. split; pcbn; try done.
    + split; [by apply lookup_lt_Some in He|done].
    + eapply flow_perm; [|by apply flow_send]. unfold flight. pcbn. rewrite fmap_app. cbn [fmap list_fmap]. unfold work_flight at 3. cbn [fst snd]. solve_Permutation.
    + apply Forall_app. split; [done|]. by repeat constructor.
    + intros HG. destruct (H7 HG) as [E _]. unfold walk_ended in E. by rewrite Hwk in E.
  - rewrite Hfin. destruct (_ <? _)%nat; [|done]. intros [= <-]. destruct Hw as [t Ht]. split; pcbn; try done.
    + right. left. by rewrite Ht.
    + eapply flow_perm; [|exact Hf]. unfold flight. pcbn. rewrite bind_app. cbn. by rewrite app_nil_r.
    + apply Forall_app. split; [done|]. repeat constructor. by exists t.
    + intros HG. destruct (H7 HG). by split.
  - done.
Qed.

Lemma live_worker_moves p i t t' : Live p -> workers p !! i = Some t ->
  forall p', workers p' = <[i := t']> (workers p) -> walk_todo p' = walk_todo p -> seq_idx p' = seq_idx p -> walker p' = walker p -> shutdown p' = shutdown p ->
  next_expected p' = next_expected p -> pending_results p' = pending_results p -> progress p' = progress p -> consumer p' = consumer p -> backup p' = backup p ->
  capacity (budget p') = cap -> poisoned (budget p') = false ->
  Flow (next_expected p) (seq_idx p) (holds (walker p)) (available (budget p')) (flight p') ->
  Forall good_work (work p') -> good_worker t' -> Forall good_msg (results p') -> (t' = Gone \/ Gone ∈ workers p -> walk_ended p = true /\ work p' = []) -> Live p'.
Proof.
  intros [Hw Hf H1 H2 H3 H4 H5 H6 H7 H8 H9 H10] Hi p' E1 E2 E3 E4 E5 E6 E7 E8 E9 E10 Hc Hp Hfl Hwk Ht' Hres Hg. split.
  - unfold walk_at in *. by rewrite E4, E2, E3, E5.
  - by rewrite E6, E3, E4.
  - done.
  - rewrite E1. apply Forall_insert; done.
  - done.
  - by rewrite E7.
  - done.
  - done.
  - rewrite E1. intros HG. assert (Hwe : walk_ended p' = walk_ended p) by (unfold walk_ended; by rewrite E4). rewrite Hwe. apply Hg.
    apply list_elem_of_lookup in HG as [k Hk]. destruct (decide (k = i)) as [->|Hne].
    + rewrite list_lookup_insert_eq in Hk by (by eapply lookup_lt_Some). injection Hk as <-. by left.
    + rewrite list_lookup_insert_ne in Hk by done. right. by eapply list_elem_of_lookup_2.
  - by rewrite E9, E7, E6.
  - by rewrite E8, E6.
  - by rewrite E6, E8, E10.
Qed.

Lemma worker_live i p p' : consumer_finished p = false -> Live p -> worker_step i p = Some p' -> Live p'.
Proof.
  intros Hfin HL. pose proof HL as [Hw Hf H1 H2 H3 H4 H5 H6 H7 H8 H9 H10]. unfold worker_step.
  destruct (workers p !! i) as [t|] eqn:Hi; [|done]. cbn [mbind option_bind]. destruct (workers_flight_split _ i t Hi) as (R & HR & HR').
  assert (Ht : good_worker t) by (by eapply (Forall_lookup_1 _ _ _ _ H2)). destruct t as [|idx entry acq|msg|].
  - destruct (work p) as [|[[idx entry] acq] work'] eqn:Hwk.
    + destruct (walk_ended p) eqn:He; [|done]. intros [= <-]. apply (live_worker_moves p i Idle Gone HL Hi); pcbn; rewrite ?Hwk; try done.
      eapply flow_perm; [|exact Hf]. unfold flight. pcbn. by rewrite HR, HR'.
    + intros [= <-]. apply Forall_cons in H1 as [Hg H1].
      apply (live_worker_moves p i Idle (Working idx entry acq) HL Hi); pcbn; try done; [|intros [|HG]; [done|by destruct (H7 HG)]].
      eapply flow_perm; [|exact Hf]. unfold flight. pcbn. rewrite HR, HR', Hwk, fmap_cons. unfold work_flight at 1. cbn [fst snd worker_flight]. solve_Permutation.
  - destruct Ht as [He Hn]. cbn [fst snd] in He, Hn. subst acq. fold (processed idx entry). cbv zeta.
    assert (Hn : 0 <= need entry) by (by apply Hneed, (list_elem_of_lookup_2 _ idx)).
    destruct (processed_held idx entry Hn) as [Hh Hg]. intros [= <-].
    set (msg := match processed idx entry with Ok x => POk idx x | Err er => PWorkerErr idx er end).
    assert (Hm : msg_flight msg = [(idx, held (processed idx entry))]) by (unfold msg; by destruct (processed idx entry)).
    assert (Hav : available (budget p) <= capacity (budget p)) by (rewrite H5; by eapply flow_avail).
    apply (live_worker_moves p i (Working idx entry (need entry)) (Delivering msg) HL Hi); pcbn; try done.
    + rewrite Hg, drop_guard_release by lia. done.
    + by rewrite drop_guard_poisoned.
    + rewrite Hg, drop_guard_release by lia. unfold release. pcbn. rewrite H5. set (rest := (work_flight <$> work p) ++ R ++ (results p ≫= msg_flight) ++ (pending_flight <$> map_to_list (pending_results p))).
      apply (flow_perm _ _ _ _ ((idx, held (processed idx entry)) :: rest)); [unfold flight, rest; pcbn; rewrite HR'; cbn [worker_flight]; rewrite Hm; solve_Permutation|].
      apply (flow_drop _ _ _ _ idx (need entry)); [lia|]. eapply flow_perm; [|exact Hf]. unfold flight, rest. rewrite HR. cbn [worker_flight]. solve_Permutation.
    + unfold msg, good_msg, good_result. destruct (processed idx entry) eqn:Hp; by exists entry.
    + intros [|HG]; [done|]. by apply H7.
  - rewrite Hfin. destruct (_ <? _)%nat; [|done]. intros [= <-].
    apply (live_worker_moves p i (Delivering msg) Idle HL Hi); pcbn; try done.
    + eapply flow_perm; [|exact Hf]. unfold flight. pcbn. rewrite bind_app, bind_cons, HR, HR'. cbn [worker_flight mbind list_bind]. solve_Permutation.
    + apply Forall_app. split; [done|by constructor].
    + intros [|HG]; [done|]. by apply H7.
  - done.
Qed.

Lemma flow_nodup next sent h avail fl : Flow next sent h avail fl -> NoDup fl.*1.
Proof. intros [_ H _ _ _ _]. rewrite H. apply NoDup_seq. Qed.

Lemma live_received p msg results' i r : Live p -> results p = msg :: results' -> msg_flight msg = [(i, held r)] -> good_result i r ->
  Live (set_consumer (progress p) Draining (backup p) (set_pending (next_expected p) (<[i := r]> (pending_results p)) (set_results results' p))).
Proof.
  intros [Hw Hf H1 H2 H3 H4 H5 H6 H7 H8 H9 H10] Hr Hm Hg. rewrite Hr in H3. apply Forall_cons in H3 as [_ H3].
  assert (Hfl : flight p ≡ₚ (i, held r) :: (work_flight <$> work p) ++ (workers p ≫= worker_flight) ++ (results' ≫= msg_flight) ++
    (pending_flight <$> map_to_list (pending_results p))) by (unfold flight; rewrite Hr, bind_cons, Hm; solve_Permutation).
  assert (Hnone : pending_results p !! i = None).
  { destruct (pending_results p !! i) as [r'|] eqn:E; [exfalso|done]. pose proof (flow_nodup _ _ _ _ _ Hf) as Hnd. rewrite Hfl in Hnd. cbn [fmap list_fmap fst] in Hnd.
    apply NoDup_cons in Hnd as [Hni _]. apply Hni. apply list_elem_of_fmap. exists (pending_flight (i, r')). split; [done|]. rewrite !elem_of_app. do 3 right.
    apply list_elem_of_fmap_2. by apply elem_of_map_to_list. }
  split; pcbn; try done.
  - eapply flow_perm; [|exact Hf]. rewrite Hfl. unfold flight. pcbn. rewrite map_to_list_insert by done. rewrite fmap_cons. unfold pending_flight at 2. cbn [fst snd]. solve_Permutation.
  - apply map_Forall_insert_2; done.
Qed.

(** When nothing else is on its way, everything has been consumed. *)
Lemma all_consumed p : Live p -> consumer p = Receiving -> work p = [] -> (workers p ≫= worker_flight) = [] -> results p ≫= msg_flight = [] ->
  next_expected p = seq_idx p /\ available (budget p) + holds (walker p) = cap.
Proof.
  intros [Hw Hf H1 H2 H3 H4 H5 H6 H7 H8 H9 H10] Hc Ewk Ews Er. specialize (H8 Hc). destruct Hf as [Hle Hidx Hb _ _ _]. unfold flight in *. rewrite Ewk, Ews, Er in *. cbn [fmap list_fmap app] in *.
  assert (Hn : next_expected p = seq_idx p).
  { destruct (decide (next_expected p = seq_idx p)) as [|Hne]; [done|exfalso]. assert (Hin : next_expected p ∈ seq (next_expected p) (seq_idx p - next_expected p)) by (apply elem_of_seq; lia).
    rewrite <- Hidx in Hin. apply list_elem_of_fmap in Hin as ([k z] & Hk & Hin). apply list_elem_of_fmap in Hin as ([k' r] & [= -> ->] & Hin). cbn [fst] in Hk. subst k'.
    apply elem_of_map_to_list in Hin. by rewrite Hin in H8. }
  split; [done|]. rewrite Hn, Nat.sub_diag in Hidx. cbn [seq] in Hidx. apply Permutation_nil_r, fmap_nil_inv in Hidx. rewrite Hidx in Hb. cbn in Hb. lia.
Qed.

Lemma gone_flight l : forallb is_gone l = true -> l ≫= worker_flight = [].
Proof. induction l as [|t l IH]; [done|]. cbn [forallb]. intros [Ht Hl]%andb_true_iff. rewrite bind_cons, IH by done. by destruct t. Qed.

Lemma consumer_done p : length (workers p) = num_workers -> Live p -> consumer p = Receiving -> results p = [] ->
  walk_ended p = true -> forallb is_gone (workers p) = true -> Over (set_consumer (progress p) (Finished (finish p)) (backup p) p) (finish p).
Proof.
  intros Hlen HL Hc Hr Hwe Hall. pose proof HL as [Hw Hf H1 H2 H3 H4 H5 H6 H7 H8 H9 H10]. split; [by left|]. pcbn.
  unfold walk_at in Hw. unfold walk_ended in Hwe. destruct (walker p) eqn:Hwk; try done. assert (Hint : shutdown p = true -> finish p <> Ok tt) by (intros Hs; unfold finish; rewrite Hs; by destruct (large_file_accum _)).
  destruct Hw as [Hs|[Ht|Hes]]; [left; by auto|by right; left|].
  destruct (shutdown p) eqn:Hs; [left; by auto|]. right. right.
  assert (Hwork : work p = []). { apply H7. destruct (workers p) as [|[] l]; [cbn in Hlen; lia|done..|apply list_elem_of_here]. }
  destruct (all_consumed p HL Hc Hwork (gone_flight _ Hall)) as [Hn _]; [by rewrite Hr|].
  rewrite take_ge in H10 by (unfold all_processed; rewrite length_imap; lia). unfold consume_in_order. rewrite bm_bind_run, H10. unfold finish. rewrite Hs.
  destruct (backup p) as [[j s] w]. by destruct (large_file_accum (progress p)).
Qed.

Lemma segment_inner nonce item path m k num off len n :
  match process_file_worker_inner nonce (WkSegment item path m k num off len) n with Ok x => exists wcs, x = FileSegment item path m wcs n k num | Err _ => True end.
Proof.
  cbn [process_file_worker_inner]. destruct (open_segment path off len) as [l|]; [|done]. cbn [mbind result_bind].
  destruct (classify_stream _ _ l) as [wcs|]; [|done]. by exists wcs.
Qed.
Lemma processed_segment i item path m k num off len : exists d,
  processed i (WkSegment item path m k num off len) = d /\ (forall item' path' m' chunks n, d <> Ok (ProcessedFile item' path' m' chunks n)) /\
  (forall num', d = Ok (SegmentSkipped num') -> k = O /\ num' = num).
Proof.
  eexists. split; [reflexivity|]. unfold processed, process_file_worker. set (n := need _).
  pose proof (segment_inner (wnonce i) item path m k num off len n) as Hs.
  destruct (process_file_worker_inner (wnonce i) (WkSegment item path m k num off len) n) as [x|er].
  - destruct Hs as [wcs ->]. by split.
  - destruct (is_soft_file_error er); [|by split]. destruct k; [|by split]. split; [done|]. by intros num' [= <-].
Qed.
Lemma processed_skipped i entry num : processed i entry = Ok (SegmentSkipped num) -> exists item path m off len, entry = WkSegment item path m 0 num off len.
Proof.
  destruct entry; unfold processed, process_file_worker; cbn [process_file_worker_inner]; try done.
  - pose proof (inner_shape (wnonce i) (WkFile item abs_path metadata file_size) (need (WkFile item abs_path metadata file_size))) as Hs. cbn [process_file_worker_inner] in Hs.
    destruct (_ <? _).
    + destruct (read_file abs_path) as [data|]; [destruct (classify_chunk _ _ _ _ _ _)|]; cbn [mbind result_bind]; try (destruct (is_soft_file_error _)); done.
    + destruct (open_chunks abs_path) as [l|]; cbn [mbind result_bind]; [destruct (classify_stream _ _ l)|]; cbn [mbind result_bind]; try (destruct (is_soft_file_error _)); done.
  - destruct (processed_segment i item abs_path metadata segment_index num_segments offset len) as (d & Hd & _ & Hk). intros H.
    destruct (Hk num) as [-> ->]; [rewrite <- Hd; exact H|]. by eexists _, _, _, _, _.
Qed.

Lemma drain_live p result : Live p -> pending_results p !! next_expected p = Some result ->
  let '(j, s, w) := backup p in
  let p1 := set_pending (S (next_expected p)) (delete (next_expected p) (pending_results p)) p in
  match drain_one (progress p) result j s w with
  | (Ok (Ok tt, pr, released), st) => Live (set_consumer pr Draining st (set_budget (release released (budget p)) p1))
  | (Ok (Err er, pr, released), st) => Over (set_consumer pr (Finished (Err er)) st (set_budget (poison (release released (budget p))) p1)) (Err er)
  | (Err er, st) => False
  end.
Proof.
  intros [Hw Hf H1 H2 H3 H4 H5 H6 H7 H8 H9 H10] Hp. destruct (backup p) as [[j s] w] eqn:Hb. cbv zeta.
  destruct (H4 _ _ Hp) as (entry & He & Hr).
  destruct (drain_one_run (progress p) result j s w) as (r & pr' & n & [[j' s'] w'] & Hrun & Hn & Hskip). rewrite Hrun.
  assert (Hlk : all_processed !! next_expected p = Some result) by (unfold all_processed; rewrite list_lookup_imap, He; cbn [fmap option_fmap option_map]; by rewrite Hr).
  assert (Hseq : consume_seq (mkProgress None 0) (take (S (next_expected p)) all_processed) j0 s0 w0 = (Ok (r, pr'), (j', s', w'))).
  { rewrite (take_S_r _ _ _ Hlk), consume_seq_app, H10. cbn [consume_seq]. rewrite bm_bind_run, Hrun. by destruct r as [[]|]. }
  destruct r as [[]|er].
  - assert (Hh : n = held result).
    { apply Hn; [done|]. destruct (segments_to_skip (progress p)) as [|k] eqn:Hk; [by left|]. right.
      destruct (H9 0%nat ltac:(lia)) as (item & path & m & i & num & off & len & Hs). rewrite Nat.add_0_r, He in Hs. injection Hs as ->.
      destruct (processed_segment (next_expected p) item path m i num off len) as (d & Hd & Hno & _). by rewrite <- Hr, Hd. }
    split; pcbn; try done.
    + unfold release. pcbn. rewrite H5, Hh. apply flow_consume. eapply flow_perm; [|exact Hf]. unfold flight. pcbn.
      rewrite <- (map_to_list_delete _ _ _ Hp), fmap_cons. unfold pending_flight at 1. cbn [fst snd]. solve_Permutation.
    + by apply map_Forall_delete.
    + intros k Hk. destruct Hskip as [E|(E & num & -> & E')].
      * rewrite E in Hk. destruct (H9 (S k) ltac:(lia)) as (item & path & m & i & num & off & len & Hs). rewrite Nat.add_succ_r in Hs. by eexists _, _, _, _, _, _, _.
      * rewrite E' in Hk. apply processed_skipped in Hr as (item & path & m & off & len & ->).
        destruct (Hseg _ _ _ _ _ _ _ (S k) He ltac:(lia)) as (item' & path' & m' & i' & num' & off' & len' & Hs). rewrite Nat.add_succ_r in Hs. by eexists _, _, _, _, _, _, _.
  - split; [by right|]. right. right. unfold consume_in_order. rewrite bm_bind_run.
    rewrite <- (take_drop (S (next_expected p)) all_processed), consume_seq_app, Hseq. done.
Qed.

Lemma consumer_live p p' : length (workers p) = num_workers -> Live p -> consumer_step p = Some p' ->
  match consumer p' with Finished r => Over p' r | _ => Live p' end.
Proof.
  intros Hlen HL. unfold consumer_step. destruct (consumer p) as [| |r] eqn:Hc; [..|done].
  - destruct (results p) as [|msg results'] eqn:Hr.
    { destruct (walk_ended p) eqn:Hwe; [|done]. destruct (forallb is_gone (workers p)) eqn:Hall; [|done]. intros [= <-]. by apply consumer_done. }
    cbv zeta. pcbn. destruct (shutdown p) eqn:Hs; [intros [= <-]; pcbn; split; [by right|left; by split]|].
    assert (Hg : good_msg msg) by (pose proof (lv_results _ HL) as H3; rewrite Hr in H3; by apply Forall_cons in H3 as [? _]).
    destruct msg as [idx entry|idx er|er]; [intros [= <-]; by eapply live_received..|].
    destruct Hg as [t Ht]. rewrite Ht in Htail. rewrite Htail. intros [= <-]. pcbn. split; [by right|]. right. left. by rewrite Ht.
  - destruct (pending_results p !! next_expected p) as [result|] eqn:Hp.
    + cbv zeta. pcbn. pose proof (drain_live p result HL Hp) as Hd. destruct (backup p) as [[j s] w]. cbv zeta in Hd.
      destruct (drain_one (progress p) result j s w) as [[[[[[]|er] pr] n]|er] st]; [..|done]; intros [= <-]; exact Hd.
    + intros [= <-]. pcbn. destruct HL. by split.
Qed.

(** What no step takes back. *)
Record Kept (p p' : Pipe) : Prop := {
  kp_workers : length (workers p') = length (workers p);
  kp_shutdown : shutdown p = true -> shutdown p' = true;
  kp_walk : walk_ended p = true -> walk_ended p' = true;
  kp_poison : poisoned (budget p) = true -> poisoned (budget p') = true;
}.

Lemma reserve_poisoned entry st r st' : reserve_budget entry st = Some (r, st') -> poisoned st' = poisoned st.
Proof.
  assert (Ha : forall n, acquire n st = Some (r, st') -> poisoned st' = poisoned st).
  { intros n. unfold acquire. destruct (poisoned st) eqn:Hp; [by intros [= <- <-]|]. destruct (_ <=? _); [|done]. by intros [= <- <-]. }
  destruct entry; cbn [reserve_budget]; try (by intros [= <- <-]); apply Ha.
Qed.

(** The other threads leave the consumer alone. *)
Lemma other_step t p p' : t <> TConsumer -> step t p = Some p' -> Kept p p' /\ consumer p' = consumer p /\ backup p' = backup p.
Proof.
  intros Ht Hs. destruct t as [|i| |]; cbn [step] in Hs; [| |done|].
  - unfold walk_step in Hs. destruct (walker p) as [|entry|entry acq|er|] eqn:Hw; [..|done].
    + destruct (shutdown p) eqn:Hsd; [injection Hs as <-; by repeat split|]. destruct (walk_todo p) as [|[]]; injection Hs as <-;
        (split; [split; pcbn; try done; unfold walk_ended; by rewrite Hw|done]).
    + destruct (reserve_budget entry (budget p)) as [[[n|er] b]|] eqn:Hr; [..|done]; injection Hs as <-; (split; [|done]); split; pcbn; try done.
      * unfold walk_ended. by rewrite Hw.
      * by rewrite (reserve_poisoned _ _ _ _ Hr).
    + destruct (forallb _ _); [injection Hs as <-; by repeat split|]. destruct (_ <? _)%nat; [|done]. injection Hs as <-. split; [|done].
      split; pcbn; try done. unfold walk_ended. by rewrite Hw.
    + destruct (consumer_finished p); [injection Hs as <-; by repeat split|]. destruct (_ <? _)%nat; [|done]. injection Hs as <-. by repeat split.
  - unfold worker_step in Hs. destruct (workers p !! i) as [t|]; [|done]. cbn [mbind option_bind] in Hs. destruct t as [|idx entry acq|msg|].
    + destruct (work p) as [|[[idx entry] acq] work']; [destruct (walk_ended p) eqn:Hwe; [|done]|]; injection Hs as <-; (split; [|done]); split; pcbn; try done; apply length_insert.
    + injection Hs as <-. split; [|done]. split; pcbn; try done; [apply length_insert|by rewrite drop_guard_poisoned].
    + destruct (consumer_finished p); [injection Hs as <-; (split; [|done]); split; pcbn; try done; apply length_insert|].
      destruct (_ <? _)%nat; [|done]. injection Hs as <-. split; [|done]. split; pcbn; try done. apply length_insert.
    + done.
  - destruct (shutdown p) eqn:Hsd; [done|]. injection Hs as <-. by repeat split.
Qed.
Lemma consumer_keeps_workers p p' : consumer_step p = Some p' -> workers p' = workers p.
Proof.
  unfold consumer_step. destruct (consumer p); [..|done].
  - destruct (results p) as [|msg l]; [destruct (_ && _); [by intros [= <-]|done]|]. cbv zeta. destruct (shutdown _); [by intros [= <-]|].
    destruct msg; [by intros [= <-]..|]. destruct (is_soft_file_error er); [destruct (backup _) as [[] ?]|]; by intros [= <-].
  - destruct (pending_results p !! _); [|by intros [= <-]]. cbv zeta. destruct (backup _) as [[] ?].
    destruct (drain_one _ _ _ _ _) as [[[[[[]|] ?] ?]|] ?]; by intros [= <-].
Qed.

Lemma live_signal p : Live p -> Live (set_shutdown p).
Proof. intros [Hw Hf H1 H2 H3 H4 H5 H6 H7 H8 H9 H10]. split; try done. unfold walk_at in *. pcbn. destruct (walker p); try done. by left. Qed.

Lemma step_inv t p p' : Inv p -> step t p = Some p' -> Inv p'.
Proof.
  intros [Hlen HI] Hs. destruct (decide (t = TConsumer)) as [->|Ht].
  - split; [by rewrite (consumer_keeps_workers _ _ Hs)|]. apply (consumer_live p); [done| |done]. cbn [step] in Hs. unfold consumer_step in Hs. by destruct (consumer p).
  - destruct (other_step _ _ _ Ht Hs) as ([K1 K2 K3 K4] & E1 & E2). split; [by rewrite K1|]. rewrite E1. destruct (consumer_finished p) eqn:Hfin.
    + unfold consumer_finished in Hfin. destruct (consumer p) as [| |r]; [done..|]. destruct HI as [[H|H] HI']; (split; [by auto|]);
        (destruct HI' as [[H' H'']|[H'|H']]; [left; by auto|by right; left|right; right; by rewrite E2]).
    + assert (HL : Live p') by (assert (HL : Live p) by (unfold consumer_finished in Hfin; by destruct (consumer p));
        destruct t as [|i| |]; [by eapply walk_live|by eapply worker_live|done|]; cbn [step] in Hs; destruct (shutdown p); [done|]; injection Hs as <-; by apply live_signal).
      unfold consumer_finished in Hfin. by destruct (consumer p).
Qed.
Lemma schedule_inv sched : forall p p', Inv p -> run_schedule sched p = Some p' -> Inv p'.
Proof.
  induction sched as [|t sched IH]; intros p p' HI; cbn [run_schedule]; [by intros [= <-]|].
  destruct (step t p) as [p1|] eqn:Hs; [|done]. cbn [mbind option_bind]. apply IH. by eapply step_inv.
Qed.

Lemma init_inv : Inv (pipe_init ((Ok <$> es) ++ tail) cap (j0, s0, w0)).
Proof.
  split; [apply length_replicate|]. cbn [pipe_init consumer].
  assert (Hidle : forall n, replicate n Idle ≫= worker_flight = []) by (intros n; induction n as [|n IHn]; [done|cbn [replicate]; rewrite bind_cons; exact IHn]).
  split; unfold pipe_init; pcbn; try done.
  - unfold walk_at. pcbn. split; [lia|]. by rewrite drop_0.
  - unfold flight. pcbn. rewrite Hidle, map_to_list_empty. split; [done|done|cbn; lia|constructor|done|done].
  - apply Forall_replicate. done.
  - intros HG. apply elem_of_replicate in HG as [HG _]. done.
  - intros k Hk. cbn in Hk. lia.
Qed.

(** *** No deadlock *)

Lemma worker_moves p i t : workers p !! i = Some t -> results p = [] \/ consumer_finished p = true ->
  match t with Gone => True | Idle => work p <> [] \/ walk_ended p = true | _ => True end -> t <> Gone -> is_Some (worker_step i p).
Proof.
  intros Hi Hr Hm Hg. unfold worker_step. rewrite Hi. cbn [mbind option_bind]. destruct t as [|idx entry acq|msg|]; [| | |done].
  - destruct (work p) as [|[[idx entry] acq] l]; [destruct Hm as [|Hm]; [done|]; by rewrite Hm|done].
  - done.
  - destruct Hr as [Hr|Hr]; [|by rewrite Hr]. destruct (consumer_finished p); [done|]. rewrite Hr. cbn [length].
    assert (Hc : (0 < result_cap)%nat) by (unfold result_cap; lia). apply Nat.ltb_lt in Hc. by rewrite Hc.
Qed.

Lemma not_gone_worker l : forallb is_gone l = false -> exists i t, l !! i = Some t /\ t <> Gone.
Proof.
  induction l as [|t l IH]; [done|]. cbn [forallb]. destruct (is_gone t) eqn:Ht; [|intros _; exists 0%nat, t; split; [done|by intros ->]].
  intros H. destruct (IH H) as (i & t' & H1 & H2). by exists (S i), t'.
Qed.

Lemma progress_walker_blocked p i t : Inv p -> finished p = false -> (forall th, th <> TSignal -> step th p = None) ->
  workers p !! i = Some t -> t <> Gone -> t = Idle /\ work p = [] /\ walk_ended p = false.
Proof.
  intros HI Hf Hno Hi Hg. assert (Hr : results p = [] \/ consumer_finished p = true).
  { pose proof (Hno TConsumer ltac:(done)) as Hc. cbn [step] in Hc. unfold consumer_step, consumer_finished in *. destruct (consumer p); [|exfalso|by right].
    - destruct (results p) as [|msg l]; [by left|]. exfalso. cbv zeta in Hc. destruct (shutdown _); [done|]. destruct msg; [done..|].
      destruct (is_soft_file_error er); [|done]. by destruct (backup _) as [[] ?].
    - destruct (pending_results p !! _); [|done]. cbv zeta in Hc. destruct (backup _) as [[] ?]. by destruct (drain_one _ _ _ _ _) as [[[[[[]|] ?] ?]|] ?]. }
  pose proof (Hno (TWorker i) ltac:(done)) as Hw. cbn [step] in Hw. destruct t as [|idx entry acq|msg|]; [| | |done].
  - destruct (decide (work p = [])) as [Hwk|Hwk]; [|by destruct (worker_moves p i Idle Hi Hr (or_introl Hwk) Hg) as [x Hx]; rewrite Hw in Hx].
    destruct (walk_ended p) eqn:Hwe; [|done]. by destruct (worker_moves p i Idle Hi Hr (or_intror Hwe) Hg) as [x Hx]; rewrite Hw in Hx.
  - by destruct (worker_moves p i _ Hi Hr I Hg) as [x Hx]; rewrite Hw in Hx.
  - by destruct (worker_moves p i _ Hi Hr I Hg) as [x Hx]; rewrite Hw in Hx.
Qed.

Lemma acquire_enough n st : poisoned st = true \/ n `min` capacity st <= available st -> acquire n st <> None.
Proof. unfold acquire. destruct (poisoned st); [done|]. intros [|H]; [done|]. apply Z.leb_le in H. by rewrite H. Qed.
Lemma reserve_enough entry st : poisoned st = true \/ capacity st <= available st -> reserve_budget entry st <> None.
Proof. intros H. destruct entry; cbn [reserve_budget]; try done; apply acquire_enough; (destruct H; [by left|right; lia]). Qed.

Lemma walker_moves p : walk_ended p = false -> consumer_finished p = true \/ results p = [] ->
  forallb is_gone (workers p) = true \/ work p = [] -> (forall entry, walker p = Reserving entry -> reserve_budget entry (budget p) <> None) -> walk_step p <> None.
Proof.
  intros Hwe Hr Hwk Hb. unfold walk_step, walk_ended in *. destruct (walker p) as [|entry|entry acq|er|]; [..|done].
  - destruct (shutdown p); [done|]. by destruct (walk_todo p) as [|[]].
  - specialize (Hb entry eq_refl). destruct (reserve_budget entry (budget p)) as [[[] ?]|]; done.
  - destruct Hwk as [H|H]; rewrite H; [done|]. destruct (forallb _ _); [done|]. cbn [length].
    assert (Hc : (0 < work_cap)%nat) by (unfold work_cap; lia). apply Nat.ltb_lt in Hc. by rewrite Hc.
  - destruct Hr as [H|H]; [by rewrite H|]. destruct (consumer_finished p); [done|]. rewrite H. cbn [length].
    assert (Hc : (0 < result_cap)%nat) by (unfold result_cap; lia). apply Nat.ltb_lt in Hc. by rewrite Hc.
Qed.

Lemma consumer_waits p : consumer_step p = None -> consumer_finished p = false ->
  consumer p = Receiving /\ results p = [] /\ (walk_ended p = true -> forallb is_gone (workers p) = false).
Proof.
  unfold consumer_step, consumer_finished. destruct (consumer p); [|intros Hc|done].
  - destruct (results p) as [|msg l].
    + intros Hc _. split; [done|]. split; [done|]. intros Hw. rewrite Hw in Hc. cbn [andb] in Hc. by destruct (forallb _ _).
    + cbv zeta. destruct (shutdown _); [done|]. destruct msg; [done..|]. destruct (is_soft_file_error er); [|done]. by destruct (backup _) as [[] ?].
  - exfalso. destruct (pending_results p !! _); [|done]. cbv zeta in Hc. destruct (backup _) as [[] ?]. by destruct (drain_one _ _ _ _ _) as [[[[[[]|] ?] ?]|] ?].
Qed.

Lemma never_stuck p : Inv p -> finished p = false -> (forall th, th <> TSignal -> step th p = None) -> False.
Proof.
  intros HI Hfin Hno. pose proof HI as [Hlen HI']. pose proof (Hno TConsumer ltac:(done)) as Hc. pose proof (Hno TWalk ltac:(done)) as Hw. cbn [step] in Hc, Hw.
  pose proof (fun i t Hi Hg => progress_walker_blocked p i t HI Hfin Hno Hi Hg) as Hidle.
  destruct (walk_ended p) eqn:Hwe.
  { destruct (forallb is_gone (workers p)) eqn:Hall.
    - destruct (consumer_finished p) eqn:Hcf; [unfold finished in Hfin; by rewrite Hcf, Hwe, Hall in Hfin|].
      destruct (consumer_waits p Hc Hcf) as (_ & _ & H). specialize (H Hwe). congruence.
    - destruct (not_gone_worker _ Hall) as (i & t & Hi & Hg). by destruct (Hidle i t Hi Hg) as (_ & _ & ?). }
  apply (walker_moves p Hwe) in Hw; [done|..].
  - destruct (consumer_finished p) eqn:Hcf; [by left|right]. by destruct (consumer_waits p Hc Hcf) as (_ & ? & _).
  - destruct (forallb is_gone (workers p)) eqn:Hall; [by left|right]. destruct (not_gone_worker _ Hall) as (i & t & Hi & Hg). by destruct (Hidle i t Hi Hg) as (_ & ? & _).
  - intros entry He. apply reserve_enough. destruct (consumer_finished p) eqn:Hcf.
    + left. unfold consumer_finished in Hcf. destruct (consumer p); try done. destruct HI' as [[H|H] _]; [congruence|done].
    + right. destruct (consumer_waits p Hc Hcf) as (Hrecv & Hr & _). rewrite Hrecv in HI'. pose proof HI' as [_ _ _ _ _ _ H5 _ H7 _ _ _].
      assert (Hws : Forall (fun t => t = Idle) (workers p)).
      { apply Forall_lookup. intros i t Hi. destruct t; [done|by destruct (Hidle i _ Hi)..|]. exfalso. apply list_elem_of_lookup_2 in Hi. destruct (H7 Hi). congruence. }
      assert (Hwk : work p = []). { destruct (workers p) as [|t l] eqn:E; [cbn in Hlen; lia|]. apply Forall_cons in Hws as [-> _]. by destruct (Hidle 0%nat Idle eq_refl) as (_ & ? & _). }
      assert (Hfl : workers p ≫= worker_flight = []) by (clear -Hws; induction Hws as [|t l -> Hws IH]; [done|by rewrite bind_cons, IH]).
      destruct (all_consumed p HI' Hrecv Hwk Hfl) as [_ Hav]; [by rewrite Hr|]. rewrite He in Hav. cbn [holds] in Hav. lia.
Qed.

Lemma some_thread p : (exists th p', th <> TSignal /\ step th p = Some p') \/ (forall th, th <> TSignal -> step th p = None).
Proof.
  set (l := TWalk :: TConsumer :: (TWorker <$> seq 0 (length (workers p)))).
  destruct (decide (Exists (fun th => is_Some (step th p)) l)) as [H|H].
  - left. apply Exists_exists in H as (th & Hin & [p' Hp]). exists th, p'. split; [|done]. intros ->. unfold l in Hin.
    rewrite !elem_of_cons in Hin. destruct Hin as [|[|Hin]]; [done..|]. by apply list_elem_of_fmap in Hin as (i & ? & _).
  - right. intros th Hth. destruct (step th p) as [p'|] eqn:Hs; [exfalso|done]. apply H. apply Exists_exists. exists th. split; [|by eexists]. unfold l. rewrite !elem_of_cons.
    destruct th as [|i| |]; [by left| |by right; left|done]. right. right. apply list_elem_of_fmap_2. apply elem_of_seq. cbn [step] in Hs. unfold worker_step in Hs.
    destruct (workers p !! i) eqn:Hi; [|done]. apply lookup_lt_Some in Hi. lia.
Qed.
End Invariant.

(** ** What the entries of a walk look like *)

Fixpoint walk_good (entries : list (res WalkEntry)) : list WalkEntry :=
  match entries with Ok entry :: l => entry :: walk_good l | _ => [] end.
Fixpoint walk_rest (entries : list (res WalkEntry)) : list (res WalkEntry) :=
  match entries with Ok _ :: l => walk_rest l | l => l end.

Lemma walk_split entries : entries = (Ok <$> walk_good entries) ++ walk_rest entries.
Proof. induction entries as [|[entry|er] l IH]; [done| |done]. cbn [walk_good walk_rest fmap list_fmap app]. by rewrite <- IH. Qed.
Lemma walk_good_all es : walk_good (Ok <$> es) = es /\ walk_rest (Ok <$> es) = [].
Proof. induction es as [|x es [H1 H2]]; [done|]. cbn [fmap list_fmap walk_good walk_rest]. by rewrite H1, H2. Qed.

(** The first segment of a file is followed by the others, sizes are not
    negative, and errors are not those that count as soft. *)
Record walk_wf (entries : list (res WalkEntry)) : Prop := {
  wf_segments : forall i item path m num off len k, entries !! i = Some (Ok (WkSegment item path m 0 num off len)) -> (k < num)%nat ->
    exists item' path' m' i' num' off' len', entries !! (i + k)%nat = Some (Ok (WkSegment item' path' m' i' num' off' len'));
  wf_entries : Forall (fun r => match r with
    | Ok (WkFile _ _ _ size) => 0 <= size
    | Ok (WkSegment _ _ _ _ _ _ len) => 0 <= len
    | Ok _ => True
    | Err er => is_soft_file_error er = false end) entries;
}.

Lemma wf_nil : walk_wf [].
Proof. split; [done|constructor]. Qed.
Lemma wf_app l1 l2 : walk_wf l1 -> walk_wf l2 -> walk_wf (l1 ++ l2).
Proof.
  intros [H1 H2] [H3 H4]. split; [|by apply Forall_app].
  intros i item path m num off len k Hi Hk. apply lookup_app_Some in Hi as [Hi|[Hge Hi]].
  - destruct (H1 _ _ _ _ _ _ _ k Hi Hk) as (item' & path' & m' & i' & num' & off' & len' & Hs). eexists _, _, _, _, _, _, _. apply lookup_app_l_Some. exact Hs.
  - destruct (H3 _ _ _ _ _ _ _ k Hi Hk) as (item' & path' & m' & i' & num' & off' & len' & Hs). eexists _, _, _, _, _, _, _.
    rewrite lookup_app_r by lia. rewrite <- Hs. f_equal. lia.
Qed.
Lemma wf_one r : match r with Ok (WkFile _ _ _ size) => 0 <= size | Ok (WkSegment _ _ _ _ _ _ _) => False | Ok _ => True | Err er => is_soft_file_error er = false end -> walk_wf [r].
Proof. intros H. split; [|constructor; [by destruct r as [[]|]|constructor]]. intros [|i] item path m num off len k Hi; [injection Hi as ->; done|done]. Qed.
Lemma wf_bind {A} (f : A -> list (res WalkEntry)) l : (forall x, x ∈ l -> walk_wf (f x)) -> walk_wf (l ≫= f).
Proof. intros H. induction l as [|x l IH]; [apply wf_nil|]. rewrite bind_cons. apply wf_app; [apply H, list_elem_of_here|]. apply IH. intros y Hy. apply H. by right. Qed.

Lemma wf_segmented item path m segment_size size : 0 < segment_size -> walk_wf (Ok <$> segments item path m segment_size size).
Proof.
  intros Hs. unfold segments. cbv zeta. set (num := Z.to_nat _). split.
  - intros i item' path' m' num' off len k Hi Hk. rewrite list_lookup_fmap in Hi. destruct (_ !! i) as [x|] eqn:Hx; [|done]. injection Hi as ->.
    rewrite list_lookup_fmap in Hx. destruct (seq 0 num !! i) as [i0|] eqn:Hi0; [|done]. apply lookup_seq in Hi0 as [Hi0 Hlt]. cbn in Hi0. subst i0. injection Hx as _ _ _ E2 E3 _ _. cbn [Nat.add] in E2. subst i num'.
    eexists _, _, _, _, _, _, _. rewrite !list_lookup_fmap, lookup_seq_lt by lia. cbn [Nat.add fmap option_fmap option_map]. unfold segment. reflexivity.
  - apply Forall_fmap, Forall_fmap, Forall_forall. intros i Hi. apply elem_of_seq in Hi. cbn. apply Z.min_glb; [lia|].
    assert (Z.of_nat i * segment_size <= size); [|lia]. assert (Z.of_nat i <= (size + segment_size - 1) / segment_size - 1) by (unfold num in Hi; lia).
    assert (Z.of_nat i * segment_size + 1 <= size); [|lia]. assert (((size + segment_size - 1) / segment_size) * segment_size <= size + segment_size - 1) by (rewrite Z.mul_comm; apply Z.mul_div_le; lia). nia.
Qed.

Lemma walk_iter_wf read_link read_xattrs old parent xattrs_enabled segment_size multi_path sources : 0 < segment_size ->
  (forall path walk, (path, walk) ∈ sources -> match walk with
    | Err er => is_soft_file_error er = false
    | Ok l => forall er, WHardError er ∈ l -> is_soft_file_error er = false end) ->
  walk_wf (build_walk_iter blake2b_16 read_link read_xattrs old parent xattrs_enabled segment_size multi_path sources).
Proof.
  intros Hs Hh. apply wf_bind. intros [path walk] Hin. specialize (Hh _ _ Hin). apply (wf_app [_]); [by apply wf_one|]. apply wf_app; [|by apply wf_one].
  unfold walk_source. destruct walk as [l|er]; [|by apply wf_one]. apply wf_app; [destruct (source_prefix _ _); [by apply wf_one|apply wf_nil]|].
  apply wf_bind. intros [abs rel m t| |er] Hx; cbn [walk_items]; [|by apply wf_one|by apply wf_one, Hh].
  unfold walked_entry_to_walk_items. destruct (entry_kind read_link abs t) as [ty link| | |er] eqn:Hk; [|by apply wf_one|apply wf_nil|].
  - destruct (_ && _) eqn:Hsz; [|by apply wf_one]. apply andb_true_iff in Hsz as [_ Hsz%Z.ltb_lt]. destruct (effective_hit _ _ _ _ _); [by apply wf_one|].
    destruct (_ <? _); [by apply wf_segmented|]. apply wf_one. lia.
  - apply wf_one. unfold entry_kind in Hk. destruct t; try done. destruct (read_link abs) as [|ioe]; [done|]. destruct (is_soft_io_error ioe); [done|]. by injection Hk as <-.
Qed.

Lemma wf_good_segments entries : walk_wf entries -> forall i item path m num off len k,
  walk_good entries !! i = Some (WkSegment item path m 0 num off len) -> (k < num)%nat ->
  exists item' path' m' i' num' off' len', walk_good entries !! (i + k)%nat = Some (WkSegment item' path' m' i' num' off' len').
Proof.
  intros [H1 _] i item path m num off len k Hi Hk. set (es := walk_good entries) in *. pose proof (walk_split entries) as Hsp. fold es in Hsp.
  assert (Hall : forall k', (k' < num)%nat -> exists item' path' m' i' num' off' len', entries !! (i + k')%nat = Some (Ok (WkSegment item' path' m' i' num' off' len'))).
  { intros k' Hk'. apply (H1 _ item path m num off len); [|done]. rewrite Hsp. apply lookup_app_l_Some. by rewrite list_lookup_fmap, Hi. }
  assert (Hlt : (i + k < length es)%nat).
  { destruct (decide (i + k < length es)%nat) as [|Hge]; [done|exfalso]. pose proof (lookup_lt_Some _ _ _ Hi) as Hil.
    destruct (Hall (length es - i)%nat ltac:(lia)) as (item' & path' & m' & i' & num' & off' & len' & Hs). replace (i + (length es - i))%nat with (length es) in Hs by lia.
    rewrite Hsp, lookup_app_r in Hs by (rewrite length_fmap; lia). rewrite length_fmap, Nat.sub_diag in Hs.
    clear -Hs. induction entries as [|[x|er] l IH]; [done|by apply IH|done]. }
  destruct (Hall k Hk) as (item' & path' & m' & i' & num' & off' & len' & Hs). eexists _, _, _, _, _, _, _.
  rewrite Hsp, lookup_app_l, list_lookup_fmap in Hs by (rewrite length_fmap; lia). destruct (es !! (i + k)%nat); [|done]. by injection Hs as ->.
Qed.

Lemma wf_rest entries : walk_wf entries -> match walk_rest entries with [] => True | Err er :: _ => is_soft_file_error er = false | Ok _ :: _ => False end.
Proof.
  intros [_ H]. induction entries as [|[x|er] l IH]; [done| |]; apply Forall_cons in H as [H1 H2]; [by apply IH|done].
Qed.
Lemma wf_need entries cap : 0 <= cap -> walk_wf entries -> forall entry, entry ∈ walk_good entries -> 0 <= need cap entry.
Proof.
  intros Hc [_ H] entry Hin. assert (Hin' : Ok entry ∈ entries) by (rewrite walk_split; apply elem_of_app; left; by apply list_elem_of_fmap_2).
  rewrite Forall_forall in H. specialize (H _ Hin'). destruct entry; cbn [need]; lia.
Qed.

Lemma reached_inv entries cap st sched p : (0 < num_workers)%nat -> 0 <= cap -> walk_wf entries ->
  run_schedule sched (pipe_init entries cap st) = Some p -> Inv (walk_good entries) (walk_rest entries) cap st.1.1 st.1.2 st.2 p.
Proof.
  intros Hw Hc Hwf Hrun. destruct st as [[j0 s0] w0].
  eapply schedule_inv; [by apply wf_need|by apply wf_rest|by apply wf_good_segments|done| |exact Hrun]. rewrite (walk_split entries) at 3. by apply init_inv.
Qed.

(** C6. The parallel backup cannot hang.  For the walks of any sources, cut into
    segments of a positive size, with at least one worker and whatever budget;
    a walk that ends in an error ends in a hard one, as the walks of the
    program do.  However the walk thread, the workers and the consumer are
    scheduled, whenever a shutdown is signalled, and whatever fails: the number
    of steps is bounded, and as long as not all threads have ended, one of them
    can take a step, so none waits for ever for memory or for a full channel.
    Until the consumer ends, the budget is exactly the capacity less the bytes
    held by entries on their way, and it is never negative, that is, never
    overdrawn. *)
Theorem pipeline_always_finishes read_link read_xattrs old parent xattrs_enabled segment_size multi_path sources cap st sched p :
  (0 < num_workers)%nat -> 0 <= cap -> 0 < segment_size ->
  (forall path walk, (path, walk) ∈ sources -> match walk with
    | Err er => is_soft_file_error er = false
    | Ok l => forall er, WHardError er ∈ l -> is_soft_file_error er = false end) ->
  let entries := build_walk_iter blake2b_16 read_link read_xattrs old parent xattrs_enabled segment_size multi_path sources in
  run_schedule sched (pipe_init entries cap st) = Some p ->
  (length sched <= measure (pipe_init entries cap st))%nat /\
  (finished p = false -> exists t p', t <> TSignal /\ step t p = Some p') /\
  (consumer_finished p = false -> available (budget p) + sum_Z snd (flight p) + holds (walker p) = cap /\ 0 <= available (budget p) <= cap).
Proof.
  intros Hw Hc Hsize Hsrc entries Hrun. pose proof (walk_iter_wf read_link read_xattrs old parent xattrs_enabled segment_size multi_path sources Hsize Hsrc) as Hwf. fold entries in Hwf.
  pose proof (reached_inv entries cap st sched p Hw Hc Hwf Hrun) as HI. split; [pose proof (schedule_bounded _ _ _ Hrun); lia|]. split.
  - intros Hfin. destruct (some_thread Hw p) as [H|H]; [done|]. exfalso. by eapply never_stuck.
  - intros Hcf. destruct HI as [_ HI]. assert (HL : Live (walk_good entries) (walk_rest entries) cap st.1.1 st.1.2 st.2 p) by (unfold consumer_finished in Hcf; by destruct (consumer p)).
    split; [apply HL|]. split; [apply HL|eapply flow_avail, HL].
Qed.

Lemma parallel_inv es cap j0 s0 w0 sched p :
  (0 < num_workers)%nat -> 0 <= cap -> walk_wf (Ok <$> es) ->
  run_schedule sched (pipe_init (Ok <$> es) cap (j0, s0, w0)) = Some p -> finished p = true ->
  exists r, consumer p = Finished r /\ (shutdown p = false \/ r = Ok tt -> consume_in_order (all_processed es cap) j0 s0 w0 = (r, backup p)).
Proof.
  intros Hw Hc Hwf Hrun Hfin. pose proof (reached_inv _ _ _ _ _ Hw Hc Hwf Hrun) as [_ HI]. destruct (walk_good_all es) as [E1 E2]. rewrite E1, E2 in HI.
  unfold finished, consumer_finished in Hfin. destruct (consumer p) as [| |r]; [done..|]. exists r. split; [done|].
  intros Hsd. destruct HI as [_ [[H1 H2]|[H|H]]]; [destruct Hsd; congruence|done|exact H].
Qed.

(** ** What is stored *)

Section Stored.
Context {Hlaw : LawfulEngine e}.
Context (Hinput : forall n, length (in_nonce (input n)) = NONCE_LEN) (Hwnonce : forall i n, length (wnonce i n) = NONCE_LEN).
Context (cap : Z) (s0 : Session) (w0 : World).

#[local] Abbreviation cid := (cid e).
#[local] Abbreviation spec := (spec e data_target dedup_filter s0 w0).
#[local] Abbreviation wrote := (wrote e blake2b_16).
#[local] Abbreviation off_stream := (off_stream e).
#[local] Abbreviation extended := (extended e).

(** What reading yields are the contents of the file; a segment is read as the
    range it names. *)
Record reads_as (contents : string -> bytes) : Prop := {
  rd_small path data : read_file path = Ok data -> data = contents path;
  rd_whole path datas : open_chunks path = Ok (Ok <$> datas) -> concat datas = contents path;
  rd_segment path off len datas : open_segment path off len = Ok (Ok <$> datas) -> concat datas = slice (Z.to_nat off) (Z.to_nat len) (contents path);
}.

(** Why a file may be left out. *)
Definition unreadable (pieces : res (list (res bytes))) : Prop :=
  exists er, is_soft_file_error er = true /\ (read_error pieces = Some er \/ exists id data nonce, pack_chunk_data e id data compression nonce = Err er).

(** What reading an entry yields. *)
Definition entry_pieces (entry : WalkEntry) : res (list (res bytes)) :=
  match entry with
  | WkFile _ abs_path _ size => if size <? min_chunk_size then match read_file abs_path with Ok data => Ok [Ok data] | Err er => Err (Io er) end else open_chunks abs_path
  | WkSegment _ abs_path _ _ _ offset len => open_segment abs_path offset len
  | _ => Ok []
  end.

Lemma classify_stream_spec nonce : (forall n, length (nonce n) = NONCE_LEN) -> forall chunks n wcs, classify_stream nonce n chunks = Ok wcs ->
  exists datas, chunks = Ok <$> datas /\ Forall2 (classified e dedup_filter compression) datas wcs.
Proof.
  intros Hn. induction chunks as [|[data|er] chunks IH]; intros n wcs; cbn [classify_stream]; [intros [= <-]; by exists []| |done].
  destruct (classify_chunk e _ data dedup_filter compression (nonce n)) as [wc|] eqn:Hc; [|done]. cbn [mbind result_bind].
  destruct (classify_stream nonce (S n) chunks) as [rest|] eqn:Hr; [|done]. intros [= <-]. destruct (IH _ _ Hr) as (datas & -> & Hf).
  exists (data :: datas). split; [done|]. constructor; [|done]. by exists (nonce n).
Qed.

Lemma classify_chunk_error id data nonce er : classify_chunk e id data dedup_filter compression nonce = Err er -> pack_chunk_data e id data compression nonce = Err er.
Proof. unfold classify_chunk. destruct (match dedup_filter with Some f => _ | None => _ end); [done|]. destruct (pack_chunk_data _ _ _ _ _); [done|]. by intros [= <-]. Qed.
Lemma classify_stream_error nonce chunks : forall n er, classify_stream nonce n chunks = Err er ->
  read_error (Ok chunks) = Some er \/ exists id data nonce, pack_chunk_data e id data compression nonce = Err er.
Proof.
  induction chunks as [|[data|er'] chunks IH]; intros n er; cbn [classify_stream]; [done| |intros [= <-]; by left].
  destruct (classify_chunk e _ data dedup_filter compression (nonce n)) as [wc|er'] eqn:Hc.
  - cbn [mbind result_bind]. destruct (classify_stream nonce (S n) chunks) as [rest|er'] eqn:Hr; [done|]. intros [= <-]. by eapply IH.
  - intros [= <-]. right. eexists _, _, _. by eapply classify_chunk_error.
Qed.
Lemma inner_unreadable i entry n er : is_soft_file_error er = true -> process_file_worker_inner (wnonce i) entry n = Err er -> unreadable (entry_pieces entry).
Proof.
  intros Hs H. exists er. split; [done|]. destruct entry; cbn [process_file_worker_inner entry_pieces] in *; try done.
  - destruct (_ <? _).
    + destruct (read_file abs_path) as [data|er']; [|injection H as <-; by left].
      destruct (classify_chunk _ _ _ _ _ _) as [wc|er'] eqn:Hc; [done|]. injection H as <-. right. eexists _, _, _. by eapply classify_chunk_error.
    + destruct (open_chunks abs_path) as [l|er']; [|injection H as <-; by left]. cbn [mbind result_bind] in H.
      destruct (classify_stream _ _ l) as [wcs|er'] eqn:Hc; [done|]. injection H as <-. by eapply classify_stream_error.
  - destruct (open_segment abs_path offset len) as [l|er']; [|injection H as <-; by left]. cbn [mbind result_bind] in H.
    destruct (classify_stream _ _ l) as [wcs|er'] eqn:Hc; [done|]. injection H as <-. by eapply classify_stream_error.
Qed.

(** What a worker makes of a file or a segment. *)
Lemma processed_file i item path m size : let entry := WkFile item path m size in
  match processed cap i entry with
  | Ok (ProcessedFile item' path' m' wcs n) => item' = item /\ path' = path /\ m' = m /\
      exists datas, entry_pieces entry = Ok (Ok <$> datas) /\ Forall2 (classified e dedup_filter compression) datas wcs
  | Ok Skipped => unreadable (entry_pieces entry)
  | Ok _ => False
  | Err er => is_soft_file_error er = false
  end.
Proof.
  intros entry. unfold processed, process_file_worker. destruct (process_file_worker_inner (wnonce i) entry (need cap entry)) as [x|er] eqn:Hx.
  2:{ destruct (is_soft_file_error er) eqn:Hs; [by eapply inner_unreadable|done]. }
  unfold entry in Hx. cbn [process_file_worker_inner] in Hx. unfold entry_pieces, entry. destruct (size <? min_chunk_size).
  - destruct (read_file path) as [data|]; [|done]. destruct (classify_chunk e _ data dedup_filter compression (wnonce i 0)) as [wc|] eqn:Hc; [|done]. injection Hx as <-.
    repeat (split; [done|]). exists [data]. split; [done|]. constructor; [|constructor]. by exists (wnonce i 0).
  - destruct (open_chunks path) as [l|]; [|done]. cbn [mbind result_bind] in Hx. destruct (classify_stream _ _ l) as [wcs|] eqn:Hc; [|done]. injection Hx as <-.
    apply classify_stream_spec in Hc as (datas & -> & Hf); [|done]. repeat (split; [done|]). by exists datas.
Qed.
Lemma processed_seg i item path m k num off len : let entry := WkSegment item path m k num off len in
  match processed cap i entry with
  | Ok (FileSegment item' path' m' wcs n k' num') => item' = item /\ path' = path /\ m' = m /\ k' = k /\ num' = num /\
      exists datas, entry_pieces entry = Ok (Ok <$> datas) /\ Forall2 (classified e dedup_filter compression) datas wcs
  | Ok (SegmentSkipped num') => k = O /\ num' = num /\ unreadable (entry_pieces entry)
  | Ok _ => False
  | Err er => k = O -> is_soft_file_error er = false
  end.
Proof.
  intros entry. unfold processed, process_file_worker. destruct (process_file_worker_inner (wnonce i) entry (need cap entry)) as [x|er] eqn:Hx.
  2:{ unfold entry. destruct (is_soft_file_error er) eqn:Hs; [|done]. destruct k; [|done]. repeat (split; [done|]). by eapply inner_unreadable. }
  unfold entry in Hx. cbn [process_file_worker_inner] in Hx. unfold entry_pieces, entry. destruct (open_segment path off len) as [l|]; [|done]. cbn [mbind result_bind] in Hx.
  destruct (classify_stream _ _ l) as [wcs|] eqn:Hc; [|done]. injection Hx as <-. apply classify_stream_spec in Hc as (datas & -> & Hf); [|done]. repeat (split; [done|]). by exists datas.
Qed.

(** The end of a file: its item and its entry in the cache. *)
Definition file_end (path : string) (m : MetadataSummary) (item : Item) : BM unit :=
  _ ← bmodify (fun j => set_stats (add_file_count (j_stats j)) j);
  _ ← append_item_to_stream e data_target input items_config compression item;
  note_file blake2b_16 path m (item_chunks item).

Lemma file_end_spec path m item j0 j1 es0 evs ids : quiet j0 j1 -> off_stream ids evs ->
  spec (file_end path m item) j1 (es0 ++ evs)
    (fun _ j evs' => wrote j0 j (evs ++ evs') (mkOutcome [item] ids [mkNoted path (file_stamp m) (item_chunks item)] 0)) failing.
Proof.
  intros Hq Ho. unfold file_end. apply spec_change. set (j2 := set_stats _ j1). assert (Hq2 : quiet j0 j2) by exact Hq.
  eapply spec_then; [by apply append_item_spec|done|]. intros [] j3 evs3 W3. eapply spec_weaken; [apply note_file_spec| |done]. intros [] j4 evs4 W4.
  pose proof (wrote_app _ _ _ _ _ _ _ _ _ (wrote_app _ _ _ _ _ _ _ _ _ (wrote_quiet _ blake2b_16 _ _ _ _ Hq2 Ho) W3) W4) as W.
  rewrite <- app_assoc in W. unfold oapp, item_only in W. cbn in W. by rewrite !app_nil_r in W.
Qed.

(** What holds after a result has been drained, unless the backup fails. *)
Definition drained {B} (P : Progress -> Job -> list Event -> Prop) (x : res unit * Progress * B) (j : Job) (evs : list Event) : Prop :=
  match x with (Ok tt, pr, _) => P pr j evs | (Err _, _, _) => True end.

Lemma spec_tried {A B} (m : BM A) (f : res A -> BM B) j0 es0 R (Q : B -> Job -> list Event -> Prop) :
  spec m j0 es0 R failing ->
  (forall a j evs, R a j evs -> spec (f (Ok a)) j (es0 ++ evs) (fun b j' evs' => Q b j' (evs ++ evs')) failing) ->
  (forall er j evs, spec (f (Err er)) j (es0 ++ evs) (fun b j' evs' => Q b j' (evs ++ evs')) failing) ->
  spec (btry m ≫= f) j0 es0 Q failing.
Proof. intros Hm Ho He. pose proof (spec_try _ _ _ _ _ m j0 es0 R failing failing Hm) as Ht. eapply spec_then; [exact Ht|done|]. intros [a|er] j evs H; [by apply Ho|by apply He]. Qed.

Lemma consumed_spec accum entry j0 es0 (P : Progress -> Job -> list Event -> Prop) : entry <> Skipped -> (forall num, entry <> SegmentSkipped num) ->
  spec (consume_processed_entry accum entry) j0 es0 (fun x j evs => match x with (Ok tt, a, _) => P (mkProgress a 0) j evs | _ => True end) failing ->
  spec (drain_one (mkProgress accum 0) (Ok entry)) j0 es0 (drained P) failing.
Proof.
  intros H1 H2 H. assert (Hs : spec (x ← consume_processed_entry accum entry; let '(r, a, released) := x in mret (r, mkProgress a O, released)) j0 es0 (drained P) failing).
  { eapply spec_then; [exact H|done|]. intros [[r a] n] j evs HP. apply spec_ret. unfold drained. rewrite app_nil_r. by destruct r as [[]|]. }
  unfold drain_one. cbn [segments_to_skip large_file_accum]. destruct entry as [| | | | |num| |]; try exact Hs; [done|by destruct (H2 num)].
Qed.

Lemma drain_file_spec item path m wcs n datas j0 es0 : item_chunks item = [] -> Forall2 (classified e dedup_filter compression) datas wcs ->
  spec (drain_one (mkProgress None 0) (Ok (ProcessedFile item path m wcs n))) j0 es0
    (drained (fun pr j evs => pr = mkProgress None 0 /\ exists refs, ref_id <$> refs = cid <$> datas /\ wrote j0 j evs (file_outcome path m item refs))) failing.
Proof.
  intros Hi Hcl. apply consumed_spec; [done..|]. cbn [consume_processed_entry]. eapply spec_tried.
  - eapply spec_weaken; [by apply worker_chunks_spec| |done]. intros it j evs H. exact H.
  - intros it j evs (Hx & Hq & Ho). apply extended_fresh in Hx as [Hit Hids]; [|done]. eapply spec_tried; [by apply file_end_spec| |].
    + intros [] j' evs' W. apply spec_ret. rewrite !app_nil_r. split; [done|]. exists (item_chunks it). split; [done|]. unfold file_outcome. rewrite <- Hit, Hids. exact W.
    + intros er j' evs'. by apply spec_ret.
  - intros er j evs. by apply spec_ret.
Qed.

Lemma drain_hit_spec item path m refs j0 es0 :
  spec (drain_one (mkProgress None 0) (Ok (CacheHit item path m refs))) j0 es0
    (drained (fun pr j evs => pr = mkProgress None 0 /\ wrote j0 j evs (file_outcome path m item refs))) failing.
Proof.
  apply consumed_spec; [done..|]. cbn [consume_processed_entry]. eapply spec_tried with (R := fun _ j evs => wrote j0 j evs (file_outcome path m item refs)).
  - eapply spec_then; [by apply cache_hit_spec|done|]. intros it j evs (-> & Hq & Ho). eapply spec_then; [by apply append_item_spec|done|]. intros [] j3 evs3 W3.
    eapply spec_weaken; [apply note_file_spec| |done]. intros [] j4 evs4 W4.
    pose proof (wrote_app _ _ _ _ _ _ _ _ _ (wrote_app _ _ _ _ _ _ _ _ _ (wrote_quiet _ blake2b_16 _ _ _ _ Hq Ho) W3) W4) as W.
    rewrite <- app_assoc in W. unfold oapp, item_only in W. cbn in W. by rewrite !app_nil_r in W.
  - intros [] j evs W. apply spec_ret. rewrite app_nil_r. by split.
  - intros er j evs. by apply spec_ret.
Qed.
Lemma drain_item_spec item j0 es0 :
  spec (drain_one (mkProgress None 0) (Ok (NonFile item))) j0 es0 (drained (fun pr j evs => pr = mkProgress None 0 /\ wrote j0 j evs (item_only item))) failing.
Proof.
  apply consumed_spec; [done..|]. cbn [consume_processed_entry]. eapply spec_tried; [by apply append_item_spec| |].
  - intros [] j evs W. apply spec_ret. rewrite app_nil_r. by split.
  - intros er j evs. by apply spec_ret.
Qed.
Lemma drain_skipped_spec j0 es0 num r : r = Ok Skipped /\ num = 1%nat \/ r = Ok (SegmentSkipped num) ->
  spec (drain_one (mkProgress None 0) r) j0 es0 (drained (fun pr j evs => pr = mkProgress None (num - 1) /\ wrote j0 j evs one_error)) failing.
Proof. intros [[-> ->]| ->]; cbn [drain_one segments_to_skip]; apply spec_change, spec_ret; (split; [done|apply wrote_error]). Qed.

Fixpoint results_from (b : nat) (l : list WalkEntry) : list (res ProcessedEntry) :=
  match l with [] => [] | entry :: l' => processed cap b entry :: results_from (S b) l' end.

Lemma results_from_app b l1 l2 : results_from b (l1 ++ l2) = results_from b l1 ++ results_from (b + length l1) l2.
Proof.
  revert b. induction l1 as [|x l1 IH]; intros b; [cbn; by rewrite Nat.add_0_r|]. cbn [app results_from length]. rewrite IH. by rewrite Nat.add_succ_r.
Qed.
Lemma all_processed_from es : all_processed es cap = results_from 0 es.
Proof.
  unfold all_processed. change (processed cap) with (fun i => processed cap (0 + i)). generalize 0%nat as b. induction es as [|x es IH]; intros b; [done|]. cbn [results_from].
  rewrite imap_cons, Nat.add_0_r. f_equal. rewrite <- IH. apply imap_ext. intros i y _. cbn. f_equal. lia.
Qed.

(** What holds after a number of results. *)
Definition settled (P : Progress -> Job -> list Event -> Prop) (x : res unit * Progress) (j : Job) (evs : list Event) : Prop :=
  match x with (Ok tt, pr) => P pr j evs | (Err _, _) => True end.

Lemma settled_cons pr r l j0 es0 (R P : Progress -> Job -> list Event -> Prop) :
  spec (drain_one pr r) j0 es0 (drained R) failing ->
  (forall pr' j evs, R pr' j evs -> spec (consume_seq pr' l) j (es0 ++ evs) (settled (fun pr'' j' evs' => P pr'' j' (evs ++ evs'))) failing) ->
  spec (consume_seq pr (r :: l)) j0 es0 (settled P) failing.
Proof.
  intros Hd Hl. cbn [consume_seq]. eapply spec_then; [exact Hd|done|]. intros [[[[]|er] pr'] n] j evs HR; [|by apply spec_ret].
  eapply spec_weaken; [by apply Hl| |done]. intros [[[]|] ?] j' evs' H; exact H.
Qed.

Section Segments.
Context (item : Item) (path : string) (m : MetadataSummary) (segment_size size : Z) (num : nat) (Hitem : item_chunks item = []).
#[local] Abbreviation seg := (segment item path m segment_size size num).

(** The file up to here. *)
Record Collected (j0 j : Job) (evs : list Event) (k : nat) (datas : list bytes) (a : LargeFileAccum) : Prop := {
  cl_item : extended item datas (ac_item a);
  cl_path : ac_abs_path a = path;
  cl_meta : ac_metadata a = m;
  cl_next : next_expected_index a = k;
  cl_num : ac_num_segments a = num;
  cl_quiet : quiet j0 j;
  cl_refs : off_stream (cid <$> datas) evs;
}.

Definition file_stored (j0 : Job) (datas : list bytes) (pr : Progress) (j : Job) (evs : list Event) : Prop :=
  pr = mkProgress None 0 /\ exists refs, ref_id <$> refs = cid <$> datas /\ wrote j0 j evs (file_outcome path m item refs).

Lemma drain_seg_spec accum it wcs n k a datas0 datas j0 j1 evs1 es0 :
  validate_segment_accum accum it path m k num = Ok a -> Collected j0 j1 evs1 (S k) datas0 a -> Forall2 (classified e dedup_filter compression) datas wcs ->
  spec (drain_one (mkProgress accum 0) (Ok (FileSegment it path m wcs n k num))) j1 (es0 ++ evs1)
    (drained (fun pr j evs => if Nat.eqb k (num - 1) then file_stored j0 (datas0 ++ datas) pr j (evs1 ++ evs)
       else exists a', pr = mkProgress (Some a') 0 /\ Collected j0 j (evs1 ++ evs) (S k) (datas0 ++ datas) a')) failing.
Proof.
  intros Hv [C1 C2 C3 C4 C5 C6 C7] Hcl. apply consumed_spec; [done..|]. cbn [consume_processed_entry]. rewrite Hv. eapply spec_tried.
  - eapply spec_weaken; [by apply worker_chunks_spec| |done]. intros it' j evs H. exact H.
  - intros it' j evs (Hx & Hq & Ho). cbv zeta. cbn [ac_item ac_abs_path ac_metadata].
    assert (Hx' : extended item (datas0 ++ datas) it') by (by eapply extended_app). assert (Hq' : quiet j0 j) by (by eapply quiet_trans).
    assert (Ho' : off_stream (cid <$> datas0 ++ datas) (evs1 ++ evs)) by (rewrite fmap_app; by apply off_stream_app).
    destruct (Nat.eqb k (num - 1)).
    + rewrite <- app_assoc. eapply spec_tried; [by apply file_end_spec| |].
      * intros [] j' evs' W. apply spec_ret. rewrite !app_nil_r. split; [done|]. apply extended_fresh in Hx' as [Hit Hids]; [|done].
        exists (item_chunks it'). split; [done|]. unfold file_outcome. rewrite <- Hit, Hids, <- C2, <- C3, app_assoc. exact W.
      * intros er j' evs'. by apply spec_ret.
    + apply spec_ret. rewrite app_nil_r. eexists. split; [reflexivity|]. by split.
  - intros er j evs. by apply spec_ret.
Qed.

Lemma drain_err_spec a er j0 es0 P : spec (drain_one (mkProgress (Some a) 0) (Err er)) j0 es0 (drained P) failing.
Proof. cbn [drain_one segments_to_skip large_file_accum]. rewrite andb_false_r. by apply spec_ret. Qed.

Definition pieces_of (i : nat) (ds : list bytes) : Prop := entry_pieces (seg i) = Ok (Ok <$> ds).

Lemma seg_tail_spec n : forall k b a datas0 j0 j1 evs1 es0, (1 <= k)%nat -> (k + S n = num)%nat -> Collected j0 j1 evs1 k datas0 a ->
  spec (consume_seq (mkProgress (Some a) 0) (results_from b (seg <$> seq k (S n)))) j1 (es0 ++ evs1)
    (settled (fun pr j evs => exists dss, Forall2 pieces_of (seq k (S n)) dss /\ file_stored j0 (datas0 ++ concat dss) pr j (evs1 ++ evs))) failing.
Proof.
  induction n as [|n IH]; intros k b a datas0 j0 j1 evs1 es0 Hk Hnum HC; cbn [seq fmap list_fmap results_from].
  all: eapply settled_cons with (R := fun pr j evs => exists ds, pieces_of k ds /\ if Nat.eqb k (num - 1) then file_stored j0 (datas0 ++ ds) pr j (evs1 ++ evs)
    else exists a', pr = mkProgress (Some a') 0 /\ Collected j0 j (evs1 ++ evs) (S k) (datas0 ++ ds) a').
  1,3: unfold segment; destruct k as [|k']; [lia|]; cbv zeta iota; pose proof (processed_seg b None path m (S k') num (Z.of_nat (S k') * segment_size)
    (segment_size `min` (size - Z.of_nat (S k') * segment_size))) as Hp; cbv zeta in Hp; destruct (processed cap b _) as [[| it path' m' wcs z k2 num2| | | | | |]|er];
    try done; try (by destruct Hp); [|apply drain_err_spec];
    destruct Hp as (-> & -> & -> & -> & -> & datas & Hd & Hcl); destruct HC as [C1 C2 C3 C4 C5 C6 C7];
    (eapply spec_weaken; [eapply (drain_seg_spec _ None wcs z (S k') (mkAccum (ac_item a) (ac_abs_path a) (ac_metadata a) (S (next_expected_index a)) (ac_num_segments a)) datas0 datas j0); [|split; try done; by rewrite C4|done]| |done]);
    [cbn [validate_segment_accum]; rewrite C4, C2, C5, !Nat.eqb_refl, String.eqb_refl; done|];
    intros [[[[]|] pr] ?] j evs Hdr; [|done]; exists datas; by split.
  - intros pr j evs (ds & Hds & Hst). replace (Nat.eqb k (num - 1)) with true in Hst by (symmetry; apply Nat.eqb_eq; lia). apply spec_ret. cbn [settled].
    exists [ds]. split; [by repeat constructor|]. rewrite app_nil_r. cbn [concat]. by rewrite app_nil_r.
  - intros pr j evs (ds & Hds & Hst). replace (Nat.eqb k (num - 1)) with false in Hst by (symmetry; apply Nat.eqb_neq; lia). destruct Hst as (a' & -> & HC').
    rewrite <- app_assoc. eapply spec_weaken; [apply (IH (S k) (S b) a' (datas0 ++ ds) j0 j (evs1 ++ evs) es0); [lia|lia|done]| |done].
    intros [[[]|] pr] j' evs' H; [|done]. destruct H as (dss & Hdss & Hst). exists (ds :: dss). split; [by constructor|]. cbn [concat]. by rewrite <- !app_assoc in Hst.
Qed.

Lemma skip_spec l : forall j0 es0,
  spec (consume_seq (mkProgress None (length l)) l) j0 es0 (settled (fun pr j evs => pr = mkProgress None 0 /\ j = j0 /\ evs = [])) failing.
Proof.
  induction l as [|r l IH]; intros j0 es0; [by apply spec_ret|]. cbn [length].
  eapply settled_cons with (R := fun pr j evs => pr = mkProgress None (length l) /\ j = j0 /\ evs = []); [by apply spec_ret|].
  intros pr j evs (-> & -> & ->). apply IH.
Qed.

(** Segment [i] is read from where the one before it ended. *)
Definition segment_read (i : nat) (ds : list bytes) : Prop :=
  open_segment path (Z.of_nat i * segment_size) (segment_size `min` (size - Z.of_nat i * segment_size)) = Ok (Ok <$> ds).
Lemma pieces_read i ds : pieces_of i ds -> segment_read i ds.
Proof. done. Qed.

Context (contents : string -> bytes) (Hreads : reads_as contents) (Hsize : 0 < segment_size).

(** The segments are the file without gap or overlap. *)
Lemma segments_tile n : forall k dss, (Z.of_nat (k + n) - 1) * segment_size < size -> Forall2 segment_read (seq k n) dss ->
  concat (concat dss) = slice (Z.to_nat (Z.of_nat k * segment_size)) (Z.to_nat ((Z.of_nat n * segment_size) `min` (size - Z.of_nat k * segment_size))) (contents path).
Proof.
  induction n as [|n IH]; intros k dss Hlt Hds; cbn [seq] in Hds.
  { apply Forall2_nil_inv_l in Hds as ->. rewrite Z.mul_0_l, (Z2Nat.nonpos (0 `min` _)) by lia. done. }
  apply Forall2_cons_inv_l in Hds as (ds & dss' & Hd & Hds & ->). cbn [concat]. rewrite concat_app, (IH (S k) dss') by (done || (rewrite Nat.add_succ_l, <- Nat.add_succ_r; done)).
  rewrite (rd_segment _ Hreads _ _ _ _ Hd). destruct n as [|n].
  - rewrite (Z2Nat.nonpos ((Z.of_nat 0 * segment_size) `min` _)) by lia. replace (Z.of_nat 1 * segment_size) with segment_size by lia. unfold slice at 2. cbn [take]. by rewrite app_nil_r.
  - assert (Hk : Z.of_nat (S k) * segment_size < size) by nia. replace (Z.to_nat (Z.of_nat (S k) * segment_size)) with (Z.to_nat (Z.of_nat k * segment_size) + Z.to_nat segment_size)%nat by nia.
    rewrite (Z.min_l segment_size) by nia. rewrite slice_join. f_equal. rewrite <- Z2Nat.inj_add by nia. f_equal. nia.
Qed.

(** What a file in segments becomes: it has the chunks that its segments were
    cut into, which are its contents up to its size. *)
Definition segments_done (o : Outcome) : Prop :=
  (exists dss refs, Forall2 segment_read (seq 0 num) dss /\ concat (concat dss) = take (Z.to_nat size) (contents path) /\
     ref_id <$> refs = cid <$> concat dss /\ o = file_outcome path m item refs) \/
  (unreadable (open_segment path 0 (segment_size `min` size)) /\ o = one_error).

Lemma segments_stored dss refs : (Z.of_nat num - 1) * segment_size < size <= Z.of_nat num * segment_size ->
  Forall2 pieces_of (seq 0 num) dss -> ref_id <$> refs = cid <$> concat dss -> segments_done (file_outcome path m item refs).
Proof.
  intros Hnum Hds Hrefs. left. exists dss, refs. assert (Hr : Forall2 segment_read (seq 0 num) dss) by (eapply Forall2_impl; [exact Hds|apply pieces_read]).
  split; [done|]. split; [|done]. rewrite (segments_tile num 0 dss) by (done || lia). rewrite Z.mul_0_l, Z.sub_0_r, Z.min_r by lia. done.
Qed.

Lemma length_results_from b l : length (results_from b l) = length l.
Proof. revert b. induction l as [|x l IH]; intros b; [done|]. cbn [results_from length]. by rewrite IH. Qed.

Lemma segments_spec b j0 es0 : (1 <= num)%nat -> (Z.of_nat num - 1) * segment_size < size <= Z.of_nat num * segment_size ->
  spec (consume_seq (mkProgress None 0) (results_from b (seg <$> seq 0 num))) j0 es0
    (settled (fun pr j evs => pr = mkProgress None 0 /\ exists o, segments_done o /\ wrote j0 j evs o)) failing.
Proof.
  intros Hnum Htile. destruct num as [|n] eqn:En; [lia|]. rewrite <- En in *. replace (seq 0 num) with (0%nat :: seq 1 n) by (by rewrite En). cbn [fmap list_fmap results_from].
  set (rest := results_from (S b) (seg <$> seq 1 n)).
  eapply settled_cons with (R := fun pr j evs =>
    (exists ds, pieces_of 0 ds /\ if Nat.eqb 0 (num - 1) then file_stored j0 ds pr j evs else exists a', pr = mkProgress (Some a') 0 /\ Collected j0 j evs 1 ds a') \/
    (pr = mkProgress None (num - 1) /\ segments_done one_error /\ wrote j0 j evs one_error)).
  - pose proof (processed_seg b (Some item) path m 0 num (Z.of_nat 0 * segment_size) (segment_size `min` (size - Z.of_nat 0 * segment_size))) as Hp. cbv zeta in Hp.
    fold (seg 0) in Hp. change (WkSegment (Some item) path m 0 num (Z.of_nat 0 * segment_size) (segment_size `min` (size - Z.of_nat 0 * segment_size))) with (seg 0) in Hp.
    destruct (processed cap b (seg 0)) as [[|it path' m' wcs z k2 num2| | | |num2| |]|er]; try done.
    + destruct Hp as (-> & -> & -> & -> & -> & datas & Hd & Hcl). rewrite <- (app_nil_r es0).
      eapply spec_weaken; [eapply (drain_seg_spec None (Some item) wcs z 0 (mkAccum item path m 1 num) [] datas j0 j0 []); [done| |done]| |done].
      * split; try done. apply extended_nil.
      * intros [[[[]|] pr] ?] j evs Hdr; [|done]. left. exists datas. split; [exact Hd|exact Hdr].
    + destruct Hp as (_ & -> & Hun). eapply spec_weaken; [apply (drain_skipped_spec _ _ num); by right| |done].
      intros [[[[]|] pr] ?] j evs Hdr; [|done]. right. destruct Hdr as [-> W]. split; [done|]. split; [right; split; [|done]; unfold segment in Hun; cbn [entry_pieces] in Hun; by rewrite Z.mul_0_l, Z.sub_0_r in Hun|done].
    + specialize (Hp eq_refl). cbn [drain_one segments_to_skip large_file_accum]. rewrite Hp. by apply spec_ret.
  - intros pr j evs [(ds & Hds & Hst)|(-> & Hdone & W)].
    + destruct n as [|n'].
      * replace (Nat.eqb 0 (num - 1)) with true in Hst by (by rewrite En). destruct Hst as (-> & refs & Hrefs & W). apply spec_ret. split; [done|]. rewrite app_nil_r.
        eexists. split; [|exact W]. apply (segments_stored [ds]); [done|rewrite En; by repeat constructor|]. cbn [concat]. by rewrite app_nil_r.
      * replace (Nat.eqb 0 (num - 1)) with false in Hst by (by rewrite En). destruct Hst as (a' & -> & HC).
        eapply spec_weaken; [apply (seg_tail_spec n' 1 (S b) a' ds j0 j evs es0); [lia|lia|done]| |done].
        intros [[[]|] pr] j' evs' H; [|done]. destruct H as (dss & Hdss & -> & refs & Hrefs & W). split; [done|]. eexists. split; [|exact W]. apply (segments_stored (ds :: dss)); [done|rewrite En; by constructor|done].
    + assert (Hl : (num - 1)%nat = length rest) by (unfold rest; rewrite length_results_from, length_fmap, length_seq; lia). rewrite Hl.
      eapply spec_weaken; [apply skip_spec| |done]. intros [[[]|] pr] j' evs' H; [|done]. destruct H as (-> & -> & ->). split; [done|]. rewrite app_nil_r. by exists one_error.
Qed.
End Segments.

Section Walked.
Context (read_link : string -> result IoError string) (read_xattrs : string -> option (gmap string bytes)).
Context (old : FileCache) (parent : option (gmap bytes ParentEntry)) (xattrs_enabled : bool) (segment_size : Z) (Hsize : 0 < segment_size).
Context (contents : string -> bytes) (Hreads : reads_as contents).

(** What becomes of a file with contents: it takes the chunks of the cache, or
    one for each piece that was read, which together are its contents; or it
    is left out and counted, with no chunk of it stored. *)
Definition par_file_done (abs_path : string) (m : MetadataSummary) (item : Item) (o : Outcome) : Prop :=
  match effective_hit blake2b_16 old parent abs_path m with
  | Some cached_refs => o = file_outcome abs_path m item cached_refs
  | None =>
      if segment_size <? md_size m
      then segments_done item abs_path m segment_size (md_size m) (Z.to_nat ((md_size m + segment_size - 1) / segment_size)) contents o
      else
        let pieces := if md_size m <? min_chunk_size then match read_file abs_path with Ok data => Ok [Ok data] | Err er => Err (Io er) end else open_chunks abs_path in
        (exists datas refs, pieces = Ok (Ok <$> datas) /\ concat datas = contents abs_path /\ ref_id <$> refs = cid <$> datas /\ o = file_outcome abs_path m item refs) \/
        (unreadable pieces /\ o = one_error)
  end.
Definition par_done (prefix : option string) (wi : SequentialWalkItem) (o : Outcome) : Prop :=
  match wi with
  | WSkipped => o = one_error
  | WHardError _ => False
  | WEntry abs_path rel_path m t =>
      match entry_kind read_link abs_path t with
      | TSoft => o = one_error
      | THard _ => False
      | TSpecial => o = nothing
      | TItem ty link =>
          let item := walked_item read_xattrs prefix rel_path ty link xattrs_enabled abs_path m in
          if bool_decide (ty = RegularFile) && (0 <? md_size m) then par_file_done abs_path m item o else o = item_only item
      end
  end.

(** A run of results that ends between files. *)
Definition unit_spec (b : nat) (es : list WalkEntry) (D : Outcome -> Prop) : Prop := forall j0 es0,
  spec (consume_seq (mkProgress None 0) (results_from b es)) j0 es0
    (settled (fun pr j evs => pr = mkProgress None 0 /\ exists o, D o /\ wrote j0 j evs o)) failing.

Lemma unit_nil b (D : Outcome -> Prop) : D nothing -> unit_spec b [] D.
Proof. intros HD j0 es0. apply spec_ret. split; [done|]. exists nothing. split; [done|apply wrote_nothing]. Qed.
Lemma unit_weaken b es (D D' : Outcome -> Prop) : (forall o, D o -> D' o) -> unit_spec b es D -> unit_spec b es D'.
Proof. intros HD H j0 es0. eapply spec_weaken; [apply H| |done]. intros [[[]|] pr] j evs; [|done]. intros (-> & o & Ho & W). split; [done|]. exists o. auto. Qed.
Lemma unit_one b entry (D : Outcome -> Prop) :
  (forall j0 es0, spec (drain_one (mkProgress None 0) (processed cap b entry)) j0 es0 (drained (fun pr j evs => pr = mkProgress None 0 /\ exists o, D o /\ wrote j0 j evs o)) failing) ->
  unit_spec b [entry] D.
Proof. intros H j0 es0. cbn [results_from]. eapply settled_cons; [apply H|]. intros pr j evs HR. apply spec_ret. cbn [settled]. by rewrite app_nil_r. Qed.
Lemma unit_app b es1 es2 (D D1 D2 : Outcome -> Prop) : (forall o1 o2, D1 o1 -> D2 o2 -> D (oapp o1 o2)) ->
  unit_spec b es1 D1 -> unit_spec (b + length es1) es2 D2 -> unit_spec b (es1 ++ es2) D.
Proof.
  intros HD H1 H2 j0 es0 s w Hr Ha. rewrite results_from_app, consume_seq_app. specialize (H1 j0 es0 s w Hr Ha).
  destruct (consume_seq_run (mkProgress None 0) (results_from b es1) j0 s w) as (r & pr & [[j' s'] w'] & E). rewrite E in *.
  destruct r as [[]|er]; [|exact H1]. destruct H1 as (Ha' & evs & Hr' & -> & o1 & Ho1 & W1). specialize (H2 j' _ s' w' Hr' Ha').
  destruct (consume_seq_run (mkProgress None 0) (results_from (b + length es1) es2) j' s' w') as (r2 & pr2 & [[j2 s2] w2] & E2). rewrite E2 in *.
  destruct H2 as (Ha2 & evs2 & Hr2 & HQ). split; [done|]. exists (evs ++ evs2). rewrite app_assoc. split; [done|]. destruct r2 as [[]|]; [|done].
  destruct HQ as (-> & o2 & Ho2 & W2). split; [done|]. exists (oapp o1 o2). split; [by auto|by eapply wrote_app].
Qed.

Lemma pieces_contents item path m size datas : entry_pieces (WkFile item path m size) = Ok (Ok <$> datas) -> concat datas = contents path.
Proof.
  cbn [entry_pieces]. destruct (_ <? _); [|apply Hreads]. destruct (read_file path) as [data|] eqn:E; [|done].
  destruct datas as [|d [|d' datas]]; [done| |done]. intros [= ->]. cbn [concat]. rewrite app_nil_r. by apply (rd_small _ Hreads).
Qed.

Lemma item_spec prefix wi es b : walk_items blake2b_16 read_link read_xattrs old parent xattrs_enabled segment_size prefix wi = Ok <$> es ->
  unit_spec b es (par_done prefix wi).
Proof.
  assert (Hone : forall entry, [Ok entry] = Ok <$> es :> list (res WalkEntry) -> es = [entry]).
  { intros entry E. destruct es as [|x [|y l]]; [done| |done]. by injection E as ->. }
  assert (Hnone : forall er, [Err er] <> Ok <$> es :> list (res WalkEntry)) by (intros er E; by destruct es).
  destruct wi as [path rel m t| |er]; cbn [walk_items]; [|intros E; apply Hone in E as ->; apply unit_one; intros j0 es0|intros E; by apply Hnone in E].
  2:{ change (processed cap b WkSkipped) with (Ok (A := ProcessedEntry) (E := VykarError) Skipped). eapply spec_weaken; [apply (drain_skipped_spec _ _ 1); by left| |done].
      intros [[[[]|] pr] z] j evs; [|done]. intros [-> W]. split; [done|]. by exists one_error. }
  unfold walked_entry_to_walk_items, par_done. destruct (entry_kind read_link path t) as [ty link| | |er] eqn:Hk; [| | |intros E; by apply Hnone in E].
  - cbv zeta. set (item := walked_item _ _ _ _ _ _ _ _). assert (Hi : item_chunks item = []) by done.
    destruct (bool_decide (ty = RegularFile) && (0 <? md_size m)) eqn:Hc.
    2:{ intros E. apply Hone in E as ->. apply unit_one. intros j0 es0. change (processed cap b (WkNonFile item)) with (Ok (E := VykarError) (NonFile item)).
        eapply spec_weaken; [by apply drain_item_spec| |done]. intros [[[[]|] pr] z] j evs; [|done]. intros [-> W]. split; [done|]. by exists (item_only item). }
    unfold par_file_done. destruct (effective_hit _ old parent path m) as [refs|].
    { intros E. apply Hone in E as ->. apply unit_one. intros j0 es0. change (processed cap b (WkCacheHit item path m refs)) with (Ok (E := VykarError) (CacheHit item path m refs)).
      eapply spec_weaken; [by apply drain_hit_spec| |done]. intros [[[[]|] pr] z] j evs; [|done]. intros [-> W]. split; [done|]. by eexists. }
    destruct (segment_size <? md_size m) eqn:Hsg.
    + intros E. apply (f_equal walk_good) in E. rewrite !(proj1 (walk_good_all _)) in E. subst es. unfold segments. cbv zeta. intros j0 es0.
      apply Z.ltb_lt in Hsg. assert (1 <= (md_size m + segment_size - 1) / segment_size) by (apply Z.div_le_lower_bound; lia). apply segments_spec; [done..|lia|].
      pose proof (Z.div_mod (md_size m + segment_size - 1) segment_size ltac:(lia)). pose proof (Z.mod_pos_bound (md_size m + segment_size - 1) segment_size Hsize). nia.
    + intros E. apply Hone in E as ->. apply unit_one. intros j0 es0. cbv zeta. pose proof (processed_file b item path m (md_size m)) as Hp. cbv zeta in Hp.
      destruct (processed cap b (WkFile item path m (md_size m))) as [[item' path' m' wcs z| | | | | | |]|er]; try done.
      * destruct Hp as (-> & -> & -> & datas & Hd & Hcl). eapply spec_weaken; [by apply drain_file_spec| |done].
        intros [[[[]|] pr] z'] j evs; [|done]. intros (-> & refs & Hrefs & W). split; [done|]. eexists. split; [left; exists datas, refs; split; [exact Hd|]; split; [by apply pieces_contents in Hd|done]|done].
      * eapply spec_weaken; [apply (drain_skipped_spec _ _ 1); by left| |done].
        intros [[[[]|] pr] z] j evs; [|done]. intros [-> W]. split; [done|]. eexists. split; [right; by split|done].
      * cbn [drain_one segments_to_skip large_file_accum]. rewrite Hp. by apply spec_ret.
  - intros E. apply Hone in E as ->. apply unit_one. intros j0 es0. change (processed cap b WkSkipped) with (Ok (A := ProcessedEntry) (E := VykarError) Skipped).
    eapply spec_weaken; [apply (drain_skipped_spec _ _ 1); by left| |done]. intros [[[[]|] pr] z] j evs; [|done]. intros [-> W]. split; [done|]. by exists one_error.
  - intros E. destruct es; [|done]. by apply unit_nil.
Qed.

Lemma bind_ok {A} (f : A -> list (res WalkEntry)) x l es : (x :: l) ≫= f = Ok <$> es -> exists es1 es2, es = es1 ++ es2 /\ f x = Ok <$> es1 /\ l ≫= f = Ok <$> es2.
Proof. rewrite bind_cons. intros E. symmetry in E. apply fmap_app_inv in E as (es1 & es2 & H1 & H2 & ->). by exists es1, es2. Qed.

Lemma walk_spec prefix walk : forall es b,
  walk ≫= walk_items blake2b_16 read_link read_xattrs old parent xattrs_enabled segment_size prefix = Ok <$> es ->
  unit_spec b es (fun o => exists os, Forall2 (par_done prefix) walk os /\ o = osum os).
Proof.
  induction walk as [|wi walk IH]; intros es b.
  - intros E. destruct es; [|done]. apply unit_nil. exists []. split; [constructor|done].
  - intros (es1 & es2 & -> & E1 & E2)%bind_ok. eapply unit_app; [|by apply item_spec|by apply IH].
    intros o1 o2 H1 (os & Hos & ->). exists (o1 :: os). split; [by constructor|done].
Qed.

Definition source_done (multi_path : bool) (source : string * res (list SequentialWalkItem)) (o : Outcome) : Prop :=
  exists walk os, source.2 = Ok walk /\ Forall2 (par_done (source_prefix multi_path source.1)) walk os /\
    o = oapp (prefix_outcome (source_prefix multi_path source.1)) (osum os).

Lemma no_outcome_spec b entry r (D : Outcome -> Prop) : processed cap b entry = Ok r -> (exists path, r = SourceStarted path \/ r = SourceFinished path) -> D nothing -> unit_spec b [entry] D.
Proof.
  intros E Hr HD. apply unit_one. intros j0 es0. rewrite E. destruct Hr as [path [-> | ->]]; apply consumed_spec; try done; cbn [consume_processed_entry]; apply spec_ret;
    (split; [done|]; exists nothing; split; [done|apply wrote_nothing]).
Qed.

Lemma sources_spec multi_path sources : forall es b,
  build_walk_iter blake2b_16 read_link read_xattrs old parent xattrs_enabled segment_size multi_path sources = Ok <$> es ->
  unit_spec b es (fun o => exists os, Forall2 (source_done multi_path) sources os /\ o = osum os).
Proof.
  unfold build_walk_iter. induction sources as [|[path walk] sources IH]; intros es b.
  - intros E. destruct es; [|done]. apply unit_nil. exists []. split; [constructor|done].
  - intros (es1 & es2 & -> & E1 & E2)%bind_ok. eapply unit_app with (D1 := source_done multi_path (path, walk)); [| |by apply IH].
    { intros o1 o2 H1 (os & Hos & ->). exists (o1 :: os). split; [by constructor|done]. }
    symmetry in E1. apply fmap_app_inv in E1 as (l1 & l2 & H1 & H2 & ->). destruct l1 as [|x [|y l1]]; [done| |done]. injection H1 as <-.
    symmetry in H2. apply fmap_app_inv in H2 as (l3 & l4 & H3 & H4 & ->). destruct l4 as [|y [|z l4]]; [done| |done]. injection H4 as <-.
    eapply unit_app with (D1 := fun o => o = nothing) (D2 := source_done multi_path (path, walk)); [intros o1 o2 -> H; by rewrite nothing_oapp|by eapply no_outcome_spec; eauto|].
    eapply unit_app with (D1 := source_done multi_path (path, walk)) (D2 := fun o => o = nothing); [intros o1 o2 H ->; by rewrite oapp_nothing| |by eapply no_outcome_spec; eauto].
    unfold walk_source in H3. destruct walk as [walk|er]; [|by destruct l3].
    symmetry in H3. apply fmap_app_inv in H3 as (l5 & l6 & H5 & H6 & ->).
    eapply unit_app with (D1 := fun o => o = prefix_outcome (source_prefix multi_path path)); [|clear H6|by apply walk_spec].
    + intros o1 o2 -> (os & Hos & ->). by exists walk, os.
    + destruct (source_prefix multi_path path) as [pfx|]; [|destruct l5; [by apply unit_nil|done]]. destruct l5 as [|x [|y l5]]; [done| |done]. injection H5 as <-. apply unit_one. intros j0 es0.
      change (processed cap _ (WkNonFile (prefix_item pfx))) with (Ok (E := VykarError) (NonFile (prefix_item pfx))).
      eapply spec_weaken; [by apply drain_item_spec| |done]. intros [[[[]|] pr] z] j evs; [|done]. intros [-> W]. split; [done|]. by exists (item_only (prefix_item pfx)).
Qed.

Lemma no_walk_error multi_path sources es path walk :
  build_walk_iter blake2b_16 read_link read_xattrs old parent xattrs_enabled segment_size multi_path sources = Ok <$> es -> (path, walk) ∈ sources ->
  match walk with Err er => is_soft_file_error er = false | Ok l => forall er, WHardError er ∈ l -> is_soft_file_error er = false end.
Proof.
  intros Hes Hin. assert (Hno : forall er, ~ Err er ∈ walk_source blake2b_16 read_link read_xattrs old parent xattrs_enabled segment_size multi_path path walk).
  { intros er He. assert (Hb : Err er ∈ (Ok <$> es : list (res WalkEntry))); [|by apply list_elem_of_fmap in Hb as (x & ? & _)].
    rewrite <- Hes. apply list_elem_of_bind. exists (path, walk). split; [|done]. rewrite !elem_of_app. by right; left. }
  destruct walk as [l|er]; [|exfalso; apply (Hno er), list_elem_of_here]. intros er Her. exfalso. apply (Hno er). unfold walk_source. apply elem_of_app. right.
  apply list_elem_of_bind. exists (WHardError er). split; [apply list_elem_of_here|done].
Qed.

Lemma walked_wf multi_path sources es :
  build_walk_iter blake2b_16 read_link read_xattrs old parent xattrs_enabled segment_size multi_path sources = Ok <$> es -> walk_wf (Ok <$> es).
Proof. intros Hes. rewrite <- Hes. apply walk_iter_wf; [done|]. intros path walk Hin. by eapply no_walk_error. Qed.

(** C5. The parallel backup does what consuming the entries one after the
    other in walk order does.  Whatever the schedule and the number of
    workers: when all threads have ended over walks that did not fail, and
    there was no shutdown or the backup succeeded in spite of it, its result,
    success or error, and the state of the job, of the session and of the
    store are those of the sequential run. *)
Theorem parallel_equals_in_order multi_path sources es j0 sched p :
  (0 < num_workers)%nat -> 0 <= cap ->
  build_walk_iter blake2b_16 read_link read_xattrs old parent xattrs_enabled segment_size multi_path sources = Ok <$> es ->
  run_schedule sched (pipe_init (Ok <$> es) cap (j0, s0, w0)) = Some p -> finished p = true ->
  exists r, consumer p = Finished r /\ (shutdown p = false \/ r = Ok tt -> consume_in_order (all_processed es cap) j0 s0 w0 = (r, backup p)).
Proof. intros Hw Hc Hes. apply parallel_inv; [done..|]. by eapply walked_wf. Qed.

(** C4. The parallel backup stores what the walks found.  When it succeeds,
    under whatever schedule of its threads, its effect on the session is that
    of a sequence of [store_chunk] and [reuse_cached_chunk_ref] requests, and
    the outcomes of the entries appear in walk order, as in the sequential
    backup: the item stream and its pointers, the references taken, the new
    file cache and the count of errors.  A file is stored with the chunks that
    it was cut into, and these are its contents without gap or overlap, across
    its segments too; or it is left out as a whole, for a soft I/O error alone,
    and then no reference is taken for it.  Assumed are walks that do not fail,
    segments of a positive size, nonces of the right length, that workers and
    session use the same filter, and that reading a file or a range of it
    yields its bytes ([reads_as]). *)
Theorem parallel_backup_faithful multi_path sources es j0 sched p :
  (0 < num_workers)%nat -> 0 <= cap -> agrees dedup_filter s0 ->
  build_walk_iter blake2b_16 read_link read_xattrs old parent xattrs_enabled segment_size multi_path sources = Ok <$> es ->
  run_schedule sched (pipe_init (Ok <$> es) cap (j0, s0, w0)) = Some p ->
  finished p = true -> consumer p = Finished (Ok tt) ->
  let '(j, s, w) := backup p in
  exists evs os, ran e data_target s0 w0 evs s w /\ Forall2 (source_done multi_path) sources os /\ wrote j0 j evs (osum os).
Proof.
  intros Hw Hc Ha Hes Hrun Hfin Hok.
  destruct (parallel_inv es cap j0 s0 w0 sched p Hw Hc (walked_wf _ _ _ Hes) Hrun Hfin) as (r & Hr & Heq). rewrite Hok in Hr. injection Hr as <-. specialize (Heq (or_intror eq_refl)).
  rewrite all_processed_from in Heq. destruct (backup p) as [[j s] w]. unfold consume_in_order in Heq. rewrite bm_bind_run in Heq.
  pose proof (sources_spec multi_path sources es 0 Hes j0 [] s0 w0 (ran_nil _ _ s0 w0) Ha) as Hs.
  destruct (consume_seq (mkProgress None 0) (results_from 0 es) j0 s0 w0) as [[[[[]|] pr]|] [[j' s'] w']]; [|done..].
  destruct Hs as (_ & evs & Hr' & -> & o & (os & Hos & ->) & W). injection Heq as -> -> ->. by exists evs, os.
Qed.
End Walked.
End Stored.
End Pipeline.

(** ** A parallel backup

    Two workers and a budget of four bytes; a file in three segments is larger
    than the budget, another file cannot be read.  The schedule always runs
    the first thread that can take a step, the consumer last. *)

Section Drive.
Context (step : Thread -> Pipe -> option Pipe).
Fixpoint drive (fuel : nat) (threads : list Thread) (p : Pipe) : list Thread :=
  match fuel with
  | O => []
  | S fuel' =>
      match List.find (fun t => bool_decide (is_Some (step t p))) threads with
      | Some t => match step t p with Some p' => t :: drive fuel' threads p' | None => [] end
      | None => []
      end
  end.
End Drive.

Definition pl_contents (path : string) : bytes :=
  if String.eqb path "/d/a" then [7; 7] else if String.eqb path "/d/big" then [1; 7; 7] else [0; 1; 2; 3; 4; 5; 6; 7; 8; 9].
Definition pl_segment (path : string) (off len : Z) : res (list (res bytes)) := Ok [Ok (slice (Z.to_nat off) (Z.to_nat len) (pl_contents path))].
Lemma pl_reads : reads_as bk_open pl_segment bk_read pl_contents.
Proof.
  split.
  - intros path data. unfold bk_read, pl_contents. destruct (String.eqb path "/d/a"); [|done]. by intros [= <-].
  - intros path datas. unfold bk_open, pl_contents. destruct (String.eqb_spec path "/d/big") as [->|_]; [|destruct datas as [|d [|d' l]]; intros E; by injection E].
    destruct datas as [|d [|d' [|d2 l]]]; intros E; [done|done| |done]. by injection E as <- <-.
  - intros path off len datas. unfold pl_segment. destruct datas as [|d [|d' l]]; intros E; [done| |done]. injection E as <-. cbn [concat]. by rewrite app_nil_r.
Qed.
Definition pl_nonce (i n : nat) : bytes := ac_nonce.
#[local] Abbreviation pl_step := (step ac_engine ac_target (fun x => x) bk_input pl_nonce bk_open pl_segment bk_read 3 bk_config CNone None 2 1).
#[local] Abbreviation pl_run := (run_schedule ac_engine ac_target (fun x => x) bk_input pl_nonce bk_open pl_segment bk_read 3 bk_config CNone None 2 1).
Definition pl_threads : list Thread := [TWalk; TWorker 1; TWorker 0; TConsumer].

Definition pl_walk : list SequentialWalkItem :=
  [WEntry "/d/sub" "sub" (bk_meta 0) FDir; WEntry "/d/secret" "secret" (bk_meta 2) FFile; WEntry "/d/long" "long" (bk_meta 10) FFile; WEntry "/d/a" "a" (bk_meta 2) FFile].
Definition pl_sources : list (string * res (list SequentialWalkItem)) := [("/d", Ok pl_walk)].
Definition pl_entries : list (res WalkEntry) := build_walk_iter (fun x => x) bk_link bk_xattrs fc_new None false 4 true pl_sources.
#[local] Abbreviation pl_init := (pipe_init 2 pl_entries 4 (bk_job, ac_s0, ac_w0)).
Definition pl_sched : list Thread := drive pl_step 200 pl_threads pl_init.

Lemma pl_hard path walk : (path, walk) ∈ pl_sources -> match walk with
  | Err er => is_soft_file_error er = false
  | Ok l => forall er, WHardError er ∈ l -> is_soft_file_error er = false end.
Proof.
  intros Hin. apply list_elem_of_singleton in Hin as [= -> ->]. intros er Her.
  unfold pl_walk in Her. repeat (apply elem_of_cons in Her as [?|Her]; [done|]). by apply elem_of_nil in Her.
Qed.
Lemma pl_good : pl_entries = Ok <$> walk_good pl_entries.
Proof. vm_compute. reflexivity. Qed.
Lemma pl_ends : exists p, pl_run pl_sched pl_init = Some p /\ finished p = true /\ consumer p = Finished (Ok tt) /\
  errors (j_stats (backup p).1.1) = 1 /\ length (j_ptrs (backup p).1.1) = 4%nat.
Proof.
  assert (H : match pl_run pl_sched pl_init with Some p => (finished p, match consumer p with Finished (Ok tt) => true | _ => false end,
    errors (j_stats (backup p).1.1), length (j_ptrs (backup p).1.1)) | None => (false, false, 0, 0%nat) end = (true, true, 1, 4%nat)) by (vm_compute; reflexivity).
  destruct (pl_run pl_sched pl_init) as [p|]; [|done]. exists p. split; [done|].
  injection H as H1 H2 H3 H4. split; [done|]. split; [|done]. destruct (consumer p) as [| |[[]|]]; done.
Qed.

Lemma pipeline_always_finishes_witness :
  exists p, pl_run [TWalk; TWalk; TWalk; TWalk; TSignal; TWorker 1] pl_init = Some p /\ finished p = false /\
    exists t p', t <> TSignal /\ pl_step t p = Some p'.
Proof.
  assert (Hf : (finished <$> pl_run [TWalk; TWalk; TWalk; TWalk; TSignal; TWorker 1] pl_init) = Some false) by (vm_compute; reflexivity).
  destruct (pl_run [TWalk; TWalk; TWalk; TWalk; TSignal; TWorker 1] pl_init) as [p|] eqn:Hp; [|done].
  injection Hf as Hf. exists p. split; [done|]. split; [done|].
  destruct (pipeline_always_finishes ac_engine ac_target (fun x => x) bk_input pl_nonce bk_open pl_segment bk_read 3 bk_config CNone None 2 1
    bk_link bk_xattrs fc_new None false 4 true pl_sources 4 (bk_job, ac_s0, ac_w0) [TWalk; TWalk; TWalk; TWalk; TSignal; TWorker 1] p) as (_ & H & _); [lia|done|lia|exact pl_hard|exact Hp|]. exact (H Hf).
Defined.

Lemma parallel_equals_in_order_witness :
  exists p r, pl_run pl_sched pl_init = Some p /\ consumer p = Finished r /\ r = Ok tt /\
    consume_in_order ac_engine ac_target (fun x => x) bk_input bk_config CNone None
      (all_processed ac_engine pl_nonce bk_open pl_segment bk_read 3 CNone None (walk_good pl_entries) 4) bk_job ac_s0 ac_w0 = (r, backup p).
Proof.
  destruct pl_ends as (p & Hrun & Hf & Hc & _). exists p, (Ok tt). split; [done|]. split; [done|]. split; [done|].
  destruct (parallel_equals_in_order ac_engine ac_target (fun x => x) bk_input pl_nonce bk_open pl_segment bk_read 3 bk_config CNone None 2 1
    4 ac_s0 ac_w0 bk_link bk_xattrs fc_new None false 4 eq_refl true pl_sources (walk_good pl_entries) bk_job pl_sched p) as (r & Hr & H); [lia|done|exact pl_good| |exact Hf|].
  - rewrite <- pl_good. exact Hrun.
  - rewrite Hc in Hr. injection Hr as <-. apply H. by right.
Defined.

Lemma parallel_backup_faithful_witness :
  exists p evs os, pl_run pl_sched pl_init = Some p /\ ran ac_engine ac_target ac_s0 ac_w0 evs (backup p).1.2 (backup p).2 /\
    wrote ac_engine (fun x => x) bk_job (backup p).1.1 evs (osum os) /\ errors (j_stats (backup p).1.1) = 1.
Proof.
  destruct pl_ends as (p & Hrun & Hf & Hc & He & _).
  pose proof (parallel_backup_faithful ac_engine ac_target (fun x => x) bk_input pl_nonce bk_open pl_segment bk_read 3 bk_config CNone None 2 1
    (fun _ _ => eq_refl) 4 ac_s0 ac_w0 bk_link bk_xattrs fc_new None false 4 eq_refl pl_contents pl_reads true pl_sources (walk_good pl_entries) bk_job pl_sched p
    ltac:(lia) ltac:(done) ltac:(vm_compute; reflexivity) pl_good ltac:(rewrite <- pl_good; exact Hrun) Hf Hc) as H.
  exists p. destruct (backup p) as [[j s] w]. destruct H as (evs & os & H1 & _ & H3). exists evs, os. by split_and!.
Defined.

(** A soft error of the walk itself ends the walk, since its thread returns;
    the consumer counts it and the backup succeeds without the rest.  The
    walks of the program report such errors as skipped entries instead. *)
Definition pl_cut : Pipe := pipe_init 2 [Err (Io bk_denied); Ok (WkNonFile (prefix_item "d"))] 4 (bk_job, ac_s0, ac_w0).
Lemma soft_walk_error_ends_walk :
  (match pl_run (drive pl_step 50 pl_threads pl_cut) pl_cut with
   | Some p => Some (finished p, consumer p, j_stream (backup p).1.1, errors (j_stats (backup p).1.1), length (walk_todo p))
   | None => None
   end) = Some (true, Finished (Ok tt), [], 1, 1%nat).
Proof. vm_compute. reflexivity. Qed.
