(* ===== verification/Restore.v ===== *)
(** * Restoring a snapshot (crates/vykar-core/src/commands/restore.rs)

    The items of a snapshot are streamed: directories and links are made at
    once, files are planned.  Their chunks are looked up, grouped into range
    reads per pack, and spread over threads, which read, decode and write,
    each chunk to every place that needs it.

    The destination is a tree of nodes with links; paths are lists of names
    from the root.  Which system calls fail is up to the schedule, and what a
    range read answers is an argument.  The application of modes, times and
    extended attributes is best effort and left out, as are log messages and
    the choice of the snapshot. *)

From S2P Require Import Prelude Types Storage ChunkIndex Pack.
From S2P Require Import Crypto Format Compress DedupCache Retention Lock Repo ReadPath Snapshots FileCache.
#[local] Open Scope string_scope.
#[local] Open Scope list_scope.
#[local] Open Scope Z_scope.

Definition MAX_COALESCE_GAP : Z := 256 * 1024.
Definition MAX_READ_SIZE : Z := 16 * 1024 * 1024.
Definition MAX_OPEN_FILES_PER_GROUP : nat := 16.
Definition MAX_WRITE_BATCH : Z := 1024 * 1024.

Record WriteTarget := mkWriteTarget { file_idx : nat; file_offset : Z }.
Record ChunkTargets := mkChunkTargets { expected_size : Z; targets : list WriteTarget }.
Record PlannedBlob := mkPlannedBlob {
  pb_chunk_id : ChunkId;
  pb_pack_offset : Z;
  pb_stored_size : Z;
  pb_expected_size : Z;
  pb_targets : list WriteTarget;
}.
Record ReadGroup := mkReadGroup { rg_pack_id : PackId; rg_start : Z; rg_end : Z; rg_blobs : list PlannedBlob }.
Record PlannedFile := mkPlannedFile {
  rel_path : string;
  total_size : Z;
  pf_mode : Z;
  pf_mtime : Z;
  pf_xattrs : option (gmap string bytes);
}.
Record RestoreStats := mkRestoreStats { rst_files : Z; rst_dirs : Z; rst_symlinks : Z; rst_bytes : Z }.

(** ** Paths *)

(** The names of a path that is pushed together. *)
Definition sanitize_item_path_into (raw : string) : res string :=
  if starts_with raw "/" then Err (InvalidFormat "refusing to restore absolute path")
  else
    let parts := components raw in
    if existsb (fun c => String.eqb c ".." || String.eqb c "/") parts then Err (InvalidFormat "refusing to restore unsafe path")
    else match List.filter (fun c => negb (String.eqb c ".")) parts with
    | [] => Err (InvalidFormat "refusing to restore empty path")
    | normal => Ok (String.concat "/" normal)
    end.

(** [str::rfind('/')]: what is before the last slash. *)
Fixpoint before_last_slash (s : string) : option string :=
  match s with
  | EmptyString => None
  | String a s' =>
      match before_last_slash s' with
      | Some p => Some (String a p)
      | None => if Ascii.eqb a "/" then Some EmptyString else None
      end
  end.
Fixpoint ancestor_selected (fuel : nat) (current : string) (selected : gset string) : bool :=
  match fuel, before_last_slash current with
  | S fuel', Some parent => bool_decide (parent ∈ selected) || ancestor_selected fuel' parent selected
  | _, _ => false
  end.
Definition path_matches_selection (path : string) (selected : gset string) : bool :=
  bool_decide (path ∈ selected) || ancestor_selected (String.length path) path selected.

Definition split_unix_nanos (total_nanos : Z) : Z * Z := (total_nanos / 1000000000, total_nanos `mod` 1000000000).

(** ** The destination *)

Abbreviation Path := (list string) (only parsing).
Inductive Node := NDir | NFile (data : bytes) | NLink (target : string).
Abbreviation FS := (gmap Path Node) (only parsing).

(** Where a path leads when links are followed, as far as it exists but for
    its last name. *)
Fixpoint resolve (fuel : nat) (fs : FS) (cur todo : Path) : option Path :=
  match fuel with
  | O => None
  | S fuel' =>
      match todo with
      | [] => Some cur
      | name :: rest =>
          if String.eqb name "." then resolve fuel' fs cur rest
          else if String.eqb name ".." then resolve fuel' fs (removelast cur) rest
          else
            let p := cur ++ [name] in
            match fs !! p with
            | None => match rest with [] => Some p | _ => None end
            | Some NDir => resolve fuel' fs p rest
            | Some (NFile _) => match rest with [] => Some p | _ => None end
            | Some (NLink target) =>
                match components target with
                | root :: names => if String.eqb root "/" then resolve fuel' fs [] (names ++ rest) else resolve fuel' fs cur ((root :: names) ++ rest)
                | [] => None
                end
            end
      end
  end.
Definition FS_FUEL : nat := 1000.

Definition is_node (fs : FS) (p : Path) : bool := match p with [] => true | _ => bool_decide (is_Some (fs !! p)) end.
Definition canonicalize (fs : FS) (p : Path) : option Path := q ← resolve FS_FUEL fs [] p; if is_node fs q then Some q else None.
Definition fs_exists (fs : FS) (p : Path) : bool := match canonicalize fs p with Some _ => true | None => false end.
Definition is_dir (fs : FS) (p : Path) : bool :=
  match canonicalize fs p with Some [] => true | Some q => match fs !! q with Some NDir => true | _ => false end | None => false end.

(** The directory of a path, with links followed, and the last name, which is
    not looked at. *)
Definition parent_of (fs : FS) (p : Path) : option Path :=
  name ← last p; d ← canonicalize fs (removelast p); if is_dir fs d then Some (d ++ [name]) else None.

Definition io_error : VykarError := Io {| io_kind := NotFound; raw_os_error := None |}.

Definition mkdir (fs : FS) (p : Path) : res FS :=
  match parent_of fs p with Some q => if is_node fs q then Err io_error else Ok (<[q := NDir]> fs) | None => Err io_error end.
(** [create_dir_all], from the root down. *)
Fixpoint create_dirs (fs : FS) (done todo : Path) : res FS :=
  match todo with
  | [] => Ok fs
  | name :: rest =>
      let p := done ++ [name] in
      fs' ← (if is_dir fs p then Ok fs else mkdir fs p);
      create_dirs fs' p rest
  end.
Definition create_dir_all (fs : FS) (p : Path) : res FS := create_dirs fs [] p.
Definition remove_file (fs : FS) (p : Path) : FS :=
  match parent_of fs p with
  | Some q => match fs !! q with Some (NFile _) | Some (NLink _) => delete q fs | _ => fs end
  | None => fs
  end.
Definition create_symlink (fs : FS) (target : string) (p : Path) : res FS :=
  match parent_of fs p with Some q => if is_node fs q then Err io_error else Ok (<[q := NLink target]> fs) | None => Err io_error end.

(** Opening for writing: the file that is found or made. *)
Definition open_file (fs : FS) (p : Path) : res (Path * FS) :=
  match resolve FS_FUEL fs [] p with
  | Some q => match fs !! q with
      | Some (NFile _) => Ok (q, fs)
      | None => match q with [] => Err io_error | _ => Ok (q, <[q := NFile []]> fs) end
      | _ => Err io_error
      end
  | None => Err io_error
  end.
Definition file_data (fs : FS) (q : Path) : bytes := match fs !! q with Some (NFile d) => d | _ => [] end.
(** [ftruncate] and [pwrite]. *)
Definition resized (n : nat) (d : bytes) : bytes := take n d ++ replicate (n - length d) 0.
Definition written (off : nat) (buf d : bytes) : bytes :=
  take off (resized (Nat.max off (length d)) d) ++ buf ++ drop (off + length buf) d.

(** The first ancestor that exists must lie under the root. *)
Fixpoint nearest_ok (n : nat) (fs : FS) (p root : Path) : res unit :=
  match canonicalize fs p with
  | Some q => if bool_decide (take (length root) q = root) then Ok tt else Err (InvalidFormat "refusing to restore outside destination")
  | None => match n with O => Err (InvalidFormat "invalid restore target path") | S n' => nearest_ok n' fs (removelast p) root end
  end.
Definition ensure_path_within_root (fs : FS) (p root : Path) : res unit := nearest_ok (length p) fs p root.
Definition ensure_parent_exists_within_root (fs : FS) (p root : Path) : res FS :=
  match p with
  | [] => Ok fs
  | _ =>
      let parent := removelast p in
      _ ← ensure_path_within_root fs parent root;
      fs' ← create_dir_all fs parent;
      _ ← ensure_path_within_root fs' parent root;
      Ok fs'
  end.

(** ** Streaming the items *)

Record Plan := mkPlan {
  pl_fs : FS;
  planned_files : list PlannedFile;
  chunk_targets : gmap ChunkId ChunkTargets;
  pl_stats : RestoreStats;
  verified_dirs : gset Path;
}.
Definition set_fs (fs : FS) (p : Plan) : Plan := mkPlan fs (planned_files p) (chunk_targets p) (pl_stats p) (verified_dirs p).
Definition set_targets (t : gmap ChunkId ChunkTargets) (p : Plan) : Plan := mkPlan (pl_fs p) (planned_files p) t (pl_stats p) (verified_dirs p).

(** The chunks of a file, from an offset on. *)
Fixpoint plan_chunks (idx : nat) (refs : list ChunkRef) (off : Z) (t : gmap ChunkId ChunkTargets) : res (Z * gmap ChunkId ChunkTargets) * gmap ChunkId ChunkTargets :=
  match refs with
  | [] => (Ok (off, t), t)
  | r :: refs' =>
      let en := default (mkChunkTargets (ref_size r) []) (t !! ref_id r) in
      let t := <[ref_id r := en]> t in
      if negb (expected_size en =? ref_size r) then (Err (InvalidFormat "inconsistent logical sizes in snapshot metadata"), t)
      else plan_chunks idx refs' (u64_add off (ref_size r)) (<[ref_id r := mkChunkTargets (expected_size en) (targets en ++ [mkWriteTarget idx off])]> t)
  end.

Definition stream_item (dest_root : Path) (include_path : string -> bool) (item : Item) (p : Plan) : res unit * Plan :=
  if negb (include_path (item_path item)) then (Ok tt, p)
  else
    match entry_type item with
    | Directory =>
        match sanitize_item_path_into (item_path item) with
        | Err er => (Err er, p)
        | Ok rel =>
            let target := dest_root ++ components rel in
            match ensure_path_within_root (pl_fs p) target dest_root with
            | Err er => (Err er, p)
            | Ok _ =>
                match create_dir_all (pl_fs p) target with
                | Err er => (Err er, p)
                | Ok fs =>
                    match ensure_path_within_root fs target dest_root with
                    | Err er => (Err er, set_fs fs p)
                    | Ok _ =>
                        let st := pl_stats p in
                        (Ok tt, mkPlan fs (planned_files p) (chunk_targets p) (mkRestoreStats (rst_files st) (u64_add (rst_dirs st) 1) (rst_symlinks st) (rst_bytes st))
                                  ({[target]} ∪ verified_dirs p))
                    end
                end
            end
        end
    | Symlink =>
        match link_target item with
        | None => (Ok tt, p)
        | Some link =>
            match sanitize_item_path_into (item_path item) with
            | Err er => (Err er, p)
            | Ok rel =>
                let target := dest_root ++ components rel in
                match (if bool_decide (removelast target ∈ verified_dirs p) then Ok (pl_fs p) else ensure_parent_exists_within_root (pl_fs p) target dest_root) with
                | Err er => (Err er, p)
                | Ok fs =>
                    let fs := remove_file fs target in
                    match create_symlink fs link target with
                    | Err er => (Err er, set_fs fs p)
                    | Ok fs =>
                        let st := pl_stats p in
                        (Ok tt, mkPlan fs (planned_files p) (chunk_targets p) (mkRestoreStats (rst_files st) (rst_dirs st) (u64_add (rst_symlinks st) 1) (rst_bytes st)) (verified_dirs p))
                    end
                end
            end
        end
    | RegularFile =>
        match sanitize_item_path_into (item_path item) with
        | Err er => (Err er, p)
        | Ok rel =>
            match plan_chunks (length (planned_files p)) (item_chunks item) 0 (chunk_targets p) with
            | (Err er, t) => (Err er, set_targets t p)
            | (Ok (off, t), _) =>
                (Ok tt, mkPlan (pl_fs p) (planned_files p ++ [mkPlannedFile rel off (mode item) (mtime item) (xattrs item)]) t (pl_stats p) (verified_dirs p))
            end
        end
    end.

Definition stream_and_plan `{ItemStream} (stream : bytes) (dest_root : Path) (include_path : string -> bool) (fs : FS) : res Plan :=
  match for_each_decoded_item (stream_item dest_root include_path) stream (mkPlan fs [] ∅ (mkRestoreStats 0 0 0 0) {[dest_root]}) with
  | (Ok _, p) => Ok p
  | (Err er, _) => Err er
  end.

(** Phase 3: the directories of files that no item has, and empty files. *)
Fixpoint create_files (dest_root : Path) (verified : gset Path) (files : list PlannedFile) (fs : FS) : res FS :=
  match files with
  | [] => Ok fs
  | pf :: files' =>
      let full_path := dest_root ++ components (rel_path pf) in
      fs ← (if bool_decide (removelast full_path ∈ verified) then Ok fs else ensure_parent_exists_within_root fs full_path dest_root);
      fs ← (if total_size pf =? 0 then x ← open_file fs full_path; Ok (<[x.1 := NFile []]> x.2) else Ok fs);
      create_files dest_root verified files' fs
  end.

(** ** Planning the reads *)

Fixpoint merge_blobs (p : PackId) (cur : ReadGroup) (rest : list PlannedBlob) : list ReadGroup :=
  match rest with
  | [] => [cur]
  | b :: rest' =>
      let blob_end := pb_pack_offset b + pb_stored_size b in
      let gap := sat_sub (pb_pack_offset b) (rg_end cur) in
      let merged_size := blob_end - rg_start cur in
      if (gap <=? MAX_COALESCE_GAP) && (merged_size <=? MAX_READ_SIZE) then
        merge_blobs p (mkReadGroup p (rg_start cur) blob_end (rg_blobs cur ++ [b])) rest'
      else cur :: merge_blobs p (mkReadGroup p (pb_pack_offset b) blob_end [b]) rest'
  end.
Definition group_pack (p : PackId) (blobs : list PlannedBlob) : list ReadGroup :=
  match sort_by (fun a b => pb_pack_offset a <=? pb_pack_offset b) blobs with
  | [] => []
  | first :: rest => merge_blobs p (mkReadGroup p (pb_pack_offset first) (pb_pack_offset first + pb_stored_size first) [first]) rest
  end.

(** The chunks of each pack. *)
Fixpoint locate_blobs (lookup : ChunkId -> option (PackId * Z * Z)) (l : list (ChunkId * ChunkTargets)) (m : gmap PackId (list PlannedBlob)) :
    res (gmap PackId (list PlannedBlob)) :=
  match l with
  | [] => Ok m
  | (id, ct) :: l' =>
      match lookup id with
      | None => Err (ChunkNotInIndex id)
      | Some (p, off, size) =>
          locate_blobs lookup l' (<[p := default [] (m !! p) ++ [mkPlannedBlob id off size (expected_size ct) (targets ct)]]> m)
      end
  end.
Definition build_read_groups (t : gmap ChunkId ChunkTargets) (lookup : ChunkId -> option (PackId * Z * Z)) : res (list ReadGroup) :=
  pack_blobs ← locate_blobs lookup (map_to_list t) ∅;
  Ok (concat ((fun kv => group_pack kv.1 kv.2) <$> map_to_list pack_blobs)).

Definition index_lookup (ix : ChunkIndex) (id : ChunkId) : option (PackId * Z * Z) :=
  en ← ix !! id; Some (pack_id en, pack_offset en, stored_size en).
(** The index holds the chunks that are needed only. *)
Definition build_read_groups_via_index (ix : ChunkIndex) (t : gmap ChunkId ChunkTargets) : res (list ReadGroup) :=
  build_read_groups t (index_lookup (filter (fun kv => is_Some (t !! kv.1)) ix)).

Definition group_leb (a b : ReadGroup) : bool :=
  match bytes_cmp (pack_bytes (rg_pack_id a)) (pack_bytes (rg_pack_id b)) with
  | Lt => true
  | Eq => rg_start a <=? rg_start b
  | Gt => false
  end.

(** Phases 1 to 3: the plan, the reads in the order they are made, and the
    destination the threads find. *)
Definition plan_restore `{ItemStream} (ix : ChunkIndex) (stream : bytes) (temp_root : Path) (include_path : string -> bool) (fs : FS) :
    res (list PlannedFile * list ReadGroup * FS * RestoreStats) :=
  p ← stream_and_plan stream temp_root include_path fs;
  match planned_files p with
  | [] => Ok ([], [], pl_fs p, pl_stats p)
  | files =>
      groups ← (if bool_decide (chunk_targets p = ∅) then Ok [] else build_read_groups_via_index ix (chunk_targets p));
      fs ← create_files temp_root (verified_dirs p) files (pl_fs p);
      Ok (files, sort_by group_leb groups, fs, pl_stats p)
  end.

(** ** Threads *)

Fixpoint lightest_from (i best : nat) (best_bytes : Z) (l : list Z) : nat :=
  match l with
  | [] => best
  | b :: l' => if b <? best_bytes then lightest_from (S i) i b l' else lightest_from (S i) best best_bytes l'
  end.
(** [min_by_key] answers the first of equals. *)
Definition lightest_bucket (bucket_bytes : list Z) : nat :=
  match bucket_bytes with [] => O | b :: l => lightest_from 1 0 b l end.

Record Buckets := mkBuckets { bk_groups : list (list ReadGroup); bk_bytes : list Z; bk_affinity : gmap PackId nat }.
Definition assign_group (cap : Z) (b : Buckets) (g : ReadGroup) : Buckets :=
  let group_bytes := rg_end g - rg_start g in
  let dest := match bk_affinity b !! rg_pack_id g with
    | Some aff => if nth aff (bk_bytes b) 0 + group_bytes <=? cap then aff else lightest_bucket (bk_bytes b)
    | None => lightest_bucket (bk_bytes b)
    end in
  mkBuckets (alter (fun l => l ++ [g]) dest (bk_groups b)) (alter (fun n => u64_add n group_bytes) dest (bk_bytes b)) (<[rg_pack_id g := dest]> (bk_affinity b)).
Definition partition_groups (groups : list ReadGroup) (num_threads : nat) : list (list ReadGroup) :=
  let total_bytes := fold_right (fun g n => u64_add (rg_end g - rg_start g) n) 0 groups in
  let cap := total_bytes / Z.of_nat num_threads * 13 / 10 in
  List.filter (fun l => match l with [] => false | _ => true end)
    (bk_groups (foldl (assign_group cap) (mkBuckets (replicate num_threads []) (replicate num_threads 0) ∅) groups)).

(** The write accumulator; [None] is no active sequence. *)
Record PendingWrite := mkPending { pw_file : option nat; pw_start : Z; pw_buf : bytes }.
Definition pw_new : PendingWrite := mkPending None 0 [].
Definition pw_reset (pw : PendingWrite) : PendingWrite := mkPending None (pw_start pw) [].

(** What a thread does: it looks whether the restore was cancelled, or writes. *)
Inductive Action := ACheck | AWrite (idx : nat) (off : Z) (buf : bytes).

Definition flush_pending (pw : PendingWrite) : list Action * PendingWrite :=
  (match pw_file pw, pw_buf pw with Some idx, (_ :: _) as buf => [AWrite idx (pw_start pw) buf] | _, _ => [] end, pw_reset pw).

Definition write_target (data : bytes) (pw : PendingWrite) (t : WriteTarget) : list Action * PendingWrite :=
  let contiguous := match pw_file pw with Some idx => Nat.eqb idx (file_idx t) && (file_offset t =? u64_add (pw_start pw) (blen (pw_buf pw))) | None => false end in
  if contiguous && (blen (pw_buf pw) + blen data <=? MAX_WRITE_BATCH) then
    let pw := mkPending (pw_file pw) (pw_start pw) (pw_buf pw ++ data) in
    if MAX_WRITE_BATCH <=? blen (pw_buf pw) then ([AWrite (file_idx t) (pw_start pw) (pw_buf pw)], pw_reset pw) else ([], pw)
  else
    let '(acts, pw) := flush_pending pw in
    if contiguous || (MAX_WRITE_BATCH <=? blen data) then (acts ++ [AWrite (file_idx t) (file_offset t) data], pw)
    else (acts, mkPending (Some (file_idx t)) (file_offset t) data).
Fixpoint write_targets (data : bytes) (pw : PendingWrite) (l : list WriteTarget) : list Action * PendingWrite :=
  match l with
  | [] => ([], pw)
  | t :: l' => let '(acts, pw) := write_target data pw t in let '(acts', pw) := write_targets data pw l' in (acts ++ acts', pw)
  end.

Section Restore.
Context `{Hhex : HexCodec} (e : CryptoEngine) `{Hcodecs : Codecs}.

Definition decode_blob (b : PlannedBlob) (raw : bytes) : res bytes :=
  match unpack_object_expect_with_context_into e raw OChunkData (chunk_bytes (pb_chunk_id b)) with
  | Err _ => Err (Other "chunk")
  | Ok decrypted =>
      match decompress_into_with_hint decrypted (Some (pb_expected_size b)) with
      | Err _ => Err (Other "chunk")
      | Ok data => if blen data =? pb_expected_size b then Ok data else Err (InvalidFormat "size mismatch after restore decode")
      end
  end.

(** The blobs of a group: what is done, and how it ends. *)
Fixpoint group_actions (start : Z) (data : bytes) (pw : PendingWrite) (blobs : list PlannedBlob) : list Action * res unit :=
  match blobs with
  | [] => ((flush_pending pw).1, Ok tt)
  | b :: blobs' =>
      let local_offset := pb_pack_offset b - start in
      let local_end := local_offset + pb_stored_size b in
      if blen data <? local_end then ([ACheck], Err (Other "blob extends beyond downloaded range"))
      else
        match decode_blob b (slice (Z.to_nat local_offset) (Z.to_nat (pb_stored_size b)) data) with
        | Err er => ([ACheck], Err er)
        | Ok plain =>
            let '(acts, pw) := write_targets plain pw (pb_targets b) in
            let '(acts', r) := group_actions start data pw blobs' in
            (ACheck :: acts ++ acts', r)
        end
  end.

(** What a range read answers. *)
Context (get_range_into : string -> Z -> Z -> res (option bytes)).

Definition process_read_group (g : ReadGroup) : list Action * res unit :=
  match get_range_into (pack_storage_key (rg_pack_id g)) (rg_start g) (rg_end g - rg_start g) with
  | Err er => ([], Err er)
  | Ok None => ([], Err (Other "pack not found"))
  | Ok (Some data) => group_actions (rg_start g) data pw_new (rg_blobs g)
  end.

(** The open files, the least recently used first. *)
Definition lru_get (idx : nat) (handles : list (nat * Path)) : option (Path * list (nat * Path)) :=
  match List.find (fun h => Nat.eqb h.1 idx) handles with
  | Some h => Some (h.2, List.filter (fun h' => negb (Nat.eqb h'.1 idx)) handles ++ [h])
  | None => None
  end.
Definition lru_insert (idx : nat) (q : Path) (handles : list (nat * Path)) : list (nat * Path) :=
  (if (MAX_OPEN_FILES_PER_GROUP <=? length handles)%nat then tail handles else handles) ++ [(idx, q)].

(** A thread between two system calls.  [opening] is the file that is still to
    get its length. *)
Record RWorker := mkRWorker {
  rw_groups : list ReadGroup;
  rw_actions : list Action;
  rw_outcome : res unit;
  rw_handles : list (nat * Path);
  opening : option Path;
}.
Inductive RThread := RRunning (w : RWorker) | RDone (r : res unit).

Record Restoring := mkRestoring {
  rs_fs : FS;
  rs_created : gset nat;
  bytes_written : Z;
  cancelled : bool;
  rs_threads : list RThread;
}.
Definition set_thread (i : nat) (t : RThread) (st : Restoring) : Restoring :=
  mkRestoring (rs_fs st) (rs_created st) (bytes_written st) (cancelled st) (<[i := t]> (rs_threads st)).
Definition fail_thread (i : nat) (er : VykarError) (st : Restoring) : Restoring :=
  mkRestoring (rs_fs st) (rs_created st) (bytes_written st) true (<[i := RDone (Err er)]> (rs_threads st)).

Context (root : Path) (files : list PlannedFile).

(** One system call of [write_buf]: open, [set_len] by the first opener, write. *)
Definition write_step (fails : bool) (i : nat) (w : RWorker) (idx : nat) (off : Z) (buf : bytes) (acts : list Action) (st : Restoring) : Restoring :=
  match files !! idx with
  | None => fail_thread i (Other "restore worker panicked") st
  | Some pf =>
      match opening w with
      | Some q =>
          if fails then fail_thread i io_error st
          else
            let fs := <[q := NFile (resized (Z.to_nat (total_size pf)) (file_data (rs_fs st) q))]> (rs_fs st) in
            mkRestoring fs (rs_created st) (bytes_written st) (cancelled st)
              (<[i := RRunning (mkRWorker (rw_groups w) (AWrite idx off buf :: acts) (rw_outcome w) (lru_insert idx q (rw_handles w)) None)]> (rs_threads st))
      | None =>
          match lru_get idx (rw_handles w) with
          | None =>
              match open_file (rs_fs st) (root ++ components (rel_path pf)) with
              | Err er => fail_thread i (Other "failed to open for writing") st
              | Ok (q, fs) =>
                  if fails then fail_thread i (Other "failed to open for writing") st
                  else
                    let first := bool_decide (idx ∉ rs_created st) in
                    mkRestoring fs ({[idx]} ∪ rs_created st) (bytes_written st) (cancelled st)
                      (<[i := RRunning (mkRWorker (rw_groups w) (AWrite idx off buf :: acts) (rw_outcome w)
                          (if first then rw_handles w else lru_insert idx q (rw_handles w)) (if first then Some q else None))]> (rs_threads st))
              end
          | Some (q, handles) =>
              if fails then fail_thread i io_error st
              else
                mkRestoring (<[q := NFile (written (Z.to_nat off) buf (file_data (rs_fs st) q))]> (rs_fs st)) (rs_created st)
                  (u64_add (bytes_written st) (blen buf)) (cancelled st)
                  (<[i := RRunning (mkRWorker (rw_groups w) acts (rw_outcome w) handles None)]> (rs_threads st))
          end
      end
  end.

(** A step of thread [i]; [fails] when its system call does. *)
Definition restore_step (i : nat) (fails : bool) (st : Restoring) : option Restoring :=
  t ← rs_threads st !! i;
  match t with
  | RDone _ => None
  | RRunning w =>
      match rw_actions w with
      | ACheck :: acts =>
          Some (if cancelled st then set_thread i (RDone (Ok tt)) st
                else set_thread i (RRunning (mkRWorker (rw_groups w) acts (rw_outcome w) (rw_handles w) (opening w))) st)
      | AWrite idx off buf :: acts => Some (write_step fails i w idx off buf acts st)
      | [] =>
          match rw_outcome w with
          | Err er => Some (fail_thread i er st)
          | Ok _ =>
              match rw_groups w with
              | [] => Some (set_thread i (RDone (Ok tt)) st)
              | g :: groups =>
                  Some (if cancelled st then set_thread i (RDone (Ok tt)) st
                        else let '(acts, r) := process_read_group g in set_thread i (RRunning (mkRWorker groups acts r [] None)) st)
              end
          end
      end
  end.
Fixpoint run_restore (sched : list (nat * bool)) (st : Restoring) : option Restoring :=
  match sched with
  | [] => Some st
  | (i, fails) :: sched' => st' ← restore_step i fails st; run_restore sched' st'
  end.

Definition restore_init (fs : FS) (groups : list ReadGroup) (restore_concurrency : nat) : Restoring :=
  mkRestoring fs ∅ 0 false
    ((fun b => RRunning (mkRWorker b [] (Ok tt) [] None)) <$> partition_groups groups (Nat.min restore_concurrency (length groups))).

Definition all_done (st : Restoring) : bool := forallb (fun t => match t with RDone _ => true | _ => false end) (rs_threads st).
(** The first error, in the order of the threads. *)
Fixpoint joined (l : list RThread) : option VykarError :=
  match l with [] => None | RDone (Err er) :: _ => Some er | _ :: l' => joined l' end.
Definition restore_result (st : Restoring) : res Z := match joined (rs_threads st) with Some er => Err er | None => Ok (bytes_written st) end.
End Restore.

(** ** Laws of selections *)

Lemma before_last_slash_Some s p : before_last_slash s = Some p -> exists r, s = (p ++ String "/" r)%string /\ before_last_slash r = None.
Proof.
  revert p. induction s as [|a s IH]; intros p; cbn [before_last_slash]; [done|]. destruct (before_last_slash s) as [p'|] eqn:Hs.
  - intros [= <-]. destruct (IH p' eq_refl) as (r & -> & Hr). by exists r.
  - destruct (Ascii.eqb_spec a "/") as [->|]; [|done]. intros [= <-]. by exists s.
Qed.
(** Cut at any slash, what remains of the first part is cut at a slash. *)
Lemma before_last_slash_app p r : exists q, before_last_slash (p ++ String "/" r)%string = Some q /\ (q = p \/ exists r', q = (p ++ String "/" r')%string).
Proof.
  induction p as [|a p (q & Hq & Hor)].
  - change ("" +:+ String "/" r) with (String "/" r). cbn [before_last_slash]. destruct (before_last_slash r) as [q|]; [exists (String "/" q); split; [done|]; right; by exists q|]. exists ""; split; [done|by left].
  - change (String a p +:+ String "/" r) with (String a (p +:+ String "/" r)). cbn [before_last_slash]. rewrite Hq. exists (String a q). split; [done|]. destruct Hor as [->|[r' ->]]; [by left|right; by exists r'].
Qed.
Lemma length_append (a b : string) : String.length (a ++ b) = (String.length a + String.length b)%nat.
Proof. induction a as [|x a IH]; [done|]. change (String x a +:+ b) with (String x (a +:+ b)). cbn [String.length]. by rewrite IH. Qed.

Lemma ancestor_selected_spec selected fuel : forall s, (String.length s <= fuel)%nat ->
  ancestor_selected fuel s selected = true <-> exists p r, s = (p ++ String "/" r)%string /\ p ∈ selected.
Proof.
  induction fuel as [|fuel IH]; intros s Hs; cbn [ancestor_selected].
  { destruct s; [|cbn in Hs; lia]. split; [done|]. intros ([|] & r & Hx & _); done. }
  destruct (before_last_slash s) as [q|] eqn:Hq.
  - destruct (before_last_slash_Some _ _ Hq) as (r0 & -> & _). rewrite length_append in Hs. cbn in Hs.
    rewrite orb_true_iff, bool_decide_eq_true, IH by lia. split.
    + intros [Hin|(p & r & -> & Hin)]; [by exists q, r0|]. exists p, (r ++ String "/" r0)%string. split; [by rewrite <- str_app_assoc|done].
    + intros (p & r & Heq & Hin). destruct (before_last_slash_app p r) as (q' & Hq' & Hor). rewrite <- Heq, Hq in Hq'. injection Hq' as <-.
      destruct Hor as [->|[r' ->]]; [by left|right; by exists p, r'].
  - split; [done|]. intros (p & r & -> & _). destruct (before_last_slash_app p r) as (q' & Hq' & _). congruence.
Qed.

(** A path is selected exactly when it, or a directory above it, is in the
    selection. *)
Lemma path_matches_selection_iff path selected : path_matches_selection path selected = true <->
  path ∈ selected \/ exists p r, path = (p ++ String "/" r)%string /\ p ∈ selected.
Proof. unfold path_matches_selection. rewrite orb_true_iff, bool_decide_eq_true. by rewrite ancestor_selected_spec. Qed.

(** ** Laws of files *)

Lemma lookup_resized n d k : resized n d !! k = if decide (k < length d)%nat then (if decide (k < n)%nat then d !! k else None)
  else if decide (k < n)%nat then Some 0 else None.
Proof.
  unfold resized. destruct (decide (k < length d)%nat) as [Hd|Hd], (decide (k < n)%nat) as [Hn|Hn].
  - rewrite lookup_app_l by (rewrite length_take; lia). by apply lookup_take_lt.
  - apply lookup_ge_None. rewrite length_app, length_take, length_replicate. lia.
  - rewrite lookup_app_r by (rewrite length_take; lia). apply lookup_replicate_2. rewrite length_take. lia.
  - apply lookup_ge_None. rewrite length_app, length_take, length_replicate. lia.
Qed.
Lemma length_resized n d : length (resized n d) = n.
Proof. unfold resized. rewrite length_app, length_take, length_replicate. lia. Qed.
Lemma length_written off buf d : length (written off buf d) = Nat.max (off + length buf) (length d).
Proof. unfold written. rewrite !length_app, length_take, length_resized, length_drop. lia. Qed.
Lemma lookup_written off buf d k :
  written off buf d !! k = if decide (off <= k < off + length buf)%nat then buf !! (k - off)%nat
    else if decide (k < length d)%nat then d !! k else if decide (k < off)%nat then Some 0 else None.
Proof.
  unfold written. destruct (decide (k < off)%nat) as [Ho|Ho].
  { rewrite lookup_app_l by (rewrite length_take, length_resized; lia). rewrite lookup_take_lt by lia. rewrite lookup_resized.
    destruct (decide (off <= k < _)%nat); [lia|]. destruct (decide (k < length d)%nat); by rewrite decide_True by lia. }
  rewrite lookup_app_r by (rewrite length_take, length_resized; lia). rewrite length_take, length_resized.
  replace (k - _)%nat with (k - off)%nat by lia. destruct (decide (off <= k < off + length buf)%nat) as [Hin|Hin].
  { by rewrite lookup_app_l by lia. }
  rewrite lookup_app_r by lia. rewrite lookup_drop. replace (off + length buf + (k - off - length buf))%nat with k by lia.
  destruct (decide (k < length d)%nat); [done|]. apply lookup_ge_None. lia.
Qed.

(** A file agrees with its contents but for the positions that are pending. *)
Definition agrees (d content : bytes) (pending : nat -> Prop) : Prop :=
  (length d <= length content)%nat /\ forall k x, content !! k = Some x -> d !! k = Some x \/ pending k.

Lemma agrees_written off buf d content (pending pending' : nat -> Prop) :
  (off + length buf <= length content)%nat -> slice off (length buf) content = buf -> agrees d content pending ->
  (forall k, pending k -> (off <= k < off + length buf)%nat \/ pending' k) -> agrees (written off buf d) content pending'.
Proof.
  intros Hlen Hbuf [Hd Ha] Hp. split; [rewrite length_written; lia|]. intros k x Hk. rewrite lookup_written.
  destruct (decide (off <= k < off + length buf)%nat) as [Hin|Hin].
  { left. rewrite <- Hbuf. unfold slice. rewrite lookup_take_lt by lia. rewrite lookup_drop. by replace (off + (k - off))%nat with k by lia. }
  destruct (Ha k x Hk) as [Hx|[?|?]%Hp]; [|lia|by right]. left. pose proof (lookup_lt_Some _ _ _ Hx).
  by rewrite decide_True by lia.
Qed.
Lemma agrees_resized d content pending : agrees d content pending -> agrees (resized (length content) d) content pending.
Proof.
  intros [Hd Ha]. split; [by rewrite length_resized|]. intros k x Hk. destruct (Ha k x Hk) as [Hx|Hx]; [left|by right].
  pose proof (lookup_lt_Some _ _ _ Hx). pose proof (lookup_lt_Some _ _ _ Hk). rewrite lookup_resized. by rewrite !decide_True by lia.
Qed.
Lemma agrees_mono d content (pending pending' : nat -> Prop) :
  (forall k, pending k -> pending' k) -> agrees d content pending -> agrees d content pending'.
Proof. intros Hp [Hd Ha]. split; [done|]. intros k x Hk. destruct (Ha k x Hk); [by left|right; auto]. Qed.
Lemma agrees_done d content : agrees d content (fun _ => False) -> d = content.
Proof.
  intros [Hd Ha]. assert (Hk : forall k x, content !! k = Some x -> d !! k = Some x) by (intros k x Hk; by destruct (Ha k x Hk)).
  apply list_eq. intros k. destruct (content !! k) as [x|] eqn:E; [by apply Hk|]. apply lookup_ge_None in E. apply lookup_ge_None. lia.
Qed.

(** No path is led elsewhere when a file is made or written. *)
Definition file_like (fs : FS) (q : Path) : Prop := match fs !! q with None | Some (NFile _) => True | _ => False end.

Lemma resolve_insert_file fs q d fuel : file_like fs q -> forall cur todo, resolve fuel (<[q := NFile d]> fs) cur todo = resolve fuel fs cur todo.
Proof.
  intros Hq. induction fuel as [|fuel IH]; intros cur todo; [done|]. cbn [resolve]. destruct todo as [|name rest]; [done|].
  destruct (String.eqb name "."); [apply IH|]. destruct (String.eqb name ".."); [apply IH|]. cbv zeta. unfold file_like in Hq.
  destruct (decide (q = cur ++ [name])) as [Hq'|Hq'].
  - rewrite <- Hq', lookup_insert_eq. destruct (fs !! q) as [[| |]|]; done.
  - rewrite lookup_insert_ne by done. clear Hq. destruct (fs !! (cur ++ [name])) as [[| |target]|]; [apply IH|done| |done].
    destruct (components target) as [|r names]; [done|]. destruct (String.eqb r "/"); apply IH.
Qed.
Lemma file_like_insert fs q d q' : file_like fs q' -> file_like (<[q := NFile d]> fs) q'.
Proof. unfold file_like. destruct (decide (q = q')) as [->|Hn]; [by rewrite lookup_insert_eq|by rewrite lookup_insert_ne by done]. Qed.
Lemma file_data_insert fs q d : file_data (<[q := NFile d]> fs) q = d.
Proof. unfold file_data. by rewrite lookup_insert_eq. Qed.
Lemma file_data_insert_ne fs q d q' : q <> q' -> file_data (<[q := NFile d]> fs) q' = file_data fs q'.
Proof. intros. unfold file_data. by rewrite lookup_insert_ne by done. Qed.

(** ** What the threads write *)

Section Writes.
Context (files : list PlannedFile) (content : nat -> bytes).
Context (Hfit : forall i, blen (content i) < u64_modulus).

(** A write puts down a piece of the contents. *)
Definition piece_ok (i : nat) (off : Z) (buf : bytes) : Prop :=
  is_Some (files !! i) /\ 0 <= off /\ (Z.to_nat off + length buf <= length (content i))%nat /\
  slice (Z.to_nat off) (length buf) (content i) = buf.
Definition act_ok (a : Action) : Prop := match a with ACheck => True | AWrite i off buf => piece_ok i off buf end.
Definition piece_covers (off : Z) (len k : nat) : Prop := (Z.to_nat off <= k < Z.to_nat off + len)%nat.
Definition covers (acts : list Action) (i k : nat) : Prop :=
  exists off buf, AWrite i off buf ∈ acts /\ piece_covers off (length buf) k.
Definition act_len (a : Action) : Z := match a with ACheck => 0 | AWrite _ _ buf => blen buf end.

Definition pw_ok (pw : PendingWrite) : Prop := match pw_file pw with Some i => piece_ok i (pw_start pw) (pw_buf pw) | None => pw_buf pw = [] end.
Definition pw_covers (pw : PendingWrite) (i k : nat) : Prop := pw_file pw = Some i /\ piece_covers (pw_start pw) (length (pw_buf pw)) k.

(** What has been asked for is written or pending. *)
Record wrote (asked : nat -> nat -> Prop) (len : Z) (acts : list Action) (pw : PendingWrite) : Prop := {
  wrote_ok : Forall act_ok acts;
  wrote_pw : pw_ok pw;
  wrote_covers : forall i k, asked i k -> covers acts i k \/ pw_covers pw i k;
  wrote_len : sum_Z act_len acts + blen (pw_buf pw) = len;
}.

Lemma covers_app acts acts' i k : covers (acts ++ acts') i k <-> covers acts i k \/ covers acts' i k.
Proof. unfold covers. setoid_rewrite elem_of_app. naive_solver. Qed.

Lemma flush_wrote pw : pw_ok pw -> wrote (pw_covers pw) (blen (pw_buf pw)) (flush_pending pw).1 (flush_pending pw).2 /\ (flush_pending pw).2 = pw_reset pw.
Proof.
  intros Hpw. split; [|done]. unfold flush_pending, pw_ok in *. cbn [fst snd]. destruct (pw_file pw) as [j|] eqn:Hf.
  - destruct (pw_buf pw) as [|x buf] eqn:Hb.
    + split; [done|done| |done]. intros i k [_ Hc]. rewrite Hb in Hc. unfold piece_covers in Hc. cbn [length] in Hc. lia.
    + split; [by apply Forall_singleton|done| |cbn; unfold blen; cbn; lia]. intros i k [Hi Hc]. rewrite Hf in Hi. injection Hi as <-. left. exists (pw_start pw), (pw_buf pw).
      rewrite Hb in *. split; [apply list_elem_of_here|done].
  - rewrite Hpw. split; [done|done| |done]. intros i k [Hi _]. congruence.
Qed.

Lemma write_target_wrote data pw t :
  pw_ok pw -> piece_ok (file_idx t) (file_offset t) data ->
  wrote (fun i k => pw_covers pw i k \/ (i = file_idx t /\ piece_covers (file_offset t) (length data) k)) (blen (pw_buf pw) + blen data)
    (write_target data pw t).1 (write_target data pw t).2.
Proof using Hfit.
  intros Hpw Ht. unfold write_target.
  set (contiguous := match pw_file pw with Some idx => _ | None => _ end). cbv zeta.
  destruct (contiguous && _) eqn:Hcan.
  - apply andb_true_iff in Hcan as [Hc _]. unfold contiguous in Hc. destruct (pw_file pw) as [j|] eqn:Hf; [|done].
    apply andb_true_iff in Hc as [->%Nat.eqb_eq Ho%Z.eqb_eq]. unfold pw_ok in Hpw. rewrite Hf in Hpw.
    destruct Hpw as (Hsome & H0 & Hlen & Hs). destruct Ht as (_ & Ht0 & Htlen & Hts). pose proof (Hfit (file_idx t)) as Hft.
    unfold blen in *. unfold u64_add in Ho. rewrite u64_wrap_small in Ho by (unfold u64; lia).
    assert (Hpiece : piece_ok (file_idx t) (pw_start pw) (pw_buf pw ++ data)).
    { split; [done|]. split; [done|]. rewrite length_app. split; [lia|]. rewrite <- slice_join, Hs. f_equal. rewrite <- Hts at 2. f_equal. lia. }
    cbn [pw_buf pw_start pw_file]. destruct (_ <=? _); cbn [fst snd].
    + split; [by apply Forall_singleton|done| |cbn [sum_Z act_len pw_reset pw_buf]; unfold blen; rewrite length_app; cbn [length]; lia].
      intros i k Hk. left. exists (pw_start pw), (pw_buf pw ++ data). unfold piece_covers in *. rewrite length_app.
      destruct Hk as [[Hi Hk]|[-> Hk]]; [rewrite Hf in Hi; injection Hi as <-|]; unfold piece_covers in Hk; (split; [apply list_elem_of_here|lia]).
    + split; [done|unfold pw_ok; by cbn [pw_file pw_start pw_buf]| |cbn [sum_Z pw_buf]; unfold blen; rewrite length_app; lia].
      intros i k Hk. right. unfold pw_covers, piece_covers in *. cbn [pw_file pw_start pw_buf]. rewrite length_app.
      destruct Hk as [[Hi Hk]|[-> Hk]]; [split; [congruence|]|split; [done|]]; lia.
  - destruct (flush_wrote pw Hpw) as [[H1 H2 H3 H4] H5]. destruct (flush_pending pw) as [acts pw1]. cbn [fst snd] in *. subst pw1.
    cbn [pw_reset pw_buf] in H4. destruct (_ || _); cbn [fst snd].
    + split; [apply Forall_app; split; [done|by apply Forall_singleton]|done| |rewrite sum_Z_app; cbn [sum_Z act_len pw_buf pw_reset]; lia].
      intros i k [Hk|[-> Hk]]; left; apply covers_app.
      * left. destruct (H3 i k Hk) as [?|[? _]]; done.
      * right. exists (file_offset t), data. split; [apply list_elem_of_here|done].
    + split; [done|done| |cbn [pw_buf]; change (blen []) with 0 in H4; lia].
      intros i k [Hk|[-> Hk]]; [left; by destruct (H3 i k Hk) as [?|[? _]]|by right].
Qed.

Definition targets_cover (l : list WriteTarget) (len i k : nat) : Prop :=
  exists t, t ∈ l /\ file_idx t = i /\ piece_covers (file_offset t) len k.

Lemma write_targets_wrote data l : forall pw, pw_ok pw -> Forall (fun t => piece_ok (file_idx t) (file_offset t) data) l ->
  wrote (fun i k => pw_covers pw i k \/ targets_cover l (length data) i k) (blen (pw_buf pw) + Z.of_nat (length l) * blen data)
    (write_targets data pw l).1 (write_targets data pw l).2.
Proof using Hfit.
  induction l as [|t l IH]; intros pw Hpw Hl; cbn [write_targets].
  { cbn [fst snd]. split; [done|done| |cbn [sum_Z length]; lia]. intros i k [?|(t & Ht & _)]; [by right|by apply elem_of_nil in Ht]. }
  apply Forall_cons in Hl as [Ht Hl]. destruct (write_target_wrote data pw t Hpw Ht) as [H1 H2 H3 H4].
  destruct (write_target data pw t) as [acts pw1]. cbn [fst snd] in *. destruct (IH pw1 H2 Hl) as [G1 G2 G3 G4].
  destruct (write_targets data pw1 l) as [acts' pw2]. cbn [fst snd] in *.
  split; [by apply Forall_app|done| |rewrite sum_Z_app; cbn [length]; lia].
  intros i k Hk. rewrite covers_app. assert (Hor : pw_covers pw i k \/ (i = file_idx t /\ piece_covers (file_offset t) (length data) k) \/ targets_cover l (length data) i k).
  { destruct Hk as [?|(t' & [->|Ht']%elem_of_cons & <- & Hc)]; [by left|by right; left|]. right; right. by exists t'. }
  clear Hk. destruct Hor as [Hk|[Hk|Hk]].
  - destruct (H3 i k (or_introl Hk)) as [?|Hp]; [by left; left|]. destruct (G3 i k (or_introl Hp)); [by left; right|by right].
  - destruct (H3 i k (or_intror Hk)) as [?|Hp]; [by left; left|]. destruct (G3 i k (or_introl Hp)); [by left; right|by right].
  - destruct (G3 i k (or_intror Hk)); [by left; right|by right].
Qed.
End Writes.

(** ** The threads *)

Section Threads.
Context `{Hhex : HexCodec} (e : CryptoEngine) `{Hcodecs : Codecs}.
Context (get_range_into : string -> Z -> Z -> res (option bytes)) (root : Path) (files : list PlannedFile).
Context (plain : ChunkId -> bytes) (content : nat -> bytes) (place : nat -> Path).
Context (Hfit : forall i, blen (content i) < u64_modulus).

(** A group that can be read: the answer holds each of its blobs. *)
Record group_good (g : ReadGroup) : Prop := {
  gg_raw : exists raw, get_range_into (pack_storage_key (rg_pack_id g)) (rg_start g) (rg_end g - rg_start g) = Ok (Some raw) /\
    forall b, b ∈ rg_blobs g -> pb_pack_offset b - rg_start g + pb_stored_size b <= blen raw /\
      decode_blob e b (slice (Z.to_nat (pb_pack_offset b - rg_start g)) (Z.to_nat (pb_stored_size b)) raw) = Ok (plain (pb_chunk_id b));
  gg_targets : forall b t, b ∈ rg_blobs g -> t ∈ pb_targets b -> piece_ok files content (file_idx t) (file_offset t) (plain (pb_chunk_id b));
}.
Definition blobs_cover (l : list PlannedBlob) (i k : nat) : Prop :=
  exists b, b ∈ l /\ targets_cover (pb_targets b) (length (plain (pb_chunk_id b))) i k.
Definition blob_len (b : PlannedBlob) : Z := Z.of_nat (length (pb_targets b)) * blen (plain (pb_chunk_id b)).
Definition group_len (g : ReadGroup) : Z := sum_Z blob_len (rg_blobs g).

Lemma group_actions_spec start raw blobs : forall pw, pw_ok files content pw ->
  (forall b, b ∈ blobs -> pb_pack_offset b - start + pb_stored_size b <= blen raw /\
    decode_blob e b (slice (Z.to_nat (pb_pack_offset b - start)) (Z.to_nat (pb_stored_size b)) raw) = Ok (plain (pb_chunk_id b))) ->
  (forall b t, b ∈ blobs -> t ∈ pb_targets b -> piece_ok files content (file_idx t) (file_offset t) (plain (pb_chunk_id b))) ->
  exists acts, group_actions e start raw pw blobs = (acts, Ok tt) /\ Forall (act_ok files content) acts /\
    (forall i k, pw_covers pw i k \/ blobs_cover blobs i k -> covers acts i k) /\
    sum_Z act_len acts = blen (pw_buf pw) + sum_Z blob_len blobs.
Proof using Hfit.
  induction blobs as [|b blobs IH]; intros pw Hpw Hraw Ht; cbn [group_actions].
  { destruct (flush_wrote files content pw Hpw) as [[H1 H2 H3 H4] H5]. eexists. split; [done|]. split; [done|]. rewrite H5 in *. split.
    - intros i k [Hk|(b & Hb & _)]; [|by apply elem_of_nil in Hb]. destruct (H3 i k Hk) as [?|[? _]]; done.
    - cbn [pw_reset pw_buf sum_Z] in *. change (blen []) with 0 in H4. lia. }
  destruct (Hraw b (list_elem_of_here _ _)) as [Hend Hdec]. cbv zeta. destruct (Z.ltb_spec (blen raw) (pb_pack_offset b - start + pb_stored_size b)); [lia|].
  rewrite Hdec. destruct (write_targets_wrote files content Hfit (plain (pb_chunk_id b)) (pb_targets b) pw Hpw) as [H1 H2 H3 H4].
  { apply Forall_forall. intros t. apply Ht, list_elem_of_here. }
  destruct (write_targets _ _ _) as [acts pw1]. cbn [fst snd] in *.
  destruct (IH pw1 H2) as (acts' & -> & G1 & G2 & G3); [intros; apply Hraw; by right|intros b' t Hb'; apply Ht; by right|].
  eexists. split; [done|]. split; [by constructor; [|apply Forall_app]|]. split.
  - intros i k Hk. assert (Hc : covers acts i k \/ covers acts' i k).
    { destruct Hk as [Hk|(b' & [->|Hb']%elem_of_cons & Hk)].
      - destruct (H3 i k (or_introl Hk)) as [?|?]; [by left|right; apply G2; by left].
      - destruct (H3 i k (or_intror Hk)) as [?|?]; [by left|right; apply G2; by left].
      - right. apply G2. right. by exists b'. }
    apply covers_app in Hc as (off & buf & Hin & Hc). exists off, buf. split; [by right|done].
  - cbn [sum_Z act_len]. rewrite sum_Z_app. unfold blob_len in *. lia.
Qed.

Lemma process_read_group_spec g : group_good g ->
  exists acts, process_read_group e get_range_into g = (acts, Ok tt) /\ Forall (act_ok files content) acts /\
    (forall i k, blobs_cover (rg_blobs g) i k -> covers acts i k) /\ sum_Z act_len acts = group_len g.
Proof using Hfit.
  intros [(raw & Hget & Hraw) Ht]. unfold process_read_group. rewrite Hget.
  destruct (group_actions_spec (rg_start g) raw (rg_blobs g) pw_new) as (acts & -> & H1 & H2 & H3); [done|done|done|].
  exists acts. split; [done|]. split; [done|]. split; [auto|]. rewrite H3. unfold group_len. change (blen (pw_buf pw_new)) with 0. lia.
Qed.

(** *** The invariant *)

Definition worker_covers (w : RWorker) (i k : nat) : Prop := covers (rw_actions w) i k \/ exists g, g ∈ rw_groups w /\ blobs_cover (rg_blobs g) i k.
Definition thread_covers (t : RThread) (i k : nat) : Prop := match t with RRunning w => worker_covers w i k | RDone _ => False end.
Definition thread_len (t : RThread) : Z := match t with RRunning w => sum_Z act_len (rw_actions w) + sum_Z group_len (rw_groups w) | RDone _ => 0 end.

Record worker_ok (w : RWorker) : Prop := {
  wk_outcome : rw_outcome w = Ok tt;
  wk_actions : Forall (act_ok files content) (rw_actions w);
  wk_groups : Forall group_good (rw_groups w);
  wk_handles : forall i q, (i, q) ∈ rw_handles w -> q = place i;
  wk_opening : forall q, opening w = Some q -> exists i off buf acts, rw_actions w = AWrite i off buf :: acts /\ q = place i;
}.
Definition thread_ok (t : RThread) : Prop := match t with RRunning w => worker_ok w | RDone r => r = Ok tt end.

(** Every planned file can be opened, each at a place of its own. *)
Record openable (fs : FS) : Prop := {
  op_resolve : forall i pf, files !! i = Some pf -> resolve FS_FUEL fs [] (root ++ components (rel_path pf)) = Some (place i);
  op_place : forall i, is_Some (files !! i) -> place i <> [] /\ file_like fs (place i);
}.
Context (Hinj : forall i j, is_Some (files !! i) -> is_Some (files !! j) -> place i = place j -> i = j).
Context (Hsize : forall i pf, files !! i = Some pf -> total_size pf = blen (content i)).
Context (fs0 : FS) (total : Z) (Htotal : total < u64_modulus).

Record restoring_ok (st : Restoring) : Prop := {
  ro_cancelled : cancelled st = false;
  ro_threads : Forall thread_ok (rs_threads st);
  ro_open : openable (rs_fs st);
  ro_agrees : forall i, is_Some (files !! i) ->
    agrees (file_data (rs_fs st) (place i)) (content i) (fun k => exists t, t ∈ rs_threads st /\ thread_covers t i k);
  ro_kept : forall q, is_Some (fs0 !! q) -> is_Some (rs_fs st !! q);
  ro_others : forall q, (forall i, is_Some (files !! i) -> q <> place i) -> rs_fs st !! q = fs0 !! q;
  ro_bytes : bytes_written st + sum_Z thread_len (rs_threads st) = total;
  ro_written : 0 <= bytes_written st;
}.

Lemma openable_insert fs i d : is_Some (files !! i) -> openable fs -> openable (<[place i := NFile d]> fs).
Proof.
  intros Hi [Hr Hp]. destruct (Hp i Hi) as [_ Hl]. split.
  - intros j pf Hj. rewrite resolve_insert_file by done. by apply Hr.
  - intros j Hj. destruct (Hp j Hj). split; [done|]. by apply file_like_insert.
Qed.

Lemma sum_Z_insert {A} (f : A -> Z) l i x y : l !! i = Some x -> sum_Z f (<[i := y]> l) = sum_Z f l - f x + f y.
Proof.
  intros Hi. rewrite <- (take_drop_middle l i x Hi) at 2. rewrite insert_take_drop by (by eapply lookup_lt_Some).
  rewrite !sum_Z_app. cbn [sum_Z]. lia.
Qed.
Lemma sum_Z_nonneg_act acts : 0 <= sum_Z act_len acts.
Proof. apply sum_Z_nonneg. intros [|i off buf] _; cbn; [lia|apply blen_nonneg]. Qed.
Lemma thread_len_nonneg t : 0 <= thread_len t.
Proof.
  destruct t as [w|]; cbn; [|lia]. pose proof (sum_Z_nonneg_act (rw_actions w)). pose proof (sum_Z_nonneg group_len (rw_groups w)) as Hg.
  assert (forall x, x ∈ rw_groups w -> 0 <= group_len x); [|specialize (Hg H0); lia].
  intros g _. apply sum_Z_nonneg. intros b _. unfold blob_len. pose proof (blen_nonneg (plain (pb_chunk_id b))). nia.
Qed.

(** Thread [i] goes from [t] to [t']. *)
Definition others_cover (st : Restoring) (i j k : nat) : Prop := exists i' u, i' <> i /\ rs_threads st !! i' = Some u /\ thread_covers u j k.

Lemma agrees_split st i t j : restoring_ok st -> rs_threads st !! i = Some t -> is_Some (files !! j) ->
  agrees (file_data (rs_fs st) (place j)) (content j) (fun k => thread_covers t j k \/ others_cover st i j k).
Proof.
  intros Hok Hi Hj. eapply agrees_mono; [|by apply ro_agrees]. intros k (u & Hu & Hk).
  apply list_elem_of_lookup in Hu as [i' Hi']. destruct (decide (i' = i)) as [->|Hn]; [left; congruence|right; by exists i', u].
Qed.

Lemma restoring_update st i t t' fs created bw :
  restoring_ok st -> rs_threads st !! i = Some t -> thread_ok t' -> openable fs ->
  (forall j, is_Some (files !! j) -> agrees (file_data fs (place j)) (content j) (fun k => thread_covers t' j k \/ others_cover st i j k)) ->
  (forall q, is_Some (rs_fs st !! q) -> is_Some (fs !! q)) ->
  (forall q, (forall j, is_Some (files !! j) -> q <> place j) -> fs !! q = rs_fs st !! q) ->
  bw + thread_len t' = bytes_written st + thread_len t -> 0 <= bw ->
  restoring_ok (mkRestoring fs created bw (cancelled st) (<[i := t']> (rs_threads st))).
Proof.
  intros Hok Hi Ht' Hopen Hag Hkept Hothers Hbw H0. pose proof (lookup_lt_Some _ _ _ Hi) as Hlt.
  split; cbn [cancelled rs_threads rs_fs bytes_written].
  - by apply ro_cancelled.
  - apply Forall_insert; [by apply ro_threads|done].
  - done.
  - intros j Hj. eapply agrees_mono; [|by apply Hag]. intros k [Hk|(i' & u & Hn & Hu & Hk)].
    + exists t'. split; [|done]. by eapply list_elem_of_lookup_2, list_lookup_insert_eq.
    + exists u. split; [|done]. eapply list_elem_of_lookup_2. rewrite list_lookup_insert_ne by done. exact Hu.
  - intros q Hq. by apply Hkept, (ro_kept _ Hok).
  - intros q Hq. rewrite Hothers by done. by apply (ro_others _ Hok).
  - rewrite (sum_Z_insert _ _ _ _ _ Hi). pose proof (ro_bytes _ Hok). lia.
  - done.
Qed.

(** A step that leaves the files alone. *)
Lemma restoring_quiet st i t t' created :
  restoring_ok st -> rs_threads st !! i = Some t -> thread_ok t' -> (forall j k, thread_covers t j k -> thread_covers t' j k) ->
  thread_len t' = thread_len t -> restoring_ok (mkRestoring (rs_fs st) created (bytes_written st) (cancelled st) (<[i := t']> (rs_threads st))).
Proof.
  intros Hok Hi Ht' Hc Hl. eapply restoring_update; [done|done|done|by apply ro_open| |done|done|lia|by apply ro_written].
  intros j Hj. eapply agrees_mono; [|by apply (agrees_split st i t)]. intros k [Hk|Hk]; [left; by apply Hc|by right].
Qed.

Lemma lru_get_place i handles q handles' : (forall i q, (i, q) ∈ handles -> q = place i) -> lru_get i handles = Some (q, handles') ->
  q = place i /\ forall i q, (i, q) ∈ handles' -> q = place i.
Proof.
  intros Hh. unfold lru_get. destruct (List.find _ handles) as [[i' q']|] eqn:Hf; [|done]. intros [= <- <-].
  apply find_some in Hf as [Hin%list_elem_of_In Heq%Nat.eqb_eq]. cbn [fst snd] in *. subst i'. split; [by apply Hh|].
  intros j r [Hj|Hj%list_elem_of_singleton]%elem_of_app; [|injection Hj as -> ->; by apply Hh].
  apply list_elem_of_In, filter_In in Hj as [Hj%list_elem_of_In _]. by apply Hh.
Qed.
Lemma lru_insert_place i handles : (forall i q, (i, q) ∈ handles -> q = place i) -> forall j q, (j, q) ∈ lru_insert i (place i) handles -> q = place j.
Proof.
  intros Hh j q [Hj|Hj%list_elem_of_singleton]%elem_of_app; [|by injection Hj as -> ->].
  apply Hh. destruct (_ <=? _)%nat; [|done]. destruct handles; [done|by right].
Qed.

Lemma covers_cons_ne i off buf acts j k : covers (AWrite i off buf :: acts) j k -> j <> i -> covers acts j k.
Proof. intros (o & b & [[= -> -> ->]|Hin]%elem_of_cons & Hc) Hn; [done|by exists o, b]. Qed.
Lemma covers_cons_eq i off buf acts k : covers (AWrite i off buf :: acts) i k -> piece_covers off (length buf) k \/ covers acts i k.
Proof. intros (o & b & [[= -> ->]|Hin]%elem_of_cons & Hc); [by left|right; by exists o, b]. Qed.
Lemma covers_check acts j k : covers (ACheck :: acts) j k -> covers acts j k.
Proof. intros (o & b & [?|Hin]%elem_of_cons & Hc); [done|by exists o, b]. Qed.

(** A change of the planned file [i]: its data goes to [d]. *)
Lemma restoring_file st n t t' i d created bw :
  restoring_ok st -> rs_threads st !! n = Some t -> thread_ok t' -> is_Some (files !! i) ->
  agrees d (content i) (fun k => thread_covers t' i k \/ others_cover st n i k) ->
  (forall j k, j <> i -> thread_covers t j k -> thread_covers t' j k) ->
  bw + thread_len t' = bytes_written st + thread_len t -> 0 <= bw ->
  restoring_ok (mkRestoring (<[place i := NFile d]> (rs_fs st)) created bw (cancelled st) (<[n := t']> (rs_threads st))).
Proof using Hinj.
  intros Hok Hn Ht' Hi Hd Hc Hl Hb. eapply restoring_update; [done|done|done|by apply openable_insert, ro_open| | | |done|done].
  - intros j Hj. destruct (decide (j = i)) as [->|Hji]; [by rewrite file_data_insert|].
    rewrite file_data_insert_ne by (intros Heq; by apply Hji, Hinj). eapply agrees_mono; [|by apply (agrees_split st n t)].
    intros k [Hk|Hk]; [left; by apply Hc|by right].
  - intros q Hq. destruct (decide (place i = q)) as [<-|Hq']; [by rewrite lookup_insert_eq|by rewrite lookup_insert_ne].
  - intros q Hq. rewrite lookup_insert_ne by (intros <-; by apply (Hq i)). done.
Qed.

Lemma write_step_ok st n w i off buf acts :
  restoring_ok st -> rs_threads st !! n = Some (RRunning w) -> rw_actions w = AWrite i off buf :: acts ->
  restoring_ok (write_step root files false n w i off buf acts st).
Proof using Hfit Hinj Hsize Htotal.
  intros Hok Hn Ha. pose proof (ro_threads _ Hok) as Hts. rewrite Forall_forall in Hts.
  destruct (Hts _ (list_elem_of_lookup_2 _ _ _ Hn)) as [W1 W2 W3 W4 W5]. rewrite Ha in W2. apply Forall_cons in W2 as [Hp W2].
  pose proof Hp as (Hi & H0 & Hle & Hsl). destruct Hi as [pf Hi]. unfold write_step. rewrite Hi.
  pose proof (mk_is_Some _ _ Hi) as His. pose proof (ro_open _ Hok) as Hopen. destruct (op_place _ Hopen i His) as [Hne Hfl].
  pose proof (agrees_split st n _ i Hok Hn His) as Hag.
  destruct (opening w) as [q|] eqn:Hop.
  - destruct (W5 q eq_refl) as (i' & off' & buf' & acts' & Ha' & ->). rewrite Ha in Ha'. injection Ha' as <- <- <- <-.
    eapply (restoring_file st n (RRunning w)); [done|done| |done| | | |by apply ro_written].
    + split; cbn [rw_outcome rw_actions rw_groups rw_handles opening]; [done|by apply Forall_cons|done| |done]. by apply lru_insert_place.
    + rewrite (Hsize i pf Hi). unfold blen. rewrite Nat2Z.id. apply agrees_resized. eapply agrees_mono; [|exact Hag].
      intros k [Hk|Hk]; [left|by right]. unfold thread_covers, worker_covers in *. cbn [rw_actions rw_groups]. by rewrite <- Ha.
    + intros j k _ Hk. unfold thread_covers, worker_covers in *. cbn [rw_actions rw_groups]. by rewrite <- Ha.
    + unfold thread_len. cbn [rw_actions rw_groups]. by rewrite <- Ha.
  - destruct (lru_get i (rw_handles w)) as [[q handles]|] eqn:Hlru.
    + destruct (lru_get_place _ _ _ _ W4 Hlru) as [-> Hh]. pose proof (ro_written _ Hok) as Hw0. pose proof (ro_bytes _ Hok) as Hby.
      assert (Hb : blen buf <= sum_Z thread_len (rs_threads st)).
      { rewrite <- (take_drop_middle _ _ _ Hn), sum_Z_app. cbn [sum_Z]. unfold thread_len at 2. rewrite Ha. cbn [sum_Z act_len].
        pose proof (sum_Z_nonneg thread_len (take n (rs_threads st)) (fun x _ => thread_len_nonneg x)).
        pose proof (sum_Z_nonneg thread_len (drop (S n) (rs_threads st)) (fun x _ => thread_len_nonneg x)).
        pose proof (thread_len_nonneg (RRunning (mkRWorker (rw_groups w) acts (Ok tt) [] None))) as Hx. cbn [thread_len rw_actions rw_groups] in Hx. lia. }
      pose proof (blen_nonneg buf). unfold u64_add. rewrite u64_wrap_small by (unfold u64; lia).
      eapply (restoring_file st n (RRunning w)); [done|done| |done| | | |lia].
      * split; cbn [rw_outcome rw_actions rw_groups rw_handles opening]; done.
      * eapply agrees_written; [done|done|exact Hag|]. intros k [Hk|Hk]; [|by right; right]. unfold thread_covers, worker_covers in *.
        cbn [rw_actions rw_groups]. rewrite Ha in Hk. destruct Hk as [Hk|Hk]; [|by right; left; right].
        destruct (covers_cons_eq _ _ _ _ _ Hk); [by left|right; left; by left].
      * intros j k Hj Hk. unfold thread_covers, worker_covers in *. cbn [rw_actions rw_groups]. rewrite Ha in Hk.
        destruct Hk as [Hk|Hk]; [left; by eapply covers_cons_ne|by right].
      * unfold thread_len. cbn [rw_actions rw_groups]. rewrite Ha. cbn [sum_Z act_len]. lia.
    + unfold open_file. rewrite (op_resolve _ Hopen i pf Hi). set (first := bool_decide _). cbv zeta.
      assert (Hw' : thread_ok (RRunning (mkRWorker (rw_groups w) (AWrite i off buf :: acts) (rw_outcome w)
        (if first then rw_handles w else lru_insert i (place i) (rw_handles w)) (if first then Some (place i) else None)))).
      { split; cbn [rw_outcome rw_actions rw_groups rw_handles opening]; [done|by apply Forall_cons|done| |].
        - destruct first; [done|by apply lru_insert_place].
        - destruct first; [|done]. intros q [= <-]. by exists i, off, buf, acts. }
      assert (Hcov : forall j k, thread_covers (RRunning w) j k -> worker_covers (mkRWorker (rw_groups w) (AWrite i off buf :: acts) (rw_outcome w)
        (if first then rw_handles w else lru_insert i (place i) (rw_handles w)) (if first then Some (place i) else None)) j k).
      { intros j k. unfold thread_covers, worker_covers. cbn [rw_actions rw_groups]. by rewrite Ha. }
      assert (Hlen : thread_len (RRunning w) = sum_Z act_len (AWrite i off buf :: acts) + sum_Z group_len (rw_groups w)) by (unfold thread_len; by rewrite Ha).
      unfold file_like in Hfl. destruct (rs_fs st !! place i) as [[|d|]|] eqn:Hq; [done| |done|].
      * by eapply (restoring_quiet st n (RRunning w)).
      * destruct (place i) as [|c q'] eqn:Hpl; [done|]. rewrite <- Hpl in *.
        eapply (restoring_file st n (RRunning w)); [done|done|done|done| |intros j k _; apply Hcov|by rewrite Hlen|by apply ro_written].
        replace [] with (file_data (rs_fs st) (place i)) by (unfold file_data; by rewrite Hq).
        eapply agrees_mono; [|exact Hag]. intros k [Hk|Hk]; [left; by apply Hcov|by right].
Qed.

Lemma restore_step_ok st n st' : restoring_ok st -> restore_step e get_range_into root files n false st = Some st' -> restoring_ok st'.
Proof using Hfit Hinj Hsize Htotal.
  intros Hok. unfold restore_step. destruct (rs_threads st !! n) as [t|] eqn:Hn; [|done]. cbn [mbind option_bind].
  destruct t as [w|r]; [|done]. destruct (rw_actions w) as [|[|i off buf] acts] eqn:Ha.
  - pose proof (ro_threads _ Hok) as Hts. rewrite Forall_forall in Hts. destruct (Hts _ (list_elem_of_lookup_2 _ _ _ Hn)) as [W1 W2 W3 W4 W5].
    rewrite W1, (ro_cancelled _ Hok). destruct (rw_groups w) as [|g groups] eqn:Hg.
    + intros [= <-]. apply (restoring_quiet st n (RRunning w)); [done|done|done| |].
      * intros j k [Hk|(g & Hin & _)]; [rewrite Ha in Hk; by destruct Hk as (? & ? & ?%elem_of_nil & _)|rewrite Hg in Hin; by apply elem_of_nil in Hin].
      * cbn [thread_len]. by rewrite Ha, Hg.
    + apply Forall_cons in W3 as [Hgood W3]. destruct (process_read_group_spec g Hgood) as (acts & -> & G1 & G2 & G3). intros [= <-].
      apply (restoring_quiet st n (RRunning w)); [done|done| | |].
      * split; cbn [rw_outcome rw_actions rw_groups rw_handles opening]; [done|done|done| |done]. by intros ? ? ?%elem_of_nil.
      * intros j k [Hk|(g' & Hin & Hk)]; [rewrite Ha in Hk; by destruct Hk as (? & ? & ?%elem_of_nil & _)|].
        rewrite Hg in Hin. apply elem_of_cons in Hin as [->|Hin]; [left; by apply G2|right; by exists g'].
      * cbn [thread_len rw_actions rw_groups]. rewrite Ha, Hg, G3. cbn [sum_Z]. lia.
  - rewrite (ro_cancelled _ Hok). intros [= <-]. pose proof (ro_threads _ Hok) as Hts. rewrite Forall_forall in Hts.
    destruct (Hts _ (list_elem_of_lookup_2 _ _ _ Hn)) as [W1 W2 W3 W4 W5]. rewrite Ha in W2. apply Forall_cons in W2 as [_ W2].
    apply (restoring_quiet st n (RRunning w)); [done|done| | |].
    + split; cbn [rw_outcome rw_actions rw_groups rw_handles opening]; [done|done|done|done|].
      intros q Hq. destruct (W5 q Hq) as (? & ? & ? & ? & Hx & _). congruence.
    + intros j k. unfold thread_covers, worker_covers. cbn [rw_actions rw_groups]. rewrite Ha. intros [Hk|Hk]; [left; by apply covers_check|by right].
    + cbn [thread_len rw_actions rw_groups]. rewrite Ha. done.
  - intros [= <-]. by apply write_step_ok.
Qed.

Lemma run_restore_ok sched : forall st st', Forall (fun x => x.2 = false) sched -> restoring_ok st ->
  run_restore e get_range_into root files sched st = Some st' -> restoring_ok st'.
Proof using Hfit Hinj Hsize Htotal.
  induction sched as [|[n b] sched IH]; intros st st' Hs Hok; cbn [run_restore]; [by intros [= <-]|].
  apply Forall_cons in Hs as [Hb Hs]. cbn [snd] in Hb. subst b. destruct (restore_step _ _ _ _ n false st) as [st1|] eqn:H1; [|done].
  cbn [mbind option_bind]. apply IH; [done|]. by eapply restore_step_ok.
Qed.

(** When all threads are done, the files are whole. *)
Lemma restoring_done st : restoring_ok st -> all_done st = true ->
  restore_result st = Ok total /\ (forall i, is_Some (files !! i) -> file_data (rs_fs st) (place i) = content i).
Proof.
  intros Hok Hd. assert (Hts : Forall (fun t => t = RDone (Ok tt)) (rs_threads st)).
  { unfold all_done in Hd. rewrite forallb_forall in Hd. pose proof (ro_threads _ Hok) as Hts. rewrite Forall_forall in *. intros t Ht.
    specialize (Hts t Ht). specialize (Hd t (proj1 (list_elem_of_In _ _) Ht)). destruct t as [w|r]; [done|]. cbn in Hts. by subst r. }
  split.
  - pose proof (ro_bytes _ Hok) as Hb. rewrite sum_Z_zero in Hb by (intros t Ht; rewrite Forall_forall in Hts; by rewrite (Hts t Ht)).
    unfold restore_result. assert (Hj : joined (rs_threads st) = None); [|rewrite Hj; f_equal; lia].
    clear -Hts. induction Hts as [|t l -> Hl IH]; [done|]. exact IH.
  - intros i Hi. apply agrees_done. eapply agrees_mono; [|by apply ro_agrees]. intros k (t & Ht & Hk). cbn beta in *.
    rewrite Forall_forall in Hts. by rewrite (Hts t Ht) in Hk.
Qed.
End Threads.

(** ** Progress

    Every step makes a measure smaller, also when system calls fail, and a
    thread that is not done can always step. *)

Section Progress.
Context `{Hhex : HexCodec} (e : CryptoEngine) `{Hcodecs : Codecs}.
Context (get_range_into : string -> Z -> Z -> res (option bytes)) (root : Path) (files : list PlannedFile).

Definition group_measure (g : ReadGroup) : nat := S (3 * length (process_read_group e get_range_into g).1).
Definition actions_measure (w : RWorker) : nat :=
  match rw_actions w with
  | [] => 0
  | a :: acts =>
      match a with
      | ACheck => 3
      | AWrite i _ _ => match opening w, lru_get i (rw_handles w) with Some _, _ => 2 | None, Some _ => 1 | None, None => 3 end
      end + 3 * length acts
  end.
Definition thread_measure (t : RThread) : nat :=
  match t with RRunning w => S (actions_measure w + sum_list_with group_measure (rw_groups w)) | RDone _ => 0 end.
Definition restore_measure (st : Restoring) : nat := sum_list_with thread_measure (rs_threads st).

Lemma actions_measure_le w : (actions_measure w <= 3 * length (rw_actions w))%nat.
Proof.
  unfold actions_measure. destruct (rw_actions w) as [|[|i off buf] acts]; cbn [length]; [lia|lia|].
  destruct (opening w), (lru_get i (rw_handles w)); lia.
Qed.

Lemma sum_list_with_insert {A} (f : A -> nat) l i x y : l !! i = Some x -> (sum_list_with f (<[i := y]> l) + f x = sum_list_with f l + f y)%nat.
Proof.
  intros Hi. rewrite <- (take_drop_middle l i x Hi) at 2. rewrite insert_take_drop by (by eapply lookup_lt_Some).
  rewrite !sum_list_with_app. cbn [sum_list_with]. lia.
Qed.
Lemma measure_insert st n t t' fs created bw c : rs_threads st !! n = Some t -> (thread_measure t' < thread_measure t)%nat ->
  (restore_measure (mkRestoring fs created bw c (<[n := t']> (rs_threads st))) < restore_measure st)%nat.
Proof. intros Hn Ht. unfold restore_measure. cbn [rs_threads]. pose proof (sum_list_with_insert thread_measure _ _ _ t' Hn). lia. Qed.

Lemma lru_get_insert i q handles : exists x, lru_get i (lru_insert i q handles) = Some x.
Proof.
  unfold lru_get. destruct (List.find (fun h => Nat.eqb h.1 i) (lru_insert i q handles)) eqn:Hf; [by eexists|]. exfalso.
  pose proof (find_none _ _ Hf (i, q)) as Hx. cbn [fst] in Hx. rewrite Nat.eqb_refl in Hx. discriminate Hx. unfold lru_insert. apply in_or_app. right. by left.
Qed.

Lemma write_step_measure st n w i off buf acts fails :
  rs_threads st !! n = Some (RRunning w) -> rw_actions w = AWrite i off buf :: acts ->
  (restore_measure (write_step root files fails n w i off buf acts st) < restore_measure st)%nat.
Proof.
  intros Hn Ha. assert (Hw : (0 < thread_measure (RRunning w))%nat) by (cbn; lia).
  unfold write_step. destruct (files !! i) as [pf|]; [|by eapply measure_insert].
  destruct (opening w) as [q|] eqn:Hop.
  { destruct fails; [by eapply measure_insert|]. eapply measure_insert; [done|]. unfold thread_measure, actions_measure. cbn [rw_actions rw_groups rw_handles opening].
    rewrite Ha, Hop. destruct (lru_get_insert i q (rw_handles w)) as [x ->]. lia. }
  destruct (lru_get i (rw_handles w)) as [[q handles]|] eqn:Hl.
  { destruct fails; [by eapply measure_insert|]. eapply measure_insert; [done|]. pose proof (actions_measure_le (mkRWorker (rw_groups w) acts (rw_outcome w) handles None)) as Hle.
    cbn [thread_measure rw_groups rw_actions] in *. unfold actions_measure at 2. rewrite Ha, Hop, Hl. lia. }
  destruct (open_file _ _) as [[q fs]|er]; [|by eapply measure_insert]. destruct fails; [by eapply measure_insert|]. cbv zeta.
  eapply measure_insert; [done|]. unfold thread_measure, actions_measure. cbn [rw_actions rw_groups rw_handles opening]. rewrite Ha, Hop, Hl.
  case_bool_decide; [lia|]. destruct (lru_get_insert i q (rw_handles w)) as [x ->]. lia.
Qed.

Lemma restore_step_measure st n fails st' : restore_step e get_range_into root files n fails st = Some st' -> (restore_measure st' < restore_measure st)%nat.
Proof.
  unfold restore_step. destruct (rs_threads st !! n) as [[w|r]|] eqn:Hn; [|done|done]. cbn [mbind option_bind].
  assert (Hw : (0 < thread_measure (RRunning w))%nat) by (cbn; lia).
  destruct (rw_actions w) as [|[|i off buf] acts] eqn:Ha.
  - destruct (rw_outcome w); [|intros [= <-]; by eapply measure_insert].
    destruct (rw_groups w) as [|g groups] eqn:Hg; [intros [= <-]; by eapply measure_insert|].
    destruct (cancelled st); [intros [= <-]; by eapply measure_insert|]. destruct (process_read_group e get_range_into g) as [acts r] eqn:Hp. intros [= <-].
    eapply measure_insert; [done|]. pose proof (actions_measure_le (mkRWorker groups acts r [] None)) as Hle. cbn [thread_measure rw_groups rw_actions] in *.
    rewrite Hg. cbn [sum_list_with]. unfold group_measure at 2. rewrite Hp. cbn [fst]. lia.
  - destruct (cancelled st); intros [= <-]; [by eapply measure_insert|]. eapply measure_insert; [done|].
    pose proof (actions_measure_le (mkRWorker (rw_groups w) acts (rw_outcome w) (rw_handles w) (opening w))) as Hle. cbn [thread_measure rw_groups rw_actions] in *.
    unfold actions_measure at 2. rewrite Ha. lia.
  - intros [= <-]. by apply write_step_measure.
Qed.

Lemma run_restore_bounded sched : forall st st', run_restore e get_range_into root files sched st = Some st' ->
  (length sched + restore_measure st' <= restore_measure st)%nat.
Proof.
  induction sched as [|[n b] sched IH]; intros st st'; cbn [run_restore]; [by intros [= <-]|].
  destruct (restore_step _ _ _ _ n b st) as [st1|] eqn:H1; [|done]. cbn [mbind option_bind]. intros H2%IH. apply restore_step_measure in H1. cbn [length]. lia.
Qed.

Lemma restore_can_step st fails : all_done st = false -> exists n st', restore_step e get_range_into root files n fails st = Some st'.
Proof.
  intros Hd. assert (Hw : exists n w, rs_threads st !! n = Some (RRunning w)).
  { unfold all_done in Hd. induction (rs_threads st) as [|t l IH]; [done|]. cbn [forallb] in Hd. destruct t as [w|r]; [by exists O, w|].
    destruct (IH Hd) as (n & w & Hw). by exists (S n), w. }
  destruct Hw as (n & w & Hw). exists n. unfold restore_step. rewrite Hw. cbn [mbind option_bind].
  destruct (rw_actions w) as [|[|i off buf] acts]; [|by eexists|by eexists]. destruct (rw_outcome w); [|by eexists]. destruct (rw_groups w); by eexists.
Qed.
End Progress.

(** ** The buckets *)

Lemma lightest_from_lt i best bb l : (best < i)%nat -> (lightest_from i best bb l < i + length l)%nat.
Proof.
  revert i best bb. induction l as [|b l IH]; intros i best bb Hb; cbn [lightest_from length]; [lia|].
  destruct (b <? bb); [pose proof (IH (S i) i b ltac:(lia))|pose proof (IH (S i) best bb ltac:(lia))]; lia.
Qed.
Lemma lightest_bucket_lt l : l <> [] -> (lightest_bucket l < length l)%nat.
Proof. destruct l as [|b l]; [done|]. intros _. apply (lightest_from_lt 1 0 b l). lia. Qed.

Lemma concat_alter_snoc {A} (l : list (list A)) i x : (i < length l)%nat -> concat (alter (fun y => y ++ [x]) i l) ≡ₚ x :: concat l.
Proof.
  revert i. induction l as [|y l IH]; intros [|i] Hi; [cbn [length] in Hi; lia|cbn [length] in Hi; lia| |].
  - cbn. rewrite <- app_assoc. cbn. by rewrite <- Permutation_middle.
  - cbn in Hi |- *. change (list_alter _ i l) with (alter (fun y => y ++ [x]) i l). rewrite IH by lia. by rewrite <- Permutation_middle.
Qed.

(** Every group goes to one bucket. *)
Lemma assign_groups_perm cap n groups : (0 < n)%nat -> forall b, length (bk_groups b) = n -> length (bk_bytes b) = n ->
  map_Forall (fun _ i => (i < n)%nat) (bk_affinity b) ->
  concat (bk_groups (foldl (assign_group cap) b groups)) ≡ₚ concat (bk_groups b) ++ groups.
Proof.
  intros Hn. induction groups as [|g groups IH]; intros b H1 H2 H3; cbn [foldl]; [by rewrite app_nil_r|].
  assert (Hl : (lightest_bucket (bk_bytes b) < n)%nat) by (rewrite <- H2; apply lightest_bucket_lt; intros E; rewrite E in H2; cbn in H2; lia).
  unfold assign_group at 2. set (dest := match bk_affinity b !! _ with Some _ => _ | None => _ end).
  assert (Hd : (dest < n)%nat). { unfold dest. destruct (bk_affinity b !! rg_pack_id g) as [a|] eqn:Ha; [|done]. destruct (_ <=? _); [by eapply H3|done]. }
  cbv zeta. rewrite IH; cbn [bk_groups bk_bytes bk_affinity]; [|by rewrite length_alter|by rewrite length_alter|by apply map_Forall_insert_2].
  rewrite concat_alter_snoc by lia. cbn [app]. by rewrite Permutation_middle.
Qed.

Lemma concat_filter_nonempty {A} (l : list (list A)) : concat (List.filter (fun x => match x with [] => false | _ => true end) l) = concat l.
Proof. induction l as [|[|x y] l IH]; cbn; [done|done|]. by rewrite IH. Qed.

Lemma partition_groups_perm groups n : (0 < n)%nat -> concat (partition_groups groups n) ≡ₚ groups.
Proof.
  intros Hn. unfold partition_groups. rewrite concat_filter_nonempty. rewrite (assign_groups_perm _ n); cbn [bk_groups bk_bytes bk_affinity]; [|done|by rewrite length_replicate|by rewrite length_replicate|done].
  assert (E : concat (replicate n ([] : list ReadGroup)) = []) by (clear; induction n; [done|done]). by rewrite E.
Qed.

(** ** The groups *)

(** Blobs of a pack that do not contain each other. *)
Definition blob_end (b : PlannedBlob) : Z := pb_pack_offset b + pb_stored_size b.
Definition unnested (l : list PlannedBlob) : Prop := forall b b', b ∈ l -> b' ∈ l -> pb_pack_offset b <= pb_pack_offset b' -> blob_end b <= blob_end b'.

Record group_shape (p : PackId) (g : ReadGroup) : Prop := {
  gs_pack : rg_pack_id g = p;
  gs_in : forall b, b ∈ rg_blobs g -> rg_start g <= pb_pack_offset b /\ blob_end b <= rg_end g;
  gs_start : exists b, b ∈ rg_blobs g /\ rg_start g = pb_pack_offset b;
  gs_end : exists b, b ∈ rg_blobs g /\ rg_end g = blob_end b;
}.

Lemma group_shape_one p b : group_shape p (mkReadGroup p (pb_pack_offset b) (blob_end b) [b]).
Proof.
  split; cbn [rg_pack_id rg_start rg_end rg_blobs]; [done| |exists b; split; [apply list_elem_of_here|done]..].
  intros b' ->%list_elem_of_singleton. lia.
Qed.
Lemma group_shape_more p g b : group_shape p g -> (forall b', b' ∈ rg_blobs g -> pb_pack_offset b' <= pb_pack_offset b /\ blob_end b' <= blob_end b) ->
  group_shape p (mkReadGroup p (rg_start g) (blob_end b) (rg_blobs g ++ [b])).
Proof.
  intros [G1 G2 (b0 & Hb0 & Hs) G4] Hle. split; cbn [rg_pack_id rg_start rg_end rg_blobs]; [done| | |].
  - intros b' [Hb'|Hb'%list_elem_of_singleton]%elem_of_app; [destruct (G2 b' Hb'), (Hle b' Hb'); lia|subst b'].
    destruct (Hle b0 Hb0). lia.
  - exists b0. split; [set_solver|done].
  - exists b. split; [set_solver|done].
Qed.

Lemma merge_blobs_spec p cur rest :
  StronglySorted (fun b b' => pb_pack_offset b <= pb_pack_offset b') rest -> group_shape p cur ->
  (forall b b', b ∈ rg_blobs cur -> b' ∈ rest -> pb_pack_offset b <= pb_pack_offset b') -> unnested (rg_blobs cur ++ rest) ->
  Forall (group_shape p) (merge_blobs p cur rest) /\ concat (rg_blobs <$> merge_blobs p cur rest) = rg_blobs cur ++ rest.
Proof.
  intros Hsort. revert cur. induction Hsort as [|b rest Hsort IH Hb]; intros cur Hg Hle Hun; cbn [merge_blobs].
  { split; [by apply Forall_singleton|cbn; by rewrite app_nil_r]. }
  rewrite Forall_forall in Hb. cbv zeta. change (pb_pack_offset b + pb_stored_size b) with (blob_end b). destruct (_ && _).
  - destruct (IH (mkReadGroup p (rg_start cur) (blob_end b) (rg_blobs cur ++ [b]))) as [IH1 IH2].
    + apply group_shape_more; [done|]. intros b' Hb'. assert (pb_pack_offset b' <= pb_pack_offset b) by (apply Hle; [done|apply list_elem_of_here]).
      split; [done|]. apply Hun; [set_solver|set_solver|done].
    + cbn [rg_blobs]. intros b1 b2 [H1|H1%list_elem_of_singleton]%elem_of_app H2; [apply Hle; [done|by right]|subst b1; by apply Hb].
    + cbn [rg_blobs]. by rewrite <- app_assoc.
    + split; [done|]. cbn [rg_blobs] in IH2. by rewrite IH2, <- app_assoc.
  - destruct (IH (mkReadGroup p (pb_pack_offset b) (blob_end b) [b])) as [IH1 IH2].
    + apply group_shape_one.
    + cbn [rg_blobs]. intros b1 b2 ->%list_elem_of_singleton H2. by apply Hb.
    + cbn [rg_blobs]. intros b1 b2 H1 H2. apply Hun; set_solver.
    + split; [by apply Forall_cons|]. cbn [fmap list_fmap concat]. by rewrite IH2.
Qed.

Lemma group_pack_spec p blobs : unnested blobs -> Forall (group_shape p) (group_pack p blobs) /\ concat (rg_blobs <$> group_pack p blobs) ≡ₚ blobs.
Proof.
  intros Hun. unfold group_pack. set (leb := fun a b => pb_pack_offset a <=? pb_pack_offset b). pose proof (sort_by_perm leb blobs) as Hperm.
  assert (Hsort : StronglySorted (fun b b' => pb_pack_offset b <= pb_pack_offset b') (sort_by leb blobs)).
  { eapply StronglySorted_weaken; [|apply (sort_by_sorted leb)].
    - intros a b Hab. by apply Z.leb_le in Hab.
    - intros a b. unfold leb. rewrite !Z.leb_le. lia.
    - intros a b c. unfold leb. rewrite !Z.leb_le. lia. }
  destruct (sort_by leb blobs) as [|first rest]; [done|]. apply StronglySorted_inv in Hsort as [Hsort Hf]. rewrite Forall_forall in Hf.
  destruct (merge_blobs_spec p (mkReadGroup p (pb_pack_offset first) (blob_end first) [first]) rest) as [H1 H2]; [done|apply group_shape_one| | |].
  - cbn [rg_blobs]. intros b b' ->%list_elem_of_singleton Hb'. by apply Hf.
  - cbn [rg_blobs app]. intros b b' Hb Hb'. apply Hun; by rewrite <- Hperm.
  - split; [done|]. change (pb_pack_offset first + pb_stored_size first) with (blob_end first). cbn [rg_blobs app] in H2. by rewrite H2.
Qed.

(** A list per key: pushing adds one element. *)
Lemma concat_push {K A} `{Countable K} (m : gmap K (list A)) k x :
  concat (map_to_list (<[k := default [] (m !! k) ++ [x]]> m)).*2 ≡ₚ x :: concat (map_to_list m).*2.
Proof.
  destruct (m !! k) as [old|] eqn:Hk; cbn [from_option id].
  - rewrite <- (insert_delete_id m k old Hk) at 2. rewrite <- (insert_delete_eq m k).
    rewrite !map_to_list_insert by apply lookup_delete_eq. cbn [fmap list_fmap concat snd].
    rewrite <- app_assoc. cbn [app]. by rewrite <- Permutation_middle.
  - rewrite map_to_list_insert by done. done.
Qed.

Section Groups.
Context (lookup : ChunkId -> option (PackId * Z * Z)).

Definition sits (p : PackId) (b : PlannedBlob) : Prop := lookup (pb_chunk_id b) = Some (p, pb_pack_offset b, pb_stored_size b).
(** The blob is the one of a chunk that is needed. *)
Definition needed (b : PlannedBlob) (kv : ChunkId * ChunkTargets) : Prop :=
  pb_chunk_id b = kv.1 /\ pb_expected_size b = expected_size kv.2 /\ pb_targets b = targets kv.2.

Lemma locate_blobs_spec l : forall m m', locate_blobs lookup l m = Ok m' -> (forall p bs b, m !! p = Some bs -> b ∈ bs -> sits p b) ->
  (forall p bs b, m' !! p = Some bs -> b ∈ bs -> sits p b) /\
  exists blobs, concat (map_to_list m').*2 ≡ₚ blobs ++ concat (map_to_list m).*2 /\ Forall2 needed blobs l.
Proof.
  induction l as [|[id ct] l IH]; intros m m'; cbn [locate_blobs].
  { intros [= <-] Hm. split; [done|]. exists []. split; [done|constructor]. }
  destruct (lookup id) as [[[p off] size]|] eqn:Hl; [|done]. intros Hloc Hm.
  destruct (IH _ _ Hloc) as [H1 (blobs & H2 & H3)].
  - intros p' bs b. destruct (decide (p = p')) as [<-|Hp]; [rewrite lookup_insert_eq|rewrite lookup_insert_ne by done; apply Hm].
    intros [= <-] [Hb|Hb%list_elem_of_singleton]%elem_of_app; [|by subst b].
    destruct (m !! p) as [old|] eqn:Hp; [by eapply Hm|by apply elem_of_nil in Hb].
  - split; [done|]. exists (mkPlannedBlob id off size (expected_size ct) (targets ct) :: blobs). split; [|by constructor].
    rewrite H2, concat_push. by rewrite <- Permutation_middle.
Qed.

Lemma build_read_groups_spec t groups : build_read_groups t lookup = Ok groups ->
  (forall p b b', sits p b -> sits p b' -> pb_pack_offset b <= pb_pack_offset b' -> blob_end b <= blob_end b') ->
  Forall (fun g => exists p, group_shape p g /\ forall b, b ∈ rg_blobs g -> sits p b) groups /\
  exists blobs, concat (rg_blobs <$> groups) ≡ₚ blobs /\ Forall2 needed blobs (map_to_list t).
Proof.
  unfold build_read_groups. destruct (locate_blobs lookup (map_to_list t) ∅) as [m|er] eqn:Hloc; [|done]. cbn [mbind result_bind]. intros [= <-] Hun.
  destruct (locate_blobs_spec _ _ _ Hloc) as [H1 (blobs & H2 & H3)]; [done|]. rewrite map_to_list_empty, app_nil_r in H2.
  assert (Hpack : forall p bs, m !! p = Some bs -> Forall (group_shape p) (group_pack p bs) /\ concat (rg_blobs <$> group_pack p bs) ≡ₚ bs).
  { intros p bs Hp. apply group_pack_spec. intros b b' Hb Hb'. eapply Hun; eapply H1; done. }
  split.
  - apply Forall_concat, Forall_fmap, Forall_forall. intros [p bs] Hp%elem_of_map_to_list. destruct (Hpack p bs Hp) as [Hs Hc]. cbn [fst snd compose].
    apply Forall_forall. intros g Hg. rewrite Forall_forall in Hs. exists p. split; [by apply Hs|]. intros b Hb. eapply H1; [done|]. rewrite <- Hc.
    apply list_elem_of_In, in_concat. exists (rg_blobs g). split; [|by apply list_elem_of_In]. by apply list_elem_of_In, list_elem_of_fmap_2.
  - exists blobs. split; [|done]. rewrite <- H2. clear H2 H3. assert (Hall : forall p bs, (p, bs) ∈ map_to_list m -> concat (rg_blobs <$> group_pack p bs) ≡ₚ bs).
    { intros p bs Hp%elem_of_map_to_list. by apply Hpack. }
    induction (map_to_list m) as [|[p bs] l IH]; [done|]. cbn [fmap list_fmap concat fst snd]. rewrite fmap_app, concat_app.
    rewrite (Hall p bs) by apply list_elem_of_here. apply Permutation_app_head, IH. intros p' bs' Hp. apply Hall. by right.
Qed.
End Groups.

(** ** The plan *)

(** A visit of all items of a stream that decodes. *)
Fixpoint visit_all {S} (visit : Item -> S -> res unit * S) (items : list Item) (s : S) : res unit * S :=
  match items with
  | [] => (Ok tt, s)
  | it :: items' => match visit it s with (Ok _, s') => visit_all visit items' s' | (Err er, s') => (Err er, s') end
  end.

Lemma decode_loop_visits `{ItemStream} {S} (visit : Item -> S -> res unit * S) fuel : forall stream acc items,
  decode_loop fuel (fun it items => (Ok tt, items ++ [it])) stream acc = (Ok tt, items) ->
  exists rest, items = acc ++ rest /\ forall s, decode_loop fuel visit stream s = visit_all visit rest s.
Proof.
  induction fuel as [|fuel IH]; intros stream acc items; destruct stream as [|x stream]; cbn [decode_loop].
  1,3: intros [= <-]; exists []; split; [by rewrite app_nil_r|done].
  { done. }
  destruct (next_item (x :: stream)) as [[it rest]|]; [|done]. intros (l & -> & Hl)%IH. exists (it :: l). split; [by rewrite <- app_assoc|].
  intros s. cbn [visit_all]. destruct (visit it s) as [[?|?] s']; [apply Hl|done].
Qed.
Lemma for_each_visits `{ItemStream} {S} (visit : Item -> S -> res unit * S) stream items s :
  decode_items_stream stream = Ok items -> for_each_decoded_item visit stream s = visit_all visit items s.
Proof.
  unfold decode_items_stream, for_each_decoded_item. destruct (decode_loop _ _ stream []) as [[[]|] l] eqn:Hd; [|done]. intros [= <-].
  destruct (decode_loop_visits visit _ _ _ _ Hd) as (rest & -> & Hr). apply Hr.
Qed.

Lemma sum_map_set {K V} `{Countable K} (f : V -> Z) (m : gmap K V) k v : sum_map f (<[k := v]> m) = sum_map f m - from_option f 0 (m !! k) + f v.
Proof.
  rewrite <- insert_delete_eq, sum_map_insert by apply lookup_delete_eq. destruct (m !! k) as [x|] eqn:Hk; cbn [from_option].
  - rewrite (sum_map_delete f m k x Hk). lia.
  - rewrite delete_id by done. lia.
Qed.

Section Planning.
Context (plain : ChunkId -> bytes) (dest_root : Path) (include_path : string -> bool).

Definition is_file (it : Item) : bool := match entry_type it with RegularFile => include_path (item_path it) | _ => false end.
Definition file_contents (it : Item) : bytes := concat ((fun r => plain (ref_id r)) <$> item_chunks it).
Definition sized (it : Item) : Prop := Forall (fun r => ref_size r = blen (plain (ref_id r))) (item_chunks it).

(** The files that are restored, in order. *)
Context (F : list Item).
Definition contents (i : nat) : bytes := from_option file_contents [] (F !! i).
Context (Hfit : forall i, blen (contents i) < u64_modulus).

Definition target_ok (id : ChunkId) (tg : WriteTarget) : Prop :=
  (file_idx tg < length F)%nat /\ 0 <= file_offset tg /\ (Z.to_nat (file_offset tg) + length (plain id) <= length (contents (file_idx tg)))%nat /\
  slice (Z.to_nat (file_offset tg)) (length (plain id)) (contents (file_idx tg)) = plain id.
Definition targets_ok (t : gmap ChunkId ChunkTargets) : Prop :=
  forall id ct, t !! id = Some ct -> expected_size ct = blen (plain id) /\ Forall (target_ok id) (targets ct).
Definition covered (t : gmap ChunkId ChunkTargets) (i k : nat) : Prop :=
  exists id ct, t !! id = Some ct /\ targets_cover (targets ct) (length (plain id)) i k.
Definition targets_len (ct : ChunkTargets) : Z := Z.of_nat (length (targets ct)) * expected_size ct.

Lemma plan_chunks_spec idx refs : forall pre off t off' t' t'',
  contents idx = pre ++ concat ((fun r => plain (ref_id r)) <$> refs) -> off = blen pre -> (idx < length F)%nat ->
  Forall (fun r => ref_size r = blen (plain (ref_id r))) refs -> targets_ok t ->
  plan_chunks idx refs off t = (Ok (off', t'), t'') ->
  off' = blen (contents idx) /\ targets_ok t' /\ (forall i k, covered t i k -> covered t' i k) /\
  (forall k, (length pre <= k < length (contents idx))%nat -> covered t' idx k) /\
  sum_map targets_len t' = sum_map targets_len t + blen (contents idx) - blen pre.
Proof using Hfit.
  induction refs as [|r refs IH]; intros pre off t off' t' t'' Hc Hoff Hidx Hs Ht; cbn [plan_chunks].
  { cbn [fmap list_fmap concat] in Hc. rewrite app_nil_r in Hc. rewrite Hc. intros [= <- <- <-]. split; [done|]. split; [done|]. split; [done|]. split; [lia|lia]. }
  apply Forall_cons in Hs as [Hr Hs]. set (en := default _ _). cbv zeta.
  assert (Hen : expected_size en = blen (plain (ref_id r)) /\ Forall (target_ok (ref_id r)) (targets en)).
  { unfold en. destruct (t !! ref_id r) as [ct|] eqn:E; cbn [from_option id]; [by apply Ht|]. split; [done|]. apply Forall_nil. done. }
  destruct Hen as [He Htg]. rewrite He, Hr, Z.eqb_refl. cbn [negb]. rewrite insert_insert_eq. intros Hp.
  cbn [fmap list_fmap concat] in Hc. pose proof (Hfit idx) as Hft. rewrite Hc in Hft. unfold blen in Hft. rewrite !length_app in Hft.
  set (t1 := <[ref_id r := _]> t) in Hp.
  edestruct (IH (pre ++ plain (ref_id r))) as (H1 & H2 & H3 & H4 & H5); [| | | | |exact Hp|].
  - by rewrite Hc, <- app_assoc.
  - rewrite Hoff. unfold u64_add, blen. rewrite length_app. rewrite u64_wrap_small by (unfold u64; lia). lia.
  - done.
  - done.
  - intros id ct. unfold t1. destruct (decide (ref_id r = id)) as [<-|Hn]; [|rewrite lookup_insert_ne by done; apply Ht].
    rewrite lookup_insert_eq. intros [= <-]. cbn [expected_size targets]. split; [done|]. apply Forall_app. split; [done|]. apply Forall_singleton.
    split; cbn [file_idx file_offset]; [done|]. rewrite Hoff. unfold blen. rewrite Nat2Z.id, Hc. split; [lia|]. split; [rewrite !length_app; lia|]. apply slice_app_mid.
  - assert (Hmono : forall i k, covered t i k -> covered t1 i k).
    { intros i k (id & ct & Hid & tg & Hin & Hcv). destruct (decide (ref_id r = id)) as [<-|Hn].
      - eexists (ref_id r), _. split; [apply lookup_insert_eq|]. exists tg. split; [|done]. cbn [targets]. apply elem_of_app. left. unfold en. by rewrite Hid.
      - exists id, ct. split; [unfold t1; by rewrite lookup_insert_ne|]. by exists tg. }
    split; [done|]. split; [done|]. split; [auto|]. split.
    + intros k Hk. destruct (decide (length (pre ++ plain (ref_id r)) <= k)%nat) as [Hge|Hlt]; [apply H4; lia|]. rewrite length_app in Hlt. apply H3.
      eexists (ref_id r), _. split; [apply lookup_insert_eq|]. eexists. cbn [targets]. split; [apply elem_of_app; right; apply list_elem_of_here|].
      split; [done|]. unfold piece_covers. cbn [file_offset]. rewrite Hoff. unfold blen. lia.
    + rewrite H5. unfold t1. rewrite sum_map_set. unfold targets_len at 3. cbn [targets expected_size]. rewrite length_app. cbn [length].
      unfold blen. rewrite length_app. assert (Hd : from_option targets_len 0 (t !! ref_id r) = Z.of_nat (length (targets en)) * blen (plain (ref_id r))).
      { unfold en. destruct (t !! ref_id r) as [ct|] eqn:E; cbn [from_option id]; [|cbn; lia]. unfold targets_len. by rewrite (proj1 (Ht _ _ E)). }
      rewrite Hd. unfold blen. lia.
Qed.

Record plan_ok (p : Plan) : Prop := {
  po_targets : targets_ok (chunk_targets p);
  po_files : forall i pf, planned_files p !! i = Some pf -> exists it, F !! i = Some it /\ sanitize_item_path_into (item_path it) = Ok (rel_path pf) /\
    total_size pf = blen (file_contents it);
  po_covered : forall i k, (i < length (planned_files p))%nat -> (k < length (contents i))%nat -> covered (chunk_targets p) i k;
  po_bytes : sum_map targets_len (chunk_targets p) = sum_Z (fun it => blen (file_contents it)) (take (length (planned_files p)) F);
}.
Definition same_files (p p' : Plan) : Prop := planned_files p' = planned_files p /\ chunk_targets p' = chunk_targets p.

(** Other items leave the files of the plan as they are. *)
Lemma stream_item_other it p p' : is_file it = false -> stream_item dest_root include_path it p = (Ok tt, p') -> same_files p p'.
Proof.
  unfold stream_item, is_file. destruct (include_path (item_path it)); cbn [negb]; [|by intros _ [= <-]].
  destruct (entry_type it); [done| |].
  - intros _. destruct (sanitize_item_path_into _) as [rel|]; [|done]. cbv zeta. destruct (ensure_path_within_root _ _ _); [|done].
    destruct (create_dir_all _ _) as [fs|]; [|done]. destruct (ensure_path_within_root fs _ _); [|done]. by intros [= <-].
  - intros _. destruct (link_target it) as [link|]; [|by intros [= <-]]. destruct (sanitize_item_path_into _) as [rel|]; [|done]. cbv zeta.
    destruct (if bool_decide _ then _ else _) as [fs|]; [|done]. destruct (create_symlink _ _ _); [|done]. by intros [= <-].
Qed.

Lemma stream_item_file it p p' : is_file it = true -> F !! length (planned_files p) = Some it -> sized it -> plan_ok p ->
  stream_item dest_root include_path it p = (Ok tt, p') -> plan_ok p' /\ length (planned_files p') = S (length (planned_files p)).
Proof using Hfit.
  unfold stream_item, is_file. destruct (entry_type it) eqn:Hty; [|done|done]. intros ->. cbn [negb]. intros HF Hs Hok.
  destruct (sanitize_item_path_into (item_path it)) as [rel|] eqn:Hsan; [|done].
  destruct (plan_chunks _ _ _ _) as [[[off t]|] t2] eqn:Hp; [|done]. intros [= <-]. set (n := length (planned_files p)) in *.
  assert (Hcn : contents n = file_contents it) by (unfold contents; by rewrite HF).
  destruct (plan_chunks_spec n (item_chunks it) [] 0 (chunk_targets p) off t t2) as (H1 & H2 & H3 & H4 & H5);
    [done|done|by eapply lookup_lt_Some|done|by apply po_targets|done|].
  assert (Hlen : length (planned_files p ++ [mkPlannedFile rel off (mode it) (mtime it) (xattrs it)]) = S n) by (rewrite length_app; cbn [length]; lia).
  split; [|exact Hlen]. split; cbn [chunk_targets planned_files].
  - done.
  - intros i pf [Hi|[Hi [? <-]%list_lookup_singleton_Some]]%lookup_app_Some; [by apply (po_files _ Hok)|]. cbn [rel_path total_size].
    exists it. replace i with n by (unfold n; lia). split; [done|]. split; [done|]. by rewrite H1, Hcn.
  - intros i k Hi Hk. rewrite Hlen in Hi. destruct (decide (i = n)) as [->|Hn]; [apply H4; cbn [length]; lia|]. apply H3, (po_covered _ Hok); [lia|done].
  - rewrite Hlen, (take_S_r _ _ it HF), sum_Z_app, H5, (po_bytes _ Hok), Hcn. cbn [sum_Z]. change (blen []) with 0. fold n. lia.
Qed.

Lemma visit_all_plan items : forall pre p p', F = pre ++ List.filter is_file items -> length (planned_files p) = length pre ->
  (forall it, it ∈ F -> sized it) -> plan_ok p -> visit_all (stream_item dest_root include_path) items p = (Ok tt, p') ->
  plan_ok p' /\ length (planned_files p') = length F.
Proof using Hfit.
  induction items as [|it items IH]; intros pre p p' HF Hlen Hs Hok; cbn [visit_all].
  { intros [= <-]. cbn [List.filter] in HF. rewrite app_nil_r in HF. split; [done|congruence]. }
  destruct (stream_item _ _ it p) as [[[]|] p1] eqn:Hst; [|done]. cbn [List.filter] in HF. destruct (is_file it) eqn:Hf.
  - assert (Hit : F !! length (planned_files p) = Some it) by (rewrite HF, Hlen; by apply list_lookup_middle).
    destruct (stream_item_file it p p1) as [Hok1 Hl1]; [done|done|apply Hs; by eapply list_elem_of_lookup_2|done|done|].
    apply (IH (pre ++ [it])); [by rewrite HF, <- app_assoc|rewrite length_app; cbn [length]; lia|done|done].
  - destruct (stream_item_other it p p1 Hf Hst) as [H1 H2]. apply (IH pre); [done|by rewrite H1|done|].
    destruct Hok as [O1 O2 O3 O4]. split; rewrite ?H1, ?H2; assumption.
Qed.

Lemma stream_and_plan_ok `{ItemStream} stream items fs p : decode_items_stream stream = Ok items -> F = List.filter is_file items ->
  (forall it, it ∈ F -> sized it) -> stream_and_plan stream dest_root include_path fs = Ok p -> plan_ok p /\ length (planned_files p) = length F.
Proof using Hfit.
  intros Hd HF Hs. unfold stream_and_plan. rewrite (for_each_visits _ _ _ _ Hd).
  destruct (visit_all _ _ _) as [[[]|] p'] eqn:Hv; [|done]. intros [= <-].
  eapply (visit_all_plan items []); [exact HF| |exact Hs| |exact Hv]; [done|]. split; cbn [chunk_targets planned_files]; [done|done| |done].
  intros i k Hi. cbn [length] in Hi. lia.
Qed.
End Planning.

(** ** A restore *)

Section Whole.
Context `{Hhex : HexCodec} (e : CryptoEngine) `{Hcodecs : Codecs} `{Hitems : ItemStream}.
Context (plain : ChunkId -> bytes) (s : Store) (get_range_into : string -> Z -> Z -> res (option bytes)).

(** The blob of a chunk is where the index says, and opens. *)
Definition opens (id : ChunkId) (blob : bytes) : Prop :=
  exists decrypted, unpack_object_expect_with_context_into e blob OChunkData (chunk_bytes id) = Ok decrypted /\
    decompress_into_with_hint decrypted (Some (blen (plain id))) = Ok (plain id).
Definition restorable (id : ChunkId) (p : PackId) (off size : Z) : Prop :=
  in_place e plain s id p off size /\
  forall data, s !! pack_storage_key p = Some data -> opens id (slice (Z.to_nat off) (Z.to_nat size) data).
(** What a range read of the store answers. *)
Definition range_reads : Prop := forall key data off len, s !! key = Some data -> 0 <= off -> 0 <= len -> off + len <= blen data ->
  get_range_into key off len = Ok (Some (slice (Z.to_nat off) (Z.to_nat len) data)).
Context (Hget : range_reads).

Lemma opens_decode b raw : opens (pb_chunk_id b) raw -> pb_expected_size b = blen (plain (pb_chunk_id b)) -> decode_blob e b raw = Ok (plain (pb_chunk_id b)).
Proof. intros (d & H1 & H2) He. unfold decode_blob. by rewrite H1, He, H2, Z.eqb_refl. Qed.

(** Groups of blobs that sit in one pack can be read. *)
Lemma group_shape_good files content p g : group_shape p g ->
  (forall b, b ∈ rg_blobs g -> restorable (pb_chunk_id b) p (pb_pack_offset b) (pb_stored_size b) /\ pb_expected_size b = blen (plain (pb_chunk_id b)) /\
    forall t, t ∈ pb_targets b -> piece_ok files content (file_idx t) (file_offset t) (plain (pb_chunk_id b))) ->
  group_good e get_range_into files plain content g.
Proof using Hget.
  intros [Gp Gin (b0 & Hb0 & Gs) (b1 & Hb1 & Ge)] Hall. split; [|intros b t Hb Ht; by apply (Hall b Hb)].
  destruct (Hall b0 Hb0) as [[(data & Hd & L1 & L2 & L3 & _)%in_place_located _] _]. destruct (Hall b1 Hb1) as [[(data' & Hd' & M1 & M2 & M3 & _)%in_place_located _] _].
  unfold ck_end, ck_pack, ck_off, ck_size in *. cbn [fst snd] in *. rewrite Hd in Hd'. injection Hd' as <-. destruct (Gin b0 Hb0) as [_ Hend0]. unfold blob_end in *.
  exists (slice (Z.to_nat (rg_start g)) (Z.to_nat (rg_end g - rg_start g)) data). rewrite Gp. split; [apply Hget; [done|lia|lia|unfold blen; lia]|].
  intros b Hb. destruct (Hall b Hb) as [[(data'' & Hd'' & N1 & N2 & N3 & _)%in_place_located Hop] [He _]]. unfold ck_end, ck_pack, ck_off, ck_size in *. cbn [fst snd] in *.
  destruct (Gin b Hb) as [Hlo Hhi]. unfold blob_end in Hhi. unfold blen at 1. rewrite length_slice by lia. split; [lia|].
  apply opens_decode; [|done]. rewrite slice_slice by lia. replace (Z.to_nat (rg_start g) + Z.to_nat (pb_pack_offset b - rg_start g))%nat with (Z.to_nat (pb_pack_offset b)) by lia.
  by apply Hop.
Qed.

Context (include_path : string -> bool) (items : list Item) (ix : ChunkIndex).
#[local] Abbreviation F := (List.filter (is_file include_path) items).
#[local] Abbreviation content := (contents plain F).
Context (Hfit : forall i, blen (content i) < u64_modulus).
Context (Hsized : forall it, it ∈ F -> sized plain it).
Context (Hindex : forall it r en, it ∈ F -> r ∈ item_chunks it -> ix !! ref_id r = Some en -> restorable (ref_id r) (pack_id en) (pack_offset en) (stored_size en)).

(** The chunks of a plan are chunks of its files. *)
Definition from_files (t : gmap ChunkId ChunkTargets) : Prop := forall id, is_Some (t !! id) -> exists it r, it ∈ F /\ r ∈ item_chunks it /\ ref_id r = id.

Lemma plan_chunks_from idx refs it : (forall r, r ∈ refs -> r ∈ item_chunks it) -> it ∈ F -> forall off t off' t' t'', from_files t ->
  plan_chunks idx refs off t = (Ok (off', t'), t'') -> from_files t'.
Proof.
  intros Hrefs Hit. induction refs as [|r refs IH]; intros off t off' t' t'' Hf; cbn [plan_chunks]; [by intros [= <- <- <-]|]. cbv zeta.
  destruct (negb _); [done|]. apply IH; [intros r' Hr'; apply Hrefs; by right|]. intros id Hid.
  destruct (decide (id = ref_id r)) as [->|Hn]; [exists it, r; split; [done|]; split; [apply Hrefs, list_elem_of_here|done]|].
  apply Hf. by rewrite !lookup_insert_ne in Hid by done.
Qed.
Lemma visit_all_from root l : (forall it, it ∈ l -> is_file include_path it = true -> it ∈ F) -> forall p p', from_files (chunk_targets p) ->
  visit_all (stream_item root include_path) l p = (Ok tt, p') -> from_files (chunk_targets p').
Proof.
  induction l as [|it l IH]; intros Hl p p' Hf; cbn [visit_all]; [by intros [= <-]|].
  destruct (stream_item root include_path it p) as [[[]|] p1] eqn:Hst; [|done]. apply IH; [intros it' Hit'; apply Hl; by right|].
  destruct (is_file include_path it) eqn:Hfile.
  - assert (Hin : it ∈ F) by (apply Hl; [apply list_elem_of_here|done]). unfold stream_item, is_file in *. destruct (entry_type it); [|done|done].
    rewrite Hfile in Hst. cbn [negb] in Hst. destruct (sanitize_item_path_into _); [|done]. destruct (plan_chunks _ _ _ _) as [[[off t]|] t2] eqn:Hp; [|done].
    injection Hst as <-. cbn [chunk_targets]. by eapply plan_chunks_from in Hp.
  - by destruct (stream_item_other root include_path it p p1 Hfile Hst) as [_ ->].
Qed.

(** What is read is all that the files need, and it can be read. *)
Record reads_ok (files : list PlannedFile) (groups : list ReadGroup) : Prop := {
  ra_files : forall i pf, files !! i = Some pf -> exists it, F !! i = Some it /\ sanitize_item_path_into (item_path it) = Ok (rel_path pf) /\ total_size pf = blen (file_contents plain it);
  ra_length : length files = length F;
  ra_good : Forall (group_good e get_range_into files plain content) groups;
  ra_covered : forall i k, (k < length (content i))%nat -> exists g, g ∈ groups /\ blobs_cover plain (rg_blobs g) i k;
  ra_bytes : sum_Z (group_len plain) groups = sum_Z (fun it => blen (file_contents plain it)) F;
}.

Lemma sum_Z_concat {A B} (f : B -> Z) (h : A -> list B) l : sum_Z (fun x => sum_Z f (h x)) l = sum_Z f (concat (h <$> l)).
Proof. induction l as [|x l IH]; [done|]. cbn [sum_Z fmap list_fmap concat]. rewrite sum_Z_app. by f_equal. Qed.

Lemma sits_indexed (t : gmap ChunkId ChunkTargets) p b : sits (index_lookup (filter (fun kv => is_Some (t !! kv.1)) ix)) p b ->
  exists en, ix !! pb_chunk_id b = Some en /\ is_Some (t !! pb_chunk_id b) /\ p = pack_id en /\ pb_pack_offset b = pack_offset en /\ pb_stored_size b = stored_size en.
Proof.
  unfold sits, index_lookup. destruct (filter _ ix !! pb_chunk_id b) as [en|] eqn:Hl; [|done]. cbn [mbind option_bind]. intros [= <- <- <-].
  apply map_lookup_filter_Some in Hl as [Hl Ht]. by exists en.
Qed.
Lemma sits_restorable (t : gmap ChunkId ChunkTargets) p b : from_files t -> sits (index_lookup (filter (fun kv => is_Some (t !! kv.1)) ix)) p b ->
  restorable (pb_chunk_id b) p (pb_pack_offset b) (pb_stored_size b).
Proof using Hindex.
  intros Hf (en & Hen & Ht & -> & -> & ->)%sits_indexed. destruct (Hf _ Ht) as (it & r & Hit & Hr & Hid). rewrite <- Hid in Hen |- *. by eapply Hindex.
Qed.

(** The groups of a plan. *)
Lemma plan_groups_ok t groups : from_files t -> build_read_groups_via_index ix t = Ok groups ->
  Forall (fun g => exists p, group_shape p g /\ forall b, b ∈ rg_blobs g -> restorable (pb_chunk_id b) p (pb_pack_offset b) (pb_stored_size b)) groups /\
  exists blobs, concat (rg_blobs <$> groups) ≡ₚ blobs /\ Forall2 needed blobs (map_to_list t).
Proof using Hindex.
  intros Hf Hb. destruct (build_read_groups_spec _ _ _ Hb) as [H1 H2].
  { intros p b b' Hs Hs' Hle. apply sits_restorable in Hs as [Hs _]; [|done]. apply sits_restorable in Hs' as [Hs' _]; [|done].
    exact (in_place_not_nested _ _ _ _ _ _ _ _ _ _ _ Hs Hs' eq_refl Hle). }
  split; [|done]. eapply Forall_impl; [exact H1|]. intros g (p & Hg & Hs). exists p. split; [done|]. intros b Hb'. by apply (sits_restorable t), Hs.
Qed.

Lemma plan_reads_ok p groups : plan_ok plain F p -> length (planned_files p) = length F -> from_files (chunk_targets p) ->
  (if bool_decide (chunk_targets p = ∅) then Ok [] else build_read_groups_via_index ix (chunk_targets p)) = Ok groups ->
  reads_ok (planned_files p) (sort_by group_leb groups).
Proof using Hget Hindex.
  intros [O1 O2 O3 O4] Hlen Hfrom Hg.
  assert (Hgr : Forall (fun g => exists p, group_shape p g /\ forall b, b ∈ rg_blobs g -> restorable (pb_chunk_id b) p (pb_pack_offset b) (pb_stored_size b)) groups /\
    exists blobs, concat (rg_blobs <$> groups) ≡ₚ blobs /\ Forall2 needed blobs (map_to_list (chunk_targets p))).
  { case_bool_decide as Ht; [|by apply plan_groups_ok]. injection Hg as <-. split; [by apply Forall_nil|]. exists []. rewrite Ht, map_to_list_empty. split; [done|constructor]. }
  destruct Hgr as [Hshape (blobs & Hperm & Hneed)].
  assert (Hblob : forall b, b ∈ blobs -> exists ct, chunk_targets p !! pb_chunk_id b = Some ct /\ pb_expected_size b = expected_size ct /\ pb_targets b = targets ct).
  { intros b [n Hb]%list_elem_of_lookup. destruct (Forall2_lookup_l _ _ _ _ _ Hneed Hb) as ([id ct] & Hkv & H1 & H2 & H3). cbn [fst snd] in *. subst id.
    exists ct. split; [|done]. apply elem_of_map_to_list. by eapply list_elem_of_lookup_2. }
  split; [done|done| | |].
  - rewrite sort_by_perm. rewrite Forall_forall in *. intros g Hgin. destruct (Hshape g Hgin) as (pk & Hs & Hr). eapply group_shape_good; [exact Hs|].
    intros b Hb. split; [by apply Hr|]. assert (Hbin : b ∈ blobs).
    { rewrite <- Hperm. apply list_elem_of_In, in_concat. exists (rg_blobs g). split; [|by apply list_elem_of_In]. by apply list_elem_of_In, list_elem_of_fmap_2. }
    destruct (Hblob b Hbin) as (ct & Hct & He & Ht). destruct (O1 _ _ Hct) as [He' Hts]. rewrite He, Ht. split; [done|]. intros t Htin. rewrite Forall_forall in Hts.
    destruct (Hts t Htin) as (T1 & T2 & T3 & T4). split; [apply lookup_lt_is_Some; by rewrite Hlen|]. done.
  - intros i k Hk. assert (Hi : (i < length (planned_files p))%nat).
    { rewrite Hlen. apply lookup_lt_is_Some. unfold contents in Hk. destruct (F !! i); [done|]. cbn in Hk. lia. }
    destruct (O3 i k Hi Hk) as (id & ct & Hct & Hcv). apply elem_of_map_to_list, list_elem_of_lookup in Hct as [n Hct].
    destruct (Forall2_lookup_r _ _ _ _ _ Hneed Hct) as (b & Hb & H1 & H2 & H3). cbn [fst snd] in *. apply list_elem_of_lookup_2 in Hb. rewrite <- Hperm in Hb.
    apply list_elem_of_In, in_concat in Hb as (bl & Hbl & Hb). apply list_elem_of_In, list_elem_of_fmap in Hbl as (g & -> & Hgin).
    exists g. split; [by rewrite sort_by_perm|]. exists b. split; [by apply list_elem_of_In|]. by rewrite H1, H3.
  - rewrite (sum_Z_perm _ _ _ (sort_by_perm group_leb groups)). unfold group_len. rewrite sum_Z_concat, (sum_Z_perm _ _ _ Hperm).
    rewrite Hlen, firstn_all in O4. rewrite <- O4. unfold sum_map. clear -O1 Hneed.
    assert (Hall : forall id ct, (id, ct) ∈ map_to_list (chunk_targets p) -> expected_size ct = blen (plain id)) by (intros id ct Hct%elem_of_map_to_list; by apply O1).
    induction Hneed as [|b [id ct] l l' (H1 & H2 & H3) Hl IH]; [done|]. cbn [sum_Z fst snd] in *. rewrite IH by (intros; apply Hall; by right).
    f_equal. unfold blob_len, targets_len. rewrite H1, H3, (Hall id ct) by apply list_elem_of_here. done.
Qed.

Lemma plan_restore_ok stream root fs files groups fs0 stats : decode_items_stream stream = Ok items ->
  plan_restore ix stream root include_path fs = Ok (files, groups, fs0, stats) -> reads_ok files groups.
Proof using Hget Hindex Hfit Hsized.
  intros Hd. unfold plan_restore. destruct (stream_and_plan stream root include_path fs) as [p|] eqn:Hp; [|done]. cbn [mbind result_bind].
  destruct (stream_and_plan_ok plain root include_path F Hfit stream items fs p Hd eq_refl Hsized Hp) as [Hok Hlen].
  assert (Hfrom : from_files (chunk_targets p)).
  { unfold stream_and_plan in Hp. rewrite (for_each_visits _ _ _ _ Hd) in Hp. destruct (visit_all _ _ _) as [[[]|] p'] eqn:Hv; [|done]. injection Hp as ->.
    eapply (visit_all_from root items); [|  |exact Hv].
    - intros it Hit Hf. apply list_elem_of_In, filter_In. split; [by apply list_elem_of_In|done].
    - cbn [chunk_targets]. intros id [ct Hct]. by rewrite lookup_empty in Hct. }
  destruct (planned_files p) as [|pf pfs] eqn:Hpf.
  - intros [= <- <- _ _]. symmetry in Hlen. apply nil_length_inv in Hlen. split; [done|by rewrite Hlen|by apply Forall_nil| |by rewrite Hlen].
    intros i k Hk. unfold contents in Hk. rewrite Hlen, lookup_nil in Hk. cbn in Hk. lia.
  - rewrite <- Hpf. destruct (if bool_decide _ then _ else _) as [gs|] eqn:Hg; [|done]. cbn [mbind result_bind].
    destruct (create_files _ _ _ _) as [fs1|]; [|done]. cbn [mbind result_bind]. intros [= <- <- _ _]. rewrite <- Hpf in Hlen. by apply plan_reads_ok.
Qed.

(** The planned files lead to places of their own: the empty ones have been
    made, and the others are not there yet. *)
Record placed (root : Path) (files : list PlannedFile) (place : nat -> Path) (fs : FS) : Prop := {
  pd_file : forall i pf, files !! i = Some pf -> resolve FS_FUEL fs [] (root ++ components (rel_path pf)) = Some (place i) /\ place i <> [] /\
    fs !! place i = if total_size pf =? 0 then Some (NFile []) else None;
  pd_inj : forall i j, is_Some (files !! i) -> is_Some (files !! j) -> place i = place j -> i = j;
}.
Lemma placed_openable root files place fs : placed root files place fs -> openable root files place fs.
Proof.
  intros [Hf _]. split; [intros i pf Hi; by apply Hf|]. intros i [pf Hi]. destruct (Hf i pf Hi) as (_ & Hne & Hn). split; [done|].
  unfold file_like. rewrite Hn. by destruct (_ =? _).
Qed.

Lemma restore_init_ok root files groups place fs0 threads : reads_ok files groups -> placed root files place fs0 -> (0 < threads)%nat ->
  restoring_ok e get_range_into root files plain content place fs0 (sum_Z (fun it => blen (file_contents plain it)) F) (restore_init fs0 groups threads).
Proof.
  intros [R1 R2 R3 R4 R5] Hpl Hth. unfold restore_init. set (n := Nat.min threads (length groups)).
  assert (Hperm : concat (partition_groups groups n) ≡ₚ groups).
  { destruct groups as [|g groups]; [unfold n; cbn [length]; by rewrite Nat.min_0_r|]. apply partition_groups_perm. unfold n. cbn [length]. lia. }
  split; cbn [cancelled rs_threads rs_fs bytes_written]; [done| |by apply placed_openable| |done|done| |lia].
  - apply Forall_fmap, Forall_forall. intros bucket Hb. cbn [compose thread_ok]. split; cbn [rw_outcome rw_actions rw_groups rw_handles opening]; [done|by apply Forall_nil| | |done].
    + rewrite Forall_forall in *. intros g Hg. apply R3. rewrite <- Hperm. apply list_elem_of_In, in_concat. exists bucket. by split; apply list_elem_of_In.
    + by intros ? ? ?%elem_of_nil.
  - intros i [pf Hi]. destruct (pd_file _ _ _ _ Hpl i pf Hi) as (_ & _ & Hn). replace (file_data fs0 (place i)) with ([] : bytes) by (unfold file_data; rewrite Hn; by destruct (_ =? _)).
    split; [cbn; lia|]. intros k x Hk. right. apply lookup_lt_Some in Hk. destruct (R4 i k Hk) as (g & Hg & Hcv). rewrite <- Hperm in Hg.
    apply list_elem_of_In, in_concat in Hg as (bucket & Hb & Hg). eexists. split; [apply list_elem_of_fmap_2, list_elem_of_In; exact Hb|].
    right. exists g. split; [by apply list_elem_of_In|done].
  - rewrite <- R5, <- (sum_Z_perm _ _ _ Hperm). clear. induction (partition_groups groups n) as [|b l IH]; [done|].
    cbn [fmap list_fmap sum_Z concat thread_len rw_actions rw_groups]. rewrite sum_Z_app. lia.
Qed.
End Whole.

Lemma contents_fit (plain : ChunkId -> bytes) (F : list Item) i : sum_Z (fun it => blen (file_contents plain it)) F < u64_modulus -> blen (contents plain F i) < u64_modulus.
Proof.
  intros Htot. unfold contents. destruct (F !! i) as [it|] eqn:Hi; [|done]. cbn [from_option]. apply list_elem_of_lookup_2, elem_of_Permutation in Hi as [l Hl].
  rewrite Hl in Htot. cbn [sum_Z] in Htot. pose proof (sum_Z_nonneg (fun it => blen (file_contents plain it)) l (fun x _ => blen_nonneg _)). cbn beta in *. lia.
Qed.

(** Every run of the threads without failing system calls ends after a bounded
    number of steps, can go on until all threads are done, and then every file
    that was selected holds, at its place, the contents of its chunks in order,
    nothing else has changed, and the number of bytes reported is that of the
    files. *)
Lemma threads_write_contents `{Hhex : HexCodec} (e : CryptoEngine) `{Hcodecs : Codecs} `{Hitems : ItemStream}
    (plain : ChunkId -> bytes) (s : Store) (get_range_into : string -> Z -> Z -> res (option bytes)) (include_path : string -> bool)
    (stream : bytes) (items : list Item) (ix : ChunkIndex) (root : Path) (fs fs0 : FS) (files : list PlannedFile) (groups : list ReadGroup)
    (stats : RestoreStats) (place : nat -> Path) (threads : nat) (sched : list (nat * bool)) (st : Restoring) :
  let F := List.filter (is_file include_path) items in
  let total := sum_Z (fun it => blen (file_contents plain it)) F in
  let start := restore_init fs0 groups threads in
  range_reads s get_range_into -> decode_items_stream stream = Ok items -> total < u64_modulus -> (forall it, it ∈ F -> sized plain it) ->
  (forall it r en, it ∈ F -> r ∈ item_chunks it -> ix !! ref_id r = Some en -> restorable e plain s (ref_id r) (pack_id en) (pack_offset en) (stored_size en)) ->
  plan_restore ix stream root include_path fs = Ok (files, groups, fs0, stats) -> placed root files place fs0 -> (0 < threads)%nat ->
  Forall (fun x => x.2 = false) sched -> run_restore e get_range_into root files sched start = Some st ->
  (length sched <= restore_measure e get_range_into start)%nat /\
  (all_done st = false -> exists n st', restore_step e get_range_into root files n false st = Some st') /\
  (all_done st = true -> restore_result st = Ok total /\
    (forall i it, F !! i = Some it -> exists pf, files !! i = Some pf /\ sanitize_item_path_into (item_path it) = Ok (rel_path pf) /\
      rs_fs st !! place i = Some (NFile (file_contents plain it))) /\
    forall q, (forall i, is_Some (files !! i) -> q <> place i) -> rs_fs st !! q = fs0 !! q).
Proof.
  intros F total start Hget Hd Htot Hsized Hindex Hplan Hpl Hth Hs Hrun.
  assert (Hfit : forall i, blen (contents plain F i) < u64_modulus) by (intros i; by apply contents_fit).
  pose proof (plan_restore_ok e plain s get_range_into Hget include_path items ix Hfit Hsized Hindex _ _ _ _ _ _ _ Hd Hplan) as Hreads.
  split; [apply run_restore_bounded in Hrun; lia|]. split; [intros; by apply restore_can_step|]. intros Hdone.
  assert (Hsize : forall i pf, files !! i = Some pf -> total_size pf = blen (contents plain F i)).
  { intros i pf Hi. destruct (ra_files _ _ _ _ _ _ _ Hreads i pf Hi) as (it & Hit & _ & Ht). fold F in Hit. unfold contents. by rewrite Hit. }
  assert (Hok : restoring_ok e get_range_into root files plain (contents plain F) place fs0 total st).
  { eapply (run_restore_ok e get_range_into root files plain (contents plain F) place Hfit (pd_inj _ _ _ _ Hpl) Hsize fs0 total Htot); [exact Hs| |exact Hrun]. by apply restore_init_ok. }
  destruct (restoring_done _ _ _ _ _ _ _ _ _ _ Hok Hdone) as [Hres Hdata]. split; [done|]. split; [|intros q Hq; by apply (ro_others _ _ _ _ _ _ _ _ _ _ Hok)].
  intros i it Hi. pose proof (lookup_lt_Some _ _ _ Hi) as Hlt. pose proof (ra_length _ _ _ _ _ _ _ Hreads) as Hlen. fold F in Hlen. rewrite <- Hlen in Hlt. apply lookup_lt_is_Some in Hlt as [pf Hpf].
  exists pf. split; [done|]. destruct (ra_files _ _ _ _ _ _ _ Hreads i pf Hpf) as (it' & Hit' & Hsan & Ht). fold F in Hit'. rewrite Hi in Hit'. injection Hit' as <-. split; [done|].
  pose proof (Hdata i (mk_is_Some _ _ Hpf)) as Hc. unfold contents in Hc. rewrite Hi in Hc. cbn [from_option] in Hc.
  pose proof (op_place _ _ _ _ (ro_open _ _ _ _ _ _ _ _ _ _ Hok) i (mk_is_Some _ _ Hpf)) as [_ Hfl]. unfold file_like in Hfl. unfold file_data in Hc.
  destruct (rs_fs st !! place i) as [[|d|]|] eqn:Hq; [done|by rewrite Hc|done|].
  destruct (pd_file _ _ _ _ Hpl i pf Hpf) as (_ & _ & Hn). rewrite Ht, <- Hc in Hn. cbn in Hn.
  destruct (ro_kept _ _ _ _ _ _ _ _ _ _ Hok (place i)) as [? Hx]; [by rewrite Hn|congruence].
Qed.

(** *** An example: two packs, a chunk that is needed three times *)

Definition ex_rs_pack (n : Z) : PackId := mkPackId (id_of_byte (8 + n)).
Definition ex_rs_store : Store :=
  {[ pack_storage_key (ex_rs_pack 1) := pack_of [ex_read_blob (ex_read_id 1)]; pack_storage_key (ex_rs_pack 2) := pack_of [ex_read_blob (ex_read_id 2)] ]}.
Definition ex_rs_index : ChunkIndex :=
  {[ ex_read_id 1 := mkEntry 1 4 (ex_rs_pack 1) 13; ex_read_id 2 := mkEntry 1 3 (ex_rs_pack 2) 13 ]}.
Definition ex_rs_item (path : string) (ty : ItemType) (chunks : list Z) (link : option string) : Item :=
  mkItem path ty 420 0 0 None None 0 None None 0 ((fun n => mkChunkRef (ex_read_id n) (blen (ex_read_plain (ex_read_id n))) 3) <$> chunks) link None.
Definition ex_rs_items : list Item :=
  [ex_rs_item "d" Directory [] None; ex_rs_item "d/a" RegularFile [1; 2; 1] None; ex_rs_item "b" RegularFile [] None; ex_rs_item "l" Symlink [] (Some "d/a");
   ex_rs_item "e/c" RegularFile [2; 1] None].
Definition ex_rs_get (s : Store) (key : string) (off len : Z) : res (option bytes) :=
  Ok ((fun data => slice (Z.to_nat off) (Z.to_nat len) data) <$> s !! key).
Definition ex_rs_root : Path := ["t"].
Definition ex_rs_fs : FS := {[ ["t"] := NDir ]}.
#[local] Abbreviation ex_rs_plan := (plan_restore ex_rs_index (concat (encode_item <$> ex_rs_items)) ex_rs_root (fun _ => true) ex_rs_fs).
Definition ex_rs_out := match ex_rs_plan with Ok x => x | Err _ => ([], [], ∅, mkRestoreStats 0 0 0 0) end.
Definition ex_rs_files : list PlannedFile := ex_rs_out.1.1.1.
Definition ex_rs_groups : list ReadGroup := ex_rs_out.1.1.2.
Definition ex_rs_fs0 : FS := ex_rs_out.1.2.
(** The two threads in turn. *)
Definition ex_rs_sched : list (nat * bool) := (fun i => (i mod 2, false))%nat <$> seq 0 17.

Lemma ex_rs_plan_ok : ex_rs_plan = Ok (ex_rs_files, ex_rs_groups, ex_rs_fs0, ex_rs_out.2).
Proof. vm_compute. reflexivity. Qed.
Lemma ex_rs_restorable n off size : (n = 1 /\ off = 13 /\ size = 4) \/ (n = 2 /\ off = 13 /\ size = 3) ->
  restorable (PlaintextEngine []) ex_read_plain ex_rs_store (ex_read_id n) (ex_rs_pack n) off size.
Proof.
  intros Hn. assert (Hs : ex_rs_store !! pack_storage_key (ex_rs_pack n) = Some (pack_of [ex_read_blob (ex_read_id n)]))
    by (destruct Hn as [(-> & _)|(-> & _)]; vm_compute; reflexivity).
  split.
  - exists [ex_read_blob (ex_read_id n)], O, (ex_read_blob (ex_read_id n)). split; [exact Hs|]. destruct Hn as [(-> & -> & ->)|(-> & -> & ->)].
    all: split; [by repeat constructor|]; split; [reflexivity|]; split; vm_compute; reflexivity.
  - intros data. rewrite Hs. intros [= <-]. exists (0 :: ex_read_plain (ex_read_id n)). destruct Hn as [(-> & -> & ->)|(-> & -> & ->)]; split; vm_compute; reflexivity.
Qed.

Lemma ex_rs_sized : Forall (sized ex_read_plain) ex_rs_items.
Proof. unfold ex_rs_items. repeat (apply Forall_cons; split; [apply Forall_fmap, Forall_true; intros n; reflexivity|]). by apply Forall_nil. Qed.

(** *** Leaving the destination

    The checks look at parents only, and a parent that was checked once is
    trusted from then on.  A file whose path is a link is written through the
    link. *)
Definition ex_rs_system : FS := {[ ["t"] := NDir; ["etc"] := NDir; ["etc"; "passwd"] := NFile [1; 1; 1] ]}.
Definition ex_rs_restored (items : list Item) (sched : list nat) : option FS :=
  match plan_restore ex_rs_index (concat (encode_item <$> items)) ex_rs_root (fun _ => true) ex_rs_system with
  | Ok (files, groups, fs0, _) =>
      st ← run_restore (PlaintextEngine []) (ex_rs_get ex_rs_store) ex_rs_root files ((fun i => (i, false)) <$> sched) (restore_init fs0 groups 1);
      if all_done st then Some (rs_fs st) else None
  | Err _ => None
  end.

Lemma file_written_through_link :
  (fs ← ex_rs_restored [ex_rs_item "f" Symlink [] (Some "/etc/passwd"); ex_rs_item "f" RegularFile [2] None] (replicate 6 0%nat); fs !! ["etc"; "passwd"]) =
    Some (NFile [8]).
Proof. vm_compute. reflexivity. Qed.

(** A link to a directory of the destination is taken for a directory and
    trusted; replaced by another link, it leads the next item outside. *)
Lemma trusted_link_replaced :
  (fs ← ex_rs_restored [ex_rs_item "b" Directory [] None; ex_rs_item "a" Symlink [] (Some "b"); ex_rs_item "a" Directory [] None;
       ex_rs_item "a" Symlink [] (Some "/etc"); ex_rs_item "a/passwd" RegularFile [2] None] (replicate 6 0%nat); fs !! ["etc"; "passwd"]) =
    Some (NFile [8]).
Proof. vm_compute. reflexivity. Qed.
