(* ===== verification/RestoreTree.v ===== *)
(** * The tree a restore leaves (crates/vykar-core/src/commands/restore.rs)

    Restore.v shows what the threads write once every planned file has a place
    of its own.  Here the first phases are shown to make these places, and the
    whole restore to leave the tree of the snapshot: for a snapshot whose items
    form a tree, restored into an empty directory.  [Staged] says what the
    destination holds while it is made, [Streamed] what holds between two
    items, [ready] what the threads find. *)

From S2P Require Import Prelude Types Storage ChunkIndex Pack.
From S2P Require Import Crypto Format Compress DedupCache Retention Lock Repo ReadPath Snapshots FileCache Restore.
#[local] Open Scope string_scope.
#[local] Open Scope list_scope.
#[local] Open Scope Z_scope.

(** ** Names *)

Definition plain_name (name : string) : Prop := name <> "." /\ name <> "..".

(** Where an item goes below the destination. *)
Definition names (it : Item) : option Path := match sanitize_item_path_into (item_path it) with Ok rel => Some (components rel) | Err _ => None end.

Lemma names_plain it r : names it = Some r -> r <> [] /\ Forall plain_name r.
Proof.
  unfold names, sanitize_item_path_into. destruct (starts_with (item_path it) "/") eqn:Hs; [done|]. cbv zeta.
  destruct (existsb _ (components (item_path it))) eqn:Hx; [done|].
  destruct (List.filter (fun c => negb (String.eqb c ".")) (components (item_path it))) as [|c0 l0] eqn:Hf; [done|]. set (normal := c0 :: l0) in *.
  assert (Hall : Forall (fun c => c <> "" /\ c <> "." /\ c <> ".." /\ str_all (fun a => negb (Ascii.eqb a slash)) c = true) normal).
  { rewrite <- Hf. apply Forall_forall. intros c [Hc Hd]%list_elem_of_In%filter_In. assert (Hc' : c ∈ List.filter (fun c => negb (String.eqb c "")) (split_on "/" (item_path it))).
    { unfold components in Hc. rewrite Hs in Hc. destruct (List.filter _ (split_on "/" (item_path it))) as [|x l]; [done|]. destruct Hc as [->|Hc]; [by left|].
      apply filter_In in Hc as [Hc _]. right. by apply list_elem_of_In. }
    apply list_elem_of_In, filter_In in Hc' as [Hc1 Hc2]. split; [by destruct (String.eqb_spec c "")|]. split; [by destruct (String.eqb_spec c ".")|]. split.
    - intros ->. rewrite <- not_true_iff_false in Hx. apply Hx, existsb_exists. by exists "..".
    - pose proof (split_on_sep slash (item_path it)) as Hsep. rewrite Forall_forall in Hsep. apply Hsep. by apply list_elem_of_In. }
  intros E. assert (Er : r = components (String.concat "/" normal)) by congruence. clear E. rewrite Er. clear Er. assert (Hsp : split_on slash (String.concat "/" normal) = normal).
  { apply split_concat; [done|]. eapply Forall_impl; [exact Hall|]. by intros c (_ & _ & _ & ?). }
  assert (Hst : starts_with (String.concat "/" normal) "/" = false).
  { assert (Hc : c0 <> "" /\ str_all (fun a => negb (Ascii.eqb a slash)) c0 = true) by (apply Forall_cons in Hall as [(? & _ & _ & ?) _]; done).
    destruct Hc as [Hc1 Hc2]. destruct c0 as [|a c0]; [done|]. cbn [str_all] in Hc2. apply andb_true_iff in Hc2 as [Hc2 _]. unfold normal.
    assert (exists t, String.concat "/" (String a c0 :: l0) = String a t) as [t ->] by (destruct l0; by eexists). unfold slash in Hc2. cbn [starts_with]. rewrite Ascii.eqb_sym. by destruct (Ascii.eqb a "/"). }
  unfold components. rewrite Hst. change (split_on "/" (String.concat "/" normal)) with (split_on slash (String.concat "/" normal)). rewrite Hsp.
  assert (He : List.filter (fun c => negb (String.eqb c "")) normal = normal).
  { apply filter_all. eapply Forall_impl; [exact Hall|]. intros c (Hc & _). by destruct (String.eqb_spec c ""). }
  rewrite He. unfold normal. split; [done|]. apply Forall_cons in Hall as [(_ & ? & ? & _) Hall]. apply Forall_cons. split; [done|].
  apply Forall_forall. intros c [Hc _]%list_elem_of_In%filter_In. rewrite Forall_forall in Hall. apply list_elem_of_In in Hc. by destruct (Hall c Hc) as (_ & ? & ? & _).
Qed.

(** ** Paths without links *)

(** All directories on the way are there. *)
Definition dirs_above (fs : FS) (p : Path) : Prop := forall q x, p = q ++ x -> q <> [] -> x <> [] -> fs !! q = Some NDir.

Lemma resolve_to fs fuel : forall cur todo q, Forall plain_name todo -> (forall a x, todo = a ++ x -> a <> [] -> x <> [] -> fs !! (cur ++ a) = Some NDir) ->
  (forall t, todo <> [] -> fs !! (cur ++ todo) <> Some (NLink t)) -> resolve fuel fs cur todo = Some q -> q = cur ++ todo.
Proof.
  induction fuel as [|fuel IH]; intros cur todo q Hp Hd Hl; cbn [resolve]; [done|]. destruct todo as [|name rest]; [intros [= <-]; by rewrite app_nil_r|].
  apply Forall_cons in Hp as [[H1 H2] Hp]. destruct (String.eqb_spec name "."); [done|]. destruct (String.eqb_spec name ".."); [done|]. cbv zeta.
  destruct rest as [|n2 rest].
  - specialize (Hl). destruct (fs !! (cur ++ [name])) as [[|d|t]|] eqn:E; [|by intros [= <-]|by destruct (Hl t)|by intros [= <-]].
    destruct fuel; [done|]. cbn [resolve]. by intros [= <-].
  - rewrite (Hd [name] (n2 :: rest)) by done. intros Hr. apply IH in Hr; [by rewrite <- app_assoc in Hr|done| |].
    + intros a x E Ha Hx. rewrite <- app_assoc. apply (Hd (name :: a) x); [by rewrite E|done|done].
    + intros t _. rewrite <- app_assoc. by apply Hl.
Qed.
Lemma resolve_reaches fs fuel : forall cur todo, Forall plain_name todo -> (forall a x, todo = a ++ x -> a <> [] -> x <> [] -> fs !! (cur ++ a) = Some NDir) ->
  (forall t, todo <> [] -> fs !! (cur ++ todo) <> Some (NLink t)) -> (length todo < fuel)%nat -> resolve fuel fs cur todo = Some (cur ++ todo).
Proof.
  induction fuel as [|fuel IH]; intros cur todo Hp Hd Hl Hlen; cbn [resolve]; [lia|]. destruct todo as [|name rest]; [by rewrite app_nil_r|].
  apply Forall_cons in Hp as [[H1 H2] Hp]. destruct (String.eqb_spec name "."); [done|]. destruct (String.eqb_spec name ".."); [done|]. cbv zeta. cbn [length] in Hlen.
  destruct rest as [|n2 rest].
  - destruct (fs !! (cur ++ [name])) as [[|d|t]|] eqn:E; [|done|by destruct (Hl t)|done]. destruct fuel; [cbn in Hlen; lia|done].
  - rewrite (Hd [name] (n2 :: rest)) by done. rewrite IH; [by rewrite <- app_assoc|done| | |cbn [length] in *; lia].
    + intros a x E Ha Hx. rewrite <- app_assoc. apply (Hd (name :: a) x); [by rewrite E|done|done].
    + intros t _. rewrite <- app_assoc. by apply Hl.
Qed.

(** A path that is taken literally. *)
Record literal (fs : FS) (p : Path) : Prop := {
  lt_plain : Forall plain_name p;
  lt_dirs : dirs_above fs p;
  lt_nolink : forall t, p <> [] -> fs !! p <> Some (NLink t);
}.
Lemma literal_resolve fs p q : literal fs p -> resolve FS_FUEL fs [] p = Some q -> q = p.
Proof. intros [H1 H2 H3] Hr. by apply resolve_to in Hr; [|done|done|]. Qed.
Lemma literal_canonicalize fs p q : literal fs p -> canonicalize fs p = Some q -> q = p.
Proof. intros Hp. unfold canonicalize. destruct (resolve FS_FUEL fs [] p) as [q'|] eqn:E; [|done]. cbn. apply literal_resolve in E as ->; [|done]. destruct (is_node fs p); [|done]. by intros [= <-]. Qed.
Lemma literal_is_dir fs p : literal fs p -> p <> [] -> is_dir fs p = true -> fs !! p = Some NDir.
Proof.
  intros Hp Hne. unfold is_dir. destruct (canonicalize fs p) as [q|] eqn:E; [|done]. apply literal_canonicalize in E as ->; [|done]. destruct p; [done|]. by destruct (fs !! _) as [[]|].
Qed.
(** The directory above a literal path is literal. *)
Lemma literal_above fs p name : literal fs (p ++ [name]) -> literal fs p.
Proof.
  intros [[H1 _]%Forall_app H2 H3]. split; [done| |].
  - intros q x -> Hq Hx. apply (H2 q (x ++ [name])); [by rewrite app_assoc|done|by destruct x].
  - intros t Hne. by rewrite (H2 p [name]).
Qed.
Lemma literal_parent fs p q : literal fs p -> p <> [] -> parent_of fs p = Some q -> q = p.
Proof.
  intros Hp Hne. destruct p as [|name p _] using rev_ind; [done|]. unfold parent_of. rewrite last_snoc, removelast_last.
  intros (n & [= <-] & (d & E & Hd)%bind_Some)%bind_Some. apply literal_canonicalize in E; [|by eapply literal_above]. subst d. destruct (is_dir fs p); congruence.
Qed.
Lemma literal_mkdir fs p fs' : literal fs p -> p <> [] -> mkdir fs p = Ok fs' -> fs !! p = None /\ fs' = <[p := NDir]> fs.
Proof.
  intros Hp Hne. unfold mkdir. destruct (parent_of fs p) as [q|] eqn:E; [|done]. apply literal_parent in E as ->; [|done|done].
  unfold is_node. destruct p as [|a p]; [done|]. case_bool_decide as Hs; [done|]. intros [= <-]. split; [|done]. by apply eq_None_not_Some.
Qed.
Lemma literal_open fs p x : literal fs p -> p <> [] -> fs !! p = None -> open_file fs p = Ok x -> x = (p, <[p := NFile []]> fs).
Proof.
  intros Hp Hne Hfree. unfold open_file. destruct (resolve FS_FUEL fs [] p) as [q|] eqn:Eq; [|done]. apply literal_resolve in Eq as ->; [|done]. rewrite Hfree.
  destruct p; [done|]. by intros [= <-].
Qed.

(** A path that is not too long is found. *)
Lemma resolve_open fs fuel : forall cur todo, Forall plain_name todo ->
  (forall a x, todo = a ++ x -> a <> [] -> fs !! (cur ++ a) = None \/ fs !! (cur ++ a) = Some NDir) -> (length todo < fuel)%nat ->
  resolve fuel fs cur todo = Some (cur ++ todo) \/ resolve fuel fs cur todo = None.
Proof.
  induction fuel as [|fuel IH]; intros cur todo Hp Hd Hlen; cbn [resolve]; [lia|]. destruct todo as [|name rest]; [left; by rewrite app_nil_r|].
  apply Forall_cons in Hp as [[H1 H2] Hp]. destruct (String.eqb_spec name "."); [done|]. destruct (String.eqb_spec name ".."); [done|]. cbv zeta. cbn [length] in Hlen.
  destruct (Hd [name] rest) as [E|E]; [done|done|rewrite E; destruct rest; [by left|by right]|]. rewrite E.
  destruct (IH (cur ++ [name]) rest Hp) as [-> | ->]; [|lia|left; by rewrite <- app_assoc|by right]. intros a x -> Ha. rewrite <- app_assoc. by apply (Hd (name :: a) x).
Qed.
Lemma literal_reaches fs p : literal fs p -> (length p < FS_FUEL)%nat -> resolve FS_FUEL fs [] p = Some p.
Proof. intros [H1 H2 H3] Hl. by apply (resolve_reaches fs FS_FUEL []). Qed.
Lemma dir_canonicalize fs p : literal fs p -> (length p < FS_FUEL)%nat -> p = [] \/ fs !! p = Some NDir -> canonicalize fs p = Some p.
Proof.
  intros Hp Hl Hd. unfold canonicalize. rewrite literal_reaches by done. cbn [mbind option_bind]. replace (is_node fs p) with true; [done|]. symmetry. destruct Hd as [->|Hd]; [done|].
  unfold is_node. destruct p; [done|]. by rewrite Hd, bool_decide_eq_true_2 by done.
Qed.
Lemma dir_is_dir fs p : literal fs p -> (length p < FS_FUEL)%nat -> p = [] \/ fs !! p = Some NDir -> is_dir fs p = true.
Proof. intros Hp Hl Hd. unfold is_dir. rewrite dir_canonicalize by done. destruct p; [done|]. by destruct Hd as [? | ->]. Qed.
Lemma literal_parent_found fs p : literal fs p -> p <> [] -> (length p < FS_FUEL)%nat -> parent_of fs p = Some p.
Proof.
  intros Hp Hne Hl. destruct p as [|name p _] using rev_ind; [done|]. rewrite length_app in Hl. cbn [length] in Hl. 
  assert (Hl' : (length p < FS_FUEL)%nat) by (eapply Nat.lt_trans; [|exact Hl]; lia). clear Hl.
  assert (Hd : p = [] \/ fs !! p = Some NDir) by (destruct p; [by left|right; by apply (lt_dirs _ _ Hp _ [name])]). pose proof (literal_above _ _ _ Hp) as Hp'.
  unfold parent_of. rewrite last_snoc, removelast_last. apply bind_Some. exists name. split; [done|]. apply bind_Some. exists p. split; [by apply dir_canonicalize|]. by rewrite dir_is_dir.
Qed.
Lemma literal_open_found fs p : literal fs p -> fs !! p = None -> (length p < FS_FUEL)%nat -> p <> [] -> exists x, open_file fs p = Ok x.
Proof. intros Hp Hfree Hl Hne. unfold open_file. rewrite literal_reaches by done. rewrite Hfree. destruct p; [done|by eexists]. Qed.

Lemma create_dirs_succeeds todo : forall fs done, Forall plain_name (done ++ todo) -> (length (done ++ todo) < FS_FUEL)%nat ->
  (forall q x, done = q ++ x -> q <> [] -> fs !! q = Some NDir) ->
  (forall a x, todo = a ++ x -> a <> [] -> fs !! (done ++ a) = None \/ fs !! (done ++ a) = Some NDir) -> exists fs', create_dirs fs done todo = Ok fs'.
Proof.
  induction todo as [|name rest IH]; intros fs dn Hp Hlen Hd Ht; cbn [create_dirs]; [by eexists|]. set (p := dn ++ [name]). assert (Hne : p <> []) by (unfold p; by destruct dn).
  change (dn ++ name :: rest) with (dn ++ [name] ++ rest) in *. rewrite app_assoc in Hp, Hlen. fold p in Hp, Hlen. assert (Hl : (length p < FS_FUEL)%nat) by (rewrite length_app in Hlen; lia).
  assert (Hlit : literal fs p).
  { split; [by apply Forall_app in Hp as [Hp _]| |].
    - intros q x E Hq Hx. destruct x as [|y x _] using rev_ind; [done|]. unfold p in E. rewrite app_assoc in E. apply app_inj_tail in E as [E _]. by eapply Hd.
    - intros t _ E. destruct (Ht [name] rest) as [H|H]; [done|done|unfold p in E; congruence..]. }
  assert (H1 : exists fs1, (if is_dir fs p then Ok fs else mkdir fs p) = Ok fs1 /\ fs1 !! p = Some NDir /\ forall q, q <> p -> fs1 !! q = fs !! q).
  { destruct (Ht [name] rest) as [E|E]; [done|done| |]; fold p in E.
    - destruct (is_dir fs p) eqn:Hdir; [apply literal_is_dir in Hdir; [congruence|done|done]|]. exists (<[p := NDir]> fs). split; [|split; [by rewrite lookup_insert_eq|intros q Hq; by rewrite lookup_insert_ne]].
      unfold mkdir. rewrite literal_parent_found by done. unfold is_node. destruct p; [done|]. by rewrite E.
    - exists fs. rewrite dir_is_dir by auto. done. }
  destruct H1 as (fs1 & -> & H1 & H2). cbn [mbind result_bind]. apply IH; [done|done| |].
  - intros q x E Hq. destruct (decide (q = p)) as [->|Hqp]; [done|]. rewrite H2 by done. destruct x as [|y x _] using rev_ind; [by rewrite app_nil_r in E|].
    unfold p in E. rewrite app_assoc in E. apply app_inj_tail in E as [E _]. by eapply Hd.
  - intros a x E Ha. unfold p. rewrite <- app_assoc. rewrite H2 by (unfold p; intros F; apply app_inv_head in F; by destruct a).
    apply (Ht (name :: a) x); [by rewrite E|done].
Qed.

Lemma create_dirs_spec todo : forall fs done fs', create_dirs fs done todo = Ok fs' -> Forall plain_name (done ++ todo) ->
  (forall q x, done = q ++ x -> q <> [] -> fs !! q = Some NDir) ->
  (forall a x, todo = a ++ x -> a <> [] -> fs !! (done ++ a) = None \/ fs !! (done ++ a) = Some NDir) ->
  (forall a x, todo = a ++ x -> a <> [] -> fs' !! (done ++ a) = Some NDir) /\
  (forall q, (forall a x, todo = a ++ x -> a <> [] -> q <> done ++ a) -> fs' !! q = fs !! q).
Proof.
  induction todo as [|name rest IH]; intros fs dn fs'; cbn [create_dirs].
  { intros [= <-] _ _ _. split; [|done]. intros a x E Ha. by destruct a. }
  set (p := dn ++ [name]). intros Hc Hp Hd Ht. assert (Hne : p <> []) by (unfold p; by destruct dn).
  assert (Hlit : literal fs p).
  { split.
    - unfold p. rewrite cons_middle, app_assoc in Hp. by apply Forall_app in Hp as [Hp _].
    - intros q x E Hq Hx. destruct x as [|y x _] using rev_ind; [done|]. unfold p in E. rewrite app_assoc in E. apply app_inj_tail in E as [E _]. by eapply Hd.
    - intros t _ E. destruct (Ht [name] rest) as [H|H]; [done|done|unfold p in E; congruence..]. }
  destruct (if is_dir fs p then Ok fs else mkdir fs p) as [fs1|] eqn:E1; [|done]. cbn [mbind result_bind] in Hc.
  assert (H1 : fs1 !! p = Some NDir /\ forall q, q <> p -> fs1 !! q = fs !! q).
  { destruct (is_dir fs p) eqn:Hdir; [injection E1 as <-; split; [by apply literal_is_dir|done]|]. apply literal_mkdir in E1 as [_ ->]; [|done|done].
    split; [by rewrite lookup_insert_eq|]. intros q Hq. by rewrite lookup_insert_ne. }
  destruct H1 as [H1 H2]. destruct (IH fs1 p fs' Hc) as [G1 G2].
  - unfold p. by rewrite <- app_assoc.
  - intros q x E Hq. destruct (decide (q = p)) as [->|Hqp]; [done|]. rewrite H2 by done. destruct x as [|y x _] using rev_ind; [by rewrite app_nil_r in E|].
    unfold p in E. rewrite app_assoc in E. apply app_inj_tail in E as [E _]. by eapply Hd.
  - intros a x E Ha. unfold p. rewrite <- app_assoc. rewrite H2 by (unfold p; intros F; apply app_inv_head in F; by destruct a).
    apply (Ht (name :: a) x); [by rewrite E|done].
  - split.
    + intros a x E Ha. destruct a as [|n a]; [done|]. injection E as <- E. change (dn ++ name :: a) with (dn ++ [name] ++ a). rewrite app_assoc. fold p.
      destruct a as [|n' a]; [|by apply (G1 (n' :: a) x)]. rewrite app_nil_r. rewrite G2; [done|]. intros b y _ Hb F. apply (f_equal length) in F. rewrite length_app in F. destruct b; [done|]. cbn in F. lia.
    + intros q Hq. rewrite G2, H2; [done|apply (Hq [name] rest); done|]. intros b y E Hb. unfold p. rewrite <- app_assoc. apply (Hq (name :: b) y); [by rewrite E|done].
Qed.

(** ** Items that form a tree *)

(** What an item becomes; a link without a target is left out. *)
Definition node_with (contents : Item -> bytes) (it : Item) : option Node :=
  match entry_type it with Directory => Some NDir | RegularFile => Some (NFile (contents it)) | Symlink => NLink <$> link_target it end.
(** Before the threads have written anything, files are empty. *)
Definition stage_node : Item -> option Node := node_with (fun _ => []).

(** No two items have the same path, and only directories have items below. *)
Record tree_items (l : list Item) : Prop := {
  ti_distinct : NoDup (omap names l);
  ti_dirs : forall it it' r x, it ∈ l -> it' ∈ l -> names it = Some r -> names it' = Some (r ++ x) -> x <> [] -> entry_type it = Directory;
}.
(** The destination is an empty directory that no link leads to. *)
Record empty_dir (root : Path) (fs : FS) : Prop := {
  ed_plain : Forall plain_name root;
  ed_dirs : forall q x, root = q ++ x -> q <> [] -> fs !! q = Some NDir;
  ed_empty : forall r, r <> [] -> fs !! (root ++ r) = None;
}.

Lemma same_names l it it' r : NoDup (omap names l) -> it ∈ l -> it' ∈ l -> names it = Some r -> names it' = Some r -> it = it'.
Proof.
  induction l as [|x l IH]; [by intros _ ?%elem_of_nil|]. cbn [omap list_omap]. intros Hnd H1 H2 N1 N2.
  assert (Hin : forall y, y ∈ l -> names y = Some r -> r ∈ omap names l) by (intros y Hy Hn; apply list_elem_of_omap; by exists y).
  apply elem_of_cons in H1 as [->|H1], H2 as [->|H2]; [done| | |].
  - rewrite N1 in Hnd. apply NoDup_cons in Hnd as [Hn _]. destruct Hn. by eapply Hin.
  - rewrite N2 in Hnd. apply NoDup_cons in Hnd as [Hn _]. destruct Hn. by eapply Hin.
  - apply IH; [|done..]. destruct (names x); [by apply NoDup_cons in Hnd as [_ ?]|done].
Qed.

Lemma NoDup_one_more made it F (b : bool) : NoDup (omap names (made ++ it :: F)) -> NoDup (omap names ((made ++ if b then [it] else []) ++ F)).
Proof.
  intros Hnd. destruct b; [by rewrite cons_middle, app_assoc in Hnd|]. rewrite app_nil_r. rewrite omap_app in *. cbn [omap list_omap] in Hnd.
  destruct (names it) as [r|]; [|done]. eapply sublist_NoDup; [exact Hnd|]. apply sublist_app; [done|]. by apply sublist_cons.
Qed.

Section Tree.
Context (root : Path) (base : FS) (L : list Item) (Hroot : empty_dir root base) (Htree : tree_items L).

(** What an item explains: itself, once it is [made], and the directories above. *)
Definition explains (made : list Item) (r : Path) (n : Node) (it : Item) (x : Path) : Prop :=
  it ∈ L /\ names it = Some (r ++ x) /\ match x with [] => it ∈ made /\ stage_node it = Some n | _ => n = NDir /\ is_Some (stage_node it) end.

(** The destination holds what the items explain and nothing else. *)
Record Staged (made : list Item) (fs : FS) : Prop := {
  sg_base : forall q, (forall r, r <> [] -> q <> root ++ r) -> fs !! q = base !! q;
  sg_up : forall r x, r <> [] -> x <> [] -> is_Some (fs !! (root ++ r ++ x)) -> fs !! (root ++ r) = Some NDir;
  sg_node : forall r n, r <> [] -> fs !! (root ++ r) = Some n -> exists it x, explains made r n it x;
}.
Lemma staged_new : Staged [] base.
Proof. split; [done| |]; [intros r x Hr Hx [n Hn]|intros r n Hr Hn]; rewrite (ed_empty _ _ Hroot) in Hn; try done. by destruct r. Qed.

Lemma staged_root made fs q x : Staged made fs -> root = q ++ x -> q <> [] -> fs !! q = Some NDir.
Proof.
  intros Hs E Hq. rewrite (sg_base _ _ Hs); [by eapply (ed_dirs _ _ Hroot)|]. intros r Hr F. apply (f_equal length) in F. apply (f_equal length) in E.
  rewrite length_app in *. destruct r; [done|]. cbn in F. lia.
Qed.
(** Above an item, and at a directory, there are directories only. *)
Lemma staged_above made fs it r x n : Staged made fs -> it ∈ L -> names it = Some (r ++ x) -> r <> [] -> x <> [] \/ entry_type it = Directory ->
  fs !! (root ++ r) = Some n -> n = NDir.
Proof.
  intros Hs Hit Hn Hr Hx Hl. destruct (sg_node _ _ Hs r n Hr Hl) as (it' & y & Hit' & Hn' & Hy). destruct y as [|b y]; [|by destruct Hy]. destruct Hy as [_ Hy].
  rewrite app_nil_r in Hn'. assert (Hd : entry_type it' = Directory).
  { destruct x as [|a x]; [|by eapply (ti_dirs _ Htree it' it)]. destruct Hx as [Hx|Hx]; [done|]. rewrite app_nil_r in Hn. by rewrite (same_names _ _ _ _ (ti_distinct _ Htree) Hit' Hit Hn' Hn). }
  unfold stage_node, node_with in Hy. rewrite Hd in Hy. by injection Hy as <-.
Qed.
(** Nothing is yet where a file or a link goes. *)
Lemma staged_free made fs it r : Staged made fs -> it ∈ L -> names it = Some r -> entry_type it <> Directory -> r ∉ omap names made -> fs !! (root ++ r) = None.
Proof.
  intros Hs Hit Hn Ht Hnew. destruct (names_plain _ _ Hn) as [Hr _]. destruct (fs !! (root ++ r)) as [n|] eqn:E; [exfalso|done].
  destruct (sg_node _ _ Hs r n Hr E) as (it' & x & Hit' & Hn' & Hx). destruct x as [|a x].
  - apply Hnew, list_elem_of_omap. exists it'. rewrite app_nil_r in Hn'. by destruct Hx.
  - apply Ht. by eapply (ti_dirs _ Htree it it').
Qed.

Lemma explains_more made made' r n it x : (forall i, i ∈ made -> i ∈ made') -> explains made r n it x -> explains made' r n it x.
Proof. intros Hm (H1 & H2 & H3). split; [done|]. split; [done|]. destruct x; [|done]. destruct H3. split; [by apply Hm|done]. Qed.

Lemma staged_more made made' fs : (forall i, i ∈ made -> i ∈ made') -> Staged made fs -> Staged made' fs.
Proof. intros Hm [S1 S2 S3]. split; [done|done|]. intros r n Hr Hl. destruct (S3 r n Hr Hl) as (i & x & Hx). exists i, x. by eapply explains_more. Qed.
Lemma above_open made fs it r x : Staged made fs -> it ∈ L -> names it = Some (r ++ x) -> x <> [] \/ entry_type it = Directory ->
  forall a y, r = a ++ y -> a <> [] -> fs !! (root ++ a) = None \/ fs !! (root ++ a) = Some NDir.
Proof.
  intros Hs Hit Hn Hx a y E Ha. destruct (fs !! (root ++ a)) as [n|] eqn:El; [right|by left]. f_equal. apply (staged_above made fs it a (y ++ x) n Hs Hit); [by rewrite app_assoc, <- E|done| |done].
  destruct Hx as [Hx|Hx]; [left; by destruct y|by right].
Qed.

(** *** Directories *)

Definition dirs_to (fs : FS) (r : Path) : Prop := forall a x, r = a ++ x -> a <> [] -> fs !! (root ++ a) = Some NDir.
(** Nothing is taken away. *)
Definition kept (fs fs' : FS) : Prop := forall q n, fs !! q = Some n -> fs' !! q = Some n.

(** A part of a path below the root is a part of the root or goes below it. *)
Lemma root_split (r q x : Path) : root ++ r = q ++ x -> (exists z, root = q ++ z) \/ (exists b, q = root ++ b /\ b <> [] /\ r = b ++ x).
Proof.
  intros [(z & -> & _)|(b & -> & ->)]%app_eq_inv; [left; by exists z|]. destruct b as [|n b]; [left; exists []; by rewrite !app_nil_r|right; by eexists].
Qed.
Lemma dirs_to_above made fs r : Staged made fs -> dirs_to fs r -> forall q x, root ++ r = q ++ x -> q <> [] -> fs !! q = Some NDir.
Proof. intros Hs Hd q x [[z E]|(b & -> & Hb & E)]%root_split Hq; [by eapply staged_root|by eapply Hd]. Qed.

(** Making a directory makes those above it and changes nothing else. *)
Lemma create_dir_all_staged made fs r fs' : Staged made fs -> Forall plain_name r ->
  (forall a y, r = a ++ y -> a <> [] -> fs !! (root ++ a) = None \/ fs !! (root ++ a) = Some NDir) -> create_dir_all fs (root ++ r) = Ok fs' ->
  dirs_to fs' r /\ forall q, (forall a y, r = a ++ y -> a <> [] -> q <> root ++ a) -> fs' !! q = fs !! q.
Proof.
  intros Hs Hp Hab Hc. unfold create_dir_all in Hc. destruct (create_dirs_spec _ _ _ _ Hc) as [C1 C2].
  - cbn [app]. apply Forall_app. split; [apply Hroot|done].
  - intros q y E Hq. by destruct q.
  - cbn [app]. intros a y [[z E]|(b & -> & Hb & E)]%root_split Ha; [right; by eapply staged_root|by eapply Hab].
  - cbn [app] in C1, C2. split; [intros a y E Ha; apply (C1 _ y); [by rewrite E, app_assoc|by destruct root]|]. intros q Hq.
    destruct (decide (q = take (length q) root /\ q <> [])) as [[Hq1 Hq2]|Hq1].
    + assert (Er : root = q ++ drop (length q) root) by (rewrite Hq1 at 1; by rewrite take_drop). rewrite (staged_root made fs q _ Hs Er Hq2).
      apply (C1 q (drop (length q) root ++ r)); [by rewrite app_assoc, <- Er|done].
    + apply C2. intros a y [[z E]|(b & -> & Hb & E)]%root_split Ha; [|by eapply Hq]. intros ->. apply Hq1. by rewrite E, take_app_length.
Qed.

Lemma staged_create made fs r it x fs' : Staged made fs -> it ∈ L -> names it = Some (r ++ x) -> x <> [] \/ entry_type it = Directory -> is_Some (stage_node it) ->
  (x = [] -> it ∈ made) -> create_dir_all fs (root ++ r) = Ok fs' -> Staged made fs' /\ dirs_to fs' r /\ kept fs fs'.
Proof.
  intros Hs Hit Hn Hx Hnode Hmade Hc. destruct (names_plain _ _ Hn) as [_ [Hp _]%Forall_app].
  pose proof (above_open _ _ _ _ _ Hs Hit Hn Hx) as Hab.
  destruct (create_dir_all_staged _ _ _ _ Hs Hp Hab Hc) as [Hd Hsame].
  assert (Hpart : forall q, (exists a y, r = a ++ y /\ a <> [] /\ q = root ++ a) \/ fs' !! q = fs !! q).
  { intros q. destruct (decide (Exists (fun k => q = root ++ take k r /\ take k r <> []) (seq 0 (S (length r))))) as [Hex|Hnex].
    - apply Exists_exists in Hex as (k & _ & -> & Hk). left. exists (take k r), (drop k r). by rewrite take_drop.
    - right. apply Hsame. intros a y E Ha ->. apply Hnex, Exists_exists. exists (length a). split; [apply elem_of_seq; rewrite E, length_app; lia|]. by rewrite E, take_app_length. }
  assert (Hk : kept fs fs').
  { intros q n Hq. destruct (Hpart q) as [(a & y & E & Ha & ->)| ->]; [|done]. rewrite (Hd a y E Ha). destruct (Hab a y E Ha); congruence. }
  assert (Hnew : forall s n, fs' !! (root ++ s) = Some n -> fs !! (root ++ s) = Some n \/ n = NDir /\ exists y, r = s ++ y).
  { intros s n Hl. destruct (Hpart (root ++ s)) as [(a & y & E & Ha & F)|E]; [|left; by rewrite <- E]. right. apply app_inv_head in F as ->.
    rewrite (Hd a y E Ha) in Hl. injection Hl as <-. split; [done|by exists y]. }
  split; [|done]. split.
  - intros q Hq. rewrite Hsame; [by apply Hs|]. intros a y _ Ha. by apply Hq.
  - intros s y Hsn Hy [n Hl]. destruct (Hnew (s ++ y) n Hl) as [Hl'|[-> [z Hz]]]; [apply Hk; by eapply (sg_up _ _ Hs)|].
    apply (Hd s (y ++ z)); [by rewrite app_assoc|done].
  - intros s n Hsn Hl. destruct (Hnew s n Hl) as [Hl'|[-> [z Hz]]]; [by apply Hs|]. exists it, (z ++ x). split; [done|]. split; [by rewrite app_assoc, <- Hz|].
    destruct (z ++ x) as [|c zx] eqn:Ezx; [|done]. apply app_nil in Ezx as [-> ->]. split; [by apply Hmade|]. destruct Hx as [Hx|Hx]; [done|]. unfold stage_node, node_with. by rewrite Hx.
Qed.

(** The checks pass, and the directory can be made. *)
Lemma canonical_or_not fs r : Forall plain_name root -> Forall plain_name r -> (forall q x, root = q ++ x -> q <> [] -> fs !! q = Some NDir) ->
  (forall a y, r = a ++ y -> a <> [] -> fs !! (root ++ a) = None \/ fs !! (root ++ a) = Some NDir) -> (length (root ++ r) < FS_FUEL)%nat ->
  canonicalize fs (root ++ r) = Some (root ++ r) \/ canonicalize fs (root ++ r) = None.
Proof.
  intros H1 H2 Hup Hab Hlen. assert (Hp : Forall plain_name (root ++ r)) by (by apply Forall_app).
  destruct (resolve_open fs FS_FUEL [] (root ++ r) Hp) as [E|E]; [|done| |]; unfold canonicalize; rewrite ?E.
  - intros a x [[z F]|(b & -> & Hb & F)]%root_split Ha; [right; by eapply Hup|by eapply Hab].
  - cbn [mbind option_bind app]. destruct (is_node _ _); [by left|by right].
  - by right.
Qed.
Lemma nearest_ok_below fs r : Forall plain_name root -> Forall plain_name r -> (forall q x, root = q ++ x -> q <> [] -> fs !! q = Some NDir) ->
  (forall a y, r = a ++ y -> a <> [] -> fs !! (root ++ a) = None \/ fs !! (root ++ a) = Some NDir) -> (length (root ++ r) < FS_FUEL)%nat ->
  forall n, (length r <= n)%nat -> nearest_ok n fs (root ++ r) root = Ok tt.
Proof.
  intros H1. induction r as [|name r IH] using rev_ind; intros H2 Hup Hab Hlen n Hn.
  - assert (Hc : canonicalize fs (root ++ []) = Some root).
    { rewrite app_nil_r in *. apply dir_canonicalize; [|done|destruct (decide (root = [])) as [?|?]; [by left|right; by apply (Hup root []); [rewrite app_nil_r|]]].
      split; [done|intros q x E Hq Hx; by eapply Hup|]. intros t Hne. by rewrite (Hup root []) by (rewrite ?app_nil_r; done). }
    destruct n; cbn [nearest_ok]; rewrite Hc; rewrite bool_decide_eq_true_2; [done|by rewrite take_ge|done|by rewrite take_ge].
  - destruct n as [|n]; [rewrite length_app in Hn; cbn in Hn; lia|]. cbn [nearest_ok]. destruct (canonical_or_not fs (r ++ [name]) H1 H2 Hup Hab Hlen) as [-> | ->].
    + rewrite bool_decide_eq_true_2; [done|]. by rewrite take_app_length.
    + rewrite app_assoc, removelast_last. apply IH; [by apply Forall_app in H2 as [? _]|done| | |rewrite length_app in Hn; cbn in Hn; lia].
      * intros a y E Ha. apply (Hab a (y ++ [name])); [by rewrite E, app_assoc|done].
      * eapply Nat.le_lt_trans; [|exact Hlen]. rewrite !length_app. lia.
Qed.
Lemma create_succeeds made fs r it x : Staged made fs -> it ∈ L -> names it = Some (r ++ x) -> x <> [] \/ entry_type it = Directory -> is_Some (stage_node it) ->
  (x = [] -> it ∈ made) -> (length (root ++ r) < FS_FUEL)%nat ->
  exists fs', ensure_path_within_root fs (root ++ r) root = Ok tt /\ create_dir_all fs (root ++ r) = Ok fs' /\ ensure_path_within_root fs' (root ++ r) root = Ok tt.
Proof.
  intros Hs Hit Hn Hx Hnode Hmade Hlen. destruct (names_plain _ _ Hn) as [_ [Hp _]%Forall_app]. pose proof (ed_plain _ _ Hroot) as Hpr.
  assert (Hin : forall fs1, Staged made fs1 -> ensure_path_within_root fs1 (root ++ r) root = Ok tt).
  { intros fs1 Hs1. apply nearest_ok_below; [done|done|intros q y; by apply (staged_root made)|by eapply above_open|done|rewrite length_app; lia]. }
  destruct (create_dirs_succeeds (root ++ r) fs []) as [fs' Hc]; [cbn [app]; by apply Forall_app|exact Hlen|intros q y E Hq; by destruct q| |].
  { intros a y [[z E]|(b & -> & Hb & E)]%root_split Ha; [right; by eapply staged_root|by eapply above_open]. }
  exists fs'. split; [by apply Hin|]. split; [exact Hc|]. apply Hin. destruct (staged_create made fs r it x fs' Hs Hit Hn Hx Hnode Hmade Hc) as [? _]. done.
Qed.

(** *** Files and links *)

Lemma staged_literal made fs it r name : Staged made fs -> it ∈ L -> names it = Some (r ++ [name]) -> dirs_to fs r -> entry_type it <> Directory ->
  r ++ [name] ∉ omap names made -> literal fs (root ++ r ++ [name]) /\ fs !! (root ++ r ++ [name]) = None.
Proof.
  intros Hs Hit Hn Hd Ht Hnew. pose proof (staged_free _ _ _ _ Hs Hit Hn Ht Hnew) as Hfree. split; [|done]. destruct (names_plain _ _ Hn) as [_ Hp].
  split; [apply Forall_app; split; [apply Hroot|done]| |by rewrite Hfree]. intros q x E Hq Hx. destruct x as [|y x _] using rev_ind; [done|].
  rewrite !app_assoc in E. apply app_inj_tail in E as [E _]. by eapply dirs_to_above.
Qed.
Lemma staged_leaf made fs it r name n : Staged made fs -> it ∈ L -> names it = Some (r ++ [name]) -> dirs_to fs r -> stage_node it = Some n ->
  fs !! (root ++ r ++ [name]) = None -> Staged (made ++ [it]) (<[root ++ r ++ [name] := n]> fs) /\ kept fs (<[root ++ r ++ [name] := n]> fs).
Proof.
  intros Hs Hit Hn Hd Hnode Hfree. assert (Hk : kept fs (<[root ++ r ++ [name] := n]> fs)).
  { intros q n' Hq. rewrite lookup_insert_ne; [done|]. intros <-. congruence. }
  assert (Hmore : forall i, i ∈ made -> i ∈ made ++ [it]) by (intros i Hi; apply elem_of_app; by left).
  split; [|done]. split.
  - intros q Hq. rewrite lookup_insert_ne; [by apply Hs|]. intros <-. eapply (Hq (r ++ [name])); [by destruct r|done].
  - intros s y Hsn Hy Hl. destruct (decide (root ++ r ++ [name] = root ++ s ++ y)) as [E|E].
    + apply app_inv_head in E. apply Hk. destruct y as [|z y _] using rev_ind; [done|]. rewrite app_assoc in E. apply app_inj_tail in E as [E _]. by eapply Hd.
    + rewrite lookup_insert_ne in Hl by done. apply Hk. by eapply (sg_up _ _ Hs).
  - intros s n' Hsn. destruct (decide (root ++ r ++ [name] = root ++ s)) as [E|E].
    + apply app_inv_head in E. subst s. rewrite lookup_insert_eq. intros [= <-]. exists it, []. split; [done|]. rewrite app_nil_r. split; [done|]. split; [|done].
      apply elem_of_app. right. apply list_elem_of_here.
    + rewrite lookup_insert_ne by done. intros Hl. destruct (sg_node _ _ Hs s n' Hsn Hl) as (it' & x & Hx). exists it', x. by eapply explains_more.
Qed.
(** *** The phases *)

Lemma names_ok it rel : sanitize_item_path_into (item_path it) = Ok rel -> names it = Some (components rel).
Proof. unfold names. by intros ->. Qed.

(** Directories that have been checked are there. *)
Definition trusted (fs : FS) (verified : gset Path) : Prop := forall v, v ∈ verified -> exists r, v = root ++ r /\ dirs_to fs r.
Lemma dirs_to_kept fs fs' r : kept fs fs' -> dirs_to fs r -> dirs_to fs' r.
Proof. intros Hk Hd a x E Ha. by eapply Hk, Hd. Qed.
Lemma trusted_kept fs fs' verified : kept fs fs' -> trusted fs verified -> trusted fs' verified.
Proof. intros Hk Ht v Hv. destruct (Ht v Hv) as (r & -> & Hd). exists r. split; [done|]. by eapply dirs_to_kept. Qed.

(** The parent of an item: a trusted one, or made. *)
Lemma parent_staged made fs verified it r name fs' : Staged made fs -> trusted fs verified -> it ∈ L -> is_Some (stage_node it) -> names it = Some (r ++ [name]) ->
  (if bool_decide (removelast (root ++ r ++ [name]) ∈ verified) then Ok fs else ensure_parent_exists_within_root fs (root ++ r ++ [name]) root) = Ok fs' ->
  Staged made fs' /\ dirs_to fs' r /\ kept fs fs'.
Proof.
  intros Hs Ht Hit Hnode Hn. rewrite app_assoc, removelast_last. case_bool_decide as Hv.
  - intros [= <-]. destruct (Ht _ Hv) as (r' & E & Hd). apply app_inv_head in E as <-. split; [done|]. split; [done|]. by intros q n.
  - unfold ensure_parent_exists_within_root. rewrite <- app_assoc. destruct (root ++ r ++ [name]) as [|a l] eqn:E; [apply app_nil in E as [_ E]; by apply app_nil in E as [_ E]|]. rewrite <- E. cbv zeta. rewrite app_assoc, removelast_last.
    destruct (ensure_path_within_root fs (root ++ r) root); [|done]. cbn [mbind result_bind]. destruct (create_dir_all fs (root ++ r)) as [fs1|] eqn:Hc; [|done]. cbn [mbind result_bind].
    destruct (ensure_path_within_root fs1 (root ++ r) root); [|done]. cbn [mbind result_bind]. intros [= <-]. by apply (staged_create made fs r it [name]); [..|left|idtac|idtac|].
Qed.
Lemma parent_succeeds (made : list Item) (fs : FS) (verified : gset Path) (it : Item) (r : Path) (name : string) : Staged made fs -> it ∈ L -> is_Some (stage_node it) -> names it = Some (r ++ [name]) -> (length (root ++ r ++ [name]) < FS_FUEL)%nat ->
  exists fs', (if bool_decide (removelast (root ++ r ++ [name]) ∈ verified) then Ok fs else ensure_parent_exists_within_root fs (root ++ r ++ [name]) root) = Ok fs'.
Proof.
  intros Hs Hit Hnode Hn Hlen. case_bool_decide; [by eexists|]. destruct (create_succeeds made fs r it [name] Hs Hit Hn) as (fs' & H1 & H2 & H3); [by left|done|done| |].
  { eapply Nat.le_lt_trans; [|exact Hlen]. rewrite !length_app. lia. }
  exists fs'. unfold ensure_parent_exists_within_root. destruct (root ++ r ++ [name]) as [|a l] eqn:E; [apply app_nil in E as [_ E]; by apply app_nil in E as [_ E]|].
  rewrite <- E. cbv zeta. rewrite app_assoc, removelast_last, H1. cbn [mbind result_bind]. rewrite H2. cbn [mbind result_bind]. by rewrite H3.
Qed.

Record Streamed (made : list Item) (fs : FS) (verified : gset Path) : Prop := {
  st_staged : Staged made fs;
  st_trusted : trusted fs verified;
  st_made : forall it n r, it ∈ made -> stage_node it = Some n -> names it = Some r -> fs !! (root ++ r) = Some n;
}.

Context (include_path : string -> bool).
(** The items that are made while they are streamed. *)
Definition at_once (it : Item) : bool :=
  include_path (item_path it) && match entry_type it with Directory => true | Symlink => match link_target it with Some _ => true | None => false end | RegularFile => false end.

Lemma made_more made it fs fs' n0 r0 : (forall i n r, i ∈ made -> stage_node i = Some n -> names i = Some r -> fs !! (root ++ r) = Some n) -> kept fs fs' ->
  stage_node it = Some n0 -> names it = Some r0 -> fs' !! (root ++ r0) = Some n0 ->
  forall i n r, i ∈ made ++ [it] -> stage_node i = Some n -> names i = Some r -> fs' !! (root ++ r) = Some n.
Proof.
  intros Hm Hk Hn Hr Hl i n r [Hi|Hi%list_elem_of_singleton]%elem_of_app E1 E2; [by eapply Hk, Hm|]. subst i. congruence.
Qed.

Lemma stream_item_staged made it p p' : Streamed made (pl_fs p) (verified_dirs p) -> (include_path (item_path it) = true -> it ∈ L) ->
  (forall r, at_once it = true -> names it = Some r -> r ∉ omap names made) -> stream_item root include_path it p = (Ok tt, p') ->
  Streamed (made ++ if at_once it then [it] else []) (pl_fs p') (verified_dirs p').
Proof.
  intros Hp Hit Hnew. pose proof Hp as [Hs Ht Hm]. unfold stream_item, at_once in *. destruct (include_path (item_path it)) eqn:Hinc; cbn [negb andb] in *; [|intros [= <-]; by rewrite app_nil_r].
  specialize (Hit eq_refl). destruct (entry_type it) eqn:Hty.
  - destruct (sanitize_item_path_into (item_path it)); [|done]. destruct (plan_chunks _ _ _ _) as [[[off t]|] t2]; [|done]. intros [= <-]. rewrite app_nil_r. by split.
  - destruct (sanitize_item_path_into (item_path it)) as [rel|] eqn:Hrel; [|done]. apply names_ok in Hrel. set (r := components rel) in *.
    destruct (ensure_path_within_root (pl_fs p) (root ++ r) root); [|done]. destruct (create_dir_all (pl_fs p) (root ++ r)) as [fs|] eqn:Hc; [|done].
    destruct (ensure_path_within_root fs (root ++ r) root); [|done]. intros [= <-].
    assert (Hnode : stage_node it = Some NDir) by (unfold stage_node, node_with; by rewrite Hty). destruct (names_plain _ _ Hrel) as [Hr _].
    assert (Hs' : Staged (made ++ [it]) (pl_fs p)) by (eapply staged_more; [|exact Hs]; intros j Hj; apply elem_of_app; by left).
    destruct (staged_create (made ++ [it]) (pl_fs p) r it [] fs Hs' Hit) as (H1 & H2 & H3); [by rewrite app_nil_r|by right|by rewrite Hnode|intros _; apply elem_of_app; right; apply list_elem_of_here|done|].
    split; cbn [pl_fs verified_dirs]; [done| |].
    + intros v [->%elem_of_singleton|Hv]%elem_of_union; [by exists r|]. by apply (trusted_kept (pl_fs p) fs (verified_dirs p)).
    + eapply (made_more made it (pl_fs p) fs NDir r); [done|done|done|done|]. apply (H2 r []); [by rewrite app_nil_r|done].
  - destruct (link_target it) as [link|] eqn:Hlink; [|intros [= <-]; by rewrite app_nil_r].
    destruct (sanitize_item_path_into (item_path it)) as [rel|] eqn:Hrel; [|done]. apply names_ok in Hrel. destruct (names_plain _ _ Hrel) as [Hr _].
    destruct (components rel) as [|name r _] eqn:Ec using rev_ind; [done|].
    destruct (if bool_decide _ then _ else _) as [fs|] eqn:Hpar; [|done]. assert (Hnode : stage_node it = Some (NLink link)) by (unfold stage_node, node_with; by rewrite Hty, Hlink).
    destruct (parent_staged made (pl_fs p) (verified_dirs p) it r name fs Hs Ht Hit) as (H1 & H2 & H3); [by rewrite Hnode|done|done|].
    destruct (staged_literal made fs it r name H1 Hit Hrel H2) as [Hlit Hfree]; [by rewrite Hty|by apply Hnew|].
    assert (Hrem : remove_file fs (root ++ r ++ [name]) = fs).
    { unfold remove_file. destruct (parent_of fs _) as [q|] eqn:Eq; [|done]. apply literal_parent in Eq; [|done|by destruct root, r]. subst q. by rewrite Hfree. }
    cbv zeta. rewrite Hrem. unfold create_symlink. destruct (parent_of fs _) as [q|] eqn:Eq; [|done]. apply literal_parent in Eq; [|done|by destruct root, r]. subst q.
    destruct (is_node fs _); [done|]. intros [= <-]. destruct (staged_leaf made fs it r name (NLink link) H1 Hit Hrel H2 Hnode Hfree) as [H4 H5].
    split; cbn [pl_fs verified_dirs]; [done| |].
    + eapply trusted_kept; [exact H5|]. by eapply trusted_kept.
    + eapply (made_more made it fs); [|done|done|done|by rewrite lookup_insert_eq]. intros i n r' Hi E1 E2. by eapply H3, Hm.
Qed.

(** The path of an item that can be restored is not too long. *)
Definition fits (it : Item) : Prop := exists r, names it = Some r /\ (length (root ++ r) < FS_FUEL)%nat.
Lemma fits_ok it rel : fits it -> sanitize_item_path_into (item_path it) = Ok rel -> (length (root ++ components rel) < FS_FUEL)%nat.
Proof. intros (r & Hn & Hl) E%names_ok. rewrite Hn in E. by injection E as ->. Qed.
Lemma fits_sanitized it : fits it -> exists rel, sanitize_item_path_into (item_path it) = Ok rel.
Proof. intros (r & Hn & _). unfold names in Hn. destruct (sanitize_item_path_into (item_path it)) as [rel|]; [by exists rel|done]. Qed.
Lemma streamed_new : Streamed [] base {[root]}.
Proof.
  split; [by apply staged_new| |by intros ? ? ? ?%elem_of_nil]. intros v ->%elem_of_singleton. exists []. rewrite app_nil_r. split; [done|]. intros a x E Ha. by destruct a.
Qed.

Lemma stream_item_succeeds made it p : Streamed made (pl_fs p) (verified_dirs p) -> (include_path (item_path it) = true -> it ∈ L /\ fits it) ->
  (forall r, at_once it = true -> names it = Some r -> r ∉ omap names made) ->
  (is_file include_path it = true -> exists x t, plan_chunks (length (planned_files p)) (item_chunks it) 0 (chunk_targets p) = (Ok x, t)) ->
  exists p', stream_item root include_path it p = (Ok tt, p').
Proof.
  intros [Hs Ht Hm] Hit Hnew Hfile. unfold stream_item, at_once, is_file in *. destruct (include_path (item_path it)) eqn:Hinc; cbn [negb andb] in *; [|by eexists].
  destruct (Hit eq_refl) as [HL Hfit]. destruct (fits_sanitized it Hfit) as [rel Hrel]. pose proof (fits_ok it rel Hfit Hrel) as Hlen. destruct (entry_type it) eqn:Hty.
  - rewrite Hrel. destruct (Hfile eq_refl) as ([off t] & t2 & ->). by eexists.
  - rewrite Hrel. apply names_ok in Hrel. assert (Hs' : Staged (made ++ [it]) (pl_fs p)) by (eapply staged_more; [|exact Hs]; intros j Hj; apply elem_of_app; by left).
    destruct (create_succeeds (made ++ [it]) (pl_fs p) (components rel) it [] Hs' HL) as (fs' & H1 & H2 & H3);
      [by rewrite app_nil_r|by right|unfold stage_node, node_with; by rewrite Hty|intros _; apply elem_of_app; right; apply list_elem_of_here|exact Hlen|].
    cbv zeta. rewrite H1, H2, H3. by eexists.
  - destruct (link_target it) as [link|] eqn:Hlink; [|by eexists]. rewrite Hrel. apply names_ok in Hrel. destruct (names_plain _ _ Hrel) as [Hr _].
    destruct (components rel) as [|name r _] eqn:Ec using rev_ind; [done|]. cbv zeta. assert (Hnode : stage_node it = Some (NLink link)) by (unfold stage_node, node_with; by rewrite Hty, Hlink).
    destruct (parent_succeeds made (pl_fs p) (verified_dirs p) it r name Hs HL) as [fs Hpar]; [by rewrite Hnode|done|exact Hlen|]. rewrite Hpar.
    destruct (parent_staged made (pl_fs p) (verified_dirs p) it r name fs Hs Ht HL) as (H1 & H2 & H3); [by rewrite Hnode|done|done|].
    destruct (staged_literal made fs it r name H1 HL Hrel H2) as [Hlit Hfree]; [by rewrite Hty|by apply Hnew|].
    assert (Hne : root ++ r ++ [name] <> []) by (by destruct root, r).
    unfold remove_file, create_symlink. rewrite (literal_parent_found fs _ Hlit Hne Hlen), Hfree, (literal_parent_found fs _ Hlit Hne Hlen).
    replace (is_node fs (root ++ r ++ [name])) with false; [by eexists|]. unfold is_node. destruct (root ++ r ++ [name]); [done|]. by rewrite Hfree.
Qed.

Lemma visit_staged items : forall made p p', Streamed made (pl_fs p) (verified_dirs p) -> (forall it, it ∈ items -> include_path (item_path it) = true -> it ∈ L) ->
  NoDup (omap names (made ++ List.filter at_once items)) -> visit_all (stream_item root include_path) items p = (Ok tt, p') ->
  Streamed (made ++ List.filter at_once items) (pl_fs p') (verified_dirs p').
Proof.
  induction items as [|it items IH]; intros made p p' Hp Hit Hnd; cbn [visit_all List.filter]; [intros [= <-]; by rewrite app_nil_r|].
  destruct (stream_item _ _ it p) as [[[]|] p1] eqn:Hst; [|done]. intros Hv.
  assert (Hp1 : Streamed (made ++ if at_once it then [it] else []) (pl_fs p1) (verified_dirs p1)).
  { apply (stream_item_staged made it p); [done|apply Hit, list_elem_of_here| |done]. intros r Ha Hn. cbn [List.filter] in Hnd. rewrite Ha, omap_app in Hnd.
    apply NoDup_app in Hnd as (_ & Hnd & _). intros Hr. apply (Hnd r Hr), list_elem_of_omap. exists it. split; [apply list_elem_of_here|done]. }
  cbn [List.filter] in Hnd. destruct (at_once it).
  - rewrite cons_middle, app_assoc in Hnd. rewrite cons_middle, app_assoc. apply (IH _ p1); [done|intros i Hi; apply Hit; by right|done|done].
  - rewrite app_nil_r in Hp1. apply (IH _ p1); [done|intros i Hi; apply Hit; by right|done|done].
Qed.

(** Phase 3. *)
Context (contents : Item -> bytes).
Definition planned (it : Item) (pf : PlannedFile) : Prop := sanitize_item_path_into (item_path it) = Ok (rel_path pf) /\ total_size pf = blen (contents it).
Definition is_empty (it : Item) : bool := blen (contents it) =? 0.
Lemma file_node it : entry_type it = RegularFile -> stage_node it = Some (NFile []).
Proof. unfold stage_node, node_with. by intros ->. Qed.

(** One planned file: its parent is there, and when it is empty it is made. *)
Lemma create_file_staged verified made it pf fs fs1 fs' : Streamed made fs verified -> planned it pf -> it ∈ L -> entry_type it = RegularFile ->
  (forall r, names it = Some r -> r ∉ omap names made) ->
  (if bool_decide (removelast (root ++ components (rel_path pf)) ∈ verified) then Ok fs
   else ensure_parent_exists_within_root fs (root ++ components (rel_path pf)) root) = Ok fs1 ->
  (if total_size pf =? 0 then x ← open_file fs1 (root ++ components (rel_path pf)); Ok (<[x.1 := NFile []]> x.2) else Ok fs1) = Ok fs' ->
  Streamed (made ++ if is_empty it then [it] else []) fs' verified /\ kept fs fs' /\ forall r name, names it = Some (r ++ [name]) -> dirs_to fs' r.
Proof.
  intros [Hs Ht Hm] [Hrel%names_ok Hsz] Hit Hty Hnew. pose proof (file_node it Hty) as Hnode. destruct (names_plain _ _ Hrel) as [Hr _].
  destruct (components (rel_path pf)) as [|name r _] eqn:Ec using rev_ind; [done|]. intros Hpar Hopen.
  destruct (parent_staged made fs verified it r name fs1 Hs Ht Hit) as (H1 & H2 & H3); [by rewrite Hnode|done|done|].
  destruct (staged_literal made fs1 it r name H1 Hit Hrel H2) as [Hlit Hfree]; [by rewrite Hty|by apply Hnew|].
  assert (Hpar' : forall fs2, kept fs1 fs2 -> forall r' name', names it = Some (r' ++ [name']) -> dirs_to fs2 r').
  { intros fs2 Hk r' name' E. rewrite Hrel in E. injection E as E. apply app_inj_tail in E as [<- _]. by eapply dirs_to_kept. }
  unfold is_empty. rewrite <- Hsz. destruct (total_size pf =? 0).
  - destruct (open_file fs1 (root ++ r ++ [name])) as [x|] eqn:Ex; [|done]. cbn [mbind result_bind] in Hopen. injection Hopen as <-.
    apply literal_open in Ex as ->; [|done|by destruct root, r|done]. cbn [fst snd]. rewrite insert_insert_eq.
    destruct (staged_leaf made fs1 it r name (NFile []) H1 Hit Hrel H2 Hnode Hfree) as [H4 H5].
    split; [split; [done|eapply trusted_kept; [exact H5|]; by eapply trusted_kept|]|split; [|by apply Hpar']].
    + eapply (made_more made it fs1); [|done|done|done|by rewrite lookup_insert_eq]. intros i n r' Hi E1 E2. by eapply H3, Hm.
    + intros q n Hq. by apply H5, H3.
  - injection Hopen as <-. rewrite app_nil_r. split; [split; [done|by eapply trusted_kept|]|split; [done|by apply (Hpar' fs1 (fun q n H => H))]]. intros i n r' Hi E1 E2. by eapply H3, Hm.
Qed.

Lemma create_files_staged verified F : forall files made fs fs', Streamed made fs verified -> Forall2 planned F files ->
  (forall it, it ∈ F -> it ∈ L /\ entry_type it = RegularFile) -> NoDup (omap names (made ++ F)) -> create_files root verified files fs = Ok fs' ->
  Streamed (made ++ List.filter is_empty F) fs' verified /\ kept fs fs' /\ forall it r name, it ∈ F -> names it = Some (r ++ [name]) -> dirs_to fs' r.
Proof.
  induction F as [|it F IH]; intros files made fs fs' Hs Hf HF Hnd Hc.
  { apply Forall2_nil_inv_l in Hf as ->. injection Hc as <-. cbn [List.filter]. rewrite app_nil_r. split; [done|]. split; [by intros q n|]. by intros it r name ?%elem_of_nil. }
  apply Forall2_cons_inv_l in Hf as (pf & files' & Hpf & Hf & ->). cbn [create_files] in Hc. destruct (HF it) as [Hit Hty]; [apply list_elem_of_here|].
  destruct (if bool_decide _ then _ else _) as [fs1|] eqn:H1; [|done]. cbn [mbind result_bind] in Hc.
  destruct (if total_size pf =? 0 then _ else _) as [fs2|] eqn:H2 in Hc; [|done]. cbn [mbind result_bind] in Hc.
  assert (Hnew : forall r, names it = Some r -> r ∉ omap names made).
  { intros r Hn Hr. rewrite omap_app in Hnd. apply NoDup_app in Hnd as (_ & Hnd & _). apply (Hnd r Hr), list_elem_of_omap. exists it. split; [apply list_elem_of_here|done]. }
  destruct (create_file_staged verified made it pf fs fs1 fs2 Hs Hpf Hit Hty Hnew H1 H2) as (G1 & G2 & G3).
  destruct (IH files' (made ++ if is_empty it then [it] else []) fs2 fs') as (K1 & K2 & K3); [done|done|intros i Hi; apply HF; by right| |done|].
  - by apply NoDup_one_more.
  - split; [|split].
    + cbn [List.filter]. rewrite <- app_assoc in K1. by destruct (is_empty it).
    + intros q n Hq. by apply K2, G2.
    + intros i r name [->|Hi]%elem_of_cons Hn; [eapply dirs_to_kept; [exact K2|by eapply G3]|by eapply K3].
Qed.

Lemma create_files_succeeds (verified : gset Path) (F : list Item) : forall files made fs, Streamed made fs verified -> Forall2 planned F files ->
  (forall it, it ∈ F -> it ∈ L /\ entry_type it = RegularFile /\ fits it) -> NoDup (omap names (made ++ F)) -> exists fs', create_files root verified files fs = Ok fs'.
Proof.
  induction F as [|it F IH]; intros files made fs Hs Hf HF Hnd; [apply Forall2_nil_inv_l in Hf as ->; by eexists|].
  apply Forall2_cons_inv_l in Hf as (pf & files' & Hpf & Hf & ->). cbn [create_files]. destruct (HF it) as (Hit & Hty & Hfit); [apply list_elem_of_here|].
  assert (Hnew : forall r, names it = Some r -> r ∉ omap names made).
  { intros r Hn Hr. rewrite omap_app in Hnd. apply NoDup_app in Hnd as (_ & Hnd & _). apply (Hnd r Hr), list_elem_of_omap. exists it. split; [apply list_elem_of_here|done]. }
  assert (Hfs2 : exists fs1 fs2, (if bool_decide (removelast (root ++ components (rel_path pf)) ∈ verified) then Ok fs
      else ensure_parent_exists_within_root fs (root ++ components (rel_path pf)) root) = Ok fs1 /\
    (if total_size pf =? 0 then x ← open_file fs1 (root ++ components (rel_path pf)); Ok (<[x.1 := NFile []]> x.2) else Ok fs1) = Ok fs2).
  { destruct Hpf as [Hrel _]. pose proof (fits_ok it _ Hfit Hrel) as Hlen. apply names_ok in Hrel. destruct (names_plain _ _ Hrel) as [Hr _]. destruct Hs as [Hs Ht _].
    destruct (components (rel_path pf)) as [|name r _] eqn:Ec using rev_ind; [done|]. pose proof (file_node it Hty) as Hnode.
    destruct (parent_succeeds made fs verified it r name Hs Hit) as [fs1 Hpar]; [by rewrite Hnode|done|exact Hlen|]. exists fs1. rewrite Hpar.
    destruct (total_size pf =? 0); [|by eexists].
    destruct (parent_staged made fs verified it r name fs1 Hs Ht Hit) as (H1 & H2 & H3); [by rewrite Hnode|done|done|].
    destruct (staged_literal made fs1 it r name H1 Hit Hrel H2) as [Hlit Hfree]; [by rewrite Hty|by apply Hnew|].
    destruct (literal_open_found fs1 _ Hlit Hfree Hlen) as [x ->]; [by destruct root, r|]. by eexists. }
  destruct Hfs2 as (fs1 & fs2 & H1 & H2). rewrite H1. cbn [mbind result_bind]. rewrite H2. cbn [mbind result_bind].
  destruct (create_file_staged verified made it pf fs fs1 fs2 Hs Hpf Hit Hty Hnew H1 H2) as (G1 & _ & _).
  apply (IH files' _ fs2 G1 Hf); [intros i Hi; apply HF; by right|]. by apply NoDup_one_more.
Qed.
End Tree.

(** ** The whole restore *)

Lemma NoDup_omap_filter {A B} (f : A -> option B) (P Q : A -> bool) l : (forall x, P x = true -> Q x = true) -> NoDup (omap f (List.filter Q l)) -> NoDup (omap f (List.filter P l)).
Proof.
  intros HPQ. induction l as [|x l IH]; [done|]. cbn [List.filter]. intros Hnd.
  assert (Hsub : forall y, y ∈ omap f (List.filter P l) -> y ∈ omap f (List.filter Q l)).
  { intros y (z & Hz & Hy)%list_elem_of_omap. apply list_elem_of_omap. exists z. split; [|done]. apply list_elem_of_In, filter_In. apply list_elem_of_In, filter_In in Hz as [? ?]. auto. }
  destruct (Q x) eqn:HQ.
  - cbn [omap list_omap] in Hnd. destruct (f x) as [y|] eqn:Hy.
    + apply NoDup_cons in Hnd as [Hn Hnd]. destruct (P x); [|by apply IH]. cbn [omap list_omap]. rewrite Hy. apply NoDup_cons. split; [|by apply IH]. intros Hin. by apply Hn, Hsub.
    + destruct (P x); [|by apply IH]. cbn [omap list_omap]. rewrite Hy. by apply IH.
  - destruct (P x) eqn:HP; [|by apply IH]. apply HPQ in HP. congruence.
Qed.
Lemma filter_or {A} (P Q : A -> bool) l : (forall x, P x = true -> Q x = false) -> List.filter P l ++ List.filter Q l ≡ₚ List.filter (fun x => P x || Q x) l.
Proof.
  intros Hd. induction l as [|x l IH]; [done|]. cbn [List.filter]. destruct (P x) eqn:HP; cbn [orb].
  - rewrite (Hd x HP). cbn [app]. by rewrite IH.
  - destruct (Q x); [|done]. by rewrite <- Permutation_middle, IH.
Qed.
Lemma same_position F i j a b r : NoDup (omap names F) -> F !! i = Some a -> F !! j = Some b -> names a = Some r -> names b = Some r -> i = j.
Proof.
  revert i j. induction F as [|x F IH]; intros i j Hnd Ha Hb Na Nb; [done|]. cbn [omap list_omap] in Hnd.
  assert (Hin : forall k y, F !! k = Some y -> names y = Some r -> r ∈ omap names F) by (intros k y Hk Hy; apply list_elem_of_omap; exists y; split; [by eapply list_elem_of_lookup_2|done]).
  destruct i as [|i], j as [|j]; cbn in Ha, Hb; [done| | |].
  - injection Ha as ->. rewrite Na in Hnd. apply NoDup_cons in Hnd as [Hn _]. destruct Hn. by eapply Hin.
  - injection Hb as ->. rewrite Nb in Hnd. apply NoDup_cons in Hnd as [Hn _]. destruct Hn. by eapply Hin.
  - f_equal. apply IH; [|done..]. destruct (names x); [by apply NoDup_cons in Hnd as [_ ?]|done].
Qed.

(** What is at a path below the destination: what the item of this path
    becomes, or a directory above such an item. *)
Definition tree_node (contents : Item -> bytes) (L : list Item) (r : Path) (n : Node) : Prop :=
  exists it x, it ∈ L /\ names it = Some (r ++ x) /\ match x with [] => node_with contents it = Some n | _ => n = NDir /\ is_Some (node_with contents it) end.

Section Final.
Context `{Hitems : ItemStream} (root : Path) (base : FS) (include_path : string -> bool) (items : list Item) (contents : Item -> bytes).
#[local] Abbreviation L := (List.filter (fun it => include_path (item_path it)) items).
#[local] Abbreviation F := (List.filter (is_file include_path) items).
Context (Hroot : empty_dir root base) (Htree : tree_items L) (Hdeep : forall it r, it ∈ F -> names it = Some r -> (length (root ++ r) < FS_FUEL)%nat).

Lemma included_file it : it ∈ F <-> it ∈ L /\ entry_type it = RegularFile.
Proof.
  rewrite !list_elem_of_In, !filter_In. unfold is_file. destruct (entry_type it); [|by split; intros [? ?]..]. by split; [intros [? ?]|intros [[? ?] _]].
Qed.
Lemma at_once_item it : at_once include_path it = true -> it ∈ items -> it ∈ L /\ entry_type it <> RegularFile.
Proof. unfold at_once. intros [Hi Ht]%andb_true_iff Hit. split; [by apply list_elem_of_In, filter_In; split; [apply list_elem_of_In|]|]. by destruct (entry_type it). Qed.
Lemma made_at_once it : it ∈ L -> entry_type it <> RegularFile -> is_Some (node_with contents it) -> it ∈ List.filter (at_once include_path) items.
Proof.
  rewrite !list_elem_of_In, !filter_In. intros [Hit Hinc] Hty [n Hn]. split; [done|]. unfold at_once. rewrite Hinc. unfold node_with in Hn. destruct (entry_type it); [done..|]. by destruct (link_target it).
Qed.
Lemma parts_distinct : NoDup (omap names (List.filter (at_once include_path) items ++ F)).
Proof.
  rewrite (filter_or (at_once include_path) (is_file include_path)).
  - eapply NoDup_omap_filter; [|exact (ti_distinct _ Htree)]. intros it. unfold at_once, is_file. destruct (include_path (item_path it)); [done|]. by destruct (entry_type it).
  - intros it. unfold at_once, is_file. destruct (entry_type it); [|done..]. by rewrite andb_false_r.
Qed.

(** What the first phases leave: all that the items explain but for the files
    that are not empty. *)
Record ready (files : list PlannedFile) (fs0 : FS) : Prop := {
  rd_staged : Staged root base L (List.filter (at_once include_path) items ++ List.filter (is_empty contents) F) fs0;
  rd_made : forall it n r, it ∈ List.filter (at_once include_path) items ++ List.filter (is_empty contents) F -> stage_node it = Some n -> names it = Some r ->
    fs0 !! (root ++ r) = Some n;
  rd_parents : forall it r name, it ∈ F -> names it = Some (r ++ [name]) -> dirs_to root fs0 r;
}.
Lemma plan_ready ix stream files groups fs0 stats : decode_items_stream stream = Ok items -> Forall2 (planned contents) F files ->
  plan_restore ix stream root include_path base = Ok (files, groups, fs0, stats) -> ready files fs0.
Proof.
  intros Hd Hf. unfold plan_restore, stream_and_plan. rewrite (for_each_visits _ _ _ _ Hd). destruct (visit_all _ _ _) as [[[]|] p] eqn:Hv; [|done]. cbn [mbind result_bind].
  apply (visit_staged root base L Hroot Htree include_path items []) in Hv.
  - cbn [app] in Hv. destruct (planned_files p) as [|pf pfs].
    + intros [= <- _ <- _]. apply Forall2_nil_inv_r in Hf. split; rewrite ?Hf, ?app_nil_r; [apply Hv..|by intros ? ? ? ?%elem_of_nil].
    + destruct (if bool_decide _ then _ else _) as [gs|]; [|done]. cbn [mbind result_bind]. destruct (create_files _ _ _ _) as [fs1|] eqn:Hc; [|done]. cbn [mbind result_bind].
      intros [= <- _ <- _]. destruct (create_files_staged root base L Hroot Htree contents (verified_dirs p) F _ _ _ fs1 Hv Hf) as (H1 & _ & H3);
        [intros it; apply included_file|exact parts_distinct|exact Hc|]. split; [apply H1..|exact H3].
  - by apply streamed_new.
  - intros it Hit Hinc. apply list_elem_of_In, filter_In. split; [by apply list_elem_of_In|done].
  - pose proof parts_distinct as Hnd. rewrite omap_app in Hnd. by apply NoDup_app in Hnd as [? _].
Qed.

Definition place (files : list PlannedFile) (i : nat) : Path := root ++ from_option (fun pf => components (rel_path pf)) [] (files !! i).
Lemma planned_item files i pf : Forall2 (planned contents) F files -> files !! i = Some pf ->
  exists it, F !! i = Some it /\ names it = Some (components (rel_path pf)) /\ total_size pf = blen (contents it) /\ place files i = root ++ components (rel_path pf).
Proof.
  intros Hf Hi. destruct (Forall2_lookup_r _ _ _ _ _ Hf Hi) as (it & Hit & Hn%names_ok & Hsz). exists it. split; [done|]. split; [done|]. split; [done|]. unfold place. by rewrite Hi.
Qed.

(** An empty file has been made, another one not. *)
Lemma ready_file files fs0 it r : ready files fs0 -> it ∈ F -> names it = Some r -> fs0 !! (root ++ r) = if is_empty contents it then Some (NFile []) else None.
Proof.
  intros Hr Hit Hn. destruct (proj1 (included_file it) Hit) as [HL Hty]. destruct (is_empty contents it) eqn:He.
  - apply (rd_made _ _ Hr it); [|by apply file_node|done]. apply elem_of_app. right. apply list_elem_of_In, filter_In. split; [by apply list_elem_of_In|done].
  - eapply (staged_free root base L Htree _ fs0 it r (rd_staged _ _ Hr) HL Hn); [by rewrite Hty|]. intros (it' & Hin & Hn')%list_elem_of_omap. apply elem_of_app in Hin as [Hin|Hin].
    + apply list_elem_of_In, filter_In in Hin as [Hin Ho]. destruct (at_once_item _ Ho) as [HL' Hty']; [by apply list_elem_of_In|].
      apply Hty'. by rewrite (same_names _ _ _ _ (ti_distinct _ Htree) HL' HL Hn' Hn).
    + apply list_elem_of_In, filter_In in Hin as [Hin He']. apply list_elem_of_In, included_file in Hin as [HL' _].
      rewrite (same_names _ _ _ _ (ti_distinct _ Htree) HL' HL Hn' Hn) in He'. congruence.
Qed.
Lemma ready_placed files fs0 : ready files fs0 -> Forall2 (planned contents) F files -> placed root files (place files) fs0.
Proof.
  intros Hr Hf. split.
  - intros i pf Hi. destruct (planned_item files i pf Hf Hi) as (it & Hit & Hn & Hsz & ->). apply list_elem_of_lookup_2 in Hit. destruct (names_plain _ _ Hn) as [Hne Hp].
    pose proof (ready_file files fs0 it _ Hr Hit Hn) as Hfile. split; [|split; [by destruct root|unfold is_empty in Hfile; by rewrite Hsz]].
    set (r := components (rel_path pf)) in *. apply (resolve_reaches fs0 FS_FUEL []).
    + apply Forall_app. split; [apply Hroot|done].
    + intros a x E Ha Hx. cbn [app]. destruct r as [|name r' _] using rev_ind; [done|]. destruct x as [|y x _] using rev_ind; [done|].
      rewrite !app_assoc in E. apply app_inj_tail in E as [E _].
      eapply (dirs_to_above root base L Hroot _ fs0 r' (rd_staged _ _ Hr)); [|exact E|exact Ha]. by eapply (rd_parents _ _ Hr it).
    + intros t _ E. cbn [app] in E. rewrite Hfile in E. by destruct (is_empty contents it).
    + by eapply Hdeep.
  - intros i j [pf Hi] [pf' Hj] E. destruct (planned_item files i pf Hf Hi) as (it & Hit & Hn & _ & E1). destruct (planned_item files j pf' Hf Hj) as (it' & Hit' & Hn' & _ & E2).
    rewrite E1, E2 in E. apply app_inv_head in E. rewrite <- E in Hn'. pose proof parts_distinct as Hnd. rewrite omap_app in Hnd. apply NoDup_app in Hnd as (_ & _ & Hnd).
    by eapply same_position.
Qed.

(** The files that the threads have written complete the tree. *)
Section Written.
Context (files : list PlannedFile) (fs0 fs1 : FS) (Hr : ready files fs0) (Hf : Forall2 (planned contents) F files).
Context (Hfile : forall i it, F !! i = Some it -> fs1 !! place files i = Some (NFile (contents it))).
Context (Hsame : forall q, (forall i, is_Some (files !! i) -> q <> place files i) -> fs1 !! q = fs0 !! q).

Lemma written_file it r : it ∈ F -> names it = Some r -> fs1 !! (root ++ r) = Some (NFile (contents it)).
Proof using Hfile Hf.
  intros [i Hi]%list_elem_of_lookup_1 Hn. destruct (Forall2_lookup_l _ _ _ _ _ Hf Hi) as (pf & Hpf & _). destruct (planned_item files i pf Hf Hpf) as (it' & Hi' & Hn' & _ & E).
  rewrite Hi in Hi'. injection Hi' as <-. rewrite Hn in Hn'. injection Hn' as ->. rewrite <- E. by apply Hfile.
Qed.
Lemma unwritten q : (forall it r, it ∈ F -> names it = Some r -> q <> root ++ r) -> fs1 !! q = fs0 !! q.
Proof using Hsame Hf.
  intros Hq. apply Hsame. intros i [pf Hi]. destruct (planned_item files i pf Hf Hi) as (it & Hit & Hn & _ & ->). apply (Hq it); [by eapply list_elem_of_lookup_2|done].
Qed.
Lemma has_node it : is_Some (stage_node it) <-> is_Some (node_with contents it).
Proof. unfold stage_node, node_with. by destruct (entry_type it). Qed.
Lemma other_node it : entry_type it <> RegularFile -> stage_node it = node_with contents it.
Proof. unfold stage_node, node_with. by destruct (entry_type it). Qed.

Lemma tree_made r n : r <> [] -> fs1 !! (root ++ r) = Some n -> tree_node contents L r n.
Proof using Hr Hf Hfile Hsame Htree.
  intros Hne Hl. destruct (decide (Exists (fun it => names it = Some r) F)) as [(it & Hit & Hn)%Exists_exists|Hno].
  - rewrite (written_file it r Hit Hn) in Hl. injection Hl as <-. exists it, []. rewrite app_nil_r. apply included_file in Hit as [HL Hty]. split; [done|]. split; [done|].
    unfold node_with. by rewrite Hty.
  - rewrite unwritten in Hl.
    + destruct (sg_node _ _ _ _ _ (rd_staged _ _ Hr) r n Hne Hl) as (it & x & HL & Hn & Hx). exists it, x. split; [done|]. split; [done|].
      destruct x as [|a x]; [|by rewrite <- has_node]. destruct Hx as [Hm Hx]. rewrite app_nil_r in Hn. rewrite <- other_node; [done|]. intros Hty. apply Hno, Exists_exists.
      exists it. split; [by apply included_file|done].
    + intros it r' Hit Hn E. apply app_inv_head in E as <-. apply Hno, Exists_exists. by exists it.
Qed.
Lemma made_tree r n : r <> [] -> tree_node contents L r n -> fs1 !! (root ++ r) = Some n.
Proof using Hr Hf Hfile Hsame Htree.
  intros Hne (it & x & HL & Hn & Hx). destruct x as [|a x].
  - rewrite app_nil_r in Hn. destruct (decide (entry_type it = RegularFile)) as [Hty|Hty].
    + unfold node_with in Hx. rewrite Hty in Hx. injection Hx as <-. apply written_file; [by apply included_file|done].
    + rewrite unwritten.
      * apply (rd_made _ _ Hr it); [|by rewrite other_node|done]. apply elem_of_app. left. by apply made_at_once.
      * intros it' r' Hit' Hn' E. apply app_inv_head in E as <-. apply included_file in Hit' as [HL' Hty']. apply Hty.
        by rewrite (same_names _ _ _ _ (ti_distinct _ Htree) HL HL' Hn Hn').
  - destruct Hx as [-> Hnode]. assert (Hd : fs0 !! (root ++ r) = Some NDir).
    { destruct (decide (entry_type it = RegularFile)) as [Hty|Hty].
      - destruct (a :: x) as [|name x' _] eqn:Ex using rev_ind; [done|]. rewrite app_assoc in Hn. eapply (rd_parents _ _ Hr it); [by apply included_file|exact Hn|done|done].
      - rewrite <- has_node in Hnode. destruct Hnode as [m Hm]. apply (sg_up _ _ _ _ _ (rd_staged _ _ Hr) r (a :: x)); [done|done|]. exists m.
        apply (rd_made _ _ Hr it); [|done|done]. apply elem_of_app. left. apply made_at_once; [done|done|]. by rewrite <- other_node, Hm. }
    rewrite unwritten; [done|]. intros it' r' Hit' Hn' E. apply app_inv_head in E as <-. rewrite (ready_file files fs0 it' r Hr Hit' Hn') in Hd. by destruct (is_empty contents it').
Qed.
Lemma outside_kept q : (forall r, r <> [] -> q <> root ++ r) -> fs1 !! q = base !! q.
Proof using Hr Hf Hsame.
  intros Hq. rewrite unwritten; [by apply (sg_base _ _ _ _ _ (rd_staged _ _ Hr))|]. intros it r Hit Hn. apply Hq. by destruct (names_plain _ _ Hn).
Qed.
End Written.
End Final.

Lemma fits_deep root (include_path : string -> bool) items : (forall it, it ∈ List.filter (fun it => include_path (item_path it)) items -> fits root it) ->
  forall it r, it ∈ List.filter (is_file include_path) items -> names it = Some r -> (length (root ++ r) < FS_FUEL)%nat.
Proof. intros Hfits it r [Hit _]%included_file Hn. destruct (Hfits it Hit) as (r' & Hn' & Hl). rewrite Hn in Hn'. by injection Hn' as ->. Qed.

(** ** The plan succeeds *)

Section Succeeds.
Context `{Hitems : ItemStream} (plain : ChunkId -> bytes) (root : Path) (base : FS) (include_path : string -> bool) (items : list Item) (ix : ChunkIndex).
#[local] Abbreviation L := (List.filter (fun it => include_path (item_path it)) items).
#[local] Abbreviation F := (List.filter (is_file include_path) items).
Context (Hroot : empty_dir root base) (Htree : tree_items L) (Hfits : forall it, it ∈ L -> fits root it).
Context (Htotal : sum_Z (fun it => blen (file_contents plain it)) F < u64_modulus) (Hsized : forall it, it ∈ F -> sized plain it).
Context (Hindex : forall it r, it ∈ F -> r ∈ item_chunks it -> is_Some (ix !! ref_id r)).

Definition sizes_ok (t : gmap ChunkId ChunkTargets) : Prop := forall id ct, t !! id = Some ct -> expected_size ct = blen (plain id).
Lemma plan_chunks_succeeds idx refs : forall off t, Forall (fun r => ref_size r = blen (plain (ref_id r))) refs -> sizes_ok t ->
  exists off' t', plan_chunks idx refs off t = (Ok (off', t'), t') /\ sizes_ok t'.
Proof.
  induction refs as [|r refs IH]; intros off t Hr Ht; cbn [plan_chunks]; [by exists off, t|]. apply Forall_cons in Hr as [Hr Hrs]. cbv zeta.
  set (en := default _ _). assert (Hen : expected_size en = ref_size r).
  { unfold en. destruct (t !! ref_id r) as [ct|] eqn:E; [|done]. rewrite Hr. exact (Ht _ _ E). }
  rewrite Hen, Z.eqb_refl. cbn [negb]. apply IH; [done|]. rewrite insert_insert_eq. intros id ct [[<- <-]|[_ Hl]]%lookup_insert_Some; [cbn [expected_size]; congruence|by apply Ht].
Qed.
Lemma stream_item_sizes it p p' : (is_file include_path it = true -> sized plain it) -> sizes_ok (chunk_targets p) -> stream_item root include_path it p = (Ok tt, p') -> sizes_ok (chunk_targets p').
Proof.
  intros Hs Hp Hst. destruct (is_file include_path it) eqn:Hf; [|by destruct (stream_item_other root include_path it p p' Hf Hst) as [_ ->]].
  unfold stream_item, is_file in *. destruct (entry_type it); [|done..]. rewrite Hf in Hst. cbn [negb] in Hst. destruct (sanitize_item_path_into (item_path it)); [|done].
  destruct (plan_chunks_succeeds (length (planned_files p)) (item_chunks it) 0 (chunk_targets p) (Hs eq_refl) Hp) as (off & t & E & Ht). rewrite E in Hst. by injection Hst as <-.
Qed.

Lemma visit_succeeds its : forall made p, Streamed root base L made (pl_fs p) (verified_dirs p) -> sizes_ok (chunk_targets p) -> (forall it, it ∈ its -> it ∈ items) ->
  NoDup (omap names (made ++ List.filter (at_once include_path) its)) -> exists p', visit_all (stream_item root include_path) its p = (Ok tt, p').
Proof using All.
  induction its as [|it its IH]; intros made p Hp Hsz Hin Hnd; cbn [visit_all]; [by eexists|].
  assert (Hit : include_path (item_path it) = true -> it ∈ L).
  { intros Hinc. apply list_elem_of_In, filter_In. split; [apply list_elem_of_In, Hin, list_elem_of_here|done]. }
  assert (Hs : is_file include_path it = true -> sized plain it).
  { intros Hf. apply Hsized, list_elem_of_In, filter_In. split; [apply list_elem_of_In, Hin, list_elem_of_here|done]. }
  assert (Hnew : forall r, at_once include_path it = true -> names it = Some r -> r ∉ omap names made).
  { intros r Ha Hn Hr. cbn [List.filter] in Hnd. rewrite Ha, omap_app in Hnd. apply NoDup_app in Hnd as (_ & Hnd & _). apply (Hnd r Hr), list_elem_of_omap. exists it. split; [apply list_elem_of_here|done]. }
  destruct (stream_item_succeeds root base L Hroot Htree include_path made it p Hp) as [p1 Hst]; [intros Hinc; split; [by apply Hit|by apply Hfits, Hit]|done| |].
  { intros Hf. destruct (plan_chunks_succeeds (length (planned_files p)) (item_chunks it) 0 (chunk_targets p) (Hs Hf) Hsz) as (off & t & E & _). by eexists _, _. }
  rewrite Hst. apply (IH (made ++ if at_once include_path it then [it] else []) p1).
  - by apply (stream_item_staged root base L Hroot Htree include_path made it p p1).
  - by eapply stream_item_sizes.
  - intros i Hi. apply Hin. by right.
  - cbn [List.filter] in Hnd. destruct (at_once include_path it); [by rewrite cons_middle, app_assoc in Hnd|by rewrite app_nil_r].
Qed.

Lemma locate_succeeds lookup l : forall m, (forall id ct, (id, ct) ∈ l -> is_Some (lookup id)) -> exists m', locate_blobs lookup l m = Ok m'.
Proof.
  induction l as [|[id ct] l IH]; intros m Hl; cbn [locate_blobs]; [by eexists|]. destruct (Hl id ct) as [[[p off] size] ->]; [apply list_elem_of_here|]. apply IH. intros i c Hi. apply (Hl i c). by right.
Qed.
Lemma groups_succeed t : from_files include_path items t -> exists groups, build_read_groups_via_index ix t = Ok groups.
Proof using Hindex.
  intros Ht. unfold build_read_groups_via_index, build_read_groups. edestruct (locate_succeeds (index_lookup (filter (fun kv => is_Some (t !! kv.1)) ix)) (map_to_list t) ∅) as [m ->]; [|by eexists].
  intros id ct Hid%elem_of_map_to_list. destruct (Ht id (mk_is_Some _ _ Hid)) as (it & r & Hit & Hr & <-). destruct (Hindex it r Hit Hr) as [en Hen].
  assert (E : filter (fun kv => is_Some (t !! kv.1)) ix !! ref_id r = Some en) by (apply map_lookup_filter_Some; split; [done|by eexists]).
  unfold index_lookup. rewrite E. by eexists.
Qed.

Lemma plan_succeeds stream : decode_items_stream stream = Ok items -> exists files groups fs0 stats, plan_restore ix stream root include_path base = Ok (files, groups, fs0, stats).
Proof using All.
  intros Hd. assert (Hnd : NoDup (omap names (List.filter (at_once include_path) items))).
  { pose proof (parts_distinct include_path items Htree) as Hnd. rewrite omap_app in Hnd. by apply NoDup_app in Hnd as [? _]. }
  set (p0 := mkPlan base [] ∅ (mkRestoreStats 0 0 0 0) {[root]}). assert (Hp0 : Streamed root base L [] (pl_fs p0) (verified_dirs p0)) by (by apply streamed_new).
  destruct (visit_succeeds items [] p0 Hp0) as [p Hv]; [intros id ct H; cbn [p0 chunk_targets] in H; by rewrite lookup_empty in H|done|done|].
  assert (Hp : stream_and_plan stream root include_path base = Ok p) by (unfold stream_and_plan; rewrite (for_each_visits _ _ _ _ Hd); fold p0; by rewrite Hv).
  unfold plan_restore. rewrite Hp. cbn [mbind result_bind]. destruct (planned_files p) as [|pf pfs] eqn:Hpf; [by eexists _, _, _, _|]. rewrite <- Hpf.
  assert (Hg : exists gs, (if bool_decide (chunk_targets p = ∅) then Ok [] else build_read_groups_via_index ix (chunk_targets p)) = Ok gs).
  { case_bool_decide; [by eexists|]. apply groups_succeed. eapply (visit_all_from include_path items root items); [|  |exact Hv].
    - intros it Hit Hf. apply list_elem_of_In, filter_In. split; [by apply list_elem_of_In|done].
    - intros id [ct Hct]. cbn [p0 chunk_targets] in Hct. by rewrite lookup_empty in Hct. }
  destruct Hg as [gs ->]. cbn [mbind result_bind].
  destruct (create_files_succeeds root base L Hroot Htree (file_contents plain) (verified_dirs p) F (planned_files p) (List.filter (at_once include_path) items) (pl_fs p)) as [fs1 ->]; [| | |by apply parts_distinct|by eexists _, _, _, _].
  - by apply (visit_staged root base L Hroot Htree include_path items [] p0 p); [|intros it Hit Hinc; apply list_elem_of_In, filter_In; split; [by apply list_elem_of_In|]| |].
  - destruct (stream_and_plan_ok plain root include_path F (fun i => contents_fit plain F i Htotal) stream items base p Hd eq_refl Hsized Hp) as [Hok Hlen].
    apply Forall2_same_length_lookup. split; [done|]. intros i it f Hi Hf. destruct (po_files _ _ _ Hok i f Hf) as (it' & Hi' & H). rewrite Hi in Hi'. by injection Hi' as <-.
  - intros it Hit. destruct (proj1 (included_file include_path items it) Hit) as [HL Hty]. split; [done|]. split; [done|by apply Hfits].
Qed.
End Succeeds.

(** C7. Restoring a snapshot whose selected items form a tree - no two have the
    same path, and only directories have others below them - into an empty
    directory that no link leads to leaves exactly this tree.  The plan
    succeeds; then every run of the restore threads, in any interleaving and
    without failing system calls, ends after a bounded number of steps and can
    go on until all threads are done, and at the end the restore reports the
    bytes of the selected files, and there is a node at a path below the
    destination exactly when an item has this path - a directory, a link to its
    target, or a file with the contents of its chunks in order, empty files
    included - or when the path is above that of such an item, and then it is a
    directory; nothing outside the destination has changed.  The conditions:
    the paths of the items are relative, not empty and without '..', and
    shorter than the 1000 names the model follows; the recorded size of each
    chunk is that of its plaintext; each chunk is in the index and opens where
    the index says; range reads answer what is stored; the total is below 2^64.
    Snapshots with two items of one path, or with an item below a link, are not
    covered: a file can then be written through a link, even outside the
    destination ([file_written_through_link], [trusted_link_replaced]). *)
Theorem restore_writes_contents `{Hhex : HexCodec} (e : CryptoEngine) `{Hcodecs : Codecs} `{Hitems : ItemStream}
    (plain : ChunkId -> bytes) (s : Store) (get_range_into : string -> Z -> Z -> res (option bytes)) (include_path : string -> bool)
    (stream : bytes) (items : list Item) (ix : ChunkIndex) (root : Path) (fs : FS) (threads : nat) :
  let L := List.filter (fun it => include_path (item_path it)) items in
  let F := List.filter (is_file include_path) items in
  let total := sum_Z (fun it => blen (file_contents plain it)) F in
  range_reads s get_range_into -> decode_items_stream stream = Ok items -> total < u64_modulus -> (forall it, it ∈ F -> sized plain it) ->
  (forall it r, it ∈ F -> r ∈ item_chunks it -> exists en, ix !! ref_id r = Some en /\ restorable e plain s (ref_id r) (pack_id en) (pack_offset en) (stored_size en)) ->
  empty_dir root fs -> tree_items L -> (forall it, it ∈ L -> fits root it) -> (0 < threads)%nat ->
  exists files groups fs0 stats, plan_restore ix stream root include_path fs = Ok (files, groups, fs0, stats) /\
    let start := restore_init fs0 groups threads in
    forall sched st, Forall (fun x => x.2 = false) sched -> run_restore e get_range_into root files sched start = Some st ->
    (length sched <= restore_measure e get_range_into start)%nat /\
    (all_done st = false -> exists n st', restore_step e get_range_into root files n false st = Some st') /\
    (all_done st = true -> restore_result st = Ok total /\
      (forall r n, r <> [] -> rs_fs st !! (root ++ r) = Some n <-> tree_node (file_contents plain) L r n) /\
      (forall q, (forall r, r <> [] -> q <> root ++ r) -> rs_fs st !! q = fs !! q)).
Proof.
  intros L F total Hget Hd Htot Hsized Hchunks Hroot Htree Hfits Hth.
  destruct (plan_succeeds plain root fs include_path items ix Hroot Htree Hfits Htot Hsized) with (stream := stream) as (files & groups & fs0 & stats & Hplan);
    [intros it r Hit Hr; destruct (Hchunks it r Hit Hr) as (en & Hen & _); by rewrite Hen|done|].
  exists files, groups, fs0, stats. split; [done|]. intros start sched st Hs Hrun.
  assert (Hindex : forall it r en, it ∈ F -> r ∈ item_chunks it -> ix !! ref_id r = Some en -> restorable e plain s (ref_id r) (pack_id en) (pack_offset en) (stored_size en)).
  { intros it r en Hit Hr Hen. destruct (Hchunks it r Hit Hr) as (en' & Hen' & Hres). rewrite Hen in Hen'. by injection Hen' as <-. }
  pose proof (plan_restore_ok e plain s get_range_into Hget include_path items ix (fun i => contents_fit plain F i Htot) Hsized Hindex _ _ _ _ _ _ _ Hd Hplan) as Hreads.
  assert (Hf : Forall2 (planned (file_contents plain)) F files).
  { apply Forall2_same_length_lookup. split; [symmetry; apply (ra_length _ _ _ _ _ _ _ Hreads)|]. intros i it pf Hi Hpf.
    destruct (ra_files _ _ _ _ _ _ _ Hreads i pf Hpf) as (it' & Hi' & H). fold F in Hi'. rewrite Hi in Hi'. by injection Hi' as <-. }
  pose proof (plan_ready root fs include_path items (file_contents plain) Hroot Htree ix stream files groups fs0 stats Hd Hf Hplan) as Hready.
  pose proof (ready_placed root fs include_path items (file_contents plain) Hroot Htree (fits_deep root include_path items Hfits) files fs0 Hready Hf) as Hpl.
  destruct (threads_write_contents e plain s get_range_into include_path stream items ix root fs fs0 files groups stats (place root files) threads sched st
    Hget Hd Htot Hsized Hindex Hplan Hpl Hth Hs Hrun) as (H1 & H2 & H3). split; [done|]. split; [done|]. intros Hdone. destruct (H3 Hdone) as (Hres & Hfile & Hsame). split; [done|].
  assert (Hfile' : forall i it, F !! i = Some it -> rs_fs st !! place root files i = Some (NFile (file_contents plain it))) by (intros i it Hi; by destruct (Hfile i it Hi) as (_ & _ & _ & ?)).
  split; [|by eapply outside_kept]. intros r n Hr. split; [by eapply tree_made|by eapply made_tree].
Qed.

(** *** The example of Restore.v *)

Lemma ex_rt_same files groups fs0 stats : plan_restore ex_rs_index (concat (encode_item <$> ex_rs_items)) ex_rs_root (fun _ => true) ex_rs_fs = Ok (files, groups, fs0, stats) ->
  files = ex_rs_files /\ groups = ex_rs_groups /\ fs0 = ex_rs_fs0.
Proof.
  unfold ex_rs_files, ex_rs_groups, ex_rs_fs0, ex_rs_out. by intros ->.
Qed.
Lemma ex_rt_chunks it r : it ∈ List.filter (is_file (fun _ => true)) ex_rs_items -> r ∈ item_chunks it ->
  exists en, ex_rs_index !! ref_id r = Some en /\ restorable (PlaintextEngine []) ex_read_plain ex_rs_store (ref_id r) (pack_id en) (pack_offset en) (stored_size en).
Proof.
  intros Hit Hr. assert (Hid : ref_id r = ex_read_id 1 \/ ref_id r = ex_read_id 2).
  { assert (Hall : Forall (fun it => Forall (fun r => ref_id r = ex_read_id 1 \/ ref_id r = ex_read_id 2) (item_chunks it)) ex_rs_items).
    { unfold ex_rs_items. repeat (apply Forall_cons; split; [unfold ex_rs_item; cbn [item_chunks fmap list_fmap]; repeat (apply Forall_cons; split; [cbn [ref_id]; auto|]); by apply Forall_nil|]). by apply Forall_nil. }
    apply list_elem_of_In, filter_In in Hit as [Hit%list_elem_of_In _]. rewrite Forall_forall in Hall. specialize (Hall it Hit). rewrite Forall_forall in Hall. by apply Hall. }
  destruct Hid as [-> | ->].
  - exists (mkEntry 1 4 (ex_rs_pack 1) 13). split; [vm_compute; reflexivity|]. apply ex_rs_restorable. auto.
  - exists (mkEntry 1 3 (ex_rs_pack 2) 13). split; [vm_compute; reflexivity|]. apply ex_rs_restorable. auto.
Qed.

Lemma ex_rt_tree : tree_items ex_rs_items.
Proof.
  split; [apply (bool_decide_unpack _); vm_compute; exact I|]. intros it it' r x Hit Hit' Hn Hn'. unfold ex_rs_items in *.
  repeat (apply elem_of_cons in Hit as [->|Hit]); [..|by apply elem_of_nil in Hit]; vm_compute in Hn; injection Hn as <-; try (intros _; reflexivity).
  all: repeat (apply elem_of_cons in Hit' as [->|Hit']); [..|by apply elem_of_nil in Hit']; vm_compute in Hn'; injection Hn'; intros; subst; done.
Qed.
Lemma ex_rt_empty : empty_dir ex_rs_root ex_rs_fs.
Proof.
  split.
  - apply Forall_singleton. by split.
  - intros q x E Hq. destruct q as [|a q]; [done|]. injection E as <- E. symmetry in E. apply app_nil in E as [-> _]. reflexivity.
  - intros r Hr. unfold ex_rs_fs, ex_rs_root. apply lookup_singleton_None. intros E. injection E as E. by destruct r.
Qed.
Lemma ex_rt_fits it : it ∈ ex_rs_items -> fits ex_rs_root it.
Proof.
  assert (Hall : Forall (fun it => match names it with Some r => (length (ex_rs_root ++ r) <? FS_FUEL)%nat = true | None => False end) ex_rs_items) by (repeat constructor).
  intros Hit. rewrite Forall_forall in Hall. specialize (Hall it Hit). unfold fits. destruct (names it) as [r|]; [|done]. exists r. split; [done|]. by apply Nat.ltb_lt.
Qed.

Lemma restore_writes_contents_witness :
  exists st, run_restore (PlaintextEngine []) (ex_rs_get ex_rs_store) ex_rs_root ex_rs_files ex_rs_sched (restore_init ex_rs_fs0 ex_rs_groups 2) = Some st /\
    restore_result st = Ok 8 /\ rs_fs st !! ["t"; "d"; "a"] = Some (NFile [7; 7; 8; 7; 7]) /\ rs_fs st !! ["t"; "b"] = Some (NFile []) /\ rs_fs st !! ["t"; "e"] = Some NDir.
Proof.
  destruct (restore_writes_contents (PlaintextEngine []) ex_read_plain ex_rs_store (ex_rs_get ex_rs_store) (fun _ => true) (concat (encode_item <$> ex_rs_items)) ex_rs_items
    ex_rs_index ex_rs_root ex_rs_fs 2) as (files & groups & fs0 & stats & Hplan & Hruns).
  - intros key data off len Hk _ _ _. unfold ex_rs_get. by rewrite Hk.
  - vm_compute. reflexivity.
  - vm_compute. reflexivity.
  - intros it [Hit%list_elem_of_In _]%list_elem_of_In%filter_In. exact (proj1 (Forall_forall _ _) ex_rs_sized it Hit).
  - exact ex_rt_chunks.
  - exact ex_rt_empty.
  - exact ex_rt_tree.
  - exact ex_rt_fits.
  - lia.
  - assert (Hd : match run_restore (PlaintextEngine []) (ex_rs_get ex_rs_store) ex_rs_root ex_rs_files ex_rs_sched (restore_init ex_rs_fs0 ex_rs_groups 2) with
      Some st => all_done st | None => false end = true) by (vm_compute; reflexivity).
    destruct (run_restore _ _ _ ex_rs_files _ _) as [st|] eqn:Hrun; [|done]. exists st. split; [done|].
    destruct (ex_rt_same _ _ _ _ Hplan) as (-> & -> & ->). destruct (Hruns ex_rs_sched st) as (_ & _ & Hend); [vm_compute; repeat constructor|exact Hrun|].
    destruct (Hend Hd) as (Hr & Ht & _). split; [exact Hr|]. split; [|split].
    + apply (Ht ["d"; "a"]); [done|]. exists (ex_rs_item "d/a" RegularFile [1; 2; 1] None), []. split; [by right; left|]. split; vm_compute; reflexivity.
    + apply (Ht ["b"]); [done|]. exists (ex_rs_item "b" RegularFile [] None), []. split; [by right; right; left|]. split; vm_compute; reflexivity.
    + apply (Ht ["e"]); [done|]. exists (ex_rs_item "e/c" RegularFile [2; 1] None), ["c"]. split; [by right; right; right; right; left|]. split; [vm_compute; reflexivity|]. split; [done|by eexists].
Defined.
