(* ===== verification/Mount.v ===== *)
(** * Browsing snapshots (crates/vykar-core/src/commands/mount.rs)

    The items of a snapshot become a tree of nodes, which a WebDAV handler
    asks for metadata, listings and files, and a browser for pages.  An open
    file is a cursor over the chunks of its item; chunks come from a bounded
    cache that all files share, and from the repository.

    A directory's hash map is a list of named nodes, each name once.  The
    cache is the class [ChunkLru], with what its users rely on.  Paths are
    strings of bytes that are valid UTF-8; the pages' markup and the server
    loop are left out. *)

From S2P Require Import Prelude Types Protocol Storage ChunkIndex Pack.
From S2P Require Import Crypto Format Compress DedupCache Retention Lock Repo ReadPath Snapshots.
#[local] Open Scope string_scope.
#[local] Open Scope list_scope.
#[local] Open Scope Z_scope.

(** ** The tree *)

Record VfsMeta := mkVfsMeta { vm_size : Z; vm_mtime : Z; vm_is_dir : bool; vm_is_symlink : bool }.

#[warnings="-register-all"] Inductive VfsNode :=
  | VDir (children : list (string * VfsNode)) (meta : VfsMeta)
  | VFile (chunks : list ChunkRef) (meta : VfsMeta)
  | VSymlink (target : string) (meta : VfsMeta).

(** Times before the epoch are the epoch. *)
Definition meta_from_item (item : Item) : VfsMeta :=
  mkVfsMeta (item_size item) (if 0 <=? mtime item then mtime item else 0)
    (match entry_type item with Directory => true | _ => false end) (match entry_type item with Symlink => true | _ => false end).
Definition dir_default : VfsMeta := mkVfsMeta 0 0 true false.
Definition node_meta (n : VfsNode) : VfsMeta := match n with VDir _ m | VFile _ m | VSymlink _ m => m end.

(** [HashMap::get] and [HashMap::insert]. *)
Fixpoint child_get (name : string) (l : list (string * VfsNode)) : option VfsNode :=
  match l with
  | [] => None
  | (n, x) :: l' => if String.eqb n name then Some x else child_get name l'
  end.
Fixpoint child_set (name : string) (node : VfsNode) (l : list (string * VfsNode)) : list (string * VfsNode) :=
  match l with
  | [] => [(name, node)]
  | (n, x) :: l' => if String.eqb n name then (n, node) :: l' else (n, x) :: child_set name node l'
  end.

(** The node of an item where [old] is. *)
Definition item_node (item : Item) (old : option VfsNode) : VfsNode :=
  match entry_type item with
  | Directory => match old with Some (VDir children _) => VDir children (meta_from_item item) | _ => VDir [] (meta_from_item item) end
  | RegularFile => VFile (item_chunks item) (meta_from_item item)
  | Symlink => VSymlink (default "" (link_target item)) (meta_from_item item)
  end.

Fixpoint insert_into_tree (children : list (string * VfsNode)) (components : list string) (item : Item) : list (string * VfsNode) :=
  match components with
  | [] => children
  | [name] => child_set name (item_node item (child_get name children)) children
  | dir_name :: rest =>
      match default (VDir [] dir_default) (child_get dir_name children) with
      | VDir dir_children m => child_set dir_name (VDir (insert_into_tree dir_children rest item) m) children
      | _ => children
      end
  end.

Definition tree_add (children : list (string * VfsNode)) (item : Item) : list (string * VfsNode) :=
  let path := trim_start slash (item_path item) in
  if String.eqb path "" then children else insert_into_tree children (split_on slash path) item.
Definition build_vfs_tree (items : list Item) : VfsNode := VDir (foldl tree_add [] items) dir_default.

Fixpoint walk_to (current : VfsNode) (components : list string) : option VfsNode :=
  match components with
  | [] => Some current
  | c :: rest =>
      if String.eqb c "" then walk_to current rest
      else match current with VDir children _ => n ← child_get c children; walk_to n rest | _ => None end
  end.
Definition lookup_path (root : VfsNode) (path : string) : option VfsNode :=
  let path_str := trim_start slash path in
  if String.eqb path_str "" then Some root else walk_to root (split_on slash path_str).

(** ** Pages *)

Fixpoint html_escape (s : string) : string :=
  match s with
  | EmptyString => EmptyString
  | String c s' =>
      (if Ascii.eqb c "&" then "&amp;" else if Ascii.eqb c "<" then "&lt;" else if Ascii.eqb c ">" then "&gt;"
       else if (Ascii.nat_of_ascii c =? 34)%nat then "&quot;" else String c "") +:+ html_escape s'
  end.

Definition in_range (lo hi c : ascii) : bool := (Ascii.nat_of_ascii lo <=? Ascii.nat_of_ascii c)%nat && (Ascii.nat_of_ascii c <=? Ascii.nat_of_ascii hi)%nat.
Definition unreserved (c : ascii) : bool :=
  in_range "A" "Z" c || in_range "a" "z" c || in_range "0" "9" c || Ascii.eqb c "-" || Ascii.eqb c "_" || Ascii.eqb c "." || Ascii.eqb c "~" || Ascii.eqb c "/".
(** [{:02X}]: one of sixteen digits. *)
Definition hex_upper (n : nat) : ascii := Ascii.ascii_of_nat (if (n <? 10)%nat then 48 + n else 55 + n).
Fixpoint percent_encode_path (s : string) : string :=
  match s with
  | EmptyString => EmptyString
  | String c s' =>
      if unreserved c then String c (percent_encode_path s')
      else let n := Ascii.nat_of_ascii c in String "%" (String (hex_upper (n / 16)) (String (hex_upper (n mod 16)) (percent_encode_path s')))
  end.

Inductive BrowserAction := ServeHtml | Redirect (location : string) | PassThrough.
(** A request by its method, its accept header and its path, which
    [percent_decode_str] decodes. *)
Definition classify_browser_request (percent_decode : string -> string) (is_get accepts_html : bool) (raw_path : string) (tree : VfsNode) : BrowserAction :=
  if negb is_get then PassThrough
  else if negb accepts_html then PassThrough
  else match lookup_path tree (percent_decode raw_path) with
  | Some (VDir _ _) => if String.eqb raw_path "/" || ends_with raw_path "/" then ServeHtml else Redirect (raw_path +:+ "/")
  | _ => PassThrough
  end.

(** ** The file system *)

Inductive FsError := FsNotFound | FsForbidden | FsGeneralFailure.
Abbreviation FsResult := (result FsError).

Definition dav_metadata (tree : VfsNode) (path : string) : FsResult VfsMeta :=
  match lookup_path tree path with Some n => Ok (node_meta n) | None => Err FsNotFound end.
Definition dav_read_dir (tree : VfsNode) (path : string) : FsResult (list (string * VfsMeta)) :=
  match lookup_path tree path with
  | None => Err FsNotFound
  | Some (VDir children _) => Ok ((fun kv => (kv.1, node_meta kv.2)) <$> children)
  | Some _ => Err FsForbidden
  end.

Record VykarDavFile := mkDavFile { df_chunks : list ChunkRef; df_meta : VfsMeta; df_pos : Z }.
Definition dav_open (tree : VfsNode) (path : string) (wants_write : bool) : FsResult VykarDavFile :=
  if wants_write then Err FsForbidden
  else match lookup_path tree path with
  | None => Err FsNotFound
  | Some (VFile chunks meta) => Ok (mkDavFile chunks meta 0)
  | Some _ => Err FsForbidden
  end.

(** The bounded cache of the crate lru, by what it holds. *)
Class ChunkLru := {
  lru : Type;
  lru_new : Z -> lru;
  lru_get : ChunkId -> lru -> option bytes * lru;
  lru_put : ChunkId -> bytes -> lru -> lru;
  lru_holds : lru -> ChunkId -> bytes -> Prop;
  lru_new_empty : forall n id d, ~ lru_holds (lru_new n) id d;
  lru_get_holds : forall id c d, (lru_get id c).1 = Some d -> lru_holds c id d;
  lru_get_same : forall id c i d, lru_holds (lru_get id c).2 i d -> lru_holds c i d;
  lru_put_holds : forall id x c i d, lru_holds (lru_put id x c) i d -> (i = id /\ d = x) \/ lru_holds c i d;
}.

Inductive SeekFrom := SeekStart (p : Z) | SeekCurrent (p : Z) | SeekEnd (p : Z).
Definition seek_to (base p : Z) : FsResult Z := if 0 <=? p then Ok (u64_sat_add base p) else if base <? - p then Err FsGeneralFailure else Ok (base + p).
Definition dav_seek (f : VykarDavFile) (pos : SeekFrom) : FsResult Z * VykarDavFile :=
  let r := match pos with SeekStart p => Ok p | SeekCurrent p => seek_to (df_pos f) p | SeekEnd p => seek_to (vm_size (df_meta f)) p end in
  match r with Ok n => (Ok n, mkDavFile (df_chunks f) (df_meta f) n) | Err er => (Err er, f) end.
Definition dav_write (f : VykarDavFile) (buf : bytes) : FsResult unit := Err FsForbidden.

Section Files.
Context `{HexCodec} (e : CryptoEngine) `{Codecs} `{ChunkLru} (ix : ChunkIndex).

(** The two caches. *)
Abbreviation Caches := (lru * BlobCache)%type.

Definition read_chunk_cached (id : ChunkId) (cs : Caches) : M (FsResult bytes * Caches) :=
  match lru_get id cs.1 with
  | (Some data, l) => mret (Ok data, (l, cs.2))
  | (None, l) =>
      r ← try_ (read_chunk e ix id cs.2);
      match r with
      | Err _ => mret (Err FsGeneralFailure, (l, cs.2))
      | Ok (data, c) => mret (Ok data, (lru_put id data l, c))
      end
  end.

(** The loop of [read_bytes].  A chunk that is shorter than its reference
    makes the reading task panic, which is a general failure. *)
Fixpoint read_pieces (chunks : list ChunkRef) (remaining offset chunk_start : Z) (buf : bytes) (cs : Caches) : M (FsResult bytes * Caches) :=
  match chunks with
  | [] => mret (Ok buf, cs)
  | r :: chunks' =>
      let chunk_end := u64_add chunk_start (ref_size r) in
      if chunk_end <=? offset then read_pieces chunks' remaining offset chunk_end buf cs
      else if remaining =? 0 then mret (Ok buf, cs)
      else
        d ← read_chunk_cached (ref_id r) cs;
        match d with
        | (Err er, cs) => mret (Err er, cs)
        | (Ok chunk_data, cs) =>
            let start_in_chunk := offset - chunk_start in
            if blen chunk_data <? start_in_chunk then mret (Err FsGeneralFailure, cs)
            else
              let available := blen chunk_data - start_in_chunk in
              let to_copy := Z.min remaining available in
              read_pieces chunks' (remaining - to_copy) (u64_add offset to_copy) chunk_end
                (buf ++ slice (Z.to_nat start_in_chunk) (Z.to_nat to_copy) chunk_data) cs
        end
  end.

Definition dav_read_bytes (f : VykarDavFile) (count : Z) (cs : Caches) : M (FsResult bytes * VykarDavFile * Caches) :=
  let file_size := vm_size (df_meta f) in
  if file_size <=? df_pos f then mret (Ok [], f, cs)
  else
    r ← read_pieces (df_chunks f) (Z.min count (file_size - df_pos f)) (df_pos f) 0 [] cs;
    match r with
    | (Ok result, cs) => mret (Ok result, mkDavFile (df_chunks f) (df_meta f) (u64_add (df_pos f) (blen result)), cs)
    | (Err er, cs) => mret (Err er, f, cs)
    end.
End Files.

(** What a client does with an open file, and what it gets. *)
Inductive DavOp := OpRead (count : Z) | OpSeek (pos : SeekFrom).
Inductive DavAnswer := GotBytes (r : FsResult bytes) | GotPos (r : FsResult Z).

Fixpoint dav_session `{HexCodec} (e : CryptoEngine) `{Codecs} `{ChunkLru} (ix : ChunkIndex) (f : VykarDavFile) (ops : list DavOp) (cs : lru * BlobCache) :
    M (list DavAnswer * VykarDavFile * (lru * BlobCache)) :=
  match ops with
  | [] => mret ([], f, cs)
  | OpSeek pos :: ops' =>
      let '(r, f) := dav_seek f pos in
      x ← dav_session e ix f ops' cs;
      mret (GotPos r :: x.1.1, x.1.2, x.2)
  | OpRead count :: ops' =>
      y ← dav_read_bytes e ix f count cs;
      x ← dav_session e ix y.1.2 ops' y.2;
      mret (GotBytes y.1.1 :: x.1.1, x.1.2, x.2)
  end.

(** ** The mounted tree *)

Section Run.
Context `{HexCodec} (e : CryptoEngine) `{Codecs} `{IndexCodec} `{MsgPack SnapshotMeta} `{ItemStream}.

Definition set_mtime (t : Z) (n : VfsNode) : VfsNode :=
  match n with VDir children m => VDir children (mkVfsMeta (vm_size m) t (vm_is_dir m) (vm_is_symlink m)) | _ => n end.
Fixpoint load_trees (time_of : SnapshotEntry -> Z) (r : Repository) (entries : list SnapshotEntry) (children : list (string * VfsNode)) (c : BlobCache) :
    M (list (string * VfsNode) * BlobCache) :=
  match entries with
  | [] => mret (children, c)
  | en :: entries' =>
      x ← load_snapshot_items e r (snap_name en) c;
      load_trees time_of r entries' (child_set (snap_name en) (set_mtime (time_of en) (build_vfs_tree x.1)) children) x.2
  end.
Definition mount_tree (time_of : SnapshotEntry -> Z) (r : Repository) (snapshot_name : option string) (source_filter : list string) (c : BlobCache) : M (VfsNode * BlobCache) :=
  match snapshot_name with
  | Some name => x ← load_snapshot_items e r name c; mret (build_vfs_tree x.1, x.2)
  | None =>
      let entries := match source_filter with [] => manifest r | _ => List.filter (fun en => bool_decide (source_label en ∈ source_filter)) (manifest r) end in
      x ← load_trees time_of r entries [] c;
      mret (VDir x.1 dir_default, x.2)
  end.
End Run.

(** ** Laws of the tree *)

Lemma child_get_set_eq name x l : child_get name (child_set name x l) = Some x.
Proof.
  induction l as [|[n y] l IH]; cbn [child_set child_get]; [by rewrite String.eqb_refl|].
  destruct (String.eqb_spec n name) as [->|Hn]; cbn [child_get]; [by rewrite String.eqb_refl|]. by destruct (String.eqb_spec n name).
Qed.
Lemma child_get_set_ne name name' x l : name <> name' -> child_get name' (child_set name x l) = child_get name' l.
Proof.
  intros Hne. induction l as [|[n y] l IH]; cbn [child_set child_get].
  { by destruct (String.eqb_spec name name'). }
  destruct (String.eqb_spec n name) as [->|Hn]; cbn [child_get]; [by destruct (String.eqb_spec name name')|]. by rewrite IH.
Qed.

(** What is seen of a node but its children. *)
Inductive Seen := SeenDir (m : VfsMeta) | SeenFile (chunks : list ChunkRef) (m : VfsMeta) | SeenLink (target : string) (m : VfsMeta).
Definition seen (n : VfsNode) : Seen := match n with VDir _ m => SeenDir m | VFile c m => SeenFile c m | VSymlink t m => SeenLink t m end.
Definition item_seen (it : Item) : Seen :=
  match entry_type it with Directory => SeenDir (meta_from_item it) | RegularFile => SeenFile (item_chunks it) (meta_from_item it)
  | Symlink => SeenLink (default "" (link_target it)) (meta_from_item it) end.
Definition is_seen_dir (o : Seen) : bool := match o with SeenDir _ => true | _ => false end.

Fixpoint node_at (n : VfsNode) (q : list string) : option VfsNode :=
  match q with
  | [] => Some n
  | c :: rest => match n with VDir children _ => x ← child_get c children; node_at x rest | _ => None end
  end.
Definition seen_at (children : list (string * VfsNode)) (q : list string) : option Seen := seen <$> node_at (VDir children dir_default) q.

Lemma walk_to_node_at q : forall n, walk_to n q = node_at n (List.filter (fun c => negb (String.eqb c "")) q).
Proof.
  induction q as [|c q IH]; intros n; [done|]. cbn [walk_to List.filter]. destruct (String.eqb_spec c ""); cbn [negb]; [apply IH|].
  cbn [node_at]. destruct n as [children m| |]; [|done|done]. destruct (child_get c children); [|done]. cbn [mbind option_bind]. apply IH.
Qed.

Lemma seen_item_node it old : seen (item_node it old) = item_seen it.
Proof. unfold item_node, item_seen. destruct (entry_type it); [done| |done]. by destruct old as [[| |]|]. Qed.

Lemma seen_at_cons children c q : q <> [] -> seen_at children (c :: q) = match child_get c children with Some (VDir ch _) => seen_at ch q | _ => None end.
Proof.
  intros Hq. unfold seen_at. cbn [node_at]. destruct (child_get c children) as [[ch m|chunks m|t m]|]; cbn [mbind option_bind]; [|by destruct q|by destruct q|done].
  by destruct q.
Qed.
Lemma seen_at_one children c : seen_at children [c] = seen <$> child_get c children.
Proof. unfold seen_at. cbn [node_at]. by destruct (child_get c children). Qed.

(** Inserting an item keeps what is elsewhere; below it there is something
    only if the item is a directory. *)
Lemma insert_keeps it comps : comps <> [] -> forall children q o, q <> [] -> seen_at children q = Some o -> q <> comps ->
  (comps `prefix_of` q -> entry_type it = Directory) -> seen_at (insert_into_tree children comps it) q = Some o.
Proof.
  induction comps as [|c comps IH]; [done|]. intros _ children q o Hq0 Hq Hne Hdir. destruct q as [|c' q]; [done|].
  destruct comps as [|c2 comps].
  - cbn [insert_into_tree]. destruct (decide (c = c')) as [<-|Hc].
    + destruct q as [|c3 q]; [done|]. rewrite seen_at_cons in Hq |- * by done. rewrite child_get_set_eq.
      destruct (child_get c children) as [[ch m| |]|]; [|done|done|done]. unfold item_node.
      rewrite Hdir by (exists (c3 :: q); done). done.
    + destruct q as [|c3 q]; [rewrite seen_at_one in Hq |- *|rewrite seen_at_cons in Hq |- * by done]; by rewrite child_get_set_ne.
  - change (insert_into_tree children (c :: c2 :: comps) it) with
      (match default (VDir [] dir_default) (child_get c children) with VDir dc m => child_set c (VDir (insert_into_tree dc (c2 :: comps) it) m) children | _ => children end).
    destruct (default (VDir [] dir_default) (child_get c children)) as [dc m| |] eqn:Hd; [|done|done].
    destruct (decide (c = c')) as [<-|Hc].
    + destruct q as [|c3 q].
      * rewrite seen_at_one in Hq |- *. rewrite child_get_set_eq. destruct (child_get c children) as [x|]; [|done]. cbn [default id] in Hd. subst x. exact Hq.
      * rewrite seen_at_cons in Hq |- * by done. rewrite child_get_set_eq. destruct (child_get c children) as [x|]; [|done]. cbn [default id] in Hd. subst x.
        apply IH; [done|done|done|congruence|]. intros [r Hr]. apply Hdir. exists r. by rewrite Hr.
    + destruct q as [|c3 q]; [rewrite seen_at_one in Hq |- *|rewrite seen_at_cons in Hq |- * by done]; by rewrite child_get_set_ne.
Qed.

(** Nothing but directories on the way. *)
Definition clear_way (children : list (string * VfsNode)) (comps : list string) : Prop :=
  forall p o, p `prefix_of` comps -> p <> comps -> seen_at children p = Some o -> is_seen_dir o = true.

Lemma insert_found it comps : comps <> [] -> forall children, clear_way children comps -> seen_at (insert_into_tree children comps it) comps = Some (item_seen it).
Proof.
  induction comps as [|c comps IH]; [done|]. intros _ children Hway. destruct comps as [|c2 comps].
  - cbn [insert_into_tree]. rewrite seen_at_one, child_get_set_eq. cbn. by rewrite seen_item_node.
  - change (insert_into_tree children (c :: c2 :: comps) it) with
      (match default (VDir [] dir_default) (child_get c children) with VDir dc m => child_set c (VDir (insert_into_tree dc (c2 :: comps) it) m) children | _ => children end).
    assert (Hd : exists dc m, default (VDir [] dir_default) (child_get c children) = VDir dc m /\ clear_way dc (c2 :: comps)).
    { destruct (child_get c children) as [x|] eqn:Hx; cbn [default id].
      - assert (Hs : seen_at children [c] = Some (seen x)) by (by rewrite seen_at_one, Hx).
        pose proof (Hway [c] (seen x) ltac:(by exists (c2 :: comps)) ltac:(done) Hs) as Hdx. destruct x as [dc m| |]; [|done|done]. exists dc, m. split; [done|].
        intros p o [r Hr] Hne Hp. destruct p as [|c3 p].
        + unfold seen_at in Hp. cbn in Hp. by injection Hp as <-.
        + apply (Hway (c :: c3 :: p)); [exists r; by rewrite Hr|congruence|]. by rewrite seen_at_cons, Hx.
      - exists [], dir_default. split; [done|]. intros p o _ _ Hp. destruct p as [|c3 p]; [cbn in Hp; by injection Hp as <-|].
        unfold seen_at in Hp. cbn in Hp. done. }
    destruct Hd as (dc & m & -> & Hway'). rewrite seen_at_cons by done. rewrite child_get_set_eq. by apply IH.
Qed.

(** Everything that is not a directory comes from an item. *)
Lemma insert_nondir it comps : comps <> [] -> forall children q o, seen_at (insert_into_tree children comps it) q = Some o -> is_seen_dir o = false ->
  seen_at children q = Some o \/ (q = comps /\ o = item_seen it).
Proof.
  induction comps as [|c comps IH]; [done|]. intros _ children q o Hq Ho. destruct q as [|c' q]; [cbn in Hq; by injection Hq as <-|].
  destruct comps as [|c2 comps].
  - cbn [insert_into_tree] in Hq. destruct (decide (c = c')) as [<-|Hc].
    + destruct q as [|c3 q].
      * rewrite seen_at_one, child_get_set_eq in Hq. cbn in Hq. injection Hq as <-. right. split; [done|]. apply seen_item_node.
      * left. rewrite seen_at_cons in Hq |- * by done. rewrite child_get_set_eq in Hq. unfold item_node in Hq. destruct (entry_type it); [done| |done].
        destruct (child_get c children) as [[ch m| |]|]; [done| | |]; destruct q; done.
    + left. destruct q as [|c3 q]; [rewrite seen_at_one in Hq |- *|rewrite seen_at_cons in Hq |- * by done]; by rewrite child_get_set_ne in Hq.
  - change (insert_into_tree children (c :: c2 :: comps) it) with
      (match default (VDir [] dir_default) (child_get c children) with VDir dc m => child_set c (VDir (insert_into_tree dc (c2 :: comps) it) m) children | _ => children end) in Hq.
    destruct (default (VDir [] dir_default) (child_get c children)) as [dc m| |] eqn:Hd; [|by left|by left].
    destruct (decide (c = c')) as [<-|Hc].
    + destruct q as [|c3 q]; [rewrite seen_at_one, child_get_set_eq in Hq; cbn in Hq; by injection Hq as <-|].
      rewrite seen_at_cons in Hq by done. rewrite child_get_set_eq in Hq. destruct (IH ltac:(done) dc (c3 :: q) o Hq Ho) as [H1|[-> H1]]; [left|right; done].
      rewrite seen_at_cons by done. destruct (child_get c children) as [x|]; cbn [default id] in Hd; [by subst x|]. injection Hd as <- <-. unfold seen_at in H1. cbn in H1. done.
    + left. destruct q as [|c3 q]; [rewrite seen_at_one in Hq |- *|rewrite seen_at_cons in Hq |- * by done]; by rewrite child_get_set_ne in Hq.
Qed.

(** The names on the way to an item. *)
Definition path_names (path : string) : list string := List.filter (fun c => negb (String.eqb c "")) (split_on slash (trim_start slash path)).
Definition tidy_path (path : string) : Prop := trim_start slash path <> "" /\ split_on slash (trim_start slash path) = path_names path.
(** Every item has a path of its own, and only directories have something
    below them. *)
Record tidy (items : list Item) : Prop := {
  ty_paths : forall it, it ∈ items -> tidy_path (item_path it);
  ty_nodup : NoDup ((fun it => path_names (item_path it)) <$> items);
  ty_dirs : forall it it', it ∈ items -> it' ∈ items -> path_names (item_path it) `prefix_of` path_names (item_path it') ->
    it <> it' -> entry_type it = Directory;
}.

Lemma lookup_path_node_at root path : lookup_path root path = node_at root (path_names path).
Proof.
  unfold lookup_path, path_names. cbv zeta. destruct (String.eqb_spec (trim_start slash path) "") as [->|Hn]; [done|]. apply walk_to_node_at.
Qed.

Record tree_ok (items : list Item) (children : list (string * VfsNode)) : Prop := {
  tk_found : forall it, it ∈ items -> seen_at children (path_names (item_path it)) = Some (item_seen it);
  tk_only : forall q o, seen_at children q = Some o -> is_seen_dir o = false -> exists it, it ∈ items /\ q = path_names (item_path it) /\ o = item_seen it;
}.

Lemma tidy_names path : tidy_path path -> path_names path <> [].
Proof. intros [_ Hs] Hn. rewrite Hn in Hs. by destruct (split_on_nonempty slash (trim_start slash path)). Qed.

Lemma tree_add_ok items it children : tidy (items ++ [it]) -> tree_ok items children -> tree_ok (items ++ [it]) (tree_add children it).
Proof.
  intros [T1 T2 T3] [K1 K2]. assert (Hit : it ∈ items ++ [it]) by set_solver. destruct (T1 it Hit) as [Hne Hsp]. pose proof (tidy_names _ (T1 it Hit)) as Hnn.
  assert (Hold : forall it', it' ∈ items -> it' ∈ items ++ [it] /\ path_names (item_path it') <> path_names (item_path it) /\ it' <> it).
  { intros it' Hin. split; [set_solver|]. rewrite fmap_app in T2. apply NoDup_app in T2 as (_ & Hd & _).
    assert (Hx : path_names (item_path it') <> path_names (item_path it)); [|split; [done|congruence]].
    intros Heq. apply (Hd (path_names (item_path it'))); [by apply (list_elem_of_fmap_2 (fun it => path_names (item_path it)))|]. rewrite Heq. apply list_elem_of_here. }
  unfold tree_add. cbv zeta. destruct (String.eqb_spec (trim_start slash (item_path it)) "") as [|_]; [done|]. rewrite Hsp. split.
  - intros it' [Hin|Hin%list_elem_of_singleton]%elem_of_app.
    + destruct (Hold it' Hin) as (Hin' & Hdiff & Hd'). apply insert_keeps; [done|by apply tidy_names, T1|by apply K1|done|].
      intros Hpre. by apply (T3 it it').
    + subst it'. apply insert_found; [done|]. intros p o Hpre Hp Ho. destruct (is_seen_dir o) eqn:Hdir; [done|]. exfalso.
      destruct (K2 p o Ho Hdir) as (it' & Hin & -> & ->). destruct (Hold it' Hin) as (Hin' & Hdiff & Hd').
      assert (Hty : entry_type it' = Directory) by (by apply (T3 it' it)). unfold item_seen in Hdir. by rewrite Hty in Hdir.
  - intros q o Hq Ho. destruct (insert_nondir it _ Hnn children q o Hq Ho) as [Hq'|[-> ->]]; [|by exists it].
    destruct (K2 q o Hq' Ho) as (it' & Hin & H1 & H2). exists it'. split; [set_solver|done].
Qed.

Lemma tidy_app_l items it : tidy (items ++ [it]) -> tidy items.
Proof.
  intros [T1 T2 T3]. split.
  - intros it' Hin. apply T1. set_solver.
  - rewrite fmap_app in T2. by apply NoDup_app in T2 as (? & _).
  - intros i j Hi Hj. apply T3; set_solver.
Qed.

Lemma build_tree_ok items : tidy items -> tree_ok items (foldl tree_add [] items).
Proof.
  induction items as [|it items IH] using rev_ind; intros Ht.
  - split; [by intros it ?%elem_of_nil|]. intros q o Hq Ho. destruct q as [|c q]; [cbn in Hq; by injection Hq as <-|by cbn in Hq].
  - rewrite foldl_app. cbn [foldl]. apply tree_add_ok; [done|]. by eapply IH, tidy_app_l.
Qed.

(** Browsing a snapshot shows its items: each is found at its path with its
    own metadata, chunks or link target, and every file and link that is
    found at some path is an item of that path. *)
Theorem mounted_tree_exact items : tidy items ->
  (forall it, it ∈ items -> exists n, lookup_path (build_vfs_tree items) (item_path it) = Some n /\ seen n = item_seen it) /\
  (forall path n, lookup_path (build_vfs_tree items) path = Some n -> is_seen_dir (seen n) = false ->
    exists it, it ∈ items /\ path_names (item_path it) = path_names path /\ seen n = item_seen it).
Proof.
  intros Ht. destruct (build_tree_ok items Ht) as [K1 K2]. unfold build_vfs_tree. split.
  - intros it Hin. specialize (K1 it Hin). rewrite lookup_path_node_at. unfold seen_at in K1.
    destruct (node_at _ (path_names (item_path it))) as [n|]; [|done]. exists n. split; [done|]. by injection K1.
  - intros path n Hl Hd. rewrite lookup_path_node_at in Hl. destruct (K2 (path_names path) (seen n)) as (it & Hin & H1 & H2); [unfold seen_at; by rewrite Hl|done|].
    by exists it.
Qed.

(** ** Reading a file *)

Section Reading.
Context `{Hhex : HexCodec} (e : CryptoEngine) `{Hcodecs : Codecs} `{Hlru : ChunkLru} (ix : ChunkIndex).
Context (plain : ChunkId -> bytes) (s : Store) (Hplaced : placed e plain s ix).

Definition caches_sound (cs : lru * BlobCache) : Prop := (forall id d, lru_holds cs.1 id d -> d = plain id) /\ cache_sound plain cs.2.
Definition chunk_ok (r : ChunkRef) : Prop := is_Some (ix !! ref_id r) /\ ref_size r = blen (plain (ref_id r)).
Definition file_bytes (chunks : list ChunkRef) : bytes := concat ((fun r => plain (ref_id r)) <$> chunks).

(** [m] answers [a] without changing the store, or a storage call failed, in
    which case it answers a general failure. *)
Definition serves {A} (m : M (FsResult A * (lru * BlobCache))) (a : A) : Prop :=
  forall w, objects w = s -> exists r cs w', m w = (Ok (r, cs), w') /\ objects w' = s /\ caches_sound cs /\ (healthy w -> healthy w') /\
    (r = Ok a \/ (r = Err FsGeneralFailure /\ ~ healthy w)).

Lemma serves_ret {A} (a : A) cs : caches_sound cs -> serves (mret (Ok a, cs)) a.
Proof. intros Hc w Hw. exists (Ok a), cs, w. split; [done|]. split; [done|]. split; [done|]. split; [done|by left]. Qed.
(** An answer, then more of it. *)
Lemma serves_bind {A B} (m : M (FsResult A * (lru * BlobCache))) (a : A) (f : A -> lru * BlobCache -> M (FsResult B * (lru * BlobCache))) (b : B) :
  serves m a -> (forall cs, caches_sound cs -> serves (f a cs) b) ->
  serves (x ← m; match x with (Err er, cs) => mret (Err er, cs) | (Ok d, cs) => f d cs end) b.
Proof.
  intros Hm Hf w Hw. unfold mbind, M_bind. destruct (Hm w Hw) as (r & cs & w' & -> & Hw' & Hc & Hh & [->|[-> Hnh]]).
  - destruct (Hf cs Hc w' Hw') as (r2 & cs2 & w2 & H1 & H2 & H3 & H4 & H5). exists r2, cs2, w2. rewrite H1. split; [done|]. split; [done|]. split; [done|].
    split; [auto|]. destruct H5 as [->|[-> ?]]; [by left|right]. split; [done|]. auto.
  - exists (Err FsGeneralFailure), cs, w'. split; [done|]. split; [done|]. split; [done|]. split; [done|by right].
Qed.

Lemma read_chunk_cached_serves r cs : chunk_ok r -> caches_sound cs -> serves (read_chunk_cached e ix (ref_id r) cs) (plain (ref_id r)).
Proof using Hplaced.
  intros [[en Hen] _] [Hl Hc]. unfold read_chunk_cached. destruct (lru_get (ref_id r) cs.1) as [[d|] l] eqn:Hg.
  - rewrite (Hl (ref_id r) d) by (apply lru_get_holds; by rewrite Hg). apply serves_ret. split; [|done]. intros i x Hx. apply Hl. eapply (lru_get_same (ref_id r)). by rewrite Hg.
  - assert (Hsame : forall i x, lru_holds l i x -> x = plain i) by (intros i x Hx; apply Hl; eapply (lru_get_same (ref_id r)); by rewrite Hg).
    destruct (read_chunk_computes e plain s ix (ref_id r) en cs.2 Hplaced Hen Hc) as (c' & Hr & Hc'). intros w Hw. unfold mbind, M_bind, try_.
    destruct (Hr w Hw) as [(w' & -> & Hw' & Hh)|(er & w' & -> & Hw' & Hh)].
    + eexists _, _, w'. split; [done|]. split; [done|]. split; [|split; [done|by left]]. split; [|done].
      intros i x [[-> ->]|Hx]%lru_put_holds; [done|by apply Hsame].
    + eexists _, _, w'. split; [done|]. split; [done|]. split; [done|]. split; [done|by right].
Qed.

Lemma read_pieces_none chunks offset buf cs : caches_sound cs -> forall chunk_start, serves (read_pieces e ix chunks 0 offset chunk_start buf cs) buf.
Proof.
  intros Hc. induction chunks as [|r chunks IH]; intros chunk_start; cbn [read_pieces]; [by apply serves_ret|]. cbv zeta.
  destruct (_ <=? _); [apply IH|]. cbn. by apply serves_ret.
Qed.

Lemma slice_beyond {A} (off len : nat) (l : list A) : (length l <= off)%nat -> slice off len l = [].
Proof. intros. unfold slice. rewrite drop_ge by lia. by rewrite take_nil. Qed.

Lemma read_pieces_serves chunks : Forall chunk_ok chunks -> forall remaining offset chunk_start buf cs,
  caches_sound cs -> 0 <= remaining -> 0 <= chunk_start <= offset -> chunk_start + blen (file_bytes chunks) < u64_modulus ->
  serves (read_pieces e ix chunks remaining offset chunk_start buf cs) (buf ++ slice (Z.to_nat (offset - chunk_start)) (Z.to_nat remaining) (file_bytes chunks)).
Proof using Hplaced.
  induction 1 as [|r chunks Hr Hchunks IH]; intros remaining offset chunk_start buf cs Hc Hrem Hstart Hfit; cbn [read_pieces].
  { replace (slice _ _ _) with ([] : bytes) by (unfold slice; cbn; by rewrite drop_nil, take_nil). rewrite app_nil_r. by apply serves_ret. }
  cbv zeta. destruct Hr as [Hin Hsize]. set (d := plain (ref_id r)) in *. change (file_bytes (r :: chunks)) with (d ++ file_bytes chunks) in *.
  assert (Hlen : blen (d ++ file_bytes chunks) = blen d + blen (file_bytes chunks)) by (unfold blen; rewrite length_app; lia).
  pose proof (blen_nonneg d). pose proof (blen_nonneg (file_bytes chunks)). rewrite Hsize. unfold u64_add at 1. rewrite u64_wrap_small by (unfold u64; lia).
  assert (Hend : u64_add chunk_start (blen d) = chunk_start + blen d) by (unfold u64_add; rewrite u64_wrap_small by (unfold u64; lia); done).
  destruct (Z.leb_spec (chunk_start + blen d) offset) as [Hskip|Hin2].
  { rewrite Hend. replace (slice _ _ (d ++ _)) with (slice (Z.to_nat (offset - (chunk_start + blen d))) (Z.to_nat remaining) (file_bytes chunks)).
    - apply IH; [done|done|lia|lia].
    - replace (Z.to_nat (offset - chunk_start)) with (length d + Z.to_nat (offset - (chunk_start + blen d)))%nat by (unfold blen in *; lia). by rewrite slice_app_r. }
  destruct (Z.eqb_spec remaining 0) as [->|Hne].
  { replace (slice _ (Z.to_nat 0) _) with ([] : bytes) by (unfold slice; by cbn). rewrite app_nil_r. by apply serves_ret. }
  apply (serves_bind _ d); [by apply (read_chunk_cached_serves r)|]. intros cs' Hc'. cbv zeta.
  destruct (Z.ltb_spec (blen d) (offset - chunk_start)); [lia|]. set (to_copy := Z.min remaining (blen d - (offset - chunk_start))).
  assert (Hcp : 0 < to_copy) by (unfold to_copy; lia). rewrite Hend. unfold u64_add. rewrite u64_wrap_small by (unfold u64, to_copy; lia).
  set (p := Z.to_nat (offset - chunk_start)). assert (Hp : (p < length d)%nat) by (unfold p, blen in *; lia).
  destruct (Z.leb_spec remaining (blen d - (offset - chunk_start))) as [Hshort|Hlong].
  - replace to_copy with remaining by (unfold to_copy; lia). rewrite Z.sub_diag. rewrite slice_app_l by (unfold p, blen in *; lia). by apply read_pieces_none.
  - assert (Htc : to_copy = blen d - (offset - chunk_start)) by (unfold to_copy; lia).
    replace (buf ++ slice p (Z.to_nat remaining) (d ++ file_bytes chunks)) with
      ((buf ++ slice p (Z.to_nat to_copy) d) ++ slice (Z.to_nat (offset + to_copy - (chunk_start + blen d))) (Z.to_nat (remaining - to_copy)) (file_bytes chunks)).
    + apply IH; [done|lia|lia|lia].
    + rewrite <- app_assoc. f_equal. replace (Z.to_nat (offset + to_copy - (chunk_start + blen d))) with 0%nat by lia.
      replace (Z.to_nat remaining) with (Z.to_nat to_copy + Z.to_nat (remaining - to_copy))%nat by lia. rewrite <- slice_join.
      f_equal; [by rewrite slice_app_l by (unfold p, blen in *; lia)|]. replace (p + Z.to_nat to_copy)%nat with (length d + 0)%nat by (unfold p, blen in *; lia).
      by rewrite slice_app_r.
Qed.

(** What the file of an item holds: its chunks, up to its size. *)
Definition file_view (f : VykarDavFile) : bytes := take (Z.to_nat (vm_size (df_meta f))) (file_bytes (df_chunks f)).
Record file_ok (f : VykarDavFile) : Prop := {
  fo_chunks : Forall chunk_ok (df_chunks f);
  fo_pos : u64 (df_pos f);
  fo_fit : blen (file_bytes (df_chunks f)) < u64_modulus;
}.

Lemma slice_view (pos count size : Z) (l : bytes) : 0 <= pos -> 0 <= count -> pos < size ->
  slice (Z.to_nat pos) (Z.to_nat (Z.min count (size - pos))) l = slice (Z.to_nat pos) (Z.to_nat count) (take (Z.to_nat size) l).
Proof.
  intros. unfold slice. rewrite skipn_firstn_comm, take_take. f_equal. lia.
Qed.

Definition at_pos (f : VykarDavFile) (pos : Z) : VykarDavFile := mkDavFile (df_chunks f) (df_meta f) pos.
Lemma file_ok_at f pos : file_ok f -> u64 pos -> file_ok (at_pos f pos).
Proof. intros [F1 F2 F3] Hp. by split. Qed.

(** A read answers the bytes at the cursor, or a general failure when a
    storage call failed, never anything else. *)
Lemma dav_read_serves f count cs w : file_ok f -> caches_sound cs -> 0 <= count -> objects w = s ->
  exists r f' cs' w', dav_read_bytes e ix f count cs w = (Ok (r, f', cs'), w') /\ objects w' = s /\ caches_sound cs' /\ (healthy w -> healthy w') /\
    let answer := slice (Z.to_nat (df_pos f)) (Z.to_nat count) (file_view f) in
    ((r = Ok answer /\ f' = at_pos f (df_pos f + blen answer)) \/ (r = Err FsGeneralFailure /\ f' = f /\ ~ healthy w)).
Proof using Hplaced.
  intros [F1 F2 F3] Hc Hcount Hw. unfold dav_read_bytes. cbv zeta. set (size := vm_size (df_meta f)).
  destruct (Z.leb_spec size (df_pos f)) as [Hge|Hlt].
  { exists (Ok []), f, cs, w. split; [done|]. split; [done|]. split; [done|]. split; [done|]. left. rewrite slice_beyond.
    - split; [done|]. destruct f as [c m p]. unfold at_pos. cbn. by rewrite Z.add_0_r.
    - unfold file_view. fold size. rewrite length_take. lia. }
  pose proof (read_pieces_serves (df_chunks f) F1 (Z.min count (size - df_pos f)) (df_pos f) 0 [] cs Hc ltac:(lia) ltac:(unfold u64 in F2; lia) ltac:(lia)) as Hr.
  cbn [app] in Hr. rewrite Z.sub_0_r, (slice_view _ count size) in Hr by (unfold u64 in F2; lia). unfold file_view. fold size.
  set (answer := slice _ _ (take _ _)) in *. unfold mbind, M_bind. destruct (Hr w Hw) as (r & cs' & w' & -> & Hw' & Hc' & Hh & [->|[-> Hnh]]).
  - eexists _, _, cs', w'. split; [done|]. split; [done|]. split; [done|]. split; [done|]. left. split; [done|]. unfold at_pos. f_equal.
    unfold u64_add. apply u64_wrap_small. assert (Hle : answer = [] \/ df_pos f + blen answer <= blen (file_bytes (df_chunks f))).
    { destruct (decide (length (take (Z.to_nat size) (file_bytes (df_chunks f))) <= Z.to_nat (df_pos f))%nat) as [Hb|Hb].
      - left. by apply slice_beyond.
      - right. unfold answer, slice, blen. rewrite length_take, length_drop. rewrite length_take in *. unfold u64 in F2. lia. }
    pose proof (blen_nonneg answer). unfold u64 in *. destruct Hle as [->|Hle]; [change (blen []) with 0|]; lia.
  - eexists _, f, cs', w'. split; [done|]. split; [done|]. split; [done|]. split; [done|]. by right.
Qed.

(** The reference: a cursor over an array of bytes. *)
Definition ref_seek (size pos : Z) (to : SeekFrom) : FsResult Z :=
  match to with SeekStart p => Ok p | SeekCurrent p => seek_to pos p | SeekEnd p => seek_to size p end.
Fixpoint ref_session (view : bytes) (size pos : Z) (ops : list DavOp) : list DavAnswer :=
  match ops with
  | [] => []
  | OpRead count :: ops' =>
      let answer := slice (Z.to_nat pos) (Z.to_nat count) view in
      GotBytes (Ok answer) :: ref_session view size (pos + blen answer) ops'
  | OpSeek to :: ops' =>
      GotPos (ref_seek size pos to) :: ref_session view size (match ref_seek size pos to with Ok n => n | Err _ => pos end) ops'
  end.
Definition op_ok (op : DavOp) : Prop := match op with OpRead count => 0 <= count | OpSeek (SeekStart p) => u64 p | OpSeek _ => True end.

Lemma seek_to_u64 base p n : u64 base -> seek_to base p = Ok n -> u64 n.
Proof.
  unfold seek_to, u64_sat_add, u64, u64_max. intros Hb. destruct (Z.leb_spec 0 p); [intros [= <-]; lia|]. destruct (Z.ltb_spec base (- p)); [done|]. intros [= <-]. lia.
Qed.

Lemma dav_session_refines ops : Forall op_ok ops -> forall f cs w, file_ok f -> u64 (vm_size (df_meta f)) -> caches_sound cs -> objects w = s -> healthy w ->
  exists f' cs' w', dav_session e ix f ops cs w = (Ok (ref_session (file_view f) (vm_size (df_meta f)) (df_pos f) ops, f', cs'), w') /\ objects w' = s.
Proof using Hplaced.
  induction 1 as [|op ops Hop Hops IH]; intros f cs w Hf Hsz Hc Hw Hh; cbn [dav_session]; [by exists f, cs, w|]. destruct op as [count|to].
  - destruct (dav_read_serves f count cs w Hf Hc Hop Hw) as (r & f' & cs' & w' & E & Hw' & Hc' & Hh' & Hor). cbv zeta in Hor.
    destruct Hor as [[-> ->]|(_ & _ & Hn)]; [|done]. unfold mbind, M_bind. rewrite E. cbn [fst snd].
    destruct (IH (at_pos f (df_pos f + blen (slice (Z.to_nat (df_pos f)) (Z.to_nat count) (file_view f)))) cs' w') as (f2 & cs2 & w2 & E2 & Hw2); [|done|done|done|auto|].
    + apply file_ok_at; [done|]. destruct Hf as [F1 F2 F3]. unfold u64 in *. pose proof (blen_nonneg (slice (Z.to_nat (df_pos f)) (Z.to_nat count) (file_view f))).
      destruct (decide (length (file_view f) <= Z.to_nat (df_pos f))%nat) as [Hb|Hb]; [rewrite slice_beyond by done; change (blen []) with 0; lia|].
      unfold blen, slice in *. rewrite length_take, length_drop. unfold file_view in *. rewrite length_take in *. lia.
    + exists f2, cs2, w2. rewrite E2. done.
  - unfold dav_seek. fold (ref_seek (vm_size (df_meta f)) (df_pos f) to). destruct (ref_seek (vm_size (df_meta f)) (df_pos f) to) as [n|er] eqn:Hs.
    + destruct (IH (at_pos f n) cs w) as (f2 & cs2 & w2 & E2 & Hw2); [|done|done|done|done|].
      * apply file_ok_at; [done|]. destruct to as [p|p|p]; cbn [ref_seek] in Hs; [by injection Hs as <-|exact (seek_to_u64 _ _ _ (fo_pos _ Hf) Hs)|exact (seek_to_u64 _ _ _ Hsz Hs)].
      * exists f2, cs2, w2. unfold mbind, M_bind. fold (at_pos f n). rewrite E2. cbn [fst snd ref_session]. by rewrite Hs.
    + destruct (IH f cs w) as (f2 & cs2 & w2 & E2 & Hw2); [done..|]. exists f2, cs2, w2. unfold mbind, M_bind. rewrite E2. cbn [fst snd ref_session]. by rewrite Hs.
Qed.
End Reading.

(** C8. An opened file of a mounted snapshot is its item's chunks, up to its
    size, under a cursor: any sequence of reads and seeks answers what it
    answers on that array of bytes, and a read that a failing storage call
    spoils is an error that leaves the cursor where it is, never other bytes.
    The items of the snapshot have paths of their own without empty names, and
    only directories have others below them ([tidy]). *)
Theorem mounted_file_is_its_bytes `{Hhex : HexCodec} (e : CryptoEngine) `{Hcodecs : Codecs} `{Hlru : ChunkLru} (ix : ChunkIndex)
    (plain : ChunkId -> bytes) (items : list Item) (it : Item) (cs : lru * BlobCache) (ops : list DavOp) (w : World) :
  let contents := concat ((fun r => plain (ref_id r)) <$> item_chunks it) in
  let view := take (Z.to_nat (item_size it)) contents in
  tidy items -> it ∈ items -> entry_type it = RegularFile -> Forall (chunk_ok ix plain) (item_chunks it) -> u64 (item_size it) ->
  blen contents < u64_modulus -> placed e plain (objects w) ix -> caches_sound plain cs -> Forall op_ok ops ->
  exists f, dav_open (build_vfs_tree items) (item_path it) false = Ok f /\
    (healthy w -> exists f' cs' w', dav_session e ix f ops cs w = (Ok (ref_session view (item_size it) 0 ops, f', cs'), w') /\ objects w' = objects w) /\
    forall pos count, u64 pos -> 0 <= count -> exists r f' cs' w', dav_read_bytes e ix (at_pos f pos) count cs w = (Ok (r, f', cs'), w') /\ objects w' = objects w /\
      let answer := slice (Z.to_nat pos) (Z.to_nat count) view in
      ((r = Ok answer /\ f' = at_pos f (pos + blen answer)) \/ (r = Err FsGeneralFailure /\ f' = at_pos f pos /\ ~ healthy w)).
Proof.
  intros contents view Ht Hit Hty Hchunks Hsz Hfit Hpl Hc Hops. destruct (build_tree_ok items Ht) as [K1 _]. specialize (K1 it Hit).
  set (f := mkDavFile (item_chunks it) (meta_from_item it) 0). exists f.
  assert (Hf : file_ok ix plain f) by (split; [done|split; [done|reflexivity]|done]).
  split; [|split].
  - unfold dav_open. rewrite lookup_path_node_at. unfold build_vfs_tree. unfold seen_at in K1. destruct (node_at _ (path_names (item_path it))) as [n|]; [|done].
    unfold item_seen in K1. rewrite Hty in K1. destruct n as [| |]; [done| |done]. cbn in K1. injection K1 as -> ->. done.
  - intros Hh. destruct (dav_session_refines e ix plain (objects w) Hpl ops Hops f cs w Hf Hsz Hc eq_refl Hh) as (f' & cs' & w' & E & Hw'). by exists f', cs', w'.
  - intros pos count Hpos Hcount. destruct (dav_read_serves e ix plain (objects w) Hpl (at_pos f pos) count cs w (file_ok_at _ _ _ _ Hf Hpos) Hc Hcount eq_refl)
      as (r & f' & cs' & w' & E & Hw' & _ & _ & Hor). by exists r, f', cs', w'.
Qed.

(** ** Laws of the pages *)

(** No markup gets through. *)
Definition markup (c : ascii) : bool := Ascii.eqb c "<" || Ascii.eqb c ">" || (Ascii.nat_of_ascii c =? 34)%nat.
Lemma html_escape_no_markup s : str_all (fun c => negb (markup c)) (html_escape s) = true.
Proof.
  induction s as [|c s IH]; [done|]. cbn [html_escape]. rewrite str_all_app, IH, andb_true_r.
  destruct (Ascii.eqb c "&"); [done|]. destruct (Ascii.eqb c "<") eqn:H1; [done|]. destruct (Ascii.eqb c ">") eqn:H2; [done|].
  destruct (Ascii.nat_of_ascii c =? 34)%nat eqn:H3; [done|]. cbn [str_all]. unfold markup. by rewrite H1, H2, H3.
Qed.

(** A link leads to the name it was made from, when decoding undoes the
    escapes. *)
Lemma percent_encode_round_trip (percent_decode : string -> string) :
  percent_decode "" = "" ->
  (forall c s, c <> "%"%char -> percent_decode (String c s) = String c (percent_decode s)) ->
  (forall c s, let n := Ascii.nat_of_ascii c in
    percent_decode (String "%" (String (hex_upper (n / 16)) (String (hex_upper (n mod 16)) s))) = String c (percent_decode s)) ->
  forall s, percent_decode (percent_encode_path s) = s.
Proof.
  intros H0 H1 H2 s. induction s as [|c s IH]; [done|]. cbn [percent_encode_path]. destruct (unreserved c) eqn:Hu.
  - rewrite H1, IH; [done|]. intros ->. done.
  - cbv zeta. by rewrite H2, IH.
Qed.

(** ** An example: a cache that holds two chunks *)

#[export] Program Instance toy_lru : ChunkLru := {|
  lru := list (ChunkId * bytes);
  lru_new := fun _ => [];
  lru_get := fun id c =>
    match List.find (fun kv => bool_decide (kv.1 = id)) c with
    | Some kv => (Some kv.2, kv :: List.filter (fun kv' => negb (bool_decide (kv'.1 = id))) c)
    | None => (None, c)
    end;
  lru_put := fun id d c => take 2 ((id, d) :: List.filter (fun kv => negb (bool_decide (kv.1 = id))) c);
  lru_holds := fun c id d => (id, d) ∈ c;
|}.
Next Obligation. intros n id d. apply not_elem_of_nil. Qed.
Next Obligation.
  intros id c d. cbv beta. destruct (List.find _ c) as [[i x]|] eqn:Hf; [|done]. apply find_some in Hf as [Hin%list_elem_of_In Hi%bool_decide_eq_true].
  cbn [fst snd] in *. intros [= <-]. by subst i.
Qed.
Next Obligation.
  intros id c i d. cbv beta. destruct (List.find _ c) as [kv|] eqn:Hf; [|done]. apply find_some in Hf as [Hin%list_elem_of_In _]. cbn [snd].
  intros [->|Hin']%elem_of_cons; [done|]. by apply list_elem_of_In, filter_In in Hin' as [?%list_elem_of_In _].
Qed.
Next Obligation.
  intros id x c i d. cbv beta. set (l := (id, x) :: _). intros Hin. assert (Hl : (i, d) ∈ l) by (rewrite <- (take_drop 2 l); apply elem_of_app; by left).
  apply elem_of_cons in Hl as [[= -> ->]|Hl]; [by left|right]. by apply list_elem_of_In, filter_In in Hl as [?%list_elem_of_In _].
Qed.

Definition ex_mt_item (path : string) (ty : ItemType) (chunks : list Z) (size : Z) : Item :=
  mkItem path ty 420 0 0 None None 5 None None size ((fun n => mkChunkRef (ex_read_id n) (blen (ex_read_plain (ex_read_id n))) 3) <$> chunks) None None.
Definition ex_mt_items : list Item :=
  [ex_mt_item "home" Directory [] 0; ex_mt_item "home/a" RegularFile [1; 2; 1] 5; ex_mt_item "home/b" RegularFile [] 0].
Definition ex_mt_index : ChunkIndex := {[ ex_read_id 1 := mkEntry 1 4 ex_read_pack 2; ex_read_id 2 := mkEntry 1 3 ex_read_pack 7 ]}.

Lemma ex_mt_tidy : tidy ex_mt_items.
Proof.
  assert (Hn : (fun it => path_names (item_path it)) <$> ex_mt_items = [["home"]; ["home"; "a"]; ["home"; "b"]]) by (vm_compute; reflexivity).
  split.
  - intros it Hin. unfold ex_mt_items in Hin. repeat (apply elem_of_cons in Hin as [->|Hin]; [split; [by vm_compute|vm_compute; reflexivity]|]). by apply elem_of_nil in Hin.
  - rewrite Hn. apply (bool_decide_unpack _). vm_compute. exact I.
  - intros it it' Hin Hin' Hpre Hne. unfold ex_mt_items in *.
    apply elem_of_cons in Hin as [->|Hin]; [done|]. exfalso.
    repeat (apply elem_of_cons in Hin as [->|Hin]); [| |by apply elem_of_nil in Hin].
    all: repeat (apply elem_of_cons in Hin' as [->|Hin']); try done; try (by apply elem_of_nil in Hin').
    all: destruct Hpre as [r Hr]; vm_compute in Hr; discriminate Hr.
Qed.
Lemma ex_mt_placed : placed (PlaintextEngine []) ex_read_plain ex_read_store ex_mt_index.
Proof.
  assert (Hix : forall id en, ex_mt_index !! id = Some en -> (id, en) = (ex_read_id 1, mkEntry 1 4 ex_read_pack 2) \/ (id, en) = (ex_read_id 2, mkEntry 1 3 ex_read_pack 7)).
  { intros id en. unfold ex_mt_index. intros [[<- <-]|[_ [<- <-]%lookup_singleton_Some]]%lookup_insert_Some; auto. }
  split.
  - intros id en [[= -> ->]|[= -> ->]]%Hix; (eexists; split; [vm_compute; reflexivity|]); (split; [vm_compute; discriminate|]); (split; [vm_compute; discriminate|]);
      (split; [vm_compute; discriminate|vm_compute; reflexivity]).
  - intros id en id' en' [[= -> ->]|[= -> ->]]%Hix [[= -> ->]|[= -> ->]]%Hix _; vm_compute; intros; congruence.
Qed.

Lemma mounted_tree_exact_witness : exists n, lookup_path (build_vfs_tree ex_mt_items) "home/a" = Some n /\ seen n = item_seen (ex_mt_item "home/a" RegularFile [1; 2; 1] 5).
Proof. destruct (mounted_tree_exact ex_mt_items ex_mt_tidy) as [H _]. apply (H (ex_mt_item "home/a" RegularFile [1; 2; 1] 5)). apply elem_of_cons. right. apply list_elem_of_here. Defined.

(** Two bytes, three from the second on, the last one, and too far. *)
Definition ex_mt_ops : list DavOp := [OpRead 2; OpSeek (SeekCurrent (-1)); OpRead 3; OpSeek (SeekEnd (-1)); OpRead 9; OpSeek (SeekEnd (-6)); OpRead 1].
Lemma mounted_file_is_its_bytes_witness :
  exists f f' cs' w', dav_open (build_vfs_tree ex_mt_items) "home/a" false = Ok f /\
    dav_session (PlaintextEngine []) ex_mt_index f ex_mt_ops (lru_new 2, cache_new 100) (mkWorld ex_read_store []) =
      (Ok ([GotBytes (Ok [7; 7]); GotPos (Ok 1); GotBytes (Ok [7; 8; 7]); GotPos (Ok 4); GotBytes (Ok [7]); GotPos (Err FsGeneralFailure); GotBytes (Ok [])], f', cs'), w').
Proof.
  destruct (mounted_file_is_its_bytes (PlaintextEngine []) ex_mt_index ex_read_plain ex_mt_items (ex_mt_item "home/a" RegularFile [1; 2; 1] 5) (lru_new 2, cache_new 100)
    ex_mt_ops (mkWorld ex_read_store [])) as (f & Hopen & Hs & _).
  - exact ex_mt_tidy.
  - apply elem_of_cons. right. apply list_elem_of_here.
  - done.
  - cbn [ex_mt_item item_chunks fmap list_fmap]. repeat (apply Forall_cons; split; [split; [apply (bool_decide_unpack _); vm_compute; exact I|reflexivity]|]). by apply Forall_nil.
  - split; [done|reflexivity].
  - vm_compute. reflexivity.
  - exact ex_mt_placed.
  - split; [by intros id d ?%elem_of_nil|intros id d [=]].
  - unfold ex_mt_ops. repeat (apply Forall_cons; split; [first [exact I | cbn; lia]|]). by apply Forall_nil.
  - destruct (Hs eq_refl) as (f' & cs' & w' & E & _). exists f, f', cs', w'. split; [exact Hopen|exact E].
Defined.
