(* ===== verification/Backends.v ===== *)
(** * Storage backends (crates/vykar-storage/src/lib.rs, local_backend.rs, crates/vykar-core/src/limits.rs)

    Where a repository URL leads, the backend over a local directory, and the
    wrapper that limits the bandwidth of another backend.  The directory tree
    and its system calls are those of Server.v, each of which may fail; the
    theorems show that the local backend is a storage backend as Storage.v
    assumes one, and that the wrapper changes answers and effects of nothing
    it forwards while it keeps to its rate.  The limiter's arithmetic on
    floats is modelled on exact fractions of nanoseconds. *)

From S2P Require Import Prelude Types Storage Protocol Pack ReadPath Compress ServerPath Server ServerRead Rest FileCache.
#[local] Open Scope string_scope.
#[local] Open Scope list_scope.
#[local] Open Scope Z_scope.

(** ** Repository URLs *)

Inductive ParsedUrl :=
  | Local (path : string)
  | S3 (bucket root endpoint : string)
  | Sftp (user : option string) (host : string) (port : option Z) (path : string)
  | RestUrl (url : string).

(** What the crate url answers for a URL it accepts. *)
Record Url := mkUrl { u_scheme : string; u_username : string; u_host : option string; u_port : option Z; u_path : string }.

Definition is_local (p : ParsedUrl) : bool := match p with Local _ => true | _ => false end.

Fixpoint url_contains (pat s : string) : bool := starts_with s pat || match s with EmptyString => false | String _ s' => url_contains pat s' end.

Definition parse_s3_url (print_port : Z -> string) (url : Url) (endpoint_scheme : string) : res ParsedUrl :=
  match u_host url with
  | None => Err (ConfigError "s3 URL is missing an endpoint host")
  | Some host =>
      let port_suffix := match u_port url with Some p => ":" +:+ print_port p | None => "" end in
      let endpoint := endpoint_scheme +:+ "://" +:+ host +:+ port_suffix in
      let path := trim_start slash (u_path url) in
      let '(bucket, root) := default (path, "") (split_once slash path) in
      if String.eqb bucket "" then Err (ConfigError "s3 URL must include a bucket in the path") else Ok (S3 bucket root endpoint)
  end.
Definition parse_sftp_url (url : Url) : res ParsedUrl :=
  match u_host url with
  | None => Err (ConfigError "sftp:// URL is missing a host")
  | Some host => Ok (Sftp (if String.eqb (u_username url) "" then None else Some (u_username url)) host (u_port url) (u_path url))
  end.

(** [raw] is trimmed by the caller's argument, and parsed by the crate url. *)
Definition parse_repo_url (trim : string -> string) (url_parse : string -> option Url) (print_port : Z -> string) (raw : string) : res ParsedUrl :=
  let trimmed := trim raw in
  if String.eqb trimmed "" then Err (ConfigError "repository URL must not be empty")
  else if starts_with trimmed "/" || starts_with trimmed "./" || starts_with trimmed "../" || String.eqb trimmed "." || String.eqb trimmed ".." then Ok (Local trimmed)
  else if negb (url_contains "://" trimmed) then Ok (Local trimmed)
  else match url_parse trimmed with
  | None => Err (ConfigError "invalid repository URL")
  | Some url =>
      let scheme := u_scheme url in
      if String.eqb scheme "file" then if String.eqb (u_path url) "" then Err (ConfigError "file:// URL has empty path") else Ok (Local (u_path url))
      else if String.eqb scheme "s3" || String.eqb scheme "s3+https" then parse_s3_url print_port url "https"
      else if String.eqb scheme "s3+http" then parse_s3_url print_port url "http"
      else if String.eqb scheme "sftp" then parse_sftp_url url
      else if String.eqb scheme "http" || String.eqb scheme "https" then Ok (RestUrl trimmed)
      else Err (UnsupportedBackend "unsupported URL scheme")
  end.

Definition enforce_secure_http (url : string) (allow_insecure_http : bool) : res unit :=
  if starts_with (to_ascii_lowercase url) "http://" then if allow_insecure_http then Ok tt else Err (ConfigError "uses insecure HTTP and is blocked by default") else Ok tt.

(** The checks before a backend is made. *)
Definition checked_url (trim : string -> string) (url_parse : string -> option Url) (print_port : Z -> string) (raw : string) (allow_insecure_http : bool) : res ParsedUrl :=
  parsed ← parse_repo_url trim url_parse print_port raw;
  _ ← match parsed with RestUrl url => enforce_secure_http url allow_insecure_http | _ => Ok tt end;
  _ ← match parsed with S3 _ _ endpoint => enforce_secure_http endpoint allow_insecure_http | _ => Ok tt end;
  Ok parsed.

(** ** A local directory *)

Record LocalState := mkLocal { lc_fs : Fs; lc_faults : list bool }.
Definition LM (A : Type) : Type := LocalState -> result IoErr A * LocalState.
#[export] Instance LM_ret : MRet LM := fun A a s => (Ok a, s).
#[export] Instance LM_bind : MBind LM := fun A B f m s => match m s with (Ok a, s') => f a s' | (Err er, s') => (Err er, s') end.

(** A system call, which may fail. *)
Definition sys {A} (f : Fs -> result IoErr (A * Fs)) : LM A := fun s =>
  match lc_faults s with
  | true :: l => (Err IoOther, mkLocal (lc_fs s) l)
  | l => match f (lc_fs s) with Ok (a, fs) => (Ok a, mkLocal fs (tail l)) | Err er => (Err er, mkLocal (lc_fs s) (tail l)) end
  end.
Definition sys_read {A} (f : Fs -> result IoErr A) : LM A := sys (fun fs => match f fs with Ok a => Ok (a, fs) | Err er => Err er end).
Definition sys_write (f : Fs -> result IoErr Fs) : LM unit := sys (fun fs => match f fs with Ok fs' => Ok (tt, fs') | Err er => Err er end).
Definition lm_fail {A} (er : IoErr) : LM A := fun s => (Err er, s).
(** What is tried, its error as a value. *)
Definition caught {A} (m : LM A) : LM (result IoErr A) := fun s => let '(r, s') := m s in (Ok r, s').

Section LocalBackend.
(** The root, and the random part of temporary names. *)
Context (root : Path) (tmp_suffix : Fs -> string).

Definition validate_key (key : string) : res unit :=
  if String.eqb key "" then Err (InvalidFormat "unsafe storage key: empty")
  else if starts_with key "/" || match key with String a _ => Ascii.eqb a backslash | EmptyString => false end then Err (InvalidFormat "unsafe storage key: absolute path")
  else if has_char backslash key then Err (InvalidFormat "unsafe storage key: contains backslash")
  else if existsb (String.eqb "..") (components key) then Err (InvalidFormat "unsafe storage key: parent traversal")
  else Ok tt.
(** [root.join(key)]; a leading dot is dropped by the system. *)
Definition local_resolve (key : string) : res Path :=
  _ ← validate_key key; Ok (root ++ List.filter (fun c => negb (String.eqb c ".")) (components key)).

Definition tmp_path (dir : Path) (fs : Fs) : Path := dir ++ [".tmp" +:+ tmp_suffix fs].

(** A temporary file that is not kept is removed. *)
Definition local_atomic_write (path : Path) (data : bytes) : LM unit :=
  let dir := parent path in
  tmp ← sys (fun fs => let t := tmp_path dir fs in match fs_create t fs with Ok fs' => Ok (t, fs') | Err er => Err er end);
  r ← caught (
    _ ← sys_write (fs_append tmp data);
    _ ← sys_read (fun _ => Ok tt);
    sys_write (fs_rename tmp path));
  match r with
  | Err er => _ ← caught (sys_write (fs_remove_file tmp)); lm_fail er
  | Ok _ => sys_read (fun fs => if is_dir fs dir then Ok tt else Err IoNotFound)
  end.

Definition io_of (er : IoErr) : VykarError := Io {| io_kind := match er with IoNotFound => NotFound | IoOther => PermissionDenied end; raw_os_error := None |}.
Definition vykar {A} (m : LM A) : LocalState -> res A * LocalState := fun s => let '(r, s') := m s in (match r with Ok a => Ok a | Err er => Err (io_of er) end, s').
(** A result where "not found" is an answer. *)
Definition or_none {A} (none : A) (m : LM A) : LM A := fun s => match m s with (Err IoNotFound, s') => (Ok none, s') | x => x end.
Definition at_key {A} (key : string) (f : Path -> LocalState -> res A * LocalState) (s : LocalState) : res A * LocalState :=
  match local_resolve key with Ok path => f path s | Err er => (Err er, s) end.

Definition local_get (key : string) : LocalState -> res (option bytes) * LocalState :=
  at_key key (fun path => vykar (or_none None (d ← sys_read (fs_read path); mret (Some d)))).
Definition local_put (key : string) (data : bytes) : LocalState -> res unit * LocalState :=
  at_key key (fun path => vykar (
    r ← caught (local_atomic_write path data);
    match r with
    | Err IoNotFound => _ ← sys_write (fs_create_dir_all (parent path)); local_atomic_write path data
    | Err er => lm_fail er
    | Ok _ => mret tt
    end)).
Definition local_delete (key : string) : LocalState -> res unit * LocalState :=
  at_key key (fun path => vykar (or_none tt (sys_write (fs_remove_file path)))).

(** [fs::metadata]: the length of a file, or a directory. *)
Definition stat (path : Path) (fs : Fs) : result IoErr (option Z) :=
  match fs_files fs !! path with
  | Some d => Ok (Some (blen d))
  | None => if is_dir fs path then Ok None else Err (absent fs path)
  end.
Definition local_exists (key : string) : LocalState -> res bool * LocalState :=
  at_key key (fun path => vykar (or_none false (m ← sys_read (stat path); mret (match m with Some _ => true | None => false end)))).
Definition local_size (key : string) : LocalState -> res (option Z) * LocalState :=
  at_key key (fun path => vykar (or_none None (sys_read (stat path)))).

(** The loop that reads until the buffer is full; each turn takes at least a
    byte. *)
Definition local_get_range (key : string) (offset length : Z) : LocalState -> res (option bytes) * LocalState :=
  at_key key (fun path s =>
    match sys_read (fs_read path) s with
    | (Err IoNotFound, s) => (Ok None, s)
    | (Err er, s) => (Err (io_of er), s)
    | (Ok data, s) =>
        match sys_read (fun _ => Ok tt) s with
        | (Err er, s) => (Err (io_of er), s)
        | (Ok _, s) =>
            let buf := slice (Z.to_nat offset) (Z.to_nat length) data in
            if negb (blen buf =? length) then (Err (Other "short read"), s) else (Ok (Some buf), s)
        end
    end).

(** All files under a directory, by their names from the root on. *)
Definition files_under (dir : Path) (fs : Fs) : list string :=
  (fun p => String.concat "/" (drop (length root) p)) <$>
    List.filter (fun p => bool_decide (take (length dir) p = dir) && (length dir <? length p)%nat) (map_to_list (fs_files fs)).*1.
Definition local_list (prefix : string) (s : LocalState) : res (list string) * LocalState :=
  match (if String.eqb prefix "" then Ok root else local_resolve prefix) with
  | Err er => (Err er, s)
  | Ok dir =>
      vykar (or_none [] (
        m ← sys_read (stat dir);
        match m with None => sys_read (fun fs => Ok (files_under dir fs)) | Some _ => mret [] end)) s
  end.
Definition local_create_dir (key : string) : LocalState -> res unit * LocalState :=
  at_key (trim_end slash key) (fun path => vykar (sys_write (fs_create_dir_all path))).
End LocalBackend.

(** ** Bandwidth limits *)

Definition BYTES_PER_MIB : Z := 1024 * 1024.
Definition mib_per_sec_to_bytes_per_sec (mib_per_sec : Z) : Z := Z.min (mib_per_sec * BYTES_PER_MIB) u64_max.
Definition NANOS : Z := 1000000000.

Record ByteRateLimiter := mkLimiter { bytes_per_sec : Z; lm_start : Z; bytes_consumed : Z }.
Definition limiter_new (rate now : Z) : ByteRateLimiter := mkLimiter rate now 0.
Definition from_mib_per_sec (mib_per_sec now : Z) : option ByteRateLimiter :=
  if mib_per_sec =? 0 then None else Some (limiter_new (mib_per_sec_to_bytes_per_sec mib_per_sec) now).

(** The limiter and the time afterwards, in ns: it sleeps at least until the
    time the bytes may have taken. *)
Definition consume (bytes now : Z) (l : ByteRateLimiter) : ByteRateLimiter * Z :=
  if (bytes =? 0) || (bytes_per_sec l =? 0) then (l, now)
  else
    let consumed := Z.min (bytes_consumed l + bytes) (2 ^ 128 - 1) in
    let elapsed := now - lm_start l in
    (mkLimiter (bytes_per_sec l) (lm_start l) consumed,
     if elapsed * bytes_per_sec l <? consumed * NANOS then lm_start l + (consumed * NANOS + bytes_per_sec l - 1) / bytes_per_sec l else now).

(** The methods of the trait, over a state. *)
Record Backend (St : Type) := mkBackend {
  b_get : string -> St -> res (option bytes) * St;
  b_put : string -> bytes -> St -> res unit * St;
  b_delete : string -> St -> res unit * St;
  b_exists : string -> St -> res bool * St;
  b_list : string -> St -> res (list string) * St;
  b_get_range : string -> Z -> Z -> St -> res (option bytes) * St;
  b_create_dir : string -> St -> res unit * St;
  b_size : string -> St -> res (option Z) * St;
  b_server_repack : RepackPlanRequest -> St -> res (list RepackOperationResult) * St;
  b_batch_delete_keys : list string -> St -> res unit * St;
  b_server_verify_packs : VerifyPacksPlanRequest -> St -> res VerifyPacksResponse * St;
  b_server_init : St -> res unit * St;
}.
Arguments b_get {St}. Arguments b_put {St}. Arguments b_delete {St}. Arguments b_exists {St}. Arguments b_list {St}. Arguments b_get_range {St}.
Arguments b_create_dir {St}. Arguments b_size {St}. Arguments b_server_repack {St}. Arguments b_batch_delete_keys {St}. Arguments b_server_verify_packs {St}. Arguments b_server_init {St}.

(** The provided methods of the trait. *)
Definition default_server_repack {St} (plan : RepackPlanRequest) (s : St) : res (list RepackOperationResult) * St := (Err (UnsupportedBackend "server-side repack API"), s).
Definition default_batch_delete_keys {St} (keys : list string) (s : St) : res unit * St := (Err (UnsupportedBackend "batch delete API"), s).
Definition default_server_verify_packs {St} (plan : VerifyPacksPlanRequest) (s : St) : res VerifyPacksResponse * St := (Err (UnsupportedBackend "server-side verify-packs API"), s).
Definition default_server_init {St} (s : St) : res unit * St := (Err (UnsupportedBackend "server-side init API"), s).

Definition local_backend (root : Path) (tmp_suffix : Fs -> string) : Backend LocalState := {|
  b_get := local_get root; b_put := local_put root tmp_suffix; b_delete := local_delete root; b_exists := local_exists root;
  b_list := local_list root; b_get_range := local_get_range root; b_create_dir := local_create_dir root; b_size := local_size root;
  b_server_repack := default_server_repack; b_batch_delete_keys := default_batch_delete_keys;
  b_server_verify_packs := default_server_verify_packs; b_server_init := default_server_init;
|}.

Record Throttled (St : Type) := mkThrottled { th_inner : St; th_read : option ByteRateLimiter; th_write : option ByteRateLimiter; th_now : Z }.
Arguments mkThrottled {St}. Arguments th_inner {St}. Arguments th_read {St}. Arguments th_write {St}. Arguments th_now {St}.

Section Throttle.
(** How long a call of the inner backend takes. *)
Context {St : Type} (inner : Backend St) (took : Z -> Z).

Definition pass {A} (op : St -> res A * St) (s : Throttled St) : res A * Throttled St :=
  let '(r, i) := op (th_inner s) in (r, mkThrottled i (th_read s) (th_write s) (took (th_now s))).
Definition pay_read (n : Z) (s : Throttled St) : Throttled St :=
  match th_read s with Some l => let '(l, t) := consume n (th_now s) l in mkThrottled (th_inner s) (Some l) (th_write s) t | None => s end.
Definition pay_write (n : Z) (s : Throttled St) : Throttled St :=
  match th_write s with Some l => let '(l, t) := consume n (th_now s) l in mkThrottled (th_inner s) (th_read s) (Some l) t | None => s end.
Definition pay_answer (r : res (option bytes) * Throttled St) : res (option bytes) * Throttled St :=
  match r with (Ok (Some data), s) => (Ok (Some data), pay_read (blen data) s) | _ => r end.

Definition throttled : Backend (Throttled St) := {|
  b_get := fun key s => pay_answer (pass (b_get inner key) s);
  b_put := fun key data s => pass (b_put inner key data) (pay_write (blen data) s);
  b_delete := fun key => pass (b_delete inner key);
  b_exists := fun key => pass (b_exists inner key);
  b_list := fun prefix => pass (b_list inner prefix);
  b_get_range := fun key offset length s => pay_answer (pass (b_get_range inner key offset length) s);
  b_create_dir := fun key => pass (b_create_dir inner key);
  b_size := fun key => pass (b_size inner key);
  b_server_repack := fun plan => pass (b_server_repack inner plan);
  b_batch_delete_keys := fun keys => pass (b_batch_delete_keys inner keys);
  b_server_verify_packs := default_server_verify_packs;
  b_server_init := default_server_init;
|}.
End Throttle.

(** With no limit the backend is not wrapped. *)
Definition limiters (download_mib_per_sec upload_mib_per_sec now : Z) : option (option ByteRateLimiter * option ByteRateLimiter) :=
  let read_bps := mib_per_sec_to_bytes_per_sec download_mib_per_sec in
  let write_bps := mib_per_sec_to_bytes_per_sec upload_mib_per_sec in
  if (read_bps =? 0) && (write_bps =? 0) then None
  else Some ((if 0 <? read_bps then Some (limiter_new read_bps now) else None), (if 0 <? write_bps then Some (limiter_new write_bps now) else None)).

(** ** Standing for the storage interface *)

(** [impl] does what [op] may do, for some fault of the one call. *)
Definition stands_for {St A} (rep : Store -> St -> Prop) (impl : St -> res A * St) (op : M A) : Prop :=
  forall m s, rep m s -> let '(r, s') := impl s in
  exists fl r' w', op (mkWorld m fl) = (r', w') /\ same_answer r r' /\ rep (objects w') s'.

Lemma stands_read {St A} rep (impl : St -> res A * St) (op : M A) :
  (forall m, exists er, op (mkWorld m [FailBefore]) = (Err er, mkWorld m [])) ->
  (forall m s, rep m s -> let '(r, s') := impl s in rep m s' /\ forall a, r = Ok a -> op (mkWorld m []) = (Ok a, mkWorld m [])) -> stands_for rep impl op.
Proof.
  intros Herr Hi m s Hr. specialize (Hi m s Hr). destruct (impl s) as [[a|er] s']; destruct Hi as [H1 H2].
  - exists [], (Ok a), (mkWorld m []). split; [by apply H2|]. by split.
  - destruct (Herr m) as [er' E]. by exists [FailBefore], (Err er'), (mkWorld m []).
Qed.
Lemma stands_write {St} rep (impl : St -> res unit * St) (g : Store -> Store) :
  (forall m s, rep m s -> let '(r, s') := impl s in (rep m s' \/ rep (g m) s') /\ (r = Ok tt -> rep (g m) s')) -> stands_for rep impl (Storage.writing g).
Proof.
  intros Hi m s Hr. specialize (Hi m s Hr). destruct (impl s) as [[[]|er] s']; destruct Hi as [H1 H2].
  - exists [], (Ok tt), (mkWorld (g m) []). split; [done|]. split; [done|]. by apply H2.
  - destruct H1 as [H1|H1]; [by exists [FailBefore], (Err storage_error), (mkWorld m [])|by exists [FailAfter], (Err storage_error), (mkWorld (g m) [])].
Qed.

(** ** The local backend stands for it *)

Lemma sys_cases {A} (f : Fs -> result IoErr (A * Fs)) s : let '(r, s') := sys f s in
  (exists a, r = Ok a /\ f (lc_fs s) = Ok (a, lc_fs s')) \/ (exists er, r = Err er /\ lc_fs s' = lc_fs s /\ (er = IoNotFound -> f (lc_fs s) = Err IoNotFound)).
Proof.
  unfold sys. destruct (lc_faults s) as [|[] l].
  - destruct (f (lc_fs s)) as [[a fs]|er]; [left; by exists a|right]. exists er. split; [done|]. split; [done|]. by intros ->.
  - right. by exists IoOther.
  - destruct (f (lc_fs s)) as [[a fs]|er]; [left; by exists a|right]. exists er. split; [done|]. split; [done|]. by intros ->.
Qed.
Lemma sys_write_cases f s : let '(r, s') := sys_write f s in (r = Ok tt /\ f (lc_fs s) = Ok (lc_fs s')) \/ (exists er, r = Err er /\ lc_fs s' = lc_fs s /\ (er = IoNotFound -> f (lc_fs s) = Err IoNotFound)).
Proof.
  unfold sys_write. pose proof (sys_cases (fun fs => match f fs with Ok fs' => Ok (tt, fs') | Err er => Err er end) s) as H. destruct (sys _ s) as [r s'].
  destruct H as [([] & -> & H)|(er & -> & H1 & H2)].
  - left. split; [done|]. destruct (f (lc_fs s)); [|done]. by injection H as ->.
  - right. exists er. split; [done|]. split; [done|]. intros He. specialize (H2 He). destruct (f (lc_fs s)); [done|]. by injection H2 as ->.
Qed.
Lemma sys_read_cases {A} (f : Fs -> result IoErr A) s : let '(r, s') := sys_read f s in
  lc_fs s' = lc_fs s /\ ((exists a, r = Ok a /\ f (lc_fs s) = Ok a) \/ (exists er, r = Err er /\ (er = IoNotFound -> f (lc_fs s) = Err IoNotFound))).
Proof.
  unfold sys_read. pose proof (sys_cases (fun fs => match f fs with Ok a => Ok (a, fs) | Err er => Err er end) s) as H. destruct (sys _ s) as [r s'].
  destruct H as [(a & -> & H)|(er & -> & H1 & H2)].
  - destruct (f (lc_fs s)); [|done]. injection H as -> ->. split; [done|left]. by exists a.
  - split; [done|right]. exists er. split; [done|]. intros He. specialize (H2 He). destruct (f (lc_fs s)); [done|]. by injection H2 as ->.
Qed.

(** Files but temporary ones. *)
Definition temp_like (q : Path) : bool := starts_with (file_name q) ".tmp".
Definition same_files (a b : gmap Path bytes) : Prop := forall q, temp_like q = false -> a !! q = b !! q.
Lemma same_files_trans a b c : same_files a b -> same_files b c -> same_files a c.
Proof. intros H1 H2 q Hq. by rewrite H1, H2. Qed.
Lemma same_files_insert a b q d : same_files a b -> same_files (<[q := d]> a) (<[q := d]> b).
Proof. intros H p Hp. destruct (decide (q = p)) as [->|Hn]; [by rewrite !lookup_insert_eq|rewrite !lookup_insert_ne by done; by apply H]. Qed.
Lemma same_files_temp a q d : temp_like q = true -> same_files a (<[q := d]> a).
Proof. intros Hq p Hp. rewrite lookup_insert_ne; [done|]. congruence. Qed.
Lemma same_files_delete a q : temp_like q = true -> same_files a (delete q a).
Proof. intros Hq p Hp. rewrite lookup_delete_ne; [done|]. congruence. Qed.

Section LocalLaws.
Context (root : Path) (tmp_suffix : Fs -> string).

Lemma tmp_path_temp dir fs : temp_like (tmp_path tmp_suffix dir fs) = true.
Proof. unfold temp_like, tmp_path, file_name. rewrite List.last_last. apply starts_with_prefix. Qed.

(** A write is there, or it is not, and it is there when it is reported. *)
Definition writes (path : Path) (data : bytes) (s : LocalState) (r : result IoErr unit) (s' : LocalState) : Prop :=
  let old := fs_files (lc_fs s) in let new := fs_files (lc_fs s') in
  (same_files old new \/ same_files (<[path := data]> old) new) /\ (r = Ok tt -> same_files (<[path := data]> old) new).

Lemma local_atomic_write_writes path data s : temp_like path = false ->
  let '(r, s') := local_atomic_write tmp_suffix path data s in writes path data s r s'.
Proof.
  intros Hpath. unfold local_atomic_write. cbv zeta. unfold mbind at 1, LM_bind at 1.
  pose proof (sys_cases (fun fs => match fs_create (tmp_path tmp_suffix (parent path) fs) fs with Ok fs' => Ok (tmp_path tmp_suffix (parent path) fs, fs') | Err er => Err er end) s) as H.
  destruct (sys _ s) as [r1 s1]. destruct H as [(tmp & -> & Hc)|(er & -> & H1 & _)]; [|split; [left; by rewrite H1|done]].
  destruct (fs_create (tmp_path tmp_suffix (parent path) (lc_fs s)) (lc_fs s)) as [fs1|] eqn:Hcr; [|done]. injection Hc as Htmp ->. pose proof (tmp_path_temp (parent path) (lc_fs s)) as Ht. rewrite Htmp in Ht, Hcr.
  assert (Hf1 : fs_files (lc_fs s1) = <[tmp := []]> (fs_files (lc_fs s))).
  { unfold fs_create in Hcr. destruct (is_dir _ tmp); [done|]. destruct (is_dir _ _); [|done]. by injection Hcr as <-. }
  assert (Hsame1 : same_files (fs_files (lc_fs s)) (fs_files (lc_fs s1))) by (rewrite Hf1; by apply same_files_temp).
  (* what the inner calls leave *)
  assert (Hinner : let '(r, s2) := (_ ← sys_write (fs_append tmp data); _ ← sys_read (fun _ => Ok tt); sys_write (fs_rename tmp path)) s1 in
    (r = Ok tt /\ same_files (<[path := data]> (fs_files (lc_fs s))) (fs_files (lc_fs s2))) \/ ((exists er, r = Err er) /\ same_files (fs_files (lc_fs s)) (fs_files (lc_fs s2)))).
  { unfold mbind, LM_bind. pose proof (sys_write_cases (fs_append tmp data) s1) as Ha. destruct (sys_write (fs_append tmp data) s1) as [r2 s2].
    destruct Ha as [[-> Ha]|(er & -> & Ha & _)]; [|right; split; [by exists er|by rewrite Ha]].
    unfold fs_append in Ha. rewrite Hf1, lookup_insert_eq in Ha. injection Ha as Ha. assert (Hf2 : fs_files (lc_fs s2) = <[tmp := data]> (fs_files (lc_fs s))) by (rewrite <- Ha; cbn [fs_files]; by rewrite insert_insert_eq).
    pose proof (sys_read_cases (fun _ : Fs => Ok tt) s2) as Hr. destruct (sys_read (fun _ : Fs => Ok tt) s2) as [r3 s3]. destruct Hr as [Hs3 Hr].
    destruct Hr as [([] & -> & _)|(er & -> & _)]; [|right; split; [by exists er|rewrite Hs3, Hf2; by apply same_files_temp]].
    pose proof (sys_write_cases (fs_rename tmp path) s3) as Hn. destruct (sys_write (fs_rename tmp path) s3) as [r4 s4].
    destruct Hn as [[-> Hn]|(er & -> & Hn & _)]; [left; split; [done|]|right; split; [by exists er|rewrite Hn, Hs3, Hf2; by apply same_files_temp]].
    unfold fs_rename in Hn. rewrite Hs3, Hf2, lookup_insert_eq in Hn. destruct (is_dir _ path); [done|]. destruct (is_dir _ (parent path)); [|done]. injection Hn as <-. cbn [fs_files].
    rewrite delete_insert_eq. apply same_files_insert. by apply same_files_delete. }
  unfold mbind at 1, LM_bind at 1, caught at 1. destruct ((_ ← sys_write (fs_append tmp data); _ ← sys_read (fun _ => Ok tt); sys_write (fs_rename tmp path)) s1) as [r2 s2].
  destruct Hinner as [[-> H2]|[[er ->] H2]].
  - pose proof (sys_read_cases (fun fs => if is_dir fs (parent path) then Ok tt else Err IoNotFound) s2) as Hr. destruct (sys_read _ s2) as [r3 s3]. destruct Hr as [Hs3 _].
    unfold writes. cbv zeta. rewrite Hs3. split; [by right|done].
  - unfold mbind, LM_bind, caught, lm_fail. pose proof (sys_write_cases (fs_remove_file tmp) s2) as Hr. destruct (sys_write (fs_remove_file tmp) s2) as [r3 s3]. split; [left|done].
    destruct Hr as [[-> Hr]|(er' & -> & Hr & _)]; [|by rewrite Hr]. unfold fs_remove_file in Hr. destruct (fs_files (lc_fs s2) !! tmp); [|done]. injection Hr as <-. cbn [fs_files].
    eapply same_files_trans; [exact H2|]. by apply same_files_delete.
Qed.

(** *** Keys *)

Definition local_key (key : string) : Prop :=
  Forall safe_name (split_on slash key) /\ starts_with (List.last (split_on slash key) "") ".tmp" = false.

Lemma has_char_split c sep key : c <> sep -> Forall (fun part => has_char c part = false) (split_on sep key) -> has_char c key = false.
Proof.
  intros Hne. induction key as [|a key IH]; [done|]. cbn [split_on has_char]. destruct (Ascii.eqb_spec a sep) as [->|Ha].
  - intros [_ H]%Forall_cons. rewrite (IH H), orb_false_r. destruct (Ascii.eqb_spec sep c); [congruence|done].
  - pose proof (split_on_nonempty sep key) as Hnn. destruct (split_on sep key) as [|x xs]; [done|]. intros [Hx H]%Forall_cons. cbn [has_char] in Hx.
    apply orb_false_iff in Hx as [Hac Hx]. rewrite Hac. apply IH. by apply Forall_cons.
Qed.
Lemma safe_key_head key : Forall safe_name (split_on slash key) -> starts_with key "/" = false /\ key <> "".
Proof.
  destruct key as [|a key]; cbn [split_on]; [intros [[? _] _]%Forall_cons; done|]. unfold slash. cbn [starts_with]. destruct (Ascii.eqb_spec a "/") as [->|Ha].
  - intros [[? _] _]%Forall_cons. done.
  - intros _. destruct (Ascii.eqb_spec "/" a) as [<-|]; [done|]. done.
Qed.

Lemma local_components key : Forall safe_name (split_on slash key) -> components key = split_on slash key.
Proof.
  intros Hs. destruct (safe_key_head key Hs) as [Hh _]. unfold components. rewrite Hh.
  assert (H1 : List.filter (fun c => negb (String.eqb c "")) (split_on slash key) = split_on slash key).
  { apply filter_all. eapply Forall_impl; [exact Hs|]. intros c [Hc _]. by destruct (String.eqb_spec c ""). }
  unfold slash in *. rewrite H1. destruct (split_on "/" key) as [|c parts] eqn:E; [done|]. f_equal. apply filter_all. apply Forall_cons in Hs as [_ Hs].
  eapply Forall_impl; [exact Hs|]. intros c' (_ & Hc & _). by destruct (String.eqb_spec c' ".").
Qed.

Lemma local_resolve_key key : local_key key -> local_resolve root key = Ok (root ++ split_on slash key).
Proof.
  intros [Hs _]. destruct (safe_key_head key Hs) as [Hh Hne]. unfold local_resolve, validate_key. destruct (String.eqb_spec key ""); [done|]. rewrite Hh.
  assert (Hb : has_char backslash key = false).
  { apply (has_char_split _ slash); [done|]. eapply Forall_impl; [exact Hs|]. by intros c (_ & _ & _ & _ & _ & ?). }
  rewrite Hb. replace (match key with String a _ => Ascii.eqb a backslash | EmptyString => false end) with false.
  2:{ destruct key as [|a key]; [done|]. cbn [has_char] in Hb. by apply orb_false_iff in Hb as [-> _]. }
  cbn [orb]. rewrite (local_components key Hs). replace (existsb (String.eqb "..") (split_on slash key)) with false.
  - cbn [mbind result_bind]. f_equal. f_equal. apply filter_all. eapply Forall_impl; [exact Hs|]. intros c' (_ & Hc & _). by destruct (String.eqb_spec c' ".").
  - symmetry. apply not_true_iff_false. intros (c & Hc%list_elem_of_In & Heq)%existsb_exists. rewrite Forall_forall in Hs. destruct (Hs c Hc) as (_ & _ & Hd & _).
    by destruct (String.eqb_spec ".." c).
Qed.

#[local] Abbreviation place key := (root ++ split_on slash key).
Lemma place_inj key key' : place key = place key' -> key = key'.
Proof. intros E%app_inv_head. by eapply split_on_inj. Qed.
Lemma place_not_temp key : local_key key -> temp_like (place key) = false.
Proof.
  intros [_ Ht]. unfold temp_like, file_name. destruct (exists_last (split_on_nonempty slash key)) as (l & x & E). rewrite E in *. rewrite app_assoc, !List.last_last in *. done.
Qed.

(** The objects in the directory. *)
Definition local_rep (m : Store) (s : LocalState) : Prop := forall key, local_key key -> fs_files (lc_fs s) !! place key = m !! key.

Lemma local_rep_same m s s' : local_rep m s -> same_files (fs_files (lc_fs s)) (fs_files (lc_fs s')) -> local_rep m s'.
Proof. intros Hr Hs key Hk. rewrite <- Hs by (by apply place_not_temp). by apply Hr. Qed.
Lemma local_rep_fs m s s' : local_rep m s -> lc_fs s' = lc_fs s -> local_rep m s'.
Proof. intros Hr Hs key Hk. rewrite Hs. by apply Hr. Qed.
Lemma local_rep_insert m s s' key data : local_key key -> local_rep m s -> same_files (<[place key := data]> (fs_files (lc_fs s))) (fs_files (lc_fs s')) -> local_rep (<[key := data]> m) s'.
Proof.
  intros Hk Hr Hs key' Hk'. rewrite <- Hs by (by apply place_not_temp). destruct (decide (key = key')) as [<-|Hn]; [by rewrite !lookup_insert_eq|].
  rewrite !lookup_insert_ne; [by apply Hr|done|]. intros E. by apply Hn, place_inj.
Qed.
Lemma local_rep_delete m s s' key : local_key key -> local_rep m s -> fs_files (lc_fs s') = delete (place key) (fs_files (lc_fs s)) -> local_rep (delete key m) s'.
Proof.
  intros Hk Hr Hs key' Hk'. rewrite Hs. destruct (decide (key = key')) as [<-|Hn]; [by rewrite !lookup_delete_eq|].
  rewrite !lookup_delete_ne; [by apply Hr|done|]. intros E. by apply Hn, place_inj.
Qed.

(** A call at a key, when the key is good. *)
Lemma at_key_good {A} key (f : Path -> LocalState -> res A * LocalState) s : local_key key -> at_key root key f s = f (place key) s.
Proof. intros Hk. unfold at_key. by rewrite (local_resolve_key key Hk). Qed.

(** Reading calls: what is answered is read from the files. *)
Lemma vykar_read {A B} (f : Fs -> result IoErr A) (k : A -> B) none s :
  let '(r, s') := vykar (or_none none (x ← sys_read f; mret (k x))) s in
  lc_fs s' = lc_fs s /\ forall b, r = Ok b -> match f (lc_fs s) with Ok a => b = k a | Err IoNotFound => b = none | Err IoOther => False end.
Proof.
  unfold vykar, or_none, mbind, LM_bind. pose proof (sys_read_cases f s) as H. destruct (sys_read f s) as [r s']. destruct H as [Hs [(a & -> & ->)|(er & -> & Her)]].
  - split; [done|]. by intros b [= <-].
  - destruct er; (split; [done|]); [|done]. intros b [= <-]. by rewrite Her.
Qed.

Lemma local_get_stands key : local_key key -> stands_for local_rep (local_get root key) (Storage.get key).
Proof.
  intros Hk. apply stands_read; [intros m; by eexists|]. intros m s Hr. unfold local_get. rewrite (at_key_good key _ s Hk).
  pose proof (vykar_read (fs_read (place key)) Some None s) as H. destruct (vykar _ s) as [r s']. destruct H as [Hs Ha]. split; [by eapply local_rep_fs|].
  intros b Hb. specialize (Ha b Hb). unfold fs_read in Ha. rewrite (Hr key Hk) in Ha. unfold Storage.get, reading, next_fault. cbn [faults objects]. f_equal. f_equal.
  destruct (m !! key); [by subst b|]. destruct (is_dir _ _); [done|]. by destruct (absent _ _).
Qed.
Lemma stat_some key m s : local_key key -> local_rep m s -> stat (place key) (lc_fs s) = match m !! key with Some d => Ok (Some (blen d)) | None => if is_dir (lc_fs s) (place key) then Ok None else Err (absent (lc_fs s) (place key)) end.
Proof. intros Hk Hr. unfold stat. by rewrite (Hr key Hk). Qed.
Lemma local_exists_stands key : local_key key -> stands_for local_rep (local_exists root key) (Storage.exists_ key).
Proof.
  intros Hk. apply stands_read; [intros m; by eexists|]. intros m s Hr. unfold local_exists. rewrite (at_key_good key _ s Hk).
  pose proof (vykar_read (stat (place key)) (fun m => match m with Some _ => true | None => false end) false s) as H. destruct (vykar _ s) as [r s']. destruct H as [Hs Ha].
  split; [by eapply local_rep_fs|]. intros b Hb. specialize (Ha b Hb). rewrite (stat_some key m s Hk Hr) in Ha. unfold exists_, reading, next_fault. cbn [faults objects]. f_equal. f_equal.
  destruct (m !! key); [by subst b|]. destruct (is_dir _ _); [by subst b|]. destruct (absent _ _); [by subst b|done].
Qed.
Lemma local_size_stands key : local_key key -> stands_for local_rep (local_size root key) (Storage.size_of key).
Proof.
  intros Hk. apply stands_read; [intros m; by eexists|]. intros m s Hr. unfold local_size. rewrite (at_key_good key _ s Hk).
  assert (E : forall x, (y ← sys_read (stat (place key)); mret y) x = sys_read (stat (place key)) x) by (intros x; unfold mbind, LM_bind; by destruct (sys_read _ x) as [[?|?] ?]).
  pose proof (vykar_read (stat (place key)) id None s) as H. unfold vykar, or_none in *. cbn [id] in H. unfold id in H. rewrite E in H.
  destruct (sys_read (stat (place key)) s) as [r s']. destruct (match r with Err IoNotFound => _ | _ => _ end) as [r2 s2]. destruct H as [Hs Ha].
  split; [by eapply local_rep_fs|]. intros b Hb. specialize (Ha b Hb). rewrite (stat_some key m s Hk Hr) in Ha. unfold size_of, Storage.get, reading, next_fault, mbind, M_bind. cbn [faults objects].
  unfold mret, M_ret. f_equal. f_equal. destruct (m !! key); [by subst b|]. cbn. destruct (is_dir _ _); [by subst b|]. destruct (absent _ _); [by subst b|done].
Qed.
Lemma local_range_stands key offset length : local_key key -> stands_for local_rep (local_get_range root key offset length) (Storage.get_range key offset length).
Proof.
  intros Hk. apply stands_read; [intros m; by eexists|]. intros m s Hr. unfold local_get_range. rewrite (at_key_good key _ s Hk).
  pose proof (sys_read_cases (fs_read (place key)) s) as H. destruct (sys_read (fs_read (place key)) s) as [r s1]. destruct H as [Hs Hor].
  assert (Hr1 : local_rep m s1) by (by eapply local_rep_fs). destruct Hor as [(d & -> & Hd)|(er & -> & Her)].
  - pose proof (sys_read_cases (fun _ : Fs => Ok tt) s1) as H2. destruct (sys_read (fun _ : Fs => Ok tt) s1) as [r2 s2]. destruct H2 as [Hs2 Hor].
    assert (Hr2 : local_rep m s2) by (by eapply local_rep_fs). destruct Hor as [([] & -> & _)|(er & -> & _)]; [|done]. cbv zeta.
    unfold fs_read in Hd. rewrite (Hr key Hk) in Hd. unfold Storage.get_range, reading, next_fault, mbind, M_bind. cbn [faults objects].
    destruct (m !! key) as [d'|]; [|done]. injection Hd as ->. fold (blen (slice (Z.to_nat offset) (Z.to_nat length) d)).
    destruct (_ =? length); cbn [negb]; (split; [done|]); [|done]. by intros a [= <-].
  - destruct er; [|done]. split; [done|]. intros a [= <-]. specialize (Her eq_refl). unfold fs_read in Her. rewrite (Hr key Hk) in Her.
    unfold Storage.get_range, reading, next_fault, mbind, M_bind. cbn [faults objects]. by destruct (m !! key).
Qed.

Lemma local_put_stands key data : local_key key -> stands_for local_rep (local_put root tmp_suffix key data) (Storage.put key data).
Proof.
  intros Hk. apply stands_write. intros m s Hr. unfold local_put. rewrite (at_key_good key _ s Hk). pose proof (place_not_temp key Hk) as Hp.
  assert (Hwr : forall r (x x' : LocalState), same_files (fs_files (lc_fs s)) (fs_files (lc_fs x)) -> writes (place key) data x r x' ->
    (local_rep m x' \/ local_rep (<[key := data]> m) x') /\ (r = Ok tt -> local_rep (<[key := data]> m) x')).
  { intros r x x' Hsx [H1 H2]. assert (Hrx : local_rep m x) by (by eapply local_rep_same). split; [|intros Hok; by eapply local_rep_insert; [| |apply H2]].
    destruct H1 as [H1|H1]; [left; by eapply local_rep_same|right; by eapply local_rep_insert]. }
  unfold vykar, mbind, LM_bind, caught. pose proof (local_atomic_write_writes (place key) data s Hp) as H1. destruct (local_atomic_write tmp_suffix (place key) data s) as [r1 s1].
  pose proof (Hwr r1 s s1 ltac:(done) H1) as [W1 W2]. destruct r1 as [[]|[|]].
  - cbn. split; [done|auto].
  - pose proof (sys_write_cases (fs_create_dir_all (parent (place key))) s1) as Hc. destruct (sys_write (fs_create_dir_all (parent (place key))) s1) as [r2 s2].
    assert (Hf2 : fs_files (lc_fs s2) = fs_files (lc_fs s1)).
    { destruct Hc as [[_ Hc]|(er & _ & -> & _)]; [|done]. unfold fs_create_dir_all in Hc. destruct (_ || _); [done|]. by injection Hc as <-. }
    assert (W1' : local_rep m s2 \/ local_rep (<[key := data]> m) s2) by (destruct W1 as [W1|W1]; [left|right]; (eapply local_rep_same; [exact W1|]; by rewrite Hf2)).
    destruct Hc as [[-> _]|(er & -> & _)]; [|split; [done|done]].
    pose proof (local_atomic_write_writes (place key) data s2 Hp) as H3. destruct (local_atomic_write tmp_suffix (place key) data s2) as [r3 s3].
    assert (Hfin : (local_rep m s3 \/ local_rep (<[key := data]> m) s3) /\ (r3 = Ok tt -> local_rep (<[key := data]> m) s3)).
    { destruct H1 as [Hor _]. rewrite <- Hf2 in Hor. destruct Hor as [Hsm|Hput]; [by apply (Hwr r3 s2)|].
      assert (Hr2 : local_rep (<[key := data]> m) s2) by (by eapply local_rep_insert). destruct H3 as [H3 H4].
      assert (Hins : same_files (<[place key := data]> (fs_files (lc_fs s2))) (fs_files (lc_fs s3)) -> local_rep (<[key := data]> m) s3).
      { intros Hx. rewrite <- (insert_insert_eq m key data data). by eapply local_rep_insert. }
      split; [right; destruct H3 as [H3|H3]; [by eapply local_rep_same|by apply Hins]|auto]. }
    destruct Hfin as [F1 F2]. destruct r3 as [[]|er3]; (split; [done|]); [auto|done].
  - cbn. split; [done|done].
Qed.
Lemma local_delete_stands key : local_key key -> stands_for local_rep (local_delete root key) (Storage.del key).
Proof.
  intros Hk. apply stands_write. intros m s Hr. unfold local_delete. rewrite (at_key_good key _ s Hk). unfold vykar, or_none.
  pose proof (sys_write_cases (fs_remove_file (place key)) s) as H. destruct (sys_write (fs_remove_file (place key)) s) as [r s1].
  destruct H as [[-> H]|(er & -> & Hs & Her)].
  - unfold fs_remove_file in H. destruct (fs_files (lc_fs s) !! place key); [|done]. injection H as H. assert (Hd : local_rep (delete key m) s1) by (eapply local_rep_delete; [done|done|by rewrite <- H]).
    split; [by right|done].
  - assert (Hr1 : local_rep m s1) by (by eapply local_rep_fs). destruct er; [|split; [by left|done]]. specialize (Her eq_refl). unfold fs_remove_file in Her. rewrite (Hr key Hk) in Her.
    destruct (m !! key) eqn:Hm; [done|]. split; [by left|]. intros _. by rewrite delete_id.
Qed.

(** *** Listing *)

Lemma split_on_app c a b : split_on c (a +:+ String c b) = split_on c a ++ split_on c b.
Proof.
  induction a as [|x a IH].
  - change ("" +:+ String c b) with (String c b). cbn [split_on]. by rewrite Ascii.eqb_refl.
  - change (String x a +:+ String c b) with (String x (a +:+ String c b)). cbn [split_on]. rewrite IH. destruct (Ascii.eqb x c); [done|].
    pose proof (split_on_nonempty c a). by destruct (split_on c a).
Qed.
Lemma concat_split key : String.concat "/" (split_on slash key) = key.
Proof.
  induction key as [|a key IH]; [done|]. cbn [split_on]. unfold slash in *. destruct (Ascii.eqb_spec a "/") as [->|Ha].
  - pose proof (split_on_nonempty "/" key) as Hn. destruct (split_on "/" key) as [|x xs] eqn:E; [done|].
    change (String.concat "/" ("" :: x :: xs)) with ("" +:+ "/" +:+ String.concat "/" (x :: xs)). by rewrite IH.
  - pose proof (split_on_nonempty "/" key) as Hn. destruct (split_on "/" key) as [|x [|y ys]] eqn:E; [done| |].
    + cbn [String.concat] in *. by rewrite IH.
    + change (String.concat "/" (String a x :: y :: ys)) with (String a (String.concat "/" (x :: y :: ys))). by rewrite IH.
Qed.
(** The keys below a directory are those with its name and a slash before. *)
Lemma below_prefix dir key : (exists b, key = dir +:+ String slash b) <-> (take (length (split_on slash dir)) (split_on slash key) = split_on slash dir /\ (length (split_on slash dir) < length (split_on slash key))%nat).
Proof.
  split.
  - intros [b ->]. rewrite split_on_app, take_app_length, length_app. split; [done|]. pose proof (split_on_nonempty slash b) as Hn. destruct (split_on slash b); [done|]. cbn [length]. lia.
  - intros [Ht Hl]. set (l := split_on slash dir) in *. destruct (drop (length l) (split_on slash key)) as [|x xs] eqn:Hd.
    { apply (f_equal length) in Hd. rewrite length_drop in Hd. cbn in Hd. lia. }
    assert (E : split_on slash key = l ++ x :: xs) by (rewrite <- Hd, <- Ht at 1; by rewrite take_drop).
    exists (String.concat "/" (x :: xs)). rewrite <- (concat_split key), E. rewrite <- (concat_split dir). fold l. clear. assert (Hl : l <> []) by (apply split_on_nonempty).
    clearbody l. induction l as [|y l IH]; [done|]. destruct l as [|z l]; [done|].
    change (String.concat "/" ((y :: z :: l) ++ x :: xs)) with (y +:+ "/" +:+ String.concat "/" ((z :: l) ++ x :: xs)). rewrite IH by done.
    change (String.concat "/" (y :: z :: l)) with (y +:+ "/" +:+ String.concat "/" (z :: l)). by rewrite <- !str_app_assoc.
Qed.

Lemma resolve_dir dir : Forall safe_name (split_on slash dir) -> local_resolve root (dir +:+ "/") = Ok (root ++ split_on slash dir).
Proof.
  intros Hs. destruct (safe_key_head dir Hs) as [Hh Hne]. unfold local_resolve, validate_key. destruct dir as [|a dir]; [done|].
  change (String a dir +:+ "/") with (String a (dir +:+ "/")). assert (Hb : has_char backslash (String a (dir +:+ "/")) = false).
  { change (String a (dir +:+ "/")) with (String a dir +:+ String slash ""). apply (has_char_split _ slash); [done|]. rewrite split_on_app. apply Forall_app. split.
    - eapply Forall_impl; [exact Hs|]. by intros c (_ & _ & _ & _ & _ & ?).
    - by apply Forall_singleton. }
  rewrite Hb. cbn [has_char] in Hb. apply orb_false_iff in Hb as [-> _]. cbn [starts_with] in Hh |- *. apply andb_false_iff in Hh as [Hh|Hh]; [|by destruct dir]. rewrite Hh. cbn [andb orb]. destruct (String.eqb_spec (String a (dir +:+ "/")) "") as [E|_]; [done|].
  assert (Hc : components (String a (dir +:+ "/")) = split_on slash (String a dir)).
  { rewrite <- (local_components _ Hs). unfold components. cbn [starts_with]. rewrite Hh. cbn [andb].
    change (String a (dir +:+ "/")) with (String a dir +:+ String slash ""). unfold slash. rewrite split_on_app, List.filter_app. cbn [List.filter split_on String.eqb negb]. by rewrite app_nil_r. }
  rewrite Hc. replace (existsb (String.eqb "..") (split_on slash (String a dir))) with false.
  - cbn [mbind result_bind]. f_equal. f_equal. apply filter_all. eapply Forall_impl; [exact Hs|]. intros c' (_ & Hc' & _). by destruct (String.eqb_spec c' ".").
  - symmetry. apply not_true_iff_false. intros (c & Hc'%list_elem_of_In & Heq)%existsb_exists. rewrite Forall_forall in Hs. destruct (Hs c Hc') as (_ & _ & Hd & _).
    by destruct (String.eqb_spec ".." c).
Qed.

(** No name of a file holds a slash. *)
Definition plain_names (fs : Fs) : Prop := forall p, is_Some (fs_files fs !! p) -> Forall (fun c => str_all (fun a => negb (Ascii.eqb a slash)) c = true) p.

Lemma files_under_spec dir key m s : local_key key -> local_rep m s -> plain_names (lc_fs s) ->
  key ∈ files_under root (root ++ split_on slash dir) (lc_fs s) <-> is_Some (m !! key) /\ exists b, key = dir +:+ String slash b.
Proof.
  intros Hk Hr Hpn. rewrite below_prefix. unfold files_under. rewrite list_elem_of_fmap. split.
  - intros (p & Hp & Hin). apply list_elem_of_In, filter_In in Hin as [Hin Hf]. apply andb_true_iff in Hf as [Ht%bool_decide_eq_true Hl%Nat.ltb_lt].
    rewrite length_app in Ht, Hl. assert (Hroot : take (length root) p = root).
    { apply (f_equal (take (length root))) in Ht. rewrite take_take, take_app_length in Ht. by replace (Nat.min _ _) with (length root) in Ht by lia. }
    assert (Ep : p = root ++ drop (length root) p) by (rewrite <- Hroot at 1; by rewrite take_drop). set (q := drop (length root) p) in *.
    assert (Hq : take (length (split_on slash dir)) q = split_on slash dir /\ (length (split_on slash dir) < length q)%nat).
    { rewrite Ep in Ht, Hl. rewrite length_app in Hl. rewrite take_app_add' in Ht by done. apply app_inv_head in Ht. split; [done|lia]. }
    assert (Hfile : is_Some (fs_files (lc_fs s) !! p)).
    { apply list_elem_of_In, list_elem_of_fmap in Hin as ([p' d] & -> & Hin%elem_of_map_to_list). by eexists. }
    assert (Hsp : split_on slash key = q).
    { rewrite Hp. apply split_concat; [intros E; rewrite E in Hq; cbn in Hq; lia|]. specialize (Hpn p Hfile). rewrite Ep in Hpn. by apply Forall_app in Hpn as [_ ?]. }
    rewrite Hsp. split; [|done]. rewrite <- (Hr key Hk), Hsp, <- Ep. done.
  - intros [[d Hm] [Ht Hl]]. exists (place key). rewrite drop_app_length, concat_split. split; [done|]. apply list_elem_of_In, filter_In. split.
    + apply list_elem_of_In, (list_elem_of_fmap_2 fst _ (place key, d)), elem_of_map_to_list. by rewrite (Hr key Hk).
    + apply andb_true_iff. split; [apply bool_decide_eq_true|apply Nat.ltb_lt; rewrite !length_app; lia]. rewrite length_app, take_app_add' by done. by rewrite Ht.
Qed.

(** A listing that is answered holds a key exactly when it is stored below the
    directory. *)
Lemma local_list_exact dir key m s : Forall safe_name (split_on slash dir) -> local_key key -> local_rep m s -> plain_names (lc_fs s) ->
  fs_files (lc_fs s) !! (root ++ split_on slash dir) = None -> is_dir (lc_fs s) (root ++ split_on slash dir) = true ->
  let '(r, s') := local_list root (dir +:+ "/") s in
  local_rep m s' /\ forall ks, r = Ok ks -> (key ∈ ks <-> is_Some (m !! key) /\ starts_with key (dir +:+ "/") = true).
Proof.
  intros Hs Hk Hr Hpn Hno Hd. unfold local_list. assert (Hne : dir +:+ "/" <> "") by (by destruct dir).
  destruct (String.eqb_spec (dir +:+ "/") "") as [|_]; [done|]. rewrite (resolve_dir _ Hs). set (d := root ++ split_on slash dir) in *. unfold vykar, or_none, mbind, LM_bind.
  pose proof (sys_read_cases (stat d) s) as H1. destruct (sys_read (stat d) s) as [r1 s1]. destruct H1 as [Hs1 H1].
  assert (Hr1 : local_rep m s1) by (by eapply local_rep_fs). unfold stat in H1. rewrite Hno, Hd in H1.
  destruct H1 as [(x & -> & [= <-])|(er & -> & Her)]; [|destruct er; [by specialize (Her eq_refl)|split; [done|done]]].
  pose proof (sys_read_cases (fun fs => Ok (files_under root d fs)) s1) as H2. destruct (sys_read _ s1) as [r2 s2]. destruct H2 as [Hs2 H2].
  assert (Hr2 : local_rep m s2) by (by eapply local_rep_fs). destruct H2 as [(ks & -> & Hks)|(er & -> & Her)]; [|destruct er; [by specialize (Her eq_refl)|split; [done|done]]].
  split; [done|]. intros ks' [= <-]. injection Hks as <-. rewrite Hs1. unfold d. rewrite (files_under_spec dir key m s Hk Hr Hpn). apply and_iff_compat_l. split.
  - intros [b ->]. replace (dir +:+ String slash b) with ((dir +:+ "/") +:+ b) by (by rewrite <- str_app_assoc). apply starts_with_prefix.
  - intros [b ->]%starts_with_inv. exists b. by rewrite <- str_app_assoc.
Qed.
End LocalLaws.

(** C35. The local backend is a storage backend as Storage.v assumes one, whatever
    system calls fail: an answer is the answer of the interface on the objects
    stored, a write that is reported done is done, a write that fails has
    either had its whole effect or none, and no operation touches another
    object. *)
Theorem local_refines_storage root tmp_suffix key : local_key key ->
  stands_for (local_rep root) (local_get root key) (Storage.get key) /\
  (forall data, stands_for (local_rep root) (local_put root tmp_suffix key data) (Storage.put key data)) /\
  stands_for (local_rep root) (local_delete root key) (Storage.del key) /\
  stands_for (local_rep root) (local_exists root key) (Storage.exists_ key) /\
  stands_for (local_rep root) (local_size root key) (Storage.size_of key) /\
  (forall offset length, stands_for (local_rep root) (local_get_range root key offset length) (Storage.get_range key offset length)).
Proof.
  intros Hk. split; [by apply local_get_stands|]. split; [intros data; by apply local_put_stands|]. split; [by apply local_delete_stands|].
  split; [by apply local_exists_stands|]. split; [by apply local_size_stands|]. intros. by apply local_range_stands.
Qed.

Lemma local_key_example : local_key "snapshots/a".
Proof. split; [|done]. change (split_on slash "snapshots/a") with ["snapshots"; "a"]. apply Forall_cons. split; [|apply Forall_singleton]; by repeat split. Qed.

(** Witness: an object of a fresh directory, the first call failing. *)
Lemma local_refines_storage_witness :
  let s := mkLocal (mkFs ∅ {[["repo"]]}) [] in
  let s' := (local_put ["repo"] (fun _ => "x") "snapshots/a" [7] s).2 in
  local_rep ["repo"] ∅ s /\ fs_files (lc_fs s') !! ["repo"; "snapshots"; "a"] = Some [7] /\
  stands_for (local_rep ["repo"]) (local_put ["repo"] (fun _ => "x") "snapshots/a" [7]) (Storage.put "snapshots/a" [7]).
Proof.
  cbv zeta. split; [intros key _; cbn [lc_fs fs_files]; by rewrite !lookup_empty|]. split; [vm_compute; reflexivity|].
  pose proof (local_refines_storage ["repo"] (fun _ => "x") "snapshots/a" local_key_example) as (_ & Hput & _). apply Hput.
Defined.

(** ** The limits *)

Definition MAX_CONSUMED : Z := 2 ^ 128 - 1.
(** The limiter has kept to its rate up to a time. *)
Definition within_rate (l : ByteRateLimiter) (now : Z) : Prop := bytes_consumed l * NANOS <= (now - lm_start l) * bytes_per_sec l.
Record limiter_ok (l : ByteRateLimiter) : Prop := { lk_rate : 0 < bytes_per_sec l; lk_consumed : 0 <= bytes_consumed l <= MAX_CONSUMED }.

Lemma consume_ok n now l : limiter_ok l -> 0 <= n -> within_rate l now ->
  let '(l', now') := consume n now l in
  limiter_ok l' /\ within_rate l' now' /\ now <= now' /\ bytes_consumed l' = Z.min (bytes_consumed l + n) MAX_CONSUMED /\ bytes_per_sec l' = bytes_per_sec l /\ lm_start l' = lm_start l.
Proof.
  intros [H1 H2] Hn Hw. unfold consume. destruct (Z.eqb_spec n 0) as [->|Hn0]; cbn [orb]; [rewrite Z.add_0_r, Z.min_l by lia; split; [done|]; split; [done|]; split; [lia|done]|].
  destruct (Z.eqb_spec (bytes_per_sec l) 0); [lia|]. cbv zeta. change (2 ^ 128 - 1) with MAX_CONSUMED in *. assert (0 <= MAX_CONSUMED) by done.
  unfold within_rate in *. cbn [bytes_consumed lm_start bytes_per_sec]. set (c := Z.min (bytes_consumed l + n) MAX_CONSUMED) in *.
  split; [split; cbn [bytes_per_sec bytes_consumed]; lia|].
  destruct (Z.ltb_spec ((now - lm_start l) * bytes_per_sec l) (c * NANOS)) as [Hlt|Hge]; [|split; [lia|]; split; [lia|done]].
  set (q := (c * NANOS + bytes_per_sec l - 1) / bytes_per_sec l).
  assert (Hq : c * NANOS <= q * bytes_per_sec l).
  { unfold q. pose proof (Z.mul_succ_div_gt (c * NANOS + bytes_per_sec l - 1) (bytes_per_sec l) H1). lia. }
  split; [nia|]. split; [|done]. assert (Hle : (now - lm_start l) * bytes_per_sec l < q * bytes_per_sec l) by lia. apply Z.mul_lt_mono_pos_r in Hle; lia.
Qed.

(** A client's calls and what it is answered. *)
Inductive BOp :=
  | BGet (key : string) | BPut (key : string) (data : bytes) | BDelete (key : string) | BExists (key : string) | BList (prefix : string)
  | BRange (key : string) (offset length : Z) | BCreateDir (key : string) | BSize (key : string) | BRepack (plan : RepackPlanRequest) | BBatchDelete (keys : list string).
Inductive BAnswer :=
  | GotData (r : res (option bytes)) | GotDone (r : res unit) | GotBool (r : res bool) | GotKeys (r : res (list string)) | GotSize (r : res (option Z))
  | GotRepack (r : res (list RepackOperationResult)).

Definition with_answer {St A} (f : res A -> BAnswer) (x : res A * St) : BAnswer * St := (f x.1, x.2).
Definition run_op {St} (b : Backend St) (op : BOp) (s : St) : BAnswer * St :=
  match op with
  | BGet key => with_answer GotData (b_get b key s)
  | BPut key data => with_answer GotDone (b_put b key data s)
  | BDelete key => with_answer GotDone (b_delete b key s)
  | BExists key => with_answer GotBool (b_exists b key s)
  | BList prefix => with_answer GotKeys (b_list b prefix s)
  | BRange key offset length => with_answer GotData (b_get_range b key offset length s)
  | BCreateDir key => with_answer GotDone (b_create_dir b key s)
  | BSize key => with_answer GotSize (b_size b key s)
  | BRepack plan => with_answer GotRepack (b_server_repack b plan s)
  | BBatchDelete keys => with_answer GotDone (b_batch_delete_keys b keys s)
  end.
Fixpoint run_ops {St} (b : Backend St) (ops : list BOp) (s : St) : list BAnswer * St :=
  match ops with [] => ([], s) | op :: ops' => let '(a, s) := run_op b op s in let '(l, s) := run_ops b ops' s in (a :: l, s) end.

Definition bytes_in (a : BAnswer) : Z := match a with GotData (Ok (Some d)) => blen d | _ => 0 end.
Definition bytes_out (op : BOp) : Z := match op with BPut _ data => blen data | _ => 0 end.
Lemma bytes_in_nonneg a : 0 <= bytes_in a.
Proof. destruct a as [[[d|]|]| | | | | ]; cbn [bytes_in]; lia || apply blen_nonneg. Qed.
Lemma bytes_out_nonneg op : 0 <= bytes_out op.
Proof. destruct op; cbn [bytes_out]; lia || apply blen_nonneg. Qed.

(** A limiter went on by [n] bytes, its counter saturating, and kept to its
    rate. *)
Definition paid (n : Z) (l l' : option ByteRateLimiter) (now now' : Z) : Prop :=
  match l with
  | None => l' = None
  | Some x => exists x', l' = Some x' /\ limiter_ok x' /\ within_rate x' now' /\ bytes_consumed x' = Z.min (bytes_consumed x + n) MAX_CONSUMED /\
      bytes_per_sec x' = bytes_per_sec x /\ lm_start x' = lm_start x
  end.
Definition sane (l : option ByteRateLimiter) (now : Z) : Prop := match l with Some x => limiter_ok x /\ within_rate x now | None => True end.

Lemma paid_sane n l l' now now' : paid n l l' now now' -> sane l' now'.
Proof. destruct l as [x|]; [intros (x' & -> & H1 & H2 & _); done|intros ->; done]. Qed.
Lemma paid_later l now now' : sane l now -> now <= now' -> paid 0 l l now now'.
Proof.
  intros Hs Hle. destruct l as [x|]; [|done]. destruct Hs as [Hok Hw]. exists x. split; [done|]. split; [done|]. destruct Hok as [Hr Hc].
  split; [|split; [rewrite Z.min_l; lia|done]]. unfold within_rate in *. nia.
Qed.
Lemma paid_trans n1 n2 l1 l2 l3 t1 t2 t3 : 0 <= n2 -> paid n1 l1 l2 t1 t2 -> paid n2 l2 l3 t2 t3 -> paid (n1 + n2) l1 l3 t1 t3.
Proof.
  intros Hn. destruct l1 as [x|]; [|intros ->; done]. intros (x2 & -> & G1 & G2 & G3 & G4 & G5) (x3 & -> & K1 & K2 & K3 & K4 & K5).
  exists x3. split; [done|]. split; [done|]. split; [done|]. split; [lia|]. split; congruence.
Qed.

(** ** The throttled backend *)

Section ThrottleLaws.
Context {St : Type} (inner : Backend St) (took : Z -> Z) (Htook : forall t, t <= took t).

(** The clock may stand still or go on while a limiter is asked. *)
Record advanced (n_in n_out : Z) (s s' : Throttled St) : Prop := {
  ad_read : paid n_in (th_read s) (th_read s') (th_now s) (th_now s');
  ad_write : paid n_out (th_write s) (th_write s') (th_now s) (th_now s');
}.
Definition lim_sane (s : Throttled St) : Prop := sane (th_read s) (th_now s) /\ sane (th_write s) (th_now s).

Lemma throttle_sane a b s s' : advanced a b s s' -> lim_sane s'.
Proof. intros [H1 H2]. split; by eapply paid_sane. Qed.
Lemma throttle_trans a b a' b' s1 s2 s3 : 0 <= a' -> 0 <= b' -> advanced a b s1 s2 -> advanced a' b' s2 s3 -> advanced (a + a') (b + b') s1 s3.
Proof. intros ? ? [H1 H2] [G1 G2]. split; by eapply paid_trans. Qed.

Lemma pass_transparent {A} (op : St -> res A * St) s : lim_sane s -> let '(r, s') := pass took op s in (r, th_inner s') = op (th_inner s) /\ advanced 0 0 s s'.
Proof using Htook. intros [H1 H2]. unfold pass. destruct (op (th_inner s)) as [r i]. split; [done|]. split; apply paid_later; cbn [th_now]; done || apply Htook. Qed.

Lemma pay_read_advanced n s : lim_sane s -> 0 <= n -> th_inner (pay_read n s) = th_inner s /\ advanced n 0 s (pay_read n s).
Proof.
  intros [Hr Hw] Hn. unfold pay_read. destruct (th_read s) as [l|] eqn:E; [|split; [done|]; split; [by rewrite E|by apply paid_later]].
  pose proof (consume_ok n (th_now s) l (proj1 Hr) Hn (proj2 Hr)) as H. destruct (consume n (th_now s) l) as [l' t]. destruct H as (G1 & G2 & G3 & G4).
  split; [done|]. split; cbn [th_read th_write th_now]; [rewrite E; by exists l'|by apply paid_later].
Qed.
Lemma pay_write_advanced n s : lim_sane s -> 0 <= n -> th_inner (pay_write n s) = th_inner s /\ advanced 0 n s (pay_write n s).
Proof.
  intros [Hr Hw] Hn. unfold pay_write. destruct (th_write s) as [l|] eqn:E; [|split; [done|]; split; [by apply paid_later|by rewrite E]].
  pose proof (consume_ok n (th_now s) l (proj1 Hw) Hn (proj2 Hw)) as H. destruct (consume n (th_now s) l) as [l' t]. destruct H as (G1 & G2 & G3 & G4).
  split; [done|]. split; cbn [th_read th_write th_now]; [by apply paid_later|rewrite E; by exists l'].
Qed.

Lemma pass_step {A} (f : res A -> BAnswer) (op : St -> res A * St) s : lim_sane s ->
  let '(a, s') := with_answer f (pass took op s) in (a, th_inner s') = with_answer f (op (th_inner s)) /\ advanced 0 0 s s'.
Proof using Htook.
  intros Hs. pose proof (pass_transparent op s Hs) as H. destruct (pass took op s) as [r s']. destruct H as [H1 H2]. unfold with_answer. by rewrite <- H1.
Qed.
Lemma answer_step (op : St -> res (option bytes) * St) s : lim_sane s ->
  let '(a, s') := with_answer GotData (pay_answer (pass took op s)) in (a, th_inner s') = with_answer GotData (op (th_inner s)) /\ advanced (bytes_in a) 0 s s'.
Proof using Htook.
  intros Hs. pose proof (pass_transparent op s Hs) as H. destruct (pass took op s) as [r s']. destruct H as [H1 H2]. unfold with_answer. rewrite <- H1.
  destruct r as [[d|]|er]; cbn [pay_answer fst snd bytes_in]; [|done..]. destruct (pay_read_advanced (blen d) s' (throttle_sane _ _ _ _ H2) (blen_nonneg d)) as [G1 G2].
  rewrite G1. split; [done|]. exact (throttle_trans 0 0 _ _ _ _ _ (blen_nonneg d) (Z.le_refl 0) H2 G2).
Qed.

Lemma throttled_step op s : lim_sane s ->
  let '(a, s') := run_op (throttled inner took) op s in (a, th_inner s') = run_op inner op (th_inner s) /\ advanced (bytes_in a) (bytes_out op) s s'.
Proof using Htook.
  intros Hs. destruct op as [key|key data|key|key|prefix|key offset length|key|key|plan|keys];
    [exact (answer_step (b_get inner key) s Hs)| |exact (pass_step GotDone (b_delete inner key) s Hs)|exact (pass_step GotBool (b_exists inner key) s Hs)
    |exact (pass_step GotKeys (b_list inner prefix) s Hs)|exact (answer_step (b_get_range inner key offset length) s Hs)|exact (pass_step GotDone (b_create_dir inner key) s Hs)
    |exact (pass_step GotSize (b_size inner key) s Hs)|exact (pass_step GotRepack (b_server_repack inner plan) s Hs)|exact (pass_step GotDone (b_batch_delete_keys inner keys) s Hs)].
  destruct (pay_write_advanced (blen data) s Hs (blen_nonneg data)) as [G1 G2]. cbn [run_op throttled b_put bytes_out].
  pose proof (pass_step GotDone (b_put inner key data) _ (throttle_sane _ _ _ _ G2)) as H.
  destruct (with_answer GotDone _) as [a s'] eqn:E. destruct H as [H1 H2]. rewrite G1 in H1. split; [done|].
  assert (Ha : bytes_in a = 0) by (apply (f_equal fst) in E; unfold with_answer in E; cbn [fst] in E; by rewrite <- E). rewrite Ha.
  pose proof (throttle_trans 0 (blen data) 0 0 _ _ _ (Z.le_refl 0) (Z.le_refl 0) G2 H2) as H. by rewrite !Z.add_0_r in H.
Qed.
End ThrottleLaws.

Definition total_in (answers : list BAnswer) : Z := sum_Z bytes_in answers.
Definition total_out (ops : list BOp) : Z := sum_Z bytes_out ops.

(** A backend with bandwidth limits is the backend it wraps: for every
    sequence of calls the answers are the same, so are the effects, and each
    limiter has counted exactly the bytes that were read or written and has
    slept until they are within its rate. *)
Theorem throttled_is_transparent {St} (inner : Backend St) (took : Z -> Z) ops s :
  (forall t, t <= took t) -> lim_sane s ->
  let '(answers, s') := run_ops (throttled inner took) ops s in
  (answers, th_inner s') = run_ops inner ops (th_inner s) /\ advanced (total_in answers) (total_out ops) s s'.
Proof.
  intros Htook. revert s. induction ops as [|op ops IH]; intros s Hs; cbn [run_ops].
  - split; [done|]. destruct Hs. split; by apply paid_later.
  - pose proof (throttled_step inner took Htook op s Hs) as H. destruct (run_op (throttled inner took) op s) as [a s1]. destruct H as [<- H].
    specialize (IH s1 (throttle_sane _ _ _ _ H)). destruct (run_ops (throttled inner took) ops s1) as [l s2]. destruct IH as [<- IH].
    split; [done|]. apply (throttle_trans _ _ _ _ s s1 s2); [| |done|done]; apply sum_Z_nonneg; intros x _; [apply bytes_in_nonneg|apply bytes_out_nonneg].
Qed.

(** Witness: a file of three bytes written and read back at one MiB a second. *)
Lemma throttled_is_transparent_witness :
  let s := mkThrottled (mkLocal (mkFs ∅ {[["repo"]]}) []) (Some (limiter_new BYTES_PER_MIB 0)) (Some (limiter_new BYTES_PER_MIB 0)) 0 in
  let ops := [BPut "config" ([1; 2; 3]); BGet "config"; BExists "other"] in
  let run := run_ops (throttled (local_backend ["repo"] (fun _ => "x")) (fun t => t)) ops s in
  run.1 = [GotDone (Ok tt); GotData (Ok (Some ([1; 2; 3]))); GotBool (Ok false)] /\ advanced 3 3 s run.2.
Proof.
  cbv zeta. match goal with |- (run_ops ?b ?ops ?s).1 = ?l /\ _ => assert (E : (run_ops b ops s).1 = l) by (vm_compute; reflexivity);
    pose proof (throttled_is_transparent (local_backend ["repo"] (fun _ => "x")) (fun t => t) ops s) as H; destruct (run_ops b ops s) as [answers s'] end.
  cbn [fst snd] in *. subst answers. split; [reflexivity|]. refine (proj2 (H _ _)); [lia|]. split; split; done.
Defined.

(** ** What the wrapper leaves out *)

(** A backend that verifies packs on its server no longer does when a limit
    is set: the wrapper answers that it cannot. *)
Lemma throttled_drops_server_verify {St} (inner : Backend St) took plan s r i :
  b_server_verify_packs inner plan (th_inner s) = (Ok r, i) -> (b_server_verify_packs (throttled inner took) plan s).1 = Err (UnsupportedBackend "server-side verify-packs API").
Proof. done. Qed.

(** ** URLs over plain HTTP *)

(** An S3 endpoint over plain HTTP is reached only when the configuration
    allows it. *)
Lemma s3_http_refused trim url_parse print_port raw url host : String.eqb (trim raw) "" = false -> url_contains "://" (trim raw) = true -> starts_with (trim raw) "s3+http" = true ->
  url_parse (trim raw) = Some url -> u_scheme url = "s3+http" -> u_host url = Some host ->
  exists er, checked_url trim url_parse print_port raw false = Err er.
Proof.
  intros Hne Hc Hpre Hp Hs Hh. unfold checked_url, parse_repo_url. rewrite Hne, Hc, Hp, Hs.
  assert (Hl : starts_with (trim raw) "/" || starts_with (trim raw) "./" || starts_with (trim raw) "../" || String.eqb (trim raw) "." || String.eqb (trim raw) ".." = false).
  { apply starts_with_inv in Hpre as [b ->]. reflexivity. }
  rewrite Hl. cbn [String.eqb Ascii.eqb Bool.eqb orb negb]. unfold parse_s3_url. rewrite Hh. destruct (default _ _) as [bucket r].
  destruct (String.eqb bucket ""); [eexists; reflexivity|]. cbn [mbind result_bind]. unfold enforce_secure_http.
  match goal with |- context [to_ascii_lowercase ("http" +:+ "://" +:+ ?x)] => change (to_ascii_lowercase ("http" +:+ "://" +:+ x)) with ("http://" +:+ to_ascii_lowercase x) end.
  rewrite starts_with_prefix. eexists. reflexivity.
Qed.
