(* ===== verification/S3.v ===== *)
(** * The S3 backend (crates/vykar-storage/src/s3_backend.rs)

    The storage methods as requests to a bucket, repeated with a growing pause
    while the errors are transient.  The service with the network before it,
    and the library that reads its listings, are parameters: a class states
    what their documentation promises.  With soft deletion an empty object is
    a tombstone.  The theorems show that what the client sees is what
    Storage.v assumes of a backend, and that a listing over any number of
    pages ends and holds exactly the live keys. *)

From stdpp Require Import pretty.
From S2P Require Import Prelude Types Storage Protocol Pack ReadPath Compress ServerPath Server ServerRead Rest FileCache Backends.
#[local] Open Scope string_scope.
#[local] Open Scope list_scope.
#[local] Open Scope Z_scope.

(** ** Requests *)

Inductive S3Request :=
  | S3Get (key : string) (range : option string)
  | S3Head (key : string)
  | S3Put (key content_type content_md5 : string) (body : bytes)
  | S3Delete (key : string)
  | S3List (prefix : string) (continuation_token : option string).

(** What the library reads in the body of a listing. *)
Record ListedObject := mkListed { lo_key : string; lo_size : Z }.
Record ListPage := mkPage { pg_contents : list ListedObject; next_continuation_token : option string }.

(** A signed request sent over the network, the library's parser of listings,
    the digest of a body in base 64, and the decoding of percent escapes. *)
Class S3Api (St : Type) := {
  s3_call : S3Request -> St -> result UreqError Response * St;
  parse_response : bytes -> option ListPage;
  md5_base64 : bytes -> string;
  percent_decode_utf8 : string -> option string;
}.

(** ** The backend *)

Section S3Backend.
Context {St : Type} `{Hapi : S3Api St} (root : string) (soft_delete : bool) (jitter : nat -> Z) (retry : RetryConfig).

Definition full_key (key : string) : string := if String.eqb root "" then key else root +:+ "/" +:+ key.

Definition s3_retry_call {T} (req : S3Request) (handle_response : Response -> result HttpRetryError T) (st : St) : res T * St :=
  let '(r, st, _) := retry_http (s3_call req) handle_response jitter retry st in
  (match r with Ok a => Ok a | Err _ => Err (Other "S3") end, st).

Definition s3_check_status (resp : Response) : result HttpRetryError unit :=
  if r_status resp <? 400 then Ok tt else classify_status (r_status resp) "HTTP".

Definition s3_get (key : string) : St -> res (option bytes) * St :=
  s3_retry_call (S3Get (full_key key) None) (fun resp =>
    if r_status resp =? 404 then Ok None
    else
      _ ← s3_check_status resp;
      buf ← read_body resp;
      if soft_delete && (blen buf =? 0) then Ok None else Ok (Some buf)).

Definition OCTET_STREAM : string := "application/octet-stream".
Definition s3_put_bytes (key : string) (data : bytes) : St -> res unit * St :=
  s3_retry_call (S3Put (full_key key) OCTET_STREAM (md5_base64 data) data) s3_check_status.

Definition s3_put (key : string) (data : bytes) : St -> res unit * St := s3_put_bytes key data.

Definition s3_delete (key : string) : St -> res unit * St :=
  if soft_delete then s3_put_bytes key [] else s3_retry_call (S3Delete (full_key key)) s3_check_status.

Definition s3_exists (key : string) : St -> res bool * St :=
  s3_retry_call (S3Head (full_key key)) (fun resp =>
    if r_status resp =? 404 then Ok false
    else
      _ ← s3_check_status resp;
      if soft_delete then len ← extract_content_length resp; Ok (0 <? len) else Ok true).

Definition s3_size (key : string) : St -> res (option Z) * St :=
  s3_retry_call (S3Head (full_key key)) (fun resp =>
    if r_status resp =? 404 then Ok None
    else
      _ ← s3_check_status resp;
      len ← extract_content_length resp;
      if soft_delete && (len =? 0) then Ok None else Ok (Some len)).

Definition s3_range_response (length : Z) (resp : Response) : result HttpRetryError (option bytes) :=
  if r_status resp =? 404 then Ok None
  else
    _ ← (if 400 <=? r_status resp then s3_check_status resp else Ok tt);
    if r_status resp =? 200 then Err (Permanent "Range header ignored")
    else if negb (r_status resp =? 206) then Err (Permanent "unexpected status")
    else
      body ← read_body resp;
      let buf := take (Z.to_nat length) body in
      if negb (blen buf =? length) then Err (BodyIo UnexpectedEof) else Ok (Some buf).

Definition s3_get_range (key : string) (offset length : Z) (st : St) : res (option bytes) * St :=
  if length =? 0 then (Err (Other "zero-length read requested"), st)
  else
    let '(tombstone, st) := if soft_delete then let '(r, st) := s3_size key st in (match r with Ok (Some _) => Ok false | Ok None => Ok true | Err er => Err er end, st) else (Ok false, st) in
    match tombstone with
    | Err er => (Err er, st)
    | Ok true => (Ok None, st)
    | Ok false =>
        if u64_max <? offset + length then (Err (Other "overflows u64"), st)
        else s3_retry_call (S3Get (full_key key) (Some (range_header offset (offset + length - 1)))) (s3_range_response length) st
    end.

Definition s3_create_dir (key : string) : St -> res unit * St :=
  let dir_key := if ends_with_slash key then full_key key else full_key (key +:+ "/") in
  s3_retry_call (S3Put dir_key OCTET_STREAM (md5_base64 []) []) s3_check_status.

(** *** Listings *)

Definition root_prefix_len : nat := if String.eqb root "" then 0%nat else S (String.length root).

(** The keys one page adds. *)
Fixpoint page_keys (contents : list ListedObject) : res (list string) :=
  match contents with
  | [] => Ok []
  | obj :: contents =>
      match percent_decode_utf8 (lo_key obj) with
      | None => Err (Other "S3 LIST: invalid UTF-8 in key")
      | Some key =>
          keys ← page_keys contents;
          if ends_with_slash key then Ok keys
          else if soft_delete && (lo_size obj =? 0) then Ok keys
          else Ok ((if (0 <? root_prefix_len)%nat && (root_prefix_len <? String.length key)%nat then str_drop root_prefix_len key else key) :: keys)
      end
  end.

Definition list_response (resp : Response) : result HttpRetryError ListPage :=
  _ ← s3_check_status resp;
  body ← read_body resp;
  match parse_response body with Some page => Ok page | None => Err (Permanent "failed to parse response") end.

(** The loop over the pages; [None] when the fuel is spent. *)
Fixpoint list_pages (fuel : nat) (full_prefix : string) (token : option string) (st : St) : option (res (list string) * St) :=
  match fuel with
  | O => None
  | S fuel =>
      let '(r, st) := s3_retry_call (S3List full_prefix token) list_response st in
      match r with
      | Err er => Some (Err er, st)
      | Ok page =>
          match page_keys (pg_contents page) with
          | Err er => Some (Err er, st)
          | Ok keys =>
              match next_continuation_token page with
              | None => Some (Ok keys, st)
              | Some token =>
                  match list_pages fuel full_prefix (Some token) st with
                  | Some (Ok more, st) => Some (Ok (keys ++ more), st)
                  | x => x
                  end
              end
          end
      end
  end.
Definition s3_list (fuel : nat) (prefix : string) : St -> option (res (list string) * St) := list_pages fuel (full_key prefix) None.
End S3Backend.

(** [S3Backend::new]: no slashes around the root. *)
Definition normalized_root (root : string) : string := trim_matches slash root.

(** ** What the service promises

    [stored] is what the bucket holds.  An answer tells of it as the
    documentation says; a request that is not answered, or answered with an
    error, may have been carried out.  A listing is cut into pages; a token
    stands for the number of keys that come before it, and a page that has a
    token is not empty. *)
Class S3Promises {St : Type} (Hapi : S3Api St) := {
  stored : St -> gmap string bytes;
  all_keys : gmap string bytes -> string -> list (string * bytes);
  token_at : string -> nat;
  all_keys_perm objs prefix : all_keys objs prefix ≡ₚ List.filter (fun e => starts_with e.1 prefix) (map_to_list objs);
  get_promise key st : let '(r, st') := s3_call (S3Get key None) st in
    stored st' = stored st /\
    forall resp, r = Ok resp -> (r_status resp = 404 -> stored st !! key = None) /\ (r_status resp < 400 -> forall b, r_body resp = Ok b -> stored st !! key = Some b);
  range_promise key offset end_ st : 0 <= offset <= end_ -> end_ < u64_max -> let '(r, st') := s3_call (S3Get key (Some (range_header offset end_))) st in
    stored st' = stored st /\
    forall resp, r = Ok resp -> (r_status resp = 404 -> stored st !! key = None) /\
      (r_status resp = 206 -> forall b, r_body resp = Ok b -> exists d, stored st !! key = Some d /\ b = slice (Z.to_nat offset) (Z.to_nat (end_ - offset + 1)) d);
  head_promise key st : let '(r, st') := s3_call (S3Head key) st in
    stored st' = stored st /\
    forall resp, r = Ok resp -> (r_status resp = 404 -> stored st !! key = None) /\
      (r_status resp < 400 -> exists d, stored st !! key = Some d /\ forall v, r_content_length resp = Some v -> parse_u64 v = Some (blen d));
  put_promise key content_type data st : let '(r, st') := s3_call (S3Put key content_type (md5_base64 data) data) st in
    (stored st' = stored st \/ stored st' = <[key := data]> (stored st)) /\
    forall resp, r = Ok resp -> r_status resp < 400 -> stored st' = <[key := data]> (stored st);
  delete_promise key st : let '(r, st') := s3_call (S3Delete key) st in
    (stored st' = stored st \/ stored st' = delete key (stored st)) /\
    forall resp, r = Ok resp -> r_status resp < 400 -> stored st' = delete key (stored st);
  list_promise prefix token st : let '(r, st') := s3_call (S3List prefix token) st in
    stored st' = stored st /\
    forall resp b page, r = Ok resp -> r_status resp < 400 -> r_body resp = Ok b -> parse_response b = Some page ->
      let start := from_option token_at 0%nat token in
      let n := length (pg_contents page) in
      let rest := drop start (all_keys (stored st) prefix) in
      Forall2 (fun obj e => percent_decode_utf8 (lo_key obj) = Some e.1 /\ lo_size obj = blen e.2) (pg_contents page) (take n rest) /\
      match next_continuation_token page with None => drop n rest = [] | Some t => (0 < n)%nat /\ token_at t = (start + n)%nat end;
}.

Lemma str_app_inj_l (p s t : string) : p +:+ s = p +:+ t -> s = t.
Proof. induction p as [|a p IH]; [done|]. change (String a p +:+ s) with (String a (p +:+ s)). change (String a p +:+ t) with (String a (p +:+ t)). intros [= E]. by apply IH. Qed.

(** ** The backend stands for the storage interface *)

Section S3Laws.
Context {St : Type} {Hapi : S3Api St} {Hserv : S3Promises Hapi} (root : string) (soft_delete : bool) (jitter : nat -> Z) (retry : RetryConfig).

(** What of the bucket is an object under a key. *)
Definition live (d : bytes) : option bytes := if soft_delete && (blen d =? 0) then None else Some d.
Definition visible (objs : gmap string bytes) (key : string) : option bytes := if ends_with_slash (full_key root key) then None else objs !! full_key root key ≫= live.
Definition s3_key (key : string) : Prop := ends_with_slash (full_key root key) = false.
Definition s3_rep (m : Store) (st : St) : Prop := forall key, m !! key = visible (stored st) key.

Lemma full_key_inj key key' : full_key root key = full_key root key' -> key = key'.
Proof. unfold full_key. destruct (String.eqb root ""); [done|]. intros H%(str_app_inj_l root). by injection H. Qed.

Lemma s3_rep_eq m st st' : s3_rep m st -> stored st' = stored st -> s3_rep m st'.
Proof. intros Hr E key. rewrite E. apply Hr. Qed.
Lemma s3_rep_insert m st st' key data : s3_key key -> live data = Some data -> s3_rep m st -> stored st' = <[full_key root key := data]> (stored st) -> s3_rep (<[key := data]> m) st'.
Proof.
  intros Hk Hl Hr E key'. unfold visible. rewrite E. destruct (decide (key' = key)) as [->|Hne].
  - rewrite !lookup_insert_eq, Hk. by cbn [mbind option_bind].
  - rewrite !lookup_insert_ne by (done || (intros H%full_key_inj; done)). apply Hr.
Qed.
Lemma s3_rep_delete m st st' key : s3_key key -> s3_rep m st -> stored st' !! full_key root key ≫= live = None ->
  (forall k, k <> full_key root key -> stored st' !! k = stored st !! k) -> s3_rep (delete key m) st'.
Proof.
  intros Hk Hr Hgone E key'. unfold visible. destruct (decide (key' = key)) as [->|Hne].
  - by rewrite lookup_delete_eq, Hk, Hgone.
  - rewrite lookup_delete_ne by done. rewrite E by (intros H%full_key_inj; done). apply Hr.
Qed.

Lemma s3_check_ok resp a : s3_check_status resp = Ok a -> r_status resp < 400.
Proof. unfold s3_check_status, classify_status. destruct (Z.ltb_spec (r_status resp) 400); [done|]. destruct (_ || _); discriminate. Qed.

(** A call as a whole, from what one request does. *)
Lemma s3_retry_inv {T} req (h : Response -> result HttpRetryError T) (I : St -> Prop) (Q : T -> St -> Prop) st :
  (forall st, I st -> let '(r, st') := s3_call req st in I st' /\ forall resp a, r = Ok resp -> h resp = Ok a -> Q a st') -> I st ->
  let '(r, st') := s3_retry_call jitter retry req h st in I st' /\ forall a, r = Ok a -> Q a st'.
Proof.
  intros Hone HI. unfold s3_retry_call, retry_http.
  pose proof (retry_loop_inv (s3_call req) h jitter I Q) as H. specialize (H ltac:(
    intros st0 HI0; unfold attempt; specialize (Hone st0 HI0); destruct (s3_call req st0) as [[resp|er] st1]; destruct Hone as [H1 H2]; (split; [done|]);
    intros a; [intros Ha; by eapply H2|by destruct (is_retryable_transport er)]) (max_retries retry) (retry_max_delay_ms retry) (retry_delay_ms retry) st HI).
  destruct (retry_loop _ _ _ _ _ _ st) as [[r st'] pauses]. destruct H as [H1 H2]. split; [done|]. intros a. destruct r; [intros [= <-]; by apply H2|done].
Qed.

(** A call that reads: the answer is a function of the object. *)
Lemma s3_read {T} req (h : Response -> result HttpRetryError T) (val : gmap string bytes -> T -> Prop) st :
  (forall st, let '(r, st') := s3_call req st in stored st' = stored st /\ forall resp a, r = Ok resp -> h resp = Ok a -> val (stored st) a) ->
  let '(r, st') := s3_retry_call jitter retry req h st in stored st' = stored st /\ forall a, r = Ok a -> val (stored st) a.
Proof.
  intros Hone. pose proof (s3_retry_inv req h (fun s => stored s = stored st) (fun a s => val (stored st) a) st) as H.
  apply H; [|done]. intros s Hs. specialize (Hone s). destruct (s3_call req s) as [r s']. rewrite Hs in Hone. done.
Qed.

#[local] Abbreviation key_of key := (full_key root key).

Lemma s3_get_spec key st : let '(r, st') := s3_get root soft_delete jitter retry key st in
  stored st' = stored st /\ forall a, r = Ok a -> a = stored st !! key_of key ≫= live.
Proof.
  apply (s3_read _ _ (fun objs a => a = objs !! key_of key ≫= live)). intros s. pose proof (get_promise (key_of key) s) as H.
  destruct (s3_call _ s) as [r s']. destruct H as [H1 H2]. split; [done|]. intros resp a E Ha. destruct (H2 resp E) as [G1 G2].
  destruct (Z.eqb_spec (r_status resp) 404) as [E4|_]; [injection Ha as <-; by rewrite G1|].
  destruct (s3_check_status resp) eqn:Ec; [|done]. apply s3_check_ok in Ec. unfold read_body in Ha. destruct (r_body resp) as [b|]; [|done].
  cbn [mbind result_bind] in Ha. rewrite (G2 Ec b eq_refl). cbn [mbind option_bind]. unfold live. destruct (soft_delete && _); by injection Ha.
Qed.

Lemma extract_length resp d len : (forall v, r_content_length resp = Some v -> parse_u64 v = Some (blen d)) -> extract_content_length resp = Ok len -> len = blen d.
Proof.
  intros H. unfold extract_content_length. destruct (r_content_length resp) as [v|]; [|done]. rewrite (H v eq_refl). by intros [= <-].
Qed.

Lemma s3_exists_spec key st : let '(r, st') := s3_exists root soft_delete jitter retry key st in
  stored st' = stored st /\ forall a, r = Ok a -> a = match stored st !! key_of key ≫= live with Some _ => true | None => false end.
Proof.
  apply (s3_read _ _ (fun objs a => a = match objs !! key_of key ≫= live with Some _ => true | None => false end)). intros s. pose proof (head_promise (key_of key) s) as H.
  destruct (s3_call _ s) as [r s']. destruct H as [H1 H2]. split; [done|]. intros resp a E Ha. destruct (H2 resp E) as [G1 G2].
  destruct (Z.eqb_spec (r_status resp) 404) as [E4|_]; [injection Ha as <-; by rewrite G1|].
  destruct (s3_check_status resp) eqn:Ec; [|done]. apply s3_check_ok in Ec. destruct (G2 Ec) as (d & Hd & Hv). rewrite Hd. cbn [mbind result_bind option_bind] in *. unfold live.
  destruct soft_delete; cbn [andb]; [|by injection Ha as <-]. destruct (extract_content_length resp) as [len|] eqn:El; [|done]. apply (extract_length _ _ _ Hv) in El as ->.
  injection Ha as <-. pose proof (blen_nonneg d). destruct (Z.eqb_spec (blen d) 0) as [E0|E0]; [by rewrite E0|]. destruct (Z.ltb_spec 0 (blen d)); [done|lia].
Qed.

Lemma s3_size_spec key st : let '(r, st') := s3_size root soft_delete jitter retry key st in
  stored st' = stored st /\ forall a, r = Ok a -> a = blen <$> (stored st !! key_of key ≫= live).
Proof.
  apply (s3_read _ _ (fun objs a => a = blen <$> (objs !! key_of key ≫= live))). intros s. pose proof (head_promise (key_of key) s) as H.
  destruct (s3_call _ s) as [r s']. destruct H as [H1 H2]. split; [done|]. intros resp a E Ha. destruct (H2 resp E) as [G1 G2].
  destruct (Z.eqb_spec (r_status resp) 404) as [E4|_]; [injection Ha as <-; by rewrite G1|].
  destruct (s3_check_status resp) eqn:Ec; [|done]. apply s3_check_ok in Ec. destruct (G2 Ec) as (d & Hd & Hv). rewrite Hd. cbn [mbind result_bind option_bind] in *. unfold live.
  destruct (extract_content_length resp) as [len|] eqn:El; [|done]. apply (extract_length _ _ _ Hv) in El as ->. cbn [mbind result_bind] in Ha.
  destruct (soft_delete && _); by injection Ha.
Qed.

Lemma s3_range_spec key offset length st : 0 <= offset -> 0 < length -> offset + length <= u64_max ->
  let '(r, st') := s3_retry_call jitter retry (S3Get (key_of key) (Some (range_header offset (offset + length - 1)))) (s3_range_response length) st in
  stored st' = stored st /\ forall a, r = Ok a -> match stored st !! key_of key with
    | None => a = None
    | Some d => let got := slice (Z.to_nat offset) (Z.to_nat length) d in blen got = length /\ a = Some got
    end.
Proof.
  intros Ho Hl Hfit. apply (s3_read _ _ (fun objs a => match objs !! key_of key with None => a = None | Some d => let got := slice (Z.to_nat offset) (Z.to_nat length) d in blen got = length /\ a = Some got end)).
  intros s. pose proof (range_promise (key_of key) offset (offset + length - 1) s ltac:(lia) ltac:(lia)) as H.
  destruct (s3_call _ s) as [r s']. destruct H as [H1 H2]. split; [done|]. intros resp a E Ha. destruct (H2 resp E) as [G1 G2]. unfold s3_range_response in Ha.
  destruct (Z.eqb_spec (r_status resp) 404) as [E4|_]; [injection Ha as <-; by rewrite G1|].
  destruct (if 400 <=? r_status resp then _ else _) eqn:Ec; [|done]. cbn [mbind result_bind] in Ha. destruct (r_status resp =? 200); [done|].
  destruct (Z.eqb_spec (r_status resp) 206) as [E6|]; [|done]. cbn [negb] in Ha. unfold read_body in Ha. destruct (r_body resp) as [b|]; [|done].
  cbn [mbind result_bind] in Ha. destruct (G2 E6 b eq_refl) as (d & Hd & Hb). rewrite Hd. replace (offset + length - 1 - offset + 1) with length in Hb by lia.
  assert (Ht : take (Z.to_nat length) b = b) by (rewrite Hb; unfold slice; rewrite take_take; f_equal; lia). rewrite Ht in Ha. cbv zeta.
  destruct (Z.eqb_spec (blen b) length) as [Eb|]; [|done]. injection Ha as <-. by rewrite <- Hb.
Qed.

Lemma s3_get_stands key : s3_key key -> stands_for s3_rep (s3_get root soft_delete jitter retry key) (Storage.get key).
Proof.
  intros Hk. apply stands_read; [by eexists|]. intros m st Hr. pose proof (s3_get_spec key st) as H. destruct (s3_get _ _ _ _ key st) as [r st']. destruct H as [H1 H2].
  split; [by eapply s3_rep_eq|]. intros a ->. rewrite (H2 a eq_refl). unfold Storage.get, reading. cbn [next_fault faults objects]. rewrite Hr. unfold visible. by rewrite Hk.
Qed.
Lemma s3_exists_stands key : s3_key key -> stands_for s3_rep (s3_exists root soft_delete jitter retry key) (Storage.exists_ key).
Proof.
  intros Hk. apply stands_read; [by eexists|]. intros m st Hr. pose proof (s3_exists_spec key st) as H. destruct (s3_exists _ _ _ _ key st) as [r st']. destruct H as [H1 H2].
  split; [by eapply s3_rep_eq|]. intros a ->. rewrite (H2 a eq_refl). unfold exists_, reading. cbn [next_fault faults objects]. rewrite Hr. unfold visible. rewrite Hk. by destruct (_ ≫= live).
Qed.
Lemma s3_size_stands key : s3_key key -> stands_for s3_rep (s3_size root soft_delete jitter retry key) (Storage.size_of key).
Proof.
  intros Hk. apply stands_read; [by eexists|]. intros m st Hr. pose proof (s3_size_spec key st) as H. destruct (s3_size _ _ _ _ key st) as [r st']. destruct H as [H1 H2].
  split; [by eapply s3_rep_eq|]. intros a ->. rewrite (H2 a eq_refl). unfold size_of, Storage.get, reading, mbind, M_bind. cbn [next_fault faults objects]. rewrite Hr. unfold visible. by rewrite Hk.
Qed.

Lemma s3_get_range_spec key offset length st : 0 <= offset -> 0 <= length ->
  let '(r, st') := s3_get_range root soft_delete jitter retry key offset length st in
  stored st' = stored st /\ forall a, r = Ok a -> match stored st !! key_of key ≫= live with
    | None => a = None
    | Some d => let got := slice (Z.to_nat offset) (Z.to_nat length) d in blen got = length /\ a = Some got
    end.
Proof.
  intros Ho Hl. unfold s3_get_range. destruct (Z.eqb_spec length 0) as [|Hn]; [done|]. pose proof (s3_size_spec key st) as Hs.
  assert (Hlast : forall st1, stored st1 = stored st -> (forall d, stored st !! key_of key = Some d -> live d = Some d) ->
    let '(r, st') := (if u64_max <? offset + length then (Err (Other "overflows u64"), st1) else
      s3_retry_call jitter retry (S3Get (key_of key) (Some (range_header offset (offset + length - 1)))) (s3_range_response length) st1) in
    stored st' = stored st /\ forall a, r = Ok a -> match stored st !! key_of key ≫= live with
      | None => a = None
      | Some d => let got := slice (Z.to_nat offset) (Z.to_nat length) d in blen got = length /\ a = Some got
      end).
  { intros st1 E Hlive. destruct (Z.ltb_spec u64_max (offset + length)); [done|]. pose proof (s3_range_spec key offset length st1 Ho ltac:(lia) ltac:(lia)) as H1.
    destruct (s3_retry_call _ _ _ _ st1) as [r st']. rewrite E in H1. destruct H1 as [H1 H2]. split; [done|]. intros a Ha. specialize (H2 a Ha).
    destruct (stored st !! key_of key) as [d|] eqn:Ed; cbn [mbind option_bind]; [|done]. by rewrite (Hlive d eq_refl). }
  unfold live in *. destruct soft_delete; cbn [andb] in *; [|by apply Hlast].
  destruct (s3_size root true jitter retry key st) as [r st1]. destruct Hs as [Hs1 Hs2]. destruct r as [[n|]|er]; [|split; [done|]; intros a [= <-]|done].
  - apply Hlast; [done|]. intros d Hd. specialize (Hs2 _ eq_refl). rewrite Hd in Hs2. cbn [mbind option_bind fmap option_fmap option_map] in Hs2. by destruct (blen d =? 0).
  - specialize (Hs2 _ eq_refl). by destruct (_ ≫= _).
Qed.
Lemma s3_range_stands key offset length : s3_key key -> 0 <= offset -> 0 <= length ->
  stands_for s3_rep (s3_get_range root soft_delete jitter retry key offset length) (Storage.get_range key offset length).
Proof.
  intros Hk Ho Hl. apply stands_read; [by eexists|]. intros m st Hr. pose proof (s3_get_range_spec key offset length st Ho Hl) as H.
  destruct (s3_get_range _ _ _ _ key _ _ st) as [r st']. destruct H as [H1 H2]. split; [by eapply s3_rep_eq|]. intros a ->. specialize (H2 a eq_refl).
  unfold Storage.get_range, reading, mbind, M_bind. cbn [next_fault faults objects]. rewrite Hr. unfold visible. rewrite Hk. destruct (_ ≫= live) as [d|]; [|by subst a].
  cbv zeta in H2. destruct H2 as [H2 ->]. unfold blen in H2. by rewrite H2, Z.eqb_refl.
Qed.

Lemma s3_put_spec key data st : let '(r, st') := s3_put_bytes root jitter retry key data st in
  (stored st' = stored st \/ stored st' = <[key_of key := data]> (stored st)) /\ (r = Ok tt -> stored st' = <[key_of key := data]> (stored st)).
Proof.
  pose proof (s3_retry_inv (S3Put (key_of key) OCTET_STREAM (md5_base64 data) data) s3_check_status
    (fun s => stored s = stored st \/ stored s = <[key_of key := data]> (stored st)) (fun _ s => stored s = <[key_of key := data]> (stored st)) st) as H.
  unfold s3_put_bytes. destruct (s3_retry_call _ _ _ _ st) as [r st']. destruct H as [H1 H2]; [|by left|split; [done|intros ->; by eapply H2]].
  intros s Hs. pose proof (put_promise (key_of key) OCTET_STREAM data s) as Hp. destruct (s3_call _ s) as [r0 s']. destruct Hp as [G1 G2].
  assert (Hi : <[key_of key := data]> (stored s) = <[key_of key := data]> (stored st)) by (destruct Hs as [-> | ->]; [done|by rewrite insert_insert_eq]).
  rewrite Hi in *. split; [destruct G1 as [-> | ->]; tauto|]. intros resp [] E Hc. by apply (G2 resp E), (s3_check_ok _ _ Hc).
Qed.
Lemma s3_put_stands key data : s3_key key -> (soft_delete = true -> data <> []) -> stands_for s3_rep (s3_put root jitter retry key data) (Storage.put key data).
Proof.
  intros Hk Hd. apply stands_write. intros m st Hr. pose proof (s3_put_spec key data st) as H. unfold s3_put. destruct (s3_put_bytes _ _ _ key data st) as [r st']. destruct H as [H1 H2].
  assert (Hl : live data = Some data). { unfold live. destruct soft_delete; [|done]. destruct data as [|x l]; [by destruct (Hd eq_refl)|]. done. }
  split; [|intros E; by eapply s3_rep_insert; [..|apply H2]]. destruct H1 as [H1|H1]; [left; by eapply s3_rep_eq|right; by eapply s3_rep_insert].
Qed.

Lemma s3_delete_spec key st : let '(r, st') := s3_retry_call jitter retry (S3Delete (key_of key)) s3_check_status st in
  (stored st' = stored st \/ stored st' = delete (key_of key) (stored st)) /\ (r = Ok tt -> stored st' = delete (key_of key) (stored st)).
Proof.
  pose proof (s3_retry_inv (S3Delete (key_of key)) s3_check_status
    (fun s => stored s = stored st \/ stored s = delete (key_of key) (stored st)) (fun _ s => stored s = delete (key_of key) (stored st)) st) as H.
  destruct (s3_retry_call _ _ _ _ st) as [r st']. destruct H as [H1 H2]; [|by left|split; [done|intros ->; by eapply H2]].
  intros s Hs. pose proof (delete_promise (key_of key) s) as Hp. destruct (s3_call _ s) as [r0 s']. destruct Hp as [G1 G2].
  assert (Hi : delete (key_of key) (stored s) = delete (key_of key) (stored st)) by (destruct Hs as [-> | ->]; [done|by rewrite delete_delete_eq]).
  rewrite Hi in *. split; [destruct G1 as [-> | ->]; tauto|]. intros resp [] E Hc. by apply (G2 resp E), (s3_check_ok _ _ Hc).
Qed.
Lemma s3_delete_stands key : s3_key key -> stands_for s3_rep (s3_delete root soft_delete jitter retry key) (Storage.del key).
Proof.
  intros Hk. apply stands_write. intros m st Hr. unfold s3_delete.
  assert (Hgone : forall st', (soft_delete = true /\ stored st' = <[key_of key := []]> (stored st)) \/ stored st' = delete (key_of key) (stored st) -> s3_rep (delete key m) st').
  { intros st' [[Hs E]|E]; eapply s3_rep_delete; try done; rewrite E.
    - rewrite lookup_insert_eq. cbn [mbind option_bind]. unfold live. by rewrite Hs.
    - intros k Hne. by rewrite lookup_insert_ne.
    - by rewrite lookup_delete_eq.
    - intros k Hne. by rewrite lookup_delete_ne. }
  destruct soft_delete eqn:Esoft.
  - pose proof (s3_put_spec key [] st) as H. destruct (s3_put_bytes _ _ _ key [] st) as [r st']. destruct H as [H1 H2].
    split; [|intros E; apply Hgone; left; split; [done|by apply H2]]. destruct H1 as [H1|H1]; [left; by eapply s3_rep_eq|right; apply Hgone; by left].
  - pose proof (s3_delete_spec key st) as H. destruct (s3_retry_call _ _ _ _ st) as [r st']. destruct H as [H1 H2].
    split; [|intros E; apply Hgone; right; by apply H2]. destruct H1 as [H1|H1]; [left; by eapply s3_rep_eq|right; apply Hgone; by right].
Qed.

(** *** Listings *)

Lemma str_drop_app (a b : string) : str_drop (String.length a) (a +:+ b) = b.
Proof.
  unfold str_drop. rewrite length_str_app. replace (String.length a + String.length b - String.length a)%nat with (String.length b) by lia.
  induction a as [|x a IH]; [|done]. change ("" +:+ b) with b. cbn [String.length]. induction b as [|y b IH]; [done|]. cbn [String.length String.substring]. by rewrite IH.
Qed.

(** The key an entry of the listing is answered as. *)
Definition listed (e : string * bytes) : option string :=
  if ends_with_slash e.1 then None else if soft_delete && (blen e.2 =? 0) then None else Some (if String.eqb root "" then e.1 else str_drop (S (String.length root)) e.1).

Lemma full_key_app prefix r : full_key root prefix +:+ r = full_key root (prefix +:+ r).
Proof. unfold full_key. destruct (String.eqb root ""); [done|]. by rewrite !str_app_assoc. Qed.
Lemma ends_with_slash_root : root <> "" -> ends_with_slash (root +:+ "/") = true.
Proof. intros _. induction root as [|a r IH]; [done|]. change (String a r +:+ "/") with (String a (r +:+ "/")). cbn [ends_with_slash]. destruct (r +:+ "/") eqn:E; [by destruct r|done]. Qed.

Lemma listed_full key d : listed (full_key root key, d) = if ends_with_slash (full_key root key) then None else (fun _ => key) <$> live d.
Proof.
  unfold listed, live. cbn [fst snd]. destruct (ends_with_slash _); [done|]. destruct (soft_delete && _); [done|]. cbn [fmap option_fmap option_map]. f_equal.
  unfold full_key. destruct (String.eqb_spec root ""); [done|]. rewrite str_app_assoc. replace (S (String.length root)) with (String.length (root +:+ "/")) by (rewrite length_str_app; cbn [String.length]; lia).
  apply str_drop_app.
Qed.

Lemma page_keys_spec contents entries prefix :
  Forall2 (fun obj e => percent_decode_utf8 (lo_key obj) = Some e.1 /\ lo_size obj = blen e.2) contents entries ->
  Forall (fun e => starts_with e.1 (full_key root prefix) = true) entries -> page_keys root soft_delete contents = Ok (omap listed entries).
Proof.
  induction 1 as [|obj e contents entries [Hd Hsz] _ IH]; intros Hf; [done|]. apply Forall_cons in Hf as [He Hf]. cbn [page_keys omap list_omap]. rewrite Hd, IH by done.
  cbn [mbind result_bind]. apply starts_with_inv in He as [r He]. rewrite full_key_app in He. destruct e as [k d]. cbn [fst snd] in *. subst k. rewrite Hsz. unfold listed. cbn [fst snd].
  destruct (ends_with_slash (full_key root (prefix +:+ r))) eqn:Es; [done|]. destruct (soft_delete && _); [done|]. f_equal. f_equal.
  unfold root_prefix_len. unfold full_key in *. destruct (String.eqb_spec root "") as [|Hne]; [done|].
  destruct (Nat.ltb_spec (S (String.length root)) (String.length (root +:+ "/" +:+ prefix +:+ r))) as [|Hle]; [done|].
  rewrite length_str_app in Hle. change ("/" +:+ prefix +:+ r) with (String "/" (prefix +:+ r)) in *. cbn [String.length] in Hle.
  destruct (prefix +:+ r); [by rewrite ends_with_slash_root in Es|cbn [String.length] in Hle; lia].
Qed.

Lemma all_keys_prefix objs prefix : Forall (fun e => starts_with e.1 prefix = true) (all_keys objs prefix).
Proof. rewrite (all_keys_perm objs prefix). apply Forall_forall. intros e He%list_elem_of_In. by apply filter_In in He as [_ ?]. Qed.

(** One page: what it adds, and where the next one starts. *)
Lemma s3_page_spec prefix token st : let '(r, st') := s3_retry_call jitter retry (S3List (key_of prefix) token) list_response st in
  stored st' = stored st /\ forall page, r = Ok page ->
    let rest := drop (from_option token_at 0%nat token) (all_keys (stored st) (key_of prefix)) in
    let n := length (pg_contents page) in
    page_keys root soft_delete (pg_contents page) = Ok (omap listed (take n rest)) /\ (n <= length rest)%nat /\
    match next_continuation_token page with None => drop n rest = [] | Some t => (0 < n)%nat /\ token_at t = (from_option token_at 0%nat token + n)%nat end.
Proof.
  apply (s3_read _ _ (fun objs page => let rest := drop (from_option token_at 0%nat token) (all_keys objs (key_of prefix)) in
    let n := length (pg_contents page) in
    page_keys root soft_delete (pg_contents page) = Ok (omap listed (take n rest)) /\ (n <= length rest)%nat /\
    match next_continuation_token page with None => drop n rest = [] | Some t => (0 < n)%nat /\ token_at t = (from_option token_at 0%nat token + n)%nat end)).
  intros s. pose proof (list_promise (key_of prefix) token s) as H. destruct (s3_call _ s) as [r s']. destruct H as [H1 H2]. split; [done|]. intros resp page E Hp.
  unfold list_response in Hp. destruct (s3_check_status resp) eqn:Ec; [|done]. apply s3_check_ok in Ec. cbn [mbind result_bind] in Hp. unfold read_body in Hp.
  destruct (r_body resp) as [b|] eqn:Eb; [|done]. cbn [mbind result_bind] in Hp. destruct (parse_response b) as [pg|] eqn:Ep; [|done]. injection Hp as ->.
  specialize (H2 resp b page E Ec Eb Ep) as [G1 G2]. cbv zeta. split; [|split; [|done]].
  - apply (page_keys_spec _ _ prefix G1). apply Forall_take, Forall_drop, all_keys_prefix.
  - apply Forall2_length in G1. rewrite length_take in G1. lia.
Qed.

(** With a page for every key, and one more, the loop ends. *)
Lemma list_pages_spec prefix fuel : forall token st,
  let rest := drop (from_option token_at 0%nat token) (all_keys (stored st) (key_of prefix)) in
  (length rest < fuel)%nat ->
  exists r st', list_pages root soft_delete jitter retry fuel (key_of prefix) token st = Some (r, st') /\ stored st' = stored st /\ forall ks, r = Ok ks -> ks = omap listed rest.
Proof.
  induction fuel as [|fuel IH]; intros token st rest Hf; [lia|]. cbn [list_pages]. pose proof (s3_page_spec prefix token st) as H.
  destruct (s3_retry_call _ _ _ _ st) as [[page|er] st1]; destruct H as [H1 H2]; [|by eexists _, _]. specialize (H2 page eq_refl). fold rest in H2. cbv zeta in H2.
  set (n := length (pg_contents page)) in *. destruct H2 as (Hk & Hn & Hnext). rewrite Hk. destruct (next_continuation_token page) as [t|].
  - destruct Hnext as [Hpos Ht]. specialize (IH (Some t) st1). rewrite H1 in IH. cbn [from_option] in IH. rewrite Ht, <- drop_drop in IH. fold rest in IH.
    destruct IH as (r & st' & E & Hs & Hks); [rewrite length_drop; lia|]. rewrite E. destruct r as [more|er]; [|by eexists _, _].
    eexists _, _. split; [done|]. split; [done|]. intros ks [= <-]. rewrite (Hks more eq_refl), <- omap_app, take_drop. done.
  - eexists _, _. split; [done|]. split; [done|]. intros ks [= <-]. rewrite <- (take_drop n rest) at 2. by rewrite omap_app, Hnext, app_nil_r.
Qed.

Lemma NoDup_omap_inj {A B} (f : A -> option B) l : NoDup l -> (forall x y b, x ∈ l -> y ∈ l -> f x = Some b -> f y = Some b -> x = y) -> NoDup (omap f l).
Proof.
  induction 1 as [|x l Hx Hl IH]; intros Hinj; [constructor|]. cbn [omap list_omap].
  assert (IH' : NoDup (omap f l)) by (apply IH; intros; eapply Hinj; try done; by right). destruct (f x) as [b|] eqn:E; [|done]. constructor; [|done].
  intros (y & Hy & Ey)%list_elem_of_omap. apply Hx. by rewrite (Hinj x y b (list_elem_of_here _ _) (list_elem_of_further _ _ _ Hy) E Ey).
Qed.

Lemma listed_inv objs prefix e k : e ∈ List.filter (fun e => starts_with e.1 (key_of prefix)) (map_to_list objs) -> listed e = Some k ->
  e.1 = key_of k /\ starts_with k prefix = true /\ s3_key k /\ objs !! key_of k = Some e.2 /\ is_Some (live e.2).
Proof.
  intros [Hin%list_elem_of_In Hs]%list_elem_of_In%filter_In Hl. destruct e as [fk d]. apply elem_of_map_to_list in Hin. cbn [fst snd] in *.
  apply starts_with_inv in Hs as [r ->]. rewrite full_key_app in *. rewrite listed_full in Hl. unfold s3_key.
  destruct (ends_with_slash _) eqn:E; [done|]. destruct (live d) as [d'|]; [|done]. cbn [fmap option_fmap option_map] in Hl. injection Hl as <-.
  split; [done|]. split; [apply starts_with_prefix|]. by split_and!.
Qed.

Lemma listed_keys m st prefix : s3_rep m st -> omap listed (all_keys (stored st) (key_of prefix)) ≡ₚ List.filter (fun k => starts_with k prefix) (map_to_list m).*1.
Proof.
  intros Hr. rewrite (all_keys_perm (stored st) (key_of prefix)). apply NoDup_Permutation.
  - apply NoDup_omap_inj; [apply NoDup_ListNoDup, List.NoDup_filter, NoDup_ListNoDup, NoDup_map_to_list|]. intros x y k Hx Hy Ex Ey.
    destruct (listed_inv _ _ _ _ Hx Ex) as (G1 & _ & _ & G2 & _), (listed_inv _ _ _ _ Hy Ey) as (K1 & _ & _ & K2 & _). destruct x, y. cbn [fst snd] in *. congruence.
  - apply NoDup_ListNoDup, List.NoDup_filter, NoDup_ListNoDup, NoDup_fst_map_to_list.
  - intros k. rewrite list_elem_of_omap, list_elem_of_In, filter_In, <- list_elem_of_In. split.
    + intros (e & He & El). destruct (listed_inv _ _ _ _ He El) as (_ & G1 & G2 & G3 & [d G4]). split; [|done].
      apply (list_elem_of_fmap_2 fst _ (k, d)), elem_of_map_to_list. rewrite Hr. unfold visible. rewrite G2, G3. done.
    + intros [([k' d] & -> & Hin%elem_of_map_to_list)%list_elem_of_fmap Hs]. cbn [fst] in *. rewrite Hr in Hin. unfold visible in Hin.
      destruct (ends_with_slash _) eqn:E; [done|]. destruct (stored st !! key_of k') as [d'|] eqn:Ed; [|done]. cbn [mbind option_bind] in Hin. exists (key_of k', d'). split.
      * apply list_elem_of_In, filter_In. split; [by apply list_elem_of_In, elem_of_map_to_list|]. cbn [fst]. apply starts_with_inv in Hs as [r ->]. rewrite <- full_key_app. apply starts_with_prefix.
      * by rewrite listed_full, E, Hin.
Qed.

Lemma s3_create_dir_stands key : stands_for s3_rep (s3_create_dir root jitter retry key) (Storage.writing (fun m => m)).
Proof.
  apply stands_write. intros m st Hr. unfold s3_create_dir. set (dk := if ends_with_slash key then key_of key else key_of (key +:+ "/")).
  assert (Hdk : ends_with_slash dk = true).
  { assert (Hslash : forall a b, ends_with_slash b = true -> ends_with_slash (a +:+ b) = true).
    { intros a b Hb. induction a as [|x a IH]; [done|]. change (String x a +:+ b) with (String x (a +:+ b)). cbn [ends_with_slash]. destruct (a +:+ b) eqn:E; [|done].
      destruct a; [|done]. by destruct b. }
    assert (Hfk : forall k, ends_with_slash k = true -> ends_with_slash (key_of k) = true).
    { intros k Hk. unfold full_key. destruct (String.eqb root ""); [done|]. by do 2 apply Hslash. }
    unfold dk. destruct (ends_with_slash key) eqn:E; apply Hfk; [done|]. by apply Hslash. }
  pose proof (s3_retry_inv (S3Put dk OCTET_STREAM (md5_base64 []) []) s3_check_status (s3_rep m) (fun _ => s3_rep m) st) as H.
  destruct (s3_retry_call _ _ _ _ st) as [r st']. destruct H as [H1 H2]; [|done|by split; [left|]].
  intros s Hs. pose proof (put_promise dk OCTET_STREAM [] s) as Hp. destruct (s3_call _ s) as [r0 s']. destruct Hp as [G1 _].
  assert (Hr' : s3_rep m s'); [|by split]. destruct G1 as [E|E]; [by eapply s3_rep_eq|]. intros k. rewrite (Hs k). unfold visible. rewrite E.
  destruct (ends_with_slash (key_of k)) eqn:Ek; [done|]. by rewrite lookup_insert_ne by congruence.
Qed.
End S3Laws.

(** C36. A bucket reached over any network is a storage backend as Storage.v
    assumes one, with deletion or with tombstones: an answer is the answer of
    the interface on the live objects, a write that is reported done is done,
    one that fails has had its whole effect or none however often it was
    repeated, and markers of directories are not objects.  With tombstones,
    which are empty objects, a put of empty data is excluded. *)
Theorem s3_refines_storage {St} {Hapi : S3Api St} {Hserv : S3Promises Hapi} root soft_delete jitter retry key : s3_key root key ->
  stands_for (s3_rep root soft_delete) (s3_get root soft_delete jitter retry key) (Storage.get key) /\
  (forall data, (soft_delete = true -> data <> []) -> stands_for (s3_rep root soft_delete) (s3_put root jitter retry key data) (Storage.put key data)) /\
  stands_for (s3_rep root soft_delete) (s3_delete root soft_delete jitter retry key) (Storage.del key) /\
  stands_for (s3_rep root soft_delete) (s3_exists root soft_delete jitter retry key) (Storage.exists_ key) /\
  stands_for (s3_rep root soft_delete) (s3_size root soft_delete jitter retry key) (Storage.size_of key) /\
  (forall offset length, 0 <= offset -> 0 <= length -> stands_for (s3_rep root soft_delete) (s3_get_range root soft_delete jitter retry key offset length) (Storage.get_range key offset length)) /\
  (forall dir, stands_for (s3_rep root soft_delete) (s3_create_dir root jitter retry dir) (Storage.writing (fun m => m))).
Proof.
  intros Hk. split; [by apply s3_get_stands|]. split; [intros; by apply s3_put_stands|]. split; [by apply s3_delete_stands|]. split; [by apply s3_exists_stands|].
  split; [by apply s3_size_stands|]. split; [intros; by apply s3_range_stands|]. intros dir. apply s3_create_dir_stands.
Qed.

(** C37. A listing ends, over however many pages the service cuts it into, and
    changes nothing; unless a request fails, it holds every live key under the
    prefix once, without the root, and nothing else: no tombstones, no markers
    of directories. *)
Theorem s3_list_exact {St} {Hapi : S3Api St} {Hserv : S3Promises Hapi} root soft_delete jitter retry prefix m st fuel :
  s3_rep root soft_delete m st -> (size (stored st) < fuel)%nat ->
  exists r st', s3_list root soft_delete jitter retry fuel prefix st = Some (r, st') /\ s3_rep root soft_delete m st' /\
  forall ks, r = Ok ks -> ks ≡ₚ List.filter (fun k => starts_with k prefix) (map_to_list m).*1.
Proof.
  intros Hr Hf. destruct (list_pages_spec root soft_delete jitter retry prefix fuel None st) as (r & st' & E & Hs & Hks).
  - cbn [from_option]. rewrite drop_0, (all_keys_perm _ _). pose proof (List.filter_length_le (fun e : string * bytes => starts_with e.1 (full_key root prefix)) (map_to_list (stored st))).
    rewrite length_map_to_list in H. lia.
  - exists r, st'. split; [done|]. split; [by eapply s3_rep_eq|]. intros ks Hok. rewrite (Hks ks Hok). cbn [from_option]. rewrite drop_0. by apply listed_keys.
Qed.

(** ** A bucket *)

(** A bucket that answers every request, its listings a key a page. *)
Module ToyBucket.
Abbreviation Bucket := (gmap string bytes).
Definition tally (n : nat) : string := Nat.iter n (String "x") "".
Definition keys_of (b : Bucket) (prefix : string) : list (string * bytes) := List.filter (fun e => starts_with e.1 prefix) (map_to_list b).
Definition page_at (b : Bucket) (prefix : string) (start : nat) : list (string * Z) * option string :=
  let rest := drop start (keys_of b prefix) in
  ((fun e => (e.1, blen e.2)) <$> take 1 rest, if (1 <? length rest)%nat then Some (tally (S start)) else None).
Definition call (req : S3Request) (b : Bucket) : result UreqError Response * Bucket :=
  match req with
  | S3Get key None => (Ok (match b !! key with Some d => mkResponse 200 None None (Ok d) | None => bare 404 end), b)
  | S3Get key (Some range) =>
      (Ok (match b !! key with
           | Some d => match parse_range range with Ok (off, len) => mkResponse 206 None None (Ok (slice (Z.to_nat off) (Z.to_nat len) d)) | Err _ => bare 416 end
           | None => bare 404
           end), b)
  | S3Head key => (Ok (match b !! key with Some d => if blen d <=? u64_max then mkResponse 200 None (Some (pretty (Z.to_N (blen d)))) (Ok []) else bare 500 | None => bare 404 end), b)
  | S3Put key _ _ body => (Ok (bare 200), <[key := body]> b)
  | S3Delete key => (Ok (bare 204), delete key b)
  | S3List prefix token => (Ok (mkResponse 200 None None (Ok (bits_encode (page_at b prefix (from_option String.length 0%nat token))))), b)
  end.
Definition page_of (x : list (string * Z) * option string) : ListPage := mkPage ((fun e => mkListed e.1 e.2) <$> x.1) x.2.
#[export] Instance api : S3Api Bucket :=
  { s3_call := call; parse_response := fun b => page_of <$> bits_decode b; md5_base64 := fun _ => "md5"; percent_decode_utf8 := Some }.

Lemma length_tally n : String.length (tally n) = n.
Proof. induction n as [|n IH]; [done|]. change (tally (S n)) with (String "x" (tally n)). cbn [String.length]. by rewrite IH. Qed.

Lemma keeps_list prefix token b : let '(r, b') := call (S3List prefix token) b in
  b' = b /\ forall resp body page, r = Ok resp -> r_status resp < 400 -> r_body resp = Ok body -> parse_response body = Some page ->
    let start := from_option String.length 0%nat token in
    let n := length (pg_contents page) in
    let rest := drop start (keys_of b prefix) in
    Forall2 (fun obj e => percent_decode_utf8 (lo_key obj) = Some e.1 /\ lo_size obj = blen e.2) (pg_contents page) (take n rest) /\
    match next_continuation_token page with None => drop n rest = [] | Some t => (0 < n)%nat /\ String.length t = (start + n)%nat end.
Proof.
  split; [done|]. intros resp body page [= <-] _ [= <-]. cbn [parse_response api]. rewrite bits_decode_encode. intros [= <-]. cbv zeta. unfold page_at, page_of. cbn [fst snd pg_contents next_continuation_token].
  destruct (drop (from_option String.length 0%nat token) (keys_of b prefix)) as [|e rest]; [done|]. cbn [take fmap list_fmap length Nat.ltb Nat.leb]. split; [by apply Forall2_cons|].
  destruct rest as [|e' rest]; [done|]. split; [cbn; lia|]. change (String.length (tally (S (from_option String.length 0%nat token))) = (from_option String.length 0%nat token + 1)%nat). rewrite length_tally. lia.
Qed.

#[export] Program Instance promises : S3Promises api :=
  { stored := fun b => b; all_keys := keys_of; token_at := String.length }.
Next Obligation. done. Qed.
Next Obligation. intros key b. cbn. split; [done|]. intros resp [= <-]. destruct (b !! key); split; try done. by intros _ b' [= ->]. Qed.
Next Obligation.
  intros key offset end_ b H1 H2. cbn [s3_call api call]. split; [done|]. intros resp [= <-]. rewrite parse_range_header by done.
  destruct (b !! key) as [d|]; split; try done. intros _ b' [= <-]. by exists d.
Qed.
Next Obligation.
  intros key b. cbn [s3_call api call]. split; [done|]. intros resp [= <-]. destruct (b !! key) as [d|]; [|by split].
  destruct (Z.leb_spec (blen d) u64_max); split; try done. intros _. exists d. split; [done|]. intros v [= <-]. apply parse_u64_pretty. pose proof (blen_nonneg d). lia.
Qed.
Next Obligation. intros key ct data b. cbn [s3_call api call]. split; [by right|done]. Qed.
Next Obligation. intros key b. cbn [s3_call api call]. split; [by right|done]. Qed.
Next Obligation. exact keeps_list. Qed.
End ToyBucket.
Import ToyBucket.

Definition s3_retries : RetryConfig := mkRetry 2 1000 60000.
Definition s3_bucket : gmap string bytes := {[ "r/snapshots/a" := [1; 2]; "r/snapshots/b" := []; "r/snapshots/" := []; "r/snapshots/c" := [3] ]}.
Definition s3_objects : Store := {[ "snapshots/a" := [1; 2]; "snapshots/c" := [3] ]}.

Lemma s3_bucket_objects : s3_rep "r" true s3_objects s3_bucket.
Proof.
  intros key. unfold visible, s3_objects. cbn [stored ToyBucket.promises]. destruct (decide (key = "snapshots/a")) as [->|Ha]; [by vm_compute|].
  destruct (decide (key = "snapshots/c")) as [->|Hc]; [by vm_compute|]. destruct (decide (key = "snapshots/b")) as [->|Hb]; [by vm_compute|].
  destruct (decide (key = "snapshots/")) as [->|Hd]; [by vm_compute|]. rewrite !lookup_insert_ne, lookup_singleton_ne by done.
  assert (Hne : forall k, key <> k -> full_key "r" k <> full_key "r" key) by (intros k Hk E; apply Hk; symmetry; by apply (full_key_inj "r")).
  pose proof (Hne _ Ha). pose proof (Hne _ Hb). pose proof (Hne _ Hc). pose proof (Hne _ Hd).
  unfold s3_bucket. rewrite !lookup_insert_ne, lookup_singleton_ne by done. by destruct (ends_with_slash _).
Qed.

(** Witness: an object of a bucket with tombstones. *)
Lemma s3_refines_storage_witness :
  s3_rep "r" true s3_objects s3_bucket /\ (s3_get "r" true (fun _ => 0) s3_retries "snapshots/a" s3_bucket).1 = Ok (Some [1; 2]) /\
  (s3_get "r" true (fun _ => 0) s3_retries "snapshots/b" s3_bucket).1 = Ok None /\
  stands_for (s3_rep "r" true) (s3_delete "r" true (fun _ => 0) s3_retries "snapshots/a") (Storage.del "snapshots/a").
Proof.
  split; [exact s3_bucket_objects|]. split; [vm_compute; reflexivity|]. split; [vm_compute; reflexivity|].
  pose proof (s3_refines_storage "r" true (fun _ => 0) s3_retries "snapshots/a" eq_refl) as (_ & _ & Hd & _). exact Hd.
Defined.

(** Witness: the same bucket listed over four pages. *)
Lemma s3_list_exact_witness : exists ks, (exists st', s3_list "r" true (fun _ => 0) s3_retries 5 "snapshots/" s3_bucket = Some (Ok ks, st')) /\ ks ≡ₚ ["snapshots/c"; "snapshots/a"].
Proof.
  destruct (s3_list_exact "r" true (fun _ => 0) s3_retries "snapshots/" s3_objects s3_bucket 5 s3_bucket_objects) as (r & st' & E & _ & Hks); [vm_compute; lia|].
  assert (Hok : match s3_list "r" true (fun _ => 0) s3_retries 5 "snapshots/" s3_bucket with Some (Ok _, _) => True | _ => False end) by (vm_compute; exact I).
  rewrite E in Hok. destruct r as [ks|]; [|destruct Hok]. exists ks. split; [exists st'; exact E|]. etransitivity; [exact (Hks ks eq_refl)|].
  match goal with |- ?l ≡ₚ _ => replace l with ["snapshots/c"; "snapshots/a"] by (vm_compute; reflexivity) end. reflexivity.
Defined.

(** ** A root with a percent sign *)

(** A service that does not encode the keys it lists, and a root that looks
    like an escape: the decoded key is shorter than the stored one, and the
    answer is cut in the middle of its first part. *)
Lemma list_root_percent {St} (Hapi : S3Api St) : percent_decode_utf8 "a%41/snapshots/x" = Some "aA/snapshots/x" ->
  page_keys "a%41" false [mkListed "a%41/snapshots/x" 3] = Ok ["apshots/x"].
Proof. intros H. cbn [page_keys lo_key]. by rewrite H. Qed.
