(* ===== verification/Sftp.v ===== *)
(** * The SFTP backend (crates/vykar-storage/src/sftp_backend.rs)

    The storage methods over SFTP, retried on a fresh connection while the
    errors are transient, and the bounded pool the connections come from.
    The server, the network and the SSH library are parameters: a class
    states what an answer tells of the remote files.  A file is written in
    place, so that an upload that stops leaves a part of the object: what the
    theorem about the methods says of [put] is weaker than what Storage.v
    assumes, and [interrupted_put_loses_object] shows that it has to be.  The
    pool is a step relation over the threads that use it. *)

From S2P Require Import Prelude Types Storage Protocol Pack ReadPath Compress ServerPath Server ServerRead Rest FileCache S3 Backends.
#[local] Open Scope string_scope.
#[local] Open Scope list_scope.
#[local] Open Scope Z_scope.

(** ** Errors *)

Inductive StatusCode := SNoSuchFile | SPermissionDenied | SFailure | SBadMessage | SNoConnection | SConnectionLost | SOpUnsupported | SEof.
Inductive SftpError := SfTimeout | SfIo | SfLimited | SfUnexpectedPacket | SfUnexpectedBehavior | SfStatus (code : StatusCode).
Inductive SshError := SshKexInit | SshKex | SshDisconnect | SshHup | SshConnectionTimeout | SshKeepaliveTimeout | SshInactivityTimeout | SshSendError | SshPending | SshIo | SshElapsed
  | SshKeyChanged | SshOther.

Record RetryError := mkRetryError { re_err : VykarError; re_retryable : bool }.
Abbreviation RetryResult := (result RetryError).
Definition retry_transient (err : VykarError) : RetryError := mkRetryError err true.
Definition retry_permanent (err : VykarError) : RetryError := mkRetryError err false.

Definition is_retryable_ssh_error (e : SshError) : bool := match e with SshKeyChanged | SshOther => false | _ => true end.
Definition is_retryable_sftp_error (e : SftpError) : bool :=
  match e with SfStatus code => match code with SNoConnection | SConnectionLost | SBadMessage => true | _ => false end | _ => true end.
Definition ssh_retry_error (op : string) (e : SshError) : RetryError := if is_retryable_ssh_error e then retry_transient (Other op) else retry_permanent (Other op).
Definition sftp_retry_error (op : string) (e : SftpError) : RetryError := if is_retryable_sftp_error e then retry_transient (Other op) else retry_permanent (Other op).
Definition io_retry_error (op : string) (k : IoErrorKind) : RetryError :=
  match k with
  | TimedOut | InterruptedIo | WouldBlock | ConnectionAborted | ConnectionReset | NotConnected | BrokenPipe | OtherKind => retry_transient (Other op)
  | _ => retry_permanent (Other op)
  end.
Definition is_not_found (e : SftpError) : bool := match e with SfStatus SNoSuchFile => true | _ => false end.

(** ** Settings and paths *)

Definition DEFAULT_SFTP_MAX_CONNECTIONS : nat := 4.
Definition MAX_SFTP_MAX_CONNECTIONS : nat := 32.
Definition MAX_GET_RANGE_BYTES : Z := 1024 * 1024 * 1024.
Definition DEFAULT_SFTP_TIMEOUT_SECS : Z := 30.
Definition MIN_SFTP_TIMEOUT_SECS : Z := 5.
Definition MAX_SFTP_TIMEOUT_SECS : Z := 300.

Definition normalize_root (root : string) : string := let root := trim_matches slash root in if String.eqb root "" then "/" else "/" +:+ root.
Definition normalize_max_connections (requested : option nat) : nat := Nat.min (Nat.max (default DEFAULT_SFTP_MAX_CONNECTIONS requested) 1) MAX_SFTP_MAX_CONNECTIONS.
Definition normalize_sftp_timeout (requested : option Z) : Z := Z.min (Z.max (default DEFAULT_SFTP_TIMEOUT_SECS requested) MIN_SFTP_TIMEOUT_SECS) MAX_SFTP_TIMEOUT_SECS.

Definition posix_join (base child : string) : string :=
  let base := trim_end slash base in
  let base := if String.eqb base "" then "/" else base in
  let child := trim_start slash child in
  if String.eqb child "" then base
  else if String.eqb base "/" then "/" +:+ child
  else base +:+ "/" +:+ child.

(** [rsplit_once('/')], the part before. *)
Definition remote_parent (path : string) : option string :=
  match split_on slash path with
  | [] | [_] => None
  | parts => Some (String.concat "/" (take (length parts - 1) parts))
  end.

(** The directories from the root down to one. *)
Fixpoint dirs_down (current : string) (components : list string) : list string :=
  match components with
  | [] => []
  | c :: components =>
      if String.eqb c "" then dirs_down (current +:+ "/") components
      else
        let current := if String.eqb current "" || String.eqb current "/" then current +:+ c else current +:+ "/" +:+ c in
        current :: dirs_down current components
  end.
Definition dir_chain (dir : string) : list string := dirs_down "" (split_on slash dir).

Definition validate_range_length (length : Z) : RetryResult nat :=
  if MAX_GET_RANGE_BYTES <? length then Err (retry_permanent (Other "requested range length exceeds max")) else Ok (Z.to_nat length).

(** ** The client library *)

Record Attrs := mkAttrs { at_is_dir : bool; at_size : option Z }.

(** Calls on a connection, with the state of the server and the network; an
    open file is named by its path.  [sftp_acquire] is getting a connection,
    whose parts are [connect] and the steps of the pool below. *)
Class SftpApi (St : Type) := {
  sftp_acquire : St -> RetryResult unit * St;
  sftp_open : string -> St -> result SftpError unit * St;
  sftp_create : string -> St -> result SftpError unit * St;
  sftp_remove_file : string -> St -> result SftpError unit * St;
  sftp_metadata : string -> St -> result SftpError Attrs * St;
  sftp_create_dir : string -> St -> result SftpError unit * St;
  sftp_read_dir : string -> St -> result SftpError (list (string * bool)) * St;
  file_read_to_end : string -> St -> result IoErrorKind bytes * St;
  file_seek : string -> Z -> St -> result IoErrorKind unit * St;
  file_read : string -> Z -> nat -> St -> result IoErrorKind bytes * St;
  file_write_all : string -> bytes -> St -> result IoErrorKind unit * St;
  file_flush : string -> St -> result IoErrorKind unit * St;
  file_shutdown : string -> St -> result IoErrorKind unit * St;
}.

(** ** The backend *)

(** The remote side and the directories known to exist. *)
Record SftpState (St : Type) := mkSftp { sp_remote : St; sp_known_dirs : gset string }.
Arguments mkSftp {St}. Arguments sp_remote {St}. Arguments sp_known_dirs {St}.

Section SftpBackend.
Context {St : Type} `{Hapi : SftpApi St} (root : string) (retry : RetryConfig).

Definition SM (A : Type) : Type := St -> RetryResult A * St.
#[local] Instance SM_ret : MRet SM := fun A a s => (Ok a, s).
#[local] Instance SM_bind : MBind SM := fun A B f m s => match m s with (Ok a, s') => f a s' | (Err er, s') => (Err er, s') end.
Definition sfail {A} (er : RetryError) : SM A := fun s => (Err er, s).
Definition sftp {A} (op : string) (call : St -> result SftpError A * St) : SM A := fun s =>
  let '(r, s) := call s in (match r with Ok a => Ok a | Err e => Err (sftp_retry_error op e) end, s).
Definition io {A} (op : string) (call : St -> result IoErrorKind A * St) : SM A := fun s =>
  let '(r, s) := call s in (match r with Ok a => Ok a | Err k => Err (io_retry_error op k) end, s).
(** A call where "not found" is an answer. *)
Definition or_absent {A} (op : string) (call : St -> result SftpError A * St) : SM (option A) := fun s =>
  let '(r, s) := call s in (match r with Ok a => Ok (Some a) | Err e => if is_not_found e then Ok None else Err (sftp_retry_error op e) end, s).

(** An operation on a connection of the pool, again on another one while the
    errors are transient; the pauses between the attempts are left out. *)
Fixpoint retry_loop_op {T} (tries : nat) (f : SM T) (s : St) : res T * St :=
  match sftp_acquire s with
  | (Err e, s) => match tries with S tries => if re_retryable e then retry_loop_op tries f s else (Err (re_err e), s) | O => (Err (re_err e), s) end
  | (Ok _, s) =>
      match f s with
      | (Ok a, s) => (Ok a, s)
      | (Err e, s) => match tries with S tries => if re_retryable e then retry_loop_op tries f s else (Err (re_err e), s) | O => (Err (re_err e), s) end
      end
  end.
Definition retry_op {T} (f : SM T) : St -> res T * St := retry_loop_op (max_retries retry) f.

Definition sftp_full_path (key : string) : string := posix_join root key.

Fixpoint mkdir_each (dirs : list string) : SM unit :=
  match dirs with
  | [] => mret tt
  | current :: dirs =>
      _ ← (fun s => match sftp_create_dir current s with
        | (Ok _, s) => (Ok tt, s)
        | (Err (SfStatus _), s) =>
            match sftp_metadata current s with
            | (Ok attrs, s) => if at_is_dir attrs then (Ok tt, s) else (Err (retry_permanent (Other "path exists but is not a directory")), s)
            | (Err e, s) => (Err (sftp_retry_error "mkdir" e), s)
            end
        | (Err e, s) => (Err (sftp_retry_error "mkdir" e), s)
        end);
      mkdir_each dirs
  end.
Definition mkdir_p (path : string) : SM unit := mkdir_each (dir_chain path).

(** Methods that keep no directories. *)
Definition on_remote {T} (f : St -> res T * St) (s : SftpState St) : res T * SftpState St :=
  let '(r, rm) := f (sp_remote s) in (r, mkSftp rm (sp_known_dirs s)).

Definition sftp_get (key : string) : SftpState St -> res (option bytes) * SftpState St :=
  let path := sftp_full_path key in
  on_remote (retry_op (
    o ← or_absent "open" (sftp_open path);
    match o with
    | None => mret None
    | Some _ => buf ← io "read" (file_read_to_end path); mret (Some buf)
    end)).

Definition upload (path : string) (parent_known : bool) (data : bytes) : SM unit :=
  _ ← (if parent_known then mret tt else match remote_parent path with Some parent => if String.eqb parent "" then mret tt else mkdir_p parent | None => mret tt end);
  _ ← sftp "create" (sftp_create path);
  _ ← io "write" (file_write_all path data);
  _ ← io "flush" (file_flush path);
  io "close" (file_shutdown path).

Definition mark_dir_known (dir : string) (known : gset string) : gset string := list_to_set (dir_chain dir) ∪ known.

Definition sftp_put (key : string) (data : bytes) (s : SftpState St) : res unit * SftpState St :=
  let path := sftp_full_path key in
  let parent_known := match remote_parent path with Some p => if String.eqb p "" then true else bool_decide (p ∈ sp_known_dirs s) | None => true end in
  let '(r, rm) := retry_op (upload path parent_known data) (sp_remote s) in
  match r with
  | Err er => (Err er, mkSftp rm (sp_known_dirs s))
  | Ok _ =>
      (Ok tt, mkSftp rm (if parent_known then sp_known_dirs s else
        match remote_parent path with Some p => if String.eqb p "" then sp_known_dirs s else mark_dir_known p (sp_known_dirs s) | None => sp_known_dirs s end))
  end.

Definition sftp_delete (key : string) : SftpState St -> res unit * SftpState St :=
  on_remote (retry_op (_ ← or_absent "delete" (sftp_remove_file (sftp_full_path key)); mret tt)).

Definition sftp_exists (key : string) : SftpState St -> res bool * SftpState St :=
  on_remote (retry_op (o ← or_absent "stat" (sftp_metadata (sftp_full_path key)); mret (match o with Some _ => true | None => false end))).

Definition sftp_size (key : string) : SftpState St -> res (option Z) * SftpState St :=
  on_remote (retry_op (
    o ← or_absent "stat" (sftp_metadata (sftp_full_path key));
    match o with
    | None => mret None
    | Some meta => match at_size meta with Some sz => mret (Some sz) | None => sfail (retry_permanent (Other "server did not return file size")) end
    end)).

(** The loop of reads; each of them takes at least a byte. *)
Fixpoint read_range_loop (fuel : nat) (path : string) (pos : Z) (want : nat) (buf : bytes) : SM bytes :=
  if (want <=? length buf)%nat then mret buf
  else match fuel with
  | O => mret buf
  | S fuel =>
      piece ← io "read_range" (file_read path (pos + blen buf) (want - length buf));
      match piece with [] => mret buf | _ => read_range_loop fuel path pos want (buf ++ piece) end
  end.

Definition sftp_get_range (key : string) (offset length : Z) : SftpState St -> res (option bytes) * SftpState St :=
  let path := sftp_full_path key in
  on_remote (retry_op (
    requested_len ← (fun s => (validate_range_length length, s));
    o ← or_absent "open" (sftp_open path);
    match o with
    | None => mret None
    | Some _ =>
        _ ← io "seek" (file_seek path offset);
        buf ← read_range_loop requested_len path offset requested_len [];
        if negb (List.length buf =? requested_len)%nat then sfail (retry_permanent (Other "short read")) else mret (Some buf)
    end)).

(** The walk of a listing, on the directories still to visit; [None] when the
    fuel is spent. *)
Definition entry_key (current_dir : string) (name : string) : string :=
  let full := posix_join current_dir name in trim_start slash (default full (strip_prefix full root)).
Fixpoint list_dirs (fuel : nat) (dirs_to_visit : list string) (keys : list string) : SM (option (list string)) := fun s =>
  match dirs_to_visit with
  | [] => (Ok (Some keys), s)
  | current_dir :: dirs_to_visit =>
      match fuel with
      | O => (Ok None, s)
      | S fuel =>
          match sftp_read_dir current_dir s with
          | (Err e, s) => (if is_not_found e then Ok (Some keys) else Err (sftp_retry_error "readdir" e), s)
          | (Ok entries, s) =>
              let entries := List.filter (fun en => negb (String.eqb en.1 "." || String.eqb en.1 "..")) entries in
              let subdirs := (fun en => posix_join current_dir en.1) <$> List.filter snd entries in
              let files := (fun en => entry_key current_dir en.1) <$> List.filter (fun en => negb en.2) entries in
              list_dirs fuel (rev subdirs ++ dirs_to_visit) (keys ++ List.filter (fun k => negb (String.eqb k "")) files) s
          end
      end
  end.
Definition list_recursive (fuel : nat) (dir_path : string) : SM (option (list string)) := list_dirs fuel [dir_path] [].
Definition sftp_list (fuel : nat) (prefix : string) : SftpState St -> res (option (list string)) * SftpState St :=
  on_remote (retry_op (list_recursive fuel (sftp_full_path prefix))).

Definition sftp_create_dir_at (key : string) (s : SftpState St) : res unit * SftpState St :=
  let path := sftp_full_path (trim_end slash key) in
  if bool_decide (path ∈ sp_known_dirs s) then (Ok tt, s)
  else
    let '(r, rm) := retry_op (mkdir_p path) (sp_remote s) in
    match r with Err er => (Err er, mkSftp rm (sp_known_dirs s)) | Ok _ => (Ok tt, mkSftp rm (mark_dir_known path (sp_known_dirs s))) end.
End SftpBackend.

(** ** What the answers tell

    [remote] is the files of the server by their paths.  A call that is not
    answered, or answered with an error, may have been carried out; a write
    may have been carried out in part. *)
Class SftpPromises {St : Type} (Hapi : SftpApi St) := {
  remote : St -> gmap string bytes;
  acquire_promise s : remote (sftp_acquire s).2 = remote s;
  open_promise p s : let '(r, s') := sftp_open p s in remote s' = remote s /\ (r = Ok tt -> is_Some (remote s !! p)) /\ forall e, r = Err e -> is_not_found e = true -> remote s !! p = None;
  create_promise p s : let '(r, s') := sftp_create p s in
    (remote s' = remote s \/ remote s' = <[p := []]> (remote s)) /\ (r = Ok tt -> remote s' = <[p := []]> (remote s));
  remove_promise p s : let '(r, s') := sftp_remove_file p s in
    (remote s' = remote s \/ remote s' = delete p (remote s)) /\ (r = Ok tt -> remote s' = delete p (remote s)) /\
    forall e, r = Err e -> is_not_found e = true -> remote s' = remote s /\ remote s !! p = None;
  metadata_promise p s : let '(r, s') := sftp_metadata p s in remote s' = remote s /\
    (forall a, r = Ok a -> if at_is_dir a then remote s !! p = None else exists d, remote s !! p = Some d /\ forall sz, at_size a = Some sz -> sz = blen d) /\
    forall e, r = Err e -> is_not_found e = true -> remote s !! p = None;
  create_dir_promise p s : remote (sftp_create_dir p s).2 = remote s;
  read_dir_promise p s : remote (sftp_read_dir p s).2 = remote s;
  read_to_end_promise p s : let '(r, s') := file_read_to_end p s in remote s' = remote s /\ forall b, r = Ok b -> remote s !! p = Some b;
  seek_promise p n s : remote (file_seek p n s).2 = remote s;
  read_promise p pos want s : 0 <= pos -> let '(r, s') := file_read p pos want s in remote s' = remote s /\
    forall b, r = Ok b -> exists d, remote s !! p = Some d /\ b = slice (Z.to_nat pos) (length b) d /\ (length b <= want)%nat;
  write_promise p data s old : remote s !! p = Some old -> let '(r, s') := file_write_all p data s in
    (exists n, remote s' = <[p := old ++ take n data]> (remote s)) /\ (r = Ok tt -> remote s' = <[p := old ++ data]> (remote s));
  flush_promise p s : remote (file_flush p s).2 = remote s;
  shutdown_promise p s : remote (file_shutdown p s).2 = remote s;
}.

Section SftpLaws.
Context {St : Type} {Hapi : SftpApi St} {Hserv : SftpPromises Hapi} (root : string) (retry : RetryConfig).
#[local] Existing Instance SM_ret.
#[local] Existing Instance SM_bind.

(** Reads: the remote files stay as they are. *)
Definition reads {T} (f : SM (St := St) T) (Q : gmap string bytes -> T -> Prop) : Prop :=
  forall s, let '(r, s') := f s in remote s' = remote s /\ forall a, r = Ok a -> Q (remote s) a.
Lemma reads_ret {T} (a : T) (Q : gmap string bytes -> T -> Prop) : (forall m, Q m a) -> reads (mret a) Q.
Proof. intros HQ s. split; [done|]. by intros a' [= <-]. Qed.
Lemma reads_fail {T} er (Q : gmap string bytes -> T -> Prop) : reads (sfail er) Q.
Proof. by intros s. Qed.
Lemma reads_bind {A B} (m : SM A) (k : A -> SM B) P Q : reads m P -> (forall a, reads (k a) (fun f b => P f a -> Q f b)) -> reads (m ≫= k) Q.
Proof.
  intros Hm Hk s. unfold mbind, SM_bind. specialize (Hm s). destruct (m s) as [[a|er] s1]; destruct Hm as [H1 H2]; [|by split].
  specialize (Hk a s1). destruct (k a s1) as [r s2]. destruct Hk as [G1 G2]. split; [congruence|]. intros b Hb. rewrite <- H1. apply G2; [done|]. rewrite H1. by apply H2.
Qed.
Lemma reads_weaken {T} (f : SM T) (P Q : gmap string bytes -> T -> Prop) : reads f P -> (forall m a, P m a -> Q m a) -> reads f Q.
Proof. intros Hf HQ s. specialize (Hf s). destruct (f s) as [r s']. destruct Hf as [H1 H2]. split; [done|]. intros a Ha. by apply HQ, H2. Qed.
Lemma reads_io {T} op (call : St -> result IoErrorKind T * St) (Q : gmap string bytes -> T -> Prop) :
  (forall s, let '(r, s') := call s in remote s' = remote s /\ forall a, r = Ok a -> Q (remote s) a) -> reads (io op call) Q.
Proof. intros Hc s. unfold io. specialize (Hc s). destruct (call s) as [[a|k] s']; destruct Hc as [H1 H2]; (split; [done|]); [intros a' [= <-]; by apply H2|done]. Qed.
Lemma reads_absent {T} op (call : St -> result SftpError T * St) (Q : gmap string bytes -> option T -> Prop) :
  (forall s, let '(r, s') := call s in remote s' = remote s /\ (forall a, r = Ok a -> Q (remote s) (Some a)) /\ forall e, r = Err e -> is_not_found e = true -> Q (remote s) None) -> reads (or_absent op call) Q.
Proof.
  intros Hc s. unfold or_absent. specialize (Hc s). destruct (call s) as [[a|e] s']; destruct Hc as (H1 & H2 & H3); (split; [done|]); [intros a' [= <-]; by apply H2|].
  destruct (is_not_found e) eqn:E; [|done]. intros a [= <-]. by apply (H3 e).
Qed.

(** Repeating keeps what each turn keeps. *)
Lemma retry_inv {T} (f : SM T) (I : gmap string bytes -> Prop) (Q : T -> gmap string bytes -> Prop) :
  (forall s, I (remote s) -> let '(r, s') := f s in I (remote s') /\ forall a, r = Ok a -> Q a (remote s')) ->
  forall s, I (remote s) -> let '(r, s') := retry_op retry f s in I (remote s') /\ forall a, r = Ok a -> Q a (remote s').
Proof.
  intros Hf. unfold retry_op. induction (max_retries retry) as [|n IH]; intros s HI; cbn [retry_loop_op]; pose proof (acquire_promise s) as Hc;
    (destruct (sftp_acquire s) as [[u|e] s1]; cbn [snd] in Hc; rewrite <- Hc in HI).
  - specialize (Hf s1 HI). by destruct (f s1) as [[a|e] s2]; destruct Hf as [H1 H2]; (split; [done|]); [intros a' [= <-]; apply H2|].
  - by split.
  - specialize (Hf s1 HI). destruct (f s1) as [[a|e] s2]; destruct Hf as [H1 H2]; [split; [done|]; intros a' [= <-]; by apply H2|].
    destruct (re_retryable e); [by apply IH|by split].
  - destruct (re_retryable e); [by apply IH|by split].
Qed.

Definition sftp_rep (m : Store) (s : SftpState St) : Prop := forall key, object_key key -> remote (sp_remote s) !! sftp_full_path root key = m !! key.

Lemma reads_stand {T} (f : SM T) (op : M T) (Q : gmap string bytes -> T -> Prop) : reads f Q ->
  (forall m, exists er, op (mkWorld m [FailBefore]) = (Err er, mkWorld m [])) ->
  (forall m files a, (forall key, object_key key -> files !! sftp_full_path root key = m !! key) -> Q files a -> op (mkWorld m []) = (Ok a, mkWorld m [])) ->
  stands_for sftp_rep (on_remote (retry_op retry f)) op.
Proof.
  intros Hf Herr HQ. apply stands_read; [done|]. intros m s Hr. unfold on_remote.
  pose proof (retry_inv f (fun x => x = remote (sp_remote s)) (fun a x => Q (remote (sp_remote s)) a)) as H. specialize (H ltac:(
    intros s0 E; specialize (Hf s0); destruct (f s0) as [r s1]; destruct Hf as [H1 H2]; rewrite E in *; done) (sp_remote s) eq_refl).
  destruct (retry_op retry f (sp_remote s)) as [r rm]. destruct H as [H1 H2]. split; [intros key Hk; cbn [sp_remote]; rewrite H1; by apply Hr|]. intros a ->. by eapply HQ, H2.
Qed.

#[local] Abbreviation path_of key := (sftp_full_path root key).

Lemma open_reads op p : reads (or_absent op (sftp_open p)) (fun files o => match o with Some _ => is_Some (files !! p) | None => files !! p = None end).
Proof.
  apply reads_absent. intros s. pose proof (open_promise p s) as H. destruct (sftp_open p s) as [r s']. destruct H as (H1 & H2 & H3).
  split; [done|]. split; [intros [] Ha; by apply H2|]. intros e He Hn. by eapply H3.
Qed.

Lemma sftp_get_stands key : object_key key -> stands_for sftp_rep (sftp_get root retry key) (Storage.get key).
Proof.
  intros Hk. apply (reads_stand _ _ (fun files a => a = files !! path_of key)); [|by eexists|].
  - eapply reads_bind; [apply open_reads|]. intros [[]|].
    + eapply reads_bind with (P := fun files b => files !! path_of key = Some b); [|intros b; apply reads_ret; by intros m -> _].
      apply reads_io. intros s. pose proof (read_to_end_promise (path_of key) s) as H. by destruct (file_read_to_end _ s).
    + apply reads_ret. by intros m ->.
  - intros m files a Hr ->. unfold Storage.get, reading. cbn [next_fault faults objects]. by rewrite Hr.
Qed.

(** The server never reports a directory where an object is. *)
Definition never_dir (key : string) : Prop := forall s a s', sftp_metadata (path_of key) s = (Ok a, s') -> at_is_dir a = false.

Lemma stat_reads op key : never_dir key -> reads (or_absent op (sftp_metadata (path_of key)))
  (fun files o => match o with Some a => exists d, files !! path_of key = Some d /\ forall sz, at_size a = Some sz -> sz = blen d | None => files !! path_of key = None end).
Proof.
  intros Hn. apply reads_absent. intros s. pose proof (metadata_promise (path_of key) s) as H. specialize (Hn s). destruct (sftp_metadata _ s) as [r s']. destruct H as (H1 & H2 & H3).
  split; [done|]. split; [|intros e He Hnf; by eapply H3]. intros a ->. specialize (H2 a eq_refl). by rewrite (Hn a s' eq_refl) in H2.
Qed.

Lemma sftp_exists_stands key : object_key key -> never_dir key -> stands_for sftp_rep (sftp_exists root retry key) (Storage.exists_ key).
Proof.
  intros Hk Hn. apply (reads_stand _ _ (fun files a => a = match files !! path_of key with Some _ => true | None => false end)); [|by eexists|].
  - eapply reads_bind; [by apply stat_reads|]. intros o. apply reads_ret. intros m. destruct o; [intros (d & -> & _); done|by intros ->].
  - intros m files a Hr ->. unfold exists_, reading. cbn [next_fault faults objects]. rewrite Hr by done. by destruct (m !! key).
Qed.
Lemma sftp_size_stands key : object_key key -> never_dir key -> stands_for sftp_rep (sftp_size root retry key) (Storage.size_of key).
Proof.
  intros Hk Hn. apply (reads_stand _ _ (fun files a => a = blen <$> files !! path_of key)); [|by eexists|].
  - eapply reads_bind; [by apply stat_reads|]. intros [a|]; [|apply reads_ret; by intros m ->].
    destruct (at_size a) as [sz|] eqn:E; [|apply reads_fail]. apply reads_ret. intros m (d & -> & Hd). by rewrite (Hd sz eq_refl).
  - intros m files a Hr ->. unfold size_of, Storage.get, reading, mbind, M_bind. cbn [next_fault faults objects]. by rewrite Hr.
Qed.

(** What has been read is a part of the file. *)
Definition part_of (files : gmap string bytes) (path : string) (pos : Z) (want : nat) (buf : bytes) : Prop :=
  exists d, files !! path = Some d /\ buf = slice (Z.to_nat pos) (length buf) d /\ (length buf <= want)%nat.
Lemma read_range_part path pos want fuel : 0 <= pos -> forall buf, reads (read_range_loop fuel path pos want buf) (fun files out => part_of files path pos want buf -> part_of files path pos want out).
Proof.
  intros Hp. induction fuel as [|fuel IH]; intros buf; cbn [read_range_loop]; (destruct (Nat.leb_spec want (length buf)); [by apply reads_ret|]); [by apply reads_ret|].
  eapply reads_bind with (P := fun files piece => exists d, files !! path = Some d /\ piece = slice (Z.to_nat (pos + blen buf)) (length piece) d /\ (length piece <= want - length buf)%nat).
  - apply reads_io. intros s. pose proof (blen_nonneg buf). pose proof (read_promise path (pos + blen buf) (want - length buf) s ltac:(lia)) as Hr. by destruct (file_read _ _ _ s).
  - intros piece. assert (Hjoin : forall files, (exists d, files !! path = Some d /\ piece = slice (Z.to_nat (pos + blen buf)) (length piece) d /\ (length piece <= want - length buf)%nat) ->
      part_of files path pos want buf -> part_of files path pos want (buf ++ piece)).
    { intros files (d & Hd & Hpc & Hl) (d' & Hd' & Hb & Hbl). rewrite Hd in Hd'. injection Hd' as <-. exists d. split; [done|]. rewrite length_app. split; [|lia].
      rewrite Hb, Hpc at 1. replace (Z.to_nat (pos + blen buf)) with (Z.to_nat pos + length buf)%nat by (unfold blen; lia). by rewrite slice_join. }
    destruct piece as [|x piece]; [apply reads_ret; by intros m _ ?|]. eapply reads_weaken; [apply IH|]. cbv beta. intros files out Ho Hpc Hb. apply Ho. by apply Hjoin.
Qed.

(** As much fuel as there are bytes to read is enough: more changes nothing. *)
Lemma read_range_enough path pos want fuel fuel' buf s : (want <= length buf + fuel)%nat -> (fuel <= fuel')%nat ->
  read_range_loop fuel path pos want buf s = read_range_loop fuel' path pos want buf s.
Proof.
  revert fuel' buf s. induction fuel as [|fuel IH]; intros [|fuel'] buf s Hw Hf; cbn [read_range_loop]; [done| |lia|]; destruct (Nat.leb_spec want (length buf)); [done|lia|done|].
  unfold mbind, SM_bind. destruct (io _ _ s) as [[piece|e] s1]; [|done]. destruct piece as [|x piece]; [done|]. apply IH; [rewrite length_app; cbn [length]; lia|lia].
Qed.

Lemma sftp_range_stands key offset length : object_key key -> 0 <= offset -> 0 <= length ->
  stands_for sftp_rep (sftp_get_range root retry key offset length) (Storage.get_range key offset length).
Proof.
  intros Hk Ho Hl. apply (reads_stand _ _ (fun files a => match files !! path_of key with
    | None => a = None
    | Some d => let got := slice (Z.to_nat offset) (Z.to_nat length) d in blen got = length /\ a = Some got end)); [|by eexists|].
  - eapply reads_bind with (P := fun _ n => n = Z.to_nat length).
    { intros s. split; [done|]. intros a. unfold validate_range_length. destruct (_ <? _); [done|]. by intros [= <-]. }
    intros n. eapply reads_bind; [apply open_reads|]. intros [[]|]; [|apply reads_ret; by intros m -> _].
    eapply reads_bind with (P := fun _ _ => True).
    { apply reads_io. intros s. pose proof (seek_promise (path_of key) offset s) as H. by destruct (file_seek _ _ s). }
    intros []. eapply reads_bind; [by apply read_range_part|]. intros buf. destruct (Nat.eqb_spec (List.length buf) n) as [E|]; [|apply reads_fail].
    apply reads_ret. intros m Hp _ [d Hd] ->. destruct Hp as (d' & Hd' & Hb & _); [exists d; split; [done|]; split; [done|]; cbn; lia|]. rewrite Hd in *. injection Hd' as <-.
    cbv zeta. rewrite E in Hb. rewrite <- Hb. unfold blen. split; [lia|done].
  - intros m files a Hr Ha. unfold Storage.get_range, reading, mbind, M_bind. cbn [next_fault faults objects]. rewrite <- Hr by done. destruct (files !! path_of key) as [d|]; [|by subst].
    cbv zeta in Ha. destruct Ha as [Ha ->]. unfold blen in Ha. by rewrite Ha, Z.eqb_refl.
Qed.

(** A listing changes nothing. *)
Lemma list_reads fuel dirs keys : reads (list_dirs root fuel dirs keys) (fun _ _ => True).
Proof.
  revert dirs keys. induction fuel as [|fuel IH]; intros [|d dirs] keys s; cbn [list_dirs]; try done.
  pose proof (read_dir_promise d s) as Hd. destruct (sftp_read_dir d s) as [[entries|e] s1]; cbn [snd] in Hd; [|destruct (is_not_found e); by split].
  cbv zeta. match goal with |- context [list_dirs root fuel ?x ?y s1] => specialize (IH x y s1); destruct (list_dirs root fuel x y s1) as [r s2] end.
  destruct IH as [H1 _]. split; [congruence|done].
Qed.

(** ** Writes *)

Lemma full_path_inj key key' : object_key key -> object_key key' -> path_of key = path_of key' -> key = key'.
Proof.
  intros (H1 & H2 & _) (H1' & H2' & _). unfold url in *. unfold sftp_full_path, posix_join. rewrite H2, H2'.
  destruct (String.eqb_spec key ""); [done|]. destruct (String.eqb_spec key' ""); [done|].
  destruct (String.eqb _ "/"); intros E; [by injection E|]. apply str_app_inj_l in E. by injection E.
Qed.

Lemma rep_insert m files key data s known : object_key key -> (forall k, object_key k -> files !! path_of k = m !! k) ->
  remote s = <[path_of key := data]> files -> sftp_rep (<[key := data]> m) (mkSftp s known).
Proof.
  intros Hk Hr E key' Hk'. cbn [sp_remote]. rewrite E. destruct (decide (key' = key)) as [->|Hne]; [by rewrite !lookup_insert_eq|].
  rewrite !lookup_insert_ne by (done || (intros F; apply Hne; by apply full_path_inj)). by apply Hr.
Qed.
Lemma rep_delete m files key s known : object_key key -> (forall k, object_key k -> files !! path_of k = m !! k) ->
  remote s = delete (path_of key) files -> sftp_rep (delete key m) (mkSftp s known).
Proof.
  intros Hk Hr E key' Hk'. cbn [sp_remote]. rewrite E. destruct (decide (key' = key)) as [->|Hne]; [by rewrite !lookup_delete_eq|].
  rewrite !lookup_delete_ne by (done || (intros F; apply Hne; by apply full_path_inj)). by apply Hr.
Qed.

Lemma sftp_delete_stands key : object_key key -> stands_for sftp_rep (sftp_delete root retry key) (Storage.del key).
Proof.
  intros Hk. apply stands_write. intros m s Hr. unfold sftp_delete, on_remote. set (p := path_of key). set (files := remote (sp_remote s)).
  match goal with |- context [retry_op retry ?f (sp_remote s)] =>
    pose proof (retry_inv f (fun x => x = files \/ x = delete p files) (fun _ x => x = delete p files)) as H end.
  specialize (H ltac:(
    intros s0 HI; unfold mbind, SM_bind, or_absent; pose proof (remove_promise p s0) as Hp; destruct (sftp_remove_file p s0) as [[[]|e] s1];
    destruct Hp as (H1 & H2 & H3);
    [specialize (H2 eq_refl); cbn; rewrite H2; destruct HI as [->| ->]; rewrite ?delete_delete_eq; auto|];
    destruct (is_not_found e) eqn:En; cbn;
    [destruct (H3 e eq_refl En) as [-> Hn]; split; [done|]; intros _ _; destruct HI as [HI|HI]; rewrite HI in *; [by rewrite delete_id|done]
    |split; [|done]; destruct H1 as [->| ->]; destruct HI as [->| ->]; rewrite ?delete_delete_eq; auto]) (sp_remote s) (or_introl eq_refl)).
  destruct (retry_op _ _ _) as [r rm]. destruct H as [[H1|H1] H2]; (split; [|intros ->; eapply rep_delete; [done|exact Hr|by apply (H2 tt)]]).
  - left. intros key' Hk'. cbn [sp_remote]. rewrite H1. by apply Hr.
  - right. by eapply rep_delete.
Qed.

Lemma mkdir_reads dirs : reads (mkdir_each dirs) (fun _ _ => True).
Proof.
  induction dirs as [|d dirs IH]; cbn [mkdir_each]; [by apply reads_ret|]. eapply reads_bind with (P := fun _ _ => True); [|intros u; by eapply reads_weaken].
  intros s. pose proof (create_dir_promise d s) as Hc. destruct (sftp_create_dir d s) as [[u|e] s1]; cbn [snd] in Hc; [done|].
  destruct e; try (split; [exact Hc|done]). pose proof (metadata_promise d s1) as Hm. destruct (sftp_metadata d s1) as [[a|e] s2]; destruct Hm as [Hm _]; [|split; [congruence|done]].
  destruct (at_is_dir a); (split; [congruence|done]).
Qed.

(** What an upload may leave: nothing, or the object up to some byte. *)
Definition uploaded (p : string) (data : bytes) (files files' : gmap string bytes) : Prop := files' = files \/ exists n, files' = <[p := take n data]> files.
Lemma uploaded_insert p data files files' n : uploaded p data files files' -> uploaded p data files (<[p := take n data]> files').
Proof. intros [->|[k ->]]; right; exists n; by rewrite ?insert_insert_eq. Qed.

Lemma upload_writes p known data files s : uploaded p data files (remote s) -> let '(r, s') := upload p known data s in
  uploaded p data files (remote s') /\ forall a, r = Ok a -> remote s' = <[p := data]> files.
Proof.
  intros HI. unfold upload. unfold mbind at 1, SM_bind at 1.
  match goal with |- context [(if known then ?a else ?b) s] => set (mk := if known then a else b); assert (Hm : reads mk (fun _ _ => True)) end.
  { unfold mk. destruct known; [by apply reads_ret|]. destruct (remote_parent p); [|by apply reads_ret]. destruct (String.eqb _ _); [by apply reads_ret|]. apply mkdir_reads. }
  specialize (Hm s). destruct (mk s) as [[u|e] s1]; destruct Hm as [Hm _]; rewrite <- Hm in HI; [|by split].
  unfold mbind at 1, SM_bind at 1, sftp. pose proof (create_promise p s1) as Hc. destruct (sftp_create p s1) as [[[]|e] s2]; destruct Hc as [Hc1 Hc2].
  2: { split; [|done]. destruct Hc1 as [->| ->]; [done|]. by apply (uploaded_insert p data _ _ 0). }
  specialize (Hc2 eq_refl). unfold mbind at 1, SM_bind at 1, io at 1. pose proof (write_promise p data s2 [] ltac:(rewrite Hc2; by rewrite lookup_insert_eq)) as Hw.
  destruct (file_write_all p data s2) as [r s3]. destruct Hw as [[n Hw1] Hw2]. cbn [app] in *. rewrite Hc2, !insert_insert_eq in *.
  assert (Hn : uploaded p data files (remote s3)) by (rewrite Hw1; by apply uploaded_insert).
  destruct r as [[]|e]; [|by split]. specialize (Hw2 eq_refl). assert (Hd : remote s3 = <[p := data]> files) by (rewrite Hw2; by destruct HI as [->|[k ->]]; rewrite ?insert_insert_eq).
  unfold mbind at 1, SM_bind at 1, io at 1. pose proof (flush_promise p s3) as Hf. destruct (file_flush p s3) as [[[]|e] s4]; cbn [snd] in Hf; [|split; [by rewrite Hf|done]].
  unfold io. pose proof (shutdown_promise p s4) as Hs. destruct (file_shutdown p s4) as [[[]|e] s5]; cbn [snd] in Hs; rewrite Hs, Hf; by split.
Qed.

(** A put that is reported done is done; one that fails may have left a part. *)
Definition put_in_place (impl : SftpState St -> res unit * SftpState St) (key : string) (data : bytes) : Prop :=
  forall m s, sftp_rep m s -> let '(r, s') := impl s in
  (r = Ok tt -> sftp_rep (<[key := data]> m) s') /\ (sftp_rep m s' \/ exists n, sftp_rep (<[key := take n data]> m) s').

Lemma sftp_put_in_place key data : object_key key -> put_in_place (sftp_put root retry key data) key data.
Proof.
  intros Hk m s Hr. unfold sftp_put. cbv zeta. set (known := match remote_parent _ with Some _ => _ | None => true end).
  pose proof (retry_inv (upload (path_of key) known data) (uploaded (path_of key) data (remote (sp_remote s))) (fun _ x => x = <[path_of key := data]> (remote (sp_remote s)))
    (fun s0 HI => upload_writes _ known data _ s0 HI) (sp_remote s) (or_introl eq_refl)) as H.
  destruct (retry_op _ _ _) as [r rm]. destruct H as [H1 H2].
  assert (Hleft : forall known', sftp_rep m (mkSftp rm known') \/ exists n, sftp_rep (<[key := take n data]> m) (mkSftp rm known')).
  { intros known'. destruct H1 as [H1|[n H1]]; [left; intros key' Hk'; cbn [sp_remote]; rewrite H1; by apply Hr|right; exists n; by eapply rep_insert]. }
  destruct r as [[]|e]; (split; [|apply Hleft]); [|done]. intros _. eapply rep_insert; [done|exact Hr|by apply (H2 tt)].
Qed.
End SftpLaws.

(** A server that answers a number of calls and is gone then. *)
Module Toy.
Record Server := mkServer { files : gmap string bytes; answers : nat }.
Definition call {A E} (gone : E) (f : gmap string bytes -> result E A * gmap string bytes) (s : Server) : result E A * Server :=
  match answers s with O => (Err gone, s) | S n => let '(r, fs) := f (files s) in (r, mkServer fs n) end.
#[global] Instance toy_api : SftpApi Server := {|
  sftp_acquire s := match answers s with O => (Err (retry_transient (Other "connect")), s) | S _ => (Ok tt, s) end;
  sftp_open p := call SfTimeout (fun fs => (match fs !! p with Some _ => Ok tt | None => Err (SfStatus SNoSuchFile) end, fs));
  sftp_create p := call SfTimeout (fun fs => (Ok tt, <[p := []]> fs));
  sftp_remove_file p := call SfTimeout (fun fs => (match fs !! p with Some _ => Ok tt | None => Err (SfStatus SNoSuchFile) end, delete p fs));
  sftp_metadata p := call SfTimeout (fun fs => (match fs !! p with Some d => Ok (mkAttrs false (Some (blen d))) | None => Err (SfStatus SNoSuchFile) end, fs));
  sftp_create_dir p := call SfTimeout (fun fs => (Ok tt, fs));
  sftp_read_dir p := call SfTimeout (fun fs => (Ok [], fs));
  file_read_to_end p := call TimedOut (fun fs => (match fs !! p with Some d => Ok d | None => Err OtherKind end, fs));
  file_seek p n := call TimedOut (fun fs => (Ok tt, fs));
  file_read p pos want := call TimedOut (fun fs => (match fs !! p with Some d => Ok (slice (Z.to_nat pos) want d) | None => Err OtherKind end, fs));
  file_write_all p data := call TimedOut (fun fs => (Ok tt, <[p := default [] (fs !! p) ++ data]> fs));
  file_flush p := call TimedOut (fun fs => (Ok tt, fs));
  file_shutdown p := call TimedOut (fun fs => (Ok tt, fs));
|}.

#[global] Instance toy_serves : SftpPromises toy_api.
Proof.
  refine {| remote := files |}; cbn [toy_api sftp_acquire sftp_open sftp_create sftp_remove_file sftp_metadata sftp_create_dir sftp_read_dir file_read_to_end file_seek file_read file_write_all file_flush file_shutdown];
    unfold call; intros.
  all: destruct s as [fs [|k]]; cbn [answers files].
  all: try (by auto).
  all: try (split; [by auto|]; try split; intros; simplify_eq; by auto).
  - split; [done|]. destruct (fs !! p); split; intros; simplify_eq; by eauto.
  - split; [by auto|]. destruct (fs !! p) eqn:E; split; intros; simplify_eq; auto. by rewrite delete_id.
  - split; [done|]. destruct (fs !! p) as [d|]; split; intros; simplify_eq; cbn; [|done]. exists d. split; [done|]. by intros sz [= <-].
  - split; [done|]. destruct (fs !! p); intros; by simplify_eq.
  - split; [done|]. destruct (fs !! p) as [d|]; intros b E; [|done]. injection E as <-. exists d. split; [done|]. unfold slice. rewrite length_take. split; [|lia].
    rewrite <- (firstn_all (take want (drop (Z.to_nat pos) d))) at 1. rewrite take_take, length_take. f_equal. lia.
  - cbn [files] in H. split; [|done]. exists 0%nat. cbn [take]. rewrite app_nil_r. by rewrite insert_id.
  - cbn [files] in H. rewrite H. cbn [default]. split; [|done]. exists (length data). by rewrite firstn_all.
Defined.
End Toy.

(** C38. Over any server and network that keep to the protocol, and whatever calls
    fail and are retried, the SFTP backend reads, deletes, tests and sizes
    objects as Storage.v assumes it of a backend.  A put that is reported done
    is done; one that fails leaves every other object as it is, and the object
    as it was or, since files are written in place, cut off at some byte.  The
    server is assumed never to describe the path of the object as a
    directory. *)
Theorem sftp_refines_storage_but_put {St} {Hapi : SftpApi St} {Hserv : SftpPromises Hapi} root retry key : object_key key -> never_dir root key ->
  stands_for (sftp_rep root) (sftp_get root retry key) (Storage.get key) /\
  (forall data, put_in_place root (sftp_put root retry key data) key data) /\
  stands_for (sftp_rep root) (sftp_delete root retry key) (Storage.del key) /\
  stands_for (sftp_rep root) (sftp_exists root retry key) (Storage.exists_ key) /\
  stands_for (sftp_rep root) (sftp_size root retry key) (Storage.size_of key) /\
  (forall offset length, 0 <= offset -> 0 <= length -> stands_for (sftp_rep root) (sftp_get_range root retry key offset length) (Storage.get_range key offset length)).
Proof.
  intros Hk Hn. split; [by apply sftp_get_stands|]. split; [intros data; by apply sftp_put_in_place|]. split; [by apply sftp_delete_stands|].
  split; [by apply sftp_exists_stands|]. split; [by apply sftp_size_stands|]. intros. by apply sftp_range_stands.
Qed.

Lemma toy_never_dir root key : never_dir (Hapi := Toy.toy_api) root key.
Proof.
  intros [fs [|n]] a s'; [done|]. cbn [sftp_metadata Toy.toy_api Toy.call Toy.answers Toy.files]. unfold Toy.call. cbn [Toy.answers Toy.files].
  destruct (fs !! _); [|done]. by intros [= <- _].
Qed.
Lemma index_object_key : object_key "index".
Proof. by repeat split. Qed.

Definition two_retries : RetryConfig := mkRetry 2 0 0.
Definition index_there (answers : nat) : SftpState Toy.Server := mkSftp (Toy.mkServer {["/repo/index" := [1; 2; 3]]} answers) {["/repo"]}.
(** Witness: the index is written over, while the server answers. *)
Lemma sftp_refines_storage_but_put_witness :
  let s' := (sftp_put "/repo" two_retries "index" [7; 8] (index_there 10)).2 in
  (sftp_put "/repo" two_retries "index" [7; 8] (index_there 10)).1 = Ok tt /\ (sftp_get "/repo" two_retries "index" s').1 = Ok (Some [7; 8]) /\
  put_in_place (St := Toy.Server) "/repo" (sftp_put "/repo" two_retries "index" [7; 8]) "index" [7; 8].
Proof.
  cbv zeta. split; [vm_compute; reflexivity|]. split; [vm_compute; reflexivity|].
  pose proof (sftp_refines_storage_but_put "/repo" two_retries "index" index_object_key (toy_never_dir "/repo" "index")) as (_ & Hput & _). apply Hput.
Defined.

(** The server is gone once it has opened the file. *)
Definition cut_short : SftpState Toy.Server := index_there 1.
Lemma cut_short_rep : sftp_rep "/repo" {["index" := [1; 2; 3]]} cut_short.
Proof.
  intros key Hk. change (({["/repo/index" := [1; 2; 3]]} : gmap string bytes) !! sftp_full_path "/repo" key = ({["index" := [1; 2; 3]]} : Store) !! key).
  destruct (decide (key = "index")) as [->|Hne]; [rewrite lookup_singleton_eq; change (sftp_full_path "/repo" "index") with "/repo/index"; by rewrite lookup_singleton_eq|].
  rewrite (lookup_singleton_ne "index") by (by apply not_eq_sym). apply lookup_singleton_ne. change "/repo/index" with (sftp_full_path "/repo" "index").
  intros E. apply Hne. symmetry. by apply (full_path_inj "/repo"); [exact index_object_key|..].
Qed.

(** A put that writes over the index and is cut short leaves an empty index:
    the one before it is gone, which a put of Storage.v never does. *)
Lemma interrupted_put_loses_object :
  let '(r, s') := sftp_put "/repo" two_retries "index" [7; 8] cut_short in
  is_ok r = false /\ remote (sp_remote s') !! "/repo/index" = Some [] /\
  ~ stands_for (sftp_rep (St := Toy.Server) "/repo") (sftp_put "/repo" two_retries "index" [7; 8]) (Storage.put "index" [7; 8]).
Proof.
  assert (Hrun : let '(r, s') := sftp_put "/repo" two_retries "index" [7; 8] cut_short in is_ok r = false /\ remote (sp_remote s') !! "/repo/index" = Some []) by (vm_compute; by split).
  destruct (sftp_put "/repo" two_retries "index" [7; 8] cut_short) as [r s'] eqn:E. destruct Hrun as [H1 H2]. split; [done|]. split; [done|].
  intros Hs. specialize (Hs _ _ cut_short_rep). rewrite E in Hs. destruct Hs as (fl & r' & w' & Hp & _ & Hrep).
  specialize (Hrep "index" index_object_key). change (sftp_full_path "/repo" "index") with "/repo/index" in Hrep. rewrite H2 in Hrep.
  unfold Storage.put, Storage.writing in Hp. destruct fl as [|[] fl]; cbn [next_fault faults objects] in Hp; injection Hp as _ <-; cbn [objects] in Hrep;
    rewrite ?lookup_insert_eq, ?lookup_singleton_eq in Hrep; discriminate Hrep.
Qed.

(** ** The host keys *)

Inductive HostKeyState := Matched | Learned.

Section HostKeys.
(** The known-hosts file as the SSH library reads it and adds to it; [home] is
    the user's directory and [load] reads a private key. *)
Context {F K : Type} `{EqDecision K} (no_hosts : F) (known_host_keys_path : string -> Z -> F -> result SshError (list (nat * K))).
Context (learn_known_hosts_path : string -> Z -> K -> F -> result SshError unit * F).

(** A file that is created by someone else meanwhile is read as it is then. *)
Definition ensure_known_hosts_file (mkdir create_new : option IoErrorKind) (theirs : F) (file : option F) : result IoErrorKind F :=
  match mkdir with
  | Some k => Err k
  | None =>
      match file with
      | Some f => Ok f
      | None => match create_new with None => Ok no_hosts | Some AlreadyExists => Ok theirs | Some k => Err k end
      end
  end.

Definition verify_or_learn_host_key (host : string) (port : Z) (ensured : result IoErrorKind F) (server_public_key : K) : result SshError HostKeyState * option F :=
  match ensured with
  | Err _ => (Err SshIo, None)
  | Ok f =>
      match known_host_keys_path host port f with
      | Err e => (Err e, Some f)
      | Ok known =>
          if existsb (fun lk => bool_decide (lk.2 = server_public_key)) known then (Ok Matched, Some f)
          else match known with
          | [] => match learn_known_hosts_path host port server_public_key f with (Ok _, f') => (Ok Learned, Some f') | (Err e, f') => (Err e, Some f') end
          | _ => (Err SshKeyChanged, Some f)
          end
      end
  end.
Definition check_server_key (host : string) (port : Z) (ensured : result IoErrorKind F) (key : K) : result SshError bool * option F :=
  match verify_or_learn_host_key host port ensured key with (Ok _, f) => (Ok true, f) | (Err e, f) => (Err e, f) end.

(** Learning a key for a host adds it to the keys of that host. *)
Hypothesis learn_adds : forall host port k f f' known, known_host_keys_path host port f = Ok known -> learn_known_hosts_path host port k f = (Ok tt, f') ->
  exists line, known_host_keys_path host port f' = Ok (known ++ [(line, k)]).

Lemma host_key_pinned host port f k f' : check_server_key host port (Ok f) k = (Ok true, Some f') ->
  exists known', known_host_keys_path host port f' = Ok known' /\ known' <> [] /\
  (forall k', (exists f'', check_server_key host port (Ok f') k' = (Ok true, Some f'')) <-> exists line, (line, k') ∈ known') /\
  (forall k', ~ (exists line, (line, k') ∈ known') -> check_server_key host port (Ok f') k' = (Err SshKeyChanged, Some f')).
Proof.
  assert (Hmem : forall k0 (known : list (nat * K)), existsb (fun lk => bool_decide (lk.2 = k0)) known = true <-> exists line, (line, k0) ∈ known).
  { intros k0 known. rewrite existsb_exists. split.
    - intros ([line k1] & Hi & E%bool_decide_eq_true). cbn in E. subst. exists line. by apply list_elem_of_In.
    - intros [line Hi]. exists (line, k0). split; [by apply list_elem_of_In|]. by apply bool_decide_eq_true. }
  assert (Hfinal : forall known', known_host_keys_path host port f' = Ok known' -> known' <> [] ->
    (forall k', (exists f'', check_server_key host port (Ok f') k' = (Ok true, Some f'')) <-> exists line, (line, k') ∈ known') /\
    (forall k', ~ (exists line, (line, k') ∈ known') -> check_server_key host port (Ok f') k' = (Err SshKeyChanged, Some f'))).
  { intros known' E Hne. unfold check_server_key, verify_or_learn_host_key. rewrite E. split; intros k'.
    - rewrite <- Hmem. destruct (existsb _ known'); [by split; [|intros _; eexists]|]. split; [|done]. intros [f'' Hc]. by destruct known'.
    - rewrite <- Hmem. destruct (existsb _ known'); [by intros []|]. by destruct known'. }
  unfold check_server_key, verify_or_learn_host_key. destruct (known_host_keys_path host port f) as [known|e] eqn:E; [|done].
  destruct (existsb _ known) eqn:Hx.
  - intros [= <-]. exists known. assert (known <> []) by (intros ->; done). split; [done|]. split; [done|]. by apply Hfinal.
  - destruct known; [|done]. destruct (learn_known_hosts_path host port k f) as [[[]|e] f1] eqn:El; [|done]. intros [= ->].
    destruct (learn_adds _ _ _ _ _ _ E El) as [line E']. exists [(line, k)]. split; [done|]. split; [done|]. by apply Hfinal.
Qed.
End HostKeys.

Section Connect.
Context {St Key : Type} (home : option string) (path_exists : string -> bool) (load_secret_key : string -> option Key).
(** The library's part of a connection; no answer to the first call is its time-out. *)
Context (client_connect : St -> option (result SshError unit) * St) (best_supported_rsa_hash : St -> result SshError unit * St).
Context (authenticate_publickey : Key -> St -> result SshError bool * St).
Context (channel_open_session request_subsystem : St -> result SshError unit * St) (new_session : St -> result SftpError unit * St).

(** [Path::join]: an absolute path replaces the one it is joined to. *)
Definition path_join (base rest : string) : string :=
  if starts_with rest "/" then rest
  else if String.eqb base "" then rest
  else if String.eqb (trim_end slash base) base then base +:+ "/" +:+ rest
  else base +:+ rest.
Definition expand_tilde_path (raw : string) : string :=
  match (if String.eqb raw "~" then home else None) with
  | Some h => h
  | None =>
      match (match strip_prefix raw "~/" with Some rest => Some rest | None => strip_prefix raw "~\" end), home with
      | Some rest, Some h => path_join h rest
      | _, _ => raw
      end
  end.
Definition resolve_known_hosts_path (explicit : option string) : res string :=
  match explicit with
  | Some path => Ok (expand_tilde_path path)
  | None => match home with None => Err (Other "cannot determine home directory") | Some h => Ok (path_join (path_join h ".ssh") "known_hosts") end
  end.

Definition key_candidates : list string := ["id_ed25519"; "id_rsa"; "id_ecdsa"].
Definition load_key (explicit : option string) : RetryResult Key :=
  match explicit with
  | Some path => match load_secret_key path with Some k => Ok k | None => Err (retry_permanent (Other "load SSH key")) end
  | None =>
      match home with
      | None => Err (retry_permanent (Other "cannot determine home directory"))
      | Some h =>
          match omap (fun name => let path := path_join (path_join h ".ssh") name in if path_exists path then load_secret_key path else None) key_candidates with
          | k :: _ => Ok k
          | [] => Err (retry_permanent (Other "no SSH private key found"))
          end
      end
  end.

Definition ssh {A} (op : string) (call : St -> result SshError A * St) : SM (St := St) A := fun s =>
  let '(r, s) := call s in (match r with Ok a => Ok a | Err e => Err (ssh_retry_error op e) end, s).
#[local] Existing Instance SM_bind.
Definition connect (key_path : option string) : SM (St := St) unit :=
  _ ← (fun s => match client_connect s with
    | (None, s) => (Err (retry_transient (Other "SSH connect timed out")), s)
    | (Some (Ok _), s) => (Ok tt, s)
    | (Some (Err e), s) => (Err (ssh_retry_error "connect" e), s)
    end);
  key_pair ← (fun s => (load_key key_path, s));
  _ ← ssh "negotiate hash algorithm" best_supported_rsa_hash;
  auth_ok ← ssh "authenticate" (authenticate_publickey key_pair);
  if negb auth_ok then sfail (retry_permanent (Other "SSH public-key authentication failed"))
  else
    _ ← ssh "open channel" channel_open_session;
    _ ← ssh "request sftp subsystem" request_subsystem;
    sftp "session init" new_session.

(** A connection is one the server has authenticated with the key configured,
    or else with the first key of the usual places that loads. *)
Lemma connect_authenticated key_path s s' : connect key_path s = (Ok tt, s') ->
  exists key s1 s2, load_key key_path = Ok key /\ authenticate_publickey key s1 = (Ok true, s2).
Proof.
  unfold connect, mbind, SM_bind, ssh. destruct (client_connect s) as [[[u|e]|] s0]; [|done|done]. destruct (load_key key_path) as [k|e] eqn:Ek; [|done].
  destruct (best_supported_rsa_hash s0) as [[u'|e] s1]; [|done]. destruct (authenticate_publickey k s1) as [[b|e] s2] eqn:Ea; [|done].
  destruct b; [|done]. intros _. by exists k, s1, s2.
Qed.
End Connect.

(** ** The pool of connections *)

Module Pool.
(** Where a thread is in [acquire_conn] or with the connection it got. *)
Inductive Phase := Outside | Wanting | Connecting | Holding (conn : nat).
(** Connections are numbered as they are made. *)
Record ConnPool := mkPool { idle : list nat; total : nat; threads : list Phase; next_conn : nat }.

Inductive PoolEvent := EAcquire (i : nat) | EPop (i : nat) | EReserve (i : nat) | EConnected (i : nat) | EConnectFailed (i : nat) | ETimedOut (i : nat) | ERelease (i : nat) | EDiscard (i : nat).

Definition moved (i : nat) (to : Phase) (p : ConnPool) : ConnPool := mkPool (idle p) (total p) (<[i := to]> (threads p)) (next_conn p).
Definition release_slot (p : ConnPool) : ConnPool := mkPool (idle p) (if (0 <? total p)%nat then total p - 1 else total p) (threads p) (next_conn p).
Definition release_conn (conn : nat) (p : ConnPool) : ConnPool := mkPool (conn :: idle p) (total p) (threads p) (next_conn p).

(** One critical section, or one step outside the lock, of a thread. *)
Definition pool_step (max_connections : nat) (ev : PoolEvent) (p : ConnPool) : option ConnPool :=
  match ev with
  | EAcquire i => match threads p !! i with Some Outside => Some (moved i Wanting p) | _ => None end
  | EPop i => match threads p !! i, idle p with Some Wanting, conn :: rest => Some (moved i (Holding conn) (mkPool rest (total p) (threads p) (next_conn p))) | _, _ => None end
  | EReserve i =>
      match threads p !! i, idle p with
      | Some Wanting, [] => if (total p <? max_connections)%nat then Some (moved i Connecting (mkPool [] (S (total p)) (threads p) (next_conn p))) else None
      | _, _ => None
      end
  | EConnected i => match threads p !! i with Some Connecting => Some (moved i (Holding (next_conn p)) (mkPool (idle p) (total p) (threads p) (S (next_conn p)))) | _ => None end
  | EConnectFailed i => match threads p !! i with Some Connecting => Some (moved i Outside (release_slot p)) | _ => None end
  | ETimedOut i =>
      match threads p !! i, idle p with Some Wanting, [] => if (total p <? max_connections)%nat then None else Some (moved i Outside p) | _, _ => None end
  | ERelease i => match threads p !! i with Some (Holding conn) => Some (moved i Outside (release_conn conn p)) | _ => None end
  | EDiscard i => match threads p !! i with Some (Holding conn) => Some (moved i Outside (release_slot p)) | _ => None end
  end.

Definition pool_new (n : nat) : ConnPool := mkPool [] 0 (repeat Outside n) 0.
Inductive reachable (max_connections n : nat) : ConnPool -> Prop :=
  | reach_new : reachable max_connections n (pool_new n)
  | reach_step p ev p' : reachable max_connections n p -> pool_step max_connections ev p = Some p' -> reachable max_connections n p'.

Definition held_by (ph : Phase) : list nat := match ph with Holding conn => [conn] | _ => [] end.
Definition held (p : ConnPool) : list nat := concat (held_by <$> threads p).
Definition is_connecting (ph : Phase) : nat := match ph with Connecting => 1 | _ => 0 end.
Definition connecting (p : ConnPool) : nat := sum_list_with is_connecting (threads p).

Record pool_ok (max_connections : nat) (p : ConnPool) : Prop := {
  po_total : (total p = length (idle p) + connecting p + length (held p))%nat;
  po_bound : (total p <= max_connections)%nat;
  po_apart : NoDup (idle p ++ held p);
  po_fresh : Forall (fun conn => (conn < next_conn p)%nat) (idle p ++ held p);
}.

(** Where a thread moves, the others stay. *)
Lemma threads_split (l : list Phase) i ph to : l !! i = Some ph -> exists a b,
  concat (held_by <$> l) = a ++ held_by ph ++ b /\ concat (held_by <$> <[i := to]> l) = a ++ held_by to ++ b /\
  (sum_list_with is_connecting (<[i := to]> l) + is_connecting ph = sum_list_with is_connecting l + is_connecting to)%nat.
Proof.
  revert i. induction l as [|x l IH]; intros [|i] Hi; [done|done| |].
  - injection Hi as ->. exists [], (concat (held_by <$> l)). cbn. repeat split; lia.
  - destruct (IH i Hi) as (a & b & H1 & H2 & H3). exists (held_by x ++ a), b.
    change (<[S i := to]> (x :: l)) with (x :: <[i := to]> l). rewrite !fmap_cons. cbn [concat sum_list_with]. rewrite H1, H2, <- !app_assoc. repeat split. lia.
Qed.

(** A step that takes connections from the idle ones and those held and gives
    back others, told by where they are. *)
Lemma pool_ok_moved max_connections p p' i ph to : pool_ok max_connections p -> threads p !! i = Some ph -> threads p' = <[i := to]> (threads p) ->
  (total p' + length (idle p) + is_connecting ph + length (held_by ph) = total p + length (idle p') + is_connecting to + length (held_by to))%nat ->
  (total p' <= max_connections)%nat ->
  (next_conn p' = next_conn p /\ idle p' ++ held_by to ⊆+ idle p ++ held_by ph \/ next_conn p' = S (next_conn p) /\ idle p' ++ held_by to = idle p ++ next_conn p :: held_by ph) -> pool_ok max_connections p'.
Proof.
  intros [H1 H2 H3 H4] Hi Ht Htot Hb Hconn. destruct (threads_split _ _ _ to Hi) as (a & b & E1 & E2 & E3). rewrite <- Ht in E2, E3. unfold held, connecting in *.
  rewrite E1, !length_app in H1. rewrite E1 in H3, H4.
  assert (Hp : forall (x y : list nat), x ++ a ++ y ++ b ≡ₚ (x ++ y) ++ (a ++ b)) by (intros x y; solve_Permutation).
  assert (Hsub : NoDup ((idle p' ++ held_by to) ++ (a ++ b)) /\ Forall (fun conn => (conn < next_conn p')%nat) ((idle p' ++ held_by to) ++ (a ++ b))).
  { rewrite Hp in H3, H4. destruct Hconn as [[-> Hc]|[-> Hc]].
    - assert (Hc' : (idle p' ++ held_by to) ++ (a ++ b) ⊆+ (idle p ++ held_by ph) ++ (a ++ b)) by (by apply submseteq_skips_r).
      apply submseteq_Permutation in Hc' as [k Hk]. rewrite Hk in H3, H4. apply NoDup_app in H3 as [H3 _]. by apply Forall_app in H4 as [H4 _].
    - rewrite Hc, <- app_assoc. cbn [app]. rewrite <- Permutation_middle, app_assoc. split.
      + apply NoDup_cons. split; [|done]. intros Hin. rewrite Forall_forall in H4. specialize (H4 _ Hin). lia.
      + apply Forall_cons. split; [lia|]. eapply Forall_impl; [exact H4|]. cbn. lia. }
  split; unfold held, connecting; rewrite ?E2; [rewrite !length_app; lia|done|..]; rewrite Hp; apply Hsub.
Qed.

Ltac pool_cbn := cbn [idle total threads next_conn moved release_slot release_conn held_by is_connecting length app] in *.
Lemma pool_step_ok max_connections ev p p' : pool_ok max_connections p -> pool_step max_connections ev p = Some p' -> pool_ok max_connections p'.
Proof.
  intros Hok. pose proof Hok as [H1 H2 _ _]. unfold held, connecting in H1.
  destruct ev as [i|i|i|i|i|i|i|i]; unfold pool_step; (destruct (threads p !! i) as [ph|] eqn:Hi; [|done]); destruct ph as [| | |conn]; try discriminate.
  all: destruct (threads_split _ _ _ Outside Hi) as (a & b & E1 & _ & E3); cbn [held_by is_connecting app] in E1, E3; rewrite E1, ?length_app in H1; cbn [length] in H1.
  - intros [= <-]. eapply pool_ok_moved; [done|done|done| | |left]; pool_cbn; [lia|lia|done].
  - destruct (idle p) as [|conn rest] eqn:Ei; [done|]. intros [= <-]. eapply pool_ok_moved; [done|done|done| | |left]; pool_cbn; rewrite ?Ei in *; pool_cbn; [lia|lia|].
    split; [done|]. rewrite app_nil_r. apply Permutation_submseteq. by rewrite <- Permutation_cons_append.
  - destruct (idle p) as [|conn rest] eqn:Ei; [|done]. destruct (Nat.ltb_spec (total p) max_connections); [|done]. intros [= <-].
    eapply pool_ok_moved; [done|done|done| | |left]; pool_cbn; rewrite ?Ei in *; pool_cbn; [lia|lia|done].
  - intros [= <-]. eapply pool_ok_moved; [done|done|done| | |right]; pool_cbn; [lia|lia|done].
  - intros [= <-]. eapply pool_ok_moved; [done|done|done| | |left]; pool_cbn; [|destruct (Nat.ltb_spec 0 (total p)); lia|done]. destruct (Nat.ltb_spec 0 (total p)); lia.
  - destruct (idle p) as [|conn rest] eqn:Ei; [|done]. destruct (Nat.ltb_spec (total p) max_connections); [done|]. intros [= <-].
    eapply pool_ok_moved; [done|done|done| | |left]; pool_cbn; rewrite ?Ei in *; pool_cbn; [lia|lia|done].
  - intros [= <-]. eapply pool_ok_moved; [done|done|done| | |left]; pool_cbn; [lia|lia|]. split; [done|]. apply Permutation_submseteq. rewrite app_nil_r. by rewrite Permutation_cons_append.
  - intros [= <-]. eapply pool_ok_moved; [done|done|done| | |left]; pool_cbn; [destruct (Nat.ltb_spec 0 (total p)); lia|destruct (Nat.ltb_spec 0 (total p)); lia|].
    split; [done|]. rewrite app_nil_r. by apply submseteq_inserts_r.
Qed.

Lemma pool_new_ok max_connections n : pool_ok max_connections (pool_new n).
Proof.
  assert (H1 : concat (held_by <$> repeat Outside n) = []) by (clear; induction n as [|n IH]; [done|exact IH]).
  assert (H2 : sum_list_with is_connecting (repeat Outside n) = 0%nat) by (clear; induction n as [|n IH]; [done|exact IH]).
  split; unfold held, connecting; cbn [idle total threads pool_new]; rewrite ?H1, ?H2; [done|lia|apply NoDup_nil_2|by apply Forall_nil].
Qed.
Lemma reachable_ok max_connections n p : reachable max_connections n p -> pool_ok max_connections p.
Proof. induction 1 as [|p ev p' _ IH Hs]; [apply pool_new_ok|by eapply pool_step_ok]. Qed.

(** C39. The connection pool over all the interleavings of the threads that use
    it: the slots counted are those of the idle connections, of the
    connections being made and of those in use, and never more than the
    limit; no connection is in the hands of two threads, or idle and in use at
    once; and no slot leaks, so that a thread which waits while no other has a
    connection, or is making one, gets a connection or a slot at once. *)
Theorem pool_bounded requested n p : let max_connections := normalize_max_connections requested in reachable max_connections n p ->
  (total p = length (idle p) + connecting p + length (held p) /\ total p <= max_connections <= MAX_SFTP_MAX_CONNECTIONS)%nat /\
  NoDup (idle p ++ held p) /\
  forall i, threads p !! i = Some Wanting -> (connecting p + length (held p) < max_connections)%nat -> is_Some (pool_step max_connections (EPop i) p) \/ is_Some (pool_step max_connections (EReserve i) p).
Proof.
  cbv zeta. intros [H1 H2 H3 _]%reachable_ok. split; [split; [done|]; split; [done|]; unfold normalize_max_connections; lia|]. split; [done|].
  intros i Hi Hfree. cbn [pool_step]. rewrite Hi. destruct (idle p) as [|c rest]; [right|left; by eexists].
  cbn [length] in H1. destruct (Nat.ltb_spec (total p) (normalize_max_connections requested)); [by eexists|lia].
Qed.

(** Witness: a limit of one; the second thread waits until the first gives
    its connection back. *)
Lemma pool_bounded_witness :
  let p := mkPool [0%nat] 1 [Outside; Wanting] 1 in
  reachable (normalize_max_connections (Some 1%nat)) 2 p /\ is_Some (pool_step (normalize_max_connections (Some 1%nat)) (EPop 1) p).
Proof.
  cbv zeta. assert (Hr : reachable (normalize_max_connections (Some 1%nat)) 2 (mkPool [0%nat] 1 [Outside; Wanting] 1)).
  { apply (reach_step _ _ (mkPool [] 1 [Holding 0; Wanting] 1) (ERelease 0)); [|reflexivity].
    apply (reach_step _ _ (mkPool [] 1 [Connecting; Wanting] 0) (EConnected 0)); [|reflexivity].
    apply (reach_step _ _ (mkPool [] 1 [Connecting; Outside] 0) (EAcquire 1)); [|reflexivity].
    apply (reach_step _ _ (mkPool [] 0 [Wanting; Outside] 0) (EReserve 0)); [|reflexivity].
    apply (reach_step _ _ (pool_new 2) (EAcquire 0)); [apply reach_new|reflexivity]. }
  split; [exact Hr|]. pose proof (pool_bounded (Some 1%nat) 2 _ Hr) as (_ & _ & H). destruct (H 1%nat eq_refl) as [G|G]; [cbn; lia|exact G|].
  destruct G as [x G]. discriminate G.
Defined.
End Pool.
