(* ===== verification/Find.v ===== *)
(** * Finding files across snapshots (crates/vykar-core/src/commands/find.rs)

    The snapshots of a source, or all, are searched in order of time; every
    item that passes the filter becomes a hit of its path, and the hits of a
    path are marked as added, modified or unchanged.  Items are read through
    the restore cache while that works and through the index afterwards.  The
    theorem says that in a covered store the answer is exactly the history of
    every path, and that a search fails only when a storage call does.

    Globs are third-party code: a compiled glob is a predicate on names. *)

From S2P Require Import Prelude Types Storage ChunkIndex Pack.
From S2P Require Import Crypto Format Compress DedupCache Retention Lock Repo ReadPath Snapshots.
#[local] Open Scope string_scope.
#[local] Open Scope list_scope.
#[local] Open Scope Z_scope.

(** ** Data *)

Record FindFilter := mkFilter {
  path_prefix : option string;
  name_glob : option (string -> bool);
  iname_glob : option (string -> bool);
  item_type : option ItemType;
  since : option Z;
  larger_than : option Z;
  smaller_than : option Z;
}.
Record FindScope := mkScope { scope_label : option string; last_n : option nat }.
Record FindHit := mkHit { hit_snapshot : string; hit_time : Z; hit_size : Z; hit_mtime : Z; hit_type : ItemType; hit_chunk_ids : list ChunkId }.
Inductive FileStatus := Added | Modified | Unchanged.
Record AnnotatedHit := mkAnnotated { hit : FindHit; status : FileStatus }.
Record PathTimeline := mkTimeline { tl_path : string; tl_hits : list AnnotatedHit }.

#[export] Instance ItemType_eq_dec : EqDecision ItemType.
Proof. solve_decision. Defined.

(** [build]: the globs are compiled, or the first that is not valid is the
    error. *)
Definition build_filter (compile : bool -> string -> option (string -> bool)) (prefix : option string) (name iname : option string)
    (type : option ItemType) (since larger smaller : option Z) : result string FindFilter :=
  name_glob ← match name with None => Ok None | Some pat => match compile false pat with Some g => Ok (Some g) | None => Err "invalid --name glob" end end;
  iname_glob ← match iname with None => Ok None | Some pat => match compile true pat with Some g => Ok (Some g) | None => Err "invalid --iname glob" end end;
  Ok (mkFilter prefix name_glob iname_glob type since larger smaller).

(** ** The filter *)

(** [rsplit('/').next()]. *)
Definition file_name_of (path : string) : string := List.last (split_on slash path) "".

(** [since] in seconds, the times of items in nanoseconds. *)
Definition matches_filter (item : Item) (f : FindFilter) : bool :=
  if match item_type f with Some t => negb (bool_decide (entry_type item = t)) | None => false end then false
  else if match path_prefix f with Some prefix => negb (String.eqb (item_path item) prefix) && negb (starts_with (item_path item) (prefix +:+ "/")) | None => false end then false
  else if match larger_than f with Some min => item_size item <? min | None => false end then false
  else if match smaller_than f with Some max => max <? item_size item | None => false end then false
  else if match since f with Some s => Z.quot (mtime item) 1000000000 <? s | None => false end then false
  else if match name_glob f with Some glob => negb (glob (file_name_of (item_path item))) | None => false end then false
  else if match iname_glob f with Some glob => negb (glob (file_name_of (item_path item))) | None => false end then false
  else true.

(** ** Timelines *)

Fixpoint annotate_from (prev : option FindHit) (hits : list FindHit) : list AnnotatedHit :=
  match hits with
  | [] => []
  | h :: hits =>
      let status := match prev with
        | None => Added
        | Some p => if bool_decide (hit_chunk_ids p = hit_chunk_ids h) && (hit_size p =? hit_size h) then Unchanged else Modified
        end in
      mkAnnotated h status :: annotate_from (Some h) hits
  end.
Definition annotate_hits (hits : list FindHit) : list AnnotatedHit := annotate_from None hits.

Definition hit_of (en : SnapshotEntry) (item : Item) : FindHit :=
  mkHit (snap_name en) (snap_time en) (item_size item) (mtime item) (entry_type item) (ref_id <$> item_chunks item).
Abbreviation Hits := (gmap string (list FindHit)).
Definition add_hit (en : SnapshotEntry) (f : FindFilter) (item : Item) (hits : Hits) : Hits :=
  if matches_filter item f then <[item_path item := default [] (hits !! item_path item) ++ [hit_of en item]]> hits else hits.

(** The iteration of a [BTreeMap]: by the bytes of the paths. *)
Definition path_leb (a b : string * list FindHit) : bool := bytes_leb (str_bytes a.1) (str_bytes b.1).
Definition timelines (hits : Hits) : list PathTimeline := (fun x => mkTimeline x.1 (annotate_hits x.2)) <$> sort_by path_leb (map_to_list hits).

(** ** The command *)

Definition select_entries (scope : FindScope) (snapshots : list SnapshotEntry) : list SnapshotEntry :=
  let entries := match scope_label scope with Some l => List.filter (fun e => String.eqb (source_label e) l) snapshots | None => snapshots end in
  let entries := sort_by (fun a b => snap_time a <=? snap_time b) entries in
  match last_n scope with Some n => if (n <? length entries)%nat then drop (length entries - n) entries else entries | None => entries end.

Record FindState := mkFind { fd_cache : option MmapCache; fd_loaded : bool; fd_repo : Repository; fd_blobs : BlobCache }.

Section Find.
Context `{HexCodec} (e : CryptoEngine) `{Codecs} `{IndexCodec} `{MsgPack SnapshotMeta} `{ItemStream}.

(** The full index, loaded once. *)
Definition stream_by_index (name : string) (st : FindState) : M (bytes * FindState) :=
  r ← (if fd_loaded st then mret (fd_repo st) else load_chunk_index e (fd_repo st));
  p ← load_snapshot_item_stream e r name (fd_blobs st);
  mret (p.1, mkFind (fd_cache st) true r p.2).

Definition find_stream (name : string) (st : FindState) : M (bytes * FindState) :=
  match fd_cache st with
  | Some cache =>
      o ← try_ (load_snapshot_item_stream_via_lookup e (fd_repo st) (restore_lookup cache) name (fd_blobs st));
      match o with
      | Ok p => mret (p.1, mkFind (Some cache) (fd_loaded st) (fd_repo st) p.2)
      | Err _ => stream_by_index name (mkFind None false (fd_repo st) (fd_blobs st))
      end
  | None => stream_by_index name st
  end.

Fixpoint find_entries (f : FindFilter) (entries : list SnapshotEntry) (st : FindState) (hits : Hits) : M Hits :=
  match entries with
  | [] => mret hits
  | en :: entries =>
      p ← find_stream (snap_name en) st;
      match for_each_decoded_item (fun item hits => (Ok tt, add_hit en f item hits)) p.1 hits with
      | (Ok _, hits) => find_entries f entries p.2 hits
      | (Err er, _) => fail er
      end
  end.

Definition find (scope : FindScope) (f : FindFilter) (restore_cache : option MmapCache) (r : Repository) (c : BlobCache) : M (list PathTimeline) :=
  hits ← find_entries f (select_entries scope (manifest r)) (mkFind restore_cache false r c) ∅;
  mret (timelines hits).
End Find.

(** ** The filter and the statuses *)

(** What is said of a hit, given the one before it. *)
Definition same_content (p h : FindHit) : Prop := hit_chunk_ids p = hit_chunk_ids h /\ hit_size p = hit_size h.
Definition status_after (prev : option FindHit) (a : AnnotatedHit) : Prop :=
  match prev, status a with
  | None, Added => True
  | Some p, Unchanged => same_content p (hit a)
  | Some p, Modified => ~ same_content p (hit a)
  | _, _ => False
  end.
(** A history: every hit, with what became of the file since the one before. *)
Definition history (hits : list FindHit) (l : list AnnotatedHit) : Prop :=
  hit <$> l = hits /\ forall i a, l !! i = Some a -> status_after (match i with O => None | S j => hits !! j end) a.

Lemma annotate_from_spec hits : forall prev i a, annotate_from prev hits !! i = Some a -> status_after (match i with O => prev | S j => hits !! j end) a.
Proof.
  induction hits as [|h hits IH]; intros prev i a Ha; [done|]. destruct i as [|i]; [|specialize (IH _ _ _ Ha); by destruct i].
  injection Ha as <-. unfold status_after, same_content. cbn [status hit]. destruct prev as [p|]; [|done].
  destruct (bool_decide (hit_chunk_ids p = hit_chunk_ids h)) eqn:E1; cbn [andb]; [apply bool_decide_eq_true in E1|apply bool_decide_eq_false in E1; tauto].
  destruct (Z.eqb_spec (hit_size p) (hit_size h)); tauto.
Qed.
Lemma annotate_hits_hit hits : hit <$> annotate_hits hits = hits.
Proof. unfold annotate_hits. generalize (@None FindHit). induction hits as [|h hits IH]; intros prev; [done|]. cbn [annotate_from fmap list_fmap hit]. by rewrite IH. Qed.

Lemma history_unique hits l l' : history hits l -> history hits l' -> l = l'.
Proof.
  intros [Hl Hs] [Hl' Hs']. apply list_eq. intros i. pose proof (f_equal (.!! i) Hl) as E. rewrite <- Hl' in E at 1. rewrite !list_lookup_fmap in E.
  destruct (l !! i) as [[h st]|] eqn:Ea, (l' !! i) as [[h' st']|] eqn:Eb; try done. cbn [fmap option_fmap option_map hit] in E. injection E as ->.
  specialize (Hs i _ Ea). specialize (Hs' i _ Eb). unfold status_after in *. cbn [status hit] in *. destruct (match i with O => None | S j => hits !! j end), st, st'; tauto.
Qed.
Lemma annotate_history hits l : l = annotate_hits hits <-> history hits l.
Proof.
  assert (H : history hits (annotate_hits hits)) by (split; [apply annotate_hits_hit|intros i a; apply annotate_from_spec]).
  split; [by intros ->|]. intros Hl. by eapply history_unique.
Qed.

(** ** What a search answers *)

(** The hits of a path: snapshot by snapshot, item by item. *)
Definition hits_of (items_of : SnapshotEntry -> list Item) (f : FindFilter) (entries : list SnapshotEntry) (path : string) : list FindHit :=
  concat ((fun en => hit_of en <$> List.filter (fun it => matches_filter it f && String.eqb (item_path it) path) (items_of en)) <$> entries).

Definition hits_match (hits : Hits) (want : string -> list FindHit) : Prop :=
  forall path, hits !! path = if bool_decide (want path = []) then None else Some (want path).

Lemma add_hits en f items : forall hits want, hits_match hits want ->
  hits_match (foldl (fun hits it => add_hit en f it hits) hits items)
    (fun path => want path ++ (hit_of en <$> List.filter (fun it => matches_filter it f && String.eqb (item_path it) path) items)).
Proof.
  induction items as [|it items IH]; intros hits want Hm; [intros path; cbn [foldl List.filter fmap list_fmap]; rewrite app_nil_r; apply Hm|].
  cbn [foldl]. specialize (IH (add_hit en f it hits) (fun path => want path ++ (if matches_filter it f && String.eqb (item_path it) path then [hit_of en it] else []))).
  intros path. rewrite IH.
  - cbv beta. rewrite <- app_assoc. cbn [List.filter]. by destruct (matches_filter it f && String.eqb (item_path it) path).
  - clear path. intros path. unfold add_hit. destruct (matches_filter it f); cbn [andb]; [|rewrite app_nil_r; apply Hm].
    destruct (String.eqb_spec (item_path it) path) as [<-|Hne].
    + rewrite lookup_insert_eq, (Hm (item_path it)). by destruct (want (item_path it)).
    + rewrite lookup_insert_ne, app_nil_r by done. apply Hm.
Qed.

Lemma hits_of_app items_of f l1 l2 path : hits_of items_of f (l1 ++ l2) path = hits_of items_of f l1 path ++ hits_of items_of f l2 path.
Proof. unfold hits_of. by rewrite fmap_app, concat_app. Qed.

(** Paths in order, each with its history. *)
Record find_answer (want : string -> list FindHit) (tls : list PathTimeline) : Prop := {
  fa_sorted : StronglySorted (fun a b => bytes_lt (str_bytes (tl_path a)) (str_bytes (tl_path b))) tls;
  fa_exact : forall tl, tl ∈ tls <-> want (tl_path tl) <> [] /\ history (want (tl_path tl)) (tl_hits tl);
}.

Lemma timelines_answer hits want : hits_match hits want -> find_answer want (timelines hits).
Proof.
  intros Hm. unfold timelines. split.
  - assert (Hs : StronglySorted (fun a b => path_leb a b = true) (sort_by path_leb (map_to_list hits))).
    { apply sort_by_sorted; [intros a b; apply bytes_leb_total|intros a b c; apply bytes_leb_trans]. }
    assert (Hnd : NoDup (sort_by path_leb (map_to_list hits)).*1) by (rewrite (sort_by_perm path_leb (map_to_list hits)); apply NoDup_fst_map_to_list).
    revert Hs Hnd. generalize (sort_by path_leb (map_to_list hits)). intros l Hs. induction Hs as [|x l Hs IH Hall]; intros Hnd; [constructor|]. cbn [fmap list_fmap] in Hnd |- *. apply NoDup_cons in Hnd as [Hx Hnd]. constructor; [by apply IH|].
    apply Forall_fmap. rewrite Forall_forall in Hall |- *. intros y Hy. cbn. specialize (Hall y Hy). apply bytes_leb_true in Hall as [E|]; [|done].
    apply str_bytes_inj in E. destruct Hx. rewrite E. by apply list_elem_of_fmap_2.
  - intros [path hs]. cbn [tl_path tl_hits]. rewrite <- annotate_history, list_elem_of_fmap. split.
    + intros ([p l] & E & Hin). injection E as -> ->. rewrite (sort_by_perm path_leb (map_to_list hits)), elem_of_map_to_list, Hm in Hin. cbn [fst snd] in *.
      case_bool_decide; [done|]. by injection Hin as <-.
    + intros [Hne ->]. exists (path, want path). split; [done|]. rewrite (sort_by_perm path_leb (map_to_list hits)), elem_of_map_to_list, Hm. by rewrite bool_decide_false.
Qed.

(** ** Searching a covered store *)

(** [m] answers a value with [Q] and leaves the store as it was but for locks
    and the advisory generation, or fails because a storage call did. *)
Definition replies {A} (s0 : Store) (m : M A) (Q : A -> Prop) : Prop :=
  forall w, agree s0 (objects w) ->
  (exists a w', m w = (Ok a, w') /\ Q a /\ agree s0 (objects w') /\ (healthy w -> healthy w')) \/
  (exists er w', m w = (Err er, w') /\ agree s0 (objects w') /\ ~ healthy w).

Lemma replies_ret {A} s0 (a : A) (Q : A -> Prop) : Q a -> replies s0 (mret a) Q.
Proof. intros HQ w Hw. left. by exists a, w. Qed.
Lemma replies_bind {A B} s0 (m : M A) (f : A -> M B) (P : A -> Prop) (Q : B -> Prop) :
  replies s0 m P -> (forall a, P a -> replies s0 (f a) Q) -> replies s0 (m ≫= f) Q.
Proof.
  intros Hm Hf w Hw. unfold mbind, M_bind. destruct (Hm w Hw) as [(a & w' & -> & Ha & Hw' & Hh)|(er & w' & -> & Hw' & Hh)]; [|right; eauto].
  destruct (Hf a Ha w' Hw') as [(b & w2 & -> & Hb & Hw2 & Hh2)|(er & w2 & -> & Hw2 & Hh2)]; [left; eauto 10|]. right. exists er, w2. split; [done|]. split; [done|]. auto.
Qed.
Lemma replies_computes {A} s0 (m : M A) (Q : A -> Prop) : (forall s, agree s0 s -> exists a, computes s m a /\ Q a) -> replies s0 m Q.
Proof.
  intros Hm w Hw. destruct (Hm _ Hw) as (a & Hc & HQ). destruct (Hc w eq_refl) as [(w' & E & Ew & Hh)|(er & w' & E & Ew & Hh)].
  - left. exists a, w'. by rewrite Ew.
  - right. exists er, w'. by rewrite Ew.
Qed.
Lemma replies_weaken {A} s0 (m : M A) (P Q : A -> Prop) : replies s0 m P -> (forall a, P a -> Q a) -> replies s0 m Q.
Proof. intros Hm HQ w Hw. destruct (Hm w Hw) as [(a & w' & E & Ha & H1)|H1]; [left; exists a, w'; eauto|by right]. Qed.
(** What is tried is right when it succeeds. *)
Lemma replies_try {A} s0 (m : M A) (Q : A -> Prop) :
  (forall w, agree s0 (objects w) -> let '(r, w') := m w in agree s0 (objects w') /\ (healthy w -> healthy w') /\ match r with Ok a => Q a | Err _ => True end) ->
  replies s0 (try_ m) (fun r => match r with Ok a => Q a | Err _ => True end).
Proof. intros Hm w Hw. specialize (Hm w Hw). unfold try_. destruct (m w) as [r w']. left. exists r, w'. tauto. Qed.

Section FindLaws.
Context `{Hhex : HexCodec} (e : CryptoEngine) `{Hcodecs : Codecs} `{Hmp : IndexCodec} `{Hmeta : MsgPack SnapshotMeta} `{Hitems : ItemStream}.
Context (plain : ChunkId -> bytes) (s0 : Store) (ix : ChunkIndex).
Context (Hcov : covered e plain s0 ix).

(** The restore cache may lack entries, but has no wrong ones. *)
Definition cache_agrees (cache : MmapCache) : Prop := forall id l, restore_lookup cache id = Some l -> loc ix id = Some l.

(** The items of a snapshot that can be read. *)
Definition snapshot_items (en : SnapshotEntry) (items : list Item) : Prop :=
  is_id (snapshot_bytes (snap_id en)) /\ exists d m, s0 !! snapshot_storage_key (snap_id en) = Some d /\ decode_snapshot_meta e (snap_id en) d = Ok m /\
  decode_items_stream (concat (plain <$> item_ptrs m)) = Ok items.

Lemma agree_index_gen s data : agree s0 s -> agree s0 (<["index.gen" := data]> s).
Proof. intros Ha k Hk Hne. rewrite lookup_insert_ne by done. by apply Ha. Qed.

Lemma load_index_replies r : replies s0 (load_chunk_index e r) (fun r' => manifest r' = manifest r /\ chunk_index r' = ix).
Proof using Hcov.
  unfold load_chunk_index. eapply replies_bind with (P := fun p => p.2 = ix).
  - apply replies_computes. intros s Ha. destruct (cv_index _ _ _ _ (agree_covered e plain s0 s ix Ha Hcov)) as (data & g & Hd & Hdec).
    exists (g, ix). split; [|done]. unfold reload_full_index_with_generation. eapply computes_bind; [apply computes_reading|]. rewrite Hd.
    eapply computes_bind; [apply computes_lift; exact Hdec|]. apply computes_ret.
  - intros [g ix'] Hix. cbn [snd fst] in *. eapply replies_bind with (P := fun _ => True); [|intros _ _; apply replies_ret; by subst].
    unfold ignore. eapply replies_bind with (P := fun r => match r with Ok _ => True | Err _ => True end); [|intros o _; by apply replies_ret].
    apply replies_try. intros w Hw. unfold put, writing, next_fault, healthy. destruct (faults w) as [|[] fs] eqn:Ef; cbn [objects faults]; (split; [by try apply agree_index_gen|]); split; done || by rewrite ?Ef.
Qed.

Lemma ptrs_indexed en d m items : is_id (snapshot_bytes (snap_id en)) -> s0 !! snapshot_storage_key (snap_id en) = Some d -> decode_snapshot_meta e (snap_id en) d = Ok m ->
  decode_items_stream (concat (plain <$> item_ptrs m)) = Ok items -> forall id, id ∈ item_ptrs m -> is_Some (ix !! id).
Proof using Hcov.
  intros Hid Hd Hm Hit id Hin. eapply (covered_refs e plain s0 ix (snapshot_storage_key (snap_id en)) d); [done|done|apply snapshot_storage_key_prefix|].
  rewrite key_refs_storage_key by done. unfold object_refs. rewrite Hm. cbn [mbind result_bind]. unfold meta_refs. rewrite Hit. set_solver.
Qed.

Lemma meta_computes s r en d m : agree s0 s -> find_snapshot (manifest r) (snap_name en) = Some en ->
  s0 !! snapshot_storage_key (snap_id en) = Some d -> decode_snapshot_meta e (snap_id en) d = Ok m -> computes s (load_snapshot_meta e r (snap_name en)) m.
Proof.
  intros Ha Hf Hd Hm. unfold load_snapshot_meta. rewrite Hf. eapply computes_bind; [apply computes_reading|]. cbv beta.
  rewrite (agree_snapshots s0 s Ha) by apply snapshot_storage_key_prefix. rewrite Hd. by apply computes_lift.
Qed.

Lemma ptrs_computes s r en d m items c : agree s0 s -> chunk_index r = ix -> cache_sound plain c ->
  is_id (snapshot_bytes (snap_id en)) -> s0 !! snapshot_storage_key (snap_id en) = Some d -> decode_snapshot_meta e (snap_id en) d = Ok m ->
  decode_items_stream (concat (plain <$> item_ptrs m)) = Ok items ->
  exists p, computes s (load_item_stream_from_ptrs e r (item_ptrs m) c) p /\ decode_items_stream p.1 = Ok items /\ cache_sound plain p.2.
Proof using Hcov.
  intros Ha Hix Hc Hid Hd Hm Hit. pose proof (agree_covered e plain s0 s ix Ha Hcov) as Hcs.
  destruct (load_stream_computes e plain s r (item_ptrs m) c) as (c' & Hl & Hc'); [rewrite Hix; apply stored_placed, (cv_stored _ _ _ _ Hcs)|done|rewrite Hix; by eapply ptrs_indexed|].
  by eexists (_, c').
Qed.

Lemma stream_replies r en items c : chunk_index r = ix -> cache_sound plain c ->
  find_snapshot (manifest r) (snap_name en) = Some en -> snapshot_items en items ->
  replies s0 (load_snapshot_item_stream e r (snap_name en) c) (fun p => decode_items_stream p.1 = Ok items /\ cache_sound plain p.2).
Proof using Hcov.
  intros Hix Hc Hf (Hid & d & m & Hd & Hm & Hit). apply replies_computes. intros s Ha.
  destruct (ptrs_computes s r en d m items c Ha Hix Hc Hid Hd Hm Hit) as (p & Hp & Hdec). exists p. split; [|done].
  eapply computes_bind; [by eapply meta_computes|done].
Qed.

Lemma resolve_by_lookup (lookup : ChunkId -> option (PackId * Z * Z)) ptrs chunks : (forall id l, lookup id = Some l -> loc ix id = Some l) ->
  resolve_all (fun id => ok_or (lookup id) (ChunkNotInIndex id)) ptrs = Ok chunks -> resolve_all (fun id => ok_or (loc ix id) (Other "chunk not found")) ptrs = Ok chunks.
Proof.
  intros Hl. revert chunks. induction ptrs as [|id ptrs IH]; intros chunks; [done|]. cbn [resolve_all]. destruct (lookup id) as [l|] eqn:E; [|done]. rewrite (Hl id l E).
  cbn [ok_or mbind result_bind]. destruct (resolve_all _ ptrs) as [ls|]; [|done]. cbn [mbind result_bind]. intros [= <-]. by rewrite (IH ls eq_refl).
Qed.

(** Through the cache the same bytes are read, or nothing. *)
Lemma lookup_reads r cache en items c : cache_agrees cache -> cache_sound plain c -> find_snapshot (manifest r) (snap_name en) = Some en -> snapshot_items en items ->
  replies s0 (try_ (load_snapshot_item_stream_via_lookup e r (restore_lookup cache) (snap_name en) c))
    (fun o => match o with Ok p => decode_items_stream p.1 = Ok items /\ cache_sound plain p.2 | Err _ => True end).
Proof using Hcov.
  intros Hca Hc Hf (Hid & d & m & Hd & Hm & Hit). apply replies_try. intros w Hw.
  set (r' := mkRepo (manifest r) ix (index_generation r) (index_dirty r) (drawn r)).
  destruct (ptrs_computes (objects w) r' en d m items c Hw eq_refl Hc Hid Hd Hm Hit) as (p & Hp & Hdec).
  unfold load_snapshot_item_stream_via_lookup. unfold mbind at 1, M_bind at 1.
  destruct (meta_computes (objects w) r en d m Hw Hf Hd Hm w eq_refl) as [(w1 & -> & Ho & Hh)|(er & w1 & -> & Ho & Hh)]; [|rewrite Ho; by split].
  unfold load_item_stream_from_ptrs, resolve_and_read in *. destruct (resolve_all (fun id => ok_or (restore_lookup cache id) (ChunkNotInIndex id)) (item_ptrs m)) as [chunks|er] eqn:Er.
  - apply (resolve_by_lookup _ _ _ Hca) in Er. cbn [chunk_index r'] in Hp. rewrite Er in Hp. specialize (Hp w1 Ho).
    destruct Hp as [(w2 & E & Ho2 & Hh2)|(er & w2 & E & Ho2 & Hh2)]; rewrite E; rewrite Ho2; split; tauto.
  - split; [change (agree s0 (objects w1)); by rewrite Ho|by split].
Qed.

(** What holds of the state between two snapshots. *)
Record find_ok (m : Manifest) (st : FindState) : Prop := {
  fo_manifest : manifest (fd_repo st) = m;
  fo_index : fd_loaded st = true -> chunk_index (fd_repo st) = ix;
  fo_blobs : cache_sound plain (fd_blobs st);
  fo_cache : forall cache, fd_cache st = Some cache -> cache_agrees cache;
}.

Lemma index_stream_replies m st en items : find_ok m st -> find_snapshot m (snap_name en) = Some en -> snapshot_items en items ->
  replies s0 (stream_by_index e (snap_name en) st) (fun p => decode_items_stream p.1 = Ok items /\ find_ok m p.2).
Proof using Hcov.
  intros [Hm Hi Hb Hca] Hf Hit. unfold stream_by_index.
  eapply replies_bind with (P := fun r => manifest r = m /\ chunk_index r = ix).
  { destruct (fd_loaded st); [apply replies_ret; auto|]. eapply replies_weaken; [apply load_index_replies|]. intros r [H1 H2]. split; [congruence|done]. }
  intros r [H1 H2]. eapply replies_bind; [apply (stream_replies r en items); [done|done|congruence|done]|]. intros p [G1 G2]. apply replies_ret.
  split; [done|]. by split.
Qed.

Lemma find_stream_replies m st en items : find_ok m st -> find_snapshot m (snap_name en) = Some en -> snapshot_items en items ->
  replies s0 (find_stream e (snap_name en) st) (fun p => decode_items_stream p.1 = Ok items /\ find_ok m p.2).
Proof using Hcov.
  intros Hok Hf Hit. unfold find_stream. destruct (fd_cache st) as [cache|] eqn:Ec; [|by apply index_stream_replies]. destruct Hok as [Hm Hi Hb Hca].
  eapply replies_bind; [apply (lookup_reads _ cache en items); [by apply Hca|done|by rewrite Hm|done]|]. intros [p|er] Hp.
  - apply replies_ret. split; [apply Hp|]. split; cbn [fd_repo fd_loaded fd_blobs fd_cache]; [done|done|apply Hp|]. intros c [= <-]. by apply Hca.
  - apply index_stream_replies; [|done|done]. by split.
Qed.

Lemma find_entries_replies m f items_of entries : Forall (fun en => find_snapshot m (snap_name en) = Some en /\ snapshot_items en (items_of en)) entries ->
  forall st hits want, find_ok m st -> hits_match hits want ->
  replies s0 (find_entries e f entries st hits) (fun hits => hits_match hits (fun path => want path ++ hits_of items_of f entries path)).
Proof using Hcov.
  induction 1 as [|en entries [Hf Hit] _ IH]; intros st hits want Hok Hm; cbn [find_entries].
  - apply replies_ret. intros path. unfold hits_of. cbn [fmap list_fmap concat]. rewrite app_nil_r. apply Hm.
  - eapply replies_bind; [by apply (find_stream_replies m st en (items_of en))|]. intros p [Hdec Hok'].
    destruct (for_each_pure p.1) as (o & items & Hd & Hfold). rewrite Hdec in Hd. destruct o as [u|]; [|done]. injection Hd as <-.
    rewrite (Hfold _ (add_hit en f) hits). eapply replies_weaken; [apply IH; [done|by apply add_hits]|].
    intros hits' Hh path. rewrite Hh. cbv beta. rewrite <- app_assoc. unfold hits_of. by cbn [fmap list_fmap concat].
Qed.
End FindLaws.

(** C9. Searching a covered store answers the history of every path: the paths in
    order, each with the items that pass the filter in every selected snapshot
    from the oldest to the newest, marked by what changed.  It does not matter
    what the restore cache lacks; and the search fails only when a storage
    call does. *)
Theorem find_exact `{Hhex : HexCodec} (e : CryptoEngine) `{Hcodecs : Codecs} `{Hmp : IndexCodec} `{Hmeta : MsgPack SnapshotMeta} `{Hitems : ItemStream}
  (plain : ChunkId -> bytes) s0 ix scope f restore_cache r c items_of :
  covered e plain s0 ix -> cache_sound plain c -> (forall cache, restore_cache = Some cache -> cache_agrees ix cache) ->
  Forall (fun en => find_snapshot (manifest r) (snap_name en) = Some en /\ snapshot_items e plain s0 en (items_of en)) (select_entries scope (manifest r)) ->
  replies s0 (find e scope f restore_cache r c) (find_answer (hits_of items_of f (select_entries scope (manifest r)))).
Proof.
  intros Hcov Hc Hca Hall. unfold find. eapply replies_bind.
  - apply (find_entries_replies e plain s0 ix Hcov (manifest r) f items_of _ Hall _ ∅ (fun _ => [])); [by split|]. intros path. by rewrite lookup_empty.
  - intros hits Hm. apply replies_ret. by apply timelines_answer.
Qed.

(** A cache that was built from the index agrees with it. *)
Lemma built_cache_agrees ix generation : wf_index ix ->
  cache_agrees ix (mkMmap (build_restore_cache_to_path ix generation) (Z.of_nat (size ix)) generation).
Proof. intros Hwf id l. by rewrite restore_lookup_ok. Qed.

(** The entries searched: by time, those of the source, and with a limit the
    newest ones. *)
Lemma select_entries_spec scope m : let l := select_entries scope m in
  StronglySorted (fun a b => snap_time a <= snap_time b) l /\
  Forall (fun en => en ∈ m /\ forall s, scope_label scope = Some s -> source_label en = s) l /\
  (forall en en', en ∈ m -> (forall s, scope_label scope = Some s -> source_label en = s) -> en ∉ l -> en' ∈ l -> snap_time en <= snap_time en') /\
  (forall n, last_n scope = Some n -> (length l <= n)%nat).
Proof.
  cbv zeta. unfold select_entries. set (sel := match scope_label scope with Some _ => _ | None => _ end).
  assert (Hsel : forall en, en ∈ sel <-> en ∈ m /\ forall s, scope_label scope = Some s -> source_label en = s).
  { intros en. unfold sel. destruct (scope_label scope) as [s|]; [|naive_solver]. rewrite list_elem_of_In, filter_In, <- list_elem_of_In, String.eqb_eq. naive_solver. }
  set (sorted := sort_by _ sel). assert (Hs : StronglySorted (fun a b => snap_time a <= snap_time b) sorted).
  { eapply StronglySorted_weaken; [|apply sort_by_sorted; [intros x y; destruct (Z.leb_spec (snap_time x) (snap_time y)); [by left|right; apply Z.leb_le; lia]|intros x y z; rewrite !Z.leb_le; lia]].
    cbv beta. intros x y H%Z.leb_le. lia. }
  assert (Hp : forall en, en ∈ sorted <-> en ∈ sel) by (intros en; unfold sorted; by rewrite (sort_by_perm _ sel)).
  assert (Hall : forall n, StronglySorted (fun a b => snap_time a <= snap_time b) (drop n sorted) /\ Forall (fun en => en ∈ m /\ forall s, scope_label scope = Some s -> source_label en = s) (drop n sorted) /\
    forall en en', en ∈ m -> (forall s, scope_label scope = Some s -> source_label en = s) -> en ∉ drop n sorted -> en' ∈ drop n sorted -> snap_time en <= snap_time en').
  { intros n. split; [by apply StronglySorted_drop|]. split.
    - apply Forall_drop, Forall_forall. intros en Hin. by apply Hsel, Hp.
    - intros en en' Hin Hl Hni Hin'. assert (Hen : en ∈ take n sorted).
      { assert (He : en ∈ sorted) by (by apply Hp, Hsel). rewrite <- (take_drop n sorted), elem_of_app in He. by destruct He. }
      rewrite <- (take_drop n sorted) in Hs. exact (StronglySorted_app_1_elem_of _ _ _ en en' Hs Hen Hin'). }
  destruct (last_n scope) as [n|].
  - destruct (Nat.ltb_spec n (length sorted)) as [Hlt|Hge].
    + destruct (Hall (length sorted - n)%nat) as (H1 & H2 & H3). split_and!; try done. intros n' [= <-]. rewrite length_drop. lia.
    + destruct (Hall 0%nat) as (H1 & H2 & H3). rewrite drop_0 in *. split_and!; try done. intros n' [= <-]. lia.
  - destruct (Hall 0%nat) as (H1 & H2 & H3). rewrite drop_0 in *. by split_and!.
Qed.

Definition fx_filter : FindFilter := mkFilter None None None (Some RegularFile) None None None.
Definition fx_scope : FindScope := mkScope None (Some 2%nat).
Definition fx_cache : MmapCache := mkMmap (build_restore_cache_to_path sn_ix 9) (Z.of_nat (size sn_ix)) 9.

Lemma fx_wf : wf_index sn_ix.
Proof.
  apply map_Forall_insert_2; [|apply map_Forall_singleton]; repeat split; first [reflexivity|by_eval|vm_compute; discriminate].
Qed.

(** Witness: the two snapshots of one file, searched through the restore
    cache. *)
Lemma find_exact_witness :
  let m := [sn_entry 3 "a" 0; sn_entry 4 "b" 100] in
  let want := hits_of (fun _ => [sn_item]) fx_filter m in
  replies sn_store (find sn_engine fx_scope fx_filter (Some fx_cache) sn_repo (cache_new 0)) (find_answer want) /\
  match (find sn_engine fx_scope fx_filter (Some fx_cache) sn_repo (cache_new 0) (mkWorld sn_store [])).1 with
  | Ok [tl] => tl_path tl = "f" /\ status <$> tl_hits tl = [Added; Unchanged]
  | _ => False
  end.
Proof.
  cbv zeta. split; [|vm_compute; split; reflexivity].
  assert (Hcs : cache_sound sn_plain (cache_new 0)) by (intros id d [=]).
  apply (find_exact sn_engine sn_plain sn_store sn_ix fx_scope fx_filter (Some fx_cache) sn_repo (cache_new 0) (fun _ => [sn_item]) sn_covered Hcs).
  - intros cache [= <-]. exact (built_cache_agrees sn_ix 9 fx_wf).
  - assert (Hs : forall n name t, is_id (snapshot_bytes (sn_id n)) -> sn_store !! snapshot_storage_key (sn_id n) = Some (sn_object n name) ->
      decode_snapshot_meta sn_engine (sn_id n) (sn_object n name) = Ok (sn_meta name) -> snapshot_items sn_engine sn_plain sn_store (sn_entry n name t) [sn_item]).
    { intros n name t H1 H2 H3. split; [exact H1|]. exists (sn_object n name), (sn_meta name). split; [exact H2|]. split; [exact H3|]. vm_compute. reflexivity. }
    apply Forall_cons. split; [|apply Forall_singleton]; (split; [vm_compute; reflexivity|]); apply Hs; first [by_eval|vm_compute; reflexivity].
Defined.
