(* ===== verification/Hooks.v ===== *)
(** * Hooks (crates/vykar-core/src/hooks.rs, config/hooks.rs)

    Commands of the user around an operation: before it, after it or when it
    has failed, and at the end in any case.  Running a script is the system's
    business: what it ends with is an arbitrary function of what ran before.
    The theorem fixes which hooks run, in which order, with which environment,
    and that only the hooks before an operation decide whether it runs; the
    rest of the file is about the quoting of values in scripts. *)

From S2P Require Import Prelude Types Retention Lock FileCache ServerPath.
#[local] Open Scope string_scope.
#[local] Open Scope list_scope.
#[local] Open Scope Z_scope.

(** ** Configuration *)

Definition HOOK_PREFIXES : list string := ["before"; "after"; "failed"; "finally"].
Definition HOOK_COMMANDS : list string := ["backup"; "prune"; "compact"; "check"].

Abbreviation HooksConfig := (gmap string (list string)).
Definition valid_hook_key (key : string) : bool :=
  existsb (String.eqb key) HOOK_PREFIXES ||
  existsb (fun prefix => match rest ← strip_prefix key prefix; strip_prefix rest "_" with Some cmd => existsb (String.eqb cmd) HOOK_COMMANDS | None => false end) HOOK_PREFIXES.
Definition validate_hooks (hooks : HooksConfig) : res unit :=
  if forallb valid_hook_key (map_to_list hooks).*1 then Ok tt else Err (ConfigError "invalid hook key").
Definition get_hooks (hooks : HooksConfig) (key : string) : list string := default [] (hooks !! key).

Record SourceHooksConfig := mkSourceHooks { sh_before : list string; sh_after : list string; sh_failed : list string; sh_finally : list string }.
Definition has_any (h : SourceHooksConfig) : bool :=
  negb (bool_decide (sh_before h = [])) || negb (bool_decide (sh_after h = [])) || negb (bool_decide (sh_failed h = [])) || negb (bool_decide (sh_finally h = [])).

(** ** Scripts *)

Record HookContext := mkHookContext {
  hc_command : string;
  hc_repository : string;
  hc_label : option string;
  hc_error : option string;
  hc_source_label : option string;
  hc_source_paths : option (list string);
  hc_warnings : list string;
}.
Definition with_error (msg : string) (ctx : HookContext) : HookContext :=
  mkHookContext (hc_command ctx) (hc_repository ctx) (hc_label ctx) (Some msg) (hc_source_label ctx) (hc_source_paths ctx) (hc_warnings ctx).
Definition push_warning (msg : string) (ctx : HookContext) : HookContext :=
  mkHookContext (hc_command ctx) (hc_repository ctx) (hc_label ctx) (hc_error ctx) (hc_source_label ctx) (hc_source_paths ctx) (hc_warnings ctx ++ [msg]).

(** [str::replace]: from the left, occurrences do not overlap; [skip] counts
    the characters of one that is already replaced. *)
Fixpoint replace_from (pat by_ : string) (skip : nat) (s : string) : string :=
  match s with
  | EmptyString => ""
  | String a s' =>
      match skip with
      | S n => replace_from pat by_ n s'
      | O => if starts_with s pat then by_ +:+ replace_from pat by_ (String.length pat - 1) s' else String a (replace_from pat by_ 0 s')
      end
  end.
Definition replace (pat by_ s : string) : string := replace_from pat by_ 0 s.

Definition quote : ascii := "'"%char.
Definition dquote : ascii := ascii_of_nat 34.
Fixpoint escape_quotes (s : string) : string :=
  match s with
  | EmptyString => ""
  | String a s' => if Ascii.eqb a quote then String quote (String dquote (String quote (String dquote (String quote (escape_quotes s'))))) else String a (escape_quotes s')
  end.
Definition shell_escape (input : string) : string := if String.eqb input "" then "''" else String quote (escape_quotes input +:+ String quote "").

Definition source_paths_separator : string := ":".
Definition substitute_variables (cmd : string) (ctx : HookContext) : string :=
  let result := replace "{command}" (shell_escape (hc_command ctx)) cmd in
  let result := replace "{repository}" (shell_escape (hc_repository ctx)) result in
  let result := replace "{label}" (shell_escape (default "" (hc_label ctx))) result in
  let result := replace "{error}" (shell_escape (default "" (hc_error ctx))) result in
  let result := replace "{source_label}" (shell_escape (default "" (hc_source_label ctx))) result in
  let source_path_str := default "" (String.concat source_paths_separator <$> hc_source_paths ctx) in
  replace "{source_path}" (shell_escape source_path_str) result.

Abbreviation Env := (gmap string string).
Definition set_some (key : string) (v : option string) (env : Env) : Env := match v with Some v => <[key := v]> env | None => env end.
Definition hook_env (inherited : Env) (ctx : HookContext) : Env :=
  set_some "VYKAR_SOURCE_PATH" (String.concat source_paths_separator <$> hc_source_paths ctx)
  (set_some "VYKAR_SOURCE_LABEL" (hc_source_label ctx)
  (set_some "VYKAR_ERROR" (hc_error ctx)
  (set_some "VYKAR_LABEL" (hc_label ctx)
  (<["VYKAR_REPOSITORY" := hc_repository ctx]> (<["VYKAR_COMMAND" := hc_command ctx]> (delete "VYKAR_PASSPHRASE" inherited)))))).

(** ** Running *)

Inductive ScriptEnd := ExitedWith (code : Z) | EndedBySignal | NotExecuted (msg : string).
(** What ran: hooks, and the operation itself. *)
Inductive Event := HookRan (cmd script : string) (env : Env) (ending : ScriptEnd) | ActionRan.

Definition succeeded (x : ScriptEnd) : bool := match x with ExitedWith code => code =? 0 | _ => false end.

Section Run.
(** The environment of the process, what the system makes of a script after
    what has run so far, and how errors are printed. *)
Context (inherited : Env) (execute : list Event -> string -> Env -> ScriptEnd) (print_error : VykarError -> string).

Definition execute_hook_command (cmd : string) (ctx : HookContext) (log : list Event) : res unit * list Event :=
  let expanded := substitute_variables cmd ctx in
  let env := hook_env inherited ctx in
  let ending := execute log expanded env in
  (match ending with
   | NotExecuted msg => Err (HookError "failed to execute hook")
   | ExitedWith code => if code =? 0 then Ok tt else Err (HookError "hook exited")
   | EndedBySignal => Err (HookError "hook exited with signal")
   end, log ++ [HookRan cmd expanded env ending]).

Fixpoint run_hook_list (cmds : list string) (ctx : HookContext) (log : list Event) : res unit * list Event :=
  match cmds with
  | [] => (Ok tt, log)
  | cmd :: cmds =>
      let '(r, log) := execute_hook_command cmd ctx log in
      match r with Ok _ => run_hook_list cmds ctx log | Err er => (Err er, log) end
  end.

Fixpoint run_lists (lists : list (list string)) (ctx : HookContext) (log : list Event) : res unit * list Event :=
  match lists with
  | [] => (Ok tt, log)
  | l :: lists => let '(r, log) := run_hook_list l ctx log in match r with Ok _ => run_lists lists ctx log | Err er => (Err er, log) end
  end.
Definition run_before (global repo : HooksConfig) (ctx : HookContext) (log : list Event) : res unit * list Event :=
  let before_key := "before_" +:+ hc_command ctx in
  run_lists [get_hooks global "before"; get_hooks repo "before"; get_hooks global before_key; get_hooks repo before_key] ctx log.

Definition log_hook_errors (result : res unit) (ctx : HookContext) : HookContext :=
  match result with Err er => push_warning (print_error er) ctx | Ok _ => ctx end.
(** Lists whose errors are only logged. *)
Fixpoint run_logged (lists : list (list string)) (ctx : HookContext) (log : list Event) : HookContext * list Event :=
  match lists with
  | [] => (ctx, log)
  | l :: lists => let '(r, log) := run_hook_list l ctx log in run_logged lists (log_hook_errors r ctx) log
  end.
Definition run_after_or_failed (global repo : HooksConfig) (ctx : HookContext) (success : bool) (log : list Event) : HookContext * list Event :=
  let bare := if success then "after" else "failed" in
  let key := bare +:+ "_" +:+ hc_command ctx in
  run_logged [get_hooks repo key; get_hooks global key; get_hooks repo bare; get_hooks global bare] ctx log.
Definition run_finally (global repo : HooksConfig) (ctx : HookContext) (log : list Event) : HookContext * list Event :=
  let finally_key := "finally_" +:+ hc_command ctx in
  run_logged [get_hooks repo finally_key; get_hooks global finally_key; get_hooks repo "finally"; get_hooks global "finally"] ctx log.

(** The operation: its answer depends on what ran before. *)
Definition run_action {T} (action : list Event -> res T) (log : list Event) : res T * list Event := (action log, log ++ [ActionRan]).

Definition note_error {T} (r : res T) (ctx : HookContext) : HookContext :=
  match r with Err er => match hc_error ctx with None => with_error (print_error er) ctx | Some _ => ctx end | Ok _ => ctx end.

Definition run_with_hooks {T} (global repo : HooksConfig) (ctx : HookContext) (action : list Event -> res T) (log : list Event) : res T * HookContext * list Event :=
  if negb (existsb (String.eqb (hc_command ctx)) HOOK_COMMANDS) then let '(r, log) := run_action action log in (r, ctx, log)
  else
    let '(before, log) := run_before global repo ctx log in
    let '(result, ctx, log) := match before with
      | Err er => (Err er, with_error (print_error er) ctx, log)
      | Ok _ => let '(r, log) := run_action action log in (r, ctx, log)
      end in
    let ctx := note_error result ctx in
    let '(ctx, log) := run_after_or_failed global repo ctx (match result with Ok _ => true | Err _ => false end) log in
    let '(ctx, log) := run_finally global repo ctx log in
    (result, ctx, log).

Definition run_source_hooks {T} (hooks : SourceHooksConfig) (ctx : HookContext) (action : list Event -> res T) (log : list Event) : res T * HookContext * list Event :=
  let '(before, log) := run_hook_list (sh_before hooks) ctx log in
  let '(result, ctx, log) := match before with
    | Err er => (Err er, with_error (print_error er) ctx, log)
    | Ok _ => let '(r, log) := run_action action log in (r, ctx, log)
    end in
  let '(ctx, log) := match result with
    | Ok _ => run_logged [sh_after hooks] ctx log
    | Err _ => run_logged [sh_failed hooks] (note_error result ctx) log
    end in
  let '(ctx, log) := run_logged [sh_finally hooks] ctx log in
  (result, ctx, log).
End Run.

(** ** The order of hooks *)

(** [cmds] run one after the other until one does not succeed. *)
Inductive ran (inherited : Env) (ctx : HookContext) : list string -> list Event -> bool -> Prop :=
  | ran_done : ran inherited ctx [] [] true
  | ran_next cmd cmds evs ok x : succeeded x = true -> ran inherited ctx cmds evs ok ->
      ran inherited ctx (cmd :: cmds) (HookRan cmd (substitute_variables cmd ctx) (hook_env inherited ctx) x :: evs) ok
  | ran_stop cmd cmds x : succeeded x = false -> ran inherited ctx (cmd :: cmds) [HookRan cmd (substitute_variables cmd ctx) (hook_env inherited ctx) x] false.

(** Each list runs until one of its commands does not succeed, whatever
    became of the lists before. *)
Inductive ran_all (inherited : Env) (ctx : HookContext) : list (list string) -> list Event -> Prop :=
  | ran_all_nil : ran_all inherited ctx [] []
  | ran_all_cons l lists evs evs' ok : ran inherited ctx l evs ok -> ran_all inherited ctx lists evs' -> ran_all inherited ctx (l :: lists) (evs ++ evs').

Lemma ran_app inherited ctx l1 l2 evs1 evs2 ok : ran inherited ctx l1 evs1 true -> ran inherited ctx l2 evs2 ok -> ran inherited ctx (l1 ++ l2) (evs1 ++ evs2) ok.
Proof. remember true as b. induction 1; intros H2; [done|constructor; auto|done]. Qed.
Lemma ran_app_stop inherited ctx l1 l2 evs : ran inherited ctx l1 evs false -> ran inherited ctx (l1 ++ l2) evs false.
Proof. remember false as b. induction 1; [done|constructor; auto|by constructor]. Qed.

Section HookLaws.
Context (inherited : Env) (execute : list Event -> string -> Env -> ScriptEnd) (print_error : VykarError -> string).

Lemma run_hook_list_ran cmds ctx log : let '(r, log') := run_hook_list inherited execute cmds ctx log in
  exists evs, log' = log ++ evs /\ ran inherited ctx cmds evs (match r with Ok _ => true | Err _ => false end).
Proof.
  revert log. induction cmds as [|cmd cmds IH]; intros log; cbn [run_hook_list]; [exists []; rewrite app_nil_r; split; [done|constructor]|].
  unfold execute_hook_command. set (script := substitute_variables cmd ctx). set (env := hook_env inherited ctx). set (x := execute log script env).
  assert (Hstop : forall er : VykarError, succeeded x = false -> exists evs, log ++ [HookRan cmd script env x] = log ++ evs /\ ran inherited ctx (cmd :: cmds) evs false).
  { intros er Hx. eexists. split; [done|]. by constructor. }
  destruct x as [code| |msg] eqn:Ex; [|by apply (Hstop (HookError ""))..].
  destruct (code =? 0) eqn:Ec; [|apply (Hstop (HookError "")); cbn [succeeded]; exact Ec].
  specialize (IH (log ++ [HookRan cmd script env (ExitedWith code)])). destruct (run_hook_list inherited execute cmds ctx _) as [r log']. destruct IH as (evs & -> & Hr).
  exists (HookRan cmd script env (ExitedWith code) :: evs). split; [by rewrite <- app_assoc|]. by constructor.
Qed.

Lemma run_lists_ran lists ctx log : let '(r, log') := run_lists inherited execute lists ctx log in
  exists evs, log' = log ++ evs /\ ran inherited ctx (concat lists) evs (match r with Ok _ => true | Err _ => false end).
Proof.
  revert log. induction lists as [|l lists IH]; intros log; cbn [run_lists concat]; [exists []; rewrite app_nil_r; split; [done|constructor]|].
  pose proof (run_hook_list_ran l ctx log) as H. destruct (run_hook_list _ _ l ctx log) as [[u|er] log1]; destruct H as (evs & -> & Hr).
  - specialize (IH (log ++ evs)). destruct (run_lists _ _ lists ctx _) as [r log2]. destruct IH as (evs2 & -> & Hr2). exists (evs ++ evs2). rewrite app_assoc. split; [done|]. by apply ran_app.
  - exists evs. split; [done|]. by apply ran_app_stop.
Qed.

(** What a hook is given of the context does not change with a warning. *)
Lemma ran_warning msg ctx cmds evs ok : ran inherited (push_warning msg ctx) cmds evs ok -> ran inherited ctx cmds evs ok.
Proof. induction 1 as [|cmd cmds evs ok x Hx _ IH|cmd cmds x Hx]; [constructor|exact (ran_next inherited ctx cmd cmds evs ok x Hx IH)|exact (ran_stop inherited ctx cmd cmds x Hx)]. Qed.
Lemma ran_all_warning msg ctx lists evs : ran_all inherited (push_warning msg ctx) lists evs -> ran_all inherited ctx lists evs.
Proof. induction 1; econstructor; [by eapply ran_warning|done]. Qed.

Definition same_but_warnings (c c' : HookContext) : Prop :=
  hc_command c' = hc_command c /\ hc_error c' = hc_error c /\ hook_env inherited c' = hook_env inherited c /\ forall cmd, substitute_variables cmd c' = substitute_variables cmd c.
Lemma ran_same c c' cmds evs ok : same_but_warnings c c' -> ran inherited c' cmds evs ok -> ran inherited c cmds evs ok.
Proof. intros (_ & _ & He & Hs). induction 1; rewrite ?He, ?Hs; by constructor. Qed.
Lemma ran_all_same c c' lists evs : same_but_warnings c c' -> ran_all inherited c' lists evs -> ran_all inherited c lists evs.
Proof. intros Hs. induction 1; econstructor; [by eapply ran_same|done]. Qed.

Lemma run_logged_ran lists ctx log : let '(ctx', log') := run_logged inherited execute print_error lists ctx log in
  same_but_warnings ctx ctx' /\ exists evs, log' = log ++ evs /\ ran_all inherited ctx lists evs.
Proof.
  revert ctx log. induction lists as [|l lists IH]; intros ctx log; cbn [run_logged]; [split; [done|]; exists []; rewrite app_nil_r; split; [done|constructor]|].
  pose proof (run_hook_list_ran l ctx log) as H. destruct (run_hook_list _ _ l ctx log) as [r log1]. destruct H as (evs & -> & Hr).
  specialize (IH (log_hook_errors print_error r ctx) (log ++ evs)). destruct (run_logged _ _ _ lists _ _) as [ctx2 log2]. destruct IH as (Hs & evs2 & -> & Hr2).
  assert (Hw : same_but_warnings ctx (log_hook_errors print_error r ctx)) by (by destruct r).
  split; [destruct Hs as (? & ? & ? & Hq), Hw as (? & ? & ? & Hq'); split_and!; try congruence; intros cmd; by rewrite Hq, Hq'|].
  exists (evs ++ evs2). rewrite app_assoc. split; [done|]. econstructor; [done|]. by eapply ran_all_same.
Qed.
End HookLaws.

Lemma set_some_ne key k v env : k <> key -> set_some key v env !! k = env !! k.
Proof. intros Hne. destruct v; [by apply lookup_insert_ne|done]. Qed.
Lemma hook_env_passphrase inherited ctx : hook_env inherited ctx !! "VYKAR_PASSPHRASE" = None.
Proof. unfold hook_env. rewrite !set_some_ne, !lookup_insert_ne by done. apply lookup_delete_eq. Qed.

Definition hides_passphrase (ev : Event) : Prop := match ev with HookRan _ _ env _ => env !! "VYKAR_PASSPHRASE" = None | ActionRan => True end.
Lemma ran_hides inherited ctx cmds evs ok : ran inherited ctx cmds evs ok -> Forall hides_passphrase evs.
Proof. induction 1; [constructor|constructor; [apply hook_env_passphrase|done]|apply Forall_singleton, hook_env_passphrase]. Qed.
Lemma ran_all_hides inherited ctx lists evs : ran_all inherited ctx lists evs -> Forall hides_passphrase evs.
Proof. induction 1; [constructor|]. apply Forall_app. split; [by eapply ran_hides|done]. Qed.

Lemma hook_list_error inherited execute cmds ctx log er : (run_hook_list inherited execute cmds ctx log).1 = Err er -> exists what, er = HookError what.
Proof.
  revert log. induction cmds as [|cmd cmds IH]; intros log; cbn [run_hook_list]; [done|]. unfold execute_hook_command.
  destruct (execute log _ _) as [code| |msg]; [destruct (code =? 0); [apply IH|]|..]; intros [= <-]; by eexists.
Qed.
Lemma lists_error inherited execute lists ctx log er : (run_lists inherited execute lists ctx log).1 = Err er -> exists what, er = HookError what.
Proof.
  revert log. induction lists as [|l lists IH]; intros log; cbn [run_lists]; [done|]. pose proof (hook_list_error inherited execute l ctx log) as H.
  destruct (run_hook_list _ _ l ctx log) as [[u|er'] log1]; [apply IH|]. intros [= ->]. by apply H.
Qed.

Lemma outcome_and_finally inherited execute print_error global repo ctx success log :
  let '(ctx1, log1) := run_after_or_failed inherited execute print_error global repo ctx success log in
  let '(ctx2, log2) := run_finally inherited execute print_error global repo ctx1 log1 in
  let cmd := hc_command ctx in
  let outcome := if success : bool then "after" else "failed" in
  exists F L, log2 = log ++ F ++ L /\
    ran_all inherited ctx [get_hooks repo (outcome +:+ "_" +:+ cmd); get_hooks global (outcome +:+ "_" +:+ cmd); get_hooks repo outcome; get_hooks global outcome] F /\
    ran_all inherited ctx [get_hooks repo ("finally_" +:+ cmd); get_hooks global ("finally_" +:+ cmd); get_hooks repo "finally"; get_hooks global "finally"] L.
Proof.
  unfold run_after_or_failed. pose proof (run_logged_ran inherited execute print_error
    (let bare := if success then "after" else "failed" in let key := bare +:+ "_" +:+ hc_command ctx in [get_hooks repo key; get_hooks global key; get_hooks repo bare; get_hooks global bare]) ctx log) as H.
  cbv zeta in *. destruct (run_logged _ _ _ _ ctx log) as [ctx1 log1]. destruct H as (Hs & F & -> & HF). unfold run_finally. cbv zeta.
  pose proof (run_logged_ran inherited execute print_error [get_hooks repo ("finally_" +:+ hc_command ctx1); get_hooks global ("finally_" +:+ hc_command ctx1); get_hooks repo "finally"; get_hooks global "finally"] ctx1 (log ++ F)) as H.
  destruct (run_logged _ _ _ _ ctx1 _) as [ctx2 log2]. destruct H as (_ & L & -> & HL). apply (ran_all_same inherited ctx) in HL; [|done]. destruct Hs as (Ec & _). rewrite Ec in HL.
  exists F, L. rewrite <- app_assoc. done.
Qed.

(** What the hooks after an operation are told. *)
Definition told (print_error : VykarError -> string) {T} (r : res T) (ctx : HookContext) : HookContext :=
  match r with Ok _ => ctx | Err er => with_error (print_error er) ctx end.

(** C10. The life of an operation with hooks: the hooks before it run in order, the
    general ones first, until one fails; the operation runs, once, exactly
    when none did; then the hooks for its outcome and the final ones run, each
    list until one of its commands fails, told the error if there was one; the
    answer is the operation's, or the error of the hook that stopped it; and
    no hook sees the passphrase.  The context starts without an error, and its
    command is one that has hooks. *)
Theorem hooks_lifecycle {T} inherited execute print_error global repo ctx (action : list Event -> res T) log :
  hc_command ctx ∈ HOOK_COMMANDS -> hc_error ctx = None ->
  let '(r, ctx', log') := run_with_hooks inherited execute print_error global repo ctx action log in
  let cmd := hc_command ctx in
  let outcome := match r with Ok _ => "after" | Err _ => "failed" end in
  exists B F L ok,
    log' = log ++ B ++ (if ok : bool then [ActionRan] else []) ++ F ++ L /\
    ran inherited ctx (get_hooks global "before" ++ get_hooks repo "before" ++ get_hooks global ("before_" +:+ cmd) ++ get_hooks repo ("before_" +:+ cmd)) B ok /\
    (if ok then r = action (log ++ B) else exists er, r = Err (HookError er)) /\
    ran_all inherited (told print_error r ctx) [get_hooks repo (outcome +:+ "_" +:+ cmd); get_hooks global (outcome +:+ "_" +:+ cmd); get_hooks repo outcome; get_hooks global outcome] F /\
    ran_all inherited (told print_error r ctx) [get_hooks repo ("finally_" +:+ cmd); get_hooks global ("finally_" +:+ cmd); get_hooks repo "finally"; get_hooks global "finally"] L /\
    Forall hides_passphrase (B ++ F ++ L).
Proof.
  intros Hc Herr. unfold run_with_hooks. assert (existsb (String.eqb (hc_command ctx)) HOOK_COMMANDS = true) as ->.
  { apply existsb_exists. exists (hc_command ctx). split; [by apply list_elem_of_In|apply String.eqb_refl]. }
  cbn [negb]. unfold run_before. cbv zeta.
  set (lists := [get_hooks global "before"; get_hooks repo "before"; get_hooks global ("before_" +:+ hc_command ctx); get_hooks repo ("before_" +:+ hc_command ctx)]).
  pose proof (run_lists_ran inherited execute lists ctx log) as Hb. pose proof (lists_error inherited execute lists ctx log) as Her.
  destruct (run_lists inherited execute lists ctx log) as [before log1]. destruct Hb as (B & -> & HB). unfold lists in HB. cbn [concat] in HB. rewrite app_nil_r in HB. cbn [fst] in Her.
  pose proof (fun r : res T => outcome_and_finally inherited execute print_error global repo (told print_error r ctx) (match r with Ok _ => true | Err _ => false end)) as Hrest.
  destruct before as [u|er]; unfold run_action; cbn [fst snd].
  - specialize (Hrest (action (log ++ B)) ((log ++ B) ++ [ActionRan])).
    assert (note_error print_error (action (log ++ B)) ctx = told print_error (action (log ++ B)) ctx) as -> by (unfold note_error, told; rewrite Herr; done).
    destruct (run_after_or_failed _ _ _ _ _ _ _ _) as [ctx1 log2]. destruct (run_finally _ _ _ _ _ ctx1 log2) as [ctx2 log3]. destruct Hrest as (F & L & -> & HF & HL).
    exists B, F, L, true. rewrite <- !app_assoc. split; [done|]. split; [done|]. split; [done|].
    assert (hc_command (told print_error (action (log ++ B)) ctx) = hc_command ctx) as Ecmd by (by destruct (action (log ++ B))). rewrite Ecmd in HF, HL.
    split; [by destruct (action (log ++ B))|]. split; [done|]. rewrite !Forall_app. split; [by eapply ran_hides|]. split; by eapply ran_all_hides.
  - destruct (Her er eq_refl) as [what ->]. specialize (Hrest (Err (HookError what)) (log ++ B)). cbn [note_error with_error hc_error told] in *.
    destruct (run_after_or_failed _ _ _ _ _ _ _ _) as [ctx1 log2]. destruct (run_finally _ _ _ _ _ ctx1 log2) as [ctx2 log3]. destruct Hrest as (F & L & -> & HF & HL).
    exists B, F, L, false. rewrite <- !app_assoc. split; [done|]. split; [done|]. split; [by eexists|]. split; [done|]. split; [done|].
    rewrite !Forall_app. split; [by eapply ran_hides|]. split; by eapply ran_all_hides.
Qed.

(** ** Quoting *)

(** How a POSIX shell reads a word: between single quotes everything stands
    for itself, between double quotes all but [$], the backquote and the
    backslash; outside, only characters that mean nothing else. *)
Inductive Quoting := Unquoted | InSingle | InDouble.
Definition plain_char (a : ascii) : bool :=
  let n := nat_of_ascii a in is_digit a || ((65 <=? n)%nat && (n <=? 90)%nat) || ((97 <=? n)%nat && (n <=? 122)%nat) || has_char a "_-./,:@+".
Definition double_special (a : ascii) : bool := has_char a "$`\".
Fixpoint sh_word (q : Quoting) (s : string) : option string :=
  match s with
  | EmptyString => match q with Unquoted => Some "" | _ => None end
  | String a s' =>
      match q with
      | Unquoted => if Ascii.eqb a quote then sh_word InSingle s' else if Ascii.eqb a dquote then sh_word InDouble s' else if plain_char a then String a <$> sh_word Unquoted s' else None
      | InSingle => if Ascii.eqb a quote then sh_word Unquoted s' else String a <$> sh_word InSingle s'
      | InDouble => if Ascii.eqb a dquote then sh_word Unquoted s' else if double_special a then None else String a <$> sh_word InDouble s'
      end
  end.

Lemma sh_escaped s : sh_word InSingle (escape_quotes s +:+ String quote "") = Some s.
Proof.
  induction s as [|a s IH]; [done|]. cbn [escape_quotes]. destruct (Ascii.eqb_spec a quote) as [->|Hne].
  - transitivity (String quote <$> sh_word InSingle (escape_quotes s +:+ String quote "")); [reflexivity|by rewrite IH].
  - transitivity (if Ascii.eqb a quote then sh_word Unquoted (escape_quotes s +:+ String quote "") else String a <$> sh_word InSingle (escape_quotes s +:+ String quote "")); [reflexivity|].
    destruct (Ascii.eqb_spec a quote); [done|]. by rewrite IH.
Qed.
(** A value is read back as the one word it was. *)
Lemma shell_escape_word s : sh_word Unquoted (shell_escape s) = Some s.
Proof. unfold shell_escape. destruct (String.eqb_spec s "") as [->|_]; [done|]. exact (sh_escaped s). Qed.

(** ** Values in scripts *)

(** All placeholders at once: what the substitution should do. *)
Fixpoint expand_from (vars : list (string * string)) (skip : nat) (s : string) : string :=
  match s with
  | EmptyString => ""
  | String a s' =>
      match skip with
      | S n => expand_from vars n s'
      | O => match List.find (fun pv => starts_with s pv.1) vars with
             | Some pv => pv.2 +:+ expand_from vars (String.length pv.1 - 1) s'
             | None => String a (expand_from vars 0 s')
             end
      end
  end.
Definition placeholders (ctx : HookContext) : list (string * string) :=
  [("{command}", shell_escape (hc_command ctx)); ("{repository}", shell_escape (hc_repository ctx)); ("{label}", shell_escape (default "" (hc_label ctx)));
   ("{error}", shell_escape (default "" (hc_error ctx))); ("{source_label}", shell_escape (default "" (hc_source_label ctx)));
   ("{source_path}", shell_escape (default "" (String.concat source_paths_separator <$> hc_source_paths ctx)))].

Definition brace : ascii := "{"%char.
(** A placeholder: a brace, then neither braces nor quotes; a value: quoted,
    without opening braces. *)
Definition good_name (p : string) : Prop := exists q, p = String brace q /\ has_char brace q = false /\ has_char quote q = false.
Definition good_value (v : string) : Prop := has_char brace v = false /\ exists r, v = String quote r.
Definition good_var (pv : string * string) : Prop := good_name pv.1 /\ good_value pv.2.

Lemma replace_expand p v n s : replace_from p v n s = expand_from [(p, v)] n s.
Proof. revert n. induction s as [|a s IH]; intros [|n]; cbn [replace_from expand_from List.find fst snd]; [done|done| |apply IH]. rewrite !IH. by destruct (starts_with (String a s) p). Qed.

Lemma find_no_brace vars a s : Forall good_var vars -> a <> brace -> List.find (fun pv => starts_with (String a s) pv.1) vars = None.
Proof.
  intros Hv Ha. induction Hv as [|[p v] vars [(q & Hp & _) _] _ IH]; [done|]. cbn [fst] in Hp. subst p. cbn [List.find fst starts_with]. destruct (Ascii.eqb_spec brace a) as [E|]; [by destruct Ha|]. exact IH.
Qed.
Lemma expand_app vars t s : Forall good_var vars -> has_char brace t = false -> expand_from vars 0 (t +:+ s) = t +:+ expand_from vars 0 s.
Proof.
  intros Hv. induction t as [|a t IH]; intros Ht; [done|]. cbn [has_char] in Ht. apply orb_false_iff in Ht as [Ha Ht].
  change (String a t +:+ s) with (String a (t +:+ s)). cbn [expand_from]. rewrite find_no_brace; [by rewrite IH|done|]. by destruct (Ascii.eqb_spec a brace).
Qed.
Lemma expand_skip vars t s : expand_from vars (String.length t) (t +:+ s) = expand_from vars 0 s.
Proof. induction t as [|a t IH]; [done|]. exact IH. Qed.
Lemma expand_prefix vars q s : Forall good_var vars -> has_char quote q = false -> starts_with (expand_from vars 0 s) q = true -> starts_with s q = true.
Proof.
  intros Hv. revert s. induction q as [|b q IH]; intros s Hq; [by destruct s|]. destruct s as [|a s]; [done|]. cbn [expand_from].
  destruct (List.find _ vars) as [[p v]|] eqn:E.
  - apply find_some in E as [Hin _]. rewrite Forall_forall in Hv. destruct (Hv _ (proj2 (list_elem_of_In _ _) Hin)) as [_ [_ [r Hr]]]. cbn [snd] in *. rewrite Hr.
    change (String quote r +:+ ?x) with (String quote (r +:+ x)). cbn [starts_with has_char] in *. apply orb_false_iff in Hq as [Hb _]. 
    rewrite Hb. done.
  - cbn [starts_with has_char] in *. apply orb_false_iff in Hq as [_ Hq]. destruct (Ascii.eqb b a); [|done]. by apply IH.
Qed.

Lemma find_app {A} (f : A -> bool) l1 l2 : List.find f (l1 ++ l2) = match List.find f l1 with Some x => Some x | None => List.find f l2 end.
Proof. induction l1 as [|x l1 IH]; [done|]. cbn [app List.find]. by destruct (f x). Qed.

(** One more replacement after the others is one more placeholder. *)
Lemma replace_after vars p v : Forall good_var vars -> good_var (p, v) ->
  forall n s, (String.length s <= n)%nat -> forall skip, replace_from p v 0 (expand_from vars skip s) = expand_from (vars ++ [(p, v)]) skip s.
Proof.
  intros Hv Hpv. assert (Hv' : Forall good_var (vars ++ [(p, v)])) by (apply Forall_app; split; [done|by apply Forall_singleton]). assert (Hone : Forall good_var [(p, v)]) by (by apply Forall_singleton).
  induction n as [|n IH]; intros s Hn skip; (destruct s as [|a s]; [done|]); cbn [String.length] in Hn; [lia|].
  destruct skip as [|skip]; [|cbn [expand_from]; apply IH; lia].
  cbn [expand_from]. rewrite find_app. destruct (List.find _ vars) as [[p' v']|] eqn:E.
  - apply find_some in E as [Hin _]. rewrite Forall_forall in Hv. destruct (Hv _ (proj2 (list_elem_of_In _ _) Hin)) as [_ [Hb _]]. cbn [snd fst] in *.
    rewrite replace_expand, expand_app by done. rewrite <- replace_expand. f_equal. apply IH. lia.
  - cbn [List.find fst snd]. destruct Hpv as [(q & Hp & Hq & Hqq) Hval]. cbn [fst snd] in *. destruct (starts_with (String a s) p) eqn:Es.
    + rewrite Hp in Es. cbn [starts_with] in Es. apply andb_true_iff in Es as [Ea Es]. apply Ascii.eqb_eq in Ea as <-. apply starts_with_inv in Es as [r ->].
      cbn [fst snd]. rewrite expand_app by done. replace (String.length p - 1)%nat with (String.length q) by (rewrite Hp; cbn [String.length]; lia). rewrite expand_skip.
      cbn [replace_from]. assert (Hsw : starts_with (String brace (q +:+ expand_from vars 0 r)) p = true) by (rewrite Hp; cbn [starts_with]; rewrite Ascii.eqb_refl; apply starts_with_prefix).
      rewrite Hsw. replace (String.length p - 1)%nat with (String.length q) by (rewrite Hp; cbn [String.length]; lia). rewrite replace_expand, expand_skip, <- replace_expand. f_equal.
      apply IH. rewrite length_str_app in Hn. lia.
    + cbn [replace_from]. assert (Hsw : starts_with (String a (expand_from vars 0 s)) p = false).
      { rewrite Hp in Es |- *. cbn [starts_with] in *. destruct (Ascii.eqb brace a); [|done]. cbn [andb] in *. apply not_true_iff_false. intros H%expand_prefix; [congruence|done|done]. }
      rewrite Hsw. f_equal. apply IH. lia.
Qed.

Lemma escape_no_brace s : has_char brace s = false -> has_char brace (escape_quotes s) = false.
Proof.
  induction s as [|a s IH]; [done|]. cbn [has_char escape_quotes]. intros [Ha Hs]%orb_false_iff. specialize (IH Hs). destruct (Ascii.eqb a quote); cbn [has_char]; by rewrite IH, ?Ha.
Qed.
Lemma has_char_app c s t : has_char c (s +:+ t) = has_char c s || has_char c t.
Proof. induction s as [|a s IH]; [done|]. change (String a s +:+ t) with (String a (s +:+ t)). cbn [has_char]. by rewrite IH, orb_assoc. Qed.
Lemma escaped_good s : has_char brace s = false -> good_value (shell_escape s).
Proof.
  intros Hs. unfold shell_escape. destruct (String.eqb_spec s "") as [->|_]; [split; [done|by eexists]|]. split; [|by eexists].
  cbn [has_char]. rewrite has_char_app, escape_no_brace by done. done.
Qed.

Lemma good_var_of p v : has_char brace p = false -> has_char quote p = false -> has_char brace v = false -> good_var (String brace p, shell_escape v).
Proof. intros H1 H2 H3. split; [by exists p|by apply escaped_good]. Qed.

(** The values of a context. *)
Definition hook_values (ctx : HookContext) : list string :=
  [hc_command ctx; hc_repository ctx; default "" (hc_label ctx); default "" (hc_error ctx); default "" (hc_source_label ctx);
   default "" (String.concat source_paths_separator <$> hc_source_paths ctx)].

(** Replacing the placeholders of a command one after the other is replacing
    all of them at once, each by one quoted word that the shell reads back as
    the value, provided no value holds an opening brace. *)
Theorem substitution_is_simultaneous cmd ctx : Forall (fun v => has_char brace v = false) (hook_values ctx) ->
  substitute_variables cmd ctx = expand_from (placeholders ctx) 0 cmd /\
  Forall2 (fun pv v => sh_word Unquoted pv.2 = Some v) (placeholders ctx) (hook_values ctx).
Proof.
  intros Hv. split; [|repeat (apply Forall2_cons; split; [apply shell_escape_word|]); apply Forall2_nil; done].
  unfold hook_values in Hv. rewrite !Forall_cons in Hv. destruct Hv as (H1 & H2 & H3 & H4 & H5 & H6 & _).
  pose proof (good_var_of "command}" _ eq_refl eq_refl H1) as G1. pose proof (good_var_of "repository}" _ eq_refl eq_refl H2) as G2. pose proof (good_var_of "label}" _ eq_refl eq_refl H3) as G3.
  pose proof (good_var_of "error}" _ eq_refl eq_refl H4) as G4. pose proof (good_var_of "source_label}" _ eq_refl eq_refl H5) as G5. pose proof (good_var_of "source_path}" _ eq_refl eq_refl H6) as G6.
  unfold substitute_variables, replace, placeholders. cbv zeta. rewrite (replace_expand "{command}").
  do 5 (erewrite replace_after; [|repeat first [apply Forall_nil; exact I|apply Forall_cons; split; [assumption|]]|assumption|reflexivity]). reflexivity.
Qed.

Definition hk_ctx : HookContext := mkHookContext "backup" "/srv/repo" (Some "it's") None None (Some ["/home"; "/etc"]) [].

(** Witness: a label with a quote, and two paths. *)
Lemma substitution_is_simultaneous_witness :
  substitute_variables "notify {label} {source_path}" hk_ctx = expand_from (placeholders hk_ctx) 0 "notify {label} {source_path}" /\
  sh_word Unquoted (shell_escape "it's") = Some "it's".
Proof.
  split; [|reflexivity]. refine (proj1 (substitution_is_simultaneous "notify {label} {source_path}" hk_ctx _)).
  repeat (apply Forall_cons; split; [reflexivity|]). apply Forall_nil. exact I.
Defined.

Definition hk_global : HooksConfig := {[ "before" := ["mount"]; "failed_backup" := ["alert"]; "finally" := ["umount"] ]}.
Definition hk_execute (log : list Event) (script : string) (env : Env) : ScriptEnd := ExitedWith 0.

(** Witness: a backup that fails between its hooks. *)
Lemma hooks_lifecycle_witness :
  let ctx := mkHookContext "backup" "/srv/repo" None None None None [] in
  let run := run_with_hooks ∅ hk_execute (fun _ => "error") hk_global ∅ ctx (fun _ => Err (Other "disk full") : res unit) [] in
  (fun ev => match ev with HookRan cmd _ _ _ => cmd | ActionRan => "(action)" end) <$> run.2 = ["mount"; "(action)"; "alert"; "umount"] /\
  exists B F L, run.2 = [] ++ B ++ [ActionRan] ++ F ++ L /\ Forall hides_passphrase (B ++ F ++ L).
Proof.
  cbv zeta. split; [vm_compute; reflexivity|].
  pose proof (hooks_lifecycle ∅ hk_execute (fun _ => "error") hk_global ∅ (mkHookContext "backup" "/srv/repo" None None None None []) (fun _ => Err (Other "disk full") : res unit) []
    ltac:(apply list_elem_of_here) eq_refl) as H.
  assert (E : (run_with_hooks ∅ hk_execute (fun _ => "error") hk_global ∅ (mkHookContext "backup" "/srv/repo" None None None None []) (fun _ => Err (Other "disk full") : res unit) []).1.1 = Err (Other "disk full")) by (vm_compute; reflexivity).
  destruct (run_with_hooks _ _ _ _ _ _ _ _) as [[r ctx'] log']. cbn [fst snd] in *. destruct H as (B & F & L & ok & H1 & H2 & H3 & _ & _ & H6).
  destruct ok; [exists B, F, L; split; [exact H1|exact H6]|]. destruct H3 as [er ->]. discriminate E.
Defined.

(** ** A value that holds a placeholder *)

(** The placeholder inside the quoted label is replaced as well, and its
    quotes close those around it: a path with a semicolon ends the command. *)
Lemma nested_placeholder_unquoted : let ctx := mkHookContext "backup" "/srv/repo" (Some "{source_path}") None None (Some ["/home;reboot;"]) [] in
  substitute_variables "notify {label}" ctx = "notify ''/home;reboot;''" /\ sh_word Unquoted "''/home;reboot;''" = None.
Proof. split; reflexivity. Qed.
