(* ===== verification/Identity.v ===== *)
(** * Identity pins and check times (crates/vykar-core/src/repo/identity.rs, app/check_state.rs)

    Two small files of the local cache, one a repository URL: the fingerprint
    of the repository that was first opened there, and the time of its last
    full check.  Every system call may fail.  The theorems say that a pinned
    identity changes only when the user says so, whatever is opened in
    between, and when a full check is due again. *)

From S2P Require Import Prelude Types Pack Lock FileCache.
#[local] Open Scope string_scope.
#[local] Open Scope list_scope.
#[local] Open Scope Z_scope.

(** ** The local files *)

Record LocalFiles := mkLocalFiles { lf_files : gmap string bytes; lf_faults : list bool }.
(** Whether the next system call fails. *)
Definition call_fails (s : LocalFiles) : bool * LocalFiles :=
  match lf_faults s with b :: l => (b, mkLocalFiles (lf_files s) l) | [] => (false, s) end.

Inductive ReadError := ReadNotFound | ReadOther.
Definition read_to_string (path : string) (s : LocalFiles) : result ReadError bytes * LocalFiles :=
  let '(fails, s) := call_fails s in
  (if fails then Err ReadOther else match lf_files s !! path with Some d => Ok d | None => Err ReadNotFound end, s).

(** A number of calls that must all succeed. *)
Fixpoint calls_fail (n : nat) (s : LocalFiles) : bool * LocalFiles :=
  match n with
  | O => (false, s)
  | S n => let '(fails, s) := call_fails s in if fails then (true, s) else calls_fail n s
  end.
Definition persist (path : string) (data : bytes) (s : LocalFiles) : LocalFiles := mkLocalFiles (<[path := data]> (lf_files s)) (lf_faults s).

(** ** Pins *)

Record PinFile := mkPin { pin_version : Z; pin_repo_id : string; pin_fingerprint : string; pin_url : string }.
Record CheckStateFile := mkCheckState { cs_fingerprint : string; cs_last_full_check : Z }.

Section Files.
Context `{HexCodec} `{Blake2b} `{Json PinFile} `{Json CheckStateFile}.

Definition compute_fingerprint (repo_id chunk_id_key : bytes) : bytes := blake2b (repo_id ++ chunk_id_key).

(** [base]: the directory given, or that of the platform. *)
Definition pin_file_path (url : string) (base : option string) : option string :=
  b ← base; Some (join_path b ("pin." +:+ hex_encode (blake2b (str_bytes url)))).

(** Directory, temporary file, writing and renaming: a failure is a warning. *)
Definition write_pin (path url : string) (repo_id : bytes) (fp_hex : string) (s : LocalFiles) : res unit * LocalFiles :=
  let pin := mkPin 1 (hex_encode repo_id) fp_hex url in
  let '(fails, s) := calls_fail 4 s in
  (Ok tt, if fails then s else persist path (json_encode pin) s).

(** [None]: a panic, when a fingerprint is too short to be shown.  (One with
    characters of several bytes can panic as well, when the cut falls inside
    one; fingerprints are compared before they are shown.) *)
Definition verify_or_pin (url : string) (repo_id chunk_id_key : bytes) (base : option string) (trust : bool) (s : LocalFiles) : option (res unit) * LocalFiles :=
  match pin_file_path url base with
  | None => (Some (Ok tt), s)
  | Some path =>
      let fp_hex := hex_encode (compute_fingerprint repo_id chunk_id_key) in
      if trust then let '(r, s) := write_pin path url repo_id fp_hex s in (Some r, s)
      else
        let '(contents, s) := read_to_string path s in
        match contents with
        | Ok contents =>
            match json_decode contents with
            | None => (Some (Err (Other "corrupt identity pin file")), s)
            | Some pin =>
                if String.eqb (pin_fingerprint pin) fp_hex then (Some (Ok tt), s)
                else if (String.length (pin_fingerprint pin) <? 16)%nat then (None, s)
                else (Some (Err (RepositoryMismatch "expected fingerprint")), s)
            end
        | Err ReadNotFound => let '(r, s) := write_pin path url repo_id fp_hex s in (Some r, s)
        | Err ReadOther => (Some (Err (Other "could not read identity pin file")), s)
        end
  end.

(** ** The last full check *)

Definition check_state_path (url : string) (base : option string) : option string :=
  b ← base; Some (join_path b ("check." +:+ hex_encode (blake2b (str_bytes url)))).

Definition last_full_check (url fingerprint : string) (base : option string) (s : LocalFiles) : option Z * LocalFiles :=
  match check_state_path url base with
  | None => (None, s)
  | Some path =>
      let '(contents, s) := read_to_string path s in
      (match contents with
       | Err _ => None
       | Ok contents =>
           state ← json_decode contents;
           if negb (String.eqb (cs_fingerprint state) fingerprint) then None else Some (cs_last_full_check state)
       end, s)
  end.

(** Directory, temporary file, writing, syncing and renaming. *)
Definition record_full_check (url fingerprint : string) (base : option string) (now : Z) (s : LocalFiles) : LocalFiles :=
  match check_state_path url base with
  | None => s
  | Some path => let '(fails, s) := calls_fail 5 s in if fails then s else persist path (json_encode (mkCheckState fingerprint now)) s
  end.

Definition full_check_is_due (url fingerprint : string) (base : option string) (interval now : Z) (s : LocalFiles) : bool * LocalFiles :=
  let '(last, s) := last_full_check url fingerprint base s in
  (match last with None => true | Some last => interval <=? now - last end, s).

(** ** Opening repositories *)

Record Opening := mkOpening { op_url : string; op_repo_id : bytes; op_key : bytes; op_trust : bool }.
Definition open_one (base : option string) (o : Opening) (s : LocalFiles) : option (res unit) * LocalFiles :=
  verify_or_pin (op_url o) (op_repo_id o) (op_key o) base (op_trust o) s.
Fixpoint open_all (base : option string) (l : list Opening) (s : LocalFiles) : list (option (res unit)) * LocalFiles :=
  match l with
  | [] => ([], s)
  | o :: l => let '(r, s) := open_one base o s in let '(rs, s) := open_all base l s in (r :: rs, s)
  end.

(** The fingerprint pinned for a URL. *)
Definition pinned (base : option string) (url : string) (s : LocalFiles) : option string :=
  path ← pin_file_path url base; d ← lf_files s !! path; pin_fingerprint <$> json_decode d.
Definition fingerprint_of (o : Opening) : string := hex_encode (compute_fingerprint (op_repo_id o) (op_key o)).
Definition same_place (base : option string) (url : string) (o : Opening) : Prop := pin_file_path (op_url o) base = pin_file_path url base.

Lemma call_fails_files s : lf_files (call_fails s).2 = lf_files s.
Proof. unfold call_fails. by destruct (lf_faults s). Qed.
Lemma calls_fail_files n s : lf_files (calls_fail n s).2 = lf_files s.
Proof.
  revert s. induction n as [|n IH]; intros s; [done|]. cbn [calls_fail]. pose proof (call_fails_files s) as Hs. destruct (call_fails s) as [[|] s1]; [done|]. by rewrite IH.
Qed.
Lemma write_pin_files path url repo_id fp s : let '(r, s') := write_pin path url repo_id fp s in
  r = Ok tt /\ (lf_files s' = lf_files s \/ lf_files s' = <[path := json_encode (mkPin 1 (hex_encode repo_id) fp url)]> (lf_files s)).
Proof.
  unfold write_pin. pose proof (calls_fail_files 4 s) as Hs. destruct (calls_fail 4 s) as [[|] s1]; (split; [done|]); [by left|right]. unfold persist. cbn [lf_files snd] in *. by rewrite Hs.
Qed.

Lemma calls_fail_faults n s : lf_faults s = [] -> lf_faults (calls_fail n s).2 = [].
Proof. revert s. induction n as [|n IH]; intros s E; [done|]. cbn [calls_fail]. unfold call_fails. rewrite E. by apply IH. Qed.
Lemma open_one_faults base o s : lf_faults s = [] -> lf_faults (open_one base o s).2 = [].
Proof.
  intros E. assert (Hw : forall path fp s1, lf_faults s1 = [] -> lf_faults (write_pin path (op_url o) (op_repo_id o) fp s1).2 = []).
  { intros path fp s1 E1. unfold write_pin. pose proof (calls_fail_faults 4 s1 E1) as Hc. by destruct (calls_fail 4 s1) as [[|] s2]. }
  unfold open_one, verify_or_pin. destruct (pin_file_path _ _) as [path|]; [|done].
  destruct (op_trust o); [specialize (Hw path (hex_encode (compute_fingerprint (op_repo_id o) (op_key o))) s E); by destruct (write_pin _ _ _ _ s)|].
  unfold read_to_string, call_fails. rewrite E. destruct (lf_files s !! path) as [d|].
  - destruct (json_decode d); [|done]. destruct (String.eqb _ _); [done|]. by destruct (_ <? 16)%nat.
  - specialize (Hw path (hex_encode (compute_fingerprint (op_repo_id o) (op_key o))) s E). by destruct (write_pin _ _ _ _ s).
Qed.

(** What one opening may do to a pin that is there. *)
Record keeps_pin (base : option string) (url fp : string) (o : Opening) (s : LocalFiles) (r : option (res unit)) (s' : LocalFiles) : Prop := {
  kp_kept : pinned base url s' = Some fp;
  kp_refused : same_place base url o -> r = Some (Ok tt) -> fingerprint_of o = fp;
  kp_accepted : same_place base url o -> fingerprint_of o = fp -> lf_faults s = [] -> r = Some (Ok tt);
}.

Lemma keeps_elsewhere base url fp o s r s' path path' d : pin_file_path url base = Some path -> pin_file_path (op_url o) base = Some path' -> path' <> path ->
  lf_files s !! path = Some d -> pin_fingerprint <$> json_decode d = Some fp ->
  (lf_files s' = lf_files s \/ exists x, lf_files s' = <[path' := x]> (lf_files s)) -> keeps_pin base url fp o s r s'.
Proof.
  intros Eu Eo Hne Ed Hp Hf. split; [|unfold same_place; congruence..]. unfold pinned. rewrite Eu. cbn [mbind option_bind].
  destruct Hf as [E|[x E]]; rewrite E, ?lookup_insert_ne by done; by rewrite Ed.
Qed.

(** A pin is kept by an opening that does not overrule it. *)
Lemma open_one_keeps base url fp o s : pinned base url s = Some fp -> (same_place base url o -> op_trust o = false) ->
  let '(r, s') := open_one base o s in keeps_pin base url fp o s r s'.
Proof.
  intros Hp Ht. pose proof Hp as Hp0. unfold pinned in Hp. destruct (pin_file_path url base) as [path|] eqn:Eu; [|done]. cbn [mbind option_bind] in Hp.
  destruct (lf_files s !! path) as [d|] eqn:Ed; [|done]. cbn [mbind option_bind] in Hp. unfold open_one, verify_or_pin.
  destruct (pin_file_path (op_url o) base) as [path'|] eqn:Eo; [|split; [done|unfold same_place; congruence..]].
  set (fph := hex_encode (compute_fingerprint (op_repo_id o) (op_key o))). pose proof (call_fails_files s) as Hs.
  destruct (decide (path' = path)) as [->|Hne].
  - rewrite Ht by (unfold same_place; congruence). unfold read_to_string.
    assert (Hk : forall s1, lf_files s1 = lf_files s -> pinned base url s1 = Some fp) by (intros s1 E; unfold pinned in *; by rewrite E).
    assert (Hq : lf_faults s = [] -> (call_fails s).1 = false) by (intros E; unfold call_fails; by rewrite E).
    destruct (call_fails s) as [fails s1]. cbn [snd fst] in *. rewrite Hs, Ed. specialize (Hk s1 Hs).
    destruct fails; [split; [done|done|intros _ _ E; by specialize (Hq E)]|]. destruct (json_decode d) as [pin|]; [|done]. cbn [fmap option_fmap option_map] in Hp. injection Hp as Hp.
    destruct (String.eqb_spec (pin_fingerprint pin) fph) as [E|E]; [split; [done|intros _ _; unfold fingerprint_of; fold fph; congruence|done]|].
    destruct (_ <? 16)%nat; (split; [done|done|intros _ E'; unfold fingerprint_of in E'; fold fph in E'; congruence]).
  - assert (Hw : forall s1, lf_files s1 = lf_files s -> let '(r, s') := write_pin path' (op_url o) (op_repo_id o) fph s1 in keeps_pin base url fp o s (Some r) s').
    { intros s1 Hs1. pose proof (write_pin_files path' (op_url o) (op_repo_id o) fph s1) as H'. destruct (write_pin _ _ _ _ s1) as [r s']. destruct H' as [_ Hf]. rewrite Hs1 in Hf.
      eapply keeps_elsewhere; [done..|]. destruct Hf; eauto. }
    destruct (op_trust o); [specialize (Hw s eq_refl); destruct (write_pin _ _ _ _ s); exact Hw|].
    unfold read_to_string. destruct (call_fails s) as [fails s1]. cbn [snd] in Hs.
    assert (Hk : forall r, keeps_pin base url fp o s r s1) by (intros r; eapply keeps_elsewhere; [done..|by left]).
    destruct fails; [done|]. destruct (lf_files s1 !! path') as [d'|]; [|specialize (Hw s1 Hs); destruct (write_pin _ _ _ _ s1); exact Hw].
    destruct (json_decode d') as [pin|]; [|done]. destruct (String.eqb _ _); [done|]. by destruct (_ <? 16)%nat.
Qed.
End Files.

(** C23. A pinned identity stands: whatever repositories are opened afterwards, and
    whatever system calls fail, while no opening of the URL is told to trust,
    the pin stays, an opening of the URL succeeds only if it is the repository
    that was pinned, and does if it is and no call fails. *)
Theorem pin_stands `{Hhex : HexCodec} `{Hblake : Blake2b} `{Hpin : Json PinFile} base url fp openings s :
  pinned base url s = Some fp -> Forall (fun o => same_place base url o -> op_trust o = false) openings ->
  let '(answers, s') := open_all base openings s in
  pinned base url s' = Some fp /\
  Forall2 (fun o r => same_place base url o -> (r = Some (Ok tt) -> fingerprint_of o = fp) /\ (fingerprint_of o = fp -> lf_faults s = [] -> r = Some (Ok tt))) openings answers.
Proof.
  revert s. induction openings as [|o l IH]; intros s Hp Ht; cbn [open_all]; [by split|]. apply Forall_cons in Ht as [Ho Hl].
  pose proof (open_one_keeps base url fp o s Hp Ho) as H1. pose proof (open_one_faults base o s) as Hf. destruct (open_one base o s) as [r s1]. destruct H1 as [K1 K2 K3].
  specialize (IH s1 K1 Hl). destruct (open_all base l s1) as [rs s2]. destruct IH as [G1 G2]. split; [done|]. constructor; [auto|].
  eapply Forall2_impl; [exact G2|]. cbv beta. intros o' r' Hor Hsame. destruct (Hor Hsame). split; [done|]. auto.
Qed.

(** The first opening pins what it finds. *)
Lemma first_open_pins `{Hhex : HexCodec} `{Hblake : Blake2b} `{Hpin : Json PinFile} b o files : lf_files (mkLocalFiles files []) !! join_path b ("pin." +:+ hex_encode (blake2b (str_bytes (op_url o)))) = None ->
  let '(r, s) := open_one (Some b) o (mkLocalFiles files []) in r = Some (Ok tt) /\ pinned (Some b) (op_url o) s = Some (fingerprint_of o).
Proof.
  intros Hno. unfold open_one, verify_or_pin, pin_file_path. cbn [mbind option_bind]. unfold read_to_string, call_fails. cbn [lf_faults lf_files] in *. rewrite Hno.
  destruct (op_trust o); (split; [done|]); unfold pinned, pin_file_path, persist; cbn [mbind option_bind lf_files]; rewrite lookup_insert_eq; cbn [mbind option_bind]; by rewrite json_decode_encode.
Qed.

(** After a full check the next one is due when its interval is over, or when
    the repository is another one. *)
Lemma recorded_check_due `{Hhex : HexCodec} `{Hblake : Blake2b} `{Hcs : Json CheckStateFile} url fp fp' b interval t now files :
  (full_check_is_due url fp (Some b) interval now (record_full_check url fp' (Some b) t (mkLocalFiles files []))).1 = negb (String.eqb fp' fp) || (interval <=? now - t).
Proof.
  unfold full_check_is_due, last_full_check, record_full_check, check_state_path. cbn [mbind option_bind calls_fail call_fails lf_faults]. unfold read_to_string, call_fails, persist. cbn [lf_faults lf_files].
  rewrite lookup_insert_eq, json_decode_encode. cbn [mbind option_bind cs_fingerprint cs_last_full_check]. by destruct (String.eqb fp' fp).
Qed.

(** A pin whose fingerprint is shorter than sixteen characters ends the
    process, where one that is no JSON is an error. *)
Lemma short_pin_panics `{Hhex : HexCodec} `{Hblake : Blake2b} `{Hpin : Json PinFile} b url repo_id key :
  let path := join_path b ("pin." +:+ hex_encode (blake2b (str_bytes url))) in
  (verify_or_pin url repo_id key (Some b) false (mkLocalFiles {[path := json_encode (mkPin 1 "" "abc" url)]} [])).1 = None.
Proof.
  unfold verify_or_pin, pin_file_path. cbn [mbind option_bind]. unfold read_to_string, call_fails. cbn [lf_faults lf_files]. rewrite lookup_singleton_eq, json_decode_encode.
  cbn [pin_fingerprint]. destruct (String.eqb_spec "abc" (hex_encode (compute_fingerprint repo_id key))) as [E|]; [|done].
  apply (f_equal String.length) in E. rewrite hex_encode_length in E. cbn [String.length] in E. lia.
Qed.

(** ** A concrete codec *)

Definition toy_pin_encode (p : PinFile) : bytes := bits_encode (pin_version p, pin_repo_id p, pin_fingerprint p, pin_url p).
Definition toy_pin_decode (b : bytes) : option PinFile := (fun '(v, r, f, u) => mkPin v r f u) <$> bits_decode b.
#[export] Program Instance toy_pin_json : Json PinFile := { json_encode := toy_pin_encode; json_decode := toy_pin_decode }.
Next Obligation. intros [v r f u]. unfold toy_pin_decode, toy_pin_encode. by rewrite bits_decode_encode. Qed.

Definition id_first : Opening := mkOpening "u" [1] [2] false.
Definition id_other : Opening := mkOpening "u" [1] [3] false.
Definition id_pinned : LocalFiles := (open_one (Some "/c") id_first (mkLocalFiles ∅ [])).2.

(** Witness: another repository at a URL that is pinned. *)
Lemma pin_stands_witness : (open_all (Some "/c") [id_other; id_first] id_pinned).1 = [Some (Err (RepositoryMismatch "expected fingerprint")); Some (Ok tt)] /\
  pinned (Some "/c") "u" (open_all (Some "/c") [id_other; id_first] id_pinned).2 = Some (fingerprint_of id_first).
Proof.
  split; [vm_compute; reflexivity|].
  pose proof (pin_stands (Some "/c") "u" (fingerprint_of id_first) [id_other; id_first] id_pinned) as H. destruct (open_all (Some "/c") [id_other; id_first] id_pinned) as [answers s'].
  refine (proj1 (H _ _)); [vm_compute; reflexivity|]. apply Forall_cons. split; [reflexivity|]. apply Forall_singleton. reflexivity.
Defined.
